(* ===== verification/_CoqProject ===== *)
-Q . S2P
Prelude.v
Encoding.v
Order.v
Double.v
Strtod.v
Dtoa.v
SkipList.v
Strings.v
IntSet.v
Listpack.v
MapSpec.v
Dict.v
Limits.v
HashValue.v
ZSetValue.v
SetValue.v
ListValue.v
Db.v
Object.v
Resp.v
Reply.v
RespClient.v
Connection.v
Json.v
McpProtocol.v
KafkaWriter.v
KafkaWire.v
KafkaRecords.v
KafkaLog.v
KafkaBroker.v
Notify.v
PubSub.v
CommandTable.v
McpTools.v
McpMain.v
Lzf.v
Rdb.v
Command.v
Keyspace.v
RdbObject.v
RdbFile.v
Persistence.v
StringCommands.v
HashCommands.v
ListCommands.v
SetCommands.v
KeyspaceCommands.v
ZSetCommands.v
ZSetAlgebra.v
PersistCommands.v
Commands.v
Transaction.v
ServerCommands.v
AdminCommands.v
PubSubCommands.v
