(* ===== verification/Prelude.v ===== *)
(** * A verification library for mnemos

    mnemos is a Redis-compatible server in C++23 with two satellite programs
    that talk to it over its own protocol: an MCP server for language models and a
    Kafka broker. This library models the program function by function and proves that
    its parts do what they promise. File names below are under [src/] of the
    repository (the tree that holds [core/], [net/], [server/], ...).

    ** The program and its parts

    Bytes from a client reach [Server::readFromClient], which appends them to the
    client's query buffer; [RequestParser] cuts the buffer into commands;
    [Server::dispatch] finds the command in the command table, checks it (arity,
    subscriber mode, MULTI) and runs its handler; a handler reads and changes
    the client's database through [Database], whose values are [Value] objects
    in one of several encodings (listpack, intset, hash table, quicklist, skip
    list), writes its reply with [ReplyWriter] and announces the keys it changed,
    which touches watching transactions and, if configured, publishes keyspace
    events. Snapshots serialise the databases in the RDB format; DUMP and
    RESTORE serialise one value. The MCP server and the Kafka broker are
    clients: they send commands and parse replies with [RespClient].

    ** Files and what they model

    The order is that of dependency; each file opens with its own description.

    - shared: [Prelude.v] (this file: machine integers as [Z] with their wrap-around, byte
      strings as lists of [Z], little- and big-endian codes, the [mnemos] hint
      database, list lemmas), [Order.v] (byte order), [Double.v] (IEEE doubles as
      bit patterns), [Strtod.v] (the C library's strtod);
    - data structures: [Encoding.v], [Strings.v] (core/encoding, core/strings: integer parse,
      glob matcher), [Dtoa.v] (core/dtoa: grisu2), [IntSet.v], [Listpack.v], [Dict.v]
      behind the interface [MapSpec.v] (core/dict.h), [SkipList.v], and the value types on
      top: [Limits.v], [HashValue.v], [SetValue.v], [ListValue.v], [ZSetValue.v]
      (core/collections), [Object.v] (core/object);
    - protocol: [Resp.v] (requests), [Reply.v] (replies, both protocol versions),
      [Connection.v] (the read path of a client), [RespClient.v] (client/resp_client);
    - server: [Db.v] (server/db: keys with deadlines), [Notify.v] (notification flags),
      [PubSub.v] (subscriptions and delivery), [CommandTable.v] (the registry), [Command.v]
      (what a handler runs in: a state monad whose failure is undefined behaviour),
      [Keyspace.v] (the abstract keyspace and the weakest-precondition rules in which handlers are
      verified), one file per command family ([StringCommands.v], [HashCommands.v],
      [ListCommands.v], [SetCommands.v], [KeyspaceCommands.v], [ZSetCommands.v],
      [ZSetAlgebra.v], [PersistCommands.v]), [Commands.v] (all of them behind the registry, and
      sessions of many requests), [Transaction.v] (dispatch, MULTI/EXEC, WATCH),
      [ServerCommands.v] (the commands of server_commands that read or empty the databases:
      DBSIZE, FLUSHDB, FLUSHALL, OBJECT, MEMORY, DEBUG, the memory estimate of
      core/object), [AdminCommands.v] (commands/connection: PING, ECHO, SELECT, HELLO,
      AUTH, CLIENT, QUIT, RESET, and the reports of server_commands: INFO, CONFIG,
      COMMAND, TIME, LASTSAVE, SHUTDOWN) and [PubSubCommands.v] (PUBLISH, SPUBLISH, PUBSUB);
    - persistence: [Lzf.v], [Rdb.v], [RdbObject.v], [RdbFile.v] (persist/rdb: compression,
      primitives, values, files), [Persistence.v] (server/persistence);
    - MCP: [Json.v] (mcp/json), [McpProtocol.v] (mcp/protocol, over an interface to the tools),
      [McpTools.v] (mcp/tools, the instance), [McpMain.v] (mcp/main: flags and the stdio loop);
    - Kafka: [KafkaWriter.v], [KafkaWire.v] (kafka/wire), [KafkaRecords.v] (kafka/records),
      [KafkaLog.v] (kafka/log, over an interface to the server), [KafkaBroker.v] (kafka/broker).


    ** How the model relates to the code

    A function of the source is a definition of the same name; state is passed
    explicitly, in records with the fields of the class, or through a small
    monad where the source threads state and failure through many calls ([Command],
    the reader of [KafkaWire], the handlers of [KafkaBroker]). Integers keep their width ([u8],
    [i32], [u64], ... wrap). A result [None] of an operation is a failure the
    language leaves undefined (an index out of bounds, a dangling pointer, a signed
    overflow, a shift by too much) or a loop that does not end; theorems that say
    an operation returns [Some] therefore say that none of these happens.
    Loops that are not structural take fuel: the fuel is computed from the input (the
    length of a buffer for parsers, the number of entries for scans and
    rehashing, 64 turns for a binary search over 63-bit offsets, ten bytes for a varint,
    the page limit for the SCAN walk of the MCP tools), and the theorems show that it is never
    exhausted. Hash tables, the tools behind the MCP session and the server
    behind the Kafka log are type classes: what a client relies on is the class
    of laws ([MapLaws], [ToolLaws], [RespLaws]), and instances discharge it.

    What the program takes from its surroundings is an argument: the handler of an ordinary
    command in [Transaction.v]; random bits of skip lists and of random picks; clocks;
    what [write], [fork], [waitpid], [rename], [recv], [send], the resolver and [connect]
    return, and whether the process ignores SIGPIPE; the sizes at which [std::string]
    and [std::vector::reserve] throw; the sign of [char]; the value of a
    double-to-integer conversion that is out of range.

    Where a theorem has a side condition, the comment above it says so. Two
    are shared by many: the specification of a command is defined (it is not
    where the code overflows a signed integer), and the announcements compared
    are those the handlers make, not the new and expired events the database
    raises when it adds a key or notices an expired one.

    ** What the theorems show

    - Refinement of simple mathematical objects: hash table and finite map (also
      during incremental rehashing), listpack and list, skip list and sorted list,
      sorted set and sorted map, database and map with deadlines, each command
      family and the abstract keyspace, and a whole session on many databases.
    - Round trips: doubles through text, listpack lengths, requests and replies on the wire,
      record batches, LZF, values through DUMP and RESTORE, databases through a snapshot,
      JSON through its text, records from a Kafka producer to a consumer.
    - Safety and invariants: subscriptions recorded in the registry and in the
      clients agree; EXEC runs its queue only if no watched key was modified; a save that
      fails leaves the previous snapshot; a damaged DUMP payload is rejected; a
      read-only MCP session never sends a command that writes or administers;
      readers never leave their buffers.
    - Liveness and equivalence: a SCAN returns every key that stays; every pipelined command is
      executed; how the network fragments a stream is invisible to commands and
      to replies; every JSON-RPC request line is answered; the iterative glob matcher accepts the
      language of a pattern whose brackets are closed; without the password only
      commands open to everyone run; a transaction that watches an existing key
      sees FLUSHALL.

    ** Not modelled

    - INCRBYFLOAT and HINCRBYFLOAT: [long double] arithmetic and its formatting;
    - the event loop (net/event_loop: epoll, kqueue, timers), accepting connections,
      flushing output buffers, and [main.cpp]: operating system calls around the
      modelled parts;
    - failing allocations, except where a size comes from untrusted bytes: in the RDB
      reader and in the client's parser of aggregate replies;
    - text written to standard error.

    This file: machine integers, byte strings and shared list lemmas. *)

From Stdlib Require Import ZArith Lia.
From stdpp Require Import base list numbers gmap sorting strings.

#[global] Open Scope Z_scope.

(** ** Notations *)

(** [std::string], [std::string_view] and [std::vector<std::uint8_t>] are all
    sequences of bytes; a byte is a [Z] in [0, 256). *)
Abbreviation bytes := (list Z).

Declare Scope mnemos_scope.
Delimit Scope mnemos_scope with mn.

(** [xs =b? ys] is the C++ [==] on two byte strings. *)
Notation "xs =b? ys" := (bool_decide (xs =@{list Z} ys)) (at level 70) : mnemos_scope.
#[global] Open Scope mnemos_scope.

(** ** Automation *)

Create HintDb mnemos discriminated.
Create Rewrite HintDb mnemos_rw.

(** Division and remainder by constants reduced to linear arithmetic. *)
Ltac dmlia := Z.to_euclidean_division_equations; lia.

(** Turns every boolean comparison of the context or the goal into its
    proposition. *)
Ltac bools :=
  repeat match goal with
  | H : (_ && _) = true |- _ => apply andb_true_iff in H as [? ?]
  | H : (_ || _) = false |- _ => apply orb_false_iff in H as [? ?]
  | H : (_ && _) = false |- _ => apply andb_false_iff in H
  | H : (_ || _) = true |- _ => apply orb_true_iff in H
  | H : negb _ = true |- _ => apply negb_true_iff in H
  | H : negb _ = false |- _ => apply negb_false_iff in H
  | H : (_ =? _)%Z = true |- _ => apply Z.eqb_eq in H
  | H : (_ =? _)%Z = false |- _ => apply Z.eqb_neq in H
  | H : (_ <? _)%Z = true |- _ => apply Z.ltb_lt in H
  | H : (_ <? _)%Z = false |- _ => apply Z.ltb_ge in H
  | H : (_ <=? _)%Z = true |- _ => apply Z.leb_le in H
  | H : (_ <=? _)%Z = false |- _ => apply Z.leb_gt in H
  | H : (_ =? _)%nat = true |- _ => apply Nat.eqb_eq in H
  | H : (_ =? _)%nat = false |- _ => apply Nat.eqb_neq in H
  | H : (_ <? _)%nat = true |- _ => apply Nat.ltb_lt in H
  | H : (_ <? _)%nat = false |- _ => apply Nat.ltb_ge in H
  | H : (_ <=? _)%nat = true |- _ => apply Nat.leb_le in H
  | H : (_ <=? _)%nat = false |- _ => apply Nat.leb_gt in H
  | H : bool_decide _ = true |- _ => apply bool_decide_eq_true in H
  | H : bool_decide _ = false |- _ => apply bool_decide_eq_false in H
  end.

(** Closed decidable goals, by evaluating their decision procedure. *)
Ltac decide_now := refine (bool_decide_unpack _ _); vm_compute; exact I.

(** Case analysis on the condition of an [if] of the goal. *)
Ltac case_if :=
  match goal with
  | |- context [if ?b then _ else _] => destruct b eqn:?
  end.

(** [has_value()], or a pointer that is not null. *)
Definition is_some {A} (o : option A) : bool := match o with Some _ => true | None => false end.

(** ** Fixed-width integers *)

(** [static_cast] to an unsigned type of [w] bits. *)
Definition uwrap (w z : Z) : Z := z mod 2 ^ w.

(** [static_cast] to a signed two's-complement type of [w] bits. *)
Definition swrap (w z : Z) : Z := (z + 2 ^ (w - 1)) mod 2 ^ w - 2 ^ (w - 1).

Abbreviation u8 := (uwrap 8).
Abbreviation u16 := (uwrap 16).
Abbreviation u32 := (uwrap 32).
Abbreviation u64 := (uwrap 64).
Abbreviation i8 := (swrap 8).
Abbreviation i16 := (swrap 16).
Abbreviation i32 := (swrap 32).
Abbreviation i64 := (swrap 64).

Definition u_range (w z : Z) : Prop := 0 <= z < 2 ^ w.
Definition s_range (w z : Z) : Prop := - 2 ^ (w - 1) <= z < 2 ^ (w - 1).

Abbreviation is_byte := (u_range 8).
Abbreviation is_u16 := (u_range 16).
Abbreviation is_u32 := (u_range 32).
Abbreviation is_u64 := (u_range 64).
Abbreviation is_i64 := (s_range 64).
Abbreviation bytes_ok := (Forall is_byte).

#[global] Instance u_range_dec w z : Decision (u_range w z).
Proof. unfold u_range. apply _. Defined.
#[global] Instance s_range_dec w z : Decision (s_range w z).
Proof. unfold s_range. apply _. Defined.

Lemma uwrap_small w z : u_range w z -> uwrap w z = z.
Proof. unfold uwrap, u_range. intros. by apply Z.mod_small. Qed.

Lemma uwrap_range w z : 0 <= w -> u_range w (uwrap w z).
Proof.
  unfold uwrap, u_range. intros.
  apply Z.mod_pos_bound. by apply Z.pow_pos_nonneg.
Qed.

Lemma swrap_small w z : 0 < w -> s_range w z -> swrap w z = z.
Proof.
  unfold swrap, s_range. intros Hw Hz.
  assert (2 ^ w = 2 * 2 ^ (w - 1)) as Hp.
  { rewrite <- Z.pow_succ_r by lia. f_equal. lia. }
  rewrite Z.mod_small by lia. lia.
Qed.

Lemma swrap_range w z : 0 < w -> s_range w (swrap w z).
Proof.
  unfold swrap, s_range. intros Hw.
  assert (2 ^ w = 2 * 2 ^ (w - 1)) as Hp.
  { rewrite <- Z.pow_succ_r by lia. f_equal. lia. }
  assert (0 < 2 ^ (w - 1)) by (apply Z.pow_pos_nonneg; lia).
  pose proof (Z.mod_pos_bound (z + 2 ^ (w - 1)) (2 ^ w)). lia.
Qed.

(** Going through the unsigned type of the same width and back is the
    identity on the signed range: how every signed field is serialised. *)
Lemma swrap_uwrap w z : 0 < w -> s_range w z -> swrap w (uwrap w z) = z.
Proof.
  intros Hw Hz. rewrite <- (swrap_small w z Hw Hz) at 2.
  unfold swrap, uwrap. f_equal.
  rewrite Zplus_mod_idemp_l. done.
Qed.

Lemma swrap_mod w z : 0 < w -> swrap w (z mod 2 ^ w) = swrap w z.
Proof. intros. unfold swrap. by rewrite Zplus_mod_idemp_l. Qed.

#[export] Hint Resolve uwrap_range swrap_range : mnemos.

(** ** Little- and big-endian byte sequences *)

Fixpoint le_bytes (n : nat) (z : Z) : bytes :=
  match n with
  | O => []
  | S n => z mod 256 :: le_bytes n (z / 256)
  end.

Fixpoint le_val (bs : bytes) : Z :=
  match bs with
  | [] => 0
  | b :: bs => b + 256 * le_val bs
  end.

Definition be_bytes (n : nat) (z : Z) : bytes := rev (le_bytes n z).
Definition be_val (bs : bytes) : Z := le_val (rev bs).

Lemma length_le_bytes n z : length (le_bytes n z) = n.
Proof. revert z. induction n; simpl; auto. Qed.

Lemma length_be_bytes n z : length (be_bytes n z) = n.
Proof. unfold be_bytes. rewrite length_rev. apply length_le_bytes. Qed.

Lemma pow256_succ n : 2 ^ (8 * Z.of_nat (S n)) = 256 * 2 ^ (8 * Z.of_nat n).
Proof.
  replace (8 * Z.of_nat (S n)) with (8 + 8 * Z.of_nat n) by lia.
  rewrite Z.pow_add_r by lia. reflexivity.
Qed.

Lemma le_val_bytes n z : le_val (le_bytes n z) = z mod 2 ^ (8 * Z.of_nat n).
Proof.
  revert z. induction n as [|n IH]; intros z.
  - simpl. by rewrite Z.mod_1_r.
  - cbn [le_bytes le_val]. rewrite IH, pow256_succ.
    rewrite Z.rem_mul_r by (try lia; apply Z.pow_nonzero; lia). lia.
Qed.

Lemma le_val_bytes_small n z :
  u_range (8 * Z.of_nat n) z -> le_val (le_bytes n z) = z.
Proof. intros. rewrite le_val_bytes. by apply Z.mod_small. Qed.

Lemma le_bytes_ok n z : bytes_ok (le_bytes n z).
Proof.
  revert z. induction n; simpl; constructor; auto.
  unfold u_range. apply Z.mod_pos_bound. lia.
Qed.

Lemma le_val_range bs : bytes_ok bs -> u_range (8 * Z.of_nat (length bs)) (le_val bs).
Proof.
  induction 1 as [|b bs Hb _ IH]; unfold u_range in *.
  - simpl. lia.
  - cbn [le_val length]. rewrite pow256_succ.
    change (2 ^ 8) with 256 in Hb. nia.
Qed.

Lemma le_bytes_val bs : bytes_ok bs -> le_bytes (length bs) (le_val bs) = bs.
Proof.
  induction 1 as [|b bs Hb _ IH]; simpl; [done|].
  unfold u_range in Hb. change (2 ^ 8) with 256 in Hb.
  replace (b + 256 * le_val bs) with (b + le_val bs * 256) by lia.
  f_equal.
  - rewrite Z.mod_add by lia. by apply Z.mod_small.
  - rewrite Z.div_add by lia. rewrite Z.div_small by lia. by rewrite Z.add_0_l, IH.
Qed.

Lemma le_bytes_val_at n bs : length bs = n -> bytes_ok bs -> le_bytes n (le_val bs) = bs.
Proof. intros <-. apply le_bytes_val. Qed.

(** Two's complement through [n] bytes: what every signed fixed-width field
    relies on. *)
Lemma le_signed_round n z :
  (0 < n)%nat -> s_range (8 * Z.of_nat n) z ->
  swrap (8 * Z.of_nat n) (le_val (le_bytes n z)) = z.
Proof.
  intros Hn Hz. rewrite le_val_bytes, swrap_mod by lia.
  apply swrap_small; [lia|done].
Qed.

(** Only the low [n] bytes of a value matter to its serialisation. *)
Lemma le_bytes_mod n m z : (n <= m)%nat -> le_bytes n (z mod 2 ^ (8 * Z.of_nat m)) = le_bytes n z.
Proof.
  revert m z. induction n as [|n IH]; intros m z Hm; [done|].
  destruct m as [|m]; [lia|]. cbn [le_bytes]. rewrite pow256_succ.
  assert (2 ^ (8 * Z.of_nat m) <> 0) by (apply Z.pow_nonzero; lia).
  rewrite Z.rem_mul_r by (try lia).
  f_equal.
  - rewrite Z.mul_comm, Z.mod_add by lia. by rewrite Z.mod_mod.
  - rewrite Z.mul_comm, Z.div_add, Z.div_small, Z.add_0_l by (try lia; apply Z.mod_pos_bound; lia).
    apply IH. lia.
Qed.

Lemma le_bytes_uwrap n w z :
  0 <= w -> w mod 8 = 0 -> 8 * Z.of_nat n <= w -> le_bytes n (uwrap w z) = le_bytes n z.
Proof.
  intros Hw H8 Hn. unfold uwrap. rewrite <- (le_bytes_mod n (Z.to_nat (w / 8)) z) by dmlia.
  do 3 f_equal. dmlia.
Qed.

Lemma le_bytes_swrap n z : (0 < n)%nat -> le_bytes n (swrap (8 * Z.of_nat n) z) = le_bytes n z.
Proof.
  intros Hn. rewrite <- (le_bytes_mod n n), <- (le_bytes_mod n n z) by lia. f_equal.
  unfold swrap. rewrite Zminus_mod_idemp_l. f_equal. lia.
Qed.

Lemma be_val_bytes n z : be_val (be_bytes n z) = z mod 2 ^ (8 * Z.of_nat n).
Proof. unfold be_val, be_bytes. rewrite rev_involutive. apply le_val_bytes. Qed.

Lemma be_bytes_ok n z : bytes_ok (be_bytes n z).
Proof. unfold be_bytes. apply Forall_rev. apply le_bytes_ok. Qed.

#[export] Hint Resolve le_bytes_ok be_bytes_ok : mnemos.
#[export] Hint Rewrite length_le_bytes length_be_bytes : mnemos_rw.

(** The masks and shifts of the source, as arithmetic. *)
Lemma land_255 z : Z.land z 255 = z mod 256.
Proof. change 255 with (Z.ones 8). by rewrite Z.land_ones by lia. Qed.

Lemma land_127 z : Z.land z 127 = z mod 128.
Proof. change 127 with (Z.ones 7). by rewrite Z.land_ones by lia. Qed.

Lemma shiftr_div z n : 0 <= n -> Z.shiftr z n = z / 2 ^ n.
Proof. intros. by apply Z.shiftr_div_pow2. Qed.

Lemma shiftl_mul z n : 0 <= n -> Z.shiftl z n = z * 2 ^ n.
Proof. intros. by apply Z.shiftl_mul_pow2. Qed.

(** [a | (b << n)] is addition when [a] fits in [n] bits. *)
Lemma lor_shiftl a b n : 0 <= n -> 0 <= a < 2 ^ n -> Z.lor a (Z.shiftl b n) = a + b * 2 ^ n.
Proof.
  intros Hn Ha. rewrite <- shiftl_mul by lia.
  symmetry. rewrite <- Z.lxor_lor; [apply Z.add_nocarry_lxor|].
  all: apply Z.bits_inj'; intros i Hi; rewrite Z.land_spec, Z.testbit_0_l;
    destruct (decide (i < n));
    [ rewrite Z.shiftl_spec_low by lia; apply andb_false_r
    | rewrite <- (Z.mod_small a (2 ^ n)) by lia;
      rewrite Z.mod_pow2_bits_high by lia; done ].
Qed.

Lemma land_low_shiftl a b n : 0 <= n -> 0 <= a < 2 ^ n -> Z.lor (Z.shiftl b n) a = a + b * 2 ^ n.
Proof. intros. rewrite Z.lor_comm. by apply lor_shiftl. Qed.

(** ** Vector operations *)

(** [v.insert(v.begin() + at, xs.begin(), xs.end())] *)
Definition vinsert {A} (pos : nat) (xs l : list A) : list A :=
  take pos l ++ xs ++ drop pos l.

(** [v.erase(v.begin() + a, v.begin() + b)] *)
Definition verase {A} (a b : nat) (l : list A) : list A := take a l ++ drop b l.

(** [std::copy] of [xs] over the elements at [pos], in place. *)
Definition voverwrite {A} (pos : nat) (xs l : list A) : list A :=
  take pos l ++ xs ++ drop (pos + length xs) l.

Lemma vinsert_app {A} (p s xs : list A) :
  vinsert (length p) xs (p ++ s) = p ++ xs ++ s.
Proof. unfold vinsert. by rewrite take_app_length, drop_app_length. Qed.

Lemma verase_app {A} (p m s : list A) :
  verase (length p) (length p + length m) (p ++ m ++ s) = p ++ s.
Proof.
  unfold verase. rewrite take_app_length. f_equal.
  rewrite <- drop_drop, drop_app_length. apply drop_app_length.
Qed.

Lemma voverwrite_app {A} (p m s xs : list A) :
  length m = length xs ->
  voverwrite (length p) xs (p ++ m ++ s) = p ++ xs ++ s.
Proof.
  intros Hl. unfold voverwrite. rewrite take_app_length, <- Hl.
  rewrite <- drop_drop, drop_app_length, drop_app_length. done.
Qed.

Lemma drop_app_at {A} (n : nat) (p s : list A) : n = length p -> drop n (p ++ s) = s.
Proof. intros ->. apply drop_app_length. Qed.

(** ** Decimal text *)

(** The digits of [std::to_string], most significant first. The fuel
    [1 + log2 n] exceeds the number of decimal digits of [n]. *)
Fixpoint digits_fuel (fuel : nat) (n : Z) : bytes :=
  match fuel with
  | O => []
  | S fuel => if n <? 10 then [48 + n] else digits_fuel fuel (n / 10) ++ [48 + n mod 10]
  end.

Definition digits (n : Z) : bytes := digits_fuel (S (Z.to_nat (Z.log2 n))) n.

(** [std::to_string] on an integer. *)
Definition to_string (n : Z) : bytes :=
  if n <? 0 then 45 :: digits (- n) else digits n.

Lemma log2_div10 n : 10 <= n -> Z.log2 (n / 10) < Z.log2 n.
Proof.
  intros. apply Z.log2_lt_pow2; [dmlia|].
  apply Z.le_lt_trans with (n / 2); [dmlia|].
  pose proof (Z.log2_spec n ltac:(lia)) as [_ Hs].
  rewrite Z.pow_succ_r in Hs by apply Z.log2_nonneg. dmlia.
Qed.

Lemma digits_fuel_enough f1 f2 n :
  0 <= n -> (Z.to_nat (Z.log2 n) < f1)%nat -> (Z.to_nat (Z.log2 n) < f2)%nat ->
  digits_fuel f1 n = digits_fuel f2 n.
Proof.
  revert f2 n. induction f1 as [|f1 IH]; intros [|f2] n Hn H1 H2; try lia.
  simpl. destruct (n <? 10) eqn:Hlt; [done|]. bools.
  pose proof (log2_div10 n ltac:(lia)).
  f_equal. apply IH; [dmlia| |]; pose proof (Z.log2_nonneg (n / 10)); lia.
Qed.

Lemma digits_small n : 0 <= n < 10 -> digits n = [48 + n].
Proof. intros. unfold digits. simpl. destruct (Z.ltb_spec n 10); [done|lia]. Qed.

Lemma digits_step n : 10 <= n -> digits n = digits (n / 10) ++ [48 + n mod 10].
Proof.
  intros. unfold digits at 1. simpl digits_fuel. destruct (Z.ltb_spec n 10); [lia|].
  f_equal. unfold digits.
  pose proof (log2_div10 n ltac:(lia)).
  apply digits_fuel_enough; [dmlia| |]; pose proof (Z.log2_nonneg (n / 10)); lia.
Qed.

(** The bytes of a C++ string literal. *)
Definition str (s : string) : bytes :=
  map (fun a => Z.of_N (Ascii.N_of_ascii a)) (String.list_ascii_of_string s).

(** ** Loops over bytes *)

(** [for i in 0..n: out.push_back((v >> (8 * i)) & 0xFF)] *)
Definition push_le (n : nat) (v : Z) : bytes :=
  map (fun i => u8 (Z.land (Z.shiftr v (8 * Z.of_nat i)) 255)) (seq 0 n).

(** [raw |= p[i] << (8 * i)] for [i] from 0 to [n - 1]. *)
Definition or_le (n : nat) (p : bytes) : Z :=
  foldl (fun raw i => Z.lor raw (Z.shiftl (p !!! i) (8 * Z.of_nat i))) 0 (seq 0 n).

Lemma u8_land_shiftr v i : 0 <= i -> u8 (Z.land (Z.shiftr v i) 255) = (v / 2 ^ i) mod 256.
Proof.
  intros. rewrite land_255, shiftr_div by done. unfold uwrap. by rewrite Z.mod_mod.
Qed.

Lemma push_le_bytes n v : push_le n v = le_bytes n v.
Proof.
  unfold push_le.
  assert (forall k, map (fun i => u8 (Z.land (Z.shiftr v (8 * Z.of_nat i)) 255)) (seq k n)
    = le_bytes n (v / 2 ^ (8 * Z.of_nat k))) as H.
  { induction n as [|n IH]; intros k; [done|]. cbn [seq map le_bytes].
    rewrite u8_land_shiftr by lia. f_equal. rewrite IH. f_equal.
    rewrite pow256_succ. rewrite (Z.mul_comm 256), Z.div_div by (try lia; apply Z.pow_nonzero; lia).
    done. }
  rewrite H. simpl. by rewrite Z.div_1_r.
Qed.

Lemma le_val_snoc bs b : le_val (bs ++ [b]) = le_val bs + b * 2 ^ (8 * Z.of_nat (length bs)).
Proof.
  induction bs as [|c bs IH]; [simpl; lia|].
  cbn [app le_val length]. rewrite IH, pow256_succ. lia.
Qed.

Lemma or_le_val n p :
  bytes_ok (take n p) -> (n <= length p)%nat -> or_le n p = le_val (take n p).
Proof.
  induction n as [|n IH]; intros Hp Hn; [done|].
  unfold or_le. rewrite seq_S, foldl_app. cbn [foldl].
  change (foldl _ 0 (seq 0 n)) with (or_le n p). rewrite Nat.add_0_l.
  destruct (lookup_lt_is_Some_2 p n) as [b Hb]; [lia|].
  rewrite (take_S_r _ _ _ Hb) in *. apply Forall_app in Hp as [Hp _].
  rewrite le_val_snoc, (list_lookup_total_correct _ _ _ Hb).
  rewrite IH by (done || lia). rewrite length_take, Nat.min_l by lia.
  apply lor_shiftl; [lia|].
  pose proof (le_val_range (take n p) Hp) as Hr.
  unfold u_range in Hr. rewrite length_take, Nat.min_l in Hr by lia. lia.
Qed.

Lemma or_le_app n bs rest :
  length bs = n -> bytes_ok bs -> or_le n (bs ++ rest) = le_val bs.
Proof.
  intros <- Hb. rewrite or_le_val; rewrite ?take_app_length; try done.
  rewrite length_app. lia.
Qed.

(** ** Facts about single bytes, by enumeration *)

Lemma byte_cases (n : nat) (P : Z -> bool) :
  forallb (fun i => P (Z.of_nat i)) (seq 0 n) = true ->
  forall b, 0 <= b < Z.of_nat n -> P b = true.
Proof.
  intros H b Hb. rewrite forallb_forall in H.
  rewrite <- (Z2Nat.id b) by lia. apply H. apply in_seq. lia.
Qed.

(** [byte_fact n b] proves [f b = g b] for a [b] below [n] by computing all
    cases; the goal is an equation between booleans or integers. *)
Ltac byte_eqb n b :=
  match goal with
  | |- @eq bool ?l ?r =>
      let f := eval pattern b in l in
      let g := eval pattern b in r in
      match f with ?f' _ => match g with ?g' _ =>
        apply (proj1 (Bool.eqb_true_iff l r));
        apply (byte_cases n (fun b => Bool.eqb (f' b) (g' b))); [vm_compute; reflexivity | cbn; lia]
      end end
  | |- @eq Z ?l ?r =>
      let f := eval pattern b in l in
      let g := eval pattern b in r in
      match f with ?f' _ => match g with ?g' _ =>
        apply (proj1 (Z.eqb_eq l r));
        apply (byte_cases n (fun b => Z.eqb (f' b) (g' b))); [vm_compute; reflexivity | cbn; lia]
      end end
  end.
