(* ===== verification/Encoding.v ===== *)
(** * Encoding: object types, encodings, and the strict integer parse

    [src/core/encoding.h] and [src/core/encoding.cpp]. The parse
    [stringToInt64] decides everywhere in the server whether a byte string is
    kept as text or as an integer: string objects, listpack entries, intset
    members and RDB strings. Its specification is an equivalence: it accepts
    exactly the canonical decimal spelling ([std::to_string]) of the int64
    values. *)

From Stdlib Require Import ZArith Lia.
From stdpp Require Import base list numbers strings.
From S2P Require Import Prelude.

Inductive ObjType := OString | OList | OSet | OHash | OZSet.

Inductive ObjEncoding :=
  | EInt | EEmbStr | ERaw | EListPack | EQuickList | EIntSet | EHashTable | ESkipList.

#[global] Instance ObjType_eq_dec : EqDecision ObjType.
Proof. solve_decision. Defined.
#[global] Instance ObjEncoding_eq_dec : EqDecision ObjEncoding.
Proof. solve_decision. Defined.

Definition typeName (t : ObjType) : bytes :=
  match t with
  | OString => str "string" | OList => str "list" | OSet => str "set"
  | OHash => str "hash" | OZSet => str "zset"
  end.

Definition encodingName (e : ObjEncoding) : bytes :=
  match e with
  | EInt => str "int" | EEmbStr => str "embstr" | ERaw => str "raw"
  | EListPack => str "listpack" | EQuickList => str "quicklist"
  | EIntSet => str "intset" | EHashTable => str "hashtable"
  | ESkipList => str "skiplist"
  end.

Definition kEmbStrSizeLimit : nat := 44.

(** The digit loop: [acc] is a [std::uint64_t], and the guard refuses a digit
    that would overflow it. *)
Fixpoint accumulate (ds : bytes) (acc : Z) : option Z :=
  match ds with
  | [] => Some acc
  | c :: ds =>
      if (c <? 48) || (57 <? c) then None
      else
        let digit := u64 (c - 48) in
        if (2 ^ 64 - 1 - digit) / 10 <? acc then None
        else accumulate ds (u64 (acc * 10 + digit))
  end.

Definition stringToInt64 (s : bytes) : option Z :=
  if (length s =? 0)%nat || (21 <=? length s)%nat then None
  else
    let negative := s !!! 0%nat =? 45 in
    if negative && (length s =? 1)%nat then None
    else
      let i := if negative then 1%nat else 0%nat in
      if s !!! i =? 48 then
        if negb (length s - i =? 1)%nat then None
        else if negative then None
        else Some 0
      else
        match accumulate (drop i s) 0 with
        | None => None
        | Some acc =>
            let kMax := 2 ^ 63 - 1 in
            if negative then
              if kMax + 1 <? acc then None
              else Some (if acc =? kMax + 1 then - 2 ^ 63 else - acc)
            else if kMax <? acc then None
            else Some acc
        end.

(** ** The value of a digit string *)

Definition is_digit (c : Z) : Prop := 48 <= c <= 57.

Fixpoint dec_val (acc : Z) (ds : bytes) : Z :=
  match ds with
  | [] => acc
  | c :: ds => dec_val (acc * 10 + (c - 48)) ds
  end.

Lemma dec_val_app acc ds c : dec_val acc (ds ++ [c]) = dec_val acc ds * 10 + (c - 48).
Proof. revert acc. induction ds; intros; simpl; auto. Qed.

Lemma dec_val_mono acc ds : 0 <= acc -> Forall is_digit ds -> acc <= dec_val acc ds.
Proof.
  intros Ha Hd. revert acc Ha. induction Hd as [|c ds Hc _ IH]; intros acc Ha; simpl; [lia|].
  unfold is_digit in Hc. specialize (IH (acc * 10 + (c - 48))). lia.
Qed.

(** The guarded loop computes the unbounded value whenever that value fits in
    64 bits, and fails on everything else. *)
Lemma accumulate_spec ds acc v :
  is_u64 acc ->
  accumulate ds acc = Some v <-> Forall is_digit ds /\ v = dec_val acc ds /\ v < 2 ^ 64.
Proof.
  unfold u_range. revert acc. induction ds as [|c ds IH]; intros acc Ha; simpl.
  { split; [intros [= <-]; repeat split; auto; lia | intros (_ & -> & _); done]. }
  destruct ((c <? 48) || (57 <? c)) eqn:Hc.
  { split; [done|]. intros (Hd & _). inversion Hd as [|? ? Hd']; subst.
    unfold is_digit in Hd'. bools. lia. }
  bools.
  assert (uwrap 64 (c - 48) = c - 48) as -> by (apply uwrap_small; unfold u_range; lia).
  destruct ((2 ^ 64 - 1 - (c - 48)) / 10 <? acc) eqn:Ho; bools.
  { split; [done|]. intros (Hd & -> & Hlt). inversion Hd; subst.
    pose proof (dec_val_mono (acc * 10 + (c - 48)) ds). dmlia. }
  assert (0 <= acc * 10 + (c - 48) < 2 ^ 64) by dmlia.
  rewrite uwrap_small by (unfold u_range; lia).
  rewrite IH, Forall_cons by lia. unfold is_digit.
  split; intros (? & ? & ?); [split; [split; [lia|done]|done]|]. by destruct_and!.
Qed.

(** ** [std::to_string] *)

Lemma digits_ind (P : Z -> Prop) :
  (forall n, 0 <= n < 10 -> P n) ->
  (forall n, 10 <= n -> P (n / 10) -> P n) ->
  forall n, 0 <= n -> P n.
Proof.
  intros Hs Hi. assert (forall n, 0 <= n -> 0 <= n -> P n) as H; [|auto].
  apply (Z_lt_induction (fun n => 0 <= n -> P n)). intros n IH Hn.
  destruct (decide (n < 10)); [apply Hs; lia|].
  apply Hi; [lia|]. apply IH; dmlia.
Qed.

Lemma digits_digit n : 0 <= n -> Forall is_digit (digits n).
Proof.
  revert n. apply digits_ind; intros n Hn.
  - rewrite digits_small by done. repeat constructor; lia.
  - intros IH. rewrite digits_step by done. apply Forall_app_2; [done|].
    repeat constructor; dmlia.
Qed.

Lemma dec_val_digits n : 0 <= n -> dec_val 0 (digits n) = n.
Proof.
  revert n. apply digits_ind; intros n Hn.
  - rewrite digits_small by done. simpl. lia.
  - intros IH. rewrite digits_step, dec_val_app, IH by done. dmlia.
Qed.

(** A non-empty digit string without a leading zero is its own spelling. *)
Lemma digits_dec_val ds :
  ds <> [] -> ds !!! 0%nat <> 48 -> Forall is_digit ds -> digits (dec_val 0 ds) = ds.
Proof.
  induction ds as [|c ds IH] using rev_ind; [done|]. intros _ H0 Hd.
  apply Forall_app in Hd as [Hd Hc]. inversion Hc as [|? ? Hc']; subst. unfold is_digit in Hc'.
  rewrite dec_val_app. destruct ds as [|d ds].
  { simpl in *. rewrite digits_small by lia. f_equal. lia. }
  assert (d <> 48) by done.
  assert (Hd0 : is_digit d) by (by inversion Hd).
  assert (1 <= dec_val 0 (d :: ds)).
  { simpl. inversion Hd; subst. unfold is_digit in Hd0.
    etrans; [|apply dec_val_mono]; [lia|lia|done]. }
  rewrite digits_step by lia.
  replace ((dec_val 0 (d :: ds) * 10 + (c - 48)) / 10) with (dec_val 0 (d :: ds)) by dmlia.
  rewrite IH; [|done..]. f_equal. f_equal. dmlia.
Qed.

Lemma digits_cons n : 0 <= n -> exists d ds,
  digits n = d :: ds /\ is_digit d /\ (d = 48 -> n = 0 /\ ds = []).
Proof.
  revert n. apply digits_ind; intros n Hn.
  - rewrite digits_small by done. exists (48 + n), []. unfold is_digit.
    split; [done|]. split; [lia|]. intros. split; [lia|done].
  - intros (d & ds & Heq & Hd & Hz). rewrite digits_step, Heq by done.
    exists d, (ds ++ [48 + n mod 10]). split; [done|]. split; [done|]. intros ->.
    destruct Hz as [Hz _]; [done|]. dmlia.
Qed.

Lemma length_digits_bound n k :
  0 <= n < 10 ^ Z.of_nat k -> (0 < k)%nat -> (length (digits n) <= k)%nat.
Proof.
  intros Hn. revert k Hn.
  assert (0 <= n -> forall k, n < 10 ^ Z.of_nat k -> (0 < k)%nat -> (length (digits n) <= k)%nat).
  2: { intros k ? ?. apply H; lia. }
  revert n. apply (digits_ind (fun n => forall k, n < 10 ^ Z.of_nat k -> (0 < k)%nat -> (length (digits n) <= k)%nat)); intros n Hn.
  - intros k _ Hk. rewrite digits_small by done. simpl. lia.
  - intros IH [|[|k]] Hlt Hk; [lia|simpl in Hlt; lia|].
    rewrite digits_step, length_app by done. simpl.
    specialize (IH (S k)).
    replace (Z.of_nat (S (S k))) with (1 + Z.of_nat (S k)) in Hlt by lia.
    rewrite Z.pow_add_r in Hlt by lia.
    assert (n / 10 < 10 ^ Z.of_nat (S k)) by (apply Z.div_lt_upper_bound; lia).
    lia.
Qed.


(** ** Correctness of the parse *)

Lemma accumulate_digits n : 0 <= n < 2 ^ 64 -> accumulate (digits n) 0 = Some n.
Proof.
  intros Hn. apply accumulate_spec; [done|].
  rewrite dec_val_digits by lia. split; [apply digits_digit; lia|]. split; [done|lia].
Qed.

Lemma length_digits_pos n : 0 <= n -> (0 < length (digits n))%nat.
Proof. intros Hn. destruct (digits_cons n Hn) as (d & ds & -> & _). simpl. lia. Qed.

(** The two branches of the parse, without and with a sign. *)
Lemma stringToInt64_unsigned s :
  (0 < length s < 21)%nat -> s !!! 0%nat <> 45 ->
  stringToInt64 s =
    if s !!! 0%nat =? 48 then if (length s =? 1)%nat then Some 0 else None
    else acc ← accumulate s 0; if 2 ^ 63 - 1 <? acc then None else Some acc.
Proof.
  intros Hl Hm. unfold stringToInt64.
  destruct (Nat.eqb_spec (length s) 0); [lia|]. destruct (Nat.leb_spec 21 (length s)); [lia|].
  destruct (Z.eqb_spec (s !!! 0%nat) 45); [done|]. simpl orb. cbv zeta. simpl andb. cbv iota.
  rewrite Nat.sub_0_r. destruct (_ =? 48); [by destruct (length s =? 1)%nat|].
  rewrite drop_0. by destruct (accumulate s 0).
Qed.

Lemma stringToInt64_signed s :
  (0 < length s < 20)%nat ->
  stringToInt64 (45 :: s) =
    if s !!! 0%nat =? 48 then None
    else acc ← accumulate s 0; if 2 ^ 63 <? acc then None else Some (- acc).
Proof.
  intros Hl. unfold stringToInt64. cbn [length].
  change ((45 :: s) !!! 0%nat =? 45) with true. cbv zeta. cbn iota.
  change ((45 :: s) !!! 1%nat) with (s !!! 0%nat). change (drop 1 (45 :: s)) with s.
  destruct (Nat.eqb_spec (S (length s)) 0); [lia|].
  destruct (Nat.leb_spec 21 (S (length s))); [lia|].
  destruct (Nat.eqb_spec (S (length s)) 1); [lia|]. cbn [orb andb].
  destruct (s !!! 0%nat =? 48); [by destruct (negb _)|].
  destruct (accumulate s 0) as [acc|]; [|done]. simpl mbind.
  replace (2 ^ 63 - 1 + 1) with (2 ^ 63) by lia.
  destruct (Z.ltb_spec (2 ^ 63) acc); [done|].
  by destruct (Z.eqb_spec acc (2 ^ 63)) as [->|].
Qed.

Lemma stringToInt64_to_string n : is_i64 n -> stringToInt64 (to_string n) = Some n.
Proof.
  unfold s_range, to_string. change (64 - 1) with 63. intros Hn.
  set (m := Z.abs n).
  pose proof (length_digits_bound m 19 ltac:(lia) ltac:(lia)).
  pose proof (length_digits_pos m ltac:(lia)).
  destruct (digits_cons m) as (d & ds & E & Hd & Hz); [lia|]. unfold is_digit in Hd.
  pose proof (accumulate_digits m ltac:(lia)) as Hacc.
  destruct (Z.ltb_spec n 0).
  - replace (- n) with m by lia. rewrite stringToInt64_signed, Hacc by lia.
    rewrite E. cbn [lookup_total list_lookup_total mbind option_bind].
    destruct (Z.eqb_spec d 48); [lia|]. destruct (Z.ltb_spec (2 ^ 63) m); [lia|]. f_equal. lia.
  - replace n with m by lia.
    rewrite stringToInt64_unsigned, Hacc; [|lia|rewrite E; simpl; lia].
    rewrite E. cbn [lookup_total list_lookup_total mbind option_bind].
    destruct (Z.eqb_spec d 48) as [->|].
    + destruct Hz as [-> ->]; done.
    + destruct (Z.ltb_spec (2 ^ 63 - 1) m); [lia|done].
Qed.

(** Reads back what the digit loop accepted. *)
Lemma accumulate_text s acc :
  accumulate s 0 = Some acc -> s <> [] -> s !!! 0%nat <> 48 -> 0 < acc /\ s = digits acc.
Proof.
  intros Hacc Hne H0. apply accumulate_spec in Hacc as (Hd & -> & _); [|done].
  rewrite digits_dec_val by done. split; [|done].
  destruct s as [|c s]; [done|]. inversion Hd as [|? ? Hc]; subst. unfold is_digit in Hc.
  simpl in *. eapply Z.lt_le_trans; [|apply dec_val_mono; [|done]]; lia.
Qed.

Lemma stringToInt64_sound s n : stringToInt64 s = Some n -> is_i64 n /\ s = to_string n.
Proof.
  unfold s_range, to_string. change (64 - 1) with 63. intros Hs.
  assert (0 < length s < 21)%nat as Hl.
  { unfold stringToInt64 in Hs.
    destruct (Nat.eqb_spec (length s) 0); [done|].
    destruct (Nat.leb_spec 21 (length s)); [done|lia]. }
  destruct (decide (s !!! 0%nat = 45)) as [H45|H45].
  - destruct s as [|c s]; [done|]. simpl in H45. subst c.
    destruct (decide (length s = 0)%nat) as [Hl0|Hl0].
    { by rewrite (nil_length_inv s) in Hs by done. }
    simpl in Hl. rewrite stringToInt64_signed in Hs by lia.
    destruct (Z.eqb_spec (s !!! 0%nat) 48); [done|].
    destruct (accumulate s 0) as [acc|] eqn:Hacc; [|done]. simpl in Hs.
    destruct (Z.ltb_spec (2 ^ 63) acc); simplify_eq.
    apply accumulate_text in Hacc as [? ->]; [|intros ->; simpl in *; lia|done].
    split; [lia|]. destruct (Z.ltb_spec (- acc) 0); [|lia]. by rewrite Z.opp_involutive.
  - rewrite stringToInt64_unsigned in Hs by done.
    destruct (Z.eqb_spec (s !!! 0%nat) 48) as [H48|].
    + destruct (Nat.eqb_spec (length s) 1) as [H1|]; simplify_eq.
      destruct s as [|c [|]]; [done| |done]. simpl in H48. subst c. split; [lia|done].
    + destruct (accumulate s 0) as [acc|] eqn:Hacc; [|done]. simpl in Hs.
      destruct (Z.ltb_spec (2 ^ 63 - 1) acc); simplify_eq.
      apply accumulate_text in Hacc as [? ->]; [|intros ->; simpl in *; lia|done].
      split; [lia|]. destruct (Z.ltb_spec n 0); [lia|done].
Qed.

(** [stringToInt64] accepts a byte string exactly when it is the canonical
    decimal spelling of an int64, and then returns that integer; so "007",
    "-0", "+1", " 1" and anything out of range are refused. *)
Theorem stringToInt64_correct s n :
  stringToInt64 s = Some n <-> is_i64 n /\ s = to_string n.
Proof.
  split; [apply stringToInt64_sound|].
  intros [Hn ->]. by apply stringToInt64_to_string.
Qed.

Lemma to_string_inj n m : is_i64 n -> is_i64 m -> to_string n = to_string m -> n = m.
Proof.
  intros Hn Hm He. apply stringToInt64_to_string in Hn, Hm. congruence.
Qed.

Lemma digits_bytes_ok n : 0 <= n -> bytes_ok (digits n).
Proof.
  intros Hn. eapply Forall_impl; [by apply digits_digit|].
  unfold is_digit, u_range. lia.
Qed.

Lemma to_string_bytes_ok n : bytes_ok (to_string n).
Proof.
  unfold to_string. destruct (Z.ltb_spec n 0); [constructor; [done|]|];
    apply digits_bytes_ok; lia.
Qed.

Lemma to_string_length n : is_i64 n -> (1 <= length (to_string n) <= 20)%nat.
Proof.
  unfold s_range, to_string. change (64 - 1) with 63. intros Hn.
  destruct (Z.ltb_spec n 0); cbn [length].
  - pose proof (length_digits_bound (- n) 19). pose proof (length_digits_pos (- n)). lia.
  - pose proof (length_digits_bound n 19). pose proof (length_digits_pos n). lia.
Qed.

#[export] Hint Resolve to_string_bytes_ok : mnemos.

Example accepts_min : stringToInt64 (str "-9223372036854775808") = Some (- 2 ^ 63).
Proof. vm_compute. reflexivity. Qed.
Example refuses_zeros : stringToInt64 (str "007") = None /\ stringToInt64 (str "-0") = None.
Proof. vm_compute. done. Qed.
