(* ===== verification/Order.v ===== *)
(** * Order: the byte order of strings

    [std::string] and [std::string_view] compare like [memcmp], shorter first
    on a tie; [std::set] and [std::map] iterate in this order. *)

From Stdlib Require Import ZArith Lia.
From stdpp Require Import base list numbers sorting.
From S2P Require Import Prelude.

Fixpoint bytes_le (a b : bytes) : bool :=
  match a, b with
  | [], _ => true
  | _ :: _, [] => false
  | x :: a, y :: b => (x <? y) || ((x =? y) && bytes_le a b)
  end.
Definition bytes_leP (a b : bytes) : Prop := bytes_le a b = true.
#[global] Instance bytes_leP_dec a b : Decision (bytes_leP a b).
Proof. unfold bytes_leP. apply _. Defined.

(** [a < b] *)
Definition bytes_lt (a b : bytes) : bool := negb (bytes_le b a).

Lemma bytes_le_total (a b : bytes) : bytes_leP a b \/ bytes_leP b a.
Proof.
  unfold bytes_leP. revert b. induction a as [|x a IH]; intros [|y b]; cbn; auto.
  destruct (Z.lt_trichotomy x y) as [H|[->|H]].
  - left. by rewrite (proj2 (Z.ltb_lt x y) H).
  - rewrite Z.ltb_irrefl, Z.eqb_refl. cbn. apply IH.
  - right. by rewrite (proj2 (Z.ltb_lt y x) H).
Qed.

Lemma bytes_le_cons (x y : Z) (a b : bytes) : bytes_leP (x :: a) (y :: b) <-> x < y \/ (x = y /\ bytes_leP a b).
Proof.
  unfold bytes_leP. cbn. rewrite orb_true_iff, andb_true_iff, Z.ltb_lt, Z.eqb_eq. done.
Qed.

#[global] Instance bytes_leP_antisymm : AntiSymm (=) bytes_leP.
Proof.
  intros a. induction a as [|x a IH]; intros [|y b]; try done.
  rewrite !bytes_le_cons. intros [H1|[-> H1]] [H2|[H3 H2]]; try lia. f_equal. by apply IH.
Qed.

#[global] Instance bytes_leP_transitive : Transitive bytes_leP.
Proof.
  intros a. induction a as [|x a IH]; intros [|y b] [|z c]; try done.
  rewrite !bytes_le_cons. intros [H1|[-> H1]] [H2|[-> H2]]; [left; lia|by left|by left|].
  right. split; [done|]. by apply (IH b).
Qed.

#[global] Instance bytes_leP_reflexive : Reflexive bytes_leP.
Proof. intros a. destruct (bytes_le_total a a); done. Qed.

Lemma bytes_lt_iff (a b : bytes) : bytes_lt a b = true <-> bytes_leP a b /\ a <> b.
Proof.
  unfold bytes_lt. rewrite negb_true_iff. split.
  - intros H. destruct (bytes_le_total a b) as [Hab|Hba]; [|unfold bytes_leP in Hba; congruence].
    split; [done|]. intros ->. unfold bytes_leP in Hab. congruence.
  - intros [Hab Hne]. destruct (bytes_le b a) eqn:E; [|done]. destruct Hne. by apply (anti_symm bytes_leP).
Qed.

Lemma bytes_lt_ge (a b : bytes) : bytes_lt a b = false <-> bytes_leP b a.
Proof. unfold bytes_lt, bytes_leP. by rewrite negb_false_iff. Qed.

Lemma bytes_lt_irrefl (a : bytes) : bytes_lt a a = false.
Proof. apply bytes_lt_ge. reflexivity. Qed.

Lemma bytes_lt_trans (a b c : bytes) : bytes_lt a b = true -> bytes_lt b c = true -> bytes_lt a c = true.
Proof.
  rewrite !bytes_lt_iff. intros [H1 N1] [H2 N2]. split; [by transitivity b|]. intros ->. apply N1. by apply (anti_symm bytes_leP).
Qed.
