(* ===== verification/Double.v ===== *)
(** * Double: IEEE 754 doubles as bit patterns

    The program stores, compares and prints [double]s. A double is its 64-bit
    pattern; the comparisons are those of the language: an ordering of the
    values, false whenever an operand is a NaN, with the two zeros equal. *)

From Stdlib Require Import ZArith Lia.
From stdpp Require Import base list numbers.
From S2P Require Import Prelude.

Module Double.

Definition sign (d : Z) : bool := 2 ^ 63 <=? d.
Definition magnitude (d : Z) : Z := d mod 2 ^ 63.

Definition infinity : Z := 0x7FF0000000000000.
Definition neg_infinity : Z := 0xFFF0000000000000.
Definition quiet_nan : Z := 0x7FF8000000000000.

Definition isnan (d : Z) : bool := infinity <? magnitude d.
Definition isinf (d : Z) : bool := magnitude d =? infinity.
Definition isfinite (d : Z) : bool := magnitude d <? infinity.

(** The patterns of the values that are not NaN, in order, with one key for
    both zeros. *)
Definition key (d : Z) : Z := if sign d then - magnitude d else magnitude d.

Definition lt (a b : Z) : bool := negb (isnan a) && negb (isnan b) && (key a <? key b).
Definition le (a b : Z) : bool := negb (isnan a) && negb (isnan b) && (key a <=? key b).
Definition eq (a b : Z) : bool := negb (isnan a) && negb (isnan b) && (key a =? key b).
Definition gt (a b : Z) : bool := lt b a.
Definition ge (a b : Z) : bool := le b a.
Definition ne (a b : Z) : bool := negb (eq a b).

(** ** The value of a finite double, in units of 2^-1074 *)

Definition fraction (d : Z) : Z := d mod 2 ^ 52.
Definition exponent (d : Z) : Z := magnitude d / 2 ^ 52.

(** [magnitude] split into a significand and a power of two. *)
Definition significand (d : Z) : Z := if exponent d =? 0 then fraction d else fraction d + 2 ^ 52.
Definition scale (d : Z) : Z := if exponent d =? 0 then 0 else exponent d - 1.

Definition abs_units (d : Z) : Z := significand d * 2 ^ scale d.
Definition units (d : Z) : Z := if sign d then - abs_units d else abs_units d.

(** ** Rounding to nearest, ties to even *)

Definition half_even (a b : Z) : Z :=
  let q := a / b in
  let r := a mod b in
  if (b <? 2 * r) || ((2 * r =? b) && Z.odd q) then q + 1 else q.

(** The magnitude of the double nearest to [num / den] units, [0 <= num] and
    [0 < den]. A pattern is its scale times [2^52] plus its significand, also
    when rounding carries the significand into the next binade. *)
Definition nearest (num den : Z) : Z :=
  let e := Z.max 0 (Z.log2 (num / den) - 52) in
  Z.min infinity (e * 2 ^ 52 + half_even num (den * 2 ^ e)).

(** An integer rounded to 53 significant bits. *)
Definition round_53_bits (n : Z) : Z :=
  let e := Z.max 0 (Z.log2 n - 52) in half_even n (2 ^ e) * 2 ^ e.

(** A magnitude with a sign. *)
Definition signed (negative : bool) (m : Z) : Z := if negative then 2 ^ 63 + m else m.

(** One, in units. *)
Definition unit : Z := 2 ^ 1074.

(** [static_cast<double>] of an integer, [static_cast<long long>] of a finite
    double that fits, and the exact sum of two finite doubles, rounded. *)
Definition of_int64 (n : Z) : Z := signed (n <? 0) (nearest (Z.abs n * unit) 1).
Definition to_int64 (d : Z) : Z := if sign d then - (abs_units d / unit) else abs_units d / unit.

Definition ok (d : Z) : Prop := is_u64 d /\ isnan d = false.

(** ** Laws of the comparisons *)

Lemma lt_key a b : ok a -> ok b -> lt a b = (key a <? key b).
Proof. intros [_ Ha] [_ Hb]. unfold lt. by rewrite Ha, Hb. Qed.
Lemma le_key a b : ok a -> ok b -> le a b = (key a <=? key b).
Proof. intros [_ Ha] [_ Hb]. unfold le. by rewrite Ha, Hb. Qed.
Lemma eq_key a b : ok a -> ok b -> eq a b = (key a =? key b).
Proof. intros [_ Ha] [_ Hb]. unfold eq. by rewrite Ha, Hb. Qed.

(** ** Rounding *)

Lemma half_even_unique a b s : 0 < b -> (2 * s - 1) * b < 2 * a < (2 * s + 1) * b -> half_even a b = s.
Proof.
  intros Hb H. unfold half_even. pose proof (Z.div_mod a b ltac:(lia)) as Ha. pose proof (Z.mod_pos_bound a b Hb) as Hr.
  set (q := a / b) in *. set (r := a mod b) in *. clearbody q r. subst a.
  assert (q = s /\ 2 * r < b \/ q = s - 1 /\ b < 2 * r) as [[-> Hr']|[-> Hr']] by (destruct (Z.lt_trichotomy q s) as [?|[?|?]]; nia).
  - replace (b <? 2 * r) with false by lia. replace (2 * r =? b) with false by lia. done.
  - replace (b <? 2 * r) with true by lia. cbn. lia.
Qed.

Lemma magnitude_parts m : 0 <= m < 2 ^ 63 -> m = scale m * 2 ^ 52 + significand m.
Proof.
  intros Hm. unfold scale, significand, exponent, fraction, magnitude. rewrite (Z.mod_small m (2 ^ 63)) by lia.
  case_if; dmlia.
Qed.

Lemma parts_range m : 0 <= m < 2 ^ 63 ->
  0 <= scale m /\ 0 <= significand m < 2 ^ 53 /\ (scale m = 0 \/ 2 ^ 52 <= significand m).
Proof.
  intros Hm. unfold scale, significand, exponent, fraction, magnitude. rewrite (Z.mod_small m (2 ^ 63)) by lia.
  case_if; dmlia.
Qed.

Lemma abs_units_parts e s : 0 <= e -> 0 <= s <= 2 ^ 53 -> e = 0 \/ 2 ^ 52 <= s -> e * 2 ^ 52 + s < 2 ^ 63 ->
  abs_units (e * 2 ^ 52 + s) = s * 2 ^ e.
Proof.
  intros He Hs Hn Hm. unfold abs_units, scale, significand, exponent, fraction, magnitude.
  rewrite (Z.mod_small _ (2 ^ 63)) by lia.
  destruct (Z.eq_dec s (2 ^ 53)) as [->|].
  { replace (e * 2 ^ 52 + 2 ^ 53) with ((e + 2) * 2 ^ 52) by lia. rewrite Z.div_mul, Z.mod_mul by lia.
    replace (e + 2 =? 0) with false by lia. replace (e + 2 - 1) with (e + 1) by lia. rewrite Z.pow_add_r by lia. lia. }
  destruct (Z.lt_ge_cases s (2 ^ 52)).
  - assert (e = 0) as -> by lia. rewrite Z.div_small, Z.mod_small by lia. cbn. lia.
  - assert (s mod 2 ^ 52 = s - 2 ^ 52) as Hmod by (symmetry; apply (Z.mod_unique_pos _ _ 1); lia).
    assert (s / 2 ^ 52 = 1) as Hdiv by (symmetry; apply (Z.div_unique_pos _ _ 1 (s - 2 ^ 52)); lia).
    rewrite Z.add_comm, Z.div_add, Z.mod_add, Hdiv, Hmod by lia. replace (1 + e =? 0) with false by lia.
    replace (1 + e - 1) with e by lia. lia.
Qed.

Lemma abs_units_succ m : 0 <= m < infinity -> abs_units (m + 1) = (significand m + 1) * 2 ^ scale m.
Proof.
  intros Hm. unfold infinity in Hm. destruct (parts_range m) as (He & Hs & Hn); [lia|]. rewrite (magnitude_parts m) at 1 by lia.
  rewrite <- Z.add_assoc. apply abs_units_parts; [done|lia|lia|]. pose proof (magnitude_parts m). lia.
Qed.

(** The double below, in quarters of a step. *)
Lemma abs_units_pred m : 0 < m < infinity ->
  abs_units (m - 1) = (significand m - 1) * 2 ^ scale m /\ (scale m = 0 \/ 2 ^ 52 < significand m) \/
  significand m = 2 ^ 52 /\ 0 < scale m /\ abs_units (m - 1) = (2 ^ 53 - 1) * 2 ^ (scale m - 1).
Proof.
  intros Hm. unfold infinity in Hm. destruct (parts_range m) as (He & Hs & Hn); [lia|]. pose proof (magnitude_parts m ltac:(lia)) as Hp.
  destruct (decide (scale m = 0 \/ 2 ^ 52 < significand m)) as [Hd|Hd]; [left|right].
  - split; [|done]. replace (m - 1) with (scale m * 2 ^ 52 + (significand m - 1)) by lia. apply abs_units_parts; lia.
  - assert (significand m = 2 ^ 52) as E by lia. split; [done|]. split; [lia|].
    replace (m - 1) with ((scale m - 1) * 2 ^ 52 + (2 ^ 53 - 1)) by lia. apply abs_units_parts; lia.
Qed.

Lemma nearest_parts num den e s : 0 <= num -> 0 < den -> 0 <= e -> Z.max 0 (Z.log2 (num / den) - 52) = e ->
  (2 * s - 1) * (den * 2 ^ e) < 2 * num < (2 * s + 1) * (den * 2 ^ e) -> e * 2 ^ 52 + s < infinity ->
  nearest num den = e * 2 ^ 52 + s.
Proof.
  intros Hn Hd He HE Hm Hlt. unfold nearest. rewrite HE, (half_even_unique _ _ s); [lia| |done].
  assert (0 < 2 ^ e) by (apply Z.pow_pos_nonneg; lia). nia.
Qed.

Lemma log2_ratio num den k : 0 < den -> 0 <= k -> den * 2 ^ k <= num < den * 2 ^ (k + 1) -> Z.log2 (num / den) = k.
Proof.
  intros Hd Hk H. apply Z.log2_unique; [done|]. change (Z.succ k) with (k + 1). split.
  - apply Z.div_le_lower_bound; lia.
  - apply Z.div_lt_upper_bound; lia.
Qed.

(** Whatever lies strictly between the midpoints to the two neighbours of a
    double rounds to it. *)
Lemma nearest_between num den m : 0 <= num -> 0 < den -> 0 < m < infinity ->
  (abs_units (m - 1) + abs_units m) * den < 2 * num < (abs_units m + abs_units (m + 1)) * den ->
  nearest num den = m.
Proof.
  intros Hn Hd Hm H. destruct (parts_range m) as (He & Hs & Hnorm); [unfold infinity in Hm; lia|].
  pose proof (magnitude_parts m ltac:(unfold infinity in Hm; lia)) as Hp.
  rewrite abs_units_succ in H by lia. unfold abs_units at 2 3 in H.
  set (e := scale m) in *. set (s := significand m) in *.
  assert (0 < 2 ^ e) as Hpe by (apply Z.pow_pos_nonneg; lia).
  assert (2 ^ (53 + e) = 2 * (2 ^ 52 * 2 ^ e)) as E53 by (rewrite Z.pow_add_r by lia; lia).
  assert (2 ^ (52 + e) = 2 ^ 52 * 2 ^ e) as E52 by (rewrite Z.pow_add_r by lia; lia).
  assert (num < den * 2 ^ (53 + e)) as Hup by (rewrite E53; nia).
  destruct (abs_units_pred m Hm) as [[E Hc]|(E & Hc & E')]; fold e s in E, Hc.
  - rewrite E in H. rewrite Hp. apply nearest_parts; [done..| |nia|lia].
    destruct Hc as [Hc|Hc].
    + rewrite Hc. enough (Z.log2 (num / den) <= 52) by lia. rewrite Hc in Hup. cbn [Z.add] in Hup.
      destruct (Z.eq_dec (num / den) 0) as [->|]; [done|].
      enough (Z.log2 (num / den) < 53) by lia. apply Z.log2_lt_pow2.
      * assert (0 <= num / den) by (apply Z.div_pos; lia). lia.
      * apply Z.div_lt_upper_bound; lia.
    + rewrite (log2_ratio num den (52 + e)); [lia..|]. replace (52 + e + 1) with (53 + e) by lia. rewrite E52. nia.
  - fold e in E'. rewrite E', E in H.
    assert (2 ^ e = 2 * 2 ^ (e - 1)) as Ee by (rewrite <- Z.pow_succ_r by lia; f_equal; lia).
    assert (0 < 2 ^ (e - 1)) as Hpe' by lia.
    destruct (Z.lt_ge_cases num (den * 2 ^ (52 + e))) as [Hlow|Hhigh].
    + rewrite Hp, E. replace (e * 2 ^ 52 + 2 ^ 52) with ((e - 1) * 2 ^ 52 + 2 ^ 53) by lia.
      apply nearest_parts; [lia..| | |lia].
      * rewrite (log2_ratio num den (51 + e)); [lia..|]. replace (51 + e + 1) with (52 + e) by lia. split; [|done].
        replace (51 + e) with (52 + (e - 1)) by lia. rewrite Z.pow_add_r by lia. nia.
      * rewrite E52 in Hlow. nia.
    + rewrite Hp, E. apply nearest_parts; [lia..| | |lia].
      * rewrite (log2_ratio num den (52 + e)); [lia..|]. replace (52 + e + 1) with (53 + e) by lia. lia.
      * rewrite E52 in Hhigh. nia.
Qed.

Lemma abs_units_pos m : 0 < m < infinity -> 0 < abs_units m.
Proof.
  intros Hm. unfold infinity in Hm. unfold abs_units. destruct (parts_range m) as (He & Hs & Hn); [lia|].
  pose proof (magnitude_parts m ltac:(lia)). assert (0 < 2 ^ scale m) by (apply Z.pow_pos_nonneg; lia). nia.
Qed.

Lemma nearest_exact m den : 0 <= m < infinity -> 0 < den -> nearest (abs_units m * den) den = m.
Proof.
  intros Hm Hd. destruct (Z.eq_dec m 0) as [->|Hz].
  { change (abs_units 0) with 0. unfold nearest. rewrite Z.div_mul by lia. change (Z.max 0 (Z.log2 0 - 52)) with 0.
    rewrite (half_even_unique _ _ 0); [done|lia..]. }
  pose proof (abs_units_pos m ltac:(lia)). apply nearest_between; [nia|done|lia|]. rewrite abs_units_succ by lia.
  destruct (parts_range m) as (He & Hs & Hn); [unfold infinity in Hm; lia|].
  assert (0 < 2 ^ scale m) as Hpe by (apply Z.pow_pos_nonneg; lia).
  destruct (abs_units_pred m ltac:(lia)) as [[-> Hc]|(E & Hc & ->)]; unfold abs_units.
  - nia.
  - assert (2 ^ scale m = 2 * 2 ^ (scale m - 1)) as -> by (rewrite <- Z.pow_succ_r by lia; f_equal; lia). rewrite E in *. nia.
Qed.

(** ** Signs *)

Lemma magnitude_range d : 0 <= magnitude d < 2 ^ 63.
Proof. unfold magnitude. apply Z.mod_pos_bound. lia. Qed.

Lemma signed_parts d : is_u64 d -> signed (sign d) (magnitude d) = d.
Proof. unfold u_range, signed, sign, magnitude. intros Hd. destruct (Z.leb_spec (2 ^ 63) d); dmlia. Qed.

Lemma nearest_range num den : 0 <= num -> 0 < den -> 0 <= nearest num den <= infinity.
Proof.
  intros Hn Hd. unfold nearest. split; [|lia]. apply Z.min_glb; [done|]. apply Z.add_nonneg_nonneg; [lia|]. unfold half_even.
  assert (0 <= num / (den * 2 ^ Z.max 0 (Z.log2 (num / den) - 52))) by (apply Z.div_pos; [done|]; apply Z.mul_pos_pos; [done|]; apply Z.pow_pos_nonneg; lia).
  case_if; lia.
Qed.

Lemma sign_signed n m : 0 <= m < 2 ^ 63 -> sign (signed n m) = n /\ magnitude (signed n m) = m.
Proof. intros Hm. unfold sign, magnitude, signed. destruct n; split; [lia|dmlia|lia|dmlia]. Qed.

Lemma ok_signed n m : 0 <= m <= infinity -> ok (signed n m).
Proof.
  intros Hm. unfold infinity in Hm. unfold ok, isnan, infinity. rewrite (proj2 (sign_signed n m ltac:(lia))). split; [|lia].
  unfold u_range, signed. destruct n; lia.
Qed.

Lemma of_int64_ok n : ok (of_int64 n).
Proof. apply ok_signed. apply nearest_range; [|done]. apply Z.mul_nonneg_nonneg; [lia|done]. Qed.

(** Two patterns with the same key are the same but for the sign of zero. *)
Lemma key_inj a b : is_u64 a -> is_u64 b -> key a = key b -> a = b \/ magnitude a = 0 /\ magnitude b = 0.
Proof.
  intros Ha Hb. pose proof (magnitude_range a). pose proof (magnitude_range b).
  pose proof (signed_parts a Ha). pose proof (signed_parts b Hb). unfold key, signed in *. destruct (sign a), (sign b); lia.
Qed.


(** ** Arithmetic *)

(** Addition and multiplication, rounded to nearest, ties to even: the exact
    result is an integer number of units of [2 ^ -1074], or of their squares. *)
Definition add (a b : Z) : Z :=
  if isnan a || isnan b then quiet_nan
  else if isinf a then (if isinf b && negb (Bool.eqb (sign a) (sign b)) then quiet_nan else a)
  else if isinf b then b
  else
    let n := units a + units b in
    if n =? 0 then signed (sign a && sign b) 0 else signed (n <? 0) (nearest (Z.abs n) 1).

Definition mul (a b : Z) : Z :=
  let negative := xorb (sign a) (sign b) in
  if isnan a || isnan b then quiet_nan
  else if isinf a || isinf b then (if (magnitude a =? 0) || (magnitude b =? 0) then quiet_nan else signed negative infinity)
  else signed negative (nearest (abs_units a * abs_units b) unit).

Example adds : add (of_int64 3) (of_int64 (-5)) = of_int64 (-2) /\ add infinity neg_infinity = quiet_nan /\
  add 0x3FB999999999999A 0x3FC999999999999A = 0x3FD3333333333334.
Proof. vm_compute. done. Qed.
Example muls : mul (of_int64 3) (of_int64 (-5)) = of_int64 (-15) /\ mul infinity 0 = quiet_nan /\
  mul 0x3FB999999999999A 0x3FC999999999999A = 0x3F947AE147AE147C.
Proof. vm_compute. done. Qed.

Lemma abs_units_nonneg d : 0 <= abs_units d.
Proof.
  unfold abs_units, significand, scale, fraction. pose proof (Z.mod_pos_bound d (2 ^ 52) ltac:(lia)).
  destruct (exponent d =? 0); apply Z.mul_nonneg_nonneg; try lia; apply Z.pow_nonneg; lia.
Qed.

Lemma add_number_ok a b : ok a -> ok b -> isnan (add a b) = false -> ok (add a b).
Proof.
  intros Ha Hb Hn. split; [|done]. revert Hn. unfold add. destruct Ha as [Ha ->], Hb as [Hb ->]. cbn [orb].
  destruct (isinf a); [case_if; done|]. destruct (isinf b); [done|]. cbv zeta. destruct (units a + units b =? 0).
  - intros _. by apply ok_signed.
  - intros _. apply ok_signed. apply nearest_range; lia.
Qed.

Lemma mul_number_ok a b : ok a -> ok b -> isnan (mul a b) = false -> ok (mul a b).
Proof.
  intros Ha Hb Hn. split; [|done]. revert Hn. unfold mul. destruct Ha as [Ha ->], Hb as [Hb ->]. cbn [orb].
  destruct (isinf a || isinf b); [case_if; [done|intros _; by apply ok_signed]|].
  intros _. apply ok_signed. apply nearest_range; [apply Z.mul_nonneg_nonneg; apply abs_units_nonneg|done].
Qed.
End Double.
