(* ===== verification/Strtod.v ===== *)
(** * Strtod: reading a double from text

    The C library's [strtod], which the program uses wherever a double is read
    back: scores packed into a listpack, doubles of replies, numeric arguments.
    It reads the longest prefix that is a number and rounds its exact value to
    the nearest double, ties to even. *)

From Stdlib Require Import ZArith Lia.
From stdpp Require Import base list numbers option strings.
From S2P Require Import Prelude Encoding Double.

Module Strtod.

Definition isspace (c : Z) : bool := (c =? 32) || ((9 <=? c) && (c <=? 13)).
Definition isdigit (c : Z) : bool := (48 <=? c) && (c <=? 57).
Definition lower (c : Z) : Z := if (65 <=? c) && (c <=? 90) then c + 32 else c.

Definition hex_digit (c : Z) : option Z :=
  if isdigit c then Some (c - 48)
  else if (97 <=? lower c) && (lower c <=? 102) then Some (lower c - 87) else None.

(** The longest prefix of characters that satisfy [p], and the rest. *)
Fixpoint span (p : Z -> bool) (s : bytes) : bytes * bytes :=
  match s with
  | c :: s' => if p c then let '(a, b) := span p s' in (c :: a, b) else ([], s)
  | [] => ([], [])
  end.

(** [s] after the word [w], whatever its case. *)
Fixpoint after_word (w s : bytes) : option bytes :=
  match w, s with
  | [], _ => Some s
  | c :: w, d :: s => if lower d =? c then after_word w s else None
  | _ :: _, [] => None
  end.

(** An optional sign. *)
Definition take_sign (s : bytes) : bool * bytes :=
  match s with
  | c :: s' => if c =? 45 then (true, s') else if c =? 43 then (false, s') else (false, s)
  | [] => (false, [])
  end.

(** An optional exponent after the letter [e]; without a digit it is not one. *)
Definition take_exponent (e : Z) (s : bytes) : Z * bytes :=
  match s with
  | c :: s' =>
      if lower c =? e then
        let '(neg, s'') := take_sign s' in
        let '(ds, rest) := span isdigit s'' in
        match ds with
        | [] => (0, s)
        | _ => (if neg then - dec_val 0 ds else dec_val 0 ds, rest)
        end
      else (0, s)
  | [] => (0, [])
  end.

(** Digits with an optional point: before it, after it, the rest. *)
Definition take_mantissa (p : Z -> bool) (s : bytes) : bytes * bytes * bytes :=
  let '(ip, r) := span p s in
  match r with
  | c :: r' => if c =? 46 then let '(fp, r'') := span p r' in (ip, fp, r'') else (ip, [], r)
  | [] => (ip, [], [])
  end.

(** The magnitude of [n * b^k]. *)
Definition scaled (b n k : Z) : Z := Double.nearest (n * b ^ Z.max 0 k * Double.unit) (b ^ Z.max 0 (- k)).

Definition decimal (s : bytes) : option (Z * bytes) :=
  let '(ip, fp, r) := take_mantissa isdigit s in
  if (ip =b? []) && (fp =b? []) then None
  else
    let '(x, rest) := take_exponent 101 r in
    Some (scaled 10 (dec_val 0 (ip ++ fp)) (x - Z.of_nat (length fp)), rest).

Definition hex_val (ds : bytes) : Z := foldl (fun acc c => acc * 16 + from_option id 0 (hex_digit c)) 0 ds.

Definition hexadecimal (s : bytes) : option (Z * bytes) :=
  r ← after_word (str "0x") s;
  let '(ip, fp, r) := take_mantissa (fun c => is_some (hex_digit c)) r in
  if (ip =b? []) && (fp =b? []) then None
  else
    let '(x, rest) := take_exponent 112 r in
    Some (scaled 2 (hex_val (ip ++ fp)) (x - 4 * Z.of_nat (length fp)), rest).

Definition word (s : bytes) : option (Z * bytes) :=
  match after_word (str "infinity") s with
  | Some r => Some (Double.infinity, r)
  | None =>
      match after_word (str "inf") s with
      | Some r => Some (Double.infinity, r)
      | None => r ← after_word (str "nan") s; Some (Double.quiet_nan, r)
      end
  end.

(** The value and what is left; nothing is consumed when there is no number. *)
Definition parse (s : bytes) : Z * bytes :=
  let '(_, s1) := span isspace s in
  let '(neg, s2) := take_sign s1 in
  match word s2 with
  | Some (m, rest) => (Double.signed neg m, rest)
  | None =>
      match hexadecimal s2 with
      | Some (m, rest) => (Double.signed neg m, rest)
      | None =>
          match decimal s2 with
          | Some (m, rest) => (Double.signed neg m, rest)
          | None => (0, s)
          end
      end
  end.

Definition strtod (s : bytes) : Z := fst (parse s).

Example reads_tenth : strtod (str "0.1") = 0x3FB999999999999A.
Proof. vm_compute. reflexivity. Qed.
Example reads_large : strtod (str " -1.5e+308xyz") = 0xFFEAB36D48E1ACF0.
Proof. vm_compute. reflexivity. Qed.

(** ** Texts of a plain decimal *)

(** What a decimal is written as: sign, digits, digits after a point, signed
    exponent. *)
Definition exponent_text (x : option (bool * bytes)) : bytes :=
  match x with Some (neg, ds) => 101 :: (if neg : bool then 45 else 43) :: ds | None => [] end.
Definition exponent_val (x : option (bool * bytes)) : Z :=
  match x with Some (neg, ds) => if neg : bool then - dec_val 0 ds else dec_val 0 ds | None => 0 end.
Definition fraction_text (f : option bytes) : bytes := match f with Some fp => 46 :: fp | None => [] end.
Definition text (neg : bool) (ip : bytes) (f : option bytes) (x : option (bool * bytes)) : bytes :=
  (if neg then [45] else []) ++ ip ++ fraction_text f ++ exponent_text x.

Lemma isdigit_true c : isdigit c = true <-> is_digit c.
Proof. unfold isdigit, is_digit. lia. Qed.

Definition stops (p : Z -> bool) (s : bytes) : Prop := match s with c :: _ => p c = false | [] => True end.

Lemma span_app p xs rest : Forall (fun c => p c = true) xs -> stops p rest -> span p (xs ++ rest) = (xs, rest).
Proof.
  intros Hx Hr. induction Hx as [|c xs Hc Hx IH]; cbn.
  - destruct rest as [|d rest]; [done|]. cbn in Hr |- *. by rewrite Hr.
  - by rewrite Hc, IH.
Qed.

Lemma span_none p s : stops p s -> span p s = ([], s).
Proof. intros H. by apply (span_app p [] s). Qed.

Lemma digits_isdigit ds : Forall is_digit ds -> Forall (fun c => isdigit c = true) ds.
Proof. intros H. apply (Forall_impl _ _ _ H). intros c. apply isdigit_true. Qed.

Lemma take_exponent_text x : match x with Some (_, ds) => Forall is_digit ds /\ ds <> [] | None => True end ->
  take_exponent 101 (exponent_text x) = (exponent_val x, []).
Proof.
  destruct x as [[neg ds]|]; [|done]. intros [Hd Hne]. cbn [exponent_text take_exponent].
  change (lower 101 =? 101) with true. cbn match.
  assert (take_sign ((if neg then 45 else 43) :: ds) = (neg, ds)) as -> by (by destruct neg).
  rewrite <- (app_nil_r ds) at 1. rewrite span_app; [|by apply digits_isdigit|done]. by destruct ds.
Qed.

Lemma take_mantissa_text ip f x : Forall is_digit ip -> Forall is_digit (default [] f) ->
  take_mantissa isdigit (ip ++ fraction_text f ++ exponent_text x) = (ip, default [] f, exponent_text x).
Proof.
  intros Hi Hf. unfold take_mantissa.
  rewrite span_app; [|by apply digits_isdigit|by destruct f as [fp|], x as [[[] ds]|]].
  destruct f as [fp|]; cbn [fraction_text app default].
  - change (46 =? 46) with true. cbn match. rewrite span_app; [done|by apply digits_isdigit|by destruct x as [[[] ds]|]].
  - by destruct x as [[[] ds]|].
Qed.

(** A text that starts with a digit is neither a word nor hexadecimal, unless
    an [x] follows. *)
Lemma lower_digit c : is_digit c -> lower c = c.
Proof. unfold is_digit, lower. intros Hc. by replace (65 <=? c) with false by lia. Qed.

Lemma after_word_digit d w c s : is_digit c -> ~ is_digit d -> after_word (d :: w) (c :: s) = None.
Proof. intros Hc Hd. cbn [after_word]. rewrite lower_digit by done. replace (c =? d) with false; [done|]. unfold is_digit in *. lia. Qed.

Lemma word_digit c s : is_digit c -> word (c :: s) = None.
Proof.
  intros Hc. unfold word. change (str "infinity") with (105 :: str "nfinity"). change (str "inf") with (105 :: str "nf").
  change (str "nan") with (110 :: str "an"). rewrite !after_word_digit by (done || unfold is_digit; lia). done.
Qed.

Lemma hexadecimal_text ip f x : Forall is_digit ip -> ip <> [] ->
  hexadecimal (ip ++ fraction_text f ++ exponent_text x) = None.
Proof.
  intros Hi Hne. unfold hexadecimal. enough (after_word (str "0x") (ip ++ fraction_text f ++ exponent_text x) = None) as -> by done.
  destruct ip as [|c ip]; [done|]. apply Forall_cons in Hi as [Hc Hi]. change (str "0x") with [48; 120]. cbn [app after_word].
  destruct (lower c =? 48); [|done]. destruct ip as [|d ip]; cbn [app].
  - by destruct f as [fp|], x as [[[] ds]|].
  - apply Forall_cons in Hi as [Hd _]. rewrite lower_digit by done. unfold is_digit in Hd. by replace (d =? 120) with false by lia.
Qed.

Lemma strtod_text neg ip f x : Forall is_digit ip -> ip <> [] -> Forall is_digit (default [] f) ->
  match x with Some (_, ds) => Forall is_digit ds /\ ds <> [] | None => True end ->
  parse (text neg ip f x) =
    (Double.signed neg (scaled 10 (dec_val 0 (ip ++ default [] f)) (exponent_val x - Z.of_nat (length (default [] f)))), []).
Proof.
  intros Hi Hne Hf Hx. unfold parse, text. set (body := ip ++ fraction_text f ++ exponent_text x).
  destruct ip as [|c ip]; [done|]. assert (is_digit c) as Hc by (by apply Forall_cons in Hi as [? _]).
  rewrite span_none by (destruct neg; cbn; unfold isspace, is_digit in *; lia).
  assert (take_sign ((if neg then [45] else []) ++ body) = (neg, body)) as ->.
  { destruct neg; [done|]. unfold body. cbn. unfold is_digit in Hc. replace (c =? 45) with false by lia. replace (c =? 43) with false by lia. done. }
  assert (word body = None) as -> by (by apply word_digit). unfold body. rewrite hexadecimal_text by done.
  unfold decimal. rewrite take_mantissa_text by done. cbn [bool_decide andb]. by rewrite take_exponent_text.
Qed.

(** A decimal strictly between the midpoints to the neighbours of a double is
    read as that double. *)
Lemma scaled_between n k m : 0 <= n -> 0 < m < Double.infinity ->
  (Double.abs_units (m - 1) + Double.abs_units m) * 10 ^ Z.max 0 (- k) < 2 * (n * 10 ^ Z.max 0 k * Double.unit) <
    (Double.abs_units m + Double.abs_units (m + 1)) * 10 ^ Z.max 0 (- k) ->
  scaled 10 n k = m.
Proof.
  intros Hn Hm H. apply Double.nearest_between; [|apply Z.pow_pos_nonneg; lia|done|done].
  apply Z.mul_nonneg_nonneg; [|done]. apply Z.mul_nonneg_nonneg; [done|]. apply Z.pow_nonneg. lia.
Qed.

(** Integers read from their decimal text and converted directly agree. *)
Lemma strtod_to_string n : strtod (to_string n) = Double.of_int64 n.
Proof.
  unfold strtod, to_string, Double.of_int64.
  assert (forall neg k, 0 <= k -> fst (parse ((if neg : bool then [45] else []) ++ digits k)) = Double.signed neg (Double.nearest (k * Double.unit) 1)) as H.
  { intros neg k Hk. pose proof (strtod_text neg (digits k) None None) as E. unfold text in E. cbn [fraction_text exponent_text] in E.
    rewrite !app_nil_r in E. rewrite E; [|by apply digits_digit| |done|done].
    - cbn [fst]. unfold scaled. cbn [default exponent_val length]. rewrite ?app_nil_r, dec_val_digits by done. change (0 - Z.of_nat 0) with 0. cbn [Z.max Z.opp Z.compare].
      by rewrite Z.pow_0_r, Z.mul_1_r.
    - pose proof (length_digits_pos k Hk). intros E0; rewrite E0 in *; cbn in *; lia. }
  destruct (n <? 0) eqn:Hn.
  - rewrite (Z.abs_neq n) by lia. apply (H true (- n)). lia.
  - rewrite (Z.abs_eq n) by lia. apply (H false n). lia.
Qed.

(** ** What can be read *)

Lemma span_all p s : Forall (fun c => p c = true) (span p s).1.
Proof. induction s as [|c s IH]; cbn; [constructor|]. destruct (p c) eqn:Hc; [|constructor]. destruct (span p s). by constructor. Qed.

Lemma take_mantissa_all p s ip fp r : take_mantissa p s = (ip, fp, r) -> Forall (fun c => p c = true) (ip ++ fp).
Proof.
  unfold take_mantissa. pose proof (span_all p s) as H1. destruct (span p s) as [ip' r1]. cbn in H1.
  destruct r1 as [|c r1]; [intros [= <- <- <-]; by rewrite app_nil_r|]. destruct (c =? 46); [|intros [= <- <- <-]; by rewrite app_nil_r].
  pose proof (span_all p r1) as H2. destruct (span p r1) as [fp' r2]. intros [= <- <- <-]. by apply Forall_app.
Qed.

Lemma scaled_range b n k : 0 < b -> 0 <= n -> 0 <= scaled b n k <= Double.infinity.
Proof.
  intros Hb Hn. apply Double.nearest_range; [|by apply Z.pow_pos_nonneg; lia].
  apply Z.mul_nonneg_nonneg; [apply Z.mul_nonneg_nonneg; [done|apply Z.pow_nonneg; lia]|done].
Qed.

Lemma hex_val_nonneg ds : Forall (fun c => is_some (hex_digit c) = true) ds -> 0 <= hex_val ds.
Proof.
  unfold hex_val. assert (forall acc, 0 <= acc -> Forall (fun c => is_some (hex_digit c) = true) ds ->
    0 <= foldl (fun acc c => acc * 16 + from_option id 0 (hex_digit c)) acc ds) as H; [|by apply H].
  induction ds as [|c ds IH]; intros acc Ha Hd; cbn [foldl]; [done|]. inversion_clear Hd as [|? ? Hc Hds]. apply IH; [|done].
  unfold hex_digit, isdigit in *. destruct ((48 <=? c) && (c <=? 57)) eqn:E1; cbn [from_option id] in *; [bools; lia|].
  destruct ((97 <=? lower c) && (lower c <=? 102)) eqn:E2; cbn [from_option id] in *; [bools; lia|done].
Qed.

Lemma decimal_range s m rest : decimal s = Some (m, rest) -> 0 <= m <= Double.infinity.
Proof.
  unfold decimal. destruct (take_mantissa _ s) as [[ip fp] r] eqn:Hm. apply take_mantissa_all in Hm. case_if; [done|].
  destruct (take_exponent 101 r) as [x r']. intros [= <- _]. apply scaled_range; [done|]. apply (dec_val_mono 0); [done|].
  eapply Forall_impl; [exact Hm|]. intros c. by rewrite isdigit_true.
Qed.

Lemma hexadecimal_range s m rest : hexadecimal s = Some (m, rest) -> 0 <= m <= Double.infinity.
Proof.
  unfold hexadecimal. destruct (after_word _ s) as [r0|]; [|done]. cbn [mbind option_bind].
  destruct (take_mantissa _ r0) as [[ip fp] r] eqn:Hm. apply take_mantissa_all in Hm. case_if; [done|].
  destruct (take_exponent 112 r) as [x r']. intros [= <- _]. apply scaled_range; [done|]. by apply hex_val_nonneg.
Qed.

Lemma word_range s m rest : word s = Some (m, rest) -> m = Double.infinity \/ m = Double.quiet_nan.
Proof.
  unfold word. destruct (after_word (str "infinity") s); [intros [= <- _]; by left|].
  destruct (after_word (str "inf") s); [intros [= <- _]; by left|]. destruct (after_word (str "nan") s); [|done]. intros [= <- _]. by right.
Qed.

Lemma strtod_bits s : is_u64 (strtod s).
Proof.
  assert (forall neg m, 0 <= m <= Double.quiet_nan -> is_u64 (Double.signed neg m)) as Hs.
  { intros neg m Hm. unfold Double.signed, u_range, Double.quiet_nan in *. destruct neg; lia. }
  unfold strtod, parse. destruct (span isspace s) as [sp s1]. destruct (take_sign s1) as [neg s2].
  destruct (word s2) as [[m rest]|] eqn:Hw; [apply word_range in Hw as [-> | ->]; by apply Hs|].
  destruct (hexadecimal s2) as [[m rest]|] eqn:Hh; [apply hexadecimal_range in Hh; apply Hs; unfold Double.infinity, Double.quiet_nan in *; lia|].
  destruct (decimal s2) as [[m rest]|] eqn:Hd; [apply decimal_range in Hd; apply Hs; unfold Double.infinity, Double.quiet_nan in *; lia|]. done.
Qed.

End Strtod.
