(* ===== verification/Dtoa.v ===== *)
(** * Dtoa: printing a double

    [src/core/dtoa.cpp]: the digits of a double by grisu2, the choice between
    plain and scientific notation, and the integer fast path of [d2string].
    Numbers of type [std::uint64_t] wrap; [None] is a shift by too much, an
    access outside a table or the digit buffer, or a loop that does not end.
    The digits are shown to lie strictly inside the interval of reals that
    round to the double, so reading the text back gives the double again. *)

From Stdlib Require Import ZArith Lia.
From stdpp Require Import base list numbers option strings.
From S2P Require Import Prelude Encoding Double Strtod.

Module Dtoa.

Definition kFracMask : Z := 0x000FFFFFFFFFFFFF.
Definition kExpMask : Z := 0x7FF0000000000000.
Definition kHiddenBit : Z := 0x0010000000000000.
Definition kSignMask : Z := 0x8000000000000000.
Definition kExpBias : Z := 1075.

(** A value [frac * 2^exp]. *)
Record Fp := mkFp { frac : Z; exp : Z }.

Definition kTens : list Z :=
  [10000000000000000000; 1000000000000000000; 100000000000000000; 10000000000000000; 1000000000000000; 100000000000000;
   10000000000000; 1000000000000; 100000000000; 10000000000; 1000000000; 100000000; 10000000; 1000000; 100000; 10000;
   1000; 100; 10; 1].

Definition kFirstPower : Z := -348.
Definition kStepPowers : Z := 8.
Definition kNumPowers : Z := 87.
Definition kExpMin : Z := -60.
Definition kExpMax : Z := -32.

Definition kPowersTen : list Fp :=
  [
   mkFp 18054884314459144840 (-1220); mkFp 13451937075301367670 (-1193); mkFp 10022474136428063862 (-1166);
   mkFp 14934650266808366570 (-1140); mkFp 11127181549972568877 (-1113); mkFp 16580792590934885855 (-1087);
   mkFp 12353653155963782858 (-1060); mkFp 18408377700990114895 (-1034); mkFp 13715310171984221708 (-1007);
   mkFp 10218702384817765436 (-980); mkFp 15227053142812498563 (-954); mkFp 11345038669416679861 (-927);
   mkFp 16905424996341287883 (-901); mkFp 12595523146049147757 (-874); mkFp 9384396036005875287 (-847);
   mkFp 13983839803942852151 (-821); mkFp 10418772551374772303 (-794); mkFp 15525180923007089351 (-768);
   mkFp 11567161174868858868 (-741); mkFp 17236413322193710309 (-715); mkFp 12842128665889583758 (-688);
   mkFp 9568131466127621947 (-661); mkFp 14257626930069360058 (-635); mkFp 10622759856335341974 (-608);
   mkFp 15829145694278690180 (-582); mkFp 11793632577567316726 (-555); mkFp 17573882009934360870 (-529);
   mkFp 13093562431584567480 (-502); mkFp 9755464219737475723 (-475); mkFp 14536774485912137811 (-449);
   mkFp 10830740992659433045 (-422); mkFp 16139061738043178685 (-396); mkFp 12024538023802026127 (-369);
   mkFp 17917957937422433684 (-343); mkFp 13349918974505688015 (-316); mkFp 9946464728195732843 (-289);
   mkFp 14821387422376473014 (-263); mkFp 11042794154864902060 (-236); mkFp 16455045573212060422 (-210);
   mkFp 12259964326927110867 (-183); mkFp 18268770466636286478 (-157); mkFp 13611294676837538539 (-130);
   mkFp 10141204801825835212 (-103); mkFp 15111572745182864684 (-77); mkFp 11258999068426240000 (-50);
   mkFp 16777216000000000000 (-24); mkFp 12500000000000000000 3; mkFp 9313225746154785156 30;
   mkFp 13877787807814456755 56; mkFp 10339757656912845936 83; mkFp 15407439555097886824 109;
   mkFp 11479437019748901445 136; mkFp 17105694144590052135 162; mkFp 12744735289059618216 189;
   mkFp 9495567745759798747 216; mkFp 14149498560666738074 242; mkFp 10542197943230523224 269;
   mkFp 15709099088952724970 295; mkFp 11704190886730495818 322; mkFp 17440603504673385349 348;
   mkFp 12994262207056124023 375; mkFp 9681479787123295682 402; mkFp 14426529090290212157 428;
   mkFp 10748601772107342003 455; mkFp 16016664761464807395 481; mkFp 11933345169920330789 508;
   mkFp 17782069995880619868 534; mkFp 13248674568444952270 561; mkFp 9871031767461413346 588;
   mkFp 14708983551653345445 614; mkFp 10959046745042015199 641; mkFp 16330252207878254650 667;
   mkFp 12166986024289022870 694; mkFp 18130221999122236476 720; mkFp 13508068024458167312 747;
   mkFp 10064294952495520794 774; mkFp 14996968138956309548 800; mkFp 11173611982879273257 827;
   mkFp 16649979327439178909 853; mkFp 12405201291620119593 880; mkFp 9242595204427927429 907;
   mkFp 13772540099066387757 933; mkFp 10261342003245940623 960; mkFp 15290591125556738113 986;
   mkFp 11392378155556871081 1013; mkFp 16975966327722178521 1039; mkFp 12648080533535911531 1066].

(** [0.30102999566398114], the double [2711437152599295 / 2^53]. *)
Definition kOneOverLogTen : Z := 2711437152599295.

(** [static_cast<int>(-(exp + kNumPowers) * kOneOverLogTen)]: the product is a
    rounded double, truncated. *)
Definition approximate (exp : Z) : Z :=
  let n := - (exp + kNumPowers) in
  let product := Double.round_53_bits (Z.abs n * kOneOverLogTen) in
  if n <? 0 then - (product / 2 ^ 53) else product / 2 ^ 53.

Fixpoint cached_loop (fuel : nat) (e idx : Z) : option (Fp * Z) :=
  match fuel with
  | O => None
  | S fuel =>
      p ← (if idx <? 0 then None else kPowersTen !! Z.to_nat idx);
      let current := e + exp p + 64 in
      if current <? kExpMin then cached_loop fuel e (idx + 1)
      else if kExpMax <? current then cached_loop fuel e (idx - 1)
      else Some (p, kFirstPower + idx * kStepPowers)
  end.

Definition findCachedPow10 (e : Z) : option (Fp * Z) :=
  cached_loop 87 e (Z.quot (approximate e - kFirstPower) kStepPowers).

Definition buildFp (d : Z) : Fp :=
  let fr := Z.land d kFracMask in
  let ex := Z.shiftr (Z.land d kExpMask) 52 in
  if negb (ex =? 0) then mkFp (u64 (fr + kHiddenBit)) (ex - kExpBias) else mkFp fr (- kExpBias + 1).

(** [while ((frac & bit) == 0) { frac <<= 1; --exp; }] *)
Fixpoint shift_up (fuel : nat) (bit : Z) (fp : Fp) : option Fp :=
  if Z.land (frac fp) bit =? 0 then
    match fuel with
    | O => None
    | S fuel => shift_up fuel bit (mkFp (u64 (Z.shiftl (frac fp) 1)) (exp fp - 1))
    end
  else Some fp.

Definition normalize (fp : Fp) : option Fp :=
  fp ← shift_up 64 kHiddenBit fp;
  Some (mkFp (u64 (Z.shiftl (frac fp) (64 - 52 - 1))) (exp fp - (64 - 52 - 1))).

Definition normalizedBoundaries (fp : Fp) : option (Fp * Fp) :=
  upper ← shift_up 64 (u64 (Z.shiftl kHiddenBit 1)) (mkFp (u64 (u64 (Z.shiftl (frac fp) 1) + 1)) (exp fp - 1));
  let upper := mkFp (u64 (Z.shiftl (frac upper) (64 - 54))) (exp upper - (64 - 54)) in
  let l_shift := if frac fp =? kHiddenBit then 2 else 1 in
  let lower := mkFp (u64 (u64 (Z.shiftl (frac fp) l_shift) - 1)) (exp fp - l_shift) in
  let by_ := exp lower - exp upper in
  if (by_ <? 0) || (64 <=? by_) then None
  else Some (mkFp (u64 (Z.shiftl (frac lower) by_)) (exp upper), upper).

Definition kLoMask : Z := 0xFFFFFFFF.

Definition multiply (a b : Fp) : Fp :=
  let ah_bl := u64 (Z.shiftr (frac a) 32 * Z.land (frac b) kLoMask) in
  let al_bh := u64 (Z.land (frac a) kLoMask * Z.shiftr (frac b) 32) in
  let al_bl := u64 (Z.land (frac a) kLoMask * Z.land (frac b) kLoMask) in
  let ah_bh := u64 (Z.shiftr (frac a) 32 * Z.shiftr (frac b) 32) in
  let tmp := u64 (u64 (Z.land ah_bl kLoMask + Z.land al_bh kLoMask) + Z.shiftr al_bl 32) in
  let tmp := u64 (tmp + 2 ^ 31) in
  mkFp (u64 (u64 (u64 (ah_bh + Z.shiftr ah_bl 32) + Z.shiftr al_bh 32) + Z.shiftr tmp 32)) (exp a + exp b + 64).

(** ** Digits *)

(** The condition of the loop of [roundDigit]. *)
Definition closer (delta rem kappa fr : Z) : bool :=
  (rem <? fr) && (kappa <=? u64 (delta - rem)) &&
  ((u64 (rem + kappa) <? fr) || (u64 (u64 (rem + kappa) - fr) <? u64 (fr - rem))).

Fixpoint round_loop (fuel : nat) (c delta rem kappa fr : Z) : option Z :=
  if closer delta rem kappa fr then
    match fuel with
    | O => None
    | S fuel => round_loop fuel (c - 1) delta (u64 (rem + kappa)) kappa fr
    end
  else Some c.

Definition roundDigit (digits : bytes) (delta rem kappa fr : Z) : option bytes :=
  match last digits with
  | Some c => c ← round_loop 10 c delta rem kappa fr; Some (removelast digits ++ [c])
  | None => if closer delta rem kappa fr then None else Some []
  end.

(** [if (digit != 0 || idx != 0) digits[idx++] = digit + '0'], in a buffer of
    18. *)
Definition push (digits : bytes) (digit : Z) : option bytes :=
  if negb (digit =? 0) || negb (length digits =? 0)%nat then
    if (length digits <? 18)%nat then Some (digits ++ [u8 (digit + 48)]) else None
  else Some digits.

(** The integral part; [inl] is the return inside the loop, [inr] the digits
    when the loop ends. [s] is [-one.exp]. *)
Fixpoint integral (s wfrac delta part2 : Z) (divs : list Z) (kappa part1 : Z) (digits : bytes)
    : option (bytes * Z + bytes) :=
  match divs with
  | [] => Some (inr digits)
  | div :: divs =>
      let digit := u32 (part1 / div) in
      digits ← push digits digit;
      let part1 := u64 (part1 - u64 (digit * div)) in
      let kappa := kappa - 1 in
      let tmp := u64 (u64 (Z.shiftl part1 s) + part2) in
      if tmp <=? delta then
        digits ← roundDigit digits delta tmp (u64 (Z.shiftl div s)) wfrac;
        Some (inl (digits, kappa))
      else integral s wfrac delta part2 divs kappa part1 digits
  end.

(** The fractional part; [unit_] is the index of [unit] in [kTens]. *)
Fixpoint fractional (s wfrac : Z) (unit_ : nat) (delta part2 kappa : Z) (digits : bytes) : option (bytes * Z) :=
  let part2 := u64 (part2 * 10) in
  let delta := u64 (delta * 10) in
  let kappa := kappa - 1 in
  let digit := u32 (Z.shiftr part2 s) in
  digits ← push digits digit;
  let part2 := Z.land part2 (u64 (Z.shiftl 1 s) - 1) in
  if part2 <? delta then
    ten ← kTens !! unit_;
    digits ← roundDigit digits delta part2 (u64 (Z.shiftl 1 s)) (u64 (wfrac * ten));
    Some (digits, kappa)
  else
    match unit_ with
    | O => None
    | S unit_ => fractional s wfrac unit_ delta part2 kappa digits
    end.

Definition generateDigits (fp upper lower : Fp) (K : Z) : option (bytes * Z) :=
  let wfrac := u64 (frac upper - frac fp) in
  let delta := u64 (frac upper - frac lower) in
  let s := - exp upper in
  if (s <? 0) || (64 <=? s) then None
  else
    let part1 := Z.shiftr (frac upper) s in
    let part2 := Z.land (frac upper) (u64 (Z.shiftl 1 s) - 1) in
    r ← integral s wfrac delta part2 (drop 10 kTens) 10 part1 [];
    match r with
    | inl (digits, kappa) => Some (digits, K + kappa)
    | inr digits =>
        '(digits, kappa) ← fractional s wfrac 18 delta part2 0 digits;
        Some (digits, K + kappa)
    end.

Definition grisu2 (d : Z) : option (bytes * Z) :=
  let w := buildFp d in
  '(lower, upper) ← normalizedBoundaries w;
  w ← normalize w;
  '(cp, k) ← findCachedPow10 (exp upper);
  let w := multiply w cp in
  let upper := multiply upper cp in
  let lower := multiply lower cp in
  let lower := mkFp (u64 (frac lower + 1)) (exp lower) in
  let upper := mkFp (u64 (frac upper - 1)) (exp upper) in
  generateDigits w upper lower (- k).

(** ** Notation *)

(** The decimal exponent, at least one digit, at most three. *)
Definition exponentDigits (e : Z) : bytes :=
  let cent := if 99 <? e then e / 100 else 0 in
  let cents := if 99 <? e then [u8 (cent + 48)] else [] in
  let e := e - cent * 100 in
  let dec := if 9 <? e then e / 10 else 0 in
  let decs := if 9 <? e then [u8 (dec + 48)] else if negb (cent =? 0) then [48] else [] in
  let e := e - dec * 10 in
  cents ++ decs ++ [u8 (Z.rem e 10 + 48)].

Definition emitDigits (digits : bytes) (K : Z) (neg : bool) : option bytes :=
  let ndigits := Z.of_nat (length digits) in
  let e := K + ndigits - 1 in
  let e := if e <? 0 then - e else e in
  if (0 <=? K) && (e <? ndigits + 7) then Some (digits ++ replicate (Z.to_nat K) 48)
  else if (K <? 0) && ((-7 <? K) || (e <? 4)) then
    let offset := ndigits - (if K <? 0 then - K else K) in
    if offset <=? 0 then Some ([48; 46] ++ replicate (Z.to_nat (- offset)) 48 ++ digits)
    else Some (take (Z.to_nat offset) digits ++ [46] ++ drop (Z.to_nat offset) digits)
  else
    let limit := 18 - (if neg then 1 else 0) in
    let digits := if limit <? ndigits then take (Z.to_nat limit) digits else digits in
    let ndigits := Z.of_nat (length digits) in
    match digits with
    | [] => None
    | d :: ds =>
        Some ([d] ++ (if 1 <? ndigits then 46 :: ds else []) ++ [101; if K + ndigits - 1 <? 0 then 45 else 43] ++
              exponentDigits e)
    end.

Definition fpconvDtoa (value : Z) : option bytes :=
  let neg := negb (Z.land value kSignMask =? 0) in
  let sign := if neg then [45] else [] in
  if Double.eq value 0 then Some (sign ++ [48])
  else if Z.land value kExpMask =? kExpMask then
    Some (sign ++ (if negb (Z.land value kFracMask =? 0) then str "nan" else str "inf"))
  else
    '(digits, K) ← grisu2 value;
    text ← emitDigits digits K neg;
    Some (sign ++ text).

(** ** [d2string] *)

(** [4611686018427387904.0] *)
Definition kTwo62 : Z := 0x43D0000000000000.

Definition double2ll (value : Z) : option Z :=
  if Double.lt value (Double.signed true kTwo62) || Double.gt value kTwo62 then None
  else
    let ll := Double.to_int64 value in
    if Double.ne (Double.of_int64 ll) value then None else Some ll.

Definition d2string_text (value : Z) : option bytes :=
  if Double.isnan value then Some (str "nan")
  else if Double.isinf value then Some (if Double.gt value 0 then str "inf" else str "-inf")
  else
    match double2ll value with
    | Some ll => Some (to_string ll)
    | None => fpconvDtoa value
    end.

(** What the callers see: [d2string_text] is never [None]. *)
Definition d2string (value : Z) : bytes := default [] (d2string_text value).

Example prints_tenth : d2string 0x3FB999999999999A = str "0.1".
Proof. vm_compute. reflexivity. Qed.
Example prints_googol : d2string 0x54B249AD2594C37D = str "1e+100".
Proof. vm_compute. reflexivity. Qed.
Example prints_least : d2string 1 = str "5e-324".
Proof. vm_compute. reflexivity. Qed.
Example prints_integer : d2string 0x4375EE2A320FF451 = str "98765432109876496".
Proof. vm_compute. reflexivity. Qed.
Example prints_small : d2string 0xBE7AD7F29ABCAF48 = str "-1e-7".
Proof. vm_compute. reflexivity. Qed.

(** ** The parts of a double *)

Lemma land_kFracMask d : Z.land d kFracMask = d mod 2 ^ 52.
Proof. change kFracMask with (Z.ones 52). by rewrite Z.land_ones by lia. Qed.

Lemma land_kExpMask d : is_u64 d -> Z.shiftr (Z.land d kExpMask) 52 = Double.exponent d.
Proof.
  intros Hd. rewrite Z.shiftr_land. change (Z.shiftr kExpMask 52) with (Z.ones 11). rewrite Z.land_ones, Z.shiftr_div_pow2 by lia.
  unfold Double.exponent, Double.magnitude. dmlia.
Qed.

Lemma land_kSignMask d : is_u64 d -> negb (Z.land d kSignMask =? 0) = Double.sign d.
Proof.
  intros Hd. change kSignMask with (2 ^ 63). unfold Double.sign.
  assert (Z.land d (2 ^ 63) = (d / 2 ^ 63) mod 2 * 2 ^ 63) as ->.
  { apply Z.bits_inj'. intros n Hn. rewrite Z.land_spec, Z.pow2_bits_eqb by lia. rewrite <- Z.testbit_spec' by lia.
    destruct (Z.eqb_spec 63 n) as [<-|Hne].
    - rewrite Z.mul_pow2_bits by lia. change (63 - 63) with 0. destruct (Z.testbit d 63); done.
    - rewrite andb_false_r. destruct (Z.testbit d 63); cbn; [|by rewrite Z.bits_0]. by rewrite (Z.pow2_bits_false 63). }
  unfold u_range in Hd. destruct (2 ^ 63 <=? d) eqn:E; dmlia.
Qed.

Lemma buildFp_parts d : is_u64 d -> buildFp d = mkFp (Double.significand d) (Double.scale d - 1074).
Proof.
  intros Hd. unfold buildFp. rewrite land_kFracMask, land_kExpMask by done. unfold Double.significand, Double.scale.
  destruct (Double.exponent d =? 0) eqn:E; cbn [negb]; [done|]. f_equal; [|unfold kExpBias; lia].
  rewrite uwrap_small; [done|]. unfold u_range, kHiddenBit. pose proof (Z.mod_pos_bound d (2 ^ 52)). lia.
Qed.

(** ** Normalising *)

Lemma land_top_bit b x : 0 <= b -> 0 <= x < 2 ^ (b + 1) -> (Z.land x (2 ^ b) =? 0) = (x <? 2 ^ b).
Proof.
  intros Hb Hx. rewrite Z.pow_add_r in Hx by lia.
  destruct (Z.ltb_spec x (2 ^ b)) as [Hlt|Hge].
  - apply Z.eqb_eq. apply Z.bits_inj'. intros n Hn. rewrite Z.land_spec, Z.pow2_bits_eqb, Z.bits_0 by lia.
    destruct (Z.eqb_spec b n) as [<-|]; [|by rewrite andb_false_r]. rewrite andb_true_r.
    destruct (Z.eq_dec x 0) as [->|]; [by rewrite Z.bits_0|]. apply Z.bits_above_log2; [lia|]. apply Z.log2_lt_pow2; lia.
  - apply Z.eqb_neq. intros E. assert (Z.testbit (Z.land x (2 ^ b)) b = false) as Hbit by (by rewrite E, Z.bits_0).
    rewrite Z.land_spec, Z.pow2_bits_true, andb_true_r in Hbit by lia.
    assert (Z.log2 x = b) as Hl by (apply Z.log2_unique; [lia|]; rewrite Z.pow_succ_r by lia; lia).
    rewrite <- Hl, Z.bit_log2 in Hbit by lia. done.
Qed.

Lemma shift_up_spec b f x fuel : 0 <= b < 63 -> 0 < f < 2 ^ (b + 1) -> b - Z.log2 f <= Z.of_nat fuel ->
  shift_up fuel (2 ^ b) (mkFp f x) = Some (mkFp (f * 2 ^ (b - Z.log2 f)) (x - (b - Z.log2 f))).
Proof.
  intros Hb. revert f x. induction fuel as [|fuel IH]; intros f x Hf Hfuel; cbn [shift_up frac exp];
    rewrite land_top_bit by lia; destruct (Z.ltb_spec f (2 ^ b)) as [Hlt|Hge];
    try (assert (Z.log2 f = b) as -> by (apply Z.log2_unique; [lia|]; rewrite <- (Z.add_1_r b); lia);
         rewrite Z.sub_diag, Z.mul_1_r, Z.sub_0_r; done).
  - assert (Z.log2 f < b) by (apply Z.log2_lt_pow2; lia). lia.
  - assert (Z.log2 f < b) as Hl by (apply Z.log2_lt_pow2; lia).
    assert (Z.log2 (f * 2) = Z.log2 f + 1) as Hl2 by (rewrite Z.mul_comm, Z.log2_double by lia; lia).
    rewrite Z.pow_add_r in Hf by lia. rewrite Z.shiftl_mul_pow2 by lia. change (2 ^ 1) with 2.
    assert (2 ^ b <= 2 ^ 62) by (apply Z.pow_le_mono_r; lia).
    rewrite uwrap_small by (unfold u_range; lia). rewrite IH; [|rewrite Z.pow_add_r by lia; lia|lia]. rewrite Hl2.
    do 2 f_equal; [|lia]. replace (b - Z.log2 f) with (Z.succ (b - (Z.log2 f + 1))) by lia. rewrite Z.pow_succ_r by lia. lia.
Qed.

(** The bits a significand is short of 53. *)
Definition lead (f : Z) : Z := 52 - Z.log2 f.

Lemma lead_range f : 0 < f < 2 ^ 53 -> 0 <= lead f <= 52 /\ 2 ^ 52 <= f * 2 ^ lead f < 2 ^ 53.
Proof.
  intros Hf. unfold lead. pose proof (Z.log2_spec f ltac:(lia)) as Hl. assert (Z.log2 f < 53) by (apply Z.log2_lt_pow2; lia).
  pose proof (Z.log2_nonneg f). split; [lia|].
  assert (2 ^ Z.log2 f * 2 ^ (52 - Z.log2 f) = 2 ^ 52) by (rewrite <- Z.pow_add_r by lia; f_equal; lia).
  rewrite Z.pow_succ_r in Hl by lia. assert (0 < 2 ^ (52 - Z.log2 f)) by (apply Z.pow_pos_nonneg; lia). nia.
Qed.

Lemma normalize_spec f x : 0 < f < 2 ^ 53 ->
  normalize (mkFp f x) = Some (mkFp (f * 2 ^ (lead f + 11)) (x - lead f - 11)).
Proof.
  intros Hf. destruct (lead_range f Hf) as [Hl Hn]. unfold normalize. change kHiddenBit with (2 ^ 52).
  rewrite shift_up_spec; [|lia|done|unfold lead in Hl; lia]. fold (lead f). cbn [mbind option_bind frac exp].
  rewrite Z.shiftl_mul_pow2 by lia. change (64 - 52 - 1) with 11. rewrite uwrap_small by (unfold u_range; lia).
  by rewrite Z.pow_add_r, Z.mul_assoc by lia.
Qed.

(** The step down to the lower boundary, in units of the last bit. *)
Definition step_down (f : Z) : Z := if f =? kHiddenBit then 3 * 2 ^ 9 else 2 ^ (lead f + 11).

Lemma normalizedBoundaries_spec f x : 0 < f < 2 ^ 53 ->
  normalizedBoundaries (mkFp f x) =
    Some (mkFp ((2 * f + 1) * 2 ^ (lead f + 10) - step_down f) (x - lead f - 11),
          mkFp ((2 * f + 1) * 2 ^ (lead f + 10)) (x - lead f - 11)).
Proof.
  intros Hf. destruct (lead_range f Hf) as [Hl Hn]. unfold normalizedBoundaries. cbn [frac exp].
  assert (forall n, 0 <= n -> Z.shiftl f n = f * 2 ^ n) as Hsh by (intros; by apply Z.shiftl_mul_pow2).
  rewrite (Hsh 1) by lia. change (2 ^ 1) with 2. rewrite (uwrap_small 64 (f * 2)) by (unfold u_range; lia).
  rewrite (uwrap_small 64 (f * 2 + 1)) by (unfold u_range; lia).
  assert (Z.log2 (f * 2 + 1) = Z.log2 f + 1) as El by (rewrite (Z.mul_comm f 2), Z.log2_succ_double by lia; lia).
  change (u64 (Z.shiftl kHiddenBit 1)) with (2 ^ 53).
  rewrite shift_up_spec; [|lia|lia|unfold lead in Hl; lia]. rewrite El. cbn [mbind option_bind frac exp].
  replace (53 - (Z.log2 f + 1)) with (lead f) by (unfold lead; lia). change (64 - 54) with 10.
  assert (0 < 2 ^ lead f) as Hp by (apply Z.pow_pos_nonneg; lia).
  assert ((f * 2 + 1) * 2 ^ lead f * 2 ^ 10 = (2 * f + 1) * 2 ^ (lead f + 10)) as Eu by (rewrite Z.pow_add_r by lia; lia).
  assert (f * 2 ^ lead f + 2 ^ lead f <= 2 ^ 53) as Hfp.
  { assert (2 ^ 53 = 2 ^ lead f * 2 ^ (53 - lead f)) as E by (rewrite <- Z.pow_add_r by lia; f_equal; lia).
    rewrite E in *. assert (f < 2 ^ (53 - lead f)) by nia. nia. }
  rewrite (Z.shiftl_mul_pow2 ((f * 2 + 1) * 2 ^ lead f)) by lia.
  rewrite (uwrap_small 64 ((f * 2 + 1) * 2 ^ lead f * 2 ^ 10)) by (unfold u_range; nia). rewrite Eu.
  unfold step_down. destruct (Z.eqb_spec f kHiddenBit) as [->|Hne].
  - change (lead kHiddenBit) with 0.
    replace ((x - 2 - (x - 1 - 0 - 10) <? 0) || (64 <=? x - 2 - (x - 1 - 0 - 10))) with false by lia.
    replace (x - 2 - (x - 1 - 0 - 10)) with 9 by lia. replace (x - 1 - 0 - 10) with (x - 0 - 11) by lia. done.
  - replace ((x - 1 - (x - 1 - lead f - 10) <? 0) || (64 <=? x - 1 - (x - 1 - lead f - 10))) with false by lia.
    replace (x - 1 - (x - 1 - lead f - 10)) with (lead f + 10) by lia. rewrite (Hsh 1) by lia.
    rewrite (uwrap_small 64 (f * 2 ^ 1)) by (unfold u_range; lia). rewrite (uwrap_small 64 (f * 2 ^ 1 - 1)) by (unfold u_range; lia).
    rewrite Z.shiftl_mul_pow2 by lia. replace (x - 1 - lead f - 10) with (x - lead f - 11) by lia.
    replace (lead f + 11) with (Z.succ (lead f + 10)) by lia. rewrite Z.pow_succ_r by lia.
    rewrite (uwrap_small 64 (_ * _)); [do 3 f_equal; lia|]. unfold u_range. rewrite Z.pow_add_r by lia. nia.
Qed.

(** ** Multiplying: rounded to the nearest *)

Lemma multiply_spec a b : is_u64 (frac a) -> is_u64 (frac b) ->
  frac (multiply a b) = (frac a * frac b + 2 ^ 63) / 2 ^ 64.
Proof.
  intros Ha Hb. unfold multiply. cbn [frac]. change kLoMask with (Z.ones 32). rewrite !Z.land_ones, !Z.shiftr_div_pow2 by lia.
  unfold u_range in Ha, Hb. pose proof (Z.div_mod (frac a) (2 ^ 32) ltac:(lia)) as Ea. pose proof (Z.div_mod (frac b) (2 ^ 32) ltac:(lia)) as Eb.
  pose proof (Z.mod_pos_bound (frac a) (2 ^ 32) ltac:(lia)) as Hal. pose proof (Z.mod_pos_bound (frac b) (2 ^ 32) ltac:(lia)) as Hbl.
  set (ah := frac a / 2 ^ 32) in *. set (al := frac a mod 2 ^ 32) in *. set (bh := frac b / 2 ^ 32) in *. set (bl := frac b mod 2 ^ 32) in *.
  assert (0 <= ah < 2 ^ 32 /\ 0 <= bh < 2 ^ 32) as [Hah Hbh] by lia.
  assert (frac a * frac b = ah * bh * 2 ^ 64 + (ah * bl + al * bh) * 2 ^ 32 + al * bl) as -> by (rewrite Ea, Eb; ring).
  clearbody ah al bh bl.
  assert (forall x y, 0 <= x < 2 ^ 32 -> 0 <= y < 2 ^ 32 -> 0 <= x * y <= (2 ^ 32 - 1) * (2 ^ 32 - 1)) as Hp by (intros; nia).
  pose proof (Hp ah bl Hah Hbl) as H1. pose proof (Hp al bh Hal Hbh) as H2. pose proof (Hp al bl Hal Hbl) as H3. pose proof (Hp ah bh Hah Hbh) as H4.
  set (x := ah * bl) in *. set (y := al * bh) in *. set (z := al * bl) in *. set (t := ah * bh) in *. clearbody x y z t.
  clear - H1 H2 H3 H4. rewrite !(uwrap_small 64 x), !(uwrap_small 64 y), !(uwrap_small 64 z), !(uwrap_small 64 t) by (unfold u_range; lia).
  pose proof (Z.div_mod x (2 ^ 32) ltac:(lia)) as Ex. pose proof (Z.mod_pos_bound x (2 ^ 32) ltac:(lia)) as Hx.
  pose proof (Z.div_mod y (2 ^ 32) ltac:(lia)) as Ey. pose proof (Z.mod_pos_bound y (2 ^ 32) ltac:(lia)) as Hy.
  pose proof (Z.div_mod z (2 ^ 32) ltac:(lia)) as Ez. pose proof (Z.mod_pos_bound z (2 ^ 32) ltac:(lia)) as Hz.
  set (xh := x / 2 ^ 32) in *. set (xl := x mod 2 ^ 32) in *. set (yh := y / 2 ^ 32) in *. set (yl := y mod 2 ^ 32) in *.
  set (zh := z / 2 ^ 32) in *. set (zl := z mod 2 ^ 32) in *. clearbody xh xl yh yl zh zl.
  rewrite (uwrap_small 64 (xl + yl)), (uwrap_small 64 (xl + yl + zh)), (uwrap_small 64 (xl + yl + zh + 2 ^ 31)) by (unfold u_range; lia).
  set (tmp := xl + yl + zh + 2 ^ 31). pose proof (Z.div_mod tmp (2 ^ 32) ltac:(lia)) as Et. pose proof (Z.mod_pos_bound tmp (2 ^ 32) ltac:(lia)) as Ht.
  set (th := tmp / 2 ^ 32) in *. set (tl := tmp mod 2 ^ 32) in *. clearbody th tl. unfold tmp in *.
  rewrite (uwrap_small 64 (t + xh)), (uwrap_small 64 (t + xh + yh)), (uwrap_small 64 (t + xh + yh + th)) by (unfold u_range; lia).
  apply (Z.div_unique_pos _ _ _ (tl * 2 ^ 32 + zl)); lia.
Qed.

(** ** The table of powers of ten *)

(** [10^k] and [2^x] times a common factor that makes both integers for all
    exponents in the table. *)
Definition ten_to (k : Z) : Z := 10 ^ (k + 348) * 2 ^ 1300.
Definition two_to (x : Z) : Z := 2 ^ (x + 1300) * 10 ^ 348.

Definition five_348 : Z := 5 ^ 348.

(** An entry fills 64 bits and is within half a unit of its power of ten;
    [fives] is [5^(k + 348)], and the powers of two are shared out so that the
    numbers stay small. *)
Definition near_power (p : Fp) (k fives : Z) : bool :=
  let one := five_348 * 2 ^ Z.max 0 (exp p - k) in
  (2 ^ 63 <=? frac p) && (frac p <? 2 ^ 64) && (-1300 <=? exp p) && (exp p <=? 1300) &&
  (2 * Z.abs (frac p * one - fives * 2 ^ Z.max 0 (k - exp p)) <=? one).

Fixpoint all_near (k fives : Z) (l : list Fp) : bool :=
  match l with
  | [] => true
  | p :: l => near_power p k fives && all_near (k + 8) (5 ^ 8 * fives) l
  end.

Lemma table_ok : all_near kFirstPower 1 kPowersTen = true.
Proof. vm_compute. reflexivity. Qed.

Lemma all_near_lookup l n p k : -348 <= k -> all_near k (5 ^ (k + 348)) l = true -> l !! n = Some p ->
  near_power p (k + Z.of_nat n * kStepPowers) (5 ^ (k + Z.of_nat n * kStepPowers + 348)) = true.
Proof.
  intros Hk. revert n k Hk. induction l as [|q l IH]; intros n k Hk Hall Hn; [done|]. cbn [all_near] in Hall.
  apply andb_true_iff in Hall as [Hq Hall]. destruct n as [|n].
  - injection Hn as <-. by replace (k + Z.of_nat 0 * kStepPowers) with k by lia.
  - replace (k + Z.of_nat (S n) * kStepPowers) with ((k + 8) + Z.of_nat n * kStepPowers) by (unfold kStepPowers; lia).
    apply IH; [lia| |done]. rewrite <- Hall. f_equal. replace (k + 8 + 348) with (8 + (k + 348)) by lia. by rewrite Z.pow_add_r by lia.
Qed.

Definition entry_ok (p : Fp) (k : Z) : Prop :=
  -348 <= k <= 348 /\ 2 ^ 63 <= frac p < 2 ^ 64 /\ -1300 <= exp p <= 1300 /\
  2 * Z.abs (frac p * two_to (exp p) - ten_to k) <= two_to (exp p).

Lemma pow10_split n : 0 <= n -> 10 ^ n = 5 ^ n * 2 ^ n.
Proof. intros. change 10 with (5 * 2). by rewrite Z.pow_mul_l. Qed.

Lemma near_power_ok p k : -348 <= k <= 348 -> near_power p k (5 ^ (k + 348)) = true -> entry_ok p k.
Proof.
  intros Hk. unfold near_power. rewrite !andb_true_iff. intros [[[[H1 H2] H3] H4] H%Z.leb_le]. split; [done|]. split; [lia|]. split; [lia|].
  set (x := exp p) in *. set (F := 2 ^ (1648 + Z.min k x)). assert (0 < F) by (apply Z.pow_pos_nonneg; lia).
  assert (ten_to k = 5 ^ (k + 348) * 2 ^ Z.max 0 (k - x) * F) as ->.
  { unfold ten_to, F. rewrite pow10_split, <- !Z.mul_assoc, <- !Z.pow_add_r by lia. do 2 f_equal. lia. }
  assert (two_to x = five_348 * 2 ^ Z.max 0 (x - k) * F) as ->.
  { unfold two_to, F, five_348. rewrite (pow10_split 348), (Z.mul_comm (2 ^ _)), <- !Z.mul_assoc, <- !Z.pow_add_r by lia. do 2 f_equal. lia. }
  rewrite Z.mul_assoc, <- Z.mul_sub_distr_r, Z.abs_mul, (Z.abs_eq F), Z.mul_assoc by lia. apply Z.mul_le_mono_nonneg_r; [lia|done].
Qed.

(** The search for the cached power ends inside the table, for the exponent of
    every finite double, at an entry that brings the product into the range of
    the digit generator. *)
Definition cached_ok (e : Z) (found : option (Fp * Z)) : bool :=
  match found with
  | Some (p, k) =>
      let idx := (k - kFirstPower) / kStepPowers in
      match kPowersTen !! Z.to_nat idx with
      | Some q =>
          (frac p =? frac q) && (exp p =? exp q) && (0 <=? idx) && (idx <? 87) && (k =? kFirstPower + idx * kStepPowers) &&
          (-60 <=? e + exp p + 64) && (e + exp p + 64 <=? -32)
      | None => false
      end
  | None => false
  end.

Lemma all_cached n : 0 <= n < 2098 -> cached_ok (n - 1137) (findCachedPow10 (n - 1137)) = true.
Proof.
  apply (byte_cases 2098 (fun n => cached_ok (n - 1137) (findCachedPow10 (n - 1137)))). vm_cast_no_check (eq_refl true).
Qed.

Lemma cached_ok_true e found : cached_ok e found = true ->
  exists p k, found = Some (p, k) /\ entry_ok p k /\ -60 <= e + exp p + 64 <= -32.
Proof.
  unfold cached_ok. destruct found as [[p k]|]; [|done]. generalize ((k - kFirstPower) / kStepPowers). intros idx.
  destruct (kPowersTen !! Z.to_nat idx) as [q|] eqn:Hq; [|done]. intros H. rewrite !andb_true_iff in H.
  destruct H as [[[[[[Hf Hx] H0] H87] Hk%Z.eqb_eq] Hlo] Hhi]. exists p, k. split; [done|]. split; [|lia].
  assert (p = q) as -> by (destruct p, q; cbn in *; f_equal; lia).
  rewrite Hk, <- (Z2Nat.id idx) by lia.
  apply near_power_ok; [unfold kFirstPower, kStepPowers in *; lia|].
  by apply (all_near_lookup kPowersTen _ _ kFirstPower ltac:(done) table_ok).
Qed.

Lemma findCachedPow10_spec e : -1137 <= e <= 960 ->
  exists p k, findCachedPow10 e = Some (p, k) /\ entry_ok p k /\ -60 <= e + exp p + 64 <= -32.
Proof.
  intros He. apply cached_ok_true. rewrite <- (Z.add_simpl_r e 1137). apply all_cached. lia.
Qed.

(** ** Comparing [a * 10^i * 2^j], whatever the common factor *)

Lemma cmp_shift d f a b c e a' b' c' e' :
  0 <= a -> 0 <= b -> 0 <= c -> 0 <= e -> 0 <= a' -> 0 <= b' -> 0 <= c' -> 0 <= e' -> a - c = a' - c' -> b - e = b' - e' ->
  (d * 10 ^ a * 2 ^ b < f * 10 ^ c * 2 ^ e <-> d * 10 ^ a' * 2 ^ b' < f * 10 ^ c' * 2 ^ e').
Proof.
  intros. assert (10 ^ a * 10 ^ c' = 10 ^ a' * 10 ^ c) as Et by (rewrite <- !Z.pow_add_r by lia; f_equal; lia).
  assert (2 ^ b * 2 ^ e' = 2 ^ b' * 2 ^ e) as Eb by (rewrite <- !Z.pow_add_r by lia; f_equal; lia).
  assert (0 < 10 ^ c * 2 ^ e) by (apply Z.mul_pos_pos; apply Z.pow_pos_nonneg; lia).
  assert (0 < 10 ^ c' * 2 ^ e') by (apply Z.mul_pos_pos; apply Z.pow_pos_nonneg; lia).
  assert ((d * 10 ^ a * 2 ^ b) * (10 ^ c' * 2 ^ e') = (d * 10 ^ a' * 2 ^ b') * (10 ^ c * 2 ^ e)) as E1.
  { transitivity (d * (10 ^ a * 10 ^ c') * (2 ^ b * 2 ^ e')); [ring|]. rewrite Et, Eb. ring. }
  assert ((f * 10 ^ c * 2 ^ e) * (10 ^ c' * 2 ^ e') = (f * 10 ^ c' * 2 ^ e') * (10 ^ c * 2 ^ e)) as E2 by ring.
  rewrite (Z.mul_lt_mono_pos_r (10 ^ c' * 2 ^ e')), E1, E2 by done. by rewrite <- Z.mul_lt_mono_pos_r by done.
Qed.

(** ** Generating digits *)

Lemma round_loop_spec fuel c delta rem kappa fr :
  0 <= rem <= delta -> delta < 2 ^ 64 -> 0 < kappa -> 48 <= c -> c - 48 <= Z.of_nat fuel -> delta <= rem + (c - 48) * kappa ->
  exists j, round_loop fuel c delta rem kappa fr = Some (c - j) /\ 0 <= j <= c - 48 /\ rem + j * kappa <= delta.
Proof.
  revert c rem. induction fuel as [|fuel IH]; intros c rem Hr Hd Hk Hc Hf Hsum; cbn [round_loop].
  - replace (closer delta rem kappa fr) with false.
    { exists 0. rewrite Z.sub_0_r. split; [done|]. lia. }
    assert (rem = delta) as -> by nia. unfold closer. rewrite Z.sub_diag. change (u64 0) with 0. symmetry. rewrite !andb_false_iff. left. right. lia.
  - destruct (closer delta rem kappa fr) eqn:E.
    + unfold closer in E. rewrite !andb_true_iff in E. destruct E as [[_ E] _]. rewrite uwrap_small in E by (unfold u_range; lia).
      rewrite (uwrap_small 64 (rem + kappa)) by (unfold u_range; lia).
      destruct (IH (c - 1) (rem + kappa)) as (j & -> & Hj & Hsum'); [lia|done|done|nia|lia|nia|].
      exists (j + 1). split; [f_equal; lia|]. split; [lia|]. lia.
    + exists 0. rewrite Z.sub_0_r. split; [done|]. lia.
Qed.

Lemma roundDigit_spec ds c delta rem kappa fr :
  0 <= rem <= delta -> delta < 2 ^ 64 -> 0 < kappa -> is_digit c -> delta <= rem + (c - 48) * kappa ->
  exists j, roundDigit (ds ++ [c]) delta rem kappa fr = Some (ds ++ [c - j]) /\ 0 <= j <= c - 48 /\ rem + j * kappa <= delta.
Proof.
  intros Hr Hd Hk Hc Hsum. unfold is_digit in Hc. unfold roundDigit. rewrite last_snoc.
  destruct (round_loop_spec 10 c delta rem kappa fr) as (j & -> & Hj & Hs); [done..|lia|lia|done|].
  exists j. cbn [mbind option_bind]. by rewrite removelast_last.
Qed.

(** The digits so far: [v] is their number, and they start with a nonzero. *)
Definition digits_of (v : Z) (ds : bytes) : Prop :=
  Forall is_digit ds /\ dec_val 0 ds = v /\ (ds = [] \/ 10 ^ (Z.of_nat (length ds) - 1) <= v).

Lemma push_spec v ds digit : digits_of v ds -> 0 <= digit < 10 -> (length ds <= 16)%nat ->
  exists ds', push ds digit = Some ds' /\ digits_of (10 * v + digit) ds' /\
    (ds' = [] /\ v = 0 /\ digit = 0 \/ ds' = ds ++ [48 + digit]).
Proof.
  intros (Hd & Hv & Hlead) Hdig Hlen. unfold push. destruct (negb (digit =? 0) || negb (length ds =? 0)%nat) eqn:E.
  - replace (length ds <? 18)%nat with true by (symmetry; apply Nat.ltb_lt; lia).
    rewrite (uwrap_small 8) by (unfold u_range; lia). replace (digit + 48) with (48 + digit) by lia. eexists. split; [done|]. split; [|by right].
    split; [|split].
    + apply Forall_app. split; [done|]. apply Forall_singleton. unfold is_digit. lia.
    + rewrite dec_val_app, Hv. lia.
    + right. rewrite length_app, Nat2Z.inj_add. cbn [length]. replace (Z.of_nat (length ds) + Z.of_nat 1 - 1) with (Z.of_nat (length ds)) by lia.
      destruct ds as [|c ds]; [cbn in *; lia|]. destruct Hlead as [|Hlead]; [done|].
      replace (Z.of_nat (length (c :: ds))) with (Z.succ (Z.of_nat (length (c :: ds)) - 1)) by lia. rewrite Z.pow_succ_r by (cbn [length]; lia). lia.
  - apply orb_false_iff in E as [E1 E2]. destruct ds; [|done]. exists []. cbn in Hv. assert (digit = 0) as -> by lia. subst v.
    split; [done|]. split; [|by left]. split; [done|]. split; [done|by left].
Qed.

Lemma digits_of_short v ds : digits_of v ds -> v < 10 ^ 16 -> (length ds <= 16)%nat.
Proof.
  intros (_ & _ & [->|H]) Hv; [cbn; lia|]. destruct (decide (length ds <= 16)%nat) as [|Hl]; [done|].
  assert (10 ^ 16 <= 10 ^ (Z.of_nat (length ds) - 1)) by (apply Z.pow_le_mono_r; lia). lia.
Qed.

(** One digit, then the step back towards the double: the number [10 v + digit]
    at unit [u] leaves [rem], which is inside the window, when the remainder
    [rem + digit * u] before it was not. *)
Lemma last_digit v ds digit delta rem u fr :
  digits_of v ds -> v < 10 ^ 16 -> 0 <= digit < 10 -> 0 <= rem <= delta -> delta < 2 ^ 64 -> 0 < u -> delta <= rem + digit * u ->
  0 < 10 * v + digit ->
  exists ds1 ds2 w, push ds digit = Some ds1 /\ roundDigit ds1 delta rem u fr = Some ds2 /\ Forall is_digit ds2 /\
    (1 <= length ds2 <= 17)%nat /\ dec_val 0 ds2 = w /\ rem <= rem + (10 * v + digit - w) * u <= delta.
Proof.
  intros Hds Hv Hdig Hr Hd Hu Hsum Hpos. pose proof (digits_of_short v ds Hds Hv) as Hlen.
  destruct (push_spec v ds digit Hds Hdig Hlen) as (ds1 & -> & (Hall & Hval & _) & [(-> & -> & ->)| ->]); [lia|].
  apply Forall_app in Hall as [Hall _].
  destruct (roundDigit_spec ds (48 + digit) delta rem u fr) as (j & Hround & Hj & Hw); [done..|unfold is_digit; lia|lia|].
  exists (ds ++ [48 + digit]), (ds ++ [48 + digit - j]), (10 * v + digit - j). split; [done|]. split; [done|]. split; [|split; [|split]].
  - apply Forall_app. split; [done|]. apply Forall_singleton. unfold is_digit. lia.
  - rewrite length_app. cbn [length]. lia.
  - rewrite dec_val_app in *. lia.
  - nia.
Qed.

Lemma fractional_eq s wfrac unit_ delta part2 kappa ds :
  fractional s wfrac unit_ delta part2 kappa ds =
    digits ← push ds (u32 (Z.shiftr (u64 (part2 * 10)) s));
    let part2 := Z.land (u64 (part2 * 10)) (u64 (Z.shiftl 1 s) - 1) in
    if part2 <? u64 (delta * 10) then
      ten ← kTens !! unit_;
      digits ← roundDigit digits (u64 (delta * 10)) part2 (u64 (Z.shiftl 1 s)) (u64 (wfrac * ten));
      Some (digits, kappa - 1)
    else match unit_ with O => None | S u => fractional s wfrac u (u64 (delta * 10)) part2 (kappa - 1) digits end.
Proof. by destruct unit_. Qed.

Section generate.
Context (s U delta wfrac : Z).
Context (Hs : 32 <= s <= 60) (HU : U < 2 ^ 64) (Hd : 0 < delta < U) (Hratio : U <= 10 ^ 16 * delta).

(** What the generator promises: few digits, all of them digits, and their
    number times [10^kappa] in the window [U - delta .. U]. *)
Definition good (ds : bytes) (kappa : Z) : Prop :=
  Forall is_digit ds /\ (1 <= length ds <= 17)%nat /\ -19 <= kappa <= 9 /\
  (U - delta) * 10 ^ Z.max 0 (- kappa) <= dec_val 0 ds * 10 ^ Z.max 0 kappa * 2 ^ s <= U * 10 ^ Z.max 0 (- kappa).

Lemma pow2_s : 2 ^ 32 <= 2 ^ s <= 2 ^ 60.
Proof using Hs. split; apply Z.pow_le_mono_r; lia. Qed.

Fixpoint powers (n : nat) : list Z := match n with O => [] | S n => 10 ^ Z.of_nat n :: powers n end.

Lemma integral_spec n part1 part2 ds v : (n <= 10)%nat ->
  digits_of v ds -> 0 <= v -> 0 <= part1 < 10 ^ Z.of_nat n -> 0 <= part2 < 2 ^ s ->
  U = (v * 10 ^ Z.of_nat n + part1) * 2 ^ s + part2 -> delta < part1 * 2 ^ s + part2 ->
  (exists ds' kappa, integral s wfrac delta part2 (powers n) (Z.of_nat n) part1 ds = Some (inl (ds', kappa)) /\ good ds' kappa) \/
  (exists ds' v', integral s wfrac delta part2 (powers n) (Z.of_nat n) part1 ds = Some (inr ds') /\
     digits_of v' ds' /\ 0 <= v' /\ U = v' * 2 ^ s + part2 /\ delta < part2).
Proof using Hs HU Hd Hratio.
  pose proof pow2_s as Hps. revert part1 ds v. induction n as [|n IH]; intros part1 ds v Hn Hds Hv Hp1 Hp2 HUe Hout.
  { right. exists ds, v. cbn in Hp1. assert (part1 = 0) as -> by lia. split; [done|]. split; [done|]. split; [done|]. lia. }
  cbn [powers integral]. set (div := 10 ^ Z.of_nat n). assert (10 ^ Z.of_nat (S n) = 10 * div) as E10.
  { unfold div. rewrite Nat2Z.inj_succ, Z.pow_succ_r by lia. done. }
  rewrite E10 in *. assert (0 < div <= 10 ^ 9) as Hdiv by (split; [apply Z.pow_pos_nonneg; lia|apply Z.pow_le_mono_r; lia]).
  pose proof (Z.div_mod part1 div ltac:(lia)) as Ediv. pose proof (Z.mod_pos_bound part1 div ltac:(lia)) as Hmod.
  set (digit := part1 / div) in *. set (r := part1 mod div) in *.
  assert (0 <= digit < 10) as Hdig by (split; [apply Z.div_pos; lia|apply Z.div_lt_upper_bound; lia]).
  clearbody digit r. rewrite (uwrap_small 32 digit), (uwrap_small 64 (digit * div)) by (unfold u_range; nia).
  replace (part1 - digit * div) with r by lia. rewrite (uwrap_small 64 r) by (unfold u_range; lia).
  rewrite Z.shiftl_mul_pow2 by lia.
  assert (v < 10 ^ 16) as Hv16.
  { assert (v * (10 * div * 2 ^ s) <= U) by nia. assert (delta < 10 * div * 2 ^ s) by nia. nia. }
  assert (0 <= r * 2 ^ s + part2 <= U) as Hrem by nia.
  rewrite (uwrap_small 64 (r * 2 ^ s)), (uwrap_small 64 (r * 2 ^ s + part2)) by (unfold u_range; nia).
  assert (U = ((10 * v + digit) * div + r) * 2 ^ s + part2) as HUe' by (rewrite HUe, Ediv at 1; ring).
  destruct (Z.leb_spec (r * 2 ^ s + part2) delta) as [Hin|Hstill].
  - left. assert (0 < 10 * v + digit) as Hpos by (destruct (Z.eq_dec (10 * v + digit) 0) as [E|]; [rewrite E in HUe'; lia|lia]).
    rewrite Z.shiftl_mul_pow2 by lia. rewrite (uwrap_small 64 (div * 2 ^ s)) by (unfold u_range; nia).
    destruct (last_digit v ds digit delta (r * 2 ^ s + part2) (div * 2 ^ s) wfrac) as (ds1 & ds2 & w & Hpush & Hround & Hall & Hlen & Hval & Hwin);
      [done|done|lia|lia|lia|nia|nia|done|].
    rewrite Hpush. cbn [mbind option_bind]. rewrite Hround. cbn [mbind option_bind]. exists ds2, (Z.of_nat (S n) - 1). split; [done|].
    split; [done|]. split; [done|]. split; [lia|]. rewrite Hval. replace (Z.max 0 (- (Z.of_nat (S n) - 1))) with 0 by lia.
    replace (Z.max 0 (Z.of_nat (S n) - 1)) with (Z.of_nat n) by lia. fold div. rewrite Z.pow_0_r, !Z.mul_1_r. nia.
  - destruct (push_spec v ds digit Hds Hdig (digits_of_short v ds Hds Hv16)) as (ds1 & -> & Hds1 & _). cbn [mbind option_bind].
    replace (Z.of_nat (S n) - 1) with (Z.of_nat n) by lia. apply (IH r ds1 (10 * v + digit)); [lia|done|lia|fold div; lia|done| |done].
    fold div. exact HUe'.
Qed.

(** The state of the fractional loop after [m] turns. *)
Definition fractional_state (m : nat) (delta' part2 v : Z) (ds : bytes) : Prop :=
  digits_of v ds /\ 0 <= v /\ delta' = delta * 10 ^ Z.of_nat m /\ delta' <= part2 < 2 ^ s /\ U * 10 ^ Z.of_nat m = v * 2 ^ s + part2.

Lemma fractional_step unit_ m part2 delta' ds v : (unit_ <= 18)%nat -> (m <= 18)%nat -> fractional_state m delta' part2 v ds ->
  (exists ds' kappa, fractional s wfrac unit_ delta' part2 (- Z.of_nat m) ds = Some (ds', kappa) /\ good ds' kappa) \/
  (exists part2' v' ds', fractional_state (S m) (delta' * 10) part2' v' ds' /\
     fractional s wfrac unit_ delta' part2 (- Z.of_nat m) ds =
       match unit_ with O => None | S u => fractional s wfrac u (delta' * 10) part2' (- Z.of_nat (S m)) ds' end).
Proof using Hs HU Hd Hratio.
  pose proof pow2_s as Hps. intros Hunit Hm (Hds & Hv & Hdelta & Hp2 & HUe).
  assert (0 < 10 ^ Z.of_nat m) as Hpm by (apply Z.pow_pos_nonneg; lia).
  assert (10 ^ Z.of_nat (S m) = 10 * 10 ^ Z.of_nat m) as Em by (rewrite Nat2Z.inj_succ, Z.pow_succ_r by lia; done).
  assert (v < 10 ^ 16) as Hv16 by (assert (U * 10 ^ Z.of_nat m <= 10 ^ 16 * delta') by (rewrite Hdelta; nia); nia).
  assert (0 < delta') as Hdpos by (rewrite Hdelta; nia).
  pose proof (Z.div_mod (part2 * 10) (2 ^ s) ltac:(lia)) as Ediv. pose proof (Z.mod_pos_bound (part2 * 10) (2 ^ s) ltac:(lia)) as Hmod.
  assert (0 <= part2 * 10 / 2 ^ s < 10) as Hdig by (split; [apply Z.div_pos; lia|apply Z.div_lt_upper_bound; lia]).
  rewrite fractional_eq. cbv zeta. rewrite (uwrap_small 64 (part2 * 10)), (uwrap_small 64 (delta' * 10)) by (unfold u_range; lia).
  rewrite Z.shiftr_div_pow2, Z.shiftl_1_l, (uwrap_small 64 (2 ^ s)) by (unfold u_range; lia).
  replace (2 ^ s - 1) with (Z.ones s) by (rewrite Z.ones_equiv; lia). rewrite Z.land_ones by lia.
  rewrite (uwrap_small 32) by (unfold u_range; lia). replace (- Z.of_nat m - 1) with (- Z.of_nat (S m)) by lia.
  set (digit := part2 * 10 / 2 ^ s) in *. set (r := (part2 * 10) mod 2 ^ s) in *. clearbody digit r.
  assert (U * 10 ^ Z.of_nat (S m) = (10 * v + digit) * 2 ^ s + r) as HUe' by (rewrite Em; nia).
  destruct (Z.ltb_spec r (delta' * 10)) as [Hin|Hstill].
  - left. assert (0 < 10 * v + digit) as Hpos.
    { destruct (Z.eq_dec (10 * v + digit) 0) as [E|]; [|lia]. rewrite E in HUe'. nia. }
    assert (is_Some (kTens !! unit_)) as [ten Hten] by (apply lookup_lt_is_Some_2; cbn; lia).
    destruct (last_digit v ds digit (delta' * 10) r (2 ^ s) (u64 (wfrac * ten))) as (ds1 & ds2 & w & Hpush & Hround & Hall & Hlen & Hval & Hwin);
      [done|done|lia|lia|lia|lia|lia|done|].
    rewrite Hpush, Hten. cbn [mbind option_bind]. rewrite Hround. cbn [mbind option_bind]. exists ds2, (- Z.of_nat (S m)). split; [done|].
    split; [done|]. split; [done|]. split; [lia|]. rewrite Hval. replace (Z.max 0 (- - Z.of_nat (S m))) with (Z.of_nat (S m)) by lia.
    replace (Z.max 0 (- Z.of_nat (S m))) with 0 by lia. rewrite Z.pow_0_r, Z.mul_1_r. subst delta'. rewrite Em in *. nia.
  - right. destruct (push_spec v ds digit Hds Hdig (digits_of_short v ds Hds Hv16)) as (ds1 & -> & Hds1 & _).
    exists r, (10 * v + digit), ds1. split; [|done]. split; [done|]. split; [lia|]. split; [|split; [lia|done]]. rewrite Em, Hdelta. ring.
Qed.

Lemma fractional_spec unit_ m part2 delta' ds v : (unit_ + m = 18)%nat -> fractional_state m delta' part2 v ds ->
  exists ds' kappa, fractional s wfrac unit_ delta' part2 (- Z.of_nat m) ds = Some (ds', kappa) /\ good ds' kappa.
Proof using Hs HU Hd Hratio.
  pose proof pow2_s as Hps. revert m part2 delta' ds v. induction unit_ as [|unit_ IH]; intros m part2 delta' ds v Hm Hst.
  - destruct (fractional_step 0 m part2 delta' ds v) as [H|(part2' & v' & ds' & Hst' & _)]; [lia|lia|done|done|].
    destruct Hst' as (_ & _ & E & Hp & _). assert (m = 18%nat) as -> by lia. change (10 ^ Z.of_nat 19) with (10 ^ 19) in E. lia.
  - destruct (fractional_step (S unit_) m part2 delta' ds v) as [H|(part2' & v' & ds' & Hst' & ->)]; [lia|lia|done|exact H|].
    apply (IH (S m) part2' (delta' * 10) ds' v'); [lia|done].
Qed.

Lemma drop_kTens : drop 10 kTens = powers 10.
Proof. reflexivity. Qed.

End generate.

Lemma generateDigits_spec fp lower s U K : 32 <= s <= 60 -> 0 < frac lower < U -> U < 2 ^ 64 -> U <= 10 ^ 16 * (U - frac lower) ->
  exists ds kappa, generateDigits fp (mkFp U (- s)) lower K = Some (ds, K + kappa) /\ good s U (U - frac lower) ds kappa.
Proof.
  intros Hs Hl HU Hr. pose proof (pow2_s s Hs) as Hps. unfold generateDigits. cbn [frac exp]. rewrite Z.opp_involutive.
  replace ((s <? 0) || (64 <=? s)) with false by lia. rewrite (uwrap_small 64 (U - frac lower)) by (unfold u_range; lia).
  rewrite Z.shiftl_1_l, (uwrap_small 64 (2 ^ s)) by (unfold u_range; lia). replace (2 ^ s - 1) with (Z.ones s) by (rewrite Z.ones_equiv; lia).
  rewrite Z.land_ones, Z.shiftr_div_pow2, drop_kTens by lia. set (wfrac := u64 (U - frac fp)). set (delta := U - frac lower) in *.
  pose proof (Z.div_mod U (2 ^ s) ltac:(lia)) as Ediv. pose proof (Z.mod_pos_bound U (2 ^ s) ltac:(lia)) as Hmod.
  assert (digits_of 0 []) as H0 by (split; [done|]; split; [done|by left]).
  assert (0 <= U / 2 ^ s < 10 ^ Z.of_nat 10) as Hp1.
  { split; [apply Z.div_pos; lia|]. apply Z.div_lt_upper_bound; [lia|]. change (10 ^ Z.of_nat 10) with (10 ^ 10). lia. }
  change 10 with (Z.of_nat 10) at 1.
  destruct (integral_spec s U delta wfrac Hs HU ltac:(lia) Hr 10 (U / 2 ^ s) (U mod 2 ^ s) [] 0) as [(ds & kappa & -> & Hg)|(ds & v & -> & Hds & Hv & HUe & Hout)];
    [lia|done|lia|done|done|lia|lia|cbn [mbind option_bind]; eauto|]. cbn [mbind option_bind].
  destruct (fractional_spec s U delta wfrac Hs HU ltac:(lia) Hr 18 0 (U mod 2 ^ s) delta ds v) as (ds' & kappa & E & Hg); [lia| |].
  { split; [done|]. split; [done|]. cbn [Z.of_nat]. rewrite Z.pow_0_r, !Z.mul_1_r. split; [done|]. lia. }
  change (- Z.of_nat 0) with 0 in E. rewrite E. cbn [mbind option_bind]. eauto.
Qed.

(** ** The window after scaling *)

(** The scaled boundaries, shrunk by one, are apart enough for seventeen digits
    to tell them from each other. *)
Lemma window_ok fu st c U L : 2 ^ 63 <= c < 2 ^ 64 -> 2 ^ 63 <= fu < 2 ^ 64 -> 2 ^ 11 <= st <= fu \/ st = 3 * 2 ^ 9 /\ fu = 2 ^ 63 + 2 ^ 10 ->
  U = (fu * c + 2 ^ 63) / 2 ^ 64 -> L = ((fu - st) * c + 2 ^ 63) / 2 ^ 64 ->
  0 <= L /\ U - 1 < 2 ^ 64 /\ L + 1 < U - 1 /\ U - 1 <= 10 ^ 16 * (U - 1 - (L + 1)).
Proof.
  intros Hc Hfu Hst -> ->.
  assert (0 <= (fu - st) * c) as Hpos by (apply Z.mul_nonneg_nonneg; lia).
  assert (fu * c = (fu - st) * c + st * c) as E by ring. assert (fu * c <= 2 ^ 64 * (2 ^ 64 - 1)) as Hmax by nia.
  assert (10 ^ 16 * (st * c) - fu * c >= 10 ^ 18 * c) as Hbig by (assert (10 ^ 16 * st - fu >= 10 ^ 18) by lia; nia).
  set (p := fu * c) in *. set (q := (fu - st) * c) in *. set (d := st * c) in *.
  assert (2 ^ 11 * 2 ^ 63 <= d \/ 3 * 2 ^ 9 * 2 ^ 63 <= d) as Hd by (unfold d; nia). clearbody p q d.
  pose proof (Z.div_mod (p + 2 ^ 63) (2 ^ 64) ltac:(lia)) as E1. pose proof (Z.mod_pos_bound (p + 2 ^ 63) (2 ^ 64) ltac:(lia)) as H1.
  pose proof (Z.div_mod (q + 2 ^ 63) (2 ^ 64) ltac:(lia)) as E2. pose proof (Z.mod_pos_bound (q + 2 ^ 63) (2 ^ 64) ltac:(lia)) as H2.
  set (U := (p + 2 ^ 63) / 2 ^ 64) in *. set (L := (q + 2 ^ 63) / 2 ^ 64) in *. clearbody U L. lia.
Qed.

(** Scaling by a table entry moves a bound by less than one. *)
Lemma two_to_pos x : -1300 <= x -> 0 < two_to x.
Proof. intros. unfold two_to. apply Z.mul_pos_pos; apply Z.pow_pos_nonneg; lia. Qed.

Lemma scaled_above p k f : entry_ok p k -> 0 <= f < 2 ^ 64 ->
  ((f * frac p + 2 ^ 63) / 2 ^ 64 - 1) * 2 ^ 64 * two_to (exp p) < ten_to k * f.
Proof.
  intros (_ & Hp & Hx & Herr) Hf. pose proof (Z.mul_div_le (f * frac p + 2 ^ 63) (2 ^ 64) ltac:(lia)) as Hle.
  pose proof (two_to_pos (exp p) ltac:(lia)) as HB. set (u := (f * frac p + 2 ^ 63) / 2 ^ 64) in *. clearbody u.
  set (B := two_to (exp p)) in *. set (A := ten_to k) in *. clearbody A B.
  assert (2 ^ 64 * u * B <= (f * frac p + 2 ^ 63) * B) by (apply Z.mul_le_mono_nonneg_r; lia).
  assert (f * (2 * (frac p * B - A)) <= f * B) by (apply Z.mul_le_mono_nonneg_l; lia).
  assert (f * B < 2 ^ 64 * B) by (apply Z.mul_lt_mono_pos_r; lia). lia.
Qed.

Lemma scaled_below p k f : entry_ok p k -> 0 <= f < 2 ^ 64 ->
  ten_to k * f < ((f * frac p + 2 ^ 63) / 2 ^ 64 + 1) * 2 ^ 64 * two_to (exp p).
Proof.
  intros (_ & Hp & Hx & Herr) Hf. pose proof (Z.mul_succ_div_gt (f * frac p + 2 ^ 63) (2 ^ 64) ltac:(lia)) as Hgt.
  pose proof (two_to_pos (exp p) ltac:(lia)) as HB. set (u := (f * frac p + 2 ^ 63) / 2 ^ 64) in *. clearbody u.
  set (B := two_to (exp p)) in *. set (A := ten_to k) in *. clearbody A B.
  assert ((f * frac p + 2 ^ 63) * B < 2 ^ 64 * Z.succ u * B) by (apply Z.mul_lt_mono_pos_r; lia).
  assert (f * (2 * (A - frac p * B)) <= f * B) by (apply Z.mul_le_mono_nonneg_l; lia).
  assert (f * B < 2 ^ 64 * B) by (apply Z.mul_lt_mono_pos_r; lia). lia.
Qed.

(** ** The digits of a double *)

(** The decimal [n * 10^k] lies strictly between the midpoints to the two
    neighbours of the magnitude [m]. *)
Definition between (n k m : Z) : Prop :=
  (Double.abs_units (m - 1) + Double.abs_units m) * 10 ^ Z.max 0 (- k) < 2 * (n * 10 ^ Z.max 0 k * Double.unit) <
    (Double.abs_units m + Double.abs_units (m + 1)) * 10 ^ Z.max 0 (- k).

Lemma magnitude_same d : Double.significand (Double.magnitude d) = Double.significand d /\ Double.scale (Double.magnitude d) = Double.scale d.
Proof.
  unfold Double.significand, Double.scale, Double.exponent, Double.fraction.
  assert (Double.magnitude (Double.magnitude d) = Double.magnitude d) as -> by (unfold Double.magnitude; by rewrite Z.mod_mod by lia).
  assert (Double.magnitude d mod 2 ^ 52 = d mod 2 ^ 52) as -> by (unfold Double.magnitude; dmlia). done.
Qed.

(** From the window around the scaled boundaries to the interval around the
    double: [fu] and [fl] are the boundaries in units of [2^(sc - l - 1085)]. *)
Lemma window_between p k s sc l fu fl U L n kappa : entry_ok p k -> 0 <= fl < 2 ^ 64 -> 0 <= fu < 2 ^ 64 -> 0 <= sc -> 0 <= l <= 52 ->
  -19 <= kappa <= 19 -> 0 <= s -> 0 <= n -> s = - (sc - l - 1085 + exp p + 64) ->
  U = (fu * frac p + 2 ^ 63) / 2 ^ 64 - 1 -> L = (fl * frac p + 2 ^ 63) / 2 ^ 64 + 1 ->
  L * 10 ^ Z.max 0 (- kappa) <= n * 10 ^ Z.max 0 kappa * 2 ^ s <= U * 10 ^ Z.max 0 (- kappa) ->
  let K := kappa - k in
  fl * 10 ^ Z.max 0 (- K) * 2 ^ (sc - l + 52) < n * 10 ^ Z.max 0 K * 2 ^ 1137 < fu * 10 ^ Z.max 0 (- K) * 2 ^ (sc - l + 52).
Proof.
  intros Hp Hfl Hfu Hsc Hl Hkap Hs Hn Es EU EL Hw K. pose proof (scaled_above p k fu Hp Hfu) as Habove. pose proof (scaled_below p k fl Hp Hfl) as Hbelow.
  rewrite <- EU in Habove. rewrite <- EL in Hbelow. destruct Hp as (Hk & Hfr & Hx & _). pose proof (two_to_pos (exp p) ltac:(lia)) as HB.
  assert (0 < 10 ^ Z.max 0 (- kappa)) as Hten by (apply Z.pow_pos_nonneg; lia).
  assert (n * 10 ^ (Z.max 0 kappa + 348) * 2 ^ (s + 64 + exp p + 1300) = n * 10 ^ Z.max 0 kappa * 2 ^ s * (2 ^ 64 * two_to (exp p))) as En.
  { unfold two_to. replace (s + 64 + exp p + 1300) with (s + (64 + (exp p + 1300))) by lia. rewrite !Z.pow_add_r by lia. ring. }
  assert (forall f, f * 10 ^ (k + 348 + Z.max 0 (- kappa)) * 2 ^ 1300 = ten_to k * f * 10 ^ Z.max 0 (- kappa)) as Ef.
  { intros f. unfold ten_to. rewrite (Z.pow_add_r 10 (k + 348)) by lia. ring. }
  split.
  - apply (cmp_shift fl n (k + 348 + Z.max 0 (- kappa)) 1300 (Z.max 0 kappa + 348) (s + 64 + exp p + 1300)); [lia..|].
    rewrite En, Ef. assert (0 < 2 ^ 64 * two_to (exp p)) by lia. set (X := 2 ^ 64 * two_to (exp p)) in *.
    apply Z.lt_le_trans with (L * X * 10 ^ Z.max 0 (- kappa)); [apply Z.mul_lt_mono_pos_r; lia|].
    replace (L * X * 10 ^ Z.max 0 (- kappa)) with (L * 10 ^ Z.max 0 (- kappa) * X) by ring. apply Z.mul_le_mono_nonneg_r; lia.
  - apply (cmp_shift n fu (Z.max 0 kappa + 348) (s + 64 + exp p + 1300) (k + 348 + Z.max 0 (- kappa)) 1300); [lia..|].
    rewrite En, Ef. assert (0 < 2 ^ 64 * two_to (exp p)) by lia. set (X := 2 ^ 64 * two_to (exp p)) in *.
    apply Z.le_lt_trans with (U * X * 10 ^ Z.max 0 (- kappa)); [|apply Z.mul_lt_mono_pos_r; lia].
    replace (U * X * 10 ^ Z.max 0 (- kappa)) with (U * 10 ^ Z.max 0 (- kappa) * X) by ring. apply Z.mul_le_mono_nonneg_r; lia.
Qed.

(** The boundaries of the code against the midpoints of the doubles. *)
Lemma upper_boundary m l : 0 < m < Double.infinity -> 0 <= l <= 52 ->
  (2 * Double.significand m + 1) * 2 ^ (l + 10) * 2 ^ (Double.scale m - l + 52) = (Double.abs_units m + Double.abs_units (m + 1)) * 2 ^ 62.
Proof.
  intros Hm Hl. destruct (Double.parts_range m) as (He & _); [unfold Double.infinity in Hm; lia|].
  rewrite Double.abs_units_succ by lia. unfold Double.abs_units. set (sc := Double.scale m) in *.
  transitivity ((2 * Double.significand m + 1) * (2 ^ sc * 2 ^ 62)); [|ring].
  rewrite <- Z.mul_assoc, <- !Z.pow_add_r by lia. do 2 f_equal. lia.
Qed.

Lemma lower_boundary m : 0 < m < Double.infinity -> let f := Double.significand m in
  (Double.abs_units (m - 1) + Double.abs_units m) * 2 ^ 62 <=
  ((2 * f + 1) * 2 ^ (lead f + 10) - step_down f) * 2 ^ (Double.scale m - lead f + 52).
Proof.
  intros Hm f. destruct (Double.parts_range m) as (He & Hs & Hn); [unfold Double.infinity in Hm; lia|]. fold f in Hs, Hn.
  assert (0 < f) as Hf.
  { pose proof (Double.abs_units_pos m Hm) as Hp. unfold Double.abs_units in Hp. fold f in Hp. nia. }
  destruct (lead_range f ltac:(lia)) as [Hl _]. unfold step_down. set (sc := Double.scale m) in *.
  assert (0 < 2 ^ sc) as Hpsc by (apply Z.pow_pos_nonneg; lia).
  assert (forall a, 0 <= a -> 2 ^ a * 2 ^ (sc - lead f + 52) = 2 ^ (a + (sc - lead f + 52))) as Epow by (intros a Ha; by rewrite (Z.pow_add_r 2 a) by lia).
  destruct (Z.eqb_spec f kHiddenBit) as [E|Hne].
  - rewrite E. change (lead kHiddenBit) with 0. cbn [Z.add]. change kHiddenBit with (2 ^ 52).
    assert (2 ^ (sc - 0 + 52) = 2 ^ 52 * 2 ^ sc) as -> by (rewrite <- Z.pow_add_r by lia; f_equal; lia).
    destruct (Double.abs_units_pred m Hm) as [[-> Hc]|(_ & Hc & ->)]; fold sc; unfold Double.abs_units; fold f sc; rewrite E; change kHiddenBit with (2 ^ 52).
    + lia.
    + assert (2 ^ sc = 2 * 2 ^ (sc - 1)) as -> by (rewrite <- Z.pow_succ_r by lia; f_equal; lia). lia.
  - destruct (Double.abs_units_pred m Hm) as [[-> Hc]|(E & _)]; [|done]. fold f sc. unfold Double.abs_units. fold f sc.
    replace (lead f + 11) with (Z.succ (lead f + 10)) by lia. rewrite Z.pow_succ_r by lia.
    replace ((2 * f + 1) * 2 ^ (lead f + 10) - 2 * 2 ^ (lead f + 10)) with ((2 * f - 1) * 2 ^ (lead f + 10)) by ring.
    rewrite <- (Z.mul_assoc (2 * f - 1)), Epow by lia. replace (lead f + 10 + (sc - lead f + 52)) with (sc + 62) by lia.
    rewrite Z.pow_add_r by lia. lia.
Qed.

Lemma step_down_range f : 0 < f < 2 ^ 53 -> let fu := (2 * f + 1) * 2 ^ (lead f + 10) in
  2 ^ 63 <= fu < 2 ^ 64 /\ (2 ^ 11 <= step_down f <= fu \/ step_down f = 3 * 2 ^ 9 /\ fu = 2 ^ 63 + 2 ^ 10).
Proof.
  intros Hf fu. destruct (lead_range f Hf) as [Hl Hn]. unfold fu, step_down.
  assert (2 ^ (lead f + 10) = 2 ^ lead f * 2 ^ 10) as -> by (apply Z.pow_add_r; lia).
  assert (2 ^ (lead f + 11) = 2 ^ lead f * 2 ^ 11) as -> by (apply Z.pow_add_r; lia).
  assert (2 ^ 53 = 2 ^ lead f * 2 ^ (53 - lead f)) as E by (rewrite <- Z.pow_add_r by lia; f_equal; lia).
  assert (0 < 2 ^ lead f) as Hp by (apply Z.pow_pos_nonneg; lia).
  assert (f < 2 ^ (53 - lead f)) as Hlt by (rewrite E in Hn; nia).
  assert (f * 2 ^ lead f + 2 ^ lead f <= 2 ^ 53) as Hsum by (rewrite E; nia). split; [lia|].
  destruct (Z.eqb_spec f kHiddenBit) as [->|]; [right; done|left; lia].
Qed.

Lemma pow_1137 : 2 ^ 1137 = 2 * Double.unit * 2 ^ 62.
Proof. unfold Double.unit. change 1137 with (1 + 1074 + 62). by rewrite !Z.pow_add_r by lia. Qed.

Lemma grisu2_body d :
  grisu2 d =
    ('(lower, upper) ← normalizedBoundaries (buildFp d);
     w ← normalize (buildFp d);
     '(cp, k) ← findCachedPow10 (exp upper);
     generateDigits (multiply w cp) (mkFp (u64 (frac (multiply upper cp) - 1)) (exp (multiply upper cp)))
       (mkFp (u64 (frac (multiply lower cp) + 1)) (exp (multiply lower cp))) (- k)).
Proof. reflexivity. Qed.

(** The same body with its three subroutines abstract. *)
Lemma bind_digits (boundaries : Fp -> option (Fp * Fp)) (norm : Fp -> option Fp) (find : Z -> option (Fp * Z)) fp lower upper w cp k :
  boundaries fp = Some (lower, upper) -> norm fp = Some w -> find (exp upper) = Some (cp, k) ->
    ('(lower, upper) ← boundaries fp;
     w ← norm fp;
     '(cp, k) ← find (exp upper);
     generateDigits (multiply w cp) (mkFp (u64 (frac (multiply upper cp) - 1)) (exp (multiply upper cp)))
       (mkFp (u64 (frac (multiply lower cp) + 1)) (exp (multiply lower cp))) (- k)) =
    generateDigits (multiply w cp) (mkFp (u64 (frac (multiply upper cp) - 1)) (exp (multiply upper cp)))
      (mkFp (u64 (frac (multiply lower cp) + 1)) (exp (multiply lower cp))) (- k).
Proof. intros H1 H2 H3. rewrite H1. cbn [mbind option_bind]. rewrite H2. cbn [mbind option_bind]. by rewrite H3. Qed.

Lemma exp_multiply a b : exp (multiply a b) = exp a + exp b + 64.
Proof. reflexivity. Qed.

(** grisu2 always returns, with at most seventeen digits, and they are between
    the midpoints to the neighbours of the double. *)
Lemma grisu2_spec d : is_u64 d -> 0 < Double.magnitude d < Double.infinity ->
  exists ds K, grisu2 d = Some (ds, K) /\ Forall is_digit ds /\ (1 <= length ds <= 17)%nat /\ -400 <= K <= 400 /\
    between (dec_val 0 ds) K (Double.magnitude d).
Proof.
  intros Hd Hm. set (m := Double.magnitude d) in *. destruct (magnitude_same d) as [Ef Esc]. fold m in Ef, Esc.
  destruct (Double.parts_range m) as (He & Hs & Hn); [unfold Double.infinity in Hm; lia|].
  assert (Double.scale m <= 2045) as He2 by (pose proof (Double.magnitude_parts m ltac:(unfold Double.infinity in Hm; lia)); unfold Double.infinity in Hm; lia).
  pose proof (buildFp_parts d Hd) as Eb. rewrite <- Ef, <- Esc in Eb. set (f := Double.significand m) in *. set (sc := Double.scale m) in *.
  assert (0 < f) as Hf by (pose proof (Double.abs_units_pos m Hm) as Hp; unfold Double.abs_units in Hp; fold f in Hp; nia).
  destruct (lead_range f ltac:(lia)) as [Hl Hnorm]. destruct (step_down_range f ltac:(lia)) as [Hfu Hst]. cbv zeta in Hst.
  assert (sc = 0 \/ lead f = 0) as Hlsc.
  { destruct Hn as [|Hn]; [by left|right]. unfold lead. enough (Z.log2 f = 52) by lia. apply Z.log2_unique; [lia|]. change (Z.succ 52) with 53. lia. }
  destruct (findCachedPow10_spec (sc - 1074 - lead f - 11)) as (p & k & Hfind & Hp & Hrange); [lia|].
  rewrite grisu2_body, (bind_digits normalizedBoundaries normalize findCachedPow10 _ (mkFp ((2 * f + 1) * 2 ^ (lead f + 10) - step_down f) (sc - 1074 - lead f - 11))
             (mkFp ((2 * f + 1) * 2 ^ (lead f + 10)) (sc - 1074 - lead f - 11)) (mkFp (f * 2 ^ (lead f + 11)) (sc - 1074 - lead f - 11)) p k);
    [|rewrite Eb; apply normalizedBoundaries_spec; lia|rewrite Eb; apply normalize_spec; lia|exact Hfind]. clear Hfind.
  pose proof Hp as (Hk & Hc & Hx & _). set (fu := (2 * f + 1) * 2 ^ (lead f + 10)) in *.
  assert (0 <= fu - step_down f < 2 ^ 64) as Hfl by (unfold step_down in *; destruct (f =? kHiddenBit); lia).
  rewrite !multiply_spec by (cbn [frac]; unfold u_range; lia). cbn [frac]. set (U := (fu * frac p + 2 ^ 63) / 2 ^ 64).
  set (L := ((fu - step_down f) * frac p + 2 ^ 63) / 2 ^ 64).
  destruct (window_ok fu (step_down f) (frac p) U L) as (HL & HU & HLU & Hr); [done|done|done|done|done|].
  rewrite (uwrap_small 64 (U - 1)), (uwrap_small 64 (L + 1)) by (unfold u_range; lia). rewrite !exp_multiply. cbn [exp].
  set (s := - (sc - lead f - 1085 + exp p + 64)).
  replace (sc - 1074 - lead f - 11 + exp p + 64) with (- s) by (unfold s; lia).
  edestruct (generateDigits_spec) as (ds & kappa & -> & Hall & Hlen & Hkap & Hw); [shelve..|].
  exists ds, (- k + kappa). split; [done|]. split; [done|]. split; [done|]. split; [lia|]. cbn [frac] in Hw.
  assert (0 <= dec_val 0 ds) as Hv by (by apply dec_val_mono).
  destruct (window_between p k s sc (lead f) fu (fu - step_down f) (U - 1) (L + 1) (dec_val 0 ds) kappa) as [Hlo Hhi];
    [done|done|lia|lia|done|lia|unfold s; lia|done|unfold s; lia|done|done| |].
  { replace (U - 1 - (U - 1 - (L + 1))) with (L + 1) in Hw by lia. exact Hw. }
  replace (- k + kappa) with (kappa - k) by lia. unfold between. set (K := kappa - k) in *.
  assert (0 < 10 ^ Z.max 0 (- K)) as Hten by (apply Z.pow_pos_nonneg; lia).
  rewrite pow_1137 in Hlo, Hhi.
  pose proof (lower_boundary m Hm) as Hlb. pose proof (upper_boundary m (lead f) Hm Hl) as Hub. cbv zeta in Hlb. fold f sc in Hlb, Hub. fold fu in Hlb, Hub.
  set (Q := Double.unit) in *. set (E := 2 ^ (sc - lead f + 52)) in *. set (P := 10 ^ Z.max 0 (- K)) in *.
  apply (Z.mul_le_mono_nonneg_r _ _ P ltac:(lia)) in Hlb. apply (f_equal (fun x => x * P)) in Hub. cbv beta in Hub.
  set (N := dec_val 0 ds * 10 ^ Z.max 0 K) in *. clearbody E P Q N fu. clear -Hlo Hhi Hlb Hub. split; lia.
  Unshelve. all: cbn [frac]; unfold s; lia.
Qed.

(** ** The text *)

Lemma exponentDigits_spec e : 0 <= e < 1000 ->
  Forall is_digit (exponentDigits e) /\ exponentDigits e <> [] /\ dec_val 0 (exponentDigits e) = e /\ (length (exponentDigits e) <= 3)%nat.
Proof.
  intros He. enough (forallb Strtod.isdigit (exponentDigits e) && negb (exponentDigits e =b? []) && (dec_val 0 (exponentDigits e) =? e) &&
    (length (exponentDigits e) <=? 3)%nat = true) as H.
  { rewrite !andb_true_iff in H. destruct H as [[[H1 H2] H3] H4%Nat.leb_le]. split; [|split; [|split; [lia|done]]].
    - apply Forall_forall. intros c Hc. apply Strtod.isdigit_true. rewrite forallb_forall in H1. by apply H1, list_elem_of_In.
    - apply negb_true_iff, bool_decide_eq_false in H2. done. }
  revert e He. apply (byte_cases 1000 (fun e => forallb Strtod.isdigit (exponentDigits e) && negb (exponentDigits e =b? []) &&
    (dec_val 0 (exponentDigits e) =? e) && (length (exponentDigits e) <=? 3)%nat)). vm_compute. reflexivity.
Qed.

Lemma dec_val_zeros ds n : dec_val 0 (ds ++ replicate n 48) = dec_val 0 ds * 10 ^ Z.of_nat n.
Proof.
  induction n as [|n IH]; [cbn [replicate]; rewrite app_nil_r; lia|].
  rewrite replicate_S_end, app_assoc, dec_val_app, IH, Nat2Z.inj_succ, Z.pow_succ_r by lia. lia.
Qed.

Lemma dec_val_lead n ds : dec_val 0 (replicate n 48 ++ ds) = dec_val 0 ds.
Proof. induction n as [|n IH]; [done|]. cbn [replicate app dec_val]. exact IH. Qed.

Lemma zeros_digits n : Forall is_digit (replicate n 48).
Proof. apply Forall_replicate. unfold is_digit. lia. Qed.

Lemma scaled_integer n k : 0 <= k -> Strtod.scaled 10 (n * 10 ^ k) 0 = Strtod.scaled 10 n k.
Proof.
  intros Hk. unfold Strtod.scaled. rewrite (Z.max_r 0 k), (Z.max_l 0 (- k)) by lia. change (Z.max 0 0) with 0. change (Z.max 0 (- 0)) with 0.
  by rewrite Z.pow_0_r, Z.mul_1_r.
Qed.

(** Characters that print and are not a space. *)
Definition printable (c : Z) : Prop := 33 <= c <= 126.

Lemma digits_printable ds : Forall is_digit ds -> Forall printable ds.
Proof. intros H. apply (Forall_impl _ _ _ H). unfold is_digit, printable. lia. Qed.

(** Whichever notation is chosen, the text denotes the digits times [10^K], and
    it fits the caller's buffer. *)
Lemma emitDigits_spec ds K neg : Forall is_digit ds -> (1 <= length ds <= 17)%nat -> -400 <= K <= 400 ->
  exists t, emitDigits ds K neg = Some t /\ (length t <= 24)%nat /\ Forall printable t /\
    Strtod.parse ((if neg then [45] else []) ++ t) = (Double.signed neg (Strtod.scaled 10 (dec_val 0 ds) K), []).
Proof.
  intros Hd Hlen HK. unfold emitDigits. set (n := Z.of_nat (length ds)). set (e := if K + n - 1 <? 0 then - (K + n - 1) else K + n - 1).
  assert (0 <= K + n - 1 /\ e = K + n - 1 \/ K + n - 1 < 0 /\ e = - (K + n - 1)) as Ee by (unfold e; case_if; lia).
  clearbody e. assert (0 <= e < 1000) as He by lia. destruct ds as [|d ds]; [cbn in Hlen; lia|].
  destruct ((0 <=? K) && (e <? n + 7)) eqn:C1; [|destruct ((K <? 0) && ((-7 <? K) || (e <? 4))) eqn:C2].
  - bools. eexists. split; [done|]. split; [rewrite length_app, length_replicate; unfold n in *; lia|].
    split; [by apply digits_printable, Forall_app, conj, zeros_digits|].
    pose proof (Strtod.strtod_text neg ((d :: ds) ++ replicate (Z.to_nat K) 48) None None) as E. unfold Strtod.text in E.
    cbn [Strtod.fraction_text Strtod.exponent_text] in E. rewrite !app_nil_r in E. rewrite E;
      [|apply Forall_app; split; [done|apply zeros_digits]|done|done|done].
    cbn [Strtod.exponent_val default length]. change (0 - Z.of_nat 0) with 0. rewrite ?app_nil_r, dec_val_zeros, Z2Nat.id by lia.
    by rewrite scaled_integer by lia.
  - replace (K <? 0) with true by (bools; lia). destruct (Z.leb_spec (n - - K) 0) as [Ho|Ho].
    + eexists. split; [done|]. split; [rewrite !length_app, length_replicate; unfold n in *; cbn [length] in *; bools; lia|].
      split; [by apply Forall_app, conj, digits_printable, Forall_app, conj; [repeat constructor; unfold printable; lia|apply zeros_digits|]|].
      pose proof (Strtod.strtod_text neg [48] (Some (replicate (Z.to_nat (- (n - - K))) 48 ++ d :: ds)) None) as E. unfold Strtod.text in E.
      cbn [Strtod.fraction_text Strtod.exponent_text] in E. rewrite !app_nil_r in E. cbn [app] in E |- *. rewrite E;
        [|by repeat constructor|done|cbn [default]; apply Forall_app; split; [apply zeros_digits|done]|done].
      cbn [Strtod.exponent_val default id app]. change (48 :: ?l) with (replicate 1 48 ++ l). rewrite !dec_val_lead, length_app, length_replicate.
      do 3 f_equal. unfold n in *. lia.
    + eexists. split; [done|]. split; [rewrite !length_app, length_take, length_drop; unfold n in *; cbn [length] in *; lia|].
      split; [by apply Forall_app, conj, Forall_app, conj; [apply digits_printable, Forall_take|repeat constructor; unfold printable; lia|apply digits_printable, Forall_drop]|].
      set (o := Z.to_nat (n - - K)). pose proof (Strtod.strtod_text neg (take o (d :: ds)) (Some (drop o (d :: ds))) None) as E. unfold Strtod.text in E.
      cbn [Strtod.fraction_text Strtod.exponent_text] in E. rewrite !app_nil_r in E. cbn [app default] in E |- *. rewrite E;
        [|by apply Forall_take|destruct o eqn:Eo; [lia|done]|by apply Forall_drop|done].
      cbn [Strtod.exponent_val default id]. rewrite take_drop, length_drop. do 3 f_equal. unfold o, n in *. bools. lia.
  - replace (18 - (if neg then 1 else 0) <? n) with false by (unfold n; destruct neg; lia). fold n. eexists. split; [done|].
    destruct (exponentDigits_spec e He) as (Hx & Hxn & Hxv & Hxl).
    split; [rewrite !length_app; destruct (1 <? n); cbn [length] in *; lia|].
    split.
    { apply digits_printable in Hd, Hx. apply Forall_cons in Hd as [Hd1 Hd2]. apply Forall_app, conj; [by constructor|].
      apply Forall_app, conj; [destruct (1 <? n); [|done]; constructor; [unfold printable; lia|done]|].
      apply Forall_app, conj; [|done]. apply Forall_cons_2; [unfold printable; lia|].
      apply Forall_cons_2; [unfold printable; clear; case_if; lia|done]. }
    assert (default [] (if 1 <? n then Some ds else None) = ds) as Ef.
    { unfold n. destruct ds as [|x l]; [by destruct (1 <? _)|]. assert ((1 <? Z.of_nat (length (d :: x :: l))) = true) as -> by (apply Z.ltb_lt; cbn [length]; lia). done. }
    set (f := if 1 <? n then Some ds else None) in *.
    assert ((if 1 <? n then 46 :: ds else []) = Strtod.fraction_text f) as -> by (unfold f; by destruct (1 <? n)).
    pose proof (Strtod.strtod_text neg [d] f (Some (K + n - 1 <? 0, exponentDigits e))) as E. unfold Strtod.text in E.
    cbn [Strtod.exponent_text] in E. cbn [app] in E |- *. fold n. rewrite E;
      [|apply Forall_cons in Hd as [Hd _]; by constructor|done|rewrite Ef; by apply Forall_cons in Hd as [_ ?]|done].
    rewrite Ef. cbn [Strtod.exponent_val]. rewrite Hxv. do 3 f_equal. revert Ee. clear. unfold n. cbn [length].
    destruct (Z.ltb_spec (K + Z.of_nat (S (length ds)) - 1) 0); lia.
Qed.

Lemma fpconvDtoa_spec d : is_u64 d -> 0 < Double.magnitude d < Double.infinity ->
  exists t, fpconvDtoa d = Some t /\ (length t <= 25)%nat /\ Forall printable t /\ Strtod.parse t = (d, []).
Proof.
  intros Hd Hm. unfold fpconvDtoa. rewrite land_kSignMask by done.
  assert (Double.eq d 0 = false) as ->.
  { unfold Double.eq. apply andb_false_iff. right. unfold Double.key. change (Double.sign 0) with false. change (Double.magnitude 0) with 0.
    destruct (Double.sign d); lia. }
  assert ((Z.land d kExpMask =? kExpMask) = false) as ->.
  { apply Z.eqb_neq. intros E. apply (f_equal (fun x => Z.shiftr x 52)) in E. rewrite land_kExpMask in E by done.
    unfold Double.exponent in E. change (Z.shiftr kExpMask 52) with 2047 in E. unfold Double.infinity in Hm. dmlia. }
  destruct (grisu2_spec d Hd Hm) as (ds & K & -> & Hall & Hlen & HK & Hbetween). cbn [mbind option_bind].
  destruct (emitDigits_spec ds K (Double.sign d) Hall Hlen HK) as (t & -> & Hlt & Hpr & Hparse). cbn [mbind option_bind].
  eexists. split; [done|]. split; [rewrite length_app; destruct (Double.sign d); cbn; lia|].
  split; [apply Forall_app, conj; [destruct (Double.sign d); repeat constructor; unfold printable; lia|done]|]. rewrite Hparse.
  rewrite (Strtod.scaled_between _ _ (Double.magnitude d)); [|by apply dec_val_mono|done|done]. by rewrite Double.signed_parts.
Qed.

(** The cast of [double2ll] is of a value that fits. *)
Lemma to_int64_range d : is_u64 d -> Double.magnitude d <= kTwo62 -> - 2 ^ 62 <= Double.to_int64 d <= 2 ^ 62.
Proof.
  intros Hd Hm. enough (0 <= Double.abs_units d / Double.unit <= 2 ^ 62) by (unfold Double.to_int64; destruct (Double.sign d); lia).
  pose proof (Double.magnitude_range d) as Hr. destruct (Double.parts_range _ Hr) as (He & Hs & Hn). pose proof (Double.magnitude_parts _ Hr) as Hp.
  destruct (magnitude_same d) as [E1 E2]. rewrite E1, E2 in *. unfold Double.abs_units. set (sc := Double.scale d) in *.
  assert (0 < 2 ^ sc) as Hpsc by (apply Z.pow_pos_nonneg; lia). unfold kTwo62 in Hm.
  assert (Double.significand d * 2 ^ sc <= Double.unit * 2 ^ 62) as Hle.
  { unfold Double.unit. rewrite <- Z.pow_add_r by lia. change (1074 + 62) with (52 + 1084). rewrite Z.pow_add_r by lia.
    destruct (Z.le_gt_cases sc 1083) as [Hsc|Hsc].
    - assert (2 * 2 ^ sc <= 2 ^ 1084) by (rewrite <- Z.pow_succ_r by lia; apply Z.pow_le_mono_r; lia).
      set (P := 2 ^ 1084) in *. clearbody P. nia.
    - assert (sc = 1084) as -> by lia. apply Z.mul_le_mono_nonneg_r; lia. }
  assert (0 < Double.unit) as Hu by (apply Z.pow_pos_nonneg; lia).
  split; [apply Z.div_pos; nia|]. rewrite <- (Z.div_mul (2 ^ 62) Double.unit) by lia. apply Z.div_le_mono; [done|]. lia.
Qed.

Lemma to_int64_zero d : Double.magnitude d = 0 -> Double.to_int64 d = 0.
Proof.
  intros Hz. assert (Double.abs_units d = 0) as E.
  { unfold Double.abs_units. destruct (magnitude_same d) as [<- _]. rewrite Hz. change (Double.significand 0) with 0. lia. }
  unfold Double.to_int64. rewrite E, Z.div_0_l by (apply Z.pow_nonzero; lia). by destruct (Double.sign d).
Qed.

Lemma of_int64_zero : Double.of_int64 0 = 0.
Proof. vm_compute. reflexivity. Qed.

Lemma key_two62 : Double.key (Double.signed true kTwo62) = - kTwo62 /\ Double.key kTwo62 = kTwo62.
Proof. split; vm_compute; reflexivity. Qed.

Lemma in_range_two62 d : Double.isnan d = false -> Double.lt d (Double.signed true kTwo62) || Double.gt d kTwo62 = false ->
  Double.magnitude d <= kTwo62.
Proof.
  intros Hnan [H1 H2]%orb_false_iff. unfold Double.gt, Double.lt in *. rewrite Hnan in *. destruct key_two62 as [E1 E2]. rewrite E1 in H1. rewrite E2 in H2.
  change (Double.isnan (Double.signed true kTwo62)) with false in H1. change (Double.isnan kTwo62) with false in H2.
  cbn [negb andb] in H1, H2. unfold Double.key in H1, H2. destruct (Double.sign d); lia.
Qed.

Lemma double2ll_spec d ll : Double.ok d -> double2ll d = Some ll ->
  is_i64 ll /\ Double.of_int64 ll = if Double.magnitude d =? 0 then 0 else d.
Proof.
  intros [Hd Hnan] H. unfold double2ll in H. destruct (_ || _) eqn:Hout; [done|]. unfold Double.ne in H.
  destruct (Double.eq (Double.of_int64 (Double.to_int64 d)) d) eqn:E; [|done]. injection H as <-. split.
  - pose proof (in_range_two62 d Hnan Hout) as Hm.
    pose proof (to_int64_range d Hd Hm). unfold s_range. lia.
  - destruct (Double.of_int64_ok (Double.to_int64 d)) as [Hok Hn]. unfold Double.eq in E. rewrite !andb_true_iff in E. destruct E as [_ E%Z.eqb_eq].
    destruct (Double.magnitude d =? 0) eqn:Hz.
    + rewrite to_int64_zero by lia. exact of_int64_zero.
    + destruct (Double.key_inj _ _ Hok Hd E) as [|[_ E0]]; [done|lia].
Qed.

Lemma to_string_printable n : Forall printable (to_string n).
Proof.
  unfold to_string. destruct (Z.ltb_spec n 0).
  - constructor; [unfold printable; lia|]. apply digits_printable, digits_digit. lia.
  - apply digits_printable, digits_digit. lia.
Qed.

Lemma d2string_spec d : Double.ok d ->
  exists t, d2string_text d = Some t /\ (length t <= 25)%nat /\ Forall printable t /\ Strtod.strtod t = if d =? 2 ^ 63 then 0 else d.
Proof.
  intros Hok. pose proof Hok as [Hd Hnan]. unfold d2string_text. rewrite Hnan. pose proof (Double.magnitude_range d) as Hr.
  unfold Double.isnan in Hnan. destruct (Double.isinf d) eqn:Hinf.
  { unfold Double.isinf in Hinf. apply Z.eqb_eq in Hinf. eexists. split; [done|]. rewrite <- (Double.signed_parts d Hd), Hinf.
    destruct (Double.sign d); (split; [vm_compute; lia|split; [repeat constructor; unfold printable; vm_compute; done|vm_compute; reflexivity]]). }
  unfold Double.isinf in Hinf. destruct (double2ll d) as [ll|] eqn:Hll.
  - destruct (double2ll_spec d ll Hok Hll) as [Hi E]. eexists. split; [done|].
    pose proof (to_string_length ll Hi). split; [lia|]. split; [apply to_string_printable|]. rewrite Strtod.strtod_to_string, E.
    destruct (Z.eqb_spec (Double.magnitude d) 0) as [E0|E0]; destruct (Z.eqb_spec d (2 ^ 63)) as [->|Hne]; [reflexivity| |by destruct E0|reflexivity].
    rewrite <- (Double.signed_parts d Hd), E0 in Hne |- *. unfold Double.signed in *. destruct (Double.sign d); [lia|done].
  - assert (Double.magnitude d <> 0) as Hnz.
    { intros E. rewrite <- (Double.signed_parts d Hd), E in Hll. destruct (Double.sign d); vm_compute in Hll; done. }
    destruct (fpconvDtoa_spec d Hd) as (t & -> & Hlen & Hpr & Hparse); [lia|]. exists t. split; [done|]. split; [done|]. split; [done|].
    unfold Strtod.strtod. rewrite Hparse. destruct (Z.eqb_spec d (2 ^ 63)) as [->|]; [by destruct Hnz|reflexivity].
Qed.

(** The same for the callers. *)
Lemma d2string_text_eq d : Double.ok d -> d2string_text d = Some (d2string d).
Proof. intros H. destruct (d2string_spec d H) as (t & E & _). unfold d2string. by rewrite E. Qed.

Lemma strtod_d2string d : Double.ok d -> Strtod.strtod (d2string d) = if d =? 2 ^ 63 then 0 else d.
Proof. intros H. destruct (d2string_spec d H) as (t & E & _ & _ & Hs). unfold d2string. by rewrite E. Qed.

Lemma d2string_printable d : Double.ok d -> Forall printable (d2string d) /\ (length (d2string d) <= 25)%nat.
Proof. intros H. destruct (d2string_spec d H) as (t & E & Hl & Hp & _). unfold d2string. by rewrite E. Qed.

(** C27: A double survives being written down. For every double that is not a NaN,
    infinities included, printing runs to its end without leaving its tables or
    buffers, the text is at most 25 printable characters, and [strtod] reads it
    back as the very same double; a negative zero alone comes back as zero. *)
Theorem d2string_round_trip (d : Z) : Double.ok d ->
  d2string_text d = Some (d2string d) /\ (length (d2string d) <= 25)%nat /\ Forall printable (d2string d) /\
  Strtod.strtod (d2string d) = if d =? 2 ^ 63 then 0 else d.
Proof.
  intros H. destruct (d2string_printable d H) as [Hp Hl]. split; [by apply d2string_text_eq|]. split; [done|]. split; [done|].
  by apply strtod_d2string.
Qed.

(** 0.1 *)
Lemma d2string_round_trip_witness :
  let d := 0x3FB999999999999A in
  Double.ok d /\ d2string_text d = Some (d2string d) /\ (length (d2string d) <= 25)%nat /\ Forall printable (d2string d) /\
  Strtod.strtod (d2string d) = d.
Proof.
  assert (Double.ok 0x3FB999999999999A) as H by (split; [split; [lia|reflexivity]|reflexivity]).
  split; [exact H|]. exact (d2string_round_trip _ H).
Defined.

End Dtoa.
