(* ===== verification/SkipList.v ===== *)
(** * SkipList: the ordered half of a sorted set

    [src/core/skiplist.h] and [src/core/skiplist.cpp]. Nodes live in a heap and
    point to each other; every forward pointer carries the number of nodes it
    skips. [None] is a dereference of a null or freed pointer or an index out
    of bounds. The random bits are an argument. The invariant describes the
    heap by the sequence of towers it links, and every operation is specified
    on that sequence. *)

From Stdlib Require Import ZArith Lia.
From stdpp Require Import base list numbers option gmap sorting strings.
From S2P Require Import Prelude Order Double.

Module SkipList.

Definition kSkipListMaxLevel : nat := 32.
(** [static_cast<std::uint32_t>(kSkipListP * 0xFFFF)]: a quarter of 65535. *)
Definition kSkipListThreshold : Z := 16383.

(** ** Ranges *)

Record ScoreRange := mkRange { min : Z; max : Z; min_exclusive : bool; max_exclusive : bool }.

Definition isEmpty (r : ScoreRange) : bool :=
  if Double.gt (min r) (max r) then true
  else if Double.eq (min r) (max r) && (min_exclusive r || max_exclusive r) then true
  else false.

Definition below_min (r : ScoreRange) (score : Z) : bool :=
  if min_exclusive r then Double.le score (min r) else Double.lt score (min r).
Definition above_max (r : ScoreRange) (score : Z) : bool :=
  if max_exclusive r then Double.ge score (max r) else Double.gt score (max r).

Definition containsScore (r : ScoreRange) (score : Z) : bool :=
  if below_min r score then false else if above_max r score then false else true.

(** ** Nodes *)

(** A forward pointer and its span. *)
Abbreviation level := (option nat * Z)%type.

Record node := mkNode { member : bytes; score : Z; backward : option nat; levels : list level }.

Record t := mk {
  heap : gmap nat node; fresh : nat;
  header_ : nat; tail_ : option nat; length_ : Z; level_ : nat }.

Definition new : t :=
  mk {[0%nat := mkNode [] 0 None (replicate kSkipListMaxLevel (None, 0))]} 1 0 None 0 1.

Definition size (s : t) : Z := length_ s.

Definition cell (h : gmap nat node) (x i : nat) : option level := n ← h !! x; levels n !! i.

Definition set_cell (x i : nat) (v : level) (h : gmap nat node) : gmap nat node :=
  alter (fun n => mkNode (member n) (score n) (backward n) (<[i := v]> (levels n))) x h.

Definition set_backward (x : nat) (b : option nat) (h : gmap nat node) : gmap nat node :=
  alter (fun n => mkNode (member n) (score n) b (levels n)) x h.

Definition head (s : t) : option (option nat) := '(f, _) ← cell (heap s) (header_ s) 0; Some f.

Definition isBefore (a_score : Z) (a_member : bytes) (b_score : Z) (b_member : bytes) : bool :=
  if Double.ne a_score b_score then Double.lt a_score b_score else bytes_lt a_member b_member.

(** [while (next && go(next)) node = next]: where it stops, and the sum of the
    spans crossed. *)
Fixpoint walk (go : node -> bool) (h : gmap nat node) (i fuel x : nat) (rank : Z) : option (nat * Z) :=
  match fuel with
  | O => None
  | S fuel =>
      '(f, span) ← cell h x i;
      match f with
      | None => Some (x, rank)
      | Some y =>
          n ← h !! y;
          if go n then walk go h i fuel y (u64 (rank + span)) else Some (x, rank)
      end
  end.

(** The loop over the levels from [i - 1] down: [update] and [rank], by level. *)
Fixpoint descend (go : node -> bool) (h : gmap nat node) (i x : nat) (rank : Z) : option (list (nat * Z)) :=
  match i with
  | O => Some []
  | S i =>
      '(y, r) ← walk go h i (S (base.size h)) x rank;
      rest ← descend go h i y r;
      Some (rest ++ [(y, r)])
  end.

(** The node the loop ends at. *)
Definition landing (s : t) (path : list (nat * Z)) : nat := from_option fst (header_ s) (path !! 0%nat).

(** ** Insertion *)

(** The draws are [bits k], [bits (k + 1)], ...; the bits are drawn before the
    height is compared. *)
Fixpoint level_loop (n : nat) (bits : nat -> Z) (k lv : nat) : nat :=
  match n with
  | O => lv
  | S n =>
      if (Z.land (bits k) 0xFFFF <? kSkipListThreshold) && (lv <? kSkipListMaxLevel)%nat
      then level_loop n bits (S k) (S lv) else lv
  end.
Definition randomLevel (bits : nat -> Z) : nat := level_loop kSkipListMaxLevel bits 0 1.

(** The header's spans at the levels that come into use. *)
Fixpoint raise (hd : nat) (len : Z) (i n : nat) (h : gmap nat node) : option (gmap nat node) :=
  match n with
  | O => Some h
  | S n =>
      '(f, _) ← cell h hd i;
      raise hd len (S i) n (set_cell hd i (f, len) h)
  end.

(** Linking the new node [x] into the levels from [i] on. *)
Fixpoint splice (x : nat) (rank0 : Z) (i : nat) (path : list (nat * Z)) (h : gmap nat node) : option (gmap nat node) :=
  match path with
  | [] => Some h
  | (u, r) :: path =>
      '(f, span) ← cell h u i;
      let h := set_cell x i (f, u64 (span - u64 (rank0 - r))) h in
      let h := set_cell u i (Some x, u64 (u64 (rank0 - r) + 1)) h in
      splice x rank0 (S i) path h
  end.

(** The levels above the new node cross it. *)
Fixpoint widen (i : nat) (path : list (nat * Z)) (h : gmap nat node) : option (gmap nat node) :=
  match path with
  | [] => Some h
  | (u, _) :: path =>
      '(f, span) ← cell h u i;
      widen (S i) path (set_cell u i (f, u64 (span + 1)) h)
  end.

(** The second half of [insert]: allocate the node and link it in; [path] is
    [update] and [rank]. *)
Definition link_in (s : t) (new_level : nat) (path : list (nat * Z)) (sc : Z) (m : bytes) : option t :=
  let x := fresh s in
  let h := <[x := mkNode m sc None (replicate new_level (None, 0))]> (heap s) in
  '(u0, rank0) ← path !! 0%nat;
  h ← splice x rank0 0 (take new_level path) h;
  h ← widen new_level (drop new_level path) h;
  let h := set_backward x (if (u0 =? header_ s)%nat then None else Some u0) h in
  '(f, _) ← cell h x 0;
  match f with
  | Some y => Some (mk (set_backward y (Some x) h) (S x) (header_ s) (tail_ s) (u64 (length_ s + 1)) (level_ s))
  | None => Some (mk h (S x) (header_ s) (Some x) (u64 (length_ s + 1)) (level_ s))
  end.

Definition insert (s : t) (bits : nat -> Z) (sc : Z) (m : bytes) : option t :=
  path ← descend (fun n => isBefore (score n) (member n) sc m) (heap s) (level_ s) (header_ s) 0;
  let new_level := randomLevel bits in
  h ← raise (header_ s) (length_ s) (level_ s) (new_level - level_ s) (heap s);
  let path := path ++ replicate (new_level - level_ s) (header_ s, 0) in
  let s := mk h (fresh s) (header_ s) (tail_ s) (length_ s) (Nat.max (level_ s) new_level) in
  link_in s new_level path sc m.

(** ** Removal *)

Fixpoint unlink (x i : nat) (path : list (nat * Z)) (h : gmap nat node) : option (gmap nat node) :=
  match path with
  | [] => Some h
  | (u, _) :: path =>
      '(f, span) ← cell h u i;
      if bool_decide (f = Some x) then
        '(g, gspan) ← cell h x i;
        unlink x (S i) path (set_cell u i (g, u64 (span + u64 (gspan - 1))) h)
      else unlink x (S i) path (set_cell u i (f, u64 (span - 1)) h)
  end.

Fixpoint drop_levels (h : gmap nat node) (hd lv : nat) : option nat :=
  match lv with
  | S (S _ as l) =>
      '(f, _) ← cell h hd l;
      match f with None => drop_levels h hd l | Some _ => Some lv end
  | _ => Some lv
  end.

Definition remove (s : t) (sc : Z) (m : bytes) : option (t * bool) :=
  path ← descend (fun n => isBefore (score n) (member n) sc m) (heap s) (level_ s) (header_ s) 0;
  '(target, _) ← cell (heap s) (landing s path) 0;
  match target with
  | None => Some (s, false)
  | Some x =>
      n ← heap s !! x;
      if Double.ne (score n) sc || negb (member n =b? m) then Some (s, false)
      else
        h ← unlink x 0 path (heap s);
        '(f, _) ← cell h x 0;
        n ← h !! x;
        let h := match f with Some y => set_backward y (backward n) h | None => h end in
        let tl := match f with Some _ => tail_ s | None => backward n end in
        lv ← drop_levels h (header_ s) (level_ s);
        Some (mk (delete x h) (fresh s) (header_ s) tl (u64 (length_ s - 1)) lv, true)
  end.

Definition updateScore (s : t) (bits : nat -> Z) (old_score : Z) (m : bytes) (new_score : Z) : option (t * bool) :=
  '(s, removed) ← remove s old_score m;
  if removed : bool then s ← insert s bits new_score m; Some (s, true) else Some (s, false).

(** ** Queries *)

(** The inner loop of [rankOf]; [inl] is the early return. *)
Fixpoint rank_walk (sc : Z) (m : bytes) (h : gmap nat node) (i fuel x : nat) (rank : Z) : option (Z + nat * Z) :=
  match fuel with
  | O => None
  | S fuel =>
      '(f, span) ← cell h x i;
      match f with
      | None => Some (inr (x, rank))
      | Some y =>
          n ← h !! y;
          if negb (isBefore sc m (score n) (member n)) then
            let rank := u64 (rank + span) in
            if Double.eq (score n) sc && (member n =b? m) then Some (inl (u64 (rank - 1)))
            else rank_walk sc m h i fuel y rank
          else Some (inr (x, rank))
      end
  end.

Fixpoint rank_levels (sc : Z) (m : bytes) (h : gmap nat node) (i x : nat) (rank : Z) : option (option Z) :=
  match i with
  | O => Some None
  | S i =>
      r ← rank_walk sc m h i (S (base.size h)) x rank;
      match r with
      | inl k => Some (Some k)
      | inr (y, rank) => rank_levels sc m h i y rank
      end
  end.

Definition rankOf (s : t) (sc : Z) (m : bytes) : option (option Z) :=
  rank_levels sc m (heap s) (level_ s) (header_ s) 0.

Fixpoint seek_walk (target : Z) (h : gmap nat node) (i fuel x : nat) (travelled : Z) : option (nat * Z) :=
  match fuel with
  | O => None
  | S fuel =>
      '(f, span) ← cell h x i;
      match f with
      | Some y => if u64 (travelled + span) <=? target then seek_walk target h i fuel y (u64 (travelled + span))
                  else Some (x, travelled)
      | None => Some (x, travelled)
      end
  end.

Fixpoint seek_levels (target : Z) (hd : nat) (h : gmap nat node) (i x : nat) (travelled : Z) : option (option nat) :=
  match i with
  | O => Some None
  | S i =>
      '(y, travelled) ← seek_walk target h i (S (base.size h)) x travelled;
      if (travelled =? target) && negb (y =? hd)%nat then Some (Some y)
      else seek_levels target hd h i y travelled
  end.

Definition nodeByRank (s : t) (rank : Z) : option (option nat) :=
  if length_ s <=? rank then Some None
  else seek_levels (u64 (rank + 1)) (header_ s) (heap s) (level_ s) (header_ s) 0.

Definition firstInRange (s : t) (r : ScoreRange) : option (option nat) :=
  if isEmpty r || (length_ s =? 0) then Some None
  else match tail_ s with
  | None => Some None
  | Some tl =>
      tn ← heap s !! tl;
      if below_min r (score tn) then Some None
      else
        path ← descend (fun n => negb (if min_exclusive r then Double.gt (score n) (min r) else Double.ge (score n) (min r)))
                 (heap s) (level_ s) (header_ s) 0;
        '(f, _) ← cell (heap s) (landing s path) 0;
        match f with
        | None => Some None
        | Some y => n ← heap s !! y; Some (if above_max r (score n) then None else Some y)
        end
  end.

Definition lastInRange (s : t) (r : ScoreRange) : option (option nat) :=
  if isEmpty r || (length_ s =? 0) then Some None
  else
    '(first, _) ← cell (heap s) (header_ s) 0;
    match first with
    | None => Some None
    | Some y =>
        fn ← heap s !! y;
        if above_max r (score fn) then Some None
        else
          path ← descend (fun n => if max_exclusive r then Double.lt (score n) (max r) else Double.le (score n) (max r))
                   (heap s) (level_ s) (header_ s) 0;
          let x := landing s path in
          if (x =? header_ s)%nat then Some None
          else n ← heap s !! x; Some (if below_min r (score n) then None else Some x)
    end.

Definition countInRange (s : t) (r : ScoreRange) : option Z :=
  first ← firstInRange s r;
  match first with
  | None => Some 0
  | Some a =>
      last ← lastInRange s r;
      match last with
      | None => Some 0
      | Some b =>
          an ← heap s !! a;
          bn ← heap s !! b;
          first_rank ← rankOf s (score an) (member an);
          last_rank ← rankOf s (score bn) (member bn);
          match first_rank, last_rank with
          | Some i, Some j => Some (u64 (u64 (j - i) + 1))
          | _, _ => Some 0
          end
      end
  end.

(** Following [levels[0].forward] from a node to the end. *)
Fixpoint follow (h : gmap nat node) (fuel : nat) (x : option nat) : option (list (bytes * Z)) :=
  match x with
  | None => Some []
  | Some y =>
      match fuel with
      | O => None
      | S fuel =>
          n ← h !! y;
          '(f, _) ← levels n !! 0%nat;
          rest ← follow h fuel f;
          Some ((member n, score n) :: rest)
      end
  end.

Definition elements (s : t) : option (list (bytes * Z)) := f ← head s; follow (heap s) (base.size (heap s)) f.

(** [clear]: the nodes are freed along the bottom level. *)
Fixpoint free_loop (fuel : nat) (x : option nat) (h : gmap nat node) : option (gmap nat node) :=
  match x with
  | None => Some h
  | Some y =>
      match fuel with
      | O => None
      | S fuel => '(f, _) ← cell h y 0; free_loop fuel f (delete y h)
      end
  end.

Definition clear (s : t) : option t :=
  f ← head s;
  h ← free_loop (base.size (heap s)) f (heap s);
  let h := alter (fun n => mkNode (member n) (score n) (backward n) (replicate kSkipListMaxLevel (None, 0))) (header_ s) h in
  Some (mk h (fresh s) (header_ s) None 0 1).

(** ** Cells *)

(** What a node holds besides its forward pointers. *)
Definition info (h : gmap nat node) (x : nat) : option (bytes * Z * option nat * nat) :=
  (fun n => (member n, score n, backward n, length (levels n))) <$> h !! x.

Lemma info_node h x m sc b k : info h x = Some (m, sc, b, k) ->
  exists n, h !! x = Some n /\ member n = m /\ score n = sc /\ backward n = b /\ length (levels n) = k.
Proof. unfold info. destruct (h !! x) as [n|]; [|done]. cbn. intros [= <- <- <- <-]. by exists n. Qed.

Lemma cell_in_bounds h x i v : info h x = Some v -> (i < v.2)%nat -> is_Some (cell h x i).
Proof.
  destruct v as [[[m sc] b] k]. intros (n & Hn & _ & _ & _ & Hl)%info_node Hi. unfold cell. rewrite Hn. cbn.
  by apply lookup_lt_is_Some; rewrite Hl.
Qed.

Lemma cell_alloc h x i v : cell h x i = Some v -> is_Some (h !! x).
Proof. unfold cell. destruct (h !! x); [done|]. done. Qed.

Lemma cell_set_cell h x i v old y j : cell h x i = Some old ->
  cell (set_cell x i v h) y j = if decide (y = x /\ j = i) then Some v else cell h y j.
Proof.
  unfold cell, set_cell. destruct (h !! x) as [n|] eqn:Hx; [|done]. cbn. intros Hi.
  destruct (decide (y = x)) as [->|Hy].
  - rewrite lookup_alter_eq, Hx. cbn. destruct (decide (j = i)) as [->|Hj].
    + rewrite decide_True by done. apply list_lookup_insert_eq. by eapply lookup_lt_Some.
    + rewrite decide_False by (by intros [_ ?]). by apply list_lookup_insert_ne.
  - rewrite lookup_alter_ne by done. by rewrite decide_False by (by intros [? _]).
Qed.

Lemma cell_delete h x y j : y <> x -> cell (delete x h) y j = cell h y j.
Proof. intros Hy. unfold cell. by rewrite lookup_delete_ne. Qed.

Lemma info_set_cell h x i v y : info (set_cell x i v h) y = info h y.
Proof.
  unfold info, set_cell. destruct (decide (y = x)) as [->|Hy]; [|by rewrite lookup_alter_ne].
  rewrite lookup_alter_eq. destruct (h !! x); [|done]. cbn. by rewrite length_insert.
Qed.

Lemma cell_set_backward h x b y j : cell (set_backward x b h) y j = cell h y j.
Proof.
  unfold cell, set_backward. destruct (decide (y = x)) as [->|Hy]; [|by rewrite lookup_alter_ne].
  rewrite lookup_alter_eq. by destruct (h !! x).
Qed.

Lemma info_set_backward h x b y : info (set_backward x b h) y =
  if decide (y = x) then (fun '(m, sc, _, k) => (m, sc, b, k)) <$> info h y else info h y.
Proof.
  unfold info, set_backward. case_decide as Hy; [subst|by rewrite lookup_alter_ne].
  rewrite lookup_alter_eq. by destruct (h !! x).
Qed.

Lemma dom_set_cell h x i v : dom (set_cell x i v h) = dom h.
Proof. apply dom_alter_L. Qed.
Lemma dom_set_backward h x b : dom (set_backward x b h) = dom h.
Proof. apply dom_alter_L. Qed.

(** ** The loops over the levels *)

(** Each of them changes, at the levels it covers, cells of that level only.
    [same_nodes] is what they all leave alone. *)
Definition same_nodes (h h' : gmap nat node) : Prop := dom h' = dom h /\ forall y, info h' y = info h y.

Lemma same_nodes_set_cell h x i v : same_nodes h (set_cell x i v h).
Proof. split; [apply dom_set_cell|intros; apply info_set_cell]. Qed.

Lemma same_nodes_trans h1 h2 h3 : same_nodes h1 h2 -> same_nodes h2 h3 -> same_nodes h1 h3.
Proof. intros [D1 I1] [D2 I2]. split; [congruence|]. intros y. by rewrite I2, I1. Qed.

Lemma same_nodes_refl h : same_nodes h h.
Proof. done. Qed.

(** The entry of a path for level [j], when the path starts at level [i]. *)
Definition at_index {A} (i j : nat) (path : list A) : option A := if (i <=? j)%nat then path !! (j - i)%nat else None.

Lemma at_index_cons {A} i j (a : A) path :
  at_index i j (a :: path) = if decide (j = i) then Some a else at_index (S i) j path.
Proof.
  unfold at_index. destruct (Nat.leb_spec i j) as [H|H]; case_decide as Hd.
  - subst. by rewrite Nat.sub_diag.
  - destruct (Nat.leb_spec (S i) j); [|lia]. by replace (j - i)%nat with (S (j - S i)) by lia.
  - lia.
  - destruct (Nat.leb_spec (S i) j); [lia|done].
Qed.

Lemma at_index_below {A} i j (path : list A) : (j < i)%nat -> at_index i j path = None.
Proof. unfold at_index. intros. destruct (Nat.leb_spec i j); [lia|done]. Qed.

Lemma raise_spec hd len n i h :
  (forall j, (i <= j < i + n)%nat -> exists sp, cell h hd j = Some (None, sp)) ->
  exists h', raise hd len i n h = Some h' /\ same_nodes h h' /\
    forall y j, cell h' y j = if decide (y = hd /\ i <= j < i + n)%nat then Some (None, len) else cell h y j.
Proof.
  revert i h. induction n as [|n IH]; intros i h Hc; cbn [raise].
  { exists h. split; [done|]. split; [done|]. intros y j. by rewrite decide_False by lia. }
  destruct (Hc i) as [sp Hi]; [lia|]. rewrite Hi. cbn.
  destruct (IH (S i) (set_cell hd i (None, len) h)) as (h' & -> & Hs & Hcell).
  { intros j Hj. rewrite (cell_set_cell _ _ _ _ _ _ _ Hi), decide_False by lia. apply Hc. lia. }
  exists h'. split; [done|]. split; [eapply same_nodes_trans; [apply same_nodes_set_cell|done]|].
  intros y j. rewrite Hcell, (cell_set_cell _ _ _ _ _ _ _ Hi). repeat case_decide; try done; lia.
Qed.

Lemma splice_spec x rank0 path i h :
  (forall j u r, at_index i j path = Some (u, r) -> u <> x /\ is_Some (cell h u j) /\ is_Some (cell h x j)) ->
  exists h', splice x rank0 i path h = Some h' /\ same_nodes h h' /\
    forall y j, cell h' y j =
      match at_index i j path with
      | Some (u, r) =>
          if decide (y = u) then Some (Some x, u64 (u64 (rank0 - r) + 1))
          else if decide (y = x) then (fun '(f, span) => (f, u64 (span - u64 (rank0 - r)))) <$> cell h u j
          else cell h y j
      | None => cell h y j
      end.
Proof.
  revert i h. induction path as [|[u r] path IH]; intros i h Hc; cbn [splice].
  { exists h. split; [done|]. split; [done|]. intros y j. unfold at_index. by destruct (i <=? j)%nat. }
  destruct (Hc i u r) as (Hux & [[f span] Hu] & [v Hx]); [by rewrite at_index_cons, decide_True by done|].
  rewrite Hu. cbn. set (h1 := set_cell x i (f, u64 (span - u64 (rank0 - r))) h).
  set (h2 := set_cell u i (Some x, u64 (u64 (rank0 - r) + 1)) h1).
  assert (cell h1 u i = Some (f, span)) as Hu1.
  { unfold h1. rewrite (cell_set_cell _ _ _ _ _ _ _ Hx), decide_False by (by intros [? _]). done. }
  assert (forall y j, cell h2 y j = if decide (y = u /\ j = i) then Some (Some x, u64 (u64 (rank0 - r) + 1))
    else if decide (y = x /\ j = i) then Some (f, u64 (span - u64 (rank0 - r))) else cell h y j) as H2.
  { intros y j. unfold h2. rewrite (cell_set_cell _ _ _ _ _ _ _ Hu1). case_decide; [done|].
    unfold h1. by rewrite (cell_set_cell _ _ _ _ _ _ _ Hx). }
  destruct (IH (S i) h2) as (h' & -> & Hs & Hcell).
  { intros j u' r' Hj. destruct (decide (j = i)) as [->|Hji]; [by rewrite at_index_below in Hj by lia|].
    destruct (Hc j u' r') as (? & ? & ?); [by rewrite at_index_cons, decide_False by done|].
    split; [done|]. rewrite !H2. by rewrite !decide_False by (by intros [_ ?]). }
  exists h'. split; [done|]. split.
  { eapply same_nodes_trans; [|done]. eapply same_nodes_trans; apply same_nodes_set_cell. }
  intros y j. rewrite Hcell, at_index_cons. destruct (decide (j = i)) as [->|Hji].
  - rewrite at_index_below by lia. rewrite H2, Hu. repeat case_decide; naive_solver.
  - destruct (at_index (S i) j path) as [[u' r']|]; rewrite ?H2; repeat case_decide; naive_solver.
Qed.

Lemma widen_spec path i h :
  (forall j u r, at_index i j path = Some (u, r) -> is_Some (cell h u j)) ->
  exists h', widen i path h = Some h' /\ same_nodes h h' /\
    forall y j, cell h' y j =
      match at_index i j path with
      | Some (u, _) => if decide (y = u) then (fun '(f, span) => (f, u64 (span + 1))) <$> cell h u j else cell h y j
      | None => cell h y j
      end.
Proof.
  revert i h. induction path as [|[u r] path IH]; intros i h Hc; cbn [widen].
  { exists h. split; [done|]. split; [done|]. intros y j. unfold at_index. by destruct (i <=? j)%nat. }
  destruct (Hc i u r) as [[f span] Hu]; [by rewrite at_index_cons, decide_True by done|].
  rewrite Hu. cbn. pose proof (fun y j => cell_set_cell h u i (f, u64 (span + 1)) _ y j Hu) as H2.
  destruct (IH (S i) (set_cell u i (f, u64 (span + 1)) h)) as (h' & -> & Hs & Hcell).
  { intros j u' r' Hj. destruct (decide (j = i)) as [->|Hji]; [by rewrite at_index_below in Hj by lia|].
    rewrite H2, decide_False by (by intros [_ ?]).
    apply (Hc j u' r'). by rewrite at_index_cons, decide_False by done. }
  exists h'. split; [done|]. split; [eapply same_nodes_trans; [apply same_nodes_set_cell|done]|].
  intros y j. rewrite Hcell, at_index_cons. destruct (decide (j = i)) as [->|Hji].
  - rewrite at_index_below by lia. rewrite H2, Hu. repeat case_decide; naive_solver.
  - destruct (at_index (S i) j path) as [[u' r']|]; rewrite ?H2; repeat case_decide; naive_solver.
Qed.

Lemma unlink_spec x path i h :
  (forall j u r, at_index i j path = Some (u, r) -> u <> x /\ is_Some (cell h u j) /\
     (forall sp, cell h u j = Some (Some x, sp) -> is_Some (cell h x j))) ->
  exists h', unlink x i path h = Some h' /\ same_nodes h h' /\
    forall y j, cell h' y j =
      match at_index i j path with
      | Some (u, _) =>
          if decide (y = u) then
            '(f, span) ← cell h u j;
            if decide (f = Some x) then (fun '(g, gspan) => (g, u64 (span + u64 (gspan - 1)))) <$> cell h x j
            else Some (f, u64 (span - 1))
          else cell h y j
      | None => cell h y j
      end.
Proof.
  revert i h. induction path as [|[u r] path IH]; intros i h Hc; cbn [unlink].
  { exists h. split; [done|]. split; [done|]. intros y j. unfold at_index. by destruct (i <=? j)%nat. }
  destruct (Hc i u r) as (Hux & [[f span] Hu] & Hx); [by rewrite at_index_cons, decide_True by done|].
  rewrite Hu. cbn.
  assert (exists v, (if bool_decide (f = Some x) then '(g, gspan) ← cell h x i;
      unlink x (S i) path (set_cell u i (g, u64 (span + u64 (gspan - 1))) h)
      else unlink x (S i) path (set_cell u i (f, u64 (span - 1)) h)) = unlink x (S i) path (set_cell u i v h) /\
    (if decide (f = Some x) then (fun '(g, gspan) => (g, u64 (span + u64 (gspan - 1)))) <$> cell h x i
     else Some (f, u64 (span - 1))) = Some v) as (v & -> & Hv).
  { destruct (decide (f = Some x)) as [->|Hf].
    - rewrite bool_decide_eq_true_2 by done. destruct (Hx _ Hu) as [[g gspan] ->]. cbn. eauto.
    - rewrite bool_decide_eq_false_2 by done. eauto. }
  pose proof (fun y j => cell_set_cell h u i v _ y j Hu) as H2.
  destruct (IH (S i) (set_cell u i v h)) as (h' & -> & Hs & Hcell).
  { intros j u' r' Hj. destruct (decide (j = i)) as [->|Hji]; [by rewrite at_index_below in Hj by lia|].
    rewrite !H2, !decide_False by (by intros [_ ?]).
    apply (Hc j u' r'). by rewrite at_index_cons, decide_False by done. }
  exists h'. split; [done|]. split; [eapply same_nodes_trans; [apply same_nodes_set_cell|done]|].
  intros y j. rewrite Hcell, at_index_cons. destruct (decide (j = i)) as [->|Hji].
  - rewrite at_index_below by lia. rewrite H2, Hu. cbn. rewrite Hv. repeat case_decide; naive_solver.
  - assert (forall y, cell (set_cell u i v h) y j = cell h y j) as Hj
      by (intros; rewrite H2, decide_False by (by intros [_ ?]); done).
    destruct (at_index (S i) j path) as [[u' r']|]; rewrite !Hj; done.
Qed.

(** ** Towers *)

(** A node as the invariant sees it. *)
Record tower := mkTower { addr : nat; tm : bytes; ts : Z; height : nat }.

Definition before (a b : tower) : Prop := isBefore (ts a) (tm a) (ts b) (tm b) = true.

(** The pointer at level [i] over the towers [rest], and its span: the nearest
    one that is tall enough, or null and the number of towers left. *)
Fixpoint link (i : nat) (rest : list tower) : level :=
  match rest with
  | [] => (None, 0)
  | x :: rest => if (i <? height x)%nat then (Some (addr x), 1) else let '(f, n) := link i rest in (f, n + 1)
  end.

(** The node at position [p]: the header is at 0. *)
Definition pos (hd : nat) (T : list tower) (p : nat) : nat :=
  match p with O => hd | S q => from_option addr hd (T !! q) end.

(** It has a pointer at level [i]. *)
Definition reaches (i : nat) (T : list tower) (p : nat) : Prop :=
  match p with O => True | S q => exists x, T !! q = Some x /\ (i < height x)%nat end.

Definition prev (T : list tower) (q : nat) : option nat :=
  match q with O => None | S q => addr <$> T !! q end.

Record inv (s : t) (T : list tower) : Prop := {
  inv_header : exists m sc b, info (heap s) (header_ s) = Some (m, sc, b, kSkipListMaxLevel);
  inv_info : forall q x, T !! q = Some x -> info (heap s) (addr x) = Some (tm x, ts x, prev T q, height x);
  inv_cells : forall p i, (p <= length T)%nat -> (i < level_ s)%nat -> reaches i T p ->
    cell (heap s) (pos (header_ s) T p) i = Some (link i (drop p T));
  inv_upper : forall i, (level_ s <= i < kSkipListMaxLevel)%nat -> exists sp, cell (heap s) (header_ s) i = Some (None, sp);
  inv_heights : forall q x, T !! q = Some x -> (1 <= height x <= level_ s)%nat;
  inv_addrs : NoDup (header_ s :: (addr <$> T));
  inv_dom : dom (heap s) = {[header_ s]} ∪ list_to_set (addr <$> T);
  inv_fresh : forall y, y ∈ header_ s :: (addr <$> T) -> (y < fresh s)%nat;
  inv_tail : tail_ s = addr <$> last T;
  inv_length : length_ s = Z.of_nat (length T) /\ Z.of_nat (length T) < 2 ^ 64;
  inv_level : (1 <= level_ s <= kSkipListMaxLevel)%nat;
  inv_sorted : StronglySorted before T;
  inv_scores : Forall (fun x => Double.ok (ts x)) T }.

(** *** The order of members *)

Lemma isBefore_spec a am b bm : Double.ok a -> Double.ok b ->
  isBefore a am b bm = true <-> Double.key a < Double.key b \/ (Double.key a = Double.key b /\ bytes_lt am bm = true).
Proof.
  intros Ha Hb. unfold isBefore, Double.ne. rewrite Double.eq_key, Double.lt_key by done.
  destruct (Z.eqb_spec (Double.key a) (Double.key b)); cbn; [|rewrite Z.ltb_lt]; naive_solver lia.
Qed.

Lemma isBefore_trans a am b bm c cm : Double.ok a -> Double.ok b -> Double.ok c ->
  isBefore a am b bm = true -> isBefore b bm c cm = true -> isBefore a am c cm = true.
Proof.
  intros Ha Hb Hc. rewrite !isBefore_spec by done. intros [H1|[E1 H1]] [H2|[E2 H2]]; [left; lia..|].
  right. split; [lia|]. by eapply bytes_lt_trans.
Qed.

Lemma isBefore_irrefl a am b : Double.ok a -> Double.ok b -> Double.key a = Double.key b -> isBefore a am b am = false.
Proof.
  intros Ha Hb Hk. apply not_true_iff_false. rewrite isBefore_spec by done. rewrite bytes_lt_irrefl. naive_solver lia.
Qed.

Lemma isBefore_total a am b bm : Double.ok a -> Double.ok b ->
  isBefore a am b bm = true \/ isBefore b bm a am = true \/ (Double.key a = Double.key b /\ am = bm).
Proof.
  intros Ha Hb. rewrite !isBefore_spec by done.
  destruct (Z.lt_trichotomy (Double.key a) (Double.key b)) as [H|[H|H]]; [by left; left| |by right; left; left].
  destruct (bytes_lt am bm) eqn:E1; [left; by right|]. destruct (bytes_lt bm am) eqn:E2; [right; left; by right|].
  right. right. split; [done|]. apply bytes_lt_ge in E1, E2. by apply (anti_symm bytes_leP).
Qed.

(** *** Links *)

Lemma link_app_short i A B : (forall x, x ∈ A -> (height x <= i)%nat) ->
  link i (A ++ B) = let '(f, n) := link i B in (f, n + Z.of_nat (length A)).
Proof.
  induction A as [|x A IH]; intros HA; cbn [app link length]; [destruct (link i B); f_equal; lia|].
  destruct (Nat.ltb_spec i (height x)) as [H|H]; [specialize (HA x (list_elem_of_here _ _)); lia|].
  rewrite IH by (intros; apply HA; by right). destruct (link i B) as [f n]. f_equal. lia.
Qed.

Lemma link_app_tall i A B C : (exists x, x ∈ A /\ (i < height x)%nat) -> link i (A ++ B) = link i (A ++ C).
Proof.
  induction A as [|x A IH]; intros (y & Hy & Ht); [by apply not_elem_of_nil in Hy|]. cbn [app link].
  destruct (Nat.ltb_spec i (height x)) as [H|H]; [done|].
  rewrite IH; [done|]. apply elem_of_cons in Hy as [->|Hy]; [lia|eauto].
Qed.

Lemma link_here i x A : (i < height x)%nat -> link i (x :: A) = (Some (addr x), 1).
Proof. intros H%Nat.ltb_lt. cbn [link]. by rewrite H. Qed.

(** Where a link leads. *)
Lemma link_spec i rest :
  (exists d x, rest !! d = Some x /\ (i < height x)%nat /\ link i rest = (Some (addr x), Z.of_nat d + 1) /\
     (forall e y, (e < d)%nat -> rest !! e = Some y -> (height y <= i)%nat)) \/
  (link i rest = (None, Z.of_nat (length rest)) /\ forall e y, rest !! e = Some y -> (height y <= i)%nat).
Proof.
  induction rest as [|x rest IH]; [by right|]. cbn [link].
  destruct (Nat.ltb_spec i (height x)) as [H|H].
  - left. exists 0%nat, x. split; [done|]. split; [done|]. split; [done|]. intros. lia.
  - destruct IH as [(d & y & Hd & Hy & -> & Hall)|[-> Hall]].
    + left. exists (S d), y. split; [done|]. split; [done|]. split; [f_equal; lia|].
      intros [|e] z He Hz; [by injection Hz as <-|]. apply (Hall e z); [lia|done].
    + right. split; [cbn [length]; f_equal; lia|]. intros [|e] z Hz; [by injection Hz as <-|]. by apply (Hall e z).
Qed.

(** *** Positions *)

Section positions.
Context (s : t) (T : list tower) (I : inv s T).

Lemma pos_inj p q : (p <= length T)%nat -> (q <= length T)%nat ->
  pos (header_ s) T p = pos (header_ s) T q -> p = q.
Proof using I.
  intros Hp Hq E. pose proof (inv_addrs _ _ I) as Hnd.
  assert (forall p, (p <= length T)%nat -> (header_ s :: (addr <$> T)) !! p = Some (pos (header_ s) T p)) as Hl.
  { intros [|k] Hk; [done|]. unfold pos. rewrite lookup_cons. cbn [option_map]. rewrite list_lookup_fmap.
    destruct (lookup_lt_is_Some_2 T k ltac:(lia)) as [x ->]. done. }
  eapply NoDup_lookup; [exact Hnd|by apply Hl|]. rewrite E. by apply Hl.
Qed.

Lemma pos_lookup q x : T !! q = Some x -> pos (header_ s) T (S q) = addr x.
Proof using. intros H. cbn. by rewrite H. Qed.

Lemma node_lookup q x : T !! q = Some x ->
  exists n, heap s !! addr x = Some n /\ member n = tm x /\ score n = ts x /\ backward n = prev T q /\ length (levels n) = height x.
Proof using I. intros H. apply info_node. by apply (inv_info _ _ I). Qed.

Lemma heap_size : base.size (heap s) = S (length T).
Proof using I.
  rewrite <- size_dom, (inv_dom _ _ I). pose proof (inv_addrs _ _ I) as Hnd. apply NoDup_cons in Hnd as [Hh Hnd].
  rewrite size_union by set_solver. rewrite size_singleton, size_list_to_set by done. by rewrite length_fmap.
Qed.

Lemma score_ok q x : T !! q = Some x -> Double.ok (ts x).
Proof using I. intros H. pose proof (inv_scores _ _ I) as Hs. by eapply Forall_lookup_1 in Hs. Qed.

Lemma reaches_down i j p : (j <= i)%nat -> reaches i T p -> reaches j T p.
Proof using. intros Hij. destruct p as [|q]; [done|]. cbn. intros (x & Hx & Hh). exists x. split; [done|lia]. Qed.

Lemma reaches_bottom p : (p <= length T)%nat -> reaches 0 T p.
Proof using I.
  destruct p as [|q]; [done|]. intros Hp. destruct (lookup_lt_is_Some_2 T q ltac:(lia)) as [x Hx]. exists x.
  split; [done|]. pose proof (inv_heights _ _ I q x Hx). lia.
Qed.

(** The last position up to [r] that has a pointer at level [i]. *)
Definition pred_at (i r u : nat) : Prop :=
  (u <= r)%nat /\ reaches i T u /\ forall q x, (u <= q < r)%nat -> T !! q = Some x -> (height x <= i)%nat.

Lemma pred_at_bottom r u : (r <= length T)%nat -> pred_at 0 r u -> u = r.
Proof using I.
  intros Hr (Hu & _ & Hgap). destruct (decide (u = r)) as [|Hne]; [done|].
  destruct (lookup_lt_is_Some_2 T u ltac:(lia)) as [x Hx].
  pose proof (inv_heights _ _ I u x Hx). specialize (Hgap u x ltac:(lia) Hx). lia.
Qed.

Lemma pred_at_unique i r u p : pred_at i r u -> reaches i T p -> (p <= r)%nat -> (p <= u)%nat.
Proof using.
  intros (Hu & _ & Hgap) Hp Hr. destruct (decide (p <= u)%nat); [done|]. destruct p as [|q]; [lia|].
  destruct Hp as (x & Hx & Hh). specialize (Hgap q x ltac:(lia) Hx). lia.
Qed.

(** [go] holds of exactly the first [r] members. *)
Definition splits (go : node -> bool) (r : nat) : Prop :=
  (r <= length T)%nat /\
  forall q x n, T !! q = Some x -> member n = tm x -> score n = ts x -> go n = (q <? r)%nat.

Lemma walk_spec go r i p fuel : splits go r -> (p <= r)%nat -> (i < level_ s)%nat -> reaches i T p ->
  (r - p < fuel)%nat ->
  exists u, walk go (heap s) i fuel (pos (header_ s) T p) (Z.of_nat p) = Some (pos (header_ s) T u, Z.of_nat u) /\
    (p <= u)%nat /\ pred_at i r u.
Proof using I.
  intros [Hr Hgo]. revert p. induction fuel as [|fuel IH]; intros p Hpr Hi Hp Hf; [lia|]. cbn [walk].
  rewrite (inv_cells _ _ I) by (done || lia). cbn.
  destruct (link_spec i (drop p T)) as [(d & x & Hd & Hh & -> & Hall)|[-> Hall]].
  - rewrite lookup_drop in Hd. destruct (node_lookup _ _ Hd) as (n & -> & Hm & Hs & _). cbn.
    rewrite (Hgo _ _ _ Hd Hm Hs). destruct (Nat.ltb_spec (p + d) r) as [Hlt|Hge].
    + pose proof (inv_length _ _ I) as [_ Hlen].
      replace (u64 (Z.of_nat p + (Z.of_nat d + 1))) with (Z.of_nat (S (p + d))) by (rewrite uwrap_small; unfold u_range; lia).
      rewrite <- (pos_lookup _ _ Hd). destruct (IH (S (p + d))) as (u & -> & Hu & Hpred); [lia|done|by exists x|lia|].
      exists u. split; [done|]. split; [lia|done].
    + exists p. split; [done|]. split; [done|]. split; [lia|]. split; [done|]. intros q y Hq Hy.
      apply (Hall (q - p)%nat); [lia|]. rewrite lookup_drop. by replace (p + (q - p))%nat with q by lia.
  - exists p. split; [done|]. split; [done|]. split; [lia|]. split; [done|]. intros q y Hq Hy.
    apply (Hall (q - p)%nat). rewrite lookup_drop. by replace (p + (q - p))%nat with q by lia.
Qed.

Lemma descend_spec go r i p : splits go r -> (p <= r)%nat -> (i <= level_ s)%nat -> reaches (i - 1) T p ->
  exists us, descend go (heap s) i (pos (header_ s) T p) (Z.of_nat p) =
      Some (map (fun u => (pos (header_ s) T u, Z.of_nat u)) us) /\
    length us = i /\ forall j u, us !! j = Some u -> pred_at j r u.
Proof using I.
  intros Hgo. revert p. induction i as [|i IH]; intros p Hpr Hi Hp; cbn [descend].
  { exists []. split; [done|]. split; [done|]. intros j u Hu. by rewrite lookup_nil in Hu. }
  replace (S i - 1)%nat with i in Hp by lia.
  destruct (walk_spec go r i p (S (base.size (heap s))) Hgo Hpr ltac:(lia) Hp) as (u & -> & Hpu & Hpred).
  { rewrite heap_size. destruct Hgo. lia. }
  cbn. destruct Hpred as (Hur & Hreach & Hgap).
  destruct (IH u Hur ltac:(lia)) as (us & -> & Hl & Hus); [eapply reaches_down; [|done]; lia|].
  cbn. exists (us ++ [u]). rewrite map_app. split; [done|]. rewrite length_app. cbn. split; [lia|].
  intros j v Hj. apply lookup_app_Some in Hj as [Hj|[Hj1 Hj2]]; [by apply Hus|].
  rewrite Hl in *. destruct (j - i)%nat eqn:E; [|by rewrite lookup_nil in Hj2 || done].
  injection Hj2 as <-. by replace j with i by lia.
Qed.

(** From the header, over all levels. *)
Lemma search_spec go r : splits go r ->
  exists us, descend go (heap s) (level_ s) (header_ s) 0 =
      Some (map (fun u => (pos (header_ s) T u, Z.of_nat u)) us) /\
    length us = level_ s /\ (forall j u, us !! j = Some u -> pred_at j r u) /\ us !! 0%nat = Some r.
Proof using I.
  intros Hgo. destruct (descend_spec go r (level_ s) 0 Hgo) as (us & Hd & Hl & Hus); [lia|done|done|].
  exists us. split; [done|]. split; [done|]. split; [done|]. pose proof (inv_level _ _ I).
  destruct (lookup_lt_is_Some_2 us 0 ltac:(lia)) as [u Hu]. rewrite Hu. f_equal.
  apply (pred_at_bottom r u); [by destruct Hgo|by apply Hus].
Qed.

End positions.

(** ** Insertion keeps the invariant *)

(** The levels a taller node brings into use. *)
Lemma raise_inv s T n : inv s T -> (n <= kSkipListMaxLevel)%nat ->
  exists h, raise (header_ s) (length_ s) (level_ s) (n - level_ s) (heap s) = Some h /\
    inv (mk h (fresh s) (header_ s) (tail_ s) (length_ s) (Nat.max (level_ s) n)) T.
Proof.
  intros I Hn. destruct (raise_spec (header_ s) (length_ s) (n - level_ s) (level_ s) (heap s)) as (h & -> & [Hdom Hinfo] & Hc).
  { intros j Hj. apply (inv_upper _ _ I). lia. }
  exists h. split; [done|]. destruct I. split; cbn [heap fresh header_ tail_ length_ level_]; try done.
  - by setoid_rewrite Hinfo.
  - intros q x Hx. rewrite Hinfo. auto.
  - intros p i Hp Hi Hr. rewrite Hc. destruct (decide (i < level_ s)%nat) as [Hlt|Hge].
    + rewrite decide_False by lia. auto.
    + destruct p as [|q].
      * rewrite decide_True by (cbn; lia). destruct (link_spec i T) as [(d & x & Hd & Hh & _)|[Hl _]].
        { specialize (inv_heights0 d x Hd). lia. }
        rewrite drop_0, Hl. f_equal. f_equal. by destruct inv_length0.
      * destruct Hr as (x & Hx & Hh). specialize (inv_heights0 q x Hx). lia.
  - intros i Hi. rewrite Hc, decide_False by lia. apply inv_upper0. lia.
  - intros q x Hx. specialize (inv_heights0 q x Hx). lia.
  - by rewrite Hdom.
  - lia.
Qed.

Lemma pos_app_l hd A B p : (p <= length A)%nat -> pos hd (A ++ B) p = pos hd A p.
Proof. destruct p as [|q]; [done|]. cbn. intros Hq. by rewrite lookup_app_l by lia. Qed.

Lemma reaches_app_l i A B p : (p <= length A)%nat -> reaches i (A ++ B) p <-> reaches i A p.
Proof. destruct p as [|q]; [done|]. cbn. intros Hq. by rewrite lookup_app_l by lia. Qed.

Lemma lookup_insert_after {C} (A : list C) x B q : (length A <= q)%nat -> (A ++ x :: B) !! S q = (A ++ B) !! q.
Proof.
  intros Hq. rewrite !lookup_app_r by lia. by replace (S q - length A)%nat with (S (q - length A)) by lia.
Qed.

Lemma pos_insert_after hd A x B p : (length A < p)%nat -> pos hd (A ++ x :: B) (S p) = pos hd (A ++ B) p.
Proof. destruct p as [|q]; [lia|]. intros Hp. unfold pos. by rewrite lookup_insert_after by lia. Qed.

Lemma reaches_insert_after i A x B p : (length A < p)%nat -> reaches i (A ++ x :: B) (S p) <-> reaches i (A ++ B) p.
Proof. destruct p as [|q]; [lia|]. intros Hp. unfold reaches. by rewrite lookup_insert_after by lia. Qed.

Lemma drop_insert_after {C} (A : list C) x B p : (length A <= p)%nat -> drop (S p) (A ++ x :: B) = drop p (A ++ B).
Proof.
  intros Hp. rewrite !drop_app_ge by lia. by replace (S p - length A)%nat with (S (p - length A)) by lia.
Qed.

(** The part of the list between a predecessor and [r] is too short. *)
Lemma pred_at_short A B i u : pred_at (A ++ B) i (length A) u -> forall x, x ∈ drop u A -> (height x <= i)%nat.
Proof.
  intros (Hu & _ & Hgap) x [k Hk]%list_elem_of_lookup. rewrite lookup_drop in Hk.
  pose proof (lookup_lt_Some _ _ _ Hk). apply (Hgap (u + k)%nat); [lia|]. by rewrite lookup_app_l.
Qed.

Lemma pred_at_link A B i u : pred_at (A ++ B) i (length A) u ->
  link i (drop u (A ++ B)) = let '(f, n) := link i B in (f, n + (Z.of_nat (length A) - Z.of_nat u)).
Proof.
  intros Hp. pose proof (pred_at_short _ _ _ _ Hp) as Hs. destruct Hp as (Hu & _ & _).
  rewrite drop_app_le, link_app_short by done. destruct (link i B). f_equal. rewrite length_drop. lia.
Qed.

(** Forward pointers after an insertion between [A] and [B]. *)
Lemma insert_cells h h' hd A B X lv :
  (forall p i, (p <= length (A ++ B))%nat -> (i < lv)%nat -> reaches i (A ++ B) p ->
     cell h (pos hd (A ++ B) p) i = Some (link i (drop p (A ++ B)))) ->
  (forall p q, (p <= length (A ++ B))%nat -> (q <= length (A ++ B))%nat ->
     pos hd (A ++ B) p = pos hd (A ++ B) q -> p = q) ->
  (forall p, (p <= length (A ++ B))%nat -> pos hd (A ++ B) p <> addr X) ->
  (forall j, (j < lv)%nat -> exists u, pred_at (A ++ B) j (length A) u /\ forall y, cell h' y j =
     if decide (y = pos hd (A ++ B) u) then
       Some (if (j <? height X)%nat then (Some (addr X), Z.of_nat (length A) - Z.of_nat u + 1)
             else let '(f, n) := link j (drop u (A ++ B)) in (f, n + 1))
     else if decide (y = addr X) then (if (j <? height X)%nat then Some (link j B) else None)
     else cell h y j) ->
  forall p i, (p <= length (A ++ X :: B))%nat -> (i < lv)%nat -> reaches i (A ++ X :: B) p ->
    cell h' (pos hd (A ++ X :: B) p) i = Some (link i (drop p (A ++ X :: B))).
Proof.
  intros Hc Hinj Hx Hnew p i Hp Hi Hr. destruct (Hnew i Hi) as (u & Hpred & Hcell). clear Hnew.
  rewrite Hcell. clear Hcell. pose proof (pred_at_short _ _ _ _ Hpred) as Hshort. pose proof Hpred as (Hu & Hur & Hgap).
  rewrite length_app in *. cbn [length] in Hp.
  destruct (decide (p <= length A)%nat) as [Hle|Hgt].
  - rewrite (pos_app_l _ _ (X :: B)), <- (pos_app_l _ _ B) by done.
    assert (reaches i (A ++ B) p) as Hr' by (rewrite reaches_app_l in Hr |- *; done).
    pose proof (pred_at_unique _ _ _ _ _ Hpred Hr' Hle) as Hpu.
    destruct (decide (p = u)) as [->|Hne].
    + rewrite decide_True by done. rewrite !drop_app_le by lia. rewrite (link_app_short i (drop u A) (X :: B)) by done.
      cbn [link]. rewrite length_drop. destruct (i <? height X)%nat; [f_equal; f_equal; lia|].
      rewrite link_app_short by done. rewrite length_drop. destruct (link i B). f_equal. f_equal. lia.
    + rewrite decide_False by (intros E%Hinj; lia). rewrite decide_False by (apply Hx; lia).
      rewrite Hc by (done || lia). f_equal. rewrite !drop_app_le by lia. apply link_app_tall.
      destruct u as [|q]; [lia|]. destruct Hur as (x & Hx' & Hh). rewrite lookup_app_l in Hx' by lia.
      exists x. split; [|done]. apply list_elem_of_lookup. exists (q - p)%nat. rewrite lookup_drop.
      by replace (p + (q - p))%nat with q by lia.
  - destruct p as [|p]; [lia|]. destruct (decide (p = length A)) as [->|Hne].
    + assert (pos hd (A ++ X :: B) (S (length A)) = addr X) as -> by (cbn; by rewrite list_lookup_middle).
      destruct Hr as (x & Hx' & Hh). rewrite list_lookup_middle in Hx' by done. injection Hx' as <-.
      rewrite decide_False by (symmetry; apply not_eq_sym; intros E; by apply (Hx u); [lia|]).
      rewrite decide_True by done. rewrite (proj2 (Nat.ltb_lt _ _) Hh). f_equal. f_equal.
      by rewrite drop_insert_after, drop_app_length by lia.
    + rewrite pos_insert_after by lia. rewrite reaches_insert_after in Hr by lia.
      rewrite decide_False by (intros E%Hinj; lia). rewrite decide_False by (apply Hx; lia).
      rewrite Hc by (done || lia). f_equal. f_equal. by rewrite drop_insert_after by lia.
Qed.

Lemma at_index_take {C} n j (path : list C) : at_index 0 j (take n path) = if (j <? n)%nat then path !! j else None.
Proof.
  unfold at_index. cbn [Nat.leb]. rewrite Nat.sub_0_r. destruct (Nat.ltb_spec j n); [by rewrite lookup_take_lt|].
  by rewrite lookup_take_ge.
Qed.

Lemma at_index_drop {C} n j (path : list C) : at_index n j (drop n path) = if (j <? n)%nat then None else path !! j.
Proof.
  unfold at_index. destruct (Nat.leb_spec n j), (Nat.ltb_spec j n); try lia; [|done].
  rewrite lookup_drop. f_equal. lia.
Qed.

(** Positions along a path. *)
Abbreviation path_of hd T us := (map (fun u => (pos hd T u, Z.of_nat u)) us).

Lemma lookup_path hd T us j : path_of hd T us !! j = (fun u => (pos hd T u, Z.of_nat u)) <$> us !! j.
Proof. apply (list_lookup_fmap (fun u => (pos hd T u, Z.of_nat u))). Qed.

Section linking.
Context (s : t) (A B : list tower) (us : list nat) (sc : Z) (m : bytes) (ht : nat).
Let T := A ++ B.
Let X := mkTower (fresh s) m sc ht.
Let path := path_of (header_ s) T us.
Context (I : inv s T) (Hus : forall j u, us !! j = Some u -> pred_at T j (length A) u)
  (Hlen : length us = level_ s) (Hht : (1 <= ht <= level_ s)%nat) (Hroom : Z.of_nat (length T) + 1 < 2 ^ 64).

Lemma fresh_pos p : (p <= length T)%nat -> pos (header_ s) T p <> fresh s.
Proof.
  intros Hp E. assert (pos (header_ s) T p ∈ header_ s :: (addr <$> T)) as Hin.
  { destruct p as [|q]; [by left|]. destruct (lookup_lt_is_Some_2 T q ltac:(lia)) as [y Hy].
    rewrite (pos_lookup s T q y Hy). right. apply list_elem_of_fmap. exists y. split; [done|]. by eapply list_elem_of_lookup_2. }
  pose proof (inv_fresh _ _ I _ Hin). lia.
Qed.

Lemma fresh_free : heap s !! fresh s = None.
Proof.
  apply not_elem_of_dom. rewrite (inv_dom _ _ I), elem_of_union, elem_of_singleton, elem_of_list_to_set.
  intros [E|Hin].
  - pose proof (inv_fresh _ _ I (header_ s) ltac:(by left)). lia.
  - pose proof (inv_fresh _ _ I (fresh s) ltac:(by right)). lia.
Qed.

Lemma path_pred j : (j < level_ s)%nat -> exists u, us !! j = Some u /\ pred_at T j (length A) u /\ (u <= length T)%nat /\
  cell (heap s) (pos (header_ s) T u) j = Some (link j (drop u T)).
Proof.
  intros Hj. destruct (lookup_lt_is_Some_2 us j ltac:(lia)) as [u Hu]. exists u. split; [done|].
  pose proof (Hus j u Hu) as Hp. split; [done|]. destruct Hp as (Hle & Hr & _).
  assert (u <= length T)%nat by (unfold T; rewrite length_app; lia). split; [done|]. by apply (inv_cells _ _ I).
Qed.

(** The heap after [splice] and [widen]. *)
Lemma linked_heap (h1 := <[fresh s := mkNode m sc None (replicate ht (None, 0))]> (heap s)) :
  exists h2 h3, splice (fresh s) (Z.of_nat (length A)) 0 (take ht path) h1 = Some h2 /\
    widen ht (drop ht path) h2 = Some h3 /\ same_nodes h1 h3 /\
    (forall j, (j < level_ s)%nat -> exists u, pred_at T j (length A) u /\ forall y, cell h3 y j =
       if decide (y = pos (header_ s) T u) then
         Some (if (j <? ht)%nat then (Some (fresh s), Z.of_nat (length A) - Z.of_nat u + 1)
               else let '(f, n) := link j (drop u T) in (f, n + 1))
       else if decide (y = fresh s) then (if (j <? ht)%nat then Some (link j B) else None)
       else cell (heap s) y j) /\
    (forall y j, (level_ s <= j)%nat -> y <> fresh s -> cell h3 y j = cell (heap s) y j).
Proof.
  assert (forall y j, cell h1 y j = if decide (y = fresh s) then (if (j <? ht)%nat then Some (None, 0) else None) else cell (heap s) y j) as H1.
  { intros y j. unfold h1, cell. case_decide as Hy; [subst; rewrite lookup_insert_eq|by rewrite lookup_insert_ne].
    cbn [mbind option_bind levels]. destruct (Nat.ltb_spec j ht); [by apply lookup_replicate_2|]. apply lookup_replicate_None. lia. }
  destruct (splice_spec (fresh s) (Z.of_nat (length A)) (take ht path) 0 h1) as (h2 & Hsp & Hs2 & H2).
  { intros j u r. rewrite at_index_take. destruct (Nat.ltb_spec j ht) as [Hj|]; [|done]. unfold path. rewrite lookup_path.
    destruct (path_pred j ltac:(lia)) as (v & -> & _ & Hv & Hc). cbn. intros [= <- <-].
    split; [by apply fresh_pos|]. rewrite !H1, decide_False, decide_True by (done || by apply fresh_pos).
    rewrite Hc, (proj2 (Nat.ltb_lt _ _) Hj). done. }
  assert (forall j u, (j < level_ s)%nat -> us !! j = Some u -> forall y, cell h2 y j =
    if (j <? ht)%nat then
      if decide (y = pos (header_ s) T u) then Some (Some (fresh s), Z.of_nat (length A) - Z.of_nat u + 1)
      else if decide (y = fresh s) then Some (link j B) else cell (heap s) y j
    else if decide (y = fresh s) then None else cell (heap s) y j) as H2'.
  { intros j u Hj Hu y. rewrite H2, at_index_take. destruct (path_pred j Hj) as (v & Hv & Hp & Hvl & Hc).
    rewrite Hu in Hv. injection Hv as <-. destruct (Nat.ltb_spec j ht) as [Hjh|Hjh].
    2: { rewrite H1. by destruct (Nat.ltb_spec j ht); [lia|]. }
    unfold path. rewrite lookup_path, Hu. cbn [fmap option_fmap option_map].
    pose proof Hp as (Hle & _ & _). pose proof (inv_length _ _ I) as [_ Hl]. unfold T in Hl, Hroom. rewrite length_app in Hl, Hroom.
    assert (forall z, 0 <= z < 2 ^ 64 -> u64 z = z) as Hsmall by (intros; by apply uwrap_small).
    case_decide; [f_equal; f_equal; rewrite (Hsmall (Z.of_nat _ - _)) by lia; rewrite Hsmall; lia|]. rewrite !H1. rewrite (decide_False (P := pos (header_ s) T u = fresh s)) by (by apply fresh_pos).
    case_decide; [|done]. rewrite Hc. unfold T. rewrite (pred_at_link _ _ _ _ Hp). pose proof (link_spec j B) as HB.
    destruct (link j B) as [f n]. cbn. f_equal. f_equal. rewrite (Hsmall (Z.of_nat _ - _)) by lia. rewrite Hsmall; [lia|].
    destruct HB as [(d & x & Hd & _ & E & _)|[E _]]; injection E as -> ->; [apply lookup_lt_Some in Hd|]; lia. }
  destruct (widen_spec (drop ht path) ht h2) as (h3 & Hw & Hs3 & H3).
  { intros j u r. rewrite at_index_drop. destruct (Nat.ltb_spec j ht) as [|Hjh]; [done|]. unfold path. rewrite lookup_path.
    destruct (us !! j) as [v|] eqn:Hv; [|done]. cbn. intros [= <- <-].
    assert (j < level_ s)%nat as Hj by (rewrite <- Hlen; by eapply lookup_lt_Some).
    destruct (path_pred j Hj) as (v' & Hv' & Hp & Hvl & Hc). rewrite Hv in Hv'. injection Hv' as <-.
    rewrite (H2' j v Hj Hv). destruct (Nat.ltb_spec j ht); [lia|]. rewrite decide_False by (by apply fresh_pos). by rewrite Hc. }
  exists h2, h3. split; [done|]. split; [done|]. split; [by eapply same_nodes_trans|]. split.
  - intros j Hj. destruct (path_pred j Hj) as (u & Hu & Hp & Hul & Hc). exists u. split; [done|]. intros y.
    rewrite H3, at_index_drop. specialize (H2' j u Hj Hu). destruct (Nat.ltb_spec j ht) as [Hjh|Hjh].
    + rewrite H2'. done.
    + unfold path. rewrite lookup_path, Hu. cbn [fmap option_fmap option_map]. rewrite !H2'.
      rewrite (decide_False (P := pos (header_ s) T u = fresh s)) by (by apply fresh_pos). rewrite Hc.
      case_decide; [|done]. cbn. pose proof (inv_length _ _ I) as [_ Hl].
      pose proof (link_spec j (drop u T)) as HB. destruct (link j (drop u T)) as [f n]. f_equal. f_equal. apply uwrap_small.
      unfold u_range. destruct HB as [(d & x & Hd & _ & E & _)|[E _]]; injection E as -> ->;
        [apply lookup_lt_Some in Hd|]; rewrite length_drop in *; lia.
  - intros y j Hj Hy. rewrite H3, at_index_drop.
    assert (path !! j = None) as Hn by (unfold path; rewrite lookup_path, lookup_ge_None_2 by lia; done).
    destruct (Nat.ltb_spec j ht); [lia|]. rewrite Hn, H2, at_index_take. destruct (Nat.ltb_spec j ht); [lia|].
    rewrite H1. by rewrite decide_False.
Qed.

Lemma prev_insert q : prev (A ++ X :: B) q =
  if decide (q <= length A)%nat then prev T q else if decide (q = S (length A)) then Some (fresh s) else prev T (q - 1).
Proof.
  destruct q as [|q]; [by rewrite decide_True by lia|]. cbn [prev]. repeat case_decide.
  - unfold T. by rewrite !lookup_app_l by lia.
  - replace q with (length A) by lia. by rewrite list_lookup_middle.
  - destruct q as [|q]; [lia|]. cbn [Nat.sub prev]. by rewrite lookup_insert_after by lia.
Qed.

Lemma first_of_rest : link 0 B = match B with [] => (None, 0) | b :: _ => (Some (addr b), 1) end.
Proof.
  destruct B as [|b B'] eqn:E; [done|]. apply link_here. pose proof (inv_heights _ _ I (length A) b) as H.
  unfold T in H. rewrite list_lookup_middle in H by done. specialize (H eq_refl). lia.
Qed.

Context (Hbefore : forall a, a ∈ A -> before a X) (Hafter : forall b, b ∈ B -> before X b) (Hok : Double.ok sc).

Lemma sorted_insert : StronglySorted before (A ++ X :: B).
Proof.
  pose proof (inv_sorted _ _ I) as Hs. unfold T in Hs. clear -Hs Hbefore Hafter.
  induction A as [|a A' IH]; cbn [app] in *.
  - constructor; [done|]. by apply Forall_forall.
  - apply StronglySorted_inv in Hs as [Hs Ha]. constructor; [apply IH; [intros; apply Hbefore; by right|done]|].
    rewrite Forall_app, Forall_cons in *. destruct Ha. split; [done|]. split; [|done]. apply Hbefore. by left.
Qed.

Lemma addrs_insert : NoDup (header_ s :: (addr <$> A ++ X :: B)).
Proof.
  assert (header_ s :: (addr <$> A ++ X :: B) ≡ₚ fresh s :: header_ s :: (addr <$> T)) as ->.
  { unfold T. rewrite !fmap_app, fmap_cons. cbn [addr X]. rewrite Permutation_swap. apply Permutation_skip.
    symmetry. apply Permutation_middle. }
  constructor; [|apply (inv_addrs _ _ I)]. intros Hin. pose proof (inv_fresh _ _ I _ Hin). lia.
Qed.

Lemma last_insert : last (A ++ X :: B) = match B with [] => Some X | _ => last T end.
Proof. unfold T. rewrite !last_app, last_cons. destruct B as [|b B']; [done|]. rewrite last_cons. by destruct (last B'). Qed.

(** The invariant after the second half of [insert], from a heap that differs
    by the new node, its links and two backward pointers. *)
Lemma linked_inv h h3 tl :
  (forall j, (j < level_ s)%nat -> exists u, pred_at T j (length A) u /\ forall y, cell h3 y j =
       if decide (y = pos (header_ s) T u) then
         Some (if (j <? ht)%nat then (Some (fresh s), Z.of_nat (length A) - Z.of_nat u + 1)
               else let '(f, n) := link j (drop u T) in (f, n + 1))
       else if decide (y = fresh s) then (if (j <? ht)%nat then Some (link j B) else None)
       else cell (heap s) y j) ->
  (forall y j, (level_ s <= j)%nat -> y <> fresh s -> cell h3 y j = cell (heap s) y j) ->
  (forall y j, cell h y j = cell h3 y j) -> dom h = {[fresh s]} ∪ dom (heap s) ->
  (forall q x, (A ++ X :: B) !! q = Some x -> info h (addr x) = Some (tm x, ts x, prev (A ++ X :: B) q, height x)) ->
  (exists m sc b, info h (header_ s) = Some (m, sc, b, kSkipListMaxLevel)) -> tl = addr <$> last (A ++ X :: B) ->
  inv (mk h (S (fresh s)) (header_ s) tl (u64 (length_ s + 1)) (level_ s)) (A ++ X :: B).
Proof.
  intros Hlow Hup Hcell Hdom Hinfo Hhd ->. split; cbn [heap fresh header_ tail_ length_ level_]; try done.
  - intros p i Hp Hi Hr. rewrite Hcell. apply (insert_cells (heap s) h3 (header_ s) A B X (level_ s)); try done.
    + apply (inv_cells _ _ I).
    + apply (pos_inj s T I).
    + apply fresh_pos.
  - intros i Hi. rewrite Hcell, Hup by (lia || (intros E; pose proof (inv_fresh _ _ I (header_ s) ltac:(by left)); lia)).
    apply (inv_upper _ _ I). lia.
  - intros q x Hx. apply list_elem_of_lookup_2 in Hx. rewrite elem_of_app, elem_of_cons in Hx.
    assert (x ∈ T -> (1 <= height x <= level_ s)%nat) as Hold.
    { intros [k Hk]%list_elem_of_lookup. by apply (inv_heights _ _ I k). }
    destruct Hx as [Hx|[->|Hx]]; [apply Hold; unfold T; set_solver|done|apply Hold; unfold T; set_solver].
  - apply addrs_insert.
  - rewrite Hdom, (inv_dom _ _ I). unfold T. rewrite !fmap_app, fmap_cons, !list_to_set_app_L. cbn. set_solver.
  - intros y Hy. rewrite fmap_app, fmap_cons in Hy. cbn [addr X] in Hy.
    assert (y = fresh s \/ y ∈ header_ s :: (addr <$> T)) as [->|Hin] by (unfold T; rewrite fmap_app; set_solver); [lia|].
    pose proof (inv_fresh _ _ I _ Hin). lia.
  - pose proof (inv_length _ _ I) as [-> Hl]. unfold T in *. rewrite !length_app in *. cbn [length].
    rewrite uwrap_small by (unfold u_range; lia). lia.
  - apply (inv_level _ _ I).
  - apply sorted_insert.
  - pose proof (inv_scores _ _ I) as Hs. unfold T in Hs. rewrite Forall_app in Hs. rewrite Forall_app, Forall_cons. naive_solver.
Qed.

Lemma link_in_inv : exists s', link_in s ht path sc m = Some s' /\ inv s' (A ++ X :: B).
Proof.
  unfold link_in. destruct linked_heap as (h2 & h3 & Hsp & Hw & [Hd3 Hi3] & Hlow & Hup).
  pose proof (inv_level _ _ I) as Hlv. destruct (path_pred 0 ltac:(lia)) as (u & Hu & Hp & _ & _).
  assert (u = length A) as -> by (apply (pred_at_bottom s T I); [unfold T; rewrite length_app; lia|done]).
  unfold path in *. rewrite lookup_path, Hu. cbn [fmap option_fmap option_map mbind option_bind].
  rewrite Hsp. cbn [mbind option_bind]. rewrite Hw. cbn [mbind option_bind]. rewrite !cell_set_backward.
  set (b0 := if (pos (header_ s) T (length A) =? header_ s)%nat then None else Some (pos (header_ s) T (length A))).
  assert (b0 = prev T (length A)) as Hb0.
  { unfold b0. destruct (length A) as [|k] eqn:Ek; [cbn; by rewrite Nat.eqb_refl|].
    destruct (lookup_lt_is_Some_2 T k) as [y Hy]; [unfold T; rewrite length_app; lia|].
    rewrite (pos_lookup s T k y Hy). cbn [prev]. rewrite Hy. destruct (Nat.eqb_spec (addr y) (header_ s)) as [E|]; [|done].
    pose proof (inv_addrs _ _ I) as Hnd. apply NoDup_cons in Hnd as [Hnd _]. destruct Hnd. rewrite <- E.
    apply list_elem_of_fmap. exists y. split; [done|]. by eapply list_elem_of_lookup_2. }
  assert (cell h3 (fresh s) 0 = Some (link 0 B)) as Hc0.
  { destruct (Hlow 0%nat ltac:(lia)) as (u' & Hp' & ->). rewrite decide_False.
    - rewrite decide_True by done. by destruct (Nat.ltb_spec 0 ht); [|lia].
    - intros E. symmetry in E. apply fresh_pos in E; [done|]. destruct Hp' as [? _]. unfold T. rewrite length_app. lia. }
  rewrite Hc0, first_of_rest. set (h4 := set_backward (fresh s) b0 h3).
  assert (dom h4 = {[fresh s]} ∪ dom (heap s)) as Hd4.
  { unfold h4. rewrite dom_set_backward, Hd3. apply dom_insert_L. }
  assert (forall y, info h4 y = if decide (y = fresh s) then Some (m, sc, b0, ht) else info (heap s) y) as Hi4.
  { intros y. unfold h4. rewrite info_set_backward, !Hi3. unfold info. case_decide as Hy; [subst; rewrite lookup_insert_eq|by rewrite lookup_insert_ne].
    cbn. by rewrite length_replicate. }
  assert (exists m sc b, info h4 (header_ s) = Some (m, sc, b, kSkipListMaxLevel)) as Hhd4.
  { rewrite Hi4, decide_False; [apply (inv_header _ _ I)|]. intros E. pose proof (inv_fresh _ _ I (header_ s) ltac:(by left)). lia. }
  assert (forall q x, (A ++ X :: B) !! q = Some x -> q <> S (length A) ->
    info h4 (addr x) = Some (tm x, ts x, prev (A ++ X :: B) q, height x)) as Hinfo.
  { intros q x Hx Hne. rewrite Hi4, prev_insert. destruct (decide (q = length A)) as [->|Hqa].
    - rewrite list_lookup_middle in Hx by done. injection Hx as <-. rewrite decide_True by done. rewrite decide_True by lia. by rewrite Hb0.
    - assert (T !! (if decide (q <= length A)%nat then q else (q - 1)%nat) = Some x) as HT.
      { case_decide; [unfold T; by rewrite lookup_app_l in Hx |- * by lia|]. destruct q as [|q]; [lia|].
        rewrite lookup_insert_after in Hx by lia. by replace (S q - 1)%nat with q by lia. }
      rewrite decide_False.
      + rewrite (inv_info _ _ I _ _ HT). repeat case_decide; done || lia.
      + intros E. pose proof (inv_fresh _ _ I (addr x)) as Hf. rewrite E in Hf. enough (fresh s < fresh s)%nat by lia. apply Hf.
        right. apply list_elem_of_fmap. exists x. split; [done|]. by eapply list_elem_of_lookup_2. }
  assert (B = [] \/ exists b B', B = b :: B') as [EB|(b & B' & EB)] by (destruct B; eauto).
  - assert (match B with [] => (None, 0) | b :: _ => (Some (addr b), 1) end = (None, 0)) as -> by (by rewrite EB).
    eexists. split; [done|]. apply (linked_inv h4 h3); try done.
    + intros. by unfold h4; rewrite cell_set_backward.
    + intros q x Hx. apply Hinfo; [done|]. apply lookup_lt_Some in Hx. rewrite length_app, EB in Hx. cbn in Hx. lia.
    + by rewrite last_insert, EB.
  - assert (T !! length A = Some b) as Hb by (unfold T; rewrite EB; by rewrite list_lookup_middle).
    assert (addr b <> fresh s) as Hbf.
    { intros E. apply (fresh_pos (S (length A))); [unfold T; rewrite length_app, EB; cbn; lia|]. by rewrite (pos_lookup s T _ b). }
    assert (match B with [] => (None, 0) | b :: _ => (Some (addr b), 1) end = (Some (addr b), 1)) as -> by (by rewrite EB).
    eexists. split; [done|]. apply (linked_inv (set_backward (addr b) (Some (fresh s)) h4) h3); try done.
    + intros. unfold h4. by rewrite !cell_set_backward.
    + by rewrite dom_set_backward.
    + intros q x Hx. rewrite info_set_backward. destruct (decide (q = S (length A))) as [->|Hne].
      * rewrite lookup_insert_after in Hx by lia. fold T in Hx. rewrite Hb in Hx. injection Hx as <-.
        rewrite decide_True by done. rewrite Hi4, decide_False by done. rewrite (inv_info _ _ I _ _ Hb). cbn [fmap option_fmap option_map].
        rewrite prev_insert, decide_False by lia. by rewrite decide_True by done.
      * rewrite decide_False; [by apply Hinfo|]. intros E. apply Hne.
        assert (forall k y, (A ++ X :: B) !! k = Some y -> (addr <$> A ++ X :: B) !! k = Some (addr y)) as Hf.
        { intros k y Hy. by rewrite list_lookup_fmap, Hy. }
        pose proof addrs_insert as Hnd. apply NoDup_cons in Hnd as [_ Hnd].
        eapply NoDup_lookup; [exact Hnd|by apply Hf|]. rewrite E. apply Hf. by rewrite lookup_insert_after by lia.
    + destruct Hhd4 as (m0 & sc0 & bk & Hh). rewrite info_set_backward, Hh. case_decide; eauto.
    + rewrite last_insert, EB. rewrite (inv_tail _ _ I). unfold T. by rewrite EB.
Qed.

End linking.

Lemma randomLevel_bounds bits : (1 <= randomLevel bits <= kSkipListMaxLevel)%nat.
Proof.
  unfold randomLevel. assert (forall n k lv, (1 <= lv <= kSkipListMaxLevel)%nat ->
    (1 <= level_loop n bits k lv <= kSkipListMaxLevel)%nat) as H.
  { induction n as [|n IH]; intros k lv Hlv; [done|]. cbn [level_loop].
    destruct (Z.land (bits k) 0xFFFF <? kSkipListThreshold); [|done]. cbn [andb].
    destruct (Nat.ltb_spec lv kSkipListMaxLevel); [|done]. apply IH. lia. }
  apply H. unfold kSkipListMaxLevel. lia.
Qed.

Lemma towers_sorted_lookup (T : list tower) p q x y : StronglySorted before T ->
  T !! p = Some x -> T !! q = Some y -> (p < q)%nat -> before x y.
Proof.
  intros Hs Hx Hy Hpq. rewrite <- (take_drop q T) in Hs.
  eapply StronglySorted_app_1_elem_of; [exact Hs| |].
  - apply list_elem_of_lookup. exists p. by rewrite lookup_take_lt.
  - apply list_elem_of_lookup. exists 0%nat. by rewrite lookup_drop, Nat.add_0_r.
Qed.

(** A downward-closed test splits the list. *)
Lemma sorted_split (P : tower -> bool) (T : list tower) : StronglySorted before T ->
  (forall a b, a ∈ T -> b ∈ T -> before a b -> P b = true -> P a = true) ->
  exists A B, T = A ++ B /\ (forall a, a ∈ A -> P a = true) /\ (forall b, b ∈ B -> P b = false).
Proof.
  intros Hs HP. induction Hs as [|x T Hs IH Hx]; [by exists [], []; split_and!; [| |]; set_solver|].
  destruct (P x) eqn:Px.
  - destruct IH as (A & B & -> & HA & HB); [intros a b Ha Hb; apply HP; by right|].
    exists (x :: A), B. split; [done|]. split; [|done]. intros a [->|Ha]%elem_of_cons; auto.
  - exists [], (x :: T). split; [done|]. split; [set_solver|]. intros b [->|Hb]%elem_of_cons; [done|].
    destruct (P b) eqn:Pb; [|done]. rewrite Forall_forall in Hx. rewrite (HP x b) in Px; [done|by left|by right|by apply Hx|done].
Qed.

Lemma splits_of (T A B : list tower) (go : node -> bool) (P : tower -> bool) : T = A ++ B ->
  (forall x n, x ∈ T -> member n = tm x -> score n = ts x -> go n = P x) ->
  (forall a, a ∈ A -> P a = true) -> (forall b, b ∈ B -> P b = false) -> splits T go (length A).
Proof.
  intros -> Hgo HA HB. split; [rewrite length_app; lia|]. intros q x n Hx Hm Hsc.
  rewrite (Hgo x n) by (done || by eapply list_elem_of_lookup_2).
  destruct (Nat.ltb_spec q (length A)) as [Hq|Hq].
  - rewrite lookup_app_l in Hx by done. apply HA. by eapply list_elem_of_lookup_2.
  - rewrite lookup_app_r in Hx by done. apply HB. by eapply list_elem_of_lookup_2.
Qed.

Lemma inv_ok s T x : inv s T -> x ∈ T -> Double.ok (ts x).
Proof. intros I Hx. pose proof (inv_scores _ _ I) as Hs. rewrite Forall_forall in Hs. by apply Hs. Qed.

(** The place of a score and member. *)
Lemma split_before s T sc m : inv s T -> Double.ok sc -> exists A B, T = A ++ B /\
  splits T (fun n => isBefore (score n) (member n) sc m) (length A) /\
  (forall a, a ∈ A -> isBefore (ts a) (tm a) sc m = true) /\ (forall b, b ∈ B -> isBefore (ts b) (tm b) sc m = false).
Proof.
  intros I Hok. destruct (sorted_split (fun x => isBefore (ts x) (tm x) sc m) T (inv_sorted _ _ I)) as (A & B & -> & HA & HB).
  { intros a b Ha Hb Hab Hb'. eapply isBefore_trans; [..|exact Hab|exact Hb']; eauto using inv_ok. }
  exists A, B. split; [done|]. split; [|done]. apply (splits_of _ A B _ (fun x => isBefore (ts x) (tm x) sc m)); try done.
  by intros x n _ -> ->.
Qed.

(** [insert] puts the member in its place. *)
Lemma insert_spec s T bits sc m : inv s T -> Double.ok sc -> Z.of_nat (length T) + 1 < 2 ^ 64 ->
  (forall x, x ∈ T -> tm x = m -> Double.key (ts x) <> Double.key sc) ->
  exists s' A B X, insert s bits sc m = Some s' /\ T = A ++ B /\ tm X = m /\ ts X = sc /\ inv s' (A ++ X :: B).
Proof.
  intros I Hok Hroom Hnew. destruct (split_before s T sc m I Hok) as (A & B & HT & Hsp & HA & HB).
  unfold insert. destruct (search_spec s T I _ _ Hsp) as (us & -> & Hlen & Hus & Hus0). cbn [mbind option_bind].
  pose proof (randomLevel_bounds bits) as Hlv. set (lv := randomLevel bits) in *.
  destruct (raise_inv s T lv I) as (h & -> & I'); [lia|]. cbn [mbind option_bind].
  set (s1 := mk h (fresh s) (header_ s) (tail_ s) (length_ s) (Nat.max (level_ s) lv)) in *.
  set (us1 := us ++ replicate (lv - level_ s) 0%nat).
  assert (path_of (header_ s) T us ++ replicate (lv - level_ s) (header_ s, 0) = path_of (header_ s1) (A ++ B) us1) as ->.
  { unfold us1. rewrite map_app, HT. f_equal. clear. induction (lv - level_ s)%nat; [done|]. cbn. by f_equal. }
  pose proof (inv_ok s T) as Hoks. subst T.
  destruct (link_in_inv s1 A B us1 sc m lv) as (s' & -> & I''); try done.
  - intros j u Hu. apply lookup_app_Some in Hu as [Hu|[Hj Hu]]; [by apply Hus|].
    apply lookup_replicate in Hu as [-> _]. split; [lia|]. split; [done|]. intros q x Hq Hx.
    pose proof (inv_heights _ _ I q x Hx). lia.
  - unfold us1. rewrite length_app, length_replicate. unfold s1. cbn [level_]. lia.
  - unfold s1. cbn [level_]. lia.
  - intros b Hb. unfold before. cbn [ts tm].
    destruct (isBefore_total (ts b) (tm b) sc m) as [H|[H|[E1 E2]]]; [apply Hoks; [done|set_solver]|done| |done|].
    + by rewrite HB in H.
    + exfalso. apply (Hnew b); [set_solver|done|done].
  - exists s', A, B, (mkTower (fresh s1) m sc lv). done.
Qed.

(** ** Removal keeps the invariant *)

(** Forward pointers after [X] is taken out. *)
Lemma remove_cells h h' hd A B X lv :
  (forall p i, (p <= length (A ++ X :: B))%nat -> (i < lv)%nat -> reaches i (A ++ X :: B) p ->
     cell h (pos hd (A ++ X :: B) p) i = Some (link i (drop p (A ++ X :: B)))) ->
  (forall p q, (p <= length (A ++ X :: B))%nat -> (q <= length (A ++ X :: B))%nat ->
     pos hd (A ++ X :: B) p = pos hd (A ++ X :: B) q -> p = q) ->
  (forall j, (j < lv)%nat -> exists u, pred_at (A ++ X :: B) j (length A) u /\ forall y, y <> addr X -> cell h' y j =
     if decide (y = pos hd (A ++ X :: B) u) then Some (link j (drop u (A ++ B))) else cell h y j) ->
  forall p i, (p <= length (A ++ B))%nat -> (i < lv)%nat -> reaches i (A ++ B) p ->
    cell h' (pos hd (A ++ B) p) i = Some (link i (drop p (A ++ B))).
Proof.
  intros Hc Hinj Hnew p i Hp Hi Hr. destruct (Hnew i Hi) as (u & Hpred & Hcell). clear Hnew.
  pose proof Hpred as (Hu & Hur & Hgap). rewrite !length_app in *. cbn [length] in *.
  assert (pos hd (A ++ X :: B) (S (length A)) = addr X) as HX by (cbn; by rewrite list_lookup_middle).
  destruct (decide (p <= length A)%nat) as [Hle|Hgt].
  - rewrite (pos_app_l _ _ B), <- (pos_app_l _ _ (X :: B)) by done.
    rewrite Hcell by (rewrite <- HX; intros E%Hinj; lia).
    assert (reaches i (A ++ X :: B) p) as Hr' by (rewrite reaches_app_l in Hr |- *; done).
    pose proof (pred_at_unique _ _ _ _ _ Hpred Hr' Hle) as Hpu.
    destruct (decide (p = u)) as [->|Hne]; [by rewrite decide_True|].
    rewrite decide_False by (intros E%Hinj; lia).
    rewrite Hc by (done || lia). f_equal. rewrite !drop_app_le by lia. apply link_app_tall.
    destruct u as [|q]; [lia|]. destruct Hur as (x & Hx' & Hh). rewrite lookup_app_l in Hx' by lia.
    exists x. split; [|done]. apply list_elem_of_lookup. exists (q - p)%nat. rewrite lookup_drop.
    by replace (p + (q - p))%nat with q by lia.
  - rewrite <- (pos_insert_after hd A X) by lia. rewrite <- (reaches_insert_after i A X) in Hr by lia.
    rewrite Hcell by (rewrite <- HX; intros E%Hinj; lia). rewrite decide_False by (intros E%Hinj; lia).
    rewrite Hc by (done || lia). by rewrite drop_insert_after by lia.
Qed.

(** The highest level may go when nothing reaches it. *)
Lemma lower_inv h fr hd tl len lv T : inv (mk h fr hd tl len (S lv)) T -> (1 <= lv)%nat ->
  (exists sp, cell h hd lv = Some (None, sp)) -> inv (mk h fr hd tl len lv) T.
Proof.
  intros I Hlv [sp Hsp]. pose proof (inv_cells _ _ I 0 lv ltac:(lia) ltac:(cbn; lia) ltac:(done)) as Hc.
  cbn [heap header_ pos] in Hc. rewrite Hsp, drop_0 in Hc. injection Hc as Hc.
  assert (forall q x, T !! q = Some x -> (height x <= lv)%nat) as Hh.
  { destruct (link_spec lv T) as [(d & x & _ & _ & E & _)|[_ H]]; [by rewrite E in Hc|done]. }
  destruct I. split; cbn [heap fresh header_ tail_ length_ level_] in *; try done.
  - intros p i Hp Hi. apply inv_cells0; [done|lia].
  - intros i Hi. destruct (decide (i = lv)) as [->|Hne]; [eauto|]. apply inv_upper0. lia.
  - intros q x Hx. split; [by apply (inv_heights0 q x)|by apply (Hh q)].
  - lia.
Qed.

Lemma drop_levels_S h hd l : drop_levels h hd (S (S l)) =
  '(f, _) ← cell h hd (S l); match f with None => drop_levels h hd (S l) | Some _ => Some (S (S l)) end.
Proof. done. Qed.

Lemma drop_levels_inv h fr hd tl len lv T : inv (mk h fr hd tl len lv) T ->
  exists lv', drop_levels h hd lv = Some lv' /\ inv (mk h fr hd tl len lv') T.
Proof.
  induction lv as [|lv IH]; intros I; [pose proof (inv_level _ _ I) as H; cbn in H; lia|].
  destruct lv as [|l]; [by exists 1%nat|]. cbn [drop_levels].
  pose proof (inv_cells _ _ I 0 (S l) ltac:(lia) ltac:(cbn; lia) ltac:(done)) as Hc. cbn [heap header_ pos] in Hc.
  rewrite Hc. cbn [mbind option_bind]. destruct (link (S l) (drop 0 T)) as [[y|] sp].
  - by exists (S (S l)).
  - apply IH. apply lower_inv; [done|lia|eauto].
Qed.

Section unlinking.
Context (s : t) (A B : list tower) (X : tower) (us : list nat).
Let T := A ++ X :: B.
Let path := path_of (header_ s) T us.
Context (I : inv s T) (Hus : forall j u, us !! j = Some u -> pred_at T j (length A) u) (Hlen : length us = level_ s).

Lemma lookup_X : T !! length A = Some X.
Proof. unfold T. by rewrite list_lookup_middle. Qed.

Lemma pos_X : pos (header_ s) T (S (length A)) = addr X.
Proof. apply (pos_lookup s). apply lookup_X. Qed.

Lemma pos_not_X p : (p <= length T)%nat -> p <> S (length A) -> pos (header_ s) T p <> addr X.
Proof.
  intros Hp Hne E. rewrite <- pos_X in E. apply (pos_inj s T I) in E; [done|done|]. unfold T. rewrite length_app. cbn. lia.
Qed.

Lemma cell_X j : (j < height X)%nat -> cell (heap s) (addr X) j = Some (link j B).
Proof.
  intros Hj. pose proof (inv_heights _ _ I _ _ lookup_X) as Hh. rewrite <- pos_X, (inv_cells _ _ I); [|unfold T; rewrite length_app; cbn; lia|lia|].
  - unfold T. by rewrite drop_insert_after, drop_app_length.
  - exists X. split; [apply lookup_X|done].
Qed.

(** At a level that [X] reaches, its predecessor points at it, and only
    there. *)
Lemma pred_link j u : pred_at T j (length A) u ->
  link j (drop u T) = if (j <? height X)%nat then (Some (addr X), Z.of_nat (length A) - Z.of_nat u + 1)
                      else let '(f, n) := link j B in (f, n + 1 + (Z.of_nat (length A) - Z.of_nat u)).
Proof.
  intros Hp. unfold T in *. rewrite (pred_at_link A (X :: B)) by done. cbn [link].
  destruct (j <? height X)%nat; [f_equal; lia|]. destruct (link j B). done.
Qed.

Lemma link_not_X j f n : link j B = (f, n) -> f <> Some (addr X).
Proof.
  intros E ->. destruct (link_spec j B) as [(d & x & Hd & _ & E' & _)|[E' _]]; rewrite E in E'; [|done].
  injection E' as E' _. assert (T !! S (length A + d) = Some x) as Hx.
  { unfold T. rewrite lookup_insert_after, lookup_app_r by lia. by replace (length A + d - length A)%nat with d by lia. }
  apply (pos_not_X (S (S (length A + d)))); [|lia|by rewrite (pos_lookup s T _ x)].
  apply lookup_lt_Some in Hx. lia.
Qed.

Lemma unlinked_heap : exists h, unlink (addr X) 0 path (heap s) = Some h /\ same_nodes (heap s) h /\
  (forall j, (j < level_ s)%nat -> exists u, pred_at T j (length A) u /\ forall y, y <> addr X -> cell h y j =
     if decide (y = pos (header_ s) T u) then Some (link j (drop u (A ++ B))) else cell (heap s) y j) /\
  (forall y j, (level_ s <= j)%nat -> cell h y j = cell (heap s) y j) /\
  (forall j, cell h (addr X) j = cell (heap s) (addr X) j).
Proof.
  pose proof (inv_length _ _ I) as [_ Hroom]. unfold T in Hroom. rewrite length_app in Hroom. cbn [length] in Hroom.
  assert (forall j u, us !! j = Some u -> (u <= length A)%nat /\ (j < level_ s)%nat /\ pos (header_ s) T u <> addr X /\
    cell (heap s) (pos (header_ s) T u) j = Some (link j (drop u T))) as Hpath.
  { intros j u Hu. pose proof (Hus j u Hu) as (Hle & Hr & _). pose proof (lookup_lt_Some _ _ _ Hu) as Hj.
    assert (u <= length T)%nat by (unfold T; rewrite length_app; lia).
    split; [done|]. split; [lia|]. split; [apply pos_not_X; [done|lia]|]. apply (inv_cells _ _ I); [done|lia|done]. }
  destruct (unlink_spec (addr X) path 0 (heap s)) as (h & -> & Hs & Hcell).
  { intros j u r. unfold at_index, path. cbn [Nat.leb]. rewrite Nat.sub_0_r, lookup_path.
    destruct (us !! j) as [v|] eqn:Hv; [|done]. cbn. intros [= <- <-].
    destruct (Hpath j v Hv) as (Hle & Hj & Hne & ->). split; [done|]. split; [done|].
    intros sp [= E]. rewrite (pred_link j v) in E by auto. destruct (Nat.ltb_spec j (height X)) as [Hjx|Hjx].
    - rewrite cell_X by done. done.
    - destruct (link j B) as [f n] eqn:EB. injection E as -> _. by apply link_not_X in EB. }
  assert (forall y j, cell h y j = match us !! j with
    | Some u => if decide (y = pos (header_ s) T u) then Some (link j (drop u (A ++ B))) else cell (heap s) y j
    | None => cell (heap s) y j end) as Hc.
  { intros y j. rewrite Hcell. unfold at_index, path. cbn [Nat.leb]. rewrite Nat.sub_0_r, lookup_path.
    destruct (us !! j) as [u|] eqn:Hu; [|done]. cbn [fmap option_fmap option_map]. case_decide as Hy; [|done].
    destruct (Hpath j u Hu) as (Hle & Hj & Hne & ->). cbn [mbind option_bind].
    assert (pred_at (A ++ B) j (length A) u) as Hp'.
    { pose proof (Hus j u Hu) as (H1 & H2 & H3). split; [done|]. split.
      - unfold T in H2. rewrite reaches_app_l in H2 |- * by done. done.
      - intros q x Hq Hx. apply (H3 q); [done|]. unfold T. rewrite lookup_app_l in Hx |- * by lia. done. }
    rewrite (pred_link j u) by auto. rewrite (pred_at_link A B j u Hp').
    assert (forall z, 0 <= z < 2 ^ 64 -> u64 z = z) as Hsmall by (intros; by apply uwrap_small).
    pose proof (link_spec j B) as HB. pose proof (link_not_X j) as HnX.
    destruct (Nat.ltb_spec j (height X)) as [Hjx|Hjx].
    - rewrite decide_True by done. rewrite cell_X by done. destruct (link j B) as [f n]. cbn. f_equal. f_equal.
      assert (0 <= n <= Z.of_nat (length B)) as Hn.
      { destruct HB as [(d & x & Hd & _ & E & _)|[E _]]; injection E as -> ->; [apply lookup_lt_Some in Hd|]; lia. }
      destruct (decide (n = 0)) as [->|Hn0].
      + change (u64 (0 - 1)) with (2 ^ 64 - 1). unfold uwrap.
        replace (Z.of_nat (length A) - Z.of_nat u + 1 + (2 ^ 64 - 1)) with (Z.of_nat (length A) - Z.of_nat u + 1 * 2 ^ 64) by lia.
        rewrite Z.mod_add by lia. rewrite Z.mod_small; lia.
      + rewrite (Hsmall (n - 1)) by lia. rewrite Hsmall; lia.
    - destruct (link j B) as [f n]. rewrite decide_False by (by apply (HnX f n)). f_equal. f_equal.
      assert (0 <= n <= Z.of_nat (length B)) as Hn.
      { destruct HB as [(d & x & Hd & _ & E & _)|[E _]]; injection E as -> ->; [apply lookup_lt_Some in Hd|]; lia. }
      rewrite Hsmall; lia. }
  exists h. split; [done|]. split; [done|]. split; [|split].
  - intros j Hj. destruct (lookup_lt_is_Some_2 us j ltac:(lia)) as [u Hu]. exists u. split; [by apply Hus|].
    intros y _. by rewrite Hc, Hu.
  - intros y j Hj. rewrite Hc, lookup_ge_None_2 by lia. done.
  - intros j. rewrite Hc. destruct (us !! j) as [u|] eqn:Hu; [|done].
    destruct (Hpath j u Hu) as (_ & _ & Hne & _). by rewrite decide_False.
Qed.

Lemma prev_remove q : prev (A ++ B) q = if decide (q <= length A)%nat then prev T q else prev T (S q).
Proof.
  destruct q as [|q]; [by rewrite decide_True by lia|]. cbn [prev]. case_decide.
  - unfold T. by rewrite !lookup_app_l by lia.
  - unfold T. by rewrite lookup_insert_after by lia.
Qed.

Lemma prev_X : prev T (length A) = addr <$> last A.
Proof.
  rewrite last_lookup. destruct (length A) as [|k] eqn:E; cbn [prev Nat.pred].
  - by destruct A.
  - unfold T. by rewrite lookup_app_l by lia.
Qed.

Lemma lookup_removed q x : (A ++ B) !! q = Some x -> T !! (if decide (q < length A)%nat then q else S q) = Some x.
Proof.
  intros Hx. unfold T. case_decide; [by rewrite lookup_app_l in Hx |- * by lia|]. by rewrite lookup_insert_after by lia.
Qed.

(** The invariant after the removal, from a heap that differs by the links and
    a backward pointer. *)
Lemma unlinked_inv h h' tl :
  (forall j, (j < level_ s)%nat -> exists u, pred_at T j (length A) u /\ forall y, y <> addr X -> cell h y j =
     if decide (y = pos (header_ s) T u) then Some (link j (drop u (A ++ B))) else cell (heap s) y j) ->
  (forall y j, (level_ s <= j)%nat -> cell h y j = cell (heap s) y j) ->
  (forall y j, cell h' y j = cell h y j) -> dom h' = dom (heap s) ->
  (forall q x, (A ++ B) !! q = Some x -> info h' (addr x) = Some (tm x, ts x, prev (A ++ B) q, height x)) ->
  (exists m sc b, info h' (header_ s) = Some (m, sc, b, kSkipListMaxLevel)) -> tl = addr <$> last (A ++ B) ->
  inv (mk (delete (addr X) h') (fresh s) (header_ s) tl (u64 (length_ s - 1)) (level_ s)) (A ++ B).
Proof.
  intros Hlow Hup Hcell Hdom Hinfo Hhd ->.
  assert (header_ s <> addr X) as HhX by (apply (pos_not_X 0); lia).
  assert (forall y j, y <> addr X -> cell (delete (addr X) h') y j = cell h y j) as Hdel.
  { intros y j Hy. rewrite <- Hcell. unfold cell. by rewrite lookup_delete_ne. }
  assert (forall y, y <> addr X -> info (delete (addr X) h') y = info h' y) as Hidel.
  { intros y Hy. unfold info. by rewrite lookup_delete_ne. }
  pose proof (inv_addrs _ _ I) as Hnd. unfold T in Hnd. rewrite fmap_app, fmap_cons in Hnd.
  rewrite <- Permutation_middle, Permutation_swap, <- fmap_app in Hnd. apply NoDup_cons in Hnd as [HX Hnd].
  apply not_elem_of_cons in HX as [_ HX].
  split; cbn [heap fresh header_ tail_ length_ level_]; try done.
  - by rewrite Hidel.
  - intros q x Hx. rewrite Hidel; [by apply Hinfo|]. intros E. apply HX. rewrite <- E. apply list_elem_of_fmap.
    exists x. split; [done|]. by eapply list_elem_of_lookup_2.
  - intros p i Hp Hi Hr. rewrite Hdel.
    + apply (remove_cells (heap s) h (header_ s) A B X (level_ s)); try done; [apply (inv_cells _ _ I)|apply (pos_inj s T I)].
    + intros E. destruct p as [|q]; [done|]. destruct Hr as (x & Hx & _). apply HX. rewrite <- E. cbn. rewrite Hx.
      apply list_elem_of_fmap. exists x. split; [done|]. by eapply list_elem_of_lookup_2.
  - intros i Hi. rewrite Hdel, Hup by (done || lia). apply (inv_upper _ _ I). lia.
  - intros q x Hx%lookup_removed. by apply (inv_heights _ _ I) in Hx.
  - rewrite dom_delete_L, Hdom, (inv_dom _ _ I). unfold T. rewrite fmap_app, fmap_cons, list_to_set_app_L. cbn.
    rewrite fmap_app in HX |- *. rewrite list_to_set_app_L. apply set_eq. intros y. rewrite elem_of_app in HX.
    set_unfold. naive_solver.
  - intros y Hy. apply (inv_fresh _ _ I). unfold T. rewrite fmap_app, fmap_cons. rewrite fmap_app in Hy. set_solver.
  - pose proof (inv_length _ _ I) as [-> Hl]. unfold T in *. rewrite !length_app in *. cbn [length] in *.
    rewrite uwrap_small by (unfold u_range; lia). lia.
  - apply (inv_level _ _ I).
  - pose proof (inv_sorted _ _ I) as Hs. unfold T in Hs. clear -Hs. induction A as [|a A' IH]; cbn [app] in *.
    + by apply StronglySorted_inv in Hs as [? _].
    + apply StronglySorted_inv in Hs as [Hs Ha]. constructor; [by apply IH|]. rewrite Forall_app, Forall_cons in Ha. rewrite Forall_app. naive_solver.
  - pose proof (inv_scores _ _ I) as Hs. unfold T in Hs. rewrite Forall_app, Forall_cons in Hs. rewrite Forall_app. naive_solver.
Qed.

Lemma first_of_B : link 0 B = match B with [] => (None, 0) | b :: _ => (Some (addr b), 1) end.
Proof.
  destruct (link_spec 0 B) as [(d & x & Hd & _ & -> & Hall)|[-> Hall]].
  - destruct B as [|b B'] eqn:EB; [done|]. destruct d as [|d]; [by injection Hd as <-|].
    specialize (Hall 0%nat b ltac:(lia) eq_refl). pose proof (inv_heights _ _ I (S (length A)) b) as Hh.
    unfold T in Hh. rewrite lookup_insert_after, list_lookup_middle in Hh by (done || lia). specialize (Hh eq_refl). lia.
  - destruct B as [|b B'] eqn:EB; [done|].
    specialize (Hall 0%nat b eq_refl). pose proof (inv_heights _ _ I (S (length A)) b) as Hh.
    unfold T in Hh. rewrite lookup_insert_after, list_lookup_middle in Hh by (done || lia). specialize (Hh eq_refl). lia.
Qed.

Lemma removed_inv : exists s',
  (h ← unlink (addr X) 0 path (heap s);
   '(f, _) ← cell h (addr X) 0;
   n ← h !! addr X;
   let h := match f with Some y => set_backward y (backward n) h | None => h end in
   let tl := match f with Some _ => tail_ s | None => backward n end in
   lv ← drop_levels h (header_ s) (level_ s);
   Some (mk (delete (addr X) h) (fresh s) (header_ s) tl (u64 (length_ s - 1)) lv, true)) = Some (s', true) /\
  inv s' (A ++ B).
Proof.
  destruct unlinked_heap as (h & -> & [Hd Hi] & Hlow & Hup & HcX). cbn [mbind option_bind].
  rewrite HcX, cell_X by (pose proof (inv_heights _ _ I _ _ lookup_X); lia). rewrite first_of_B.
  destruct (node_lookup s T I _ _ lookup_X) as (n0 & _ & _). assert (info h (addr X) = Some (tm X, ts X, prev T (length A), height X)) as HiX.
  { rewrite Hi. apply (inv_info _ _ I). apply lookup_X. }
  apply info_node in HiX as (n & Hn & _ & _ & Hbn & _). rewrite prev_X in Hbn.
  assert (forall q x, (A ++ B) !! q = Some x -> q <> length A -> info h (addr x) = Some (tm x, ts x, prev (A ++ B) q, height x)) as Hinfo.
  { intros q x Hx Hq. rewrite Hi, (inv_info _ _ I _ _ (lookup_removed q x Hx)), prev_remove. repeat case_decide; done || lia. }
  assert (exists h' tl, (match B with [] => (None, 0) | b :: _ => (Some (addr b), 1) end).1 =
      match B with [] => None | b :: _ => Some (addr b) end /\
    h' = match B with [] => h | b :: _ => set_backward (addr b) (backward n) h end /\
    tl = match B with [] => backward n | _ => tail_ s end) as (h' & tl & _ & Hh' & Htl) by (destruct B; eauto).
  assert (inv (mk (delete (addr X) h') (fresh s) (header_ s) tl (u64 (length_ s - 1)) (level_ s)) (A ++ B)) as I'.
  { apply (unlinked_inv h h' tl); try done.
    - intros y j. rewrite Hh'. destruct B; [done|]. apply cell_set_backward.
    - rewrite Hh', <- Hd. destruct B; [done|]. apply dom_set_backward.
    - intros q x Hx. rewrite Hh'.
      assert (B = [] \/ exists b B', B = b :: B') as [EB|(b & B' & EB)] by (destruct B; eauto).
      + assert (match B with [] => h | b :: _ => set_backward (addr b) (backward n) h end = h) as -> by (by rewrite EB).
        apply Hinfo; [done|]. apply lookup_lt_Some in Hx. rewrite length_app, EB in Hx. cbn in Hx. lia.
      + assert (match B with [] => h | b :: _ => set_backward (addr b) (backward n) h end = set_backward (addr b) (backward n) h) as ->
          by (by rewrite EB).
        assert (T !! S (length A) = Some b) as Hb by (unfold T; rewrite lookup_insert_after, EB by lia; by rewrite list_lookup_middle).
        rewrite info_set_backward. destruct (decide (q = length A)) as [->|Hq].
        * assert (x = b) as ->.
          { apply lookup_removed in Hx. rewrite decide_False in Hx by lia. congruence. }
          rewrite decide_True by done. rewrite Hi.
          rewrite (inv_info _ _ I _ _ Hb). cbn [fmap option_fmap option_map]. rewrite Hbn, <- prev_X, prev_remove.
          by rewrite decide_True by lia.
        * rewrite decide_False; [by apply Hinfo|]. intros E. apply Hq.
          assert (NoDup (addr <$> T)) as Hnd by (pose proof (inv_addrs _ _ I) as Hnd; by apply NoDup_cons in Hnd as [_ ?]).
          pose proof (lookup_removed q x Hx) as H1.
          assert ((if decide (q < length A)%nat then q else S q) = S (length A)) as Heq.
          { eapply NoDup_lookup; [exact Hnd|by rewrite list_lookup_fmap, H1|]. rewrite list_lookup_fmap, Hb. cbn. by rewrite E. }
          case_decide; lia.
    - rewrite Hh'. destruct (inv_header _ _ I) as (m0 & sc0 & b0 & Hhd). rewrite <- Hi in Hhd.
      destruct B as [|b B']; [eauto|]. rewrite info_set_backward, Hhd. case_decide; eauto.
    - rewrite Htl, (inv_tail _ _ I). unfold T. rewrite last_app. destruct B as [|b B'].
      + by rewrite app_nil_r.
      + rewrite last_app, !last_cons. by destruct (last B'). }
  assert (header_ s <> addr X) as HhX by (apply (pos_not_X 0); lia).
  destruct (drop_levels_inv _ _ _ _ _ _ _ I') as (lv' & Hlv' & I'').
  assert (drop_levels h' (header_ s) (level_ s) = Some lv') as Hdl.
  { rewrite <- Hlv'. clear -HhX. induction (level_ s) as [|l IH]; [done|]. destruct l; [done|].
    rewrite !drop_levels_S, cell_delete by done.
    destruct (cell h' (header_ s) (S l)) as [[[y|] sp]|]; cbn [mbind option_bind]; [reflexivity|apply IH|reflexivity]. }
  exists (mk (delete (addr X) h') (fresh s) (header_ s) tl (u64 (length_ s - 1)) lv'). split; [|done].
  rewrite Hh' in Hdl |- *. rewrite Htl. destruct B as [|b B']; cbn [mbind option_bind]; rewrite Hn; cbn [mbind option_bind]; rewrite Hdl; done.
Qed.

End unlinking.

(** [remove] takes out the member with that score, and says whether it was
    there. *)
Lemma node_remove_spec s T sc m : inv s T -> Double.ok sc ->
  (exists A X B s', T = A ++ X :: B /\ tm X = m /\ Double.key (ts X) = Double.key sc /\
     remove s sc m = Some (s', true) /\ inv s' (A ++ B)) \/
  ((forall x, x ∈ T -> tm x = m -> Double.key (ts x) <> Double.key sc) /\ remove s sc m = Some (s, false)).
Proof.
  intros I Hok. destruct (split_before s T sc m I Hok) as (A & B0 & HT & Hsp & HA & HB).
  unfold remove. destruct (search_spec s T I _ _ Hsp) as (us & -> & Hlen & Hus & Hus0). cbn [mbind option_bind].
  unfold landing. rewrite lookup_path, Hus0. cbn [fmap option_fmap option_map from_option fst].
  pose proof (inv_level _ _ I) as Hlv. rewrite (inv_cells _ _ I) by (done || lia || (rewrite HT, length_app; lia) ||
    (apply (reaches_bottom s T I); rewrite HT, length_app; lia)).
  assert (drop (length A) T = B0) as -> by (rewrite HT; apply drop_app_length). cbn [mbind option_bind].
  assert (forall x, x ∈ A -> ~ (tm x = m /\ Double.key (ts x) = Double.key sc)) as HnA.
  { intros x Hx [Em Ek]. pose proof (HA x Hx) as H. subst m. rewrite isBefore_irrefl in H; [done| |done|done].
    apply (inv_ok s T); [done|set_solver]. }
  destruct B0 as [|X B].
  { right. split; [|done]. intros x Hx Em Ek. rewrite HT, app_nil_r in Hx. by apply (HnA x). }
  assert (T !! length A = Some X) as HX by (rewrite HT; by rewrite list_lookup_middle).
  rewrite link_here by (pose proof (inv_heights _ _ I _ _ HX); lia). cbn [mbind option_bind].
  destruct (node_lookup s T I _ _ HX) as (n & -> & Hm & Hs & _). cbn [mbind option_bind]. rewrite Hm, Hs.
  unfold Double.ne. rewrite Double.eq_key by (eauto using score_ok).
  destruct (Z.eqb_spec (Double.key (ts X)) (Double.key sc)) as [Ek|Ek], (bool_decide_reflect (tm X = m)) as [Em|Em]; cbn [negb orb].
  { left. subst T. destruct (removed_inv s A B X us I Hus Hlen) as (s' & Hrm & I').
    exists A, X, B, s'. split; [done|]. split; [done|]. split; [done|]. split; done. }
  all: right; (split; [|done]); intros x Hx Em' Ek'; rewrite HT, elem_of_app, elem_of_cons in Hx;
    destruct Hx as [Hx|[->|Hx]]; [by apply (HnA x)|done|].
  all: assert (before X x) as Hb by (pose proof (inv_sorted _ _ I) as Hst; rewrite HT in Hst; clear -Hst Hx;
    induction A as [|a A IH]; cbn [app] in Hst; apply StronglySorted_inv in Hst as [Hst Hf]; [|by apply IH];
    rewrite Forall_forall in Hf; by apply Hf).
  all: unfold before in Hb; specialize (HB X ltac:(by left)); apply not_true_iff_false in HB; apply HB;
    assert (Double.ok (ts X)) by eauto using score_ok;
    assert (Double.ok (ts x)) by (apply (inv_ok s T); [done|rewrite HT; set_solver]);
    rewrite isBefore_spec in Hb |- * by done; rewrite Ek', Em' in Hb; done.
Qed.

(** ** Queries *)

Section queries.
Context (s : t) (T : list tower) (I : inv s T).

(** The member and score stand at index [q]. *)
Definition hit (sc : Z) (m : bytes) (q : nat) : Prop :=
  exists x, T !! q = Some x /\ tm x = m /\ Double.key (ts x) = Double.key sc.

(** The first [r] members are those not after the score and member; a hit is the
    last of them. *)
Lemma split_after sc m : Double.ok sc -> exists r, (r <= length T)%nat /\
  (forall q x, T !! q = Some x -> isBefore sc m (ts x) (tm x) = negb (q <? r)%nat) /\
  (forall q, hit sc m q -> S q = r).
Proof.
  intros Hok. destruct (sorted_split (fun x => negb (isBefore sc m (ts x) (tm x))) T (inv_sorted _ _ I)) as (A & B & HT & HA & HB).
  { intros a b Ha Hb Hab. rewrite !negb_true_iff. intros Hb'. destruct (isBefore sc m (ts a) (tm a)) eqn:E; [|done].
    rewrite (isBefore_trans sc m (ts a) (tm a)) in Hb'; [done|..]; eauto using inv_ok. }
  assert (forall q x, T !! q = Some x -> isBefore sc m (ts x) (tm x) = negb (q <? length A)%nat) as Hlt.
  { intros q x Hx. rewrite HT in Hx. destruct (Nat.ltb_spec q (length A)).
    - rewrite lookup_app_l in Hx by done. apply list_elem_of_lookup_2, HA in Hx. by apply negb_true_iff in Hx.
    - rewrite lookup_app_r in Hx by done. apply list_elem_of_lookup_2, HB in Hx. by apply negb_false_iff in Hx. }
  exists (length A). split; [rewrite HT, length_app; lia|]. split; [done|].
  intros q (x & Hx & Em & Ek). pose proof (score_ok s T I q x Hx) as Hxo. pose proof (Hlt q x Hx) as Hq.
  rewrite Em, isBefore_irrefl in Hq by done. destruct (Nat.ltb_spec q (length A)) as [Hqa|]; [|done].
  destruct (decide (S q = length A)) as [|Hne]; [done|].
  destruct (lookup_lt_is_Some_2 T (S q)) as [y Hy]; [rewrite HT, length_app; lia|].
  pose proof (Hlt _ _ Hy) as Hyq. destruct (Nat.ltb_spec (S q) (length A)); [|lia]. cbn in Hyq.
  assert (before x y) as Hxy by (eapply towers_sorted_lookup; [apply (inv_sorted _ _ I)|exact Hx|exact Hy|lia]).
  unfold before in Hxy. pose proof (score_ok s T I _ y Hy). apply not_true_iff_false in Hyq. destruct Hyq.
  rewrite isBefore_spec in Hxy |- * by done. by rewrite Ek, Em in Hxy.
Qed.

Lemma rank_walk_spec sc m r i p fuel : Double.ok sc -> (r <= length T)%nat ->
  (forall q x, T !! q = Some x -> isBefore sc m (ts x) (tm x) = negb (q <? r)%nat) ->
  (p <= r)%nat -> (i < level_ s)%nat -> reaches i T p -> (r - p < fuel)%nat -> (forall q, p = S q -> ~ hit sc m q) ->
  (exists q, rank_walk sc m (heap s) i fuel (pos (header_ s) T p) (Z.of_nat p) = Some (inl (Z.of_nat q)) /\ hit sc m q) \/
  (exists u, rank_walk sc m (heap s) i fuel (pos (header_ s) T p) (Z.of_nat p) = Some (inr (pos (header_ s) T u, Z.of_nat u)) /\
     pred_at T i r u /\ (forall q, u = S q -> ~ hit sc m q)).
Proof.
  intros Hok Hr Hlt. revert p. induction fuel as [|fuel IH]; intros p Hpr Hi Hp Hf Hno; [lia|]. cbn [rank_walk].
  rewrite (inv_cells _ _ I) by (done || lia). cbn [mbind option_bind].
  assert (forall rest, link i (drop p T) = rest -> forall (Hall : forall e y, (p + e < r)%nat -> drop p T !! e = Some y -> (height y <= i)%nat),
    pred_at T i r p) as Hstop.
  { intros _ _ Hall. split; [done|]. split; [done|]. intros q y Hq Hy. apply (Hall (q - p)%nat); [lia|].
    rewrite lookup_drop. by replace (p + (q - p))%nat with q by lia. }
  destruct (link_spec i (drop p T)) as [(d & x & Hd & Hh & -> & Hall)|[-> Hall]].
  2: { right. exists p. split; [done|]. split; [|done]. apply (Hstop _ eq_refl). intros e y _. apply Hall. }
  rewrite lookup_drop in Hd. destruct (node_lookup s T I _ _ Hd) as (n & -> & Hm & Hs & _). cbn [mbind option_bind].
  rewrite Hm, Hs, (Hlt _ _ Hd), negb_involutive. destruct (Nat.ltb_spec (p + d) r) as [Hdr|Hdr].
  2: { right. exists p. split; [done|]. split; [|done]. apply (Hstop _ eq_refl). intros e y He. apply Hall. lia. }
  pose proof (inv_length _ _ I) as [_ Hlen].
  assert (forall z, 0 <= z < 2 ^ 64 -> u64 z = z) as Hsmall by (intros; by apply uwrap_small).
  rewrite (Hsmall (Z.of_nat p + _)) by lia. rewrite Double.eq_key by (eauto using score_ok).
  destruct (Z.eqb_spec (Double.key (ts x)) (Double.key sc)) as [Ek|Ek], (bool_decide_reflect (tm x = m)) as [Em|Em]; cbn [andb].
  { left. exists (p + d)%nat. split; [do 2 f_equal; rewrite Hsmall; lia|]. by exists x. }
  all: replace (Z.of_nat p + (Z.of_nat d + 1)) with (Z.of_nat (S (p + d))) by lia; rewrite <- (pos_lookup s T _ _ Hd);
    apply IH; [lia|done|by exists x|lia|]; intros q [= <-] (y & Hy & Hy2 & Hy3); rewrite Hd in Hy; by injection Hy as <-.
Qed.

Lemma rank_levels_spec sc m r i p : Double.ok sc -> (r <= length T)%nat ->
  (forall q x, T !! q = Some x -> isBefore sc m (ts x) (tm x) = negb (q <? r)%nat) ->
  (forall q, hit sc m q -> S q = r) ->
  (p <= r)%nat -> (i <= level_ s)%nat -> reaches (i - 1) T p -> (forall q, p = S q -> ~ hit sc m q) -> (i = 0%nat -> p = r) ->
  (exists q, rank_levels sc m (heap s) i (pos (header_ s) T p) (Z.of_nat p) = Some (Some (Z.of_nat q)) /\ hit sc m q) \/
  (rank_levels sc m (heap s) i (pos (header_ s) T p) (Z.of_nat p) = Some None /\ forall q, ~ hit sc m q).
Proof.
  intros Hok Hr Hlt Hhit. revert p. induction i as [|i IH]; intros p Hpr Hi Hp Hno Hz; cbn [rank_levels].
  { right. split; [done|]. intros q Hq. specialize (Hz eq_refl). apply (Hno q); [|done]. rewrite Hz. symmetry. by apply Hhit. }
  replace (S i - 1)%nat with i in Hp by lia.
  destruct (rank_walk_spec sc m r i p (S (base.size (heap s)))) as [(q & -> & Hq)|(u & -> & Hu & Hnu)]; try done.
  { rewrite (heap_size s T I). lia. }
  - left. by exists q.
  - cbn [mbind option_bind]. pose proof Hu as (Hur & Hreach & _). apply IH; [done|lia| |done|].
    + eapply reaches_down; [|done]. lia.
    + intros ->. by apply (pred_at_bottom s T I).
Qed.

(** [rankOf] is the index of the member with that score. *)
Lemma rankOf_spec sc m : Double.ok sc ->
  (exists q, rankOf s sc m = Some (Some (Z.of_nat q)) /\ hit sc m q) \/
  (rankOf s sc m = Some None /\ forall q, ~ hit sc m q).
Proof.
  intros Hok. destruct (split_after sc m Hok) as (r & Hr & Hlt & Hhit). unfold rankOf.
  apply (rank_levels_spec sc m r (level_ s) 0); try done; [lia|]. pose proof (inv_level _ _ I). lia.
Qed.

Lemma seek_walk_spec target i p fuel : (p <= target <= length T)%nat -> (i < level_ s)%nat -> reaches i T p ->
  (target - p < fuel)%nat ->
  exists u, seek_walk (Z.of_nat target) (heap s) i fuel (pos (header_ s) T p) (Z.of_nat p) = Some (pos (header_ s) T u, Z.of_nat u) /\
    pred_at T i target u.
Proof.
  revert p. induction fuel as [|fuel IH]; intros p Hpr Hi Hp Hf; [lia|]. cbn [seek_walk].
  rewrite (inv_cells _ _ I) by (done || lia). cbn [mbind option_bind].
  destruct (link_spec i (drop p T)) as [(d & x & Hd & Hh & -> & Hall)|[-> Hall]].
  - pose proof (lookup_lt_Some _ _ _ Hd) as Hdl. rewrite length_drop in Hdl. rewrite lookup_drop in Hd.
    pose proof (inv_length _ _ I) as [_ Hlen]. rewrite uwrap_small by (unfold u_range; lia).
    destruct (Z.leb_spec (Z.of_nat p + (Z.of_nat d + 1)) (Z.of_nat target)) as [Hlt|Hge].
    + replace (Z.of_nat p + (Z.of_nat d + 1)) with (Z.of_nat (S (p + d))) by lia. rewrite <- (pos_lookup s T _ _ Hd).
      apply IH; [lia|done|by exists x|lia].
    + exists p. split; [done|]. split; [lia|]. split; [done|]. intros q y Hq Hy.
      apply (Hall (q - p)%nat); [lia|]. rewrite lookup_drop. by replace (p + (q - p))%nat with q by lia.
  - exists p. split; [done|]. split; [lia|]. split; [done|]. intros q y Hq Hy.
    apply (Hall (q - p)%nat). rewrite lookup_drop. by replace (p + (q - p))%nat with q by lia.
Qed.

Lemma seek_levels_spec target i p : (1 <= target <= length T)%nat -> (p <= target)%nat -> (i <= level_ s)%nat ->
  reaches (i - 1) T p -> (i = 0%nat -> False) ->
  seek_levels (Z.of_nat target) (header_ s) (heap s) i (pos (header_ s) T p) (Z.of_nat p) = Some (Some (pos (header_ s) T target)).
Proof.
  intros Ht. revert p. induction i as [|i IH]; intros p Hpt Hi Hp Hz; [by destruct Hz|]. cbn [seek_levels].
  replace (S i - 1)%nat with i in Hp by lia.
  destruct (seek_walk_spec target i p (S (base.size (heap s)))) as (u & -> & Hu); [lia|lia|done|rewrite (heap_size s T I); lia|].
  cbn [mbind option_bind]. pose proof Hu as (Hut & Hreach & _). destruct (Z.eqb_spec (Z.of_nat u) (Z.of_nat target)) as [E|E].
  - assert (u = target) as -> by lia. destruct (Nat.eqb_spec (pos (header_ s) T target) (header_ s)) as [E'|]; [|done].
    change (header_ s) with (pos (header_ s) T 0) in E' at 2. apply (pos_inj s T I) in E'; lia.
  - cbn [andb]. destruct i as [|i'].
    + apply (pred_at_bottom s T I) in Hu; lia.
    + apply IH; [lia|lia| |done]. eapply reaches_down; [|done]. lia.
Qed.

(** [nodeByRank] is the node at an index, or null past the end. *)
Lemma nodeByRank_spec k : nodeByRank s (Z.of_nat k) = Some (addr <$> T !! k).
Proof.
  unfold nodeByRank. pose proof (inv_length _ _ I) as [-> Hlen].
  destruct (Z.leb_spec (Z.of_nat (length T)) (Z.of_nat k)) as [H|H].
  - by rewrite lookup_ge_None_2 by lia.
  - rewrite uwrap_small by (unfold u_range; lia). replace (Z.of_nat k + 1) with (Z.of_nat (S k)) by lia.
    pose proof (inv_level _ _ I). change 0 with (Z.of_nat 0). change (header_ s) with (pos (header_ s) T 0) at 2.
    rewrite seek_levels_spec by (done || lia). destruct (lookup_lt_is_Some_2 T k ltac:(lia)) as [x Hx].
    by rewrite (pos_lookup s T _ _ Hx), Hx.
Qed.

(** A node and its successor on the bottom level. *)
Lemma bottom_node p x : T !! p = Some x ->
  exists n sp, heap s !! addr x = Some n /\ member n = tm x /\ score n = ts x /\ levels n !! 0%nat = Some (addr <$> T !! S p, sp).
Proof.
  intros Hx. destruct (node_lookup s T I _ _ Hx) as (n & Hn & Hm & Hs & _).
  apply lookup_lt_Some in Hx as Hlt. pose proof (inv_level _ _ I).
  pose proof (inv_cells _ _ I (S p) 0 ltac:(lia) ltac:(lia) ltac:(apply (reaches_bottom s T I); lia)) as Hc.
  rewrite (pos_lookup s T _ _ Hx) in Hc. unfold cell in Hc. rewrite Hn in Hc. cbn [mbind option_bind] in Hc.
  assert (exists sp, link 0 (drop (S p) T) = (addr <$> T !! S p, sp)) as [sp E].
  { destruct (T !! S p) as [y|] eqn:Hy.
    - rewrite (drop_S _ _ _ Hy), link_here by (pose proof (inv_heights _ _ I _ _ Hy); lia). eauto.
    - apply lookup_ge_None in Hy. rewrite drop_ge by lia. eauto. }
  rewrite E in Hc. eauto 10.
Qed.

(** Following the bottom level from an index. *)
Lemma follow_spec p fuel : (p <= length T)%nat -> (length T - p <= fuel)%nat ->
  follow (heap s) fuel (addr <$> T !! p) = Some (map (fun x => (tm x, ts x)) (drop p T)).
Proof.
  revert p. induction fuel as [|fuel IH]; intros p Hp Hf.
  { rewrite lookup_ge_None_2, drop_ge by lia. done. }
  destruct (T !! p) as [x|] eqn:Hx; cbn [fmap option_fmap option_map].
  - cbn [follow]. destruct (bottom_node _ _ Hx) as (n & sp & Hn & Hm & Hs & Hl). rewrite Hn. cbn [mbind option_bind]. rewrite Hl.
    cbn [mbind option_bind]. rewrite (drop_S _ _ _ Hx). cbn [map]. apply lookup_lt_Some in Hx as Hlt.
    rewrite IH by lia. cbn [mbind option_bind]. by rewrite Hm, Hs.
  - apply lookup_ge_None in Hx. rewrite drop_ge by lia. by destruct fuel.
Qed.

Lemma head_spec : head s = Some (addr <$> T !! 0%nat).
Proof.
  unfold head. pose proof (inv_level _ _ I). change (header_ s) with (pos (header_ s) T 0) at 1.
  rewrite (inv_cells _ _ I) by (done || lia). cbn [mbind option_bind]. rewrite drop_0. destruct T as [|x T'] eqn:ET; [done|].
  rewrite link_here; [done|]. pose proof (inv_heights _ _ I 0 x eq_refl). lia.
Qed.

Lemma elements_spec : elements s = Some (map (fun x => (tm x, ts x)) T).
Proof.
  unfold elements. rewrite head_spec. cbn [mbind option_bind].
  rewrite (follow_spec 0), drop_0; [done|lia|]. rewrite (heap_size s T I). lia.
Qed.

(** *** Score ranges *)

(** Reading the node of a tower. *)
Ltac read_node H :=
  let n := fresh "n" in let Hn := fresh in let Hm := fresh in let Hs := fresh in
  destruct (node_lookup s T I _ _ H) as (n & Hn & Hm & Hs & _ & _);
  rewrite Hn; cbn [mbind option_bind]; rewrite ?Hm, ?Hs; clear Hn Hm Hs.

Definition range_ok (r : ScoreRange) : Prop := Double.ok (min r) /\ Double.ok (max r).

Lemma below_key r sc : range_ok r -> Double.ok sc ->
  below_min r sc = if min_exclusive r then Double.key sc <=? Double.key (min r) else Double.key sc <? Double.key (min r).
Proof. intros [? _] ?. unfold below_min. by rewrite Double.le_key, Double.lt_key. Qed.

Lemma above_key r sc : range_ok r -> Double.ok sc ->
  above_max r sc = if max_exclusive r then Double.key (max r) <=? Double.key sc else Double.key (max r) <? Double.key sc.
Proof. intros [_ ?] ?. unfold above_max, Double.ge, Double.gt. by rewrite Double.le_key, Double.lt_key. Qed.

Lemma empty_range r sc : range_ok r -> Double.ok sc -> isEmpty r = true -> containsScore r sc = false.
Proof.
  intros Hr Hsc. unfold isEmpty, containsScore. rewrite below_key, above_key by done. destruct Hr as [Hmin Hmax].
  unfold Double.gt. rewrite Double.lt_key, Double.eq_key by done.
  destruct (min_exclusive r), (max_exclusive r), (Z.ltb_spec (Double.key (max r)) (Double.key (min r))),
    (Z.eqb_spec (Double.key (min r)) (Double.key (max r))); cbn; try done; intros _;
    repeat case_if; bools; try done; lia.
Qed.

Lemma range_disjoint r sc : range_ok r -> Double.ok sc -> isEmpty r = false -> below_min r sc = true -> above_max r sc = false.
Proof.
  intros Hr Hsc. unfold isEmpty. rewrite below_key, above_key by done. destruct Hr as [Hmin Hmax].
  unfold Double.gt. rewrite Double.lt_key, Double.eq_key by done.
  destruct (min_exclusive r), (max_exclusive r), (Z.ltb_spec (Double.key (max r)) (Double.key (min r))),
    (Z.eqb_spec (Double.key (min r)) (Double.key (max r))); cbn; try done; intros _; rewrite ?Z.leb_le, ?Z.ltb_lt, ?Z.leb_gt, ?Z.ltb_ge; lia.
Qed.

Lemma before_key a b : a ∈ T -> b ∈ T -> before a b -> Double.key (ts a) <= Double.key (ts b).
Proof.
  intros Ha Hb Hab. unfold before in Hab. rewrite isBefore_spec in Hab by (eapply inv_ok; eassumption). lia.
Qed.

(** The members in a range stand together. *)
Lemma range_split r : range_ok r -> exists A M C, T = A ++ M ++ C /\
  (forall x, x ∈ A -> below_min r (ts x) = true) /\ (forall x, x ∈ M -> containsScore r (ts x) = true) /\
  (forall x, x ∈ C -> below_min r (ts x) = false /\ above_max r (ts x) = true).
Proof.
  intros Hr. assert (forall x, x ∈ T -> Double.ok (ts x)) as Hok by (intros; eapply inv_ok; eassumption).
  destruct (sorted_split (fun x => below_min r (ts x)) T (inv_sorted _ _ I)) as (A & B & HT & HA & HB).
  { intros a b Ha Hb Hab%before_key; [|done..]. rewrite !below_key by auto. destruct (min_exclusive r); rewrite ?Z.leb_le, ?Z.ltb_lt; lia. }
  destruct (sorted_split (fun x => negb (above_max r (ts x))) B) as (M & C & HM & HMp & HC).
  { pose proof (inv_sorted _ _ I) as Hs. rewrite HT in Hs. by eapply StronglySorted_app_1_r. }
  { intros a b Ha Hb Hab%before_key; [|rewrite HT; set_solver..]. rewrite !above_key by (done || (apply Hok; rewrite HT; set_solver)).
    destruct (max_exclusive r); rewrite !negb_true_iff, ?Z.leb_gt, ?Z.ltb_ge; lia. }
  exists A, M, C. subst B. split; [done|]. split; [done|]. split.
  - intros x Hx. unfold containsScore. rewrite HB by set_solver. specialize (HMp x Hx). apply negb_true_iff in HMp. by rewrite HMp.
  - intros x Hx. split; [apply HB; set_solver|]. specialize (HC x Hx). by apply negb_false_iff in HC.
Qed.

Lemma range_members r A M C : T = A ++ M ++ C ->
  (forall x, x ∈ A -> below_min r (ts x) = true) -> (forall x, x ∈ M -> containsScore r (ts x) = true) ->
  (forall x, x ∈ C -> below_min r (ts x) = false /\ above_max r (ts x) = true) ->
  List.filter (fun x => containsScore r (ts x)) T = M.
Proof.
  intros -> HA HM HC. rewrite !List.filter_app.
  assert (forall l, (forall x, x ∈ l -> containsScore r (ts x) = false) -> List.filter (fun x => containsScore r (ts x)) l = []) as Hnone.
  { induction l as [|x l IH]; intros H; [done|]. cbn. rewrite H by (by left). apply IH. intros; apply H; by right. }
  rewrite (Hnone A), (Hnone C), app_nil_r.
  - clear -HM. induction M as [|x M IH]; [done|]. cbn. rewrite HM by (by left). cbn. f_equal. apply IH. intros; apply HM; by right.
  - intros x Hx. destruct (HC x Hx) as [H1 H2]. unfold containsScore. by rewrite H1, H2.
  - intros x Hx. unfold containsScore. by rewrite HA.
Qed.

Section ranges.
Context (r : ScoreRange) (Hr : range_ok r) (A M C : list tower) (HT : T = A ++ M ++ C)
  (HA : forall x, x ∈ A -> below_min r (ts x) = true) (HM : forall x, x ∈ M -> containsScore r (ts x) = true)
  (HC : forall x, x ∈ C -> below_min r (ts x) = false /\ above_max r (ts x) = true).

Lemma contains_bounds x : x ∈ M -> below_min r (ts x) = false /\ above_max r (ts x) = false.
Proof. intros Hx%HM. unfold containsScore in Hx. by destruct (below_min r (ts x)), (above_max r (ts x)). Qed.

Lemma tower_ok x : x ∈ T -> Double.ok (ts x).
Proof. intros Hx. by apply (inv_ok s T). Qed.

Lemma empty_M : isEmpty r = true -> M = [].
Proof.
  intros He. destruct M as [|x M'] eqn:E; [done|]. specialize (HM x ltac:(by left)).
  rewrite empty_range in HM; [done|done| |done]. apply tower_ok. rewrite HT. set_solver.
Qed.

Lemma firstInRange_spec : firstInRange s r = Some (addr <$> M !! 0%nat).
Proof.
  unfold firstInRange. destruct (isEmpty r) eqn:He; cbn [orb]; [by rewrite (empty_M He)|].
  pose proof (inv_length _ _ I) as [Hlen _]. rewrite Hlen. destruct (Z.eqb_spec (Z.of_nat (length T)) 0) as [E|E].
  { assert (M = []) as ->; [|done]. destruct M; [done|]. rewrite HT, !length_app in E. cbn in E. lia. }
  rewrite (inv_tail _ _ I). destruct (last T) as [y|] eqn:Hy.
  2: { apply last_None in Hy. by rewrite Hy in E. }
  cbn [fmap option_fmap option_map]. rewrite last_lookup in Hy. read_node Hy.
  destruct (below_min r (ts y)) eqn:Hb.
  { assert (M = []) as EM; [|by rewrite EM]. apply elem_of_nil_inv. intros x Hxm. destruct (contains_bounds x Hxm) as [Hx _].
    assert (x ∈ T) as HxT by (rewrite HT; set_solver). apply list_elem_of_lookup in HxT as [k Hk].
    pose proof (lookup_lt_Some _ _ _ Hk). destruct (decide (k = Nat.pred (length T))) as [->|Hne]; [congruence|].
    assert (before x y) as Hxy by (eapply towers_sorted_lookup; [apply (inv_sorted _ _ I)|exact Hk|exact Hy|lia]).
    apply before_key in Hxy; [|by eapply list_elem_of_lookup_2..].
    rewrite below_key in Hx, Hb by (done || (apply tower_ok; by eapply list_elem_of_lookup_2)).
    destruct (min_exclusive r); bools; lia. }
  assert (splits T (fun n => negb (if min_exclusive r then Double.gt (score n) (min r) else Double.ge (score n) (min r))) (length A)) as Hsp.
  { apply (splits_of T A (M ++ C) _ (fun x => below_min r (ts x))); try done.
    - intros x n' Hx _ ->. rewrite below_key by (done || by apply tower_ok). destruct Hr as [Hmin _].
      unfold Double.gt, Double.ge. rewrite Double.lt_key, Double.le_key by (done || by apply tower_ok).
      destruct (min_exclusive r); [rewrite <- Z.leb_antisym|rewrite <- Z.ltb_antisym]; done.
    - intros b [Hb'|Hb']%elem_of_app; [by apply contains_bounds|by apply HC]. }
  destruct (search_spec s T I _ _ Hsp) as (us & -> & _ & _ & Hus0). cbn [mbind option_bind].
  unfold landing. rewrite lookup_path, Hus0. cbn [fmap option_fmap option_map from_option fst].
  pose proof (inv_level _ _ I). assert (length A <= length T)%nat as HAT by (rewrite HT, !length_app; lia).
  rewrite (inv_cells _ _ I) by (done || lia || by apply (reaches_bottom s T I)). cbn [mbind option_bind].
  assert (drop (length A) T = M ++ C) as -> by (rewrite HT; apply drop_app_length).
  destruct (M ++ C) as [|x MC] eqn:EMC.
  { apply app_eq_nil in EMC as [EM _]. by rewrite EM. }
  assert (T !! length A = Some x) as Hx by (rewrite HT; by rewrite list_lookup_middle).
  rewrite link_here by (pose proof (inv_heights _ _ I _ _ Hx); lia). cbn [mbind option_bind]. read_node Hx.
  assert (M = [] \/ exists x' M', M = x' :: M') as [EM|(x' & M' & EM)] by (destruct M; eauto); rewrite EM in EMC |- *; cbn [app] in EMC.
  - destruct (HC x) as [_ ->]; [rewrite EMC; by left|]. done.
  - injection EMC as -> <-. destruct (contains_bounds x) as [_ ->]; [rewrite EM; by left|]. done.
Qed.

Lemma lastInRange_spec : lastInRange s r = Some (addr <$> last M).
Proof.
  unfold lastInRange. destruct (isEmpty r) eqn:He; cbn [orb]; [by rewrite (empty_M He)|].
  pose proof (inv_length _ _ I) as [Hlen _]. rewrite Hlen. destruct (Z.eqb_spec (Z.of_nat (length T)) 0) as [E|E].
  { assert (M = []) as ->; [|done]. destruct M; [done|]. rewrite HT, !length_app in E. cbn in E. lia. }
  pose proof (inv_level _ _ I) as Hlv. destruct (lookup_lt_is_Some_2 T 0 ltac:(lia)) as [y Hy].
  assert (cell (heap s) (header_ s) 0 = Some (Some (addr y), 1)) as ->.
  { change (header_ s) with (pos (header_ s) T 0). rewrite (inv_cells _ _ I) by (done || lia). rewrite (drop_S _ _ _ Hy).
    rewrite link_here by (pose proof (inv_heights _ _ I _ _ Hy); lia). done. }
  cbn [mbind option_bind]. read_node Hy.
  destruct (above_max r (ts y)) eqn:Hb.
  { assert (M = []) as EM; [|by rewrite EM]. apply elem_of_nil_inv. intros x Hxm. destruct (contains_bounds x Hxm) as [_ Hx].
    assert (x ∈ T) as HxT by (rewrite HT; set_solver). apply list_elem_of_lookup in HxT as [k Hk].
    destruct (decide (k = 0%nat)) as [->|Hne]; [congruence|].
    assert (before y x) as Hxy by (eapply towers_sorted_lookup; [apply (inv_sorted _ _ I)|exact Hy|exact Hk|lia]).
    apply before_key in Hxy; [|by eapply list_elem_of_lookup_2..].
    rewrite above_key in Hx, Hb by (done || (apply tower_ok; by eapply list_elem_of_lookup_2)).
    destruct (max_exclusive r); bools; lia. }
  assert (splits T (fun n => if max_exclusive r then Double.lt (score n) (max r) else Double.le (score n) (max r)) (length (A ++ M))) as Hsp.
  { apply (splits_of T (A ++ M) C _ (fun x => negb (above_max r (ts x)))).
    - by rewrite HT, app_assoc.
    - intros x n' Hx _ ->. rewrite above_key by (done || by apply tower_ok). destruct Hr as [_ Hmax].
      rewrite Double.lt_key, Double.le_key by (done || by apply tower_ok).
      destruct (max_exclusive r); [rewrite Z.ltb_antisym|rewrite Z.leb_antisym]; done.
    - intros x [Hx|Hx]%elem_of_app; [|by destruct (contains_bounds x Hx) as [_ ->]].
      rewrite range_disjoint; [done|done| |done|by apply HA]. apply tower_ok. rewrite HT. set_solver.
    - intros x Hx. by destruct (HC x Hx) as [_ ->]. }
  destruct (search_spec s T I _ _ Hsp) as (us & -> & _ & _ & Hus0). cbn [mbind option_bind].
  unfold landing. rewrite lookup_path, Hus0. cbn [fmap option_fmap option_map from_option fst].
  assert (length (A ++ M) <= length T)%nat as HAT by (rewrite HT, !length_app; lia).
  destruct (Nat.eqb_spec (pos (header_ s) T (length (A ++ M))) (header_ s)) as [E'|E'].
  { change (header_ s) with (pos (header_ s) T 0) in E' at 2. apply (pos_inj s T I) in E'; [|done|lia].
    rewrite length_app in E'. assert (M = []) as ->; [|done]. apply nil_length_inv. lia. }
  destruct (length (A ++ M)) as [|k] eqn:Ek; [done|].
  destruct (lookup_lt_is_Some_2 T k ltac:(lia)) as [x Hx]. rewrite (pos_lookup s T _ _ Hx).
  read_node Hx.
  assert (last (A ++ M) = Some x) as Hlast.
  { rewrite last_lookup, Ek. cbn. rewrite HT, app_assoc, lookup_app_l in Hx by lia. done. }
  rewrite last_app in Hlast. destruct (last M) as [z|] eqn:Hz.
  - injection Hlast as ->. destruct (contains_bounds x) as [-> _]; [|done]. rewrite last_lookup in Hz. by eapply list_elem_of_lookup_2.
  - rewrite HA; [done|]. rewrite last_lookup in Hlast. by eapply list_elem_of_lookup_2.
Qed.

Lemma hit_unique q x : T !! q = Some x -> forall p, hit (ts x) (tm x) p -> p = q.
Proof.
  intros Hx p (y & Hy & Em & Ek). assert (Double.ok (ts x) /\ Double.ok (ts y)) as [Hox Hoy]
    by (split; apply tower_ok; by eapply list_elem_of_lookup_2).
  assert (forall a b, Double.ok (ts a) -> Double.ok (ts b) -> tm a = tm b -> Double.key (ts a) = Double.key (ts b) -> ~ before a b) as Hno.
  { intros a b Ha Hb Hm Hk. unfold before. rewrite Hm. by rewrite isBefore_irrefl by done. }
  destruct (Nat.lt_trichotomy p q) as [Hlt|[->|Hlt]]; [|done|]; exfalso.
  - apply (Hno y x); try done. eapply towers_sorted_lookup; [apply (inv_sorted _ _ I)|exact Hy|exact Hx|done].
  - apply (Hno x y); try done. eapply towers_sorted_lookup; [apply (inv_sorted _ _ I)|exact Hx|exact Hy|done].
Qed.

Lemma rankOf_index q x : T !! q = Some x -> rankOf s (ts x) (tm x) = Some (Some (Z.of_nat q)).
Proof.
  intros Hx. assert (Double.ok (ts x)) as Hox by (apply tower_ok; by eapply list_elem_of_lookup_2).
  destruct (rankOf_spec (ts x) (tm x) Hox) as [(p & -> & Hp)|[_ Hno]].
  - by rewrite (hit_unique q x Hx p Hp).
  - exfalso. apply (Hno q). by exists x.
Qed.

Lemma countInRange_spec : countInRange s r = Some (Z.of_nat (length M)).
Proof.
  unfold countInRange. rewrite firstInRange_spec. cbn [mbind option_bind].
  assert (M = [] \/ exists x M', M = x :: M') as [EM|(x & M' & EM)] by (destruct M; eauto); [by rewrite EM|].
  assert (addr <$> M !! 0%nat = Some (addr x)) as -> by (by rewrite EM). rewrite lastInRange_spec. cbn [mbind option_bind].
  assert (T !! length A = Some x) as Hx by (rewrite HT, EM; cbn [app]; by rewrite list_lookup_middle).
  destruct (last M) as [y|] eqn:Hy; [|by apply last_None in Hy; rewrite Hy in EM]. cbn [fmap option_fmap option_map].
  assert (T !! (length A + Nat.pred (length M))%nat = Some y) as Hy'.
  { rewrite HT, lookup_app_r by lia. replace (length A + Nat.pred (length M) - length A)%nat with (Nat.pred (length M)) by lia.
    rewrite lookup_app_l by (rewrite EM; cbn; lia). by rewrite <- last_lookup. }
  read_node Hx. read_node Hy'. rewrite (rankOf_index _ _ Hx), (rankOf_index _ _ Hy'). cbn [mbind option_bind]. f_equal.
  pose proof (inv_length _ _ I) as [_ Hl]. rewrite HT, !length_app, EM in Hl. cbn [length] in Hl. rewrite EM. cbn [length Nat.pred].
  rewrite (uwrap_small 64 (Z.of_nat (length A + length M') - Z.of_nat (length A))) by (unfold u_range; lia).
  rewrite uwrap_small by (unfold u_range; lia). lia.
Qed.

End ranges.

End queries.

(** ** Creation and [clear] *)

Lemma new_inv : inv new [].
Proof.
  assert (forall i, (i < kSkipListMaxLevel)%nat -> cell (heap new) (header_ new) i = Some (None, 0)) as Hc.
  { intros i Hi. unfold cell. cbn [heap header_ new]. rewrite lookup_singleton_eq. by apply lookup_replicate_2. }
  split; cbn [length fmap list_fmap last]; try done.
  - unfold info. cbn [heap header_ new]. rewrite lookup_singleton_eq. cbn. eauto.
  - intros [|p] i Hp Hi _; [|lia]. apply Hc. cbn in Hi. unfold kSkipListMaxLevel. lia.
  - intros i Hi. exists 0. apply Hc. lia.
  - apply NoDup_singleton.
  - intros y [->|H]%elem_of_cons; [cbn; lia|by apply not_elem_of_nil in H].
  - cbn. unfold kSkipListMaxLevel. lia.
  - constructor.
Qed.

Lemma free_loop_spec s T : inv s T -> forall fuel p h, (p <= length T)%nat -> (length T - p <= fuel)%nat ->
  dom h = {[header_ s]} ∪ list_to_set (addr <$> drop p T) ->
  (forall q x, (p <= q)%nat -> T !! q = Some x -> h !! addr x = heap s !! addr x) ->
  exists h', free_loop fuel (addr <$> T !! p) h = Some h' /\ dom h' = {[header_ s]} /\ h' !! header_ s = h !! header_ s.
Proof.
  intros I fuel. induction fuel as [|fuel IH]; intros p h Hp Hf Hd Hh; cbn [free_loop].
  { rewrite lookup_ge_None_2 by lia. exists h. rewrite drop_ge in Hd by lia. split; [done|]. split; [|done]. cbn in Hd. set_solver. }
  destruct (T !! p) as [x|] eqn:Hx; cbn [fmap option_fmap option_map].
  2: { apply lookup_ge_None in Hx. exists h. rewrite drop_ge in Hd by lia. split; [done|]. split; [|done]. cbn in Hd. set_solver. }
  pose proof (lookup_lt_Some _ _ _ Hx) as Hlt. pose proof (inv_level _ _ I) as Hlv.
  pose proof (inv_cells _ _ I (S p) 0 ltac:(lia) ltac:(lia) ltac:(apply (reaches_bottom s T I); lia)) as Hc.
  rewrite (pos_lookup s T _ _ Hx) in Hc. unfold cell. rewrite (Hh p x) by done. unfold cell in Hc. rewrite Hc. cbn [mbind option_bind].
  assert (exists sp, link 0 (drop (S p) T) = (addr <$> T !! S p, sp)) as [sp ->].
  { destruct (T !! S p) as [y|] eqn:Hy.
    - rewrite (drop_S _ _ _ Hy), link_here by (pose proof (inv_heights _ _ I _ _ Hy); lia). eauto.
    - apply lookup_ge_None in Hy. rewrite drop_ge by lia. eauto. }
  pose proof (inv_addrs _ _ I) as Hnd. rewrite <- (take_drop p T), fmap_app in Hnd. rewrite (drop_S _ _ _ Hx) in Hd, Hnd.
  rewrite fmap_cons in Hd, Hnd. apply NoDup_cons in Hnd as [Hhd Hnd]. apply NoDup_app in Hnd as (_ & _ & Hnd). apply NoDup_cons in Hnd as [Hxn Hnd].
  destruct (IH (S p) (delete (addr x) h)) as (h' & -> & Hd' & Hh'); [lia|lia| | |].
  - rewrite dom_delete_L, Hd. cbn. apply set_eq. intros y. set_unfold. naive_solver.
  - intros q y Hq Hy. rewrite lookup_delete_ne; [apply (Hh q); [lia|done]|]. intros E. apply Hxn. rewrite E. apply list_elem_of_fmap.
    exists y. split; [done|]. apply list_elem_of_lookup. exists (q - S p)%nat. rewrite lookup_drop. by replace (S p + (q - S p))%nat with q by lia.
  - exists h'. split; [done|]. split; [done|]. rewrite Hh'. apply lookup_delete_ne. set_solver.
Qed.

Lemma clear_spec s T : inv s T -> exists s', clear s = Some s' /\ inv s' [].
Proof.
  intros I. unfold clear. rewrite (head_spec s T I). cbn [mbind option_bind].
  destruct (free_loop_spec s T I (base.size (heap s)) 0 (heap s)) as (h & -> & Hd & Hh); [lia|rewrite (heap_size s T I); lia| |done|].
  { rewrite drop_0. apply (inv_dom _ _ I). }
  cbn [mbind option_bind]. eexists. split; [done|].
  destruct (inv_header _ _ I) as (m & sc & b & Hhd). apply info_node in Hhd as (n & Hn & <- & <- & <- & _). rewrite Hn in Hh.
  set (h2 := alter _ _ h). assert (forall i, (i < kSkipListMaxLevel)%nat -> cell h2 (header_ s) i = Some (None, 0)) as Hc.
  { intros i Hi. unfold cell, h2. rewrite lookup_alter_eq, Hh. cbn [fmap option_fmap option_map mbind option_bind levels]. by apply lookup_replicate_2. }
  split; cbn [heap fresh header_ tail_ length_ level_ length fmap list_fmap last]; try done.
  - unfold info, h2. rewrite lookup_alter_eq, Hh. cbn. eauto.
  - intros [|p] i Hp Hi _; [|lia]. apply Hc. unfold kSkipListMaxLevel. lia.
  - intros i Hi. exists 0. apply Hc. lia.
  - apply NoDup_singleton.
  - unfold h2. rewrite dom_alter_L, Hd. cbn. set_solver.
  - intros y [->|H]%elem_of_cons; [|by apply not_elem_of_nil in H]. apply (inv_fresh _ _ I). by left.
  - unfold kSkipListMaxLevel. lia.
  - constructor.
Qed.

(** ** The abstract list *)

(** Members with their scores, in order. *)
Abbreviation entries := (list (bytes * Z)).

Definition entry_before (a b : bytes * Z) : Prop := isBefore (snd a) (fst a) (snd b) (fst b) = true.

Definition same_entry (sc : Z) (m : bytes) (e : bytes * Z) : bool :=
  (Double.key (snd e) =? Double.key sc) && (fst e =b? m).

Fixpoint place (sc : Z) (m : bytes) (l : entries) : entries :=
  match l with
  | [] => [(m, sc)]
  | e :: l' => if isBefore (snd e) (fst e) sc m then e :: place sc m l' else (m, sc) :: l
  end.

Definition take_out (sc : Z) (m : bytes) (l : entries) : entries := List.filter (fun e => negb (same_entry sc m e)) l.

Fixpoint index_of (f : bytes * Z -> bool) (l : entries) : option nat :=
  match l with
  | [] => None
  | e :: l => if f e then Some 0%nat else S <$> index_of f l
  end.

Definition contents (T : list tower) : entries := map (fun x => (tm x, ts x)) T.

(** The skip list holds these entries. *)
Definition holds (s : t) (l : entries) : Prop := exists T, inv s T /\ contents T = l.

Lemma place_app sc m A B : (forall e, e ∈ A -> isBefore (snd e) (fst e) sc m = true) ->
  (forall e, e ∈ B -> isBefore (snd e) (fst e) sc m = false) -> place sc m (A ++ B) = A ++ (m, sc) :: B.
Proof.
  induction A as [|a A IH]; intros HA HB; cbn [app place].
  - destruct B as [|b B]; [done|]. cbn [place]. by rewrite HB by (by left).
  - rewrite HA by (by left). f_equal. apply IH; [|done]. intros; apply HA; by right.
Qed.

Lemma take_out_none sc m l : (forall e, e ∈ l -> same_entry sc m e = false) -> take_out sc m l = l.
Proof.
  unfold take_out. induction l as [|e l IH]; intros H; [done|]. cbn. rewrite H by (by left). cbn. f_equal. apply IH. intros; apply H; by right.
Qed.

Lemma elem_of_contents T e : e ∈ contents T <-> exists x, x ∈ T /\ e = (tm x, ts x).
Proof.
  unfold contents. rewrite list_elem_of_In, in_map_iff. setoid_rewrite <- list_elem_of_In. naive_solver.
Qed.

Lemma same_entry_true sc m e : same_entry sc m e = true <-> Double.key (snd e) = Double.key sc /\ fst e = m.
Proof. unfold same_entry. by rewrite andb_true_iff, Z.eqb_eq, bool_decide_eq_true. Qed.

Lemma holds_insert s l bits sc m : holds s l -> Double.ok sc -> Z.of_nat (length l) + 1 < 2 ^ 64 ->
  (forall e, e ∈ l -> same_entry sc m e = false) -> exists s', insert s bits sc m = Some s' /\ holds s' (place sc m l).
Proof.
  intros (T & I & <-) Hok Hroom Hnew. unfold contents in Hroom. rewrite length_map in Hroom.
  destruct (insert_spec s T bits sc m I Hok Hroom) as (s' & A & B & X & -> & HT & Hm & Hs & I').
  { intros x Hx Em Ek. specialize (Hnew (tm x, ts x)). apply not_true_iff_false in Hnew; [apply Hnew, same_entry_true; done|].
    apply elem_of_contents. eauto. }
  exists s'. split; [done|]. exists (A ++ X :: B). split; [done|]. subst T. unfold contents. rewrite !map_app. cbn [map].
  rewrite place_app; [by rewrite Hm, Hs|..].
  all: pose proof (inv_sorted _ _ I') as Hst; pose proof (inv_scores _ _ I') as Hsc; rewrite Forall_forall in Hsc.
  - intros e (x & Hx & ->)%elem_of_contents. cbn. rewrite <- Hm, <- Hs. eapply (StronglySorted_app_1_elem_of before); [exact Hst|done|by left].
  - intros e (x & Hx & ->)%elem_of_contents. cbn. apply StronglySorted_app_1_r, StronglySorted_cons in Hst as [Hb _].
    rewrite Forall_forall in Hb. specialize (Hb x Hx). unfold before in Hb. rewrite Hm, Hs in Hb.
    destruct (isBefore (ts x) (tm x) sc m) eqn:E; [|done]. exfalso.
    assert (Double.ok (ts x)) by (apply Hsc; set_solver).
    pose proof (isBefore_trans _ _ _ _ _ _ ltac:(done) Hok ltac:(done) E Hb) as Hxx. by rewrite isBefore_irrefl in Hxx.
Qed.

Lemma holds_remove s l sc m : holds s l -> Double.ok sc ->
  exists s', remove s sc m = Some (s', existsb (same_entry sc m) l) /\ holds s' (take_out sc m l).
Proof.
  intros (T & I & <-) Hok.
  destruct (node_remove_spec s T sc m I Hok) as [(A & X & B & s' & HT & Hm & Hk & -> & I')|[Hno ->]].
  - exists s'. assert (existsb (same_entry sc m) (contents T) = true) as ->.
    { apply existsb_exists. exists (tm X, ts X). split; [|by apply same_entry_true]. apply list_elem_of_In, elem_of_contents.
      exists X. split; [|done]. rewrite HT. set_solver. }
    split; [done|]. exists (A ++ B). split; [done|]. subst T. unfold contents, take_out. rewrite !map_app, List.filter_app. cbn [map List.filter].
    rewrite (proj2 (same_entry_true sc m (tm X, ts X))) by done. cbn [negb].
    assert (forall x, x ∈ A ++ B -> same_entry sc m (tm x, ts x) = false) as Hoth.
    { intros x Hx. apply not_true_iff_false. intros [Hkx Hmx]%same_entry_true. cbn in Hkx, Hmx.
      assert (X ∈ A ++ X :: B) as HX by set_solver. apply list_elem_of_lookup in HX as [q Hq].
      assert (x ∈ A ++ X :: B) as HxT by set_solver. apply list_elem_of_lookup in HxT as [p Hp].
      pose proof (inv_addrs _ _ I) as Hnd. apply NoDup_cons in Hnd as [_ Hnd].
      assert (p = q) as ->.
      { eapply (hit_unique s (A ++ X :: B) I); [exact Hq|]. exists x. split; [done|]. split; congruence. }
      rewrite Hq in Hp. injection Hp as <-. rewrite fmap_app, fmap_cons in Hnd. rewrite <- Permutation_middle in Hnd.
      apply NoDup_cons in Hnd as [Hnd _]. apply Hnd. rewrite <- fmap_app. apply list_elem_of_fmap. eauto. }
    f_equal; symmetry; apply take_out_none; intros e (x & Hx & ->)%elem_of_contents; apply Hoth; set_solver.
  - exists s. assert (forall e, e ∈ contents T -> same_entry sc m e = false) as Hnone.
    { intros e (x & Hx & ->)%elem_of_contents. apply not_true_iff_false. intros [Hkx Hmx]%same_entry_true. by apply (Hno x). }
    assert (existsb (same_entry sc m) (contents T) = false) as ->.
    { apply not_true_iff_false. rewrite existsb_exists. intros (e & He & Hs). apply list_elem_of_In, Hnone in He. congruence. }
    split; [done|]. rewrite take_out_none by done. by exists T.
Qed.

Lemma holds_clear s l : holds s l -> exists s', clear s = Some s' /\ holds s' [].
Proof. intros (T & I & _). destruct (clear_spec s T I) as (s' & -> & I'). exists s'. split; [done|]. by exists []. Qed.

Lemma holds_elements s l : holds s l -> elements s = Some l.
Proof. intros (T & I & <-). by apply elements_spec. Qed.

Lemma holds_size s l : holds s l -> size s = Z.of_nat (length l).
Proof. intros (T & I & <-). unfold size, contents. rewrite length_map. by destruct (inv_length _ _ I). Qed.

Lemma holds_sorted s l : holds s l -> StronglySorted entry_before l /\ forall e, e ∈ l -> Double.ok (snd e).
Proof.
  intros (T & I & <-). split.
  - pose proof (inv_sorted _ _ I) as Hs. clear I. unfold contents. induction Hs as [|x T' Hs IH Hx]; cbn; constructor; [done|].
    clear -Hx. induction Hx; cbn; constructor; done.
  - intros e (x & Hx & ->)%elem_of_contents. by apply (inv_ok s T).
Qed.

(** Everything that can be asked, answered from the entries. *)
Lemma index_of_spec f l :
  (exists q e, index_of f l = Some q /\ l !! q = Some e /\ f e = true /\ forall p e', (p < q)%nat -> l !! p = Some e' -> f e' = false) \/
  (index_of f l = None /\ forall e, e ∈ l -> f e = false).
Proof.
  induction l as [|e l IH]; [right; split; [done|]; intros e He; by apply not_elem_of_nil in He|]. cbn. destruct (f e) eqn:Hf.
  - left. exists 0%nat, e. split; [done|]. split; [done|]. split; [done|]. intros; lia.
  - destruct IH as [(q & e' & -> & Hq & Hfe & Hall)|[-> Hall]].
    + left. exists (S q), e'. split; [done|]. split; [done|]. split; [done|]. intros [|p] e2 Hp He2; [by injection He2 as <-|].
      apply (Hall p); [lia|done].
    + right. split; [done|]. intros e' [->|He']%elem_of_cons; auto.
Qed.

Lemma holds_rankOf s l sc m : holds s l -> Double.ok sc ->
  rankOf s sc m = Some (Z.of_nat <$> index_of (same_entry sc m) l).
Proof.
  intros (T & I & <-) Hok. assert (forall q, hit T sc m q <-> exists e, contents T !! q = Some e /\ same_entry sc m e = true) as Hhit.
  { intros q. unfold contents. setoid_rewrite same_entry_true.
    assert (map (fun x => (tm x, ts x)) T !! q = (fun x => (tm x, ts x)) <$> T !! q) as -> by apply (list_lookup_fmap (fun x => (tm x, ts x))).
    unfold hit. destruct (T !! q) as [x|]; cbn; naive_solver. }
  destruct (index_of_spec (same_entry sc m) (contents T)) as [(q & e & -> & He & Hfe & _)|[-> Hall]].
  - assert (hit T sc m q) as Hq by (apply Hhit; eauto). destruct (rankOf_spec s T I sc m Hok) as [(p & -> & Hp)|[_ Hno]]; [|by destruct (Hno q)].
    cbn. do 3 f_equal. destruct Hp as (y & Hy & Em & Ek), Hq as (x & Hx & Em' & Ek').
    apply (hit_unique s T I q x Hx). exists y. split; [done|]. split; congruence.
  - destruct (rankOf_spec s T I sc m Hok) as [(p & -> & Hp)|[-> _]]; [|done]. apply Hhit in Hp as (e & He & Hfe).
    apply list_elem_of_lookup_2, Hall in He. congruence.
Qed.

Lemma holds_nodeByRank s l k : holds s l -> exists o, nodeByRank s (Z.of_nat k) = Some o /\
  match o with
  | Some x => exists n, heap s !! x = Some n /\ l !! k = Some (member n, score n)
  | None => l !! k = None
  end.
Proof.
  intros (T & I & <-). exists (addr <$> T !! k). split; [by apply nodeByRank_spec|]. unfold contents.
  assert (map (fun x => (tm x, ts x)) T !! k = (fun x => (tm x, ts x)) <$> T !! k) as -> by apply (list_lookup_fmap (fun x => (tm x, ts x))).
  destruct (T !! k) as [x|] eqn:Hx; cbn; [|done]. destruct (node_lookup s T I _ _ Hx) as (n & Hn & Em & Es & _).
  exists n. by rewrite Em, Es.
Qed.

Lemma filter_contents f T : List.filter (fun e : bytes * Z => f (snd e)) (contents T) = contents (List.filter (fun x => f (ts x)) T).
Proof.
  induction T as [|x T IH]; [done|]. cbn [contents map List.filter snd]. fold (contents T). rewrite IH.
  by destruct (f (ts x)).
Qed.

Lemma holds_countInRange s l r : holds s l -> range_ok r ->
  countInRange s r = Some (Z.of_nat (length (List.filter (fun e => containsScore r (snd e)) l))).
Proof.
  intros (T & I & <-) Hr. destruct (range_split s T I r Hr) as (A & M & C & HT & HA & HM & HC).
  rewrite (countInRange_spec s T I r Hr A M C) by done. rewrite (filter_contents (containsScore r)).
  rewrite (range_members s T I r A M C) by done. unfold contents. by rewrite length_map.
Qed.

(** *** Sequences of operations *)

Inductive op :=
  | OInsert (bits : nat -> Z) (sc : Z) (m : bytes) | ORemove (sc : Z) (m : bytes)
  | OUpdate (bits : nat -> Z) (old_score : Z) (m : bytes) (new_score : Z) | OClear.

Definition exec (s : t) (o : op) : option (t * bool) :=
  match o with
  | OInsert bits sc m => s ← insert s bits sc m; Some (s, true)
  | ORemove sc m => remove s sc m
  | OUpdate bits old_score m new_score => updateScore s bits old_score m new_score
  | OClear => s ← clear s; Some (s, true)
  end.

Definition spec_exec (l : entries) (o : op) : entries * bool :=
  match o with
  | OInsert _ sc m => (place sc m l, true)
  | ORemove sc m => (take_out sc m l, existsb (same_entry sc m) l)
  | OUpdate _ old_score m new_score =>
      if existsb (same_entry old_score m) l then (place new_score m (take_out old_score m l), true) else (take_out old_score m l, false)
  | OClear => ([], true)
  end.

(** The contract of the class: scores are not NaN and what is inserted is not
    there yet. *)
Definition op_ok (l : entries) (o : op) : bool :=
  let score_ok d := bool_decide (is_u64 d) && negb (Double.isnan d) in
  match o with
  | OInsert _ sc m => score_ok sc && negb (existsb (same_entry sc m) l)
  | ORemove sc _ => score_ok sc
  | OUpdate _ old_score m new_score =>
      score_ok old_score && score_ok new_score && negb (existsb (same_entry new_score m) (take_out old_score m l))
  | OClear => true
  end.

Fixpoint run (s : t) (os : list op) : option (t * list bool) :=
  match os with
  | [] => Some (s, [])
  | o :: os => '(s, b) ← exec s o; '(s, bs) ← run s os; Some (s, b :: bs)
  end.

(** [None] when an operation breaks the contract. *)
Fixpoint spec_run (l : entries) (os : list op) : option (entries * list bool) :=
  match os with
  | [] => Some (l, [])
  | o :: os =>
      if op_ok l o then let '(l, b) := spec_exec l o in '(l, bs) ← spec_run l os; Some (l, b :: bs)
      else None
  end.

Lemma score_ok_true d : bool_decide (is_u64 d) && negb (Double.isnan d) = true -> Double.ok d.
Proof. intros H. bools. done. Qed.

Lemma not_existsb {C} (f : C -> bool) l : negb (existsb f l) = true -> forall e, e ∈ l -> f e = false.
Proof.
  intros H e He. apply negb_true_iff, not_true_iff_false in H. apply not_true_iff_false. intros Hf. apply H, existsb_exists.
  exists e. split; [by apply list_elem_of_In|done].
Qed.

Lemma length_take_out sc m l : (length (take_out sc m l) <= length l)%nat.
Proof. unfold take_out. induction l as [|e l IH]; [done|]. cbn. destruct (negb (same_entry sc m e)); cbn; lia. Qed.

Lemma length_place sc m l : length (place sc m l) = S (length l).
Proof. induction l as [|e l IH]; [done|]. cbn. destruct (isBefore (snd e) (fst e) sc m); cbn; lia. Qed.

Lemma exec_refines s l o : holds s l -> op_ok l o = true -> Z.of_nat (length l) + 1 < 2 ^ 64 ->
  exists s', exec s o = Some (s', (spec_exec l o).2) /\ holds s' (spec_exec l o).1 /\
    (length (spec_exec l o).1 <= S (length l))%nat.
Proof.
  intros Hs Hok Hroom. destruct o as [bits sc m|sc m|bits sc m sc'|]; cbn [op_ok exec spec_exec] in *.
  - apply andb_true_iff in Hok as [Hsc Hnew]. apply score_ok_true in Hsc.
    destruct (holds_insert s l bits sc m Hs Hsc Hroom (not_existsb _ _ Hnew)) as (s' & -> & Hs'). exists s'.
    split; [done|]. split; [done|]. cbn. by rewrite length_place.
  - apply score_ok_true in Hok. destruct (holds_remove s l sc m Hs Hok) as (s' & -> & Hs'). exists s'.
    split; [done|]. split; [done|]. cbn. pose proof (length_take_out sc m l). lia.
  - apply andb_true_iff in Hok as [Hok Hnew]. apply andb_true_iff in Hok as [Hsc Hsc'].
    apply score_ok_true in Hsc, Hsc'. unfold updateScore. pose proof (length_take_out sc m l) as Hlen.
    destruct (holds_remove s l sc m Hs Hsc) as (s1 & -> & Hs1). cbn [mbind option_bind].
    destruct (existsb (same_entry sc m) l).
    + destruct (holds_insert s1 _ bits sc' m Hs1 Hsc') as (s' & -> & Hs'); [lia|by apply not_existsb|].
      exists s'. split; [done|]. split; [done|]. cbn. rewrite length_place. lia.
    + exists s1. split; [done|]. split; [done|]. cbn. lia.
  - destruct (holds_clear s l Hs) as (s' & -> & Hs'). exists s'. split; [done|]. split; [done|]. cbn. lia.
Qed.

Lemma run_refines os s l l' bs : holds s l -> spec_run l os = Some (l', bs) ->
  Z.of_nat (length l) + Z.of_nat (length os) < 2 ^ 64 -> exists s', run s os = Some (s', bs) /\ holds s' l'.
Proof.
  revert s l bs. induction os as [|o os IH]; intros s l bs Hs Hrun Hroom; cbn [run spec_run length] in *.
  { injection Hrun as <- <-. eauto. }
  destruct (op_ok l o) eqn:Hok; [|done]. destruct (exec_refines s l o Hs Hok) as (s1 & -> & Hs1 & Hlen); [lia|].
  destruct (spec_exec l o) as [l1 b]. cbn [fst snd mbind option_bind] in *.
  destruct (spec_run l1 os) as [[l2 bs']|] eqn:E; [|done]. cbn in Hrun. injection Hrun as <- <-.
  destruct (IH s1 l1 bs' Hs1 E) as (s' & -> & Hs'); [lia|]. by exists s'.
Qed.

(** C25: A skip list is an ordered list that can be entered anywhere. Through every
    sequence of insertions, removals, rescorings and clears that keeps the
    class's contract, whatever heights the nodes draw, no pointer is followed
    wrongly, every call returns what it returns on a plain list ordered by
    score and then member, and afterwards the bottom level is that list; rank,
    access by rank and counting a score range, which all jump over nodes and
    add up spans, agree with it. *)
Theorem skiplist_refines_sorted_list (os : list op) (l : entries) (bs : list bool) :
  spec_run [] os = Some (l, bs) -> Z.of_nat (length os) < 2 ^ 64 ->
  exists s, run new os = Some (s, bs) /\ elements s = Some l /\ size s = Z.of_nat (length l) /\
    StronglySorted entry_before l /\
    (forall sc m, Double.ok sc -> rankOf s sc m = Some (Z.of_nat <$> index_of (same_entry sc m) l)) /\
    (forall k, exists o, nodeByRank s (Z.of_nat k) = Some o /\
       match o with
       | Some x => exists n, heap s !! x = Some n /\ l !! k = Some (member n, score n)
       | None => l !! k = None
       end) /\
    (forall r, range_ok r ->
       countInRange s r = Some (Z.of_nat (length (List.filter (fun e => containsScore r (snd e)) l)))).
Proof.
  intros Hrun Hlen. assert (holds new []) as Hnew by (exists []; split; [apply new_inv|done]).
  destruct (run_refines os new [] l bs Hnew Hrun) as (s & Hs & Hh); [cbn; lia|].
  exists s. split; [done|]. split; [by apply holds_elements|]. split; [by apply holds_size|].
  split; [by apply (holds_sorted s)|]. split; [intros; by apply holds_rankOf|]. split; [intros; by apply holds_nodeByRank|].
  intros. by apply holds_countInRange.
Qed.

(** 1.0, 2.0 and 3.0 *)
Definition one : Z := 0x3FF0000000000000.
Definition two : Z := 0x4000000000000000.
Definition three : Z := 0x4008000000000000.

Definition sample_session : list op :=
  [OInsert (fun k => if (k <? 3)%nat then 0 else 0xFFFF) two (str "b"); OInsert (fun _ => 0xFFFF) one (str "c");
   OInsert (fun k => if (k <? 1)%nat then 0 else 0xFFFF) two (str "a"); OUpdate (fun _ => 0xFFFF) one (str "c") three;
   ORemove one (str "c")].

Lemma skiplist_refines_sorted_list_witness :
  exists s, run new sample_session = Some (s, [true; true; true; true; false]) /\
    elements s = Some [(str "a", two); (str "b", two); (str "c", three)].
Proof.
  destruct (skiplist_refines_sorted_list sample_session [(str "a", two); (str "b", two); (str "c", three)]
              [true; true; true; true; false]) as (s & H1 & H2 & _); [vm_compute; reflexivity|vm_compute; reflexivity|].
  exists s. split; assumption.
Defined.

End SkipList.
