(* ===== verification/Strings.v ===== *)
(** * Strings: case folding and the glob matcher

    [src/core/strings.h] and [src/core/strings.cpp]. [globMatch] is the
    iterative matcher behind KEYS, SCAN MATCH, PSUBSCRIBE and keyspace
    notification patterns: it keeps one backtracking point (the last ['*'])
    instead of recursing. The specification is a grammar: [tokenize] splits a
    pattern into tokens and [ref_match] is their language. *)

From Stdlib Require Import ZArith Lia.
From stdpp Require Import base list numbers strings.
From S2P Require Import Prelude.

(** [std::tolower] and [std::toupper] of an [unsigned char] in the C locale. *)
Definition tolower (c : Z) : Z := if (65 <=? c) && (c <=? 90) then c + 32 else c.
Definition toupper (c : Z) : Z := if (97 <=? c) && (c <=? 122) then c - 32 else c.

Definition toLower (s : bytes) : bytes := map tolower s.
Definition toUpper (s : bytes) : bytes := map toupper s.

Fixpoint same_folded (a b : bytes) : bool :=
  match a, b with
  | x :: a, y :: b => if negb (tolower x =? tolower y) then false else same_folded a b
  | _, _ => true
  end.

Definition equalsIgnoreCase (a b : bytes) : bool :=
  if negb (length a =? length b)%nat then false else same_folded a b.

Module Glob.
Section Glob.

(** Whether plain [char] is signed is implementation-defined; it decides how
    the two ends of a [[a-b]] range compare. Nothing below depends on it. *)
Variable char_signed : bool.
Variable case_insensitive : bool.

Definition char_val (c : Z) : Z := if char_signed && (128 <=? c) then c - 256 else c.
Definition fold (c : Z) : Z := if case_insensitive then tolower c else c.

(** ** The matcher *)

Record gstate := GState { gp : nat; gt : nat; star_p : option nat; star_t : nat }.

(** [while (p + 1 < pattern.size() && pattern[p + 1] == '*') ++p;] *)
Fixpoint collapse (fuel : nat) (pattern : bytes) (p : nat) : nat :=
  match fuel with
  | O => p
  | S fuel =>
      if (p + 1 <? length pattern)%nat && (pattern !!! (p + 1)%nat =? 42)
      then collapse fuel pattern (p + 1) else p
  end.

(** The scan of a bracket expression from [cursor] to its [']'] or the end. *)
Fixpoint bracket (fuel : nat) (pattern : bytes) (tc : Z) (cursor : nat) (matched : bool)
    : nat * bool :=
  match fuel with
  | O => (cursor, matched)
  | S fuel =>
      if (cursor <? length pattern)%nat && negb (pattern !!! cursor =? 93) then
        let '(cursor, matched) :=
          if (pattern !!! cursor =? 92) && (cursor + 1 <? length pattern)%nat then
            ((cursor + 1)%nat,
             if fold (pattern !!! (cursor + 1)%nat) =? fold tc then true else matched)
          else if (cursor + 2 <? length pattern)%nat &&
                  (pattern !!! (cursor + 1)%nat =? 45) &&
                  negb (pattern !!! (cursor + 2)%nat =? 93) then
            let lo0 := char_val (fold (pattern !!! cursor)) in
            let hi0 := char_val (fold (pattern !!! (cursor + 2)%nat)) in
            let '(lo, hi) := if hi0 <? lo0 then (hi0, lo0) else (lo0, hi0) in
            ((cursor + 2)%nat,
             if (lo <=? char_val (fold tc)) && (char_val (fold tc) <=? hi)
             then true else matched)
          else
            (cursor, if fold (pattern !!! cursor) =? fold tc then true else matched)
        in bracket fuel pattern tc (cursor + 1) matched
      else (cursor, matched)
  end.

(** One iteration of the outer loop: the next state, or the answer. *)
Definition glob_step (pattern target : bytes) (s : gstate) : gstate + bool :=
  let p := gp s in
  let t := gt s in
  let mismatch :=
    match star_p s with
    | Some sp => inl (GState (sp + 1) (star_t s + 1) (Some sp) (star_t s + 1))
    | None => inr false
    end in
  let advance p' := inl (GState p' (t + 1) (star_p s) (star_t s)) in
  if (p <? length pattern)%nat then
    let pc := pattern !!! p in
    if pc =? 42 then
      let p' := collapse (length pattern) pattern p in
      inl (GState (p' + 1) t (Some p') t)
    else if pc =? 63 then advance (p + 1)%nat
    else if pc =? 91 then
      let negate := (p + 1 <? length pattern)%nat && (pattern !!! (p + 1)%nat =? 94) in
      let cursor := if negate then (p + 2)%nat else (p + 1)%nat in
      let '(cursor, matched) := bracket (length pattern) pattern (target !!! t) cursor false in
      if (cursor <? length pattern)%nat then
        let matched := if negate then negb matched else matched in
        if matched then advance (cursor + 1)%nat else mismatch
      else mismatch
    else
      let escaped := (pc =? 92) && (p + 1 <? length pattern)%nat in
      let literal := if escaped then pattern !!! (p + 1)%nat else pc in
      let adv := if escaped then 2%nat else 1%nat in
      if fold literal =? fold (target !!! t) then advance (p + adv)%nat else mismatch
  else mismatch.

(** [while (p < pattern.size() && pattern[p] == '*') ++p;] *)
Fixpoint skip_stars (fuel : nat) (pattern : bytes) (p : nat) : nat :=
  match fuel with
  | O => p
  | S fuel =>
      if (p <? length pattern)%nat && (pattern !!! p =? 42)
      then skip_stars fuel pattern (p + 1) else p
  end.

Fixpoint glob_loop (fuel : nat) (pattern target : bytes) (s : gstate) : option bool :=
  match fuel with
  | O => None
  | S fuel =>
      if (gt s <? length target)%nat then
        match glob_step pattern target s with
        | inl s' => glob_loop fuel pattern target s'
        | inr b => Some b
        end
      else Some (skip_stars (length pattern) pattern (gp s) =? length pattern)%nat
  end.

(** An upper bound on the number of iterations: each one either moves [star_t]
    forward or moves [p] forward with [star_t] unchanged. *)
Definition glob_fuel (pattern target : bytes) : nat :=
  S (length target * (length pattern + 2) + length pattern).

Definition globMatch (pattern target : bytes) : option bool :=
  glob_loop (glob_fuel pattern target) pattern target (GState 0 0 None 0).

(** ** The specification: glob patterns as token lists *)

Inductive item := ILit (c : Z) | IRange (a b : Z).
Inductive tok := TStar | TAny | TSet (negate : bool) (items : list item) | TLit (c : Z) | TNever.

(** The body of a bracket expression up to its [']'], and what follows it. *)
Fixpoint parse_set (l : bytes) : option (list item * bytes) :=
  match l with
  | [] => None
  | a :: r =>
      if a =? 93 then Some ([], r)
      else match r with
      | b :: r1 =>
          if a =? 92 then prod_map (cons (ILit b)) id <$> parse_set r1
          else match r1 with
          | c :: r2 =>
              if (b =? 45) && negb (c =? 93)
              then prod_map (cons (IRange a c)) id <$> parse_set r2
              else prod_map (cons (ILit a)) id <$> parse_set r
          | [] => prod_map (cons (ILit a)) id <$> parse_set r
          end
      | [] => prod_map (cons (ILit a)) id <$> parse_set r
      end
  end.

Fixpoint tokenize_fuel (fuel : nat) (pat : bytes) : list tok :=
  match fuel, pat with
  | O, _ | _, [] => []
  | S fuel, c :: r =>
      if c =? 42 then TStar :: tokenize_fuel fuel r
      else if c =? 63 then TAny :: tokenize_fuel fuel r
      else if c =? 91 then
        let negate := match r with d :: _ => d =? 94 | [] => false end in
        match parse_set (if negate then tail r else r) with
        | Some (items, rest) => TSet negate items :: tokenize_fuel fuel rest
        | None => [TNever]
        end
      else match r with
      | d :: r' =>
          if c =? 92 then TLit d :: tokenize_fuel fuel r' else TLit c :: tokenize_fuel fuel r
      | [] => [TLit c]
      end
  end.

Definition tokenize (pat : bytes) : list tok := tokenize_fuel (length pat) pat.

Definition item_match (tc : Z) (i : item) : bool :=
  match i with
  | ILit c => fold c =? fold tc
  | IRange a b =>
      let va := char_val (fold a) in
      let vb := char_val (fold b) in
      let vt := char_val (fold tc) in
      (Z.min va vb <=? vt) && (vt <=? Z.max va vb)
  end.

(** Does a token other than ['*'] accept the character [tc]? *)
Definition tok_match (k : tok) (tc : Z) : bool :=
  match k with
  | TAny => true
  | TSet negate items => xorb negate (existsb (item_match tc) items)
  | TLit c => fold c =? fold tc
  | TNever | TStar => false
  end.

Fixpoint ref_match (ks : list tok) : bytes -> bool :=
  match ks with
  | [] => fun cs => bool_decide (cs = [])
  | TStar :: ks =>
      fix star cs := ref_match ks cs || match cs with [] => false | _ :: cs => star cs end
  | k :: ks => fun cs => match cs with [] => false | c :: cs => tok_match k c && ref_match ks cs end
  end.

(** ** Facts about the grammar *)

Lemma list_length_ind (P : bytes -> Prop) :
  (forall l, (forall l', (length l' < length l)%nat -> P l') -> P l) -> forall l, P l.
Proof.
  intros H l. remember (length l) as n eqn:E. revert l E.
  induction n as [n IH] using lt_wf_ind. intros l ->. apply H. eauto.
Qed.

Lemma parse_set_shorter l items rest :
  parse_set l = Some (items, rest) -> (length rest < length l)%nat.
Proof.
  revert items rest. induction l as [l IH] using list_length_ind. intros items rest.
  destruct l as [|a r]; [done|]. simpl.
  assert (Hrec : forall l' i, (length l' < length (a :: r))%nat ->
    prod_map (cons i) id <$> parse_set l' = Some (items, rest) ->
    (length rest < S (length r))%nat).
  { intros l' i Hl. destruct (parse_set l') as [[is' r']|] eqn:E; [|done].
    intros [= _ <-]. apply IH in E; simpl in *; lia. }
  destruct (a =? 93); [intros [= _ <-]; lia|].
  destruct r as [|b r1]; [done|].
  destruct (a =? 92); [apply Hrec; simpl; lia|].
  destruct r1 as [|c r2]; [apply Hrec; simpl; lia|].
  destruct ((b =? 45) && negb (c =? 93)); apply Hrec; simpl; lia.
Qed.

Lemma tokenize_fuel_enough f1 f2 l :
  (length l <= f1)%nat -> (length l <= f2)%nat -> tokenize_fuel f1 l = tokenize_fuel f2 l.
Proof.
  revert f2 l. induction f1 as [|f1 IH]; intros [|f2] [|c r] H1 H2; simpl in *; try done; try lia.
  destruct (c =? 42); [f_equal; apply IH; lia|].
  destruct (c =? 63); [f_equal; apply IH; lia|].
  destruct (c =? 91).
  - set (r' := if match r with [] => false | d :: _ => d =? 94 end then tail r else r).
    assert (length r' <= length r)%nat by (unfold r'; destruct r; simpl; [done|case_if; simpl; lia]).
    destruct (parse_set r') as [[items rest]|] eqn:E; [|done].
    apply parse_set_shorter in E. f_equal. apply IH; lia.
  - destruct r as [|d r']; [done|]. simpl in *. destruct (c =? 92); f_equal; apply IH; simpl; lia.
Qed.

(** The recursion equation of [tokenize]. *)
Lemma tokenize_cons c r :
  tokenize (c :: r) =
    if c =? 42 then TStar :: tokenize r
    else if c =? 63 then TAny :: tokenize r
    else if c =? 91 then
      let negate := match r with d :: _ => d =? 94 | [] => false end in
      match parse_set (if negate then tail r else r) with
      | Some (items, rest) => TSet negate items :: tokenize rest
      | None => [TNever]
      end
    else match r with
    | d :: r' => if c =? 92 then TLit d :: tokenize r' else TLit c :: tokenize r
    | [] => [TLit c]
    end.
Proof.
  unfold tokenize. cbn [length tokenize_fuel].
  destruct (c =? 42); [done|]. destruct (c =? 63); [done|]. destruct (c =? 91).
  - cbv zeta. set (r' := if match r with [] => false | d :: _ => d =? 94 end then tail r else r).
    assert (length r' <= length r)%nat by (unfold r'; destruct r; simpl; [done|case_if; simpl; lia]).
    destruct (parse_set r') as [[items rest]|] eqn:E; [|done].
    apply parse_set_shorter in E. f_equal. apply tokenize_fuel_enough; lia.
  - destruct r as [|d r']; [done|].
    destruct (c =? 92); f_equal; apply tokenize_fuel_enough; simpl; lia.
Qed.

Lemma ref_match_star ks cs :
  ref_match (TStar :: ks) cs =
    ref_match ks cs || match cs with [] => false | _ :: cs => ref_match (TStar :: ks) cs end.
Proof. by destruct cs. Qed.

Lemma ref_match_tok k ks cs :
  k <> TStar ->
  ref_match (k :: ks) cs =
    match cs with [] => false | c :: cs => tok_match k c && ref_match ks cs end.
Proof. by destruct k. Qed.

(** ['*'] absorbs any prefix. *)
Lemma ref_match_star_drop ks n cs :
  ref_match (TStar :: ks) (drop n cs) = true -> ref_match (TStar :: ks) cs = true.
Proof.
  revert cs. induction n as [|n IH]; intros cs; [by rewrite drop_0|].
  destruct cs as [|c cs]; [done|]. simpl drop. intros H%IH.
  rewrite ref_match_star, H. apply orb_true_r.
Qed.

Lemma ref_match_star_inv ks cs :
  ref_match (TStar :: ks) cs = true -> exists n, ref_match ks (drop n cs) = true.
Proof.
  induction cs as [|c cs IH]; rewrite ref_match_star; intros [H|H]%orb_true_iff; try done.
  - by exists 0%nat.
  - by exists 0%nat; rewrite drop_0.
  - destruct (IH H) as [n Hn]. by exists (S n).
Qed.

Lemma ref_match_star_star ks cs :
  ref_match (TStar :: TStar :: ks) cs = ref_match (TStar :: ks) cs.
Proof.
  apply eq_true_iff_eq. split.
  - intros [n Hn]%ref_match_star_inv. by apply ref_match_star_drop in Hn.
  - intros H. rewrite ref_match_star. by rewrite H.
Qed.

Section Correct.
Variables pattern target : bytes.

(** The tokens from position [p] on, and whether they match the target from
    position [t] on. *)
Abbreviation T p := (tokenize (drop p pattern)).
Abbreviation M p t := (ref_match (T p) (drop t target)).

Lemma drop_at (l : bytes) (i j : nat) :
  (i < length l)%nat -> j = S i -> drop i l = l !!! i :: drop j l.
Proof.
  intros H ->. apply drop_S. by apply list_lookup_lookup_total_lt.
Qed.

Ltac cursors := repeat match goal with
  | |- context [(?a + 1 + 1)%nat] => replace (a + 1 + 1)%nat with (a + 2)%nat by lia
  | |- context [(?a + 2 + 1)%nat] => replace (a + 2 + 1)%nat with (a + 3)%nat by lia
  end.

Lemma T_star p :
  (p < length pattern)%nat -> pattern !!! p = 42 -> T p = TStar :: T (p + 1).
Proof. intros Hp Hc. by rewrite (drop_at _ p (p + 1)), tokenize_cons, Hc by (done || lia). Qed.

Lemma collapse_spec fuel p :
  (p < length pattern)%nat -> pattern !!! p = 42 ->
  let p' := collapse fuel pattern p in
  (p <= p' < length pattern)%nat /\ T p' = TStar :: T (p' + 1) /\
  forall t, M p t = M p' t.
Proof.
  revert p. induction fuel as [|fuel IH]; intros p Hp Hc; simpl.
  { split; [lia|]. split; [by apply T_star|done]. }
  destruct (_ && _) eqn:E; bools.
  - destruct (IH (p + 1)%nat) as (Hr & Ht & He); [lia|done|].
    split; [lia|]. split; [done|]. intros t. rewrite <- He.
    rewrite (T_star p), (T_star (p + 1)) by (lia || done).
    apply ref_match_star_star.
  - split; [lia|]. split; [by apply T_star|done].
Qed.

Lemma range_test lo hi v :
  (let '(a, b) := if hi <? lo then (hi, lo) else (lo, hi) in (a <=? v) && (v <=? b))
  = (Z.min lo hi <=? v) && (v <=? Z.max lo hi).
Proof.
  destruct (Z.ltb_spec hi lo).
  - by rewrite Z.min_r, Z.max_l by lia.
  - by rewrite Z.min_l, Z.max_r by lia.
Qed.

(** The index-based bracket scan computes what [parse_set] reads off the
    suffix: the closing bracket's position and the disjunction of its items. *)
Lemma bracket_spec fuel tc cursor m :
  (cursor <= length pattern <= cursor + fuel)%nat ->
  match parse_set (drop cursor pattern) with
  | Some (items, rest) => exists c',
      bracket fuel pattern tc cursor m = (c', m || existsb (item_match tc) items) /\
      (cursor <= c' < length pattern)%nat /\ rest = drop (c' + 1) pattern
  | None => exists c' m', bracket fuel pattern tc cursor m = (c', m') /\ (length pattern <= c')%nat
  end.
Proof.
  revert cursor m. induction fuel as [|fuel IH]; intros cursor m Hf.
  { rewrite drop_ge by lia. simpl. eexists _, _. split; [done|]. lia. }
  simpl bracket.
  destruct (Nat.ltb_spec cursor (length pattern)) as [Hlt|Hge]; simpl andb.
  2: { rewrite drop_ge by lia. simpl. eexists _, _. split; [done|]. lia. }
  rewrite (drop_at pattern cursor (cursor + 1)) by lia. simpl parse_set.
  set (a := pattern !!! cursor).
  destruct (Z.eqb_spec a 93) as [|Ha]; simpl negb.
  { exists cursor. simpl. rewrite orb_false_r. split; [done|]. split; [lia|done]. }
  assert (Hrec : forall c1 m1 i, (cursor < c1 <= length pattern)%nat ->
    m1 = item_match tc i || m ->
    match prod_map (cons i) id <$> parse_set (drop c1 pattern) with
    | Some (items, rest) => exists c',
        bracket fuel pattern tc c1 m1 = (c', m || existsb (item_match tc) items) /\
        (cursor <= c' < length pattern)%nat /\ rest = drop (c' + 1) pattern
    | None => exists c' m',
        bracket fuel pattern tc c1 m1 = (c', m') /\ (length pattern <= c')%nat
    end).
  { intros c1 m1 i Hc1 ->. specialize (IH c1 (item_match tc i || m) ltac:(lia)).
    destruct (parse_set (drop c1 pattern)) as [[items rest]|]; simpl.
    - destruct IH as (c' & -> & Hr & ->). exists c'. split; [|split; [lia|done]].
      f_equal. by rewrite (orb_comm _ m), orb_assoc.
    - destruct IH as (c' & m' & -> & Hr). eauto. }
  destruct (Nat.ltb_spec (cursor + 1) (length pattern)) as [H1|H1].
  2: { rewrite !(drop_ge pattern (cursor + 1)) by lia.
       destruct (Nat.ltb_spec (cursor + 2) (length pattern)); [lia|].
       rewrite andb_false_r. cbn [andb].
       specialize (Hrec (cursor + 1)%nat _ (ILit a) ltac:(lia) eq_refl).
       by rewrite (drop_ge pattern (cursor + 1)) in Hrec by lia. }
  rewrite !(drop_at pattern (cursor + 1) (cursor + 2)) by lia.
  rewrite andb_true_r. destruct (Z.eqb_spec a 92).
  { cursors. apply (Hrec (cursor + 2)%nat _ (ILit (pattern !!! (cursor + 1)%nat))); [lia|done]. }
  destruct (Nat.ltb_spec (cursor + 2) (length pattern)) as [H2|H2].
  2: { rewrite !(drop_ge pattern (cursor + 2)) by lia. cbn [andb].
       specialize (Hrec (cursor + 1)%nat _ (ILit a) ltac:(lia) eq_refl).
       by rewrite (drop_at pattern (cursor + 1) (cursor + 2)),
         (drop_ge pattern (cursor + 2)) in Hrec by lia. }
  rewrite !(drop_at pattern (cursor + 2) (cursor + 3)) by lia.
  cbn [andb]. destruct (_ && _) eqn:E.
  - pose proof (range_test (char_val (fold a)) (char_val (fold (pattern !!! (cursor + 2)%nat)))
      (char_val (fold tc))) as Hr.
    destruct (_ <? _); cursors;
      (apply (Hrec (cursor + 3)%nat _ (IRange a (pattern !!! (cursor + 2)%nat))); [lia|]);
      unfold item_match; rewrite <- Hr; done.
  - specialize (Hrec (cursor + 1)%nat _ (ILit a) ltac:(lia) eq_refl).
    by rewrite (drop_at pattern (cursor + 1) (cursor + 2)),
      (drop_at pattern (cursor + 2) (cursor + 3)) in Hrec by lia.
Qed.

(** At a position holding a token other than ['*'], one iteration tests that
    token against the current character. *)
Lemma glob_step_tok s :
  (gp s < length pattern)%nat -> pattern !!! gp s <> 42 -> (gt s < length target)%nat ->
  exists k p', (gp s < p' <= length pattern)%nat /\ k <> TStar /\
    (T (gp s) = k :: T p' \/ (k = TNever /\ T (gp s) = [k])) /\
    glob_step pattern target s =
      if tok_match k (target !!! gt s)
      then inl (GState p' (gt s + 1) (star_p s) (star_t s))
      else match star_p s with
           | Some sp => inl (GState (sp + 1) (star_t s + 1) (Some sp) (star_t s + 1))
           | None => inr false
           end.
Proof.
  destruct s as [p t sp st]. cbn [gp gt star_p star_t]. intros Hp Hns Ht.
  unfold glob_step. cbn [gp gt star_p star_t].
  destruct (Nat.ltb_spec p (length pattern)); [|lia].
  rewrite (drop_at pattern p (p + 1)) by lia. rewrite tokenize_cons.
  set (pc := pattern !!! p). destruct (Z.eqb_spec pc 42); [done|].
  destruct (Z.eqb_spec pc 63).
  { exists TAny, (p + 1)%nat. repeat split; auto; lia. }
  destruct (Z.eqb_spec pc 91).
  - set (neg := match drop (p + 1) pattern with [] => false | d :: _ => d =? 94 end).
    assert (Hneg : (p + 1 <? length pattern)%nat && (pattern !!! (p + 1)%nat =? 94) = neg).
    { unfold neg. destruct (Nat.ltb_spec (p + 1) (length pattern)).
      - by rewrite (drop_at pattern (p + 1) (p + 2)) by lia.
      - by rewrite drop_ge by lia. }
    rewrite Hneg. cbv zeta.
    set (c0 := if neg then (p + 2)%nat else (p + 1)%nat).
    assert (Hc0 : (if neg then tail (drop (p + 1) pattern) else drop (p + 1) pattern) = drop c0 pattern /\
                  (p < c0 <= length pattern)%nat).
    { unfold c0. destruct neg eqn:En; [|split; [done|lia]]. bools.
      rewrite (drop_at pattern (p + 1) (p + 2)) by lia. split; [done|lia]. }
    destruct Hc0 as [Hc0 Hc0r]. rewrite Hc0.
    pose proof (bracket_spec (length pattern) (target !!! t) c0 false ltac:(lia)) as Hb.
    destruct (parse_set (drop c0 pattern)) as [[items rest]|].
    + destruct Hb as (c' & -> & Hr & ->). destruct (Nat.ltb_spec c' (length pattern)); [|lia].
      exists (TSet neg items), (c' + 1)%nat. split; [lia|]. split; [done|]. split; [by left|].
      simpl. by destruct neg, (existsb _ items).
    + destruct Hb as (c' & m' & -> & Hr). destruct (Nat.ltb_spec c' (length pattern)); [lia|].
      exists TNever, (p + 1)%nat. split; [lia|]. split; [done|]. split; [by right|]. done.
  - destruct (Nat.ltb_spec (p + 1) (length pattern)).
    + rewrite !(drop_at pattern (p + 1) (p + 2)) by lia.
      rewrite andb_true_r. destruct (Z.eqb_spec pc 92).
      * eexists (TLit _), (p + 2)%nat. split; [lia|]. split; [done|]. split; [by left|]. done.
      * eexists (TLit _), (p + 1)%nat. split; [lia|]. split; [done|]. split; [|done].
        left. by rewrite (drop_at pattern (p + 1) (p + 2)) by lia.
    + rewrite !(drop_ge pattern (p + 1)), andb_false_r by lia.
      exists (TLit pc), (p + 1)%nat. split; [lia|]. split; [done|]. split; [|done].
      left. by rewrite drop_ge by lia.
Qed.

Lemma glob_step_end s :
  (length pattern <= gp s)%nat ->
  glob_step pattern target s =
    match star_p s with
    | Some sp => inl (GState (sp + 1) (star_t s + 1) (Some sp) (star_t s + 1))
    | None => inr false
    end.
Proof. intros H. unfold glob_step. by destruct (Nat.ltb_spec (gp s) (length pattern)); [lia|]. Qed.

Lemma tokenize_nonstar c r :
  c <> 42 -> exists k ks, tokenize (c :: r) = k :: ks /\ k <> TStar.
Proof.
  intros Hc. rewrite tokenize_cons. destruct (Z.eqb_spec c 42); [done|].
  destruct (c =? 63); [by eexists _, _|]. destruct (c =? 91).
  - cbv zeta. destruct (parse_set _) as [[items rest]|]; by eexists _, _.
  - destruct r; [|destruct (c =? 92)]; by eexists _, _.
Qed.

Lemma skip_stars_spec fuel p :
  (p <= length pattern <= p + fuel)%nat ->
  (skip_stars fuel pattern p =? length pattern)%nat = ref_match (T p) [].
Proof.
  revert p. induction fuel as [|fuel IH]; intros p Hp; simpl skip_stars.
  { rewrite drop_ge by lia. assert (p = length pattern) as -> by lia. apply Nat.eqb_refl. }
  destruct (Nat.ltb_spec p (length pattern)); simpl andb.
  2: { rewrite drop_ge by lia. assert (p = length pattern) as -> by lia. apply Nat.eqb_refl. }
  destruct (Z.eqb_spec (pattern !!! p) 42).
  - rewrite T_star, ref_match_star, orb_false_r by done. apply IH. lia.
  - rewrite (drop_at pattern p (p + 1)) by lia.
    destruct (tokenize_nonstar (pattern !!! p) (drop (p + 1) pattern)) as (k & ks & -> & Hk); [done|].
    rewrite ref_match_tok by done. apply Nat.eqb_neq. lia.
Qed.

(** ** The loop invariant *)

(** The pattern matches the target iff it matches from the current position or
    the last ['*'] can still swallow more; and moving the part of the target
    read since that ['*'] by [y] moves the current position by [y] too. *)
Definition glob_inv (s : gstate) : Prop :=
  (gp s <= length pattern)%nat /\ (gt s <= length target)%nat /\
  match star_p s with
  | None => star_t s = 0%nat /\ M 0 0 = M (gp s) (gt s)
  | Some sp =>
      (sp < gp s)%nat /\ (star_t s <= gt s)%nat /\ T sp = TStar :: T (sp + 1) /\
      (forall y, M (sp + 1) y = true -> M (gp s) (y + (gt s - star_t s)) = true) /\
      (M 0 0 = M (gp s) (gt s) || M sp (star_t s + 1))
  end.

Definition glob_measure (s : gstate) : nat :=
  (length target - star_t s) * (length pattern + 2) + (length pattern - gp s).

Lemma M_star_step sp t :
  T sp = TStar :: T (sp + 1) -> (t < length target)%nat ->
  M sp t = M (sp + 1) t || M sp (t + 1).
Proof.
  intros E Ht. rewrite E, ref_match_star. f_equal.
  rewrite (drop_at target t (t + 1)) by lia. done.
Qed.

(** Restarting after a mismatch. *)
Lemma glob_inv_restart s sp :
  glob_inv s -> star_p s = Some sp -> (gt s < length target)%nat -> M (gp s) (gt s) = false ->
  let s' := GState (sp + 1) (star_t s + 1) (Some sp) (star_t s + 1) in
  glob_inv s' /\ (glob_measure s' < glob_measure s)%nat.
Proof.
  intros (Hp & _ & Hs) Hsp Ht Hm. rewrite Hsp in Hs. destruct Hs as (Hlt & Hst & HT & _ & Heq).
  unfold glob_inv, glob_measure. cbn [gp gt star_p star_t]. repeat split.
  - lia.
  - lia.
  - lia.
  - lia.
  - done.
  - intros y. by rewrite Nat.sub_diag, Nat.add_0_r.
  - rewrite Hm in Heq. simpl in Heq. rewrite Heq.
    destruct (decide (star_t s + 1 < length target)%nat); [by apply M_star_step|].
    rewrite !(drop_ge target), HT, ref_match_star by lia. by destruct (ref_match (T (sp + 1)) []).
  - nia.
Qed.

Lemma glob_inv_step s :
  glob_inv s -> (gt s < length target)%nat ->
  match glob_step pattern target s with
  | inl s' => glob_inv s' /\ (glob_measure s' < glob_measure s)%nat
  | inr b => b = M 0 0
  end.
Proof.
  intros Hinv Ht. pose proof Hinv as (Hp & _ & Hs).
  assert (Hmis : M (gp s) (gt s) = false ->
    match
      match star_p s with
      | Some sp => inl (GState (sp + 1) (star_t s + 1) (Some sp) (star_t s + 1))
      | None => inr false
      end
    with
    | inl s' => glob_inv s' /\ (glob_measure s' < glob_measure s)%nat
    | inr b => b = M 0 0
    end).
  { intros Hm. destruct (star_p s) as [sp|] eqn:E; [by apply glob_inv_restart|].
    destruct Hs as [_ ->]. done. }
  destruct (decide (gp s < length pattern)%nat) as [Hlt|Hge].
  2: { rewrite glob_step_end by lia. apply Hmis. rewrite (drop_ge pattern) by lia.
       rewrite (drop_at target (gt s) (gt s + 1)) by lia. done. }
  destruct (decide (pattern !!! gp s = 42)) as [H42|H42].
  - unfold glob_step. destruct (Nat.ltb_spec (gp s) (length pattern)); [|lia].
    rewrite H42. cbn [Z.eqb Pos.eqb].
    destruct (collapse_spec (length pattern) (gp s) Hlt H42) as (Hr & HT & HM).
    cbv zeta in *. set (p' := collapse _ _ _) in *.
    unfold glob_inv, glob_measure. cbn [gp gt star_p star_t]. repeat split; try lia; try done.
    + intros y. by rewrite Nat.sub_diag, Nat.add_0_r.
    + rewrite <- M_star_step by done. rewrite <- HM.
      destruct (star_p s) as [sp|]; [|by destruct Hs].
      destruct Hs as (_ & Hst & HTs & HJ & ->).
      destruct (M sp (star_t s + 1)) eqn:E; [|apply orb_false_r]. rewrite orb_true_r. symmetry.
      rewrite HTs in E. apply ref_match_star_inv in E as [y Hy]. rewrite drop_drop in Hy.
      apply HJ in Hy. rewrite HM, HT in Hy |- *.
      apply (ref_match_star_drop _ (y + 1)). rewrite drop_drop.
      replace (gt s + (y + 1))%nat with (star_t s + 1 + y + (gt s - star_t s))%nat; [done|].
      destruct (star_p s); lia.
    + destruct (star_p s); nia.
  - destruct (glob_step_tok s Hlt H42 Ht) as (k & p' & Hr & Hk & HT & ->).
    assert (HMk : forall y, M (gp s) y =
      match drop y target with [] => false | c :: cs => tok_match k c && ref_match (T p') cs end).
    { intros y. destruct HT as [->|[-> ->]]; [by rewrite ref_match_tok|]. simpl. by destruct (drop y target). }
    assert (HMt : M (gp s) (gt s) = tok_match k (target !!! gt s) && M p' (gt s + 1)).
    { rewrite HMk. by rewrite (drop_at target (gt s) (gt s + 1)) by lia. }
    destruct (tok_match k (target !!! gt s)) eqn:Etok; [|by apply Hmis].
    simpl in HMt. unfold glob_inv, glob_measure. cbn [gp gt star_p star_t].
    destruct (star_p s) as [sp|]; repeat split; try lia; try (by destruct_and!; congruence).
    intros y Hy. destruct Hs as (_ & Hst & _ & HJ & _). apply HJ in Hy. rewrite HMk in Hy.
    set (z := (y + (gt s - star_t s))%nat) in *.
    replace (y + (gt s + 1 - star_t s))%nat with (z + 1)%nat by lia.
    destruct (decide (z < length target)%nat); [|by rewrite drop_ge in Hy by lia].
    rewrite (drop_at target z (z + 1)) in Hy by lia. by apply andb_true_iff in Hy as [_ ?].
Qed.

Lemma glob_inv_final s :
  glob_inv s -> (length target <= gt s)%nat -> M 0 0 = ref_match (T (gp s)) [].
Proof.
  intros (Hp & Ht & Hs) Hge. assert (gt s = length target) as Egt by lia.
  destruct (star_p s) as [sp|].
  - destruct Hs as (_ & Hst & HTs & HJ & ->). rewrite (drop_ge target (gt s)) by lia.
    destruct (M sp (star_t s + 1)) eqn:E; [|apply orb_false_r]. rewrite orb_true_r. symmetry.
    rewrite HTs in E. apply ref_match_star_inv in E as [y Hy]. rewrite drop_drop in Hy.
    apply HJ in Hy. by rewrite (drop_ge target) in Hy by lia.
  - destruct Hs as [_ ->]. by rewrite (drop_ge target) by lia.
Qed.

Lemma glob_loop_correct fuel s :
  glob_inv s -> (glob_measure s < fuel)%nat ->
  glob_loop fuel pattern target s = Some (M 0 0).
Proof.
  revert s. induction fuel as [|fuel IH]; intros s Hinv Hf; [lia|]. simpl.
  destruct (Nat.ltb_spec (gt s) (length target)).
  - pose proof (glob_inv_step s Hinv ltac:(done)) as Hstep.
    destruct (glob_step pattern target s) as [s'|b]; [|by subst].
    destruct Hstep as [Hi Hm]. apply IH; [done|lia].
  - f_equal. rewrite (glob_inv_final s) by done.
    apply skip_stars_spec. destruct Hinv. lia.
Qed.

End Correct.

(** The matcher returns, with the reference's answer. *)
Lemma globMatch_total pattern target :
  globMatch pattern target = Some (ref_match (tokenize pattern) target).
Proof.
  unfold globMatch. rewrite (glob_loop_correct pattern target).
  - by rewrite !drop_0.
  - unfold glob_inv. cbn [gp gt star_p star_t]. repeat split; lia.
  - unfold glob_measure, glob_fuel. cbn [gp gt star_p star_t]. lia.
Qed.

(** Every ['['] of the pattern that opens a set has its [']']. *)
Definition closed (pattern : bytes) : bool :=
  forallb (fun k => match k with TNever => false | _ => true end) (tokenize pattern).

(** C36: the iterative matcher returns within [glob_fuel] iterations (quadratic
    in the input) for every pattern and every text, and when every bracket
    that opens a set in the pattern is closed it decides exactly the language
    of the tokenised pattern, although it remembers only the most recent star.
    A pattern with an unterminated bracket is left out of the second part:
    there the code matches nothing, where its comment says that the bracket
    matches literally ([unterminated_bracket_never_literal]). *)
Theorem globMatch_correct pattern target :
  (exists b, globMatch pattern target = Some b) /\
  (closed pattern = true -> globMatch pattern target = Some (ref_match (tokenize pattern) target)).
Proof. rewrite globMatch_total. split; [by eexists|done]. Qed.

End Glob.

(** A ['['] without its [']'] matches nothing, not even itself. *)
Lemma unterminated_bracket_never_literal sgn ci :
  globMatch sgn ci (str "[") (str "[") = Some false.
Proof. by destruct sgn, ci. Qed.

Lemma globMatch_correct_witness :
  globMatch true false (str "h[^e-g]*o?") (str "hallo!") = Some true.
Proof. rewrite (proj2 (globMatch_correct true false (str "h[^e-g]*o?") (str "hallo!"))); vm_compute; reflexivity. Defined.

Example glob_examples :
  globMatch true false (str "h[^e-g]*o?") (str "hallo!") = Some true /\
  globMatch true false (str "a*b*c") (str "abbbcbc") = Some true /\
  globMatch true true (str "NEWS.*") (str "news.tech") = Some true.
Proof. vm_compute. done. Qed.
End Glob.
