(* ===== verification/IntSet.v ===== *)
(** * IntSet: the sorted integer array behind all-integer sets

    [src/core/intset.h] and [src/core/intset.cpp]. Abstractly an [IntSet.t] is
    a finite set of int64; concretely a strictly ascending vector plus a
    sticky width. [std::lower_bound] is modelled by its halving loop. *)

From Stdlib Require Import ZArith Lia.
From stdpp Require Import base list numbers gmap sorting.
From S2P Require Import Prelude.

Module IntSet.

Inductive Width := Int16 | Int32 | Int64.

Definition width_bytes (w : Width) : Z :=
  match w with Int16 => 2 | Int32 => 4 | Int64 => 8 end.

Record t := Mk { values_ : list Z; width_ : Width }.

Definition empty : t := Mk [] Int16.

(** The halving loop of [std::lower_bound]: the half-open range starts at
    [first] and has [count] elements. *)
Fixpoint lower_bound_loop (fuel : nat) (l : list Z) (first count : nat) (v : Z) : nat :=
  match fuel with
  | O => first
  | S fuel =>
      if (count =? 0)%nat then first
      else
        let step := (count / 2)%nat in
        if l !!! (first + step)%nat <? v
        then lower_bound_loop fuel l (first + step + 1) (count - (step + 1)) v
        else lower_bound_loop fuel l first step v
  end.

Definition lower_bound (l : list Z) (v : Z) : nat :=
  lower_bound_loop (S (length l)) l 0 (length l) v.

Definition widthFor (v : Z) : Width :=
  if (- 2 ^ 15 <=? v) && (v <=? 2 ^ 15 - 1) then Int16
  else if (- 2 ^ 31 <=? v) && (v <=? 2 ^ 31 - 1) then Int32
  else Int64.

Definition upgradeTo (s : t) (w : Width) : t :=
  if width_bytes (width_ s) <? width_bytes w then Mk (values_ s) w else s.

(** [std::binary_search] *)
Definition contains (s : t) (v : Z) : bool :=
  let it := lower_bound (values_ s) v in
  (it <? length (values_ s))%nat && negb (v <? values_ s !!! it).

Definition add (s : t) (v : Z) : t * bool :=
  let it := lower_bound (values_ s) v in
  if (it <? length (values_ s))%nat && (values_ s !!! it =? v) then (s, false)
  else
    let s := upgradeTo s (widthFor v) in
    (Mk (vinsert it [v] (values_ s)) (width_ s), true).

Definition remove (s : t) (v : Z) : t * bool :=
  let it := lower_bound (values_ s) v in
  if (it =? length (values_ s))%nat || negb (values_ s !!! it =? v) then (s, false)
  else (Mk (verase it (it + 1) (values_ s)) (width_ s), true).

Definition clear (_ : t) : t := Mk [] Int16.

Definition byteSize (s : t) : Z := 8 + Z.of_nat (length (values_ s)) * width_bytes (width_ s).

Definition appendLE (out : bytes) (value : Z) (width : nat) : bytes := out ++ push_le width value.

Definition readLE32 (p : bytes) : Z :=
  Z.lor (Z.lor (Z.lor (p !!! 0%nat) (Z.shiftl (p !!! 1%nat) 8)) (Z.shiftl (p !!! 2%nat) 16))
    (Z.shiftl (p !!! 3%nat) 24).

Definition readSigned (p : bytes) (width : nat) : Z :=
  let raw := or_le width p in
  match width with
  | 2%nat => i16 raw
  | 4%nat => i32 raw
  | _ => i64 raw
  end.

Definition toBytes (s : t) : bytes :=
  let out := appendLE [] (u32 (width_bytes (width_ s))) 4 in
  let out := appendLE out (u32 (Z.of_nat (length (values_ s)))) 4 in
  foldl (fun out v => appendLE out (u64 v) (Z.to_nat (width_bytes (width_ s)))) out (values_ s).

(** The ascending check on the decoded values. *)
Fixpoint ascending (l : list Z) : bool :=
  match l with
  | a :: (b :: _) as l' => if b <=? a then false else ascending l'
  | _ => true
  end.

Definition fromBytes (bs : bytes) : option t :=
  if (length bs <? 8)%nat then None
  else
    let encoding := readLE32 bs in
    match (if encoding =? 2 then Some Int16 else if encoding =? 4 then Some Int32
           else if encoding =? 8 then Some Int64 else None) with
    | None => None
    | Some w =>
        let count := readLE32 (drop 4 bs) in
        let width := Z.to_nat encoding in
        if negb (Z.of_nat (length bs) =? 8 + count * encoding) then None
        else
          let values := map (fun i => readSigned (drop (8 + i * width) bs) width)
                            (seq 0 (Z.to_nat count)) in
          if ascending values then Some (Mk values w) else None
    end.

(** ** Sorted vectors *)

(** Position [i] splits a vector around [v]. *)
Definition splits_at (l : list Z) (v : Z) (i : nat) : Prop :=
  (i <= length l)%nat /\ (forall x, x ∈ take i l -> x < v) /\ (forall x, x ∈ drop i l -> v <= x).

Definition strictly_ascending (l : list Z) : Prop := StronglySorted Z.lt l.

Lemma sorted_lookup l i j a b :
  strictly_ascending l -> l !! i = Some a -> l !! j = Some b -> (i < j)%nat -> a < b.
Proof.
  intros Hs. revert i j. induction Hs as [|x l _ IH Hx]; intros i j Hi Hj Hij; [done|].
  destruct i as [|i], j as [|j]; simpl in *; try lia.
  - simplify_eq. rewrite Forall_forall in Hx. apply Hx.
    apply list_elem_of_lookup. eauto.
  - eapply IH; eauto. lia.
Qed.

Lemma lower_bound_loop_spec fuel l first count v :
  strictly_ascending l -> (first + count <= length l)%nat -> (count < fuel)%nat ->
  (forall x, x ∈ take first l -> x < v) -> (forall x, x ∈ drop (first + count) l -> v <= x) ->
  splits_at l v (lower_bound_loop fuel l first count v).
Proof.
  intros Hs. revert first count. induction fuel as [|fuel IH]; intros first count Hl Hf Hlo Hhi; [lia|].
  cbn [lower_bound_loop]. destruct (Nat.eqb_spec count 0) as [->|Hc].
  { split; [lia|]. split; [done|]. by rewrite Nat.add_0_r in Hhi. }
  assert (count / 2 < count)%nat as Hstep by (apply Nat.div_lt; lia).
  set (step := (count / 2)%nat) in *.
  destruct (lookup_lt_is_Some_2 l (first + step)%nat) as [x Hx]; [lia|].
  rewrite (list_lookup_total_correct _ _ _ Hx).
  destruct (Z.ltb_spec x v).
  - apply IH; try lia.
    + intros y (j & Hj)%list_elem_of_lookup. apply lookup_take_Some in Hj as [Hj Hlt].
      destruct (decide (j = first + step)%nat) as [->|]; [simplify_eq; lia|].
      pose proof (sorted_lookup l j (first + step) y x Hs Hj Hx ltac:(lia)). lia.
    + by replace (first + step + 1 + (count - (step + 1)))%nat with (first + count)%nat by lia.
  - apply IH; try lia; [done|].
    intros y (j & Hj)%list_elem_of_lookup. rewrite lookup_drop in Hj.
    destruct j as [|j]; [rewrite Nat.add_0_r in Hj; simplify_eq; lia|].
    pose proof (sorted_lookup l (first + step) _ x y Hs Hx Hj ltac:(lia)). lia.
Qed.

Lemma lower_bound_spec l v : strictly_ascending l -> splits_at l v (lower_bound l v).
Proof.
  intros. apply lower_bound_loop_spec; [done|lia|lia| |].
  - intros x. rewrite take_0. by intros ?%elem_of_nil.
  - intros x. rewrite drop_ge by lia. by intros ?%elem_of_nil.
Qed.

(** The element at the split point is [v] exactly when [v] is present. *)
Lemma splits_at_elem l v i :
  strictly_ascending l -> splits_at l v i ->
  v ∈ l <-> (i < length l)%nat /\ l !!! i = v.
Proof.
  intros Hs (Hi & Hlo & Hhi). split.
  - intros Hv. rewrite <- (take_drop i l), elem_of_app in Hv.
    destruct Hv as [Hv|Hv]; [apply Hlo in Hv; lia|].
    apply list_elem_of_lookup in Hv as [j Hj]. rewrite lookup_drop in Hj.
    assert (i < length l)%nat as Hlt by (apply lookup_lt_Some in Hj; lia). split; [done|].
    destruct j as [|j]; [rewrite Nat.add_0_r in Hj; by apply list_lookup_total_correct|].
    destruct (lookup_lt_is_Some_2 l i Hlt) as [x Hx].
    rewrite (list_lookup_total_correct _ _ _ Hx).
    pose proof (sorted_lookup l i _ x v Hs Hx Hj ltac:(lia)).
    assert (v <= x); [|lia]. apply Hhi. apply list_elem_of_lookup. exists 0%nat.
    by rewrite lookup_drop, Nat.add_0_r.
  - intros [Hlt <-]. by apply list_elem_of_lookup_total_2.
Qed.

(** ** Invariant and refinement to finite sets *)

Definition fits (w : Width) (v : Z) : Prop := s_range (8 * width_bytes w) v.

#[global] Instance fits_dec w v : Decision (fits w v).
Proof. unfold fits. apply _. Defined.

Record inv (s : t) : Prop := {
  inv_sorted : strictly_ascending (values_ s);
  inv_fits : Forall (fits (width_ s)) (values_ s);
}.

(** The set an intset stands for. *)
Definition elems (s : t) : gset Z := list_to_set (values_ s).

Definition width_le (a b : Width) : Prop := width_bytes a <= width_bytes b.

Lemma fits_mono a b v : width_le a b -> fits a v -> fits b v.
Proof.
  unfold width_le, fits, s_range. destruct a, b; simpl; intros Hw H; try lia; done || (cbn; lia).
Qed.

Lemma widthFor_fits v : is_i64 v -> fits (widthFor v) v.
Proof.
  unfold widthFor, fits, s_range. intros Hv.
  destruct (_ && _) eqn:E1; bools; [simpl; lia|].
  destruct ((- 2 ^ 31 <=? v) && _) eqn:E2; bools; simpl; lia.
Qed.

Lemma upgradeTo_spec s w :
  values_ (upgradeTo s w) = values_ s /\
  width_le (width_ s) (width_ (upgradeTo s w)) /\ width_le w (width_ (upgradeTo s w)).
Proof. unfold upgradeTo, width_le. destruct (Z.ltb_spec (width_bytes (width_ s)) (width_bytes w)); simpl; split_and!; done || lia. Qed.

Lemma strictly_ascending_app l1 l2 :
  strictly_ascending (l1 ++ l2) <->
  strictly_ascending l1 /\ strictly_ascending l2 /\ (forall x y, x ∈ l1 -> y ∈ l2 -> x < y).
Proof.
  unfold strictly_ascending. rewrite StronglySorted_app. tauto.
Qed.

Lemma insert_ascending l v i :
  strictly_ascending l -> splits_at l v i -> v ∉ l -> strictly_ascending (vinsert i [v] l).
Proof.
  intros Hs (Hi & Hlo & Hhi) Hv. unfold vinsert.
  rewrite <- (take_drop i l) in Hs. apply strictly_ascending_app in Hs as (H1 & H2 & H3).
  apply strictly_ascending_app. split; [done|]. split.
  - simpl. apply StronglySorted_cons. split; [|done]. apply Forall_forall. intros x Hx.
    pose proof (Hhi x Hx). assert (x <> v); [|lia]. intros ->. apply Hv.
    rewrite <- (take_drop i l). set_solver.
  - intros x y Hx. simpl. intros [->|Hy]%elem_of_cons; [by apply Hlo|by apply H3].
Qed.

Lemma elem_of_vinsert (l : list Z) i v x : x ∈ vinsert i [v] l <-> x = v \/ x ∈ l.
Proof. unfold vinsert. rewrite <- (take_drop i l) at 3. set_solver. Qed.

Lemma verase_split (l : list Z) i :
  (i < length l)%nat -> exists p s, l = p ++ l !!! i :: s /\ length p = i /\ verase i (i + 1) l = p ++ s.
Proof.
  intros Hi. destruct (lookup_lt_is_Some_2 l i Hi) as [x Hx].
  rewrite (list_lookup_total_correct _ _ _ Hx).
  exists (take i l), (drop (S i) l). split; [by rewrite take_drop_middle|].
  split; [rewrite length_take; lia|]. unfold verase. by rewrite Nat.add_1_r.
Qed.

Lemma contains_spec s v : inv s -> contains s v = bool_decide (v ∈ elems s).
Proof.
  intros [Hs _]. unfold contains, elems.
  pose proof (lower_bound_spec _ v Hs) as Hsp.
  pose proof (splits_at_elem _ v _ Hs Hsp) as He.
  set (i := lower_bound (values_ s) v) in *.
  apply eq_true_iff_eq. rewrite bool_decide_eq_true, elem_of_list_to_set, He.
  rewrite andb_true_iff, Nat.ltb_lt, negb_true_iff, Z.ltb_ge.
  split; [|intros [? ->]; split; [done|lia]].
  intros [Hi Hle]. split; [done|]. destruct Hsp as (_ & _ & Hhi).
  assert (v <= values_ s !!! i); [|lia]. apply Hhi.
  apply list_elem_of_lookup. exists 0%nat. rewrite lookup_drop, Nat.add_0_r.
  by apply list_lookup_lookup_total_lt.
Qed.

Lemma add_spec s v :
  inv s -> is_i64 v ->
  let '(s', added) := add s v in
  inv s' /\ elems s' = {[v]} ∪ elems s /\ added = bool_decide (v ∉ elems s) /\
  width_le (width_ s) (width_ s').
Proof.
  intros [Hs Hf] Hv. unfold add, elems.
  pose proof (lower_bound_spec _ v Hs) as Hsp.
  pose proof (splits_at_elem _ v _ Hs Hsp) as He.
  set (i := lower_bound (values_ s) v) in *.
  destruct (_ && _) eqn:E.
  - bools. assert (v ∈ values_ s) as Hin by (by apply He).
    split; [done|]. split; [set_solver|]. split; [|unfold width_le; lia].
    symmetry. apply bool_decide_eq_false. set_solver.
  - assert (v ∉ values_ s) as Hni.
    { rewrite He. intros [Hi Heq]. apply andb_false_iff in E as [E|E]; bools; [lia|done]. }
    destruct (upgradeTo_spec s (widthFor v)) as (Hval & Hw1 & Hw2).
    set (s1 := upgradeTo s (widthFor v)) in *. rewrite Hval. simpl.
    split; [split; simpl|].
    + by apply insert_ascending.
    + apply Forall_forall. intros x [->|Hx]%elem_of_vinsert.
      * apply (fits_mono _ _ _ Hw2). by apply widthFor_fits.
      * apply (fits_mono _ _ _ Hw1). rewrite Forall_forall in Hf. by apply Hf.
    + split; [apply set_eq; intros x; rewrite elem_of_list_to_set, elem_of_vinsert; set_solver|].
      split; [|done]. symmetry. apply bool_decide_eq_true. set_solver.
Qed.

Lemma remove_spec s v :
  inv s ->
  let '(s', removed) := remove s v in
  inv s' /\ elems s' = elems s ∖ {[v]} /\ removed = bool_decide (v ∈ elems s) /\
  width_ s' = width_ s.
Proof.
  intros [Hs Hf]. unfold remove, elems.
  pose proof (lower_bound_spec _ v Hs) as Hsp.
  pose proof (splits_at_elem _ v _ Hs Hsp) as He.
  set (i := lower_bound (values_ s) v) in *.
  destruct (_ || _) eqn:E.
  - assert (v ∉ values_ s) as Hni.
    { rewrite He. intros [Hi Heq]. apply orb_true_iff in E as [E|E]; bools; [lia|done]. }
    split; [done|]. split; [set_solver|]. split; [|done].
    symmetry. apply bool_decide_eq_false. set_solver.
  - bools. destruct Hsp as (Hi & _ & _).
    destruct (verase_split (values_ s) i) as (p & q & Hl & Hlen & ->); [lia|].
    rewrite H0 in Hl. rewrite Hl in Hs, Hf |- *.
    apply strictly_ascending_app in Hs as (Hp & Hq & Hpq).
    apply StronglySorted_cons in Hq as [Hvq Hq]. rewrite Forall_forall in Hvq.
    rewrite Forall_app, Forall_cons in Hf. simpl. split; [split; simpl|].
    + apply strictly_ascending_app. set_solver.
    + apply Forall_app. naive_solver.
    + split; [|split; [|done]].
      * assert (forall x, x ∈ p -> x <> v) by (intros x Hx ->; specialize (Hpq v v Hx); set_solver by lia).
        assert (forall x, x ∈ q -> x <> v) by (intros x Hx ->; specialize (Hvq v Hx); lia).
        set_solver.
      * symmetry. apply bool_decide_eq_true. set_solver.
Qed.

(** ** Serialised form *)

Lemma ascending_spec l : ascending l = true <-> strictly_ascending l.
Proof.
  unfold strictly_ascending. induction l as [|a l IH]; [split; [constructor|done]|].
  rewrite StronglySorted_cons, <- IH. destruct l as [|b l]; [simpl; naive_solver|].
  cbn [ascending]. destruct (Z.leb_spec b a).
  - split; [done|]. intros [Hf _]. inversion Hf. lia.
  - split; [|by intros [_ ?]]. intros Hl. split; [|done]. constructor; [lia|].
    apply IH, StronglySorted_cons in Hl as [Hl _].
    eapply Forall_impl; [exact Hl|]. simpl. lia.
Qed.

Lemma readLE32_or_le p : readLE32 p = or_le 4 p.
Proof. reflexivity. Qed.

Definition wn (w : Width) : nat := Z.to_nat (width_bytes w).

Lemma wn_width w : 8 * Z.of_nat (wn w) = 8 * width_bytes w.
Proof. by destruct w. Qed.

Lemma wn_pos w : (0 < wn w)%nat.
Proof. destruct w; vm_compute; lia. Qed.

Lemma readSigned_swrap w p : readSigned p (wn w) = swrap (8 * Z.of_nat (wn w)) (or_le (wn w) p).
Proof. by destruct w. Qed.

Lemma toBytes_eq s :
  toBytes s = le_bytes 4 (width_bytes (width_ s)) ++ le_bytes 4 (Z.of_nat (length (values_ s)))
    ++ concat (map (le_bytes (wn (width_ s))) (values_ s)).
Proof.
  unfold toBytes, appendLE. rewrite !push_le_bytes.
  rewrite !le_bytes_uwrap by done.
  rewrite app_nil_l, app_assoc. generalize (le_bytes 4 (width_bytes (width_ s))
    ++ le_bytes 4 (Z.of_nat (length (values_ s)))) as out.
  induction (values_ s) as [|v l IH]; intros out; simpl; [by rewrite app_nil_r|].
  rewrite IH, push_le_bytes, <- app_assoc. f_equal. f_equal.
  by apply le_bytes_uwrap; destruct (width_ s).
Qed.

(** Decoding a run of encoded values at offset [length pre]. *)
Lemma read_values w pre vs :
  Forall (fits w) vs ->
  map (fun i => readSigned (drop (length pre + i * wn w) (pre ++ concat (map (le_bytes (wn w)) vs))) (wn w))
    (seq 0 (length vs)) = vs.
Proof.
  intros Hf. revert pre. induction Hf as [|v vs Hv _ IH]; intros pre; [done|].
  cbn [length seq map concat]. f_equal.
  - rewrite Nat.mul_0_l, Nat.add_0_r, drop_app_length, readSigned_swrap.
    rewrite or_le_app by (auto using length_le_bytes with mnemos).
    apply le_signed_round; [apply wn_pos|]. by rewrite wn_width.
  - specialize (IH (pre ++ le_bytes (wn w) v)).
    rewrite <- seq_shift, map_map. rewrite <- IH at 2. apply map_ext. intros i.
    f_equal. rewrite <- app_assoc. f_equal. rewrite length_app, length_le_bytes. lia.
Qed.

(** Re-encoding the values decoded from a run of bytes gives the run back. *)
Lemma write_values w n a bs :
  bytes_ok bs -> length bs = (a + n * wn w)%nat ->
  concat (map (le_bytes (wn w)) (map (fun i => readSigned (drop (a + i * wn w) bs) (wn w)) (seq 0 n)))
    = drop a bs.
Proof.
  intros Hb. revert a. induction n as [|n IH]; intros a Hl.
  { simpl. rewrite drop_ge by lia. done. }
  cbn [seq map concat]. rewrite Nat.mul_0_l, Nat.add_0_r.
  specialize (IH (a + wn w)%nat ltac:(lia)).
  assert (forall f g : nat -> Z, (forall i, f (S i) = g i) -> map f (seq 1 n) = map g (seq 0 n)) as Hsh.
  { intros f g Hfg. rewrite <- seq_shift, map_map. by apply map_ext. }
  rewrite (Hsh _ (fun i => readSigned (drop (a + wn w + i * wn w) bs) (wn w))).
  2: { intros i. do 2 f_equal. lia. }
  rewrite IH, <- drop_drop. etrans; [|apply (take_drop (wn w))]. f_equal.
  pose proof (wn_pos w).
  assert (wn w <= length (drop a bs))%nat by (rewrite length_drop; lia).
  assert (bytes_ok (take (wn w) (drop a bs))) as Ht by (by apply Forall_take, Forall_drop).
  rewrite readSigned_swrap, le_bytes_swrap, or_le_val by done.
  etrans; [|apply (le_bytes_val _ Ht)]. f_equal. rewrite length_take. lia.
Qed.

Lemma concat_le_length w vs :
  length (concat (map (le_bytes (wn w)) vs)) = (length vs * wn w)%nat.
Proof.
  induction vs as [|v vs IH]; [done|]. simpl. rewrite length_app, length_le_bytes, IH. lia.
Qed.

Lemma fromBytes_toBytes s :
  inv s -> Z.of_nat (length (values_ s)) < 2 ^ 32 -> fromBytes (toBytes s) = Some s.
Proof.
  intros [Hs Hf] Hn. rewrite toBytes_eq. destruct s as [vs w].
  cbn [values_ width_] in *. unfold fromBytes. cbv zeta.
  set (body := concat (map (le_bytes (wn w)) vs)).
  rewrite !length_app, !length_le_bytes.
  destruct (Nat.ltb_spec (4 + (4 + length body)) 8); [lia|].
  rewrite readLE32_or_le, or_le_app, le_val_bytes_small
    by (auto using length_le_bytes with mnemos; unfold u_range; destruct w; cbn; lia).
  assert ((if width_bytes w =? 2 then Some Int16 else if width_bytes w =? 4 then Some Int32
           else if width_bytes w =? 8 then Some Int64 else None) = Some w) as -> by (by destruct w).
  rewrite readLE32_or_le, (drop_app_at 4), or_le_app, le_val_bytes_small
    by (rewrite ?length_le_bytes; auto with mnemos; unfold u_range; cbn; lia).
  assert (length body = length vs * wn w)%nat as -> by apply concat_le_length.
  destruct (Z.eqb_spec (Z.of_nat (4 + (4 + length vs * wn w))) (8 + Z.of_nat (length vs) * width_bytes w)).
  2: { pose proof (wn_width w). nia. }
  simpl negb. cbv iota zeta. rewrite Nat2Z.id. fold (wn w).
  pose proof (read_values w (le_bytes 4 (width_bytes w) ++ le_bytes 4 (Z.of_nat (length vs))) vs Hf) as Hrv.
  rewrite length_app, !length_le_bytes, <- app_assoc in Hrv. fold body in Hrv.
  change (4 + 4)%nat with 8%nat in Hrv. rewrite Hrv.
  by rewrite (proj2 (ascending_spec vs) Hs).
Qed.

Lemma toBytes_fromBytes bs s :
  bytes_ok bs -> fromBytes bs = Some s ->
  inv s /\ toBytes s = bs /\ Z.of_nat (length (values_ s)) < 2 ^ 32.
Proof.
  intros Hb. unfold fromBytes. cbv zeta. destruct (Nat.ltb_spec (length bs) 8); [done|].
  assert (bytes_ok (take 4 bs)) as H4 by by apply Forall_take.
  assert (bytes_ok (take 4 (drop 4 bs))) as H8 by by apply Forall_take, Forall_drop.
  assert (length (take 4 bs) = 4%nat) as L4 by (rewrite length_take; lia).
  assert (length (take 4 (drop 4 bs)) = 4%nat) as L8 by (rewrite length_take, length_drop; lia).
  assert (readLE32 bs = le_val (take 4 bs)) as -> by (apply (or_le_val 4); [done|lia]).
  assert (readLE32 (drop 4 bs) = le_val (take 4 (drop 4 bs))) as ->
    by (apply (or_le_val 4); [done|rewrite length_drop; lia]).
  pose proof (le_val_range _ H8) as Hcr. unfold u_range in Hcr. rewrite L8 in Hcr.
  pose proof (le_bytes_val _ H4) as E4. pose proof (le_bytes_val _ H8) as E8.
  rewrite L4 in E4. rewrite L8 in E8.
  set (enc := le_val (take 4 bs)) in *. set (count := le_val (take 4 (drop 4 bs))) in *.
  destruct (if enc =? 2 then Some Int16 else _) as [w|] eqn:Ew; [|done].
  assert (enc = width_bytes w) as Henc.
  { destruct (Z.eqb_spec enc 2); [by simplify_eq|].
    destruct (Z.eqb_spec enc 4); [by simplify_eq|].
    destruct (Z.eqb_spec enc 8); by simplify_eq. }
  destruct (Z.eqb_spec (Z.of_nat (length bs)) (8 + count * enc)) as [Hlen|]; [|done].
  simpl negb. cbv iota. rewrite Henc. fold (wn w).
  destruct (ascending _) eqn:Ha; [|done]. intros [= <-].
  apply ascending_spec in Ha. pose proof (wn_width w).
  rewrite toBytes_eq. cbn [values_ width_]. rewrite length_map, length_seq.
  rewrite (write_values w (Z.to_nat count) 8) by (try done; rewrite Henc in Hlen; nia).
  rewrite Z2Nat.id by lia. split; [split; [done|]|split; [|simpl in Hcr; lia]].
  - cbn [values_ width_]. apply Forall_forall. intros x (i & -> & _)%list_elem_of_fmap.
    unfold fits. rewrite readSigned_swrap, <- wn_width. apply swrap_range. by destruct w.
  - rewrite <- Henc, E4, E8. etrans; [|apply (take_drop 4)]. f_equal.
    etrans; [|apply (take_drop 4)]. f_equal. by rewrite drop_drop.
Qed.

(** on every reachable intset, [add], [remove] and [contains] are
    insertion, deletion and membership of a finite set of int64; the Boolean
    results say whether the set changed; the vector stays strictly ascending
    with every member representable in the width; and the width never
    narrows. *)
Theorem intset_refines_set s v :
  inv s -> is_i64 v ->
  contains s v = bool_decide (v ∈ elems s) /\
  (let '(s', added) := add s v in
   inv s' /\ elems s' = {[v]} ∪ elems s /\ added = bool_decide (v ∉ elems s) /\
   width_le (width_ s) (width_ s')) /\
  (let '(s', removed) := remove s v in
   inv s' /\ elems s' = elems s ∖ {[v]} /\ removed = bool_decide (v ∈ elems s) /\
   width_ s' = width_ s).
Proof.
  intros Hs Hv. split; [by apply contains_spec|]. split; [by apply add_spec|by apply remove_spec].
Qed.


(** the serialised form is exact in both directions. [fromBytes] accepts a
    byte string precisely when it is the [toBytes] image of a well-formed
    intset (with a count that fits the 32-bit header), and returns that
    intset, width included. *)
Theorem intset_bytes_round_trip bs s :
  bytes_ok bs ->
  fromBytes bs = Some s <->
  inv s /\ toBytes s = bs /\ Z.of_nat (length (values_ s)) < 2 ^ 32.
Proof.
  intros Hb. split; [by apply toBytes_fromBytes|].
  intros (Hi & <- & Hn). by apply fromBytes_toBytes.
Qed.

(** A concrete intset: three adds, one of which widens the slots. *)
Definition sample : t := fst (add (fst (add (fst (add empty 5)) (-3))) 70000).

Lemma empty_inv : inv empty.
Proof. split; constructor. Qed.

Lemma sample_inv : inv sample.
Proof.
  split; [by apply ascending_spec|].
  decide_now.
Qed.

Lemma intset_refines_set_witness :
  inv sample /\ is_i64 9 /\ snd (add sample 9) = true /\
  contains sample 9 = bool_decide (9 ∈ elems sample).
Proof.
  split; [apply sample_inv|]. split; [done|]. split; [reflexivity|].
  exact (proj1 (intset_refines_set sample 9 sample_inv ltac:(done))).
Defined.

Lemma intset_bytes_round_trip_witness :
  fromBytes (toBytes sample) = Some sample.
Proof.
  apply (intset_bytes_round_trip (toBytes sample) sample).
  - decide_now.
  - split; [apply sample_inv|]. split; reflexivity.
Defined.

End IntSet.
