(* ===== verification/Listpack.v ===== *)
(** * Listpack: the compact byte-string sequence

    [src/core/listpack.h] and [src/core/listpack.cpp]. A listpack is one
    buffer: a 6-byte header (total size, element count saturating at 65535),
    entries, and a 0xFF terminator. Every operation is modelled on the bytes;
    [repr buf es] says that [buf] stores the element sequence [es], and each
    operation is proved to act on [es] as the list operation it implements. *)

From Stdlib Require Import ZArith Lia.
From stdpp Require Import base list numbers strings.
From S2P Require Import Prelude Encoding.

Module Listpack.

Definition kListpackHeaderSize : nat := 6.
Definition kListpackEof : Z := 255.
Definition kListpackMaxInlineCount : Z := 65535.

(** [Listpack::Element]: the tag [is_integer] and the two payloads. *)
Inductive elem := Int (n : Z) | Str (s : bytes).

#[global] Instance elem_eq_dec : EqDecision elem.
Proof. solve_decision. Defined.

Definition toString (e : elem) : bytes :=
  match e with Int n => to_string n | Str s => s end.

(** ** Encoding primitives *)

Definition writeLE16 (v : Z) : bytes := [u8 (Z.land v 255); u8 (Z.land (Z.shiftr v 8) 255)].

Definition writeLE32 (v : Z) : bytes :=
  [u8 (Z.land v 255); u8 (Z.land (Z.shiftr v 8) 255);
   u8 (Z.land (Z.shiftr v 16) 255); u8 (Z.land (Z.shiftr v 24) 255)].

Definition readLE16 (p : bytes) : Z := u16 (Z.lor (p !!! 0%nat) (Z.shiftl (p !!! 1%nat) 8)).

Definition readLE32 (p : bytes) : Z :=
  Z.lor (Z.lor (Z.lor (p !!! 0%nat) (Z.shiftl (p !!! 1%nat) 8)) (Z.shiftl (p !!! 2%nat) 16))
    (Z.shiftl (p !!! 3%nat) 24).

Definition encodeInteger (value : Z) : bytes :=
  if (0 <=? value) && (value <=? 127) then [u8 value]
  else if (-4096 <=? value) && (value <=? 4095) then
    let raw := Z.land (u16 value) 8191 in
    [u8 (Z.lor 192 (Z.land (Z.shiftr raw 8) 31)); u8 (Z.land raw 255)]
  else if (-32768 <=? value) && (value <=? 32767) then 241 :: writeLE16 (u16 value)
  else if (-8388608 <=? value) && (value <=? 8388607) then
    let raw := u32 value in
    [242; u8 (Z.land raw 255); u8 (Z.land (Z.shiftr raw 8) 255); u8 (Z.land (Z.shiftr raw 16) 255)]
  else if (-2147483648 <=? value) && (value <=? 2147483647) then 243 :: writeLE32 (u32 value)
  else 244 :: push_le 8 (u64 value).

Definition encodeString (value : bytes) : bytes :=
  let len := Z.of_nat (length value) in
  (if len <? 64 then [u8 (Z.lor 128 len)]
   else if len <? 4096 then [u8 (Z.lor 224 (Z.land (Z.shiftr len 8) 15)); u8 (Z.land len 255)]
   else 240 :: writeLE32 (u32 len)) ++ value.

Definition encodeBacklen (value : Z) : bytes :=
  if value <=? 127 then [u8 value]
  else if value <? 16384 then [u8 (Z.shiftr value 7); u8 (Z.lor (Z.land value 127) 128)]
  else if value <? 2097152 then
    [u8 (Z.shiftr value 14); u8 (Z.lor (Z.land (Z.shiftr value 7) 127) 128);
     u8 (Z.lor (Z.land value 127) 128)]
  else if value <? 268435456 then
    [u8 (Z.shiftr value 21); u8 (Z.lor (Z.land (Z.shiftr value 14) 127) 128);
     u8 (Z.lor (Z.land (Z.shiftr value 7) 127) 128); u8 (Z.lor (Z.land value 127) 128)]
  else
    [u8 (Z.shiftr value 28); u8 (Z.lor (Z.land (Z.shiftr value 21) 127) 128);
     u8 (Z.lor (Z.land (Z.shiftr value 14) 127) 128);
     u8 (Z.lor (Z.land (Z.shiftr value 7) 127) 128); u8 (Z.lor (Z.land value 127) 128)].

(** [decodeBacklenBackwards]: the bytes are given in the order they are read,
    from [last] towards the front. The result is the value and [bytes_read];
    [None] is a read before the start of the memory. *)
Fixpoint decodeBacklen_loop (back : bytes) (value shift : Z) (bytes_read : nat)
    : option (Z * nat) :=
  match back with
  | [] => None
  | b :: back =>
      let value := Z.lor value (Z.shiftl (Z.land b 127) shift) in
      if Z.land b 128 =? 0 then Some (value, S bytes_read)
      else if 28 <? shift + 7 then Some (0, 0%nat)
      else decodeBacklen_loop back value (shift + 7) (S bytes_read)
  end.

Definition decodeBacklenBackwards (memory_upto_last : bytes) : option (Z * nat) :=
  decodeBacklen_loop (rev memory_upto_last) 0 0 0.

Definition withBacklen (payload : bytes) : bytes :=
  payload ++ encodeBacklen (Z.of_nat (length payload)).

Definition buildEntry (value : bytes) : bytes :=
  withBacklen
    match stringToInt64 value with
    | Some n => encodeInteger n
    | None => encodeString value
    end.

Definition buildIntegerEntry (value : Z) : bytes := withBacklen (encodeInteger value).

(** The discriminating chain of [decodeAt]: the payload size and the element
    read from the bytes at [p], or [None] where the code returns 0. *)
Definition decodePayload (p : bytes) : option (nat * elem) :=
  let remaining := length p in
  let encoding := p !!! 0%nat in
  if Z.land encoding 128 =? 0 then Some (1%nat, Int (Z.land encoding 127))
  else if Z.land encoding 192 =? 128 then
    let len := Z.to_nat (Z.land encoding 63) in
    if (remaining <? 1 + len)%nat then None
    else Some ((1 + len)%nat, Str (take len (drop 1 p)))
  else if Z.land encoding 224 =? 192 then
    if (remaining <? 2)%nat then None
    else
      let raw := u16 (Z.lor (Z.shiftl (Z.land encoding 31) 8) (p !!! 1%nat)) in
      Some (2%nat, Int (if 4096 <=? raw then raw - 8192 else raw))
  else if Z.land encoding 240 =? 224 then
    if (remaining <? 2)%nat then None
    else
      let len := Z.to_nat (Z.lor (Z.shiftl (Z.land encoding 15) 8) (p !!! 1%nat)) in
      if (remaining <? 2 + len)%nat then None
      else Some ((2 + len)%nat, Str (take len (drop 2 p)))
  else if encoding =? 240 then
    if (remaining <? 5)%nat then None
    else
      let len := Z.to_nat (readLE32 (drop 1 p)) in
      if (remaining <? 5 + len)%nat then None
      else Some ((5 + len)%nat, Str (take len (drop 5 p)))
  else if encoding =? 241 then
    if (remaining <? 3)%nat then None
    else Some (3%nat, Int (i16 (readLE16 (drop 1 p))))
  else if encoding =? 242 then
    if (remaining <? 4)%nat then None
    else
      let raw := Z.lor (Z.lor (p !!! 1%nat) (Z.shiftl (p !!! 2%nat) 8)) (Z.shiftl (p !!! 3%nat) 16) in
      Some (4%nat, Int (if 8388608 <=? raw then raw - 16777216 else raw))
  else if encoding =? 243 then
    if (remaining <? 5)%nat then None
    else Some (5%nat, Int (i32 (readLE32 (drop 1 p))))
  else if encoding =? 244 then
    if (remaining <? 9)%nat then None
    else Some (9%nat, Int (i64 (or_le 8 (drop 1 p))))
  else None.

Definition decodeEntry (p : bytes) : option (nat * elem) :=
  match decodePayload p with
  | None => None
  | Some (payload_size, e) =>
      let backlen_size := length (encodeBacklen (Z.of_nat payload_size)) in
      if (length p <? payload_size + backlen_size)%nat then None
      else Some ((payload_size + backlen_size)%nat, e)
  end.

(** ** The buffer *)

Definition decodeAt (buffer : bytes) (offset : nat) : option (nat * elem) :=
  if (length buffer <=? offset)%nat then None else decodeEntry (drop offset buffer).

Definition setTotalBytes (buffer : bytes) (v : Z) : bytes := voverwrite 0 (writeLE32 v) buffer.

Definition setNumElements (buffer : bytes) (v : Z) : bytes :=
  voverwrite 4 (writeLE16 (u16 (Z.min v kListpackMaxInlineCount))) buffer.

Definition storedCount (buffer : bytes) : Z := readLE16 (drop 4 buffer).

Definition new : bytes :=
  let buffer := replicate (kListpackHeaderSize + 1) 0 in
  let buffer := setTotalBytes buffer (u32 (Z.of_nat (length buffer))) in
  let buffer := setNumElements buffer 0 in
  <[6%nat := kListpackEof]> buffer.

Definition clear (_ : bytes) : bytes :=
  let buffer := replicate (kListpackHeaderSize + 1) 0 in
  let buffer := <[6%nat := kListpackEof]> buffer in
  let buffer := setTotalBytes buffer (u32 (Z.of_nat (length buffer))) in
  setNumElements buffer 0.

(** The loop guard shared by every walk. *)
Definition more (buffer : bytes) (offset : nat) : bool :=
  (offset <? length buffer)%nat && negb (buffer !!! offset =? kListpackEof).

(** [forEach]: the elements handed to the callback, in order. *)
Fixpoint forEach_loop (fuel : nat) (buffer : bytes) (offset : nat) : list elem :=
  match fuel with
  | O => []
  | S fuel =>
      if more buffer offset then
        match decodeAt buffer offset with
        | None => []
        | Some (size, e) => e :: forEach_loop fuel buffer (offset + size)
        end
      else []
  end.

Definition forEach (buffer : bytes) : list elem :=
  forEach_loop (length buffer) buffer kListpackHeaderSize.

Definition numElements (buffer : bytes) : nat :=
  let stored := storedCount buffer in
  if stored <? kListpackMaxInlineCount then Z.to_nat stored else length (forEach buffer).

Definition totalBytes (buffer : bytes) : nat := length buffer.

Definition toStrings (buffer : bytes) : list bytes := map toString (forEach buffer).

Fixpoint offsetOf_loop (fuel : nat) (buffer : bytes) (offset current index : nat) : option nat :=
  match fuel with
  | O => None
  | S fuel =>
      if more buffer offset then
        if (current =? index)%nat then Some offset
        else
          match decodeAt buffer offset with
          | None => None
          | Some (size, _) => offsetOf_loop fuel buffer (offset + size) (S current) index
          end
      else None
  end.

Definition offsetOf (buffer : bytes) (index : nat) : option nat :=
  offsetOf_loop (length buffer) buffer kListpackHeaderSize 0 index.

Definition get (buffer : bytes) (index : nat) : option elem :=
  match offsetOf buffer index with
  | None => None
  | Some offset => snd <$> decodeAt buffer offset
  end.

(** The tail shared by [append], [appendInteger] and [insertAt]: header update
    after splicing one entry in. *)
Definition countOneMore (buffer : bytes) : bytes :=
  let buffer := setTotalBytes buffer (u32 (Z.of_nat (length buffer))) in
  let stored := storedCount buffer in
  if stored <? kListpackMaxInlineCount then setNumElements buffer (stored + 1) else buffer.

Definition append (buffer value : bytes) : bytes :=
  countOneMore (vinsert (length buffer - 1) (buildEntry value) buffer).

Definition appendInteger (buffer : bytes) (value : Z) : bytes :=
  countOneMore (vinsert (length buffer - 1) (buildIntegerEntry value) buffer).

Definition elem_matches (value : bytes) (e : elem) : bool :=
  match e with
  | Int n => match stringToInt64 value with Some needle => n =? needle | None => false end
  | Str s => match stringToInt64 value with Some _ => false | None => s =b? value end
  end.

Fixpoint find_loop (fuel : nat) (buffer value : bytes) (start step offset index : nat) : option nat :=
  match fuel with
  | O => None
  | S fuel =>
      if more buffer offset then
        match decodeAt buffer offset with
        | None => None
        | Some (size, e) =>
            if (start <=? index)%nat && ((index - start) mod step =? 0)%nat && elem_matches value e
            then Some index
            else find_loop fuel buffer value start step (offset + size) (S index)
        end
      else None
  end.

Definition find (buffer value : bytes) (start step : nat) : option nat :=
  find_loop (length buffer) buffer value start step kListpackHeaderSize 0.

(** The end offset of [count] entries from [offset]; [None] where the code
    gives up. *)
Fixpoint skipEntries (count : nat) (buffer : bytes) (end_offset : nat) : option nat :=
  match count with
  | O => Some end_offset
  | S count =>
      if negb (more buffer end_offset) then None
      else
        match decodeAt buffer end_offset with
        | None => None
        | Some (size, _) => skipEntries count buffer (end_offset + size)
        end
  end.

Definition eraseRange (buffer : bytes) (index count : nat) : bytes * bool :=
  if (count =? 0)%nat then (buffer, true)
  else
    match offsetOf buffer index with
    | None => (buffer, false)
    | Some start_offset =>
        match skipEntries count buffer start_offset with
        | None => (buffer, false)
        | Some end_offset =>
            let buffer := verase start_offset end_offset buffer in
            let buffer := setTotalBytes buffer (u32 (Z.of_nat (length buffer))) in
            let stored := storedCount buffer in
            (if stored <? kListpackMaxInlineCount then
               setNumElements buffer
                 (if Z.of_nat count <=? stored then stored - Z.of_nat count else 0)
             else setNumElements buffer (Z.of_nat (numElements buffer)), true)
        end
    end.

Definition eraseAt (buffer : bytes) (index : nat) : bytes * bool := eraseRange buffer index 1.

Definition replaceAt (buffer : bytes) (index : nat) (value : bytes) : bytes * bool :=
  match offsetOf buffer index with
  | None => (buffer, false)
  | Some offset =>
      match decodeAt buffer offset with
      | None => (buffer, false)
      | Some (old_size, _) =>
          let buffer := verase offset (offset + old_size) buffer in
          let buffer := vinsert offset (buildEntry value) buffer in
          (setTotalBytes buffer (u32 (Z.of_nat (length buffer))), true)
      end
  end.

Definition insertAt (buffer : bytes) (index : nat) (value : bytes) : bytes * bool :=
  match (if (index =? numElements buffer)%nat then Some (length buffer - 1)%nat
         else offsetOf buffer index) with
  | None => (buffer, false)
  | Some offset => (countOneMore (vinsert offset (buildEntry value) buffer), true)
  end.

(** The validating walk of [fromBytes]: the final offset and the number of
    entries seen. *)
Fixpoint validate_loop (fuel : nat) (buffer : bytes) (offset : nat) (counted : Z)
    : option (nat * Z) :=
  match fuel with
  | O => Some (offset, counted)
  | S fuel =>
      if more buffer offset then
        match decodeAt buffer offset with
        | None => None
        | Some (size, _) => validate_loop fuel buffer (offset + size) (counted + 1)
        end
      else Some (offset, counted)
  end.

Definition fromBytes (bs : bytes) : option bytes :=
  if (length bs <? kListpackHeaderSize + 1)%nat then None
  else if negb (readLE32 bs =? Z.of_nat (length bs)) then None
  else if negb (bs !!! (length bs - 1)%nat =? kListpackEof) then None
  else
    match validate_loop (length bs) bs kListpackHeaderSize 0 with
    | None => None
    | Some (offset, counted) =>
        if negb (offset =? length bs - 1)%nat then None
        else
          let stored := storedCount bs in
          if (stored <? kListpackMaxInlineCount) && negb (stored =? counted) then None
          else Some bs
    end.

Example lp_sample_ops :
  let lp := append (append (append new (str "field")) (str "42")) (str "007") in
  toStrings lp = [str "field"; str "42"; str "007"] /\
  find lp (str "42") 0 1 = Some 1%nat /\ find lp (str "7") 0 1 = None /\
  toStrings (fst (eraseRange lp 0 2)) = [str "007"] /\
  fromBytes lp = Some lp.
Proof. vm_compute. done. Qed.

(** ** Bit patterns *)

Lemma tag7 b : is_byte b -> (Z.land b 128 =? 0) = (b <? 128).
Proof. unfold u_range. intros. byte_eqb 256%nat b. Qed.
Lemma tag6s b : is_byte b -> (Z.land b 192 =? 128) = (128 <=? b) && (b <? 192).
Proof. unfold u_range. intros. byte_eqb 256%nat b. Qed.
Lemma tag13 b : is_byte b -> (Z.land b 224 =? 192) = (192 <=? b) && (b <? 224).
Proof. unfold u_range. intros. byte_eqb 256%nat b. Qed.
Lemma tag12s b : is_byte b -> (Z.land b 240 =? 224) = (224 <=? b) && (b <? 240).
Proof. unfold u_range. intros. byte_eqb 256%nat b. Qed.

Lemma lor128 x : 0 <= x < 128 -> Z.lor 128 x = 128 + x.
Proof. intros. byte_eqb 128%nat x. Qed.
Lemma lor192 x : 0 <= x < 32 -> Z.lor 192 x = 192 + x.
Proof. intros. byte_eqb 32%nat x. Qed.
Lemma lor224 x : 0 <= x < 16 -> Z.lor 224 x = 224 + x.
Proof. intros. byte_eqb 16%nat x. Qed.
Lemma land63 x : 0 <= x < 64 -> Z.land (128 + x) 63 = x.
Proof. intros. byte_eqb 64%nat x. Qed.
Lemma land31 x : 0 <= x < 32 -> Z.land (192 + x) 31 = x.
Proof. intros. byte_eqb 32%nat x. Qed.
Lemma land15 x : 0 <= x < 16 -> Z.land (224 + x) 15 = x.
Proof. intros. byte_eqb 16%nat x. Qed.
Lemma land_31_mod z : Z.land z 31 = z mod 32.
Proof. change 31 with (Z.ones 5). by rewrite Z.land_ones by lia. Qed.
Lemma land_15_mod z : Z.land z 15 = z mod 16.
Proof. change 15 with (Z.ones 4). by rewrite Z.land_ones by lia. Qed.
Lemma land_8191 z : Z.land z 8191 = z mod 8192.
Proof. change 8191 with (Z.ones 13). by rewrite Z.land_ones by lia. Qed.

Lemma writeLE16_bytes v : writeLE16 v = le_bytes 2 v.
Proof. rewrite <- push_le_bytes. unfold push_le, writeLE16. simpl. by rewrite Z.shiftr_0_r. Qed.

Lemma writeLE32_bytes v : writeLE32 v = le_bytes 4 v.
Proof. rewrite <- push_le_bytes. unfold push_le, writeLE32. simpl. by rewrite Z.shiftr_0_r. Qed.

Lemma readLE16_app bs rest : length bs = 2%nat -> bytes_ok bs -> readLE16 (bs ++ rest) = le_val bs.
Proof.
  intros Hl Hb. unfold readLE16. change (Z.lor _ _) with (or_le 2 (bs ++ rest)).
  rewrite or_le_app by done. apply uwrap_small.
  pose proof (le_val_range bs Hb) as H. by rewrite Hl in H.
Qed.

Lemma readLE32_app bs rest : length bs = 4%nat -> bytes_ok bs -> readLE32 (bs ++ rest) = le_val bs.
Proof. intros. change (readLE32 _) with (or_le 4 (bs ++ rest)). by apply or_le_app. Qed.

(** ** Payloads *)

(** [pl] is a complete encoding of [e], whatever bytes follow it. *)
Definition payload_ok (pl : bytes) (e : elem) : Prop :=
  forall rest, decodePayload (pl ++ rest) = Some (length pl, e).

(** Evaluates the tag tests of [decodePayload] on a first byte [b] whose range
    is known. *)
Ltac tags b :=
  rewrite ?(tag7 b), ?(tag6s b), ?(tag13 b), ?(tag12s b) by (unfold u_range; lia);
  repeat match goal with
  | |- context [b <? ?c] =>
      (destruct (Z.ltb_spec b c); [lia|]) || (destruct (Z.ltb_spec b c); [|lia])
  | |- context [?c <=? b] =>
      (destruct (Z.leb_spec c b); [lia|]) || (destruct (Z.leb_spec c b); [|lia])
  end; cbn [andb].

Lemma payload_int7 n : 0 <= n <= 127 -> payload_ok [n] (Int n).
Proof.
  intros Hn rest. unfold decodePayload. change (([n] ++ rest) !!! 0%nat) with n. tags n.
  rewrite land_127, Z.mod_small by lia. done.
Qed.

Lemma payload_int13 raw :
  0 <= raw < 8192 ->
  payload_ok [192 + raw / 256; raw mod 256] (Int (if 4096 <=? raw then raw - 8192 else raw)).
Proof.
  intros Hr rest. unfold decodePayload. cbn [app length].
  change ((192 + raw / 256 :: raw mod 256 :: rest) !!! 0%nat) with (192 + raw / 256).
  change ((192 + raw / 256 :: raw mod 256 :: rest) !!! 1%nat) with (raw mod 256).
  assert (192 <= 192 + raw / 256 < 224) by dmlia. set (b := 192 + raw / 256) in *. tags b.
  unfold b. rewrite land31 by dmlia. rewrite land_low_shiftl by dmlia.
  rewrite uwrap_small by (unfold u_range; dmlia).
  replace (raw mod 256 + raw / 256 * 2 ^ 8) with raw by dmlia.
  by destruct (Nat.ltb_spec (S (S (length rest))) 2); [lia|].
Qed.

Lemma payload_int16 n : s_range 16 n -> payload_ok (241 :: le_bytes 2 n) (Int n).
Proof.
  intros Hn rest. unfold decodePayload. cbn [app length].
  change ((241 :: le_bytes 2 n ++ rest) !!! 0%nat) with 241.
  change (drop 1 (241 :: le_bytes 2 n ++ rest)) with (le_bytes 2 n ++ rest).
  rewrite readLE16_app by auto using length_le_bytes with mnemos.
  rewrite length_app, length_le_bytes. cbn -[le_bytes le_val swrap].
  do 3 f_equal. by apply (le_signed_round 2); [lia|].
Qed.

Lemma payload_int24 b1 b2 b3 :
  is_byte b1 -> is_byte b2 -> is_byte b3 ->
  let raw := b1 + b2 * 256 + b3 * 65536 in
  payload_ok [242; b1; b2; b3] (Int (if 8388608 <=? raw then raw - 16777216 else raw)).
Proof.
  unfold u_range. cbv zeta. intros H1 H2 H3 rest. unfold decodePayload. cbn [app length].
  set (p := 242 :: b1 :: b2 :: b3 :: rest).
  change (p !!! 0%nat) with 242. change (p !!! 1%nat) with b1.
  change (p !!! 2%nat) with b2. change (p !!! 3%nat) with b3.
  rewrite (lor_shiftl b1) by lia. rewrite lor_shiftl by lia. done.
Qed.

Lemma payload_int32 n : s_range 32 n -> payload_ok (243 :: le_bytes 4 n) (Int n).
Proof.
  intros Hn rest. unfold decodePayload. cbn [app length].
  change ((243 :: le_bytes 4 n ++ rest) !!! 0%nat) with 243.
  change (drop 1 (243 :: le_bytes 4 n ++ rest)) with (le_bytes 4 n ++ rest).
  rewrite readLE32_app by auto using length_le_bytes with mnemos.
  rewrite length_app, length_le_bytes. cbn -[le_bytes le_val swrap].
  do 3 f_equal. by apply (le_signed_round 4); [lia|].
Qed.

Lemma payload_int64 n : s_range 64 n -> payload_ok (244 :: le_bytes 8 n) (Int n).
Proof.
  intros Hn rest. unfold decodePayload. cbn [app length].
  change ((244 :: le_bytes 8 n ++ rest) !!! 0%nat) with 244.
  change (drop 1 (244 :: le_bytes 8 n ++ rest)) with (le_bytes 8 n ++ rest).
  rewrite or_le_app by auto using length_le_bytes with mnemos.
  rewrite length_app, length_le_bytes. cbn -[le_bytes le_val swrap].
  do 3 f_equal. by apply (le_signed_round 8); [lia|].
Qed.

Lemma encodeInteger_ok n : is_i64 n -> payload_ok (encodeInteger n) (Int n).
Proof.
  unfold s_range. change (64 - 1) with 63. intros Hn. unfold encodeInteger.
  destruct (_ && _) eqn:E7; bools.
  { rewrite uwrap_small by (unfold u_range; lia). by apply payload_int7. }
  destruct ((-4096 <=? n) && _) eqn:E13; bools.
  { cbv zeta. rewrite land_8191. unfold uwrap.
    assert ((n mod 2 ^ 16) mod 8192 = n mod 8192) as -> by dmlia.
    pose proof (payload_int13 (n mod 8192) ltac:(dmlia)) as Hp.
    replace (if 4096 <=? n mod 8192 then _ else _) with n in Hp
      by (destruct (Z.leb_spec 4096 (n mod 8192)); dmlia).
    rewrite land_31_mod, shiftr_div, land_255 by lia.
    rewrite (Z.mod_small (n mod 8192 / 2 ^ 8)), lor192 by dmlia.
    rewrite (Z.mod_small (192 + _)), (Z.mod_small (_ mod 256)) by dmlia. exact Hp. }
  destruct ((-32768 <=? n) && _) eqn:E16; bools.
  { rewrite writeLE16_bytes, le_bytes_uwrap by done. apply payload_int16. unfold s_range. lia. }
  destruct ((-8388608 <=? n) && _) eqn:E24; bools.
  { cbv zeta. unfold uwrap. rewrite !land_255, !shiftr_div by lia.
    set (raw := n mod 2 ^ 32). change (2 ^ 8) with 256. rewrite !Z.mod_mod by lia.
    pose proof (payload_int24 (raw mod 256) (raw / 256 mod 256) (raw / 2 ^ 16 mod 256)) as Hp.
    cbv zeta in Hp. replace (if _ <=? _ then _ else _) with n in Hp.
    - apply Hp; unfold u_range; dmlia.
    - unfold raw. case_if; bools; dmlia. }
  destruct ((-2147483648 <=? n) && _) eqn:E32; bools.
  - rewrite writeLE32_bytes, le_bytes_uwrap by done. apply payload_int32. unfold s_range. lia.
  - rewrite push_le_bytes, le_bytes_uwrap by done. apply payload_int64. unfold s_range. lia.
Qed.

(** A string header [h] announcing [len] bytes, followed by those bytes. *)
Lemma payload_string_take (h v rest : bytes) :
  take (length v) (drop (length h) ((h ++ v) ++ rest)) = v.
Proof. by rewrite <- app_assoc, drop_app_length, take_app_length. Qed.

Lemma encodeString_ok v : Z.of_nat (length v) < 2 ^ 32 -> payload_ok (encodeString v) (Str v).
Proof.
  intros Hl rest. unfold encodeString. cbv zeta. set (len := Z.of_nat (length v)) in *.
  destruct (Z.ltb_spec len 64).
  { rewrite lor128, uwrap_small by (unfold u_range; lia).
    pose proof (payload_string_take [128 + len] v rest) as Ht. revert Ht.
    unfold decodePayload. rewrite !length_app. cbn [length].
    change ((([128 + len] ++ v) ++ rest) !!! 0%nat) with (128 + len).
    set (b := 128 + len). assert (128 <= b < 192) by lia. tags b. unfold b. rewrite land63 by lia.
    unfold len. rewrite Nat2Z.id. intros ->.
    destruct (Nat.ltb_spec (1 + length v + length rest) (1 + length v)); [lia|done]. }
  destruct (Z.ltb_spec len 4096).
  { rewrite land_15_mod, shiftr_div, land_255 by lia.
    rewrite (Z.mod_small (len / 2 ^ 8)), lor224 by dmlia. rewrite !uwrap_small by (unfold u_range; dmlia).
    pose proof (payload_string_take [224 + len / 2 ^ 8; len mod 256] v rest) as Ht. revert Ht.
    unfold decodePayload. rewrite !length_app. cbn [length].
    match goal with |- context [(([?a; ?c] ++ v) ++ rest)] =>
      change ((([a; c] ++ v) ++ rest) !!! 0%nat) with a;
      change ((([a; c] ++ v) ++ rest) !!! 1%nat) with c end.
    assert (224 <= 224 + len / 2 ^ 8 < 240) by dmlia. set (b := 224 + len / 2 ^ 8) in *. tags b. unfold b.
    rewrite land15 by dmlia. rewrite land_low_shiftl by dmlia.
    replace (len mod 256 + len / 2 ^ 8 * 2 ^ 8) with len by dmlia.
    unfold len. rewrite Nat2Z.id. intros ->.
    destruct (Nat.ltb_spec (2 + length v + length rest) 2); [lia|].
    destruct (Nat.ltb_spec (2 + length v + length rest) (2 + length v)); [lia|done]. }
  rewrite writeLE32_bytes, le_bytes_uwrap by done.
  pose proof (payload_string_take (240 :: le_bytes 4 len) v rest) as Ht. revert Ht.
  unfold decodePayload. rewrite !length_app. cbn [length]. rewrite length_le_bytes.
  change ((((240 :: le_bytes 4 len) ++ v) ++ rest) !!! 0%nat) with 240.
  change (drop 1 (((240 :: le_bytes 4 len) ++ v) ++ rest)) with ((le_bytes 4 len ++ v) ++ rest).
  rewrite <- (app_assoc (le_bytes 4 len)), readLE32_app by auto using length_le_bytes with mnemos.
  rewrite le_val_bytes_small by (unfold u_range; cbn; lia). 
  replace (Z.to_nat len) with (length v) by (unfold len; lia).
  intros ->. cbn -[Nat.ltb Nat.add].
  destruct (Nat.ltb_spec (5 + length v + length rest) 5); [lia|].
  destruct (Nat.ltb_spec (5 + length v + length rest) (5 + length v)); [lia|done].
Qed.

(** ** Entries *)

(** The element a value is stored as. *)
Definition elem_of_value (v : bytes) : elem :=
  match stringToInt64 v with Some n => Int n | None => Str v end.

(** [chunk] is the complete on-wire entry of [e], whatever follows it. *)
Definition entry_ok (chunk : bytes) (e : elem) : Prop :=
  forall rest, decodeEntry (chunk ++ rest) = Some (length chunk, e).

Lemma withBacklen_ok pl e : payload_ok pl e -> entry_ok (withBacklen pl) e.
Proof.
  intros H rest. unfold decodeEntry, withBacklen. rewrite <- app_assoc, H, !length_app.
  by destruct (Nat.ltb_spec
    (length pl + (length (encodeBacklen (Z.of_nat (length pl))) + length rest))
    (length pl + length (encodeBacklen (Z.of_nat (length pl))))); [lia|].
Qed.

Lemma buildEntry_ok v :
  Z.of_nat (length v) < 2 ^ 32 -> entry_ok (buildEntry v) (elem_of_value v).
Proof.
  intros Hv. unfold buildEntry, elem_of_value. apply withBacklen_ok.
  destruct (stringToInt64 v) as [n|] eqn:E; [|by apply encodeString_ok].
  apply encodeInteger_ok. by apply stringToInt64_sound in E as [? _].
Qed.

Lemma buildIntegerEntry_ok n : is_i64 n -> entry_ok (buildIntegerEntry n) (Int n).
Proof. intros. by apply withBacklen_ok, encodeInteger_ok. Qed.

Lemma decodePayload_size p n e : decodePayload p = Some (n, e) -> (1 <= n)%nat.
Proof.
  unfold decodePayload. cbv zeta. intros H.
  repeat (case_match; simplify_eq; try lia).
Qed.

Lemma entry_ok_cons c e : entry_ok c e -> exists b c', c = b :: c' /\ b <> 255.
Proof.
  intros H. specialize (H []). rewrite app_nil_r in H. unfold decodeEntry in H.
  destruct (decodePayload c) as [[n e']|] eqn:E; [|done].
  pose proof (decodePayload_size _ _ _ E).
  destruct c as [|b c']; [by case_match; simplify_eq/=; lia|].
  exists b, c'. split; [done|]. by intros ->.
Qed.

(** ** Layout *)

(** The six header bytes for a total size and a (saturating) count. *)
Definition header (size count : Z) : bytes :=
  le_bytes 4 size ++ le_bytes 2 (Z.min count 65535).

(** The bytes of a listpack with the given entries and the given count. *)
Definition layout (k : Z) (chunks : list bytes) : bytes :=
  header (Z.of_nat (7 + length (concat chunks))) k ++ concat chunks ++ [255].

(** The count the header may carry: exact, or saturated ("walk to count"). *)
Definition counts (k : Z) (n : nat) : Prop := k = Z.of_nat n \/ 65535 <= k.

Definition repr (buffer : bytes) (es : list elem) : Prop :=
  exists k chunks,
    Forall2 entry_ok chunks es /\ counts k (length chunks) /\ buffer = layout k chunks.

Lemma chunks_length cs es :
  Forall2 entry_ok cs es -> (length cs <= length (concat cs))%nat.
Proof.
  induction 1 as [|c e cs es Hc _ IH]; [done|]. simpl. rewrite length_app.
  apply entry_ok_cons in Hc as (b & c' & -> & _). simpl. lia.
Qed.

Section Walk.
(** Walking the entries [cs] from the offset [length pre]. *)
Variables (pre : bytes).
Abbreviation buf cs := (pre ++ concat cs ++ [255]).

Lemma more_entry c e cs : entry_ok c e -> more (buf (c :: cs)) (length pre) = true.
Proof.
  intros (b & c' & -> & Hb)%entry_ok_cons. unfold more. simpl.
  rewrite length_app. simpl. rewrite lookup_total_app_r, Nat.sub_diag by lia. simpl.
  apply andb_true_iff. split; [apply Nat.ltb_lt; lia|].
  apply negb_true_iff, Z.eqb_neq. done.
Qed.

Lemma more_eof : more (buf []) (length pre) = false.
Proof.
  unfold more. simpl. rewrite lookup_total_app_r, Nat.sub_diag by lia. simpl. apply andb_false_r.
Qed.

Lemma decodeAt_entry c e cs :
  entry_ok c e -> decodeAt (buf (c :: cs)) (length pre) = Some (length c, e).
Proof.
  intros Hc. unfold decodeAt. simpl. rewrite drop_app_length, <- app_assoc, Hc.
  apply entry_ok_cons in Hc as (b & c' & -> & _). rewrite length_app. simpl.
  by destruct (Nat.leb_spec (length pre + S (length (c' ++ concat cs ++ [255]))) (length pre)); [lia|].
Qed.

Lemma buf_cons c cs : buf (c :: cs) = (pre ++ c) ++ concat cs ++ [255].
Proof. simpl. by rewrite !app_assoc. Qed.
End Walk.

(** Steps a walk over one entry. *)
Ltac walk_entry H :=
  rewrite ?(more_entry _ _ _ _ H), ?(decodeAt_entry _ _ _ _ H); cbn [negb];
  rewrite ?buf_cons, <- ?length_app.

Lemma forEach_walk fuel pre cs es :
  Forall2 entry_ok cs es -> (length cs < fuel)%nat ->
  forEach_loop fuel (pre ++ concat cs ++ [255]) (length pre) = es.
Proof.
  intros H. revert fuel pre. induction H as [|c e cs es Hc _ IH]; intros [|fuel] pre Hf; try lia;
    cbn [forEach_loop length] in *.
  - by rewrite more_eof.
  - walk_entry Hc. rewrite IH by lia. done.
Qed.

Lemma offsetOf_walk fuel pre cs es cur i :
  Forall2 entry_ok cs es -> (length cs < fuel)%nat ->
  offsetOf_loop fuel (pre ++ concat cs ++ [255]) (length pre) cur (cur + i) =
    if (i <? length cs)%nat then Some (length (pre ++ concat (take i cs))) else None.
Proof.
  intros H. revert fuel pre cur i.
  induction H as [|c e cs es Hc _ IH]; intros [|fuel] pre cur i Hf; try lia;
    cbn [offsetOf_loop length] in *.
  - by rewrite more_eof.
  - walk_entry Hc. destruct i as [|i].
    + rewrite Nat.add_0_r, Nat.eqb_refl. simpl. by rewrite app_nil_r.
    + destruct (Nat.eqb_spec cur (cur + S i)); [lia|].
      replace (cur + S i)%nat with (S cur + i)%nat by lia.
      rewrite IH by lia. cbn [take concat].
      rewrite <- app_assoc. by destruct (Nat.ltb_spec i (length cs)), (Nat.ltb_spec (S i) (S (length cs))); try lia.
Qed.

Lemma skip_walk count pre cs es :
  Forall2 entry_ok cs es ->
  skipEntries count (pre ++ concat cs ++ [255]) (length pre) =
    if (count <=? length cs)%nat then Some (length (pre ++ concat (take count cs))) else None.
Proof.
  intros H. revert count pre. induction H as [|c e cs es Hc _ IH]; intros [|count] pre;
    cbn [skipEntries length] in *.
  - simpl. by rewrite app_nil_r.
  - by rewrite more_eof.
  - simpl. by rewrite app_nil_r.
  - walk_entry Hc. rewrite IH. cbn [take concat]. rewrite <- app_assoc.
    by destruct (Nat.leb_spec count (length cs)), (Nat.leb_spec (S count) (S (length cs))); try lia.
Qed.

(** The first element at a position selected by [start] and [step] that
    matches [value], counting from [index]. *)
Fixpoint find_from (value : bytes) (start step index : nat) (es : list elem) : option nat :=
  match es with
  | [] => None
  | e :: es =>
      if (start <=? index)%nat && ((index - start) mod step =? 0)%nat && elem_matches value e
      then Some index else find_from value start step (S index) es
  end.

Lemma find_walk fuel value start step pre cs es index :
  Forall2 entry_ok cs es -> (length cs < fuel)%nat ->
  find_loop fuel (pre ++ concat cs ++ [255]) value start step (length pre) index =
    find_from value start step index es.
Proof.
  intros H. revert fuel pre index.
  induction H as [|c e cs es Hc _ IH]; intros [|fuel] pre index Hf; try lia;
    cbn [find_loop find_from length] in *.
  - by rewrite more_eof.
  - walk_entry Hc. rewrite IH by lia. done.
Qed.

Lemma validate_walk fuel pre cs es counted :
  Forall2 entry_ok cs es -> (length cs < fuel)%nat ->
  validate_loop fuel (pre ++ concat cs ++ [255]) (length pre) counted =
    Some (length (pre ++ concat cs), counted + Z.of_nat (length cs)).
Proof.
  intros H. revert fuel pre counted.
  induction H as [|c e cs es Hc _ IH]; intros [|fuel] pre counted Hf; try lia;
    cbn [validate_loop length] in *.
  - rewrite more_eof. simpl. by rewrite app_nil_r, Z.add_0_r.
  - walk_entry Hc. rewrite IH by lia. cbn [concat]. rewrite <- app_assoc. do 2 f_equal. lia.
Qed.

(** ** Header updates *)

Lemma length_header a n : length (header a n) = 6%nat.
Proof. unfold header. by rewrite length_app, !length_le_bytes. Qed.

Lemma setTotalBytes_header a n body v :
  setTotalBytes (header a n ++ body) (u32 v) = header v n ++ body.
Proof.
  unfold setTotalBytes, header. rewrite writeLE32_bytes, le_bytes_uwrap, <- !app_assoc by done.
  apply (voverwrite_app []). by rewrite !length_le_bytes.
Qed.

Lemma setNumElements_header a n body v :
  0 <= v -> setNumElements (header a n ++ body) v = header a v ++ body.
Proof.
  intros Hv. unfold setNumElements, header. rewrite writeLE16_bytes, le_bytes_uwrap by done.
  rewrite <- !app_assoc.
  replace 4%nat with (length (le_bytes 4 a)) at 1 by apply length_le_bytes.
  apply voverwrite_app. by rewrite !length_le_bytes.
Qed.

Lemma storedCount_header a n body : 0 <= n -> storedCount (header a n ++ body) = Z.min n 65535.
Proof.
  intros Hn. unfold storedCount, header. rewrite <- app_assoc, (drop_app_at 4) by by rewrite length_le_bytes.
  rewrite readLE16_app by auto using length_le_bytes with mnemos.
  apply le_val_bytes_small. unfold u_range. cbn. lia.
Qed.

Lemma countOneMore_header a n body :
  0 <= n -> countOneMore (header a n ++ body) = header (Z.of_nat (6 + length body)) (n + 1) ++ body.
Proof.
  intros Hn. unfold countOneMore. cbv zeta.
  rewrite setTotalBytes_header, storedCount_header, length_app, length_header by done.
  unfold kListpackMaxInlineCount. destruct (Z.ltb_spec (Z.min n 65535) 65535).
  - rewrite setNumElements_header by lia. unfold header. do 3 f_equal. lia.
  - unfold header. do 3 f_equal. lia.
Qed.

(** ** Every buffer below is [layout k chunks] for some entries *)

Section Ops.
Variables (k : Z) (cs : list bytes) (es : list elem).
Hypothesis Hes : Forall2 entry_ok cs es.
Hypothesis Hk : counts k (length cs).

(** The bytes before the first entry. *)
Abbreviation hd := (header (Z.of_nat (7 + length (concat cs))) k).

Lemma counts_nonneg : 0 <= k.
Proof. unfold counts in Hk. lia. Qed.

Lemma cs_es : length cs = length es.
Proof. by eapply Forall2_length. Qed.

Lemma layout_length : length (layout k cs) = (7 + length (concat cs))%nat.
Proof. unfold layout. rewrite !length_app, length_header. simpl. lia. Qed.

Lemma layout_fuel : (length cs < length (layout k cs))%nat.
Proof. pose proof (chunks_length _ _ Hes). rewrite layout_length. lia. Qed.

Lemma forEach_layout : forEach (layout k cs) = es.
Proof.
  pose proof (forEach_walk (length (layout k cs)) hd cs es Hes layout_fuel) as H.
  rewrite length_header in H. exact H.
Qed.

Lemma numElements_layout : numElements (layout k cs) = length es.
Proof.
  unfold numElements. rewrite forEach_layout. unfold layout.
  rewrite storedCount_header by apply counts_nonneg. unfold kListpackMaxInlineCount.
  pose proof cs_es. unfold counts in Hk. by case_if; bools; lia.
Qed.

Lemma offsetOf_layout i :
  offsetOf (layout k cs) i =
    if (i <? length cs)%nat
    then Some (6 + length (concat (take i cs)))%nat else None.
Proof.
  pose proof (offsetOf_walk (length (layout k cs)) hd cs es 0 i Hes layout_fuel) as H.
  rewrite length_app, !length_header in H. exact H.
Qed.

Lemma find_layout value start step :
  find (layout k cs) value start step = find_from value start step 0 es.
Proof.
  pose proof (find_walk (length (layout k cs)) value start step hd cs es 0 Hes layout_fuel) as H.
  rewrite length_header in H. exact H.
Qed.

(** Splitting the entries at [i] splits the buffer at the offset of [i]. *)
Lemma layout_split i :
  layout k cs = (hd ++ concat (take i cs)) ++ concat (drop i cs) ++ [255].
Proof.
  unfold layout. rewrite <- (take_drop i cs) at 2. rewrite concat_app. by rewrite <- !app_assoc.
Qed.

Lemma offset_split i :
  (6 + length (concat (take i cs)))%nat = length (hd ++ concat (take i cs)).
Proof. by rewrite length_app, length_header. Qed.

Lemma get_layout i : get (layout k cs) i = es !! i.
Proof.
  unfold get. rewrite offsetOf_layout. pose proof cs_es.
  destruct (Nat.ltb_spec i (length cs)) as [Hi|Hi].
  - destruct (lookup_lt_is_Some_2 es i) as [e He]; [lia|].
    destruct (lookup_lt_is_Some_2 cs i Hi) as [c Hc].
    pose proof (Forall2_lookup_lr _ _ _ _ _ _ Hes Hc He) as Hce.
    rewrite (layout_split i), (drop_S _ _ _ Hc), (offset_split i), (decodeAt_entry _ _ _ _ Hce).
    by rewrite He.
  - by rewrite lookup_ge_None_2 by lia.
Qed.

(** Splicing one entry in before position [i] and updating the header. *)
Lemma countOneMore_layout i c :
  countOneMore (vinsert (6 + length (concat (take i cs))) c (layout k cs)) =
    layout (k + 1) (take i cs ++ [c] ++ drop i cs).
Proof.
  rewrite (layout_split i), (offset_split i), vinsert_app, <- app_assoc.
  rewrite countOneMore_header by apply counts_nonneg. unfold layout.
  rewrite !concat_app, <- !app_assoc. f_equal; [|simpl; by rewrite app_nil_r].
  f_equal. rewrite !length_app. cbn [length concat app]. rewrite app_nil_r. lia.
Qed.

Lemma layout_last :
  (length (layout k cs) - 1)%nat = (6 + length (concat (take (length cs) cs)))%nat.
Proof. rewrite layout_length, firstn_all. lia. Qed.

Lemma splice_repr i c e :
  entry_ok c e ->
  repr (layout (k + 1) (take i cs ++ [c] ++ drop i cs)) (take i es ++ [e] ++ drop i es).
Proof.
  intros Hc. exists (k + 1), (take i cs ++ [c] ++ drop i cs). split_and!; [|..|done].
  - auto using Forall2_app, Forall2_take, Forall2_drop, Forall2_cons.
  - unfold counts in *. rewrite !length_app, length_take, length_drop. cbn [length]. lia.
Qed.

Lemma setTotalBytes_layout a body :
  setTotalBytes (header a k ++ body) (u32 (Z.of_nat (length (header a k ++ body)))) =
  header (Z.of_nat (6 + length body)) k ++ body.
Proof. by rewrite setTotalBytes_header, length_app, length_header. Qed.
End Ops.

(** ** Mutators on represented sequences *)

Lemma repr_new : repr new [].
Proof. exists 0, []. split_and!; [constructor|by left|reflexivity]. Qed.

Lemma repr_clear b : repr (clear b) [].
Proof. exists 0, []. split_and!; [constructor|by left|reflexivity]. Qed.

Lemma repr_push b es c e :
  repr b es -> entry_ok c e ->
  repr (countOneMore (vinsert (length b - 1) c b)) (es ++ [e]).
Proof.
  intros (k & cs & Hes & Hk & ->) Hc. rewrite layout_last, (countOneMore_layout k cs Hk (length cs)).
  pose proof (splice_repr k cs es Hes Hk (length cs) c e Hc) as H.
  rewrite (Forall2_length _ _ _ Hes) in *. rewrite (firstn_all es), (drop_all es) in H.
  by rewrite app_nil_r in H.
Qed.

Lemma repr_append b es v :
  repr b es -> Z.of_nat (length v) < 2 ^ 32 -> repr (append b v) (es ++ [elem_of_value v]).
Proof. intros. apply repr_push; [done|]. by apply buildEntry_ok. Qed.

Lemma repr_appendInteger b es n :
  repr b es -> is_i64 n -> repr (appendInteger b n) (es ++ [Int n]).
Proof. intros. apply repr_push; [done|]. by apply buildIntegerEntry_ok. Qed.

Lemma insertAt_repr b es i v :
  repr b es -> Z.of_nat (length v) < 2 ^ 32 -> (i <= length es)%nat ->
  exists b', insertAt b i v = (b', true) /\ repr b' (take i es ++ [elem_of_value v] ++ drop i es).
Proof.
  intros (k & cs & Hes & Hk & ->) Hv Hi. pose proof (Forall2_length _ _ _ Hes) as Hl.
  exists (layout (k + 1) (take i cs ++ [buildEntry v] ++ drop i cs)). split.
  - unfold insertAt. rewrite (numElements_layout k cs es Hes Hk), (offsetOf_layout k cs es Hes), layout_last.
    destruct (Nat.eqb_spec i (length es)) as [->|Hne].
    + by rewrite <- Hl, (countOneMore_layout k cs Hk (length cs)).
    + destruct (Nat.ltb_spec i (length cs)); [|lia]. by rewrite countOneMore_layout.
  - apply splice_repr; [done..|]. by apply buildEntry_ok.
Qed.

Lemma insertAt_out b es i v :
  repr b es -> (length es < i)%nat -> insertAt b i v = (b, false).
Proof.
  intros (k & cs & Hes & Hk & ->) Hi. pose proof (Forall2_length _ _ _ Hes) as Hl.
  unfold insertAt. rewrite (numElements_layout k cs es Hes Hk), (offsetOf_layout k cs es Hes).
  destruct (Nat.eqb_spec i (length es)); [lia|].
  by destruct (Nat.ltb_spec i (length cs)); [lia|].
Qed.

(** Removing the entries [i .. i + n) of a layout, header left to the caller. *)
Lemma verase_layout cs i n a k :
  (i + n <= length cs)%nat ->
  verase (6 + length (concat (take i cs))) (6 + length (concat (take i cs)) + length (concat (take n (drop i cs))))
    (header a k ++ concat cs ++ [255]) =
  (header a k ++ concat (take i cs)) ++ concat (drop (i + n) cs) ++ [255].
Proof.
  intros Hn.
  rewrite <- (take_drop i cs) at 4. rewrite <- (take_drop n (drop i cs)) at 2.
  rewrite drop_drop, !concat_app, <- !app_assoc, (app_assoc (header a k)).
  replace (6 + length (concat (take i cs)))%nat with (length (header a k ++ concat (take i cs)))
    by (rewrite length_app, length_header; done).
  rewrite verase_app. by rewrite <- !app_assoc.
Qed.

Lemma replaceAt_repr b es i v :
  repr b es -> Z.of_nat (length v) < 2 ^ 32 -> (i < length es)%nat ->
  exists b', replaceAt b i v = (b', true) /\ repr b' (<[i := elem_of_value v]> es).
Proof.
  intros (k & cs & Hes & Hk & ->) Hv Hi. pose proof (Forall2_length _ _ _ Hes) as Hl.
  destruct (lookup_lt_is_Some_2 es i) as [e He]; [lia|].
  destruct (lookup_lt_is_Some_2 cs i ltac:(lia)) as [c Hc].
  pose proof (Forall2_lookup_lr _ _ _ _ _ _ Hes Hc He) as Hce.
  exists (layout k (<[i := buildEntry v]> cs)). split.
  - unfold replaceAt. rewrite (offsetOf_layout k cs es Hes).
    destruct (Nat.ltb_spec i (length cs)); [|lia].
    rewrite (layout_split k cs i), (drop_S _ _ _ Hc) at 1.
    rewrite (offset_split k cs i) at 1. rewrite (decodeAt_entry _ _ _ _ Hce).
    pose proof (verase_layout cs i 1 (Z.of_nat (7 + length (concat cs))) k ltac:(lia)) as Ht.
    rewrite (drop_S _ _ _ Hc) in Ht. cbn [take concat] in Ht. rewrite take_0 in Ht.
    cbn [concat] in Ht. rewrite app_nil_r in Ht. cbv zeta. unfold layout at 1 2. rewrite Ht. clear Ht.
    rewrite (offset_split k cs i), vinsert_app, <- app_assoc, setTotalBytes_layout.
    unfold layout. rewrite insert_take_drop, concat_app by done. cbn [concat].
    rewrite <- !app_assoc, Nat.add_1_r. do 3 f_equal. rewrite !length_app. cbn [length]. lia.
  - eexists _, _. split_and!; [| |done].
    + apply Forall2_insert; [done|]. by apply buildEntry_ok.
    + by rewrite length_insert.
Qed.

Lemma replaceAt_out b es i v :
  repr b es -> (length es <= i)%nat -> replaceAt b i v = (b, false).
Proof.
  intros (k & cs & Hes & Hk & ->) Hi. pose proof (Forall2_length _ _ _ Hes) as Hl.
  unfold replaceAt. rewrite (offsetOf_layout k cs es Hes).
  by destruct (Nat.ltb_spec i (length cs)); [lia|].
Qed.

(** The header update after [n] of the [k] counted entries are gone: below
    saturation the stored count is decremented, above it the entries are
    counted again. *)
Lemma erase_recount cs es a k n :
  Forall2 entry_ok cs es -> counts k (n + length cs) ->
  let buffer := header a k ++ concat cs ++ [255] in
  (if storedCount buffer <? kListpackMaxInlineCount then
     setNumElements buffer
       (if Z.of_nat n <=? storedCount buffer then storedCount buffer - Z.of_nat n else 0)
   else setNumElements buffer (Z.of_nat (numElements buffer))) =
  header a (Z.of_nat (length cs)) ++ concat cs ++ [255].
Proof.
  intros Hes Hk buffer. unfold counts in Hk. unfold buffer, numElements.
  rewrite storedCount_header by lia.
  unfold kListpackMaxInlineCount. destruct (Z.ltb_spec (Z.min k 65535) 65535).
  - destruct (Z.leb_spec (Z.of_nat n) (Z.min k 65535)); [|lia].
    rewrite setNumElements_header by lia. unfold header. do 3 f_equal. lia.
  - rewrite setNumElements_header by lia. do 2 f_equal.
    pose proof (forEach_walk (length buffer) (header a k) cs es Hes) as Hw. rewrite length_header in Hw.
    unfold forEach, kListpackHeaderSize. fold buffer in Hw |- *. rewrite Hw.
    + by rewrite (Forall2_length _ _ _ Hes).
    + pose proof (chunks_length _ _ Hes). unfold buffer. rewrite !length_app, length_header. lia.
Qed.

Lemma eraseRange_repr b es i n :
  repr b es -> (0 < n)%nat -> (i + n <= length es)%nat ->
  exists b', eraseRange b i n = (b', true) /\ repr b' (take i es ++ drop (i + n) es).
Proof.
  intros (k & cs & Hes & Hk & ->) Hn Hi. pose proof (Forall2_length _ _ _ Hes) as Hl.
  exists (layout (Z.of_nat (length (take i cs ++ drop (i + n) cs))) (take i cs ++ drop (i + n) cs)).
  assert (Forall2 entry_ok (take i cs ++ drop (i + n) cs) (take i es ++ drop (i + n) es)) as Hes'
    by auto using Forall2_app, Forall2_take, Forall2_drop.
  split; [|by eexists _, _; split_and!; [done|by left|done]].
  unfold eraseRange. rewrite (offsetOf_layout k cs es Hes).
  destruct (Nat.eqb_spec n 0); [lia|]. destruct (Nat.ltb_spec i (length cs)); [|lia].
  rewrite (layout_split k cs i) at 1. rewrite (offset_split k cs i) at 1.
  rewrite (skip_walk _ _ _ (drop i es)) by by apply Forall2_drop.
  destruct (Nat.leb_spec n (length (drop i cs))) as [_|Hd]; [|rewrite length_drop in Hd; lia].
  cbv zeta. rewrite length_app, <- (offset_split k cs i). unfold layout.
  rewrite verase_layout, <- app_assoc by lia. rewrite setTotalBytes_layout.
  rewrite (app_assoc (concat _)), <- concat_app.
  rewrite (erase_recount _ _ _ _ n Hes').
  2: { rewrite length_app, length_take, length_drop. unfold counts in *. lia. }
  do 3 f_equal. rewrite length_app. f_equal. simpl. lia.
Qed.

Lemma eraseRange_zero b i : eraseRange b i 0 = (b, true).
Proof. done. Qed.

Lemma eraseRange_out b es i n :
  repr b es -> (0 < n)%nat -> (length es < i + n)%nat -> eraseRange b i n = (b, false).
Proof.
  intros (k & cs & Hes & Hk & ->) Hn Hi. pose proof (Forall2_length _ _ _ Hes) as Hl.
  unfold eraseRange. rewrite (offsetOf_layout k cs es Hes).
  destruct (Nat.eqb_spec n 0); [lia|]. destruct (Nat.ltb_spec i (length cs)); [|done].
  rewrite (layout_split k cs i) at 1. rewrite (offset_split k cs i) at 1.
  rewrite (skip_walk _ _ _ (drop i es)) by by apply Forall2_drop.
  destruct (Nat.leb_spec n (length (drop i cs))) as [Hd|_]; [rewrite length_drop in Hd; lia|done].
Qed.

(** ** The byte strings a listpack stores *)

(** [stores b vs]: the buffer [b] is the listpack of the strings [vs], each in
    the encoding the code chooses for it. *)
Definition stores (b : bytes) (vs : list bytes) : Prop := repr b (map elem_of_value vs).

(** The entry format holds at most a 32-bit length. *)
Definition storable (v : bytes) : Prop := Z.of_nat (length v) < 2 ^ 32.

#[global] Instance storable_dec v : Decision (storable v).
Proof. unfold storable. apply _. Defined.

Lemma toString_elem v : toString (elem_of_value v) = v.
Proof.
  unfold elem_of_value. destruct (stringToInt64 v) as [n|] eqn:E; [|done].
  by apply stringToInt64_sound in E as [_ ->].
Qed.

Lemma elem_of_int n : is_i64 n -> elem_of_value (to_string n) = Int n.
Proof. intros. unfold elem_of_value. by rewrite stringToInt64_to_string. Qed.

Lemma elem_matches_value v w : elem_matches v (elem_of_value w) = bool_decide (w = v).
Proof.
  unfold elem_matches, elem_of_value.
  destruct (stringToInt64 w) as [n|] eqn:Ew, (stringToInt64 v) as [m|] eqn:Ev.
  - apply stringToInt64_sound in Ew as [? ->], Ev as [? ->].
    destruct (Z.eqb_spec n m) as [->|Hne]; case_bool_decide as Hb; try done.
    by apply to_string_inj in Hb.
  - case_bool_decide; [congruence|done].
  - case_bool_decide; [congruence|done].
  - done.
Qed.

Lemma forEach_repr b es : repr b es -> forEach b = es.
Proof. intros (k & cs & Hes & Hk & ->). by apply forEach_layout. Qed.

Lemma map_toString vs : map toString (map elem_of_value vs) = vs.
Proof. induction vs; simpl; [done|]. by rewrite toString_elem, IHvs. Qed.

Lemma map_insert_elem i v vs :
  map elem_of_value (<[i := v]> vs) = <[i := elem_of_value v]> (map elem_of_value vs).
Proof. apply list_fmap_insert. Qed.

(** The first position [i >= start] with [step | i - start] that holds [v]. *)
Definition first_at (vs : list bytes) (v : bytes) (start step i : nat) : Prop :=
  (start <= i)%nat /\ ((i - start) mod step = 0)%nat /\ vs !! i = Some v /\
  forall j, (start <= j < i)%nat -> ((j - start) mod step = 0)%nat -> vs !! j <> Some v.

Lemma find_from_spec v start step index vs :
  match find_from v start step index (map elem_of_value vs) with
  | Some k => exists i, k = (index + i)%nat /\ (start <= k)%nat /\ ((k - start) mod step = 0)%nat /\
      vs !! i = Some v /\
      forall j, (j < i)%nat -> (start <= index + j)%nat -> ((index + j - start) mod step = 0)%nat -> vs !! j <> Some v
  | None => forall j, (start <= index + j)%nat -> ((index + j - start) mod step = 0)%nat -> vs !! j <> Some v
  end.
Proof.
  revert index. induction vs as [|w vs IH]; intros index; cbn [map find_from].
  { intros j _ _. by rewrite lookup_nil. }
  rewrite elem_matches_value.
  destruct ((start <=? index)%nat && _ && _) eqn:Hc.
  - apply andb_true_iff in Hc as [Hc ->%bool_decide_eq_true]. bools.
    exists 0%nat. rewrite Nat.add_0_r. repeat split; try done. intros j Hj. lia.
  - assert (forall j, j = 0%nat -> (start <= index + j)%nat -> ((index + j - start) mod step = 0)%nat ->
      (w :: vs) !! j <> Some v) as H0.
    { intros j -> H1 H2 [= ->]. rewrite Nat.add_0_r in *.
      rewrite (proj2 (Nat.leb_le _ _) H1), H2, bool_decide_true in Hc by done. done. }
    specialize (IH (S index)). destruct (find_from _ _ _ _ _) as [k|].
    + destruct IH as (i & -> & H1 & H2 & H3 & H4). exists (S i).
      repeat split; try done; [lia|]. intros [|j] Hj; [by apply H0|].
      replace (index + S j)%nat with (S index + j)%nat by lia. apply H4. lia.
    + intros [|j]; [by apply H0|]. replace (index + S j)%nat with (S index + j)%nat by lia. apply IH.
Qed.

Lemma find_stores b vs v start step :
  stores b vs ->
  match find b v start step with
  | Some i => first_at vs v start step i
  | None => forall i, ~ first_at vs v start step i
  end.
Proof.
  intros (k & cs & Hes & Hk & ->). rewrite (find_layout k _ _ Hes).
  pose proof (find_from_spec v start step 0 vs) as H.
  destruct (find_from _ _ _ _ _) as [m|].
  - destruct H as (i & -> & H1 & H2 & H3 & H4). simpl in *.
    split; [done|]. split; [done|]. split; [done|]. intros j ?. apply H4; lia.
  - intros i (H1 & H2 & H3 & _). by apply (H i).
Qed.

(** ** Validation of untrusted bytes *)

(** A decoded payload depends only on the bytes it covers. *)
Section Prefix.
Variables (p q : bytes) (n : nat).
Hypothesis Hq : take n q = take n p.

Lemma prefix_byte i : (i < n)%nat -> q !!! i = p !!! i.
Proof.
  intros. rewrite !list_lookup_total_alt, <- (lookup_take_lt q n i), <- (lookup_take_lt p n i) by done.
  by rewrite Hq.
Qed.

Lemma prefix_sub a len : (a + len <= n)%nat -> take len (drop a q) = take len (drop a p).
Proof.
  intros. rewrite !take_drop_commute.
  assert (forall l : bytes, take (a + len) l = take (a + len) (take n l)) as Ht
    by (intros; rewrite take_take; f_equal; lia).
  by rewrite (Ht q), (Ht p), Hq.
Qed.

Lemma prefix_or_le a k : (a + k <= n)%nat -> or_le k (drop a q) = or_le k (drop a p).
Proof.
  intros. unfold or_le.
  assert (forall l acc, Forall (fun i => i < k)%nat l ->
    foldl (fun raw i => Z.lor raw (Z.shiftl (drop a q !!! i) (8 * Z.of_nat i))) acc l =
    foldl (fun raw i => Z.lor raw (Z.shiftl (drop a p !!! i) (8 * Z.of_nat i))) acc l) as Hf.
  { induction l as [|i l IH]; intros acc Hl; [done|]. inversion_clear Hl. simpl.
    rewrite !lookup_total_drop, prefix_byte by lia. by apply IH. }
  apply Hf. apply Forall_forall. intros i Hi%elem_of_seq. lia.
Qed.
End Prefix.

Lemma decodePayload_agree p q n e :
  take n q = take n p -> (n <= length q)%nat -> (0 < n)%nat ->
  decodePayload p = Some (n, e) -> decodePayload q = Some (n, e).
Proof.
  intros Hq Hlen Hn. unfold decodePayload, readLE32, readLE16. cbv zeta.
  rewrite !lookup_total_drop. rewrite !(prefix_byte p q n Hq 0) by done. cbn [Nat.add].
  intros H.
  repeat match goal with
  | H : context [if ?b then _ else _] |- context [if ?b then _ else _] => destruct b eqn:?
  end;
  repeat match goal with H : (if (?a <? ?b)%nat then _ else _) = Some _ |- _ =>
    destruct (Nat.ltb_spec a b); [done|] end;
  simplify_eq;
  match type of Hq with take ?n _ = _ =>
    pose proof (prefix_byte p q n Hq) as Hb; pose proof (prefix_or_le p q n Hq) as Ho;
    pose proof (prefix_sub p q n Hq) as Hs end;
  rewrite ?(Hb 1%nat), ?(Hb 2%nat), ?(Hb 3%nat), ?(Hb 4%nat), ?Ho by lia;
  repeat match goal with |- context [(?a <? ?b)%nat] => destruct (Nat.ltb_spec a b); [lia|] end;
  rewrite ?Hs by lia; done.
Qed.

Lemma decodePayload_bound p n e :
  p <> [] -> decodePayload p = Some (n, e) -> (0 < n <= length p)%nat.
Proof.
  intros Hp H. split; [by apply decodePayload_size in H|].
  unfold decodePayload in H. cbv zeta in H.
  repeat match goal with H : (if ?b then _ else _) = Some _ |- _ => destruct b eqn:? end;
  simplify_eq; bools; try lia. destruct p; [done|simpl; lia].
Qed.

(** A successfully decoded entry is an entry in the sense of [entry_ok]. *)
Lemma decodeEntry_prefix p n e :
  p <> [] -> decodeEntry p = Some (n, e) -> (n <= length p)%nat /\ entry_ok (take n p) e.
Proof.
  unfold decodeEntry. intros Hp H. destruct (decodePayload p) as [[m e']|] eqn:E; [|done].
  set (bl := length (encodeBacklen (Z.of_nat m))) in *.
  destruct (Nat.ltb_spec (length p) (m + bl)); [done|]. simplify_eq.
  pose proof (decodePayload_bound _ _ _ Hp E). split; [done|]. intros rest.
  assert (length (take (m + bl) p) = (m + bl)%nat) as Hl by (rewrite length_take; lia).
  unfold decodeEntry. rewrite (decodePayload_agree p _ m e); [| | |lia|done].
  - fold bl. rewrite length_app, Hl. by destruct (Nat.ltb_spec (m + bl + length rest) (m + bl)); [lia|].
  - rewrite take_app_le by lia. rewrite take_take. f_equal. lia.
  - rewrite length_app. lia.
Qed.

Lemma validate_sound fuel pre tail counted off cnt :
  validate_loop fuel (pre ++ tail) (length pre) counted = Some (off, cnt) ->
  exists cs es s, Forall2 entry_ok cs es /\ tail = concat cs ++ s /\
    off = length (pre ++ concat cs) /\ cnt = counted + Z.of_nat (length cs).
Proof.
  revert pre tail counted. induction fuel as [|fuel IH]; intros pre tail counted H; cbn [validate_loop] in H.
  { exists [], [], tail. simplify_eq. simpl. rewrite app_nil_r. repeat split; [constructor|lia]. }
  destruct (more (pre ++ tail) (length pre)) eqn:Hm.
  2:{ exists [], [], tail. simplify_eq. simpl. rewrite app_nil_r. repeat split; [constructor|lia]. }
  unfold decodeAt in H. rewrite drop_app_length in H.
  destruct (Nat.leb_spec (length (pre ++ tail)) (length pre)) as [|Hlt]; [done|].
  rewrite length_app in Hlt.
  destruct (decodeEntry tail) as [[n e]|] eqn:E; [|done].
  apply decodeEntry_prefix in E as [Hn He]; [|by intros ->; simpl in Hlt; lia].
  rewrite <- (take_drop n tail), app_assoc in H.
  replace (length pre + n)%nat with (length (pre ++ take n tail)) in H
    by (rewrite length_app, length_take; lia).
  apply IH in H as (cs & es & s & Hes & Ht & -> & ->).
  exists (take n tail :: cs), (e :: es), s. cbn [concat length]. split_and!; [by constructor| | |lia].
  - rewrite <- app_assoc, <- Ht. by rewrite take_drop.
  - by rewrite <- app_assoc.
Qed.

(** The six bytes in front of the entries are the header they decode to. *)
Lemma header_of_bytes b :
  bytes_ok b -> (6 <= length b)%nat ->
  exists body, b = header (readLE32 b) (storedCount b) ++ body /\ is_u16 (storedCount b).
Proof.
  intros Hb Hl. exists (drop 6 b).
  assert (b = take 4 b ++ take 2 (drop 4 b) ++ drop 6 b) as Hs.
  { rewrite <- (take_drop 4 b) at 1. f_equal. rewrite <- (take_drop 2 (drop 4 b)) at 1.
    by rewrite drop_drop. }
  assert (bytes_ok (take 4 b)) by by apply Forall_take.
  assert (bytes_ok (take 2 (drop 4 b))) by by apply Forall_take, Forall_drop.
  assert (length (take 4 b) = 4%nat) as L4 by (rewrite length_take; lia).
  assert (length (take 2 (drop 4 b)) = 2%nat) as L2 by (rewrite length_take, length_drop; lia).
  assert (readLE32 b = le_val (take 4 b)) as ->.
  { rewrite Hs at 1. by rewrite readLE32_app. }
  assert (storedCount b = le_val (take 2 (drop 4 b))) as ->.
  { unfold storedCount. rewrite Hs at 1. rewrite (drop_app_at 4) by done. by rewrite readLE16_app. }
  pose proof (le_val_range (take 2 (drop 4 b)) ltac:(done)) as Hr. rewrite L2 in Hr.
  change (8 * Z.of_nat 2) with 16 in Hr. split; [|done]. unfold header.
  rewrite Z.min_l by (unfold u_range in Hr; lia).
  by rewrite !le_bytes_val_at, <- app_assoc by done.
Qed.

Lemma fromBytes_sound b b' :
  bytes_ok b -> fromBytes b = Some b' ->
  b' = b /\ Z.of_nat (length b) < 2 ^ 32 /\ exists es, repr b es.
Proof.
  intros Hb. unfold fromBytes, kListpackHeaderSize, kListpackEof.
  destruct (Nat.ltb_spec (length b) (6 + 1)) as [|Hl]; [done|].
  destruct (Z.eqb_spec (readLE32 b) (Z.of_nat (length b))) as [Hsz|]; [cbn [negb]|done].
  destruct (Z.eqb_spec (b !!! (length b - 1)%nat) 255) as [Heof|]; [cbn [negb]|done].
  destruct (header_of_bytes b Hb ltac:(lia)) as (body & Hbody & Hst). rewrite Hsz in Hbody.
  remember (storedCount b) as st eqn:Est. clear Est.
  destruct (validate_loop _ _ _ _) as [[off cnt]|] eqn:Ev; [|done].
  rewrite Hbody in Ev at 2.
  rewrite <- (length_header (Z.of_nat (length b)) st) in Ev.
  apply validate_sound in Ev as (cs & es & s & Hes & -> & -> & ->).
  rewrite length_app, length_header.
  destruct (Nat.eqb_spec (6 + length (concat cs)) (length b - 1)) as [Hoff|]; [cbn [negb]|done].
  assert (s = [255]) as ->.
  { assert (length s = 1%nat) as Hs1.
    { rewrite Hbody in Hoff. rewrite !length_app, length_header in Hoff. lia. }
    destruct s as [|x [|]]; [done| |done]. f_equal. rewrite <- Heof, <- Hoff, Hbody.
    rewrite lookup_total_app_r; rewrite length_header; [|lia].
    rewrite lookup_total_app_r by lia. by replace (_ - _ - _)%nat with 0%nat by lia. }
  assert (length b = (7 + length (concat cs))%nat) as Hlb by lia.
  intros H. assert (b' = b /\ counts st (length cs)) as [-> Hc].
  { unfold kListpackMaxInlineCount in H. unfold counts, u_range in *.
    destruct (Z.ltb_spec st 65535); [|cbn [andb] in H; simplify_eq; split; [done|lia]].
    cbn [andb] in H. destruct (Z.eqb_spec st (0 + Z.of_nat (length cs))); [|done]. simplify_eq/=.
    split; [done|lia]. }
  split; [done|]. split.
  - rewrite <- Hsz. pose proof (le_val_range (take 4 b) ltac:(by apply Forall_take)) as Hr.
    rewrite <- (take_drop 4 b) at 1. rewrite readLE32_app; [|rewrite length_take; lia|by apply Forall_take].
    rewrite length_take, Nat.min_l in Hr by lia. unfold u_range in Hr. exact (proj2 Hr).
  - exists es, st, cs. split_and!; [done..|]. rewrite Hbody at 1. unfold layout. by rewrite Hlb.
Qed.

Lemma fromBytes_complete b es :
  repr b es -> Z.of_nat (length b) < 2 ^ 32 -> fromBytes b = Some b.
Proof.
  intros (k & cs & Hes & Hk & ->) Hsz. pose proof (layout_length k cs) as Hl.
  unfold fromBytes. rewrite Hl. unfold kListpackHeaderSize, kListpackEof.
  destruct (Nat.ltb_spec (7 + length (concat cs)) (6 + 1)); [lia|].
  assert (readLE32 (layout k cs) = Z.of_nat (7 + length (concat cs))) as ->.
  { unfold layout, header. rewrite <- !app_assoc, readLE32_app by auto using length_le_bytes with mnemos.
    apply le_val_bytes_small. unfold u_range. change (2 ^ (8 * Z.of_nat 4)) with (2 ^ 32). lia. }
  rewrite Z.eqb_refl. cbn [negb].
  assert (layout k cs !!! (7 + length (concat cs) - 1)%nat = 255) as ->.
  { unfold layout. rewrite lookup_total_app_r; rewrite length_header; [|lia].
    rewrite lookup_total_app_r by lia. by replace (_ - _ - _)%nat with 0%nat by lia. }
  cbn [negb Z.eqb Pos.eqb].
  pose proof (validate_walk (7 + length (concat cs)) (header (Z.of_nat (7 + length (concat cs))) k)
    cs es 0 Hes) as Hv.
  rewrite length_app, length_header in Hv.
  fold (layout k cs) in Hv. rewrite Hv.
  2:{ pose proof (chunks_length _ _ Hes). lia. }
  replace (7 + length (concat cs) - 1)%nat with (6 + length (concat cs))%nat by lia.
  rewrite Nat.eqb_refl. cbn [negb].
  unfold layout at 1 2. rewrite storedCount_header by by eapply counts_nonneg.
  unfold counts, kListpackMaxInlineCount in *.
  destruct (Z.ltb_spec (Z.min k 65535) 65535); [|done].
  destruct (Z.eqb_spec (Z.min k 65535) (0 + Z.of_nat (length cs))); [done|lia].
Qed.

(** ** Backward lengths *)

Lemma more_group d : 0 <= d < 128 ->
  Z.land (u8 (Z.lor d 128)) 127 = d /\ (Z.land (u8 (Z.lor d 128)) 128 =? 0) = false.
Proof.
  intros.
  assert ((Z.land (u8 (Z.lor d 128)) 127 =? d) && negb (Z.land (u8 (Z.lor d 128)) 128 =? 0) = true) as Hb
    by byte_eqb 128%nat d.
  bools. split; [done|by apply Z.eqb_neq].
Qed.

Lemma backlen_more d back value shift n :
  0 <= d < 128 -> 0 <= shift -> 0 <= value < 2 ^ shift -> shift + 7 <= 28 ->
  decodeBacklen_loop (u8 (Z.lor d 128) :: back) value shift n =
    decodeBacklen_loop back (value + d * 2 ^ shift) (shift + 7) (S n).
Proof.
  intros Hd Hs Hv H28. destruct (more_group d Hd) as [H1 H2]. cbn [decodeBacklen_loop].
  rewrite H1, H2, lor_shiftl by lia. by destruct (Z.ltb_spec 28 (shift + 7)); [lia|].
Qed.

Lemma backlen_last d back value shift n :
  0 <= d < 128 -> 0 <= shift -> 0 <= value < 2 ^ shift ->
  decodeBacklen_loop (u8 d :: back) value shift n = Some (value + d * 2 ^ shift, S n).
Proof.
  intros Hd Hs Hv. cbn [decodeBacklen_loop]. rewrite (uwrap_small 8 d) by (unfold u_range; lia).
  rewrite tag7 by (unfold u_range; lia). destruct (Z.ltb_spec d 128); [|lia].
  rewrite land_127, Z.mod_small, lor_shiftl by lia. done.
Qed.

(** C39: the length written behind every entry can be read back from its last
    byte towards the front: [decodeBacklenBackwards], given any memory that
    ends with [encodeBacklen v], returns [v] and the number of bytes
    [encodeBacklen] wrote, for every [v] the five-byte format can hold (all
    entry sizes a 32-bit listpack can contain). *)
Theorem backlen_round_trip memory v :
  u_range 35 v ->
  decodeBacklenBackwards (memory ++ encodeBacklen v) = Some (v, length (encodeBacklen v)).
Proof.
  unfold u_range. intros Hv. unfold decodeBacklenBackwards, encodeBacklen.
  rewrite rev_app_distr, !land_127, !shiftr_div by lia.
  repeat case_if; bools; cbn [rev app length];
    rewrite ?backlen_more by (try lia; dmlia); rewrite backlen_last by (try lia; dmlia);
    do 2 f_equal; dmlia.
Qed.

Lemma backlen_round_trip_witness :
  decodeBacklenBackwards ([1; 2; 3] ++ encodeBacklen 300000) =
    Some (300000, length (encodeBacklen 300000)).
Proof. apply (backlen_round_trip [1; 2; 3] 300000). decide_now. Defined.

(** ** Operation sequences *)

Inductive op :=
  | Append (v : bytes)
  | AppendInteger (n : Z)
  | InsertAt (i : nat) (v : bytes)
  | ReplaceAt (i : nat) (v : bytes)
  | EraseAt (i : nat)
  | EraseRange (i count : nat)
  | Clear.

Definition op_ok (o : op) : Prop :=
  match o with
  | Append v | InsertAt _ v | ReplaceAt _ v => storable v
  | AppendInteger n => is_i64 n
  | EraseAt _ | EraseRange _ _ | Clear => True
  end.

#[global] Instance op_ok_dec o : Decision (op_ok o).
Proof. destruct o; simpl; apply _. Defined.

(** The class's method, with the result it returns ([true] for [void]). *)
Definition exec (b : bytes) (o : op) : bytes * bool :=
  match o with
  | Append v => (append b v, true)
  | AppendInteger n => (appendInteger b n, true)
  | InsertAt i v => insertAt b i v
  | ReplaceAt i v => replaceAt b i v
  | EraseAt i => eraseAt b i
  | EraseRange i n => eraseRange b i n
  | Clear => (clear b, true)
  end.

(** The same operation on a sequence of strings. *)
Definition spec_exec (vs : list bytes) (o : op) : list bytes * bool :=
  match o with
  | Append v => (vs ++ [v], true)
  | AppendInteger n => (vs ++ [to_string n], true)
  | InsertAt i v =>
      if (i <=? length vs)%nat then (take i vs ++ [v] ++ drop i vs, true) else (vs, false)
  | ReplaceAt i v => if (i <? length vs)%nat then (<[i := v]> vs, true) else (vs, false)
  | EraseAt i =>
      if (i <? length vs)%nat then (take i vs ++ drop (S i) vs, true) else (vs, false)
  | EraseRange i n =>
      if (n =? 0)%nat || (i + n <=? length vs)%nat
      then (take i vs ++ drop (i + n) vs, true) else (vs, false)
  | Clear => ([], true)
  end.

Definition run (b : bytes) (os : list op) : bytes := foldl (fun b o => fst (exec b o)) b os.
Definition spec_run (vs : list bytes) (os : list op) : list bytes :=
  foldl (fun vs o => fst (spec_exec vs o)) vs os.

Lemma stores_append b vs v : stores b vs -> storable v -> stores (append b v) (vs ++ [v]).
Proof. unfold stores. intros. rewrite map_app. by apply repr_append. Qed.

Lemma stores_appendInteger b vs n :
  stores b vs -> is_i64 n -> stores (appendInteger b n) (vs ++ [to_string n]).
Proof.
  unfold stores. intros. rewrite map_app. cbn [map]. rewrite elem_of_int by done.
  by apply repr_appendInteger.
Qed.

Lemma stores_insertAt b vs i v :
  stores b vs -> storable v ->
  stores (fst (insertAt b i v)) (fst (spec_exec vs (InsertAt i v))) /\
  snd (insertAt b i v) = snd (spec_exec vs (InsertAt i v)).
Proof.
  intros Hs Hv. cbn [spec_exec]. destruct (Nat.leb_spec i (length vs)) as [Hi|Hi].
  - destruct (insertAt_repr b _ i v Hs Hv) as (b' & -> & Hb'); [by rewrite length_map|].
    split; [|done]. unfold stores. cbn [fst]. by rewrite !map_app, <- firstn_map, <- skipn_map.
  - rewrite (insertAt_out b _ i v Hs) by by rewrite length_map. done.
Qed.

Lemma stores_replaceAt b vs i v :
  stores b vs -> storable v ->
  stores (fst (replaceAt b i v)) (fst (spec_exec vs (ReplaceAt i v))) /\
  snd (replaceAt b i v) = snd (spec_exec vs (ReplaceAt i v)).
Proof.
  intros Hs Hv. cbn [spec_exec]. destruct (Nat.ltb_spec i (length vs)) as [Hi|Hi].
  - destruct (replaceAt_repr b _ i v Hs Hv) as (b' & -> & Hb'); [by rewrite length_map|].
    split; [|done]. unfold stores. cbn [fst]. by rewrite map_insert_elem.
  - rewrite (replaceAt_out b _ i v Hs) by by rewrite length_map. done.
Qed.

Lemma stores_eraseRange b vs i n :
  stores b vs ->
  stores (fst (eraseRange b i n)) (fst (spec_exec vs (EraseRange i n))) /\
  snd (eraseRange b i n) = snd (spec_exec vs (EraseRange i n)).
Proof.
  intros Hs. cbn [spec_exec]. destruct (Nat.eqb_spec n 0) as [->|Hn].
  { rewrite eraseRange_zero, Nat.add_0_r. cbn [orb fst snd]. by rewrite take_drop. }
  cbn [orb]. destruct (Nat.leb_spec (i + n) (length vs)) as [Hi|Hi].
  - destruct (eraseRange_repr b _ i n Hs) as (b' & -> & Hb'); [lia|by rewrite length_map|].
    split; [|done]. unfold stores. cbn [fst]. by rewrite !map_app, <- firstn_map, <- skipn_map.
  - rewrite (eraseRange_out b _ i n Hs) by (rewrite ?length_map; lia). done.
Qed.

Lemma stores_exec b vs o :
  stores b vs -> op_ok o ->
  stores (fst (exec b o)) (fst (spec_exec vs o)) /\ snd (exec b o) = snd (spec_exec vs o).
Proof.
  intros Hs Ho. destruct o; cbn [exec op_ok] in *.
  - split; [by apply stores_append|done].
  - split; [by apply stores_appendInteger|done].
  - by apply stores_insertAt.
  - by apply stores_replaceAt.
  - unfold eraseAt. destruct (stores_eraseRange b vs i 1 Hs) as [H1 H2]. revert H1 H2.
    cbn [spec_exec Nat.eqb orb]. rewrite Nat.add_1_r.
    by destruct (Nat.leb_spec (S i) (length vs)), (Nat.ltb_spec i (length vs)); try lia.
  - by apply stores_eraseRange.
  - split; [apply repr_clear|done].
Qed.

Lemma stores_run b vs os : stores b vs -> Forall op_ok os -> stores (run b os) (spec_run vs os).
Proof.
  intros Hs Ho. revert b vs Hs. induction Ho as [|o os Ho _ IH]; intros b vs Hs; [done|].
  cbn. apply IH. by apply stores_exec.
Qed.

Lemma stores_new : stores new [].
Proof. apply repr_new. Qed.

Lemma stores_toStrings b vs : stores b vs -> toStrings b = vs.
Proof. intros H. unfold toStrings. rewrite (forEach_repr _ _ H). apply map_toString. Qed.

Lemma stores_numElements b vs : stores b vs -> numElements b = length vs.
Proof. intros (k & cs & Hes & Hk & ->). rewrite (numElements_layout k _ _ Hes Hk). apply length_map. Qed.

Lemma stores_get b vs i : stores b vs -> get b i = elem_of_value <$> vs !! i.
Proof.
  intros (k & cs & Hes & Hk & ->). rewrite (get_layout k _ _ Hes). apply list_lookup_fmap.
Qed.

(** C29: whatever sequence of mutating calls is made on a fresh listpack, the
    buffer stores exactly the sequence of strings the same calls produce on an
    ordinary list, and the next call returns the same success flag as on that
    list (in particular every out-of-range index is refused and changes
    nothing). *)
Theorem listpack_refines_list (os : list op) (o : op) :
  Forall op_ok os -> op_ok o ->
  let b := run new os in
  let vs := spec_run [] os in
  toStrings b = vs /\
  snd (exec b o) = snd (spec_exec vs o) /\
  toStrings (fst (exec b o)) = fst (spec_exec vs o).
Proof.
  intros Hos Ho b vs. pose proof (stores_run new [] os stores_new Hos) as Hs.
  destruct (stores_exec b vs o Hs Ho) as [H1 H2].
  split; [by apply stores_toStrings|]. split; [done|by apply stores_toStrings].
Qed.

Lemma listpack_refines_list_witness :
  let os := [Append (str "a"); AppendInteger (-70000); Append (str "b"); ReplaceAt 0 (str "12")] in
  let b := run new os in
  let vs := spec_run [] os in
  toStrings b = vs /\
  snd (exec b (EraseRange 1 2)) = snd (spec_exec vs (EraseRange 1 2)) /\
  toStrings (fst (exec b (EraseRange 1 2))) = fst (spec_exec vs (EraseRange 1 2)).
Proof.
  apply (listpack_refines_list
    [Append (str "a"); AppendInteger (-70000); Append (str "b"); ReplaceAt 0 (str "12")]
    (EraseRange 1 2)); decide_now.
Defined.

(** the readers of a listpack agree with the sequence it stores: the
    element count (walked when the 16-bit header field is saturated), indexed
    access with the integer or string tag the encoder chose, and [find], which
    returns the first index at or after [start], in steps of [step], whose
    string equals the needle, and nothing when there is none. *)
Theorem listpack_observers (os : list op) (i : nat) (v : bytes) (start step : nat) :
  Forall op_ok os ->
  let b := run new os in
  let vs := spec_run [] os in
  numElements b = length vs /\
  get b i = elem_of_value <$> vs !! i /\
  (forall k, find b v start step = Some k <-> first_at vs v start step k).
Proof.
  intros Hos b vs. pose proof (stores_run new [] os stores_new Hos) as Hs.
  split; [by apply stores_numElements|]. split; [by apply stores_get|]. intros k.
  pose proof (find_stores _ _ v start step Hs) as Hf. fold b vs in Hf.
  destruct (find b v start step) as [m|].
  - split; [by intros [= <-]|]. intros Hk. f_equal.
    destruct Hf as (A1 & A2 & A3 & A4), Hk as (B1 & B2 & B3 & B4).
    destruct (Nat.lt_trichotomy m k) as [Hlt|[->|Hlt]]; [|done|].
    + by destruct (B4 m ltac:(lia) A2).
    + by destruct (A4 k ltac:(lia) B2).
  - split; [done|]. intros Hk. by destruct (Hf k).
Qed.

Lemma listpack_observers_witness :
  let os := [Append (str "f"); Append (str "1"); Append (str "g"); Append (str "f")] in
  let b := run new os in
  let vs := spec_run [] os in
  numElements b = length vs /\
  get b 1 = elem_of_value <$> vs !! 1%nat /\
  (forall k, find b (str "f") 1 2 = Some k <-> first_at vs (str "f") 1 2 k).
Proof.
  apply (listpack_observers [Append (str "f"); Append (str "1"); Append (str "g"); Append (str "f")]
    1 (str "f") 1 2); decide_now.
Defined.

(** adopting bytes from disk or the network. [fromBytes] accepts exactly
    the well-formed listpacks: a buffer is taken, unchanged, precisely when it
    is smaller than 4 GiB and is a header, a sequence of complete entries and
    a terminator whose size and count fields agree with them (a saturated
    count excepted, which is never trusted). Everything an operation of this
    file needs holds of an accepted buffer. *)
Theorem fromBytes_exact (b b' : bytes) :
  bytes_ok b ->
  fromBytes b = Some b' <->
    b' = b /\ Z.of_nat (length b) < 2 ^ 32 /\ exists es, repr b es.
Proof.
  intros Hb. split; [by apply fromBytes_sound|].
  intros (-> & Hl & es & Hes). by eapply fromBytes_complete.
Qed.

Lemma fromBytes_exact_witness :
  let b := append (append new (str "k")) (str "300") in
  fromBytes b = Some b <-> b = b /\ Z.of_nat (length b) < 2 ^ 32 /\ exists es, repr b es.
Proof. apply (fromBytes_exact (append (append new (str "k")) (str "300"))). decide_now. Defined.
End Listpack.
