(* ===== verification/MapSpec.v ===== *)
(** * MapSpec: what a hash table promises to its clients

    The collections, the keyspace and the score index of a sorted set use
    [core/dict.h] only through lookup, insertion, removal, clearing, size and
    iteration. [MapOps] names those operations and [MapLaws] states their
    contract against finite maps; clients are verified against [MapLaws] and
    [Dict.v] provides the instance. Operations return [None] only for an
    out-of-bounds access, which the laws exclude. *)

From stdpp Require Import base list gmap option.
From S2P Require Import Prelude.

(** ** Association lists and finite maps up to order *)

Lemma perm_lookup {T} (l : list (bytes * T)) m k v :
  l ≡ₚ map_to_list m -> (k, v) ∈ l <-> m !! k = Some v.
Proof. intros ->. apply elem_of_map_to_list. Qed.

Lemma perm_absent {T} (l : list (bytes * T)) (m : gmap bytes T) k :
  l ≡ₚ map_to_list m -> k ∉ l.*1 <-> m !! k = None.
Proof.
  intros Hp. rewrite eq_None_not_Some. split; intros H Hk; apply H.
  - destruct Hk as [v Hv]. apply list_elem_of_fmap. exists (k, v). split; [done|]. by apply (perm_lookup l m).
  - apply list_elem_of_fmap in Hk as ([k' v] & -> & Hin). exists v. by apply (perm_lookup l m).
Qed.

Lemma perm_update {T} (l : list (bytes * T)) (m : gmap bytes T) k v w rest :
  l ≡ₚ map_to_list m -> l ≡ₚ (k, w) :: rest -> (k, v) :: rest ≡ₚ map_to_list (<[k := v]> m).
Proof.
  intros Hp Hl. assert (m !! k = Some w) as Hk.
  { apply (perm_lookup l m); [done|]. rewrite Hl. by apply elem_of_cons; left. }
  rewrite <- insert_delete_eq, map_to_list_insert by apply lookup_delete_eq. f_equiv.
  apply (Permutation_cons_inv (a := (k, w))). rewrite map_to_list_delete by done. by rewrite <- Hl.
Qed.

Lemma perm_add {T} (l : list (bytes * T)) (m : gmap bytes T) k v :
  l ≡ₚ map_to_list m -> m !! k = None -> (k, v) :: l ≡ₚ map_to_list (<[k := v]> m).
Proof. intros Hp Hk. by rewrite Hp, map_to_list_insert. Qed.

Lemma perm_remove {T} (l : list (bytes * T)) (m : gmap bytes T) k w rest :
  l ≡ₚ map_to_list m -> l ≡ₚ (k, w) :: rest -> rest ≡ₚ map_to_list (delete k m).
Proof.
  intros Hp Hl. apply (Permutation_cons_inv (a := (k, w))).
  rewrite map_to_list_delete; [by rewrite <- Hl|].
  apply (perm_lookup l m); [done|]. rewrite Hl. by apply elem_of_cons; left.
Qed.

Lemma list_delete_perm {A} (l : list A) j x :
  l !! j = Some x -> l ≡ₚ x :: delete j l.
Proof. apply delete_Permutation. Qed.

Lemma list_update_perm {A} (l : list A) (j : nat) x y :
  l !! j = Some x -> <[j := y]> l ≡ₚ y :: delete j l.
Proof.
  revert j. induction l as [|z l IH]; intros [|j] Hj; simplify_eq/=; [done|].
  rewrite (IH j) by done. constructor.
Qed.

(** ** The interface *)

Class MapOps (D : Type -> Type) := {
  mnew : forall {T}, D T;
  mfind : forall {T}, D T -> bytes -> option (D T * option T);
  minsert : forall {T}, D T -> bytes -> T -> option (D T * bool);
  (** [if (T* p = find(key)) *p = f( *p)]: a write through the found pointer. *)
  mmodify : forall {T}, D T -> bytes -> (T -> T) -> option (D T * option T);
  (** A read and a write through a pointer that an earlier lookup of the key
      returned: the table is not reorganised. [None] is a dangling pointer. *)
  mpeek : forall {T}, D T -> bytes -> option T;
  mpoke : forall {T}, D T -> bytes -> T -> option (D T);
  merase : forall {T}, D T -> bytes -> option (D T * bool);
  mclear : forall {T}, D T -> D T;
  msize : forall {T}, D T -> nat;
  mforEach : forall {T}, D T -> list (bytes * T);
  (** One step of a cursor iteration. *)
  mscan : forall {T}, D T -> Z -> option (list (bytes * T) * Z);
  (** [randomEntry()], given the values its generator returns. *)
  mrandom : forall {T}, D T -> (nat -> Z) -> option (bytes * T) }.

#[global] Hint Mode MapOps ! : typeclass_instances.

Class MapLaws (D : Type -> Type) {ops : MapOps D} := {
  represents : forall {T}, D T -> gmap bytes T -> Prop;
  represents_new : forall T, represents (mnew (T := T)) ∅;
  (** Lookup may reorganise the table, never its contents. *)
  represents_find : forall T (d : D T) m k, represents d m ->
    exists d', mfind d k = Some (d', m !! k) /\ represents d' m;
  represents_insert : forall T (d : D T) m k v, represents d m ->
    exists d', minsert d k v = Some (d', bool_decide (m !! k = None)) /\ represents d' (<[k := v]> m);
  represents_modify : forall T (d : D T) m k f, represents d m ->
    exists d', mmodify d k f = Some (d', f <$> m !! k) /\ represents d' (alter f k m);
  represents_peek : forall T (d : D T) m k, represents d m -> mpeek d k = m !! k;
  represents_poke : forall T (d : D T) m k v w, represents d m -> m !! k = Some w ->
    exists d', mpoke d k v = Some d' /\ represents d' (<[k := v]> m);
  represents_erase : forall T (d : D T) m k, represents d m ->
    exists d', merase d k = Some (d', bool_decide (m !! k <> None)) /\ represents d' (delete k m);
  represents_clear : forall T (d : D T), represents (mclear d) ∅;
  represents_size : forall T (d : D T) m, represents d m -> msize d = size m;
  represents_forEach : forall T (d : D T) m, represents d m -> mforEach d ≡ₚ map_to_list m;
  (** Tables are small enough for their bucket indices to fit in a cursor. *)
  scannable : forall {T}, D T -> Prop;
  represents_scan : forall T (d : D T) m c, represents d m -> scannable d -> is_u64 c ->
    exists out c', mscan d c = Some (out, c') /\ is_u64 c' /\ (forall e, e ∈ out -> m !! e.1 = Some e.2);
  represents_random : forall T (d : D T) m rng, represents d m ->
    match mrandom d rng with Some (k, v) => m !! k = Some v | None => m = ∅ end }.
