(* ===== verification/Dict.v ===== *)
(** * Dict: the incrementally rehashed hash table

    [src/core/dict.h]. A dictionary is two vectors of chains; while a resize is
    in progress both are live and each call migrates one bucket. Operations
    return [None] where the C++ would index a vector out of bounds, so a result
    [Some _] also says that no such access happens. [models d m] relates a
    dictionary to the finite map it represents. *)

From Stdlib Require Import ZArith Lia.
From stdpp Require Import base list numbers gmap option.
From S2P Require Import Prelude MapSpec.

Module Dict.

(** ** Bit reversal and hashing *)

(** [((v >> s) & m) | ((v & m) << s)] in 64 bits. *)
Definition rev_stage (v s m : Z) : Z :=
  u64 (Z.lor (Z.land (Z.shiftr v s) m) (u64 (Z.shiftl (Z.land v m) s))).

Definition reverseBits (v : Z) : Z :=
  let v := rev_stage v 1 0x5555555555555555 in
  let v := rev_stage v 2 0x3333333333333333 in
  let v := rev_stage v 4 0x0F0F0F0F0F0F0F0F in
  let v := rev_stage v 8 0x00FF00FF00FF00FF in
  let v := rev_stage v 16 0x0000FFFF0000FFFF in
  Z.lor (Z.shiftr v 32) (u64 (Z.shiftl v 32)).

(** FNV-1a over the bytes of the key. *)
Definition hash (key : bytes) : Z :=
  foldl (fun h c => u64 (Z.lxor h c * 1099511628211)) 1469598103934665603 key.

Section Dict.
Context {T : Type}.

(** [Entry]: a chain is the list of its (key, value) pairs, head first. *)
Abbreviation entry := (bytes * T)%type.
Abbreviation table := (list (list entry)).

(** [tables_], [used_] and [rehash_index_]. *)
Record dict := mk {
  tables0 : table; tables1 : table; used0 : nat; used1 : nat; rehash_index : Z }.

Definition kInitialSize : nat := 4.

Definition new : dict := mk (replicate kInitialSize []) [] 0 0 (-1).

Definition tables (d : dict) (t : bool) : table := if t then tables1 d else tables0 d.
Definition used (d : dict) (t : bool) : nat := if t then used1 d else used0 d.

Definition set_table (d : dict) (t : bool) (tb : table) : dict :=
  if t then mk (tables0 d) tb (used0 d) (used1 d) (rehash_index d)
  else mk tb (tables1 d) (used0 d) (used1 d) (rehash_index d).
Definition set_used (d : dict) (t : bool) (n : nat) : dict :=
  if t then mk (tables0 d) (tables1 d) (used0 d) n (rehash_index d)
  else mk (tables0 d) (tables1 d) n (used1 d) (rehash_index d).
Definition set_rehash_index (d : dict) (i : Z) : dict :=
  mk (tables0 d) (tables1 d) (used0 d) (used1 d) i.

Definition size (d : dict) : nat := used0 d + used1 d.
Definition empty (d : dict) : bool := (size d =? 0)%nat.
Definition isRehashing (d : dict) : bool := 0 <=? rehash_index d.
Definition bucketCount (d : dict) : nat := length (tables0 d) + length (tables1 d).

(** [mask(t)]: [size() - 1] in [size_t], which wraps for an empty vector. *)
Definition mask (tb : table) : Z :=
  if (length tb =? 0)%nat then 2 ^ 64 - 1 else Z.of_nat (length tb) - 1.

(** [hash(key) & mask(t)] *)
Definition slot (key : bytes) (tb : table) : nat := Z.to_nat (Z.land (hash key) (mask tb)).

(** ** Incremental rehashing *)

(** The inner loop that skips empty buckets, [tables_[0][rehash_index_]]
    being read at each turn: the new index and [empty_visits], and whether
    the function returned from inside the loop. *)
Fixpoint skip_empty (fuel : nat) (t0 : table) (index : nat) (empty_visits : Z)
    : option (nat * Z * bool) :=
  match fuel with
  | O => None
  | S fuel =>
      bucket ← t0 !! index;
      match bucket with
      | _ :: _ => Some (index, empty_visits, false)
      | [] =>
          let index := S index in
          let empty_visits := empty_visits - 1 in
          if empty_visits =? 0 then Some (index, empty_visits, true)
          else if (length t0 <=? index)%nat then Some (index, empty_visits, false)
          else skip_empty fuel t0 index empty_visits
      end
  end.

(** Pushes an entry on the front of its chain. *)
Definition push (tb : table) (e : entry) : option table :=
  chain ← tb !! slot (fst e) tb;
  Some (<[slot (fst e) tb := e :: chain]> tb).

(** Moves every entry of a chain to table 1, head first. *)
Fixpoint migrate (chain : list entry) (d : dict) : option dict :=
  match chain with
  | [] => Some d
  | e :: chain =>
      t1 ← push (tables1 d) e;
      migrate chain (mk (tables0 d) t1 (used0 d - 1) (used1 d + 1) (rehash_index d))
  end.

(** The loop [while (buckets-- > 0 && used_[0] > 0)]; the flag says that the
    function returned from inside it. *)
Fixpoint rehash_loop (buckets : nat) (empty_visits : Z) (d : dict) : option (dict * bool) :=
  match buckets with
  | O => Some (d, false)
  | S buckets =>
      if (0 <? used0 d)%nat then
        '(index, empty_visits, returned) ←
          skip_empty (S (length (tables0 d))) (tables0 d) (Z.to_nat (rehash_index d)) empty_visits;
        let d := set_rehash_index d (Z.of_nat index) in
        if returned : bool then Some (d, true)
        else if (length (tables0 d) <=? index)%nat then Some (d, false)
        else
          chain ← tables0 d !! index;
          d ← migrate chain d;
          let d := set_table d false (<[index := []]> (tables0 d)) in
          rehash_loop buckets empty_visits (set_rehash_index d (Z.of_nat index + 1))
      else Some (d, false)
  end.

Definition rehashSteps (d : dict) (buckets : nat) : option (dict * bool) :=
  if negb (isRehashing d) then Some (d, false)
  else
    '(d, returned) ← rehash_loop buckets (Z.of_nat buckets * 10) d;
    if returned : bool then Some (d, true)
    else if (used0 d =? 0)%nat then Some (mk (tables1 d) [] (used1 d) 0 (-1), false)
    else Some (d, true).

Definition rehashStep (d : dict) : option dict :=
  if isRehashing d then fst <$> rehashSteps d 1 else Some d.

(** ** Resizing *)

Definition resizeTo (d : dict) (new_size : nat) : dict :=
  mk (tables0 d) (replicate new_size []) (used0 d) 0 0.

Definition expandIfNeeded (d : dict) : dict :=
  if isRehashing d then d
  else if (used0 d <? length (tables0 d))%nat then d
  else resizeTo d (length (tables0 d) * 2).

(** [while (p < n) p *= 2]; [n] turns are enough since [p] starts positive. *)
Fixpoint npot_loop (fuel p n : nat) : nat :=
  match fuel with
  | O => p
  | S fuel => if (p <? n)%nat then npot_loop fuel (p * 2) n else p
  end.

Definition nextPowerOfTwo (n : nat) : nat := npot_loop n kInitialSize n.

Definition shrinkIfNeeded (d : dict) : dict :=
  if isRehashing d then d
  else if (length (tables0 d) <=? kInitialSize)%nat then d
  else if (length (tables0 d) <? used0 d * 10)%nat then d
  else resizeTo d (Nat.max kInitialSize (nextPowerOfTwo (used0 d + 1))).

(** ** Lookup *)

(** The position of the first entry of a chain with the given key. *)
Fixpoint chain_find (key : bytes) (chain : list entry) : option nat :=
  match chain with
  | [] => None
  | e :: chain => if fst e =b? key then Some 0%nat else S <$> chain_find key chain
  end.

(** A pointer to a value: the table, the bucket and the link of its entry. *)
Definition ptr : Type := bool * nat * nat.

Definition deref (d : dict) (p : ptr) : option T :=
  let '(t, i, j) := p in
  chain ← tables d t !! i;
  snd <$> chain !! j.

(** [*p = v] *)
Definition assign (d : dict) (p : ptr) (v : T) : dict :=
  let '(t, i, j) := p in
  match tables d t !! i with
  | Some chain =>
      match chain !! j with
      | Some e => set_table d t (<[i := <[j := (fst e, v)]> chain]> (tables d t))
      | None => d
      end
  | None => d
  end.

(** The tables the search loops visit. *)
Definition live_tables (d : dict) : list bool :=
  if isRehashing d then [false; true] else [false].

Fixpoint find_in (d : dict) (key : bytes) (ts : list bool) : option (option ptr) :=
  match ts with
  | [] => Some None
  | t :: ts =>
      if (length (tables d t) =? 0)%nat then find_in d key ts
      else
        let i := slot key (tables d t) in
        chain ← tables d t !! i;
        match chain_find key chain with
        | Some j => Some (Some (t, i, j))
        | None => find_in d key ts
        end
  end.

Definition find (d : dict) (key : bytes) : option (dict * option ptr) :=
  if empty d then Some (d, None)
  else
    d ← rehashStep d;
    p ← find_in d key (live_tables d);
    Some (d, p).

Definition insert (d : dict) (key : bytes) (value : T) : option (dict * bool) :=
  d ← rehashStep d;
  '(d, existing) ← find d key;
  match existing with
  | Some p => Some (assign d p value, false)
  | None =>
      let d := expandIfNeeded d in
      let t := isRehashing d in
      tb ← push (tables d t) (key, value);
      Some (set_used (set_table d t tb) t (used d t + 1), true)
  end.

Fixpoint erase_in (d : dict) (key : bytes) (ts : list bool) : option (dict * bool) :=
  match ts with
  | [] => Some (d, false)
  | t :: ts =>
      if (length (tables d t) =? 0)%nat then erase_in d key ts
      else
        let idx := slot key (tables d t) in
        chain ← tables d t !! idx;
        match chain_find key chain with
        | Some j =>
            let d := set_table d t (<[idx := delete j chain]> (tables d t)) in
            let d := set_used d t (used d t - 1) in
            Some (shrinkIfNeeded d, true)
        | None => erase_in d key ts
        end
  end.

Definition erase (d : dict) (key : bytes) : option (dict * bool) :=
  if empty d then Some (d, false)
  else
    d ← rehashStep d;
    erase_in d key (live_tables d).

Definition clear (_ : dict) : dict := mk (replicate kInitialSize []) [] 0 0 (-1).

(** [swap], and the state the move constructor leaves behind: it swaps with
    a dictionary whose vectors were never resized. *)
Definition swap (d other : dict) : dict * dict := (other, d).
Definition uninitialised : dict := mk [] [] 0 0 (-1).
Definition move_construct (other : dict) : dict * dict := swap uninitialised other.

(** ** Iteration *)

(** The entries handed to the callback of [forEach], in order. *)
Definition forEach (d : dict) : list entry := concat (tables0 d) ++ concat (tables1 d).

Definition emitBucket (d : dict) (t : bool) (idx : nat) : list entry :=
  if (length (tables d t) <=? idx)%nat then [] else tables d t !!! idx.

(** Reverse-binary increment of the bits selected by the mask [m]. *)
Definition next_cursor (cursor m : Z) : Z :=
  let cursor := Z.lor cursor (u64 (Z.lnot m)) in
  let cursor := reverseBits cursor in
  let cursor := u64 (cursor + 1) in
  reverseBits cursor.

(** The do-while loop over the buckets of the larger table; [None] when the
    fuel does not suffice. *)
Fixpoint scan_loop (fuel : nat) (d : dict) (large : bool) (ms ml cursor : Z)
    : option (list entry * Z) :=
  match fuel with
  | O => None
  | S fuel =>
      let emitted := emitBucket d large (Z.to_nat (Z.land cursor ml)) in
      let cursor := next_cursor cursor ml in
      if Z.land cursor (Z.lxor ms ml) =? 0 then Some (emitted, cursor)
      else
        '(more, cursor) ← scan_loop fuel d large ms ml cursor;
        Some (emitted ++ more, cursor)
  end.

Definition scan (d : dict) (cursor : Z) : option (list entry * Z) :=
  if empty d then Some ([], 0)
  else if negb (isRehashing d) then
    let m0 := mask (tables0 d) in
    Some (emitBucket d false (Z.to_nat (Z.land cursor m0)), next_cursor cursor m0)
  else
    let small := negb (length (tables0 d) <=? length (tables1 d))%nat in
    let large := negb small in
    let ms := mask (tables d small) in
    let ml := mask (tables d large) in
    '(more, cursor') ← scan_loop (length (tables d large)) d large ms ml cursor;
    Some (emitBucket d small (Z.to_nat (Z.land cursor ms)) ++ more, cursor').

(** ** Random entries *)

(** The attempts of [randomEntry]: [rng] is the stream of 64-bit values the
    generator returns, [k] the number consumed so far. *)
Fixpoint random_loop (attempts : nat) (d : dict) (rng : nat -> Z) (k : nat) : option entry :=
  match attempts with
  | O => None
  | S attempts =>
      let '(t, k) :=
        if isRehashing d then (negb (Z.land (rng k) 1 =? 0), S k) else (false, k) in
      if (length (tables d t) =? 0)%nat || (used d t =? 0)%nat then random_loop attempts d rng k
      else
        let idx := Z.to_nat (rng k mod Z.of_nat (length (tables d t))) in
        match tables d t !!! idx with
        | [] => random_loop attempts d rng (S k)
        | chain => chain !! Z.to_nat (rng (S k) mod Z.of_nat (length chain))
        end
  end.

Definition randomEntry (d : dict) (rng : nat -> Z) : option entry :=
  if empty d then None
  else
    match random_loop 100 d rng 0 with
    | Some e => Some e
    | None => head (concat (tables0 d ++ tables1 d))
    end.
End Dict.

Arguments dict : clear implicits.

Example dict_sample_ops :
  let ins d k := d ← d; '(d, _) ← insert d [k] k; Some d in
  let d := foldl ins (Some (new (T := Z))) (map Z.of_nat (seq 0 40)) in
  (d ← d; Some (size d, length (tables0 d), length (tables1 d), isRehashing d)) = Some (40%nat, 32%nat, 64%nat, true) /\
  (d ← d; '(d, p) ← find d [7]; p ← p; deref d p) = Some 7 /\
  (d ← d; '(d, b) ← erase d [7]; '(d, p) ← find d [7]; Some (b, p)) = Some (true, None).
Proof. vm_compute. done. Qed.

(** ** Tables *)

Definition pow2 (n : nat) : Prop := exists k, (2 <= k)%nat /\ n = (2 ^ k)%nat.

Lemma pow2_pos n : pow2 n -> (4 <= n)%nat.
Proof.
  intros (k & Hk & ->). change 4%nat with (2 ^ 2)%nat. by apply Nat.pow_le_mono_r.
Qed.

Lemma pow2_double n : pow2 n -> pow2 (n * 2).
Proof. intros (k & Hk & ->). exists (S k). rewrite Nat.pow_succ_r'. lia. Qed.

Lemma hash_range key : is_u64 (hash key).
Proof.
  unfold hash. destruct key as [|c key] using rev_ind; [decide_now|].
  rewrite foldl_app. cbn [foldl]. by apply uwrap_range.
Qed.

Section Tables.
Context {T : Type}.
Implicit Types (tb : list (list (bytes * T))) (e : bytes * T).

Lemma slot_mod key tb k :
  length tb = (2 ^ k)%nat -> slot key tb = Z.to_nat (hash key mod 2 ^ Z.of_nat k).
Proof.
  intros Hl. unfold slot, mask. rewrite Hl.
  assert (0 < 2 ^ k)%nat by (apply Nat.neq_0_lt_0, Nat.pow_nonzero; done).
  destruct (Nat.eqb_spec (2 ^ k) 0); [lia|]. f_equal.
  rewrite Nat2Z.inj_pow. change (Z.of_nat 2) with 2.
  replace (2 ^ Z.of_nat k - 1) with (Z.ones (Z.of_nat k)).
  - by rewrite Z.land_ones by lia.
  - rewrite Z.ones_equiv. lia.
Qed.

Lemma slot_lt key tb : pow2 (length tb) -> (slot key tb < length tb)%nat.
Proof.
  intros (k & Hk & Hl). rewrite (slot_mod key tb k Hl), Hl.
  pose proof (Z.mod_pos_bound (hash key) (2 ^ Z.of_nat k) ltac:(by apply Z.pow_pos_nonneg; lia)).
  apply Nat2Z.inj_lt. rewrite Nat2Z.inj_pow. change (Z.of_nat 2) with 2. lia.
Qed.

Lemma slot_length key tb (tb' : list (list (bytes * T))) :
  length tb' = length tb -> slot key tb' = slot key tb.
Proof. intros Hl. unfold slot, mask. by rewrite Hl. Qed.

(** Every entry is in the chain its hash selects. *)
Definition placed tb : Prop :=
  forall i chain, tb !! i = Some chain -> Forall (fun e => slot e.1 tb = i) chain.

(** Replacing one chain of a table exchanges their entries. *)
Lemma concat_insert_perm tb i chain chain' :
  tb !! i = Some chain -> chain ++ concat (<[i := chain']> tb) ≡ₚ chain' ++ concat tb.
Proof.
  revert i. induction tb as [|c tb IH]; intros [|i] Hi; simplify_eq/=.
  - rewrite !app_assoc. by rewrite (Permutation_app_comm chain chain').
  - rewrite !(Permutation_app_swap_app _ c). by rewrite IH.
Qed.

Lemma placed_insert tb i chain :
  placed tb -> Forall (fun e => slot e.1 tb = i) chain -> placed (<[i := chain]> tb).
Proof.
  intros Hp Hc j c Hj. apply list_lookup_insert_Some in Hj as [(-> & -> & _)|(Hne & Hj)].
  - eapply Forall_impl; [|exact Hc]. cbn. intros e He. by rewrite (slot_length _ tb) by by rewrite length_insert.
  - eapply Forall_impl; [|exact (Hp _ _ Hj)]. cbn. intros e He.
    by rewrite (slot_length _ tb) by by rewrite length_insert.
Qed.

Lemma placed_replicate n : placed (replicate n []).
Proof. intros i c [-> _]%lookup_replicate. constructor. Qed.

Lemma concat_replicate_nil {A} n : concat (replicate n (@nil A)) = [].
Proof. by induction n. Qed.

Lemma push_ok tb e :
  pow2 (length tb) -> placed tb ->
  exists tb', push tb e = Some tb' /\ length tb' = length tb /\ placed tb' /\
    concat tb' ≡ₚ e :: concat tb.
Proof.
  intros H2 Hp. unfold push.
  destruct (lookup_lt_is_Some_2 tb (slot e.1 tb)) as [c Hc]; [by apply slot_lt|].
  rewrite Hc. eexists. split; [done|]. split; [by rewrite length_insert|]. split.
  - apply placed_insert; [done|]. constructor; [done|]. by apply Hp.
  - apply (Permutation_app_inv_l c). rewrite concat_insert_perm by done.
    simpl. apply Permutation_middle.
Qed.

Lemma chain_find_Some key chain j :
  chain_find (T := T) key chain = Some j -> exists v, chain !! j = Some (key, v).
Proof.
  revert j. induction chain as [|[k v] chain IH]; intros j Hj; [done|]. cbn in Hj.
  case_bool_decide as Hk; [simplify_eq/=; by exists v|].
  destruct (chain_find key chain) as [i|]; simplify_eq/=. by apply IH.
Qed.

Lemma chain_find_None key chain :
  chain_find (T := T) key chain = None -> key ∉ chain.*1.
Proof.
  induction chain as [|[k v] chain IH]; intros Hj; cbn in *; [apply not_elem_of_nil|].
  case_bool_decide as Hk; [done|]. destruct (chain_find key chain); [done|].
  apply not_elem_of_cons. split; [congruence|by apply IH].
Qed.

(** A key absent from the chain of its slot is absent from the table. *)
Lemma placed_absent tb key chain :
  placed tb -> tb !! slot key tb = Some chain -> key ∉ chain.*1 -> key ∉ (concat tb).*1.
Proof.
  intros Hp Hc Hn Hin. apply list_elem_of_fmap in Hin as ([k v] & -> & Hin).
  apply list_elem_of_In, in_concat in Hin as (c & Hc' & Hin).
  apply list_elem_of_In, list_elem_of_lookup in Hc' as [i Hi].
  pose proof (Hp _ _ Hi) as Hf. rewrite Forall_forall in Hf. pose proof (Hf _ Hin) as Hs. simpl in *.
  rewrite Hs in Hc. simplify_eq. apply Hn. apply list_elem_of_fmap. exists (k, v). split; [done|]. by apply list_elem_of_In.
Qed.
End Tables.

(** ** Invariant and abstraction *)

Section Invariant.
Context {T : Type}.
Implicit Types (d : dict T) (m : gmap bytes T).

Record inv d : Prop := {
  inv_size0 : pow2 (length (tables0 d));
  inv_placed0 : placed (tables0 d);
  inv_used0 : used0 d = length (concat (tables0 d));
  inv_used1 : used1 d = length (concat (tables1 d));
  inv_rehash :
    if isRehashing d then
      pow2 (length (tables1 d)) /\ placed (tables1 d) /\
      rehash_index d <= Z.of_nat (length (tables0 d)) /\
      (forall i, Z.of_nat i < rehash_index d -> tables0 d !! i = Some [])
    else rehash_index d = -1 /\ tables1 d = [] }.

(** The dictionary [d] represents the map [m]. *)
Definition models d m : Prop := inv d /\ forEach d ≡ₚ map_to_list m.

Lemma inv_new : inv new.
Proof.
  split; [by exists 2%nat|apply placed_replicate|done|done|done].
Qed.

Lemma models_new : models new ∅.
Proof. split; [apply inv_new|]. by rewrite map_to_list_empty. Qed.

Lemma models_nodup d m : models d m -> NoDup (forEach d).*1.
Proof. intros [_ Hp]. rewrite Hp. apply NoDup_fst_map_to_list. Qed.

Lemma models_lookup d m k v : models d m -> (k, v) ∈ forEach d <-> m !! k = Some v.
Proof. intros [_ Hp]. rewrite Hp. apply elem_of_map_to_list. Qed.

Lemma models_size d m : models d m -> size d = base.size m.
Proof.
  intros [Hi Hp]. unfold size. rewrite (inv_used0 _ Hi), (inv_used1 _ Hi), <- length_app.
  change (_ ++ _) with (forEach d). rewrite Hp. apply length_map_to_list.
Qed.

Lemma models_empty d m : models d m -> empty d = true <-> m = ∅.
Proof.
  intros Hm. unfold empty. rewrite (models_size _ _ Hm), Nat.eqb_eq. apply map_size_empty_iff.
Qed.

(** *** Migration *)

Lemma migrate_ok chain d :
  pow2 (length (tables1 d)) -> placed (tables1 d) ->
  used1 d = length (concat (tables1 d)) ->
  exists d', migrate chain d = Some d' /\ tables0 d' = tables0 d /\
    rehash_index d' = rehash_index d /\ used0 d' = (used0 d - length chain)%nat /\
    length (tables1 d') = length (tables1 d) /\ placed (tables1 d') /\
    used1 d' = length (concat (tables1 d')) /\
    concat (tables1 d') ≡ₚ chain ++ concat (tables1 d).
Proof.
  revert d. induction chain as [|e chain IH]; intros d H2 Hp Hu; cbn [migrate].
  { exists d. repeat split; try done. simpl. lia. }
  destruct (push_ok (tables1 d) e H2 Hp) as (t1 & Hpush & Hl & Hp1 & Hc). rewrite Hpush. cbn.
  destruct (IH (mk (tables0 d) t1 (used0 d - 1) (used1 d + 1) (rehash_index d)))
    as (d' & -> & H0 & Hr & Hu0 & Hl' & Hp' & Hu1 & Hc'); cbn in *.
  - by rewrite Hl.
  - done.
  - rewrite Hc. simpl. lia.
  - exists d'. repeat split; try done; [lia|congruence|].
    rewrite Hc', Hc. symmetry. apply Permutation_middle.
Qed.

Lemma skip_empty_ok t0 p fuel index ev :
  (index <= p)%nat -> (p < index + fuel)%nat ->
  (exists e c, t0 !! p = Some (e :: c : list (bytes * T))) ->
  exists index' ev' ret, skip_empty fuel t0 index ev = Some (index', ev', ret) /\
    (index <= index' <= p)%nat /\
    (forall i, (index <= i < index')%nat -> t0 !! i = Some []) /\
    (if ret : bool then index < index' else exists e c, t0 !! index' = Some (e :: c))%nat.
Proof.
  intros Hi Hf Hp. revert index ev Hi Hf.
  induction fuel as [|fuel IH]; intros index ev Hi Hf; [lia|]. cbn [skip_empty].
  destruct Hp as (e & c & Hp).
  destruct (lookup_lt_is_Some_2 t0 index) as [b Hb]; [apply lookup_lt_Some in Hp; lia|].
  rewrite Hb. cbn. destruct b as [|e' c'].
  - assert (index <> p) by (intros ->; congruence).
    assert (forall i, (index <= i < S index)%nat -> t0 !! i = Some []) as H1
      by (intros i ?; by replace i with index by lia).
    case_if; [eexists _, _, true; split; [done|]; split; [lia|]; split; [done|lia]|].
    destruct (Nat.leb_spec (length t0) (S index)) as [Hle|_];
      [apply lookup_lt_Some in Hp; lia|].
    destruct (IH (S index) (ev - 1)) as (i' & ev' & ret & -> & Hr & He & Hx); [lia..|].
    exists i', ev', ret. split; [done|]. split; [lia|]. split.
    + intros i ?. destruct (decide (i = index)) as [->|]; [done|]. apply He. lia.
    + destruct ret; [lia|done].
  - exists index, ev, false. split; [done|]. split; [lia|]. split; [lia|by eexists _, _].
Qed.

(** Live entries in table 0 lie at or after the rehash index. *)
Lemma live_bucket d :
  inv d -> isRehashing d = true -> (0 < used0 d)%nat ->
  exists p e c, tables0 d !! p = Some (e :: c) /\ rehash_index d <= Z.of_nat p.
Proof.
  intros Hi Hr Hu. pose proof (inv_rehash _ Hi) as Hre. rewrite Hr in Hre.
  destruct Hre as (_ & _ & _ & Hem). rewrite (inv_used0 _ Hi) in Hu.
  destruct (concat (tables0 d)) as [|e l] eqn:Hc; [simpl in Hu; lia|].
  assert (e ∈ concat (tables0 d)) as Hin by (rewrite Hc; by apply elem_of_cons; left).
  apply list_elem_of_In, in_concat in Hin as (c & Hc' & Hin).
  apply list_elem_of_In, list_elem_of_lookup in Hc' as [p Hp].
  destruct c as [|e' c]; [done|]. exists p, e', c. split; [done|].
  destruct (Z.le_gt_cases (rehash_index d) (Z.of_nat p)) as [|Hlt]; [done|].
  rewrite Hem in Hp by lia. done.
Qed.

(** Moving the rehash index over empty buckets. *)
Lemma advance_ok d m index :
  models d m -> isRehashing d = true -> rehash_index d <= Z.of_nat index ->
  (index <= length (tables0 d))%nat ->
  (forall i, rehash_index d <= Z.of_nat i < Z.of_nat index -> tables0 d !! i = Some []) ->
  models (set_rehash_index d (Z.of_nat index)) m.
Proof.
  intros [Hi Hp] Hr Hle Hlen He. split; [|done]. pose proof (inv_rehash _ Hi) as Hre. rewrite Hr in Hre.
  destruct Hre as (H2 & Hp1 & _ & Hem). destruct Hi. split; cbn; try done.
  unfold isRehashing. cbn. destruct (Z.leb_spec 0 (Z.of_nat index)); [|lia].
  repeat split; try done; [lia|]. intros i Hlt.
  destruct (Z.le_gt_cases (rehash_index d) (Z.of_nat i)); [apply He|apply Hem]; lia.
Qed.

Lemma migrate_bucket_ok d m index chain :
  models d m -> isRehashing d = true -> rehash_index d = Z.of_nat index ->
  tables0 d !! index = Some chain ->
  exists d', migrate chain d = Some d' /\ length (tables0 d') = length (tables0 d) /\
    models (set_rehash_index (set_table d' false (<[index := []]> (tables0 d'))) (Z.of_nat index + 1)) m.
Proof.
  intros [Hi Hp] Hr Hidx Hc. pose proof (inv_rehash _ Hi) as Hre. rewrite Hr in Hre.
  destruct Hre as (H2 & Hp1 & _ & Hem). destruct Hi as [I1 I2 I3 I4 _].
  destruct (migrate_ok chain d H2 Hp1 I4) as (d' & -> & T0 & R & U0 & L1 & P1 & U1 & C1).
  exists d'. rewrite T0. split; [done|]. split; [done|].
  pose proof (concat_insert_perm _ _ _ [] Hc) as Hperm. simpl in Hperm.
  split; [split; cbn; try done|].
  - by rewrite length_insert.
  - by apply placed_insert.
  - rewrite U0, I3, <- Hperm, length_app. lia.
  - unfold isRehashing. cbn. destruct (Z.leb_spec 0 (Z.of_nat index + 1)); [|lia].
    apply lookup_lt_Some in Hc as Hlt. rewrite length_insert, L1. repeat split; try done; [lia|].
    intros i Hlt'. destruct (decide (i = index)) as [->|Hne]; [by rewrite list_lookup_insert_eq|].
    rewrite list_lookup_insert_ne by done. apply Hem. lia.
  - unfold forEach in *. cbn. rewrite C1, <- Hp, <- Hperm.
    rewrite app_assoc. f_equiv. apply Permutation_app_comm.
Qed.

Lemma rehash_loop_ok n ev d m :
  models d m -> isRehashing d = true ->
  exists d' ret, rehash_loop n ev d = Some (d', ret) /\ models d' m /\ isRehashing d' = true /\
    length (tables0 d') = length (tables0 d) /\ rehash_index d <= rehash_index d' /\
    ((0 < n)%nat -> rehash_index d < rehash_index d' \/ (d' = d /\ ret = false /\ used0 d = 0%nat)).
Proof.
  revert ev d. induction n as [|n IH]; intros ev d Hm Hr; cbn [rehash_loop].
  { exists d, false. split_and!; try done; lia. }
  destruct (Nat.ltb_spec 0 (used0 d)) as [Hu|Hu].
  2:{ exists d, false. split_and!; try done. intros _. right. split_and!; [done..|lia]. }
  destruct (live_bucket d (proj1 Hm) Hr Hu) as (p & e & c & Hp & Hle).
  assert (0 <= rehash_index d) as H0 by (by apply Z.leb_le in Hr).
  apply lookup_lt_Some in Hp as Hplt.
  destruct (skip_empty_ok (tables0 d) p (S (length (tables0 d))) (Z.to_nat (rehash_index d)) ev)
    as (index & ev' & ret & -> & Hrng & Hem & Hret); [lia|lia|by eexists _, _|].
  assert (models (set_rehash_index d (Z.of_nat index)) m) as Hm'.
  { apply advance_ok; try done; [lia|lia|]. intros i Hi. apply Hem. lia. }
  cbn [mbind option_bind]. change (tables0 (set_rehash_index d _)) with (tables0 d). destruct ret.
  { eexists _, true. split; [done|]. split; [done|]. unfold isRehashing. cbn.
    repeat split; [apply Z.leb_le; lia|lia|]. intros _. left. lia. }
  destruct (Nat.leb_spec (length (tables0 d)) index) as [Hge|_]; [lia|].
  destruct Hret as (e1 & c1 & Hb). rewrite Hb. cbn [mbind option_bind].
  destruct (migrate_bucket_ok _ m index (e1 :: c1) Hm') as (d' & Hmig & Hl & Hmod).
  { unfold isRehashing. cbn. apply Z.leb_le. lia. }
  { done. }
  { done. }
  rewrite Hmig. cbn [mbind option_bind].
  destruct (IH ev' _ Hmod) as (d2 & ret2 & -> & Hm2 & Hr2 & Hl2 & Hi2 & _).
  { unfold isRehashing. cbn. apply Z.leb_le. lia. }
  exists d2, ret2. cbn in *. rewrite length_insert in Hl2.
  split; [done|]. split; [done|]. repeat split; [done|lia|lia|]. intros _. left. lia.
Qed.

Lemma rehashSteps_ok n d m :
  models d m ->
  exists d' more, rehashSteps d n = Some (d', more) /\ models d' m /\ more = isRehashing d' /\
    (isRehashing d = false -> d' = d) /\
    (isRehashing d' = true -> isRehashing d = true /\ length (tables0 d') = length (tables0 d) /\
      ((0 < n)%nat -> rehash_index d < rehash_index d')).
Proof.
  intros Hm. unfold rehashSteps. destruct (isRehashing d) eqn:Hr; cbn [negb].
  2:{ exists d, false. by rewrite Hr. }
  destruct (rehash_loop_ok n (Z.of_nat n * 10) d m Hm Hr)
    as (d' & ret & -> & Hm' & Hr' & Hl & Hle & Hlt). cbn.
  destruct ret; [|destruct (Nat.eqb_spec (used0 d') 0) as [Hz|Hz]].
  - exists d', true. split; [done|]. split; [done|]. split; [done|]. split; [done|]. intros _.
    repeat split; [done|]. intros Hn. by destruct (Hlt Hn) as [|(_ & ? & _)].
  - eexists _, false. split; [done|]. split; [|done].
    destruct Hm' as [Hi Hp]. pose proof (inv_rehash _ Hi) as Hre. rewrite Hr' in Hre.
    destruct Hre as (H2 & Hp1 & _ & _). rewrite (inv_used0 _ Hi) in Hz.
    apply nil_length_inv in Hz. split; [split; cbn; try done|].
    + apply (inv_used1 _ Hi).
    + unfold forEach in *. cbn. rewrite <- Hp, Hz. by rewrite app_nil_r.
  - exists d', true. split; [done|]. split; [done|]. split; [done|]. split; [done|]. intros _.
    repeat split; [done|]. intros Hn. destruct (Hlt Hn) as [|(-> & _ & ?)]; [done|lia].
Qed.

Lemma rehashStep_ok d m :
  models d m ->
  exists d', rehashStep d = Some d' /\ models d' m /\
    (isRehashing d' = true -> isRehashing d = true /\ length (tables0 d') = length (tables0 d) /\
      rehash_index d < rehash_index d').
Proof.
  intros Hm. unfold rehashStep. destruct (isRehashing d) eqn:Hr.
  - destruct (rehashSteps_ok 1 d m Hm) as (d' & more & -> & Hm' & _ & _ & Hlt).
    exists d'. split; [done|]. split; [done|]. intros H. destruct (Hlt H) as (? & ? & Hx).
    repeat split; [done|]. apply Hx. lia.
  - exists d. by rewrite Hr.
Qed.

(** *** Effects of a changed chain *)

Lemma models_update d d' m key v w rest :
  models d m -> inv d' -> forEach d ≡ₚ (key, w) :: rest -> forEach d' ≡ₚ (key, v) :: rest ->
  models d' (<[key := v]> m).
Proof. intros [_ Hp] Hi' Hd Hd'. split; [done|]. rewrite Hd'. by eapply perm_update. Qed.

Lemma models_add d d' m key v :
  models d m -> inv d' -> m !! key = None -> forEach d' ≡ₚ (key, v) :: forEach d ->
  models d' (<[key := v]> m).
Proof. intros [_ Hp] Hi' Hk Hd. split; [done|]. rewrite Hd. by apply perm_add. Qed.

Lemma models_remove d d' m key w :
  models d m -> inv d' -> forEach d ≡ₚ (key, w) :: forEach d' -> models d' (delete key m).
Proof. intros [_ Hp] Hi' Hd. split; [done|]. by eapply perm_remove. Qed.

Lemma live_table d t : inv d -> t ∈ live_tables d -> pow2 (length (tables d t)) /\ placed (tables d t).
Proof.
  intros Hi Ht. pose proof (inv_rehash _ Hi) as Hre. unfold live_tables in Ht.
  destruct Hi, (isRehashing d), t; set_unfold; cbn; naive_solver.
Qed.

Lemma table_find tb key :
  pow2 (length tb) -> placed (T := T) tb ->
  exists chain, tb !! slot key tb = Some chain /\
    match chain_find key chain with
    | Some j => exists v, chain !! j = Some (key, v)
    | None => key ∉ (concat tb).*1
    end.
Proof.
  intros H2 Hp. destruct (lookup_lt_is_Some_2 tb (slot key tb)) as [c Hc]; [by apply slot_lt|].
  exists c. split; [done|]. destruct (chain_find key c) as [j|] eqn:Hf.
  - by apply chain_find_Some.
  - eapply placed_absent; [done..|]. by apply chain_find_None.
Qed.

(** Taking one entry out of a table. *)
Lemma table_split tb i chain j (e : bytes * T) :
  tb !! i = Some chain -> chain !! j = Some e ->
  concat tb ≡ₚ e :: concat (<[i := delete j chain]> tb).
Proof.
  intros Hi Hj. apply (Permutation_app_inv_l (delete j chain)).
  rewrite <- Permutation_middle, <- concat_insert_perm by done.
  rewrite app_comm_cons. by apply Permutation_app_tail, delete_Permutation.
Qed.

Lemma delete_insert_at {A} (j : nat) (x : A) (l : list A) : delete j (<[j := x]> l) = delete j l.
Proof. revert j. induction l as [|y l IH]; intros [|j]; simpl; [done..|]. by f_equal. Qed.

(** Changing a non-empty chain keeps the invariant. *)
Lemma inv_set_chain d t i chain chain' n :
  inv d -> tables d t !! i = Some chain -> chain <> [] ->
  Forall (fun e => slot e.1 (tables d t) = i) chain' ->
  (n + length chain = used d t + length chain')%nat ->
  inv (set_used (set_table d t (<[i := chain']> (tables d t))) t n).
Proof.
  intros [I1 I2 I3 I4 I5] Hi Hne Hf Hn.
  pose proof (Permutation_length (concat_insert_perm _ _ _ chain' Hi)) as Hl.
  rewrite !length_app in Hl.
  destruct t; cbn in *; split; cbn; try done.
  - lia.
  - change (isRehashing (mk _ _ _ _ (rehash_index d))) with (isRehashing d).
    destruct (isRehashing d).
    + destruct I5 as (H2 & Hp & Hle & Hem). rewrite length_insert. split_and!; try done.
      by apply placed_insert.
    + destruct I5 as [_ Ht1]. by rewrite Ht1 in Hi.
  - by rewrite length_insert.
  - by apply placed_insert.
  - lia.
  - change (isRehashing (mk _ _ _ _ (rehash_index d))) with (isRehashing d).
    destruct (isRehashing d); [|done].
    destruct I5 as (H2 & Hp & Hle & Hem). rewrite length_insert. split_and!; try done.
    intros k Hk. destruct (decide (k = i)) as [->|]; [|rewrite list_lookup_insert_ne by done; by apply Hem].
    rewrite Hem in Hi by done. by simplify_eq.
Qed.

(** A pointer into [d] to the value stored under [key]. *)
Definition points_to d (p : ptr) key v : Prop :=
  let '(t, i, j) := p in
  exists chain, tables d t !! i = Some chain /\ chain !! j = Some (key, v) /\
    i = slot key (tables d t) /\ t ∈ live_tables d.

Lemma points_to_in d p key v : points_to d p key v -> (key, v) ∈ forEach d.
Proof.
  destruct p as [[t i] j]. intros (chain & Hi & Hj & _). unfold forEach.
  assert ((key, v) ∈ concat (tables d t)) as Hin.
  { rewrite (table_split _ _ _ _ _ Hi Hj). by apply elem_of_cons; left. }
  apply elem_of_app. destruct t; auto.
Qed.

Lemma points_to_deref d p key v : points_to d p key v -> deref d p = Some v.
Proof.
  destruct p as [[t i] j]. intros (chain & Hi & Hj & _). unfold deref. rewrite Hi. cbn. by rewrite Hj.
Qed.

Lemma find_in_ok d key ts :
  inv d -> ts ⊆ live_tables d ->
  exists p, find_in d key ts = Some p /\
    match p with
    | Some q => exists v, points_to d q key v
    | None => forall t, t ∈ ts -> key ∉ (concat (tables d t)).*1
    end.
Proof.
  intros Hi. induction ts as [|t ts IH]; intros Hsub; cbn [find_in].
  { exists None. split; [done|]. intros t Ht. set_solver. }
  destruct (live_table d t Hi ltac:(set_solver)) as [H2 Hp].
  destruct (Nat.eqb_spec (length (tables d t)) 0); [apply pow2_pos in H2; lia|].
  destruct (table_find _ key H2 Hp) as (chain & Hc & Hf). rewrite Hc. cbn.
  destruct (chain_find key chain) as [j|].
  - eexists. split; [done|]. destruct Hf as [v Hj]. exists v, chain. split_and!; set_solver.
  - destruct IH as (p & -> & Hpo); [set_solver|]. exists p. split; [done|].
    destruct p as [q|]; [done|]. intros t' [->|]%elem_of_cons; [done|]. by apply Hpo.
Qed.

(** Entries live only in the tables the search visits. *)
Lemma absent_live d key :
  inv d -> (forall t, t ∈ live_tables d -> key ∉ (concat (tables d t)).*1) -> key ∉ (forEach d).*1.
Proof.
  intros Hi H. unfold forEach. rewrite fmap_app, not_elem_of_app. pose proof (inv_rehash _ Hi) as Hr.
  unfold live_tables in H. split.
  - apply (H false). destruct (isRehashing d); set_solver.
  - destruct (isRehashing d); [apply (H true); set_solver|]. destruct Hr as [_ ->]. set_solver.
Qed.

Lemma find_live_ok d m key :
  models d m ->
  exists p, find_in d key (live_tables d) = Some p /\
    match p with
    | Some q => exists v, points_to d q key v /\ m !! key = Some v
    | None => m !! key = None
    end.
Proof.
  intros Hm. destruct (find_in_ok d key (live_tables d) (proj1 Hm)) as (p & -> & Hp); [done|].
  exists p. split; [done|]. destruct p as [q|].
  - destruct Hp as [v Hv]. exists v. split; [done|]. apply (models_lookup d m); [done|].
    by eapply points_to_in.
  - apply absent_live in Hp; [|apply Hm]. destruct (m !! key) as [v|] eqn:Hk; [|done].
    apply (models_lookup d m) in Hk; [|done]. destruct Hp. apply list_elem_of_fmap. by exists (key, v).
Qed.

Lemma find_ok d m key :
  models d m ->
  exists d' p, find d key = Some (d', p) /\ models d' m /\
    match p with
    | Some q => exists v, points_to d' q key v /\ m !! key = Some v
    | None => m !! key = None
    end.
Proof.
  intros Hm. unfold find. destruct (empty d) eqn:He.
  - apply (models_empty d m Hm) in He as ->. exists d, None. by rewrite lookup_empty.
  - destruct (rehashStep_ok d m Hm) as (d' & -> & Hm' & _). cbn.
    destruct (find_live_ok d' m key Hm') as (p & -> & Hp). by exists d', p.
Qed.

Lemma assign_ok d m p key v w :
  models d m -> points_to d p key w -> models (assign d p v) (<[key := v]> m).
Proof.
  intros Hm Hp. destruct p as [[t i] j], Hp as (chain & Hi & Hj & -> & Ht).
  unfold assign. rewrite Hi, Hj. cbn [fst].
  set (chain' := <[j := (key, v)]> chain).
  set (rest := concat (<[slot key (tables d t) := delete j chain]> (tables d t))).
  assert (concat (tables d t) ≡ₚ (key, w) :: rest) as H1 by by apply table_split.
  assert (concat (<[slot key (tables d t) := chain']> (tables d t)) ≡ₚ (key, v) :: rest) as H2.
  { rewrite (table_split _ (slot key (tables d t)) chain' j (key, v)).
    - unfold chain'. by rewrite list_insert_insert_eq, delete_insert_at.
    - apply list_lookup_insert_eq. by apply lookup_lt_Some in Hi.
    - apply list_lookup_insert_eq. by apply lookup_lt_Some in Hj. }
  destruct (live_table d t (proj1 Hm) Ht) as [_ Hpl].
  assert (inv (set_table d t (<[slot key (tables d t) := chain']> (tables d t)))) as Hinv.
  { pose proof (inv_set_chain d t _ chain chain' (used d t) (proj1 Hm) Hi) as Hx.
    destruct t; cbn in *; apply Hx; try by (intros ->).
    all: try (unfold chain'; by rewrite length_insert).
    all: apply Forall_insert; [by apply Hpl|done]. }
  set (rest' := if t then concat (tables0 d) ++ rest else rest ++ concat (tables1 d)).
  apply (models_update d _ m key v w rest'); [done|done|..];
    unfold forEach, rest'; destruct t; cbn in *; rewrite ?H1, ?H2; try done;
    by rewrite <- Permutation_middle.
Qed.

(** *** Resizing *)

Lemma resizeTo_ok d m n :
  models d m -> isRehashing d = false -> pow2 n -> models (resizeTo d n) m.
Proof.
  intros [Hi Hp] Hr Hn. pose proof (inv_rehash _ Hi) as Hre. rewrite Hr in Hre. destruct Hre as [_ Ht].
  destruct Hi. split; [split; cbn; try done|].
  - by rewrite concat_replicate_nil.
  - rewrite length_replicate. split_and!; [done|apply placed_replicate|lia|lia].
  - unfold forEach in *. cbn. by rewrite concat_replicate_nil, <- Hp, Ht.
Qed.

Lemma expandIfNeeded_ok d m : models d m -> models (expandIfNeeded d) m.
Proof.
  intros Hm. unfold expandIfNeeded. destruct (isRehashing d) eqn:Hr; [done|].
  case_if; [done|]. apply resizeTo_ok; [done..|]. apply pow2_double, Hm.
Qed.

Lemma npot_pow2 fuel p n : pow2 p -> pow2 (npot_loop fuel p n).
Proof.
  revert p. induction fuel as [|fuel IH]; intros p Hp; [done|]. cbn [npot_loop].
  case_if; [|done]. by apply IH, pow2_double.
Qed.

Lemma shrinkIfNeeded_ok d m : models d m -> models (shrinkIfNeeded d) m.
Proof.
  intros Hm. unfold shrinkIfNeeded. destruct (isRehashing d) eqn:Hr; [done|].
  case_if; [done|]. case_if; [done|]. apply resizeTo_ok; [done..|].
  assert (pow2 kInitialSize) as H4 by by exists 2%nat.
  destruct (Nat.max_spec kInitialSize (nextPowerOfTwo (used0 d + 1))) as [[_ ->]|[_ ->]]; [|done].
  by apply npot_pow2.
Qed.

Lemma add_ok d m key v :
  models d m -> m !! key = None ->
  let t := isRehashing d in
  exists tb, push (tables d t) (key, v) = Some tb /\
    models (set_used (set_table d t tb) t (used d t + 1)) (<[key := v]> m).
Proof.
  intros Hm Hk t. pose proof (inv_rehash _ (proj1 Hm)) as Hre.
  destruct (live_table d t (proj1 Hm)) as [H2 Hp].
  { unfold t, live_tables. destruct (isRehashing d); set_solver. }
  destruct (push_ok _ (key, v) H2 Hp) as (tb & -> & Hl & Hp' & Hc). exists tb. split; [done|].
  apply (models_add d); [done| |done|].
  - destruct (proj1 Hm) as [I1 I2 I3 I4 _]. unfold t in *. destruct (isRehashing d) eqn:Hr.
    + destruct Hre as (J1 & J2 & J3 & J4). split; cbn in *; try done.
      * rewrite Hc. simpl. lia.
      * change (isRehashing (mk _ _ _ _ (rehash_index d))) with (isRehashing d). rewrite Hr.
        split_and!; try done. by rewrite Hl.
    + split; cbn in *; try done.
      * by rewrite Hl.
      * rewrite Hc. simpl. lia.
      * change (isRehashing (mk _ _ _ _ (rehash_index d))) with (isRehashing d). by rewrite Hr.
  - unfold forEach. destruct t; cbn in *; rewrite Hc; [|done]. by rewrite <- Permutation_middle.
Qed.

Lemma insert_ok d m key v :
  models d m ->
  exists d', insert d key v = Some (d', bool_decide (m !! key = None)) /\ models d' (<[key := v]> m).
Proof.
  intros Hm. unfold insert. destruct (rehashStep_ok d m Hm) as (d1 & -> & Hm1 & _). cbn [mbind option_bind].
  destruct (find_ok d1 m key Hm1) as (d2 & p & -> & Hm2 & Hp). cbn [mbind option_bind].
  destruct p as [q|].
  - destruct Hp as (w & Hpt & Hk). eexists. rewrite Hk. split; [done|]. by eapply assign_ok.
  - apply (expandIfNeeded_ok d2) in Hm2.
    destruct (add_ok _ _ key v Hm2 Hp) as (tb & -> & Hm3). cbn [mbind option_bind].
    eexists. rewrite Hp. by split.
Qed.

Lemma remove_ok d m t i j chain key w :
  models d m -> tables d t !! i = Some chain -> chain !! j = Some (key, w) -> t ∈ live_tables d ->
  models (set_used (set_table d t (<[i := delete j chain]> (tables d t))) t (used d t - 1))
    (delete key m).
Proof.
  intros Hm Hi Hj Ht. destruct (live_table d t (proj1 Hm) Ht) as [_ Hpl].
  pose proof (table_split _ _ _ _ _ Hi Hj) as Hs.
  apply (models_remove d _ m key w); [done| |].
  - apply (inv_set_chain d t i chain); [apply Hm|done|by intros ->| |].
    + apply Forall_delete. by apply Hpl.
    + assert (used d t = length (concat (tables d t))) as Hu.
      { destruct (proj1 Hm), t; done. }
      pose proof (lookup_lt_Some _ _ _ Hj). rewrite length_delete by (by eexists).
      pose proof (Permutation_length Hs) as Hlen. cbn [length] in Hlen. lia.
  - unfold forEach. destruct t; cbn in *; rewrite Hs; [|done]. by rewrite <- Permutation_middle.
Qed.

Lemma erase_in_ok d m key ts :
  models d m -> ts ⊆ live_tables d ->
  (forall t, t ∈ live_tables d -> t ∉ ts -> key ∉ (concat (tables d t)).*1) ->
  exists d', erase_in d key ts = Some (d', bool_decide (m !! key <> None)) /\ models d' (delete key m).
Proof.
  intros Hm. induction ts as [|t ts IH]; intros Hsub Habs; cbn [erase_in].
  { exists d. assert (m !! key = None) as Hk.
    { destruct (m !! key) as [v|] eqn:Hk; [|done]. apply (models_lookup d m) in Hk; [|done].
      destruct (absent_live d key (proj1 Hm)); [set_solver|]. apply list_elem_of_fmap. by exists (key, v). }
    rewrite Hk, delete_id by done. done. }
  destruct (live_table d t (proj1 Hm) ltac:(set_solver)) as [H2 Hp].
  destruct (Nat.eqb_spec (length (tables d t)) 0); [apply pow2_pos in H2; lia|].
  destruct (table_find _ key H2 Hp) as (chain & Hc & Hf). rewrite Hc. cbn [mbind option_bind].
  destruct (chain_find key chain) as [j|].
  - destruct Hf as [v Hj]. eexists.
    assert (m !! key = Some v) as ->.
    { apply (models_lookup d m); [done|]. apply (points_to_in d (t, slot key (tables d t), j)).
      exists chain. split_and!; set_solver. }
    split; [done|]. apply shrinkIfNeeded_ok.
    pose proof (remove_ok d m t _ j chain key v Hm Hc Hj ltac:(set_solver)) as Hx.
    by destruct t.
  - apply IH; [set_solver|]. intros t' Ht' Hn. destruct (decide (t' = t)) as [->|]; [done|].
    apply Habs; [done|]. set_solver.
Qed.

Lemma erase_ok d m key :
  models d m ->
  exists d', erase d key = Some (d', bool_decide (m !! key <> None)) /\ models d' (delete key m).
Proof.
  intros Hm. unfold erase. destruct (empty d) eqn:He.
  - apply (models_empty d m Hm) in He as ->. exists d. by rewrite delete_empty.
  - destruct (rehashStep_ok d m Hm) as (d1 & -> & Hm1 & _). cbn [mbind option_bind].
    apply erase_in_ok; [done|done|]. intros t Ht Hn. done.
Qed.

Lemma clear_ok d : models (clear d) ∅.
Proof. apply models_new. Qed.
End Invariant.

(** ** Bit reversal *)

(** A mask for which a stage exchanges the bits [s] apart. *)
Definition stage_ok (s m : Z) : bool :=
  forallb (fun n =>
    let i := Z.of_nat n in
    if Z.testbit m i then (i + s =? Z.lxor i s) && negb (Z.testbit m (i - s))
    else (i - s =? Z.lxor i s) && Z.testbit m (i - s)) (seq 0 64).

Lemma rev_stage_bit v s m i :
  0 < s -> stage_ok s m = true -> 0 <= i < 64 ->
  Z.testbit (rev_stage v s m) i = Z.testbit v (Z.lxor i s).
Proof.
  intros Hs Hok Hi. unfold rev_stage, uwrap.
  rewrite Z.mod_pow2_bits_low, Z.lor_spec, Z.land_spec, Z.shiftr_spec by lia.
  rewrite Z.mod_pow2_bits_low, Z.shiftl_spec, Z.land_spec by lia.
  unfold stage_ok in Hok. rewrite forallb_forall in Hok.
  specialize (Hok (Z.to_nat i)). rewrite Z2Nat.id in Hok by lia.
  specialize (Hok ltac:(apply in_seq; lia)). cbv zeta in Hok.
  destruct (Z.testbit m i) eqn:Hm; apply andb_true_iff in Hok as [He%Z.eqb_eq Hn]; rewrite <- He.
  - apply negb_true_iff in Hn. rewrite Hn, andb_true_r, andb_false_r. apply orb_false_r.
  - rewrite Hn, andb_false_r, andb_true_r. done.
Qed.

Lemma lxor_flip i : 0 <= i < 64 ->
  Z.lxor (Z.lxor (Z.lxor (Z.lxor (Z.lxor (Z.lxor i 32) 16) 8) 4) 2) 1 = 63 - i.
Proof. intros Hi. apply Z.eqb_eq. byte_eqb 64%nat i. Qed.

Lemma lxor_lt64 i s : 0 <= i < 64 -> 0 <= s < 64 -> 0 <= Z.lxor i s < 64.
Proof.
  intros Hi Hs. split; [by apply Z.lxor_nonneg; lia|].
  destruct (Z.eq_dec (Z.lxor i s) 0) as [->|Hne]; [lia|].
  apply Z.log2_lt_pow2 with (b := 6); [pose proof (Z.lxor_nonneg i s); lia|].
  eapply Z.le_lt_trans; [by apply Z.log2_lxor; lia|].
  assert (forall x, 0 <= x < 64 -> Z.log2 x < 6) as Hl.
  { intros x Hx. destruct (Z.eq_dec x 0) as [->|]; [done|]. apply Z.log2_lt_pow2; lia. }
  pose proof (Hl i Hi). pose proof (Hl s Hs). lia.
Qed.

Ltac bit_index := first [reflexivity | lia | (repeat (apply lxor_lt64; [ | lia])); lia].

Lemma reverseBits_bit v i :
  is_u64 v -> 0 <= i < 64 -> Z.testbit (reverseBits v) i = Z.testbit v (63 - i).
Proof.
  intros Hv Hi. unfold reverseBits. cbv zeta.
  set (v5 := rev_stage _ 16 _).
  assert (Z.testbit (Z.lor (Z.shiftr v5 32) (u64 (Z.shiftl v5 32))) i = Z.testbit v5 (Z.lxor i 32)) as ->.
  { rewrite Z.lor_spec, Z.shiftr_spec by lia. unfold uwrap. rewrite Z.mod_pow2_bits_low, Z.shiftl_spec by lia.
    assert (Z.lxor i 32 = if i <? 32 then i + 32 else i - 32) as -> by byte_eqb 64%nat i.
    destruct (Z.ltb_spec i 32).
    - rewrite (Z.testbit_neg_r v5 (i - 32)) by lia. apply orb_false_r.
    - assert (Z.testbit v5 (i + 32) = false) as ->; [|done].
      unfold v5, rev_stage, uwrap. by rewrite Z.mod_pow2_bits_high by lia. }
  unfold v5. rewrite !rev_stage_bit by bit_index.
  by rewrite lxor_flip.
Qed.

Lemma reverseBits_range v : is_u64 v -> is_u64 (reverseBits v).
Proof.
  intros Hv. unfold reverseBits. cbv zeta. set (v5 := rev_stage _ 16 _).
  assert (is_u64 v5) as H5 by by apply uwrap_range.
  assert (Z.lor (Z.shiftr v5 32) (u64 (Z.shiftl v5 32)) =
    u64 (Z.lor (Z.shiftr v5 32) (u64 (Z.shiftl v5 32)))) as ->; [|by apply uwrap_range].
  apply Z.bits_inj'. intros i Hi. unfold uwrap at 2. destruct (Z.lt_ge_cases i 64).
  - by rewrite Z.mod_pow2_bits_low by lia.
  - rewrite Z.mod_pow2_bits_high, Z.lor_spec, Z.shiftr_spec by lia. unfold uwrap, u_range in *.
    rewrite Z.mod_pow2_bits_high, <- (Z.mod_small v5 (2 ^ 64)), Z.mod_pow2_bits_high by lia. done.
Qed.

Lemma u64_bit_high v i : is_u64 v -> 64 <= i -> Z.testbit v i = false.
Proof.
  unfold u_range. intros Hv Hi. rewrite <- (Z.mod_small v (2 ^ 64)) by done.
  by rewrite Z.mod_pow2_bits_high by lia.
Qed.

(** Bit-by-bit equality of 64-bit words. *)
Lemma u64_ext a b :
  is_u64 a -> is_u64 b -> (forall i, 0 <= i < 64 -> Z.testbit a i = Z.testbit b i) -> a = b.
Proof.
  intros Ha Hb H. apply Z.bits_inj'. intros i Hi. destruct (Z.lt_ge_cases i 64); [by apply H|].
  by rewrite !u64_bit_high.
Qed.

Lemma reverseBits_involutive v : is_u64 v -> reverseBits (reverseBits v) = v.
Proof.
  intros Hv. pose proof (reverseBits_range v Hv). apply u64_ext; [by apply reverseBits_range|done|].
  intros i Hi. rewrite !reverseBits_bit by (done || lia). f_equal. lia.
Qed.

(** ** Cursor arithmetic: in reversed bit order a cursor is a number that only
    grows, and a table of [2 ^ k] buckets is a partition into [2 ^ k]
    intervals of width [2 ^ (64 - k)]. *)

Lemma lor_ones_succ x n : 0 <= n -> Z.lor x (Z.ones n) + 1 = (x / 2 ^ n + 1) * 2 ^ n.
Proof.
  intros Hn. assert (0 < 2 ^ n) by (apply Z.pow_pos_nonneg; lia).
  assert (Z.lor x (Z.ones n) = Z.lor (Z.ones n) (Z.shiftl (Z.shiftr x n) n)) as ->.
  { apply Z.bits_inj'. intros i Hi. rewrite !Z.lor_spec.
    destruct (Z.lt_ge_cases i n).
    - rewrite Z.ones_spec_low by lia. by rewrite orb_true_r.
    - rewrite Z.ones_spec_high by lia. rewrite Z.shiftl_spec, Z.shiftr_spec by lia.
      rewrite orb_false_r. cbn [orb]. f_equal. lia. }
  rewrite lor_shiftl, shiftr_div by (try lia; rewrite Z.ones_equiv; lia).
  rewrite Z.ones_equiv. lia.
Qed.

Lemma rev_same_bucket a b k :
  is_u64 a -> is_u64 b -> 0 <= k <= 64 ->
  reverseBits a / 2 ^ (64 - k) = reverseBits b / 2 ^ (64 - k) -> a mod 2 ^ k = b mod 2 ^ k.
Proof.
  intros Ha Hb Hk He. apply Z.bits_inj'. intros i Hi. destruct (Z.lt_ge_cases i k).
  - rewrite !Z.mod_pow2_bits_low by lia.
    assert (forall v, is_u64 v -> Z.testbit v i = Z.testbit (reverseBits v / 2 ^ (64 - k)) (k - 1 - i)) as Hv.
    { intros v Hv. rewrite Z.div_pow2_bits, reverseBits_bit by (done || lia). f_equal. lia. }
    rewrite (Hv a Ha), (Hv b Hb). by rewrite He.
  - by rewrite !Z.mod_pow2_bits_high by lia.
Qed.

Lemma next_cursor_range c m : is_u64 (next_cursor c m).
Proof. unfold next_cursor. cbv zeta. apply reverseBits_range. by apply uwrap_range. Qed.

Lemma rev_next_cursor c k :
  is_u64 c -> 0 <= k <= 64 ->
  reverseBits (next_cursor c (Z.ones k)) =
    u64 ((reverseBits c / 2 ^ (64 - k) + 1) * 2 ^ (64 - k)).
Proof.
  intros Hc Hk. unfold next_cursor. cbv zeta. rewrite reverseBits_involutive by by apply uwrap_range.
  f_equal. rewrite <- lor_ones_succ by lia. f_equal.
  assert (is_u64 (Z.lor c (u64 (Z.lnot (Z.ones k))))) as Hr.
  { assert (Z.lor c (u64 (Z.lnot (Z.ones k))) = u64 (Z.lor c (Z.lnot (Z.ones k)))) as ->;
      [|by apply uwrap_range].
    apply Z.bits_inj'. intros i Hi. rewrite Z.lor_spec. unfold uwrap. destruct (Z.lt_ge_cases i 64).
    - by rewrite !Z.mod_pow2_bits_low, Z.lor_spec by lia.
    - rewrite !Z.mod_pow2_bits_high by lia. by rewrite u64_bit_high. }
  pose proof (reverseBits_range c Hc) as Hrc.
  apply Z.bits_inj'. intros i Hi. rewrite Z.lor_spec. destruct (Z.lt_ge_cases i 64).
  - rewrite !reverseBits_bit, Z.lor_spec by (done || lia). f_equal.
    unfold uwrap. rewrite Z.mod_pow2_bits_low, Z.lnot_spec by lia.
    destruct (Z.lt_ge_cases i (64 - k)).
    + rewrite Z.ones_spec_high, Z.ones_spec_low by lia. done.
    + rewrite Z.ones_spec_low, Z.ones_spec_high by lia. done.
  - rewrite Z.ones_spec_high, !u64_bit_high by (done || lia || by apply reverseBits_range). done.
Qed.

Lemma reverseBits_zero v : is_u64 v -> reverseBits v = 0 <-> v = 0.
Proof.
  intros Hv. split; [|by intros ->].
  intros H. rewrite <- (reverseBits_involutive v Hv), H. done.
Qed.

Lemma same_block x y w : 0 < w -> y <= x < (y / w + 1) * w -> x / w = y / w.
Proof.
  intros Hw Hx. symmetry. apply Z.div_unique with (x - y / w * w); [|lia]. left.
  pose proof (Z.mul_div_le y w Hw). lia.
Qed.

#[local] Opaque reverseBits hash.

(** The end of the interval a scan step covers: a returned cursor 0 means the
    end of the hash space. *)
Definition limit (cursor : Z) : Z := if cursor =? 0 then 2 ^ 64 else reverseBits cursor.

Lemma block_wrap n p w r r' :
  0 < w -> n = p * w -> 0 <= r < n -> r' = ((r / w + 1) * w) mod n ->
  (if r' =? 0 then n else r') = (r / w + 1) * w /\ r < (r / w + 1) * w.
Proof.
  intros Hw Hn Hr ->. pose proof (Z.mul_succ_div_gt r w Hw) as Hgt. split; [|lia].
  assert (r / w < p) as Hlt by (apply Z.div_lt_upper_bound; lia).
  pose proof (Z.div_pos r w ltac:(lia) Hw).
  destruct (Z.eq_dec (r / w + 1) p) as [->|Hne].
  - by rewrite <- Hn, Z.mod_same by lia.
  - rewrite Z.mod_small by nia. destruct (Z.eqb_spec ((r / w + 1) * w) 0); nia.
Qed.

Lemma limit_rev c : is_u64 c -> limit c = if reverseBits c =? 0 then 2 ^ 64 else reverseBits c.
Proof.
  intros Hc. unfold limit. pose proof (reverseBits_zero c Hc).
  destruct (Z.eqb_spec c 0), (Z.eqb_spec (reverseBits c) 0); tauto.
Qed.

Lemma pow64_split k : 0 <= k <= 64 -> 2 ^ 64 = 2 ^ k * 2 ^ (64 - k).
Proof. intros. rewrite <- Z.pow_add_r by lia. f_equal. lia. Qed.

Lemma limit_next c c' k :
  is_u64 c -> is_u64 c' -> 0 <= k <= 64 ->
  reverseBits c' = u64 ((reverseBits c / 2 ^ (64 - k) + 1) * 2 ^ (64 - k)) ->
  limit c' = (reverseBits c / 2 ^ (64 - k) + 1) * 2 ^ (64 - k) /\ reverseBits c < limit c'.
Proof.
  intros Hc Hc' Hk Hr. rewrite (limit_rev c' Hc').
  destruct (block_wrap (2 ^ 64) (2 ^ k) (2 ^ (64 - k)) (reverseBits c) (reverseBits c')) as [-> ?].
  - apply Z.pow_pos_nonneg; lia.
  - by apply pow64_split.
  - by apply reverseBits_range.
  - exact Hr.
  - done.
Qed.

Section Scan.
Context {T : Type}.
Implicit Types (d : dict T) (e : bytes * T).

Definition revkey (key : bytes) : Z := reverseBits (hash key).

Lemma revkey_range key : is_u64 (revkey key).
Proof. apply reverseBits_range, hash_range. Qed.

(** [tb] has [2 ^ k] buckets, [k] below the word size. *)
Definition sized (tb : list (list (bytes * T))) (k : Z) : Prop :=
  0 <= k <= 63 /\ length tb = Z.to_nat (2 ^ k) /\ placed tb.

Lemma sized_mask tb k : sized tb k -> mask tb = Z.ones k.
Proof.
  intros (Hk & Hl & _). unfold mask. rewrite Hl, Z.ones_equiv.
  assert (0 < 2 ^ k) by (apply Z.pow_pos_nonneg; lia).
  destruct (Nat.eqb_spec (Z.to_nat (2 ^ k)) 0); [lia|]. rewrite Z2Nat.id by lia. lia.
Qed.

Lemma sized_slot tb k key : sized tb k -> slot key tb = Z.to_nat (hash key mod 2 ^ k).
Proof. intros Hs. unfold slot. rewrite (sized_mask tb k Hs). destruct Hs as [? _]. by rewrite Z.land_ones by lia. Qed.

Lemma emit_subset d t i e : e ∈ emitBucket d t i -> e ∈ concat (tables d t).
Proof.
  unfold emitBucket. case_if; [intros H; by apply not_elem_of_nil in H|]. bools. intros He.
  destruct (lookup_lt_is_Some_2 (tables d t) i) as [c Hc]; [lia|].
  rewrite (list_lookup_total_correct _ _ _ Hc) in He.
  apply list_elem_of_In, in_concat. exists c.
  split; apply list_elem_of_In; [by eapply list_elem_of_lookup_2|done].
Qed.

(** The bucket at the cursor holds every entry whose reversed hash is in the
    cursor's interval. *)
Lemma emit_covers d t k c e :
  sized (tables d t) k -> is_u64 c -> e ∈ concat (tables d t) ->
  revkey e.1 / 2 ^ (64 - k) = reverseBits c / 2 ^ (64 - k) ->
  e ∈ emitBucket d t (Z.to_nat (Z.land c (mask (tables d t)))).
Proof.
  intros Hs Hc He Hr. rewrite (sized_mask _ _ Hs).
  pose proof Hs as (Hk & Hl & Hp).
  apply rev_same_bucket in Hr; [|apply hash_range|done|lia].
  rewrite Z.land_ones, <- Hr by lia. rewrite <- (sized_slot _ k e.1 Hs).
  apply list_elem_of_In, in_concat in He as (ch & Hch & He).
  apply list_elem_of_In, list_elem_of_lookup in Hch as [i Hi].
  pose proof (Hp _ _ Hi) as Hf. rewrite Forall_forall in Hf. specialize (Hf e He). simpl in Hf.
  rewrite Hf. unfold emitBucket. apply lookup_lt_Some in Hi as Hlt.
  destruct (Nat.leb_spec (length (tables d t)) i); [lia|].
  rewrite (list_lookup_total_correct _ _ _ Hi). by apply list_elem_of_In.
Qed.

(** The loop condition [cursor & (ms ^ ml)] tests whether the cursor has
    reached a bucket boundary of the smaller table. *)
Lemma loop_guard c ks kl :
  is_u64 c -> 0 <= ks <= kl -> kl <= 63 ->
  reverseBits c mod 2 ^ (64 - kl) = 0 ->
  (Z.land c (Z.lxor (Z.ones ks) (Z.ones kl)) =? 0) = (reverseBits c mod 2 ^ (64 - ks) =? 0).
Proof.
  intros Hc Hk Hl H0. apply eq_true_iff_eq. rewrite !Z.eqb_eq.
  assert (forall i, Z.testbit (Z.lxor (Z.ones ks) (Z.ones kl)) i = (ks <=? i) && (i <? kl)) as Hx.
  { intros i. rewrite Z.lxor_spec. destruct (Z.lt_ge_cases i 0).
    - rewrite !Z.testbit_neg_r by lia. destruct (Z.leb_spec ks i), (Z.ltb_spec i kl); done || lia.
    - rewrite !Z.testbit_ones_nonneg by lia.
      destruct (Z.leb_spec ks i), (Z.ltb_spec i kl), (Z.ltb_spec i ks); done || lia. }
  split; intros H; apply Z.bits_inj'; intros i Hi; rewrite Z.testbit_0_l.
  - destruct (Z.lt_ge_cases i (64 - ks)); [|by rewrite Z.mod_pow2_bits_high by lia].
    rewrite Z.mod_pow2_bits_low by lia. destruct (Z.lt_ge_cases i (64 - kl)).
    + rewrite <- (Z.mod_pow2_bits_low _ (64 - kl)) by lia. by rewrite H0, Z.testbit_0_l.
    + rewrite reverseBits_bit by (done || lia).
      assert (Z.testbit (Z.land c (Z.lxor (Z.ones ks) (Z.ones kl))) (63 - i) = false) as Hb
        by by rewrite H, Z.testbit_0_l.
      rewrite Z.land_spec, Hx in Hb.
      destruct (Z.leb_spec ks (63 - i)), (Z.ltb_spec (63 - i) kl); try lia.
      by rewrite andb_true_r in Hb.
  - rewrite Z.land_spec, Hx.
    destruct (Z.leb_spec ks i), (Z.ltb_spec i kl); cbn [andb]; rewrite ?andb_false_r; try done.
    rewrite andb_true_r.
    assert (Z.testbit (reverseBits c mod 2 ^ (64 - ks)) (63 - i) = false) as Hb
      by by rewrite H, Z.testbit_0_l.
    rewrite Z.mod_pow2_bits_low, reverseBits_bit in Hb by (done || lia).
    by replace (63 - (63 - i)) with i in Hb by lia.
Qed.
End Scan.

(** Advancing by one block of width [l] inside a block of width [s = q * l]:
    either a boundary of [s] is reached, or the enclosing block is the same. *)
Lemma advance_block r l q s :
  0 < l -> 0 < q -> s = q * l ->
  let r' := (r / l + 1) * l in
  if r' mod s =? 0 then r' = (r / s + 1) * s
  else r' / s = r / s /\ r' < (r / s + 1) * s /\ r' mod s = r mod s - r mod l + l.
Proof.
  intros Hl Hq Hs r'. assert (0 < s) by nia.
  pose proof (Z.div_mod r s ltac:(lia)) as D1. pose proof (Z.mod_pos_bound r s ltac:(lia)) as B1.
  pose proof (Z.div_mod r l ltac:(lia)) as D2. pose proof (Z.mod_pos_bound r l ltac:(lia)) as B2.
  pose proof (Z.div_mod r' s ltac:(lia)) as D3. pose proof (Z.mod_pos_bound r' s ltac:(lia)) as B3.
  assert (r / l / q = r / s) as Hdd by (rewrite Z.div_div by lia; f_equal; lia).
  pose proof (Z.div_mod (r / l) q ltac:(lia)) as D4. pose proof (Z.mod_pos_bound (r / l) q ltac:(lia)) as B4.
  rewrite Hdd in D4.
  assert (r' <= (r / s + 1) * s) as Hle by (unfold r'; nia).
  assert (r < r') as Hgt by (unfold r'; nia).
  destruct (Z.eq_dec r' ((r / s + 1) * s)) as [He|Hne].
  - rewrite He, Z.mod_mul by lia. done.
  - assert (r' / s = r / s) as Hd.
    { symmetry. apply Z.div_unique with (r' - r / s * s); [left|]; nia. }
    assert (r' mod s <> 0) as Hnz by nia.
    destruct (Z.eqb_spec (r' mod s) 0); [done|]. split; [done|]. split; [lia|]. unfold r' in *. nia.
Qed.

Lemma pow2_diff ks kl : 0 <= ks <= kl -> kl <= 64 ->
  2 ^ (64 - ks) = 2 ^ (kl - ks) * 2 ^ (64 - kl).
Proof. intros. rewrite <- Z.pow_add_r by lia. f_equal. lia. Qed.

Lemma mod_of_mod a n m : 0 < m -> (exists q, n = q * m /\ 0 < q) -> (a mod n) mod m = a mod m.
Proof.
  intros Hm (q & -> & Hq). rewrite Z.mul_comm, Z.rem_mul_r by lia.
  rewrite (Z.mul_comm m), Z.mod_add by lia. by rewrite Z.mod_mod by lia.
Qed.

Section ScanSteps.
Context {T : Type}.
Implicit Types (d : dict T) (e : bytes * T).

Lemma scan_loop_ok d large ks kl fuel c :
  sized (tables d large) kl -> 0 <= ks <= kl -> is_u64 c ->
  let s := 2 ^ (64 - ks) in
  let l := 2 ^ (64 - kl) in
  let r := reverseBits c in
  s - (r mod s - r mod l) <= Z.of_nat fuel * l ->
  exists out c', scan_loop fuel d large (Z.ones ks) (mask (tables d large)) c = Some (out, c') /\
    is_u64 c' /\ reverseBits c' = u64 ((r / s + 1) * s) /\
    (forall e, e ∈ concat (tables d large) -> r <= revkey e.1 < (r / s + 1) * s -> e ∈ out) /\
    (forall e, e ∈ out -> e ∈ concat (tables d large)).
Proof.
  intros Hsz Hks Hc s l. revert c Hc. pose proof Hsz as (Hkl & _ & _).
  assert (0 < l) as Hl0 by (apply Z.pow_pos_nonneg; lia).
  assert (0 < 2 ^ (kl - ks)) as Hq0 by (apply Z.pow_pos_nonneg; lia).
  assert (s = 2 ^ (kl - ks) * l) as Hs by (apply pow2_diff; lia).
  assert (0 < s) as Hs0 by nia.
  assert (2 ^ 64 = 2 ^ ks * s) as H64 by (apply pow64_split; lia).
  assert (0 < 2 ^ ks) as Hp0 by (apply Z.pow_pos_nonneg; lia).
  induction fuel as [|fuel IH]; intros c Hc r Hf.
  { pose proof (Z.mod_pos_bound r s Hs0). pose proof (Z.mod_pos_bound r l Hl0). lia. }
  cbn [scan_loop]. rewrite (sized_mask _ _ Hsz).
  pose proof (next_cursor_range c (Z.ones kl)) as Hc1.
  pose proof (rev_next_cursor c kl Hc ltac:(lia)) as Hr1. fold r l in Hr1.
  set (c1 := next_cursor c (Z.ones kl)) in *. set (r' := (r / l + 1) * l) in *.
  assert (reverseBits c1 mod s = r' mod s) as Hms.
  { rewrite Hr1. apply mod_of_mod; [done|]. by exists (2 ^ ks). }
  rewrite loop_guard; [|done|lia|lia|].
  2:{ rewrite Hr1. fold l. unfold uwrap. rewrite mod_of_mod; [|done|].
      - unfold r'. apply Z.mod_mul. lia.
      - exists (2 ^ ks * 2 ^ (kl - ks)). split; [rewrite H64, Hs; ring|nia]. }
  fold s. rewrite Hms.
  pose proof (advance_block r l _ s Hl0 Hq0 Hs) as Hadv. cbv zeta in Hadv. fold r' in Hadv.
  assert (forall e, e ∈ concat (tables d large) -> r <= revkey e.1 < r' ->
    e ∈ emitBucket d large (Z.to_nat (Z.land c (Z.ones kl)))) as Hemit.
  { intros e He Hre. rewrite <- (sized_mask _ _ Hsz). apply (emit_covers d large kl); [done..|].
    fold l. by apply same_block. }
  pose proof (reverseBits_range c Hc) as Hrr. fold r in Hrr. unfold u_range in Hrr.
  destruct (r' mod s =? 0) eqn:Hg.
  - eexists _, c1. split; [done|]. split; [done|]. rewrite <- Hadv. split; [done|]. split; [done|].
    intros e. apply emit_subset.
  - destruct Hadv as (Hd & Hlt & Hm).
    assert (r / s < 2 ^ ks) by (apply Z.div_lt_upper_bound; lia).
    assert (reverseBits c1 = r') as Hr2.
    { rewrite Hr1. apply uwrap_small. unfold u_range. rewrite H64.
      pose proof (Z.div_pos r l ltac:(lia) Hl0). nia. }
    assert (r' mod l = 0) as Hl1 by (unfold r'; apply Z.mod_mul; lia).
    destruct (IH c1 Hc1) as (out & c' & Heq & Hc' & Hr' & Hcov & Hsub).
    { rewrite Hr2, Hm, Hl1. lia. }
    rewrite (sized_mask _ _ Hsz) in Heq. rewrite Heq. cbn [mbind option_bind].
    rewrite Hr2, Hd in Hr', Hcov. eexists _, c'. split; [done|]. split; [done|]. split; [done|]. split.
    + intros e He Hre. apply elem_of_app. destruct (Z.lt_ge_cases (revkey e.1) r').
      * left. apply Hemit; [done|lia].
      * right. apply Hcov; [done|lia].
    + intros e [He|He]%elem_of_app; [by apply emit_subset in He|by apply Hsub].
Qed.

(** The bucket counts fit the word size. *)
Definition fits d : Prop :=
  Z.of_nat (length (tables0 d)) <= 2 ^ 63 /\ Z.of_nat (length (tables1 d)) <= 2 ^ 63.

#[global] Instance fits_dec d : Decision (fits d).
Proof. unfold fits. apply _. Defined.

Lemma live_sized d t :
  inv d -> fits d -> t ∈ live_tables d ->
  exists k, sized (tables d t) k /\ Z.of_nat (length (tables d t)) = 2 ^ k.
Proof.
  intros Hi Hf Ht. destruct (live_table d t Hi Ht) as [(k & Hk & Hl) Hp].
  exists (Z.of_nat k). assert (Z.of_nat (length (tables d t)) = 2 ^ Z.of_nat k) as Hz.
  { rewrite Hl, Nat2Z.inj_pow. done. }
  split; [|done]. split_and!; [lia| |lia|done].
  destruct (Z.le_gt_cases (Z.of_nat k) 63) as [|Hgt]; [done|].
  apply (Z.pow_lt_mono_r 2) in Hgt; [|lia|lia]. destruct Hf, t; cbn in *; lia.
Qed.

Lemma scan_rehashing_ok d c small large ks kl :
  is_u64 c -> sized (tables d small) ks -> sized (tables d large) kl -> 0 <= ks <= kl ->
  Z.of_nat (length (tables d large)) = 2 ^ kl ->
  exists out c', scan_loop (length (tables d large)) d large (mask (tables d small))
      (mask (tables d large)) c = Some (out, c') /\
    is_u64 c' /\ reverseBits c < limit c' /\
    (forall e, e ∈ concat (tables d small) \/ e ∈ concat (tables d large) ->
      reverseBits c <= revkey e.1 < limit c' ->
      e ∈ emitBucket d small (Z.to_nat (Z.land c (mask (tables d small)))) ++ out) /\
    (forall e, e ∈ out -> e ∈ concat (tables d large)).
Proof.
  intros Hc Hs Hl Hk Hlen. pose proof Hl as (Hkl & _ & _).
  assert (0 < 2 ^ (64 - ks)) as Hs0 by (apply Z.pow_pos_nonneg; lia).
  assert (0 < 2 ^ (64 - kl)) as Hl0 by (apply Z.pow_pos_nonneg; lia).
  assert (0 < 2 ^ ks) by (apply Z.pow_pos_nonneg; lia).
  destruct (scan_loop_ok d large ks kl (length (tables d large)) c Hl Hk Hc)
    as (out & c' & Heq & Hc' & Hr & Hcov & Hsub).
  { rewrite Hlen. rewrite <- pow64_split by lia.
    rewrite (pow64_split ks) by lia.
    pose proof (Z.mod_pos_bound (reverseBits c) (2 ^ (64 - ks)) Hs0).
    assert ((reverseBits c mod 2 ^ (64 - ks)) mod 2 ^ (64 - kl) = reverseBits c mod 2 ^ (64 - kl)) as <-.
    { apply mod_of_mod; [done|]. exists (2 ^ (kl - ks)).
      split; [apply pow2_diff; lia|apply Z.pow_pos_nonneg; lia]. }
    pose proof (Z.mod_le (reverseBits c mod 2 ^ (64 - ks)) (2 ^ (64 - kl)) ltac:(lia) Hl0). nia. }
  rewrite (sized_mask _ _ Hs). exists out, c'. split; [done|]. split; [done|].
  destruct (limit_next c c' ks Hc Hc' ltac:(lia) Hr) as [Hlim Hlt]. split; [done|].
  rewrite Hlim. split; [|done]. intros e [He|He] Hre; apply elem_of_app.
  - left. rewrite <- (sized_mask _ _ Hs). apply (emit_covers d small ks); [done..|]. by apply same_block.
  - right. by apply Hcov.
Qed.

(** One call of [scan] emits every entry whose reversed hash lies between
    the reversed cursor and the reversed next cursor. *)
Lemma scan_step d c :
  inv d -> fits d -> is_u64 c ->
  exists out c', scan d c = Some (out, c') /\ is_u64 c' /\ reverseBits c < limit c' /\
    (forall e, e ∈ forEach d -> reverseBits c <= revkey e.1 < limit c' -> e ∈ out) /\
    (forall e, e ∈ out -> e ∈ forEach d).
Proof.
  intros Hi Hf Hc. unfold scan. pose proof (reverseBits_range c Hc) as Hrr.
  destruct (empty d) eqn:He.
  { exists [], 0. split; [done|]. split; [decide_now|]. split; [apply Hrr|]. split; [|by intros e []%not_elem_of_nil].
    unfold empty, size in He. bools. rewrite (inv_used0 _ Hi), (inv_used1 _ Hi), <- length_app in He.
    intros e Hin. apply nil_length_inv in He. unfold forEach in Hin. rewrite He in Hin. by apply not_elem_of_nil in Hin. }
  destruct (isRehashing d) eqn:Hr; cbn [negb].
  - assert (forall t, t ∈ live_tables d) as Hlive
      by (intros t; unfold live_tables; rewrite Hr; destruct t; set_solver).
    destruct (live_sized d false Hi Hf (Hlive _)) as (k0 & S0 & L0).
    destruct (live_sized d true Hi Hf (Hlive _)) as (k1 & S1 & L1).
    pose proof S0 as (K0 & _ & _). pose proof S1 as (K1 & _ & _). cbn in L0, L1.
    destruct (Nat.leb_spec (length (tables0 d)) (length (tables1 d))) as [Hle|Hle]; cbn [negb].
    + assert (k0 <= k1) by (apply (Z.pow_le_mono_r_iff 2); lia).
      destruct (scan_rehashing_ok d c false true k0 k1 Hc S0 S1 ltac:(lia) L1)
        as (out & c' & -> & Hc' & Hlt & Hcov & Hsub).
      eexists _, c'. split; [done|]. split; [done|]. split; [done|]. unfold forEach. split.
      * intros e Hin%elem_of_app Hre. by apply Hcov.
      * intros e [Hin%emit_subset|Hin%Hsub]%elem_of_app; apply elem_of_app; auto.
    + assert (k1 <= k0) by (apply (Z.pow_le_mono_r_iff 2); lia).
      destruct (scan_rehashing_ok d c true false k1 k0 Hc S1 S0 ltac:(lia) L0)
        as (out & c' & -> & Hc' & Hlt & Hcov & Hsub).
      eexists _, c'. split; [done|]. split; [done|]. split; [done|]. unfold forEach. split.
      * intros e [Hin|Hin]%elem_of_app Hre; apply Hcov; auto.
      * intros e [Hin%emit_subset|Hin%Hsub]%elem_of_app; apply elem_of_app; auto.
  - destruct (live_sized d false Hi Hf) as (k & Sz & _).
    { unfold live_tables. rewrite Hr. set_solver. }
    pose proof (sized_mask _ _ Sz) as Hm. cbn in Hm. pose proof Sz as (K & _ & _).
    eexists _, _. split; [done|]. split; [apply next_cursor_range|].
    rewrite Hm. pose proof (rev_next_cursor c k Hc ltac:(lia)) as Hrn.
    destruct (limit_next c _ k Hc (next_cursor_range _ _) ltac:(lia) Hrn) as [Hlim Hlt].
    split; [done|]. rewrite Hlim. pose proof (inv_rehash _ Hi) as Hre. rewrite Hr in Hre.
    destruct Hre as [_ Ht1]. unfold forEach. rewrite Ht1, app_nil_r. split.
    + intros e Hin Hx. rewrite <- Hm. apply (emit_covers d false k); [done..|].
      apply same_block; [apply Z.pow_pos_nonneg; lia|done].
    + intros e. apply (emit_subset d false).
Qed.
End ScanSteps.

(** ** Random entries *)

Lemma random_loop_in {T} n (d : dict T) rng k e :
  random_loop n d rng k = Some e -> e ∈ forEach d.
Proof.
  revert k. induction n as [|n IH]; intros k; cbn [random_loop]; [done|].
  destruct (if isRehashing d then _ else _) as [t k']. destruct (_ || _) eqn:Hz; [apply IH|].
  destruct (tables d t !!! _) as [|e0 c] eqn:Hc; [apply IH|]. intros He.
  apply elem_of_app. assert (e ∈ concat (tables d t)) as Hin; [|destruct t; auto].
  apply list_elem_of_In, in_concat. exists (e0 :: c).
  split; apply list_elem_of_In; [|by eapply list_elem_of_lookup_2].
  rewrite <- Hc. apply list_elem_of_lookup_total_2. bools.
  pose proof (Z.mod_pos_bound (rng k') (Z.of_nat (length (tables d t))) ltac:(lia)). lia.
Qed.

Lemma randomEntry_ok {T} (d : dict T) m rng :
  models d m -> match randomEntry d rng with Some (k, v) => m !! k = Some v | None => m = ∅ end.
Proof.
  intros Hm. unfold randomEntry. destruct (empty d) eqn:He; [by apply (models_empty d m Hm)|].
  destruct (random_loop 100 d rng 0) as [[k v]|] eqn:Hl.
  { apply (models_lookup d m k v Hm). by eapply random_loop_in. }
  assert (concat (tables0 d ++ tables1 d) = forEach d) as -> by apply concat_app.
  destruct (forEach d) as [|[k v] l] eqn:Hf; cbn [head].
  - apply map_size_empty_iff. rewrite <- (models_size d m Hm).
    unfold size. rewrite (inv_used0 _ (proj1 Hm)), (inv_used1 _ (proj1 Hm)), <- length_app.
    change (_ ++ _) with (forEach d). by rewrite Hf.
  - apply (models_lookup d m k v Hm). rewrite Hf. by apply elem_of_cons; left.
Qed.

(** ** The map interface *)

(** [find] and a read through the pointer it returns. *)
Definition lookup {T} (d : dict T) (key : bytes) : option (dict T * option T) :=
  '(d, p) ← find d key;
  match p with
  | None => Some (d, None)
  | Some p => v ← deref d p; Some (d, Some v)
  end.

Lemma lookup_ok {T} (d : dict T) m key :
  models d m -> exists d', lookup d key = Some (d', m !! key) /\ models d' m.
Proof.
  intros Hm. unfold lookup. destruct (find_ok d m key Hm) as (d' & p & -> & Hm' & Hp).
  cbn [mbind option_bind]. exists d'. split; [|done]. destruct p as [q|].
  - destruct Hp as (v & Hpt & ->). by rewrite (points_to_deref _ _ _ _ Hpt).
  - by rewrite Hp.
Qed.

Definition modify {T} (d : dict T) (key : bytes) (f : T -> T) : option (dict T * option T) :=
  '(d, p) ← find d key;
  match p with
  | None => Some (d, None)
  | Some p => v ← deref d p; Some (assign d p (f v), Some (f v))
  end.

Lemma modify_ok {T} (d : dict T) m key f :
  models d m -> exists d', modify d key f = Some (d', f <$> m !! key) /\ models d' (alter f key m).
Proof.
  intros Hm. unfold modify. destruct (find_ok d m key Hm) as (d' & p & -> & Hm' & Hp).
  cbn [mbind option_bind]. destruct p as [q|].
  - destruct Hp as (v & Hpt & Hk). rewrite (points_to_deref _ _ _ _ Hpt), Hk. cbn.
    eexists. split; [done|]. replace (alter f key m) with (<[key := f v]> m); [by eapply assign_ok|].
    apply map_eq. intros k. destruct (decide (k = key)) as [->|Hne].
    + by rewrite lookup_insert_eq, lookup_alter_eq, Hk.
    + by rewrite lookup_insert_ne, lookup_alter_ne.
  - exists d'. rewrite Hp. split; [done|]. replace (alter f key m) with m; [done|].
    apply map_eq. intros k. destruct (decide (k = key)) as [->|Hne].
    + by rewrite lookup_alter_eq, Hp.
    + by rewrite lookup_alter_ne.
Qed.

(** The entry of a key found earlier: the pointer is still valid, and nothing
    is moved. *)
Definition pointer {T} (d : dict T) (key : bytes) : option (option ptr) := find_in d key (live_tables d).

Definition peek {T} (d : dict T) (key : bytes) : option T := p ← pointer d key; p ← p; deref d p.
Definition poke {T} (d : dict T) (key : bytes) (v : T) : option (dict T) :=
  p ← pointer d key; p ← p; Some (assign d p v).

Lemma peek_ok {T} (d : dict T) m key : models d m -> peek d key = m !! key.
Proof.
  intros Hm. unfold peek, pointer. destruct (find_live_ok d m key Hm) as (p & -> & Hp). cbn [mbind option_bind].
  destruct p as [q|]; [|by rewrite Hp]. destruct Hp as (v & Hpt & ->). by apply points_to_deref in Hpt.
Qed.

Lemma poke_ok {T} (d : dict T) m key v w : models d m -> m !! key = Some w ->
  exists d', poke d key v = Some d' /\ models d' (<[key := v]> m).
Proof.
  intros Hm Hk. unfold poke, pointer. destruct (find_live_ok d m key Hm) as (p & -> & Hp). cbn [mbind option_bind].
  destruct p as [q|]; [|congruence]. destruct Hp as (u & Hpt & _). eexists. split; [done|]. by eapply assign_ok.
Qed.

Lemma scan_ok {T} (d : dict T) m c : models d m -> fits d -> is_u64 c ->
  exists out c', scan d c = Some (out, c') /\ is_u64 c' /\ (forall e, e ∈ out -> m !! e.1 = Some e.2).
Proof.
  intros Hm Hf Hc. destruct (scan_step d c (proj1 Hm) Hf Hc) as (out & c' & -> & Hc' & _ & _ & Hsub).
  exists out, c'. split_and!; [done..|]. intros [k v] He. by apply (models_lookup d m k v Hm), Hsub.
Qed.

#[export] Instance dict_ops : MapOps dict := {
  mnew T := new;
  mfind T := lookup;
  minsert T := insert;
  mmodify T := modify;
  mpeek T := peek;
  mpoke T := poke;
  merase T := erase;
  mclear T := clear;
  msize T := size;
  mforEach T := forEach;
  mscan T := scan;
  mrandom T := randomEntry }.

#[export] Instance dict_laws : MapLaws dict := {
  represents T := models;
  represents_new T := models_new;
  represents_find T := lookup_ok;
  represents_insert T := insert_ok;
  represents_modify T := modify_ok;
  represents_peek T := peek_ok;
  represents_poke T := poke_ok;
  represents_erase T := erase_ok;
  represents_clear T := clear_ok;
  represents_size T := models_size;
  represents_forEach T d m H := proj2 H;
  scannable T := fits;
  represents_scan T := scan_ok;
  represents_random T := randomEntry_ok }.

(** ** Operation sequences *)

Inductive op (T : Type) :=
  | Insert (key : bytes) (v : T)
  | Find (key : bytes)
  | Erase (key : bytes)
  | Clear
  | RehashSteps (buckets : nat).
Arguments Insert {T}. Arguments Find {T}. Arguments Erase {T}. Arguments Clear {T}.
Arguments RehashSteps {T}.

Inductive result (T : Type) := RBool (b : bool) | RVal (v : option T) | RUnit.
Arguments RBool {T}. Arguments RVal {T}. Arguments RUnit {T}.

Definition exec {T} (d : dict T) (o : op T) : option (dict T * result T) :=
  match o with
  | Insert k v => '(d, b) ← insert d k v; Some (d, RBool b)
  | Find k => '(d, v) ← lookup d k; Some (d, RVal v)
  | Erase k => '(d, b) ← erase d k; Some (d, RBool b)
  | Clear => Some (clear d, RUnit)
  | RehashSteps n => '(d, _) ← rehashSteps d n; Some (d, RUnit)
  end.

Definition spec_exec {T} (m : gmap bytes T) (o : op T) : gmap bytes T * result T :=
  match o with
  | Insert k v => (<[k := v]> m, RBool (bool_decide (m !! k = None)))
  | Find k => (m, RVal (m !! k))
  | Erase k => (delete k m, RBool (bool_decide (m !! k <> None)))
  | Clear => (∅, RUnit)
  | RehashSteps _ => (m, RUnit)
  end.

Fixpoint run {T} (d : dict T) (os : list (op T)) : option (dict T * list (result T)) :=
  match os with
  | [] => Some (d, [])
  | o :: os => '(d, r) ← exec d o; '(d, rs) ← run d os; Some (d, r :: rs)
  end.

Fixpoint spec_run {T} (m : gmap bytes T) (os : list (op T)) : gmap bytes T * list (result T) :=
  match os with
  | [] => (m, [])
  | o :: os =>
      let '(m, r) := spec_exec m o in
      let '(m, rs) := spec_run m os in
      (m, r :: rs)
  end.

Lemma exec_ok {T} (d : dict T) m o :
  models d m ->
  exists d', exec d o = Some (d', (spec_exec m o).2) /\ models d' (spec_exec m o).1.
Proof.
  intros Hm. destruct o as [k v|k|k| |n]; cbn [exec spec_exec fst snd].
  - destruct (insert_ok d m k v Hm) as (d' & -> & ?). by exists d'.
  - destruct (lookup_ok d m k Hm) as (d' & -> & ?). by exists d'.
  - destruct (erase_ok d m k Hm) as (d' & -> & ?). by exists d'.
  - exists (clear d). split; [done|apply clear_ok].
  - destruct (rehashSteps_ok n d m Hm) as (d' & b & -> & ? & _). by exists d'.
Qed.

Lemma run_ok {T} (d : dict T) m os :
  models d m ->
  exists d', run d os = Some (d', (spec_run m os).2) /\ models d' (spec_run m os).1.
Proof.
  revert d m. induction os as [|o os IH]; intros d m Hm; cbn [run spec_run]; [by exists d|].
  destruct (exec_ok d m o Hm) as (d1 & -> & Hm1). cbn [mbind option_bind].
  destruct (spec_exec m o) as [m1 r]. destruct (IH d1 m1 Hm1) as (d2 & -> & Hm2).
  exists d2. by destruct (spec_run m1 os).
Qed.

(** C1: any interleaving of insertions, lookups, removals, clears and explicit
    rehash steps on a fresh dictionary behaves as on a finite map: no vector is
    ever indexed out of bounds, every call returns what it returns on the map
    (whether a key was new, the value found, whether a key was removed), and
    afterwards iteration yields exactly the map's bindings, once each, and
    [size()] their number, whatever state an incremental resize is in. *)
Theorem dict_refines_map {T} (os : list (op T)) :
  exists d, run new os = Some (d, (spec_run ∅ os).2) /\
    forEach d ≡ₚ map_to_list (spec_run ∅ os).1 /\ size d = base.size (spec_run ∅ os).1.
Proof.
  destruct (run_ok new ∅ os models_new) as (d & -> & Hm). exists d.
  split; [done|]. split; [apply Hm|by apply models_size].
Qed.

(** ** SCAN sessions *)

(** A client's SCAN: it passes each returned cursor to the next call, while
    the dictionary may change between calls. [ds] are the successive states. *)
Fixpoint session {T} (ds : list (dict T)) (cursor : Z) : option (list (bytes * T) * Z) :=
  match ds with
  | [] => Some ([], cursor)
  | d :: ds =>
      '(out, cursor) ← scan d cursor;
      '(more, cursor) ← session ds cursor;
      Some (out ++ more, cursor)
  end.

Lemma session_covers {T} (ds : list (dict T)) c out key :
  Forall (fun d => inv d /\ fits d /\ key ∈ (forEach d).*1) ds -> is_u64 c ->
  reverseBits c <= revkey key -> ds <> [] ->
  session ds c = Some (out, 0) -> key ∈ out.*1.
Proof.
  intros Hds. revert c out. induction Hds as [|d ds (Hi & Hf & Hk) _ IH]; intros c out Hc Hle Hne Hs; [done|].
  cbn [session] in Hs. destruct (scan_step d c Hi Hf Hc) as (o & c' & Heq & Hc' & _ & Hcov & _).
  rewrite Heq in Hs. cbn [mbind option_bind] in Hs.
  destruct (session ds c') as [[o2 c2]|] eqn:Hs2; [|done]. cbn in Hs. simplify_eq.
  rewrite fmap_app, elem_of_app.
  destruct (Z.lt_ge_cases (revkey key) (limit c')) as [Hlt|Hge].
  - left. apply list_elem_of_fmap in Hk as ([k v] & -> & Hin). apply list_elem_of_fmap.
    exists (k, v). split; [done|]. by apply Hcov.
  - right. pose proof (revkey_range key) as [_ Hub]. rewrite limit_rev in Hge by done.
    destruct (Z.eqb_spec (reverseBits c') 0) as [E|E]; [exfalso; apply (Z.lt_irrefl (2 ^ 64)); by eapply Z.le_lt_trans|].
    apply (IH c'); try done. intros ->. cbn in Hs2. simplify_eq.
Qed.

(** C24: the SCAN guarantee. Take any sequence of dictionary states, however
    they were produced (insertions, deletions, growth, shrinking and partial
    migrations between the calls), and run a full iteration over them, each
    call starting from the cursor the previous one returned, from 0 until 0 is
    returned. Every key present in all of those states is emitted. *)
Theorem scan_guarantee {T} (ds : list (dict T)) (out : list (bytes * T)) (key : bytes) :
  Forall (fun d => inv d /\ fits d) ds ->
  Forall (fun d => key ∈ (forEach d).*1) ds ->
  ds <> [] -> session ds 0 = Some (out, 0) -> key ∈ out.*1.
Proof.
  intros Hi Hk. apply session_covers; [|decide_now|apply revkey_range].
  apply Forall_forall. rewrite Forall_forall in Hi, Hk. intros d Hd.
  destruct (Hi d Hd). auto.
Qed.

(** Every state reached by operations satisfies the invariant. *)
Lemma run_inv {T} (os : list (op T)) d rs : run new os = Some (d, rs) -> inv d.
Proof.
  intros H. destruct (run_ok new ∅ os models_new) as (d' & H' & Hm). rewrite H in H'. simplify_eq. apply Hm.
Qed.

Definition state_after {T} (os : list (op T)) : dict T := from_option fst new (run new os).

Lemma state_after_inv {T} (os : list (op T)) : inv (state_after os).
Proof.
  destruct (run_ok new ∅ os models_new) as (d' & H' & Hm).
  unfold state_after. rewrite H'. apply Hm.
Qed.

(** Two states of a table that starts growing in the middle of an iteration. *)
Definition sample_before : dict Z := state_after (map (fun k => Insert [k] k) [1; 2; 3]).
Definition sample_growing : dict Z := state_after (map (fun k => Insert [k] k) [1; 2; 3; 4; 5; 6]).

Lemma scan_guarantee_witness :
  isRehashing sample_growing = true /\
  exists out, session [sample_before; sample_before; sample_growing; sample_growing] 0 = Some (out, 0) /\
    [3] ∈ out.*1.
Proof.
  split; [vm_compute; done|].
  destruct (session [sample_before; sample_before; sample_growing; sample_growing] 0) as [[out c]|] eqn:E;
    [|vm_compute in E; done].
  exists out. assert (c = 0) as -> by (vm_compute in E; congruence). split; [done|].
  apply (scan_guarantee [sample_before; sample_before; sample_growing; sample_growing] out [3]).
  - do 4 (constructor; [split; [apply state_after_inv|decide_now]|]). constructor.
  - do 4 (constructor; [decide_now|]). constructor.
  - done.
  - exact E.
Defined.

(** ** Progress of migration *)

(** [n] background calls of one bucket each. *)
Fixpoint drive {T} (n : nat) (d : dict T) : option (dict T) :=
  match n with
  | O => Some d
  | S n => '(d, _) ← rehashSteps d 1; drive n d
  end.

Lemma drive_idle {T} n (d : dict T) : isRehashing d = false -> drive n d = Some d.
Proof.
  intros Hr. induction n as [|n IH]; [done|]. cbn [drive]. unfold rehashSteps. rewrite Hr. exact IH.
Qed.

Lemma drive_ok {T} n (d : dict T) m :
  models d m -> exists d', drive n d = Some d' /\ models d' m /\
    (isRehashing d' = true -> length (tables0 d') = length (tables0 d) /\
      Z.of_nat n + rehash_index d <= rehash_index d').
Proof.
  revert d. induction n as [|n IH]; intros d Hm; cbn [drive].
  { exists d. split; [done|]. split; [done|]. intros _. split; [done|lia]. }
  destruct (rehashSteps_ok 1 d m Hm) as (d1 & b & -> & Hm1 & _ & _ & Hp). cbn [mbind option_bind].
  destruct (isRehashing d1) eqn:Hr1.
  - destruct (IH d1 Hm1) as (d2 & -> & Hm2 & Hp2). exists d2. split; [done|]. split; [done|].
    intros Hr. destruct (Hp2 Hr) as [Hl Hi]. destruct (Hp eq_refl) as (_ & Hl1 & Hlt).
    specialize (Hlt ltac:(lia)). split; [congruence|lia].
  - rewrite drive_idle by done. exists d1. by rewrite Hr1.
Qed.

(** C38: an incremental resize always completes. From any state reached by
    operations, one more single-bucket step than the old table has buckets
    ends the migration (no step ever stalls on empty buckets), and the
    contents are unchanged. *)
Theorem rehash_completes {T} (os : list (op T)) (n : nat) :
  (length (tables0 (state_after os)) < n)%nat ->
  exists d, drive n (state_after os) = Some d /\ isRehashing d = false /\
    forEach d ≡ₚ forEach (state_after os).
Proof.
  destruct (run_ok new ∅ os models_new) as (d0 & H0 & Hm).
  unfold state_after. rewrite H0. cbn [from_option fst]. intros Hn.
  destruct (isRehashing d0) eqn:Hr0; [|by exists d0; rewrite drive_idle].
  destruct (drive_ok n d0 _ Hm) as (d & -> & Hm' & Hp). exists d. split; [done|]. split.
  - destruct (isRehashing d) eqn:Hr; [|done]. destruct (Hp eq_refl) as [Hl Hle].
    pose proof (inv_rehash _ (proj1 Hm')) as Hre. rewrite Hr in Hre. destruct Hre as (_ & _ & Hub & _).
    apply Z.leb_le in Hr0. lia.
  - by rewrite (proj2 Hm), (proj2 Hm').
Qed.

Lemma rehash_completes_witness :
  let os := map (fun k => Insert [k] k) [1; 2; 3; 4; 5; 6] in
  isRehashing (state_after os) = true /\
  exists d, drive 5 (state_after os) = Some d /\ isRehashing d = false /\
    forEach d ≡ₚ forEach (state_after os).
Proof.
  split; [vm_compute; done|].
  apply (rehash_completes (map (fun k => Insert [k] k) [1; 2; 3; 4; 5; 6]) 5). vm_compute. lia.
Defined.

(** ** Sampling and moved-from dictionaries *)

(** whatever the random generator returns, [randomEntry] on a dictionary
    that represents the map [m] yields a binding of [m], and yields none only
    when [m] is empty: the bounded random probing falls back to a search that
    cannot miss. *)
Theorem randomEntry_member {T} (os : list (op T)) (rng : nat -> Z) :
  let m := (spec_run ∅ os).1 in
  match randomEntry (state_after os) rng with
  | Some (k, v) => m !! k = Some v
  | None => m = ∅
  end.
Proof.
  destruct (run_ok new ∅ os models_new) as (d & H0 & Hm).
  unfold state_after. rewrite H0. by apply randomEntry_ok.
Qed.

(** The move constructor leaves its source without buckets: an insertion into
    a moved-from dictionary indexes an empty vector. *)
Lemma moved_from_insert_out_of_bounds {T} (d : dict T) key v :
  insert (move_construct d).2 key v = None.
Proof. reflexivity. Qed.
End Dict.
