(* ===== verification/Limits.v ===== *)
(** * Limits: the encoding thresholds of the collections

    [EncodingLimits] and [defaultLimits] of [src/core/collections.h]. *)

From Stdlib Require Import ZArith.
From S2P Require Import Prelude.

(** [EncodingLimits], with the defaults of [defaultLimits()]. *)
Record EncodingLimits := {
  hash_max_listpack_entries : nat; hash_max_listpack_value : nat;
  list_max_listpack_bytes : nat;
  set_max_intset_entries : nat; set_max_listpack_entries : nat; set_max_listpack_value : nat;
  zset_max_listpack_entries : nat; zset_max_listpack_value : nat }.

Definition defaultLimits : EncodingLimits := {|
  hash_max_listpack_entries := 512; hash_max_listpack_value := 64;
  list_max_listpack_bytes := Z.to_nat 8192;
  set_max_intset_entries := 512; set_max_listpack_entries := 128; set_max_listpack_value := 64;
  zset_max_listpack_entries := 128; zset_max_listpack_value := 64 |}.
