(* ===== verification/HashValue.v ===== *)
(** * HashValue: the hash type and its two encodings

    [HashValue] of [src/core/collections.h] and [src/core/collections.cpp]: a
    listpack of alternating fields and values that becomes a hash table when
    it outgrows the limits. The table is any implementation of [MapOps]; its
    behaviour enters the proofs only through [MapLaws]. [holds h m] says that
    the hash [h] represents the map [m] whatever its encoding. *)

From Stdlib Require Import ZArith Lia.
From stdpp Require Import base list numbers gmap option strings.
From S2P Require Import Prelude Encoding Limits Listpack MapSpec Dict.

(** Alternating fields and values of a list of pairs. *)
Fixpoint flat (ps : list (bytes * bytes)) : list bytes :=
  match ps with
  | [] => []
  | (f, v) :: ps => f :: v :: flat ps
  end.

Module HashValue.
Section HashValue.
Context {D : Type -> Type} {ops : MapOps D}.

Record t := mk { encoding_ : ObjEncoding; listpack_ : bytes; table_ : D bytes }.

Definition new : t := mk EListPack Listpack.new mnew.

Definition set_listpack (h : t) (lp : bytes) : t := mk (encoding_ h) lp (table_ h).
Definition set_table (h : t) (tb : D bytes) : t := mk (encoding_ h) (listpack_ h) tb.

Definition is_table (h : t) : bool := bool_decide (encoding_ h = EHashTable).

Definition size (h : t) : nat :=
  if bool_decide (encoding_ h = EListPack) then (Listpack.numElements (listpack_ h) / 2)%nat
  else msize (table_ h).

(** A [const] lookup may still migrate buckets of the table, so the readers
    return the state too. *)
Definition get (h : t) (field : bytes) : option (t * option bytes) :=
  if is_table h then
    '(tb, found) ← mfind (table_ h) field;
    Some (set_table h tb, found)
  else
    match Listpack.find (listpack_ h) field 0 2 with
    | None => Some (h, None)
    | Some index =>
        match Listpack.get (listpack_ h) (index + 1) with
        | None => Some (h, None)
        | Some element => Some (h, Some (Listpack.toString element))
        end
    end.

Definition contains (h : t) (field : bytes) : option (t * bool) :=
  if is_table h then
    '(tb, found) ← mfind (table_ h) field;
    Some (set_table h tb, is_some found)
  else Some (h, is_some (Listpack.find (listpack_ h) field 0 2)).

Definition shouldConvert (h : t) (field value : bytes) : bool :=
  (hash_max_listpack_entries defaultLimits <=? size h)%nat ||
  (hash_max_listpack_value defaultLimits <? length field)%nat ||
  (hash_max_listpack_value defaultLimits <? length value)%nat.

(** [for (i = 0; i + 1 < flat.size(); i += 2) table_.insert(flat[i], flat[i + 1])] *)
Fixpoint insert_pairs (tb : D bytes) (fl : list bytes) : option (D bytes) :=
  match fl with
  | f :: v :: fl =>
      '(tb, _) ← minsert tb f v;
      insert_pairs tb fl
  | _ => Some tb
  end.

Definition convertToHashTable (h : t) : option t :=
  if is_table h then Some h
  else
    tb ← insert_pairs (table_ h) (Listpack.toStrings (listpack_ h));
    Some (mk EHashTable (Listpack.clear (listpack_ h)) tb).

(** The longest string element; integers do not count. *)
Definition longest_string (es : list Listpack.elem) : nat :=
  foldl (fun longest e => match e with Listpack.Str s => Nat.max longest (length s) | _ => longest end)
    0%nat es.

Definition adoptListpack (h : t) (lp : bytes) : option (t * bool) :=
  if negb (Listpack.numElements lp mod 2 =? 0)%nat then Some (h, false)
  else
    let longest := longest_string (Listpack.forEach lp) in
    let h := mk EListPack lp (table_ h) in
    if (hash_max_listpack_entries defaultLimits <? Listpack.numElements lp / 2)%nat
       || (hash_max_listpack_value defaultLimits <? longest)%nat
    then h ← convertToHashTable h; Some (h, true)
    else Some (h, true).

Definition set (h : t) (field value : bytes) : option (t * bool) :=
  if is_table h then
    '(tb, found) ← mfind (table_ h) field;
    let is_new := negb (is_some found) in
    '(tb, _) ← minsert (tb : D bytes) field value;
    Some (set_table h tb, is_new)
  else
    match Listpack.find (listpack_ h) field 0 2 with
    | Some index => Some (set_listpack h (Listpack.replaceAt (listpack_ h) (index + 1) value).1, false)
    | None =>
        if shouldConvert h field value then
          h ← convertToHashTable h;
          '(tb, _) ← minsert (table_ (h : t)) field value;
          Some (set_table h tb, true)
        else
          let lp := Listpack.append (listpack_ h) field in
          Some (set_listpack h (Listpack.append lp value), true)
    end.

Definition erase (h : t) (field : bytes) : option (t * bool) :=
  if is_table h then
    '(tb, b) ← merase (table_ h) field;
    Some (set_table h tb, b)
  else
    match Listpack.find (listpack_ h) field 0 2 with
    | None => Some (h, false)
    | Some index =>
        let r := Listpack.eraseRange (listpack_ h) index 2 in
        Some (set_listpack h r.1, r.2)
    end.

Definition flatten (h : t) : list bytes :=
  if bool_decide (encoding_ h = EListPack) then Listpack.toStrings (listpack_ h)
  else flat (mforEach (table_ h)).

(** Every second element from index 0, or from index 1. *)
Fixpoint evens (l : list bytes) : list bytes :=
  match l with
  | [] => []
  | x :: l => x :: match l with [] => [] | _ :: l => evens l end
  end.

Definition fields (h : t) : list bytes := evens (flatten h).
Definition values (h : t) : list bytes := evens (tail (flatten h)).

(** The copy constructor: rebuild from the logical contents. *)
Fixpoint set_pairs (h : t) (fl : list bytes) : option t :=
  match fl with
  | f :: v :: fl => '(h, _) ← set h f v; set_pairs h fl
  | _ => Some h
  end.

Definition copy (other : t) : option t := set_pairs new (flatten other).
End HashValue.

Arguments t : clear implicits.

(** ** Pairs in a listpack *)

Lemma flat_app ps qs : flat (ps ++ qs) = flat ps ++ flat qs.
Proof. induction ps as [|[f v] ps IH]; simpl; [done|]. by rewrite IH. Qed.

Lemma flat_length ps : length (flat ps) = (2 * length ps)%nat.
Proof. induction ps as [|[f v] ps IH]; simpl; [done|]. lia. Qed.

Lemma flat_even ps j : flat ps !! (2 * j)%nat = fst <$> ps !! j.
Proof.
  revert j. induction ps as [|[f v] ps IH]; intros j; [by rewrite !lookup_nil|].
  destruct j as [|j]; [done|]. replace (2 * S j)%nat with (S (S (2 * j))) by lia. simpl. apply IH.
Qed.

Lemma flat_odd ps j : flat ps !! (2 * j + 1)%nat = snd <$> ps !! j.
Proof.
  revert j. induction ps as [|[f v] ps IH]; intros j; [by rewrite !lookup_nil|].
  destruct j as [|j]; [done|]. replace (2 * S j + 1)%nat with (S (S (2 * j + 1))) by lia. simpl. apply IH.
Qed.

Lemma flat_update ps j f v w :
  ps !! j = Some (f, w) -> flat (<[j := (f, v)]> ps) = <[(2 * j + 1)%nat := v]> (flat ps).
Proof.
  revert j. induction ps as [|[g u] ps IH]; intros j Hj; [done|]. destruct j as [|j].
  - simplify_eq/=. done.
  - replace (2 * S j + 1)%nat with (S (S (2 * j + 1))) by lia. simpl in *. by rewrite IH.
Qed.

Lemma flat_take j ps : flat (take j ps) = take (2 * j) (flat ps).
Proof.
  revert j. induction ps as [|[g u] ps IH]; intros j; [by simpl; rewrite !take_nil|]. destruct j as [|j]; [done|].
  replace (2 * S j)%nat with (S (S (2 * j))) by lia. simpl. by rewrite IH.
Qed.

Lemma flat_drop j ps : flat (drop j ps) = drop (2 * j) (flat ps).
Proof.
  revert j. induction ps as [|[g u] ps IH]; intros j; [by simpl; rewrite !drop_nil|]. destruct j as [|j]; [done|].
  replace (2 * S j)%nat with (S (S (2 * j))) by lia. simpl. by rewrite IH.
Qed.

Lemma flat_delete j ps :
  flat (delete j ps) = take (2 * j) (flat ps) ++ drop (2 * j + 2) (flat ps).
Proof.
  rewrite delete_take_drop, flat_app, flat_take, flat_drop. do 2 f_equal. lia.
Qed.

(** A step-2 search of a listpack of pairs finds the pair of the field. *)
Lemma find_pair lp ps f :
  Listpack.stores lp (flat ps) ->
  match Listpack.find lp f 0 2 with
  | Some index => exists j v, index = (2 * j)%nat /\ ps !! j = Some (f, v)
  | None => f ∉ ps.*1
  end.
Proof.
  intros Hs. pose proof (Listpack.find_stores lp _ f 0 2 Hs) as Hf.
  destruct (Listpack.find lp f 0 2) as [i|].
  - destruct Hf as (_ & Hm & Hi & _). rewrite Nat.sub_0_r in Hm.
    apply Nat.Div0.div_exact in Hm as Hd. rewrite Hd, flat_even in Hi.
    destruct (ps !! (i / 2)%nat) as [[g v]|] eqn:Hp; simplify_eq/=.
    by exists (i / 2)%nat, v.
  - intros Hin. apply list_elem_of_fmap in Hin as ([g v] & -> & Hin).
    apply list_elem_of_lookup in Hin as [j0 Hj0].
    (* the first pair of that field *)
    assert (exists j v, ps !! j = Some (g, v) /\ forall k, (k < j)%nat -> fst <$> ps !! k <> Some g) as (j & w & Hj & Hmin).
    { clear Hf Hs. revert j0 v Hj0. induction ps as [|[h u] ps IH]; intros j0 v Hj0; [done|].
      destruct (decide (h = g)) as [->|Hne]; [exists 0%nat, u; split; [done|intros; lia]|].
      destruct j0 as [|j0]; [by simplify_eq/=|]. destruct (IH j0 v Hj0) as (j & w & Hj & Hmin).
      exists (S j), w. split; [done|]. intros [|k] Hk; simpl; [congruence|]. apply Hmin. lia. }
    apply (Hf (2 * j)%nat). split; [lia|]. split; [by rewrite Nat.sub_0_r, Nat.mul_comm, Nat.Div0.mod_mul|].
    split; [by rewrite flat_even, Hj|]. intros k Hk Hk2. rewrite Nat.sub_0_r in Hk2.
    apply Nat.Div0.div_exact in Hk2 as Hd. rewrite Hd, flat_even. apply Hmin. lia.
Qed.

(** Inserting distinct pairs one by one. *)
Definition add_pairs (m : gmap bytes bytes) (ps : list (bytes * bytes)) : gmap bytes bytes :=
  foldl (fun m p => <[p.1 := p.2]> m) m ps.

Lemma add_pairs_perm m ps :
  NoDup ps.*1 -> (forall f, f ∈ ps.*1 -> m !! f = None) ->
  map_to_list (add_pairs m ps) ≡ₚ ps ++ map_to_list m.
Proof.
  revert m. induction ps as [|[f v] ps IH]; intros m Hn Hd; [done|].
  apply NoDup_cons in Hn as [Hf Hn]. cbn [add_pairs foldl fst snd].
  change (foldl _ _ ps) with (add_pairs (<[f := v]> m) ps).
  assert (m !! f = None) as Hmf by (apply Hd; cbn; by apply elem_of_cons; left).
  rewrite IH; [|done|].
  - rewrite map_to_list_insert by done. symmetry. apply Permutation_middle.
  - intros g Hg. rewrite lookup_insert_ne by (intros ->; by apply Hf). apply Hd.
    cbn. by apply elem_of_cons; right.
Qed.

Lemma add_pairs_empty (ps : list (bytes * bytes)) (m : gmap bytes bytes) : ps ≡ₚ map_to_list m -> add_pairs ∅ ps = m.
Proof.
  intros Hp. apply map_to_list_inj. rewrite add_pairs_perm.
  - by rewrite map_to_list_empty, app_nil_r.
  - rewrite Hp. apply NoDup_fst_map_to_list.
  - intros. apply lookup_empty.
Qed.

(** ** Representation *)

Section Refinement.
Context {D : Type -> Type} {ops : MapOps D} {laws : MapLaws D}.
Implicit Types (h : t D) (m : gmap bytes bytes).

(** A small hash: pairs in the listpack, within the limits that are enforced
    on insertion; the table has not been used. *)
Definition packed h m (ps : list (bytes * bytes)) : Prop :=
  Listpack.stores (listpack_ h) (flat ps) /\ ps ≡ₚ map_to_list m /\ represents (table_ h) ∅ /\
  (length ps <= 512)%nat /\ Forall (fun p => length p.1 <= 64)%nat ps.

Definition holds h m : Prop :=
  match encoding_ h with
  | EListPack => exists ps, packed h m ps
  | EHashTable => Listpack.stores (listpack_ h) [] /\ represents (table_ h) m
  | _ => False
  end.

Lemma hash_holds_new : holds new ∅.
Proof.
  exists []. split_and!; [apply Listpack.stores_new|by rewrite map_to_list_empty| |simpl; lia|constructor].
  apply represents_new.
Qed.

Lemma holds_cases h m :
  holds h m ->
  (encoding_ h = EListPack /\ is_table h = false /\ exists ps, packed h m ps) \/
  (encoding_ h = EHashTable /\ is_table h = true /\ Listpack.stores (listpack_ h) [] /\ represents (table_ h) m).
Proof.
  unfold holds, is_table. destruct (encoding_ h) eqn:E; try done; [left|right];
    (split; [done|]); (split; [done|]); done.
Qed.

Lemma holds_table h m tb :
  encoding_ h = EHashTable -> Listpack.stores (listpack_ h) [] -> represents tb m ->
  holds (set_table h tb) m.
Proof. intros He Hs Hr. unfold holds, set_table. cbn. by rewrite He. Qed.

Lemma packed_find h m ps f :
  packed h m ps ->
  match Listpack.find (listpack_ h) f 0 2 with
  | Some index => exists j v, index = (2 * j)%nat /\ ps !! j = Some (f, v) /\ m !! f = Some v
  | None => m !! f = None
  end.
Proof.
  intros (Hs & Hp & _). pose proof (find_pair _ _ f Hs) as Hf.
  destruct (Listpack.find _ f 0 2) as [i|].
  - destruct Hf as (j & v & -> & Hj). exists j, v. split_and!; [done..|].
    apply (perm_lookup ps m); [done|]. by eapply list_elem_of_lookup_2.
  - by apply (perm_absent ps m).
Qed.

Lemma packed_size h m ps : encoding_ h = EListPack -> packed h m ps -> size h = base.size m /\ size h = length ps.
Proof.
  intros He (Hs & Hp & _). unfold size. rewrite bool_decide_true by done.
  rewrite (Listpack.stores_numElements _ _ Hs), flat_length, Nat.mul_comm, Nat.div_mul by lia.
  split; [|done]. by rewrite Hp, length_map_to_list.
Qed.

Lemma hash_size_holds h m : holds h m -> size h = base.size m.
Proof.
  intros [(He & _ & ps & Hp)|(He & _ & _ & Hr)]%holds_cases; [by eapply packed_size|].
  unfold size. rewrite bool_decide_false by congruence. by apply represents_size.
Qed.

Lemma get_holds h m f :
  holds h m -> exists h', get h f = Some (h', m !! f) /\ holds h' m /\ encoding_ h' = encoding_ h.
Proof.
  intros Hh. destruct (holds_cases h m Hh) as [(He & Ht & ps & Hp)|(He & Ht & Hs & Hr)];
    unfold get; rewrite Ht.
  - exists h. pose proof (packed_find h m ps f Hp) as Hf.
    destruct (Listpack.find _ f 0 2) as [i|]; [|by rewrite Hf].
    destruct Hf as (j & v & -> & Hj & ->).
    rewrite (Listpack.stores_get _ _ _ (proj1 Hp)), flat_odd, Hj. cbn.
    by rewrite Listpack.toString_elem.
  - destruct (represents_find _ _ _ f Hr) as (tb & -> & Hr'). cbn. eexists. split; [done|].
    split; [by apply holds_table|done].
Qed.

Lemma hash_contains_holds h m f :
  holds h m -> exists h', contains h f = Some (h', is_some (m !! f)) /\ holds h' m /\ encoding_ h' = encoding_ h.
Proof.
  intros Hh. destruct (holds_cases h m Hh) as [(He & Ht & ps & Hp)|(He & Ht & Hs & Hr)];
    unfold contains; rewrite Ht.
  - exists h. pose proof (packed_find h m ps f Hp) as Hf.
    destruct (Listpack.find _ f 0 2) as [i|]; [|by rewrite Hf].
    by destruct Hf as (j & v & -> & Hj & ->).
  - destruct (represents_find _ _ _ f Hr) as (tb & -> & Hr'). cbn. eexists. split; [done|].
    split; [by apply holds_table|done].
Qed.

Lemma insert_pairs_ok (tb : D bytes) m ps :
  represents tb m -> exists tb', insert_pairs tb (flat ps) = Some tb' /\ represents tb' (add_pairs m ps).
Proof.
  revert tb m. induction ps as [|[f v] ps IH]; intros tb m Hr; [by exists tb|].
  cbn [flat insert_pairs]. destruct (represents_insert _ _ _ f v Hr) as (tb1 & -> & Hr1).
  cbn. by apply IH.
Qed.

Lemma convert_holds h m :
  holds h m -> exists h', convertToHashTable h = Some h' /\ holds h' m /\ encoding_ h' = EHashTable.
Proof.
  intros Hh. destruct (holds_cases h m Hh) as [(He & Ht & ps & Hs & Hp & Hr & _)|(He & Ht & Hs & Hr)];
    unfold convertToHashTable; rewrite Ht; [|by exists h].
  rewrite (Listpack.stores_toStrings _ _ Hs).
  destruct (insert_pairs_ok (table_ h) ∅ ps Hr) as (tb & -> & Hr'). cbn.
  eexists. split; [done|]. split; [|done]. rewrite (add_pairs_empty ps m Hp) in Hr'.
  split; [exact (Listpack.repr_clear (listpack_ h))|done].
Qed.

Lemma packed_update h m ps j f v w :
  packed h m ps -> ps !! j = Some (f, w) -> Listpack.storable v ->
  packed (set_listpack h (Listpack.replaceAt (listpack_ h) (2 * j + 1) v).1) (<[f := v]> m)
    (<[j := (f, v)]> ps).
Proof.
  intros (Hs & Hp & Hr & Hl & Hf) Hj Hv. apply lookup_lt_Some in Hj as Hlt.
  destruct (Listpack.stores_replaceAt _ _ (2 * j + 1) v Hs Hv) as [Hs' _]. cbn [Listpack.spec_exec] in Hs'.
  rewrite flat_length in Hs'. destruct (Nat.ltb_spec (2 * j + 1) (2 * length ps)); [|lia].
  split_and!.
  - rewrite (flat_update _ _ _ _ _ Hj). exact Hs'.
  - rewrite (list_update_perm _ _ _ _ Hj). eapply perm_update; [done|by apply list_delete_perm].
  - done.
  - by rewrite length_insert.
  - apply Forall_insert; [done|]. rewrite Forall_forall in Hf. specialize (Hf (f, w)). apply Hf.
    by eapply list_elem_of_lookup_2.
Qed.

Lemma packed_add h m ps f v :
  packed h m ps -> m !! f = None -> (length ps < 512)%nat -> (length f <= 64)%nat -> (length v <= 64)%nat ->
  packed (set_listpack h (Listpack.append (Listpack.append (listpack_ h) f) v)) (<[f := v]> m) (ps ++ [(f, v)]).
Proof.
  intros (Hs & Hp & Hr & Hl & Hf) Hm Hlen Hfl Hvl. unfold Listpack.storable in *.
  split_and!; cbn; [| |done| |].
  - rewrite flat_app. cbn [flat]. change ([f; v]) with ([f] ++ [v]). rewrite app_assoc.
    apply Listpack.stores_append; [|unfold Listpack.storable; lia].
    apply Listpack.stores_append; [done|unfold Listpack.storable; lia].
  - rewrite <- Permutation_cons_append. by apply perm_add.
  - rewrite length_app. simpl. lia.
  - apply Forall_app. split; [done|]. by constructor.
Qed.

Lemma shouldConvert_false h m ps f v :
  encoding_ h = EListPack -> packed h m ps -> shouldConvert h f v = false ->
  (length ps < 512)%nat /\ (length f <= 64)%nat /\ (length v <= 64)%nat.
Proof.
  intros He Hp Hc. destruct (packed_size h m ps He Hp) as [_ Hs]. unfold shouldConvert in Hc. bools.
  rewrite Hs in *. cbn in *. lia.
Qed.

Lemma hash_set_holds h m f v :
  holds h m -> Listpack.storable v ->
  exists h', set h f v = Some (h', negb (is_some (m !! f))) /\ holds h' (<[f := v]> m) /\
    (encoding_ h = EHashTable -> encoding_ h' = EHashTable).
Proof.
  intros Hh Hv. destruct (holds_cases h m Hh) as [(He & Ht & ps & Hp)|(He & Ht & Hs & Hr)];
    unfold set; rewrite Ht.
  - pose proof (packed_find h m ps f Hp) as Hf. destruct (Listpack.find _ f 0 2) as [i|].
    + destruct Hf as (j & w & -> & Hj & ->). eexists. split; [done|]. split; [|by rewrite He].
      unfold holds. cbn. rewrite He. eexists. by apply (packed_update h m ps j f v w).
    + rewrite Hf. destruct (shouldConvert h f v) eqn:Hc.
      * destruct (convert_holds h m Hh) as (h1 & -> & Hh1 & He1). cbn.
        unfold holds in Hh1. rewrite He1 in Hh1. destruct Hh1 as [Hs1 Hr1].
        destruct (represents_insert _ _ _ f v Hr1) as (tb & -> & Hr2). cbn.
        eexists. split; [done|]. split; [by apply holds_table|done].
      * destruct (shouldConvert_false h m ps f v He Hp Hc) as (H1 & H2 & H3).
        eexists. split; [done|]. split; [|by rewrite He].
        unfold holds. cbn. rewrite He. eexists. by apply packed_add.
  - destruct (represents_find _ _ _ f Hr) as (tb & -> & Hr1). cbn.
    destruct (represents_insert _ _ _ f v Hr1) as (tb2 & -> & Hr2). cbn.
    eexists. split; [done|]. split; [by apply holds_table|done].
Qed.

Lemma hash_erase_holds h m f :
  holds h m ->
  exists h', erase h f = Some (h', is_some (m !! f)) /\ holds h' (delete f m) /\
    encoding_ h' = encoding_ h.
Proof.
  intros Hh. destruct (holds_cases h m Hh) as [(He & Ht & ps & Hp)|(He & Ht & Hs & Hr)];
    unfold erase; rewrite Ht.
  - pose proof (packed_find h m ps f Hp) as Hf. destruct (Listpack.find _ f 0 2) as [i|].
    + destruct Hf as (j & w & -> & Hj & ->). destruct Hp as (Hs & Hp & Hr & Hl & Hall).
      apply lookup_lt_Some in Hj as Hlt.
      destruct (Listpack.stores_eraseRange _ _ (2 * j) 2 Hs) as [Hs' Hb]. cbn [Listpack.spec_exec Nat.eqb orb] in Hs', Hb.
      rewrite flat_length in Hs', Hb. destruct (Nat.leb_spec (2 * j + 2) (2 * length ps)); [|lia].
      rewrite Hb. eexists. split; [done|]. split; [|done]. unfold holds. cbn. rewrite He.
      exists (delete j ps). split_and!; [|..|].
      * rewrite flat_delete. exact Hs'.
      * eapply perm_remove; [done|by apply list_delete_perm].
      * done.
      * rewrite length_delete by by eexists. lia.
      * by apply Forall_delete.
    + rewrite Hf, delete_id by done. by exists h.
  - destruct (represents_erase _ _ _ f Hr) as (tb & -> & Hr'). cbn. eexists.
    split; [f_equal; f_equal; by destruct (m !! f)|]. split; [by apply holds_table|done].
Qed.

Lemma flatten_holds h m :
  holds h m -> exists ps, flatten h = flat ps /\ ps ≡ₚ map_to_list m.
Proof.
  intros [(He & _ & ps & Hs & Hp & _)|(He & _ & _ & Hr)]%holds_cases; unfold flatten.
  - rewrite bool_decide_true by done. exists ps. split; [by apply Listpack.stores_toStrings|done].
  - rewrite bool_decide_false by congruence. eexists. split; [done|]. by apply represents_forEach.
Qed.

Lemma evens_flat ps : evens (flat ps) = ps.*1 /\ evens (tail (flat ps)) = ps.*2.
Proof.
  induction ps as [|[f v] ps [IH1 IH2]]; [done|]. cbn [flat evens tail]. rewrite IH1.
  split; [done|]. cbn. f_equal. rewrite <- IH2. by destruct (flat ps).
Qed.

Lemma set_pairs_ok h m ps :
  holds h m -> Forall (fun p => Listpack.storable p.2) ps ->
  exists h', set_pairs h (flat ps) = Some h' /\ holds h' (add_pairs m ps).
Proof.
  intros Hh Hs. revert h m Hh. induction Hs as [|[f v] ps Hv _ IH]; intros h m Hh; [by exists h|].
  cbn [flat set_pairs]. destruct (hash_set_holds h m f v Hh Hv) as (h1 & -> & Hh1 & _). cbn. by apply IH.
Qed.

Lemma hash_copy_holds h m :
  holds h m -> map_Forall (fun _ v => Listpack.storable v) m -> exists h', copy h = Some h' /\ holds h' m.
Proof.
  intros Hh Hm. destruct (flatten_holds h m Hh) as (ps & Hf & Hp). unfold copy. rewrite Hf.
  rewrite <- (add_pairs_empty ps m Hp). apply set_pairs_ok; [apply hash_holds_new|].
  rewrite Forall_forall. intros [f v] Hin. apply (Hm f). by apply (perm_lookup ps m).
Qed.

Lemma longest_bound es n :
  (foldl (fun longest e => match e with Listpack.Str s => Nat.max longest (length s) | _ => longest end) n es <= 64)%nat ->
  (n <= 64)%nat /\ Forall (fun e => match e with Listpack.Str s => length s <= 64 | _ => True end)%nat es.
Proof.
  revert n. induction es as [|e es IH]; intros n H; [by split|]. cbn [foldl] in H.
  apply IH in H as [H1 H2]. destruct e; (split; [lia|]); constructor; (done || lia).
Qed.

Lemma adopt_holds h lp ps m :
  represents (table_ h) ∅ -> Listpack.stores lp (flat ps) -> ps ≡ₚ map_to_list m ->
  exists h', adoptListpack h lp = Some (h', true) /\ holds h' m.
Proof.
  intros Hr Hs Hp. unfold adoptListpack.
  rewrite (Listpack.stores_numElements _ _ Hs), flat_length, Nat.mul_comm, Nat.Div0.mod_mul by lia.
  cbn [Nat.eqb negb]. rewrite Nat.div_mul by lia.
  set (h0 := mk EListPack lp (table_ h)).
  assert (exists h', convertToHashTable h0 = Some h' /\ holds h' m) as (hc & Hc & Hhc).
  { unfold convertToHashTable. change (is_table h0) with false. change (listpack_ h0) with lp.
    rewrite (Listpack.stores_toStrings _ _ Hs).
    change (table_ h0) with (table_ h).
    destruct (insert_pairs_ok (table_ h) ∅ ps Hr) as (tb & -> & Hr'). cbn. eexists. split; [done|].
    rewrite (add_pairs_empty ps m Hp) in Hr'. split; [exact (Listpack.repr_clear lp)|done]. }
  destruct (_ || _) eqn:Hlim; [rewrite Hc; by exists hc|].
  exists h0. split; [done|]. exists ps. bools. cbn in *.
  rewrite (Listpack.forEach_repr _ _ Hs) in *.
  destruct (longest_bound _ _ H0) as [_ Hl].
  split_and!; [done|done|done|lia|]. apply Forall_forall. intros [f v] Hin.
  rewrite Forall_forall in Hl. specialize (Hl (Listpack.elem_of_value f)).
  assert (f ∈ flat ps) as Hf.
  { apply list_elem_of_lookup in Hin as [j Hj]. apply (list_elem_of_lookup_2 _ (2 * j)).
    by rewrite flat_even, Hj. }
  specialize (Hl ltac:(apply list_elem_of_fmap; by exists f)). unfold Listpack.elem_of_value in Hl. cbn.
  destruct (stringToInt64 f) as [n|] eqn:En; [|done].
  apply stringToInt64_sound in En as [Hn ->]. pose proof (to_string_length n Hn). lia.
Qed.

(** *** Operation sequences *)

Inductive op := Set_ (f v : bytes) | Get (f : bytes) | Contains (f : bytes) | Erase (f : bytes) | Convert.
Inductive result := RBool (b : bool) | RVal (v : option bytes) | RUnit.

Definition op_ok (o : op) : Prop := match o with Set_ _ v => Listpack.storable v | _ => True end.

Definition exec h (o : op) : option (t D * result) :=
  match o with
  | Set_ f v => '(h, b) ← set h f v; Some (h, RBool b)
  | Get f => '(h, v) ← get h f; Some (h, RVal v)
  | Contains f => '(h, b) ← contains h f; Some (h, RBool b)
  | Erase f => '(h, b) ← erase h f; Some (h, RBool b)
  | Convert => h ← convertToHashTable h; Some (h, RUnit)
  end.

Definition spec_exec m (o : op) : gmap bytes bytes * result :=
  match o with
  | Set_ f v => (<[f := v]> m, RBool (negb (is_some (m !! f))))
  | Get f => (m, RVal (m !! f))
  | Contains f => (m, RBool (is_some (m !! f)))
  | Erase f => (delete f m, RBool (is_some (m !! f)))
  | Convert => (m, RUnit)
  end.

Fixpoint run h (os : list op) : option (t D * list result) :=
  match os with
  | [] => Some (h, [])
  | o :: os => '(h, r) ← exec h o; '(h, rs) ← run h os; Some (h, r :: rs)
  end.

Fixpoint spec_run m (os : list op) : gmap bytes bytes * list result :=
  match os with
  | [] => (m, [])
  | o :: os =>
      let '(m, r) := spec_exec m o in
      let '(m, rs) := spec_run m os in
      (m, r :: rs)
  end.

Lemma hash_exec_holds h m o :
  holds h m -> op_ok o ->
  exists h', exec h o = Some (h', (spec_exec m o).2) /\ holds h' (spec_exec m o).1 /\
    (encoding_ h = EHashTable -> encoding_ h' = EHashTable).
Proof.
  intros Hh Ho. destruct o as [f v|f|f|f|]; cbn [exec spec_exec fst snd op_ok] in *.
  - destruct (hash_set_holds h m f v Hh Ho) as (h' & -> & ? & ?). by exists h'.
  - destruct (get_holds h m f Hh) as (h' & -> & ? & He). exists h'. by rewrite He.
  - destruct (hash_contains_holds h m f Hh) as (h' & -> & ? & He). exists h'. by rewrite He.
  - destruct (hash_erase_holds h m f Hh) as (h' & -> & ? & He). exists h'. by rewrite He.
  - destruct (convert_holds h m Hh) as (h' & -> & ? & He). by exists h'.
Qed.

Lemma hash_run_holds h m os :
  holds h m -> Forall op_ok os ->
  exists h', run h os = Some (h', (spec_run m os).2) /\ holds h' (spec_run m os).1 /\
    (encoding_ h = EHashTable -> encoding_ h' = EHashTable).
Proof.
  intros Hh Ho. revert h m Hh. induction Ho as [|o os Ho _ IH]; intros h m Hh; cbn [run spec_run];
    [by exists h|].
  destruct (hash_exec_holds h m o Hh Ho) as (h1 & -> & Hh1 & He1). cbn [mbind option_bind].
  destruct (spec_exec m o) as [m1 r]. destruct (IH h1 m1 Hh1) as (h2 & -> & Hh2 & He2).
  exists h2. destruct (spec_run m1 os). auto.
Qed.
End Refinement.

(** a hash behaves as a finite map from fields to values through every
    sequence of sets, lookups, removals and forced conversions, whichever of
    its two encodings it is in and wherever along the way it converts: every
    call returns what it returns on the map, the final size is the map's, and
    [flatten] lists each field with its value exactly once. *)
Theorem hash_refines_map {D : Type -> Type} {ops : MapOps D} {laws : MapLaws D} (os : list op) :
  Forall op_ok os ->
  exists h : t D, run new os = Some (h, (spec_run ∅ os).2) /\
    size h = base.size (spec_run ∅ os).1 /\
    exists ps, flatten h = flat ps /\ ps ≡ₚ map_to_list (spec_run ∅ os).1.
Proof.
  intros Ho. destruct (hash_run_holds new ∅ os hash_holds_new Ho) as (h & -> & Hh & _). exists h.
  split; [done|]. split; [by apply hash_size_holds|by apply flatten_holds].
Qed.

#[global] Instance op_ok_dec o : Decision (op_ok o).
Proof. destruct o; simpl; apply _. Defined.

Lemma hash_refines_map_witness :
  let os := [Set_ (str "name") (str "redis"); Set_ (str "port") (str "6379"); Convert;
             Set_ (str "port") (str "6380"); Erase (str "name"); Get (str "port")] in
  exists h : t Dict.dict, run (ops := Dict.dict_ops) (new (ops := Dict.dict_ops)) os = Some (h, (spec_run ∅ os).2) /\
    size (ops := Dict.dict_ops) h = base.size (spec_run ∅ os).1 /\
    exists ps, flatten (ops := Dict.dict_ops) h = flat ps /\ ps ≡ₚ map_to_list (spec_run ∅ os).1.
Proof.
  apply (hash_refines_map (laws := Dict.dict_laws)
    [Set_ (str "name") (str "redis"); Set_ (str "port") (str "6379"); Convert;
     Set_ (str "port") (str "6380"); Erase (str "name"); Get (str "port")]). decide_now.
Defined.

(** the encoding of a hash only ever moves from listpack to hash table,
    and while it is a listpack it holds at most 512 pairs and no field longer
    than 64 bytes: the limits hold in every reachable state. *)
Theorem hash_encoding_one_way {D : Type -> Type} {ops : MapOps D} {laws : MapLaws D} (os1 os2 : list op) :
  Forall op_ok (os1 ++ os2) ->
  exists (h1 h2 : t D) rs1 rs2, run new os1 = Some (h1, rs1) /\ run h1 os2 = Some (h2, rs2) /\
    (encoding_ h1 = EHashTable -> encoding_ h2 = EHashTable) /\
    (encoding_ h1 = EListPack \/ encoding_ h1 = EHashTable) /\
    (encoding_ h1 = EListPack ->
      (length (fields h1) <= hash_max_listpack_entries defaultLimits)%nat /\
      Forall (fun f => length f <= hash_max_listpack_value defaultLimits)%nat (fields h1)).
Proof.
  intros [Ho1 Ho2]%Forall_app. destruct (hash_run_holds new ∅ os1 hash_holds_new Ho1) as (h1 & Hr1 & Hh1 & _).
  destruct (hash_run_holds h1 _ os2 Hh1 Ho2) as (h2 & Hr2 & _ & He).
  eexists h1, h2, _, _. split; [done|]. split; [done|]. split; [done|].
  destruct (holds_cases _ _ Hh1) as [(E & _ & ps & Hs & _ & _ & Hl & Hf)|(E & _)]; [|rewrite E; by split; [right|]].
  split; [by left|]. intros _. unfold fields, flatten. rewrite bool_decide_true by done.
  rewrite (Listpack.stores_toStrings _ _ Hs), (proj1 (evens_flat ps)). rewrite length_fmap.
  split; [exact Hl|]. by apply Forall_fmap.
Qed.

Lemma hash_encoding_one_way_witness :
  let os1 := [Set_ (str "f") (str "v")] in
  let os2 := [Set_ (str "g") (replicate 65 97)] in
  exists (h1 h2 : t Dict.dict) rs1 rs2,
    run (ops := Dict.dict_ops) (new (ops := Dict.dict_ops)) os1 = Some (h1, rs1) /\
    run (ops := Dict.dict_ops) h1 os2 = Some (h2, rs2) /\
    (encoding_ h1 = EHashTable -> encoding_ h2 = EHashTable) /\
    (encoding_ h1 = EListPack \/ encoding_ h1 = EHashTable) /\
    (encoding_ h1 = EListPack ->
      (length (fields (ops := Dict.dict_ops) h1) <= hash_max_listpack_entries defaultLimits)%nat /\
      Forall (fun f => length f <= hash_max_listpack_value defaultLimits)%nat (fields (ops := Dict.dict_ops) h1)).
Proof.
  apply (hash_encoding_one_way (laws := Dict.dict_laws) [Set_ (str "f") (str "v")]
    [Set_ (str "g") (replicate 65 97)]). decide_now.
Defined.

(** Updating an existing field never converts, however long the new value. *)
Lemma hash_update_keeps_listpack {D : Type -> Type} {ops : MapOps D} {laws : MapLaws D}
    (h : t D) m f v w :
  holds h m -> encoding_ h = EListPack -> m !! f = Some w ->
  exists h', set h f v = Some (h', false) /\ encoding_ h' = EListPack.
Proof.
  intros Hh He Hm. destruct (holds_cases h m Hh) as [(_ & Ht & ps & Hp)|(E & _)]; [|congruence].
  unfold set. rewrite Ht. pose proof (packed_find h m ps f Hp) as Hf.
  destruct (Listpack.find _ f 0 2) as [i|]; [|congruence]. by eexists.
Qed.
End HashValue.
