(* ===== verification/ZSetValue.v ===== *)
(** * ZSetValue: the sorted set type and its two encodings

    [ZSetValue] of [src/core/collections.h] and [src/core/collections.cpp]: a
    listpack of alternating members and scores, kept in order, that becomes a
    skip list and a score index when it outgrows the limits. Scores are bit
    patterns of doubles; in a listpack they are the text of [d2string]. The
    random bits of the skip list are an argument: [rng n] are the draws of the
    [n]-th insertion. *)

From Stdlib Require Import ZArith Lia.
From stdpp Require Import base list numbers gmap option sorting strings.
From S2P Require Import Prelude Encoding Order Double Strtod Dtoa SkipList Limits Listpack MapSpec Dict HashValue.

Module ZSetValue.

(** ** Ranges of members *)

Inductive LexKind := NegInf | Value | PosInf.
Record LexBound := mkBound { kind : LexKind; value : bytes; exclusive : bool }.
Record LexRange := mkLex { lex_min : LexBound; lex_max : LexBound }.

Definition aboveMin (r : LexRange) (member : bytes) : bool :=
  match kind (lex_min r) with
  | NegInf => true
  | PosInf => false
  | Value =>
      if exclusive (lex_min r) then bytes_lt (value (lex_min r)) member else negb (bytes_lt member (value (lex_min r)))
  end.

Definition belowMax (r : LexRange) (member : bytes) : bool :=
  match kind (lex_max r) with
  | PosInf => true
  | NegInf => false
  | Value =>
      if exclusive (lex_max r) then bytes_lt member (value (lex_max r)) else negb (bytes_lt (value (lex_max r)) member)
  end.

Definition lexIsEmpty (r : LexRange) : bool :=
  match kind (lex_min r), kind (lex_max r) with
  | PosInf, _ => true
  | _, NegInf => true
  | Value, Value =>
      bytes_lt (value (lex_max r)) (value (lex_min r)) ||
      ((value (lex_min r) =b? value (lex_max r)) && (exclusive (lex_min r) || exclusive (lex_max r)))
  | _, _ => false
  end.

(** ** The value *)

Definition scoreToString (score : Z) : bytes := Dtoa.d2string score.
Definition scoreFromString (s : bytes) : Z := Strtod.strtod s.

(** [is_integer ? static_cast<double>(integer) : scoreFromString(string)] *)
Definition element_score (e : Listpack.elem) : Z :=
  match e with Listpack.Int n => Double.of_int64 n | Listpack.Str s => scoreFromString s end.

(** [for (i = 0; i + 1 < flat.size(); i += 2)] *)
Fixpoint pairs (fl : list bytes) : list (bytes * Z) :=
  match fl with
  | m :: s :: fl => (m, scoreFromString s) :: pairs fl
  | _ => []
  end.

Section ZSetValue.
Context {D : Type -> Type} {ops : MapOps D}.

Record t := mk { encoding_ : ObjEncoding; listpack_ : bytes; skiplist_ : SkipList.t; scores_ : D Z }.

Definition new : t := mk EListPack Listpack.new SkipList.new mnew.

Definition set_listpack (z : t) (lp : bytes) : t := mk (encoding_ z) lp (skiplist_ z) (scores_ z).
Definition set_scores (z : t) (d : D Z) : t := mk (encoding_ z) (listpack_ z) (skiplist_ z) d.
Definition set_skip (z : t) (s : SkipList.t) (d : D Z) : t := mk (encoding_ z) (listpack_ z) s d.

Definition is_skiplist (z : t) : bool := bool_decide (encoding_ z = ESkipList).

Definition size (z : t) : nat :=
  if bool_decide (encoding_ z = EListPack) then (Listpack.numElements (listpack_ z) / 2)%nat else msize (scores_ z).

Definition score (z : t) (member : bytes) : option (t * option Z) :=
  if is_skiplist z then
    '(d, found) ← mfind (scores_ z) member;
    Some (set_scores z d, found)
  else
    match Listpack.find (listpack_ z) member 0 2 with
    | None => Some (z, None)
    | Some index =>
        match Listpack.get (listpack_ z) (index + 1) with
        | None => Some (z, None)
        | Some element => Some (z, Some (element_score element))
        end
    end.

Fixpoint insert_pairs (s : SkipList.t) (d : D Z) (rng : nat -> nat -> Z) (k : nat) (ps : list (bytes * Z))
    : option (SkipList.t * D Z) :=
  match ps with
  | [] => Some (s, d)
  | (m, sc) :: ps =>
      s ← SkipList.insert s (rng k) sc m;
      '(d, _) ← minsert d m sc;
      insert_pairs s d rng (S k) ps
  end.

Definition convertToSkipList (z : t) (rng : nat -> nat -> Z) : option t :=
  if is_skiplist z then Some z
  else
    '(s, d) ← insert_pairs (skiplist_ z) (scores_ z) rng 0 (pairs (Listpack.toStrings (listpack_ z)));
    Some (mk ESkipList (Listpack.clear (listpack_ z)) s d).

(** The longest member that is not an integer; [None]: a member is missing. *)
Fixpoint longest_member (n i : nat) (lp : bytes) (longest : nat) : option nat :=
  match n with
  | O => Some longest
  | S n =>
      match Listpack.get lp i with
      | None => None
      | Some (Listpack.Int _) => longest_member n (i + 2) lp longest
      | Some (Listpack.Str s) => longest_member n (i + 2) lp (Nat.max longest (length s))
      end
  end.

Definition adoptListpack (z : t) (lp : bytes) (rng : nat -> nat -> Z) : option (t * bool) :=
  if negb (Listpack.numElements lp mod 2 =? 0)%nat then Some (z, false)
  else
    match longest_member (Listpack.numElements lp / 2) 0 lp 0 with
    | None => Some (z, false)
    | Some longest =>
        let z := mk EListPack lp (skiplist_ z) (scores_ z) in
        if (zset_max_listpack_entries defaultLimits <? Listpack.numElements lp / 2)%nat
           || (zset_max_listpack_value defaultLimits <? longest)%nat
        then z ← convertToSkipList z rng; Some (z, true)
        else Some (z, true)
    end.

(** The first pair that belongs after the new one, or the end. *)
Fixpoint insert_position (fuel : nat) (lp : bytes) (member : bytes) (new_score : Z) (i : nat) : nat :=
  match fuel with
  | O => Listpack.numElements lp
  | S fuel =>
      if (i <? Listpack.numElements lp)%nat then
        match Listpack.get lp i, Listpack.get lp (i + 1) with
        | Some member_element, Some score_element =>
            let existing := element_score score_element in
            let existing_member := Listpack.toString member_element in
            if Double.gt existing new_score || (Double.eq existing new_score && bytes_lt member existing_member) then i
            else insert_position fuel lp member new_score (i + 2)
        | _, _ => Listpack.numElements lp
        end
      else Listpack.numElements lp
  end.

(** The tail of [add], in the skip list encoding. *)
Definition add_skip (z : t) (bits : nat -> Z) (member : bytes) (new_score : Z) : option (t * bool) :=
  '(d, existing) ← mfind (scores_ z) member;
  match existing with
  | Some old_score =>
      if Double.eq old_score new_score then Some (set_scores z d, false)
      else
        '(s, _) ← SkipList.remove (skiplist_ z) old_score member;
        s ← SkipList.insert s bits new_score member;
        '(d, _) ← minsert (d : D Z) member new_score;
        Some (set_skip z s d, false)
  | None =>
      s ← SkipList.insert (skiplist_ z) bits new_score member;
      '(d, _) ← minsert (d : D Z) member new_score;
      Some (set_skip z s d, true)
  end.

(** The listpack branch of [add] once it is known to stay a listpack. *)
Definition add_packed (z : t) (index : option nat) (member : bytes) (new_score : Z) : t * bool :=
  let lp := listpack_ z in
  let insert_at := insert_position (Listpack.numElements lp) lp member new_score 0 in
  let lp := (Listpack.insertAt lp insert_at member).1 in
  let lp := (Listpack.insertAt lp (insert_at + 1) (scoreToString new_score)).1 in
  (set_listpack z lp, negb (is_some index)).

(** [rng 0], [rng 1], ... serve a conversion; [bits] the insertion itself. *)
Definition add (z : t) (rng : nat -> nat -> Z) (bits : nat -> Z) (member : bytes) (new_score : Z) : option (t * bool) :=
  if bool_decide (encoding_ z = EListPack) then
    match Listpack.find (listpack_ z) member 0 2 with
    | Some index =>
        let z := set_listpack z (Listpack.eraseRange (listpack_ z) index 2).1 in
        Some (add_packed z (Some index) member new_score)
    | None =>
        if (zset_max_listpack_entries defaultLimits <=? size z)%nat
           || (zset_max_listpack_value defaultLimits <? length member)%nat
        then z ← convertToSkipList z rng; add_skip z bits member new_score
        else Some (add_packed z None member new_score)
    end
  else add_skip z bits member new_score.

Definition erase (z : t) (member : bytes) : option (t * bool) :=
  if bool_decide (encoding_ z = EListPack) then
    match Listpack.find (listpack_ z) member 0 2 with
    | None => Some (z, false)
    | Some index =>
        let r := Listpack.eraseRange (listpack_ z) index 2 in
        Some (set_listpack z r.1, r.2)
    end
  else
    '(d, existing) ← mfind (scores_ z) member;
    match existing with
    | None => Some (set_scores z d, false)
    | Some sc =>
        '(s, _) ← SkipList.remove (skiplist_ z) sc member;
        '(d, _) ← merase (d : D Z) member;
        Some (set_skip z s d, true)
    end.

Definition rank (z : t) (member : bytes) : option (t * option Z) :=
  if is_skiplist z then
    '(d, found) ← mfind (scores_ z) member;
    match found with
    | None => Some (set_scores z d, None)
    | Some sc => r ← SkipList.rankOf (skiplist_ z) sc member; Some (set_scores z d, r)
    end
  else
    match Listpack.find (listpack_ z) member 0 2 with
    | None => Some (z, None)
    | Some index => Some (z, Some (Z.of_nat (index / 2)))
    end.

Definition all (z : t) : option (list (bytes * Z)) :=
  if bool_decide (encoding_ z = EListPack) then Some (pairs (Listpack.toStrings (listpack_ z)))
  else SkipList.elements (skiplist_ z).

(** [{begin + start, begin + stop + 1}]: a range that ends before it begins is
    undefined. *)
Definition range (z : t) (start stop : Z) : option (list (bytes * Z)) :=
  everything ← all z;
  let n := Z.of_nat (length everything) in
  if n <=? start then Some []
  else
    let stop := Z.min stop (n - 1) in
    if stop + 1 <? start then None
    else Some (take (Z.to_nat (stop + 1 - start)) (drop (Z.to_nat start) everything)).

(** From a node on, while the scores are in range. *)
Fixpoint collect (h : gmap nat SkipList.node) (fuel : nat) (r : SkipList.ScoreRange) (x : option nat)
    : option (list (bytes * Z)) :=
  match x with
  | None => Some []
  | Some y =>
      match fuel with
      | O => None
      | S fuel =>
          n ← h !! y;
          if negb (SkipList.containsScore r (SkipList.score n)) then Some []
          else
            '(f, _) ← SkipList.levels n !! 0%nat;
            rest ← collect h fuel r f;
            Some ((SkipList.member n, SkipList.score n) :: rest)
      end
  end.

Definition rangeByScore (z : t) (r : SkipList.ScoreRange) : option (list (bytes * Z)) :=
  if SkipList.isEmpty r then Some []
  else if is_skiplist z then
    first ← SkipList.firstInRange (skiplist_ z) r;
    collect (SkipList.heap (skiplist_ z)) (base.size (SkipList.heap (skiplist_ z))) r first
  else
    everything ← all z;
    Some (List.filter (fun e => SkipList.containsScore r (snd e)) everything).

(** [started] is set by the first member at or past the minimum. *)
Fixpoint lex_run (r : LexRange) (started : bool) (l : list (bytes * Z)) : list (bytes * Z) :=
  match l with
  | [] => []
  | e :: l =>
      if negb started && negb (aboveMin r (fst e)) then lex_run r false l
      else if negb (belowMax r (fst e)) then []
      else e :: lex_run r true l
  end.

Definition rangeByLex (z : t) (r : LexRange) : option (list (bytes * Z)) :=
  if lexIsEmpty r then Some [] else everything ← all z; Some (lex_run r false everything).

(** The copy constructor: [other.all()] added one by one. *)
Fixpoint add_all (z : t) (rng : nat -> nat -> nat -> Z) (k : nat) (l : list (bytes * Z)) : option t :=
  match l with
  | [] => Some z
  | (m, s) :: l => '(z, _) ← add z (rng k) (rng k 129%nat) m s; add_all z rng (S k) l
  end.

Definition copy (other : t) (rng : nat -> nat -> nat -> Z) : option t :=
  everything ← all other; add_all new rng 0 everything.

End ZSetValue.

Arguments t : clear implicits.

(** ** The abstract sorted set *)

Abbreviation entries := (list (bytes * Z)).

(** What is left of a negative zero that went through its text. *)
Definition canon (s : Z) : Z := if s =? 2 ^ 63 then 0 else s.
Definition canons (l : entries) : entries := map (fun e => (fst e, canon (snd e))) l.

Definition drop_member (m : bytes) (l : entries) : entries := List.filter (fun e => negb (fst e =b? m)) l.

(** Members are unique, scores are not NaN, and the order is by score, then by
    member. *)
Definition entries_ok (l : entries) : Prop :=
  NoDup l.*1 /\ StronglySorted SkipList.entry_before l /\ Forall (fun e => Double.ok (snd e)) l.

Definition score_of (m : bytes) (l : entries) : option Z := (list_to_map l : gmap bytes Z) !! m.

Lemma canon_ok s : Double.ok s -> Double.ok (canon s).
Proof. unfold canon. intros H. destruct (s =? 2 ^ 63); [by split|done]. Qed.

Lemma canon_key s : Double.key (canon s) = Double.key s.
Proof. unfold canon. destruct (Z.eqb_spec s (2 ^ 63)) as [->|]; done. Qed.

Lemma canon_idem s : canon (canon s) = canon s.
Proof. unfold canon. destruct (Z.eqb_spec s (2 ^ 63)) as [->|Hne]; [done|]. by rewrite (proj2 (Z.eqb_neq _ _) Hne). Qed.

Lemma canon_same_key a b : Double.ok a -> Double.ok b -> Double.key a = Double.key b -> canon a = canon b.
Proof.
  intros [Ha _] [Hb _] E. destruct (Double.key_inj a b Ha Hb E) as [->|[Ea Eb]]; [done|].
  assert (forall x, is_u64 x -> Double.magnitude x = 0 -> canon x = 0) as H.
  { intros x Hx E0. rewrite <- (Double.signed_parts x Hx), E0. by destruct (Double.sign x). }
  by rewrite (H a Ha Ea), (H b Hb Eb).
Qed.

Lemma isBefore_canon a am b bm : Double.ok a -> Double.ok b ->
  SkipList.isBefore (canon a) am (canon b) bm = SkipList.isBefore a am b bm.
Proof. intros Ha Hb. apply eq_true_iff_eq. rewrite !SkipList.isBefore_spec by auto using canon_ok. by rewrite !canon_key. Qed.

(** ** Sorted lists *)

Lemma sorted_filter (f : bytes * Z -> bool) l :
  StronglySorted SkipList.entry_before l -> StronglySorted SkipList.entry_before (List.filter f l).
Proof.
  induction 1 as [|e l Hs IH He]; [constructor|]. cbn. destruct (f e); [|done]. constructor; [done|].
  apply List.Forall_forall. intros x Hx%List.filter_In. by apply (proj1 (List.Forall_forall _ _) He), Hx.
Qed.

Lemma elem_of_drop m l e : e ∈ drop_member m l <-> e ∈ l /\ fst e <> m.
Proof. unfold drop_member. rewrite !list_elem_of_In, List.filter_In, negb_true_iff, bool_decide_eq_false. done. Qed.

Lemma drop_cons m e l : drop_member m (e :: l) = if fst e =b? m then drop_member m l else e :: drop_member m l.
Proof. cbn. by destruct (fst e =b? m). Qed.

Lemma drop_absent m l : m ∉ l.*1 -> drop_member m l = l.
Proof.
  induction l as [|e l IH]; intros H; [done|]. rewrite fmap_cons, not_elem_of_cons in H. destruct H as [He Hl].
  cbn. rewrite bool_decide_false by congruence. cbn. f_equal. by apply IH.
Qed.

Lemma drop_app m A B : drop_member m (A ++ B) = drop_member m A ++ drop_member m B.
Proof. apply List.filter_app. Qed.

Lemma drop_middle m sc A B : m ∉ (A ++ B).*1 -> drop_member m (A ++ (m, sc) :: B) = A ++ B.
Proof.
  intros H. rewrite fmap_app, not_elem_of_app in H. destruct H as [HA HB]. rewrite drop_app.
  assert (drop_member m ((m, sc) :: B) = drop_member m B) as -> by (cbn; by rewrite bool_decide_true).
  by rewrite !drop_absent.
Qed.

Lemma drop_length m l : (length (drop_member m l) <= length l)%nat.
Proof. unfold drop_member. induction l as [|e l IH]; [done|]. cbn. destruct (negb _); cbn; lia. Qed.

Lemma place_perm sc m l : SkipList.place sc m l ≡ₚ (m, sc) :: l.
Proof.
  induction l as [|e l IH]; [done|]. cbn. destruct (SkipList.isBefore _ _ _ _); [|done]. rewrite IH. constructor.
Qed.

Lemma place_length sc m l : length (SkipList.place sc m l) = S (length l).
Proof. exact (Permutation_length (place_perm sc m l)). Qed.

(** Where a new member goes: everything before it, then everything after. *)
Lemma place_split sc m l : entries_ok l -> Double.ok sc -> m ∉ l.*1 ->
  exists A B, l = A ++ B /\ SkipList.place sc m l = A ++ (m, sc) :: B /\
    (forall e, e ∈ A -> SkipList.isBefore (snd e) (fst e) sc m = true) /\
    (forall e, e ∈ B -> SkipList.isBefore sc m (snd e) (fst e) = true).
Proof.
  intros (Hn & Hs & Hok) Hsc Hm. induction l as [|e l IH].
  { exists [], []. split; [done|]. split; [done|]. split; intros e He; by apply not_elem_of_nil in He. }
  apply Forall_cons in Hok as [Hoe Hol]. rewrite fmap_cons in Hn, Hm. apply NoDup_cons in Hn as [Hne Hn]. apply not_elem_of_cons in Hm as [Hme Hml].
  apply StronglySorted_inv in Hs as [Hs Hall]. cbn [SkipList.place]. destruct (SkipList.isBefore (snd e) (fst e) sc m) eqn:E.
  - destruct (IH Hn Hs Hol Hml) as (A & B & -> & -> & HA & HB). exists (e :: A), B. split; [done|]. split; [done|]. split; [|done].
    intros x [->|Hx]%elem_of_cons; auto.
  - exists [], (e :: l). split; [done|]. split; [done|]. split; [intros x Hx; by apply not_elem_of_nil in Hx|].
    assert (SkipList.isBefore sc m (snd e) (fst e) = true) as Hlt.
    { destruct (SkipList.isBefore_total (snd e) (fst e) sc m Hoe Hsc) as [H|[H|[_ H]]]; [congruence|done|congruence]. }
    intros x [->|Hx]%elem_of_cons; [done|]. rewrite Forall_forall in Hol, Hall.
    apply (SkipList.isBefore_trans _ _ (snd e) (fst e)); [done|done|by apply Hol|done|by apply Hall].
Qed.

Lemma sorted_middle A x B : StronglySorted SkipList.entry_before (A ++ B) ->
  (forall e, e ∈ A -> SkipList.entry_before e x) -> (forall e, e ∈ B -> SkipList.entry_before x e) ->
  StronglySorted SkipList.entry_before (A ++ x :: B).
Proof.
  induction A as [|a A IH]; intros Hs HA HB; cbn in *.
  - constructor; [done|]. by apply Forall_forall.
  - apply StronglySorted_inv in Hs as [Hs Ha]. apply Forall_app in Ha as [Ha1 Ha2]. constructor.
    + apply IH; [done| |done]. intros e He. apply HA. by right.
    + apply Forall_app. split; [done|]. constructor; [apply HA; by left|done].
Qed.

Lemma entries_ok_place sc m l : entries_ok l -> Double.ok sc -> m ∉ l.*1 -> entries_ok (SkipList.place sc m l).
Proof.
  intros Hl Hsc Hm. destruct (place_split sc m l Hl Hsc Hm) as (A & B & HAB & -> & HA & HB). destruct Hl as (Hn & Hs & Hok). split_and!.
  - assert (A ++ (m, sc) :: B ≡ₚ (m, sc) :: l) as -> by (rewrite HAB; symmetry; apply Permutation_middle). cbn. by constructor.
  - apply sorted_middle; [by rewrite <- HAB|done|done].
  - rewrite HAB in Hok. apply Forall_app in Hok as [H1 H2]. apply Forall_app. split; [done|]. by apply Forall_cons.
Qed.

Lemma entries_ok_drop m l : entries_ok l -> entries_ok (drop_member m l).
Proof.
  intros (Hn & Hs & Hok). split_and!.
  - clear Hs Hok. induction l as [|e l IH]; [done|]. rewrite fmap_cons in Hn. apply NoDup_cons in Hn as [He Hn]. cbn.
    destruct (negb (fst e =b? m)); [|by apply IH]. cbn. constructor; [|by apply IH].
    intros (x & Hx & Hin)%list_elem_of_fmap. apply He. apply list_elem_of_fmap. exists x. split; [done|]. by apply elem_of_drop in Hin as [? _].
  - by apply sorted_filter.
  - rewrite Forall_forall in *. intros e [He _]%elem_of_drop. auto.
Qed.

Lemma drop_not_member m l : m ∉ (drop_member m l).*1.
Proof. intros (e & -> & He)%list_elem_of_fmap. by apply elem_of_drop in He as [_ ?]. Qed.

(** Putting a member back where it was. *)
Lemma place_back sc m l : entries_ok l -> (m, sc) ∈ l -> SkipList.place sc m (drop_member m l) = l.
Proof.
  intros (Hn & Hs & Hok) Hin. apply list_elem_of_split in Hin as (A & B & ->).
  rewrite fmap_app, fmap_cons in Hn. rewrite <- Permutation_middle in Hn. apply NoDup_cons in Hn as [Hm Hn]. cbn in Hm. rewrite <- fmap_app in Hm.
  rewrite drop_middle by done. apply Forall_app in Hok as [HokA HokB]. apply Forall_cons in HokB as [Hsc HokB]. cbn in Hsc.
  rewrite Forall_forall in HokA, HokB. apply StronglySorted_app in Hs as (HAB & _ & [_ HB]%StronglySorted_inv). rewrite Forall_forall in HB.
  apply SkipList.place_app.
  - intros e He. apply (HAB e (m, sc)); [done|by left].
  - intros e He. apply not_true_iff_false. intros H. assert (SkipList.isBefore sc m sc m = true) as Hx.
    { apply (SkipList.isBefore_trans _ _ (snd e) (fst e)); [done|by apply HokB|done|by apply HB|done]. }
    by rewrite SkipList.isBefore_irrefl in Hx.
Qed.

(** *** The score index *)

Lemma list_to_map_place sc m l : NoDup l.*1 -> m ∉ l.*1 ->
  (list_to_map (SkipList.place sc m l) : gmap bytes Z) = <[m := sc]> (list_to_map l).
Proof.
  intros Hn Hm. rewrite <- list_to_map_cons. apply list_to_map_proper; [|apply place_perm].
  rewrite place_perm. cbn. by constructor.
Qed.

Lemma list_to_map_drop m l : (list_to_map (drop_member m l) : gmap bytes Z) = delete m (list_to_map l).
Proof.
  induction l as [|[k s] l IH]; [cbn; symmetry; apply delete_empty|]. rewrite drop_cons. cbn [fst]. destruct (decide (k = m)) as [->|Hne].
  - rewrite bool_decide_true by done. rewrite IH. cbn. by rewrite delete_insert_eq.
  - rewrite bool_decide_false by done. cbn [list_to_map foldr fst snd]. cbn. rewrite IH. by rewrite delete_insert_ne.
Qed.

Lemma score_of_Some m s l : NoDup l.*1 -> score_of m l = Some s <-> (m, s) ∈ l.
Proof. intros Hn. unfold score_of. symmetry. by apply elem_of_list_to_map. Qed.

Lemma score_of_None m l : score_of m l = None <-> m ∉ l.*1.
Proof. unfold score_of. symmetry. apply not_elem_of_list_to_map. Qed.

(** *** Texts *)

Definition texts (l : entries) : list (bytes * bytes) := map (fun e => (fst e, scoreToString (snd e))) l.

Lemma texts_fst l : (texts l).*1 = l.*1.
Proof. induction l as [|e l IH]; [done|]. cbn. by f_equal. Qed.

Lemma texts_app A B : texts (A ++ B) = texts A ++ texts B.
Proof. apply map_app. Qed.

Lemma scoreToString_canon s : scoreToString (canon s) = scoreToString s.
Proof. unfold canon. destruct (Z.eqb_spec s (2 ^ 63)) as [->|]; [|done]. vm_compute. done. Qed.

Lemma score_text s : Double.ok s -> scoreFromString (scoreToString s) = canon s.
Proof. apply Dtoa.strtod_d2string. Qed.

(** Whether or not the text was packed as an integer. *)
Lemma element_score_text s : Double.ok s -> element_score (Listpack.elem_of_value (scoreToString s)) = canon s.
Proof.
  intros Hs. rewrite <- (score_text s Hs). unfold Listpack.elem_of_value, element_score.
  destruct (stringToInt64 (scoreToString s)) as [n|] eqn:E; [|done]. apply stringToInt64_sound in E as [_ E].
  unfold scoreFromString. rewrite E. symmetry. apply Strtod.strtod_to_string.
Qed.

Lemma pairs_texts l : Forall (fun e => Double.ok (snd e)) l -> pairs (flat (texts l)) = canons l.
Proof.
  induction 1 as [|[m s] l Hs _ IH]; [done|]. cbn [texts map flat pairs canons fst snd]. rewrite score_text by done. f_equal. exact IH.
Qed.

Lemma scoreToString_storable s : Double.ok s -> Listpack.storable (scoreToString s).
Proof. intros Hs. destruct (Dtoa.d2string_printable s Hs) as [_ H]. unfold Listpack.storable, scoreToString. lia. Qed.

(** ** Representation *)

Section Refinement.
Context {D : Type -> Type} {ops : MapOps D} {laws : MapLaws D}.
Implicit Types (z : t D) (l : entries).

(** A small set: pairs in the listpack, within the limits, its scores as their
    texts denote them; the skip list and the index have not been used. *)
Definition packed z l : Prop :=
  Listpack.stores (listpack_ z) (flat (texts l)) /\ SkipList.holds (skiplist_ z) [] /\ represents (scores_ z) ∅ /\
  (length l <= 128)%nat /\ Forall (fun e => length (fst e) <= 64)%nat l /\ canons l = l.

(** A large one: the skip list and the index agree. *)
Definition spread z l : Prop :=
  Listpack.stores (listpack_ z) [] /\ SkipList.holds (skiplist_ z) l /\ represents (scores_ z) (list_to_map l).

(** The entries as the code returns them. *)
Definition exact z l : Prop :=
  entries_ok l /\ match encoding_ z with EListPack => packed z l | ESkipList => spread z l | _ => False end.

Lemma exact_new : exact new [].
Proof.
  split; [split_and!; [constructor|constructor|done]|]. cbn. split_and!; [apply Listpack.stores_new| |apply represents_new|cbn; lia|done|done].
  exists []. split; [apply SkipList.new_inv|done].
Qed.

Lemma exact_cases z l : exact z l ->
  (encoding_ z = EListPack /\ is_skiplist z = false /\ packed z l) \/ (encoding_ z = ESkipList /\ is_skiplist z = true /\ spread z l).
Proof. unfold exact, is_skiplist. intros [_ H]. destruct (encoding_ z) eqn:E; try done; [left|right]; done. Qed.

Lemma packed_pair_find z l m : packed z l -> NoDup l.*1 ->
  match Listpack.find (listpack_ z) m 0 2 with
  | Some index => exists A s B, index = (2 * length A)%nat /\ l = A ++ (m, s) :: B /\ m ∉ (A ++ B).*1
  | None => m ∉ l.*1
  end.
Proof.
  intros (Hs & _) Hn. pose proof (HashValue.find_pair _ _ m Hs) as Hf. destruct (Listpack.find _ m 0 2) as [i|].
  - destruct Hf as (j & v & -> & Hj). unfold texts in Hj.
    assert (map (fun e : bytes * Z => (fst e, scoreToString (snd e))) l !! j = (fun e => (fst e, scoreToString (snd e))) <$> l !! j) as E
      by apply (list_lookup_fmap (fun e : bytes * Z => (fst e, scoreToString (snd e)))).
    rewrite E in Hj. destruct (l !! j) as [[k s]|] eqn:Hl; [|done]. injection Hj as -> <-.
    apply list_elem_of_split_length in Hl as (A & B & -> & ->). exists A, s, B. split; [done|]. split; [done|].
    rewrite fmap_app, fmap_cons in Hn. rewrite <- Permutation_middle in Hn. apply NoDup_cons in Hn as [Hm _]. by rewrite fmap_app.
  - by rewrite texts_fst in Hf.
Qed.

(** *** The readers *)

Lemma exact_size z l : exact z l -> size z = length l.
Proof.
  intros H. unfold size. destruct (exact_cases z l H) as [(He & _ & Hs & _)|(He & _ & _ & _ & Hr)];
    [rewrite bool_decide_true by done|rewrite bool_decide_false by congruence].
  - rewrite (Listpack.stores_numElements _ _ Hs), HashValue.flat_length. unfold texts. rewrite length_map, Nat.mul_comm. by rewrite Nat.div_mul.
  - rewrite (represents_size _ _ _ Hr). destruct H as [(Hn & _) _]. by rewrite <- length_map_to_list, map_to_list_to_map.
Qed.

Lemma exact_scores z l d : exact z l -> encoding_ z = ESkipList -> represents d (list_to_map l) -> exact (set_scores z d) l.
Proof. intros [Hok H] He Hr. split; [done|]. cbn. rewrite He in *. destruct H as (H1 & H2 & _). done. Qed.

Lemma exact_score z l m : exact z l -> exists z', score z m = Some (z', score_of m l) /\ exact z' l /\ encoding_ z' = encoding_ z.
Proof.
  intros H. pose proof H as [(Hn & Hsort & Hok) _]. unfold score.
  destruct (exact_cases z l H) as [(He & -> & Hp)|(He & -> & _ & _ & Hr)].
  - exists z. pose proof (packed_pair_find z l m Hp Hn) as Hf. destruct (Listpack.find (listpack_ z) m 0 2) as [i|].
    + destruct Hf as (A & s & B & -> & -> & _). destruct Hp as (Hs & _ & _ & _ & _ & Hc). rewrite (Listpack.stores_get _ _ _ Hs), HashValue.flat_odd.
      assert (texts (A ++ (m, s) :: B) !! length A = Some (m, scoreToString s)) as ->.
      { rewrite texts_app. rewrite lookup_app_r by (unfold texts; rewrite length_map; lia). unfold texts at 1. rewrite length_map, Nat.sub_diag. done. }
      cbn [fmap option_fmap option_map snd]. apply Forall_app in Hok as [_ Hok]. apply Forall_cons in Hok as [Hs0 _]. cbn in Hs0.
      rewrite element_score_text by done. split; [|done]. do 2 f_equal. symmetry. rewrite score_of_Some by done.
      assert (canon s = s) as ->; [|set_solver]. unfold canons in Hc. rewrite map_app in Hc. apply app_inj_1 in Hc as [_ Hc]; [|by rewrite length_map].
      cbn in Hc. by injection Hc.
    + split; [|done]. do 2 f_equal. symmetry. by apply score_of_None.
  - destruct (represents_find _ _ _ m Hr) as (d & -> & Hr'). cbn. eexists. split; [done|]. split; [by apply exact_scores|done].
Qed.

Lemma exact_all z l : exact z l -> all z = Some l.
Proof.
  intros H. pose proof H as [(_ & _ & Hok) _]. unfold all. destruct (exact_cases z l H) as [(He & _ & Hs & Hp)|(He & _ & _ & Hh & _)];
    [rewrite bool_decide_true by done|rewrite bool_decide_false by congruence].
  - rewrite (Listpack.stores_toStrings _ _ Hs), pairs_texts by done. f_equal. apply Hp.
  - by apply SkipList.holds_elements.
Qed.

(** The position of a member. *)
Definition rank_of (m : bytes) l : option nat := SkipList.index_of (fun e => fst e =b? m) l.

Lemma index_of_middle f A e B : (forall x, x ∈ A -> f x = false) -> f e = true -> SkipList.index_of f (A ++ e :: B) = Some (length A).
Proof.
  induction A as [|a A IH]; intros HA He; cbn; [by rewrite He|]. rewrite HA by (by left). rewrite IH; [done| |done]. intros; apply HA; by right.
Qed.

Lemma index_of_absent f l : (forall x, x ∈ l -> f x = false) -> SkipList.index_of f l = None.
Proof. induction l as [|a l IH]; intros H; [done|]. cbn. rewrite H by (by left). rewrite IH; [done|]. intros; apply H; by right. Qed.

Lemma rank_middle m s A B : m ∉ (A ++ B).*1 -> rank_of m (A ++ (m, s) :: B) = Some (length A).
Proof.
  intros Hm. apply index_of_middle; [|by apply bool_decide_true]. intros x Hx. apply bool_decide_false. intros E. apply Hm.
  apply list_elem_of_fmap. exists x. set_solver.
Qed.

Lemma rank_absent m l : m ∉ l.*1 -> rank_of m l = None.
Proof.
  intros Hm. apply index_of_absent. intros x Hx. apply bool_decide_false. intros E. apply Hm. apply list_elem_of_fmap. by exists x.
Qed.

Lemma exact_rank z l m : exact z l ->
  exists z', rank z m = Some (z', Z.of_nat <$> rank_of m l) /\ exact z' l /\ encoding_ z' = encoding_ z.
Proof.
  intros H. pose proof H as [(Hn & Hsort & Hok) _]. unfold rank.
  destruct (exact_cases z l H) as [(He & -> & Hp)|(He & -> & _ & Hh & Hr)].
  - exists z. pose proof (packed_pair_find z l m Hp Hn) as Hf. destruct (Listpack.find (listpack_ z) m 0 2) as [i|].
    + destruct Hf as (A & s & B & -> & -> & Hm). rewrite rank_middle, (Nat.mul_comm 2), Nat.div_mul by done. done.
    + by rewrite rank_absent.
  - destruct (represents_find _ _ _ m Hr) as (d & -> & Hr'). cbn [mbind option_bind]. fold (score_of m l).
    assert (exact (set_scores z d) l) as Hx by (by apply exact_scores).
    destruct (score_of m l) as [sc|] eqn:Hs.
    + rewrite score_of_Some in Hs by done. apply list_elem_of_split in Hs as (A & B & ->).
      assert (Double.ok sc) as Hsc by (apply Forall_app in Hok as [_ Hok]; by apply Forall_cons in Hok as [? _]).
      rewrite fmap_app, fmap_cons in Hn. rewrite <- Permutation_middle in Hn. apply NoDup_cons in Hn as [Hm _]. cbn in Hm. rewrite <- fmap_app in Hm.
      rewrite (SkipList.holds_rankOf _ _ sc m Hh Hsc). cbn [mbind option_bind]. eexists. split; [|done]. do 3 f_equal.
      rewrite rank_middle by done. apply index_of_middle; [|by apply SkipList.same_entry_true].
      intros x Hxin. apply not_true_iff_false. intros [_ E]%SkipList.same_entry_true. apply Hm. apply list_elem_of_fmap. exists x. set_solver.
    + apply score_of_None in Hs. rewrite rank_absent by done. eauto.
Qed.

(** *** Insertion into the listpack *)

(** The search stops at the first entry the new one comes before. *)
Lemma insert_position_spec lp A B m sc fuel j : Listpack.stores lp (flat (texts (A ++ B))) -> entries_ok (A ++ B) -> Double.ok sc ->
  m ∉ (A ++ B).*1 -> (forall e, e ∈ A -> SkipList.isBefore (snd e) (fst e) sc m = true) ->
  (forall e, e ∈ B -> SkipList.isBefore sc m (snd e) (fst e) = true) -> (j <= length A)%nat -> (2 * length (A ++ B) - 2 * j <= fuel)%nat ->
  insert_position fuel lp m sc (2 * j) = (2 * length A)%nat.
Proof.
  intros Hs (Hn & _ & Hok) Hsc Hm HA HB. assert (Listpack.numElements lp = (2 * length (A ++ B))%nat) as Hlen.
  { rewrite (Listpack.stores_numElements _ _ Hs), HashValue.flat_length. unfold texts. by rewrite length_map. }
  revert j. induction fuel as [|fuel IH]; intros j Hj Hf; cbn [insert_position]; rewrite Hlen, length_app in *; [lia|].
  destruct (Nat.ltb_spec (2 * j) (2 * (length A + length B))) as [Hlt|Hge]; [|lia].
  destruct (lookup_lt_is_Some_2 (A ++ B) j ltac:(rewrite length_app; lia)) as [[k s] Hj'].
  assert (texts (A ++ B) !! j = Some (k, scoreToString s)) as Ht.
  { unfold texts. rewrite (list_lookup_fmap (fun e : bytes * Z => (fst e, scoreToString (snd e)))). by rewrite Hj'. }
  rewrite !(Listpack.stores_get _ _ _ Hs), HashValue.flat_even, HashValue.flat_odd, Ht. cbn [fmap option_fmap option_map fst snd].
  assert ((k, s) ∈ A ++ B) as Hin by (by eapply list_elem_of_lookup_2). assert (Double.ok s) as Hs0 by (by apply (proj1 (Forall_forall _ _) Hok _ Hin)).
  rewrite element_score_text, Listpack.toString_elem by done.
  assert (Double.gt (canon s) sc || (Double.eq (canon s) sc && bytes_lt m k) = SkipList.isBefore sc m s k) as ->.
  { apply eq_true_iff_eq. rewrite orb_true_iff, andb_true_iff, SkipList.isBefore_spec by done. unfold Double.gt.
    rewrite Double.lt_key, Double.eq_key by auto using canon_ok. rewrite canon_key, Z.ltb_lt, Z.eqb_eq. naive_solver lia. }
  destruct (Nat.eq_dec j (length A)) as [->|Hne].
  - rewrite lookup_app_r, Nat.sub_diag in Hj' by lia. pose proof (HB (k, s) ltac:(by eapply list_elem_of_lookup_2)) as Hb. cbn in Hb. by rewrite Hb.
  - rewrite lookup_app_l in Hj' by lia. assert ((k, s) ∈ A) as HinA by (by eapply list_elem_of_lookup_2).
    assert (SkipList.isBefore sc m s k = false) as ->.
    { apply not_true_iff_false. intros Hb. specialize (HA _ HinA). cbn in HA.
      pose proof (SkipList.isBefore_trans _ _ _ _ _ _ Hs0 Hsc Hs0 HA Hb) as Hx. by rewrite SkipList.isBefore_irrefl in Hx. }
    replace (2 * j + 2)%nat with (2 * S j)%nat by lia. apply IH; lia.
Qed.

Lemma flat_insert A B m x : flat (texts A ++ (m, x) :: texts B) =
  take (2 * length A + 1) (take (2 * length A) (flat (texts (A ++ B))) ++ [m] ++ drop (2 * length A) (flat (texts (A ++ B)))) ++
  [x] ++ drop (2 * length A + 1) (take (2 * length A) (flat (texts (A ++ B))) ++ [m] ++ drop (2 * length A) (flat (texts (A ++ B)))).
Proof.
  rewrite texts_app, !HashValue.flat_app.
  assert (length (flat (texts A)) = (2 * length A)%nat) as HlA by (rewrite HashValue.flat_length; unfold texts; by rewrite length_map).
  rewrite <- HlA, take_app_length, drop_app_length. cbn [flat]. set (X := flat (texts A)). set (Y := flat (texts B)).
  assert (X ++ [m] ++ Y = (X ++ [m]) ++ Y) as -> by apply app_assoc.
  assert (length X + 1 = length (X ++ [m]))%nat as -> by (rewrite length_app; done).
  rewrite take_app_length, drop_app_length. by rewrite <- app_assoc.
Qed.

(** Adding a pair where it belongs. *)
Lemma add_packed_spec z l m sc index : packed z l -> encoding_ z = EListPack -> entries_ok l -> Double.ok sc -> m ∉ l.*1 ->
  (length l < 128)%nat -> (length m <= 64)%nat ->
  exists z', add_packed z index m sc = (z', negb (is_some index)) /\ exact z' (SkipList.place (canon sc) m l) /\ encoding_ z' = EListPack.
Proof.
  intros (Hs & Hsk & Hr & Hlen & Hmem & Hc) He Hok Hsc Hm Hroom Hm64. pose proof (canon_ok sc Hsc) as Hcs.
  destruct (place_split (canon sc) m l Hok Hcs Hm) as (A & B & HAB & HP & HA & HB).
  assert (Forall (fun e => Double.ok (snd e)) l) as Hoks by apply Hok. rewrite Forall_forall in Hoks.
  assert (insert_position (Listpack.numElements (listpack_ z)) (listpack_ z) m sc 0 = (2 * length A)%nat) as Hpos.
  { rewrite HAB in Hs, Hok, Hm. apply (insert_position_spec _ A B m sc _ 0); try done; [| |lia|].
    - intros e Hin. rewrite <- isBefore_canon; [|apply Hoks; rewrite HAB; set_solver|done].
      pose proof (HA e Hin) as Hb. rewrite <- isBefore_canon, canon_idem in Hb; [done|apply Hoks; rewrite HAB; set_solver|done].
    - intros e Hin. rewrite <- isBefore_canon; [|done|apply Hoks; rewrite HAB; set_solver].
      pose proof (HB e Hin) as Hb. rewrite <- isBefore_canon, canon_idem in Hb; [done|done|apply Hoks; rewrite HAB; set_solver].
    - rewrite (Listpack.stores_numElements _ _ Hs), HashValue.flat_length. unfold texts. rewrite length_map. lia. }
  unfold add_packed. rewrite Hpos. eexists. split; [done|]. split; [|done]. split; [by apply entries_ok_place|]. cbn. rewrite He.
  assert (length l = length A + length B)%nat as HlAB by (rewrite HAB, length_app; lia).
  assert (length (flat (texts l)) = 2 * length l)%nat as Hfl by (rewrite HashValue.flat_length; unfold texts; by rewrite length_map).
  split_and!; [|done|done|rewrite place_length; lia| |].
  - rewrite HP. unfold texts at 1. rewrite map_app. cbn [map fst snd]. fold (texts A) (texts B). rewrite scoreToString_canon, flat_insert, <- HAB.
    destruct (Listpack.stores_insertAt _ _ (2 * length A) m Hs) as [H1 _]; [unfold Listpack.storable; lia|].
    cbn [Listpack.spec_exec] in H1. rewrite (proj2 (Nat.leb_le _ _)) in H1 by lia. cbn [fst] in H1.
    destruct (Listpack.stores_insertAt _ _ (2 * length A + 1) (scoreToString sc) H1 (scoreToString_storable sc Hsc)) as [H2 _].
    cbn [Listpack.spec_exec] in H2. rewrite (proj2 (Nat.leb_le _ _)) in H2 by (rewrite !length_app, length_take, length_drop; cbn [length]; lia). exact H2.
  - rewrite place_perm. by constructor.
  - rewrite HP. unfold canons. rewrite map_app. cbn [map fst snd]. rewrite canon_idem. unfold canons in Hc. rewrite HAB, map_app in Hc.
    apply app_inj_1 in Hc as [-> ->]; [done|by rewrite length_map].
Qed.

(** *** Conversion *)

Lemma place_last sc m l : entries_ok (l ++ [(m, sc)]) -> SkipList.place sc m l = l ++ [(m, sc)].
Proof.
  intros (_ & Hs & _). apply StronglySorted_app in Hs as (Hall & _ & _). rewrite <- (app_nil_r l) at 1. apply SkipList.place_app.
  - intros e He. apply (Hall e (m, sc)); [done|by left].
  - intros e He. by apply not_elem_of_nil in He.
Qed.

Lemma entries_ok_prefix A B : entries_ok (A ++ B) -> entries_ok A.
Proof.
  intros (Hn & Hs & Hok). split_and!.
  - rewrite fmap_app in Hn. by apply NoDup_app in Hn as [? _].
  - by apply StronglySorted_app_1_l in Hs.
  - by apply Forall_app in Hok as [? _].
Qed.

Lemma insert_pairs_spec s d rng k P l : SkipList.holds s P -> represents d (list_to_map P) -> entries_ok (P ++ l) ->
  Z.of_nat (length (P ++ l)) < 2 ^ 64 ->
  exists s' d', insert_pairs s d rng k l = Some (s', d') /\ SkipList.holds s' (P ++ l) /\ represents d' (list_to_map (P ++ l)).
Proof.
  revert s d k P. induction l as [|[m sc] l IH]; intros s d k P Hs Hd Hok Hroom; cbn [insert_pairs].
  { rewrite app_nil_r. eauto. }
  replace (P ++ (m, sc) :: l) with ((P ++ [(m, sc)]) ++ l) in * by (by rewrite <- app_assoc).
  pose proof (entries_ok_prefix _ _ Hok) as HokP. pose proof (entries_ok_prefix _ _ HokP) as HokP0.
  assert (m ∉ P.*1) as Hm.
  { destruct HokP as (Hn & _). rewrite fmap_app in Hn. apply NoDup_app in Hn as (_ & Hn & _). intros H. apply (Hn m H). by left. }
  assert (Double.ok sc) as Hsc by (destruct HokP as (_ & _ & H); apply Forall_app in H as [_ H]; by apply Forall_cons in H as [? _]).
  rewrite !length_app in Hroom. cbn [length] in Hroom.
  destruct (SkipList.holds_insert s P (rng k) sc m Hs Hsc) as (s' & -> & Hs'); [lia| |].
  { intros e He. apply not_true_iff_false. intros [_ E]%SkipList.same_entry_true. apply Hm, list_elem_of_fmap. by exists e. }
  cbn [mbind option_bind]. destruct (represents_insert _ _ _ m sc Hd) as (d' & -> & Hd'). cbn [mbind option_bind].
  apply IH; [by rewrite <- place_last| |done|rewrite !length_app; cbn; lia]. rewrite <- place_last, list_to_map_place; [done|apply HokP0|done|done].
Qed.

Lemma convert_spec z l rng : packed z l -> encoding_ z = EListPack -> entries_ok l ->
  exists z', convertToSkipList z rng = Some z' /\ exact z' l /\ encoding_ z' = ESkipList.
Proof.
  intros (Hs & Hsk & Hr & Hlen & Hmem & Hc) He Hok. unfold convertToSkipList, is_skiplist. rewrite bool_decide_false by congruence.
  rewrite (Listpack.stores_toStrings _ _ Hs), pairs_texts, Hc by apply Hok.
  destruct (insert_pairs_spec (skiplist_ z) (scores_ z) rng 0 [] l Hsk) as (s & d & -> & Hs' & Hd'); [by rewrite list_to_map_nil|done|cbn; lia|].
  cbn [mbind option_bind]. eexists. split; [done|]. split; [|done]. split; [done|]. cbn. split_and!; [|done|done]. exact (Listpack.repr_clear (listpack_ z)).
Qed.

(** *** Insertion into the skip list *)

Lemma take_out_member sc m l s : NoDup l.*1 -> (m, s) ∈ l -> Double.key s = Double.key sc -> SkipList.take_out sc m l = drop_member m l.
Proof.
  intros Hn Hin Hk. unfold SkipList.take_out, drop_member. apply List.filter_ext_in. intros [k x] Hx%list_elem_of_In. f_equal. cbn.
  unfold SkipList.same_entry. cbn. destruct (decide (k = m)) as [->|Hne].
  - assert (x = s) as ->; [|rewrite Hk, Z.eqb_refl; by rewrite bool_decide_true].
    apply (elem_of_list_to_map (M := gmap bytes) l m) in Hin, Hx; [congruence|done|done].
  - rewrite bool_decide_false by done. apply andb_false_r.
Qed.

Lemma add_skip_spec z l bits m sc : spread z l -> encoding_ z = ESkipList -> entries_ok l -> Double.ok sc -> Z.of_nat (length l) + 1 < 2 ^ 64 ->
  exists z' l', add_skip z bits m sc = Some (z', bool_decide (m ∉ l.*1)) /\ exact z' l' /\ encoding_ z' = ESkipList /\
    (l' = SkipList.place sc m (drop_member m l) \/ exists s, (m, s) ∈ l /\ Double.key s = Double.key sc /\ l' = l).
Proof.
  intros (Hlp & Hh & Hr) He Hok Hsc Hroom. pose proof Hok as (Hn & Hsort & Hoks). unfold add_skip.
  destruct (represents_find _ _ _ m Hr) as (d & -> & Hr'). cbn [mbind option_bind]. fold (score_of m l). destruct (score_of m l) as [old|] eqn:Hs.
  - rewrite score_of_Some in Hs by done. rewrite bool_decide_false by (intros H; apply H, list_elem_of_fmap; by exists (m, old)).
    assert (Double.ok old) as Hold by (apply (proj1 (Forall_forall _ _) Hoks (m, old) Hs)).
    rewrite Double.eq_key by done. destruct (Z.eqb_spec (Double.key old) (Double.key sc)) as [Ek|Ek].
    + exists (set_scores z d), l. split; [done|]. split; [|split; [done|right; eauto]]. apply exact_scores; [|done|done].
      split; [done|]. by rewrite He.
    + destruct (SkipList.holds_remove _ _ old m Hh Hold) as (s & -> & Hh'). cbn [mbind option_bind].
      rewrite (take_out_member old m l old) in Hh' by done.
      destruct (SkipList.holds_insert s _ bits sc m Hh' Hsc) as (s' & -> & Hh''); [pose proof (drop_length m l); lia| |].
      { intros e [_ Hne]%elem_of_drop. apply not_true_iff_false. by intros [_ E]%SkipList.same_entry_true. }
      cbn [mbind option_bind]. destruct (represents_insert _ _ _ m sc Hr') as (d' & -> & Hd'). cbn [mbind option_bind].
      eexists _, _. split; [done|]. split; [|split; [done|by left]]. split; [apply entries_ok_place; [by apply entries_ok_drop|done|apply drop_not_member]|].
      cbn. rewrite He. split_and!; [done|done|]. rewrite list_to_map_place, list_to_map_drop, insert_delete_eq; [done|apply entries_ok_drop, Hok|apply drop_not_member].
  - apply score_of_None in Hs. rewrite bool_decide_true by done.
    destruct (SkipList.holds_insert _ _ bits sc m Hh Hsc Hroom) as (s' & -> & Hh').
    { intros e Hin. apply not_true_iff_false. intros [_ E]%SkipList.same_entry_true. apply Hs, list_elem_of_fmap. by exists e. }
    cbn [mbind option_bind]. destruct (represents_insert _ _ _ m sc Hr') as (d' & -> & Hd'). cbn [mbind option_bind].
    eexists _, _. split; [done|]. split; [|split; [done|left; by rewrite drop_absent]]. split; [by apply entries_ok_place|].
    cbn. rewrite He. split_and!; [done|done|]. by rewrite list_to_map_place.
Qed.

(** *** [add] and [erase] *)

Lemma erase_packed z l A s B m : packed z l -> encoding_ z = EListPack -> entries_ok l -> l = A ++ (m, s) :: B -> m ∉ (A ++ B).*1 ->
  packed (set_listpack z (Listpack.eraseRange (listpack_ z) (2 * length A) 2).1) (drop_member m l) /\
  (Listpack.eraseRange (listpack_ z) (2 * length A) 2).2 = true.
Proof.
  intros (Hs & Hsk & Hr & Hlen & Hmem & Hc) He Hok -> Hm.
  destruct (Listpack.stores_eraseRange _ _ (2 * length A) 2 Hs) as [H1 H2]. cbn [Listpack.spec_exec Nat.eqb orb] in H1, H2.
  assert (length (flat (texts (A ++ (m, s) :: B))) = 2 * length (A ++ (m, s) :: B))%nat as Hfl by (rewrite HashValue.flat_length; unfold texts; by rewrite length_map).
  rewrite (proj2 (Nat.leb_le _ _)) in H1, H2 by (rewrite Hfl, length_app; cbn [length]; lia). cbn [fst snd] in H1, H2.
  rewrite drop_middle by done. split; [|exact H2]. unfold packed, set_listpack. cbn [listpack_ skiplist_ scores_].
  split_and!; [|done|done| | |].
  - replace (flat (texts (A ++ B))) with (take (2 * length A) (flat (texts (A ++ (m, s) :: B))) ++ drop (2 * length A + 2) (flat (texts (A ++ (m, s) :: B)))); [exact H1|].
    rewrite !texts_app, !HashValue.flat_app. cbn [texts map flat fst snd]. fold (texts B).
    assert (length (flat (texts A)) = (2 * length A)%nat) as <- by (rewrite HashValue.flat_length; unfold texts; by rewrite length_map).
    rewrite take_app_length, <- drop_drop, drop_app_length. done.
  - rewrite !length_app in *. cbn [length] in Hlen. lia.
  - apply Forall_app in Hmem as [H3 H4]. apply Forall_cons in H4 as [_ H4]. by apply Forall_app.
  - unfold canons in *. rewrite map_app in *. cbn [map] in Hc. apply app_inj_1 in Hc as [-> Hc]; [|by rewrite length_map]. injection Hc as _ ->. done.
Qed.

Lemma canons_place sc m l : Forall (fun e => Double.ok (snd e)) l -> Double.ok sc ->
  canons (SkipList.place sc m l) = SkipList.place (canon sc) m (canons l).
Proof.
  intros Hok Hsc. induction Hok as [|e l He _ IH]; [done|]. cbn [SkipList.place canons map fst snd]. rewrite isBefore_canon by done.
  destruct (SkipList.isBefore _ _ _ _); [|done]. cbn [canons map]. f_equal. exact IH.
Qed.

Lemma canons_drop m l : canons (drop_member m l) = drop_member m (canons l).
Proof. induction l as [|e l IH]; [done|]. cbn [canons map]. rewrite !drop_cons. cbn [fst]. destruct (fst e =b? m); [done|]. cbn. by f_equal. Qed.

Lemma canons_fst l : (canons l).*1 = l.*1.
Proof. unfold canons. rewrite <- list_fmap_compose. done. Qed.

Lemma canons_idem l : canons (canons l) = canons l.
Proof. unfold canons. rewrite map_map. apply map_ext. intros e. cbn. by rewrite canon_idem. Qed.

Lemma canons_ok l : entries_ok l -> entries_ok (canons l).
Proof.
  intros (Hn & Hs & Hok). split_and!; [by rewrite canons_fst| |].
  - clear Hn. induction l as [|e l IH]; [constructor|]. apply Forall_cons in Hok as [He Hok]. apply StronglySorted_inv in Hs as [Hs Ha].
    cbn. constructor; [by apply IH|]. apply Forall_forall. intros x (y & -> & Hy)%list_elem_of_fmap. unfold SkipList.entry_before. cbn.
    rewrite Forall_forall in Ha, Hok. rewrite isBefore_canon; [by apply Ha|done|by apply Hok].
  - unfold canons. apply Forall_forall. intros x (y & -> & Hy)%list_elem_of_fmap. cbn. rewrite Forall_forall in Hok. by apply canon_ok, Hok.
Qed.

Lemma exact_add z l rng bits m sc : exact z l -> Double.ok sc -> Z.of_nat (length l) + 1 < 2 ^ 64 ->
  exists z' l', add z rng bits m sc = Some (z', bool_decide (m ∉ l.*1)) /\ exact z' l' /\
    canons l' = SkipList.place (canon sc) m (drop_member m (canons l)).
Proof.
  intros H Hsc Hroom. pose proof H as [Hok _]. pose proof Hok as (Hn & _ & Hoks).
  assert (forall z' l', exact z' l' -> (l' = SkipList.place sc m (drop_member m l) \/ exists s, (m, s) ∈ l /\ Double.key s = Double.key sc /\ l' = l) ->
    canons l' = SkipList.place (canon sc) m (drop_member m (canons l))) as Hcanon.
  { intros z' l' _ [->|(s & Hin & Ek & ->)].
    - rewrite canons_place, canons_drop; [done|apply entries_ok_drop, Hok|done].
    - assert (Double.ok s) as Hs by (apply (proj1 (Forall_forall _ _) Hoks (m, s) Hin)). rewrite <- (canon_same_key s sc Hs Hsc Ek).
      symmetry. apply place_back; [by apply canons_ok|]. apply list_elem_of_fmap. by exists (m, s). }
  unfold add. destruct (exact_cases z l H) as [(He & _ & Hp)|(He & _ & Hp)].
  - rewrite bool_decide_true by done. pose proof (packed_pair_find z l m Hp Hn) as Hf.
    destruct (Listpack.find (listpack_ z) m 0 2) as [i|].
    + destruct Hf as (A & s & B & -> & HAB & Hm). destruct (erase_packed z l A s B m Hp He Hok HAB Hm) as [Hp' _].
      assert (m ∈ l.*1) as Hin by (rewrite HAB, fmap_app; set_solver). rewrite (bool_decide_false (m ∉ l.*1)) by (by intros ?).
      destruct (add_packed_spec _ _ m sc (Some (2 * length A)%nat) Hp' He (entries_ok_drop m l Hok) Hsc (drop_not_member m l)) as (z' & -> & Hx & _).
      * rewrite HAB, drop_middle, length_app by done. destruct Hp as (_ & _ & _ & Hl & _). rewrite HAB, length_app in Hl. cbn [length] in Hl. lia.
      * destruct Hp as (_ & _ & _ & _ & Hmem & _). rewrite HAB in Hmem. apply Forall_app in Hmem as [_ Hmem]. by apply Forall_cons in Hmem as [? _].
      * eexists _, _. split; [done|]. split; [done|]. rewrite canons_place, canon_idem, canons_drop; [done|apply entries_ok_drop, Hok|by apply canon_ok].
    + rewrite (bool_decide_true (m ∉ l.*1)) by done. rewrite (exact_size z l H).
      change (zset_max_listpack_entries defaultLimits) with 128%nat. change (zset_max_listpack_value defaultLimits) with 64%nat.
      destruct ((128 <=? length l)%nat || (64 <? length m)%nat) eqn:Hbig.
      * destruct (convert_spec z l rng Hp He Hok) as (z1 & -> & [Hok1 Hx1] & He1). cbn [mbind option_bind]. rewrite He1 in Hx1.
        destruct (add_skip_spec z1 l bits m sc Hx1 He1 Hok Hsc Hroom) as (z' & l' & -> & Hx' & _ & Hl'). rewrite bool_decide_true by done. eauto 10.
      * apply orb_false_iff in Hbig as [H1%Nat.leb_gt H2%Nat.ltb_ge].
        destruct (add_packed_spec z l m sc None Hp He Hok Hsc Hf H1 H2) as (z' & -> & Hx & _). eexists _, _. split; [done|]. split; [done|].
        rewrite canons_place, canon_idem, drop_absent; [done|by rewrite canons_fst|done|by apply canon_ok].
  - rewrite bool_decide_false by congruence. destruct (add_skip_spec z l bits m sc Hp He Hok Hsc Hroom) as (z' & l' & -> & Hx' & _ & Hl'). eauto 10.
Qed.

Lemma exact_erase z l m : exact z l -> exists z', erase z m = Some (z', bool_decide (m ∈ l.*1)) /\ exact z' (drop_member m l).
Proof.
  intros H. pose proof H as [Hok _]. pose proof Hok as (Hn & _ & Hoks). unfold erase. destruct (exact_cases z l H) as [(He & _ & Hp)|(He & _ & Hlp & Hh & Hr)].
  - rewrite bool_decide_true by done. pose proof (packed_pair_find z l m Hp Hn) as Hf. destruct (Listpack.find (listpack_ z) m 0 2) as [i|].
    + destruct Hf as (A & s & B & -> & HAB & Hm). destruct (erase_packed z l A s B m Hp He Hok HAB Hm) as [Hp' ->].
      rewrite (bool_decide_true (m ∈ l.*1)) by (rewrite HAB, fmap_app; set_solver). eexists. split; [done|]. split; [by apply entries_ok_drop|]. cbn. by rewrite He.
    + rewrite (bool_decide_false (m ∈ l.*1)) by done. exists z. split; [done|]. by rewrite drop_absent.
  - rewrite bool_decide_false by congruence. destruct (represents_find _ _ _ m Hr) as (d & -> & Hr'). cbn [mbind option_bind]. fold (score_of m l).
    destruct (score_of m l) as [sc|] eqn:Hs.
    + rewrite score_of_Some in Hs by done. assert (Double.ok sc) as Hsc by (apply (proj1 (Forall_forall _ _) Hoks (m, sc) Hs)).
      destruct (SkipList.holds_remove _ _ sc m Hh Hsc) as (s & -> & Hh'). cbn [mbind option_bind]. rewrite (take_out_member sc m l sc) in Hh' by done.
      destruct (represents_erase _ _ _ m Hr') as (d' & -> & Hd'). cbn [mbind option_bind].
      rewrite bool_decide_true by (apply list_elem_of_fmap; by exists (m, sc)). eexists. split; [done|]. split; [by apply entries_ok_drop|]. cbn. rewrite He.
      split_and!; [done|done|]. by rewrite list_to_map_drop.
    + apply score_of_None in Hs. rewrite (bool_decide_false (m ∈ l.*1)) by done. eexists. split; [done|]. rewrite drop_absent by done. by apply exact_scores.
Qed.

(** *** Ranges *)

Lemma collect_spec s T r fuel p M C : SkipList.inv s T -> drop p T = M ++ C ->
  (forall x, x ∈ M -> SkipList.containsScore r (SkipList.ts x) = true) ->
  (forall x, x ∈ C -> SkipList.containsScore r (SkipList.ts x) = false) -> (length T - p <= fuel)%nat ->
  collect (SkipList.heap s) fuel r (SkipList.addr <$> T !! p) = Some (SkipList.contents M).
Proof.
  intros I. revert p M. induction fuel as [|fuel IH]; intros p M HT HM HC Hf.
  { rewrite lookup_ge_None_2 by lia. rewrite drop_ge in HT by lia. symmetry in HT. by apply app_eq_nil in HT as [-> _]. }
  destruct (T !! p) as [x|] eqn:Hx; cbn [fmap option_fmap option_map collect].
  - destruct (SkipList.bottom_node s T I _ _ Hx) as (n & sp & -> & Hm & Hs & Hl). cbn [mbind option_bind]. rewrite Hs, (drop_S _ _ _ Hx) in *.
    apply lookup_lt_Some in Hx as Hlt. destruct M as [|y M]; cbn [app] in HT.
    + rewrite HC by (rewrite <- HT; by left). done.
    + injection HT as -> HT. rewrite HM by (by left). cbn [negb]. rewrite Hl. cbn [mbind option_bind].
      rewrite (IH (S p) M HT); [|intros; apply HM; by right|done|lia]. cbn [mbind option_bind]. by rewrite Hm.
  - apply lookup_ge_None in Hx. rewrite drop_ge in HT by lia. symmetry in HT. by apply app_eq_nil in HT as [-> _].
Qed.

Lemma exact_rangeByScore z l r : exact z l -> SkipList.range_ok r ->
  rangeByScore z r = Some (List.filter (fun e => SkipList.containsScore r (snd e)) l).
Proof.
  intros H Hr. pose proof H as [(_ & _ & Hok) _]. unfold rangeByScore. destruct (SkipList.isEmpty r) eqn:Hempty.
  { f_equal. clear H. symmetry. induction Hok as [|e l He _ IH]; [done|]. cbn. by rewrite SkipList.empty_range. }
  destruct (exact_cases z l H) as [(He & -> & _)|(He & -> & _ & (T & I & <-) & _)]; [by rewrite (exact_all z l H)|].
  destruct (SkipList.range_split _ T I r Hr) as (A & M & C & HT & HA & HM & HC).
  rewrite (SkipList.firstInRange_spec _ T I r Hr A M C HT HA HM HC). cbn [mbind option_bind].
  rewrite SkipList.filter_contents, (SkipList.range_members _ T I r A M C HT HA HM HC).
  assert (SkipList.addr <$> M !! 0%nat = SkipList.addr <$> (match M with [] => None | _ => T !! length A end)) as E.
  { f_equal. destruct M as [|y M]; [done|]. rewrite HT, lookup_app_r, Nat.sub_diag by lia. done. }
  destruct M as [|y M]; [by destruct (base.size _)|]. rewrite E. apply (collect_spec _ T r _ (length A) (y :: M) C I).
  - by rewrite HT, drop_app_length.
  - done.
  - intros x [Hb Ha]%HC. unfold SkipList.containsScore. by rewrite Hb, Ha.
  - rewrite (SkipList.heap_size _ T I). lia.
Qed.

Lemma exact_rangeByLex z l r : exact z l -> rangeByLex z r = Some (if lexIsEmpty r then [] else lex_run r false l).
Proof. intros H. unfold rangeByLex. destruct (lexIsEmpty r); [done|]. by rewrite (exact_all z l H). Qed.

Lemma exact_range z l start stop : exact z l -> 0 <= start -> start <= stop + 1 ->
  range z start stop = Some (take (Z.to_nat (stop + 1 - start)) (drop (Z.to_nat start) l)).
Proof.
  intros H H0 Hss. unfold range. rewrite (exact_all z l H). cbn [mbind option_bind]. destruct (Z.leb_spec (Z.of_nat (length l)) start).
  - rewrite drop_ge by lia. by rewrite take_nil.
  - replace (Z.min stop (Z.of_nat (length l) - 1) + 1 <? start) with false by lia. f_equal.
    destruct (Z.le_gt_cases stop (Z.of_nat (length l) - 1)); [by rewrite Z.min_l by lia|]. rewrite Z.min_r by lia.
    rewrite (take_ge (drop (Z.to_nat start) l) (Z.to_nat (stop + 1 - start))) by (rewrite length_drop; lia).
    rewrite take_ge; [done|]. rewrite length_drop. lia.
Qed.

Lemma score_of_canons m l : score_of m (canons l) = canon <$> score_of m l.
Proof.
  unfold score_of, canons. change (map (fun e => (fst e, canon (snd e))) l) with (prod_map id canon <$> l).
  rewrite list_to_map_fmap. apply lookup_fmap.
Qed.

Lemma index_of_canons m l : SkipList.index_of (fun e => fst e =b? m) (canons l) = SkipList.index_of (fun e => fst e =b? m) l.
Proof. induction l as [|e l IH]; [done|]. cbn [canons map SkipList.index_of fst]. fold (canons l). by rewrite IH. Qed.

Lemma canons_filter_score r l : SkipList.range_ok r -> Forall (fun e => Double.ok (snd e)) l ->
  canons (List.filter (fun e => SkipList.containsScore r (snd e)) l) = List.filter (fun e => SkipList.containsScore r (snd e)) (canons l).
Proof.
  intros Hr Hok. induction Hok as [|e l He _ IH]; [done|]. cbn [canons map List.filter snd]. fold (canons l).
  assert (SkipList.containsScore r (canon (snd e)) = SkipList.containsScore r (snd e)) as ->.
  { unfold SkipList.containsScore. rewrite !SkipList.below_key, !SkipList.above_key, canon_key by (done || by apply canon_ok). done. }
  destruct (SkipList.containsScore r (snd e)); [|done]. cbn [canons map]. f_equal. exact IH.
Qed.

Lemma canons_lex_run r started l : canons (lex_run r started l) = lex_run r started (canons l).
Proof.
  revert started. induction l as [|e l IH]; intros started; [done|]. cbn [canons map lex_run fst]. fold (canons l).
  destruct (negb started && negb (aboveMin r (fst e))); [apply IH|]. destruct (negb (belowMax r (fst e))); [done|].
  cbn [canons map]. f_equal. apply IH.
Qed.

(** *** What the set holds, with every negative zero read as zero *)

Definition holds z l : Prop := exists l', exact z l' /\ canons l' = l.

Lemma zset_holds_new : holds new [].
Proof. exists []. split; [apply exact_new|done]. Qed.

Lemma holds_ok z l : holds z l -> entries_ok l /\ canons l = l.
Proof. intros (l' & [Hok _] & <-). split; [by apply canons_ok|apply canons_idem]. Qed.

Lemma holds_add z l rng bits m sc : holds z l -> Double.ok sc -> Z.of_nat (length l) + 1 < 2 ^ 64 ->
  exists z', add z rng bits m sc = Some (z', bool_decide (m ∉ l.*1)) /\ holds z' (SkipList.place (canon sc) m (drop_member m l)).
Proof.
  intros (l' & Hx & <-) Hsc Hroom. unfold canons in Hroom. rewrite length_map in Hroom.
  destruct (exact_add z l' rng bits m sc Hx Hsc Hroom) as (z' & l'' & -> & Hx' & Hc). exists z'. rewrite canons_fst. split; [done|]. by exists l''.
Qed.

Lemma holds_erase z l m : holds z l -> exists z', erase z m = Some (z', bool_decide (m ∈ l.*1)) /\ holds z' (drop_member m l).
Proof.
  intros (l' & Hx & <-). destruct (exact_erase z l' m Hx) as (z' & -> & Hx'). exists z'. rewrite canons_fst. split; [done|].
  exists (drop_member m l'). split; [done|]. apply canons_drop.
Qed.

Lemma holds_add_all z P rng k l : holds z P -> entries_ok (P ++ canons l) -> Forall (fun e => Double.ok (snd e)) l ->
  Z.of_nat (length (P ++ l)) < 2 ^ 64 -> exists z', add_all z rng k l = Some z' /\ holds z' (P ++ canons l).
Proof.
  revert z P k. induction l as [|[m sc] l IH]; intros z P k Hz Hok Hoks Hroom; cbn [add_all canons map].
  { exists z. by rewrite app_nil_r. }
  apply Forall_cons in Hoks as [Hsc Hoks]. cbn [fst snd]. change (map _ l) with (canons l).
  replace (P ++ (m, canon sc) :: canons l) with ((P ++ [(m, canon sc)]) ++ canons l) in * by (by rewrite <- app_assoc).
  cbn [canons map fst snd] in Hok. change (map _ l) with (canons l) in Hok.
  replace (P ++ (m, canon sc) :: canons l) with ((P ++ [(m, canon sc)]) ++ canons l) in * by (by rewrite <- app_assoc).
  pose proof (entries_ok_prefix _ _ Hok) as HokP. assert (m ∉ P.*1) as Hm.
  { destruct HokP as (Hn & _). rewrite fmap_app in Hn. apply NoDup_app in Hn as (_ & Hn & _). intros H. apply (Hn m H). by left. }
  rewrite length_app in Hroom. cbn [length] in Hroom.
  destruct (holds_add z P (rng k) (rng k 129%nat) m sc Hz Hsc) as (z' & -> & Hz'); [lia|]. cbn [mbind option_bind].
  rewrite drop_absent, place_last in Hz' by done. apply IH; [done|done|done|]. rewrite !length_app. cbn. lia.
Qed.

(** A copy holds the same entries. *)
Lemma holds_copy z l rng : holds z l -> Z.of_nat (length l) < 2 ^ 64 -> exists z', copy z rng = Some z' /\ holds z' l.
Proof.
  intros (l' & Hx & <-) Hroom. unfold copy. rewrite (exact_all z l' Hx). cbn [mbind option_bind]. destruct Hx as [Hok _].
  apply (holds_add_all new [] rng 0 l' zset_holds_new); [by apply canons_ok|apply Hok|]. unfold canons in Hroom. by rewrite length_map in Hroom.
Qed.

End Refinement.

(** ** Lexicographic ranges *)

(** On a run of equal scores the members are in order, and a contiguous run is
    the same as a filter. *)
Lemma aboveMin_up r a b : aboveMin r a = true -> bytes_lt a b = true -> aboveMin r b = true.
Proof.
  unfold aboveMin. destruct (kind (lex_min r)); [done| |done]. destruct (exclusive (lex_min r)); intros Ha Hab; [by eapply bytes_lt_trans|].
  rewrite negb_true_iff in *. apply not_true_iff_false. intros Hb. rewrite (bytes_lt_trans a b _ Hab Hb) in Ha. done.
Qed.

Lemma belowMax_down r a b : belowMax r b = true -> bytes_lt a b = true -> belowMax r a = true.
Proof.
  unfold belowMax. destruct (kind (lex_max r)); [done| |done]. destruct (exclusive (lex_max r)); intros Hb Hab; [by eapply bytes_lt_trans|].
  rewrite negb_true_iff in *. apply not_true_iff_false. intros Ha. rewrite (bytes_lt_trans _ a b Ha Hab) in Hb. done.
Qed.

Lemma lex_run_filter r started l : StronglySorted (fun a b : bytes * Z => bytes_lt (fst a) (fst b) = true) l ->
  (started = true -> forall e, e ∈ l -> aboveMin r (fst e) = true) ->
  lex_run r started l = List.filter (fun e => aboveMin r (fst e) && belowMax r (fst e)) l.
Proof.
  intros Hs. revert started. induction Hs as [|e l Hs IH He]; intros started Hst; [done|]. cbn. rewrite Forall_forall in He.
  destruct (negb started && negb (aboveMin r (fst e))) eqn:E.
  - apply andb_true_iff in E as [E1 E2]. apply negb_true_iff in E2. rewrite E2. cbn. apply IH. done.
  - assert (aboveMin r (fst e) = true) as Ha.
    { destruct started; [apply Hst; [done|by left]|]. cbn in E. by apply negb_false_iff in E. }
    rewrite Ha. cbn [andb]. destruct (belowMax r (fst e)) eqn:Hb; cbn [negb].
    + f_equal. apply IH. intros _ x Hx. by eapply aboveMin_up; [|apply He].
    + symmetry. assert (forall x, x ∈ l -> belowMax r (fst x) = false) as Hno.
      { intros x Hx. apply not_true_iff_false. intros H. rewrite (belowMax_down r (fst e) (fst x) H (He x Hx)) in Hb. done. }
      clear -Hno. induction l as [|x l IH]; [done|]. cbn. rewrite (Hno x), andb_false_r by (by left). apply IH. intros; apply Hno; by right.
Qed.

Lemma lex_uniform r l : entries_ok l -> (forall a b, a ∈ l -> b ∈ l -> Double.key (snd a) = Double.key (snd b)) ->
  lex_run r false l = List.filter (fun e => aboveMin r (fst e) && belowMax r (fst e)) l.
Proof.
  intros (_ & Hs & Hok) Hk. apply lex_run_filter; [|done]. induction Hs as [|e l Hs IH He]; [constructor|].
  apply Forall_cons in Hok as [Hoe Hok]. constructor; [apply IH; [done|]; intros; apply Hk; by right|].
  rewrite Forall_forall in *. intros x Hx. specialize (He x Hx). unfold SkipList.entry_before in He.
  rewrite SkipList.isBefore_spec in He by auto. rewrite (Hk e x) in He by (by left || by right). naive_solver lia.
Qed.

(** ** Sequences of operations *)

(** The random bits that the conversion and the insertion consume are part of
    the operation, so a statement about all operations is a statement about all
    random sequences. *)
Inductive op :=
  | OAdd (rng : nat -> nat -> Z) (bits : nat -> Z) (m : bytes) (sc : Z)
  | OErase (m : bytes) | OScore (m : bytes) | ORank (m : bytes).
Inductive res := RBool (b : bool) | RScore (s : option Z) | RRank (r : option Z).

(** Scores are no NaN: the callers reject one. *)
Definition op_ok (o : op) : Prop := match o with OAdd _ _ _ sc => Double.ok sc | _ => True end.

Definition spec_exec (l : entries) (o : op) : entries * res :=
  match o with
  | OAdd _ _ m sc => (SkipList.place (canon sc) m (drop_member m l), RBool (bool_decide (m ∉ l.*1)))
  | OErase m => (drop_member m l, RBool (bool_decide (m ∈ l.*1)))
  | OScore m => (l, RScore (score_of m l))
  | ORank m => (l, RRank (Z.of_nat <$> SkipList.index_of (fun e => fst e =b? m) l))
  end.

Fixpoint spec_run (l : entries) (os : list op) : entries * list res :=
  match os with
  | [] => (l, [])
  | o :: os => let '(l, r) := spec_exec l o in let '(l, rs) := spec_run l os in (l, r :: rs)
  end.

Lemma spec_exec_length l o : (length (spec_exec l o).1 <= S (length l))%nat.
Proof.
  destruct o as [? ? m sc|m|m|m]; cbn [spec_exec fst]; [rewrite place_length; pose proof (drop_length m l); lia|pose proof (drop_length m l); lia|lia|lia].
Qed.

Section Sequences.
Context {D : Type -> Type} {ops : MapOps D}.

Definition exec (z : t D) (o : op) : option (t D * res) :=
  match o with
  | OAdd rng bits m sc => '(z, b) ← add z rng bits m sc; Some (z, RBool b)
  | OErase m => '(z, b) ← erase z m; Some (z, RBool b)
  | OScore m => '(z, s) ← score z m; Some (z, RScore (canon <$> s))
  | ORank m => '(z, r) ← rank z m; Some (z, RRank r)
  end.

Fixpoint run (z : t D) (os : list op) : option (t D * list res) :=
  match os with
  | [] => Some (z, [])
  | o :: os => '(z, r) ← exec z o; '(z, rs) ← run z os; Some (z, r :: rs)
  end.

Context {laws : MapLaws D}.

Lemma zset_exec z l o : holds z l -> op_ok o -> Z.of_nat (length l) + 1 < 2 ^ 64 ->
  exists z', exec z o = Some (z', (spec_exec l o).2) /\ holds z' (spec_exec l o).1.
Proof.
  intros Hh Hok Hroom. destruct o as [rng bits m sc|m|m|m]; cbn [exec spec_exec fst snd].
  - destruct (holds_add z l rng bits m sc Hh Hok Hroom) as (z' & -> & Hz'). by exists z'.
  - destruct (holds_erase z l m Hh) as (z' & -> & Hz'). by exists z'.
  - destruct Hh as (l' & Hx & <-). destruct (exact_score z l' m Hx) as (z' & -> & Hz' & _). exists z'. rewrite score_of_canons. split; [done|].
    by exists l'.
  - destruct Hh as (l' & Hx & <-). destruct (exact_rank z l' m Hx) as (z' & -> & Hz' & _). exists z'.
    cbn [mbind option_bind]. unfold rank_of. rewrite index_of_canons. split; [done|]. by exists l'.
Qed.

Lemma zset_run z l os : holds z l -> Forall op_ok os -> Z.of_nat (length l) + Z.of_nat (length os) < 2 ^ 64 ->
  exists z', run z os = Some (z', (spec_run l os).2) /\ holds z' (spec_run l os).1 /\
    Z.of_nat (length (spec_run l os).1) < 2 ^ 64.
Proof.
  intros Hh Hok. revert z l Hh. induction Hok as [|o os Ho _ IH]; intros z l Hh Hroom; cbn [run spec_run length] in *.
  { exists z. split_and!; [done..|cbn; lia]. }
  destruct (zset_exec z l o Hh Ho) as (z1 & -> & Hh1); [lia|]. cbn [mbind option_bind].
  pose proof (spec_exec_length l o) as Hl. destruct (spec_exec l o) as [l1 r]. cbn [fst snd] in *.
  destruct (IH z1 l1 Hh1) as (z2 & -> & Hh2 & Hl2); [lia|]. exists z2. by destruct (spec_run l1 os).
Qed.

(** What the readers return on a set that holds [l]. *)
Lemma zset_readers z l : holds z l ->
  size z = length l /\ canons <$> all z = Some l /\
  (forall start stop, 0 <= start -> start <= stop + 1 ->
     canons <$> range z start stop = Some (take (Z.to_nat (stop + 1 - start)) (drop (Z.to_nat start) l))) /\
  (forall r, SkipList.range_ok r ->
     canons <$> rangeByScore z r = Some (List.filter (fun e => SkipList.containsScore r (snd e)) l)) /\
  (forall r, canons <$> rangeByLex z r = Some (if lexIsEmpty r then [] else lex_run r false l)).
Proof.
  intros (l' & Hx & <-). pose proof Hx as [(_ & _ & Hok) _]. split_and!.
  - rewrite (exact_size z l' Hx). unfold canons. by rewrite length_map.
  - by rewrite (exact_all z l' Hx).
  - intros start stop H0 H1. rewrite (exact_range z l') by done. cbn. f_equal. unfold canons. rewrite <- firstn_map, <- skipn_map. done.
  - intros r Hr. rewrite (exact_rangeByScore z l') by done. cbn. f_equal. by apply canons_filter_score.
  - intros r. rewrite (exact_rangeByLex z l') by done. cbn. f_equal. destruct (lexIsEmpty r); [done|]. apply canons_lex_run.
Qed.
End Sequences.

(** C26: a sorted set behaves as a list of (member, score) pairs without
    repeated members, ordered by score and then by member, through every
    sequence of additions, removals, score and rank queries and whatever random
    bits the skip list draws, in both of its encodings and across the
    conversion between them: every call returns what it returns on the list,
    the final [all()], [range()], [rangeByScore()] and [rangeByLex()] are the
    list, its slice, its filter and its run, and a copy holds the same list.
    Scores are compared up to the sign of zero, which the listpack's text
    encoding does not keep. *)
Theorem zset_refines_sorted_map {D : Type -> Type} {ops : MapOps D} {laws : MapLaws D} (os : list op) :
  Forall op_ok os -> Z.of_nat (length os) < 2 ^ 64 ->
  let l := (spec_run [] os).1 in
  entries_ok l /\
  exists z : t D, run new os = Some (z, (spec_run [] os).2) /\
    size z = length l /\ canons <$> all z = Some l /\
    (forall start stop, 0 <= start -> start <= stop + 1 ->
       canons <$> range z start stop = Some (take (Z.to_nat (stop + 1 - start)) (drop (Z.to_nat start) l))) /\
    (forall r, SkipList.range_ok r ->
       canons <$> rangeByScore z r = Some (List.filter (fun e => SkipList.containsScore r (snd e)) l)) /\
    (forall r, canons <$> rangeByLex z r = Some (if lexIsEmpty r then [] else lex_run r false l)) /\
    (forall rng, exists z', copy z rng = Some z' /\ canons <$> all z' = Some l).
Proof.
  intros Hok Hlen l. destruct (zset_run new [] os zset_holds_new Hok Hlen) as (z & Hrun & Hh & Hl).
  split; [by eapply holds_ok|]. exists z. split; [done|]. destruct (zset_readers z l Hh) as (H1 & H2 & H3 & H4 & H5). split_and!; [done..|].
  intros rng. destruct (holds_copy z l rng Hh Hl) as (z' & -> & Hh'). exists z'. split; [done|]. by apply zset_readers.
Qed.

Lemma zset_refines_sorted_map_witness :
  let os := [OAdd (fun _ _ => 0) (fun _ => 0) (str "b") (Double.of_int64 2); OAdd (fun _ _ => 0) (fun _ => 0) (str "a") (Double.of_int64 2);
             OAdd (fun _ _ => 0) (fun _ => 0) (str "c") (Double.of_int64 1); ORank (str "b"); OErase (str "a"); OScore (str "c")] in
  let l := (spec_run [] os).1 in
  exists z : t Dict.dict, run (ops := Dict.dict_ops) (new (ops := Dict.dict_ops)) os = Some (z, (spec_run [] os).2) /\
    canons <$> all z = Some l.
Proof.
  set (os := [_; _; _; _; _; _]). intros l. edestruct (zset_refines_sorted_map (D := Dict.dict) (laws := Dict.dict_laws) os) as (_ & z & H1 & _ & H2 & _).
  - unfold os. repeat constructor; cbn [op_ok]; unfold Double.ok, is_u64; vm_compute; done || (split; [intros [=]|done]).
  - done.
  - exists z. split; [exact H1|exact H2].
Defined.

End ZSetValue.
