(* ===== verification/SetValue.v ===== *)
(** * SetValue: the set type and its three encodings

    [SetValue] of [src/core/collections.h] and [src/core/collections.cpp]: an
    intset while every member is an integer, a listpack while small, a hash
    table otherwise. [holds s X] says that [s] represents the finite set of
    strings [X] whatever its encoding. *)

From Stdlib Require Import ZArith Lia.
From stdpp Require Import base list numbers gmap option strings.
From S2P Require Import Prelude Encoding IntSet Limits Listpack MapSpec Dict.

Module SetValue.
Section SetValue.
Context {D : Type -> Type} {ops : MapOps D}.

Record t := mk {
  encoding_ : ObjEncoding; intset_ : IntSet.t; listpack_ : bytes; table_ : D bool }.

Definition new : t := mk EIntSet IntSet.empty Listpack.new mnew.

Definition set_intset (s : t) (i : IntSet.t) : t := mk (encoding_ s) i (listpack_ s) (table_ s).
Definition set_listpack (s : t) (lp : bytes) : t := mk (encoding_ s) (intset_ s) lp (table_ s).
Definition set_table (s : t) (tb : D bool) : t := mk (encoding_ s) (intset_ s) (listpack_ s) tb.

Definition size (s : t) : nat :=
  match encoding_ s with
  | EIntSet => length (IntSet.values_ (intset_ s))
  | EListPack => Listpack.numElements (listpack_ s)
  | _ => msize (table_ s)
  end.

Definition contains (s : t) (member : bytes) : option (t * bool) :=
  match encoding_ s with
  | EIntSet =>
      match stringToInt64 member with
      | None => Some (s, false)
      | Some value => Some (s, IntSet.contains (intset_ s) value)
      end
  | EListPack => Some (s, is_some (Listpack.find (listpack_ s) member 0 1))
  | _ =>
      '(tb, found) ← mfind (table_ s) member;
      Some (set_table s tb, is_some found)
  end.

Definition convertToListpack (s : t) : t :=
  match encoding_ s with
  | EIntSet =>
      mk EListPack (IntSet.clear (intset_ s))
        (foldl Listpack.appendInteger (listpack_ s) (IntSet.values_ (intset_ s))) (table_ s)
  | _ => s
  end.

Fixpoint insert_members (tb : D bool) (ms : list bytes) : option (D bool) :=
  match ms with
  | [] => Some tb
  | m :: ms => '(tb, _) ← minsert tb m true; insert_members tb ms
  end.

Definition convertToHashTable (s : t) : option t :=
  match encoding_ s with
  | EHashTable => Some s
  | EIntSet =>
      tb ← insert_members (table_ s) (map to_string (IntSet.values_ (intset_ s)));
      Some (mk EHashTable (IntSet.clear (intset_ s)) (listpack_ s) tb)
  | _ =>
      tb ← insert_members (table_ s) (Listpack.toStrings (listpack_ s));
      Some (mk EHashTable (intset_ s) (Listpack.clear (listpack_ s)) tb)
  end.

Definition adoptIntSet (s : t) (i : IntSet.t) : option t :=
  let s := mk EIntSet i (listpack_ s) (table_ s) in
  let n := length (IntSet.values_ i) in
  if (set_max_intset_entries defaultLimits <? n)%nat then
    if (n <=? set_max_listpack_entries defaultLimits)%nat then Some (convertToListpack s)
    else convertToHashTable s
  else Some s.

Definition adoptListpack (s : t) (lp : bytes) : option t :=
  let s := mk EListPack (intset_ s) lp (table_ s) in
  if (set_max_listpack_entries defaultLimits <? Listpack.numElements lp)%nat
  then convertToHashTable s else Some s.

(** The first block of [add]: what is done while the set is an intset. The
    result is either a returned value or the state to fall through with. *)
Definition add_intset (s : t) (member : bytes) : option (t * option bool) :=
  match encoding_ s with
  | EIntSet =>
      let n := length (IntSet.values_ (intset_ s)) in
      match stringToInt64 member with
      | Some value =>
          if IntSet.contains (intset_ s) value then Some (s, Some false)
          else if (n <? set_max_intset_entries defaultLimits)%nat then
            let r := IntSet.add (intset_ s) value in
            Some (set_intset s r.1, Some r.2)
          else if (n <? set_max_listpack_entries defaultLimits)%nat
          then Some (convertToListpack s, None)
          else s ← convertToHashTable s; Some (s, None)
      | None =>
          if (set_max_listpack_entries defaultLimits <=? n)%nat
             || (set_max_listpack_value defaultLimits <? length member)%nat
          then s ← convertToHashTable s; Some (s, None)
          else Some (convertToListpack s, None)
      end
  | _ => Some (s, None)
  end.

(** The second block, for a listpack. *)
Definition add_listpack (s : t) (member : bytes) : option (t * option bool) :=
  match encoding_ s with
  | EListPack =>
      if is_some (Listpack.find (listpack_ s) member 0 1) then Some (s, Some false)
      else if (set_max_listpack_entries defaultLimits <=? Listpack.numElements (listpack_ s))%nat
              || (set_max_listpack_value defaultLimits <? length member)%nat
      then s ← convertToHashTable s; Some (s, None)
      else Some (set_listpack s (Listpack.append (listpack_ s) member), Some true)
  | _ => Some (s, None)
  end.

(** The last block, for the hash table. *)
Definition add_table (s : t) (member : bytes) : option (t * bool) :=
  '(tb, found) ← mfind (table_ s) member;
  if is_some found then Some (set_table s tb, false)
  else
    '(tb, _) ← minsert (tb : D bool) member true;
    Some (set_table s tb, true).

Definition add (s : t) (member : bytes) : option (t * bool) :=
  '(s, returned) ← add_intset s member;
  match returned with
  | Some b => Some (s, b)
  | None =>
      '(s, returned) ← add_listpack (s : t) member;
      match returned with
      | Some b => Some (s, b)
      | None => add_table s member
      end
  end.

Definition erase (s : t) (member : bytes) : option (t * bool) :=
  match encoding_ s with
  | EIntSet =>
      match stringToInt64 member with
      | None => Some (s, false)
      | Some value =>
          let r := IntSet.remove (intset_ s) value in
          Some (set_intset s r.1, r.2)
      end
  | EListPack =>
      match Listpack.find (listpack_ s) member 0 1 with
      | None => Some (s, false)
      | Some index =>
          let r := Listpack.eraseAt (listpack_ s) index in
          Some (set_listpack s r.1, r.2)
      end
  | _ =>
      '(tb, b) ← merase (table_ s) member;
      Some (set_table s tb, b)
  end.

Definition members (s : t) : list bytes :=
  match encoding_ s with
  | EIntSet => map to_string (IntSet.values_ (intset_ s))
  | EListPack => Listpack.toStrings (listpack_ s)
  | _ => map fst (mforEach (table_ s))
  end.

(** [rng] is what the table's generator returns and [gen] the function's own. *)
Definition randomMember (s : t) (rng : nat -> Z) (gen : Z) : option bytes :=
  if (size s =? 0)%nat then None
  else
    match encoding_ s with
    | EHashTable => fst <$> mrandom (table_ s) rng
    | _ => members s !! Z.to_nat (gen mod Z.of_nat (length (members s)))
    end.

(** The copy constructor. *)
Fixpoint add_all (s : t) (ms : list bytes) : option t :=
  match ms with
  | [] => Some s
  | m :: ms => '(s, _) ← add s m; add_all s ms
  end.

Definition copy (other : t) : option t := add_all new (members other).
End SetValue.
Arguments t : clear implicits.

(** ** Representation *)

Lemma values_i64 i : IntSet.inv i -> Forall is_i64 (IntSet.values_ i).
Proof.
  intros [_ Hf]. eapply Forall_impl; [exact Hf|]. intros v Hv.
  apply (IntSet.fits_mono (IntSet.width_ i) IntSet.Int64); [|done].
  unfold IntSet.width_le. by destruct (IntSet.width_ i).
Qed.

(** The decimal strings of the members of an intset. *)
Definition int_members (i : IntSet.t) : list bytes := map to_string (IntSet.values_ i).

Lemma int_members_elem i member :
  IntSet.inv i ->
  member ∈ int_members i <-> exists v, stringToInt64 member = Some v /\ v ∈ IntSet.elems i.
Proof.
  intros Hi. pose proof (values_i64 i Hi) as H64. rewrite Forall_forall in H64.
  unfold int_members, IntSet.elems. rewrite list_elem_of_fmap. split.
  - intros (v & -> & Hv). exists v. split; [|by apply elem_of_list_to_set].
    apply stringToInt64_to_string. by apply H64.
  - intros (v & Hs & Hv). exists v. split; [by apply stringToInt64_sound in Hs as [_ ->]|].
    by apply elem_of_list_to_set in Hv.
Qed.

Lemma ascending_NoDup l : IntSet.strictly_ascending l -> NoDup l.
Proof.
  intros Hs. induction Hs as [|x l _ IH Hx]; constructor; [|done].
  intros Hin. rewrite Forall_forall in Hx. specialize (Hx x Hin). lia.
Qed.

Lemma int_members_NoDup i : IntSet.inv i -> NoDup (int_members i).
Proof.
  intros Hi. pose proof (values_i64 i Hi) as H64. pose proof (ascending_NoDup _ (IntSet.inv_sorted _ Hi)) as Hn.
  unfold int_members. induction Hn as [|x l Hx _ IH]; cbn [map]; constructor.
  - intros (y & Hy & Hin)%list_elem_of_fmap. rewrite Forall_forall in H64.
    assert (x = y) as ->; [|done].
    apply to_string_inj; [| |done]; apply H64; apply elem_of_cons; auto.
  - apply IH. by inversion H64.
Qed.

Section Refinement.
Context {D : Type -> Type} {ops : MapOps D} {laws : MapLaws D}.
Implicit Types (s : t D) (X : gset bytes).

Definition holds s X : Prop :=
  match encoding_ s with
  | EIntSet =>
      IntSet.inv (intset_ s) /\ X = list_to_set (int_members (intset_ s)) /\
      (length (IntSet.values_ (intset_ s)) <= 512)%nat /\
      Listpack.stores (listpack_ s) [] /\ represents (table_ s) ∅
  | EListPack =>
      exists vs, Listpack.stores (listpack_ s) vs /\ NoDup vs /\ X = list_to_set vs /\
        (length vs <= 128)%nat /\ represents (table_ s) ∅
  | EHashTable => exists m, represents (table_ s) m /\ X = dom m
  | _ => False
  end.

Lemma set_holds_new : holds new ∅.
Proof.
  unfold holds. cbn. split_and!; [apply IntSet.empty_inv|done|lia|apply Listpack.stores_new|].
  apply represents_new.
Qed.

Lemma insert_members_ok (tb : D bool) m ms :
  represents tb m ->
  exists tb' m', insert_members tb ms = Some tb' /\ represents tb' m' /\ dom m' = dom m ∪ list_to_set ms.
Proof.
  revert tb m. induction ms as [|x ms IH]; intros tb m Hr.
  { exists tb, m. split; [done|]. split; [done|]. cbn. set_solver. }
  cbn [insert_members]. destruct (represents_insert _ _ _ x true Hr) as (tb1 & -> & Hr1). cbn.
  destruct (IH tb1 _ Hr1) as (tb2 & m2 & -> & Hr2 & Hd). exists tb2, m2. split; [done|]. split; [done|].
  rewrite Hd, dom_insert_L. set_solver.
Qed.

Lemma append_ints lp vs ns :
  Listpack.stores lp vs -> Forall is_i64 ns ->
  Listpack.stores (foldl Listpack.appendInteger lp ns) (vs ++ map to_string ns).
Proof.
  intros Hs Hn. revert lp vs Hs. induction Hn as [|n ns Hn _ IH]; intros lp vs Hs; cbn [foldl map].
  - by rewrite app_nil_r.
  - rewrite cons_middle, (app_assoc vs). apply IH. by apply Listpack.stores_appendInteger.
Qed.

Lemma convertToListpack_holds s X :
  holds s X -> encoding_ s = EIntSet -> (length (IntSet.values_ (intset_ s)) <= 128)%nat ->
  holds (convertToListpack s) X /\ encoding_ (convertToListpack s) = EListPack.
Proof.
  unfold holds, convertToListpack. intros Hh He Hl. rewrite He in *. cbn. split; [|done].
  destruct Hh as (Hi & -> & _ & Hs & Hr). exists (int_members (intset_ s)). split_and!.
  - apply (append_ints _ []); [done|]. by apply values_i64.
  - by apply int_members_NoDup.
  - done.
  - unfold int_members. by rewrite length_map.
  - done.
Qed.

Lemma convertToHashTable_holds s X :
  holds s X ->
  exists s', convertToHashTable s = Some s' /\ holds s' X /\ encoding_ s' = EHashTable.
Proof.
  unfold holds, convertToHashTable. intros Hh. destruct (encoding_ s) eqn:He; try done.
  - destruct Hh as (vs & Hs & Hn & -> & _ & Hr). rewrite (Listpack.stores_toStrings _ _ Hs).
    destruct (insert_members_ok _ ∅ vs Hr) as (tb & m & -> & Hr' & Hd). cbn.
    eexists. split; [done|]. split; [|done]. exists m. split; [done|]. rewrite Hd. set_solver.
  - destruct Hh as (Hi & -> & _ & Hs & Hr). change (map to_string _) with (int_members (intset_ s)).
    destruct (insert_members_ok _ ∅ (int_members (intset_ s)) Hr) as (tb & m & -> & Hr' & Hd). cbn.
    eexists. split; [done|]. split; [|done]. exists m. split; [done|]. rewrite Hd. set_solver.
  - exists s. by rewrite He.
Qed.

Lemma members_holds s X : holds s X -> NoDup (members s) /\ list_to_set (members s) = X /\ length (members s) = size s.
Proof.
  unfold holds, members, size. intros Hh. destruct (encoding_ s) eqn:He; try done.
  - destruct Hh as (vs & Hs & Hn & -> & _ & Hr). rewrite (Listpack.stores_toStrings _ _ Hs).
    by rewrite (Listpack.stores_numElements _ _ Hs).
  - destruct Hh as (Hi & -> & _ & Hs & Hr). split_and!; [by apply int_members_NoDup|done|by rewrite length_map].
  - destruct Hh as (m & Hr & ->). rewrite (represents_size _ _ _ Hr).
    pose proof (represents_forEach _ _ _ Hr) as Hp. split_and!.
    + rewrite Hp. apply NoDup_fst_map_to_list.
    + apply set_eq. intros x. rewrite elem_of_list_to_set, elem_of_dom.
      pose proof (perm_absent _ _ x Hp) as Ha. split.
      * intros Hx. apply not_eq_None_Some. intros Hn. by apply Ha in Hn.
      * intros [v Hv]. destruct (decide (x ∈ (mforEach (table_ s)).*1)) as [|Hn]; [done|].
        apply Ha in Hn. congruence.
    + by rewrite length_map, Hp, length_map_to_list.
Qed.

Lemma randomMember_holds s X rng gen : holds s X ->
  match randomMember s rng gen with Some x => x ∈ X | None => X = ∅ end.
Proof.
  intros Hh. destruct (members_holds s X Hh) as (_ & HX & Hl). unfold randomMember. destruct (Nat.eqb_spec (size s) 0) as [Hz|Hz].
  { rewrite Hz in Hl. by destruct (members s). }
  assert (0 < Z.of_nat (length (members s))) as Hpos by (rewrite Hl; lia).
  assert (match members s !! Z.to_nat (gen mod Z.of_nat (length (members s))) with Some x => x ∈ X | None => X = ∅ end) as Hi.
  { destruct (members s !! _) as [x|] eqn:Hx; [rewrite <- HX; apply elem_of_list_to_set; by eapply list_elem_of_lookup_2|].
    apply lookup_ge_None in Hx. pose proof (Z.mod_pos_bound gen _ Hpos). lia. }
  destruct (encoding_ s) eqn:He; try exact Hi. unfold holds in Hh. rewrite He in Hh. destruct Hh as (m & Hr & ->).
  pose proof (represents_random _ _ _ rng Hr) as Hm. destruct (mrandom (table_ s) rng) as [[k v]|]; cbn; [|by rewrite Hm, dom_empty_L].
  apply elem_of_dom. by eexists.
Qed.

(** Membership in the listpack encoding. *)
Lemma find_member lp vs x :
  Listpack.stores lp vs ->
  match Listpack.find lp x 0 1 with
  | Some i => vs !! i = Some x
  | None => x ∉ vs
  end.
Proof.
  intros Hs. pose proof (Listpack.find_stores lp vs x 0 1 Hs) as Hf.
  destruct (Listpack.find lp x 0 1) as [i|]; [by destruct Hf as (_ & _ & ? & _)|].
  intros (j & Hj)%list_elem_of_lookup.
  destruct (list_find (x =.) vs) as [[k y]|] eqn:Hl.
  - apply list_find_Some in Hl as (Hk & <- & Hmin). apply (Hf k).
    split; [lia|]. split; [by rewrite Nat.mod_1_r|]. split; [done|]. intros n Hn _ Hx.
    by apply (Hmin n x Hx); [lia|].
  - apply list_find_None in Hl. rewrite Forall_forall in Hl. apply (Hl x); [|done].
    by eapply list_elem_of_lookup_2.
Qed.

Lemma set_contains_holds s X x :
  holds s X ->
  exists s', contains s x = Some (s', bool_decide (x ∈ X)) /\ holds s' X /\ encoding_ s' = encoding_ s.
Proof.
  intros Hh. unfold contains. pose proof Hh as Hh'. unfold holds in Hh.
  destruct (encoding_ s) eqn:He; try done.
  - destruct Hh as (vs & Hs & Hn & -> & _ & Hr). exists s. split; [|done]. do 2 f_equal.
    pose proof (find_member _ _ x Hs) as Hf. destruct (Listpack.find _ x 0 1) as [i|].
    + symmetry. apply bool_decide_eq_true, elem_of_list_to_set. by eapply list_elem_of_lookup_2.
    + symmetry. apply bool_decide_eq_false. by rewrite elem_of_list_to_set.
  - destruct Hh as (Hi & -> & _ & Hs & Hr). pose proof (int_members_elem _ x Hi) as Hm.
    exists s. split; [|done].
    destruct (stringToInt64 x) as [v|] eqn:Hv; do 2 f_equal.
    + rewrite (IntSet.contains_spec _ _ Hi). apply bool_decide_ext. rewrite elem_of_list_to_set, Hm.
      split; [by exists v|]. intros (w & ? & ?). by simplify_eq.
    + symmetry. apply bool_decide_eq_false. rewrite elem_of_list_to_set, Hm. by intros (w & ? & _).
  - destruct Hh as (m & Hr & ->). destruct (represents_find _ _ _ x Hr) as (tb & -> & Hr'). cbn.
    exists (set_table s tb). split.
    + do 2 f_equal. destruct (m !! x) eqn:Hx; symmetry.
      * apply bool_decide_eq_true, elem_of_dom. by eexists.
      * by apply bool_decide_eq_false, not_elem_of_dom.
    + split; [|done]. unfold holds. cbn. rewrite He. by exists m.
Qed.

(** What a block of [add] leaves: it returned with the right answer, or it
    falls through with the set unchanged in an encoding accepted by [next]. *)
Definition block_ok X x (next : ObjEncoding -> Prop) (r : t D * option bool) : Prop :=
  match r.2 with
  | Some b => b = bool_decide (x ∉ X) /\ holds r.1 ({[x]} ∪ X)
  | None => holds r.1 X /\ next (encoding_ r.1)
  end.

Lemma add_intset_ok s X x :
  holds s X ->
  exists r, add_intset s x = Some r /\ block_ok X x (fun e => e <> EIntSet) r.
Proof.
  intros Hh. unfold add_intset. destruct (decide (encoding_ s = EIntSet)) as [He|He].
  2:{ exists (s, None). split; [by destruct (encoding_ s)|done]. }
  rewrite He. destruct (convertToHashTable_holds s X Hh) as (st & Hst & Hht & Het).
  pose proof Hh as Hh'. unfold holds in Hh. rewrite He in Hh. destruct Hh as (Hi & HX & Hl & Hs & Hr).
  pose proof (int_members_elem _ x Hi) as Hm. destruct (stringToInt64 x) as [v|] eqn:Hv.
  - rewrite (IntSet.contains_spec _ _ Hi). case_bool_decide as Hin.
    { exists (s, Some false). split; [done|]. assert (x ∈ X).
      { rewrite HX, elem_of_list_to_set, Hm. by exists v. }
      split; [symmetry; apply bool_decide_eq_false; set_solver|].
      by replace ({[x]} ∪ X) with X by set_solver. }
    destruct (Nat.ltb_spec (length (IntSet.values_ (intset_ s))) (set_max_intset_entries defaultLimits)) as [Hlt|Hge].
    + eexists. split; [done|]. pose proof (proj1 (stringToInt64_sound _ _ Hv)) as H64.
      pose proof (IntSet.add_spec (intset_ s) v Hi H64) as Ha.
      destruct (IntSet.add (intset_ s) v) as [i' b] eqn:Hadd. destruct Ha as (Hi' & Hel & -> & _).
      assert (x ∉ X) as HxX.
      { rewrite HX, elem_of_list_to_set, Hm. intros (w & ? & ?). by simplify_eq. }
      split; cbn.
      * by rewrite !bool_decide_true.
      * unfold holds. cbn. rewrite He. split_and!; [done| | |done|done].
        -- rewrite HX. apply set_eq. intros y. rewrite elem_of_union, elem_of_singleton, !elem_of_list_to_set.
           rewrite !int_members_elem by done. rewrite Hel. split.
           ++ intros [->|(w & ? & ?)]; [exists v|exists w]; set_solver.
           ++ intros (w & Hw & [->%elem_of_singleton|]%elem_of_union); [left|right; by exists w].
              apply stringToInt64_sound in Hw as [_ ->], Hv as [_ ->]. done.
        -- unfold IntSet.add in Hadd. destruct (_ && _); simplify_eq; [done|]. cbn.
           destruct (IntSet.upgradeTo_spec (intset_ s) (IntSet.widthFor v)) as [-> _].
           unfold vinsert. rewrite !length_app. cbn in *. rewrite length_take, length_drop. lia.
    + destruct (Nat.ltb_spec (length (IntSet.values_ (intset_ s))) (set_max_listpack_entries defaultLimits)); [cbn in *; lia|].
      rewrite Hst. cbn. eexists. split; [done|]. split; [done|]. cbn. congruence.
  - destruct (_ || _) eqn:Hlim.
    + rewrite Hst. cbn. eexists. split; [done|]. split; [done|]. cbn. congruence.
    + bools. cbn in *. destruct (convertToListpack_holds s X Hh' He ltac:(lia)) as [Hc Hec].
      eexists. split; [done|]. split; [done|]. cbn. congruence.
Qed.

Lemma add_listpack_ok s X x :
  holds s X -> encoding_ s <> EIntSet ->
  exists r, add_listpack s x = Some r /\ block_ok X x (fun e => e = EHashTable) r.
Proof.
  intros Hh Hne. unfold add_listpack. destruct (convertToHashTable_holds s X Hh) as (st & Hst & Hht & Het).
  pose proof Hh as Hh'. unfold holds in Hh. destruct (encoding_ s) eqn:He; try done.
  - destruct Hh as (vs & Hs & Hn & -> & Hl & Hr). pose proof (find_member _ _ x Hs) as Hf.
    destruct (Listpack.find _ x 0 1) as [i|]; cbn [is_some].
    + eexists. split; [done|]. assert (x ∈ vs) by by eapply list_elem_of_lookup_2.
      split; [symmetry; apply bool_decide_eq_false; set_solver|].
      cbn. by replace ({[x]} ∪ list_to_set vs) with (list_to_set vs : gset bytes) by set_solver.
    + destruct (_ || _) eqn:Hlim.
      * rewrite Hst. cbn. eexists. split; [done|]. by split.
      * bools. rewrite (Listpack.stores_numElements _ _ Hs) in *. cbn in *.
        eexists. split; [done|]. split; [symmetry; apply bool_decide_eq_true; set_solver|].
        unfold holds. cbn. rewrite He. exists (vs ++ [x]). split_and!; [|..|done].
        -- apply Listpack.stores_append; [done|]. unfold Listpack.storable. lia.
        -- apply NoDup_app. split; [done|]. split; [|apply NoDup_singleton]. set_solver.
        -- set_solver.
        -- rewrite length_app. cbn. lia.
  - eexists. split; [done|]. by split.
Qed.

Lemma add_table_ok s X x :
  holds s X -> encoding_ s = EHashTable ->
  exists s', add_table s x = Some (s', bool_decide (x ∉ X)) /\ holds s' ({[x]} ∪ X).
Proof.
  intros Hh He. unfold holds in Hh. rewrite He in Hh. destruct Hh as (m & Hr & ->).
  unfold add_table. destruct (represents_find _ _ _ x Hr) as (tb & -> & Hr1). cbn.
  destruct (m !! x) as [b|] eqn:Hx; cbn [is_some].
  - assert (x ∈ dom m) by (apply elem_of_dom; by eexists).
    eexists. rewrite bool_decide_false by set_solver. split; [done|].
    unfold holds. cbn. rewrite He. exists m. split; [done|]. set_solver.
  - destruct (represents_insert _ _ _ x true Hr1) as (tb2 & -> & Hr2). cbn.
    eexists. rewrite bool_decide_true by by apply not_elem_of_dom. split; [done|].
    unfold holds. cbn. rewrite He. eexists. split; [done|]. by rewrite dom_insert_L.
Qed.

Lemma add_holds s X x :
  holds s X ->
  exists s', add s x = Some (s', bool_decide (x ∉ X)) /\ holds s' ({[x]} ∪ X).
Proof.
  intros Hh. unfold add. destruct (add_intset_ok s X x Hh) as ([s1 [b|]] & -> & Hb); cbn in *.
  { destruct Hb as [-> ?]. by exists s1. }
  destruct Hb as [Hh1 He1].
  destruct (add_listpack_ok s1 X x Hh1 He1) as ([s2 [b|]] & -> & Hb2); cbn in *.
  { destruct Hb2 as [-> ?]. by exists s2. }
  destruct Hb2 as [Hh2 He2]. by apply add_table_ok.
Qed.

Lemma set_erase_holds s X x :
  holds s X ->
  exists s', erase s x = Some (s', bool_decide (x ∈ X)) /\ holds s' (X ∖ {[x]}) /\
    encoding_ s' = encoding_ s.
Proof.
  intros Hh. unfold erase. pose proof Hh as Hh'. unfold holds in Hh.
  destruct (encoding_ s) eqn:He; try done.
  - destruct Hh as (vs & Hs & Hn & -> & Hl & Hr). pose proof (find_member _ _ x Hs) as Hf.
    destruct (Listpack.find _ x 0 1) as [i|].
    + assert (x ∈ vs) by by eapply list_elem_of_lookup_2. apply lookup_lt_Some in Hf as Hlt.
      destruct (Listpack.stores_exec _ _ (Listpack.EraseAt i) Hs I) as [Hs' Hb].
      cbn [Listpack.exec Listpack.spec_exec] in Hs', Hb.
      destruct (Nat.ltb_spec i (length vs)); [|lia]. rewrite Hb.
      eexists. rewrite bool_decide_true by set_solver. split; [done|]. split; [|done].
      unfold holds. cbn. rewrite He. exists (delete i vs). rewrite delete_take_drop.
      pose proof (list_delete_perm _ _ _ Hf) as Hp. rewrite delete_take_drop in Hp.
      rewrite Hp in Hn. apply NoDup_cons in Hn as [Hx Hn].
      split_and!; [done|done| |rewrite length_app, length_take, length_drop; lia|done].
      apply set_eq. intros y. rewrite elem_of_difference, !elem_of_list_to_set, elem_of_singleton.
      rewrite Hp at 1. rewrite elem_of_cons. split; [naive_solver|].
      intros Hy. split; [by right|]. intros ->. done.
    + exists s. rewrite bool_decide_false by set_solver. split; [done|]. split; [|done].
      by replace (list_to_set vs ∖ {[x]}) with (list_to_set vs : gset bytes) by set_solver.
  - destruct Hh as (Hi & HX & Hl & Hs & Hr). pose proof (int_members_elem _ x Hi) as Hm.
    destruct (stringToInt64 x) as [v|] eqn:Hv.
    + pose proof (IntSet.remove_spec (intset_ s) v Hi) as Hrm.
      destruct (IntSet.remove (intset_ s) v) as [i' b] eqn:Hrem. destruct Hrm as (Hi' & Hel & -> & _).
      eexists. split; [do 2 f_equal; apply bool_decide_ext|split; [|done]].
      * rewrite HX, elem_of_list_to_set, Hm. split; [by exists v|]. intros (w & ? & ?). by simplify_eq.
      * unfold holds. cbn. rewrite He. split_and!; [done| | |done|done].
        -- rewrite HX. apply set_eq. intros y.
           rewrite elem_of_difference, elem_of_singleton, !elem_of_list_to_set, !int_members_elem, Hel by done.
           split.
           ++ intros [(w & Hw & Hin) Hne]. exists w. split; [done|]. apply elem_of_difference. split; [done|].
              intros ->%elem_of_singleton. apply Hne.
              apply stringToInt64_sound in Hw as [_ ->], Hv as [_ ->]. done.
           ++ intros (w & Hw & [Hin Hne]%elem_of_difference). split; [by exists w|]. intros ->.
              rewrite Hv in Hw. simplify_eq. set_solver.
        -- unfold IntSet.remove in Hrem. destruct (_ || _); simplify_eq; [done|]. cbn.
           unfold verase. rewrite length_app, length_take, length_drop. lia.
    + exists s. assert (x ∉ X) as Hx.
      { rewrite HX, elem_of_list_to_set, Hm. by intros (w & ? & _). }
      rewrite bool_decide_false by done. split; [done|]. split; [|done].
      by replace (X ∖ {[x]}) with X by set_solver.
  - destruct Hh as (m & Hr & ->). destruct (represents_erase _ _ _ x Hr) as (tb & -> & Hr'). cbn.
    eexists. split; [do 2 f_equal; apply bool_decide_ext; by rewrite elem_of_dom, not_eq_None_Some|].
    split; [|done]. unfold holds. cbn. rewrite He. eexists. split; [done|]. by rewrite dom_delete_L.
Qed.

Lemma add_all_ok s X ms :
  holds s X -> exists s', add_all s ms = Some s' /\ holds s' (X ∪ list_to_set ms).
Proof.
  revert s X. induction ms as [|x ms IH]; intros s X Hh; cbn [add_all].
  - exists s. split; [done|]. by replace (X ∪ list_to_set []) with X by set_solver.
  - destruct (add_holds s X x Hh) as (s1 & -> & Hh1). cbn.
    destruct (IH s1 _ Hh1) as (s2 & -> & Hh2). exists s2. split; [done|].
    by replace (X ∪ ({[x]} ∪ list_to_set ms)) with ({[x]} ∪ X ∪ list_to_set ms) by set_solver.
Qed.

Lemma set_copy_holds s X : holds s X -> exists s', copy s = Some s' /\ holds s' X.
Proof.
  intros Hh. unfold copy. destruct (members_holds s X Hh) as (_ & Hm & _).
  destruct (add_all_ok new ∅ (members s) set_holds_new) as (s' & -> & Hh'). exists s'. split; [done|].
  rewrite Hm in Hh'. by replace (∅ ∪ X) with X in Hh' by set_solver.
Qed.

(** *** Encodings only advance *)

Definition rank (e : ObjEncoding) : nat :=
  match e with EIntSet => 0 | EListPack => 1 | _ => 2 end.

Lemma convertToHashTable_rank s s' : convertToHashTable s = Some s' -> rank (encoding_ s') = 2%nat.
Proof.
  unfold convertToHashTable. destruct (encoding_ s) eqn:He; intros H;
    try (destruct (insert_members _ _) as [tb|]; cbn in H; by simplify_eq).
  simplify_eq. by rewrite He.
Qed.

Lemma rank_le_2 e : (rank e <= 2)%nat.
Proof. destruct e; cbn; lia. Qed.

Lemma add_rank s x s' b : add s x = Some (s', b) -> (rank (encoding_ s) <= rank (encoding_ s'))%nat.
Proof.
  assert (forall s r, add_intset s x = Some r -> (rank (encoding_ s) <= rank (encoding_ r.1))%nat) as H1.
  { intros s0 r. unfold add_intset. destruct (encoding_ s0) eqn:He; intros H; simplify_eq/=; try (rewrite He; done).
    cbn. lia. }
  assert (forall s r, add_listpack s x = Some r -> (rank (encoding_ s) <= rank (encoding_ r.1))%nat) as H2.
  { intros s0 r. unfold add_listpack. destruct (encoding_ s0) eqn:He; intros H; simplify_eq/=; try (rewrite He; cbn; lia).
    destruct (is_some _); [simplify_eq/=; by rewrite He|]. destruct (_ || _).
    - destruct (convertToHashTable s0) as [s1|] eqn:Hc; simplify_eq/=. rewrite (convertToHashTable_rank _ _ Hc). cbn. lia.
    - simplify_eq/=. by rewrite He. }
  unfold add. destruct (add_intset s x) as [[s1 [b1|]]|] eqn:E1; cbn; intros H; simplify_eq.
  - by apply H1 in E1.
  - destruct (add_listpack s1 x) as [[s2 [b2|]]|] eqn:E2; cbn in H; simplify_eq.
    + apply H1 in E1. apply H2 in E2. cbn in *. lia.
    + apply H1 in E1. apply H2 in E2. cbn in *. unfold add_table in H.
      destruct (mfind _ _) as [[tb f]|]; cbn in H; [|done]. destruct (is_some f).
      * simplify_eq/=. lia.
      * destruct (minsert _ _ _) as [[tb2 ?]|]; cbn in H; simplify_eq/=. lia.
Qed.

(** *** Operation sequences *)

Inductive op := Add (x : bytes) | Contains (x : bytes) | Erase (x : bytes).

Definition exec s (o : op) : option (t D * bool) :=
  match o with Add x => add s x | Contains x => contains s x | Erase x => erase s x end.

Definition spec_exec X (o : op) : gset bytes * bool :=
  match o with
  | Add x => ({[x]} ∪ X, bool_decide (x ∉ X))
  | Contains x => (X, bool_decide (x ∈ X))
  | Erase x => (X ∖ {[x]}, bool_decide (x ∈ X))
  end.

Fixpoint run s (os : list op) : option (t D * list bool) :=
  match os with
  | [] => Some (s, [])
  | o :: os => '(s, r) ← exec s o; '(s, rs) ← run s os; Some (s, r :: rs)
  end.

Fixpoint spec_run X (os : list op) : gset bytes * list bool :=
  match os with
  | [] => (X, [])
  | o :: os =>
      let '(X, r) := spec_exec X o in
      let '(X, rs) := spec_run X os in
      (X, r :: rs)
  end.

Lemma set_exec_holds s X o :
  holds s X ->
  exists s', exec s o = Some (s', (spec_exec X o).2) /\ holds s' (spec_exec X o).1 /\
    (rank (encoding_ s) <= rank (encoding_ s'))%nat.
Proof.
  intros Hh. destruct o as [x|x|x]; cbn [exec spec_exec fst snd].
  - destruct (add_holds s X x Hh) as (s' & Ha & ?). exists s'. split_and!; [done..|]. by eapply add_rank.
  - destruct (set_contains_holds s X x Hh) as (s' & -> & ? & He). exists s'. rewrite He. by split_and!.
  - destruct (set_erase_holds s X x Hh) as (s' & -> & ? & He). exists s'. rewrite He. by split_and!.
Qed.

Lemma set_run_holds s X os :
  holds s X ->
  exists s', run s os = Some (s', (spec_run X os).2) /\ holds s' (spec_run X os).1 /\
    (rank (encoding_ s) <= rank (encoding_ s'))%nat.
Proof.
  revert s X. induction os as [|o os IH]; intros s X Hh; cbn [run spec_run]; [by exists s; split_and!|].
  destruct (set_exec_holds s X o Hh) as (s1 & -> & Hh1 & Hr1). cbn [mbind option_bind].
  destruct (spec_exec X o) as [X1 r]. destruct (IH s1 X1 Hh1) as (s2 & -> & Hh2 & Hr2).
  exists s2. destruct (spec_run X1 os). split_and!; [done..|lia].
Qed.
End Refinement.

(** a set behaves as a finite set of strings through every sequence of
    additions, membership tests and removals, in whichever of its three
    encodings it is: every call returns what it returns on the set, the final
    [members()] are its elements without repetition, and [size()] counts them. *)
Theorem set_refines_gset {D : Type -> Type} {ops : MapOps D} {laws : MapLaws D} (os : list op) :
  exists s : t D, run new os = Some (s, (spec_run ∅ os).2) /\
    NoDup (members s) /\ list_to_set (members s) = (spec_run ∅ os).1 /\ size s = length (members s).
Proof.
  destruct (set_run_holds new ∅ os set_holds_new) as (s & -> & Hh & _). exists s. split; [done|].
  by destruct (members_holds s _ Hh) as (? & ? & ?).
Qed.

Lemma set_refines_gset_witness :
  let os := [Add (str "3"); Add (str "-1"); Add (str "x"); Contains (str "3"); Erase (str "03")] in
  exists s : t Dict.dict, run (ops := Dict.dict_ops) (new (ops := Dict.dict_ops)) os = Some (s, (spec_run ∅ os).2) /\
    NoDup (members (ops := Dict.dict_ops) s) /\
    list_to_set (members (ops := Dict.dict_ops) s) = (spec_run ∅ os).1 /\
    size (ops := Dict.dict_ops) s = length (members (ops := Dict.dict_ops) s).
Proof.
  exact (set_refines_gset (laws := Dict.dict_laws)
    [Add (str "3"); Add (str "-1"); Add (str "x"); Contains (str "3"); Erase (str "03")]).
Defined.

(** a set's encoding only advances (intset, listpack, hash table), never
    back, across any operations; an intset holds at most 512 members and a
    listpack at most 128 in every reachable state. *)
Theorem set_encoding_advances {D : Type -> Type} {ops : MapOps D} {laws : MapLaws D} (os1 os2 : list op) :
  exists (s1 s2 : t D) rs1 rs2, run new os1 = Some (s1, rs1) /\ run s1 os2 = Some (s2, rs2) /\
    (rank (encoding_ s1) <= rank (encoding_ s2))%nat /\
    (encoding_ s1 = EIntSet -> (size s1 <= set_max_intset_entries defaultLimits)%nat) /\
    (encoding_ s1 = EListPack -> (size s1 <= set_max_listpack_entries defaultLimits)%nat).
Proof.
  destruct (set_run_holds new ∅ os1 set_holds_new) as (s1 & Hr1 & Hh1 & _).
  destruct (set_run_holds s1 _ os2 Hh1) as (s2 & Hr2 & _ & Hr).
  eexists s1, s2, _, _. split; [done|]. split; [done|]. split; [done|].
  unfold holds, size in *. split; intros He; rewrite He in *.
  - by destruct Hh1 as (_ & _ & ? & _).
  - destruct Hh1 as (vs & Hs & _ & _ & Hl & _). by rewrite (Listpack.stores_numElements _ _ Hs).
Qed.

Lemma set_encoding_advances_witness :
  let os1 := [Add (str "3")] in
  let os2 := [Add (str "x"); Erase (str "x")] in
  exists (s1 s2 : t Dict.dict) rs1 rs2,
    run (ops := Dict.dict_ops) (new (ops := Dict.dict_ops)) os1 = Some (s1, rs1) /\
    run (ops := Dict.dict_ops) s1 os2 = Some (s2, rs2) /\
    (rank (encoding_ s1) <= rank (encoding_ s2))%nat /\
    (encoding_ s1 = EIntSet -> (size (ops := Dict.dict_ops) s1 <= set_max_intset_entries defaultLimits)%nat) /\
    (encoding_ s1 = EListPack -> (size (ops := Dict.dict_ops) s1 <= set_max_listpack_entries defaultLimits)%nat).
Proof.
  exact (set_encoding_advances (laws := Dict.dict_laws) [Add (str "3")] [Add (str "x"); Erase (str "x")]).
Defined.
End SetValue.
