(* ===== verification/ListValue.v ===== *)
(** * ListValue: the list type as a sequence of listpack nodes

    [ListValue] of [src/core/collections.h] and [src/core/collections.cpp]: a
    quicklist, that is a non-empty vector of listpacks whose concatenation is
    the list. [holds l vs] says that [l] represents the sequence [vs]. *)

From Stdlib Require Import ZArith Lia.
From stdpp Require Import base sets list numbers option strings.
From S2P Require Import Prelude Encoding Limits Listpack.

Module ListValue.

Record t := mk { encoding_ : ObjEncoding; nodes_ : list bytes }.

Definition new : t := mk EListPack [Listpack.new].

Definition nodes_size (nodes : list bytes) : nat :=
  foldl (fun total node => total + Listpack.numElements node)%nat 0%nat nodes.

Definition size (l : t) : nat := nodes_size (nodes_ l).

Definition maybeConvert (nodes : list bytes) : t :=
  mk (if (length nodes =? 1)%nat
         && (Listpack.totalBytes (nodes !!! 0%nat) <=? list_max_listpack_bytes defaultLimits)%nat
      then EListPack else EQuickList) nodes.

Definition adoptNodes (l : t) (nodes : list bytes) : t * bool :=
  if (nodes_size nodes =? 0)%nat then (l, false) else (maybeConvert nodes, true).

Definition wouldOverflowNode (node value : bytes) : bool :=
  let projected := (Listpack.totalBytes node + length value + 11)%nat in
  (0 <? Listpack.numElements node)%nat && (list_max_listpack_bytes defaultLimits <? projected)%nat.

(** [nodes_.back()] *)
Definition back (nodes : list bytes) : bytes := nodes !!! (length nodes - 1)%nat.

(** The append of one value that [pushBack] and [rebuildFrom] share. *)
Definition push_last (nodes : list bytes) (value : bytes) : list bytes :=
  let nodes := if wouldOverflowNode (back nodes) value then nodes ++ [Listpack.new] else nodes in
  <[(length nodes - 1)%nat := Listpack.append (back nodes) value]> nodes.

Definition pushBack (l : t) (value : bytes) : t := maybeConvert (push_last (nodes_ l) value).

Definition pushFront (l : t) (value : bytes) : t :=
  let nodes := nodes_ l in
  let nodes := if wouldOverflowNode (nodes !!! 0%nat) value then Listpack.new :: nodes else nodes in
  maybeConvert (<[0%nat := (Listpack.insertAt (nodes !!! 0%nat) 0 value).1]> nodes).

(** The end of both pops: erase element [i] of node [n], drop the node when it
    became empty unless it is the only one. *)
Definition pop_at (nodes : list bytes) (n i : nat) : list bytes :=
  let node := (Listpack.eraseAt (nodes !!! n) i).1 in
  let nodes := <[n := node]> nodes in
  if (Listpack.numElements node =? 0)%nat && (1 <? length nodes)%nat
  then delete n nodes else nodes.

(** The loop of [popFront]: [todo] nodes remain, the next is number [n]. *)
Fixpoint popFront_loop (l : t) (todo n : nat) : t * option bytes :=
  match todo with
  | O => (l, None)
  | S todo =>
      let node := nodes_ l !!! n in
      if (Listpack.numElements node =? 0)%nat then popFront_loop l todo (S n)
      else
        match Listpack.get node 0 with
        | None => (l, None)
        | Some element => (maybeConvert (pop_at (nodes_ l) n 0), Some (Listpack.toString element))
        end
  end.

Definition popFront (l : t) : t * option bytes := popFront_loop l (length (nodes_ l)) 0.

(** The loop of [popBack]: the next node is number [todo - 1]. *)
Fixpoint popBack_loop (l : t) (todo : nat) : t * option bytes :=
  match todo with
  | O => (l, None)
  | S todo =>
      let node := nodes_ l !!! todo in
      let count := Listpack.numElements node in
      if (count =? 0)%nat then popBack_loop l todo
      else
        match Listpack.get node (count - 1) with
        | None => (l, None)
        | Some element =>
            (maybeConvert (pop_at (nodes_ l) todo (count - 1)), Some (Listpack.toString element))
        end
  end.

Definition popBack (l : t) : t * option bytes := popBack_loop l (length (nodes_ l)).

(** [resolveIndex]: [None] is [npos]. *)
Definition resolveIndex (l : t) (index : Z) : option nat :=
  let length := Z.of_nat (size l) in
  let index := if index <? 0 then index + length else index in
  if (index <? 0) || (length <=? index) then None else Some (Z.to_nat index).

Definition toVector (l : t) : list bytes :=
  foldl (fun out node => out ++ map Listpack.toString (Listpack.forEach node)) [] (nodes_ l).

Definition rebuildFrom (items : list bytes) : t := maybeConvert (foldl push_last [Listpack.new] items).

Fixpoint at_loop (nodes : list bytes) (remaining : nat) : option bytes :=
  match nodes with
  | [] => None
  | node :: nodes =>
      let count := Listpack.numElements node in
      if (remaining <? count)%nat then Listpack.toString <$> Listpack.get node remaining
      else at_loop nodes (remaining - count)
  end.

Definition at_ (l : t) (index : Z) : option bytes :=
  match resolveIndex l index with
  | None => None
  | Some resolved => at_loop (nodes_ l) resolved
  end.

Fixpoint set_loop (nodes : list bytes) (remaining : nat) (value : bytes) : list bytes * bool :=
  match nodes with
  | [] => ([], false)
  | node :: nodes =>
      let count := Listpack.numElements node in
      if (remaining <? count)%nat then
        let r := Listpack.replaceAt node remaining value in (r.1 :: nodes, r.2)
      else
        let r := set_loop nodes (remaining - count) value in (node :: r.1, r.2)
  end.

(** [set] leaves the encoding as it was. *)
Definition set (l : t) (index : Z) (value : bytes) : t * bool :=
  match resolveIndex l index with
  | None => (l, false)
  | Some resolved =>
      let r := set_loop (nodes_ l) resolved value in (mk (encoding_ l) r.1, r.2)
  end.

Definition range (l : t) (start stop : Z) : list bytes :=
  let len := Z.of_nat (size l) in
  if len =? 0 then []
  else
    let start := if start <? 0 then start + len else start in
    let stop := if stop <? 0 then stop + len else stop in
    let start := if start <? 0 then 0 else start in
    let stop := if len <=? stop then len - 1 else stop in
    if (stop <? start) || (len <=? start) then []
    else take (Z.to_nat (stop + 1 - start)) (drop (Z.to_nat start) (toVector l)).

Fixpoint indexOf_loop (nodes : list bytes) (value : bytes) (index : nat) : option nat :=
  match nodes with
  | [] => None
  | node :: nodes =>
      match Listpack.find node value 0 1 with
      | Some found => Some (index + found)%nat
      | None => indexOf_loop nodes value (index + Listpack.numElements node)
      end
  end.

Definition indexOf (l : t) (value : bytes) : option nat := indexOf_loop (nodes_ l) value 0.

(** The forward loop of [removeValue] over the items. *)
Fixpoint remove_loop (value : bytes) (limit removed : Z) (items : list bytes) : list bytes * Z :=
  match items with
  | [] => ([], removed)
  | item :: items' =>
      if removed <? limit then
        if item =b? value then remove_loop value limit (removed + 1) items'
        else let r := remove_loop value limit removed items' in (item :: r.1, r.2)
      else (items, removed)
  end.

Definition removeValue (l : t) (value : bytes) (count : Z) : t * Z :=
  let items := toVector l in
  let limit := if count =? 0 then Z.of_nat (length items) else Z.abs count in
  let r :=
    if 0 <=? count then remove_loop value limit 0 items
    else
      (* the same loop with reverse iterators *)
      let r := remove_loop value limit 0 (rev items) in (rev r.1, r.2) in
  (if 0 <? r.2 then rebuildFrom r.1 else l, r.2).

Definition trim (l : t) (start stop : Z) : t := rebuildFrom (range l start stop).

Example list_sample_ops :
  let l := pushFront (pushBack (pushBack new (str "a")) (str "10")) (str "z") in
  toVector l = [str "z"; str "a"; str "10"] /\ at_ l (-1) = Some (str "10") /\
  range l (-2) 100 = [str "a"; str "10"] /\ (popFront l).2 = Some (str "z") /\
  toVector (removeValue l (str "a") (-1)).1 = [str "z"; str "10"].
Proof. vm_compute. done. Qed.

(** ** Representation *)

(** Node by node. *)
Abbreviation nodes_hold := (Forall2 Listpack.stores).

(** No node of several is empty. *)
Definition dense (vss : list (list bytes)) : Prop := length vss = 1%nat \/ Forall (fun vs => vs <> []) vss.

Definition holds (l : t) (vs : list bytes) : Prop :=
  nodes_ l <> [] /\ Forall Listpack.storable vs /\
  exists vss, nodes_hold (nodes_ l) vss /\ concat vss = vs /\ dense vss.

Lemma dense_last vss w : dense (vss ++ [w]) -> Forall (fun vs => vs <> []) vss.
Proof.
  intros [H|H]; [|by apply Forall_app in H as [? _]]. rewrite length_app in H. cbn in H. assert (length vss = 0%nat) as Hz by lia. by apply nil_length_inv in Hz as ->.
Qed.

Lemma overflow_dense nodes vss v n ws : nodes_hold nodes vss -> dense vss -> nodes !! n = Some ws -> wouldOverflowNode ws v = true ->
  Forall (fun vs => vs <> []) vss.
Proof.
  intros H [Hd|Hd] Hn Ho; [|done]. unfold wouldOverflowNode in Ho. apply andb_true_iff in Ho as [Ho _]. apply Nat.ltb_lt in Ho.
  destruct (Forall2_lookup_l _ _ _ _ _ H Hn) as (vs & Hvs & Hs). rewrite (Listpack.stores_numElements _ _ Hs) in Ho.
  destruct vss as [|vs' [|? ?]]; try (cbn in Hd; lia). destruct n; [|done]. injection Hvs as ->. constructor; [destruct vs; [cbn in Ho; lia|done]|constructor].
Qed.

Lemma nodes_size_ok nodes vss : nodes_hold nodes vss -> nodes_size nodes = length (concat vss).
Proof.
  intros H. unfold nodes_size.
  assert (forall n, foldl (fun total node => total + Listpack.numElements node)%nat n nodes
    = (n + length (concat vss))%nat) as Hf; [|apply Hf].
  induction H as [|x vs nodes vss Hx _ IH]; intros n; cbn [foldl concat length]; [lia|].
  rewrite IH, (Listpack.stores_numElements _ _ Hx), length_app. lia.
Qed.

Lemma list_size_holds l vs : holds l vs -> size l = length vs.
Proof. intros (_ & _ & vss & H & <- & _). by apply nodes_size_ok. Qed.

Lemma toVector_holds l vs : holds l vs -> toVector l = vs.
Proof.
  intros (_ & _ & vss & H & <- & _). unfold toVector.
  assert (forall out, foldl (fun out node => out ++ map Listpack.toString (Listpack.forEach node)) out (nodes_ l)
    = out ++ concat vss) as Hf; [|apply Hf].
  induction H as [|x vs nodes vss Hx _ IH]; intros out; cbn [foldl concat]; [by rewrite app_nil_r|].
  rewrite IH, <- app_assoc. change (map _ _) with (Listpack.toStrings x).
  by rewrite (Listpack.stores_toStrings _ _ Hx).
Qed.

(** *** Pushing *)

Lemma back_app ns n : back (ns ++ [n]) = n.
Proof.
  unfold back. rewrite length_app. cbn. replace (length ns + 1 - 1)%nat with (length ns) by lia.
  rewrite lookup_total_app_r, Nat.sub_diag by lia. done.
Qed.

Lemma insert_back {A} (ns : list A) n x :
  <[(length (ns ++ [n]) - 1)%nat := x]> (ns ++ [n]) = ns ++ [x].
Proof.
  rewrite length_app. cbn. replace (length ns + 1 - 1)%nat with (length ns + 0)%nat by lia.
  by rewrite insert_app_r.
Qed.

Lemma push_last_ok nodes vss v :
  nodes <> [] -> nodes_hold nodes vss -> dense vss -> Listpack.storable v ->
  exists vss', nodes_hold (push_last nodes v) vss' /\ concat vss' = concat vss ++ [v] /\ dense vss' /\ push_last nodes v <> [].
Proof.
  intros Hne H Hd Hv. unfold push_last.
  assert (exists nodes' vss', (if wouldOverflowNode (back nodes) v then nodes ++ [Listpack.new] else nodes) = nodes' /\
    nodes' <> [] /\ nodes_hold nodes' vss' /\ concat vss' = concat vss /\
    (forall vs1 w, vss' = vs1 ++ [w] -> Forall (fun vs => vs <> []) vs1)) as (nodes' & vss' & -> & Hne' & H' & Hc & Hd').
  { destruct (wouldOverflowNode _ _) eqn:Ho; [|exists nodes, vss; split_and!; [done..|]; intros vs1 w ->; by eapply dense_last].
    exists (nodes ++ [Listpack.new]), (vss ++ [[]]). split_and!; [done|by destruct nodes| | |].
    - apply Forall2_app; [done|]. constructor; [apply Listpack.stores_new|constructor].
    - rewrite concat_app. cbn. by rewrite app_nil_r.
    - intros vs1 w [-> _]%app_inj_tail. eapply (overflow_dense nodes vs1 v (length nodes - 1)); [done|done| |exact Ho].
      unfold back. apply list_lookup_lookup_total_lt. destruct nodes; [done|cbn; lia]. }
  destruct nodes' as [|n ns _] using rev_ind; [done|]. rewrite back_app, insert_back.
  apply Forall2_app_inv_l in H' as (vs1 & vs2 & H1 & H2 & ->).
  apply Forall2_cons_inv_l in H2 as (w & vs3 & Hw & H3 & ->). apply Forall2_nil_inv_l in H3 as ->.
  exists (vs1 ++ [w ++ [v]]). split_and!; [|..|by destruct ns].
  - apply Forall2_app; [done|]. constructor; [|constructor]. by apply Listpack.stores_append.
  - rewrite <- Hc, !concat_app. cbn. by rewrite !app_nil_r, app_assoc.
  - right. apply Forall_app. split; [by eapply Hd'|]. constructor; [by destruct w|constructor].
Qed.

Lemma maybeConvert_nodes nodes : nodes_ (maybeConvert nodes) = nodes.
Proof. done. Qed.

Lemma pushBack_holds l vs v : holds l vs -> Listpack.storable v -> holds (pushBack l v) (vs ++ [v]).
Proof.
  intros (Hne & Hs & vss & H & <- & Hd) Hv. destruct (push_last_ok _ _ v Hne H Hd Hv) as (vss' & H' & Hc & Hd' & Hne').
  split; [done|]. split; [apply Forall_app; split; [done|by constructor]|]. by exists vss'.
Qed.

Lemma pushFront_holds l vs v : holds l vs -> Listpack.storable v -> holds (pushFront l v) (v :: vs).
Proof.
  intros (Hne & Hs & vss & H & <- & Hd) Hv. unfold pushFront.
  assert (exists nodes' vss', (if wouldOverflowNode (nodes_ l !!! 0%nat) v then Listpack.new :: nodes_ l else nodes_ l) = nodes' /\
    nodes' <> [] /\ nodes_hold nodes' vss' /\ concat vss' = concat vss /\
    (length vss' = 1%nat \/ Forall (fun vs => vs <> []) (tail vss'))) as (nodes' & vss' & -> & Hne' & H' & Hc & Hd').
  { destruct (wouldOverflowNode _ _) eqn:Ho.
    - exists (Listpack.new :: nodes_ l), ([] :: vss). split_and!; try done; [constructor; [apply Listpack.stores_new|done]|].
      right. cbn [tail]. eapply (overflow_dense (nodes_ l) vss v 0); [done|done| |exact Ho].
      apply list_lookup_lookup_total_lt. destruct (nodes_ l); [done|cbn; lia].
    - exists (nodes_ l), vss. split_and!; [done..|]. destruct Hd as [Hd|Hd]; [by left|right]. destruct Hd; [constructor|done]. }
  destruct H' as [|n w ns ws Hn H']; [done|].
  destruct (Listpack.stores_insertAt n w 0 v Hn Hv) as [Hi _]. cbn [Listpack.spec_exec] in Hi.
  destruct (Nat.leb_spec 0 (length w)); [|lia]. cbn in Hi. rewrite drop_0 in Hi.
  split; [done|]. split; [by constructor|]. exists ((v :: w) :: ws). cbn. split; [by constructor|].
  split; [by rewrite <- Hc|]. destruct Hd' as [Hd'|Hd']; [by left|right; by constructor].
Qed.

Lemma rebuildFrom_holds items : Forall Listpack.storable items -> holds (rebuildFrom items) items.
Proof.
  intros Hs. assert (forall nodes vss, nodes <> [] -> nodes_hold nodes vss -> dense vss ->
    exists vss', nodes_hold (foldl push_last nodes items) vss' /\ concat vss' = concat vss ++ items /\ dense vss' /\
      foldl push_last nodes items <> []) as Hf.
  { induction Hs as [|v items Hv _ IH]; intros nodes vss Hne H Hd; cbn [foldl].
    - exists vss. by rewrite app_nil_r.
    - destruct (push_last_ok nodes vss v Hne H Hd Hv) as (vss1 & H1 & Hc1 & Hd1 & Hne1).
      destruct (IH _ _ Hne1 H1 Hd1) as (vss2 & H2 & Hc2 & Hd2 & Hne2). exists vss2. split_and!; [done| |done|done].
      by rewrite Hc2, Hc1, <- app_assoc. }
  destruct (Hf [Listpack.new] [[]]) as (vss & H & Hc & Hd & Hne); [done| |by left|].
  { constructor; [apply Listpack.stores_new|constructor]. }
  split; [done|]. split; [done|]. by exists vss.
Qed.

Lemma new_holds : holds new [].
Proof.
  split; [done|]. split; [constructor|]. exists [[]]. split; [|split; [done|by left]].
  constructor; [apply Listpack.stores_new|constructor].
Qed.

(** *** Popping *)

Lemma concat_insert_at {A} (vss : list (list A)) n ws x :
  vss !! n = Some ws ->
  concat (<[n := x]> vss) = concat (take n vss) ++ x ++ concat (drop (S n) vss) /\
  concat vss = concat (take n vss) ++ ws ++ concat (drop (S n) vss).
Proof.
  intros Hn. apply lookup_lt_Some in Hn as Hlt. split.
  - rewrite insert_take_drop by done. by rewrite concat_app.
  - rewrite <- (take_drop_middle vss n ws Hn) at 1. by rewrite concat_app.
Qed.

Lemma node_at nodes vss n ws :
  nodes_hold nodes vss -> vss !! n = Some ws -> Listpack.stores (nodes !!! n) ws.
Proof.
  intros H Hn. destruct (Forall2_lookup_r _ _ _ _ _ H Hn) as (node & Hnode & Hs).
  by rewrite (list_lookup_total_correct _ _ _ Hnode).
Qed.

Lemma pop_at_ok nodes vss n ws i :
  nodes_hold nodes vss -> dense vss -> vss !! n = Some ws -> (i < length ws)%nat ->
  exists vss', nodes_hold (pop_at nodes n i) vss' /\ pop_at nodes n i <> [] /\ dense vss' /\
    concat vss' = concat (<[n := delete i ws]> vss).
Proof.
  intros H Hd Hn Hi. pose proof (node_at _ _ _ _ H Hn) as Hs.
  destruct (Listpack.stores_exec _ _ (Listpack.EraseAt i) Hs I) as [Hs' _].
  cbn [Listpack.exec Listpack.spec_exec] in Hs'. destruct (Nat.ltb_spec i (length ws)); [|lia].
  cbn [fst] in Hs'. rewrite <- delete_take_drop in Hs'. unfold pop_at.
  set (node := (Listpack.eraseAt (nodes !!! n) i).1) in *.
  assert (nodes_hold (<[n := node]> nodes) (<[n := delete i ws]> vss)) as H' by by apply Forall2_insert.
  assert (n < length nodes)%nat as Hlt.
  { apply lookup_lt_Some in Hn. by rewrite (Forall2_length _ _ _ H). }
  destruct (_ && _) eqn:Hc.
  - apply andb_true_iff in Hc as [Hz%Nat.eqb_eq H1%Nat.ltb_lt].
    rewrite (Listpack.stores_numElements _ _ Hs') in Hz. apply nil_length_inv in Hz. rewrite Hz in *.
    rewrite length_insert in H1. exists (delete n (<[n := []]> vss)). split_and!.
    + by apply Forall2_delete.
    + intros He%(f_equal length). rewrite length_delete in He; [rewrite length_insert in He; cbn in He; lia|].
      exists node. by apply list_lookup_insert_eq.
    + right. rewrite delete_take_drop, take_insert_ge, drop_insert_lt, <- delete_take_drop by lia. apply Forall_delete. destruct Hd as [Hd|Hd]; [|done]. apply Forall2_length in H. lia.
    + apply lookup_lt_Some in Hn. rewrite delete_take_drop, concat_app.
      rewrite <- (take_drop_middle (<[n := []]> vss) n []) at 3 by by apply list_lookup_insert_eq.
      by rewrite concat_app.
  - exists (<[n := delete i ws]> vss). split_and!; [done| | |done].
    + intros He%(f_equal length). rewrite length_insert in He. cbn in He. lia.
    + destruct Hd as [Hd|Hd]; [left; by rewrite length_insert|]. rewrite (Listpack.stores_numElements _ _ Hs'), length_insert in Hc.
      apply andb_false_iff in Hc as [Hc|Hc]; bools.
      * right. apply Forall_insert; [done|]. intros He. by rewrite He in Hc.
      * left. rewrite length_insert, <- (Forall2_length _ _ _ H). lia.
Qed.

Lemma storable_sub vs vs' : Forall Listpack.storable vs -> vs' ⊆ vs -> Forall Listpack.storable vs'.
Proof. rewrite !Forall_forall. set_solver. Qed.

Lemma concat_all_empty {A} (vss : list (list A)) : Forall (fun vs => vs = []) vss -> concat vss = [].
Proof. induction 1 as [|vs vss -> _ IH]; [done|]. exact IH. Qed.

Lemma popFront_holds l vs :
  holds l vs ->
  match vs with
  | [] => popFront l = (l, None)
  | v :: vs' => (popFront l).2 = Some v /\ holds (popFront l).1 vs'
  end.
Proof.
  intros (Hne & Hst & vss & H & Hc & Hd). unfold popFront.
  assert (forall todo n, (todo + n)%nat = length (nodes_ l) -> Forall (fun vs => vs = []) (take n vss) ->
    match vs with
    | [] => popFront_loop l todo n = (l, None)
    | v :: vs' => (popFront_loop l todo n).2 = Some v /\ holds (popFront_loop l todo n).1 vs'
    end) as Hf; [|apply Hf; [lia|constructor]].
  pose proof (Forall2_length _ _ _ H) as Hl.
  induction todo as [|todo IH]; intros n Hn Hem; cbn [popFront_loop].
  { rewrite firstn_all2 in Hem by lia. apply concat_all_empty in Hem. rewrite <- Hc, Hem. done. }
  destruct (lookup_lt_is_Some_2 vss n) as [ws Hws]; [lia|].
  pose proof (node_at _ _ _ _ H Hws) as Hs.
  rewrite (Listpack.stores_numElements _ _ Hs), (Listpack.stores_get _ _ _ Hs).
  destruct (concat_insert_at vss n ws (tail ws) Hws) as [Hc1 Hc2].
  rewrite (concat_all_empty _ Hem) in Hc1, Hc2.
  destruct ws as [|w ws]; cbn [length Nat.eqb].
  - apply IH; [lia|]. rewrite (take_S_r _ _ _ Hws). apply Forall_app. split; [done|by constructor].
  - cbn [lookup list_lookup fmap option_fmap option_map].
    destruct (pop_at_ok _ _ n (w :: ws) 0 H Hd Hws) as (vss' & H' & Hne' & Hd' & Hc'); [cbn; lia|].
    cbn in Hc'. rewrite <- Hc, Hc2. cbn. rewrite Listpack.toString_elem. split; [done|].
    split; [done|]. split.
    + apply (storable_sub vs); [done|]. rewrite <- Hc, Hc2. set_solver.
    + exists vss'. split; [done|]. cbn [tail] in Hc1. by rewrite Hc', Hc1.
Qed.

Lemma popBack_holds l vs :
  holds l vs ->
  match rev vs with
  | [] => popBack l = (l, None)
  | v :: vs' => (popBack l).2 = Some v /\ holds (popBack l).1 (rev vs')
  end.
Proof.
  intros (Hne & Hst & vss & H & Hc & Hd). unfold popBack.
  assert (forall todo, (todo <= length (nodes_ l))%nat -> Forall (fun vs => vs = []) (drop todo vss) ->
    match rev vs with
    | [] => popBack_loop l todo = (l, None)
    | v :: vs' => (popBack_loop l todo).2 = Some v /\ holds (popBack_loop l todo).1 (rev vs')
    end) as Hf.
  2:{ apply Hf; [lia|]. rewrite drop_ge; [constructor|]. by rewrite (Forall2_length _ _ _ H). }
  pose proof (Forall2_length _ _ _ H) as Hl.
  induction todo as [|n IH]; intros Hn Hem; cbn [popBack_loop].
  { rewrite drop_0 in Hem. apply concat_all_empty in Hem. rewrite <- Hc, Hem. done. }
  destruct (lookup_lt_is_Some_2 vss n) as [ws Hws]; [lia|].
  pose proof (node_at _ _ _ _ H Hws) as Hs.
  rewrite (Listpack.stores_numElements _ _ Hs), (Listpack.stores_get _ _ _ Hs).
  destruct ws as [|w ws _] using rev_ind.
  - cbn [length Nat.eqb]. apply IH; [lia|]. rewrite (drop_S _ _ _ Hws). by constructor.
  - rewrite length_app. cbn [length]. destruct (Nat.eqb_spec (length ws + 1) 0); [lia|].
    replace (length ws + 1 - 1)%nat with (length ws) by lia.
    rewrite lookup_app_r, Nat.sub_diag by lia. cbn [lookup list_lookup fmap option_fmap option_map].
    destruct (concat_insert_at vss n (ws ++ [w]) ws Hws) as [Hc1 Hc2].
    rewrite (concat_all_empty _ Hem), app_nil_r in Hc1, Hc2.
    destruct (pop_at_ok _ _ n (ws ++ [w]) (length ws) H Hd Hws) as (vss' & H' & Hne' & Hd' & Hc');
      [rewrite length_app; cbn; lia|].
    rewrite delete_middle, app_nil_r, Hc1 in Hc'.
    rewrite app_assoc in Hc2. rewrite <- Hc, Hc2, rev_app_distr. cbn [rev app].
    rewrite Listpack.toString_elem, rev_involutive. split; [done|]. split; [done|]. split.
    + apply (storable_sub vs); [done|]. rewrite <- Hc, Hc2. set_solver.
    + exists vss'. split; [done|]. by rewrite Hc'.
Qed.

(** *** Indexing *)

(** The position a possibly negative index denotes in a list of length [n]. *)
Definition position (n : nat) (index : Z) : option nat :=
  let i := if index <? 0 then index + Z.of_nat n else index in
  if (0 <=? i) && (i <? Z.of_nat n) then Some (Z.to_nat i) else None.

Lemma resolveIndex_holds l vs index : holds l vs -> resolveIndex l index = position (length vs) index.
Proof.
  intros Hh. unfold resolveIndex, position. rewrite (list_size_holds _ _ Hh).
  set (i := if index <? 0 then _ else _).
  destruct (Z.ltb_spec i 0), (Z.leb_spec 0 i), (Z.leb_spec (Z.of_nat (length vs)) i),
    (Z.ltb_spec i (Z.of_nat (length vs))); try lia; done.
Qed.

Lemma position_lt n index i : position n index = Some i -> (i < n)%nat.
Proof. unfold position. case_if; [|done]. bools. intros [= <-]. lia. Qed.

Lemma at_loop_ok nodes vss r : nodes_hold nodes vss -> at_loop nodes r = concat vss !! r.
Proof.
  intros H. revert r. induction H as [|x vs nodes vss Hx _ IH]; intros r; cbn [at_loop concat]; [done|].
  rewrite (Listpack.stores_numElements _ _ Hx), (Listpack.stores_get _ _ _ Hx).
  destruct (Nat.ltb_spec r (length vs)).
  - rewrite lookup_app_l by done. destruct (vs !! r) as [v|]; [|done]. cbn. by rewrite Listpack.toString_elem.
  - rewrite lookup_app_r by done. apply IH.
Qed.

Lemma at_holds l vs index : holds l vs -> at_ l index = (i ← position (length vs) index; vs !! i).
Proof.
  intros Hh. unfold at_. rewrite (resolveIndex_holds _ _ _ Hh).
  destruct (position _ _) as [i|]; [|done]. destruct Hh as (_ & _ & vss & H & <- & _). by apply at_loop_ok.
Qed.

Lemma set_loop_ok nodes vss r v :
  nodes_hold nodes vss -> (r < length (concat vss))%nat -> Listpack.storable v ->
  exists vss', (set_loop nodes r v).2 = true /\ nodes_hold (set_loop nodes r v).1 vss' /\
    concat vss' = <[r := v]> (concat vss) /\ Forall2 (fun vs vs' => vs = [] <-> vs' = []) vss vss'.
Proof.
  intros H. revert r. induction H as [|x vs nodes vss Hx H IH]; intros r Hr Hv; cbn [set_loop concat] in *; [cbn in Hr; lia|].
  rewrite (Listpack.stores_numElements _ _ Hx). rewrite length_app in Hr.
  destruct (Nat.ltb_spec r (length vs)) as [Hlt|Hge].
  - destruct (Listpack.stores_replaceAt x vs r v Hx Hv) as [H1 H2]. cbn [Listpack.spec_exec] in H1, H2.
    destruct (Nat.ltb_spec r (length vs)); [|lia]. exists (<[r := v]> vs :: vss). cbn.
    split_and!; [done|by constructor|by rewrite insert_app_l|]. constructor; [|apply Forall_Forall2_diag, Forall_forall; done].
    split; [by intros ->|]. intros He%(f_equal length). rewrite length_insert in He. by apply nil_length_inv in He.
  - destruct (IH (r - length vs)%nat ltac:(lia) Hv) as (vss' & H1 & H2 & H3 & H4). exists (vs :: vss'). cbn.
    split_and!; [done|by constructor| |by constructor]. rewrite H3.
    replace r with (length vs + (r - length vs))%nat at 2 by lia. by rewrite insert_app_r.
Qed.

Lemma list_set_holds l vs index v :
  holds l vs -> Listpack.storable v ->
  match position (length vs) index with
  | Some i => (set l index v).2 = true /\ holds (set l index v).1 (<[i := v]> vs)
  | None => set l index v = (l, false)
  end.
Proof.
  intros Hh Hv. unfold set. rewrite (resolveIndex_holds _ _ _ Hh).
  destruct (position (length vs) index) as [i|] eqn:Hp; [|done]. apply position_lt in Hp.
  destruct Hh as (Hne & Hs & vss & H & Hc & Hd). rewrite <- Hc in Hp.
  destruct (set_loop_ok _ _ i v H Hp Hv) as (vss' & H1 & H2 & H3 & H4). rewrite Hc in *. split; [done|].
  split; [|split].
  - cbn. intros He. rewrite He in H2. apply Forall2_nil_inv_l in H2 as ->. cbn in H3.
    apply (f_equal length) in H3. rewrite length_insert in H3. cbn in H3. lia.
  - by apply Forall_insert.
  - exists vss'. split_and!; [done|done|]. destruct Hd as [Hd|Hd]; [left; by rewrite <- (Forall2_length _ _ _ H4)|right].
    apply (Forall2_Forall_r _ _ _ _ H4). apply (Forall_impl _ _ _ Hd). intros x Hx y Hxy. tauto.
Qed.

(** The bounds [range] works with: negative positions count from the end, and
    the first bound is clipped at the front. *)
Definition norm (n : nat) (i : Z) : Z := if i <? 0 then i + Z.of_nat n else i.

Definition in_window (n : nat) (start stop : Z) (j : Z) : bool :=
  (Z.max 0 (norm n start) <=? j) && (j <=? norm n stop).

Lemma range_holds l vs start stop i :
  holds l vs ->
  range l start stop !! i =
    let j := Z.to_nat (Z.max 0 (norm (length vs) start)) in
    if Z.of_nat (j + i) <=? norm (length vs) stop then vs !! (j + i)%nat else None.
Proof.
  intros Hh. unfold range. rewrite (list_size_holds _ _ Hh), (toVector_holds _ _ Hh). cbv zeta.
  fold (norm (length vs) start) (norm (length vs) stop).
  assert ((if norm (length vs) start <? 0 then 0 else norm (length vs) start) =
    Z.max 0 (norm (length vs) start)) as -> by (case_if; bools; lia).
  set (lo := Z.max 0 (norm (length vs) start)). set (hi := norm (length vs) stop).
  assert (0 <= lo) by (unfold lo; lia).
  destruct (Z.eqb_spec (Z.of_nat (length vs)) 0) as [Hz|Hz].
  { destruct vs; [|cbn in Hz; lia]. rewrite !lookup_nil. by case_if. }
  assert ((if Z.of_nat (length vs) <=? hi then Z.of_nat (length vs) - 1 else hi) =
    Z.min hi (Z.of_nat (length vs) - 1)) as -> by (case_if; bools; lia).
  destruct (Z.leb_spec (Z.of_nat (Z.to_nat lo + i)) hi) as [Hle|Hgt].
  - destruct (_ || _) eqn:Hc.
    + rewrite lookup_nil. symmetry. apply lookup_ge_None. apply orb_true_iff in Hc as [Hc|Hc]; bools; lia.
    + bools. destruct (decide (Z.to_nat lo + i < length vs)%nat).
      * rewrite lookup_take_lt, lookup_drop by lia. done.
      * rewrite (lookup_ge_None_2 vs) by lia. apply lookup_ge_None. rewrite length_take, length_drop. lia.
  - destruct (_ || _) eqn:Hc; [apply lookup_nil|]. bools.
    apply lookup_ge_None. rewrite length_take, length_drop. lia.
Qed.

Lemma range_sub l vs start stop : holds l vs -> range l start stop ⊆ vs.
Proof.
  intros Hh x (i & Hi)%list_elem_of_lookup. rewrite (range_holds _ _ _ _ _ Hh) in Hi. cbv zeta in Hi.
  destruct (_ <=? _); [|done]. by eapply list_elem_of_lookup_2.
Qed.

Lemma trim_holds l vs start stop : holds l vs -> holds (trim l start stop) (range l start stop).
Proof.
  intros Hh. apply rebuildFrom_holds. eapply storable_sub; [apply Hh|by apply range_sub].
Qed.

(** *** Searching and removing *)

Lemma list_find_first lp vs v : Listpack.stores lp vs -> Listpack.find lp v 0 1 = fst <$> list_find (v =.) vs.
Proof.
  intros Hs. pose proof (Listpack.find_stores lp vs v 0 1 Hs) as Hf.
  destruct (list_find (v =.) vs) as [[k y]|] eqn:Hl.
  - apply list_find_Some in Hl as (Hk & <- & Hmin).
    assert (Listpack.first_at vs v 0 1 k) as Hfk.
    { split; [lia|]. split; [by rewrite Nat.mod_1_r|]. split; [done|]. intros n Hn _ Hx.
      by apply (Hmin n v Hx); [lia|]. }
    destruct (Listpack.find lp v 0 1) as [i|]; [|by apply Hf in Hfk].
    cbn. f_equal. destruct Hf as (_ & _ & Hi & Hmi), Hfk as (_ & _ & Hk' & Hmk).
    destruct (Nat.lt_trichotomy i k) as [?|[?|?]]; [|done|].
    + exfalso. apply (Hmk i); [lia|by rewrite Nat.mod_1_r|done].
    + exfalso. apply (Hmi k); [lia|by rewrite Nat.mod_1_r|done].
  - apply list_find_None in Hl. rewrite Forall_forall in Hl.
    destruct (Listpack.find lp v 0 1) as [i|]; [|done].
    destruct Hf as (_ & _ & Hi & _). exfalso. apply (Hl v); [|done]. by eapply list_elem_of_lookup_2.
Qed.

Lemma indexOf_holds l vs v : holds l vs -> indexOf l v = fst <$> list_find (v =.) vs.
Proof.
  intros (_ & _ & vss & H & <- & _). unfold indexOf.
  assert (forall n, indexOf_loop (nodes_ l) v n = (fun i => n + i)%nat <$> (fst <$> list_find (v =.) (concat vss))) as Hf.
  2:{ rewrite Hf. by destruct (list_find _ _) as [[]|]. }
  induction H as [|x vs nodes vss Hx _ IH]; intros n; cbn [indexOf_loop concat]; [done|].
  rewrite (list_find_first _ _ _ Hx), (Listpack.stores_numElements _ _ Hx), IH.
  destruct (list_find _ vs) as [[i y]|] eqn:Hv.
  - by rewrite (list_find_app_l _ _ _ _ _ Hv).
  - rewrite list_find_app_r by done. cbn.
    destruct (list_find _ (concat vss)) as [[i y]|]; cbn; [|done]. f_equal. lia.
Qed.

(** Deleting the first [k] matches of [v]. *)
Fixpoint drop_matches (v : bytes) (k : nat) (vs : list bytes) : list bytes :=
  match k, vs with
  | O, _ => vs
  | _, [] => []
  | S k', x :: xs => if decide (x = v) then drop_matches v k' xs else x :: drop_matches v k xs
  end.

Definition occurrences (v : bytes) (vs : list bytes) : nat := length (filter (fun x => x = v) vs).

Lemma remove_loop_ok v limit removed vs :
  removed <= limit ->
  remove_loop v limit removed vs =
    (drop_matches v (Z.to_nat (limit - removed)) vs,
     removed + Z.min (limit - removed) (Z.of_nat (occurrences v vs))).
Proof.
  unfold occurrences. revert removed. induction vs as [|x vs IH]; intros removed Hr; cbn [remove_loop].
  - rewrite filter_nil. cbn [length]. f_equal; [by destruct (Z.to_nat _)|lia].
  - destruct (Z.ltb_spec removed limit) as [Hlt|Hge].
    + destruct (Z.to_nat (limit - removed)) as [|k] eqn:Hk; [lia|]. cbn [drop_matches].
      rewrite filter_cons. case_bool_decide as Hx; destruct (decide (x = v)); try done.
      * rewrite IH by lia. replace (Z.to_nat (limit - (removed + 1))) with k by lia. f_equal. cbn [length]. lia.
      * rewrite IH, Hk by lia. done.
    + replace (limit - removed) with 0 by lia. cbn [Z.to_nat drop_matches]. f_equal. lia.
Qed.

Lemma drop_matches_all v k vs : (length vs <= k)%nat -> drop_matches v k vs = filter (fun x => x <> v) vs.
Proof.
  revert k. induction vs as [|x vs IH]; intros [|k] Hk; cbn [drop_matches length] in *; try lia; [done..|].
  rewrite filter_cons. destruct (decide (x = v)) as [->|Hne].
  - rewrite decide_False by (intros H; by apply H). apply IH. lia.
  - rewrite decide_True by done. f_equal. apply IH. lia.
Qed.

Lemma drop_matches_sub v k vs : drop_matches v k vs ⊆ vs.
Proof.
  revert k. induction vs as [|x vs IH]; intros [|k]; cbn; [done..|].
  destruct (decide (x = v)); [specialize (IH k)|specialize (IH (S k))]; set_solver.
Qed.

(** LREM on a plain list: [count] positive removes the first [count] matches,
    negative the last [-count], zero all of them. *)
Definition spec_remove (v : bytes) (count : Z) (vs : list bytes) : list bytes :=
  if count =? 0 then filter (fun x => x <> v) vs
  else if 0 <? count then drop_matches v (Z.to_nat count) vs
  else rev (drop_matches v (Z.to_nat (- count)) (rev vs)).

Definition spec_removed (v : bytes) (count : Z) (vs : list bytes) : Z :=
  if count =? 0 then Z.of_nat (occurrences v vs)
  else Z.min (Z.abs count) (Z.of_nat (occurrences v vs)).

Lemma occurrences_rev v vs : occurrences v (rev vs) = occurrences v vs.
Proof. unfold occurrences. apply Permutation_length, filter_Permutation. symmetry. apply Permutation_rev. Qed.

Lemma occurrences_le v vs : (occurrences v vs <= length vs)%nat.
Proof. unfold occurrences. apply length_filter. Qed.

Lemma drop_matches_none v k vs : occurrences v vs = 0%nat -> drop_matches v k vs = vs.
Proof.
  unfold occurrences. revert k. induction vs as [|x vs IH]; intros [|k] H; cbn [drop_matches]; [done..|].
  rewrite filter_cons in H. destruct (decide (x = v)); [done|]. f_equal. by apply IH.
Qed.

Lemma removeValue_holds l vs v count :
  holds l vs ->
  (removeValue l v count).2 = spec_removed v count vs /\
  holds (removeValue l v count).1 (spec_remove v count vs).
Proof.
  intros Hh. unfold removeValue. rewrite (toVector_holds _ _ Hh). cbv zeta.
  set (limit := if count =? 0 then Z.of_nat (length vs) else Z.abs count).
  set (r := if 0 <=? count then _ else _).
  assert (r = (spec_remove v count vs, spec_removed v count vs)) as ->.
  { unfold r, spec_remove, spec_removed, limit. pose proof (occurrences_le v vs).
    destruct (Z.leb_spec 0 count) as [Hc|Hc].
    - destruct (Z.eqb_spec count 0) as [->|Hne].
      + rewrite remove_loop_ok by lia. rewrite drop_matches_all by lia. f_equal. lia.
      + rewrite remove_loop_ok by lia. destruct (Z.ltb_spec 0 count); [|lia].
        replace (Z.abs count - 0) with count by lia. f_equal. lia.
    - destruct (Z.eqb_spec count 0); [lia|]. destruct (Z.ltb_spec 0 count); [lia|].
      rewrite remove_loop_ok by lia. cbn [fst snd]. rewrite occurrences_rev.
      replace (Z.abs count - 0) with (- count) by lia. f_equal. lia. }
  cbn [fst snd]. split; [done|]. destruct (Z.ltb_spec 0 (spec_removed v count vs)) as [Hpos|Hz].
  - apply rebuildFrom_holds. apply (storable_sub vs); [apply Hh|]. unfold spec_remove.
    repeat case_if; intros x Hx.
    + by apply list_elem_of_filter in Hx as [_ ?].
    + by apply drop_matches_sub in Hx.
    + apply list_elem_of_In, in_rev, list_elem_of_In, drop_matches_sub, list_elem_of_In, in_rev, list_elem_of_In in Hx. done.
  - assert (occurrences v vs = 0%nat) as Ho.
    { unfold spec_removed in Hz. destruct (Z.eqb_spec count 0); lia. }
    replace (spec_remove v count vs) with vs; [done|]. unfold spec_remove. repeat case_if.
    + rewrite <- (drop_matches_all v (length vs)) by lia. by rewrite drop_matches_none.
    + by rewrite drop_matches_none.
    + rewrite drop_matches_none; [by rewrite rev_involutive|]. by rewrite occurrences_rev.
Qed.

(** ** Operation sequences *)

Inductive op :=
  | PushFront (v : bytes) | PushBack (v : bytes) | PopFront | PopBack
  | Set_ (index : Z) (v : bytes) | Trim (start stop : Z) | RemoveValue (v : bytes) (count : Z).

Inductive result := RVal (v : option bytes) | RBool (b : bool) | RCount (n : Z) | RUnit.

(** Values fit a listpack entry; [std::abs] is applied to [count], which
    therefore must not be the least int64. *)
Definition op_ok (o : op) : Prop :=
  match o with
  | PushFront v | PushBack v | Set_ _ v => Listpack.storable v
  | RemoveValue _ count => - 2 ^ 63 < count < 2 ^ 63
  | _ => True
  end.

#[global] Instance op_ok_dec o : Decision (op_ok o).
Proof. destruct o; simpl; apply _. Defined.

Definition exec (l : t) (o : op) : t * result :=
  match o with
  | PushFront v => (pushFront l v, RUnit)
  | PushBack v => (pushBack l v, RUnit)
  | PopFront => let r := popFront l in (r.1, RVal r.2)
  | PopBack => let r := popBack l in (r.1, RVal r.2)
  | Set_ i v => let r := set l i v in (r.1, RBool r.2)
  | Trim a b => (trim l a b, RUnit)
  | RemoveValue v c => let r := removeValue l v c in (r.1, RCount r.2)
  end.

(** The window of a range query on a plain list. *)
Definition spec_range (vs : list bytes) (start stop : Z) : list bytes :=
  let lo := Z.max 0 (norm (length vs) start) in
  take (Z.to_nat (norm (length vs) stop + 1 - lo)) (drop (Z.to_nat lo) vs).

Definition spec_exec (vs : list bytes) (o : op) : list bytes * result :=
  match o with
  | PushFront v => (v :: vs, RUnit)
  | PushBack v => (vs ++ [v], RUnit)
  | PopFront => (tail vs, RVal (head vs))
  | PopBack => (rev (tail (rev vs)), RVal (head (rev vs)))
  | Set_ index v =>
      match position (length vs) index with
      | Some i => (<[i := v]> vs, RBool true)
      | None => (vs, RBool false)
      end
  | Trim a b => (spec_range vs a b, RUnit)
  | RemoveValue v c => (spec_remove v c vs, RCount (spec_removed v c vs))
  end.

Lemma range_spec l vs start stop : holds l vs -> range l start stop = spec_range vs start stop.
Proof.
  intros Hh. apply list_eq. intros i. rewrite (range_holds _ _ _ _ _ Hh). unfold spec_range. cbv zeta.
  set (lo := Z.max 0 (norm (length vs) start)). assert (0 <= lo) by (unfold lo; lia).
  destruct (Z.leb_spec (Z.of_nat (Z.to_nat lo + i)) (norm (length vs) stop)).
  - rewrite lookup_take_lt by lia. by rewrite lookup_drop.
  - rewrite lookup_take_ge by lia. done.
Qed.

Lemma list_exec_holds l vs o :
  holds l vs -> op_ok o -> (exec l o).2 = (spec_exec vs o).2 /\ holds (exec l o).1 (spec_exec vs o).1.
Proof.
  intros Hh Ho. destruct o as [v|v| | |i v|a b|v c]; cbn [exec spec_exec fst snd op_ok] in *.
  - split; [done|by apply pushFront_holds].
  - split; [done|by apply pushBack_holds].
  - pose proof (popFront_holds l vs Hh) as Hp. destruct vs as [|v vs]; [by rewrite Hp|].
    destruct Hp as [-> ?]. done.
  - pose proof (popBack_holds l vs Hh) as Hp. destruct (rev vs) as [|v vs'] eqn:Hr.
    + rewrite Hp. cbn. split; [done|]. apply (f_equal (@rev _)) in Hr. rewrite rev_involutive in Hr. by subst.
    + destruct Hp as [-> ?]. done.
  - pose proof (list_set_holds l vs i v Hh Ho) as Hp. destruct (position _ _); [|by rewrite Hp].
    destruct Hp as [-> ?]. done.
  - rewrite <- (range_spec l) by done. split; [done|by apply (trim_holds l vs)].
  - destruct (removeValue_holds l vs v c Hh) as [-> ?]. done.
Qed.

Fixpoint run (l : t) (os : list op) : t * list result :=
  match os with
  | [] => (l, [])
  | o :: os => let r := exec l o in let q := run r.1 os in (q.1, r.2 :: q.2)
  end.

Fixpoint spec_run (vs : list bytes) (os : list op) : list bytes * list result :=
  match os with
  | [] => (vs, [])
  | o :: os => let r := spec_exec vs o in let q := spec_run r.1 os in (q.1, r.2 :: q.2)
  end.

Lemma list_run_holds l vs os :
  holds l vs -> Forall op_ok os -> (run l os).2 = (spec_run vs os).2 /\ holds (run l os).1 (spec_run vs os).1.
Proof.
  intros Hh Ho. revert l vs Hh. induction Ho as [|o os Ho _ IH]; intros l vs Hh; [done|]. cbn [run spec_run fst snd].
  destruct (list_exec_holds l vs o Hh Ho) as [-> Hh']. destruct (IH _ _ Hh') as [-> ?]. done.
Qed.

(** a list behaves as a plain sequence under every series of pushes, pops,
    indexed updates, trims and removals, however its elements are spread over
    nodes: each call returns what it returns on the sequence (the popped
    value, whether the index existed, how many elements were removed) and
    [toVector()] is the sequence. *)
Theorem list_refines_sequence (os : list op) :
  Forall op_ok os ->
  (run new os).2 = (spec_run [] os).2 /\ toVector (run new os).1 = (spec_run [] os).1 /\
  size (run new os).1 = length (spec_run [] os).1.
Proof.
  intros Ho. destruct (list_run_holds new [] os new_holds Ho) as [H1 H2].
  split; [done|]. split; [by apply toVector_holds|by apply list_size_holds].
Qed.

Lemma list_refines_sequence_witness :
  let os := [PushBack (str "a"); PushFront (str "b"); PushBack (str "a"); Set_ (-1) (str "9");
             RemoveValue (str "a") (-1); PopBack; Trim 0 (-1)] in
  (run new os).2 = (spec_run [] os).2 /\ toVector (run new os).1 = (spec_run [] os).1 /\
  size (run new os).1 = length (spec_run [] os).1.
Proof.
  apply (list_refines_sequence [PushBack (str "a"); PushFront (str "b"); PushBack (str "a");
    Set_ (-1) (str "9"); RemoveValue (str "a") (-1); PopBack; Trim 0 (-1)]). decide_now.
Defined.

(** reading a list. After any operations, [at] returns the element at the
    position a possibly negative index denotes, [range] returns exactly the
    elements whose positions lie in the window between its two bounds
    (negative bounds from the end, out-of-range bounds clipped), and [indexOf]
    the position of the first equal element. *)
Theorem list_readers (os : list op) (index start stop : Z) (i : nat) (v : bytes) :
  Forall op_ok os ->
  let l := (run new os).1 in
  let vs := (spec_run [] os).1 in
  at_ l index = (i ← position (length vs) index; vs !! i) /\
  range l start stop !! i =
    (let j := Z.to_nat (Z.max 0 (norm (length vs) start)) in
     if Z.of_nat (j + i) <=? norm (length vs) stop then vs !! (j + i)%nat else None) /\
  indexOf l v = fst <$> list_find (v =.) vs.
Proof.
  intros Ho l vs. destruct (list_run_holds new [] os new_holds Ho) as [_ Hh].
  split; [exact (at_holds _ _ _ Hh)|]. split; [exact (range_holds _ _ _ _ _ Hh)|exact (indexOf_holds _ _ _ Hh)].
Qed.

Lemma list_readers_witness :
  let os := [PushBack (str "a"); PushBack (str "b"); PushBack (str "c")] in
  let l := (run new os).1 in
  let vs := (spec_run [] os).1 in
  at_ l (-2) = (i ← position (length vs) (-2); vs !! i) /\
  range l 1 (-1) !! 0%nat =
    (let j := Z.to_nat (Z.max 0 (norm (length vs) 1)) in
     if Z.of_nat (j + 0) <=? norm (length vs) (-1) then vs !! (j + 0)%nat else None) /\
  indexOf l (str "c") = fst <$> list_find (str "c" =.) vs.
Proof.
  apply (list_readers [PushBack (str "a"); PushBack (str "b"); PushBack (str "c")] (-2) 1 (-1) 0 (str "c")).
  decide_now.
Defined.

(** A list's encoding can go back: popping the oversized element of a
    quicklist makes it a listpack again. *)
Lemma list_encoding_reverts :
  let l := pushBack new (replicate (Z.to_nat 9000) 97) in
  encoding_ l = EQuickList /\ encoding_ (popBack l).1 = EListPack.
Proof. vm_compute. done. Qed.

(** An update in place does not re-derive the encoding: a single node beyond
    the byte budget stays marked as a listpack. *)
Lemma list_set_keeps_encoding :
  let l := (set (pushBack new (str "a")) 0 (replicate (Z.to_nat 9000) 97)).1 in
  encoding_ l = EListPack /\ (list_max_listpack_bytes defaultLimits < Listpack.totalBytes (nodes_ l !!! 0%nat))%nat.
Proof. vm_compute. split; [done|]. apply Nat.leb_le. vm_compute. done. Qed.
End ListValue.
