(* ===== verification/Db.v ===== *)
(** * Db: one keyspace and its expiry table

    [src/server/db.h] and [src/server/db.cpp]. The keyspace and the expiry
    table are two hash tables used through [MapOps]; the callbacks a database
    invokes are recorded as a log of events, in order. [visible] is the view
    clients have at a given time: the bindings whose expiry has not passed. *)

From Stdlib Require Import ZArith Lia.
From stdpp Require Import base list numbers gmap option strings.
From S2P Require Import Prelude MapSpec Dict.

Module Db.

Definition kActiveExpireSampleSize : nat := 20.
Definition kActiveExpireThresholdPercent : nat := 25.
Definition kActiveExpireMaxIterations : nat := 16.

(** An invocation of [on_expired_] or of [on_new_key_]. *)
Inductive event := Expired (key : bytes) | NewKey (key : bytes).

#[global] Instance event_eq_dec : EqDecision event.
Proof. solve_decision. Defined.

Section Db.
Context {D : Type -> Type} {ops : MapOps D}.
(** [core::Value], of which the database itself only uses [touch]. *)
Context {V : Type} (touch : V -> Z -> V).

Record t := mk {
  dict_ : D V; expires_ : D Z; expiration_enabled_ : bool;
  (** whether the callbacks are set, and the calls made so far *)
  on_expired_ : bool; on_new_key_ : bool; events : list event }.

Definition new : t := mk mnew mnew true false false [].

Definition set_dict (db : t) (d : D V) : t :=
  mk d (expires_ db) (expiration_enabled_ db) (on_expired_ db) (on_new_key_ db) (events db).
Definition set_expires (db : t) (e : D Z) : t :=
  mk (dict_ db) e (expiration_enabled_ db) (on_expired_ db) (on_new_key_ db) (events db).
Definition emit (db : t) (b : bool) (ev : event) : t :=
  if b then mk (dict_ db) (expires_ db) (expiration_enabled_ db) (on_expired_ db) (on_new_key_ db)
              (events db ++ [ev])
  else db.

Definition setExpiredKeyCallback (db : t) : t :=
  mk (dict_ db) (expires_ db) (expiration_enabled_ db) true (on_new_key_ db) (events db).
Definition setNewKeyCallback (db : t) : t :=
  mk (dict_ db) (expires_ db) (expiration_enabled_ db) (on_expired_ db) true (events db).
Definition setExpirationEnabled (db : t) (enabled : bool) : t :=
  mk (dict_ db) (expires_ db) enabled (on_expired_ db) (on_new_key_ db) (events db).

Definition expireIfNeeded (db : t) (key : bytes) (now_ms : Z) : option (t * bool) :=
  '(e, when_) ← mfind (expires_ db) key;
  let db := set_expires db e in
  match when_ with
  | None => Some (db, false)
  | Some when_ =>
      if now_ms <? when_ then Some (db, false)
      else if negb (expiration_enabled_ db) then Some (db, true)
      else
        '(e, _) ← merase (expires_ (db : t)) key;
        let db := set_expires db e in
        '(d, _) ← merase (dict_ (db : t)) key;
        let db := set_dict db d in
        Some (emit db (on_expired_ db) (Expired key), true)
  end.

Definition lookupRead (db : t) (key : bytes) (now_ms : Z) : option (t * option V) :=
  '(db, gone) ← expireIfNeeded db key now_ms;
  if gone : bool then Some (db, None)
  else
    '(d, v) ← mmodify (dict_ (db : t)) key (fun v => touch v now_ms);
    Some (set_dict db d, v).

Definition lookupWrite (db : t) (key : bytes) (now_ms : Z) : option (t * option V) :=
  lookupRead db key now_ms.

Definition setKey (db : t) (key : bytes) (value : V) : option t :=
  '(d, added) ← minsert (dict_ db) key value;
  let db := set_dict db d in
  '(e, _) ← merase (expires_ (db : t)) key;
  let db := set_expires db e in
  Some (emit db (added && on_new_key_ db) (NewKey key)).

Definition overwriteValue (db : t) (key : bytes) (value : V) : option t :=
  '(d, added) ← minsert (dict_ db) key value;
  let db := set_dict db d in
  Some (emit db (added && on_new_key_ db) (NewKey key)).

Definition erase (db : t) (key : bytes) : option (t * bool) :=
  '(e, _) ← merase (expires_ db) key;
  let db := set_expires db e in
  '(d, b) ← merase (dict_ (db : t)) key;
  Some (set_dict db d, b).

Definition exists_ (db : t) (key : bytes) (now_ms : Z) : option (t * bool) :=
  '(db, v) ← lookupRead db key now_ms;
  Some (db, is_some v).

Definition size (db : t) : nat := msize (dict_ db).
Definition expiresSize (db : t) : nat := msize (expires_ db).

Definition setExpireAt (db : t) (key : bytes) (at_ms : Z) : option t :=
  '(e, _) ← minsert (expires_ db) key at_ms;
  Some (set_expires db e).

Definition persist (db : t) (key : bytes) : option (t * bool) :=
  '(e, b) ← merase (expires_ db) key;
  Some (set_expires db e, b).

Definition expireAtMs (db : t) (key : bytes) : option (t * Z) :=
  '(e, when_) ← mfind (expires_ db) key;
  Some (set_expires db e, from_option id (-1) when_).

Definition ttlMs (db : t) (key : bytes) (now_ms : Z) : option (t * Z) :=
  '(db, v) ← lookupRead db key now_ms;
  if negb (is_some v) then Some (db, -2)
  else
    '(db, when_) ← expireAtMs (db : t) key;
    if when_ <? 0 then Some (db, -1)
    else
      let remaining := i64 (when_ - now_ms) in
      Some (db, if remaining <? 0 then 0 else remaining).

Definition flush (db : t) : t :=
  set_expires (set_dict db (mclear (dict_ db))) (mclear (expires_ db)).

(** The sampling loop of one iteration: [n] samples, the next one being
    number [k] of the cycle; [rng k] are the generator's values for it. *)
Fixpoint sample (n : nat) (e : D Z) (rng : nat -> nat -> Z) (k : nat) (now_ms : Z)
    : nat * list bytes :=
  match n with
  | O => (0%nat, [])
  | S n =>
      match mrandom e (rng k) with
      | None => (0%nat, [])
      | Some (key, when_) =>
          let r := sample n e rng (S k) now_ms in
          (S r.1, if when_ <=? now_ms then key :: r.2 else r.2)
      end
  end.

(** The deletion loop over the doomed keys. *)
Fixpoint reap (db : t) (doomed : list bytes) : option t :=
  match doomed with
  | [] => Some db
  | key :: doomed =>
      '(e, _) ← merase (expires_ db) key;
      let db := set_expires db e in
      '(d, _) ← merase (dict_ (db : t)) key;
      let db := set_dict db d in
      reap (emit db (on_expired_ db) (Expired key)) doomed
  end.

Fixpoint expire_loop (iterations : nat) (db : t) (rng : nat -> nat -> Z) (k : nat) (now_ms : Z)
    (total_deleted : nat) : option (t * nat) :=
  match iterations with
  | O => Some (db, total_deleted)
  | S iterations =>
      let remaining := msize (expires_ db) in
      if (remaining =? 0)%nat then Some (db, total_deleted)
      else
        let sample_target := Nat.min remaining kActiveExpireSampleSize in
        let '(sampled, doomed) := sample sample_target (expires_ db) rng k now_ms in
        db ← reap db doomed;
        let expired := length doomed in
        let total_deleted := (total_deleted + expired)%nat in
        if (sampled =? 0)%nat then Some (db, total_deleted)
        else if (expired * 100 / sampled <=? kActiveExpireThresholdPercent)%nat
        then Some (db, total_deleted)
        else expire_loop iterations db rng (k + sampled) now_ms total_deleted
  end.

Definition activeExpireCycle (db : t) (rng : nat -> nat -> Z) (now_ms : Z) : option (t * nat) :=
  if negb (expiration_enabled_ db) || (msize (expires_ db) =? 0)%nat then Some (db, 0%nat)
  else expire_loop kActiveExpireMaxIterations db rng 0 now_ms 0.

Fixpoint random_loop (attempts : nat) (db : t) (rng : nat -> nat -> Z) (k : nat) (now_ms : Z)
    : option (t * option bytes) :=
  match attempts with
  | O => Some (db, None)
  | S attempts =>
      match mrandom (dict_ db) (rng k) with
      | None => Some (db, None)
      | Some (key, _) =>
          '(db, gone) ← expireIfNeeded db key now_ms;
          if gone : bool then random_loop attempts db rng (S k) now_ms
          else Some (db, Some key)
      end
  end.

Definition randomKey (db : t) (rng : nat -> nat -> Z) (now_ms : Z) : option (t * option bytes) :=
  random_loop 100 db rng 0 now_ms.

Definition keys (db : t) : list bytes := map fst (mforEach (dict_ db)).

(** One step of a cursor iteration, appending to [out]. *)
Definition scan (db : t) (cursor : Z) (out : list bytes) : option (Z * list bytes) :=
  '(entries, cursor) ← mscan (dict_ db) cursor;
  Some (cursor, out ++ map fst entries).
End Db.
Arguments t : clear implicits.

(** ** Expiry as a view *)

Section View.
Context {V : Type}.
Implicit Types (m : gmap bytes V) (x : gmap bytes Z).

(** The key has a TTL and it has passed. *)
Definition is_expired x (now : Z) (k : bytes) : bool :=
  match x !! k with Some w => w <=? now | None => false end.

(** What clients see at time [now]. *)
Definition visible m x (now : Z) : gmap bytes V :=
  filter (fun kv => is_expired x now kv.1 = false) m.

Lemma visible_lookup m x now k :
  visible m x now !! k = if is_expired x now k then None else m !! k.
Proof.
  unfold visible. rewrite map_lookup_filter. destruct (m !! k) as [v|]; cbn.
  - destruct (is_expired x now k) eqn:E; [rewrite option_guard_False|rewrite option_guard_True]; try done.
  - by destruct (is_expired x now k).
Qed.

(** Time only makes more keys expire. *)
Lemma is_expired_mono x now later k : now <= later -> is_expired x now k = true -> is_expired x later k = true.
Proof. unfold is_expired. destruct (x !! k); [|done]. intros. bools. apply Z.leb_le. lia. Qed.

(** Removing keys that have expired leaves the view unchanged, now and later. *)
Lemma visible_reap m x now later k :
  is_expired x now k = true -> now <= later ->
  visible (delete k m) (delete k x) later = visible m x later.
Proof.
  intros He Hl. apply map_eq. intros j. rewrite !visible_lookup. destruct (decide (j = k)) as [->|Hne].
  - rewrite lookup_delete_eq, (is_expired_mono x now later k Hl He). by case_if.
  - rewrite lookup_delete_ne by done. unfold is_expired. by rewrite lookup_delete_ne.
Qed.

Lemma visible_set m x now k v :
  visible (<[k := v]> m) (delete k x) now = <[k := v]> (visible m x now).
Proof.
  apply map_eq. intros j. rewrite visible_lookup. unfold is_expired. destruct (decide (j = k)) as [->|Hne].
  - by rewrite lookup_delete_eq, !lookup_insert_eq.
  - rewrite lookup_delete_ne, !lookup_insert_ne, visible_lookup by done. done.
Qed.

Lemma visible_erase m x now k :
  visible (delete k m) (delete k x) now = delete k (visible m x now).
Proof.
  apply map_eq. intros j. rewrite visible_lookup. unfold is_expired. destruct (decide (j = k)) as [->|Hne].
  - by rewrite !lookup_delete_eq.
  - rewrite !lookup_delete_ne, visible_lookup by done. done.
Qed.

Lemma visible_alter m x now k f :
  visible (alter f k m) x now = alter f k (visible m x now).
Proof.
  apply map_eq. intros j. rewrite visible_lookup. destruct (decide (j = k)) as [->|Hne].
  - rewrite !lookup_alter_eq, visible_lookup. by case_if.
  - rewrite !lookup_alter_ne, visible_lookup by done. done.
Qed.
End View.

Section Refinement.
Context {D : Type -> Type} {ops : MapOps D} {laws : MapLaws D}.
Context {V : Type} (touch : V -> Z -> V).
Implicit Types (db : t D V) (m : gmap bytes V) (x : gmap bytes Z).

Definition holds db m x : Prop := represents (dict_ db) m /\ represents (expires_ db) x.

(** The parts of a database no operation on keys changes. *)
Definition config db : bool * bool * bool := (expiration_enabled_ db, on_expired_ db, on_new_key_ db).

Lemma db_holds_new : holds new ∅ ∅.
Proof. split; apply represents_new. Qed.

Lemma emit_holds db m x b ev : holds db m x -> holds (emit db b ev) m x.
Proof. by destruct b. Qed.

Lemma emit_config db b ev : config (emit db b ev) = config db.
Proof. by destruct b. Qed.

Lemma emit_events db b ev : events (emit db b ev) = events db ++ (if b then [ev] else []).
Proof. destruct b; cbn; [done|]. by rewrite app_nil_r. Qed.

Definition reaps db x now k : bool := is_expired x now k && expiration_enabled_ db.

Lemma expireIfNeeded_ok db m x k now :
  holds db m x ->
  exists db', expireIfNeeded db k now = Some (db', is_expired x now k) /\ config db' = config db /\
    (if reaps db x now k
     then holds db' (delete k m) (delete k x) /\
          events db' = events db ++ (if on_expired_ db then [Expired k] else [])
     else holds db' m x /\ events db' = events db).
Proof.
  intros [Hm Hx]. unfold expireIfNeeded, reaps, is_expired.
  destruct (represents_find _ _ _ k Hx) as (e & -> & He). cbn [mbind option_bind].
  destruct (x !! k) as [w|] eqn:Hk; [|by eexists; split_and!].
  destruct (Z.ltb_spec now w), (Z.leb_spec w now); try lia; [by eexists; split_and!|]. cbn [andb].
  change (expiration_enabled_ (set_expires db e)) with (expiration_enabled_ db).
  destruct (expiration_enabled_ db) eqn:En; cbn [negb].
  2:{ eexists. split; [done|]. split; [done|]. by split. }
  destruct (represents_erase _ _ _ k He) as (e2 & He2 & Hr2).
  destruct (represents_erase _ _ _ k Hm) as (d2 & Hd2 & Hr3).
  cbn. rewrite He2. cbn. rewrite Hd2. cbn. eexists. split; [done|].
  split; [by rewrite emit_config|]. split; [by apply emit_holds|]. by rewrite emit_events.
Qed.

Lemma lookupRead_ok db m x k now :
  holds db m x ->
  exists db' m' x', lookupRead touch db k now = Some (db', (fun v => touch v now) <$> visible m x now !! k) /\
    holds db' m' x' /\ config db' = config db /\
    (if reaps db x now k
     then m' = delete k m /\ x' = delete k x /\
          events db' = events db ++ (if on_expired_ db then [Expired k] else [])
     else x' = x /\ events db' = events db /\
          m' = if is_expired x now k then m else alter (fun v => touch v now) k m).
Proof.
  intros Hh. unfold lookupRead.
  destruct (expireIfNeeded_ok db m x k now Hh) as (db1 & -> & Hc & Hr). cbn [mbind option_bind].
  rewrite visible_lookup. unfold reaps in *. destruct (is_expired x now k) eqn:E; cbn [andb] in *.
  - destruct (expiration_enabled_ db); destruct Hr as [Hh1 Hev].
    + eexists db1, _, _. split; [done|]. split; [done|]. by split_and!.
    + eexists db1, _, _. split; [done|]. split; [done|]. by split_and!.
  - destruct Hr as [[Hm1 Hx1] Hev].
    destruct (represents_modify _ _ _ k (fun v => touch v now) Hm1) as (d & -> & Hd). cbn.
    eexists _, _, x. split; [done|]. split; [done|]. by split_and!.
Qed.

Lemma lookupRead_visible db m x k now :
  holds db m x ->
  exists db' m' x', lookupRead touch db k now = Some (db', (fun v => touch v now) <$> visible m x now !! k) /\
    holds db' m' x' /\ config db' = config db /\
    (forall later, now <= later -> visible m' x' later =
      if is_expired x now k then visible m x later else alter (fun v => touch v now) k (visible m x later)) /\
    (forall j, j <> k -> x' !! j = x !! j) /\ (is_expired x now k = false -> x' = x).
Proof.
  intros Hh. destruct (lookupRead_ok db m x k now Hh) as (db' & m' & x' & Heq & Hh' & Hc & Hr).
  exists db', m', x'. split; [done|]. split; [done|]. split; [done|]. unfold reaps in Hr.
  destruct (is_expired x now k) eqn:E; cbn [andb] in Hr.
  - destruct (expiration_enabled_ db).
    + destruct Hr as (-> & -> & _). split; [intros; by eapply visible_reap|]. split; [|done].
      intros j Hj. by rewrite lookup_delete_ne.
    + destruct Hr as (-> & _ & ->). by split_and!.
  - destruct Hr as (-> & _ & ->). split; [|done]. intros. apply visible_alter.
Qed.

Lemma setKey_ok db m x k v :
  holds db m x ->
  exists db', setKey db k v = Some db' /\ holds db' (<[k := v]> m) (delete k x) /\ config db' = config db /\
    events db' = events db ++ (if bool_decide (m !! k = None) && on_new_key_ db then [NewKey k] else []).
Proof.
  intros [Hm Hx]. unfold setKey. destruct (represents_insert _ _ _ k v Hm) as (d & -> & Hd). cbn.
  destruct (represents_erase _ _ _ k Hx) as (e & -> & He). cbn. eexists. split; [done|].
  split; [by apply emit_holds|]. split; [by rewrite emit_config|]. by rewrite emit_events.
Qed.

Lemma overwriteValue_ok db m x k v :
  holds db m x ->
  exists db', overwriteValue db k v = Some db' /\ holds db' (<[k := v]> m) x /\ config db' = config db /\
    events db' = events db ++ (if bool_decide (m !! k = None) && on_new_key_ db then [NewKey k] else []).
Proof.
  intros [Hm Hx]. unfold overwriteValue. destruct (represents_insert _ _ _ k v Hm) as (d & -> & Hd). cbn.
  eexists. split; [done|]. split; [by apply emit_holds|]. split; [by rewrite emit_config|]. by rewrite emit_events.
Qed.

Lemma db_erase_ok db m x k :
  holds db m x ->
  exists db', erase db k = Some (db', bool_decide (m !! k <> None)) /\
    holds db' (delete k m) (delete k x) /\ config db' = config db /\ events db' = events db.
Proof.
  intros [Hm Hx]. unfold erase. destruct (represents_erase _ _ _ k Hx) as (e & -> & He). cbn.
  destruct (represents_erase _ _ _ k Hm) as (d & -> & Hd). cbn. eexists. split; [done|]. by split_and!.
Qed.

Lemma setExpireAt_ok db m x k at_ms :
  holds db m x ->
  exists db', setExpireAt db k at_ms = Some db' /\ holds db' m (<[k := at_ms]> x) /\
    config db' = config db /\ events db' = events db.
Proof.
  intros [Hm Hx]. unfold setExpireAt. destruct (represents_insert _ _ _ k at_ms Hx) as (e & -> & He). cbn.
  eexists. split; [done|]. by split_and!.
Qed.

Lemma persist_ok db m x k :
  holds db m x ->
  exists db', persist db k = Some (db', bool_decide (x !! k <> None)) /\ holds db' m (delete k x) /\
    config db' = config db /\ events db' = events db.
Proof.
  intros [Hm Hx]. unfold persist. destruct (represents_erase _ _ _ k Hx) as (e & -> & He). cbn.
  eexists. split; [done|]. by split_and!.
Qed.

Lemma expireAtMs_ok db m x k :
  holds db m x ->
  exists db', expireAtMs db k = Some (db', from_option id (-1) (x !! k)) /\ holds db' m x /\
    config db' = config db /\ events db' = events db.
Proof.
  intros [Hm Hx]. unfold expireAtMs. destruct (represents_find _ _ _ k Hx) as (e & -> & He). cbn.
  eexists. split; [done|]. by split_and!.
Qed.

(** *** The active cycle *)

(** [m', x'] is [m, x] with some keys that had expired by [now] removed. *)
Definition reaped (now : Z) m x m' x' : Prop :=
  forall j, (m' !! j = m !! j /\ x' !! j = x !! j) \/
    (is_expired x now j = true /\ m' !! j = None /\ x' !! j = None).

Lemma reaped_refl now m x : reaped now m x m x.
Proof. intros j. by left. Qed.

Lemma reaped_trans now m x m1 x1 m2 x2 :
  reaped now m x m1 x1 -> reaped now m1 x1 m2 x2 -> reaped now m x m2 x2.
Proof.
  intros H1 H2 j. destruct (H1 j) as [[Ha Hb]|(Ha & Hb & Hc)], (H2 j) as [[Hd He]|(Hd & He & Hf)].
  - left. split; congruence.
  - right. split; [|done]. unfold is_expired in *. by rewrite <- Hb.
  - right. split; [done|]. split; congruence.
  - right. by split_and!.
Qed.

Lemma reaped_delete now m x m' x' k :
  reaped now m x m' x' -> is_expired x now k = true -> reaped now m x (delete k m') (delete k x').
Proof.
  intros H Hk j. destruct (decide (j = k)) as [->|Hne].
  - right. by rewrite !lookup_delete_eq.
  - rewrite !lookup_delete_ne by done. apply H.
Qed.

Lemma visible_reaped now later m x m' x' :
  reaped now m x m' x' -> now <= later -> visible m' x' later = visible m x later.
Proof.
  intros H Hl. apply map_eq. intros j. rewrite !visible_lookup. destruct (H j) as [[Ha Hb]|(Ha & Hb & Hc)].
  - unfold is_expired. by rewrite Ha, Hb.
  - rewrite (is_expired_mono x now later j Hl Ha), Hb. by case_if.
Qed.

Lemma sample_ok n (e : D Z) x rng k now :
  represents e x ->
  Forall (fun key => is_expired x now key = true) (sample n e rng k now).2 /\
  (length (sample n e rng k now).2 <= (sample n e rng k now).1 <= n)%nat.
Proof.
  intros He. revert k. induction n as [|n IH]; intros k; cbn [sample]; [split; [constructor|cbn; lia]|].
  pose proof (represents_random _ _ _ (rng k) He) as Hr. destruct (mrandom e (rng k)) as [[key w]|];
    [|split; [constructor|cbn; lia]].
  destruct (IH (S k)) as [IH1 IH2]. cbn [fst snd]. destruct (Z.leb_spec w now); cbn [length].
  - split; [|lia]. constructor; [|done]. unfold is_expired. rewrite Hr. by apply Z.leb_le.
  - split; [done|lia].
Qed.

Lemma reap_ok db m x m0 x0 now doomed :
  holds db m x -> reaped now m0 x0 m x -> Forall (fun key => is_expired x0 now key = true) doomed ->
  exists db' m' x', reap db doomed = Some db' /\ holds db' m' x' /\ reaped now m0 x0 m' x' /\
    config db' = config db /\
    events db' = events db ++ (if on_expired_ db then map Expired doomed else []).
Proof.
  intros Hh Hr Hd. revert db m x Hh Hr. induction Hd as [|k doomed Hk _ IH]; intros db m x [Hm Hx] Hr; cbn [reap].
  { exists db, m, x. split_and!; try done. case_if; cbn; by rewrite app_nil_r. }
  destruct (represents_erase _ _ _ k Hx) as (e & -> & He). cbn.
  destruct (represents_erase _ _ _ k Hm) as (d & -> & Hd). cbn.
  edestruct (IH (emit (set_dict (set_expires db e) d) (on_expired_ db) (Expired k)) (delete k m) (delete k x))
    as (db' & m' & x' & -> & Hh' & Hr' & Hc & Hev).
  - by apply emit_holds.
  - by apply reaped_delete.
  - exists db', m', x'. split_and!; try done.
    + by rewrite Hc, emit_config.
    + rewrite Hev, emit_events. unfold emit. destruct (on_expired_ db) eqn:E; cbn.
      * rewrite E. by rewrite <- app_assoc.
      * by rewrite E, !app_nil_r.
Qed.

Lemma expire_loop_ok n db m x m0 x0 rng k now total :
  holds db m x -> reaped now m0 x0 m x ->
  exists db' m' x' ks, expire_loop n db rng k now total = Some (db', (total + length ks)%nat) /\
    holds db' m' x' /\ reaped now m0 x0 m' x' /\ config db' = config db /\
    Forall (fun key => is_expired x0 now key = true) ks /\ (length ks <= 20 * n)%nat /\
    events db' = events db ++ (if on_expired_ db then map Expired ks else []).
Proof.
  revert db m x k total. induction n as [|n IH]; intros db m x k total Hh Hr; cbn [expire_loop].
  { exists db, m, x, []. split_and!; try done; [by rewrite Nat.add_0_r|].
    case_if; cbn; by rewrite app_nil_r. }
  destruct (msize (expires_ db) =? 0)%nat.
  { exists db, m, x, []. split_and!; try done; [by rewrite Nat.add_0_r|cbn; lia|].
    case_if; cbn; by rewrite app_nil_r. }
  set (target := Nat.min _ _). destruct (sample_ok target (expires_ db) x rng k now (proj2 Hh)) as [Hs1 Hs2].
  destruct (sample target (expires_ db) rng k now) as [sampled doomed]. cbn [fst snd] in *.
  assert (Forall (fun key => is_expired x0 now key = true) doomed) as Hd.
  { eapply Forall_impl; [exact Hs1|]. intros key Hkey. cbn in Hkey. destruct (Hr key) as [[_ Hb]|[Ha _]]; [|done].
    unfold is_expired in *. by rewrite <- Hb. }
  destruct (reap_ok db m x m0 x0 now doomed Hh Hr Hd) as (db1 & m1 & x1 & -> & Hh1 & Hr1 & Hc1 & Hev1).
  cbn [mbind option_bind]. assert (length doomed <= 20)%nat by (unfold target, kActiveExpireSampleSize in Hs2; lia).
  assert (exists db' m' x' ks, Some (db1, (total + length doomed)%nat) = Some (db', (total + length ks)%nat) /\
    holds db' m' x' /\ reaped now m0 x0 m' x' /\ config db' = config db /\
    Forall (fun key => is_expired x0 now key = true) ks /\ (length ks <= 20 * S n)%nat /\
    events db' = events db ++ (if on_expired_ db then map Expired ks else [])) as Hstop.
  { exists db1, m1, x1, doomed. split_and!; try done. lia. }
  destruct (sampled =? 0)%nat; [done|]. destruct (_ <=? _)%nat; [done|].
  destruct (IH db1 m1 x1 (k + sampled)%nat (total + length doomed)%nat Hh1 Hr1)
    as (db2 & m2 & x2 & ks & -> & Hh2 & Hr2 & Hc2 & Hks & Hl & Hev2).
  exists db2, m2, x2, (doomed ++ ks). split_and!; try done.
  - rewrite length_app. do 2 f_equal. lia.
  - congruence.
  - apply Forall_app. by split.
  - rewrite length_app. lia.
  - rewrite Hev2, Hev1. assert (on_expired_ db1 = on_expired_ db) as -> by (unfold config in Hc1; congruence).
    destruct (on_expired_ db); [|by rewrite !app_nil_r]. by rewrite map_app, app_assoc.
Qed.

Lemma activeExpireCycle_ok db m x rng now :
  holds db m x ->
  exists db' m' x' ks, activeExpireCycle db rng now = Some (db', length ks) /\
    holds db' m' x' /\ reaped now m x m' x' /\ config db' = config db /\
    Forall (fun key => is_expired x now key = true) ks /\ (length ks <= 320)%nat /\
    events db' = events db ++ (if on_expired_ db then map Expired ks else []) /\
    (expiration_enabled_ db = false -> m' = m /\ x' = x /\ ks = []).
Proof.
  intros Hh. unfold activeExpireCycle.
  assert (exists db' m' x' ks, Some (db, 0%nat) = Some (db', length ks) /\
    holds db' m' x' /\ reaped now m x m' x' /\ config db' = config db /\
    Forall (fun key => is_expired x now key = true) ks /\ (length ks <= 320)%nat /\
    events db' = events db ++ (if on_expired_ db then map Expired ks else []) /\
    (expiration_enabled_ db = false -> m' = m /\ x' = x /\ ks = [])) as Hstop.
  { exists db, m, x, []. split_and!; try done; [apply reaped_refl|cbn; lia|].
    case_if; cbn; by rewrite app_nil_r. }
  destruct (expiration_enabled_ db) eqn:En; cbn [negb orb]; [|exact Hstop].
  destruct (msize (expires_ db) =? 0)%nat; [exact Hstop|].
  destruct (expire_loop_ok kActiveExpireMaxIterations db m x m x rng 0 now 0 Hh (reaped_refl _ _ _))
    as (db' & m' & x' & ks & -> & Hh' & Hr & Hc & Hks & Hl & Hev).
  exists db', m', x', ks. split_and!; try done.
Qed.

Lemma random_loop_ok n db m x rng k now :
  holds db m x ->
  exists db' r m' x', random_loop n db rng k now = Some (db', r) /\ holds db' m' x' /\ config db' = config db /\ reaped now m x m' x' /\
    match r with Some key => is_Some (visible m x now !! key) | None => True end.
Proof.
  assert (forall n db1 m1 x1 k, holds db1 m1 x1 -> reaped now m x m1 x1 ->
    exists db' r m' x', random_loop n db1 rng k now = Some (db', r) /\ holds db' m' x' /\ config db' = config db1 /\ reaped now m x m' x' /\
    match r with Some key => is_Some (visible m x now !! key) | None => True end) as Hf.
  2:{ intros Hh. eapply Hf; [done|apply reaped_refl]. }
  clear. induction n as [|n IH]; intros db m1 x1 k Hh Hr; cbn [random_loop]; [by eexists _, None, m1, x1|].
  pose proof (represents_random _ _ _ (rng k) (proj1 Hh)) as Hrnd.
  destruct (mrandom (dict_ db) (rng k)) as [[key v]|]; [|by eexists _, None, m1, x1].
  destruct (expireIfNeeded_ok db m1 x1 key now Hh) as (db1 & -> & Hc & Hstep). cbn [mbind option_bind].
  unfold reaps in Hstep. destruct (is_expired x1 now key) eqn:E; cbn [andb] in Hstep.
  - rewrite <- Hc. destruct (expiration_enabled_ db).
    + apply (IH db1 (delete key m1) (delete key x1)); [apply Hstep|]. eapply reaped_trans; [done|].
      apply reaped_delete; [apply reaped_refl|done].
    + apply (IH db1 m1 x1); [apply Hstep|done].
  - eexists _, (Some key), m1, x1. split_and!; [done|apply Hstep|done|done|]. rewrite <- (visible_reaped now now m x m1 x1 Hr) by lia.
    rewrite visible_lookup, E, Hrnd. by eexists.
Qed.
End Refinement.

(** ** A keyspace with time-to-live *)

(** Requests as the commands compose the operations above: every access to an
    existing key goes through a lookup first (DEL, EXPIRE, PERSIST, INCR and
    the like), SET does not. *)
Inductive request (V : Type) :=
  | Get (k : bytes)
  | Put (k : bytes) (v : V)
  | Update (k : bytes) (f : V -> V)
  | Del (k : bytes)
  | Expire (k : bytes) (at_ms : Z)
  | Persist (k : bytes)
  | Ttl (k : bytes)
  | Cycle (rng : nat -> nat -> Z).
Arguments Get {V}. Arguments Put {V}. Arguments Update {V}. Arguments Del {V}. Arguments Expire {V}.
Arguments Persist {V}. Arguments Ttl {V}. Arguments Cycle {V}.

Inductive answer (V : Type) := AVal (v : option V) | ABool (b : bool) | AInt (z : Z) | ANone.
Arguments AVal {V}. Arguments ABool {V}. Arguments AInt {V}. Arguments ANone {V}.

Section Requests.
Context {D : Type -> Type} {ops : MapOps D}.
Context {V : Type} (touch : V -> Z -> V).

Definition exec (db : t D V) (now : Z) (r : request V) : option (t D V * answer V) :=
  match r with
  | Get k => '(db, v) ← lookupRead touch db k now; Some (db, AVal v)
  | Put k v => db ← setKey db k v; Some (db, ANone)
  | Update k f =>
      '(db, v) ← lookupWrite touch db k now;
      match v with
      | None => Some (db, ABool false)
      | Some v => db ← overwriteValue db k (f v); Some (db, ABool true)
      end
  | Del k =>
      '(db, v) ← lookupRead touch db k now;
      match v with
      | None => Some (db, ABool false)
      | Some _ => '(db, b) ← erase db k; Some (db, ABool b)
      end
  | Expire k at_ms =>
      '(db, v) ← lookupWrite touch db k now;
      match v with
      | None => Some (db, ABool false)
      | Some _ => db ← setExpireAt db k at_ms; Some (db, ABool true)
      end
  | Persist k =>
      '(db, v) ← lookupWrite touch db k now;
      match v with
      | None => Some (db, ABool false)
      | Some _ => '(db, b) ← persist db k; Some (db, ABool b)
      end
  | Ttl k => '(db, z) ← ttlMs touch db k now; Some (db, AInt z)
  | Cycle rng => '(db, _) ← activeExpireCycle db rng now; Some (db, ANone)
  end.

Fixpoint run (db : t D V) (rs : list (Z * request V)) : option (t D V * list (answer V)) :=
  match rs with
  | [] => Some (db, [])
  | (now, r) :: rs => '(db, a) ← exec db now r; '(db, l) ← run db rs; Some (db, a :: l)
  end.

(** The same requests on a map with deadlines in which nothing is ever
    deleted because it expired: expired bindings are just not visible. *)
Definition touched (m : gmap bytes V) (x : gmap bytes Z) (now : Z) (k : bytes) : gmap bytes V :=
  if is_expired x now k then m else alter (fun v => touch v now) k m.

Definition spec_exec (s : gmap bytes V * gmap bytes Z) (now : Z) (r : request V)
    : gmap bytes V * gmap bytes Z * answer V :=
  let '(m, x) := s in
  let seen k := (fun v => touch v now) <$> visible m x now !! k in
  match r with
  | Get k => (touched m x now k, x, AVal (seen k))
  | Put k v => (<[k := v]> m, delete k x, ANone)
  | Update k f =>
      match seen k with
      | None => (touched m x now k, x, ABool false)
      | Some v => (<[k := f v]> (touched m x now k), x, ABool true)
      end
  | Del k =>
      match seen k with
      | None => (touched m x now k, x, ABool false)
      | Some _ => (delete k m, delete k x, ABool true)
      end
  | Expire k at_ms =>
      match seen k with
      | None => (touched m x now k, x, ABool false)
      | Some _ => (touched m x now k, <[k := at_ms]> x, ABool true)
      end
  | Persist k =>
      match seen k with
      | None => (touched m x now k, x, ABool false)
      | Some _ => (touched m x now k, delete k x, ABool (is_some (x !! k)))
      end
  | Ttl k =>
      (touched m x now k, x,
       AInt match seen k with
            | None => -2
            | Some _ => match x !! k with None => -1 | Some w => w - now end
            end)
  | Cycle _ => (m, x, ANone)
  end.

Fixpoint spec_run (s : gmap bytes V * gmap bytes Z) (rs : list (Z * request V))
    : gmap bytes V * gmap bytes Z * list (answer V) :=
  match rs with
  | [] => (s, [])
  | (now, r) :: rs =>
      let '(s, a) := spec_exec s now r in
      let '(s, l) := spec_run s rs in
      (s, a :: l)
  end.
End Requests.

(** The clock does not go back and is not negative; deadlines are int64. *)
Fixpoint schedule {V} (from : Z) (rs : list (Z * request V)) : Prop :=
  match rs with
  | [] => True
  | (now, r) :: rs =>
      from <= now /\ match r with Expire _ at_ms => is_i64 at_ms | _ => True end /\ schedule now rs
  end.

Section Simulation.
Context {D : Type -> Type} {ops : MapOps D} {laws : MapLaws D}.
Context {V : Type} (touch : V -> Z -> V).
Implicit Types (db : t D V) (m : gmap bytes V) (x : gmap bytes Z).

(** The database [db] is the specification state [m, x] at time [now], less
    some bindings that have expired. *)
Definition simulates (now : Z) db m x : Prop :=
  map_Forall (fun _ w => is_i64 w) x /\
  exists mc xc, holds db mc xc /\ reaped now m x mc xc.

Lemma reaped_later now later m x m' x' : now <= later -> reaped now m x m' x' -> reaped later m x m' x'.
Proof.
  intros Hl H j. destruct (H j) as [?|(He & ? & ?)]; [by left|right]. split; [|done].
  by apply (is_expired_mono x now).
Qed.

(** A key whose binding was reaped agrees with the specification on being
    expired. *)
Lemma reaped_expired now m x mc xc k :
  reaped now m x mc xc ->
  (is_expired xc now k = true -> is_expired x now k = true) /\
  (is_expired x now k = false -> mc !! k = m !! k /\ xc !! k = x !! k) /\
  (is_expired x now k = true -> is_expired xc now k = false -> mc !! k = None).
Proof.
  intros H. unfold is_expired in *. destruct (H k) as [[Ha Hb]|(Ha & Hb & Hc)].
  - rewrite Hb. split_and!; try done. intros. congruence.
  - rewrite Hc. unfold is_expired in Ha. rewrite Ha. split_and!; done.
Qed.

Lemma alter_none (f : V -> V) k m : m !! k = None -> alter f k m = m.
Proof.
  intros Hk. apply map_eq. intros j. destruct (decide (j = k)) as [->|].
  - by rewrite lookup_alter_eq, Hk.
  - by rewrite lookup_alter_ne.
Qed.

Lemma reaped_alter now m x mc xc k f :
  reaped now m x mc xc -> is_expired x now k = false ->
  reaped now (alter f k m) x (alter f k mc) xc.
Proof.
  intros H E j. destruct (decide (j = k)) as [->|Hne]; [|rewrite !lookup_alter_ne by done; apply H].
  left. destruct (reaped_expired now m x mc xc k H) as (_ & Hag & _). destruct (Hag E) as [Ha Hb].
  by rewrite !lookup_alter_eq, Ha.
Qed.

(** Changing a key that is not expired the same way on both sides. *)
Lemma reaped_at now m x mc xc k m' x' mc' xc' :
  reaped now m x mc xc ->
  (forall j, j <> k -> m' !! j = m !! j /\ x' !! j = x !! j /\ mc' !! j = mc !! j /\ xc' !! j = xc !! j) ->
  mc' !! k = m' !! k -> xc' !! k = x' !! k -> reaped now m' x' mc' xc'.
Proof.
  intros H Hj Hm Hx j. destruct (decide (j = k)) as [->|Hne]; [by left|].
  destruct (Hj j Hne) as (-> & Hxj & -> & ->). unfold is_expired. rewrite Hxj. apply H.
Qed.

Lemma lookup_sim now db m x mc xc k :
  holds db mc xc -> reaped now m x mc xc ->
  exists db' mc' xc', lookupRead touch db k now = Some (db', (fun v => touch v now) <$> visible m x now !! k) /\
    holds db' mc' xc' /\ reaped now (touched touch m x now k) x mc' xc'.
Proof.
  intros Hh Hr. destruct (lookupRead_ok touch db mc xc k now Hh) as (db' & mc' & xc' & Heq & Hh' & _ & Hc).
  rewrite (visible_reaped now now m x mc xc Hr) in Heq by lia. exists db', mc', xc'. split; [done|]. split; [done|].
  destruct (reaped_expired now m x mc xc k Hr) as (E1 & E2 & E3). unfold touched, reaps in *.
  destruct (is_expired xc now k) eqn:Ec; cbn [andb] in Hc.
  - rewrite E1 by done. destruct (expiration_enabled_ db).
    + destruct Hc as (-> & -> & _). apply reaped_delete; auto.
    + by destruct Hc as (-> & _ & ->).
  - destruct Hc as (-> & _ & ->). destruct (is_expired x now k) eqn:E.
    + by rewrite alter_none by auto.
    + by apply reaped_alter.
Qed.

(** A visible key is resident, with the same value and deadline. *)
Lemma seen_sim now m x mc xc k v :
  reaped now (touched touch m x now k) x mc xc ->
  (fun v => touch v now) <$> visible m x now !! k = Some v ->
  is_expired x now k = false /\ mc !! k = Some v /\ xc !! k = x !! k /\
  touched touch m x now k !! k = Some v.
Proof.
  rewrite visible_lookup. intros Hr Hs. destruct (is_expired x now k) eqn:E; [done|].
  destruct (reaped_expired _ _ _ _ _ k Hr) as (_ & Hag & _). destruct (Hag E) as [Ha Hb].
  assert (touched touch m x now k !! k = Some v) as Ht.
  { unfold touched. by rewrite E, lookup_alter_eq. }
  split_and!; congruence.
Qed.

Lemma exec_sim now db m x r :
  simulates now db m x -> 0 <= now -> match r with Expire _ at_ms => is_i64 at_ms | _ => True end ->
  exists db', exec touch db now r = Some (db', (spec_exec touch (m, x) now r).2) /\
    simulates now db' (spec_exec touch (m, x) now r).1.1 (spec_exec touch (m, x) now r).1.2.
Proof.
  intros (Hx & mc & xc & Hh & Hr) Hnow Hok.
  destruct r as [k|k v|k f|k|k at_ms|k|k|rng]; cbn [exec spec_exec]; unfold lookupWrite.
  - destruct (lookup_sim now db m x mc xc k Hh Hr) as (db1 & mc1 & xc1 & -> & Hh1 & Hr1). cbn.
    eexists. split; [done|]. split; [done|]. by exists mc1, xc1.
  - destruct (setKey_ok db mc xc k v Hh) as (db1 & -> & Hh1 & _). cbn. eexists. split; [done|].
    split; [by apply map_Forall_delete|]. eexists _, _. split; [done|].
    apply (reaped_at now m x mc xc k); [done| |by rewrite !lookup_insert_eq|by rewrite !lookup_delete_eq].
    intros j Hj. by rewrite !lookup_insert_ne, !lookup_delete_ne by done.
  - destruct (lookup_sim now db m x mc xc k Hh Hr) as (db1 & mc1 & xc1 & -> & Hh1 & Hr1). cbn.
    destruct (_ <$> visible m x now !! k) as [v|] eqn:Hs; cbn.
    + destruct (seen_sim _ _ _ _ _ _ _ Hr1 Hs) as (E & Hm & Hxk & _).
      destruct (overwriteValue_ok db1 mc1 xc1 k (f v) Hh1) as (db2 & -> & Hh2 & _). cbn.
      eexists. split; [done|]. split; [done|]. eexists _, _. split; [done|].
      apply (reaped_at now _ x mc1 xc1 k _ _ _ _ Hr1); [|by rewrite !lookup_insert_eq|done].
      intros j Hj. by rewrite !lookup_insert_ne by done.
    + eexists. split; [done|]. split; [done|]. by exists mc1, xc1.
  - destruct (lookup_sim now db m x mc xc k Hh Hr) as (db1 & mc1 & xc1 & -> & Hh1 & Hr1). cbn.
    destruct (_ <$> visible m x now !! k) as [v|] eqn:Hs; cbn.
    + destruct (seen_sim _ _ _ _ _ _ _ Hr1 Hs) as (E & Hm & Hxk & _).
      destruct (db_erase_ok db1 mc1 xc1 k Hh1) as (db2 & -> & Hh2 & _). cbn. rewrite Hm.
      eexists. split; [done|]. split; [by apply map_Forall_delete|]. eexists _, _. split; [done|].
      apply (reaped_at now _ x mc1 xc1 k _ _ _ _ Hr1); [|by rewrite !lookup_delete_eq|by rewrite !lookup_delete_eq].
      intros j Hj. rewrite !lookup_delete_ne by done. unfold touched. rewrite E. by rewrite lookup_alter_ne.
    + eexists. split; [done|]. split; [done|]. by exists mc1, xc1.
  - destruct (lookup_sim now db m x mc xc k Hh Hr) as (db1 & mc1 & xc1 & -> & Hh1 & Hr1). cbn.
    destruct (_ <$> visible m x now !! k) as [v|] eqn:Hs; cbn.
    + destruct (seen_sim _ _ _ _ _ _ _ Hr1 Hs) as (E & Hm & Hxk & Ht).
      destruct (setExpireAt_ok db1 mc1 xc1 k at_ms Hh1) as (db2 & -> & Hh2 & _). cbn.
      eexists. split; [done|]. split; [by apply map_Forall_insert_2|]. eexists _, _. split; [done|].
      apply (reaped_at now _ x mc1 xc1 k _ _ _ _ Hr1); [|congruence|by rewrite !lookup_insert_eq].
      intros j Hj. by rewrite !lookup_insert_ne by done.
    + eexists. split; [done|]. split; [done|]. by exists mc1, xc1.
  - destruct (lookup_sim now db m x mc xc k Hh Hr) as (db1 & mc1 & xc1 & -> & Hh1 & Hr1). cbn.
    destruct (_ <$> visible m x now !! k) as [v|] eqn:Hs; cbn.
    + destruct (seen_sim _ _ _ _ _ _ _ Hr1 Hs) as (E & Hm & Hxk & Ht).
      destruct (persist_ok db1 mc1 xc1 k Hh1) as (db2 & -> & Hh2 & _). cbn. rewrite Hxk.
      eexists. split; [do 3 f_equal; by destruct (x !! k)|]. split; [by apply map_Forall_delete|].
      eexists _, _. split; [done|].
      apply (reaped_at now _ x mc1 xc1 k _ _ _ _ Hr1); [|congruence|by rewrite !lookup_delete_eq].
      intros j Hj. by rewrite !lookup_delete_ne by done.
    + eexists. split; [done|]. split; [done|]. by exists mc1, xc1.
  - unfold ttlMs. destruct (lookup_sim now db m x mc xc k Hh Hr) as (db1 & mc1 & xc1 & -> & Hh1 & Hr1). cbn.
    destruct (_ <$> visible m x now !! k) as [v|] eqn:Hs; cbn.
    + destruct (seen_sim _ _ _ _ _ _ _ Hr1 Hs) as (E & Hm & Hxk & Ht).
      destruct (expireAtMs_ok db1 mc1 xc1 k Hh1) as (db2 & -> & Hh2 & _). cbn. rewrite Hxk.
      exists db2. split; [|split; [done|by exists mc1, xc1]].
      unfold is_expired in E. destruct (x !! k) as [w|] eqn:Hw; [|done]. cbn. bools.
      pose proof (Hx k w Hw) as Hw64. unfold s_range in Hw64. cbn in Hw64.
      destruct (Z.ltb_spec w 0); [lia|]. rewrite swrap_small by (try lia; unfold s_range; cbn; lia).
      by destruct (Z.ltb_spec (w - now) 0); [lia|].
    + eexists. split; [done|]. split; [done|]. by exists mc1, xc1.
  - destruct (activeExpireCycle_ok db mc xc rng now Hh) as (db1 & mc1 & xc1 & ks & -> & Hh1 & Hr1 & _). cbn.
    eexists. split; [done|]. split; [done|]. exists mc1, xc1. split; [done|]. by eapply reaped_trans.
Qed.

Lemma run_sim from db m x rs :
  simulates from db m x -> 0 <= from -> schedule from rs ->
  exists db' last, run touch db rs = Some (db', (spec_run touch (m, x) rs).2) /\ from <= last /\
    simulates last db' (spec_run touch (m, x) rs).1.1 (spec_run touch (m, x) rs).1.2.
Proof.
  revert from db m x. induction rs as [|[now r] rs IH]; intros from db m x Hs Hf Hsch; cbn [run spec_run].
  { exists db, from. split; [done|]. split; [lia|done]. }
  destruct Hsch as (Hle & Hok & Hsch).
  assert (simulates now db m x) as Hs'.
  { destruct Hs as (Hx & mc & xc & Hh & Hr). split; [done|]. exists mc, xc. split; [done|]. by eapply reaped_later. }
  destruct (exec_sim now db m x r Hs' ltac:(lia) Hok) as (db1 & -> & Hs1). cbn [mbind option_bind].
  destruct (spec_exec touch (m, x) now r) as [[m1 x1] a]. cbn [fst snd] in *.
  destruct (IH now db1 m1 x1 Hs1 ltac:(lia) Hsch) as (db2 & last & -> & Hl & Hs2).
  exists db2, last. cbn. destruct (spec_run touch (m1, x1) rs) as [[m2 x2] l]. split; [done|]. split; [lia|done].
Qed.
End Simulation.

(** C17: expiry is unobservable except as disappearance. Any series of
    requests with a clock that does not go back, interleaved with active
    expiry cycles at any times and with any random samples, gets from the
    database exactly the answers it would get from a map with deadlines in
    which expired bindings are merely invisible: lazily deleting on access and
    sampling in the background change no answer, never remove a live key and
    never let an expired one be seen, overwritten in place, persisted or
    counted as deleted. *)
Theorem db_refines_ttl_map {D : Type -> Type} {ops : MapOps D} {laws : MapLaws D} {V : Type}
    (touch : V -> Z -> V) (rs : list (Z * request V)) :
  schedule 0 rs ->
  exists db : t D V, run touch new rs = Some (db, (spec_run touch (∅, ∅) rs).2).
Proof.
  intros Hs. destruct (run_sim touch 0 new ∅ ∅ rs) as (db & last & Hr & _); [|lia|done|by exists db].
  split; [apply map_Forall_empty|]. exists ∅, ∅. split; [apply db_holds_new|apply reaped_refl].
Qed.

Lemma db_refines_ttl_map_witness :
  let rs := [(0, Put (str "k") 1); (1, Expire (str "k") 100); (5, Ttl (str "k"));
             (100, Cycle (fun _ _ => 0)); (101, Get (str "k")); (102, Put (str "k") 7); (200, Get (str "k"))] in
  exists db : t Dict.dict Z,
    run (ops := Dict.dict_ops) (fun v _ => v) (new (ops := Dict.dict_ops)) rs =
      Some (db, (spec_run (fun v _ => v) (∅, ∅) rs).2).
Proof.
  apply (db_refines_ttl_map (laws := Dict.dict_laws) (fun v _ => v)
    [(0, Put (str "k") 1); (1, Expire (str "k") 100); (5, Ttl (str "k"));
     (100, Cycle (fun _ _ => 0)); (101, Get (str "k")); (102, Put (str "k") 7); (200, Get (str "k"))]).
  cbn. repeat split; try lia; decide_now.
Defined.

(** The active cycle counts samples, not keys: with replacement, one key drawn
    twice is reported, and its callback invoked, twice. *)
Lemma active_cycle_counts_duplicates :
  let db := setExpiredKeyCallback (new (ops := Dict.dict_ops) (V := Z)) in
  let put db k := db ← db; db ← setKey (ops := Dict.dict_ops) db k 0; setExpireAt (ops := Dict.dict_ops) db k 10 in
  (db ← put (put (Some db) [1]) [2];
   '(db, n) ← activeExpireCycle (ops := Dict.dict_ops) db (fun _ _ => 0) 20;
   Some (n, size (ops := Dict.dict_ops) db, events db)) =
  Some (3%nat, 0%nat, [Expired [1]; Expired [1]; Expired [2]]).
Proof. vm_compute. done. Qed.
End Db.
