(* ===== verification/Object.v ===== *)
(** * Object: the value object

    [Value] of [src/core/object.h] and [src/core/object.cpp]: a logical type
    and one of several representations. Strings are integers, short immutable
    or mutable byte strings; collections own their encodings. *)

From Stdlib Require Import ZArith Lia.
From stdpp Require Import base list numbers option strings.
From S2P Require Import Prelude Encoding IntSet Listpack MapSpec HashValue ZSetValue SetValue ListValue.

Module Object.
Section Object.
Context {D : Type -> Type} {ops : MapOps D}.

(** [std::variant<int64_t, string, unique_ptr<ListValue>, ...>] *)
Inductive data :=
  | DInt (n : Z) | DStr (s : bytes) | DList (l : ListValue.t) | DHash (h : HashValue.t D)
  | DSet (s : SetValue.t D) | DZSet (z : ZSetValue.t D).

Record value := mk {
  type_ : ObjType; encoding_ : ObjEncoding; data_ : data; last_access_ms_ : Z }.

Definition default : value := mk OString EEmbStr (DStr []) 0.

Definition makeString (s : bytes) : value :=
  match stringToInt64 s with
  | Some n => mk OString EInt (DInt n) 0
  | None => mk OString (if (length s <=? kEmbStrSizeLimit)%nat then EEmbStr else ERaw) (DStr s) 0
  end.

Definition makeRawString (s : bytes) : value := mk OString ERaw (DStr s) 0.
Definition makeInt (n : Z) : value := mk OString EInt (DInt n) 0.
Definition makeList : value := mk OList EEmbStr (DList ListValue.new) 0.
Definition makeHash : value := mk OHash EEmbStr (DHash HashValue.new) 0.
Definition makeSet : value := mk OSet EEmbStr (DSet SetValue.new) 0.
Definition makeZSet : value := mk OZSet EEmbStr (DZSet ZSetValue.new) 0.

(** The copy constructor: collections are rebuilt, never shared. [rng] are the
    levels that the skip list of a copied sorted set draws. *)
Definition copy (rng : nat -> nat -> nat -> Z) (other : value) : option value :=
  let keep d := mk (type_ other) (encoding_ other) d (last_access_ms_ other) in
  match data_ other with
  | DList l => Some (keep (DList l))
  | DHash h => h ← HashValue.copy h; Some (keep (DHash h))
  | DSet s => s ← SetValue.copy s; Some (keep (DSet s))
  | DZSet z => z ← ZSetValue.copy z rng; Some (keep (DZSet z))
  | d => Some (keep d)
  end.

Definition list_ (v : value) : option ListValue.t := match data_ v with DList l => Some l | _ => None end.
Definition hash (v : value) : option (HashValue.t D) := match data_ v with DHash h => Some h | _ => None end.
Definition set_ (v : value) : option (SetValue.t D) := match data_ v with DSet s => Some s | _ => None end.
Definition zset (v : value) : option (ZSetValue.t D) := match data_ v with DZSet z => Some z | _ => None end.

Definition encoding (v : value) : ObjEncoding :=
  match type_ v with
  | OString => encoding_ v
  | OList => from_option ListValue.encoding_ EListPack (list_ v)
  | OHash => from_option HashValue.encoding_ EListPack (hash v)
  | OSet => from_option SetValue.encoding_ EIntSet (set_ v)
  | OZSet => from_option ZSetValue.encoding_ EListPack (zset v)
  end.

Definition elementCount (v : value) : nat :=
  match type_ v with
  | OString => 1
  | OList => from_option ListValue.size 0%nat (list_ v)
  | OHash => from_option HashValue.size 0%nat (hash v)
  | OSet => from_option SetValue.size 0%nat (set_ v)
  | OZSet => from_option ZSetValue.size 0%nat (zset v)
  end.

Definition stringValue (v : value) : bytes :=
  match data_ v with
  | DInt n => if bool_decide (encoding_ v = EInt) then to_string n else []
  | DStr s => s
  | _ => []
  end.

Definition stringRef (v : value) : bytes := match data_ v with DStr s => s | _ => [] end.

Definition asInt (v : value) : option Z :=
  match data_ v with
  | DInt n => Some n
  | DStr s => stringToInt64 s
  | _ => None
  end.

Definition makeMutable (v : value) : value :=
  if bool_decide (encoding_ v = ERaw) then v
  else mk (type_ v) ERaw (DStr (stringValue v)) (last_access_ms_ v).

(** [std::get<std::string>] throws ([None]) on any other arm. *)
Definition appendString (v : value) (suffix : bytes) : option value :=
  let v := makeMutable v in
  match data_ v with
  | DStr s => Some (mk (type_ v) (encoding_ v) (DStr (s ++ suffix)) (last_access_ms_ v))
  | _ => None
  end.

(** The reference returned by [mutableString], as the function that assigns
    through it. *)
Definition mutableString (v : value) : option (bytes * (bytes -> value)) :=
  let v := makeMutable v in
  match data_ v with
  | DStr s => Some (s, fun s' => mk (type_ v) (encoding_ v) (DStr s') (last_access_ms_ v))
  | _ => None
  end.

(** [do { ++len; magnitude /= 10; } while (magnitude > 0)]; 20 turns are
    enough for a 64-bit magnitude. *)
Fixpoint digit_loop (fuel : nat) (len : nat) (magnitude : Z) : nat :=
  match fuel with
  | O => len
  | S fuel =>
      let len := S len in
      let magnitude := magnitude / 10 in
      if 0 <? magnitude then digit_loop fuel len magnitude else len
  end.

Definition stringLength (v : value) : nat :=
  match data_ v with
  | DInt n =>
      let len := if n <? 0 then 1%nat else 0%nat in
      let magnitude := if n <? 0 then u64 (- u64 n) else u64 n in
      digit_loop 20 len magnitude
  | DStr s => length s
  | _ => 0%nat
  end.

Definition touch (v : value) (now_ms : Z) : value := mk (type_ v) (encoding_ v) (data_ v) now_ms.

(** ** Well-formed values *)

(** The representation agrees with the type tag and the encoding tag. *)
Definition wf (v : value) : Prop :=
  match type_ v, data_ v with
  | OString, DInt n => encoding_ v = EInt /\ is_i64 n
  | OString, DStr _ => encoding_ v = EEmbStr \/ encoding_ v = ERaw
  | OList, DList _ | OHash, DHash _ | OSet, DSet _ | OZSet, DZSet _ => True
  | _, _ => False
  end.

Definition is_string (v : value) : Prop := type_ v = OString.

Lemma makeString_wf s : wf (makeString s).
Proof.
  unfold makeString, wf. destruct (stringToInt64 s) as [n|] eqn:E; cbn.
  - split; [done|]. by apply stringToInt64_sound in E as [? _].
  - case_if; auto.
Qed.

Lemma makeString_value s : stringValue (makeString s) = s.
Proof.
  unfold makeString, stringValue. destruct (stringToInt64 s) as [n|] eqn:E; cbn; [|done].
  by apply stringToInt64_sound in E as [_ ->].
Qed.

Lemma stringValue_int v n : wf v -> data_ v = DInt n -> stringValue v = to_string n /\ is_i64 n.
Proof.
  unfold wf, stringValue. intros Hw Hd. rewrite Hd in *.
  destruct (type_ v); try done. destruct Hw as [-> ?]. by rewrite bool_decide_true.
Qed.

Lemma digit_loop_digits fuel len m :
  0 <= m < 10 ^ Z.of_nat fuel -> (0 < fuel)%nat -> digit_loop fuel len m = (len + length (digits m))%nat.
Proof.
  revert len m. induction fuel as [|fuel IH]; intros len m Hm Hf; [lia|]. cbn [digit_loop].
  destruct (Z.ltb_spec 0 (m / 10)) as [Hlt|Hge].
  - assert (10 <= m) by dmlia.
    assert (0 < fuel)%nat. { destruct fuel; [cbn in Hm; lia|lia]. }
    assert (m / 10 < 10 ^ Z.of_nat fuel).
    { apply Z.div_lt_upper_bound; [lia|]. rewrite <- Z.pow_succ_r by lia.
      rewrite <- Nat2Z.inj_succ. lia. }
    rewrite IH, (digits_step m), length_app by lia.
    cbn [length]. lia.
  - rewrite digits_small by dmlia. cbn [length]. lia.
Qed.

Lemma stringLength_value v : wf v -> stringLength v = length (stringValue v).
Proof.
  intros Hw. unfold stringLength. destruct (data_ v) eqn:Hd; try (unfold stringValue; by rewrite Hd).
  destruct (stringValue_int v n Hw Hd) as [-> Hn]. unfold s_range in Hn. cbn in Hn. unfold to_string.
  assert (2 ^ 64 < 10 ^ Z.of_nat 20) by done.
  destruct (Z.ltb_spec n 0).
  - replace (u64 (- u64 n)) with (- n).
    + rewrite digit_loop_digits by lia. done.
    + unfold uwrap. rewrite <- (Z.mod_add n 1 (2 ^ 64)), (Z.mod_small (n + 1 * 2 ^ 64)) by lia.
      rewrite <- (Z.mod_add (- (n + 1 * 2 ^ 64)) 1 (2 ^ 64)), Z.mod_small by lia. lia.
  - rewrite uwrap_small by (unfold u_range; lia). by rewrite digit_loop_digits by lia.
Qed.

Lemma makeMutable_value v : wf v -> is_string v ->
  stringValue (makeMutable v) = stringValue v /\ data_ (makeMutable v) = DStr (stringValue v) /\
  encoding_ (makeMutable v) = ERaw /\ wf (makeMutable v) /\ is_string (makeMutable v).
Proof.
  unfold is_string, makeMutable, wf, stringValue. intros Hw Ht. rewrite Ht in *. case_bool_decide as Hr.
  - destruct (data_ v) eqn:Hd; try done; [by destruct Hw; congruence|]. rewrite Hr, Ht. by split_and!; auto.
  - cbn. by split_and!; auto.
Qed.

Lemma appendString_value v suffix : wf v -> is_string v ->
  exists v', appendString v suffix = Some v' /\ stringValue v' = stringValue v ++ suffix /\
    encoding v' = ERaw /\ wf v' /\ is_string v'.
Proof.
  intros Hw Hs. destruct (makeMutable_value v Hw Hs) as (_ & Hd & He & _ & Ht).
  unfold appendString. rewrite Hd. eexists. split; [done|]. unfold is_string in *. split; [done|]. unfold encoding, wf.
  cbn. rewrite Ht. by split_and!; auto.
Qed.

Lemma asInt_value v : wf v -> is_string v -> asInt v = stringToInt64 (stringValue v).
Proof.
  intros Hw Hs. unfold asInt. destruct (data_ v) eqn:Hd.
  - destruct (stringValue_int v n Hw Hd) as [-> Hn]. by rewrite stringToInt64_to_string.
  - unfold stringValue. by rewrite Hd.
  - unfold wf, is_string in *. rewrite Hs, Hd in Hw. done.
  - unfold wf, is_string in *. rewrite Hs, Hd in Hw. done.
  - unfold wf, is_string in *. rewrite Hs, Hd in Hw. done.
  - unfold wf, is_string in *. rewrite Hs, Hd in Hw. done.
Qed.
End Object.
Arguments value : clear implicits.

(** storing a byte string and reading it back is the identity for every
    string, whichever of the three encodings [makeString] picks: the integer
    encoding exactly for canonical int64 spellings, otherwise embstr up to 44
    bytes and raw beyond; the length computed without materialising an
    integer is the length of its text, and [asInt] is the strict parse of it. *)
Theorem makeString_faithful {D : Type -> Type} {ops : MapOps D} (s : bytes) :
  let v : value D := makeString s in
  stringValue v = s /\ stringLength v = length s /\ asInt v = stringToInt64 s /\
  encoding_ v =
    (if is_some (stringToInt64 s) then EInt else if (length s <=? kEmbStrSizeLimit)%nat then EEmbStr else ERaw).
Proof.
  cbv zeta. pose proof (makeString_wf (D := D) s) as Hw.
  assert (is_string (makeString (D := D) s)) as Hs
    by (unfold is_string, makeString; by destruct (stringToInt64 s)).
  split; [apply makeString_value|]. split; [rewrite (stringLength_value _ Hw); by rewrite makeString_value|].
  split; [rewrite (asInt_value _ Hw Hs); by rewrite makeString_value|].
  unfold makeString. by destruct (stringToInt64 s).
Qed.

(** Successive APPENDs to a value. *)
Fixpoint append_all {D} (v : value D) (suffixes : list bytes) : option (value D) :=
  match suffixes with
  | [] => Some v
  | s :: suffixes => v ← appendString v s; append_all v suffixes
  end.

Lemma append_all_value {D} (v : value D) suffixes :
  wf v -> is_string v -> exists v', append_all v suffixes = Some v' /\ wf v' /\ is_string v' /\
    stringValue v' = stringValue v ++ concat suffixes.
Proof.
  revert v. induction suffixes as [|s suffixes IH]; intros v Hw Hs; cbn [append_all concat].
  - exists v. by rewrite app_nil_r.
  - destruct (appendString_value v s Hw Hs) as (v1 & -> & Hv1 & _ & Hw1 & Hs1). cbn [mbind option_bind].
    destruct (IH v1 Hw1 Hs1) as (v2 & -> & Hw2 & Hs2 & Hv2). exists v2. by rewrite Hv2, Hv1, app_assoc.
Qed.

(** appending to a stored string never fails and never goes through the
    wrong variant arm, whatever encoding it starts in: after any number of
    appends the value is the concatenation, its reported length is the
    concatenation's length, and it parses as an integer exactly when the
    concatenation does. *)
Theorem append_concatenates {D : Type -> Type} (s : bytes) (suffixes : list bytes) :
  exists v : value D, append_all (makeString s) suffixes = Some v /\
    stringValue v = s ++ concat suffixes /\ stringLength v = length (s ++ concat suffixes) /\
    asInt v = stringToInt64 (s ++ concat suffixes).
Proof.
  assert (is_string (makeString (D := D) s)) as Hs
    by (unfold is_string, makeString; by destruct (stringToInt64 s)).
  destruct (append_all_value (makeString s) suffixes (makeString_wf s) Hs) as (v & -> & Hw & Hst & Hv).
  rewrite makeString_value in Hv. exists v. split; [done|]. split; [done|].
  by rewrite stringLength_value, asInt_value, Hv by done.
Qed.
End Object.
