(* ===== verification/Resp.v ===== *)
(** * Resp: the wire protocol

    [src/net/resp.h] and [src/net/resp.cpp]: the incremental request parser,
    the inline-command splitter, the reply writer, and the reply parser.
    Buffers are modelled by the bytes from the current position on, and a
    parser reports how many of them it consumed (the advance of [pos]). *)

From Stdlib Require Import ZArith Lia.
From stdpp Require Import base sets list numbers option strings.
From S2P Require Import Prelude Encoding.

Module Resp.

Definition kMaxMultibulkLength : Z := 1024 * 1024.
Definition kMaxBulkLength : Z := 512 * 1024 * 1024.
Definition kMaxInlineRequest : nat := Z.to_nat (64 * 1024).

Definition crlf : bytes := [13; 10].

(** ** Lexical helpers *)

Definition is_digit (c : Z) : bool := (48 <=? c) && (c <=? 57).

(** [std::from_chars] into a 64-bit [long], required to consume the whole
    span: an optional minus sign, at least one digit, no overflow. *)
Definition parseLong (s : bytes) : option Z :=
  let negative := match s with 45 :: _ => true | _ => false end in
  let ds := if negative then tail s else s in
  if (length ds =? 0)%nat || negb (forallb is_digit ds) then None
  else
    let v := if negative then - dec_val 0 ds else dec_val 0 ds in
    if (- 2 ^ 63 <=? v) && (v <? 2 ^ 63) then Some v else None.

(** [buf.find('\n', pos)], relative to [pos]. *)
Fixpoint find_nl (rest : bytes) : option nat :=
  match rest with
  | [] => None
  | c :: rest => if c =? 10 then Some 0%nat else S <$> find_nl rest
  end.

(** The index of the carriage return that ends the line. *)
Definition findCrlf (rest : bytes) : option nat :=
  match find_nl rest with
  | None => None
  | Some nl =>
      if (nl =? 0)%nat || negb (rest !!! (nl - 1)%nat =? 13) then None else Some (nl - 1)%nat
  end.

Definition hexDigitToInt (c : Z) : option Z :=
  if (48 <=? c) && (c <=? 57) then Some (c - 48)
  else if (97 <=? c) && (c <=? 102) then Some (c - 97 + 10)
  else if (65 <=? c) && (c <=? 70) then Some (c - 65 + 10)
  else None.

(** [std::isspace] in the C locale. *)
Definition isspace (c : Z) : bool := (c =? 32) || ((9 <=? c) && (c <=? 13)).

(** ** Splitting an inline command *)

Inductive quote_mode := Plain | InDouble | InSingle.

Definition at_boundary (rest : bytes) : bool :=
  match rest with [] => true | c :: _ => isspace c end.

Definition unescape (c : Z) : Z :=
  if c =? 110 then 10 else if c =? 114 then 13 else if c =? 116 then 9
  else if c =? 98 then 8 else if c =? 97 then 7 else c.

(** The inner loop: the token, and the bytes from where it stopped; [None] for
    unbalanced quotes. *)
Fixpoint token (mode : quote_mode) (current rest : bytes) : option (bytes * bytes) :=
  match mode, rest with
  | InDouble, [] => None
  | InDouble, c :: rest' =>
      if c =? 92 then
        match rest' with
        | [] => token InDouble (current ++ [c]) rest'
        | e :: r1 =>
            let literal := token InDouble (current ++ [unescape e]) r1 in
            if e =? 120 then
              match r1 with
              | h1 :: h2 :: r3 =>
                  match hexDigitToInt h1, hexDigitToInt h2 with
                  | Some a, Some b => token InDouble (current ++ [u8 (a * 16 + b)]) r3
                  | _, _ => literal
                  end
              | _ => literal
              end
            else literal
        end
      else if c =? 34 then if at_boundary rest' then Some (current, rest') else None
      else token InDouble (current ++ [c]) rest'
  | InSingle, [] => None
  | InSingle, c :: rest' =>
      let literal := token InSingle (current ++ [c]) rest' in
      if c =? 92 then
        match rest' with
        | e :: r1 => if e =? 39 then token InSingle (current ++ [39]) r1 else literal
        | [] => literal
        end
      else if c =? 39 then if at_boundary rest' then Some (current, rest') else None
      else literal
  | Plain, [] => Some (current, [])
  | Plain, c :: rest' =>
      if (c =? 32) || (c =? 10) || (c =? 13) || (c =? 9) || (c =? 0) then Some (current, rest)
      else if c =? 34 then token InDouble current rest'
      else if c =? 39 then token InSingle current rest'
      else token Plain (current ++ [c]) rest'
  end.

Fixpoint skip_space (rest : bytes) : bytes :=
  match rest with
  | c :: rest' => if isspace c then skip_space rest' else rest
  | [] => []
  end.

(** The outer loop. [None]: the loop has not ended within [fuel] turns;
    [Some None]: unbalanced quotes. *)
Fixpoint splitArgs_loop (fuel : nat) (rest : bytes) (out : list bytes) : option (option (list bytes)) :=
  match fuel with
  | O => None
  | S fuel =>
      match skip_space rest with
      | [] => Some (Some out)
      | rest =>
          match token Plain [] rest with
          | None => Some None
          | Some (current, rest) => splitArgs_loop fuel rest (out ++ [current])
          end
      end
  end.

Definition splitArgs (line : bytes) : option (option (list bytes)) :=
  splitArgs_loop (S (length line)) line [].

(** ** The request parser *)

Record parser := mk { argv_ : list bytes; multibulk_len_ : Z; bulk_len_ : Z }.

Definition reset : parser := mk [] 0 (-1).

Inductive status := Incomplete | Complete (argv : list bytes) | Error (message : bytes) | Diverges.

Definition too_big (rest : bytes) : bool := (kMaxInlineRequest <? length rest)%nat.

Definition parseInline (p : parser) (rest : bytes) : status * parser * nat :=
  match find_nl rest with
  | None =>
      if too_big rest then (Error (str "Protocol error: too big inline request"), p, 0%nat)
      else (Incomplete, p, 0%nat)
  | Some nl =>
      let line_end := if (0 <? nl)%nat && (rest !!! (nl - 1)%nat =? 13) then (nl - 1)%nat else nl in
      let line := take line_end rest in
      match splitArgs line with
      | None => (Diverges, p, (nl + 1)%nat)
      | Some None => (Error (str "Protocol error: unbalanced quotes in request"), p, (nl + 1)%nat)
      | Some (Some parts) => (Complete parts, reset, (nl + 1)%nat)
      end
  end.

(** The payload of a bulk whose length is known, then the next one. *)
Fixpoint body (n : nat) (argv : list bytes) (bulk_len : Z) (rest : bytes) (consumed : nat)
    : status * parser * nat :=
  match n with
  | O => (Complete argv, reset, consumed)
  | S n' =>
      let payload bulk_len rest consumed :=
        let len := Z.to_nat bulk_len in
        if (length rest <? len + 2)%nat
        then (Incomplete, mk argv (Z.of_nat n) bulk_len, consumed)
        else body n' (argv ++ [take len rest]) (-1) (drop (len + 2) rest) (consumed + len + 2) in
      if bulk_len =? -1 then
        match findCrlf rest with
        | None =>
            if too_big rest
            then (Error (str "Protocol error: too big bulk count string"), mk argv (Z.of_nat n) bulk_len, consumed)
            else (Incomplete, mk argv (Z.of_nat n) bulk_len, consumed)
        | Some cr =>
            if negb (rest !!! 0%nat =? 36)
            then (Error (str "Protocol error: expected '$', got '" ++ [rest !!! 0%nat] ++ str "'"),
                  mk argv (Z.of_nat n) bulk_len, consumed)
            else
              match parseLong (take (cr - 1) (drop 1 rest)) with
              | Some len =>
                  if (len <? 0) || (kMaxBulkLength <? len)
                  then (Error (str "Protocol error: invalid bulk length"), mk argv (Z.of_nat n) bulk_len, consumed)
                  else payload len (drop (cr + 2) rest) (consumed + cr + 2)%nat
              | None => (Error (str "Protocol error: invalid bulk length"), mk argv (Z.of_nat n) bulk_len, consumed)
              end
        end
      else payload bulk_len rest consumed
  end.

Definition parseMultibulk (p : parser) (rest : bytes) : status * parser * nat :=
  if multibulk_len_ p =? 0 then
    match findCrlf rest with
    | None =>
        if too_big rest then (Error (str "Protocol error: too big mbulk count string"), p, 0%nat)
        else (Incomplete, p, 0%nat)
    | Some cr =>
        match parseLong (take (cr - 1) (drop 1 rest)) with
        | Some count =>
            if kMaxMultibulkLength <? count
            then (Error (str "Protocol error: invalid multibulk length"), p, 0%nat)
            else if count <=? 0 then (Complete [], reset, (cr + 2)%nat)
            else body (Z.to_nat count) [] (bulk_len_ p) (drop (cr + 2) rest) (cr + 2)
        | None => (Error (str "Protocol error: invalid multibulk length"), p, 0%nat)
        end
    end
  else body (Z.to_nat (multibulk_len_ p)) (argv_ p) (bulk_len_ p) rest 0.

Definition parse (p : parser) (rest : bytes) : status * parser * nat :=
  if (length rest =? 0)%nat && (multibulk_len_ p =? 0) then (Incomplete, p, 0%nat)
  else if (multibulk_len_ p =? 0) && negb (rest !!! 0%nat =? 42) then parseInline p rest
  else parseMultibulk p rest.

(** ** The command encoder *)

Definition encodeArg (a : bytes) : bytes :=
  [36] ++ to_string (Z.of_nat (length a)) ++ crlf ++ a ++ crlf.

Definition encodeCommand (argv : list bytes) : bytes :=
  [42] ++ to_string (Z.of_nat (length argv)) ++ crlf ++ concat (map encodeArg argv).

Example sample_parse :
  let stream := encodeCommand [str "SET"; str "k"; str "v"] ++ str "PING" ++ crlf in
  (parse reset stream).1 = (Complete [str "SET"; str "k"; str "v"], reset) /\
  (parse reset (drop (length (encodeCommand [str "SET"; str "k"; str "v"])) stream)).1 = (Complete [str "PING"], reset).
Proof. vm_compute. done. Qed.

(** ** Numbers and lines *)

Lemma is_digit_true c : Encoding.is_digit c -> is_digit c = true.
Proof. unfold Encoding.is_digit, is_digit. intros. apply andb_true_iff. split; lia. Qed.

Lemma digits_forallb n : 0 <= n -> forallb is_digit (digits n) = true.
Proof.
  intros Hn. apply forallb_forall. intros c Hc. apply is_digit_true.
  pose proof (digits_digit n Hn) as H. rewrite List.Forall_forall in H. auto.
Qed.

Lemma parseLong_to_string n : is_i64 n -> parseLong (to_string n) = Some n.
Proof.
  unfold s_range, to_string, parseLong. change (64 - 1) with 63. intros Hn.
  destruct (Z.ltb_spec n 0); cbn [tail]; cbv zeta.
  - pose proof (length_digits_pos (- n)). rewrite digits_forallb, dec_val_digits by lia.
    destruct (Nat.eqb_spec (length (digits (- n))) 0); [lia|]. cbn [orb negb].
    rewrite Z.opp_involutive. by rewrite (proj2 (Z.leb_le _ _)), (proj2 (Z.ltb_lt _ _)) by lia.
  - pose proof (length_digits_pos n).
    destruct (digits_cons n) as (d & ds & E & Hd & _); [lia|].
    assert (match digits n with 45 :: _ => true | _ => false end = false) as ->.
    { rewrite E. unfold Encoding.is_digit in Hd. destruct (decide (d = 45)); [lia|].
      destruct d as [|p|p]; try done. repeat (destruct p as [p|p|]; try done). }
    rewrite digits_forallb, dec_val_digits by lia.
    destruct (Nat.eqb_spec (length (digits n)) 0); [lia|]. cbn [orb negb].
    by rewrite (proj2 (Z.leb_le _ _)), (proj2 (Z.ltb_lt _ _)) by lia.
Qed.

Lemma to_string_no_nl n : Forall (fun c => c <> 10) (to_string n).
Proof.
  unfold to_string. destruct (Z.ltb_spec n 0); [constructor; [done|]|];
    (eapply List.Forall_impl; [|apply digits_digit; lia]); unfold Encoding.is_digit; intros; lia.
Qed.

Lemma find_nl_app l rest : Forall (fun c => c <> 10) l -> find_nl (l ++ rest) = (fun n => length l + n)%nat <$> find_nl rest.
Proof.
  induction 1 as [|c l Hc _ IH]; simpl; [by destruct (find_nl rest)|].
  destruct (Z.eqb_spec c 10); [done|]. rewrite IH. by destruct (find_nl rest).
Qed.

Lemma find_nl_more rest more nl : find_nl rest = Some nl -> find_nl (rest ++ more) = Some nl.
Proof.
  revert nl. induction rest as [|c rest IH]; intros nl; [done|]. simpl.
  destruct (c =? 10); [done|]. destruct (find_nl rest) as [k|]; [|done].
  intros [= <-]. by rewrite (IH k).
Qed.

Lemma find_nl_bound rest nl : find_nl rest = Some nl -> (nl < length rest)%nat.
Proof.
  revert nl. induction rest as [|c rest IH]; intros nl; [done|]. simpl.
  destruct (c =? 10); [intros [= <-]; lia|]. destruct (find_nl rest) as [k|]; [|done].
  intros [= <-]. specialize (IH k eq_refl). lia.
Qed.

Lemma lookup_total_app_l' (l k : bytes) i : (i < length l)%nat -> (l ++ k) !!! i = l !!! i.
Proof. intros. rewrite !list_lookup_total_alt. by rewrite lookup_app_l. Qed.

Lemma findCrlf_more rest more cr : findCrlf rest = Some cr -> findCrlf (rest ++ more) = Some cr.
Proof.
  unfold findCrlf. destruct (find_nl rest) as [nl|] eqn:E; [|done].
  rewrite (find_nl_more _ more _ E). apply find_nl_bound in E.
  by rewrite lookup_total_app_l' by lia.
Qed.

Lemma findCrlf_bound rest cr : findCrlf rest = Some cr -> (cr + 2 <= length rest)%nat.
Proof.
  unfold findCrlf. destruct (find_nl rest) as [nl|] eqn:E; [|done]. apply find_nl_bound in E.
  destruct (Nat.eqb_spec nl 0); [done|]. cbn [orb]. destruct (negb _); [done|]. intros [= <-]. lia.
Qed.

Lemma findCrlf_line l rest :
  Forall (fun c => c <> 10) l -> findCrlf (l ++ crlf ++ rest) = Some (length l).
Proof.
  intros Hl. unfold findCrlf, crlf. rewrite find_nl_app by done. simpl.
  destruct (Nat.eqb_spec (length l + 1) 0); [lia|]. cbn [orb].
  replace (length l + 1 - 1)%nat with (length l) by lia.
  rewrite list_lookup_total_alt, lookup_app_r, Nat.sub_diag by lia. done.
Qed.

#[local] Opaque kMaxInlineRequest.

(** ** Resuming the request parser *)

(** A header line [<type><number>\r\n], as the three places that read one
    take it apart. *)
Lemma header_line ty n rest :
  ty <> 10 ->
  findCrlf (ty :: to_string n ++ crlf ++ rest) = Some (S (length (to_string n))) /\
  take (S (length (to_string n)) - 1) (drop 1 (ty :: to_string n ++ crlf ++ rest)) = to_string n /\
  drop (S (length (to_string n)) + 2) (ty :: to_string n ++ crlf ++ rest) = rest.
Proof.
  intros Hty. split; [|split].
  - apply (findCrlf_line (ty :: to_string n)). constructor; [done|apply to_string_no_nl].
  - cbn [drop]. rewrite Nat.sub_succ, Nat.sub_0_r. apply take_app_length.
  - cbn [Nat.add drop]. rewrite <- drop_drop, drop_app_length. done.
Qed.

Definition shift (n : nat) (r : status * parser * nat) : status * parser * nat :=
  (r.1, (n + r.2)%nat).

Lemma body_consumed n argv bl rest c :
  body n argv bl rest c = shift c (body n argv bl rest 0).
Proof.
  revert argv bl rest c. induction n as [|n IH]; intros argv bl rest c;
    [unfold shift; simpl; by rewrite Nat.add_0_r|].
  cbn [body]. cbv zeta. unfold shift at 1.
  assert (forall len r c k, k = (c + len + 2)%nat ->
    body n (argv ++ [take len r]) (-1) (drop (len + 2) r) k =
    shift c (body n (argv ++ [take len r]) (-1) (drop (len + 2) r) (len + 2))) as H.
  { intros len r c' k ->. rewrite (IH _ _ _ (_ + _ + _)%nat), (IH _ _ _ (len + 2)%nat). unfold shift. simpl.
    f_equal. lia. }
  destruct (bl =? -1).
  - destruct (findCrlf rest) as [cr|]; [|case_if; simpl; by rewrite Nat.add_0_r].
    case_if; [simpl; by rewrite Nat.add_0_r|].
    destruct (parseLong _) as [len|]; [|simpl; by rewrite Nat.add_0_r].
    case_if; [simpl; by rewrite Nat.add_0_r|].
    case_if; [simpl; f_equal; lia|].
    rewrite (H (Z.to_nat len) _ (c + cr + 2)%nat _ eq_refl).
    rewrite (H (Z.to_nat len) _ (0 + cr + 2)%nat _ eq_refl). unfold shift. simpl. f_equal. lia.
  - case_if; [simpl; by rewrite Nat.add_0_r|]. rewrite (H (Z.to_nat bl) _ c _ eq_refl). done.
Qed.

(** One turn of the loop when the length of the bulk is known. *)
Lemma body_payload n argv bl rest c :
  0 <= bl ->
  body (S n) argv bl rest c =
    if (length rest <? Z.to_nat bl + 2)%nat then (Incomplete, mk argv (Z.of_nat (S n)) bl, c)
    else body n (argv ++ [take (Z.to_nat bl) rest]) (-1) (drop (Z.to_nat bl + 2) rest) (c + Z.to_nat bl + 2).
Proof. intros. cbn [body]. cbv zeta. rewrite (proj2 (Z.eqb_neq bl (-1))) by lia. done. Qed.

(** One turn when its header comes first: the same turn after the header. *)
Lemma body_header n argv rest c cr len :
  findCrlf rest = Some cr -> rest !!! 0%nat = 36 ->
  parseLong (take (cr - 1) (drop 1 rest)) = Some len -> 0 <= len <= kMaxBulkLength ->
  body (S n) argv (-1) rest c = body (S n) argv len (drop (cr + 2) rest) (c + cr + 2).
Proof.
  intros Hcr H0 Hp Hlen. rewrite (body_payload n argv len) by lia. cbn [body]. cbv zeta.
  rewrite Hcr, H0, Hp. cbn [Z.eqb negb Pos.eqb].
  destruct (Z.ltb_spec len 0); [lia|]. destruct (Z.ltb_spec kMaxBulkLength len); [lia|]. done.
Qed.

(** When the header is refused or missing, nothing is consumed. *)
Lemma body_no_header n argv rest c st p k :
  body (S n) argv (-1) rest c = (st, p, k) ->
  (exists cr len, findCrlf rest = Some cr /\ rest !!! 0%nat = 36 /\
     parseLong (take (cr - 1) (drop 1 rest)) = Some len /\ 0 <= len <= kMaxBulkLength) \/
  (k = c /\ p = mk argv (Z.of_nat (S n)) (-1) /\ (st = Incomplete \/ exists e, st = Error e)).
Proof.
  cbn [body]. cbv zeta. cbn [Z.eqb Pos.eqb].
  destruct (findCrlf rest) as [cr|]; [|case_if; intros; simplify_eq; eauto 10].
  case_if; [intros; simplify_eq; eauto 10|]. bools.
  destruct (parseLong _) as [len|] eqn:Hp; [|intros; simplify_eq; eauto 10].
  destruct ((len <? 0) || (kMaxBulkLength <? len)) eqn:Hl; [intros; simplify_eq; eauto 10|].
  bools. intros _. left. exists cr, len. repeat split; auto.
Qed.

Lemma header_more rest more cr k :
  findCrlf rest = Some cr -> (k <= cr + 2)%nat ->
  (rest ++ more) !!! 0%nat = rest !!! 0%nat /\
  take (cr - 1) (drop 1 (rest ++ more)) = take (cr - 1) (drop 1 rest) /\
  drop k (rest ++ more) = drop k rest ++ more.
Proof.
  intros Hcr Hk. apply findCrlf_bound in Hcr. split; [|split].
  - apply lookup_total_app_l'. lia.
  - rewrite drop_app_le by lia. rewrite take_app_le; [done|]. rewrite length_drop. lia.
  - apply drop_app_le. lia.
Qed.

(** The bulk length of a parser is either unknown or non-negative. *)
Definition known_or_unset (bl : Z) : Prop := bl = -1 \/ 0 <= bl.

(** An interrupted body, continued with more bytes, is the body on all of
    them. *)
Lemma body_resume n argv bl rest more c p k :
  known_or_unset bl ->
  body n argv bl rest c = (Incomplete, p, k) ->
  exists d, k = (c + d)%nat /\ (d <= length rest)%nat /\ 0 < multibulk_len_ p /\ known_or_unset (bulk_len_ p) /\
    body n argv bl (rest ++ more) c =
    body (Z.to_nat (multibulk_len_ p)) (argv_ p) (bulk_len_ p) (drop d rest ++ more) k.
Proof.
  revert argv bl rest c. induction n as [|n IH]; intros argv bl rest c Hbl; [done|].
  assert (forall argv bl rest c, 0 <= bl -> body (S n) argv bl rest c = (Incomplete, p, k) ->
    exists d, k = (c + d)%nat /\ (d <= length rest)%nat /\ 0 < multibulk_len_ p /\ known_or_unset (bulk_len_ p) /\
    body (S n) argv bl (rest ++ more) c =
    body (Z.to_nat (multibulk_len_ p)) (argv_ p) (bulk_len_ p) (drop d rest ++ more) k) as Hpay.
  { clear argv bl rest c Hbl. intros argv bl rest c Hbl. rewrite body_payload by done.
    destruct (Nat.ltb_spec (length rest) (Z.to_nat bl + 2)).
    - intros [= <- <-]. exists 0%nat. cbn [multibulk_len_ argv_ bulk_len_]. rewrite Nat2Z.id, drop_0.
      unfold known_or_unset. repeat split; lia.
    - intros Hb. apply IH in Hb as (d & -> & Hd & Hm & Hk & He); [|by left].
      exists (Z.to_nat bl + 2 + d)%nat. rewrite length_drop in Hd. split; [lia|]. split; [lia|]. split; [done|].
      split; [done|]. rewrite body_payload by done.
      destruct (Nat.ltb_spec (length (rest ++ more)) (Z.to_nat bl + 2)); [rewrite length_app in *; lia|].
      rewrite take_app_le, drop_app_le by lia. rewrite He, drop_drop. done. }
  destruct Hbl as [->|Hbl]; [|by apply Hpay].
  intros Hb. pose proof Hb as Hb'. apply body_no_header in Hb' as [(cr & len & Hcr & H0 & Hp & Hlen)|(-> & -> & _)].
  - rewrite (body_header _ _ _ _ cr len) in Hb by done. apply Hpay in Hb as (d & -> & Hd & Hm & Hk & He); [|lia].
    destruct (header_more rest more cr (cr + 2) Hcr ltac:(lia)) as (G0 & Gt & Gd).
    pose proof (findCrlf_bound _ _ Hcr). rewrite length_drop in Hd.
    exists (cr + 2 + d)%nat. split; [lia|]. split; [lia|]. split; [done|]. split; [done|].
    rewrite (body_header _ _ _ _ cr len); [|by apply findCrlf_more|congruence|congruence|done].
    rewrite Gd, He, drop_drop. done.
  - exists 0%nat. cbn [multibulk_len_ argv_ bulk_len_]. rewrite Nat2Z.id, drop_0, Nat.add_0_r.
    unfold known_or_unset. repeat split; lia.
Qed.

(** A finished body does not look at the bytes after it. *)
Lemma body_complete_more n argv bl rest more c out p k :
  known_or_unset bl ->
  body n argv bl rest c = (Complete out, p, k) ->
  body n argv bl (rest ++ more) c = (Complete out, p, k) /\ p = reset /\ (c + 2 * n <= k <= c + length rest)%nat.
Proof.
  revert argv bl rest c. induction n as [|n IH]; intros argv bl rest c Hbl.
  { intros [= <- <- <-]. split; [done|]. split; [done|lia]. }
  assert (forall bl rest c, 0 <= bl -> body (S n) argv bl rest c = (Complete out, p, k) ->
    body (S n) argv bl (rest ++ more) c = (Complete out, p, k) /\ p = reset /\ (c + 2 * S n <= k <= c + length rest)%nat) as Hpay.
  { clear bl rest c Hbl. intros bl rest c Hbl. rewrite !body_payload by done.
    destruct (Nat.ltb_spec (length rest) (Z.to_nat bl + 2)); [done|].
    destruct (Nat.ltb_spec (length (rest ++ more)) (Z.to_nat bl + 2)); [rewrite length_app in *; lia|].
    rewrite take_app_le, drop_app_le by lia. intros Hb. apply IH in Hb as (-> & -> & Hk); [|by left].
    rewrite length_drop in Hk. split; [done|]. split; [done|lia]. }
  destruct Hbl as [->|Hbl]; [|by apply Hpay].
  intros Hb. pose proof Hb as Hb'.
  apply body_no_header in Hb' as [(cr & len & Hcr & H0 & Hp & Hlen)|(-> & -> & [?|[? ?]])]; [|done..].
  destruct (header_more rest more cr (cr + 2) Hcr ltac:(lia)) as (G0 & Gt & Gd).
  pose proof (findCrlf_bound _ _ Hcr).
  rewrite (body_header _ _ _ _ cr len) in Hb by done. apply Hpay in Hb as (Hb & -> & Hk); [|lia].
  rewrite length_drop in Hk.
  rewrite (body_header _ _ _ _ cr len); [|by apply findCrlf_more|congruence|congruence|done].
  rewrite Gd. split; [done|]. split; [done|lia].
Qed.

(** What every parser the server holds satisfies. *)
Definition wf (p : parser) : Prop := known_or_unset (bulk_len_ p) /\ 0 <= multibulk_len_ p.

Lemma wf_reset : wf reset.
Proof. split; [by left|done]. Qed.
#[export] Hint Resolve wf_reset : mnemos.

Lemma parse_resume p rest more p' n :
  wf p -> parse p rest = (Incomplete, p', n) ->
  (n <= length rest)%nat /\ wf p' /\
  parse p (rest ++ more) = shift n (parse p' (drop n rest ++ more)).
Proof.
  intros [Hwf Hge] Hparse.
  assert (forall k argv r d, (d <= length rest)%nat -> drop d rest = r ->
    body k argv (bulk_len_ p) r d = (Incomplete, p', n) ->
    (n <= length rest)%nat /\ wf p' /\
    body k argv (bulk_len_ p) (r ++ more) d = shift n (parse p' (drop n rest ++ more))) as Hbody.
  { intros k argv r d Hd Hr Hb. apply (body_resume _ _ _ _ more) in Hb as (e & -> & He & Hm & Hk & ->); [|done].
    rewrite <- Hr, length_drop in He. split; [lia|]. split; [split; [done|lia]|].
    rewrite body_consumed, <- Hr, drop_drop. f_equal. unfold parse, parseMultibulk.
    destruct (Z.eqb_spec (multibulk_len_ p') 0); [lia|]. by rewrite andb_false_r. }
  assert (Incomplete = Incomplete /\ p = p' /\ 0%nat = n -> (n <= length rest)%nat /\ wf p' /\
    parse p (rest ++ more) = shift n (parse p' (drop n rest ++ more))) as Hsame.
  { intros (_ & <- & <-). rewrite drop_0. split; [lia|]. split; [done|]. by destruct (parse p (rest ++ more)). }
  revert Hparse. unfold parse at 1.
  destruct ((length rest =? 0)%nat && (multibulk_len_ p =? 0)) eqn:E0.
  { intros; simplify_eq; auto. }
  destruct ((multibulk_len_ p =? 0) && negb (rest !!! 0%nat =? 42)) eqn:E1.
  { unfold parseInline. destruct (find_nl rest); [|case_if; [done|]; intros; simplify_eq; auto].
    destruct (splitArgs _) as [[?|]|]; done. }
  unfold parseMultibulk at 1. destruct (Z.eqb_spec (multibulk_len_ p) 0) as [Hm|Hm].
  - destruct (findCrlf rest) as [cr|] eqn:Hcr; [|case_if; [done|]; intros; simplify_eq; auto].
    destruct (parseLong _) as [count|] eqn:Hp; [|done].
    destruct (kMaxMultibulkLength <? count) eqn:Hmax; [done|].
    destruct (count <=? 0) eqn:Hpos; [done|]. intros Hb.
    pose proof (findCrlf_bound _ _ Hcr).
    destruct (header_more rest more cr (cr + 2) Hcr ltac:(lia)) as (G0 & Gt & Gd).
    apply Hbody in Hb as (Hn & Hw & Hb); [|lia|done]. split; [done|]. split; [done|].
    unfold parse at 1, parseMultibulk at 1. rewrite G0, (proj2 (Z.eqb_eq _ 0)) by done.
    rewrite length_app. destruct (Nat.eqb_spec (length rest + length more) 0); [lia|]. cbn [andb].
    cbn [andb] in E1. rewrite E1.
    by rewrite (findCrlf_more _ _ _ Hcr), Gt, Hp, Hmax, Hpos, Gd.
  - intros Hb. apply (Hbody _ _ rest 0%nat) in Hb as (Hn & Hw & Hb); [|lia|by rewrite drop_0].
    split; [done|]. split; [done|]. unfold parse at 1, parseMultibulk at 1.
    rewrite (proj2 (Z.eqb_neq _ 0)) by done. by rewrite andb_false_r.
Qed.

Lemma parse_complete_more p rest more out p' n :
  wf p -> parse p rest = (Complete out, p', n) ->
  parse p (rest ++ more) = (Complete out, p', n) /\ p' = reset /\ (1 <= n <= length rest)%nat.
Proof.
  intros [Hwf Hge]. unfold parse.
  destruct ((length rest =? 0)%nat && (multibulk_len_ p =? 0)) eqn:E0; [done|].
  destruct ((multibulk_len_ p =? 0) && negb (rest !!! 0%nat =? 42)) eqn:E1.
  - apply andb_true_iff in E1 as [Em E42]. rewrite Em in E0 |- *. rewrite andb_true_r in E0.
    bools. rewrite lookup_total_app_l' by lia. rewrite (proj2 (Z.eqb_neq _ 42)) by done.
    rewrite length_app. destruct (Nat.eqb_spec (length rest + length more) 0); [lia|]. cbn [andb negb].
    unfold parseInline. destruct (find_nl rest) as [nl|] eqn:Hnl; [|by case_if].
    rewrite (find_nl_more _ _ _ Hnl). apply find_nl_bound in Hnl.
    rewrite lookup_total_app_l' by lia. rewrite take_app_le by (case_if; lia).
    destruct (splitArgs _) as [[?|]|]; [|done..]. intros [= <- <- <-]. split; [done|]. split; [done|lia].
  - unfold parseMultibulk. destruct (Z.eqb_spec (multibulk_len_ p) 0) as [Hm|Hm].
    + rewrite andb_true_r in E0. apply Nat.eqb_neq in E0. cbn [andb] in E1.
      rewrite lookup_total_app_l' by lia. rewrite E1.
      rewrite length_app. destruct (Nat.eqb_spec (length rest + length more) 0); [lia|]. cbn [andb].
      destruct (findCrlf rest) as [cr|] eqn:Hcr; [|by case_if].
      destruct (header_more rest more cr (cr + 2) Hcr ltac:(lia)) as (G0 & Gt & Gd).
      rewrite (findCrlf_more _ _ _ Hcr), Gt, Gd. apply findCrlf_bound in Hcr.
      destruct (parseLong _) as [count|]; [|done]. case_if; [done|]. case_if; [intros [= <- <- <-]; split; [done|]; split; [done|lia]|].
      intros Hb. apply (body_complete_more _ _ _ _ more) in Hb as (-> & -> & Hk); [|done].
      rewrite length_drop in Hk. split; [done|]. split; [done|lia].
    + rewrite andb_false_r. cbn [andb].
      intros Hb. apply (body_complete_more _ _ _ _ more) in Hb as (-> & -> & Hk); [|done].
      split; [done|]. split; [done|lia].
Qed.

(** ** Commands on the wire *)

Definition sendable (argv : list bytes) : Prop :=
  Z.of_nat (length argv) <= kMaxMultibulkLength /\
  Forall (fun a => Z.of_nat (length a) <= kMaxBulkLength) argv.

Lemma encodeArg_eq a rest :
  encodeArg a ++ rest = 36 :: to_string (Z.of_nat (length a)) ++ crlf ++ a ++ crlf ++ rest.
Proof. unfold encodeArg. by rewrite <- !app_assoc. Qed.

Lemma body_encode args argv rest :
  Forall (fun a => Z.of_nat (length a) <= kMaxBulkLength) args ->
  body (length args) argv (-1) (concat (map encodeArg args) ++ rest) 0 =
  (Complete (argv ++ args), reset, length (concat (map encodeArg args))).
Proof.
  intros H. revert argv. induction H as [|a args Ha _ IH]; intros argv; [by rewrite app_nil_r|].
  cbn [map concat length]. rewrite <- app_assoc, encodeArg_eq.
  set (r := concat (map encodeArg args) ++ rest) in *.
  destruct (header_line 36 (Z.of_nat (length a)) (a ++ crlf ++ r)) as (G1 & G2 & G3); [done|].
  rewrite (body_header _ _ _ _ _ (Z.of_nat (length a)) G1); [|done| |split; [lia|done]].
  2: { rewrite G2. apply parseLong_to_string. unfold s_range. change kMaxBulkLength with (2 ^ 29) in Ha. lia. }
  rewrite G3, body_payload, Nat2Z.id by lia. rewrite take_app_length, <- drop_drop, drop_app_length.
  destruct (Nat.ltb_spec (length (a ++ crlf ++ r)) (length a + 2)) as [Hl|_];
    [rewrite !length_app in Hl; simpl in Hl; lia|].
  change (drop 2 (crlf ++ r)) with r. rewrite body_consumed, IH. unfold shift. cbn [fst snd].
  rewrite <- app_assoc. f_equal. unfold encodeArg. rewrite !length_app. cbn [length crlf]. lia.
Qed.

Lemma encodeCommand_read argv rest :
  sendable argv ->
  parse reset (encodeCommand argv ++ rest) = (Complete argv, reset, length (encodeCommand argv)).
Proof.
  intros [Hn Ha]. unfold encodeCommand. rewrite <- !app_assoc. change ([42] ++ ?x) with (42 :: x).
  destruct (header_line 42 (Z.of_nat (length argv)) (concat (map encodeArg argv) ++ rest)) as (G1 & G2 & G3); [done|].
  unfold parse, parseMultibulk. cbn [length multibulk_len_ reset]. rewrite G1, G2, G3.
  change (Z.eqb 0 0) with true. change ((42 :: ?x) !!! 0%nat =? 42) with true. cbn [andb negb Nat.eqb].
  rewrite parseLong_to_string by (unfold s_range; change kMaxMultibulkLength with (2 ^ 20) in Hn; lia).
  destruct (Z.ltb_spec kMaxMultibulkLength (Z.of_nat (length argv))); [lia|].
  destruct (Z.leb_spec (Z.of_nat (length argv)) 0).
  - destruct argv; [|simpl in *; lia]. done.
  - rewrite Nat2Z.id, body_consumed, body_encode by done. unfold shift. cbn [fst snd app].
    f_equal. cbn [length]. rewrite !length_app. cbn [length crlf]. lia.
Qed.

(** ** Truncated commands *)

Lemma find_nl_none l : Forall (fun c => c <> 10) l -> find_nl l = None.
Proof. intros. rewrite <- (app_nil_r l), find_nl_app by done. done. Qed.

(** A strict prefix of a header line has no line end yet. *)
Lemma header_prefix ty n (pre suf : bytes) :
  ty <> 10 -> is_i64 n -> suf <> [] -> (ty :: to_string n) ++ crlf = pre ++ suf ->
  findCrlf pre = None /\ too_big pre = false.
Proof.
  intros Hty Hn Hs Heq. destruct (exists_last Hs) as (suf' & x & ->).
  unfold crlf in Heq. change [13; 10] with ([13] ++ [10]) in Heq. rewrite !app_assoc in Heq.
  apply app_inj_tail in Heq as [Heq _].
  assert (Forall (fun c => c <> 10) pre) as Hp.
  { assert (Forall (fun c => c <> 10) (pre ++ suf')) as H; [|by apply Forall_app in H as [? _]].
    rewrite <- Heq. apply Forall_app_2; [constructor; [done|apply to_string_no_nl]|by repeat constructor]. }
  split; [unfold findCrlf; by rewrite find_nl_none|].
  apply (f_equal length) in Heq. rewrite !length_app in Heq. cbn [length] in Heq.
  pose proof (to_string_length n Hn). unfold too_big. apply Nat.ltb_ge.
  change kMaxInlineRequest with (Z.to_nat 65536). lia.
Qed.

Lemma encodeArg_split a rest :
  encodeArg a ++ rest = ((36 :: to_string (Z.of_nat (length a))) ++ crlf) ++ (a ++ crlf) ++ rest.
Proof. unfold encodeArg. by rewrite <- !app_assoc. Qed.

Lemma encodeCommand_split argv :
  encodeCommand argv = ((42 :: to_string (Z.of_nat (length argv))) ++ crlf) ++ concat (map encodeArg argv).
Proof. unfold encodeCommand. by rewrite <- !app_assoc. Qed.

Lemma prefix_split (h t pre suf : bytes) :
  h ++ t = pre ++ suf ->
  (exists suf', suf' <> [] /\ h = pre ++ suf') \/ (exists pre', pre = h ++ pre' /\ t = pre' ++ suf).
Proof.
  intros He. apply app_eq_app in He as [l [[Hp ->]|[-> Ht]]].
  - destruct l as [|x l]; [right; exists []; by rewrite Hp, !app_nil_r|]. left. by exists (x :: l).
  - right. by exists l.
Qed.

(** A body cut short anywhere is reported as incomplete, never as an error. *)
Lemma body_prefix args argv pre suf :
  Forall (fun a => Z.of_nat (length a) <= kMaxBulkLength) args -> suf <> [] ->
  concat (map encodeArg args) = pre ++ suf ->
  exists p k, body (length args) argv (-1) pre 0 = (Incomplete, p, k).
Proof.
  intros Ha Hs. revert argv pre. induction Ha as [|a args Ha _ IH]; intros argv pre Heq.
  { symmetry in Heq. apply app_eq_nil in Heq as [_ ->]. done. }
  change kMaxBulkLength with (2 ^ 29) in Ha.
  assert (is_i64 (Z.of_nat (length a))) as Hi by (unfold s_range; lia).
  cbn [map concat length] in *. rewrite encodeArg_split in Heq.
  apply prefix_split in Heq as [(suf' & Hs' & Heq)|(pre' & -> & Heq)].
  - destruct (header_prefix 36 _ _ _ ltac:(done) Hi Hs' Heq) as [H1 H2].
    cbn [body]. cbv zeta. cbn [Z.eqb Pos.eqb]. rewrite H1, H2. by do 2 eexists.
  - rewrite <- app_assoc, <- app_comm_cons.
    destruct (header_line 36 (Z.of_nat (length a)) pre') as (G1 & G2 & G3); [done|].
    rewrite (body_header _ _ _ _ _ (Z.of_nat (length a)) G1); [|done|by rewrite G2; apply parseLong_to_string|].
    2: { change kMaxBulkLength with (2 ^ 29). lia. }
    rewrite G3, body_payload, Nat2Z.id by lia.
    destruct (Nat.ltb_spec (length pre') (length a + 2)) as [|Hl]; [by do 2 eexists|].
    apply prefix_split in Heq as [(suf' & Hs' & Heq)|(pre2 & -> & Heq)].
    { apply (f_equal length) in Heq. rewrite !length_app in Heq. destruct suf'; [done|]. cbn [length crlf] in Heq. lia. }
    rewrite <- app_assoc, take_app_length, <- drop_drop, drop_app_length. change (drop 2 (crlf ++ pre2)) with pre2.
    destruct (IH (argv ++ [a]) pre2 Heq) as (p & k & Hb). rewrite body_consumed, Hb. by do 2 eexists.
Qed.

Lemma parse_prefix argv pre suf :
  sendable argv -> suf <> [] -> encodeCommand argv = pre ++ suf ->
  exists p k, parse reset pre = (Incomplete, p, k).
Proof.
  intros [Hn Ha] Hs Heq. change kMaxMultibulkLength with (2 ^ 20) in Hn.
  assert (is_i64 (Z.of_nat (length argv))) as Hi by (unfold s_range; lia).
  destruct pre as [|c pre]; [by do 2 eexists|].
  assert (c = 42) as -> by (unfold encodeCommand in Heq; by simplify_eq/=).
  unfold parse, parseMultibulk. cbn [length multibulk_len_ reset]. change (0 =? 0) with true.
  change ((42 :: pre) !!! 0%nat =? 42) with true. cbn [Nat.eqb andb negb].
  rewrite encodeCommand_split in Heq.
  apply prefix_split in Heq as [(suf' & Hs' & Heq)|(pre' & -> & Heq)].
  - destruct (header_prefix 42 _ _ _ ltac:(done) Hi Hs' Heq) as [-> ->]. by do 2 eexists.
  - rewrite <- app_assoc, <- app_comm_cons.
    destruct (header_line 42 (Z.of_nat (length argv)) pre') as (G1 & G2 & G3); [done|].
    rewrite G1, G2, G3, parseLong_to_string by done.
    destruct (Z.ltb_spec kMaxMultibulkLength (Z.of_nat (length argv))) as [Hk|_];
      [change kMaxMultibulkLength with (2 ^ 20) in Hk; lia|].
    destruct (Z.leb_spec (Z.of_nat (length argv)) 0).
    { destruct argv; [|simpl in *; lia]. simpl in Heq. symmetry in Heq. by apply app_eq_nil in Heq as [_ ->]. }
    rewrite Nat2Z.id, body_consumed. destruct (body_prefix argv [] pre' suf Ha Hs Heq) as (p & k & Hb).
    change (bulk_len_ reset) with (-1). rewrite Hb. by do 2 eexists.
Qed.

(** C30: what a client sends with [encodeCommand] is what the server's parser
    reads: from a fresh parser, an encoded command within the protocol's limits
    is parsed to exactly its arguments, whatever bytes (spaces, quotes, line
    ends) they hold, the parser is fresh again, and precisely the bytes of
    that command are consumed, whatever follows them in the buffer; and any
    truncation of it is reported as incomplete, never as an error. *)
Theorem encodeCommand_round_trip argv rest :
  sendable argv ->
  parse reset (encodeCommand argv ++ rest) = (Complete argv, reset, length (encodeCommand argv)) /\
  (forall pre suf, suf <> [] -> encodeCommand argv = pre ++ suf -> exists p k, parse reset pre = (Incomplete, p, k)).
Proof. intros Hs. split; [by apply encodeCommand_read|]. intros pre suf. by apply parse_prefix. Qed.

Lemma encodeCommand_round_trip_witness :
  parse reset (encodeCommand [str "SET"; [34; 10; 0]; str ""] ++ str "*1") =
  (Complete [str "SET"; [34; 10; 0]; str ""], reset, length (encodeCommand [str "SET"; [34; 10; 0]; str ""])).
Proof. apply encodeCommand_round_trip. split; [vm_compute; discriminate|]. repeat constructor; vm_compute; discriminate. Defined.

(** ** Inline commands *)

Lemma token_suffix k mode cur rest t rest' :
  (length rest <= k)%nat -> token mode cur rest = Some (t, rest') -> exists pre, rest = pre ++ rest'.
Proof.
  revert mode cur rest. induction k as [|k IH]; intros mode cur rest Hk.
  { destruct rest; [|simpl in Hk; lia]. destruct mode; simpl; [|done..]. intros [= <- <-]. by exists []. }
  destruct rest as [|c r]; [destruct mode; simpl; [|done..]; intros [= <- <-]; by exists []|]. simpl in Hk.
  assert (forall m cu pre q, c :: r = pre ++ q -> (length q <= k)%nat -> token m cu q = Some (t, rest') ->
    exists pre, c :: r = pre ++ rest') as Hrec.
  { intros m cu pre q Heq Hq Ht. apply IH in Ht as [pre' ->]; [|done]. exists (pre ++ pre').
    by rewrite <- app_assoc. }
  destruct mode; cbn [token].
  - case_if; [intros [= <- <-]; by exists []|].
    repeat case_if; apply (Hrec _ _ [c]); auto; lia.
  - destruct (c =? 92).
    + destruct r as [|e r1]; [apply (Hrec _ _ [c]); [done|simpl in *; lia]|]. simpl in Hk.
      assert (token InDouble (cur ++ [unescape e]) r1 = Some (t, rest') -> exists pre, c :: e :: r1 = pre ++ rest') as Hl
        by (apply (Hrec _ _ [c; e]); [done|lia]).
      cbv zeta. destruct (e =? 120); [|done]. destruct r1 as [|h1 [|h2 r3]]; [done..|]. simpl in Hk.
      destruct (hexDigitToInt h1), (hexDigitToInt h2); [|done..].
      apply (Hrec _ _ [c; e; h1; h2]); [done|lia].
    + case_if; [case_if; [|done]; intros [= <- <-]; by exists [c]|]. apply (Hrec _ _ [c]); [done|lia].
  - cbv zeta. assert (token InSingle (cur ++ [c]) r = Some (t, rest') -> exists pre, c :: r = pre ++ rest') as Hl
      by (apply (Hrec _ _ [c]); [done|lia]).
    destruct (c =? 92).
    + destruct r as [|e r1]; [done|]. simpl in Hk. destruct (e =? 39); [|done].
      apply (Hrec _ _ [c; e]); [done|lia].
    + case_if; [case_if; [|done]; intros [= <- <-]; by exists [c]|]. done.
Qed.

Lemma skip_space_spec rest :
  exists pre, rest = pre ++ skip_space rest /\
    match skip_space rest with [] => True | c :: _ => isspace c = false end.
Proof.
  induction rest as [|c rest (pre & Heq & Hs)]; simpl; [by exists []|].
  destruct (isspace c) eqn:Hc; [|exists []; by simpl].
  exists (c :: pre). split; [simpl; by f_equal|done].
Qed.

(** A token that starts on a byte that is neither space nor NUL consumes it. *)
Lemma token_progress c r t rest' :
  isspace c = false -> c <> 0 -> token Plain [] (c :: r) = Some (t, rest') ->
  exists pre, c :: r = pre ++ rest' /\ pre <> [].
Proof.
  intros Hc H0. cbn [token].
  assert ((c =? 32) || (c =? 10) || (c =? 13) || (c =? 9) || (c =? 0) = false) as ->.
  { unfold isspace in Hc. bools. destruct_or!; rewrite !orb_false_iff; repeat split; bools; apply Z.eqb_neq; lia. }
  assert (forall m cu, token m cu r = Some (t, rest') -> exists pre, c :: r = pre ++ rest' /\ pre <> []) as H.
  { intros m cu Ht. apply (token_suffix (length r)) in Ht as [pre ->]; [|done]. by exists (c :: pre). }
  repeat case_if; apply H.
Qed.

Lemma splitArgs_loop_total fuel rest out :
  (length rest < fuel)%nat -> 0 ∉ rest -> splitArgs_loop fuel rest out <> None.
Proof.
  revert rest out. induction fuel as [|fuel IH]; intros rest out Hf H0; [lia|]. cbn [splitArgs_loop].
  destruct (skip_space_spec rest) as (pre & Heq & Hs). destruct (skip_space rest) as [|c r]; [done|].
  destruct (token Plain [] (c :: r)) as [[t rest']|] eqn:Ht; [|done].
  apply token_progress in Ht as (pre' & Heq' & Hne); [|done|].
  2: { intros ->. apply H0. rewrite Heq. set_solver. }
  apply IH.
  - destruct pre'; [done|]. rewrite Heq, Heq', !length_app in Hf. simpl in Hf. lia.
  - rewrite Heq, Heq' in H0. set_solver.
Qed.

(** splitting an inline line terminates, with either its arguments or the
    unbalanced-quotes error, on every line that holds no NUL byte; on a line
    whose next token starts with a NUL byte the loop never ends, however many
    turns it is given, because the token loop stops at the NUL without moving
    past it. *)
Theorem splitArgs_terminates line :
  (0 ∉ line -> exists r, splitArgs line = Some r) /\
  (forall rest fuel out, skip_space line = 0 :: rest -> splitArgs_loop fuel line out = None).
Proof.
  split.
  - intros H0. unfold splitArgs. pose proof (splitArgs_loop_total (S (length line)) line [] ltac:(lia) H0).
    destruct (splitArgs_loop _ _ _); [by eexists|done].
  - intros rest fuel out Hs.
    assert (forall fuel out, splitArgs_loop fuel (0 :: rest) out = None) as Hstuck.
    { clear fuel out. induction fuel as [|fuel IH]; intros out; [done|]. apply IH. }
    destruct fuel as [|fuel]; [done|]. cbn [splitArgs_loop]. rewrite Hs. apply Hstuck.
Qed.

Lemma splitArgs_terminates_witness :
  (exists r, splitArgs (str "set key 'a b'") = Some r) /\ splitArgs_loop 1000 (32 :: 0 :: str "x") [] = None.
Proof.
  split; [apply (proj1 (splitArgs_terminates (str "set key 'a b'"))); decide_now|].
  apply (proj2 (splitArgs_terminates (32 :: 0 :: str "x")) (str "x")). reflexivity.
Defined.

(** A spelling of any byte string: a double-quoted token of [\xHH] escapes. *)
Definition hex_digit (k : Z) : Z := if k <? 10 then 48 + k else 87 + k.
Definition escaped (c : Z) : bytes := [92; 120; hex_digit (c / 16); hex_digit (c mod 16)].
Definition quoted (a : bytes) : bytes := 34 :: concat (map escaped a) ++ [34].
Definition inline_line (args : list bytes) : bytes := concat (map (fun a => quoted a ++ [32]) args).

Lemma hexDigitToInt_digit k : 0 <= k < 16 -> hexDigitToInt (hex_digit k) = Some k.
Proof.
  intros Hk. unfold hexDigitToInt, hex_digit. destruct (Z.ltb_spec k 10).
  - rewrite (proj2 (Z.leb_le _ _)), (proj2 (Z.leb_le _ _)) by lia. cbn [andb]. f_equal. lia.
  - rewrite (proj2 (Z.leb_gt (87 + k) 57)) by lia. rewrite andb_false_r.
    rewrite (proj2 (Z.leb_le _ _)), (proj2 (Z.leb_le _ _)) by lia. cbn [andb]. f_equal. lia.
Qed.

Lemma token_escaped a cur rest :
  bytes_ok a -> at_boundary rest = true ->
  token InDouble cur (concat (map escaped a) ++ 34 :: rest) = Some (cur ++ a, rest).
Proof.
  intros Ha Hb. revert cur. induction Ha as [|c a Hc _ IH]; intros cur; cbn [map concat escaped app token].
  - cbn [Z.eqb Pos.eqb]. by rewrite Hb, app_nil_r.
  - unfold u_range in Hc. change (2 ^ 8) with 256 in Hc. cbn [Z.eqb Pos.eqb]. cbv zeta.
    rewrite !hexDigitToInt_digit by dmlia. rewrite IH, uwrap_small by (unfold u_range; dmlia).
    rewrite <- app_assoc. replace (c / 16 * 16 + c mod 16) with c by dmlia. done.
Qed.

Lemma splitArgs_loop_quoted args out fuel :
  Forall (fun a => bytes_ok a) args -> (length args < fuel)%nat ->
  splitArgs_loop fuel (inline_line args) out = Some (Some (out ++ args)).
Proof.
  intros H. revert out fuel. induction H as [|a args Ha _ IH]; intros out [|fuel] Hf; simpl in Hf; try lia.
  { simpl. by rewrite app_nil_r. }
  cbn [splitArgs_loop]. unfold inline_line, quoted. cbn [map concat]. fold (inline_line args).
  cbn [app]. rewrite <- !app_assoc. cbn [app skip_space]. change (isspace 34) with false. cbv iota.
  cbn [token]. cbn [Z.eqb Pos.eqb orb]. rewrite token_escaped by done. cbn [app].
  assert (forall l, splitArgs_loop fuel (32 :: l) (out ++ [a]) = splitArgs_loop fuel l (out ++ [a])) as ->.
  { intros l. by destruct fuel. }
  rewrite IH by lia. by rewrite <- app_assoc.
Qed.

Lemma inline_line_length args : (length args <= length (inline_line args))%nat.
Proof.
  induction args as [|a args IH]; [simpl; lia|]. unfold inline_line. cbn [map concat length].
  rewrite !length_app. fold (inline_line args). cbn [length]. lia.
Qed.

Lemma inline_line_no_nl args : Forall (fun a => bytes_ok a) args -> Forall (fun c => c <> 10 /\ c <> 13) (inline_line args).
Proof.
  intros H. unfold inline_line. apply Forall_concat, Forall_map. eapply List.Forall_impl; [|exact H].
  intros a Ha. unfold quoted. rewrite <- !app_comm_cons. constructor; [done|].
  rewrite <- app_assoc. apply Forall_app_2; [|by repeat constructor].
  apply Forall_concat, Forall_map. eapply List.Forall_impl; [|exact Ha].
  intros c Hc. unfold u_range in Hc. change (2 ^ 8) with 256 in Hc.
  assert (forall k, 0 <= k -> hex_digit k <> 10 /\ hex_digit k <> 13) as Hh by (intros; unfold hex_digit; case_if; lia).
  unfold escaped. repeat constructor; try done; apply Hh; dmlia.
Qed.

(** every argument vector can be sent as an inline command: with its
    arguments spelled as double-quoted [\xHH] escapes, the line is parsed to
    exactly those bytes and consumed to the end of its newline. *)
Theorem inline_round_trip args rest :
  Forall (fun a => bytes_ok a) args ->
  parse reset (inline_line args ++ crlf ++ rest) = (Complete args, reset, (length (inline_line args) + 2)%nat).
Proof.
  intros Ha. pose proof (inline_line_no_nl args Ha) as Hnl. set (l := inline_line args) in *.
  unfold parse. cbn [multibulk_len_ reset]. change (0 =? 0) with true.
  assert (((l ++ crlf ++ rest) !!! 0%nat =? 42) = false) as ->.
  { subst l. destruct args; done. }
  rewrite length_app. destruct (Nat.eqb_spec (length l + length (crlf ++ rest)) 0); [simpl in *; lia|]. cbn [andb negb].
  unfold parseInline. rewrite find_nl_app by (eapply List.Forall_impl; [|exact Hnl]; by intros ? []).
  simpl find_nl. cbn [fmap option_fmap option_map].
  replace (length l + 1 - 1)%nat with (length l) by lia.
  destruct (Nat.ltb_spec 0 (length l + 1)); [|lia].
  assert ((l ++ crlf ++ rest) !!! length l = 13) as ->.
  { rewrite list_lookup_total_alt, lookup_app_r, Nat.sub_diag by lia. done. }
  cbn [andb Z.eqb Pos.eqb]. rewrite take_app_length. unfold splitArgs. pose proof (inline_line_length args). subst l.
  rewrite splitArgs_loop_quoted by (try done; lia).
  cbn [app]. f_equal. lia.
Qed.

Lemma inline_round_trip_witness :
  parse reset (inline_line [str "SET"; [0; 34; 255]] ++ crlf ++ str "x") =
  (Complete [str "SET"; [0; 34; 255]], reset, Nat.add (length (inline_line [str "SET"; [0; 34; 255]])) 2).
Proof. apply inline_round_trip. decide_now. Defined.

End Resp.
