(* ===== verification/Reply.v ===== *)
(** * Reply: writing and reading replies

    The [ReplyWriter] and [parseReply] halves of [src/net/resp.cpp]. The
    writer serves both protocol versions: under RESP2 the richer types degrade
    (maps and sets to arrays, booleans to integers, doubles and verbatim
    strings to bulks). A double is its 64-bit pattern, written by [d2string] and
    read by [strtod]. *)

From Stdlib Require Import ZArith Lia.
Set Warnings "-register-all".
From stdpp Require Import base sets list numbers option strings.
From S2P Require Import Prelude Encoding Double Strtod Dtoa Resp.
Import Resp.

Module Reply.

(** ** [Reply] and its parser *)

Inductive Reply :=
  | SimpleString (s : bytes) | Error (s : bytes) | Integer (n : Z) | Bulk (s : bytes)
  | Array (elements : list Reply) | Null | Boolean (b : bool) | Double (d : Z)
  | Map (elements : list Reply) | Set_ (elements : list Reply) | Push (elements : list Reply)
  | BigNumber (s : bytes) | Verbatim (s : bytes).

(** [Short]: false with no error, more bytes are needed. [Bad]: false with an
    error. [Overflow]: the element count does not fit in a [long], which the
    program leaves undefined, or is more than memory can be reserved for, which
    throws. *)
Inductive result (A : Type) := Done (a : A) (rest : bytes) | Short | Bad (error : bytes) | Overflow.
Arguments Done {A} _ _.
Arguments Short {A}.
Arguments Bad {A} _.
Arguments Overflow {A}.

(** ** [ReplyWriter]: the bytes each method appends *)

Definition appendLine (prefix : Z) (body : bytes) : bytes := prefix :: body ++ crlf.
Definition appendCount (prefix n : Z) : bytes := prefix :: to_string n ++ crlf.

Definition simpleString (s : bytes) : bytes := appendLine 43 s.
Definition error (msg : bytes) : bytes := appendLine 45 msg.
Definition integer (n : Z) : bytes := appendCount 58 n.

Definition bulk (s : bytes) : bytes := appendCount 36 (i64 (Z.of_nat (length s))) ++ s ++ crlf.

Definition verbatim (protover : Z) (s format : bytes) : bytes :=
  if protover <? 3 then bulk s
  else appendCount 61 (i64 (Z.of_nat (length s + 4))) ++ take 3 format ++ [58] ++ s ++ crlf.

Definition nullBulk (protover : Z) : bytes := if 3 <=? protover then str "_" ++ crlf else str "$-1" ++ crlf.
Definition nullArray (protover : Z) : bytes := if 3 <=? protover then str "_" ++ crlf else str "*-1" ++ crlf.

Definition arrayHeader (n : Z) : bytes := appendCount 42 n.
Definition mapHeader (protover pairs : Z) : bytes :=
  if 3 <=? protover then appendCount 37 pairs else appendCount 42 (pairs * 2).
Definition setHeader (protover n : Z) : bytes :=
  if 3 <=? protover then appendCount 126 n else appendCount 42 n.
Definition pushHeader (protover n : Z) : bytes :=
  if 3 <=? protover then appendCount 62 n else appendCount 42 n.

Definition boolean (protover : Z) (b : bool) : bytes :=
  if 3 <=? protover then (if b then str "#t" else str "#f") ++ crlf
  else (if b then str ":1" else str ":0") ++ crlf.

(** The bit pattern of -0.0. *)
Definition negative_zero : Z := 2 ^ 63.
Definition formatDouble (d : Z) : bytes := if d =? negative_zero then str "-0" else Dtoa.d2string d.

Definition doubleValue (protover d : Z) : bytes :=
  if 3 <=? protover then appendLine 44 (formatDouble d) else bulk (formatDouble d).

Definition bigNumber (protover : Z) (digits : bytes) : bytes :=
  if 3 <=? protover then appendLine 40 digits else bulk digits.

Definition bulkArray (items : list bytes) : bytes :=
  arrayHeader (i64 (Z.of_nat (length items))) ++ concat (map bulk items).

Definition readDouble (s : bytes) : Z :=
  if s =b? str "inf" then Double.infinity else if s =b? str "-inf" then Double.neg_infinity
  else if s =b? str "nan" then Double.quiet_nan else Strtod.strtod s.

(** The loop of [parseAggregate]: [total] elements, in order. A child takes at
    least one byte, so as many turns as there are bytes are enough. *)
Fixpoint parseElements (child : bytes -> result Reply) (fuel : nat) (total : Z) (rest : bytes)
    (elements : list Reply) : result (list Reply) :=
  if total <=? 0 then Done elements rest
  else
    match fuel with
    | O => Short
    | S fuel =>
        match child rest with
        | Done r rest' => parseElements child fuel (total - 1) rest' (elements ++ [r])
        | Short => Short
        | Bad e => Bad e
        | Overflow => Overflow
        end
    end.

(** [room] is the longest vector of replies that [reserve] can be given: a
    longer one makes it throw, which nobody catches. *)
Definition parseAggregate (room : Z) (child : bytes -> result Reply) (type : list Reply -> Reply) (multiplier : Z)
    (rest : bytes) : result Reply :=
  match findCrlf rest with
  | None => Short
  | Some cr =>
      match parseLong (take (cr - 1) (drop 1 rest)) with
      | None => Bad (str "Protocol error: invalid aggregate length")
      | Some count =>
          if count <? 0 then Done Null (drop (cr + 2) rest)
          else if (2 ^ 63 <=? count * multiplier) || (room <? count * multiplier) then Overflow
          else
            match parseElements child (length rest) (count * multiplier) (drop (cr + 2) rest) [] with
            | Done l rest' => Done (type l) rest'
            | Short => Short
            | Bad e => Bad e
            | Overflow => Overflow
            end
      end
  end.

(** The line of a header, without its type byte, and the bytes after it. *)
Definition parseLine (k : bytes -> bytes -> result Reply) (rest : bytes) : result Reply :=
  match findCrlf rest with
  | None => Short
  | Some cr => k (take (cr - 1) (drop 1 rest)) (drop (cr + 2) rest)
  end.

Definition parseBulk (type : bytes -> Reply) : bytes -> result Reply :=
  parseLine (fun line after =>
    match parseLong line with
    | None => Bad (str "Protocol error: invalid bulk length")
    | Some len =>
        if len <? 0 then Done Null after
        else if Z.of_nat (length after) <? len + 2 then Short
        else Done (type (take (Z.to_nat len) after)) (drop (Z.to_nat len + 2) after)
    end).

(** The fuel bounds the nesting of aggregates; a level takes at least one
    byte, so the number of bytes plus one is enough. *)
Fixpoint parseReplyInner (room : Z) (fuel : nat) (rest : bytes) : result Reply :=
  match fuel with
  | O => Short
  | S fuel =>
      match rest with
      | [] => Short
      | type :: _ =>
          if type =? 43 then parseLine (fun line after => Done (SimpleString line) after) rest
          else if type =? 45 then parseLine (fun line after => Done (Error line) after) rest
          else if type =? 40 then parseLine (fun line after => Done (BigNumber line) after) rest
          else if type =? 58 then
            parseLine (fun line after =>
              match parseLong line with
              | Some v => Done (Integer v) after
              | None => Bad (str "Protocol error: invalid integer")
              end) rest
          else if type =? 44 then parseLine (fun line after => Done (Double (readDouble line)) after) rest
          else if type =? 35 then
            parseLine (fun line after =>
              Done (Boolean (match line with [] => false | c :: _ => c =? 116 end)) after) rest
          else if type =? 95 then parseLine (fun _ after => Done Null after) rest
          else if type =? 36 then parseBulk Bulk rest
          else if type =? 33 then parseBulk Error rest
          else if type =? 61 then parseBulk Verbatim rest
          else if type =? 42 then parseAggregate room (parseReplyInner room fuel) Array 1 rest
          else if type =? 126 then parseAggregate room (parseReplyInner room fuel) Set_ 1 rest
          else if type =? 62 then parseAggregate room (parseReplyInner room fuel) Push 1 rest
          else if type =? 37 then parseAggregate room (parseReplyInner room fuel) Map 2 rest
          else Bad (str "Protocol error: unknown reply type byte '" ++ [type] ++ str "'")
      end
  end.

Definition parseReply (room : Z) (rest : bytes) : result Reply := parseReplyInner room (S (length rest)) rest.

(** ** A reply as the commands write it, and what a client sees of it *)

Inductive item :=
  | ISimpleString (s : bytes) | IError (s : bytes) | IInteger (n : Z) | IBulk (s : bytes)
  | IVerbatim (s format : bytes) | INullBulk | INullArray
  | IArray (l : list item) | IMap (l : list item) | ISet (l : list item) | IPush (l : list item)
  | IBoolean (b : bool) | IDouble (d : Z) | IBigNumber (s : bytes).

(** The calls a command makes for it: a header, then each element. *)
Fixpoint write (protover : Z) (r : item) : bytes :=
  let elements l := concat (map (write protover) l) in
  match r with
  | ISimpleString s => simpleString s
  | IError s => error s
  | IInteger n => integer n
  | IBulk s => bulk s
  | IVerbatim s format => verbatim protover s format
  | INullBulk => nullBulk protover
  | INullArray => nullArray protover
  | IArray l => arrayHeader (Z.of_nat (length l)) ++ elements l
  | IMap l => mapHeader protover (Z.of_nat (length l) / 2) ++ elements l
  | ISet l => setHeader protover (Z.of_nat (length l)) ++ elements l
  | IPush l => pushHeader protover (Z.of_nat (length l)) ++ elements l
  | IBoolean b => boolean protover b
  | IDouble d => doubleValue protover d
  | IBigNumber s => bigNumber protover s
  end.

(** What the client gets: everything under RESP3, the degraded types under
    RESP2. *)
Fixpoint view (protover : Z) (r : item) : Reply :=
  let three := 3 <=? protover in
  match r with
  | ISimpleString s => SimpleString s
  | IError s => Error s
  | IInteger n => Integer n
  | IBulk s => Bulk s
  | IVerbatim s format => if three then Verbatim (take 3 format ++ [58] ++ s) else Bulk s
  | INullBulk | INullArray => Null
  | IArray l => Array (map (view protover) l)
  | IMap l => (if three then Map else Array) (map (view protover) l)
  | ISet l => (if three then Set_ else Array) (map (view protover) l)
  | IPush l => (if three then Push else Array) (map (view protover) l)
  | IBoolean b => if three then Boolean b else Integer (if b then 1 else 0)
  | IDouble d => if three then Double d else Bulk (formatDouble d)
  | IBigNumber s => if three then BigNumber s else Bulk s
  end.

(** What a well-behaved command writes: lines without a newline, doubles other
    than NaN, an even number of elements in a map, sizes that fit in memory. *)
Definition line_ok (s : bytes) : bool := forallb (fun c => negb (c =? 10)) s.
Definition size_ok {A} (l : list A) : bool := Z.of_nat (length l) <? 2 ^ 62.

Fixpoint writable (room protover : Z) (r : item) : bool :=
  match r with
  | ISimpleString s | IError s => line_ok s
  | IInteger n => bool_decide (is_i64 n)
  | IBulk s => size_ok s
  | IVerbatim s format => size_ok s && (3 <=? length format)%nat
  | INullBulk | INullArray | IBoolean _ => true
  | IArray l | ISet l | IPush l => size_ok l && (Z.of_nat (length l) <=? room) && forallb (writable room protover) l
  | IMap l => size_ok l && (Z.of_nat (length l) <=? room) && Z.even (Z.of_nat (length l)) && forallb (writable room protover) l
  | IDouble d => bool_decide (is_u64 d) && negb (Double.isnan d)
  | IBigNumber s => line_ok s && size_ok s
  end.

(** ** What is written is what is read *)

(** Structural induction through the element lists. *)
Lemma item_nested_ind (P : item -> Prop) :
  (forall s, P (ISimpleString s)) -> (forall s, P (IError s)) -> (forall n, P (IInteger n)) ->
  (forall s, P (IBulk s)) -> (forall s f, P (IVerbatim s f)) -> P INullBulk -> P INullArray ->
  (forall l, Forall P l -> P (IArray l) /\ P (IMap l) /\ P (ISet l) /\ P (IPush l)) ->
  (forall b, P (IBoolean b)) -> (forall d, P (IDouble d)) -> (forall s, P (IBigNumber s)) ->
  forall r, P r.
Proof.
  intros H1 H2 H3 H4 H5 H6 H7 HL H8 H9 H10.
  fix IH 1.
  assert (forall l, Forall P l) as IHl by (fix IHl 1; intros [|r l]; constructor; [apply IH|apply IHl]).
  clear IH. intros []; try (apply HL; apply IHl); auto.
Qed.

Lemma parseLine_line ty l after (k : bytes -> bytes -> result Reply) :
  ty <> 10 -> Forall (fun c => c <> 10) l -> parseLine k (ty :: l ++ crlf ++ after) = k l after.
Proof.
  intros Hty Hl. unfold parseLine.
  change (ty :: l ++ crlf ++ after) with ((ty :: l) ++ crlf ++ after) at 1.
  rewrite findCrlf_line by (constructor; done). cbn [length drop].
  rewrite drop_0, Nat.sub_succ, Nat.sub_0_r, take_app_length. cbn [Nat.add drop].
  rewrite <- drop_drop, drop_app_length. done.
Qed.

Lemma line_ok_no_nl s : line_ok s = true -> Forall (fun c => c <> 10) s.
Proof.
  unfold line_ok. rewrite forallb_forall, List.Forall_forall. intros H c Hc.
  specialize (H c Hc). by bools.
Qed.

Lemma parseBulk_written ty (type : bytes -> Reply) s rest :
  ty <> 10 -> Z.of_nat (length s) < 2 ^ 63 ->
  parseBulk type (appendCount ty (i64 (Z.of_nat (length s))) ++ s ++ crlf ++ rest) = Done (type s) rest.
Proof.
  intros Hty Hs. rewrite swrap_small by (unfold s_range; lia). unfold parseBulk, appendCount.
  rewrite <- app_comm_cons, <- app_assoc. rewrite parseLine_line by (done || apply to_string_no_nl).
  rewrite parseLong_to_string by (unfold s_range; lia).
  destruct (Z.ltb_spec (Z.of_nat (length s)) 0); [lia|].
  destruct (Z.ltb_spec (Z.of_nat (length (s ++ crlf ++ rest))) (Z.of_nat (length s) + 2)) as [Hl|_];
    [rewrite !length_app in Hl; cbn [length crlf] in Hl; lia|].
  rewrite Nat2Z.id, take_app_length, <- drop_drop, drop_app_length. done.
Qed.

(** One more reading lemma: an aggregate, when each of its elements is read
    back by the parser given to it. *)
Lemma parseElements_written child (w : item -> bytes) (v : item -> Reply) l fuel rest acc :
  Forall (fun r => forall rest, child (w r ++ rest) = Done (v r) rest) l ->
  (length l <= fuel)%nat ->
  parseElements child fuel (Z.of_nat (length l)) (concat (map w l) ++ rest) acc = Done (acc ++ map v l) rest.
Proof.
  intros H. revert fuel acc. induction H as [|r l Hr _ IH]; intros fuel acc Hf.
  { destruct fuel; simpl; by rewrite app_nil_r. }
  destruct fuel as [|fuel]; [simpl in Hf; lia|]. cbn [length] in *. cbn [parseElements map concat].
  destruct (Z.leb_spec (Z.of_nat (S (length l))) 0); [lia|]. rewrite <- app_assoc, Hr.
  replace (Z.of_nat (S (length l)) - 1) with (Z.of_nat (length l)) by lia.
  rewrite IH by lia. by rewrite <- app_assoc.
Qed.

Lemma parseAggregate_written room child ty type mult n (w : item -> bytes) (v : item -> Reply) l rest :
  ty <> 10 -> 0 <= n -> n * mult = Z.of_nat (length l) -> 1 <= mult -> Z.of_nat (length l) < 2 ^ 63 -> Z.of_nat (length l) <= room ->
  (length l <= length (concat (map w l)))%nat ->
  Forall (fun r => forall rest, child (w r ++ rest) = Done (v r) rest) l ->
  parseAggregate room child type mult (appendCount ty n ++ concat (map w l) ++ rest) = Done (type (map v l)) rest.
Proof.
  intros Hty Hn0 Hn Hm Hl Hroom Hw Hc. unfold parseAggregate, appendCount. rewrite <- app_comm_cons, <- app_assoc.
  destruct (header_line ty n (concat (map w l) ++ rest) Hty) as (G1 & G2 & G3). rewrite G1, G2, G3.
  rewrite parseLong_to_string by (unfold s_range; nia).
  destruct (Z.ltb_spec n 0); [lia|]. rewrite Hn. destruct (Z.leb_spec (2 ^ 63) (Z.of_nat (length l))), (Z.ltb_spec room (Z.of_nat (length l))); [lia..|]. cbn [orb].
  rewrite (parseElements_written child w v) by (try done; cbn [length]; rewrite !length_app; lia). done.
Qed.

Lemma write_nonempty protover r : (1 <= length (write protover r))%nat.
Proof.
  destruct r; cbn [write]; rewrite ?length_app;
    unfold simpleString, error, integer, bulk, verbatim, nullBulk, nullArray, arrayHeader, mapHeader, setHeader,
      pushHeader, boolean, doubleValue, bigNumber, bulk, appendLine, appendCount;
    repeat case_if; rewrite ?length_app; cbn [length]; change (length crlf) with 2%nat; lia.
Qed.

Lemma write_elements_length protover l : (length l <= length (concat (map (write protover) l)))%nat.
Proof.
  induction l as [|r l IH]; [simpl; lia|]. cbn [map concat length]. rewrite length_app.
  pose proof (write_nonempty protover r). lia.
Qed.

(** The elements of an aggregate, when the induction reads each of them. *)
Lemma elements_read room protover l fuel :
  Forall (fun r => writable room protover r = true -> forall fuel rest, (length (write protover r) <= fuel)%nat ->
    parseReplyInner room fuel (write protover r ++ rest) = Done (view protover r) rest) l ->
  forallb (writable room protover) l = true -> (length (concat (map (write protover) l)) <= fuel)%nat ->
  Forall (fun r => forall rest, parseReplyInner room fuel (write protover r ++ rest) = Done (view protover r) rest) l.
Proof.
  induction 1 as [|r l Hr _ IH]; intros Hw Hf; constructor.
  - cbn [forallb map concat] in *. bools. rewrite length_app in Hf. intros rest. apply Hr; [done|lia].
  - cbn [forallb map concat] in *. bools. rewrite length_app in Hf. apply IH; [done|lia].
Qed.

(** One call of the parser on a known type byte. *)
Ltac dispatch := cbn [parseReplyInner app]; cbn [Z.eqb Pos.eqb].

Lemma read_line room fuel ty l rest k :
  ty <> 10 -> Forall (fun c => c <> 10) l ->
  (forall r, parseReplyInner room (S fuel) (ty :: r) = parseLine k (ty :: r)) ->
  parseReplyInner room (S fuel) (appendLine ty l ++ rest) = k l rest.
Proof.
  intros Hty Hl He. unfold appendLine. rewrite <- app_comm_cons, <- app_assoc, He.
  by apply parseLine_line.
Qed.

Lemma read_bulk room fuel s rest :
  size_ok s = true -> parseReplyInner room (S fuel) (bulk s ++ rest) = Done (Bulk s) rest.
Proof.
  unfold size_ok, bulk. intros Hs. bools. rewrite <- !app_assoc.
  assert (forall r, parseReplyInner room (S fuel) (appendCount 36 (i64 (Z.of_nat (length s))) ++ r) =
    parseBulk Bulk (appendCount 36 (i64 (Z.of_nat (length s))) ++ r)) as -> by (intros; by dispatch).
  apply parseBulk_written; [done|lia].
Qed.

Lemma read_verbatim room fuel s format rest :
  size_ok s = true -> (3 <= length format)%nat ->
  parseReplyInner room (S fuel) (appendCount 61 (i64 (Z.of_nat (length s + 4))) ++ (take 3 format ++ [58] ++ s ++ crlf) ++ rest)
  = Done (Verbatim (take 3 format ++ [58] ++ s)) rest.
Proof.
  unfold size_ok. intros Hs Hf. bools.
  assert (Nat.add (length s) 4 = length (take 3 format ++ [58] ++ s)) as ->.
  { rewrite !length_app, length_take. cbn [length]. lia. }
  set (t := take 3 format ++ [58] ++ s).
  replace ((take 3 format ++ [58] ++ s ++ crlf) ++ rest) with (t ++ crlf ++ rest) by (subst t; by rewrite <- !app_assoc).
  assert (forall n r, parseReplyInner room (S fuel) (appendCount 61 n ++ r) =
    parseBulk Verbatim (appendCount 61 n ++ r)) as -> by (intros; by dispatch).
  apply parseBulk_written; [done|]. subst t. rewrite !length_app, length_take. cbn [length]. lia.
Qed.

Lemma read_array room protover fuel ty type mult n l rest :
  (forall r, parseReplyInner room (S fuel) (ty :: r) = parseAggregate room (parseReplyInner room fuel) type mult (ty :: r)) ->
  ty <> 10 -> 0 <= n -> n * mult = Z.of_nat (length l) -> 1 <= mult -> size_ok l = true -> Z.of_nat (length l) <= room ->
  forallb (writable room protover) l = true ->
  (length (appendCount ty n ++ concat (map (write protover) l)) <= S fuel)%nat ->
  Forall (fun r => writable room protover r = true -> forall fuel rest, (length (write protover r) <= fuel)%nat ->
    parseReplyInner room fuel (write protover r ++ rest) = Done (view protover r) rest) l ->
  parseReplyInner room (S fuel) ((appendCount ty n ++ concat (map (write protover) l)) ++ rest)
  = Done (type (map (view protover) l)) rest.
Proof.
  intros He Hty Hn0 Hn Hm Hs Hroom Hw Hf Hl. unfold size_ok in Hs. bools. rewrite <- app_assoc.
  assert (forall r, parseReplyInner room (S fuel) (appendCount ty n ++ r) =
    parseAggregate room (parseReplyInner room fuel) type mult (appendCount ty n ++ r)) as -> by (intros; apply He).
  apply parseAggregate_written; try done; [lia|apply write_elements_length|].
  apply elements_read; [done..|]. rewrite length_app in Hf. cbn [length appendCount] in Hf. lia.
Qed.

(** Doubles are read back exactly, the sign of zero included. *)
Lemma readDouble_strtod s : readDouble s = Strtod.strtod s.
Proof. unfold readDouble. repeat case_if; bools; subst; done. Qed.

Lemma formatDouble_read d : Double.ok d -> readDouble (formatDouble d) = d.
Proof.
  intros Hok. rewrite readDouble_strtod. unfold formatDouble. destruct (Z.eqb_spec d negative_zero) as [->|Hne]; [done|].
  rewrite Dtoa.strtod_d2string by done. destruct (Z.eqb_spec d (2 ^ 63)); [done|done].
Qed.

Lemma formatDouble_line d : Double.ok d -> Forall (fun c => c <> 10) (formatDouble d) /\ size_ok (formatDouble d) = true.
Proof.
  intros Hok. destruct (Dtoa.d2string_printable d Hok) as [Hp Hl]. unfold formatDouble, size_ok.
  destruct (d =? negative_zero); [split; [repeat constructor; done|done]|]. split; [|lia].
  apply (Forall_impl _ _ _ Hp). unfold Dtoa.printable. lia.
Qed.

Lemma read_written room protover r :
  writable room protover r = true -> forall fuel rest, (length (write protover r) <= fuel)%nat ->
  parseReplyInner room fuel (write protover r ++ rest) = Done (view protover r) rest.
Proof.
  revert r. apply (item_nested_ind (fun r => writable room protover r = true -> forall fuel rest,
    (length (write protover r) <= fuel)%nat ->
    parseReplyInner room fuel (write protover r ++ rest) = Done (view protover r) rest)); [intros s|intros s|intros n|intros s|intros s f| | |intros l Hl|intros b|intros d|intros s].
  8: split; [|split; [|split]].
  all: cbn [writable].
  all: intros Hw fuel rest Hf;
    (destruct fuel as [|fuel];
      [match type of Hf with (length (write _ ?r) <= _)%nat => pose proof (write_nonempty protover r); lia end|]);
    cbn [write view] in *; cbv zeta in *.
  - apply (read_line room fuel 43 s rest (fun line after => Done (SimpleString line) after)); [done|by apply line_ok_no_nl|done].
  - apply (read_line room fuel 45 s rest (fun line after => Done (Error line) after)); [done|by apply line_ok_no_nl|done].
  - bools. unfold integer, appendCount. rewrite <- app_comm_cons, <- app_assoc. dispatch.
    rewrite parseLine_line by (done || apply to_string_no_nl). by rewrite parseLong_to_string.
  - by apply read_bulk.
  - bools. unfold verbatim. destruct (Z.ltb_spec protover 3), (Z.leb_spec 3 protover); try lia.
    + by apply read_bulk.
    + rewrite <- app_assoc. by apply read_verbatim.
  - unfold nullBulk. by case_if.
  - unfold nullArray. by case_if.
  - bools. by apply (read_array _ _ _ 42 Array 1); try done; lia.
  - apply andb_true_iff in Hw as [[[Hs Hr]%andb_true_iff Hev]%andb_true_iff Hw]. apply Z.leb_le in Hr.
    assert (Z.of_nat (length l) / 2 * 2 = Z.of_nat (length l)).
    { apply Z.even_spec in Hev as [k ->]. dmlia. }
    unfold mapHeader in *. destruct (3 <=? protover).
    + apply (read_array _ _ _ 37 Map 2); try done; dmlia.
    + apply (read_array _ _ _ 42 Array 1); try done; dmlia.
  - bools. unfold setHeader in *. destruct (3 <=? protover).
    + apply (read_array _ _ _ 126 Set_ 1); try done; lia.
    + apply (read_array _ _ _ 42 Array 1); try done; lia.
  - bools. unfold pushHeader in *. destruct (3 <=? protover).
    + apply (read_array _ _ _ 62 Push 1); try done; lia.
    + apply (read_array _ _ _ 42 Array 1); try done; lia.
  - unfold boolean. by case_if; destruct b.
  - assert (Double.ok d) as Hok by (bools; by split). destruct (formatDouble_line d Hok) as [Hl Hs]. unfold doubleValue.
    destruct (3 <=? protover); [|by apply read_bulk].
    rewrite (read_line room fuel 44 _ rest (fun line after => Done (Double (readDouble line)) after)); [|done|done|done].
    by rewrite formatDouble_read.
  - bools. unfold bigNumber. destruct (3 <=? protover); [|by apply read_bulk].
    apply (read_line room fuel 40 s rest (fun line after => Done (BigNumber line) after)); [done|by apply line_ok_no_nl|done].
Qed.

(** C31: for both protocol versions, a client that runs [parseReply] on what the
    [ReplyWriter] produced reads the reply that was written as that version
    carries it ([view]: under RESP2 a map, set or push is an array, a boolean an
    integer, a double, big number or verbatim string a bulk string), nested aggregates
    included, and its cursor stops at the first byte after it. The reply must
    be [writable]: simple strings, errors and big numbers contain no line feed,
    doubles are not NaN, integers have 64 bits, a map has an even number of
    elements, a verbatim format three letters, and every aggregate fits in the
    client's memory. A command can break the first condition, since an error
    may quote its arguments: [newline_desyncs]. *)
Theorem reply_round_trip room protover r rest :
  writable room protover r = true -> parseReply room (write protover r ++ rest) = Done (view protover r) rest.
Proof. intros Hw. unfold parseReply. apply read_written; [done|]. rewrite length_app. lia. Qed.

(** An error is written as it is, so one that contains the end of a line is
    read as a shorter error, and what follows as the next reply. *)
Lemma newline_desyncs room protover a b : line_ok a = true ->
  parseReply room (write protover (IError (a ++ crlf ++ b))) = Done (Error a) (b ++ crlf).
Proof.
  intros Ha. unfold parseReply, write, error. replace (appendLine 45 (a ++ crlf ++ b)) with (appendLine 45 a ++ b ++ crlf) by (unfold appendLine; cbn [app]; f_equal; by rewrite <- !app_assoc).
  apply (read_line room _ 45 a (b ++ crlf) (fun line after => Done (Error line) after)); [done|by apply line_ok_no_nl|done].
Qed.

Lemma bulkArray_write protover items :
  size_ok items = true -> bulkArray items = write protover (IArray (map IBulk items)).
Proof.
  unfold size_ok. intros. bools. unfold bulkArray. cbn [write]. rewrite length_map.
  rewrite swrap_small by (unfold s_range; lia). by rewrite map_map.
Qed.

Lemma reply_round_trip_witness :
  parseReply 100 (write 3 (IMap [IBulk (str "k"); IArray [IInteger (-7); INullBulk; IDouble 0x3FB999999999999A]]) ++ str "+OK") =
  Done (Map [Bulk (str "k"); Array [Integer (-7); Null; Double 0x3FB999999999999A]]) (str "+OK").
Proof.
  exact (reply_round_trip 100 3 (IMap [IBulk (str "k"); IArray [IInteger (-7); INullBulk; IDouble 0x3FB999999999999A]]) (str "+OK")
    ltac:(vm_compute; reflexivity)).
Defined.

End Reply.
