(* ===== verification/RespClient.v ===== *)
(** * RespClient: the blocking client

    [src/client/resp_client.h] and [src/client/resp_client.cpp]. What the
    resolver and the socket calls return is an input, one event per call. The
    sockets have a timeout ([setTimeoutMs], five seconds unless told otherwise),
    so no call waits for ever: when the events run out the calls time out. The
    theorems say that a reply is delivered whole however the network cuts it,
    and that replies come in order. *)

From Stdlib Require Import ZArith Lia.
Set Warnings "-register-all".
From stdpp Require Import base list numbers gmap option strings.
From S2P Require Import Prelude Encoding Double Strtod Dtoa Resp Reply.
Import Resp.Resp Reply.Reply.

Module RespClient.

(** One call of [recv], [send], and [socket] with [connect]; the texts are
    those of [strerror]. A [Received] of no bytes is the end of the stream. *)
Inductive recv_event := Received (chunk : bytes) | RecvInterrupted | RecvFailed (why : bytes).
(** [SendPipe]: the peer is gone, [EPIPE] and the signal SIGPIPE. *)
Inductive send_event := Sent (n : nat) | SendInterrupted | SendFailed (why : bytes) | SendPipe.
Inductive attempt := NoSocket | Connected | Refused (why : bytes).
Inductive resolution := Unresolved (why : bytes) | Addresses (l : list attempt).

(** The process around the client: how long a vector of replies it can
    allocate, and whether it ignores SIGPIPE, which kills it otherwise. *)
Record process := mkProcess { room : Z; ignores_sigpipe : bool }.

(** The client and the calls that the world has still to answer. The parse
    cursor [pos_] is zero whenever a method is entered. [sent] lists the
    commands that were handed to the socket. *)
Record link := mkLink {
  fd_ : bool; protover_ : Z; buf_ : bytes;
  resolutions : list resolution; sends : list send_event; recvs : list recv_event; sent : list (list bytes);
  proc : process }.

Definition with_socket (l : link) (fd : bool) (buf : bytes) : link := mkLink fd (protover_ l) buf (resolutions l) (sends l) (recvs l) (sent l) (proc l).
Definition with_protover (l : link) (p : Z) : link := mkLink (fd_ l) p (buf_ l) (resolutions l) (sends l) (recvs l) (sent l) (proc l).
Definition with_resolutions (l : link) (r : list resolution) : link := mkLink (fd_ l) (protover_ l) (buf_ l) r (sends l) (recvs l) (sent l) (proc l).
Definition with_sends (l : link) (s : list send_event) : link := mkLink (fd_ l) (protover_ l) (buf_ l) (resolutions l) s (recvs l) (sent l) (proc l).
Definition with_recvs (l : link) (r : list recv_event) : link := mkLink (fd_ l) (protover_ l) (buf_ l) (resolutions l) (sends l) r (sent l) (proc l).
Definition note_sent (l : link) (argv : list bytes) : link := mkLink (fd_ l) (protover_ l) (buf_ l) (resolutions l) (sends l) (recvs l) (sent l ++ [argv]) (proc l).

(** [strerror(EAGAIN)]: a call that timed out. *)
Definition timed_out : bytes := str "Resource temporarily unavailable".

Definition connected (l : link) : bool := fd_ l.
Definition close (l : link) : link := with_socket l false [].
Definition adopt (l : link) : link := with_protover (with_socket (close l) true []) 2.

Definition systemError (what why : bytes) : bytes := what ++ str ": " ++ why.

(** ** Connecting *)

(** Every address in turn; [error] is an out-parameter that keeps the last
    failure. *)
Fixpoint try_addresses (where_ : bytes) (l : list attempt) (error : bytes) : bool * bytes :=
  match l with
  | [] => (false, if (length error =? 0)%nat then str "cannot connect to " ++ where_ else error)
  | NoSocket :: l => try_addresses where_ l error
  | Connected :: _ => (true, error)
  | Refused why :: l => try_addresses where_ l (systemError (str "cannot connect to " ++ where_) why)
  end.

(** The resolver's next answer; one that has none left offers no address. *)
Definition getaddrinfo (l : link) : resolution := default (Addresses []) (head (resolutions l)).

Definition connect (l : link) (host : bytes) (port : Z) (error : bytes) : link * (bool * bytes) :=
  let l := close l in
  let rc := getaddrinfo l in
  let l := with_resolutions l (tail (resolutions l)) in
  match rc with
  | Unresolved why => (l, (false, str "cannot resolve " ++ host ++ str ": " ++ why))
  | Addresses attempts =>
      let '(ok, error) := try_addresses (host ++ str ":" ++ to_string port) attempts error in
      (if ok then with_socket l true (buf_ l) else l, (ok, error))
  end.

(** ** Sending *)

(** [strerror(EPIPE)] *)
Definition broken_pipe : bytes := str "Broken pipe".

(** The call is made without [MSG_NOSIGNAL]; [None]: the process is killed. *)
Fixpoint send_loop (ignored : bool) (events : list send_event) (data : bytes) : option (list send_event * option bytes) :=
  match data with
  | [] => Some (events, None)
  | _ =>
      match events with
      | [] => Some ([], Some (systemError (str "send failed") timed_out))
      | Sent n :: events =>
          if (0 <? n)%nat then send_loop ignored events (drop n data) else Some (events, Some (str "connection closed while sending"))
      | SendInterrupted :: events => send_loop ignored events data
      | SendFailed why :: events => Some (events, Some (systemError (str "send failed") why))
      | SendPipe :: events => if ignored then Some (events, Some (systemError (str "send failed") broken_pipe)) else None
      end
  end.

(** The error, if there was one. *)
Definition sendAll (l : link) (data : bytes) : option (link * option bytes) :=
  '(events, failed) ← send_loop (ignores_sigpipe (proc l)) (sends l) data;
  let l := with_sends l events in
  Some (if is_some failed then close l else l, failed).

(** ** Receiving *)

Inductive received := Got (r : Reply) (unread : bytes) | Lost (why : bytes).

(** [None]: the reply announces more elements than can be counted or
    allocated. *)
Fixpoint read_loop (room : Z) (events : list recv_event) (buf : bytes) : option (list recv_event * received) :=
  match parseReply room buf with
  | Done r unread => Some (events, Got r unread)
  | Bad e => Some (events, Lost e)
  | Overflow => None
  | Short =>
      match events with
      | [] => Some ([], Lost (systemError (str "read failed") timed_out))
      | Received chunk :: events =>
          if (length chunk =? 0)%nat then Some (events, Lost (str "connection closed by peer")) else read_loop room events (buf ++ chunk)
      | RecvInterrupted :: events => read_loop room events buf
      | RecvFailed why :: events => Some (events, Lost (systemError (str "read failed") why))
      end
  end.

Definition not_connected : bytes := str "not connected".

Definition readReply (l : link) : option (link * (Reply + bytes)) :=
  if negb (fd_ l) then Some (l, inr not_connected)
  else
    '(events, r) ← read_loop (room (proc l)) (recvs l) (buf_ l);
    let l := with_recvs l events in
    Some (match r with Got r unread => (with_socket l (fd_ l) unread, inl r) | Lost why => (close l, inr why) end).

Definition command (l : link) (argv : list bytes) : option (link * (Reply + bytes)) :=
  if negb (fd_ l) then Some (l, inr not_connected)
  else
    '(l, failed) ← sendAll (note_sent l argv) (encodeCommand argv);
    match failed with
    | Some why => Some (l, inr why)
    | None => readReply l
    end.

Definition isError (r : Reply) : bool := match r with Error _ => true | _ => false end.
Definition isNull (r : Reply) : bool := match r with Null => true | _ => false end.

(** The error, if the link broke. *)
Definition negotiateResp3 (l : link) : option (link * option bytes) :=
  '(l, r) ← command l [str "HELLO"; str "3"];
  Some (match r with
        | inr why => (l, Some why)
        | inl reply => (with_protover l (if isError reply then 2 else 3), None)
        end).

(** ** A longer buffer parses the same *)

Definition extend {A} (more : bytes) (r : result A) : result A := match r with Done a unread => Done a (unread ++ more) | r => r end.

(** A child parser that, given more bytes, agrees with one that had enough. *)
Definition grows (p q : bytes -> result Reply) (more : bytes) : Prop := forall s, p s <> Short -> q (s ++ more) = extend more (p s).

Lemma parseElements_grows p q more : grows p q more -> forall fuel fuel' total s acc, (fuel <= fuel')%nat -> parseElements p fuel total s acc <> Short ->
  parseElements q fuel' total (s ++ more) acc = extend more (parseElements p fuel total s acc).
Proof.
  intros Hg. induction fuel as [|fuel IH]; intros fuel' total s acc Hf Hs; cbn [parseElements] in *.
  - destruct (total <=? 0) eqn:Ht; [|done]. destruct fuel'; cbn [parseElements]; by rewrite Ht.
  - destruct fuel' as [|fuel']; [lia|]. cbn [parseElements]. destruct (total <=? 0); [done|]. assert (p s <> Short) as Hp by (intros E; by rewrite E in Hs).
    rewrite (Hg s Hp). destruct (p s) as [r unread| |e|]; cbn [extend]; try done. apply IH; [lia|done].
Qed.

Lemma parseLine_grows k k' more s : (forall line after, k line after <> Short -> k' line (after ++ more) = extend more (k line after)) ->
  parseLine k s <> Short -> parseLine k' (s ++ more) = extend more (parseLine k s).
Proof.
  intros Hk Hs. unfold parseLine in *. destruct (findCrlf s) as [cr|] eqn:Hc; [|done]. rewrite (findCrlf_more _ more _ Hc). pose proof (findCrlf_bound _ _ Hc) as Hb.
  rewrite !drop_app_le by lia. rewrite take_app_le by (rewrite length_drop; lia). by apply Hk.
Qed.

Lemma parseBulk_grows type more s : parseBulk type s <> Short -> parseBulk type (s ++ more) = extend more (parseBulk type s).
Proof.
  apply parseLine_grows. intros line after. destruct (parseLong line) as [len|]; [|done]. destruct (Z.ltb_spec len 0) as [|Hlen]; [done|].
  destruct (Z.ltb_spec (Z.of_nat (length after)) (len + 2)) as [|Hl]; [done|]. intros _. rewrite length_app. rewrite (proj2 (Z.ltb_ge _ _)) by lia. cbn [extend].
  rewrite take_app_le, drop_app_le by lia. done.
Qed.

Lemma parseAggregate_grows room p q type mult more s : grows p q more -> parseAggregate room p type mult s <> Short ->
  parseAggregate room q type mult (s ++ more) = extend more (parseAggregate room p type mult s).
Proof.
  intros Hg Hs. unfold parseAggregate in *. destruct (findCrlf s) as [cr|] eqn:Hc; [|done]. rewrite (findCrlf_more _ more _ Hc). pose proof (findCrlf_bound _ _ Hc) as Hb.
  rewrite !drop_app_le by lia. rewrite take_app_le by (rewrite length_drop; lia). destruct (parseLong _) as [n|]; [|done]. destruct (n <? 0); [done|]. destruct (_ || _); [done|].
  rewrite length_app. rewrite (parseElements_grows p q more Hg (length s)); [|lia|intros E; by rewrite E in Hs]. by destruct (parseElements p _ _ _ _).
Qed.

Lemma parseReplyInner_grows room fuel fuel' more : (fuel <= fuel')%nat -> grows (parseReplyInner room fuel) (parseReplyInner room fuel') more.
Proof.
  revert fuel'. induction fuel as [|fuel IH]; intros fuel' Hf s Hs; [done|]. destruct fuel' as [|fuel']; [lia|]. specialize (IH fuel' ltac:(lia)).
  destruct s as [|c s]; [done|]. cbn [parseReplyInner app] in *. change (c :: s ++ more) with ((c :: s) ++ more).
  repeat (destruct (c =? _); [first [apply parseBulk_grows | apply parseAggregate_grows | apply parseLine_grows]; try done|]); try done.
  intros line after. by destruct (parseLong line).
Qed.

Lemma parseReply_grows room s more : parseReply room s <> Short -> parseReply room (s ++ more) = extend more (parseReply room s).
Proof. apply parseReplyInner_grows. rewrite length_app. lia. Qed.

(** ** The stream of replies *)

(** The bytes the peer still delivers before the stream ends or breaks. *)
Fixpoint incoming (events : list recv_event) : bytes :=
  match events with
  | Received chunk :: events => if (length chunk =? 0)%nat then [] else chunk ++ incoming events
  | RecvInterrupted :: events => incoming events
  | _ => []
  end.

Definition stream (l : link) : bytes := buf_ l ++ incoming (recvs l).

Lemma read_loop_ok room events buf r unread : parseReply room (buf ++ incoming events) = Done r unread ->
  exists events' unread', read_loop room events buf = Some (events', Got r unread') /\ unread' ++ incoming events' = unread.
Proof.
  revert buf. induction events as [|e events IH]; intros buf H; cbn [read_loop incoming] in *.
  - rewrite app_nil_r in H. rewrite H. eexists _, _. split; [done|]. by rewrite app_nil_r.
  - pose proof (parseReply_grows room buf (incoming (e :: events))) as Hg. change (match e with Received c => _ | _ => _ end) with (incoming (e :: events)) in H. rewrite H in Hg.
    destruct (parseReply room buf) as [r' unread'| |b|] eqn:Hp.
    + specialize (Hg ltac:(done)). cbn [extend] in Hg. injection Hg as -> ->. by eexists _, _.
    + clear Hg. destruct e as [chunk| |why]; cbn [incoming] in H.
      * destruct (length chunk =? 0)%nat; [by rewrite app_nil_r, Hp in H|]. apply IH. by rewrite <- app_assoc.
      * by apply IH.
      * by rewrite app_nil_r, Hp in H.
    + by specialize (Hg ltac:(done)).
    + by specialize (Hg ltac:(done)).
Qed.

Lemma readReply_ok l r unread : fd_ l = true -> parseReply (room (proc l)) (stream l) = Done r unread ->
  exists l', readReply l = Some (l', inl r) /\ stream l' = unread /\ fd_ l' = true /\ sent l' = sent l /\ proc l' = proc l.
Proof.
  intros Hfd H. unfold readReply. rewrite Hfd. cbn [negb]. destruct (read_loop_ok _ _ _ _ _ H) as (events & unread' & -> & <-). cbn. by eexists.
Qed.

Fixpoint read_all (n : nat) (l : link) : option (link * list (Reply + bytes)) :=
  match n with
  | O => Some (l, [])
  | S n => '(l, r) ← readReply l; '(l, rs) ← read_all n l; Some (l, r :: rs)
  end.

(** C21: Replies arrive whole and in order, however the network cuts the stream into
    reads and however often a read is interrupted: when the peer writes a
    sequence of replies, each [writable] (lines without a line feed, doubles other
    than NaN, aggregates that the client can allocate), reading as many
    replies returns each of them as the protocol version carries it ([view]:
    RESP2 turns maps, sets and pushes into arrays, booleans into integers,
    doubles, big numbers and verbatim strings into bulk strings), in order, and
    leaves the bytes after them for the next read. *)
Theorem replies_reassembled (protover : Z) (items : list item) (after : bytes) (l : link) :
  fd_ l = true -> Forall (fun r => writable (room (proc l)) protover r = true) items -> stream l = concat (map (write protover) items) ++ after ->
  exists l', read_all (length items) l = Some (l', map (fun r => inl (view protover r)) items) /\ stream l' = after /\ fd_ l' = true.
Proof.
  revert l. induction items as [|r items IH]; intros l Hfd H Hs; cbn [length read_all map concat app] in *; [by exists l|]. apply Forall_cons in H as [Hr H].
  destruct (readReply_ok l (view protover r) (concat (map (write protover) items) ++ after) Hfd) as (l1 & -> & H1 & H2 & _ & H3).
  { rewrite Hs, <- app_assoc. unfold parseReply. apply read_written; [done|]. rewrite length_app. lia. }
  cbn [mbind option_bind]. rewrite <- H3 in H. destruct (IH l1 H2 H H1) as (l2 & -> & H5 & H6). by exists l2.
Qed.

Lemma replies_reassembled_witness :
  let l := mkLink true 3 (str "+P") [] [] [Received (str "ONG"); RecvInterrupted; Received ([13; 10] ++ str ":4"); Received [13; 10; 43]] [] (mkProcess 100 false) in
  exists l', read_all 2 l = Some (l', [inl (SimpleString (str "PONG")); inl (Integer 4)]) /\ stream l' = [43] /\ fd_ l' = true.
Proof.
  apply (replies_reassembled 3 [ISimpleString (str "PONG"); IInteger 4] [43]).
  - reflexivity.
  - repeat (apply Forall_cons; split; [vm_compute; reflexivity|]). apply Forall_nil_2.
  - vm_compute. reflexivity.
Defined.

(** A command that is answered was sent whole. *)
Fixpoint delivered (events : list send_event) (data : bytes) : bytes :=
  match events with
  | Sent n :: events => if (0 <? n)%nat then take n data ++ delivered events (drop n data) else []
  | SendInterrupted :: events => delivered events data
  | _ => []
  end.

Lemma send_loop_all ignored events data events' : send_loop ignored events data = Some (events', None) -> exists done, events = done ++ events' /\ delivered done data = data.
Proof.
  revert data. induction events as [|e events IH]; intros data; cbn [send_loop]; (destruct data as [|c data]; [intros [= <-]; by exists []|]); [done|].
  destruct e as [n| |why|]; [|intros H; destruct (IH _ H) as (d & -> & Hd); by exists (SendInterrupted :: d)|done|by destruct ignored].
  destruct (Nat.ltb_spec 0 n) as [Hn|]; [|done]. intros H. destruct (IH _ H) as (d & -> & Hd). exists (Sent n :: d). split; [done|]. cbn [delivered].
  rewrite (proj2 (Nat.ltb_lt 0 n) Hn), Hd. apply take_drop.
Qed.

End RespClient.
