(* ===== verification/Connection.v ===== *)
(** * Connection: the read path of one client

    [Server::readFromClient] and [Server::processInputBuffer] of
    [src/server/server.cpp]: bytes arrive in fragments of any size, each
    fragment is appended to the query buffer, and every complete command in
    the buffer is dispatched before the next read. What dispatching does to
    the server is a parameter: these theorems are about which commands reach
    it, and hold whatever the commands do. The query buffer is represented by
    its unconsumed part, which is what [Client::trimQueryBuffer] leaves of it. *)

From Stdlib Require Import ZArith Lia.
From stdpp Require Import base list numbers option strings.
From S2P Require Import Prelude Resp.
Import Resp.

Module Connection.

Section connection.
(** The state of the server, and what one command does to it; the boolean is
    [client.shouldClose()] afterwards. *)
Context {S : Type} (dispatch : S -> list bytes -> S * bool).

(** [Open]: waiting for the next read. [Refused]: closed after a protocol
    error, which is the last reply. [Closed]: closed on a command's request.
    [Hung]: a call of the parser never returns. *)
Inductive outcome :=
  | Open (s : S) (p : parser) (query : bytes)
  | Refused (s : S) (error : bytes)
  | Closed (s : S)
  | Hung.

(** The loop of [processInputBuffer]. A completed command consumes at least one
    byte, so as many turns as there are bytes, plus one, are enough. *)
Fixpoint process (fuel : nat) (s : S) (p : parser) (query : bytes) : option outcome :=
  match fuel with
  | O => None
  | Datatypes.S fuel =>
      match query with
      | [] => Some (Open s p query)
      | _ =>
          match parse p query with
          | (Incomplete, p, n) => Some (Open s p (drop n query))
          | (Error e, _, _) => Some (Refused s e)
          | (Diverges, _, _) => Some Hung
          | (Complete [], p, n) => process fuel s p (drop n query)
          | (Complete argv, p, n) =>
              let '(s, close) := dispatch s argv in
              if close : bool then Some (Closed s) else process fuel s p (drop n query)
          end
      end
  end.

Definition processInputBuffer (s : S) (p : parser) (query : bytes) : option outcome :=
  process (Datatypes.S (length query)) s p query.

(** One turn of [readFromClient]: the bytes read are appended to what is left. *)
Definition receive (o : option outcome) (chunk : bytes) : option outcome :=
  match o with
  | Some (Open s p query) => processInputBuffer s p (query ++ chunk)
  | other => other
  end.

(** A connection from its first byte, read in the given fragments. *)
Definition session (s : S) (chunks : list bytes) : option outcome :=
  foldl receive (Some (Open s reset [])) chunks.

(** ** Enough turns *)

Lemma parse_complete p query argv p' n :
  wf p -> parse p query = (Complete argv, p', n) -> p' = reset /\ (1 <= n <= length query)%nat.
Proof. intros Hwf Hp. by destruct (parse_complete_more p query [] argv p' n Hwf Hp) as (_ & -> & ?). Qed.

Lemma process_fuel f1 f2 s p query :
  wf p -> (length query < f1)%nat -> (length query < f2)%nat -> process f1 s p query = process f2 s p query.
Proof.
  revert f2 s p query. induction f1 as [|f1 IH]; intros [|f2] s p query Hwf H1 H2; try lia.
  cbn [process]. destruct query as [|c query]; [done|].
  destruct (parse p (c :: query)) as [[st p'] n] eqn:Hp. destruct st as [|argv| |]; try done.
  apply parse_complete in Hp as [-> Hn]; [|done]. cbn [length] in *.
  assert (forall s, process f1 s reset (drop n (c :: query)) = process f2 s reset (drop n (c :: query))) as H.
  { intros s'. apply IH; [apply wf_reset|..]; rewrite length_drop; cbn [length]; lia. }
  destruct argv; [apply H|]. destruct (dispatch s _) as [s' []]; [done|apply H].
Qed.

Lemma process_total fuel s p query :
  wf p -> (length query < fuel)%nat -> exists o, process fuel s p query = Some o.
Proof.
  revert s p query. induction fuel as [|fuel IH]; intros s p query Hwf Hf; [lia|]. cbn [process].
  destruct query as [|c query]; [by eexists|].
  destruct (parse p (c :: query)) as [[st p'] n] eqn:Hp. destruct st as [|argv| |]; try by eexists.
  apply parse_complete in Hp as [-> Hn]; [|done]. cbn [length] in *.
  assert (forall s, exists o, process fuel s reset (drop n (c :: query)) = Some o) as H.
  { intros s'. apply IH; [apply wf_reset|]. rewrite length_drop. cbn [length]. lia. }
  destruct argv; [apply H|]. destruct (dispatch s _) as [s' []]; [by eexists|apply H].
Qed.

(** ** Fragmentation *)

(** One turn of the loop, with as much fuel as the whole loop needs. *)
Lemma processInputBuffer_step s p query :
  wf p -> query <> [] ->
  processInputBuffer s p query =
    match parse p query with
    | (Incomplete, p, n) => Some (Open s p (drop n query))
    | (Error e, _, _) => Some (Refused s e)
    | (Diverges, _, _) => Some Hung
    | (Complete [], p, n) => processInputBuffer s p (drop n query)
    | (Complete argv, p, n) =>
        let '(s, close) := dispatch s argv in
        if close : bool then Some (Closed s) else processInputBuffer s p (drop n query)
    end.
Proof.
  intros Hwf Hne. unfold processInputBuffer at 1. cbn [process]. destruct query as [|c query]; [done|].
  destruct (parse p (c :: query)) as [[st p'] n] eqn:Hp. destruct st as [|argv| |]; try done.
  apply parse_complete in Hp as [-> Hn]; [|done]. cbn [length] in Hn.
  assert (forall s, process (length (c :: query)) s reset (drop n (c :: query)) =
    processInputBuffer s reset (drop n (c :: query))) as H.
  { intros s'. apply process_fuel; [apply wf_reset|..]; rewrite ?length_drop; cbn [length]; lia. }
  destruct argv; [apply H|]. by destruct (dispatch s _) as [s' []]; [|apply H].
Qed.

(** What is left open after some bytes goes on as if all had come at once. *)
Lemma process_resume fuel s p a b s' p' q' :
  wf p -> process fuel s p a = Some (Open s' p' q') ->
  wf p' /\ processInputBuffer s p (a ++ b) = processInputBuffer s' p' (q' ++ b).
Proof.
  revert s p a. induction fuel as [|fuel IH]; intros s p a Hwf; [done|]. cbn [process].
  destruct a as [|c a]; [by intros [= <- <- <-]|].
  destruct (parse p (c :: a)) as [[st p1] n] eqn:Hp. destruct st as [|argv| |]; try done.
  - intros [= <- <- <-]. pose proof Hp as Hp0.
    apply (parse_resume _ _ b) in Hp as (Hn & Hw & Hr); [|done]. split; [done|].
    destruct (decide (drop n (c :: a) ++ b = [])) as [He|He].
    + apply app_eq_nil in He as [He ->]. rewrite app_nil_r, processInputBuffer_step, Hp0 by done.
      by rewrite app_nil_r, He.
    + rewrite !processInputBuffer_step, Hr by done.
      destruct (parse p1 _) as [[st p2] m]. unfold shift. cbn [fst snd].
      by rewrite <- drop_app_le, drop_drop by done.
  - pose proof Hp as Hp0. apply parse_complete in Hp0 as [-> Hn]; [|done].
    apply (parse_complete_more _ _ b) in Hp as (Hp & _ & _); [|done].
    rewrite processInputBuffer_step, Hp by done. rewrite drop_app_le by lia.
    destruct argv; [apply IH, wf_reset|]. destruct (dispatch s _) as [s1 []]; [done|apply IH, wf_reset].
Qed.

(** A connection that a command closed ignores everything after that command. *)
Lemma process_closed fuel s p a b s' :
  wf p -> process fuel s p a = Some (Closed s') -> processInputBuffer s p (a ++ b) = Some (Closed s').
Proof.
  revert s p a. induction fuel as [|fuel IH]; intros s p a Hwf; [done|]. cbn [process].
  destruct a as [|c a]; [done|].
  destruct (parse p (c :: a)) as [[st p1] n] eqn:Hp. destruct st as [|argv| |]; try done.
  pose proof Hp as Hp0. apply parse_complete in Hp0 as [-> Hn]; [|done].
  apply (parse_complete_more _ _ b) in Hp as (Hp & _ & _); [|done].
  rewrite processInputBuffer_step, Hp by done. rewrite drop_app_le by lia.
  destruct argv; [apply IH, wf_reset|]. destruct (dispatch s _) as [s1 []]; [by intros [= <-]|apply IH, wf_reset].
Qed.

Definition delivered (o : option outcome) : Prop :=
  match o with Some (Open _ _ _) | Some (Closed _) => True | _ => False end.

Lemma session_snoc s chunks chunk : session s (chunks ++ [chunk]) = receive (session s chunks) chunk.
Proof. unfold session. by rewrite foldl_app. Qed.

Lemma session_at_once s chunks :
  delivered (session s chunks) ->
  session s chunks = processInputBuffer s reset (concat chunks) /\
  match session s chunks with Some (Open _ p _) => wf p | _ => True end.
Proof.
  induction chunks as [|chunk chunks IH] using rev_ind; [split; [done|apply wf_reset]|].
  rewrite session_snoc, concat_app. cbn [concat]. rewrite app_nil_r.
  intros Hd. destruct (session s chunks) as [[s1 p1 q1|s1 e|s1|]|]; cbn [receive] in *; try done.
  - destruct (IH I) as [He Hw]. symmetry in He. apply (process_resume _ _ _ _ chunk) in He as [_ He]; [|apply wf_reset].
    rewrite He. split; [done|]. destruct (processInputBuffer s1 p1 (q1 ++ chunk)) as [[s2 p2 q2|?|?|]|] eqn:E; try done.
    by apply (process_resume _ _ _ _ []) in E as [? _].
  - destruct (IH I) as [He _]. split; [|done]. symmetry in He. symmetry. by apply (process_closed _ _ _ _ chunk) in He; [|apply wf_reset].
Qed.

(** C28: how the bytes were split into reads does not matter. However the
    bytes of a connection were fragmented, if the connection was not refused
    or hung, then its state, the parser's state, the bytes still waiting and
    whether it was closed are those of a server that received all of the bytes
    in one read. *)
Theorem fragmentation_invisible s chunks :
  delivered (session s chunks) -> session s chunks = session s [concat chunks].
Proof. intros Hd. destruct (session_at_once s chunks Hd) as [-> _]. done. Qed.

(** ** Pipelines *)

Definition pipeline (cmds : list (list bytes)) : bytes := concat (map encodeCommand cmds).
Definition run (s : S) (cmds : list (list bytes)) : S := foldl (fun s argv => (dispatch s argv).1) s cmds.

Definition command_ok (argv : list bytes) : Prop :=
  argv <> [] /\ sendable argv /\ forall s, (dispatch s argv).2 = false.

(** A complete command at the head of the buffer is dispatched and removed. *)
Lemma process_command s argv rest :
  command_ok argv ->
  processInputBuffer s reset (encodeCommand argv ++ rest) = processInputBuffer (dispatch s argv).1 reset rest.
Proof.
  intros (Hne & Hs & Hc). rewrite processInputBuffer_step, encodeCommand_read by (done || apply wf_reset).
  rewrite drop_app_length. destruct argv as [|a argv]; [done|].
  specialize (Hc s). destruct (dispatch s (a :: argv)) as [s' close]. cbn [fst snd] in *. by rewrite Hc.
Qed.

(** Any prefix of a pipeline leaves the connection open. *)
Lemma process_prefix s cmds pre suf :
  Forall command_ok cmds -> pipeline cmds = pre ++ suf ->
  exists s' p q, processInputBuffer s reset pre = Some (Open s' p q).
Proof.
  intros H. revert s pre. induction H as [|argv cmds Hc _ IH]; intros s pre Heq.
  { symmetry in Heq. apply app_eq_nil in Heq as [-> _]. by do 3 eexists. }
  unfold pipeline in Heq. cbn [map concat] in Heq. fold (pipeline cmds) in Heq.
  apply prefix_split in Heq as [(suf' & Hs' & Heq)|(pre' & -> & Heq)].
  - destruct pre as [|c pre]; [by do 3 eexists|].
    destruct (parse_prefix argv (c :: pre) suf') as (p & k & Hp); [apply Hc|done|done|].
    rewrite processInputBuffer_step, Hp by (done || apply wf_reset). by do 3 eexists.
  - rewrite process_command by done. by apply IH.
Qed.

Lemma process_pipeline s cmds :
  Forall command_ok cmds -> processInputBuffer s reset (pipeline cmds) = Some (Open (run s cmds) reset []).
Proof.
  intros H. revert s. induction H as [|argv cmds Hc _ IH]; intros s; [done|].
  unfold pipeline. cbn [map concat]. rewrite process_command by done. apply IH.
Qed.

Lemma session_prefix s cmds chunks suf :
  Forall command_ok cmds -> pipeline cmds = concat chunks ++ suf -> delivered (session s chunks).
Proof.
  intros H. revert suf. induction chunks as [|chunk chunks IH] using rev_ind; intros suf Heq; [done|].
  rewrite concat_app in Heq. cbn [concat] in Heq. rewrite app_nil_r in Heq.
  assert (delivered (session s chunks)) as Hd by (apply (IH (chunk ++ suf)); by rewrite app_assoc).
  rewrite session_snoc. destruct (session_at_once s chunks Hd) as [He Hw].
  destruct (session s chunks) as [[s1 p1 q1|?|?|]|]; try done. cbn [receive]. symmetry in He.
  apply (process_resume _ _ _ _ chunk) in He as [_ He]; [|apply wf_reset]. rewrite <- He.
  by destruct (process_prefix s cmds (concat chunks ++ chunk) suf H Heq) as (? & ? & ? & ->).
Qed.

(** C37: a pipeline of commands, sent with [encodeCommand] and split into reads
    at any byte positions, is executed command by command: every command is
    dispatched exactly once, in order, with exactly its arguments, none is
    taken for an error, and the connection ends open with a fresh parser and
    an empty query buffer. The commands are non-empty, within the request
    parser's limits on the number and the length of arguments ([sendable]),
    and such that dispatching them does not close the connection in any
    state: a pipeline with QUIT, or with a command a later state answers by
    closing, is not covered. *)
Theorem pipeline_executed s cmds chunks :
  Forall command_ok cmds -> concat chunks = pipeline cmds ->
  session s chunks = Some (Open (run s cmds) reset []).
Proof.
  intros H Heq. assert (delivered (session s chunks)) as Hd.
  { apply (session_prefix s cmds chunks []); [done|]. by rewrite app_nil_r. }
  destruct (session_at_once s chunks Hd) as [-> _]. rewrite Heq. by apply process_pipeline.
Qed.

End connection.

(** A dispatcher that records the commands it is given. *)
Definition logging (log : list (list bytes)) (argv : list bytes) : list (list bytes) * bool := (log ++ [argv], false).

Lemma fragmentation_invisible_witness :
  session logging [] [str "PI"; [78; 71; 13; 10; 42; 49]; [13; 10]] =
  session logging [] [concat [str "PI"; [78; 71; 13; 10; 42; 49]; [13; 10]]].
Proof. apply fragmentation_invisible. vm_compute. exact I. Defined.

Definition two_commands : list (list bytes) := [[str "SET"; str "k"; [13; 10]]; [str "GET"; str "k"]].

Lemma pipeline_executed_witness :
  session logging [] (map (fun b => [b]) (pipeline two_commands)) = Some (Open two_commands reset []).
Proof.
  rewrite (pipeline_executed logging [] two_commands); [reflexivity| |].
  - repeat constructor; try discriminate; repeat (constructor; try (vm_compute; discriminate)).
  - vm_compute. reflexivity.
Defined.

End Connection.
