(* ===== verification/Json.v ===== *)
(** * Json: the JSON values of the MCP server

    [src/mcp/json.h] and [src/mcp/json.cpp]: values, the serialiser with its
    UTF-8 repair, the recursive-descent parser with its offsets and its depth
    limit. *)

From Stdlib Require Import ZArith Lia.
Set Warnings "-register-all".
From stdpp Require Import base list numbers gmap option strings.
From S2P Require Import Prelude Encoding Double Strtod Dtoa ZSetValue.

Module Json.

(** Objects keep their members in the order of insertion. A double is its bit
    pattern. *)
Inductive json :=
  | Null
  | Bool (b : bool)
  | Number (d : Z)
  | String (s : bytes)
  | Array (l : list json)
  | Object (m : list (bytes * json)).

Definition kMaxJsonDepth : Z := 64.

(** ** Access *)

Definition isString (v : json) : bool := match v with String _ => true | _ => false end.
Definition isNumber (v : json) : bool := match v with Number _ => true | _ => false end.
Definition isArray (v : json) : bool := match v with Array _ => true | _ => false end.
Definition isObject (v : json) : bool := match v with Object _ => true | _ => false end.
Definition isNull (v : json) : bool := match v with Null => true | _ => false end.
Definition isBool (v : json) : bool := match v with Bool _ => true | _ => false end.

(** The fields of the class that another type of value does not set. *)
Definition asBool (v : json) : bool := match v with Bool b => b | _ => false end.
Definition asNumber (v : json) : Z := match v with Number d => d | _ => 0 end.
Definition asString (v : json) : bytes := match v with String s => s | _ => [] end.
Definition elements (v : json) : list json := match v with Array l => l | _ => [] end.
Definition members (v : json) : list (bytes * json) := match v with Object m => m | _ => [] end.

Fixpoint set_member (m : list (bytes * json)) (key : bytes) (v : json) : list (bytes * json) :=
  match m with
  | [] => [(key, v)]
  | (k, w) :: m => if k =b? key then (k, v) :: m else (k, w) :: set_member m key v
  end.

(** [set] and [push] on the type they are defined for. *)
Definition set (o : json) (key : bytes) (v : json) : json := match o with Object m => Object (set_member m key v) | _ => o end.
Definition push (a : json) (v : json) : json := match a with Array l => Array (l ++ [v]) | _ => a end.

Fixpoint find_member (m : list (bytes * json)) (key : bytes) : option json :=
  match m with
  | [] => None
  | (k, v) :: m => if k =b? key then Some v else find_member m key
  end.

Definition find (o : json) (key : bytes) : option json := match o with Object m => find_member m key | _ => None end.

(** ** UTF-8 *)

(** The code point that [k] continuation bytes complete. *)
Fixpoint continuation (k : nat) (cp : Z) (s : bytes) : option Z :=
  match k, s with
  | O, _ => Some cp
  | S k, c :: s => if Z.land c 0xC0 =? 0x80 then continuation k (Z.lor (Z.shiftl cp 6) (Z.land c 0x3F)) s else None
  | S _, [] => None
  end.

(** The length of the sequence a string starts with, 0 if it is malformed. *)
Definition utf8SequenceLength (s : bytes) : nat :=
  match s with
  | [] => 0
  | c :: rest =>
      if c <? 0x80 then 1
      else
        let head :=
          if Z.land c 0xE0 =? 0xC0 then Some (2%nat, Z.land c 0x1F)
          else if Z.land c 0xF0 =? 0xE0 then Some (3%nat, Z.land c 0x0F)
          else if Z.land c 0xF8 =? 0xF0 then Some (4%nat, Z.land c 0x07)
          else None in
        match head with
        | None => 0
        | Some (len, bits) =>
            match continuation (len - 1) bits rest with
            | None => 0
            | Some cp =>
                if (len =? 2)%nat && (cp <? 0x80) then 0
                else if (len =? 3)%nat && (cp <? 0x800) then 0
                else if (len =? 4)%nat && (cp <? 0x10000) then 0
                else if 0x10FFFF <? cp then 0
                else if (0xD800 <=? cp) && (cp <=? 0xDFFF) then 0
                else len
            end
        end
  end.

Definition replacement : bytes := [0xEF; 0xBF; 0xBD].

(** The three walks over a string copy or skip a whole sequence at once;
    [pending] of its bytes are still to come. *)
Fixpoint valid_from (pending : nat) (s : bytes) : bool :=
  match s, pending with
  | [], _ => true
  | _ :: s, S pending => valid_from pending s
  | c :: s, O => match utf8SequenceLength (c :: s) with O => false | S more => valid_from more s end
  end.

Definition isValidUtf8 (s : bytes) : bool := valid_from 0 s.

Fixpoint sanitise_from (pending : nat) (s : bytes) : bytes :=
  match s, pending with
  | [], _ => []
  | c :: s, S pending => c :: sanitise_from pending s
  | c :: s, O => match utf8SequenceLength (c :: s) with O => replacement ++ sanitise_from 0 s | S more => c :: sanitise_from more s end
  end.

Definition sanitiseUtf8 (s : bytes) : bytes := sanitise_from 0 s.

(** ** Serialising *)

(** [%x] of one digit. *)
Definition hex_char (d : Z) : Z := if d <? 10 then 48 + d else 87 + d.

Definition unicode_escape (c : Z) : bytes := str "\u" ++ [hex_char (c / 4096 mod 16); hex_char (c / 256 mod 16); hex_char (c / 16 mod 16); hex_char (c mod 16)].

(** The two-character escapes of the [switch]. *)
Definition short_escape (c : Z) : option bytes :=
  if c =? 34 then Some [92; 34]
  else if c =? 92 then Some [92; 92]
  else if c =? 8 then Some (str "\b")
  else if c =? 12 then Some (str "\f")
  else if c =? 10 then Some (str "\n")
  else if c =? 13 then Some (str "\r")
  else if c =? 9 then Some (str "\t")
  else None.

Fixpoint escape_from (pending : nat) (s : bytes) : bytes :=
  match s, pending with
  | [], _ => []
  | c :: s, S pending => c :: escape_from pending s
  | c :: s, O =>
      match short_escape c with
      | Some e => e ++ escape_from 0 s
      | None =>
          if c <? 0x20 then unicode_escape c ++ escape_from 0 s
          else match utf8SequenceLength (c :: s) with O => replacement ++ escape_from 0 s | S more => c :: escape_from more s end
      end
  end.

Definition appendEscaped (s : bytes) : bytes := [34] ++ escape_from 0 s ++ [34].

Fixpoint separated (parts : list bytes) : bytes :=
  match parts with
  | [] => []
  | [p] => p
  | p :: parts => p ++ [44] ++ separated parts
  end.

Fixpoint serialiseInto (v : json) (depth : Z) : bytes :=
  if kMaxJsonDepth <? depth then str "null"
  else
    match v with
    | Null => str "null"
    | Bool b => if b then str "true" else str "false"
    | Number d =>
        if Double.isnan d then [34] ++ str "nan" ++ [34]
        else if Double.isinf d then (if Double.gt d 0 then [34] ++ str "inf" ++ [34] else [34] ++ str "-inf" ++ [34])
        else Dtoa.d2string d
    | String s => appendEscaped s
    | Array l => [91] ++ separated (map (fun e => serialiseInto e (depth + 1)) l) ++ [93]
    | Object m => [123] ++ separated (map (fun '(k, e) => appendEscaped k ++ [58] ++ serialiseInto e (depth + 1)) m) ++ [125]
    end.

Definition serialise (v : json) : bytes := serialiseInto v 0.

(** ** Parsing *)

(** [i_] and what [s_] holds from there on. *)
Record cursor := mkCursor { offset : nat; rest : bytes }.

Definition advance (n : nat) (c : cursor) : cursor := mkCursor (offset c + n) (drop n (rest c)).

(** [Failed] holds what [fail] stores; [Exhausted] is a loop cut short. *)
Inductive result (A : Type) :=
  | Done (a : A) (c : cursor)
  | Failed (message : bytes)
  | Exhausted.
Arguments Done {A} a c.
Arguments Failed {A} message.
Arguments Exhausted {A}.

Definition fail {A} (what : string) (c : cursor) : result A := Failed (str what ++ str " at offset " ++ to_string (Z.of_nat (offset c))).

Definition andThen {A B} (r : result A) (k : A -> cursor -> result B) : result B :=
  match r with Done a c => k a c | Failed m => Failed m | Exhausted => Exhausted end.

Notation "'let!' a , c := r 'in' k" := (andThen r (fun a c => k)) (at level 10, a name, c name, r at level 100, k at level 200).

Definition isSpace (c : Z) : bool := (c =? 32) || (c =? 9) || (c =? 10) || (c =? 13).

Fixpoint skip_spaces (i : nat) (s : bytes) : cursor :=
  match s with
  | c :: s' => if isSpace c then skip_spaces (S i) s' else mkCursor i s
  | [] => mkCursor i s
  end.

Definition skipSpace (c : cursor) : cursor := skip_spaces (offset c) (rest c).

Definition literal {A} (word : string) (a : A) (c : cursor) : result A :=
  if take (length (str word)) (rest c) =b? str word then Done a (advance (length (str word)) c) else fail "invalid literal" c.

Definition appendCodepoint (cp : Z) : bytes :=
  if cp <? 0x80 then [cp]
  else if cp <? 0x800 then [Z.lor 0xC0 (Z.shiftr cp 6); Z.lor 0x80 (Z.land cp 0x3F)]
  else if cp <? 0x10000 then [Z.lor 0xE0 (Z.shiftr cp 12); Z.lor 0x80 (Z.land (Z.shiftr cp 6) 0x3F); Z.lor 0x80 (Z.land cp 0x3F)]
  else [Z.lor 0xF0 (Z.shiftr cp 18); Z.lor 0x80 (Z.land (Z.shiftr cp 12) 0x3F); Z.lor 0x80 (Z.land (Z.shiftr cp 6) 0x3F); Z.lor 0x80 (Z.land cp 0x3F)].

Definition hex_value (c : Z) : option Z :=
  if (48 <=? c) && (c <=? 57) then Some (c - 48)
  else if (97 <=? c) && (c <=? 102) then Some (c - 97 + 10)
  else if (65 <=? c) && (c <=? 70) then Some (c - 65 + 10)
  else None.

Fixpoint hex_digits (s : bytes) (out : Z) : option Z :=
  match s with
  | [] => Some out
  | c :: s => d ← hex_value c; hex_digits s (Z.lor (Z.shiftl out 4) d)
  end.

Definition parseHex4 (c : cursor) : result Z :=
  if (length (rest c) <? 4)%nat then fail "truncated \u escape" c
  else match hex_digits (take 4 (rest c)) 0 with
       | None => fail "bad hex digit in \u escape" c
       | Some out => Done out (advance 4 c)
       end.

Definition isHighSurrogate (cp : Z) : bool := (0xD800 <=? cp) && (cp <=? 0xDBFF).
Definition isLowSurrogate (cp : Z) : bool := (0xDC00 <=? cp) && (cp <=? 0xDFFF).

(** The escape after [\u]: a surrogate pair is one code point, half of one is
    U+FFFD. *)
Definition parseUnicode (c : cursor) : result Z :=
  let! cp, c := parseHex4 c in
  if isHighSurrogate cp && (take 2 (rest c) =b? str "\u") then
    let! low, after := parseHex4 (advance 2 c) in
    if isLowSurrogate low then Done (0x10000 + Z.shiftl (cp - 0xD800) 10 + (low - 0xDC00)) after else Done 0xFFFD c
  else Done (if isHighSurrogate cp || isLowSurrogate cp then 0xFFFD else cp) c.

(** What a one-letter escape stands for. *)
Definition unescaped (esc : Z) : option Z :=
  if esc =? 34 then Some 34
  else if esc =? 92 then Some 92
  else if esc =? 47 then Some 47
  else if esc =? 98 then Some 8
  else if esc =? 102 then Some 12
  else if esc =? 110 then Some 10
  else if esc =? 114 then Some 13
  else if esc =? 116 then Some 9
  else None.

Fixpoint string_loop (fuel : nat) (c : cursor) (out : bytes) : result bytes :=
  match fuel with
  | O => Exhausted
  | S fuel =>
      match rest c with
      | [] => fail "unterminated string" c
      | x :: _ =>
          if x =? 34 then Done out (advance 1 c)
          else if x <? 0x20 then fail "control character in string" c
          else if negb (x =? 92) then string_loop fuel (advance 1 c) (out ++ [x])
          else
            let c := advance 1 c in
            match rest c with
            | [] => fail "unterminated escape" c
            | esc :: _ =>
                let c := advance 1 c in
                match unescaped esc with
                | Some b => string_loop fuel c (out ++ [b])
                | None =>
                    if esc =? 117 then let! cp, c := parseUnicode c in string_loop fuel c (out ++ appendCodepoint cp)
                    else fail "unknown escape" c
                end
            end
      end
  end.

(** Every turn consumes a byte. *)
Definition parseString (c : cursor) : result bytes := string_loop (S (length (rest c))) (advance 1 c) [].

Definition isDigit (c : Z) : bool := (48 <=? c) && (c <=? 57).
Definition isSign (c : Z) : bool := (c =? 45) || (c =? 43).

Definition isE (c : Z) : bool := (c =? 101) || (c =? 69).

(** The number of digits a string starts with. *)
Fixpoint count_digits (s : bytes) : nat := match s with c :: s => if isDigit c then S (count_digits s) else 0 | [] => 0 end.

Definition skip_if (p : Z -> bool) (s : bytes) : nat := match s with c :: _ => if p c then 1 else 0 | [] => 0 end.

Definition parseNumber (start : cursor) : result json :=
  let c := advance (skip_if isSign (rest start)) start in
  let whole := count_digits (rest c) in
  let c := advance whole c in
  let point := skip_if (Z.eqb 46) (rest c) in
  let c := advance point c in
  let fraction := if (point =? 1)%nat then count_digits (rest c) else 0%nat in
  let c := advance fraction c in
  let digits := negb (whole + fraction =? 0)%nat in
  let finish c :=
    if negb digits then fail "expected a value" c
    else Done (Number (Strtod.strtod (take (offset c - offset start) (rest start)))) c in
  if digits && (skip_if isE (rest c) =? 1)%nat then
    let c := advance 1 c in
    let c := advance (skip_if isSign (rest c)) c in
    let exponent := count_digits (rest c) in
    let c := advance exponent c in
    if (exponent =? 0)%nat then fail "missing exponent digits" c else finish c
  else finish c.

Fixpoint parseValue (fuel : nat) (c : cursor) (depth : Z) {struct fuel} : result json :=
  match fuel with
  | O => Exhausted
  | S fuel =>
      if kMaxJsonDepth <? depth then fail "nesting too deep" c
      else
        match rest c with
        | [] => fail "unexpected end of input" c
        | x :: _ =>
            if x =? 110 then literal "null" Null c
            else if x =? 116 then literal "true" (Bool true) c
            else if x =? 102 then literal "false" (Bool false) c
            else if x =? 34 then let! s, c := parseString c in Done (String s) c
            else if x =? 91 then
              let c := skipSpace (advance 1 c) in
              if (skip_if (Z.eqb 93) (rest c) =? 1)%nat then Done (Array []) (advance 1 c) else array_loop fuel c depth (Array [])
            else if x =? 123 then
              let c := skipSpace (advance 1 c) in
              if (skip_if (Z.eqb 125) (rest c) =? 1)%nat then Done (Object []) (advance 1 c) else object_loop fuel c depth (Object [])
            else parseNumber c
        end
  end
with array_loop (fuel : nat) (c : cursor) (depth : Z) (out : json) {struct fuel} : result json :=
  match fuel with
  | O => Exhausted
  | S fuel =>
      let! element, c := parseValue fuel (skipSpace c) (depth + 1) in
      let out := push out element in
      let c := skipSpace c in
      match rest c with
      | [] => fail "unterminated array" c
      | x :: _ =>
          if x =? 44 then array_loop fuel (advance 1 c) depth out
          else if x =? 93 then Done out (advance 1 c)
          else fail "expected ',' or ']'" c
      end
  end
with object_loop (fuel : nat) (c : cursor) (depth : Z) (out : json) {struct fuel} : result json :=
  match fuel with
  | O => Exhausted
  | S fuel =>
      let c := skipSpace c in
      if (skip_if (Z.eqb 34) (rest c) =? 0)%nat then fail "expected object key" c
      else
        let! key, c := parseString c in
        let c := skipSpace c in
        if (skip_if (Z.eqb 58) (rest c) =? 0)%nat then fail "expected ':'" c
        else
          let! value, c := parseValue fuel (skipSpace (advance 1 c)) (depth + 1) in
          let out := set out key value in
          let c := skipSpace c in
          match rest c with
          | [] => fail "unterminated object" c
          | x :: _ =>
              if x =? 44 then object_loop fuel (advance 1 c) depth out
              else if x =? 125 then Done out (advance 1 c)
              else fail "expected ',' or '}'" c
          end
  end.

(** Two turns per byte are enough. *)
Definition enough (text : bytes) : nat := 2 * length text + 2.

Definition run (text : bytes) : result json :=
  let! v, c := parseValue (enough text) (skipSpace (mkCursor 0 text)) 0 in
  let c := skipSpace c in
  match rest c with [] => Done v c | _ => fail "trailing data after JSON value" c end.

(** The value, or the message left in [error]; [None] never happens. *)
Definition parse (text : bytes) : option (json + bytes) :=
  match run text with Done v _ => Some (inl v) | Failed m => Some (inr m) | Exhausted => None end.

Definition quoted (s : string) : bytes := [34] ++ str s ++ [34].

Example parses : parse (str " { " ++ quoted "a\u00e9" ++ str " : [1 , -2.5e1,true ], " ++ quoted "b" ++ str ":null}") =
  Some (inl (Object [(str "a" ++ [0xC3; 0xA9], Array [Number (Double.of_int64 1); Number (Double.of_int64 (-25)); Bool true]); (str "b", Null)])).
Proof. vm_compute. reflexivity. Qed.
Example surrogates : parse (quoted "\ud83d\ude00\ud83dx") = Some (inl (String ([0xF0; 0x9F; 0x98; 0x80] ++ replacement ++ str "x"))).
Proof. vm_compute. reflexivity. Qed.
Example rejects : parse (str "[1,]") = Some (inr (str "expected a value at offset 3")).
Proof. vm_compute. reflexivity. Qed.
Example serialises : serialise (Object [(str "k", Array [String [10; 0xFF; 1]; Number Double.infinity])]) =
  str "{" ++ quoted "k" ++ str ":[" ++ [34; 92; 110] ++ replacement ++ str "\u0001" ++ [34] ++ str "," ++ quoted "inf" ++ str "]}".
Proof. vm_compute. reflexivity. Qed.

(** ** The parser always returns *)

(** It succeeds with at most [n] bytes left, or reports an error. *)
Definition returns {A} (n : nat) (r : result A) : Prop :=
  match r with Done _ c => (length (rest c) <= n)%nat | Failed _ => True | Exhausted => False end.

Lemma returns_mono {A} n n' (r : result A) : (n <= n')%nat -> returns n r -> returns n' r.
Proof. destruct r; cbn; [lia|done..]. Qed.

Lemma returns_then {A B} n n' (r : result A) (k : A -> cursor -> result B) :
  returns n r -> (forall a c, (length (rest c) <= n)%nat -> returns n' (k a c)) -> returns n' (andThen r k).
Proof. destruct r; cbn; auto. Qed.

Lemma length_advance n c : length (rest (advance n c)) = (length (rest c) - n)%nat.
Proof. apply length_drop. Qed.

Lemma length_skipSpace c : (length (rest (skipSpace c)) <= length (rest c))%nat.
Proof. unfold skipSpace. generalize (offset c). induction (rest c) as [|x l IH]; intros i; cbn; [done|]. destruct (isSpace x); cbn; [|done]. specialize (IH (S i)). lia. Qed.

Lemma literal_returns {A} word (a : A) c : (0 < length (str word))%nat -> returns (length (rest c) - 1) (literal word a c).
Proof. intros Hw. unfold literal. destruct (_ =b? _); [|done]. cbn. rewrite length_drop. lia. Qed.

Lemma parseHex4_returns c : returns (length (rest c)) (parseHex4 c).
Proof. unfold parseHex4. destruct (_ <? _)%nat; [done|]. destruct (hex_digits _ _); [|done]. cbn. rewrite length_drop. lia. Qed.

Lemma parseUnicode_returns c : returns (length (rest c)) (parseUnicode c).
Proof.
  unfold parseUnicode. eapply returns_then; [apply parseHex4_returns|]. intros cp c1 H1. destruct (_ && _); [|exact H1].
  eapply returns_then; [apply parseHex4_returns|]. intros low c2 H2. rewrite length_advance in H2. destruct (isLowSurrogate low); cbn; lia.
Qed.

Lemma string_loop_returns fuel c out : (length (rest c) < fuel)%nat -> returns (length (rest c)) (string_loop fuel c out).
Proof.
  revert c out. induction fuel as [|fuel IH]; intros c out Hf; [lia|]. cbn [string_loop]. destruct (rest c) as [|x l] eqn:Hr; [done|]. cbn [length] in Hf.
  assert (forall n out', (0 < n)%nat -> returns (length (x :: l)) (string_loop fuel (advance n c) out')) as Hnext.
  { intros n out' Hn. pose proof (length_advance n c) as Hl. rewrite Hr in Hl. cbn [length] in Hl. eapply returns_mono; [|apply IH]; cbn [length]; lia. }
  assert (length (rest (advance 1 c)) = length l) as H1 by (rewrite length_advance, Hr; cbn; lia).
  destruct (x =? 34); [cbn in *; lia|]. destruct (x <? 32); [done|]. destruct (negb (x =? 92)); [apply Hnext; lia|].
  cbv zeta. destruct (rest (advance 1 c)) as [|esc l'] eqn:Hr1; [done|]. pose proof (length_advance 1 (advance 1 c)) as H2. rewrite Hr1 in H2. cbn [length] in H1, H2.
  destruct (unescaped esc) as [b|]; [eapply returns_mono; [|apply IH]; cbn [length]; lia|]. destruct (esc =? 117); [|done].
  eapply returns_then; [apply parseUnicode_returns|]. intros cp c3 H3. eapply returns_mono; [|apply IH]; cbn [length]; lia.
Qed.

Lemma parseString_returns c : returns (length (rest c) - 1) (parseString c).
Proof. unfold parseString. pose proof (length_advance 1 c) as H. rewrite <- H. apply string_loop_returns. lia. Qed.

Lemma count_digits_le s : (count_digits s <= length s)%nat.
Proof. induction s as [|c s IH]; cbn; [done|]. destruct (isDigit c); lia. Qed.

Lemma parseNumber_returns c : returns (length (rest c) - 1) (parseNumber c).
Proof.
  unfold parseNumber. cbv zeta. set (c1 := advance (skip_if isSign (rest c)) c). set (c2 := advance (count_digits (rest c1)) c1). set (c3 := advance (skip_if (Z.eqb 46) (rest c2)) c2).
  set (fr := if (skip_if (Z.eqb 46) (rest c2) =? 1)%nat then count_digits (rest c3) else 0%nat). set (c4 := advance fr c3).
  pose proof (length_advance (skip_if isSign (rest c)) c) as E1. pose proof (length_advance (count_digits (rest c1)) c1) as E2.
  pose proof (length_advance (skip_if (Z.eqb 46) (rest c2)) c2) as E3. pose proof (length_advance fr c3) as E4. fold c1 in E1. fold c2 in E2. fold c3 in E3. fold c4 in E4.
  pose proof (count_digits_le (rest c1)) as D1. assert (fr <= length (rest c3))%nat as D2 by (unfold fr; destruct (_ =? _)%nat; [apply count_digits_le|lia]).
  destruct (count_digits (rest c1) + fr =? 0)%nat eqn:Hd; cbn [negb andb]; [done|]. apply Nat.eqb_neq in Hd.
  assert (length (rest c4) <= length (rest c) - 1)%nat as H4 by lia. destruct (skip_if isE (rest c4) =? 1)%nat; [|exact H4].
  destruct (_ =? 0)%nat; [done|]. cbn -[advance]. rewrite !length_advance. lia.
Qed.

Lemma parse_loops fuel :
  (forall c depth, (2 * length (rest c) < fuel)%nat -> returns (length (rest c) - 1) (parseValue fuel c depth)) /\
  (forall c depth out, (2 * length (rest c) + 1 < fuel)%nat -> returns (length (rest c) - 1) (array_loop fuel c depth out)) /\
  (forall c depth out, (2 * length (rest c) + 1 < fuel)%nat -> returns (length (rest c) - 1) (object_loop fuel c depth out)).
Proof.
  induction fuel as [|fuel (IHv & IHa & IHo)]; [split_and!; intros; lia|]. split_and!.
  - intros c depth Hf. cbn [parseValue]. destruct (_ <? _); [done|]. destruct (rest c) as [|x l] eqn:Hr; [done|]. rewrite <- Hr in *.
    assert (0 < length (rest c))%nat as Hpos by (rewrite Hr; cbn; lia).
    destruct (x =? 110); [by apply literal_returns; cbn; lia|]. destruct (x =? 116); [by apply literal_returns; cbn; lia|]. destruct (x =? 102); [by apply literal_returns; cbn; lia|].
    destruct (x =? 34); [eapply returns_then; [apply parseString_returns|]; done|].
    pose proof (length_skipSpace (advance 1 c)) as Hs. rewrite length_advance in Hs. set (c1 := skipSpace (advance 1 c)) in *. cbv zeta.
    destruct (x =? 91); [|destruct (x =? 123); [|apply parseNumber_returns]];
      (destruct (_ =? 1)%nat; [cbn -[advance]; rewrite length_advance; lia|]); (eapply returns_mono; [|apply IHa || apply IHo]; lia).
  - intros c depth out Hf. cbn [array_loop]. pose proof (length_skipSpace c) as Hs. eapply returns_then; [apply IHv; lia|]. intros e c1 H1. cbv zeta.
    pose proof (length_skipSpace c1) as Hs1. destruct (rest (skipSpace c1)) as [|x l] eqn:Hr; [done|]. rewrite <- Hr in Hs1.
    assert (0 < length (rest (skipSpace c1)))%nat as Hpos by (rewrite Hr; cbn; lia). pose proof (length_advance 1 (skipSpace c1)) as H2.
    destruct (x =? 44); [eapply returns_mono; [|apply IHa]; lia|]. destruct (x =? 93); [|done]. cbn -[advance skipSpace]. lia.
  - intros c depth out Hf. cbn [object_loop]. pose proof (length_skipSpace c) as Hs. cbv zeta. destruct (_ =? 0)%nat; [done|].
    eapply returns_then; [apply parseString_returns|]. intros key c1 H1. destruct (_ =? 0)%nat; [done|]. pose proof (length_skipSpace c1) as Hs1.
    pose proof (length_skipSpace (advance 1 (skipSpace c1))) as Hs2. rewrite length_advance in Hs2.
    eapply returns_then; [apply IHv; lia|]. intros e c2 H2. pose proof (length_skipSpace c2) as Hs3. destruct (rest (skipSpace c2)) as [|x l] eqn:Hr; [done|]. rewrite <- Hr in Hs3.
    assert (0 < length (rest (skipSpace c2)))%nat as Hpos by (rewrite Hr; cbn; lia). pose proof (length_advance 1 (skipSpace c2)) as H3.
    destruct (x =? 44); [eapply returns_mono; [|apply IHo]; lia|]. destruct (x =? 125); [|done]. cbn -[advance skipSpace]. lia.
Qed.

Lemma parse_returns text : exists r, parse text = Some r.
Proof.
  unfold parse, run. pose proof (length_skipSpace (mkCursor 0 text)) as Hs. cbn [rest] in Hs. destruct (parse_loops (enough text)) as [Hv _].
  specialize (Hv (skipSpace (mkCursor 0 text)) 0). unfold enough in Hv. specialize (Hv ltac:(lia)). fold (enough text) in Hv.
  destruct (parseValue _ _ _) as [v c|m|]; [|by eexists|done]. cbn. destruct (rest (skipSpace c)); by eexists.
Qed.

(** ** Numbers *)

(** The texts [d2string] writes: digits, a point, an exponent with its sign. *)
Definition number_text (t : bytes) : Prop :=
  exists neg ip f x, t = Strtod.text neg ip f x /\ Forall is_digit ip /\ ip <> [] /\ Forall is_digit (default [] f) /\
    match x with Some (_, ds) => Forall is_digit ds /\ ds <> [] | None => True end.

Lemma emitDigits_text ds K neg t : Forall is_digit ds -> (1 <= length ds <= 17)%nat -> -400 <= K <= 400 -> Dtoa.emitDigits ds K neg = Some t ->
  number_text ((if neg then [45] else []) ++ t).
Proof.
  intros Hd Hlen HK. unfold Dtoa.emitDigits. set (n := Z.of_nat (length ds)). cbv zeta. set (e := if K + n - 1 <? 0 then - (K + n - 1) else K + n - 1).
  assert (0 <= e < 1000) as He by (unfold e, n; destruct (_ <? 0) eqn:?; bools; lia). clearbody e. destruct (_ && _); [|destruct (_ && _)].
  - intros [= <-]. exists neg, (ds ++ replicate (Z.to_nat K) 48), None, None. unfold Strtod.text. cbn [Strtod.fraction_text Strtod.exponent_text default]. rewrite !app_nil_r. split_and!; try done.
    + apply Forall_app. split; [done|]. apply Dtoa.zeros_digits.
    + destruct ds; [cbn in Hlen; lia|done].
  - destruct (Z.leb_spec (n - (if K <? 0 then - K else K)) 0) as [Ho|Ho]; intros [= <-].
    + exists neg, [48], (Some (replicate (Z.to_nat (- (n - (if K <? 0 then - K else K)))) 48 ++ ds)), None. unfold Strtod.text. cbn [Strtod.fraction_text Strtod.exponent_text default]. rewrite !app_nil_r. split_and!; try done.
      * by apply Forall_singleton.
      * apply Forall_app. split; [apply Dtoa.zeros_digits|done].
    + exists neg, (take (Z.to_nat (n - (if K <? 0 then - K else K))) ds), (Some (drop (Z.to_nat (n - (if K <? 0 then - K else K))) ds)), None.
      unfold Strtod.text. cbn [Strtod.fraction_text Strtod.exponent_text default]. rewrite !app_nil_r. split_and!; try done; [by apply Forall_take| |by apply Forall_drop].
      destruct (Z.to_nat _) eqn:E; [lia|]. by destruct ds; [cbn in Hlen; lia|].
  - replace (18 - (if neg then 1 else 0) <? n) with false by (symmetry; apply Z.ltb_ge; unfold n; destruct neg; lia). destruct ds as [|d ds]; [done|].
    intros [= <-]. destruct (Dtoa.exponentDigits_spec e He) as (Hx & Hxn & _). fold n. apply Forall_cons in Hd as [Hd Hds].
    exists neg, [d], (if 1 <? n then Some ds else None), (Some (K + n - 1 <? 0, Dtoa.exponentDigits e)). unfold Strtod.text.
    split_and!; [unfold n; cbn [length]; by destruct (1 <? _)|by apply Forall_singleton|done|by destruct (1 <? n)|done|done].
Qed.

Lemma to_string_text n : number_text (to_string n).
Proof.
  assert (forall neg k, 0 <= k -> number_text ((if neg : bool then [45] else []) ++ digits k)) as H.
  { intros neg k Hk. exists neg, (digits k), None, None. unfold Strtod.text. cbn [Strtod.fraction_text Strtod.exponent_text default]. rewrite !app_nil_r. split_and!; try done; [by apply digits_digit|].
    pose proof (length_digits_pos k Hk). intros E0; rewrite E0 in *; cbn in *; lia. }
  unfold to_string. destruct (Z.ltb_spec n 0); [by apply (H true (- n)); lia|by apply (H false n); lia].
Qed.

Lemma d2string_shape d : Double.ok d -> Double.isinf d = false -> number_text (Dtoa.d2string d).
Proof.
  intros Hok Hinf. pose proof Hok as [Hd Hnan]. unfold Dtoa.d2string, Dtoa.d2string_text. rewrite Hnan, Hinf. pose proof (Double.magnitude_range d) as Hr.
  unfold Double.isnan in Hnan. unfold Double.isinf in Hinf. destruct (Dtoa.double2ll d) as [ll|] eqn:Hll; [apply to_string_text|].
  assert (Double.magnitude d <> 0) as Hnz.
  { intros E. rewrite <- (Double.signed_parts d Hd), E in Hll. destruct (Double.sign d); vm_compute in Hll; done. }
  assert (0 < Double.magnitude d < Double.infinity) as Hm by lia. destruct (Dtoa.fpconvDtoa_spec d Hd Hm) as (t & Ht & _). rewrite Ht. cbn [default]. revert Ht.
  unfold Dtoa.fpconvDtoa. cbv zeta. assert (Double.eq d 0 = false) as ->.
  { unfold Double.eq. apply andb_false_iff. right. unfold Double.key. change (Double.sign 0) with false. change (Double.magnitude 0) with 0. destruct (Double.sign d); lia. }
  assert ((Z.land d Dtoa.kExpMask =? Dtoa.kExpMask) = false) as ->.
  { apply Z.eqb_neq. intros E. apply (f_equal (fun x => Z.shiftr x 52)) in E. rewrite Dtoa.land_kExpMask in E by done.
    unfold Double.exponent in E. change (Z.shiftr Dtoa.kExpMask 52) with 2047 in E. unfold Double.infinity in Hm. dmlia. }
  destruct (Dtoa.grisu2_spec d Hd Hm) as (ds & K & -> & Hall & Hlen & HK & _). cbn [mbind option_bind].
  destruct (Dtoa.emitDigits ds K _) as [u|] eqn:Hu; [|done]. cbn. intros [= <-]. by eapply emitDigits_text.
Qed.

(** What may follow a value. *)
Definition stop (r : bytes) : Prop := match r with [] => True | c :: _ => c = 44 \/ c = 93 \/ c = 125 end.

Lemma count_digits_app ds r : Forall is_digit ds -> match r with c :: _ => isDigit c = false | [] => True end -> count_digits (ds ++ r) = length ds.
Proof.
  intros Hd Hr. induction Hd as [|d ds Hd _ IH]; cbn; [destruct r as [|c r]; cbn; [done|by rewrite Hr]|].
  assert (isDigit d = true) as -> by (unfold isDigit, is_digit in *; lia). by rewrite IH.
Qed.

Lemma advance_app i a r n : n = length a -> advance n (mkCursor i (a ++ r)) = mkCursor (i + n) r.
Proof. intros ->. unfold advance. cbn. by rewrite drop_app_length. Qed.

Lemma advance_cons i c r : advance 1 (mkCursor i (c :: r)) = mkCursor (i + 1) r.
Proof. done. Qed.

Lemma parseNumber_text i t r : number_text t -> stop r -> exists j, parseNumber (mkCursor i (t ++ r)) = Done (Number (Strtod.strtod t)) (mkCursor j r).
Proof.
  intros (neg & ip & f & x & -> & Hi & Hne & Hf & Hx) Hr. exists (i + length (Strtod.text neg ip f x))%nat.
  set (t := Strtod.text neg ip f x). set (xr := Strtod.exponent_text x ++ r). set (fxr := Strtod.fraction_text f ++ xr).
  assert (t ++ r = (if neg then [45] else []) ++ ip ++ fxr) as Et by (unfold t, fxr, xr, Strtod.text; by rewrite <- !app_assoc).
  assert (skip_if isSign (t ++ r) = length (if neg then [45] else [])) as E1.
  { rewrite Et. destruct neg; [done|]. destruct ip as [|c ip]; [done|]. cbn. apply Forall_cons in Hi as [Hc _]. unfold isSign, is_digit in *. by replace ((c =? 45) || (c =? 43)) with false by lia. }
  assert (match fxr with c :: _ => isDigit c = false | [] => True end) as S1.
  { unfold fxr, xr. destruct f; [done|]. destruct x as [[]|]; [done|]. cbn. destruct r as [|c r]; [done|]. cbn in Hr. by destruct Hr as [->|[->| ->]]. }
  assert (match xr with c :: _ => isDigit c = false | [] => True end) as S2.
  { unfold xr. destruct x as [[]|]; [done|]. cbn. destruct r as [|c r]; [done|]. cbn in Hr. by destruct Hr as [->|[->| ->]]. }
  unfold parseNumber. cbn [rest]. rewrite E1, Et, (advance_app i _ _ _ eq_refl). cbn [rest]. rewrite count_digits_app by done. rewrite (advance_app _ ip _ _ eq_refl). cbn [rest].
  set (j2 := (i + _ + length ip)%nat). set (point := skip_if (Z.eqb 46) fxr).
  assert (point = length (match f with Some _ => [46] | None => [] end) /\ advance point (mkCursor j2 fxr) = mkCursor (j2 + point) (default [] f ++ xr) /\
    (if (point =? 1)%nat then count_digits (default [] f ++ xr) else 0%nat) = length (default [] f)) as (P1 & P2 & P3).
  { unfold point, fxr. destruct f as [fp|]; cbn [Strtod.fraction_text app default skip_if length].
    - change (46 =? 46) with true. cbv iota. split; [done|]. split; [done|]. by apply count_digits_app.
    - assert (skip_if (Z.eqb 46) xr = 0%nat) as ->; [|done].
      unfold xr. destruct x as [[]|]; [done|]. cbn. destruct r as [|c r]; [done|]. cbn in Hr |- *. by destruct Hr as [->|[->| ->]]. }
  clearbody point. rewrite P2. cbn [rest]. rewrite P3, (advance_app _ _ _ _ eq_refl). cbn [rest offset].
  assert ((length ip + length (default [] f) =? 0)%nat = false) as -> by (apply Nat.eqb_neq; destruct ip; [done|cbn; lia]). cbn [negb andb].
  assert (Ht : forall k, k = length t -> take (i + k - i) ((if neg then [45] else []) ++ ip ++ fxr) = t).
  { intros k ->. rewrite <- Et. replace (i + length t - i)%nat with (length t) by lia. apply take_app_length. }
  assert (Lt : length t = (length (if neg then [45%Z] else []) + length ip + point + length (default [] f) + length (Strtod.exponent_text x))%nat).
  { unfold t, Strtod.text. rewrite !length_app, P1. destruct f; cbn; lia. }
  destruct x as [[xneg ds]|].
  - destruct Hx as [Hds Hdn]. unfold xr. cbn [Strtod.exponent_text app skip_if]. change (isE 101) with true. cbv iota. change (1 =? 1)%nat with true. cbv iota.
    rewrite advance_cons. cbn [rest skip_if]. assert (isSign (if xneg : bool then 45 else 43) = true) as -> by (by destruct xneg). cbv iota.
    rewrite advance_cons. cbn [rest]. rewrite count_digits_app; [|done|destruct r as [|c r]; [done|]; cbn in Hr; by destruct Hr as [->|[->| ->]]].
    rewrite (advance_app _ ds) by done. destruct ds as [|d ds]; [done|]. cbn [length Nat.eqb offset]. cbn [Strtod.exponent_text length] in Lt.
    rewrite <- (Ht (length t) eq_refl) at 1. subst j2. f_equal; [do 3 f_equal|f_equal]; lia.
  - assert (skip_if isE xr = 0%nat) as ->. { unfold xr. cbn. destruct r as [|c r]; [done|]. cbn in Hr |- *. by destruct Hr as [->|[->| ->]]. }
    cbn [Nat.eqb]. cbn [Strtod.exponent_text length] in Lt. rewrite <- (Ht (length t) eq_refl) at 1. subst j2. unfold xr. cbn [Strtod.exponent_text app].
    f_equal; [do 3 f_equal|f_equal]; lia.
Qed.

(** ** Strings *)

Definition continues (c : Z) : Prop := Z.land c 0xC0 = 0x80.

Lemma continues_high c : is_byte c -> continues c -> 0x80 <= c.
Proof.
  intros Hc H. enough ((Z.land c 0xC0 =? 0x80) && (c <? 0x80) = false) as E. { apply andb_false_iff in E as [E|E]; unfold continues in H; lia. }
  unfold u_range in Hc. byte_eqb 256%nat c.
Qed.

Lemma continuation_some k cp s out : continuation k cp s = Some out -> (k <= length s)%nat /\ Forall continues (take k s) /\
  forall r, continuation k cp (s ++ r) = Some out.
Proof.
  revert cp s. induction k as [|k IH]; intros cp [|c s] H; cbn in *; try done; [split_and!; [lia|constructor|done]..|].
  destruct (Z.eqb_spec (Z.land c 192) 128) as [Hc|]; [|done]. destruct (IH _ _ H) as (H1 & H2 & H3). split_and!; [lia|by constructor|done].
Qed.

(** A sequence is its first byte and the continuation bytes after it, whatever
    follows. *)
Lemma sequence_some c s more : utf8SequenceLength (c :: s) = S more ->
  (c < 0x80 -> more = 0%nat) /\ (more <= length s)%nat /\ Forall continues (take more s) /\ forall r, utf8SequenceLength (c :: s ++ r) = S more.
Proof.
  unfold utf8SequenceLength. destruct (Z.ltb_spec c 128) as [Hc|Hc]; [intros [= <-]; by split_and!; [|lia|constructor|]|].
  match goal with |- context [match ?h with Some _ => _ | None => _ end] => destruct h as [[len bits]|] eqn:Hh end; [|done].
  destruct (continuation (len - 1) bits s) as [cp|] eqn:E; [|done]. intros H.
  assert (len = S more) as -> by (repeat match type of H with (if ?b then _ else _) = _ => destruct b; [done|] end; done).
  destruct (continuation_some _ _ _ _ E) as (H1 & H2 & H3). replace (S more - 1)%nat with more in * by lia. split_and!; [lia|done|done|]. intros r. by rewrite H3.
Qed.

Lemma plain_byte fuel i x l out : x <> 34 -> 0x20 <= x -> x <> 92 ->
  string_loop (S fuel) (mkCursor i (x :: l)) out = string_loop fuel (mkCursor (i + 1) l) (out ++ [x]).
Proof.
  intros H1 H2 H3. cbn [string_loop rest]. rewrite (proj2 (Z.eqb_neq x 34) H1), (proj2 (Z.ltb_ge x 32) H2), (proj2 (Z.eqb_neq x 92) H3). done.
Qed.

Lemma escaped_byte fuel i esc b l out : unescaped esc = Some b ->
  string_loop (S fuel) (mkCursor i (92 :: esc :: l)) out = string_loop fuel (mkCursor (i + 1 + 1) l) (out ++ [b]).
Proof. intros H. cbn [string_loop rest]. cbn -[string_loop]. by rewrite H. Qed.

Lemma short_escape_some c e : short_escape c = Some e -> 0 <= c < 0x80 /\ exists esc, e = [92; esc] /\ unescaped esc = Some c.
Proof.
  unfold short_escape. repeat match goal with |- context [?c =? ?d] => destruct (Z.eqb_spec c d) as [->|]; [intros [= <-]; split; [lia|by eexists]|] end. done.
Qed.

Lemma parseHex4_app i h l v : length h = 4%nat -> hex_digits h 0 = Some v -> parseHex4 (mkCursor i (h ++ l)) = Done v (mkCursor (i + 4) l).
Proof.
  intros Hl Hv. unfold parseHex4. cbn [rest]. rewrite length_app, Hl. rewrite (proj2 (Nat.ltb_ge _ _)) by lia.
  rewrite <- Hl at 1. rewrite take_app_length, Hv. f_equal. by apply advance_app.
Qed.

Definition hex4 (c : Z) : bytes := [hex_char (c / 4096 mod 16); hex_char (c / 256 mod 16); hex_char (c / 16 mod 16); hex_char (c mod 16)].

Lemma hex4_value c : 0 <= c < 0x20 -> hex_digits (hex4 c) 0 = Some c.
Proof.
  intros Hc. enough (from_option (Z.eqb c) false (hex_digits (hex4 c) 0) = true) as E.
  { destruct (hex_digits _ _) as [x|]; [|done]. cbn in E. apply Z.eqb_eq in E. by subst. }
  revert c Hc. apply (byte_cases 32 (fun c => from_option (Z.eqb c) false (hex_digits (hex4 c) 0))). vm_compute. reflexivity.
Qed.

Lemma unicode_parsed c i l : 0 <= c < 0x20 -> parseUnicode (mkCursor i (hex4 c ++ l)) = Done c (mkCursor (i + 4) l) /\ appendCodepoint c = [c].
Proof.
  intros Hc. split.
  - unfold parseUnicode. rewrite (parseHex4_app i (hex4 c) l c eq_refl (hex4_value c Hc)). cbn [andThen].
    assert (isHighSurrogate c = false) as -> by (unfold isHighSurrogate; lia). assert (isLowSurrogate c = false) as -> by (unfold isLowSurrogate; lia). done.
  - unfold appendCodepoint. by rewrite (proj2 (Z.ltb_lt c 0x80)) by lia.
Qed.

Lemma unicode_byte fuel i c l out : 0 <= c < 0x20 ->
  string_loop (S fuel) (mkCursor i (unicode_escape c ++ l)) out = string_loop fuel (mkCursor (i + 1 + 1 + 4) l) (out ++ [c]).
Proof.
  intros Hc. destruct (unicode_parsed c (i + 1 + 1) l Hc) as [E1 E2]. change (unicode_escape c ++ l) with (92 :: 117 :: hex4 c ++ l). cbn [string_loop rest].
  rewrite advance_cons. cbn [rest]. rewrite advance_cons. change (92 =? 34) with false. change (92 <? 32) with false. change (negb (92 =? 92)) with false.
  change (unescaped 117) with (@None Z). change (117 =? 117) with true. cbv iota. rewrite E1. cbn [andThen]. by rewrite E2.
Qed.

(** What the serialiser writes for a string is read back as its repair. *)
Lemma string_loop_escape s p fuel i r out : bytes_ok s -> Forall continues (take p s) -> (length (escape_from p s) < fuel)%nat ->
  exists j, string_loop fuel (mkCursor i (escape_from p s ++ 34 :: r)) out = Done (out ++ sanitise_from p s) (mkCursor j r).
Proof.
  revert p fuel i out. induction s as [|c s IH]; intros p fuel i out Hs Hp Hf.
  { destruct fuel as [|fuel]; [cbn in Hf; lia|]. exists (i + 1)%nat. cbn. by rewrite app_nil_r. }
  apply Forall_cons in Hs as [Hc Hs]. destruct p as [|p]; cbn [escape_from sanitise_from] in *.
  - destruct (short_escape c) as [e|] eqn:He.
    { apply short_escape_some in He as (Hlow & esc & -> & Hesc). cbn [app length] in *. destruct fuel as [|fuel]; [lia|]. rewrite (escaped_byte _ _ _ _ _ _ Hesc).
      destruct (IH 0%nat fuel (i + 1 + 1)%nat (out ++ [c]) Hs ltac:(constructor) ltac:(lia)) as (j & ->). exists j.
      cbn [utf8SequenceLength]. rewrite (proj2 (Z.ltb_lt c 128)) by lia. by rewrite <- app_assoc. }
    destruct (Z.ltb_spec c 32) as [Hlow|Hhigh].
    { assert (0 <= c < 32) as Hc' by (unfold u_range in Hc; lia). rewrite length_app in Hf. change (length (unicode_escape c)) with 6%nat in Hf. destruct fuel as [|fuel]; [lia|].
      rewrite <- app_assoc, unicode_byte by done.
      destruct (IH 0%nat fuel (i + 1 + 1 + 4)%nat (out ++ [c]) Hs ltac:(constructor) ltac:(lia)) as (j & ->). exists j.
      cbn [utf8SequenceLength]. rewrite (proj2 (Z.ltb_lt c 128)) by lia. by rewrite <- app_assoc. }
    assert (c <> 34 /\ c <> 92) as [N1 N2] by (split; intros ->; done).
    destruct (utf8SequenceLength (c :: s)) as [|more] eqn:Hl.
    + rewrite length_app in Hf. cbn [length replacement app] in *. do 3 (destruct fuel as [|fuel]; [lia|]; rewrite plain_byte by lia).
      destruct (IH 0%nat fuel (i + 1 + 1 + 1)%nat (((out ++ [239]) ++ [191]) ++ [189]) Hs ltac:(constructor) ltac:(lia)) as (j & ->). exists j. by rewrite <- !app_assoc.
    + destruct (sequence_some c s more Hl) as (_ & _ & Hm & _). cbn [length app] in *. destruct fuel as [|fuel]; [lia|]. rewrite plain_byte by done.
      destruct (IH more fuel (i + 1)%nat (out ++ [c]) Hs Hm ltac:(lia)) as (j & ->). exists j. by rewrite <- app_assoc.
  - cbn [take] in Hp. apply Forall_cons in Hp as [Hcont Hp]. apply continues_high in Hcont; [|done]. cbn [length app] in *. destruct fuel as [|fuel]; [lia|].
    rewrite plain_byte by lia. destruct (IH p fuel (i + 1)%nat (out ++ [c]) Hs Hp ltac:(lia)) as (j & ->). exists j. by rewrite <- app_assoc.
Qed.

Lemma parseString_escaped i s r : bytes_ok s -> exists j, parseString (mkCursor i (appendEscaped s ++ r)) = Done (sanitiseUtf8 s) (mkCursor j r).
Proof.
  intros Hs. unfold parseString, appendEscaped. cbn [app]. rewrite advance_cons, <- app_assoc. cbn [rest app].
  destruct (string_loop_escape s 0 (S (length (34 :: escape_from 0 s ++ 34 :: r))) (i + 1) r [] Hs) as (j & ->); [constructor|cbn [length]; rewrite length_app; lia|]. by exists j.
Qed.

(** ** Round trip *)

Section JsonInduction.
Context (P : json -> Prop).
Hypotheses (HNull : P Null) (HBool : forall b, P (Bool b)) (HNumber : forall d, P (Number d)) (HString : forall s, P (String s))
  (HArray : forall l, Forall P l -> P (Array l)) (HObject : forall m, Forall (fun e => P (snd e)) m -> P (Object m)).

(** Induction that reaches into arrays and objects. *)
Fixpoint json_nested_ind (v : json) : P v :=
  match v with
  | Null => HNull
  | Bool b => HBool b
  | Number d => HNumber d
  | String s => HString s
  | Array l => HArray l ((fix go (l : list json) : Forall P l := match l with [] => Forall_nil_2 P | v :: l => Forall_cons_2 P v l (json_nested_ind v) (go l) end) l)
  | Object m =>
      HObject m ((fix go (m : list (bytes * json)) : Forall (fun e => P (snd e)) m :=
        match m with [] => Forall_nil_2 _ | e :: m => Forall_cons_2 (fun e => P (snd e)) e m (json_nested_ind (snd e)) (go m) end) m)
  end.
End JsonInduction.

(** How deep a value nests. *)
Fixpoint height (v : json) : Z :=
  match v with
  | Array l => foldr Z.max 0 (map (fun e => height e + 1) l)
  | Object m => foldr Z.max 0 (map (fun e => height (snd e) + 1) m)
  | _ => 0
  end.

(** Strings hold bytes, numbers are doubles. *)
Fixpoint well_formed (v : json) : Prop :=
  match v with
  | Number d => is_u64 d
  | String s => bytes_ok s
  | Array l => foldr (fun e acc => well_formed e /\ acc) True l
  | Object m => foldr (fun e acc => (bytes_ok (fst e) /\ well_formed (snd e)) /\ acc) True m
  | _ => True
  end.

(** What a reader gets back: repaired strings, the three numbers that JSON has
    no notation for as strings, zeros without a sign, the last of several equal
    keys in the place of the first. *)
Fixpoint normal (v : json) : json :=
  match v with
  | Number d =>
      if Double.isnan d then String (str "nan")
      else if Double.isinf d then String (if Double.gt d 0 then str "inf" else str "-inf")
      else Number (ZSetValue.canon d)
  | String s => String (sanitiseUtf8 s)
  | Array l => Array (map normal l)
  | Object m => Object (foldl (fun acc e => set_member acc (fst e) (snd e)) [] (map (fun e => (sanitiseUtf8 (fst e), normal (snd e))) m))
  | _ => v
  end.

(** Every character a value can start with sends the parser to the right case. *)
Definition opens (t : bytes) : Prop := match t with [] => False | c :: _ => isSpace c = false /\ c <> 93 /\ c <> 125 end.

Lemma opens_skip i t r : opens t -> skipSpace (mkCursor i (t ++ r)) = mkCursor i (t ++ r).
Proof. destruct t as [|c t]; [done|]. intros [H _]. unfold skipSpace. cbn. by rewrite H. Qed.

Lemma opens_not i t r : opens t -> skip_if (Z.eqb 93) (rest (mkCursor i (t ++ r))) = 0%nat /\ skip_if (Z.eqb 125) (rest (mkCursor i (t ++ r))) = 0%nat.
Proof.
  destruct t as [|c t]; [done|]. intros (_ & H1 & H2). cbn [app rest skip_if]. rewrite (proj2 (Z.eqb_neq 93 c)), (proj2 (Z.eqb_neq 125 c)) by done. done.
Qed.

Lemma number_opens t : number_text t -> exists c t', t = c :: t' /\ (is_digit c \/ c = 45).
Proof.
  intros (neg & ip & f & x & -> & Hi & Hne & _). unfold Strtod.text. destruct neg; [eexists _, _; split; [done|by right]|].
  destruct ip as [|c ip]; [done|]. apply Forall_cons in Hi as [Hc _]. eexists _, _. split; [done|by left].
Qed.

Lemma serialise_opens v depth : well_formed v -> opens (serialiseInto v depth).
Proof.
  intros Hv. destruct v as [|b|d|s|l|m]; cbn [serialiseInto]; destruct (_ <? depth); try done.
  - by destruct b.
  - destruct (Double.isnan d) eqn:Hn; [done|]. destruct (Double.isinf d) eqn:Hi; [by destruct (Double.gt d 0)|].
    destruct (number_opens _ (d2string_shape d (conj Hv Hn) Hi)) as (c & t & -> & Hc). cbn. unfold isSpace, is_digit in *. split_and!; [|lia..].
    repeat (apply orb_false_iff; split); apply Z.eqb_neq; lia.
Qed.

Lemma stop_skip i r : stop r -> skipSpace (mkCursor i r) = mkCursor i r.
Proof. destruct r as [|c r]; [done|]. cbn. intros H. unfold skipSpace. cbn. by destruct H as [->|[->| ->]]. Qed.

Lemma foldr_max_le (l : list Z) x n : foldr Z.max 0 (x :: l) <= n -> x <= n /\ foldr Z.max 0 l <= n.
Proof. cbn. lia. Qed.

(** The parser reads a text back, whatever value-ending byte comes after. *)
Definition reads_back (v : json) : Prop := forall depth fuel i r,
  well_formed v -> 0 <= depth -> depth + height v <= kMaxJsonDepth -> stop r -> (2 * length (serialiseInto v depth ++ r) < fuel)%nat ->
  exists j, parseValue fuel (mkCursor i (serialiseInto v depth ++ r)) depth = Done (normal v) (mkCursor j r).

Lemma array_loop_reads l depth acc fuel i (r : bytes) : l <> [] -> Forall reads_back l -> Forall well_formed l -> 0 <= depth ->
  depth + foldr Z.max 0 (map (fun e => height e + 1) l) <= kMaxJsonDepth ->
  (2 * length (separated (map (fun e => serialiseInto e (depth + 1)%Z) l) ++ 93%Z :: r) + 1 < fuel)%nat ->
  exists j, array_loop fuel (mkCursor i (separated (map (fun e => serialiseInto e (depth + 1)) l) ++ 93 :: r)) depth (Array acc) =
    Done (Array (acc ++ map normal l)) (mkCursor j r).
Proof.
  intros Hne HR. revert acc fuel i Hne. induction HR as [|v l Hv HR IH]; intros acc fuel i Hne Hw Hd Hh Hf; [done|]. apply Forall_cons in Hw as [Hwv Hw]. cbn [map] in Hh.
  assert (depth + (height v + 1) <= kMaxJsonDepth /\ depth + foldr Z.max 0 (map (fun e => height e + 1) l) <= kMaxJsonDepth) as [Hh1 Hh2] by (cbn in Hh; lia).
  destruct fuel as [|fuel]; [lia|]. cbn [array_loop]. set (t := serialiseInto v (depth + 1)) in *.
  assert (exists u, separated (map (fun e => serialiseInto e (depth + 1)) (v :: l)) ++ 93 :: r = t ++ u /\ stop u /\
    ((l = [] /\ u = 93 :: r) \/ (l <> [] /\ u = 44 :: separated (map (fun e => serialiseInto e (depth + 1)) l) ++ 93 :: r))) as (u & Hu & Hstop & Hcase).
  { destruct l as [|w l]; cbn [map separated].
    - exists (93 :: r). split; [done|]. split; [cbn; auto|by left].
    - eexists. rewrite <- app_assoc. split; [done|]. split; [cbn; auto|by right]. }
  rewrite Hu in *. rewrite opens_skip by (by apply serialise_opens).
  destruct (Hv (depth + 1) fuel i u Hwv ltac:(lia) ltac:(lia) Hstop) as (j & Hj); [fold t; lia|]. fold t in Hj. rewrite Hj. cbn [andThen]. rewrite stop_skip by done. cbn [push].
  destruct Hcase as [[-> ->]|[Hl ->]]; cbn [rest].
  - change (93 =? 44) with false. change (93 =? 93) with true. cbv iota. rewrite advance_cons. by exists (j + 1)%nat.
  - change (44 =? 44) with true. cbv iota. rewrite advance_cons. destruct (IH (acc ++ [normal v]) fuel (j + 1)%nat Hl Hw Hd Hh2) as (j' & ->).
    { rewrite length_app in Hf. cbn [length] in Hf. lia. }
    exists j'. by rewrite <- app_assoc.
Qed.

Definition member_text (depth : Z) (e : bytes * json) : bytes := let '(k, v) := e in appendEscaped k ++ [58] ++ serialiseInto v (depth + 1).

Lemma escaped_opens k t : opens (appendEscaped k ++ t).
Proof. done. Qed.

Lemma object_loop_reads m depth acc fuel i (r : bytes) : m <> [] -> Forall (fun e => reads_back (snd e)) m -> Forall (fun e => bytes_ok (fst e) /\ well_formed (snd e)) m -> 0 <= depth ->
  depth + foldr Z.max 0 (map (fun e => height (snd e) + 1) m) <= kMaxJsonDepth ->
  (2 * length (separated (map (member_text depth) m) ++ 125%Z :: r) + 1 < fuel)%nat ->
  exists j, object_loop fuel (mkCursor i (separated (map (member_text depth) m) ++ 125 :: r)) depth (Object acc) =
    Done (Object (foldl (fun acc e => set_member acc (fst e) (snd e)) acc (map (fun e => (sanitiseUtf8 (fst e), normal (snd e))) m))) (mkCursor j r).
Proof.
  intros Hne HR. revert acc fuel i Hne. induction HR as [|[k v] m Hv HR IH]; intros acc fuel i Hne Hw Hd Hh Hf; [done|]. apply Forall_cons in Hw as [[Hk Hwv] Hw]. cbn [map fst snd] in *.
  assert (depth + (height v + 1) <= kMaxJsonDepth /\ depth + foldr Z.max 0 (map (fun e => height (snd e) + 1) m) <= kMaxJsonDepth) as [Hh1 Hh2] by (cbn in Hh; lia).
  destruct fuel as [|fuel]; [lia|]. cbn [object_loop]. set (t := serialiseInto v (depth + 1)) in *.
  assert (exists u, separated (map (member_text depth) ((k, v) :: m)) ++ 125 :: r = appendEscaped k ++ 58 :: t ++ u /\ stop u /\
    ((m = [] /\ u = 125 :: r) \/ (m <> [] /\ u = 44 :: separated (map (member_text depth) m) ++ 125 :: r))) as (u & Hu & Hstop & Hcase).
  { destruct m as [|w m]; cbn [map separated member_text]; rewrite <- !app_assoc; cbn [app].
    - exists (125 :: r). split; [done|]. split; [cbn; auto|by left].
    - eexists. split; [done|]. split; [cbn; auto|by right]. }
  cbn [map] in Hu. rewrite Hu in *. rewrite opens_skip by apply (escaped_opens k []). cbv zeta. change (skip_if (Z.eqb 34) _ =? 0)%nat with false. cbv iota.
  destruct (parseString_escaped i k (58 :: t ++ u) Hk) as (j0 & ->). cbn [andThen]. change (skipSpace (mkCursor j0 (58 :: t ++ u))) with (mkCursor j0 (58 :: t ++ u)).
  change (skip_if (Z.eqb 58) _ =? 0)%nat with false. cbv iota. rewrite advance_cons, opens_skip by (by apply serialise_opens).
  rewrite !length_app in Hf. cbn [length] in Hf. rewrite length_app in Hf. cbn [length appendEscaped app] in Hf.
  destruct (Hv (depth + 1) fuel (j0 + 1)%nat u Hwv ltac:(lia) ltac:(lia) Hstop) as (j & Hj); [fold t; rewrite length_app; lia|]. fold t in Hj. rewrite Hj. cbn [andThen]. rewrite stop_skip by done. cbn [set].
  destruct Hcase as [[-> ->]|[Hl ->]]; cbn [rest].
  - change (125 =? 44) with false. change (125 =? 125) with true. cbv iota. rewrite advance_cons. by exists (j + 1)%nat.
  - change (44 =? 44) with true. cbv iota. rewrite advance_cons. cbn [foldl fst snd].
    apply IH; [done|done|done|done|]. cbn [length] in Hf. lia.
Qed.

Lemma well_formed_array l : well_formed (Array l) -> Forall well_formed l.
Proof. cbn [well_formed]. induction l as [|v l IH]; cbn; [done|]. intros [H1 H2]. constructor; auto. Qed.

Lemma well_formed_object m : well_formed (Object m) -> Forall (fun e => bytes_ok (fst e) /\ well_formed (snd e)) m.
Proof. cbn [well_formed]. induction m as [|v m IH]; cbn; [done|]. intros [H1 H2]. constructor; auto. Qed.

Lemma separated_opens p ps : opens p -> opens (separated (p :: ps)).
Proof. destruct p as [|c p]; [done|]. by destruct ps. Qed.

Lemma height_nonneg v : 0 <= height v.
Proof. assert (forall l, 0 <= foldr Z.max 0 l) as H by (induction l; cbn; lia). destruct v; cbn; auto; lia. Qed.

(** The depth check does not bite, on either side. *)
Lemma shallow depth v : depth + height v <= kMaxJsonDepth -> (kMaxJsonDepth <? depth) = false.
Proof. intros H. pose proof (height_nonneg v). apply Z.ltb_ge. lia. Qed.

Lemma quoted_reads fuel i s r depth : depth <= kMaxJsonDepth -> bytes_ok s ->
  exists j, parseValue (S fuel) (mkCursor i (appendEscaped s ++ r)) depth = Done (String (sanitiseUtf8 s)) (mkCursor j r).
Proof.
  intros Hd Hs. cbn [parseValue]. rewrite (proj2 (Z.ltb_ge _ _) Hd). cbn [rest]. destruct (parseString_escaped i s r Hs) as (j & Hj). exists j.
  change (appendEscaped s ++ r) with (34 :: (escape_from 0 s ++ [34]) ++ r) in *. change (34 =? 110) with false. change (34 =? 116) with false. change (34 =? 102) with false.
  change (34 =? 34) with true. cbv iota. by rewrite Hj.
Qed.

Lemma value_reads_back v : reads_back v.
Proof.
  induction v as [|b|d|s|l IH|m IH] using json_nested_ind; intros depth fuel i r Hw Hd Hh Hr Hf; (destruct fuel as [|fuel]; [lia|]);
    pose proof (shallow _ _ Hh) as Hs; cbn [serialiseInto] in *; rewrite Hs in *.
  - cbn [parseValue]. rewrite Hs. by eexists.
  - cbn [parseValue]. rewrite Hs. destruct b; by eexists.
  - assert (depth <= kMaxJsonDepth) as Hle by (cbn in Hh; lia). cbn [normal]. destruct (Double.isnan d) eqn:Hn; [by apply (quoted_reads fuel i (str "nan")); [|decide_now]|].
    destruct (Double.isinf d) eqn:Hi; [destruct (Double.gt d 0); [by apply (quoted_reads fuel i (str "inf")); [|decide_now]|by apply (quoted_reads fuel i (str "-inf")); [|decide_now]]|].
    pose proof (d2string_shape d (conj Hw Hn) Hi) as Ht. destruct (parseNumber_text i _ r Ht Hr) as (j & Hj). rewrite Dtoa.strtod_d2string in Hj by done.
    exists j. change (ZSetValue.canon d) with (if d =? 2 ^ 63 then 0 else d). rewrite <- Hj. cbn [parseValue rest]. rewrite Hs. destruct (number_opens _ Ht) as (c & t & -> & Hc).
    cbn [app]. unfold is_digit in Hc. rewrite !(proj2 (Z.eqb_neq c _)) by lia. done.
  - apply quoted_reads; [by apply Z.ltb_ge|done].
  - cbn [parseValue app rest]. rewrite Hs. change (91 =? 110) with false. change (91 =? 116) with false. change (91 =? 102) with false. change (91 =? 34) with false. change (91 =? 91) with true.
    cbv iota. rewrite advance_cons. apply well_formed_array in Hw. destruct l as [|v l]; [by eexists|]. rewrite <- app_assoc. cbn [app].
    assert (opens (separated (map (fun e => serialiseInto e (depth + 1)) (v :: l)))) as Ho by (apply separated_opens, serialise_opens; by apply Forall_cons in Hw as [? _]).
    rewrite opens_skip by exact Ho. destruct (opens_not (i + 1) _ (93 :: r) Ho) as [-> _]. cbv zeta. cbn [Nat.eqb].
    destruct (array_loop_reads (v :: l) depth [] fuel (i + 1) r) as (j & ->); try done; [|by exists j].
    rewrite !length_app in *. cbn [length] in *. lia.
  - cbn [parseValue app rest]. rewrite Hs. change (123 =? 110) with false. change (123 =? 116) with false. change (123 =? 102) with false. change (123 =? 34) with false. change (123 =? 91) with false.
    change (123 =? 123) with true. cbv iota. rewrite advance_cons. apply well_formed_object in Hw. destruct m as [|[k v] m]; [by eexists|].
    change (separated (map _ ((k, v) :: m))) with (separated (map (member_text depth) ((k, v) :: m))) in *. rewrite <- app_assoc. cbn [app].
    assert (opens (separated (map (member_text depth) ((k, v) :: m)))) as Ho by (apply separated_opens; done).
    rewrite opens_skip by exact Ho. destruct (opens_not (i + 1) _ (125 :: r) Ho) as [_ ->]. cbv zeta. cbn [Nat.eqb].
    destruct (object_loop_reads ((k, v) :: m) depth [] fuel (i + 1) r) as (j & ->); try done; [|by exists j].
    rewrite !length_app in *. cbn [length] in *. lia.
Qed.

Lemma serialise_parses v : well_formed v -> height v <= kMaxJsonDepth -> parse (serialise v) = Some (inl (normal v)).
Proof.
  intros Hw Hh. unfold parse, run, serialise. set (t := serialiseInto v 0). pose proof (serialise_opens v 0 Hw) as Ho. fold t in Ho.
  assert (skipSpace (mkCursor 0 t) = mkCursor 0 t) as -> by (rewrite <- (app_nil_r t); by apply opens_skip).
  destruct (value_reads_back v 0 (enough t) 0%nat [] Hw ltac:(done) Hh ltac:(done)) as (j & Hj). { fold t. rewrite app_nil_r. unfold enough. lia. }
  fold t in Hj. rewrite app_nil_r in Hj. rewrite Hj. done.
Qed.

(** ** Repaired text is valid *)

Lemma sequence_app c s more r : utf8SequenceLength (c :: s) = S more -> utf8SequenceLength (c :: s ++ r) = S more.
Proof. intros H. by apply sequence_some. Qed.

(** Text is valid up to a point where it is, and from there on. *)
Lemma valid_app s p r : valid_from p s = true -> (p <= length s)%nat -> valid_from p (s ++ r) = valid_from 0 r.
Proof.
  revert p. induction s as [|c s IH]; intros p Hv Hp; cbn [length app] in *; [by replace p with 0%nat by lia|]. destruct p as [|p]; cbn [valid_from] in *; [|apply IH; [done|lia]].
  destruct (utf8SequenceLength (c :: s)) as [|more] eqn:Hl; [done|]. rewrite (sequence_app _ _ _ r Hl). destruct (sequence_some _ _ _ Hl) as (_ & Hm & _). by apply IH.
Qed.

Lemma valid_cat s r : isValidUtf8 s = true -> isValidUtf8 (s ++ r) = isValidUtf8 r.
Proof. intros H. apply valid_app; [done|lia]. Qed.

Lemma valid_ascii c r : c < 0x80 -> isValidUtf8 (c :: r) = isValidUtf8 r.
Proof. intros H. unfold isValidUtf8. cbn [valid_from utf8SequenceLength]. by rewrite (proj2 (Z.ltb_lt _ _) H). Qed.

Lemma valid_plain s : Forall (fun c => c < 0x80) s -> isValidUtf8 s = true.
Proof. induction 1 as [|c s Hc _ IH]; [done|]. by rewrite valid_ascii. Qed.

(** A walk that copies whole sequences leaves the rest of one valid. *)
Lemma sequence_take c s more : utf8SequenceLength (c :: s) = S more -> forall u, isValidUtf8 (c :: take more s ++ u) = isValidUtf8 u.
Proof.
  intros Hl u. destruct (sequence_some _ _ _ Hl) as (_ & Hm & _ & _).
  assert (utf8SequenceLength (c :: take more s) = S more) as Ht.
  { revert Hl. rewrite <- (take_drop more s) at 1. unfold utf8SequenceLength. destruct (c <? 128); [done|].
    match goal with |- context [match ?h with Some _ => _ | None => _ end] => destruct h as [[len bits]|] end; [|done].
    destruct (continuation (len - 1) bits (take more s ++ drop more s)) as [cp|] eqn:E; [|done]. intros H.
    assert (len = S more) as -> by (repeat match type of H with (if ?b then _ else _) = _ => destruct b; [done|] end; done). replace (S more - 1)%nat with more in * by lia.
    assert (continuation more bits (take more s) = Some cp) as ->; [|done].
    assert (forall k b a d, (k <= length a)%nat -> continuation k b (a ++ d) = continuation k b a) as Hc.
    { clear. intros k. induction k as [|k IH]; intros b [|x a] d Hk; cbn in *; try done; [lia|]. destruct (_ =? _); [|done]. apply IH. lia. }
    rewrite <- E. symmetry. apply Hc. rewrite length_take. lia. }
  assert (valid_from 0 (c :: take more s) = true) as Hv.
  { cbn [valid_from]. rewrite Ht. assert (forall n a, length a = n -> valid_from n a = true) as Hn by (induction n; intros [|]; cbn; auto; done). apply Hn. rewrite length_take. lia. }
  change (c :: take more s ++ u) with ((c :: take more s) ++ u). by apply valid_cat.
Qed.

Lemma sanitise_pending s p : (p <= length s)%nat -> sanitise_from p s = take p s ++ sanitise_from 0 (drop p s).
Proof. revert p. induction s as [|c s IH]; intros [|p] Hp; [done|cbn in Hp; lia|done|]. cbn in *. by rewrite IH by lia. Qed.

Lemma escape_pending s p : (p <= length s)%nat -> escape_from p s = take p s ++ escape_from 0 (drop p s).
Proof. revert p. induction s as [|c s IH]; intros [|p] Hp; [done|cbn in Hp; lia|done|]. cbn in *. by rewrite IH by lia. Qed.

Lemma replacement_valid r : isValidUtf8 (replacement ++ r) = isValidUtf8 r.
Proof. by apply valid_cat. Qed.

Lemma sanitise_valid s : isValidUtf8 (sanitiseUtf8 s) = true.
Proof.
  unfold sanitiseUtf8. remember (length s) as n eqn:Hn. revert s Hn. induction n as [n IH] using lt_wf_ind. intros [|c s] Hn; [done|]. cbn [sanitise_from].
  destruct (utf8SequenceLength (c :: s)) as [|more] eqn:Hl.
  - rewrite replacement_valid. eapply IH; [|done]. cbn in Hn. lia.
  - destruct (sequence_some _ _ _ Hl) as (_ & Hm & _). rewrite sanitise_pending by done. rewrite (sequence_take _ _ _ Hl). eapply IH; [|done]. rewrite length_drop. cbn in Hn. lia.
Qed.

Lemma sanitise_from_id s p : valid_from p s = true -> sanitise_from p s = s.
Proof.
  revert p. induction s as [|c s IH]; intros [|p] Hv; cbn [valid_from sanitise_from] in *; try done; [|by rewrite IH].
  destruct (utf8SequenceLength (c :: s)); [done|]. by rewrite IH.
Qed.

Lemma escape_valid s r : isValidUtf8 (escape_from 0 s ++ r) = isValidUtf8 r.
Proof.
  remember (length s) as n eqn:Hn. revert s Hn. induction n as [n IH] using lt_wf_ind. intros [|c s] Hn; [done|]. cbn [escape_from length] in *.
  assert (isValidUtf8 (escape_from 0 s ++ r) = isValidUtf8 r) as Hs by (eapply IH; [|done]; lia).
  destruct (short_escape c) as [e|] eqn:He.
  { apply short_escape_some in He as (_ & esc & -> & Hesc). cbn [app]. rewrite valid_ascii by lia. rewrite valid_ascii; [done|]. revert Hesc. unfold unescaped.
    repeat match goal with |- context [?x =? ?d] => destruct (Z.eqb_spec x d) as [->|]; [lia|] end. done. }
  destruct (Z.ltb_spec c 32) as [Hc|Hc].
  { rewrite <- app_assoc, valid_cat; [done|]. apply valid_plain. unfold unicode_escape. apply Forall_app. split; [repeat constructor; lia|].
    assert (forall d, 0 <= d mod 16 < 16) as Hd by (intros d; apply Z.mod_pos_bound; lia).
    assert (forall d, hex_char (d mod 16) < 128) as Hh by (intros d; specialize (Hd d); unfold hex_char; destruct (_ <? _); lia). repeat constructor; apply Hh. }
  destruct (utf8SequenceLength (c :: s)) as [|more] eqn:Hl.
  - rewrite <- app_assoc, replacement_valid. done.
  - destruct (sequence_some _ _ _ Hl) as (_ & Hm & _). rewrite escape_pending by done. cbn [app]. rewrite <- app_assoc, (sequence_take _ _ _ Hl). eapply IH; [|done]. rewrite length_drop. lia.
Qed.

Lemma escaped_valid s r : isValidUtf8 (appendEscaped s ++ r) = isValidUtf8 r.
Proof. unfold appendEscaped. rewrite <- !app_assoc. cbn [app]. rewrite valid_ascii by lia. rewrite escape_valid. by rewrite valid_ascii by lia. Qed.

Lemma separated_valid ps r : Forall (fun p => forall r, isValidUtf8 (p ++ r) = isValidUtf8 r) ps -> isValidUtf8 (separated ps ++ r) = isValidUtf8 r.
Proof.
  induction 1 as [|p ps Hp _ IH]; [done|]. destruct ps as [|q ps]; [apply Hp|]. change (separated (p :: q :: ps)) with (p ++ [44] ++ separated (q :: ps)).
  rewrite <- !app_assoc, Hp. cbn [app]. rewrite valid_ascii by lia. exact IH.
Qed.

Lemma serialise_valid v depth r : well_formed v -> isValidUtf8 (serialiseInto v depth ++ r) = isValidUtf8 r.
Proof.
  revert depth r. induction v as [|b|d|s|l IH|m IH] using json_nested_ind; intros depth r Hw; cbn [serialiseInto]; (destruct (_ <? depth); [by apply valid_cat|]).
  - by apply valid_cat.
  - destruct b; by apply valid_cat.
  - destruct (Double.isnan d) eqn:Hn; [by apply valid_cat|]. destruct (Double.isinf d); [destruct (Double.gt d 0); by apply valid_cat|]. apply valid_cat, valid_plain.
    destruct (Dtoa.d2string_printable d (conj Hw Hn)) as [Hp _]. eapply Forall_impl; [exact Hp|]. unfold Dtoa.printable. intros c Hc. cbn in Hc. lia.
  - apply escaped_valid.
  - rewrite <- !app_assoc. cbn [app]. rewrite valid_ascii by lia. rewrite separated_valid; [by rewrite valid_ascii by lia|]. apply well_formed_array in Hw.
    apply Forall_map. rewrite Forall_forall in *. intros x Hx r'. by apply IH; [|apply Hw].
  - rewrite <- !app_assoc. cbn [app]. rewrite valid_ascii by lia. rewrite separated_valid; [by rewrite valid_ascii by lia|]. apply well_formed_object in Hw.
    apply Forall_map. rewrite Forall_forall in *. intros [k x] Hx r'. rewrite <- app_assoc, escaped_valid. cbn [app]. rewrite valid_ascii by lia.
    apply (IH (k, x)); [done|]. by apply (Hw (k, x)).
Qed.

(** ** Depth *)

Definition nests (depth : Z) (r : result json) : Prop := forall v c, r = Done v c -> depth + height v <= kMaxJsonDepth.

Lemma nests_then {A} depth (r : result A) k : (forall a c, r = Done a c -> nests depth (k a c)) -> nests depth (andThen r k).
Proof. destruct r as [a c| |]; cbn; intros H; [by apply (H a c)|intros ? ?; done..]. Qed.

Lemma nests_fail depth what c : nests depth (fail what c).
Proof. intros ? ?. done. Qed.

Lemma nests_flat depth v c : depth <= kMaxJsonDepth -> height v = 0 -> nests depth (Done v c).
Proof. intros Hd Hv ? ? [= <- <-]. lia. Qed.

Lemma nests_literal depth word v c : depth <= kMaxJsonDepth -> height v = 0 -> nests depth (literal word v c).
Proof. intros Hd Hv. unfold literal. destruct (_ =b? _); [by apply nests_flat|apply nests_fail]. Qed.

Lemma nests_number depth c : depth <= kMaxJsonDepth -> nests depth (parseNumber c).
Proof.
  intros Hd. unfold parseNumber. cbv zeta. repeat match goal with |- nests _ (if ?b then _ else _) => destruct b end; first [apply nests_fail | by apply nests_flat].
Qed.

Lemma height_push out e depth : depth + height out <= kMaxJsonDepth -> depth + 1 + height e <= kMaxJsonDepth -> depth + height (push out e) <= kMaxJsonDepth.
Proof.
  intros Ho He. destruct out; cbn [push]; try done. cbn [height] in *. rewrite map_app. cbn [map]. rewrite foldr_app. cbn [foldr].
  revert Ho. pose proof (height_nonneg e). generalize (map (fun e => height e + 1) l). clear l. intros l. induction l as [|x l IH]; cbn; lia.
Qed.

Lemma height_set out k e depth : depth + height out <= kMaxJsonDepth -> depth + 1 + height e <= kMaxJsonDepth -> depth + height (set out k e) <= kMaxJsonDepth.
Proof.
  intros Ho He. destruct out; cbn [set]; try done. cbn [height] in *. pose proof (height_nonneg e). revert Ho. induction m as [|[k' v] m IH]; cbn; [lia|].
  destruct (k' =b? k); cbn; lia.
Qed.

Lemma parse_nests fuel :
  (forall c depth, nests depth (parseValue fuel c depth)) /\
  (forall c depth out, depth + height out <= kMaxJsonDepth -> nests depth (array_loop fuel c depth out)) /\
  (forall c depth out, depth + height out <= kMaxJsonDepth -> nests depth (object_loop fuel c depth out)).
Proof.
  induction fuel as [|fuel (IHv & IHa & IHo)]; [split_and!; intros; by intros ? ?|]. split_and!.
  - intros c depth. cbn [parseValue]. destruct (Z.ltb_spec kMaxJsonDepth depth) as [|Hd]; [apply nests_fail|]. destruct (rest c) as [|x l]; [apply nests_fail|].
    destruct (x =? 110); [by apply nests_literal|]. destruct (x =? 116); [by apply nests_literal|]. destruct (x =? 102); [by apply nests_literal|].
    destruct (x =? 34); [apply nests_then; intros; by apply nests_flat|]. cbv zeta.
    destruct (x =? 91); [|destruct (x =? 123); [|by apply nests_number]]; (destruct (_ =? 1)%nat; [by apply nests_flat|]); [apply IHa|apply IHo]; cbn; lia.
  - intros c depth out Ho. cbn [array_loop]. apply nests_then. intros e c1 He%IHv. cbv zeta. pose proof (height_push out e depth Ho He) as Hp.
    destruct (rest (skipSpace c1)) as [|x l]; [apply nests_fail|]. destruct (x =? 44); [by apply IHa|]. destruct (x =? 93); [|apply nests_fail]. by intros ? ? [= <- <-].
  - intros c depth out Ho. cbn [object_loop]. cbv zeta. destruct (_ =? 0)%nat; [apply nests_fail|]. apply nests_then. intros key c1 _. destruct (_ =? 0)%nat; [apply nests_fail|].
    apply nests_then. intros e c2 He%IHv. pose proof (height_set out key e depth Ho He) as Hp.
    destruct (rest (skipSpace c2)) as [|x l]; [apply nests_fail|]. destruct (x =? 44); [by apply IHo|]. destruct (x =? 125); [|apply nests_fail]. by intros ? ? [= <- <-].
Qed.

(** ** Values that come back as they were *)

Fixpoint clean (v : json) : Prop :=
  match v with
  | Number d => Double.isfinite d = true /\ d <> 2 ^ 63
  | String s => isValidUtf8 s = true
  | Array l => foldr (fun e acc => clean e /\ acc) True l
  | Object m => NoDup m.*1 /\ foldr (fun e acc => (isValidUtf8 (fst e) = true /\ clean (snd e)) /\ acc) True m
  | _ => True
  end.

Lemma set_member_new acc k v : k ∉ acc.*1 -> set_member acc k v = acc ++ [(k, v)].
Proof.
  induction acc as [|[k' w] acc IH]; cbn; [done|]. intros [Hne Hk]%not_elem_of_cons. rewrite bool_decide_false by congruence. by rewrite IH.
Qed.

Lemma set_all_new (m acc : list (bytes * json)) : NoDup (acc ++ m).*1 -> foldl (fun acc e => set_member acc (fst e) (snd e)) acc m = acc ++ m.
Proof.
  revert acc. induction m as [|[k v] m IH]; intros acc Hn; cbn [foldl fst snd]; [by rewrite app_nil_r|].
  rewrite set_member_new.
  - rewrite IH; rewrite <- app_assoc; done.
  - rewrite fmap_app in Hn. apply NoDup_app in Hn as (_ & Hn & _). intros Hk. apply (Hn k Hk). cbn. by left.
Qed.

Lemma normal_clean v : clean v -> normal v = v.
Proof.
  induction v as [|b|d|s|l IH|m IH] using json_nested_ind; cbn [clean normal]; try done.
  - intros [Hf Hz]. unfold Double.isfinite, Double.isnan, Double.isinf, ZSetValue.canon in *. apply Z.ltb_lt in Hf.
    rewrite (proj2 (Z.ltb_ge _ _)), (proj2 (Z.eqb_neq (Double.magnitude d) _)), (proj2 (Z.eqb_neq d _)) by lia. done.
  - intros H. f_equal. by apply sanitise_from_id.
  - intros H. f_equal. induction IH as [|x l Hx IH IHl]; [done|]. cbn in *. destruct H as [H1 H2]. by rewrite Hx, IHl.
  - intros [Hn H]. f_equal. transitivity ([] ++ m); [|done]. rewrite <- (set_all_new m []) by done. f_equal. clear Hn.
    induction IH as [|[k x] l Hx IH IHl]; [done|]. cbn in *. destruct H as [[H1 H2] H3]. rewrite Hx, IHl by done. unfold sanitiseUtf8. by rewrite sanitise_from_id.
Qed.

(** ** Parsed values are well formed *)

Lemma str_bytes_ok w : bytes_ok (str w).
Proof. unfold str. apply Forall_map, Forall_forall. intros a _. unfold u_range. pose proof (Ascii.N_ascii_bounded a). lia. Qed.

(** A result is a value with the property, or a message made of bytes. *)
Definition sound {A} (P : A -> Prop) (r : result A) : Prop :=
  match r with Done a c => P a /\ bytes_ok (rest c) | Failed m => bytes_ok m | Exhausted => True end.

Lemma sound_then {A B} (P : A -> Prop) (Q : B -> Prop) (r : result A) k :
  sound P r -> (forall a c, P a -> bytes_ok (rest c) -> sound Q (k a c)) -> sound Q (andThen r k).
Proof. destruct r; cbn; [intros []; auto|auto..]. Qed.

Lemma sound_fail {A} (P : A -> Prop) what c : sound P (fail what c).
Proof. unfold sound, fail. apply Forall_app. split; [apply str_bytes_ok|]. apply Forall_app. split; [apply str_bytes_ok|apply to_string_bytes_ok]. Qed.

Lemma advance_bytes n c : bytes_ok (rest c) -> bytes_ok (rest (advance n c)).
Proof. apply Forall_drop. Qed.

Lemma skipSpace_bytes c : bytes_ok (rest c) -> bytes_ok (rest (skipSpace c)).
Proof. unfold skipSpace. generalize (offset c). induction (rest c) as [|x l IH]; intros i H; cbn; [done|]. pose proof H as [_ Hl]%Forall_cons. destruct (isSpace x); [by apply IH|done]. Qed.

#[local] Hint Resolve sound_fail advance_bytes skipSpace_bytes : mnemos.

Lemma sound_literal {A} (P : A -> Prop) word a c : P a -> bytes_ok (rest c) -> sound P (literal word a c).
Proof. intros Ha Hc. unfold literal. destruct (_ =b? _); [by split; [|apply advance_bytes]|apply sound_fail]. Qed.

Lemma lor_byte a b : is_byte a -> is_byte b -> is_byte (Z.lor a b).
Proof.
  intros Ha Hb. unfold u_range in *. split; [apply Z.lor_nonneg; lia|]. destruct (Z.eq_dec (Z.lor a b) 0) as [->|Hz]; [done|].
  pose proof (proj2 (Z.lor_nonneg a b) ltac:(lia)). apply Z.log2_lt_pow2; [lia|]. rewrite Z.log2_lor by lia.
  apply Z.max_lub_lt; (destruct (Z.eq_dec a 0) as [->|]; [|]); (destruct (Z.eq_dec b 0) as [->|]; [|]); try done; apply Z.log2_lt_pow2; lia.
Qed.

Lemma shifted_byte cp k n : 0 <= n -> 0 <= cp < 2 ^ n -> 0 <= k -> n - k <= 8 -> is_byte (Z.shiftr cp k).
Proof.
  intros Hn Hcp Hk Hd. rewrite Z.shiftr_div_pow2 by lia. split; [apply Z.div_pos; lia|]. apply Z.div_lt_upper_bound; [lia|].
  assert (2 ^ n <= 2 ^ (k + 8)) by (apply Z.pow_le_mono_r; lia). rewrite Z.pow_add_r in * by lia. lia.
Qed.

Lemma masked_byte x : is_byte (Z.land x 0x3F).
Proof. change 0x3F with (Z.ones 6). rewrite Z.land_ones by lia. pose proof (Z.mod_pos_bound x (2 ^ 6) ltac:(lia)). unfold u_range. lia. Qed.

Lemma appendCodepoint_bytes cp : 0 <= cp <= 0x10FFFF -> bytes_ok (appendCodepoint cp).
Proof.
  intros Hcp. unfold appendCodepoint.
  destruct (Z.ltb_spec cp 0x80); [|destruct (Z.ltb_spec cp 0x800); [|destruct (Z.ltb_spec cp 0x10000)]];
    repeat (apply Forall_cons; split); try apply Forall_nil_2; try (apply lor_byte; [done|apply masked_byte]); try (unfold u_range; lia);
    (apply lor_byte; [done|]).
  - apply (shifted_byte cp 6 11); lia.
  - apply (shifted_byte cp 12 16); lia.
  - apply (shifted_byte cp 18 21); lia.
Qed.

Lemma hex_value_range c d : hex_value c = Some d -> 0 <= d < 16.
Proof.
  unfold hex_value. intros H. destruct ((48 <=? c) && (c <=? 57)) eqn:E1; [bools; simplify_eq; lia|].
  destruct ((97 <=? c) && (c <=? 102)) eqn:E2; [bools; simplify_eq; lia|]. destruct ((65 <=? c) && (c <=? 70)) eqn:E3; [bools; simplify_eq; lia|done].
Qed.

Lemma hex_digits_range s out v n : 0 <= out < 2 ^ n -> 0 <= n -> hex_digits s out = Some v -> 0 <= v < 2 ^ (n + 4 * Z.of_nat (length s)).
Proof.
  revert out n. induction s as [|c s IH]; intros out n Ho Hn; cbn [hex_digits length]; [intros [= <-]; by rewrite Z.add_0_r|].
  destruct (hex_value c) as [d|] eqn:Hd; [|done]. cbn [mbind option_bind]. intros Hv.
  assert (0 <= d < 16) as Hr by (by apply hex_value_range in Hd).
  replace (n + 4 * Z.of_nat (S (length s))) with ((n + 4) + 4 * Z.of_nat (length s)) by lia. eapply IH; [| |exact Hv]; [|lia].
  rewrite (land_low_shiftl d out 4) by lia. rewrite Z.pow_add_r by lia. lia.
Qed.

Lemma sound_hex4 c : bytes_ok (rest c) -> sound (fun v => 0 <= v < 0x10000) (parseHex4 c).
Proof.
  intros Hc. unfold parseHex4. destruct (Nat.ltb_spec (length (rest c)) 4); [apply sound_fail|]. destruct (hex_digits _ _) as [v|] eqn:Hv; [|apply sound_fail].
  split; [|by apply advance_bytes]. apply (hex_digits_range _ _ _ 0) in Hv; [|lia..]. rewrite length_take in Hv. replace (4 `min` length (rest c))%nat with 4%nat in Hv by lia. exact Hv.
Qed.

Lemma sound_unicode c : bytes_ok (rest c) -> sound (fun cp => 0 <= cp <= 0x10FFFF) (parseUnicode c).
Proof.
  intros Hc. unfold parseUnicode. eapply sound_then; [by apply sound_hex4|]. intros cp c1 Hcp H1. cbv beta in Hcp. destruct (isHighSurrogate cp) eqn:Hh; cbn [andb orb].
  - destruct (_ =b? _); [|by split; [lia|]]. eapply sound_then; [by apply sound_hex4, advance_bytes|]. intros low c2 Hlow H2. cbv beta in Hlow. destruct (isLowSurrogate low) eqn:Hl; [|by split; [lia|]]. split; [|done].
    unfold isHighSurrogate, isLowSurrogate in *. rewrite Z.shiftl_mul_pow2 by lia. bools. lia.
  - split; [|done]. cbv beta. cbn [orb]. destruct (isLowSurrogate cp); lia.
Qed.

Lemma sound_string_loop fuel c out : bytes_ok (rest c) -> bytes_ok out -> sound bytes_ok (string_loop fuel c out).
Proof.
  revert c out. induction fuel as [|fuel IH]; intros c out Hc Ho; cbn [string_loop]; [done|]. destruct (rest c) as [|x l] eqn:Hr; [apply sound_fail|].
  assert (forall n, bytes_ok (rest (advance n c))) as Ha by (intros n; apply advance_bytes; by rewrite Hr).
  apply Forall_cons in Hc as [Hx Hl]. assert (forall b, bytes_ok b -> bytes_ok (out ++ b)) as Happ by (intros b Hb; by apply Forall_app).
  destruct (x =? 34); [by split|]. destruct (x <? 32); [apply sound_fail|]. destruct (negb (x =? 92)); [apply IH; [done|]; apply Happ; by apply Forall_singleton|].
  cbv zeta. destruct (rest (advance 1 c)) as [|esc l'] eqn:Hr1; [apply sound_fail|]. specialize (Ha 1%nat).
  assert (bytes_ok (rest (advance 1 (advance 1 c)))) as Ha2 by (by apply advance_bytes).
  destruct (unescaped esc) as [b|] eqn:Hb.
  - apply IH; [done|]. apply Happ, Forall_singleton. revert Hb. unfold unescaped. repeat (destruct (_ =? _); [by intros [= <-]|]). done.
  - destruct (esc =? 117); [|apply sound_fail]. eapply sound_then; [by apply sound_unicode|]. intros cp c3 Hcp H3. apply IH; [done|]. by apply Happ, appendCodepoint_bytes.
Qed.

Lemma sound_string c : bytes_ok (rest c) -> sound bytes_ok (parseString c).
Proof. intros Hc. apply sound_string_loop; [by apply advance_bytes|constructor]. Qed.

Lemma sound_number c : bytes_ok (rest c) -> sound well_formed (parseNumber c).
Proof.
  intros Hc. unfold parseNumber. cbv zeta. repeat match goal with |- sound _ (if ?b then _ else _) => destruct b end; try apply sound_fail;
    (split; [apply Strtod.strtod_bits|]); repeat apply advance_bytes; done.
Qed.

Lemma well_formed_push out e : well_formed out -> well_formed e -> well_formed (push out e).
Proof. intros Ho He. destruct out; cbn [push]; try done. cbn [well_formed] in *. induction l as [|x l IH]; cbn in *; [done|]. destruct Ho as [H1 H2]. auto. Qed.

Lemma well_formed_set out k e : well_formed out -> bytes_ok k -> well_formed e -> well_formed (set out k e).
Proof.
  intros Ho Hk He. destruct out; cbn [set]; try done. cbn [well_formed] in *. induction m as [|[k' x] m IH]; cbn in *; [done|].
  destruct Ho as [[H0 H1] H2]. destruct (k' =b? k); cbn; auto.
Qed.

Lemma parse_sound fuel :
  (forall c depth, bytes_ok (rest c) -> sound well_formed (parseValue fuel c depth)) /\
  (forall c depth out, bytes_ok (rest c) -> well_formed out -> sound well_formed (array_loop fuel c depth out)) /\
  (forall c depth out, bytes_ok (rest c) -> well_formed out -> sound well_formed (object_loop fuel c depth out)).
Proof.
  induction fuel as [|fuel (IHv & IHa & IHo)]; [done|]. split_and!.
  - intros c depth Hc. cbn [parseValue]. destruct (_ <? depth); [apply sound_fail|]. destruct (rest c) as [|x l] eqn:Hr; [apply sound_fail|]. rewrite <- Hr in Hc.
    destruct (x =? 110); [by apply sound_literal|]. destruct (x =? 116); [by apply sound_literal|]. destruct (x =? 102); [by apply sound_literal|].
    destruct (x =? 34); [eapply sound_then; [by apply sound_string|]; intros; by split|]. cbv zeta.
    assert (bytes_ok (rest (skipSpace (advance 1 c)))) as H1 by (by apply skipSpace_bytes, advance_bytes).
    destruct (x =? 91); [|destruct (x =? 123); [|by apply sound_number]]; (destruct (_ =? 1)%nat; [by split; [|apply advance_bytes]|]); [by apply IHa|by apply IHo].
  - intros c depth out Hc Ho. cbn [array_loop]. eapply sound_then; [by apply IHv, skipSpace_bytes|]. intros e c1 He H1. cbv zeta. apply skipSpace_bytes in H1.
    destruct (rest (skipSpace c1)) as [|x l] eqn:Hr; [apply sound_fail|]. rewrite <- Hr in H1. apply (advance_bytes 1) in H1. pose proof (well_formed_push out e Ho He).
    destruct (x =? 44); [by apply IHa|]. destruct (x =? 93); [by split|apply sound_fail].
  - intros c depth out Hc Ho. cbn [object_loop]. cbv zeta. destruct (_ =? 0)%nat; [apply sound_fail|]. eapply sound_then; [by apply sound_string, skipSpace_bytes|].
    intros key c1 Hk H1. destruct (_ =? 0)%nat; [apply sound_fail|]. eapply sound_then; [by apply IHv, skipSpace_bytes, advance_bytes, skipSpace_bytes|].
    intros e c2 He H2. apply skipSpace_bytes in H2. destruct (rest (skipSpace c2)) as [|x l] eqn:Hr; [apply sound_fail|]. rewrite <- Hr in H2. apply (advance_bytes 1) in H2.
    pose proof (well_formed_set out key e Ho Hk He). destruct (x =? 44); [by apply IHo|]. destruct (x =? 125); [by split|apply sound_fail].
Qed.

Lemma parsed_ok t r : bytes_ok t -> parse t = Some r -> match r with inl v => well_formed v | inr message => bytes_ok message end.
Proof.
  intros Ht Hr. unfold parse in Hr. assert (sound well_formed (run t)) as H.
  { unfold run. eapply sound_then; [by apply parse_sound, skipSpace_bytes|]. intros v c Hv Hc. cbv zeta. apply skipSpace_bytes in Hc.
    destruct (rest (skipSpace c)) eqn:E; [split; [done|by rewrite E]|apply sound_fail]. }
  destruct (run t) as [v c|m|]; simplify_eq; [apply H|exact H].
Qed.

Lemma parsed_height t v : parse t = Some (inl v) -> height v <= kMaxJsonDepth.
Proof.
  intros Hr. unfold parse, run in Hr. destruct (parse_nests (enough t)) as [Hn _].
  specialize (Hn (skipSpace (mkCursor 0 t)) 0). destruct (parseValue _ _ _) as [w c|m|]; cbn in Hr; [|by simplify_eq..].
  destruct (rest (skipSpace c)); cbn in Hr; simplify_eq. by apply (Hn v c).
Qed.

(** ** One message, one line *)

(** Bytes without a control character, in particular without a line break. *)
Definition one_line (s : bytes) : Prop := Forall (fun c => 0x20 <= c < 0x100) s.

Lemma one_line_bytes s : one_line s -> bytes_ok s.
Proof. intros H. eapply Forall_impl; [exact H|]. unfold u_range. intros c Hc. cbn in Hc. lia. Qed.

Lemma str_one_line w : forallb (fun c => 0x20 <=? c) (str w) = true -> one_line (str w).
Proof.
  intros H. pose proof (str_bytes_ok w) as Hb. apply Forall_forall. intros c Hc. rewrite forallb_forall in H. rewrite Forall_forall in Hb. specialize (Hb c Hc). apply list_elem_of_In, H, Z.leb_le in Hc.
  unfold u_range in Hb. lia.
Qed.

Lemma escape_one_line s p : bytes_ok s -> Forall continues (take p s) -> one_line (escape_from p s).
Proof.
  revert p. induction s as [|c s IH]; intros p Hs Hp; [constructor|]. apply Forall_cons in Hs as [Hc Hs]. destruct p as [|p]; cbn [escape_from].
  - specialize (IH 0%nat Hs ltac:(constructor)) as IH0. destruct (short_escape c) as [e|] eqn:He.
    { apply short_escape_some in He as (_ & esc & -> & Hesc). apply Forall_app. split; [|done]. repeat (apply Forall_cons; split); [lia| |apply Forall_nil_2].
      revert Hesc. unfold unescaped. repeat match goal with |- context [?x =? ?d] => destruct (Z.eqb_spec x d) as [->|]; [lia|] end. done. }
    destruct (Z.ltb_spec c 32) as [Hl|Hl].
    { apply Forall_app. split; [|done]. assert (forall d, 0x20 <= hex_char (d mod 16) < 0x100) as Hh.
      { intros d. pose proof (Z.mod_pos_bound d 16 ltac:(lia)). unfold hex_char. destruct (_ <? _); lia. }
      unfold unicode_escape. apply Forall_app. split; [by apply str_one_line|]. repeat (apply Forall_cons; split; [apply Hh|]). apply Forall_nil_2. }
    destruct (utf8SequenceLength (c :: s)) as [|more] eqn:Hm.
    + apply Forall_app. split; [|done]. repeat (apply Forall_cons; split); try lia. apply Forall_nil_2.
    + apply Forall_cons. split; [unfold u_range in Hc; lia|]. apply IH; [done|]. by apply (sequence_some c s more).
  - cbn [take] in Hp. apply Forall_cons in Hp as [Hc' Hp]. apply continues_high in Hc'; [|done]. apply Forall_cons. split; [unfold u_range in Hc; lia|]. by apply IH.
Qed.

Lemma escaped_one_line s : bytes_ok s -> one_line (appendEscaped s).
Proof.
  intros Hs. unfold appendEscaped. apply Forall_cons. split; [lia|]. apply Forall_app. split; [apply escape_one_line; [done|constructor]|]. apply Forall_singleton. lia.
Qed.

Lemma separated_one_line ps : Forall one_line ps -> one_line (separated ps).
Proof.
  induction 1 as [|p ps Hp _ IH]; [constructor|]. destruct ps as [|q ps]; [done|]. apply Forall_app. split; [done|]. apply Forall_cons. split; [lia|done].
Qed.

Lemma serialise_one_line v depth : well_formed v -> one_line (serialiseInto v depth).
Proof.
  revert depth. induction v as [|b|d|s|l IH|m IH] using json_nested_ind; intros depth Hw; cbn [serialiseInto]; (destruct (_ <? depth); [by apply str_one_line|]).
  - by apply str_one_line.
  - destruct b; by apply str_one_line.
  - assert (forall w, forallb (fun c => 0x20 <=? c) (str w) = true -> one_line ([34] ++ str w ++ [34])) as Hq.
    { intros w Hw'. apply Forall_cons. split; [lia|]. apply Forall_app. split; [by apply str_one_line|]. apply Forall_singleton. lia. }
    destruct (Double.isnan d) eqn:Hn; [by apply Hq|]. destruct (Double.isinf d); [destruct (Double.gt d 0); by apply Hq|].
    destruct (Dtoa.d2string_printable d (conj Hw Hn)) as [Hp _]. eapply Forall_impl; [exact Hp|]. unfold Dtoa.printable. intros c Hc. cbn in Hc. lia.
  - by apply escaped_one_line.
  - apply well_formed_array in Hw. apply Forall_cons. split; [lia|]. apply Forall_app. split; [|apply Forall_singleton; lia]. apply separated_one_line, Forall_map.
    rewrite Forall_forall in *. intros x Hx. by apply IH; [|apply Hw].
  - apply well_formed_object in Hw. apply Forall_cons. split; [lia|]. apply Forall_app. split; [|apply Forall_singleton; lia]. apply separated_one_line, Forall_map.
    rewrite Forall_forall in *. intros [k x] Hx. destruct (Hw (k, x) Hx) as [Hk Hx']. apply Forall_app. split; [by apply escaped_one_line|]. apply Forall_cons. split; [lia|]. by apply (IH (k, x)).
Qed.

(** ** Theorems *)

(** C19: A JSON value survives the wire: for every value that nests no deeper than
    the limit, the serialiser writes one line of valid UTF-8 that the parser
    accepts in full, and it reads back the value with its strings repaired, NaN and the
    infinities as strings, a negative zero as zero and equal keys merged; a value that needs no such
    change comes back as it was. *)
Theorem json_round_trip (v : json) : well_formed v -> height v <= kMaxJsonDepth ->
  one_line (serialise v) /\ isValidUtf8 (serialise v) = true /\ parse (serialise v) = Some (inl (normal v)) /\ (clean v -> normal v = v).
Proof.
  intros Hw Hh. split; [by apply serialise_one_line|]. split; [|split; [by apply serialise_parses|apply normal_clean]].
  unfold serialise. rewrite <- (app_nil_r (serialiseInto v 0)). by rewrite serialise_valid.
Qed.

Lemma json_round_trip_witness :
  let v := Object [(str "k", Array [String [10; 0xC3; 0xA9]; Number (Double.of_int64 (-3)); Bool true; Null])] in
  isValidUtf8 (serialise v) = true /\ parse (serialise v) = Some (inl v).
Proof.
  destruct (json_round_trip (Object [(str "k", Array [String [10; 0xC3; 0xA9]; Number (Double.of_int64 (-3)); Bool true; Null])])) as (_ & H1 & H2 & H3).
  - repeat split; try (vm_compute; congruence); repeat (apply Forall_cons; split; [split; [lia|done]|]); apply Forall_nil_2.
  - vm_compute. congruence.
  - cbv zeta. split; [exact H1|]. rewrite <- H3; [rewrite H3 in H2; [exact H2|]|].
    all: repeat split; try (vm_compute; congruence); try (apply NoDup_singleton); try done.
Defined.

(** C40: The parser always answers, with a value of the right shape: on any text it
    returns, within two turns of its loops per byte, either an error message or
    a value whose numbers are doubles, whose strings and keys are bytes, and
    which nests no deeper than the limit that bounds its recursion. *)
Theorem json_parse_answers (text : bytes) : bytes_ok text ->
  exists r, parse text = Some r /\ match r with inl v => well_formed v /\ height v <= kMaxJsonDepth | inr message => bytes_ok message end.
Proof.
  intros Ht. destruct (parse_returns text) as [r Hr]. exists r. split; [done|]. pose proof (parsed_ok text r Ht Hr) as Hok. destruct r as [v|e]; [|done].
  split; [done|]. by apply (parsed_height text).
Qed.

Lemma json_parse_answers_witness : exists message, parse (str "[1, {") = Some (inr message) /\ bytes_ok message.
Proof.
  destruct (json_parse_answers (str "[1, {")) as (r & H1 & H2); [decide_now|]. destruct r as [v|message]; [vm_compute in H1; discriminate H1|]. by exists message.
Defined.

End Json.
