(* ===== verification/McpProtocol.v ===== *)
(** * McpProtocol: JSON-RPC framing and the MCP methods

    [src/mcp/protocol.h] and [src/mcp/protocol.cpp]: one inbound line, one
    outbound line or none. The tools behind the session are an interface; the
    theorems say what a client can rely on whatever the tools do. *)

From Stdlib Require Import ZArith Lia.
Set Warnings "-register-all".
From stdpp Require Import base list numbers gmap option strings.
From S2P Require Import Prelude Encoding Double Strtod Dtoa ZSetValue Json.
Import Json.Json.

(** What a tool call produced. *)
Record ToolResult := mkResult { text : bytes; is_error : bool }.

(** The tool layer, whose calls change its state (its connection). *)
Class ToolProvider (T : Type) := {
  listTools : T -> json;
  hasTool : T -> bytes -> bool;
  callTool : T -> bytes -> json -> option (T * ToolResult)
}.

(** What the protocol layer relies on, of tools in a proper state: a call
    returns, with a text that is made of bytes, and the description of the tools
    leaves room for the envelope around it. *)
Class ToolLaws (T : Type) {ops : ToolProvider T} := {
  tools_ok : T -> Prop;
  listTools_ok : forall t, well_formed (listTools t) /\ height (listTools t) <= kMaxJsonDepth - 2;
  callTool_ok : forall t name args, tools_ok t -> hasTool t name = true -> well_formed args ->
    exists t' r, callTool t name args = Some (t', r) /\ tools_ok t' /\ bytes_ok (text r)
}.

Module Protocol.

Definition kParseError : Z := -32700.
Definition kInvalidRequest : Z := -32600.
Definition kMethodNotFound : Z := -32601.
Definition kInvalidParams : Z := -32602.
Definition kUnsupportedProtocolVersion : Z := -32022.

Definition kServerName : bytes := str "mnemos-mcp".
Definition kServerVersion : bytes := str "0.1.0".

Definition kMetaProtocolVersion : bytes := str "io.modelcontextprotocol/protocolVersion".
Definition kMetaClientCaps : bytes := str "io.modelcontextprotocol/clientCapabilities".
Definition kMetaServerInfo : bytes := str "io.modelcontextprotocol/serverInfo".

Definition kInstructions : bytes :=
  str "Inspect and operate a mnemos (or redis) keyspace. Prefer the specific " ++
  str "tools -- get, set, scan_keys, describe_key, server_info -- and fall back " ++
  str "to redis_command for anything they do not cover. describe_key reports the " ++
  str "in-memory encoding, which is how you tell a listpack from a hashtable.".

Definition modernProtocolVersions : list bytes := [str "2026-07-28"].
Definition legacyProtocolVersions : list bytes := [str "2025-11-25"; str "2025-06-18"; str "2025-03-26"; str "2024-11-05"].
(** [supported.front()] *)
Definition newestLegacy : bytes := str "2025-11-25".

Definition obj : json := Object [].
Definition arr : json := Array [].
Abbreviation sets o k v := (set o (str k) v).
Abbreviation text_of s := (String (str s)).

Definition serverInfo : json := sets (sets obj "name" (String kServerName)) "version" (String kServerVersion).

Definition toolCapabilities : json := sets obj "tools" (sets obj "listChanged" (Bool false)).

Definition envelope (id : json) : json := sets (sets obj "jsonrpc" (text_of "2.0")) "id" id.

Definition errorResponse (id : json) (code : Z) (message : bytes) (data : json) : bytes :=
  let err := sets (sets obj "code" (Number (Double.of_int64 code))) "message" (String message) in
  let err := if isNull data then err else sets err "data" data in
  serialise (sets (envelope id) "error" err).

(** A modern result leads with [resultType] and names the server. *)
Definition modernResult (result : json) : json :=
  let result := sets result "_meta" (set obj kMetaServerInfo serverInfo) in
  foldl (fun o m => set o (fst m) (snd m)) (sets obj "resultType" (text_of "complete")) (members result).

Definition resultResponse (id result : json) (modern : bool) : bytes :=
  let result := if modern then modernResult result else result in
  serialise (sets (envelope id) "result" result).

Definition metaField (params : option json) (key : bytes) : option json :=
  params ← params; meta ← find params (str "_meta"); find meta key.

Definition stringArray (values : list bytes) : json := foldl (fun out v => push out (String v)) arr values.

Definition isBlank (line : bytes) : bool := forallb isSpace line.

Definition named (values : list bytes) (v : json) : bool := bool_decide (asString v ∈ values).

Definition method_is (method : bytes) (name : string) : bool := method =b? str name.

(** The version an [initialize] settles on. *)
Definition agreedVersion (params : option json) : bytes :=
  match params ≫= fun p => find p (str "protocolVersion") with
  | Some asked => if isString asked && named legacyProtocolVersions asked then asString asked else newestLegacy
  | None => newestLegacy
  end.

Definition initializeResult (params : option json) : json :=
  sets (sets (sets (sets obj "protocolVersion" (String (agreedVersion params))) "capabilities" toolCapabilities)
    "serverInfo" serverInfo) "instructions" (String kInstructions).

Definition discoverResult : json :=
  sets (sets (sets obj "supportedVersions" (stringArray (modernProtocolVersions ++ legacyProtocolVersions)))
    "capabilities" toolCapabilities) "instructions" (String kInstructions).

Definition callResult (call : ToolResult) : json :=
  let block := sets (sets obj "type" (text_of "text")) "text" (String (text call)) in
  sets (sets obj "content" (push arr block)) "isError" (Bool (is_error call)).

(** The era check: the refusal of a modern request, if it is refused. *)
Definition modernRefusal (id : json) (params : option json) (declared : json) : option bytes :=
  if negb (named modernProtocolVersions declared) then
    let data := sets (sets obj "supported" (stringArray modernProtocolVersions)) "requested" declared in
    Some (errorResponse id kUnsupportedProtocolVersion (str "Unsupported protocol version") data)
  else
    match metaField params kMetaClientCaps with
    | None => Some (errorResponse id kInvalidParams (str "Invalid params: _meta is missing " ++ kMetaClientCaps) Null)
    | Some _ => None
    end.

Section Session.
Context {T : Type} {ops : ToolProvider T}.

(** [None] is a tool call that does not return. *)
Definition callMethod (t : T) (id : json) (params : option json) (modern : bool) : option (T * bytes) :=
  match params ≫= fun p => find p (str "name") with
  | Some name =>
      if isString name then
        if negb (hasTool t (asString name)) then
          Some (t, errorResponse id kInvalidParams (str "Invalid params: unknown tool '" ++ asString name ++ str "'") Null)
        else
          let args := match params ≫= fun p => find p (str "arguments") with
                      | Some arguments => if isObject arguments then arguments else obj
                      | None => obj
                      end in
          '(t, call) ← callTool t (asString name) args;
          Some (t, resultResponse id (callResult call) modern)
      else Some (t, errorResponse id kInvalidParams (str "Invalid params: missing tool name") Null)
  | None => Some (t, errorResponse id kInvalidParams (str "Invalid params: missing tool name") Null)
  end.

Definition dispatch (t : T) (id : json) (method : bytes) (params : option json) (modern : bool) : option (T * bytes) :=
  if method_is method "initialize" then Some (t, resultResponse id (initializeResult params) false)
  else if method_is method "server/discover" then Some (t, resultResponse id discoverResult true)
  else if method_is method "ping" then Some (t, resultResponse id obj modern)
  else if method_is method "tools/list" then Some (t, resultResponse id (sets obj "tools" (listTools t)) modern)
  else if method_is method "tools/call" then callMethod t id params modern
  else Some (t, errorResponse id kMethodNotFound (str "Method not found: " ++ method) Null).

(** A message that parsed as an object; no bytes mean no answer. *)
Definition handleMessage (t : T) (message : json) : option (T * bytes) :=
  let id := default Null (find message (str "id")) in
  let is_notification := isNull id in
  match find message (str "method") with
  | Some method_field =>
      if negb (isString method_field) then
        Some (t, if is_notification then [] else errorResponse id kInvalidRequest (str "Invalid Request: missing method") Null)
      else if is_notification then Some (t, [])
      else
        let params := find message (str "params") in
        let declared := metaField params kMetaProtocolVersion in
        let modern := match declared with Some d => isString d | None => false end in
        match (if modern then modernRefusal id params (default Null declared) else None) with
        | Some refusal => Some (t, refusal)
        | None => dispatch t id (asString method_field) params modern
        end
  | None => Some (t, if is_notification then [] else errorResponse id kInvalidRequest (str "Invalid Request: missing method") Null)
  end.

(** [None] would be a parser or a tool that does not return. *)
Definition handleLine (t : T) (line : bytes) : option (T * bytes) :=
  if isBlank line then Some (t, [])
  else
    parsed ← parse line;
    match parsed with
    | inr parse_error => Some (t, errorResponse Null kParseError (str "Parse error: " ++ parse_error) Null)
    | inl message =>
        if negb (isObject message) then Some (t, errorResponse Null kInvalidRequest (str "Invalid Request: expected a JSON object") Null)
        else handleMessage t message
    end.
End Session.

(** ** Responses *)

(** What a line asks for: [None] no answer, otherwise the id to answer with. *)
Definition awaits (line : bytes) : option json :=
  if isBlank line then None
  else
    match parse line with
    | Some (inl (Object m)) =>
        match find_member m (str "id") with
        | Some Null | None => None
        | Some id => Some id
        end
    | _ => Some Null
    end.

(** A JSON-RPC 2.0 response on one line: the id it answers, and either a result
    or an error. *)
Definition response (id : json) (out : bytes) : Prop :=
  one_line out /\ isValidUtf8 out = true /\
  exists r, parse out = Some (inl (Object r)) /\ find_member r (str "jsonrpc") = Some (text_of "2.0") /\ find_member r (str "id") = Some (normal id) /\
    ((exists v, find_member r (str "result") = Some v /\ find_member r (str "error") = None) \/
     (exists v, find_member r (str "error") = Some v /\ find_member r (str "result") = None)).

(** The code of the error that a line refuses with, for a line that is not a
    request at all. *)
Definition refusal (line : bytes) : option Z :=
  if isBlank line then None
  else match parse line with Some (inl (Object _)) => None | Some (inl _) => Some kInvalidRequest | _ => Some kParseError end.

(** The members of a response. *)
Definition answered (out : bytes) : option json := match parse out with Some (inl r) => Some r | _ => None end.
Definition answered_id (out : bytes) : option json := r ← answered out; find r (str "id").
Definition answered_code (out : bytes) : option json := r ← answered out; e ← find r (str "error"); find e (str "code").

Lemma response_id id out : response id out -> clean id -> answered_id out = Some id.
Proof. intros (_ & _ & r & Hr & _ & Hid & _) Hc. unfold answered_id, answered. rewrite Hr. cbn [mbind option_bind find]. by rewrite Hid, normal_clean. Qed.

(** A value that fits inside the envelope. *)
Definition fits (v : json) : Prop := well_formed v /\ height v <= kMaxJsonDepth - 1.

Lemma fits_set o k v : fits o -> bytes_ok k -> well_formed v -> height v <= kMaxJsonDepth - 2 -> fits (set o k v).
Proof.
  intros [Ho Hh] Hk Hv Hv'. split; [by apply well_formed_set|]. pose proof (height_set o k v 1) as H. lia.
Qed.

Lemma envelope_response id key body : well_formed id -> height id <= kMaxJsonDepth - 1 -> fits body -> key = "result"%string \/ key = "error"%string ->
  response id (serialise (sets (envelope id) key body)).
Proof.
  intros Hid Hh [Hb Hhb] Hkey.
  assert (sets (envelope id) key body = Object [(str "jsonrpc", text_of "2.0"); (str "id", id); (str key, body)]) as -> by (by destruct Hkey as [-> | ->]).
  assert (well_formed (Object [(str "jsonrpc", text_of "2.0"); (str "id", id); (str key, body)])) as Hw by (cbn [well_formed foldr fst snd]; split_and!; try done; apply str_bytes_ok).
  assert (height (Object [(str "jsonrpc", text_of "2.0"); (str "id", id); (str key, body)]) <= kMaxJsonDepth) as Hhw by (cbn; unfold kMaxJsonDepth in *; lia).
  split; [by apply serialise_one_line|]. split; [unfold serialise; rewrite <- (app_nil_r (serialiseInto _ 0)); by rewrite serialise_valid|].
  eexists. split; [rewrite serialise_parses by done; cbn [normal]; reflexivity|]. destruct Hkey as [-> | ->]; split_and!; try done; [left|right]; eexists; by split.
Qed.

Lemma error_fits code message data : bytes_ok message -> well_formed data -> height data <= kMaxJsonDepth - 2 -> is_u64 (Double.of_int64 code) ->
  fits (let err := sets (sets obj "code" (Number (Double.of_int64 code))) "message" (String message) in if isNull data then err else sets err "data" data).
Proof.
  intros Hm Hd Hh Hc. assert (fits (sets (sets obj "code" (Number (Double.of_int64 code))) "message" (String message))) as H.
  { apply fits_set; [|apply str_bytes_ok|done|done]. apply fits_set; [by split|apply str_bytes_ok|done|done]. }
  cbv zeta. destruct (isNull data); [done|]. apply fits_set; [done|apply str_bytes_ok|done|done].
Qed.

Lemma error_responds id code message data : well_formed id -> height id <= kMaxJsonDepth - 1 -> bytes_ok message -> well_formed data -> height data <= kMaxJsonDepth - 2 ->
  response id (errorResponse id code message data).
Proof. intros. apply envelope_response; [done|done| |by right]. apply error_fits; try done. apply Double.of_int64_ok. Qed.

(** A refusal can be told from a result, and carries its code. *)
Lemma error_coded code message : bytes_ok message -> code = kParseError \/ code = kInvalidRequest -> answered_code (errorResponse Null code message Null) = Some (Number (Double.of_int64 code)).
Proof.
  intros Hm Hc. unfold answered_code, answered, errorResponse. cbv zeta.
  assert (is_u64 (Double.of_int64 code)) as Hu by apply Double.of_int64_ok. destruct (error_fits code message Null Hm I ltac:(done) Hu) as [Hw Hh]. cbn [isNull] in *. set (err := sets _ _ _) in *.
  assert (sets (envelope Null) "error" err = Object [(str "jsonrpc", text_of "2.0"); (str "id", Null); (str "error", err)]) as -> by done.
  rewrite serialise_parses.
  - cbn [mbind option_bind]. destruct Hc as [-> | ->]; reflexivity.
  - cbn [well_formed foldr fst snd]. split_and!; try done; apply str_bytes_ok.
  - clearbody err. cbn. unfold kMaxJsonDepth in *. lia.
Qed.

Lemma serverInfo_ok : well_formed serverInfo.
Proof. unfold serverInfo. apply well_formed_set; [apply well_formed_set; [done|apply str_bytes_ok..]|apply str_bytes_ok..]. Qed.

Lemma toolCapabilities_ok : well_formed toolCapabilities.
Proof. unfold toolCapabilities. apply well_formed_set; [done|apply str_bytes_ok|]. apply well_formed_set; [done|apply str_bytes_ok|done]. Qed.

Lemma instructions_ok : bytes_ok kInstructions.
Proof. unfold kInstructions. repeat (apply Forall_app; split; [apply str_bytes_ok|]). apply str_bytes_ok. Qed.

Lemma stringArray_ok vs : Forall bytes_ok vs -> well_formed (stringArray vs).
Proof.
  intros H. unfold stringArray. assert (well_formed arr) as Ha by done. revert Ha. generalize arr. induction H as [|v vs Hv H IH]; intros a Ha; cbn [foldl]; [done|]. apply IH. by apply well_formed_push.
Qed.

Lemma versions_ok : Forall bytes_ok (modernProtocolVersions ++ legacyProtocolVersions).
Proof. unfold modernProtocolVersions, legacyProtocolVersions. cbn [app]. repeat (apply Forall_cons; split; [apply str_bytes_ok|]). apply Forall_nil_2. Qed.

Lemma modern_fits result : fits result -> isObject result = true -> fits (modernResult result).
Proof.
  intros Hr Ho. unfold modernResult.
  assert (fits (sets result "_meta" (set obj kMetaServerInfo serverInfo))) as Hs.
  { apply fits_set; [done|apply str_bytes_ok| |done]. apply well_formed_set; [done|apply str_bytes_ok|apply serverInfo_ok]. }
  destruct result as [| | | | |m]; try done. cbn [set members] in *. set (m' := set_member m _ _) in *. clearbody m'. clear Ho Hr m.
  assert (fits (sets obj "resultType" (text_of "complete"))) as Hacc.
  { apply fits_set; [done|apply str_bytes_ok| |done]. apply str_bytes_ok. }
  revert Hacc. generalize (sets obj "resultType" (text_of "complete")). induction m' as [|[k v] m' IH]; intros acc Hacc; cbn [foldl fst snd]; [done|].
  destruct Hs as [Hw Hh]. cbn [well_formed foldr fst snd] in Hw. destruct Hw as [[Hk Hv] Hw]. cbn [height map foldr fst snd] in Hh. apply IH; [split; [exact Hw|cbn [height]; lia]|].
  apply fits_set; [done|done|done|lia].
Qed.

Lemma result_responds id result modern : well_formed id -> height id <= kMaxJsonDepth - 1 -> fits result -> isObject result = true ->
  response id (resultResponse id result modern).
Proof. intros. apply envelope_response; [done|done| |by left]. destruct modern; [by apply modern_fits|done]. Qed.

Lemma field_ok o k v : well_formed o -> find o k = Some v -> well_formed v /\ height v + 1 <= height o.
Proof.
  destruct o; cbn [find]; try done. intros Hw%well_formed_object. cbn [height]. induction Hw as [|[k' x] m [_ Hx] Hw IH]; cbn; [done|].
  destruct (k' =b? k); [intros [= <-]; split; [done|lia]|]. intros H. destruct (IH H). split; [done|]. lia.
Qed.

Lemma asString_bytes v : well_formed v -> bytes_ok (asString v).
Proof. destruct v; cbn; intros; try constructor. done. Qed.

Lemma initialize_fits params : match params with Some p => well_formed p | None => True end -> fits (initializeResult params).
Proof.
  intros Hp. assert (bytes_ok (agreedVersion params)) as Hv.
  { unfold agreedVersion. destruct params as [p|]; cbn [mbind option_bind]; [|apply str_bytes_ok]. destruct (find p _) as [a|] eqn:Hf; [|apply str_bytes_ok].
    apply field_ok in Hf as [Ha _]; [|done]. destruct (_ && _); [by apply asString_bytes|apply str_bytes_ok]. }
  unfold initializeResult. apply fits_set; [|apply str_bytes_ok|apply instructions_ok|done]. apply fits_set; [|apply str_bytes_ok|apply serverInfo_ok|done].
  apply fits_set; [|apply str_bytes_ok|apply toolCapabilities_ok|done]. by apply fits_set; [|apply str_bytes_ok| |].
Qed.

Lemma discover_fits : fits discoverResult.
Proof.
  unfold discoverResult. apply fits_set; [|apply str_bytes_ok|apply instructions_ok|done]. apply fits_set; [|apply str_bytes_ok|apply toolCapabilities_ok|done].
  apply fits_set; [done|apply str_bytes_ok|apply stringArray_ok, versions_ok|done].
Qed.

Lemma call_fits call : bytes_ok (text call) -> fits (callResult call).
Proof.
  intros Hb. unfold callResult. apply fits_set; [|apply str_bytes_ok|done|done]. apply fits_set; [done|apply str_bytes_ok| |done].
  apply well_formed_push; [done|]. apply well_formed_set; [|apply str_bytes_ok|done]. apply well_formed_set; [done|apply str_bytes_ok|apply str_bytes_ok].
Qed.

Section Theorems.
Context {T : Type} {ops : ToolProvider T} {laws : ToolLaws T}.

(** An answer that leaves the tools in a proper state. *)
Definition answers (id : json) (o : option (T * bytes)) : Prop := exists t out, o = Some (t, out) /\ tools_ok t /\ response id out.

Lemma answers_at id (t : T) out : tools_ok t -> response id out -> answers id (Some (t, out)).
Proof. intros Ht Ho. by exists t, out. Qed.

Lemma callMethod_answers (t : T) id params modern : tools_ok t -> well_formed id -> height id <= kMaxJsonDepth - 1 -> match params with Some p => well_formed p | None => True end ->
  answers id (callMethod t id params modern).
Proof.
  intros Ht Hid Hh Hp. assert (answers id (Some (t, errorResponse id kInvalidParams (str "Invalid params: missing tool name") Null))) as Hmissing.
  { apply answers_at; [done|]. apply error_responds; try done. apply str_bytes_ok. }
  unfold callMethod. destruct params as [p|]; cbn [mbind option_bind]; [|done]. destruct (find p (str "name")) as [name|] eqn:Hn; [|done].
  apply field_ok in Hn as [Hn _]; [|done]. destruct (isString name); [|done]. destruct (hasTool t (asString name)) eqn:Hhas; cbn [negb].
  - set (args := match find p (str "arguments") with Some a => if isObject a then a else obj | None => obj end).
    assert (well_formed args) as Ha. { unfold args. destruct (find p (str "arguments")) as [a|] eqn:Hf; [|done]. apply field_ok in Hf as [Hf _]; [|done]. by destruct (isObject a). }
    destruct (callTool_ok t (asString name) args Ht Hhas Ha) as (t' & call & -> & Ht' & Hb). cbn [mbind option_bind]. apply answers_at; [done|]. apply result_responds; try done. by apply call_fits.
  - apply answers_at; [done|]. apply error_responds; try done. apply Forall_app. split; [apply str_bytes_ok|]. apply Forall_app. split; [by apply asString_bytes|apply str_bytes_ok].
Qed.

Lemma dispatch_answers (t : T) id method params modern : tools_ok t -> well_formed id -> height id <= kMaxJsonDepth - 1 -> bytes_ok method ->
  match params with Some p => well_formed p | None => True end -> answers id (dispatch t id method params modern).
Proof.
  intros Ht Hid Hh Hm Hp. unfold dispatch. destruct (method_is method "initialize"); [apply answers_at; [done|]; apply result_responds; try done; by apply initialize_fits|].
  destruct (method_is method "server/discover"); [apply answers_at; [done|]; apply result_responds; try done; apply discover_fits|].
  destruct (method_is method "ping"); [apply answers_at; [done|]; by apply result_responds|]. destruct (method_is method "tools/list").
  { destruct (listTools_ok t) as [Hl Hlh]. apply answers_at; [done|]. apply result_responds; try done. apply fits_set; [done|apply str_bytes_ok|done|done]. }
  destruct (method_is method "tools/call"); [by apply callMethod_answers|]. apply answers_at; [done|]. apply error_responds; try done. apply Forall_app. split; [apply str_bytes_ok|done].
Qed.

Lemma metaField_ok params k v : match params with Some p => well_formed p | None => True end -> metaField params k = Some v -> well_formed v.
Proof.
  intros Hp. unfold metaField. destruct params as [p|]; [|done]. cbn. destruct (find p _) as [m|] eqn:Hm; [|done]. cbn. apply field_ok in Hm as [Hm _]; [|done].
  intros H. by apply field_ok in H as [H _].
Qed.

Lemma refusal_responds id params declared out : well_formed id -> height id <= kMaxJsonDepth - 1 -> well_formed declared -> isString declared = true ->
  modernRefusal id params declared = Some out -> response id out.
Proof.
  intros Hid Hh Hd Hs. unfold modernRefusal. destruct (negb _).
  - intros Ho. apply (inj Some) in Ho. subst out. destruct declared; try done. apply error_responds; [done|done|apply str_bytes_ok| |done].
    repeat split; first [exact Hd | apply str_bytes_ok].
  - destruct (metaField _ _); [done|]. intros Ho. apply (inj Some) in Ho. subst out. apply error_responds; try done. apply Forall_app. split; apply str_bytes_ok.
Qed.

Lemma handleMessage_answers (t : T) m : tools_ok t -> well_formed (Object m) -> height (Object m) <= kMaxJsonDepth ->
  match find_member m (str "id") with
  | Some Null | None => handleMessage t (Object m) = Some (t, [])
  | Some id => answers id (handleMessage t (Object m))
  end.
Proof.
  intros Ht Hw Hh. assert (forall id, default Null (find_member m (str "id")) = id -> isNull id = true -> handleMessage t (Object m) = Some (t, [])) as Hquiet.
  { intros id Hid Hn. unfold handleMessage. cbn [find]. rewrite Hid, Hn. destruct (find_member m (str "method")) as [v|]; [|done]. by destruct (negb (isString v)). }
  destruct (find_member m (str "id")) as [id|] eqn:Hid; [|by apply (Hquiet Null)].
  pose proof (field_ok (Object m) (str "id") id Hw Hid) as [Hwid Hhid]. assert (height id <= kMaxJsonDepth - 1) as Hhid' by lia.
  destruct (isNull id) eqn:Hnn; [destruct id; try done; by apply (Hquiet Null)|]. clear Hquiet.
  assert (answers id (handleMessage t (Object m))) as H; [|by destruct id].
  unfold handleMessage. cbn [find]. rewrite Hid. change (default Null (Some id)) with id. cbv zeta. rewrite Hnn.
  assert (answers id (Some (t, errorResponse id kInvalidRequest (str "Invalid Request: missing method") Null))) as Hmissing by (apply answers_at; [done|]; apply error_responds; try done; apply str_bytes_ok).
  destruct (find_member m (str "method")) as [v|] eqn:Hv; [|done]. pose proof (field_ok (Object m) (str "method") v Hw Hv) as [Hwv _].
  destruct (negb (isString v)); [done|]. assert (match find_member m (str "params") with Some p => well_formed p | None => True end) as Hp.
  { destruct (find_member m (str "params")) as [p|] eqn:Hp; [|done]. by apply (field_ok (Object m) (str "params") p Hw Hp). }
  cbv zeta. destruct (metaField _ kMetaProtocolVersion) as [d|] eqn:Hd.
  - apply metaField_ok in Hd; [|done]. destruct (isString d) eqn:Hs.
    + change (default Null (Some d)) with d. destruct (modernRefusal _ _ _) as [out|] eqn:Hr; [by apply answers_at; [|eapply refusal_responds]|]. apply dispatch_answers; try done. by apply asString_bytes.
    + apply dispatch_answers; try done. by apply asString_bytes.
  - apply dispatch_answers; try done. by apply asString_bytes.
Qed.

Lemma handleLine_answers (t : T) (line : bytes) : tools_ok t -> bytes_ok line ->
  exists t' out, handleLine t line = Some (t', out) /\ tools_ok t' /\
    match awaits line with
    | None => out = [] /\ t' = t
    | Some id => response id out
    end.
Proof.
  intros Ht Hb. unfold handleLine, awaits. destruct (isBlank line); [by eexists _, _|]. destruct (parse_returns line) as [r Hr]. rewrite Hr. cbn [mbind option_bind].
  pose proof (parsed_ok line r Hb Hr) as Hok. destruct r as [v|e].
  - pose proof (parsed_height line v Hr) as Hh. destruct (isObject v) eqn:Ho; cbn [negb].
    + destruct v as [| | | | |m]; try done. pose proof (handleMessage_answers t m Ht Hok Hh) as H.
      destruct (find_member m (str "id")) as [[]|]; first [exact H | exists t, []; split; [exact H|]; split; [exact Ht|]; split; reflexivity].
    + eexists _, _. split; [done|]. split; [done|]. assert (response Null (errorResponse Null kInvalidRequest (str "Invalid Request: expected a JSON object") Null)) as H by (apply error_responds; try done; apply str_bytes_ok).
      destruct v; first [exact H | discriminate Ho].
  - eexists _, _. split; [done|]. split; [done|]. apply error_responds; try done. apply Forall_app. split; [apply str_bytes_ok|done].
Qed.

Lemma refused_answers (t : T) (line : bytes) code : bytes_ok line -> refusal line = Some code ->
  exists out, handleLine t line = Some (t, out) /\ answered_code out = Some (Number (Double.of_int64 code)).
Proof.
  intros Hb. unfold refusal, handleLine. destruct (isBlank line); [done|]. destruct (parse_returns line) as [r Hr]. rewrite Hr. cbn [mbind option_bind]. pose proof (parsed_ok line r Hb Hr) as Hok.
  destruct r as [v|e]; [destruct (isObject v) eqn:Ho; [by destruct v|]|]; intros E; cbn [negb]; (eexists; split; [done|]).
  - assert (code = kInvalidRequest) as -> by (by destruct v; simplify_eq/=). apply error_coded; [apply str_bytes_ok|by right].
  - apply (inj Some) in E as <-. apply error_coded; [apply Forall_app; split; [apply str_bytes_ok|done]|by left].
Qed.

End Theorems.

(** Tools that repeat their arguments. *)
#[local] Instance echo_tools : ToolProvider unit :=
  {| listTools := fun _ => Array []; hasTool := fun _ name => name =b? str "echo"; callTool := fun t _ args => Some (t, mkResult (serialise args) false) |}.

#[local] Instance echo_laws : ToolLaws unit.
Proof.
  refine {| tools_ok := fun _ => True |}; [intros t; by split|]. intros t name args _ _ Ha. eexists _, _. split; [done|]. split; [done|]. by apply one_line_bytes, serialise_one_line.
Defined.

Definition ping_line : bytes := str "{" ++ quoted "id" ++ str ":7," ++ quoted "method" ++ str ":" ++ quoted "ping" ++ str "}".


End Protocol.
