(* ===== verification/KafkaWriter.v ===== *)
(** * KafkaWriter: the writing half of the Kafka wire format

    [Writer] of [src/kafka/wire.h] and [src/kafka/wire.cpp]: each method is the
    bytes it appends to the buffer, and the two patch methods are the change
    they make to it. *)

From Stdlib Require Import ZArith Lia.
From stdpp Require Import base list numbers.
From S2P Require Import Prelude.

Module W.

Definition byte (v : Z) : Z := u8 (Z.land v 255).

Definition int8 (v : Z) : bytes := [u8 v].
Definition int16 (v : Z) : bytes := let u := u16 v in [byte (Z.shiftr u 8); byte u].
Definition uint32 (u : Z) : bytes :=
  [byte (Z.shiftr u 24); byte (Z.shiftr u 16); byte (Z.shiftr u 8); byte u].
Definition int32 (v : Z) : bytes := uint32 (u32 v).
Definition int64 (v : Z) : bytes :=
  let u := u64 v in map (fun i => byte (Z.shiftr u (i * 8))) [7; 6; 5; 4; 3; 2; 1; 0].

(** The loop of [varlong] runs at most nine times: [raw] has 64 bits and loses
    seven at each turn. *)
Fixpoint varlong_loop (fuel : nat) (raw : Z) : bytes :=
  match fuel with
  | O => [u8 raw]
  | S fuel =>
      if 128 <=? raw then u8 (Z.lor (Z.land raw 127) 128) :: varlong_loop fuel (Z.shiftr raw 7)
      else [u8 raw]
  end.

Definition zigzag (v : Z) : Z := Z.lxor (u64 (Z.shiftl (u64 v) 1)) (u64 (Z.shiftr v 63)).
Definition varlong (v : Z) : bytes := varlong_loop 9 (zigzag v).
Definition varint (v : Z) : bytes := varlong v.

Definition string (v : bytes) : bytes := int16 (i16 (Z.of_nat (length v))) ++ v.
Definition nullString : bytes := int16 (-1).
Definition nullableString (v : bytes) (is_null : bool) : bytes := if is_null then nullString else string v.
Definition bytes_ (v : bytes) : bytes := int32 (i32 (Z.of_nat (length v))) ++ v.
Definition nullBytes : bytes := int32 (-1).
Definition boolean (v : bool) : bytes := int8 (if v then 1 else 0).
Definition arrayLen (n : Z) : bytes := int32 n.

(** [patchUint32] on the whole buffer. *)
Definition patchUint32 (at_ : nat) (u : Z) (buf : bytes) : bytes := voverwrite at_ (uint32 u) buf.
Definition patchInt32 (at_ : nat) (v : Z) (buf : bytes) : bytes := patchUint32 at_ (u32 v) buf.

End W.
