(* ===== verification/KafkaWire.v ===== *)
(** * KafkaWire: the primitive types of the Kafka protocol

    [src/kafka/wire.h] and [src/kafka/wire.cpp]. The reader is a state: the
    bytes from its position on, the position, and the failure flag that every
    read past the end sets; its methods are state transformers. *)

From Stdlib Require Import ZArith Lia.
From stdpp Require Import base list numbers option strings.
From S2P Require Import Prelude KafkaWriter.

Module Wire.

(** ** [Reader] *)

Record Reader := mkReader { rest_ : bytes; pos_ : nat; ok_ : bool }.

Definition reader (buf : bytes) : Reader := mkReader buf 0 true.
Definition remaining (r : Reader) : nat := if ok_ r then length (rest_ r) else 0%nat.

(** A method of [Reader]: its result and the reader afterwards. *)
Definition rd (A : Type) : Type := Reader -> A * Reader.

Definition ret {A} (a : A) : rd A := fun r => (a, r).
Definition bind {A B} (m : rd A) (k : A -> rd B) : rd B := fun r => let '(a, r) := m r in k a r.

Declare Scope rd_scope.
Delimit Scope rd_scope with rd.
Notation "x <- m ;; k" := (bind m (fun x => k)) (at level 100, m at next level, right associativity) : rd_scope.
Notation "m ;;; k" := (bind m (fun _ => k)) (at level 100, right associativity) : rd_scope.
#[global] Open Scope rd_scope.

Definition get_ok : rd bool := fun r => (ok_ r, r).
Definition get_remaining : rd nat := fun r => (remaining r, r).
Definition fail : rd unit := fun r => (tt, mkReader (rest_ r) (pos_ r) false).

Definition need (n : nat) : rd bool := fun r =>
  if negb (ok_ r) then (false, r)
  else if (length (rest_ r) <? n)%nat then (false, mkReader (rest_ r) (pos_ r) false)
  else (true, r).

(** The next [n] bytes; only used behind [need n]. *)
Definition advance (n : nat) : rd bytes := fun r =>
  (take n (rest_ r), mkReader (drop n (rest_ r)) (pos_ r + n) (ok_ r)).

Definition int8 : rd Z :=
  b <- need 1;; if b : bool then p <- advance 1;; ret (i8 (p !!! 0%nat)) else ret 0.

Definition int16 : rd Z :=
  b <- need 2;;
  if b : bool then p <- advance 2;; ret (i16 (Z.lor (Z.shiftl (p !!! 0%nat) 8) (p !!! 1%nat))) else ret 0.

Definition uint32 : rd Z :=
  b <- need 4;;
  if b : bool then
    p <- advance 4;;
    ret (Z.lor (Z.lor (Z.lor (Z.shiftl (p !!! 0%nat) 24) (Z.shiftl (p !!! 1%nat) 16))
                      (Z.shiftl (p !!! 2%nat) 8)) (p !!! 3%nat))
  else ret 0.

Definition int32 : rd Z := v <- uint32;; ret (i32 v).

Definition int64 : rd Z :=
  b <- need 8;;
  if b : bool then
    p <- advance 8;; ret (i64 (foldl (fun v c => u64 (Z.lor (Z.shiftl v 8) c)) 0 p))
  else ret 0.

(** [true]: the loop broke out with [raw]. Ten turns are all it can take: the
    eleventh would have [shift] at 70. *)
Fixpoint varlong_loop (fuel : nat) (raw shift : Z) : rd (option Z) :=
  match fuel with
  | O => ret None
  | S fuel =>
      b <- need 1;;
      if b : bool then
        p <- advance 1;;
        let byte := p !!! 0%nat in
        let raw := Z.lor raw (u64 (Z.shiftl (Z.land byte 127) shift)) in
        if Z.land byte 128 =? 0 then ret (Some raw)
        else if 63 <? shift + 7 then fail;;; ret None
        else varlong_loop fuel raw (shift + 7)
      else ret None
  end.

Definition varlong : rd Z :=
  raw <- varlong_loop 10 0 0;;
  match raw with
  | None => ret 0
  | Some raw => ret (Z.lxor (i64 (Z.shiftr raw 1)) (- Z.land raw 1))
  end.

Definition varint : rd Z :=
  v <- varlong;;
  if (v <? - 2 ^ 31) || (2 ^ 31 - 1 <? v) then fail;;; ret 0 else ret v.

(** A length-prefixed payload; [None] is the "false" of the methods below. *)
Definition payload (len : Z) : rd (option bytes) :=
  ok <- get_ok;;
  if negb ok || (len <? 0) then ret None
  else
    b <- need (Z.to_nat len);;
    if b : bool then p <- advance (Z.to_nat len);; ret (Some p) else ret None.

Definition nullableString : rd (option bytes) := len <- int16;; payload len.
Definition string : rd bytes := s <- nullableString;; ret (default [] s).
Definition nullableBytes : rd (option bytes) := len <- int32;; payload len.

Definition arrayLen : rd (Z * bool) :=
  n <- int32;;
  if n <? 0 then ret (0, true)
  else
    left <- get_remaining;;
    if Z.of_nat left <? n then fail;;; ret (0, false) else ret (n, false).

Definition skip (n : nat) : rd unit :=
  b <- need n;; if b : bool then advance n;;; ret tt else ret tt.

Definition takeView (n : nat) : rd (option bytes) :=
  b <- need n;; if b : bool then p <- advance n;; ret (Some p) else ret None.

(** [None]: the method returned false. [Some None]: null. *)
Definition varintBytes : rd (option (option bytes)) :=
  len <- varint;;
  ok <- get_ok;;
  if negb ok then ret None
  else if len <? 0 then ret (Some None)
  else v <- takeView (Z.to_nat len);; ret (Some <$> v).

(** ** The request header *)

Record RequestHeader := mkHeader { api_key : Z; api_version : Z; correlation_id : Z; client_id : bytes }.

Definition parseRequestHeader : rd (option RequestHeader) :=
  key <- int16;;
  version <- int16;;
  corr <- int32;;
  client <- nullableString;;
  ok <- get_ok;;
  ret (if ok : bool then Some (mkHeader key version corr (default [] client)) else None).

Example sample_varlong :
  W.varlong (-3) = [5] /\ W.varlong 300 = [216; 4] /\ varlong (reader (W.varlong (- 2 ^ 63))) = (- 2 ^ 63, mkReader [] 10 true).
Proof. vm_compute. done. Qed.

(** ** Reading back what was written *)

(** [m] consumes exactly the bytes [w] and returns [a], whatever follows. *)
Definition reads {A} (m : rd A) (w : bytes) (a : A) : Prop :=
  forall rest pos, m (mkReader (w ++ rest) pos true) = (a, mkReader rest (pos + length w) true).

Lemma reads_ret {A} (a : A) : reads (ret a) [] a.
Proof. intros rest pos. unfold ret. cbn [app length]. by rewrite Nat.add_0_r. Qed.

Lemma reads_bind {A B} (m : rd A) (k : A -> rd B) w1 w2 a b :
  reads m w1 a -> reads (k a) w2 b -> reads (bind m k) (w1 ++ w2) b.
Proof.
  intros H1 H2 rest pos. unfold bind. rewrite <- app_assoc, H1, H2, length_app. do 2 f_equal. lia.
Qed.

Lemma reads_bind_nil {A B} (m : rd A) (k : A -> rd B) w a b :
  reads m [] a -> reads (k a) w b -> reads (bind m k) w b.
Proof. intros H1 H2. apply (reads_bind m k [] w a b H1 H2). Qed.

Lemma reads_bind_last {A B} (m : rd A) (k : A -> rd B) w a b :
  reads m w a -> reads (k a) [] b -> reads (bind m k) w b.
Proof. intros H1 H2. rewrite <- (app_nil_r w). by apply (reads_bind m k w [] a b). Qed.

Lemma reads_get_ok : reads get_ok [] true.
Proof. intros rest pos. unfold get_ok. cbn [app length ok_]. by rewrite Nat.add_0_r. Qed.

Lemma reads_need_advance {A} n w (k : bytes -> rd A) (z a : A) :
  length w = n -> reads (k w) [] a ->
  reads (b <- need n;; if b : bool then p <- advance n;; k p else ret z) w a.
Proof.
  intros Hl Hk rest pos. unfold bind, need, advance. cbn [ok_ rest_ pos_ negb].
  destruct (Nat.ltb_spec (length (w ++ rest)) n); [rewrite length_app in *; lia|]. cbn [ok_ rest_ pos_].
  subst n. rewrite take_app_length, drop_app_length. specialize (Hk rest (pos + length w)%nat).
  cbn [app length] in Hk. by rewrite Hk, Nat.add_0_r.
Qed.

Lemma byte_shiftr u i : 0 <= i -> W.byte (Z.shiftr u i) = (u / 2 ^ i) mod 256.
Proof. intros. unfold W.byte. by rewrite u8_land_shiftr. Qed.

Lemma byte_low u : W.byte u = u mod 256.
Proof. rewrite <- (Z.shiftr_0_r u) at 1. by rewrite byte_shiftr, Z.div_1_r. Qed.

Lemma reads_int8 v : s_range 8 v -> reads int8 (W.int8 v) v.
Proof.
  intros Hv. unfold int8. apply reads_need_advance; [done|].
  unfold W.int8. cbn [lookup_total list_lookup_total]. rewrite swrap_uwrap by done. apply reads_ret.
Qed.

Lemma reads_int16 v : s_range 16 v -> reads int16 (W.int16 v) v.
Proof.
  intros Hv. unfold int16. apply reads_need_advance; [done|]. unfold W.int16. cbn [lookup_total list_lookup_total].
  rewrite byte_shiftr, byte_low by lia. pose proof (uwrap_range 16 v ltac:(lia)) as Hu. unfold u_range in Hu.
  rewrite land_low_shiftl by (try lia; apply Z.mod_pos_bound; lia).
  replace (_ + _) with (u16 v); [rewrite swrap_uwrap by done; apply reads_ret|].
  change (2 ^ 16) with 65536 in Hu. change (2 ^ 8) with 256. dmlia.
Qed.

Lemma reads_uint32 u : is_u32 u -> reads uint32 (W.uint32 u) u.
Proof.
  intros Hu. unfold uint32. apply reads_need_advance; [done|]. unfold W.uint32. cbn [lookup_total list_lookup_total].
  rewrite !byte_shiftr, byte_low by lia. unfold u_range in Hu. change (2 ^ 32) with 4294967296 in Hu.
  change (2 ^ 24) with 16777216. change (2 ^ 16) with 65536. change (2 ^ 8) with 256.
  rewrite <- !Z.lor_assoc.
  rewrite (land_low_shiftl (u mod 256)) by (change (2 ^ 8) with 256; dmlia).
  rewrite (land_low_shiftl (_ + _)) by (change (2 ^ 16) with 65536; change (2 ^ 8) with 256; dmlia).
  rewrite (land_low_shiftl (_ + _)) by
    (change (2 ^ 24) with 16777216; change (2 ^ 16) with 65536; change (2 ^ 8) with 256; dmlia).
  replace (_ + _ + _ + _) with u; [apply reads_ret|].
  change (2 ^ 24) with 16777216; change (2 ^ 16) with 65536; change (2 ^ 8) with 256. dmlia.
Qed.

Lemma reads_int32 v : s_range 32 v -> reads int32 (W.int32 v) v.
Proof.
  intros Hv. unfold int32, W.int32. apply reads_bind_last with (u32 v); [apply reads_uint32, uwrap_range; lia|].
  rewrite swrap_uwrap by done. apply reads_ret.
Qed.

Lemma be_val_snoc bs c : be_val (bs ++ [c]) = be_val bs * 256 + c.
Proof. unfold be_val. rewrite rev_app_distr. simpl. lia. Qed.

Lemma fold_be bs :
  bytes_ok bs -> (length bs <= 8)%nat ->
  foldl (fun v c => u64 (Z.lor (Z.shiftl v 8) c)) 0 bs = be_val bs.
Proof.
  induction bs as [|c bs IH] using rev_ind; [done|]. intros Hb Hl.
  apply Forall_app in Hb as [Hb Hc]. apply Forall_inv in Hc. rewrite length_app in Hl. cbn [length] in Hl.
  rewrite foldl_app, IH by (done || lia). cbn [foldl].
  unfold u_range in Hc. rewrite land_low_shiftl by (try lia; exact Hc). rewrite be_val_snoc.
  change (2 ^ 8) with 256 in *. rewrite uwrap_small; [lia|].
  unfold be_val. pose proof (le_val_range (rev bs) ltac:(by apply Forall_rev)) as Hr. unfold u_range in *.
  rewrite length_rev in Hr.
  assert (2 ^ (8 * Z.of_nat (length bs)) <= 2 ^ 56) by (apply Z.pow_le_mono_r; lia).
  change (2 ^ 64) with (2 ^ 56 * 256). nia.
Qed.

Lemma int64_bytes v : W.int64 v = be_bytes 8 (u64 v).
Proof. unfold be_bytes. rewrite <- push_le_bytes. reflexivity. Qed.

Lemma reads_int64 v : is_i64 v -> reads int64 (W.int64 v) v.
Proof.
  intros Hv. unfold int64. apply reads_need_advance; [done|].
  rewrite int64_bytes, fold_be by (rewrite ?length_be_bytes; auto using be_bytes_ok). rewrite be_val_bytes.
  change (8 * Z.of_nat 8) with 64. rewrite swrap_mod, swrap_uwrap by done. apply reads_ret.
Qed.

(** ** Variable-length integers *)

Lemma varlong_byte_last raw : 0 <= raw < 128 -> Z.land (u8 raw) 127 = raw /\ Z.land (u8 raw) 128 = 0.
Proof.
  intros Hr. rewrite uwrap_small by (unfold u_range; lia).
  split; [byte_eqb 128%nat raw|byte_eqb 128%nat raw].
Qed.

Lemma varlong_byte_more raw :
  0 <= raw -> Z.land (u8 (Z.lor (Z.land raw 127) 128)) 127 = raw mod 128 /\
  (Z.land (u8 (Z.lor (Z.land raw 127) 128)) 128 =? 0) = false.
Proof.
  intros Hr. rewrite (land_127 raw). assert (0 <= raw mod 128 < 128) as Hm by dmlia. revert Hm.
  generalize (raw mod 128). intros m Hm. split; [byte_eqb 128%nat m|byte_eqb 128%nat m].
Qed.

(** Seven more bits, above the ones read so far. *)
Lemma or_group a b n :
  0 <= n -> 0 <= a < 2 ^ n -> 0 <= b * 2 ^ n < 2 ^ 64 -> Z.lor a (u64 (Z.shiftl b n)) = a + b * 2 ^ n.
Proof.
  intros Hn Ha Hb. rewrite uwrap_small; [by apply lor_shiftl|]. by rewrite shiftl_mul.
Qed.

(** With [f] bytes still allowed, what is written from a raw value is read
    back above the bits read so far. *)
Lemma reads_varlong_loop f raw acc :
  (f <= 9)%nat -> 0 <= raw < 2 ^ (1 + 7 * Z.of_nat f) -> 0 <= acc < 2 ^ (63 - 7 * Z.of_nat f) ->
  reads (varlong_loop (S f) acc (63 - 7 * Z.of_nat f)) (W.varlong_loop f raw)
    (Some (acc + raw * 2 ^ (63 - 7 * Z.of_nat f))).
Proof.
  revert raw acc. induction f as [|f IH]; intros raw acc Hf Hr Ha.
  - cbn [W.varlong_loop varlong_loop]. apply reads_need_advance; [done|]. cbn [lookup_total list_lookup_total].
    change (2 ^ (1 + 7 * Z.of_nat 0)) with 2 in Hr. change (63 - 7 * Z.of_nat 0) with 63 in *.
    destruct (varlong_byte_last raw) as [-> ->]; [lia|]. cbn [Z.eqb].
    rewrite or_group by lia. apply reads_ret.
  - set (sh := 63 - 7 * Z.of_nat (S f)) in *. assert (0 <= sh) by lia.
    assert (2 ^ 64 = 2 ^ (1 + 7 * Z.of_nat (S f)) * 2 ^ sh) as H64.
    { rewrite <- Z.pow_add_r by lia. f_equal. lia. }
    cbn [W.varlong_loop]. destruct (Z.leb_spec 128 raw).
    + intros rest pos. remember (S f) as g eqn:Hg in |- *. cbn [varlong_loop app]. unfold bind at 1, need at 1. cbn [ok_ rest_ pos_ negb length].
      change (S _ <? 1)%nat with false. cbv iota. unfold bind at 1, advance at 1. cbn [ok_ rest_ pos_ take drop lookup_total list_lookup_total].
      destruct (varlong_byte_more raw) as [-> ->]; [lia|].
      destruct (Z.ltb_spec 63 (sh + 7)) as [|_]; [lia|].
      assert (0 <= raw mod 128 < 2 ^ 7) by (change (2 ^ 7) with 128; dmlia).
      assert (0 <= raw mod 128 * 2 ^ sh < 2 ^ (sh + 7)) by (rewrite Z.pow_add_r by lia; nia).
      assert (2 ^ (sh + 7) <= 2 ^ 63) by (apply Z.pow_le_mono_r; lia).
      rewrite or_group by lia.
      replace (sh + 7) with (63 - 7 * Z.of_nat f) in * by lia.
      rewrite shiftr_div by lia. subst g. rewrite drop_0.
      rewrite (IH (raw / 2 ^ 7) _ ltac:(lia)).
      * cbn [length]. f_equal; [|f_equal; lia]. f_equal.
        replace (63 - 7 * Z.of_nat f) with (sh + 7) by lia. rewrite Z.pow_add_r by lia.
        change (2 ^ 7) with 128. rewrite (Z.div_mod raw 128) at 3 by lia. ring.
      * split; [dmlia|]. apply Z.div_lt_upper_bound; [lia|]. rewrite <- Z.pow_add_r by lia.
        replace (7 + (1 + 7 * Z.of_nat f)) with (1 + 7 * Z.of_nat (S f)) by lia. lia.
      * split; [lia|]. replace (63 - 7 * Z.of_nat f) with (sh + 7) by lia. rewrite Z.pow_add_r by lia.
        change (2 ^ 7) with 128 in *. nia.
    + cbn [varlong_loop]. apply reads_need_advance; [done|]. cbn [lookup_total list_lookup_total].
      destruct (varlong_byte_last raw) as [-> ->]; [lia|]. cbn [Z.eqb].
      rewrite or_group by nia. apply reads_ret.
Qed.

Lemma lxor_ones a n : 0 <= n -> 0 <= a < 2 ^ n -> Z.lxor a (Z.ones n) = 2 ^ n - 1 - a.
Proof.
  intros Hn Ha. pose proof (Z.sub_2landn_lxor a (Z.ones n)) as H.
  rewrite <- Z.ldiff_land, Z.ldiff_ones_r, shiftr_div, Z.div_small, Z.shiftl_0_l, Z.ones_equiv in H by lia.
  rewrite Z.ones_equiv. lia.
Qed.

Lemma zigzag_value v : is_i64 v -> W.zigzag v = if 0 <=? v then 2 * v else - 2 * v - 1.
Proof.
  unfold s_range, W.zigzag. change (64 - 1) with 63. intros Hv.
  rewrite shiftr_div, shiftl_mul by lia. destruct (Z.leb_spec 0 v).
  - rewrite (Z.div_small v) by lia. rewrite (uwrap_small 64 v) by (unfold u_range; lia).
    rewrite !uwrap_small by (unfold u_range; lia). rewrite Z.lxor_0_r. lia.
  - replace (v / 2 ^ 63) with (-1) by dmlia. change (u64 (-1)) with (Z.ones 64).
    assert (u64 v = v + 2 ^ 64) as -> by (unfold uwrap; dmlia).
    assert (u64 ((v + 2 ^ 64) * 2 ^ 1) = 2 * v + 2 ^ 64) as -> by (unfold uwrap; change (2 ^ 1) with 2; dmlia).
    rewrite lxor_ones by lia. lia.
Qed.

Lemma unzigzag raw :
  0 <= raw < 2 ^ 64 -> Z.lxor (i64 (Z.shiftr raw 1)) (- Z.land raw 1) = if Z.even raw then raw / 2 else - (raw / 2) - 1.
Proof.
  intros Hr. rewrite shiftr_div, swrap_small by (unfold s_range; change (2 ^ 1) with 2; dmlia || lia).
  change 1 with (Z.ones 1) at 2. rewrite Z.land_ones by lia. change (2 ^ 1) with 2.
  rewrite Zeven_mod. destruct (Z.eqb_spec (raw mod 2) 0) as [->|Hm].
  - apply Z.lxor_0_r.
  - replace (raw mod 2) with 1 by dmlia. rewrite Z.lxor_m1_r. unfold Z.lnot. lia.
Qed.

Lemma reads_varlong v : is_i64 v -> reads varlong (W.varlong v) v.
Proof.
  intros Hv. assert (0 <= W.zigzag v < 2 ^ 64) as Hz.
  { rewrite zigzag_value by done. unfold s_range in Hv. change (64 - 1) with 63 in Hv. case_if; bools; lia. }
  unfold varlong, W.varlong. apply reads_bind_last with (Some (W.zigzag v)).
  - pose proof (reads_varlong_loop 9 (W.zigzag v) 0 ltac:(lia) Hz ltac:(simpl; lia)) as H.
    change (63 - 7 * Z.of_nat 9) with 0 in H. by rewrite Z.mul_1_r in H.
  - rewrite unzigzag by done. rewrite zigzag_value by done. unfold s_range in Hv.
    destruct (Z.leb_spec 0 v).
    + rewrite Z.even_mul. cbn [Z.even orb]. replace (2 * v / 2) with v by dmlia. apply reads_ret.
    + replace (- 2 * v - 1) with (1 + (- v - 1) * 2) by lia. rewrite Z.even_add, Z.even_mul.
      cbn [Z.even eqb orb]. rewrite orb_true_r. cbn [eqb].
      replace (- ((1 + (- v - 1) * 2) / 2) - 1) with v by dmlia. apply reads_ret.
Qed.

Lemma reads_varint v : s_range 32 v -> reads varint (W.varint v) v.
Proof.
  intros Hv. unfold varint, W.varint. unfold s_range in Hv. change (32 - 1) with 31 in Hv.
  apply reads_bind_last with v; [apply reads_varlong; unfold s_range; lia|].
  rewrite (proj2 (Z.ltb_ge v (- 2 ^ 31))), (proj2 (Z.ltb_ge (2 ^ 31 - 1) v)) by lia. apply reads_ret.
Qed.

(** ** Strings and byte blocks *)

Lemma reads_payload v len : len = Z.of_nat (length v) -> reads (payload len) v (Some v).
Proof.
  intros ->. unfold payload. apply reads_bind_nil with true; [apply reads_get_ok|]. cbn [negb orb].
  rewrite (proj2 (Z.ltb_ge _ 0)) by lia. rewrite Nat2Z.id. apply reads_need_advance; [done|]. apply reads_ret.
Qed.

Lemma reads_payload_null : reads (payload (-1)) [] None.
Proof. unfold payload. apply reads_bind_nil with true; [apply reads_get_ok|]. apply reads_ret. Qed.

Lemma reads_string v : Z.of_nat (length v) < 2 ^ 15 -> reads nullableString (W.string v) (Some v).
Proof.
  intros Hl. unfold nullableString, W.string. rewrite swrap_small by (unfold s_range; lia).
  apply reads_bind with (Z.of_nat (length v)); [apply reads_int16; unfold s_range; lia|by apply reads_payload].
Qed.

Lemma reads_nullString : reads nullableString W.nullString None.
Proof. apply reads_bind_last with (-1); [by apply reads_int16|apply reads_payload_null]. Qed.

Lemma reads_bytes v : Z.of_nat (length v) < 2 ^ 31 -> reads nullableBytes (W.bytes_ v) (Some v).
Proof.
  intros Hl. unfold nullableBytes, W.bytes_. rewrite swrap_small by (unfold s_range; lia).
  apply reads_bind with (Z.of_nat (length v)); [apply reads_int32; unfold s_range; lia|by apply reads_payload].
Qed.

Lemma reads_nullBytes : reads nullableBytes W.nullBytes None.
Proof. apply reads_bind_last with (-1); [by apply reads_int32|apply reads_payload_null]. Qed.

Lemma reads_takeView v n : n = length v -> reads (takeView n) v (Some v).
Proof. intros ->. unfold takeView. apply reads_need_advance; [done|]. apply reads_ret. Qed.

Lemma reads_varintBytes v :
  Z.of_nat (length v) < 2 ^ 31 -> reads varintBytes (W.varint (Z.of_nat (length v)) ++ v) (Some (Some v)).
Proof.
  intros Hl. unfold varintBytes. apply reads_bind with (Z.of_nat (length v)); [apply reads_varint; unfold s_range; lia|].
  apply reads_bind_nil with true; [apply reads_get_ok|]. cbn [negb].
  rewrite (proj2 (Z.ltb_ge _ 0)) by lia. rewrite Nat2Z.id.
  apply reads_bind_last with (Some v); [by apply reads_takeView|]. apply reads_ret.
Qed.

Lemma reads_varintBytes_null : reads varintBytes (W.varint (-1)) (Some None).
Proof.
  unfold varintBytes. apply reads_bind_last with (-1); [by apply reads_varint|].
  apply reads_bind_nil with true; [apply reads_get_ok|]. apply reads_ret.
Qed.

(** every primitive of the Kafka wire format is read back exactly as it
    was written, at every value of its type, and the reader stops at the first
    byte after it: fixed-width big-endian integers, zigzag varints over the
    whole 32- and 64-bit ranges, strings, byte blocks and their nulls. *)
Theorem wire_round_trip :
  (forall v, s_range 8 v -> reads int8 (W.int8 v) v) /\
  (forall v, s_range 16 v -> reads int16 (W.int16 v) v) /\
  (forall v, s_range 32 v -> reads int32 (W.int32 v) v) /\
  (forall v, is_u32 v -> reads uint32 (W.uint32 v) v) /\
  (forall v, is_i64 v -> reads int64 (W.int64 v) v) /\
  (forall v, is_i64 v -> reads varlong (W.varlong v) v /\ (length (W.varlong v) <= 10)%nat) /\
  (forall v, s_range 32 v -> reads varint (W.varint v) v) /\
  (forall v, Z.of_nat (length v) < 2 ^ 15 -> reads nullableString (W.nullableString v false) (Some v)) /\
  (forall v, reads nullableString (W.nullableString v true) None) /\
  (forall v, Z.of_nat (length v) < 2 ^ 31 -> reads nullableBytes (W.bytes_ v) (Some v)) /\
  reads nullableBytes W.nullBytes None.
Proof.
  assert (forall f raw, (length (W.varlong_loop f raw) <= S f)%nat) as Hlen.
  { induction f as [|f IH]; intros raw; cbn [W.varlong_loop]; [done|]. case_if; cbn [length]; [|lia].
    specialize (IH (Z.shiftr raw 7)). lia. }
  split; [exact reads_int8|]. split; [exact reads_int16|]. split; [exact reads_int32|]. split; [exact reads_uint32|].
  split; [exact reads_int64|]. split; [split; [by apply reads_varlong|apply Hlen]|]. split; [exact reads_varint|].
  split; [exact reads_string|]. split; [intros; apply reads_nullString|]. split; [exact reads_bytes|].
  exact reads_nullBytes.
Qed.

Lemma wire_round_trip_witness : reads int16 (W.int16 (-2)) (-2) /\ reads varint (W.varint 300) 300.
Proof.
  destruct wire_round_trip as (_ & H16 & _ & _ & _ & _ & Hv & _). split; [apply H16|apply Hv]; decide_now.
Defined.

(** ** Safety of the reader *)

(** A method only moves forward inside the buffer, and does nothing at all to
    a reader that has failed. *)
Definition safe {A} (m : rd A) : Prop :=
  forall r, let r' := (m r).2 in
  (exists pre, rest_ r = pre ++ rest_ r' /\ pos_ r' = (pos_ r + length pre)%nat) /\
  (ok_ r = false -> r' = r) .

Lemma safe_ret {A} (a : A) : safe (ret a).
Proof. intros r. split; [|done]. exists []. split; [done|]. cbn [snd ret length]. lia. Qed.

Lemma safe_bind {A B} (m : rd A) (k : A -> rd B) : safe m -> (forall a, safe (k a)) -> safe (bind m k).
Proof.
  intros Hm Hk r. unfold bind. destruct (m r) as [a r1] eqn:E. specialize (Hm r). rewrite E in Hm.
  cbn [snd] in Hm. destruct Hm as [(pre & He & Hp) Hf]. destruct (Hk a r1) as [(pre' & He' & Hp') Hf'].
  split.
  - exists (pre ++ pre'). split; [by rewrite He, He', <- app_assoc|]. rewrite Hp', Hp, length_app. lia.
  - intros Hok. specialize (Hf Hok). subst r1. by apply Hf'.
Qed.

Lemma safe_get {A} (f : Reader -> A) : safe (fun r => (f r, r)).
Proof. intros r. split; [|done]. exists []. split; [done|]. cbn [snd length]. lia. Qed.

Lemma safe_fail : safe fail.
Proof.
  intros r. split; [exists []; split; [done|cbn; lia]|]. intros H. destruct r. cbn in *. by subst.
Qed.

Lemma safe_need_advance {A} n (k : bytes -> rd A) (z : A) :
  (forall p, safe (k p)) -> safe (b <- need n;; if b : bool then p <- advance n;; k p else ret z).
Proof.
  intros Hk r. unfold bind at 1, need. destruct (ok_ r) eqn:Hok; cbn [negb].
  - destruct (Nat.ltb_spec (length (rest_ r)) n).
    + split; [exists []; split; [done|cbn; lia]|]. done.
    + unfold bind, advance. destruct (Hk (take n (rest_ r)) (mkReader (drop n (rest_ r)) (pos_ r + n) (ok_ r)))
        as [(pre & He & Hp) _]. cbn [rest_ pos_] in *. split; [|done].
      exists (take n (rest_ r) ++ pre). rewrite <- app_assoc, <- He, take_drop. split; [done|].
      rewrite Hp, length_app, length_take. lia.
  - split; [exists []; split; [done|cbn; lia]|]. done.
Qed.

Ltac safely :=
  repeat first
    [ apply safe_ret | apply safe_fail | apply safe_need_advance; intros ?
    | apply safe_bind; [|intros ?] | apply (safe_get ok_) | apply (safe_get remaining)
    | progress cbv zeta | case_if | match goal with |- safe (match ?o with _ => _ end) => destruct o end ].

Lemma safe_varlong_loop fuel raw sh : safe (varlong_loop fuel raw sh).
Proof.
  revert raw sh. induction fuel as [|fuel IH]; intros raw sh; cbn [varlong_loop]; [apply safe_ret|].
  safely. apply IH.
Qed.

(** the reader is memory-safe and its failure is sticky: every method,
    composite ones included, leaves the position inside the buffer and never
    moves it back, and once a read has failed no later method consumes
    anything or clears the failure, so a caller may decode a whole request and
    check [ok()] once. *)
Theorem reader_safe :
  safe int8 /\ safe int16 /\ safe uint32 /\ safe int32 /\ safe int64 /\ safe varlong /\ safe varint /\
  safe string /\ safe nullableString /\ safe nullableBytes /\ safe arrayLen /\ (forall n, safe (skip n)) /\
  (forall n, safe (takeView n)) /\ safe varintBytes /\ safe parseRequestHeader.
Proof.
  assert (safe int8) by (unfold int8; safely).
  assert (safe int16) by (unfold int16; safely).
  assert (safe uint32) by (unfold uint32; safely).
  assert (safe int32) by (unfold int32; safely; done).
  assert (safe int64) by (unfold int64; safely).
  assert (safe varlong) by (unfold varlong; safely; apply safe_varlong_loop).
  assert (safe varint) by (unfold varint; safely; done).
  assert (forall len, safe (payload len)) by (intros; unfold payload; safely).
  assert (safe nullableString) by (unfold nullableString; safely; auto).
  assert (forall n, safe (takeView n)) by (intros; unfold takeView; safely).
  repeat match goal with |- _ /\ _ => split end; intros; try done.
  - unfold string; safely; done.
  - unfold nullableBytes; safely; auto.
  - unfold arrayLen; safely; done.
  - unfold skip; safely.
  - unfold varintBytes; safely; auto.
  - unfold parseRequestHeader; safely; done.
Qed.

End Wire.
