(* ===== verification/KafkaRecords.v ===== *)
(** * KafkaRecords: record batches and the stored form of a record

    [src/kafka/records.h] and [src/kafka/records.cpp]: the v2 record batch a
    producer sends and a consumer fetches, with its CRC-32C, and the private
    encoding of one record as one element of the partition's list. *)

From Stdlib Require Import ZArith Lia.
From stdpp Require Import base list numbers option strings.
From S2P Require Import Prelude KafkaWriter KafkaWire.
Import Wire.

Module Records.

Inductive ErrorCode :=
  | None_ | OffsetOutOfRange | UnknownTopicOrPartition | UnsupportedVersion | InvalidRequest
  | KafkaStorageError | UnsupportedCompression.

(** ** CRC-32C *)

Definition crc_bit (crc : Z) : Z :=
  if Z.land crc 1 =? 0 then Z.shiftr crc 1 else Z.lxor (Z.shiftr crc 1) 0x82f63b78.

Definition makeCrc32cTable : list Z :=
  map (fun i => Nat.iter 8 crc_bit (Z.of_nat i)) (seq 0 256).

Definition kCrc32cTable : list Z := Eval vm_compute in makeCrc32cTable.

Definition crc_step (crc b : Z) : Z :=
  Z.lxor (kCrc32cTable !!! Z.to_nat (Z.land (Z.lxor crc b) 255)) (Z.shiftr crc 8).

(** [~crc] on 32 bits. *)
Definition not32 (crc : Z) : Z := Z.lxor crc 0xffffffff.

Definition crc32c (crc : Z) (data : bytes) : Z := not32 (foldl crc_step (not32 crc) data).

Example crc32c_check : crc32c 0 (str "123456789") = 0xe3069283.
Proof. vm_compute. reflexivity. Qed.

(** ** Records *)

Record RecordHeader := mkRecordHeader { h_key : bytes; h_value : bytes; h_value_null : bool }.

Record Record_ := mkRecord {
  offset : Z; timestamp : Z;
  key : bytes; key_null : bool;
  value : bytes; value_null : bool;
  headers : list RecordHeader }.

Definition kMagicV2 : Z := 2.
Definition kCompressionMask : Z := 7.
Definition kBatchHeaderSize : nat := 61.
Definition kCrcCoverageStart : nat := 21.

(** ** Decoding batches *)

(** The header loop of one record; [None] is the return of [InvalidRequest]. *)
Fixpoint decodeHeaders (n : nat) (acc : list RecordHeader) : rd (option (list RecordHeader)) :=
  match n with
  | O => ret (Some acc)
  | S n =>
      k <- varintBytes;;
      match k with
      | Some (Some hkey) =>
          v <- varintBytes;;
          match v with
          | None => ret None
          | Some hv => decodeHeaders n (acc ++ [mkRecordHeader hkey (default [] hv) (negb (is_some hv))])
          end
      | _ => ret None
      end
  end.

(** One record, from its own sub-reader. The sum of the timestamps is not
    wrapped: one that leaves the range of 64 bits stands for the overflow of a
    signed addition, which is undefined. *)
Definition decodeRecord (base_timestamp : Z) : rd (option Record_) :=
  int8;;;
  dt <- varlong;;
  varint;;;
  k <- varintBytes;;
  match k with
  | None => ret None
  | Some k =>
      v <- varintBytes;;
      match v with
      | None => ret None
      | Some v =>
          header_count <- varint;;
          ok <- get_ok;;
          left <- get_remaining;;
          if negb ok || (header_count <? 0) || (Z.of_nat left <? header_count) then ret None
          else
            hs <- decodeHeaders (Z.to_nat header_count) [];;
            match hs with
            | None => ret None
            | Some hs =>
                ok <- get_ok;;
                ret (if ok : bool then
                  Some (mkRecord 0 (base_timestamp + dt) (default [] k) (negb (is_some k))
                          (default [] v) (negb (is_some v)) hs)
                else None)
            end
      end
  end.

(** The record loop over the record area. A record takes at least its length
    byte, so as many turns as the area has bytes are enough. *)
Fixpoint decodeRecords (fuel : nat) (base_timestamp count : Z) (area : Reader) (out : list Record_)
    : bool * list Record_ :=
  if count <=? 0 then (ok_ area, out)
  else
    match fuel with
    | O => (false, out)
    | S fuel =>
        let '(rec_len, area) := varint area in
        if negb (ok_ area) || (rec_len <? 0) then (false, out)
        else
          let '(rec_bytes, area) := takeView (Z.to_nat rec_len) area in
          match rec_bytes with
          | None => (false, out)
          | Some rec_bytes =>
              match (decodeRecord base_timestamp (reader rec_bytes)).1 with
              | None => (false, out)
              | Some r => decodeRecords fuel base_timestamp (count - 1) area (out ++ [r])
              end
          end
    end.

(** The fixed-width fields after the CRC: the base timestamp and the count. *)
Definition decodeBatchFields : rd (Z * Z) :=
  int32;;;
  base_timestamp <- int64;;
  int64;;;
  int64;;;
  int16;;;
  int32;;;
  count <- int32;;
  ret (base_timestamp, count).

(** One turn of the batch loop, on the blob from [pos] on: the error, or the
    end of the batch, with the records it added. *)
Definition decodeBatch (rest : bytes) (out : list Record_) : (ErrorCode + nat) * list Record_ :=
  if (length rest <? kBatchHeaderSize)%nat then (inl InvalidRequest, out)
  else
    let '(_, r) := int64 (reader rest) in
    let '(batch_len, r) := int32 r in
    if negb (ok_ r) || (batch_len <? 0) then (inl InvalidRequest, out)
    else
      let body_start := pos_ r in
      if Z.of_nat (length rest - body_start) <? batch_len then (inl InvalidRequest, out)
      else
        let batch_end := (body_start + Z.to_nat batch_len)%nat in
        let '(_, r) := int32 r in
        let '(magic, r) := int8 r in
        if negb (magic =? kMagicV2) then (inl InvalidRequest, out)
        else
          let '(stated_crc, r) := uint32 r in
          if negb (ok_ r) || (batch_end <? kCrcCoverageStart)%nat then (inl InvalidRequest, out)
          else if negb (crc32c 0 (take (batch_end - kCrcCoverageStart) (drop kCrcCoverageStart rest)) =? stated_crc)
          then (inl KafkaStorageError, out)
          else
            let '(attributes, r) := int16 r in
            if negb (Z.land attributes kCompressionMask =? 0) then (inl UnsupportedCompression, out)
            else
              let '((base_timestamp, count), r) := decodeBatchFields r in
              if negb (ok_ r) || (count <? 0) then (inl InvalidRequest, out)
              else
                let records_at := pos_ r in
                if (batch_end <? records_at)%nat then (inl InvalidRequest, out)
                else
                  let area := take (batch_end - records_at) (drop records_at rest) in
                  let '(ok, out) := decodeRecords (length area) base_timestamp count (reader area) out in
                  if ok : bool then (inr batch_end, out) else (inl InvalidRequest, out).

(** The batch loop; a batch is at least twelve bytes long. *)
Fixpoint decodeBatches (fuel : nat) (rest : bytes) (out : list Record_) : ErrorCode * list Record_ :=
  match fuel with
  | O => (None_, out)
  | S fuel =>
      match rest with
      | [] => (None_, out)
      | _ =>
          match decodeBatch rest out with
          | (inl e, out) => (e, out)
          | (inr batch_end, out) => decodeBatches fuel (drop batch_end rest) out
          end
      end
  end.

Definition decodeRecordBatches (blob : bytes) : ErrorCode * list Record_ :=
  decodeBatches (S (length blob)) blob [].

(** ** Encoding a batch *)

Definition nullableVarintBytes (v : bytes) (is_null : bool) : bytes :=
  if is_null then W.varint (-1) else W.varint (i32 (Z.of_nat (length v))) ++ v.

Definition encodeHeader (h : RecordHeader) : bytes :=
  W.varint (i32 (Z.of_nat (length (h_key h)))) ++ h_key h ++ nullableVarintBytes (h_value h) (h_value_null h).

(** The difference of the timestamps must fit ([near]). *)
Definition encodeBody (base_ts : Z) (i : nat) (r : Record_) : bytes :=
  W.int8 0 ++ W.varlong (timestamp r - base_ts) ++ W.varint (i32 (Z.of_nat i)) ++
  nullableVarintBytes (key r) (key_null r) ++ nullableVarintBytes (value r) (value_null r) ++
  W.varint (i32 (Z.of_nat (length (headers r)))) ++ concat (map encodeHeader (headers r)).

Definition encodeRecord (base_ts : Z) (i : nat) (r : Record_) : bytes :=
  let body := encodeBody base_ts i r in W.varint (i32 (Z.of_nat (length body))) ++ body.

Fixpoint encodeRecords (base_ts : Z) (i : nat) (rs : list Record_) : bytes :=
  match rs with
  | [] => []
  | r :: rs => encodeRecord base_ts i r ++ encodeRecords base_ts (S i) rs
  end.

Definition base_ts_of (records : list Record_) : Z :=
  match records with [] => -1 | r :: _ => timestamp r end.

Definition max_ts_of (records : list Record_) : Z :=
  foldl (fun m r => if m <? timestamp r then timestamp r else m) (base_ts_of records) records.

(** The buffer before its length and CRC are patched in. *)
Definition batchBuffer (base_offset : Z) (records : list Record_) : bytes :=
  W.int64 base_offset ++ W.int32 0 ++
  W.int32 0 ++ W.int8 kMagicV2 ++ W.int32 0 ++
  W.int16 0 ++
  W.int32 (if (length records =? 0)%nat then 0 else i32 (Z.of_nat (length records - 1))) ++
  W.int64 (base_ts_of records) ++ W.int64 (max_ts_of records) ++
  W.int64 (-1) ++ W.int16 (-1) ++ W.int32 (-1) ++
  W.int32 (i32 (Z.of_nat (length records))) ++
  encodeRecords (base_ts_of records) 0 records.

Definition encodeRecordBatch (base_offset : Z) (records : list Record_) : bytes :=
  let len_at := 8%nat in
  let body_start := 12%nat in
  let crc_at := 17%nat in
  let crc_start := 21%nat in
  let w := batchBuffer base_offset records in
  let w := W.patchInt32 len_at (i32 (Z.of_nat (length w - body_start))) w in
  W.patchUint32 crc_at (crc32c 0 (drop crc_start w)) w.

(** ** The stored form *)

Definition nullableStored (v : bytes) (is_null : bool) : bytes := if is_null then W.nullBytes else W.bytes_ v.

Definition encodeStoredHeader (h : RecordHeader) : bytes :=
  W.bytes_ (h_key h) ++ nullableStored (h_value h) (h_value_null h).

Definition encodeStoredRecord (r : Record_) : bytes :=
  W.int8 1 ++ W.int64 (timestamp r) ++ nullableStored (key r) (key_null r) ++
  nullableStored (value r) (value_null r) ++ W.int32 (i32 (Z.of_nat (length (headers r)))) ++
  concat (map encodeStoredHeader (headers r)).

Fixpoint decodeStoredHeaders (n : nat) (acc : list RecordHeader) : rd (option (list RecordHeader)) :=
  match n with
  | O => ret (Some acc)
  | S n =>
      k <- nullableBytes;;
      match k with
      | None => ret None
      | Some hkey =>
          v <- nullableBytes;;
          decodeStoredHeaders n (acc ++ [mkRecordHeader hkey (default [] v) (negb (is_some v))])
      end
  end.

Definition decodeStoredFields : rd (option Record_) :=
  version <- int8;;
  if negb (version =? 1) then ret None
  else
    ts <- int64;;
    k <- nullableBytes;;
    v <- nullableBytes;;
    n <- int32;;
    ok <- get_ok;;
    left <- get_remaining;;
    if negb ok || (n <? 0) || (Z.of_nat left <? n) then ret None
    else
      hs <- decodeStoredHeaders (Z.to_nat n) [];;
      match hs with
      | None => ret None
      | Some hs =>
          ok <- get_ok;;
          ret (if ok : bool then
            Some (mkRecord 0 ts (default [] k) (negb (is_some k)) (default [] v) (negb (is_some v)) hs)
          else None)
      end.

Definition decodeStoredRecord (blob : bytes) : option Record_ := (decodeStoredFields (reader blob)).1.

Definition sample_record : Record_ :=
  mkRecord 0 1700000000000 (str "k") false (str "value") false [mkRecordHeader (str "h") [] true].

Example sample_batch :
  decodeRecordBatches (encodeRecordBatch 42 [sample_record; sample_record]) = (None_, [sample_record; sample_record]).
Proof. vm_compute. reflexivity. Qed.

(** ** Round trip of the stored form *)

(** What decoding produces: a null field has no bytes, and timestamps are
    64-bit. *)
Definition null_ok (v : bytes) (is_null : bool) : bool := negb is_null || (length v =? 0)%nat.
Definition record_ok (r : Record_) : bool :=
  bool_decide (is_i64 (timestamp r)) && null_ok (key r) (key_null r) && null_ok (value r) (value_null r) &&
  forallb (fun h => null_ok (h_value h) (h_value_null h)) (headers r).

Definition fits (v : bytes) : Prop := Z.of_nat (length v) < 2 ^ 31.

Definition at_offset (o : Z) (r : Record_) : Record_ :=
  mkRecord o (timestamp r) (key r) (key_null r) (value r) (value_null r) (headers r).

(** What a nullable field reads back as, and that it is the field. *)
Definition nullable (v : bytes) (is_null : bool) : option bytes := if is_null then None else Some v.

Lemma nullable_fields v is_null :
  null_ok v is_null = true ->
  default [] (nullable v is_null) = v /\ negb (is_some (nullable v is_null)) = is_null.
Proof. destruct is_null; [|done]. unfold null_ok. cbn. intros. bools. by destruct v. Qed.

(** A count that is checked against the bytes that are left. *)
Lemma reads_counted {A} n (z a : A) (k : rd A) w :
  0 <= n <= Z.of_nat (length w) -> reads k w a ->
  reads (ok <- get_ok;; left <- get_remaining;;
         if negb ok || (n <? 0) || (Z.of_nat left <? n) then ret z else k) w a.
Proof.
  intros Hn Hk rest pos. unfold bind, get_ok, get_remaining, remaining. cbn [ok_ rest_ negb orb].
  rewrite length_app. rewrite (proj2 (Z.ltb_ge n 0)), (proj2 (Z.ltb_ge _ n)) by lia. apply Hk.
Qed.

Lemma reads_checked {A} (z a : A) : reads (ok <- get_ok;; ret (if ok : bool then a else z)) [] a.
Proof. apply reads_bind_nil with true; [apply reads_get_ok|]. apply reads_ret. Qed.

Lemma length_concat_ge {A} (f : A -> bytes) l x : In x l -> (length (f x) <= length (concat (map f l)))%nat.
Proof.
  induction l as [|y l IH]; [done|]. cbn [In map concat]. rewrite length_app. intros [->|H]; [lia|].
  specialize (IH H). lia.
Qed.

Lemma length_concat_count {A} (f : A -> bytes) l :
  (forall x, (1 <= length (f x))%nat) -> (length l <= length (concat (map f l)))%nat.
Proof.
  intros H. induction l as [|y l IH]; [done|]. cbn [length map concat]. rewrite length_app. specialize (H y). lia.
Qed.

Lemma reads_stored_nullable v is_null :
  null_ok v is_null = true -> fits (nullableStored v is_null) -> reads nullableBytes (nullableStored v is_null) (nullable v is_null).
Proof.
  intros Hn Hf. unfold nullableStored, nullable in *. destruct is_null; [apply reads_nullBytes|].
  apply reads_bytes. unfold fits, W.bytes_ in Hf. rewrite length_app in Hf. lia.
Qed.

Lemma reads_stored_headers hs acc :
  forallb (fun h => null_ok (h_value h) (h_value_null h)) hs = true -> fits (concat (map encodeStoredHeader hs)) ->
  reads (decodeStoredHeaders (length hs) acc) (concat (map encodeStoredHeader hs)) (Some (acc ++ hs)).
Proof.
  revert acc. induction hs as [|h hs IH]; intros acc Hn Hf; [rewrite app_nil_r; apply reads_ret|].
  cbn [forallb] in Hn. apply andb_true_iff in Hn as [Hh Hn]. cbn [length map concat decodeStoredHeaders].
  unfold fits in Hf. cbn [map concat] in Hf. unfold encodeStoredHeader in Hf at 1. rewrite !length_app in Hf.
  unfold encodeStoredHeader at 1. rewrite <- app_assoc.
  apply reads_bind with (Some (h_key h)).
  { apply reads_bytes. unfold W.bytes_ in Hf at 1. rewrite length_app in Hf. lia. }
  apply reads_bind with (nullable (h_value h) (h_value_null h)); [apply reads_stored_nullable; [done|unfold fits; lia]|].
  destruct (nullable_fields _ _ Hh) as [-> ->].
  replace (acc ++ h :: hs) with ((acc ++ [mkRecordHeader (h_key h) (h_value h) (h_value_null h)]) ++ hs)
    by (rewrite <- app_assoc; by destruct h).
  apply IH; [done|unfold fits; lia].
Qed.

Lemma stored_header_length h : (1 <= length (encodeStoredHeader h))%nat.
Proof. unfold encodeStoredHeader, W.bytes_. rewrite !length_app. cbn [length W.int32 W.uint32]. lia. Qed.

Lemma reads_stored r :
  record_ok r = true -> fits (encodeStoredRecord r) ->
  reads decodeStoredFields (encodeStoredRecord r) (Some (at_offset 0 r)).
Proof.
  unfold record_ok. intros Hr Hf. apply andb_true_iff in Hr as [[[Hts Hk]%andb_true_iff Hv]%andb_true_iff Hh].
  apply bool_decide_eq_true in Hts. unfold fits, encodeStoredRecord in Hf. rewrite !length_app in Hf.
  pose proof (length_concat_count encodeStoredHeader (headers r) stored_header_length) as Hc.
  unfold decodeStoredFields, encodeStoredRecord. apply reads_bind with 1; [by apply reads_int8|]. cbn [Z.eqb Pos.eqb negb].
  apply reads_bind with (timestamp r); [by apply reads_int64|].
  apply reads_bind with (nullable (key r) (key_null r)); [apply reads_stored_nullable; [done|unfold fits; lia]|].
  apply reads_bind with (nullable (value r) (value_null r)); [apply reads_stored_nullable; [done|unfold fits; lia]|].
  apply reads_bind with (Z.of_nat (length (headers r))).
  { rewrite swrap_small by (unfold s_range; lia). apply reads_int32. unfold s_range. lia. }
  apply reads_counted; [lia|]. rewrite Nat2Z.id.
  apply reads_bind_last with (Some ([] ++ headers r)); [apply reads_stored_headers; [done|unfold fits; lia]|].
  destruct (nullable_fields _ _ Hk) as [-> ->]. destruct (nullable_fields _ _ Hv) as [-> ->].
  apply reads_checked.
Qed.

Lemma stored_read r :
  record_ok r = true -> fits (encodeStoredRecord r) -> decodeStoredRecord (encodeStoredRecord r) = Some (at_offset 0 r).
Proof.
  intros Hr Hf. unfold decodeStoredRecord, reader. pose proof (reads_stored r Hr Hf [] 0%nat) as H.
  rewrite app_nil_r in H. by rewrite H.
Qed.

(** a record stored as a list element is the record that is read back:
    timestamp, key, value (null and empty told apart) and all headers; only
    the offset, which the list index carries, is not part of the stored form. *)
Theorem stored_record_round_trip r :
  record_ok r = true -> fits (encodeStoredRecord r) ->
  decodeStoredRecord (encodeStoredRecord r) = Some (at_offset 0 r).
Proof. apply stored_read. Qed.

Lemma stored_record_round_trip_witness :
  decodeStoredRecord (encodeStoredRecord sample_record) = Some (at_offset 0 sample_record).
Proof. apply stored_record_round_trip; [reflexivity|vm_compute; reflexivity]. Defined.

(** ** Round trip of a batch *)

Lemma varint_length v : (1 <= length (W.varint v))%nat.
Proof. unfold W.varint, W.varlong. cbn [W.varlong_loop]. case_if; cbn [length]; lia. Qed.

#[local] Opaque varint varlong varintBytes W.varint W.varlong int8 int16 int32 int64 uint32.

Lemma reads_nullable_varint v is_null :
  null_ok v is_null = true -> fits (nullableVarintBytes v is_null) ->
  reads varintBytes (nullableVarintBytes v is_null) (Some (nullable v is_null)).
Proof.
  intros Hn Hf. unfold nullableVarintBytes, nullable in *. destruct is_null; [apply reads_varintBytes_null|].
  unfold fits in Hf. rewrite length_app in Hf. rewrite swrap_small by (unfold s_range; lia).
  apply reads_varintBytes. lia.
Qed.

Lemma reads_headers hs acc :
  forallb (fun h => null_ok (h_value h) (h_value_null h)) hs = true -> fits (concat (map encodeHeader hs)) ->
  reads (decodeHeaders (length hs) acc) (concat (map encodeHeader hs)) (Some (acc ++ hs)).
Proof.
  revert acc. induction hs as [|h hs IH]; intros acc Hn Hf; [rewrite app_nil_r; apply reads_ret|].
  cbn [forallb] in Hn. apply andb_true_iff in Hn as [Hh Hn]. cbn [length map concat decodeHeaders].
  unfold fits in Hf. cbn [map concat] in Hf. unfold encodeHeader in Hf at 1. rewrite !length_app in Hf.
  unfold encodeHeader at 1. rewrite app_assoc, <- app_assoc.
  apply reads_bind with (Some (Some (h_key h))).
  { rewrite swrap_small by (unfold s_range; lia). apply reads_varintBytes. lia. }
  apply reads_bind with (Some (nullable (h_value h) (h_value_null h)));
    [apply reads_nullable_varint; [done|unfold fits; lia]|].
  destruct (nullable_fields _ _ Hh) as [-> ->].
  replace (acc ++ h :: hs) with ((acc ++ [mkRecordHeader (h_key h) (h_value h) (h_value_null h)]) ++ hs)
    by (rewrite <- app_assoc; by destruct h).
  apply IH; [done|unfold fits; lia].
Qed.

Lemma header_length h : (1 <= length (encodeHeader h))%nat.
Proof. unfold encodeHeader. rewrite !length_app. pose proof (varint_length (i32 (Z.of_nat (length (h_key h))))). lia. Qed.

Lemma reads_body base_ts i r :
  record_ok r = true -> is_i64 (timestamp r - base_ts) -> Z.of_nat i < 2 ^ 31 -> fits (encodeBody base_ts i r) ->
  reads (decodeRecord base_ts) (encodeBody base_ts i r) (Some (at_offset 0 r)).
Proof.
  unfold record_ok. intros Hr Hd Hi Hf. apply andb_true_iff in Hr as [[[Hts Hk]%andb_true_iff Hv]%andb_true_iff Hh].
  apply bool_decide_eq_true in Hts. unfold fits, encodeBody in Hf. rewrite !length_app in Hf.
  pose proof (length_concat_count encodeHeader (headers r) header_length) as Hc.
  unfold decodeRecord, encodeBody.
  apply reads_bind with 0; [by apply reads_int8|].
  apply reads_bind with (timestamp r - base_ts); [by apply reads_varlong|].
  apply reads_bind with (Z.of_nat i); [rewrite swrap_small by (unfold s_range; lia); apply reads_varint; unfold s_range; lia|].
  apply reads_bind with (Some (nullable (key r) (key_null r))); [apply reads_nullable_varint; [done|unfold fits; lia]|].
  apply reads_bind with (Some (nullable (value r) (value_null r))); [apply reads_nullable_varint; [done|unfold fits; lia]|].
  apply reads_bind with (Z.of_nat (length (headers r))).
  { rewrite swrap_small by (unfold s_range; lia). apply reads_varint. unfold s_range. lia. }
  apply reads_counted; [lia|]. rewrite Nat2Z.id.
  apply reads_bind_last with (Some ([] ++ headers r)); [apply reads_headers; [done|unfold fits; lia]|].
  destruct (nullable_fields _ _ Hk) as [-> ->]. destruct (nullable_fields _ _ Hv) as [-> ->].
  replace (base_ts + (timestamp r - base_ts)) with (timestamp r) by lia.
  apply reads_checked.
Qed.

(** A record is encoded relative to the batch's base timestamp, so the
    difference has to be representable. *)
Definition near (base_ts : Z) (r : Record_) : bool := bool_decide (is_i64 (timestamp r - base_ts)).

Lemma decodeRecords_encoded fuel base_ts i rs pos out :
  forallb record_ok rs = true -> forallb (near base_ts) rs = true ->
  fits (encodeRecords base_ts i rs) -> Z.of_nat (i + length rs) < 2 ^ 31 -> (length rs <= fuel)%nat ->
  decodeRecords fuel base_ts (Z.of_nat (length rs)) (mkReader (encodeRecords base_ts i rs) pos true) out
  = (true, out ++ map (at_offset 0) rs).
Proof.
  revert fuel i pos out. induction rs as [|r rs IH]; intros fuel i pos out Hok Hnear Hf Hi Hfuel.
  { destruct fuel; cbn; by rewrite app_nil_r. }
  destruct fuel as [|fuel]; [cbn in Hfuel; lia|]. cbn [forallb] in Hok, Hnear.
  apply andb_true_iff in Hok as [Hr Hok]. apply andb_true_iff in Hnear as [Hn Hnear].
  apply bool_decide_eq_true in Hn. cbn [length] in *.
  cbn [decodeRecords encodeRecords]. unfold fits in Hf. cbn [encodeRecords] in Hf. unfold encodeRecord in Hf.
  rewrite !length_app in Hf. rewrite (proj2 (Z.leb_gt _ 0)) by lia.
  unfold encodeRecord. rewrite <- app_assoc. set (body := encodeBody base_ts i r) in *.
  rewrite swrap_small by (unfold s_range; lia).
  rewrite (reads_varint (Z.of_nat (length body))) by (unfold s_range; lia). cbn [ok_ negb orb].
  rewrite (proj2 (Z.ltb_ge _ 0)) by lia. rewrite Nat2Z.id, (reads_takeView body _ eq_refl).
  pose proof (reads_body base_ts i r Hr Hn ltac:(lia) ltac:(unfold fits; subst body; lia) [] 0%nat) as Hb.
  rewrite app_nil_r in Hb. unfold reader. fold body in Hb. rewrite Hb. cbn [fst].
  replace (Z.of_nat (S (length rs)) - 1) with (Z.of_nat (length rs)) by lia.
  rewrite (IH _ (S i)) by (try done; try (unfold fits; lia); lia).
  rewrite <- app_assoc. done.
Qed.

(** ** The CRC fits in 32 bits *)

Lemma lxor_u32 a b : is_u32 a -> is_u32 b -> is_u32 (Z.lxor a b).
Proof.
  unfold u_range. intros Ha Hb. assert (0 <= Z.lxor a b) as H0 by (apply Z.lxor_nonneg; lia). split; [done|].
  destruct (decide (Z.lxor a b = 0)) as [->|Hn]; [done|].
  apply Z.log2_lt_pow2; [lia|]. eapply Z.le_lt_trans; [apply Z.log2_lxor; lia|].
  apply Z.max_lub_lt; (destruct (decide (a = 0)) as [->|]; destruct (decide (b = 0)) as [->|]; try done;
    apply Z.log2_lt_pow2; lia).
Qed.

Lemma table_u32 i : is_u32 (kCrc32cTable !!! i).
Proof.
  assert (Forall is_u32 kCrc32cTable) as H by decide_now.
  destruct (decide (i < length kCrc32cTable)%nat) as [Hi|Hi].
  - rewrite Forall_lookup in H. apply (H i). by apply list_lookup_lookup_total_lt.
  - rewrite list_lookup_total_alt, lookup_ge_None_2 by lia. done.
Qed.

Lemma crc_step_u32 crc b : is_u32 crc -> is_u32 (crc_step crc b).
Proof.
  intros H. unfold crc_step. apply lxor_u32; [apply table_u32|].
  unfold u_range in *. rewrite shiftr_div by lia. dmlia.
Qed.

Lemma crc32c_u32 crc data : is_u32 crc -> is_u32 (crc32c crc data).
Proof.
  intros H. unfold crc32c, not32. apply lxor_u32; [|done].
  assert (forall c, is_u32 c -> is_u32 (foldl crc_step c data)) as Hf.
  { induction data as [|b data IH]; intros c Hc; [done|]. cbn [foldl]. by apply IH, crc_step_u32. }
  apply Hf. by apply lxor_u32.
Qed.

#[local] Opaque crc32c.

(** ** The layout of an encoded batch *)

(** Everything the CRC covers. *)
Definition covered (records : list Record_) : bytes :=
  W.int16 0 ++
  W.int32 (if (length records =? 0)%nat then 0 else i32 (Z.of_nat (length records - 1))) ++
  W.int64 (base_ts_of records) ++ W.int64 (max_ts_of records) ++
  W.int64 (-1) ++ W.int16 (-1) ++ W.int32 (-1) ++
  W.int32 (i32 (Z.of_nat (length records))) ++
  encodeRecords (base_ts_of records) 0 records.

Lemma patch_at a (old : Z) u b :
  W.patchUint32 (length a) u (a ++ W.int32 old ++ b) = a ++ W.uint32 u ++ b.
Proof. unfold W.patchUint32. by apply voverwrite_app. Qed.

Lemma batch_layout base_offset records :
  encodeRecordBatch base_offset records =
  W.int64 base_offset ++ W.int32 (i32 (9 + Z.of_nat (length (covered records)))) ++
  W.int32 0 ++ W.int8 kMagicV2 ++ W.uint32 (crc32c 0 (covered records)) ++ covered records.
Proof.
  unfold encodeRecordBatch, W.patchInt32. cbv zeta.
  assert (batchBuffer base_offset records =
    W.int64 base_offset ++ W.int32 0 ++ W.int32 0 ++ W.int8 kMagicV2 ++ W.int32 0 ++ covered records) as -> by done.
  set (cov := covered records).
  replace (Z.of_nat (length (W.int64 base_offset ++ W.int32 0 ++ W.int32 0 ++ W.int8 kMagicV2 ++ W.int32 0 ++ cov) - 12))
    with (9 + Z.of_nat (length cov)) by (rewrite !length_app; cbn [length W.int32 W.int64 W.uint32 W.int8 map]; lia).
  rewrite (patch_at (W.int64 base_offset) 0 _ (W.int32 0 ++ W.int8 kMagicV2 ++ W.int32 0 ++ cov)).
  set (len := W.uint32 _).
  replace (W.int64 base_offset ++ len ++ W.int32 0 ++ W.int8 kMagicV2 ++ W.int32 0 ++ cov)
    with ((W.int64 base_offset ++ len ++ W.int32 0 ++ W.int8 kMagicV2) ++ W.int32 0 ++ cov) by (by rewrite <- !app_assoc).
  set (h := W.int64 base_offset ++ len ++ W.int32 0 ++ W.int8 kMagicV2).
  assert (drop 21 (h ++ W.int32 0 ++ cov) = cov) as -> by (rewrite app_assoc; by apply drop_app_at).
  rewrite (patch_at h 0 _ cov). subst h len.
  by rewrite <- !app_assoc.
Qed.

(** ** Decoding an encoded batch *)

Definition batch_ok (base_offset : Z) (records : list Record_) : Prop :=
  is_i64 base_offset /\ forallb record_ok records = true /\
  forallb (near (base_ts_of records)) records = true /\ fits (encodeRecordBatch base_offset records).

Lemma record_ok_timestamp r : record_ok r = true -> is_i64 (timestamp r).
Proof. unfold record_ok. intros H. bools. done. Qed.

Lemma base_ts_i64 rs : forallb record_ok rs = true -> is_i64 (base_ts_of rs).
Proof. destruct rs as [|r rs]; [done|]. cbn. intros [H _]%andb_true_iff. by apply record_ok_timestamp. Qed.

Lemma max_ts_i64 rs : forallb record_ok rs = true -> is_i64 (max_ts_of rs).
Proof.
  intros H. unfold max_ts_of. pose proof (base_ts_i64 rs H) as Hb. revert H Hb.
  generalize (base_ts_of rs) as m. induction rs as [|r rs IH]; intros m; [done|]. cbn [forallb foldl].
  intros [Hr H]%andb_true_iff Hm. apply IH; [done|]. case_if; [by apply record_ok_timestamp|done].
Qed.

Lemma records_length base_ts i rs : (length rs <= length (encodeRecords base_ts i rs))%nat.
Proof.
  revert i. induction rs as [|r rs IH]; intros i; [done|]. cbn [encodeRecords length].
  unfold encodeRecord. rewrite !length_app. pose proof (varint_length (i32 (Z.of_nat (length (encodeBody base_ts i r))))).
  specialize (IH (S i)). lia.
Qed.

Lemma reads_batch_fields rs :
  forallb record_ok rs = true -> Z.of_nat (length rs) < 2 ^ 31 ->
  reads decodeBatchFields
    (W.int32 (if (length rs =? 0)%nat then 0 else i32 (Z.of_nat (length rs - 1))) ++
     W.int64 (base_ts_of rs) ++ W.int64 (max_ts_of rs) ++
     W.int64 (-1) ++ W.int16 (-1) ++ W.int32 (-1) ++ W.int32 (i32 (Z.of_nat (length rs))))
    (base_ts_of rs, Z.of_nat (length rs)).
Proof.
  intros Hok Hl. unfold decodeBatchFields.
  eapply reads_bind; [apply reads_int32; case_if; [done|apply swrap_range; lia]|].
  eapply reads_bind; [by apply reads_int64, base_ts_i64|].
  eapply reads_bind; [by apply reads_int64, max_ts_i64|].
  eapply reads_bind; [by apply reads_int64|].
  eapply reads_bind; [by apply reads_int16|].
  eapply reads_bind; [by apply reads_int32|].
  rewrite swrap_small by (unfold s_range; lia).
  apply reads_bind_last with (Z.of_nat (length rs)); [apply reads_int32; unfold s_range; lia|]. apply reads_ret.
Qed.

Lemma covered_split rs :
  covered rs = W.int16 0 ++
    (W.int32 (if (length rs =? 0)%nat then 0 else i32 (Z.of_nat (length rs - 1))) ++
     W.int64 (base_ts_of rs) ++ W.int64 (max_ts_of rs) ++
     W.int64 (-1) ++ W.int16 (-1) ++ W.int32 (-1) ++ W.int32 (i32 (Z.of_nat (length rs)))) ++
    encodeRecords (base_ts_of rs) 0 rs.
Proof. unfold covered. by rewrite <- !app_assoc. Qed.

Lemma covered_length rs : length (covered rs) = (40 + length (encodeRecords (base_ts_of rs) 0 rs))%nat.
Proof. unfold covered. rewrite !length_app. done. Qed.

Lemma batch_length bo rs : length (encodeRecordBatch bo rs) = (21 + length (covered rs))%nat.
Proof. rewrite batch_layout. rewrite !length_app. done. Qed.

#[local] Opaque decodeBatchFields decodeRecords covered.

Lemma decodeBatch_encoded bo rs more out :
  batch_ok bo rs ->
  decodeBatch (encodeRecordBatch bo rs ++ more) out =
  (inr (length (encodeRecordBatch bo rs)), out ++ map (at_offset 0) rs).
Proof.
  intros (Hbo & Hok & Hnear & Hf). unfold fits in Hf. rewrite batch_length in *.
  pose proof (covered_length rs) as Hcl. pose proof (records_length (base_ts_of rs) 0 rs) as Hrl.
  unfold decodeBatch. rewrite length_app, batch_length.
  destruct (Nat.ltb_spec (21 + length (covered rs) + length more) kBatchHeaderSize) as [Hl|_];
    [unfold kBatchHeaderSize in Hl; lia|].
  rewrite batch_layout, <- !app_assoc. set (crc := crc32c 0 (covered rs)).
  set (fields := W.int32 (if (length rs =? 0)%nat then 0 else i32 (Z.of_nat (length rs - 1))) ++
     W.int64 (base_ts_of rs) ++ W.int64 (max_ts_of rs) ++
     W.int64 (-1) ++ W.int16 (-1) ++ W.int32 (-1) ++ W.int32 (i32 (Z.of_nat (length rs)))).
  set (recs := encodeRecords (base_ts_of rs) 0 rs) in *.
  assert (covered rs ++ more = W.int16 0 ++ fields ++ recs ++ more) as Hcov
    by (rewrite covered_split; by rewrite <- !app_assoc).
  set (rest := W.int64 bo ++ _).
  assert (drop 21 rest = covered rs ++ more) as H21 by done.
  assert (drop 61 rest = recs ++ more) as H61.
  { change 61%nat with (21 + 40)%nat. by rewrite <- drop_drop, H21, Hcov. }
  unfold reader at 1, rest at 1. rewrite Hcov.
  rewrite (reads_int64 bo) by done.
  rewrite swrap_small by (unfold s_range; lia). rewrite (reads_int32 (9 + Z.of_nat (length (covered rs)))) by (unfold s_range; lia).
  cbn [ok_ negb orb]. rewrite (proj2 (Z.ltb_ge _ 0)) by lia. cbn [pos_].
  replace (0 + length (W.int64 bo) + length (W.int32 (9 + Z.of_nat (length (covered rs)))))%nat with 12%nat by done.
  rewrite (proj2 (Z.ltb_ge (Z.of_nat (_ - _)) _)) by lia.
  rewrite (reads_int32 0) by done. rewrite (reads_int8 kMagicV2) by done. cbn [Z.eqb kMagicV2 Pos.eqb negb].
  rewrite (reads_uint32 crc) by (by apply crc32c_u32). cbn [ok_ negb orb].
  replace (12 + Z.to_nat (9 + Z.of_nat (length (covered rs))))%nat with (21 + length (covered rs))%nat by lia.
  destruct (Nat.ltb_spec (21 + length (covered rs)) kCrcCoverageStart) as [Hc|_]; [unfold kCrcCoverageStart in Hc; lia|].
  change kCrcCoverageStart with 21%nat. rewrite H21.
  replace (21 + length (covered rs) - 21)%nat with (length (covered rs)) by lia. rewrite take_app_length.
  fold crc. rewrite Z.eqb_refl. cbn [negb].
  rewrite (reads_int16 0) by done. cbn [Z.land Z.eqb negb].
  rewrite (reads_batch_fields rs Hok) by lia. cbn [ok_ negb orb pos_]. rewrite (proj2 (Z.ltb_ge _ 0)) by lia.
  match goal with |- context [(?a <? ?b)%nat] => replace b with 61%nat by done end.
  destruct (Nat.ltb_spec (21 + length (covered rs)) 61) as [Hc|_]; [lia|].
  rewrite H61. replace (21 + length (covered rs) - 61)%nat with (length recs) by lia. rewrite take_app_length.
  unfold reader. subst recs. rewrite decodeRecords_encoded; [done|done|done|unfold fits; lia|lia|lia].
Qed.

Definition encodeBatches (batches : list (Z * list Record_)) : bytes :=
  concat (map (fun '(bo, rs) => encodeRecordBatch bo rs) batches).

Lemma decodeBatches_encoded fuel batches out :
  Forall (fun '(bo, rs) => batch_ok bo rs) batches -> (length batches < fuel)%nat ->
  decodeBatches fuel (encodeBatches batches) out =
  (None_, out ++ concat (map (fun '(_, rs) => map (at_offset 0) rs) batches)).
Proof.
  intros H. revert fuel out. induction H as [|[bo rs] batches Hb _ IH]; intros [|fuel] out Hf; cbn [length] in Hf; try lia.
  { cbn. by rewrite app_nil_r. }
  cbn [decodeBatches]. unfold encodeBatches. cbn [map concat]. fold (encodeBatches batches).
  destruct (encodeRecordBatch bo rs ++ encodeBatches batches) as [|c rest] eqn:E.
  { apply (f_equal length) in E. rewrite length_app, batch_length in E. cbn [length] in E. lia. }
  rewrite <- E, decodeBatch_encoded, drop_app_length, IH by (done || lia). by rewrite <- app_assoc.
Qed.

Lemma decodeBatches_all batches :
  Forall (fun '(bo, rs) => batch_ok bo rs) batches ->
  decodeRecordBatches (encodeBatches batches) =
  (None_, concat (map (fun '(_, rs) => map (at_offset 0) rs) batches)).
Proof.
  intros H. unfold decodeRecordBatches. rewrite decodeBatches_encoded; [done|done|].
  pose proof (length_concat_count (fun '(bo, rs) => encodeRecordBatch bo rs) batches) as Hl.
  unfold encodeBatches. enough (length batches <= length (concat (map (fun '(bo, rs) => encodeRecordBatch bo rs) batches)))%nat by lia.
  apply Hl. intros [bo rs]. rewrite batch_length. lia.
Qed.

(** a fetch response is a valid produce request: any concatenation of
    batches written by [encodeRecordBatch] passes every check of
    [decodeRecordBatches] (lengths, magic, CRC-32C, compression, record and
    header bounds) and yields exactly the records, batch after batch, with
    their absolute timestamps. *)
Theorem record_batches_round_trip batches :
  Forall (fun '(bo, rs) => batch_ok bo rs) batches ->
  decodeRecordBatches (encodeBatches batches) =
  (None_, concat (map (fun '(_, rs) => map (at_offset 0) rs) batches)).
Proof. apply decodeBatches_all. Qed.

Lemma record_batches_round_trip_witness :
  decodeRecordBatches (encodeBatches [(7, [sample_record]); (8, [])]) = (None_, [sample_record]).
Proof.
  apply (record_batches_round_trip [(7, [sample_record]); (8, [])]).
  repeat constructor; vm_compute; try reflexivity; discriminate.
Defined.

End Records.
