(* ===== verification/KafkaLog.v ===== *)
(** * KafkaLog: a partition as a list

    [src/kafka/log.h] and [src/kafka/log.cpp]: topics and partition logs kept
    as keys of the server. The server is reached through its protocol only, so
    the log is a client of an interface: [RespServer] is one request and its
    reply, [RespLaws] is what the commands used here promise about the lists,
    hashes and sets of the keyspace. [KeyStore] is an instance. *)

From Stdlib Require Import ZArith Lia.
From stdpp Require Import base list numbers option strings gmap sorting.
From S2P Require Import Prelude Encoding Order Resp Reply KafkaWire KafkaRecords.
Import Reply Records.

(** ** The interface to the server *)

(** [RespClient::command]: the reply, or the error text of a failed
    connection. *)
Class RespServer (St : Type) := command : St -> list bytes -> (bytes + Reply) * St.

(** The commands, as the log sends them. *)
Definition LLEN k : list bytes := [str "LLEN"; k].
Definition RPUSH k vs : list bytes := str "RPUSH" :: k :: vs.
Definition LRANGE k (a b : Z) : list bytes := [str "LRANGE"; k; to_string a; to_string b].
Definition LINDEX k (i : Z) : list bytes := [str "LINDEX"; k; to_string i].
Definition SADD k m : list bytes := [str "SADD"; k; m].
Definition HSETNX k f v : list bytes := [str "HSETNX"; k; f; v].
Definition HGET k f : list bytes := [str "HGET"; k; f].
Definition SMEMBERS k : list bytes := [str "SMEMBERS"; k].

(** The limits of the server's request parser. *)
Definition acceptable (argv : list bytes) : Prop :=
  Z.of_nat (length argv) <= Resp.kMaxMultibulkLength /\ Forall (fun a => Z.of_nat (length a) <= Resp.kMaxBulkLength) argv.

(** [list_at st k]: the elements under [k], empty when the key is absent, and
    [None] when it holds another type; likewise for hashes and sets. The laws
    are about a server that is [up]. *)
Class RespLaws (St : Type) `{RespServer St} := {
  up : St -> Prop;
  list_at : St -> bytes -> option (list bytes);
  hash_at : St -> bytes -> option (gmap bytes bytes);
  set_at : St -> bytes -> option (gset bytes);

  llen_law st k l : up st -> list_at st k = Some l ->
    command st (LLEN k) = (inr (Integer (Z.of_nat (length l))), st);
  lrange_law st k l a b : up st -> list_at st k = Some l -> 0 <= a -> 0 <= b -> is_i64 a -> is_i64 b ->
    command st (LRANGE k a b) =
      (inr (Array (map Bulk (take (Z.to_nat (b + 1 - a)) (drop (Z.to_nat a) l)))), st);
  lindex_law st k l i : up st -> list_at st k = Some l -> is_i64 i -> 0 <= i ->
    command st (LINDEX k i) = (inr (match l !! Z.to_nat i with Some v => Bulk v | None => Null end), st);
  rpush_law st k l vs : up st -> list_at st k = Some l -> vs <> [] -> acceptable (RPUSH k vs) ->
    exists st', command st (RPUSH k vs) = (inr (Integer (Z.of_nat (length l + length vs))), st') /\
      up st' /\ list_at st' k = Some (l ++ vs) /\ (forall k', k' <> k -> list_at st' k' = list_at st k' /\ hash_at st' k' = hash_at st k' /\ set_at st' k' = set_at st k');
  sadd_law st k s m : up st -> set_at st k = Some s ->
    exists st' r, command st (SADD k m) = (inr (Integer r), st') /\ up st' /\
      set_at st' k = Some ({[m]} ∪ s) /\
      (forall k', k' <> k -> list_at st' k' = list_at st k' /\ hash_at st' k' = hash_at st k' /\ set_at st' k' = set_at st k');
  hsetnx_law st k h f v : up st -> hash_at st k = Some h ->
    exists st' r, command st (HSETNX k f v) = (inr (Integer r), st') /\ up st' /\
      hash_at st' k = Some (match h !! f with Some _ => h | None => <[f := v]> h end) /\
      (forall k', k' <> k -> list_at st' k' = list_at st k' /\ hash_at st' k' = hash_at st k' /\ set_at st' k' = set_at st k');
  hget_law st k h f : up st -> hash_at st k = Some h ->
    command st (HGET k f) = (inr (match h !! f with Some v => Bulk v | None => Null end), st);
}.

Module Log.

Section log.
Context `{RespServer St}.

(** Where the fields of [net::Reply] are read without a look at the type, a
    field the reply does not set has its default. *)
Definition integer_of (r : Reply) : Z := match r with Integer n => n | _ => 0 end.
Definition str_of (r : Reply) : bytes :=
  match r with SimpleString s | Error s | Bulk s | BigNumber s | Verbatim s => s | _ => [] end.
Definition elements_of (r : Reply) : list Reply :=
  match r with Array l | Map l | Set_ l | Push l => l | _ => [] end.
Definition isNull (r : Reply) : bool := match r with Null => true | _ => false end.

Definition kTopicSetKey : bytes := str "kafka:topics".
Definition logKey (topic : bytes) (partition : Z) : bytes :=
  str "kafka:log:" ++ topic ++ str ":" ++ to_string partition.
Definition metaKey (topic : bytes) : bytes := str "kafka:meta:" ++ topic.

(** An error reply is a failure too. *)
Definition call (st : St) (argv : list bytes) : (bytes + Reply) * St :=
  match command st argv with
  | (inr (Error e), st) => (inl e, st)
  | other => other
  end.

Definition createTopic (st : St) (topic : bytes) (partitions : Z) : (bytes + unit) * St :=
  match call st (SADD kTopicSetKey topic) with
  | (inl e, st) => (inl e, st)
  | (inr _, st) =>
      match call st (HSETNX (metaKey topic) (str "partitions") (to_string partitions)) with
      | (inl e, st) => (inl e, st)
      | (inr _, st) => (inr tt, st)
      end
  end.

(** [std::strtol(s, nullptr, 10)]: after white space the longest prefix of an
    optional sign and digits, clamped to a [long]. *)
Fixpoint skip_space (s : bytes) : bytes :=
  match s with
  | c :: s' => if (c =? 32) || ((9 <=? c) && (c <=? 13)) then skip_space s' else s
  | [] => []
  end.
Fixpoint leading_digits (s : bytes) : bytes :=
  match s with
  | c :: s => if (48 <=? c) && (c <=? 57) then c :: leading_digits s else []
  | [] => []
  end.
Definition strtol (s : bytes) : Z :=
  let s := skip_space s in
  let '(sign, ds) := match s with
                     | c :: s' => if c =? 45 then (-1, s') else if c =? 43 then (1, s') else (1, s)
                     | [] => (1, s)
                     end in
  Z.max (- 2 ^ 63) (Z.min (2 ^ 63 - 1) (sign * dec_val 0 (leading_digits ds))).

Definition topicPartitions (st : St) (topic : bytes) : (bytes + Z) * St :=
  match call st (HGET (metaKey topic) (str "partitions")) with
  | (inl e, st) => (inl e, st)
  | (inr reply, st) =>
      if isNull reply || (length (str_of reply) =? 0)%nat then (inr 0, st)
      else let out := i32 (strtol (str_of reply)) in (inr (if out <? 0 then 0 else out), st)
  end.

(** [std::sort] of the members. *)
Definition listTopics (st : St) : (bytes + list bytes) * St :=
  match call st (SMEMBERS kTopicSetKey) with
  | (inl e, st) => (inl e, st)
  | (inr reply, st) => (inr (merge_sort bytes_leP (map str_of (elements_of reply))), st)
  end.

Definition highWatermark (st : St) (topic : bytes) (partition : Z) : (bytes + Z) * St :=
  match call st (LLEN (logKey topic partition)) with
  | (inl e, st) => (inl e, st)
  | (inr reply, st) => (inr (integer_of reply), st)
  end.

(** Returns the base offset. *)
Definition append (st : St) (topic : bytes) (partition : Z) (records : list Record_) : (bytes + Z) * St :=
  if (length records =? 0)%nat then highWatermark st topic partition
  else
    match call st (RPUSH (logKey topic partition) (map encodeStoredRecord records)) with
    | (inl e, st) => (inl e, st)
    | (inr reply, st) => (inr (integer_of reply - Z.of_nat (length records)), st)
    end.

Fixpoint decodeElements (at_ : Z) (elements : list Reply) (out : list Record_) : bytes + list Record_ :=
  match elements with
  | [] => inr out
  | e :: elements =>
      match decodeStoredRecord (str_of e) with
      | None => inl (str "corrupt record at offset " ++ to_string at_)
      | Some r => decodeElements (at_ + 1) elements (out ++ [at_offset at_ r])
      end
  end.

Definition read (st : St) (topic : bytes) (partition off max_records : Z) : (bytes + list Record_) * St :=
  if max_records <=? 0 then (inr [], st)
  else
    let last := off + max_records - 1 in
    match call st (LRANGE (logKey topic partition) off last) with
    | (inl e, st) => (inl e, st)
    | (inr reply, st) => (decodeElements off (elements_of reply) [], st)
    end.

(** The binary search. The interval at least halves at each turn, so 64 turns
    are enough for any high watermark below 2^63. *)
Fixpoint search (fuel : nat) (st : St) (k : bytes) (ts lo hi : Z) : option ((bytes + Z) * St) :=
  if hi <=? lo then Some (inr lo, st)
  else
    match fuel with
    | O => None
    | S fuel =>
        let mid := lo + Z.quot (hi - lo) 2 in
        match call st (LINDEX k mid) with
        | (inl e, st) => Some (inl e, st)
        | (inr reply, st) =>
            let corrupt := Some (inl (str "corrupt record at offset " ++ to_string mid), st) in
            if isNull reply then corrupt
            else
              match decodeStoredRecord (str_of reply) with
              | None => corrupt
              | Some r => if timestamp r <? ts then search fuel st k ts (mid + 1) hi else search fuel st k ts lo mid
              end
        end
    end.

Definition offsetForTimestamp (st : St) (topic : bytes) (partition ts : Z) : option ((bytes + Z) * St) :=
  match highWatermark st topic partition with
  | (inl e, st) => Some (inl e, st)
  | (inr hw, st) =>
      if hw =? 0 then Some (inr (-1), st)
      else
        match search 64 st (logKey topic partition) ts 0 hw with
        | Some (inr lo, st) => Some (inr (if lo <? hw then lo else -1), st)
        | other => other
        end
  end.

(** ** The log as a sequence of records *)

Definition storable (r : Record_) : Prop := record_ok r = true /\ fits (encodeStoredRecord r).

(** The server accepts the request that appends them. *)
Definition pushable (topic : bytes) (p : Z) (rs : list Record_) : Prop := acceptable (RPUSH (logKey topic p) (map encodeStoredRecord rs)).

(** The records with the offsets they are read at. *)
Fixpoint numbered (o : Z) (rs : list Record_) : list Record_ :=
  match rs with
  | [] => []
  | r :: rs => at_offset o r :: numbered (o + 1) rs
  end.

Lemma decodeElements_stored rs : forall o out,
  Forall storable rs ->
  decodeElements o (map Bulk (map encodeStoredRecord rs)) out = inr (out ++ numbered o rs).
Proof.
  induction rs as [|r rs IH]; intros o out Hrs; [cbn; by rewrite app_nil_r|].
  apply Forall_cons in Hrs as [[Hr Hf] Hrs]. cbn [map decodeElements str_of].
  rewrite stored_read by done. rewrite IH by done. cbn [numbered]. by rewrite <- app_assoc.
Qed.

(** Distinct partitions have distinct keys, whatever the topic names hold: the
    partition number has no colon. *)
Lemma to_string_no_colon n : 58 ∉ to_string n.
Proof.
  assert (Forall (fun c => c <> 58) (to_string n)) as Hf.
  { unfold to_string. destruct (Z.ltb_spec n 0); [constructor; [done|]|];
      (eapply List.Forall_impl; [|apply digits_digit; lia]); unfold is_digit; intros; lia. }
  intros Hin. rewrite list.Forall_forall in Hf. by apply (Hf 58).
Qed.

Lemma split_last_colon (a b x y : bytes) : 58 ∉ x -> 58 ∉ y -> a ++ 58 :: x = b ++ 58 :: y -> a = b /\ x = y.
Proof.
  intros Hx Hy Heq. apply app_eq_app in Heq as [l [[-> He]|[-> He]]].
  - destruct l as [|c l]; simplify_eq/=; [by rewrite app_nil_r|]. destruct Hy. set_solver.
  - destruct l as [|c l]; simplify_eq/=; [by rewrite app_nil_r|]. destruct Hx. set_solver.
Qed.

Lemma logKey_inj t p t' p' : is_i64 p -> is_i64 p' -> logKey t p = logKey t' p' -> t = t' /\ p = p'.
Proof.
  intros Hp Hp' He. unfold logKey in He. apply app_inv_head in He.
  apply split_last_colon in He as [-> He]; [|apply to_string_no_colon..].
  split; [done|]. by apply to_string_inj.
Qed.

End log.

(** ** What the log promises, from what the server promises *)

Section laws.
Context `{RespLaws St}.

Definition log_is (st : St) (topic : bytes) (partition : Z) (records : list Record_) : Prop :=
  list_at st (logKey topic partition) = Some (map encodeStoredRecord records) /\ Forall storable records.

Lemma call_reply st argv r st' :
  command st argv = (inr r, st') -> match r with Error _ => False | _ => True end -> call st argv = (inr r, st').
Proof. intros Hc Hr. unfold call. rewrite Hc. by destruct r. Qed.

Lemma highWatermark_ok st topic p L :
  up st -> log_is st topic p L -> highWatermark st topic p = (inr (Z.of_nat (length L)), st).
Proof.
  intros Hup [Hl _]. unfold highWatermark.
  rewrite (call_reply _ _ _ _ (llen_law st _ _ Hup Hl) I). cbn. by rewrite length_map.
Qed.

Lemma append_log_ok st topic p L rs :
  up st -> log_is st topic p L -> Forall storable rs -> pushable topic p rs -> s_range 32 p ->
  exists st', append st topic p rs = (inr (Z.of_nat (length L)), st') /\ up st' /\ log_is st' topic p (L ++ rs) /\
    forall topic' p' L', s_range 32 p' -> (topic', p') <> (topic, p) -> log_is st topic' p' L' -> log_is st' topic' p' L'.
Proof.
  intros Hup HL Hrs Hpush Hp. unfold append. destruct (Nat.eqb_spec (length rs) 0) as [Hnil|Hnil].
  { apply nil_length_inv in Hnil as ->. exists st. rewrite app_nil_r. split; [by apply highWatermark_ok|]. done. }
  destruct HL as [Hl HL].
  destruct (rpush_law st _ _ (map encodeStoredRecord rs) Hup Hl) as (st' & Hc & Hup' & Hl' & Hother); [by destruct rs|done|].
  exists st'. rewrite (call_reply _ _ _ _ Hc I). cbn [integer_of]. rewrite !length_map.
  split; [do 2 f_equal; lia|]. split; [done|]. split.
  { split; [by rewrite Hl', map_app|by apply Forall_app_2]. }
  intros topic' p' L' Hp' Hne [Hl2 HL']. split; [|done]. destruct (Hother (logKey topic' p')) as [-> _]; [|done].
  intros He. apply Hne. apply logKey_inj in He as [-> ->]; [done|unfold s_range in *; lia..].
Qed.

Lemma append_keeps_topics st topic p L rs x st' t :
  up st -> log_is st topic p L -> pushable topic p rs -> append st topic p rs = (x, st') ->
  hash_at st' (metaKey t) = hash_at st (metaKey t) /\ set_at st' kTopicSetKey = set_at st kTopicSetKey.
Proof.
  intros Hup HL Hpush. unfold append. destruct (Nat.eqb_spec (length rs) 0) as [Hnil|Hnil]; [rewrite (highWatermark_ok _ _ _ _ Hup HL); by intros [= _ <-]|].
  destruct HL as [Hl _]. destruct (rpush_law st _ _ (map encodeStoredRecord rs) Hup Hl) as (st1 & Hc & _ & _ & Hother); [by destruct rs|done|].
  rewrite (call_reply _ _ _ _ Hc I). intros [= _ <-]. split; by apply Hother.
Qed.

Lemma read_ok st topic p L off n :
  up st -> log_is st topic p L -> 0 <= off -> is_i64 (off + n) -> is_i64 n ->
  read st topic p off n = (inr (numbered off (take (Z.to_nat n) (drop (Z.to_nat off) L))), st).
Proof.
  intros Hup [Hl HL] Hoff Hr Hn. unfold read. destruct (Z.leb_spec n 0).
  { by replace (Z.to_nat n) with 0%nat by lia. }
  assert (is_i64 off /\ is_i64 (off + n - 1)) as [Ha Hb] by (unfold s_range in *; lia).
  rewrite (call_reply _ _ _ _ (lrange_law st _ _ off (off + n - 1) Hup Hl Hoff ltac:(lia) Ha Hb) I).
  cbn [elements_of]. replace (off + n - 1 + 1 - off) with n by lia.
  rewrite skipn_map, firstn_map.
  rewrite decodeElements_stored by (by apply Forall_take, Forall_drop). done.
Qed.

(** ** The time index *)

(** Timestamps do not go backwards within the partition. *)
Definition in_time_order (L : list Record_) : Prop :=
  forall i j r r', (i <= j)%nat -> L !! i = Some r -> L !! j = Some r' -> timestamp r <= timestamp r'.

(** [o] splits the log at the time [ts]. *)
Definition splits_at (L : list Record_) (ts o : Z) : Prop :=
  0 <= o <= Z.of_nat (length L) /\
  (forall i r, Z.of_nat i < o -> L !! i = Some r -> timestamp r < ts) /\
  (forall i r, o <= Z.of_nat i -> L !! i = Some r -> ts <= timestamp r).

Lemma search_ok fuel st topic p L ts lo hi :
  up st -> log_is st topic p L -> in_time_order L -> Z.of_nat (length L) < 2 ^ 63 ->
  0 <= lo <= hi -> hi <= Z.of_nat (length L) -> hi - lo < 2 ^ Z.of_nat fuel ->
  (forall i r, Z.of_nat i < lo -> L !! i = Some r -> timestamp r < ts) ->
  (forall i r, hi <= Z.of_nat i -> L !! i = Some r -> ts <= timestamp r) ->
  exists o, search fuel st (logKey topic p) ts lo hi = Some (inr o, st) /\ splits_at L ts o.
Proof.
  intros Hup HL Hord Hlen. revert lo hi. induction fuel as [|fuel IH]; intros lo hi Hlo Hhi Hf Hb Ha.
  { change (2 ^ Z.of_nat 0) with 1 in Hf. exists lo. cbn [search]. rewrite (proj2 (Z.leb_le _ _)) by lia.
    split; [done|]. replace hi with lo in Ha by lia. split; [lia|done]. }
  cbn [search]. destruct (Z.leb_spec hi lo).
  { exists lo. split; [done|]. replace hi with lo in Ha by lia. split; [lia|done]. }
  rewrite Z.quot_div_nonneg by lia. set (mid := lo + (hi - lo) / 2).
  assert (lo <= mid < hi) by (subst mid; dmlia).
  assert (2 ^ Z.of_nat (S fuel) = 2 * 2 ^ Z.of_nat fuel) as Hpow.
  { rewrite Nat2Z.inj_succ, Z.pow_succ_r by lia. done. }
  pose proof HL as [Hl HLs].
  rewrite (call_reply _ _ _ _ (lindex_law st _ _ mid Hup Hl ltac:(unfold s_range; lia) ltac:(lia)));
    [|by destruct (_ !! _)].
  destruct (lookup_lt_is_Some_2 L (Z.to_nat mid)) as [r Hr]; [lia|].
  change (map encodeStoredRecord L) with (encodeStoredRecord <$> L). rewrite list_lookup_fmap, Hr. cbn [fmap option_fmap option_map isNull str_of].
  destruct (Forall_lookup_1 _ _ _ _ HLs Hr) as [Hok Hfit]. rewrite stored_read by done. cbn [timestamp at_offset].
  destruct (Z.ltb_spec (timestamp r) ts).
  - apply IH; [lia|lia|subst mid; dmlia| |done]. intros i r' Hi Hr'.
    eapply Z.le_lt_trans; [|done]. eapply Hord; [|done..]. lia.
  - apply IH; [lia|lia|subst mid; dmlia|done|]. intros i r' Hi Hr'.
    etrans; [done|]. eapply Hord; [|done..]. lia.
Qed.

Lemma offsetForTimestamp_ok st topic p L ts :
  up st -> log_is st topic p L -> in_time_order L -> Z.of_nat (length L) < 2 ^ 63 ->
  exists o, splits_at L ts o /\
    offsetForTimestamp st topic p ts = Some (inr (if o <? Z.of_nat (length L) then o else -1), st).
Proof.
  intros Hup HL Hord Hlen. unfold offsetForTimestamp. rewrite (highWatermark_ok _ _ _ L) by done.
  destruct (Z.eqb_spec (Z.of_nat (length L)) 0) as [Hz|Hz].
  { assert (L = []) as -> by (apply nil_length_inv; lia). exists 0. split; [|done].
    split; [done|]. by split; intros i r _ Hi; rewrite lookup_nil in Hi. }
  destruct (search_ok 64 st topic p L ts 0 (Z.of_nat (length L))) as (o & -> & Ho); try done; try lia.
  - intros i r Hi Hr. apply lookup_lt_Some in Hr. lia.
  - exists o. split; [done|]. done.
Qed.

(** a partition is a sequence of records and an offset is an index into
    it. Against any server that keeps its promises about lists: [append]
    reports the number of records already there as the base offset, extends
    that partition and no other, by exactly the new records; [highWatermark]
    is the number of records; [read] returns the records from the offset on,
    at most as many as asked for, each numbered with its own offset. *)
Theorem partition_log_is_sequence st topic p L :
  up st -> log_is st topic p L -> s_range 32 p ->
  highWatermark st topic p = (inr (Z.of_nat (length L)), st) /\
  (forall off n, 0 <= off -> is_i64 n -> is_i64 (off + n) ->
     read st topic p off n = (inr (numbered off (take (Z.to_nat n) (drop (Z.to_nat off) L))), st)) /\
  (forall rs, Forall storable rs -> pushable topic p rs ->
     exists st', append st topic p rs = (inr (Z.of_nat (length L)), st') /\ up st' /\ log_is st' topic p (L ++ rs) /\
       forall topic' p' L', s_range 32 p' -> (topic', p') <> (topic, p) -> log_is st topic' p' L' -> log_is st' topic' p' L').
Proof.
  intros Hup HL Hp. split; [by apply highWatermark_ok|]. split; intros; [by apply read_ok|by apply append_log_ok].
Qed.

(** the time lookup is a correct binary search and always ends: in a
    partition whose timestamps do not go backwards, [offsetForTimestamp]
    returns the first offset whose record is at least as new as the given
    time, and -1 exactly when every record is older. *)
Theorem offsetForTimestamp_first st topic p L ts :
  up st -> log_is st topic p L -> in_time_order L -> Z.of_nat (length L) < 2 ^ 63 ->
  exists o, offsetForTimestamp st topic p ts = Some (inr o, st) /\
    ((o = -1 /\ Forall (fun r => timestamp r < ts) L) \/
     (exists r, 0 <= o /\ L !! Z.to_nat o = Some r /\ ts <= timestamp r /\
        forall i r', (i < Z.to_nat o)%nat -> L !! i = Some r' -> timestamp r' < ts)).
Proof.
  intros Hup HL Hord Hlen.
  destruct (offsetForTimestamp_ok st topic p L ts Hup HL Hord Hlen) as (o & (Hr & Hlt & Hge) & ->).
  eexists. split; [done|]. destruct (Z.ltb_spec o (Z.of_nat (length L))).
  - right. destruct (lookup_lt_is_Some_2 L (Z.to_nat o)) as [r Hl]; [lia|]. exists r.
    split; [lia|]. split; [done|]. split; [apply (Hge (Z.to_nat o)); [lia|done]|].
    intros i r' Hi. apply Hlt. lia.
  - left. split; [done|]. apply Forall_lookup. intros i r Hi. apply (Hlt i); [|done].
    apply lookup_lt_Some in Hi. lia.
Qed.

(** ** Topics *)

Lemma leading_digits_digits n : 0 <= n -> leading_digits (digits n) = digits n.
Proof.
  intros Hn. pose proof (digits_digit n Hn) as Hd. induction Hd as [|c ds Hc _ IH]; [done|].
  unfold is_digit in Hc. cbn [leading_digits]. rewrite (proj2 (Z.leb_le 48 c)), (proj2 (Z.leb_le c 57)) by lia.
  cbn [andb]. by rewrite IH.
Qed.

Lemma strtol_to_string n : 0 <= n < 2 ^ 63 -> strtol (to_string n) = n.
Proof.
  intros Hn. unfold to_string. rewrite (proj2 (Z.ltb_ge n 0)) by lia. unfold strtol.
  destruct (digits_cons n) as (d & ds & E & Hd & _); [lia|]. rewrite E. unfold is_digit in Hd.
  assert (skip_space (d :: ds) = d :: ds) as -> by (cbn [skip_space]; by rewrite (proj2 (Z.eqb_neq d 32)), (proj2 (Z.leb_gt d 13)), andb_false_r by lia). cbv zeta.
  rewrite (proj2 (Z.eqb_neq d 45)), (proj2 (Z.eqb_neq d 43)) by lia. rewrite <- E.
  rewrite leading_digits_digits, dec_val_digits by lia. lia.
Qed.

Lemma topicPartitions_ok st topic h n :
  up st -> hash_at st (metaKey topic) = Some h -> h !! str "partitions" = Some (to_string n) -> 0 <= n < 2 ^ 31 ->
  topicPartitions st topic = (inr n, st).
Proof.
  intros Hup Hh Hn Hr. unfold topicPartitions.
  rewrite (call_reply _ _ _ _ (hget_law st _ _ (str "partitions") Hup Hh)); [|by destruct (_ !! _)].
  rewrite Hn. cbn [isNull str_of orb].
  pose proof (to_string_length n ltac:(unfold s_range; lia)).
  destruct (Nat.eqb_spec (length (to_string n)) 0); [lia|].
  rewrite strtol_to_string, swrap_small by (try lia; unfold s_range; lia).
  by rewrite (proj2 (Z.ltb_ge n 0)) by lia.
Qed.

(** What creating a topic does to the keyspace. *)
Lemma createTopic_ok st topic s h n :
  up st -> set_at st kTopicSetKey = Some s -> hash_at st (metaKey topic) = Some h ->
  exists st', createTopic st topic n = (inr tt, st') /\ up st' /\ set_at st' kTopicSetKey = Some ({[topic]} ∪ s) /\
    hash_at st' (metaKey topic) = Some (match h !! str "partitions" with Some _ => h | None => <[str "partitions" := to_string n]> h end) /\
    (forall k, k <> kTopicSetKey -> list_at st' k = list_at st k \/ k = metaKey topic) /\
    (forall k, k <> kTopicSetKey -> hash_at st' k = hash_at st k \/ k = metaKey topic).
Proof.
  intros Hup Hs Hh. assert (metaKey topic <> kTopicSetKey) as Hne by done.
  destruct (sadd_law st kTopicSetKey s topic Hup Hs) as (st1 & r1 & Hc1 & Hup1 & Hs1 & Ho1).
  rewrite <- (proj1 (proj2 (Ho1 (metaKey topic) Hne))) in Hh.
  destruct (hsetnx_law st1 _ h (str "partitions") (to_string n) Hup1 Hh) as (st2 & r2 & Hc2 & Hup2 & Hh2 & Ho2).
  exists st2. unfold createTopic. rewrite (call_reply _ _ _ _ Hc1 I), (call_reply _ _ _ _ Hc2 I).
  split; [done|]. split; [done|]. split; [by rewrite (proj2 (proj2 (Ho2 kTopicSetKey ltac:(done))))|]. split; [done|].
  split; intros k Hk; (destruct (decide (k = metaKey topic)) as [->|Hk2]; [by right|left]).
  - by rewrite (proj1 (Ho2 k Hk2)), (proj1 (Ho1 k Hk)).
  - by rewrite (proj1 (proj2 (Ho2 k Hk2))), (proj1 (proj2 (Ho1 k Hk))).
Qed.

(** [createTopic] registers the topic, and a topic keeps the number of
    partitions it was first created with: creating it reports success either
    way, a new topic then has the given count, and an existing one still has
    its own. *)
Theorem createTopic_keeps_partitions st topic s h n :
  up st -> set_at st kTopicSetKey = Some s -> hash_at st (metaKey topic) = Some h -> 0 <= n < 2 ^ 31 ->
  exists st', createTopic st topic n = (inr tt, st') /\ up st' /\ set_at st' kTopicSetKey = Some ({[topic]} ∪ s) /\
    (h !! str "partitions" = None -> topicPartitions st' topic = (inr n, st')) /\
    (forall m, 0 <= m < 2 ^ 31 -> h !! str "partitions" = Some (to_string m) -> topicPartitions st' topic = (inr m, st')).
Proof.
  intros Hup Hs Hh Hn. assert (metaKey topic <> kTopicSetKey) as Hne by done.
  destruct (sadd_law st kTopicSetKey s topic Hup Hs) as (st1 & r1 & Hc1 & Hup1 & Hs1 & Ho1).
  rewrite <- (proj1 (proj2 (Ho1 (metaKey topic) ltac:(done)))) in Hh.
  destruct (hsetnx_law st1 _ h (str "partitions") (to_string n) Hup1 Hh) as (st2 & r2 & Hc2 & Hup2 & Hh2 & Ho2).
  exists st2. unfold createTopic. rewrite (call_reply _ _ _ _ Hc1 I), (call_reply _ _ _ _ Hc2 I).
  split; [done|]. split; [done|]. split; [by rewrite (proj2 (proj2 (Ho2 kTopicSetKey ltac:(done))))|]. split.
  - intros Hnone. rewrite Hnone in Hh2. eapply topicPartitions_ok; [done..| |done]. by rewrite lookup_insert_eq.
  - intros m Hm Hsome. rewrite Hsome in Hh2. by eapply topicPartitions_ok.
Qed.

End laws.
End Log.

(** ** A server that keeps the promises *)

Module KeyStore.

Inductive value := VList (l : list bytes) | VHash (h : gmap bytes bytes) | VSet (s : gset bytes).
Abbreviation store := (gmap bytes value).

Definition as_list (st : store) (k : bytes) : option (list bytes) := match st !! k with None => Some [] | Some (VList l) => Some l | _ => None end.
Definition as_hash (st : store) (k : bytes) : option (gmap bytes bytes) :=
  match st !! k with None => Some ∅ | Some (VHash h) => Some h | _ => None end.
Definition as_set (st : store) (k : bytes) : option (gset bytes) :=
  match st !! k with None => Some ∅ | Some (VSet s) => Some s | _ => None end.

Definition wrongtype : Reply := Error (str "WRONGTYPE Operation against a key holding the wrong kind of value").
Definition from (n : nat) (i : Z) : Z := if i <? 0 then Z.max 0 (i + Z.of_nat n) else i.

#[export] Instance key_store : RespServer store := fun st argv =>
  match argv with
  | name :: k :: args =>
      let on_list f := match as_list st k with Some l => f l | None => (inr wrongtype, st) end in
      let on_hash f := match as_hash st k with Some h => f h | None => (inr wrongtype, st) end in
      match args with
      | [] => on_list (fun l => (inr (Integer (Z.of_nat (length l))), st))
      | a :: rest =>
          if name =b? str "RPUSH" then
            on_list (fun l => (inr (Integer (Z.of_nat (length l + length args))), <[k := VList (l ++ args)]> st))
          else if name =b? str "SADD" then
            match as_set st k with
            | Some s => (inr (Integer (if decide (a ∈ s) then 0 else 1)), <[k := VSet ({[a]} ∪ s)]> st)
            | None => (inr wrongtype, st)
            end
          else if name =b? str "HGET" then
            on_hash (fun h => (inr (match h !! a with Some v => Bulk v | None => Null end), st))
          else if name =b? str "HSETNX" then
            on_hash (fun h =>
              match h !! a with
              | Some _ => (inr (Integer 0), <[k := VHash h]> st)
              | None => (inr (Integer 1), <[k := VHash (<[a := default [] (head rest)]> h)]> st)
              end)
          else
            match stringToInt64 a, stringToInt64 (default [] (head rest)) with
            | Some a, Some b =>
                on_list (fun l =>
                  let a := from (length l) a in let b := from (length l) b in
                  (inr (Array (map Bulk (take (Z.to_nat (b + 1 - a)) (drop (Z.to_nat a) l)))), st))
            | Some i, None =>
                on_list (fun l =>
                  (inr (match l !! Z.to_nat (from (length l) i) with Some v => Bulk v | None => Null end), st))
            | None, _ => (inr (Error (str "ERR value is not an integer or out of range")), st)
            end
      end
  | _ => (inr (Error (str "ERR unknown command")), st)
  end.

Lemma from_nonneg n i : 0 <= i -> from n i = i.
Proof. intros. unfold from. by rewrite (proj2 (Z.ltb_ge i 0)) by lia. Qed.

#[export] Instance key_store_laws : RespLaws store.
Proof.
  refine {| up := fun _ => True; list_at := as_list; hash_at := as_hash; set_at := as_set |}.
  - intros st k l _ Hl. unfold command, key_store, LLEN. by rewrite Hl.
  - intros st k l a b _ Hl Ha Hb Hia Hib. unfold command, key_store, LRANGE.
    change (str "LRANGE" =b? _) with false. cbv iota. cbn [head from_option id].
    rewrite !stringToInt64_to_string by done. rewrite Hl. cbv zeta. rewrite !from_nonneg by done. done.
  - intros st k l i _ Hl Hi Hi0. unfold command, key_store, LINDEX.
    change (str "LINDEX" =b? _) with false. cbv iota. cbn [head from_option id].
    rewrite stringToInt64_to_string by done. change (stringToInt64 (default [] None)) with (@None Z).
    by rewrite Hl, from_nonneg by done.
  - intros st k l vs _ Hl Hvs _. unfold command, key_store, RPUSH. destruct vs as [|v vs]; [done|].
    change (str "RPUSH" =b? str "RPUSH") with true. cbv iota. rewrite Hl. eexists. split; [done|]. split; [done|].
    unfold as_list. split; [by rewrite lookup_insert_eq|]. intros k' Hk. unfold as_hash, as_set. by rewrite !lookup_insert_ne.
  - intros st k s m _ Hs. unfold command, key_store, SADD.
    change (str "SADD" =b? str "SADD") with true. change (str "SADD" =b? _) with false. cbv iota.
    rewrite Hs. do 2 eexists. split; [done|]. split; [done|].
    split; [unfold as_set; by rewrite lookup_insert_eq|]. intros k' Hk. unfold as_list, as_hash, as_set. by rewrite !lookup_insert_ne.
  - intros st k h f v _ Hh. unfold command, key_store, HSETNX.
    change (str "HSETNX" =b? str "HSETNX") with true. change (str "HSETNX" =b? _) with false. cbv iota.
    rewrite Hh. cbn [head from_option id]. destruct (h !! f).
    + do 2 eexists. split; [done|]. split; [done|].
      split; [unfold as_hash; by rewrite lookup_insert_eq|]. intros k' Hk. unfold as_list, as_hash, as_set. by rewrite !lookup_insert_ne.
    + do 2 eexists. split; [done|]. split; [done|].
      split; [unfold as_hash; by rewrite lookup_insert_eq|]. intros k' Hk. unfold as_list, as_hash, as_set. by rewrite !lookup_insert_ne.
  - intros st k h f _ Hh. unfold command, key_store, HGET.
    change (str "HGET" =b? str "HGET") with true. change (str "HGET" =b? _) with false. cbv iota. by rewrite Hh.
Defined.

Lemma always_up : up (∅ : store).
Proof. exact I. Qed.

Lemma partition_log_is_sequence_witness :
  exists st', Log.append (∅ : store) (str "t") 0 [sample_record] = (inr 0, st') /\
    Log.log_is st' (str "t") 0 [sample_record].
Proof.
  assert (Log.log_is (∅ : store) (str "t") 0 []) as HL by (split; [reflexivity|constructor]).
  destruct (Log.partition_log_is_sequence (∅ : store) (str "t") 0 [] always_up HL ltac:(decide_now)) as (_ & _ & Ha).
  destruct (Ha [sample_record]) as (st' & He & _ & Hl & _).
  - constructor; [split; [reflexivity|vm_compute; reflexivity]|constructor].
  - split; [vm_compute; discriminate|]. repeat (apply Forall_cons; split; [vm_compute; discriminate|]). apply Forall_nil_2.
  - exists st'. split; [exact He|exact Hl].
Defined.

Lemma offsetForTimestamp_first_witness :
  exists o, Log.offsetForTimestamp (∅ : store) (str "t") 0 5 = Some (inr o, ∅).
Proof.
  destruct (Log.offsetForTimestamp_first (∅ : store) (str "t") 0 [] 5 always_up) as (o & He & _).
  - split; [reflexivity|constructor].
  - intros i j r r' _ Hi. rewrite lookup_nil in Hi. discriminate.
  - reflexivity.
  - exists o. exact He.
Defined.

Lemma createTopic_keeps_partitions_witness :
  exists st', Log.createTopic (∅ : store) (str "t") 3 = (inr tt, st') /\ Log.topicPartitions st' (str "t") = (inr 3, st').
Proof.
  destruct (Log.createTopic_keeps_partitions (∅ : store) (str "t") ∅ ∅ 3 always_up eq_refl eq_refl ltac:(lia))
    as (st' & He & _ & _ & Hn & _).
  exists st'. split; [exact He|]. apply Hn. reflexivity.
Defined.

End KeyStore.
