(* ===== verification/KafkaBroker.v ===== *)
(** * KafkaBroker: request dispatch

    [src/kafka/broker.h] and [src/kafka/broker.cpp]: one request frame in, one
    outcome out. The broker is a client of the partition log and of the clock;
    the theorems follow records from a producer's frame to a consumer's. *)

From Stdlib Require Import ZArith Lia.
Set Warnings "-register-all".
From stdpp Require Import base list numbers option strings gmap sorting.
From S2P Require Import Prelude Encoding Order Reply KafkaWriter KafkaWire KafkaRecords KafkaLog.
Import Wire Records Log.

Module Broker.

(** ** Configuration and versions *)

Record BrokerConfig := mkConfig {
  advertised_host : bytes; advertised_port : Z; node_id : Z; cluster_id : bytes; default_partitions : Z; auto_create_topics : bool }.

Definition default_config : BrokerConfig := mkConfig (str "127.0.0.1") 9092 1 (str "mnemos-kafka") 1 true.

Inductive ApiKey := Produce | Fetch | ListOffsets | Metadata | ApiVersions.
Definition api_number (k : ApiKey) : Z := match k with Produce => 0 | Fetch => 1 | ListOffsets => 2 | Metadata => 3 | ApiVersions => 18 end.

Record ApiSupport := mkApi { api : ApiKey; min_version : Z; max_version : Z }.

Definition kApis : list ApiSupport :=
  [mkApi Produce 3 7; mkApi Fetch 4 11; mkApi ListOffsets 1 5; mkApi Metadata 0 8; mkApi ApiVersions 0 2].

Definition kNoAuthorizedOperations : Z := - 2 ^ 31.
Definition kMaxFetchRecords : Z := 4096.
Definition kFetchPollMs : Z := 25.
Definition kMaxFetchWaitMs : Z := 30000.

Definition findApi (key : Z) : option ApiSupport := List.find (fun a => api_number (api a) =? key) kApis.

Definition error_number (e : ErrorCode) : Z :=
  match e with
  | None_ => 0 | OffsetOutOfRange => 1 | UnknownTopicOrPartition => 3 | UnsupportedVersion => 35 | InvalidRequest => 42
  | KafkaStorageError => 56 | UnsupportedCompression => 76
  end.
Definition errorCode (e : ErrorCode) : bytes := W.int16 (error_number e).
Definition no_error (e : ErrorCode) : bool := match e with None_ => true | _ => false end.

Definition estimateRecordSize (rec : Record_) : Z :=
  16 + Z.of_nat (length (key rec) + length (value rec)) + foldl (fun size h => size + Z.of_nat (length (h_key h) + length (h_value h) + 4)) 0 (headers rec).

Inductive outcome := Respond (response : bytes) | Silence | Retry (retry_in_ms max_wait_ms : Z) | Close.

(** A field that some versions have. *)
Definition since (b : bool) (w : bytes) : bytes := if b then w else [].

Section Broker.
Context {St : Type} {server : RespServer St}.
Context (config : BrokerConfig).

(** [PartitionLog::disconnect], and a reading of the clock. *)
Context (disconnect : St -> St) (nowMs : St -> Z * St).

(** ** Handlers *)

(** A handler reads the request, talks to the log and writes the body; [None] is
    the return of [false]. *)
Record env := mkEnv { log_ : St; r : Reader; w : bytes }.
Definition act (A : Type) : Type := env -> option A * env.

Definition done {A} (a : A) : act A := fun e => (Some a, e).
Definition then_ {A B} (m : act A) (k : A -> act B) : act B := fun e =>
  match m e with
  | (Some a, e) => k a e
  | (None, e) => (None, e)
  end.
Definition reading {A} (m : rd A) : act A := fun e => let '(a, rd') := m (r e) in (Some a, mkEnv (log_ e) rd' (w e)).
Definition writing (b : bytes) : act unit := fun e => (Some tt, mkEnv (log_ e) (r e) (w e ++ b)).
Definition asking {A} (f : St -> A * St) : act A := fun e => let '(a, st) := f (log_ e) in (Some a, mkEnv st (r e) (w e)).
Definition give_false {A} : act A := fun e => (None, e).
(** [if (!r.ok()) return false;] *)
Definition check_ok : act unit := fun e => (if ok_ (r e) then Some tt else None, e).

Notation "x <~ m ;; k" := (then_ m (fun x => k)) (at level 100, m at next level, right associativity).
Notation "m ;~ k" := (then_ m (fun _ => k)) (at level 100, right associativity).

(** [for (i = 0; i < n; ++i)], with what the turns return. *)
Fixpoint each {A} (n : nat) (body : act A) : act (list A) :=
  match n with
  | O => done []
  | S n => a <~ body;; l <~ each n body;; done (a :: l)
  end.

(** Reads a field that the handler does not use. *)
Definition skipping (b : bool) (m : rd Z) : act unit := if b then reading m;~ done tt else done tt.

(** A call of the log whose failure is logged and ends the connection. *)
Definition storing {A} (f : St -> (bytes + A) * St) : act (option A) :=
  x <~ asking f;;
  match x with
  | inr a => done (Some a)
  | inl _ => asking (fun st => (tt, disconnect st));~ done None
  end.

Definition partitionsFor (topic : bytes) (may_create : bool) : act Z :=
  x <~ storing (fun st => topicPartitions st topic);;
  match x with
  | None => done 0
  | Some partitions =>
      if (partitions =? 0) && may_create && auto_create_topics config then
        y <~ storing (fun st => createTopic st topic (default_partitions config));;
        done (match y with Some _ => default_partitions config | None => 0 end)
      else done partitions
  end.

(** *** ApiVersions *)

Definition api_entries : bytes :=
  W.arrayLen (Z.of_nat (length kApis)) ++ concat (map (fun a => W.int16 (api_number (api a)) ++ W.int16 (min_version a) ++ W.int16 (max_version a)) kApis).

Definition apiVersions (version : Z) : act unit := writing (errorCode None_ ++ api_entries ++ since (1 <=? version) (W.int32 0)).

(** The answer to a version that is not supported. *)
Definition unsupportedVersion : bytes := errorCode UnsupportedVersion ++ api_entries.

(** *** Metadata *)

Definition partition_metadata (version p : Z) : bytes :=
  errorCode None_ ++ W.int32 p ++ W.int32 (node_id config) ++ since (7 <=? version) (W.int32 0) ++
  W.arrayLen 1 ++ W.int32 (node_id config) ++ W.arrayLen 1 ++ W.int32 (node_id config) ++ since (5 <=? version) (W.arrayLen 0).

Definition topic_metadata (version : Z) (topic : bytes) (partitions : Z) : bytes :=
  errorCode (if 0 <? partitions then None_ else UnknownTopicOrPartition) ++ W.string topic ++ since (1 <=? version) (W.boolean false) ++
  W.arrayLen partitions ++ concat (map (fun p => partition_metadata version (Z.of_nat p)) (seq 0 (Z.to_nat partitions))) ++
  since (8 <=? version) (W.int32 kNoAuthorizedOperations).

Fixpoint describe_topics (version : Z) (may_create : bool) (topics : list bytes) : act unit :=
  match topics with
  | [] => done tt
  | topic :: topics =>
      partitions <~ partitionsFor topic may_create;;
      writing (topic_metadata version topic partitions);~
      describe_topics version may_create topics
  end.

(** The flag that only some versions have. *)
Definition creation_flag (version : Z) : act bool :=
  if 4 <=? version then allowed <~ reading int8;; done (negb (allowed =? 0) && auto_create_topics config) else done (auto_create_topics config).

Definition metadata (version : Z) : act unit :=
  n <~ reading arrayLen;;
  let '(count, was_null) := n in
  requested <~ each (Z.to_nat count) (reading string);;
  let all_topics := was_null || ((version =? 0) && (count =? 0)) in
  may_create <~ creation_flag version;;
  skipping (8 <=? version) int8;~
  skipping (8 <=? version) int8;~
  check_ok;~
  requested <~ (if all_topics then
                  x <~ storing listTopics;;
                  match x with Some l => done l | None => give_false end
                else done requested);;
  writing (since (3 <=? version) (W.int32 0) ++
    W.arrayLen 1 ++ W.int32 (node_id config) ++ W.string (advertised_host config) ++ W.int32 (advertised_port config) ++
    since (1 <=? version) W.nullString ++ since (2 <=? version) (W.string (cluster_id config)) ++ since (1 <=? version) (W.int32 (node_id config)) ++
    W.arrayLen (Z.of_nat (length requested)));~
  describe_topics version (may_create && negb all_topics) requested;~
  writing (since (8 <=? version) (W.int32 kNoAuthorizedOperations)).

(** *** Produce *)

Definition stamp (now : Z) (rec : Record_) : Record_ :=
  if timestamp rec <? 0 then mkRecord (offset rec) now (key rec) (key_null rec) (value rec) (value_null rec) (headers rec) else rec.

(** The error and the base offset of one partition's records. *)
Definition store_records (topic : bytes) (partitions index : Z) (blob : option bytes) : act (ErrorCode * Z) :=
  if (index <? 0) || (partitions <=? index) then done (UnknownTopicOrPartition, -1)
  else
    let '(error, records) := match blob with Some blob => decodeRecordBatches blob | None => (None_, []) end in
    if negb (no_error error) then done (error, -1)
    else
      now <~ asking nowMs;;
      x <~ storing (fun st => append st topic index (map (stamp now) records));;
      done (match x with Some base_offset => (None_, base_offset) | None => (KafkaStorageError, -1) end).

Definition produce_partition (version : Z) (topic : bytes) (partitions : Z) : act unit :=
  index <~ reading int32;;
  blob <~ reading nullableBytes;;
  check_ok;~
  x <~ store_records topic partitions index blob;;
  let '(error, base_offset) := x in
  writing (W.int32 index ++ errorCode error ++ W.int64 base_offset ++ since (2 <=? version) (W.int64 (-1)) ++ since (5 <=? version) (W.int64 0)).

Definition produce_topic (version : Z) : act unit :=
  topic <~ reading string;;
  n <~ reading arrayLen;;
  check_ok;~
  partitions <~ partitionsFor topic true;;
  writing (W.string topic ++ W.arrayLen (fst n));~
  each (Z.to_nat (fst n)) (produce_partition version topic partitions);~
  done tt.

(** Returns [silent]. *)
Definition produce (version : Z) : act bool :=
  (if 3 <=? version then reading nullableString;~ done tt else done tt);~
  acks <~ reading int16;;
  reading int32;~
  check_ok;~
  n <~ reading arrayLen;;
  check_ok;~
  writing (W.arrayLen (fst n));~
  each (Z.to_nat (fst n)) (produce_topic version);~
  writing (since (1 <=? version) (W.int32 0));~
  done (acks =? 0).

(** *** Fetch *)

Record FetchedPartition := mkFetched { f_index : Z; f_error : ErrorCode; high_water : Z; f_records : bytes }.
Record FetchedTopic := mkTopic { t_name : bytes; t_partitions : list FetchedPartition }.

(** How many records fit the budget; the first always does. *)
Fixpoint keep (max_bytes budget : Z) (first : bool) (records : list Record_) : nat :=
  match records with
  | [] => 0
  | rec :: records =>
      let budget := budget + estimateRecordSize rec in
      if negb first && (0 <? max_bytes) && (max_bytes <? budget) then 0 else S (keep max_bytes budget false records)
  end.

Definition fetch_from (topic : bytes) (partitions index fetch_offset max_bytes : Z) : act FetchedPartition :=
  if (index <? 0) || (partitions <=? index) then done (mkFetched index UnknownTopicOrPartition 0 [])
  else
    hw <~ storing (fun st => highWatermark st topic index);;
    match hw with
    | None => done (mkFetched index KafkaStorageError 0 [])
    | Some hw =>
        if (fetch_offset <? 0) || (hw <? fetch_offset) then done (mkFetched index OffsetOutOfRange hw [])
        else
          x <~ storing (fun st => read st topic index fetch_offset kMaxFetchRecords);;
          match x with
          | None => done (mkFetched index KafkaStorageError hw [])
          | Some records =>
              let records := take (keep max_bytes 0 true records) records in
              done (mkFetched index None_ hw (if (length records =? 0)%nat then [] else encodeRecordBatch fetch_offset records))
          end
    end.

Definition fetch_partition (version : Z) (topic : bytes) (partitions : Z) : act FetchedPartition :=
  index <~ reading int32;;
  skipping (9 <=? version) int32;~
  fetch_offset <~ reading int64;;
  skipping (5 <=? version) int64;~
  partition_max_bytes <~ reading int32;;
  check_ok;~
  fetch_from topic partitions index fetch_offset partition_max_bytes.

Definition fetch_topic (version : Z) : act FetchedTopic :=
  name <~ reading string;;
  n <~ reading arrayLen;;
  check_ok;~
  partitions <~ partitionsFor name false;;
  l <~ each (Z.to_nat (fst n)) (fetch_partition version name partitions);;
  done (mkTopic name l).

Definition forgotten_topic : act unit :=
  reading string;~
  n <~ reading arrayLen;;
  each (Z.to_nat (fst n)) (reading int32);~
  done tt.

Definition partition_bytes (p : FetchedPartition) : Z := Z.of_nat (length (f_records p)).
Definition total_bytes (results : list FetchedTopic) : Z :=
  foldr Z.add 0 (map (fun t => foldr Z.add 0 (map partition_bytes (t_partitions t))) results).

Definition fetched_partition (version : Z) (p : FetchedPartition) : bytes :=
  W.int32 (f_index p) ++ errorCode (f_error p) ++ W.int64 (high_water p) ++ since (4 <=? version) (W.int64 (high_water p)) ++
  since (5 <=? version) (W.int64 0) ++ since (4 <=? version) (W.int32 (-1)) ++ since (11 <=? version) (W.int32 (-1)) ++ W.bytes_ (f_records p).

Definition fetched_topic (version : Z) (t : FetchedTopic) : bytes :=
  W.string (t_name t) ++ W.arrayLen (Z.of_nat (length (t_partitions t))) ++ concat (map (fetched_partition version) (t_partitions t)).

(** Returns how long to wait, if the request is to be tried again. *)
Definition fetch (version : Z) (allow_wait : bool) : act (option Z) :=
  reading int32;~
  max_wait_ms <~ reading int32;;
  min_bytes <~ reading int32;;
  skipping (3 <=? version) int32;~
  skipping (4 <=? version) int8;~
  session_id <~ (if 7 <=? version then s <~ reading int32;; reading int32;~ done s else done 0);;
  check_ok;~
  n <~ reading arrayLen;;
  check_ok;~
  results <~ each (Z.to_nat (fst n)) (fetch_topic version);;
  (if 7 <=? version then forgotten <~ reading arrayLen;; each (Z.to_nat (fst forgotten)) forgotten_topic;~ done tt else done tt);~
  (if 11 <=? version then reading string;~ done tt else done tt);~
  check_ok;~
  if allow_wait && (0 <? max_wait_ms) && (total_bytes results <? Z.max min_bytes 1) then done (Some (Z.min max_wait_ms kMaxFetchWaitMs))
  else
    writing (since (1 <=? version) (W.int32 0) ++ since (7 <=? version) (errorCode None_ ++ W.int32 session_id) ++
      W.arrayLen (Z.of_nat (length results)) ++ concat (map (fetched_topic version) results));~
    done None.

(** *** ListOffsets *)

(** A search in the log either fails or finds an offset; its 64 turns are
    enough for any log. *)
Definition search_offset (st : St) (topic : bytes) (index ts : Z) : (bytes + Z) * St :=
  default (inl [], st) (offsetForTimestamp st topic index ts).

Definition list_offset (topic : bytes) (partitions index ts : Z) : act (ErrorCode * Z) :=
  if (index <? 0) || (partitions <=? index) then done (UnknownTopicOrPartition, -1)
  else if ts =? -2 then done (None_, 0)
  else
    x <~ storing (fun st => if ts =? -1 then highWatermark st topic index else search_offset st topic index ts);;
    done (match x with Some o => (None_, o) | None => (KafkaStorageError, -1) end).

Definition list_partition (version : Z) (topic : bytes) (partitions : Z) : act unit :=
  index <~ reading int32;;
  skipping (4 <=? version) int32;~
  ts <~ reading int64;;
  check_ok;~
  x <~ list_offset topic partitions index ts;;
  let '(error, o) := x in
  writing (W.int32 index ++ errorCode error ++ W.int64 (-1) ++ W.int64 o ++ since (4 <=? version) (W.int32 (-1))).

Definition list_topic (version : Z) : act unit :=
  topic <~ reading string;;
  n <~ reading arrayLen;;
  check_ok;~
  partitions <~ partitionsFor topic false;;
  writing (W.string topic ++ W.arrayLen (fst n));~
  each (Z.to_nat (fst n)) (list_partition version topic partitions);~
  done tt.

Definition listOffsets (version : Z) : act unit :=
  reading int32;~
  skipping (2 <=? version) int8;~
  check_ok;~
  n <~ reading arrayLen;;
  check_ok;~
  writing (since (2 <=? version) (W.int32 0) ++ W.arrayLen (fst n));~
  each (Z.to_nat (fst n)) (list_topic version);~
  done tt.

(** *** Dispatch *)

(** The frame of a body: its size, the correlation id, the body. *)
Definition framed (correlation_id : Z) (body : bytes) : bytes :=
  let out := W.int32 0 ++ W.int32 correlation_id ++ body in
  W.patchInt32 0 (i32 (Z.of_nat (length out) - 4)) out.

(** [silent] and the wait of a retry, of the handler for an API. *)
Definition handler (k : ApiKey) (version : Z) (version_ok allow_wait : bool) : act (bool * option Z) :=
  match k with
  | ApiVersions => (if version_ok then apiVersions version else writing unsupportedVersion);~ done (false, None)
  | Metadata => metadata version;~ done (false, None)
  | Produce => silent <~ produce version;; done (silent, None)
  | Fetch => wait_for <~ fetch version allow_wait;; done (false, wait_for)
  | ListOffsets => listOffsets version;~ done (false, None)
  end.

Definition handleRequest (st : St) (frame : bytes) (allow_wait : bool) : outcome * St :=
  let '(parsed, rd0) := parseRequestHeader (reader frame) in
  match parsed with
  | None => (Close, st)
  | Some header =>
      match findApi (api_key header) with
      | None => (Close, st)
      | Some a =>
          let version_ok := (min_version a <=? api_version header) && (api_version header <=? max_version a) in
          let answers_anyway := match api a with ApiVersions => true | _ => false end in
          if negb version_ok && negb answers_anyway then (Close, st)
          else
            let '(result, e) := handler (api a) (api_version header) version_ok allow_wait (mkEnv st rd0 []) in
            (match result with
             | None => Close
             | Some (_, Some wait_for) => Retry kFetchPollMs wait_for
             | Some (true, None) => Silence
             | Some (false, None) => Respond (framed (correlation_id header) (w e))
             end, log_ e)
      end
  end.

End Broker.

Notation "x <~ m ;; k" := (then_ m (fun x => k)) (at level 100, m at next level, right associativity).
Notation "m ;~ k" := (then_ m (fun _ => k)) (at level 100, right associativity).

(** ** Frames *)

Lemma framed_layout c body : framed c body = W.int32 (i32 (4 + Z.of_nat (length body))) ++ W.int32 c ++ body.
Proof.
  unfold framed. cbv zeta. unfold W.patchInt32. rewrite (patch_at [] 0 _ (W.int32 c ++ body)). cbn [app]. rewrite !length_app. change (length (W.int32 _)) with 4%nat.
  replace (Z.of_nat (4 + (4 + length body)) - 4) with (4 + Z.of_nat (length body)) by lia. done.
Qed.

(** ** Handlers as functions of what they read *)

Section Runs.
Context {St : Type} {server : RespServer St}.
Context (disconnect : St -> St).

(** Started on [wd], [m] reads it to the end, returns [a], takes the log from
    [st] to [st'] and writes [out], whatever follows and whatever was written. *)
Definition runs {A} (m : act A) (st : St) (wd : bytes) (a : A) (st' : St) (out : bytes) : Prop :=
  forall rest pos w0, m (mkEnv st (mkReader (wd ++ rest) pos true) w0) = (Some a, mkEnv st' (mkReader rest (pos + length wd) true) (w0 ++ out)).

Lemma runs_done {A} (a : A) st : runs (done a) st [] a st [].
Proof. intros rest pos w0. unfold done. cbn [length app]. by rewrite Nat.add_0_r, app_nil_r. Qed.

Lemma runs_then {A B} (m : act A) (k : A -> act B) st wd1 a st1 out1 wd2 b st2 out2 :
  runs m st wd1 a st1 out1 -> runs (k a) st1 wd2 b st2 out2 -> runs (then_ m k) st (wd1 ++ wd2) b st2 (out1 ++ out2).
Proof. intros H1 H2 rest pos w0. unfold then_. rewrite <- app_assoc, H1, H2. rewrite length_app, !app_assoc. do 3 f_equal. lia. Qed.

Lemma runs_then_l {A B} (m : act A) (k : A -> act B) st a st1 out1 wd b st2 out2 :
  runs m st [] a st1 out1 -> runs (k a) st1 wd b st2 out2 -> runs (then_ m k) st wd b st2 (out1 ++ out2).
Proof. apply (runs_then m k st []). Qed.

Lemma runs_silent {A B} (m : act A) (k : A -> act B) st wd1 a st1 wd2 b st2 out :
  runs m st wd1 a st1 [] -> runs (k a) st1 wd2 b st2 out -> runs (then_ m k) st (wd1 ++ wd2) b st2 out.
Proof. intros H1 H2. apply (runs_then m k _ _ _ _ [] _ _ _ _ H1 H2). Qed.

Lemma runs_pure {A B} (m : act A) (k : A -> act B) st a st1 wd b st2 out :
  runs m st [] a st1 [] -> runs (k a) st1 wd b st2 out -> runs (then_ m k) st wd b st2 out.
Proof. intros H1 H2. apply (runs_silent m k _ [] _ _ _ _ _ _ H1 H2). Qed.

Lemma runs_last {A B} (m : act A) (k : A -> act B) st wd a st1 out b st2 :
  runs m st wd a st1 out -> runs (k a) st1 [] b st2 [] -> runs (then_ m k) st wd b st2 out.
Proof. intros H1 H2. rewrite <- (app_nil_r wd), <- (app_nil_r out). by eapply runs_then. Qed.

Lemma runs_reading {A} (m : rd A) wd a st : reads m wd a -> runs (reading m) st wd a st [].
Proof. intros H rest pos w0. unfold reading. cbn [r log_ w]. by rewrite H, app_nil_r. Qed.

Lemma runs_writing b st : runs (writing b) st [] tt st b.
Proof. intros rest pos w0. unfold writing. cbn [length app r log_ w]. by rewrite Nat.add_0_r. Qed.

Lemma runs_asking {A} (f : St -> A * St) st a st' : f st = (a, st') -> runs (asking f) st [] a st' [].
Proof. intros H rest pos w0. unfold asking. cbn [length app r log_ w]. by rewrite H, Nat.add_0_r, app_nil_r. Qed.

Lemma runs_check st : runs check_ok st [] tt st [].
Proof. intros rest pos w0. unfold check_ok. cbn [length app r log_ w ok_]. by rewrite Nat.add_0_r, app_nil_r. Qed.

Lemma runs_storing {A} (f : St -> (bytes + A) * St) st a st' : f st = (inr a, st') -> runs (storing disconnect f) st [] (Some a) st' [].
Proof. intros H. unfold storing. eapply runs_pure; [by apply runs_asking|]. apply runs_done. Qed.

(** A field that is there in some versions only. *)
Lemma runs_skipping b (m : rd Z) wd v st : reads m wd v -> runs (skipping b m) st (since b wd) tt st [].
Proof.
  intros H. unfold skipping, since. destruct b; [|apply runs_done]. rewrite <- (app_nil_r wd). eapply runs_silent; [by apply runs_reading|apply runs_done].
Qed.

(** A counted sequence: the count does not exceed the bytes that follow. *)
Lemma runs_counted {B} (k : Z * bool -> act B) n wd st b st' out :
  0 <= n < 2 ^ 31 -> n <= Z.of_nat (length wd) -> runs (k (n, false)) st wd b st' out -> runs (then_ (reading arrayLen) k) st (W.arrayLen n ++ wd) b st' out.
Proof.
  intros Hn Hl H rest pos w0. unfold then_, reading. cbn [r log_ w]. unfold arrayLen, bind at 1. pose proof (reads_int32 n) as Hr. specialize (Hr ltac:(unfold s_range; lia)).
  unfold W.arrayLen. rewrite <- app_assoc, Hr. rewrite (proj2 (Z.ltb_ge n 0)) by lia. unfold bind, get_remaining, remaining. cbn [ok_ rest_].
  rewrite (proj2 (Z.ltb_ge _ n)) by (rewrite length_app; lia). unfold ret. rewrite H, length_app. do 3 f_equal. lia.
Qed.

(** A loop, turn by turn. *)
Inductive runs_all {A} (body : act A) : St -> list bytes -> list A -> St -> bytes -> Prop :=
  | runs_all_nil st : runs_all body st [] [] st []
  | runs_all_cons st wd a st1 out1 wds l st2 out2 :
      runs body st wd a st1 out1 -> runs_all body st1 wds l st2 out2 -> runs_all body st (wd :: wds) (a :: l) st2 (out1 ++ out2).

Lemma runs_each {A} (body : act A) n st wds l st' out : runs_all body st wds l st' out -> n = length wds -> runs (each n body) st (concat wds) l st' out.
Proof.
  intros H. revert n. induction H as [st|st wd a st1 out1 wds l st2 out2 H1 H2 IH]; intros n ->; cbn [length each concat]; [apply runs_done|].
  eapply runs_then; [exact H1|]. rewrite <- (app_nil_r (concat wds)), <- (app_nil_r out2). eapply runs_then; [by apply IH|apply runs_done].
Qed.

Lemma runs_string v st : Z.of_nat (length v) < 2 ^ 15 -> runs (reading string) st (W.string v) v st [].
Proof. intros Hl. apply runs_reading. unfold string. eapply reads_bind_last; [by apply reads_string|apply reads_ret]. Qed.
End Runs.

(** ** The abstract cluster *)

(** How many partitions a topic has, zero if it does not exist, and the records
    of each partition. *)
Record cluster := mkCluster { parts : bytes -> Z; logs : bytes -> Z -> list Record_ }.

Definition created (c : cluster) (topic : bytes) (n : Z) : cluster := mkCluster (fun t => if t =b? topic then n else parts c t) (logs c).
Definition appended (c : cluster) (topic : bytes) (index : Z) (rs : list Record_) : cluster :=
  mkCluster (parts c) (fun t p => if (t =b? topic) && (p =? index) then logs c t p ++ rs else logs c t p).

(** *** Produce *)

Definition blob_records (blob : option bytes) : ErrorCode * list Record_ :=
  match blob with Some b => decodeRecordBatches b | None => (None_, []) end.

(** What producing to the partitions of a topic does: an index the topic does
    not have, and a blob that does not decode, are refused one by one; the rest
    is appended, records without a timestamp stamped with a reading of the clock,
    and its base offset reported. The clock is read per partition. *)
Inductive produced_partitions (clock : Z -> Prop) (topic : bytes) (n : Z) : cluster -> list (Z * option bytes) -> list (Z * ErrorCode * Z) -> cluster -> Prop :=
  | produced_none c : produced_partitions clock topic n c [] [] c
  | produced_unknown c index blob l rs c' :
      index < 0 \/ n <= index -> produced_partitions clock topic n c l rs c' ->
      produced_partitions clock topic n c ((index, blob) :: l) ((index, UnknownTopicOrPartition, -1) :: rs) c'
  | produced_corrupt c index blob e out l rs c' :
      0 <= index < n -> blob_records blob = (e, out) -> e <> None_ -> produced_partitions clock topic n c l rs c' ->
      produced_partitions clock topic n c ((index, blob) :: l) ((index, e, -1) :: rs) c'
  | produced_stored c index blob records now l rs c' :
      0 <= index < n -> blob_records blob = (None_, records) -> clock now ->
      produced_partitions clock topic n (appended c topic index (map (stamp now) records)) l rs c' ->
      produced_partitions clock topic n c ((index, blob) :: l) ((index, None_, Z.of_nat (length (logs c topic index))) :: rs) c'.

(** A topic that does not exist is created when the broker may. *)
Definition resolved (config : BrokerConfig) (may_create : bool) (c : cluster) (topic : bytes) : Z * cluster :=
  if (parts c topic =? 0) && may_create && auto_create_topics config then (default_partitions config, created c topic (default_partitions config))
  else (parts c topic, c).

Inductive produced (clock : Z -> Prop) (config : BrokerConfig) : cluster -> list (bytes * list (Z * option bytes)) -> list (bytes * list (Z * ErrorCode * Z)) -> cluster -> Prop :=
  | produced_nil c : produced clock config c [] [] c
  | produced_topic c topic l rs c1 topics answers c2 :
      produced_partitions clock topic (fst (resolved config true c topic)) (snd (resolved config true c topic)) l rs c1 ->
      produced clock config c1 topics answers c2 -> produced clock config c ((topic, l) :: topics) ((topic, rs) :: answers) c2.

(** The frames on the wire. *)
Definition request_header (k : ApiKey) (version corr : Z) (client : bytes) : bytes :=
  W.int16 (api_number k) ++ W.int16 version ++ W.int32 corr ++ W.string client.

Definition produce_partition_request (x : Z * option bytes) : bytes := W.int32 (fst x) ++ match snd x with Some b => W.bytes_ b | None => W.nullBytes end.
Definition produce_topic_request (x : bytes * list (Z * option bytes)) : bytes :=
  W.string (fst x) ++ W.arrayLen (Z.of_nat (length (snd x))) ++ concat (map produce_partition_request (snd x)).
(** The transactional id may be null; the broker does not use it. *)
Definition transactional (tid : option bytes) : bytes := match tid with Some s => W.string s | None => W.nullString end.
Definition produce_request (version corr : Z) (client : bytes) (tid : option bytes) (acks timeout : Z) (topics : list (bytes * list (Z * option bytes))) : bytes :=
  request_header Produce version corr client ++ transactional tid ++ W.int16 acks ++ W.int32 timeout ++
  W.arrayLen (Z.of_nat (length topics)) ++ concat (map produce_topic_request topics).

Definition produce_partition_answer (version : Z) (x : Z * ErrorCode * Z) : bytes :=
  let '(index, e, base) := x in
  W.int32 index ++ errorCode e ++ W.int64 base ++ since (2 <=? version) (W.int64 (-1)) ++ since (5 <=? version) (W.int64 0).
Definition produce_topic_answer (version : Z) (x : bytes * list (Z * ErrorCode * Z)) : bytes :=
  W.string (fst x) ++ W.arrayLen (Z.of_nat (length (snd x))) ++ concat (map (produce_partition_answer version) (snd x)).
Definition produce_answer (version : Z) (answers : list (bytes * list (Z * ErrorCode * Z))) : bytes :=
  W.arrayLen (Z.of_nat (length answers)) ++ concat (map (produce_topic_answer version) answers) ++ since (1 <=? version) (W.int32 0).

(** *** Fetch *)

(** The records a consumer gets of a partition. *)
Definition served (c : cluster) (topic : bytes) (index fetch_offset max_bytes : Z) : list Record_ :=
  let records := numbered fetch_offset (take (Z.to_nat kMaxFetchRecords) (drop (Z.to_nat fetch_offset) (logs c topic index))) in
  take (keep max_bytes 0 true records) records.

Definition fetched (c : cluster) (topic : bytes) (x : Z * Z * Z) : FetchedPartition :=
  let '(index, fetch_offset, max_bytes) := x in
  if (index <? 0) || (parts c topic <=? index) then mkFetched index UnknownTopicOrPartition 0 []
  else
    let hw := Z.of_nat (length (logs c topic index)) in
    if (fetch_offset <? 0) || (hw <? fetch_offset) then mkFetched index OffsetOutOfRange hw []
    else
      let rs := served c topic index fetch_offset max_bytes in
      mkFetched index None_ hw (if (length rs =? 0)%nat then [] else encodeRecordBatch fetch_offset rs).

Definition fetched_topics (c : cluster) (topics : list (bytes * list (Z * Z * Z))) : list FetchedTopic :=
  map (fun t => mkTopic (fst t) (map (fetched c (fst t)) (snd t))) topics.

Definition fetch_partition_request (version : Z) (x : Z * Z * Z) : bytes :=
  let '(index, fetch_offset, max_bytes) := x in
  W.int32 index ++ since (9 <=? version) (W.int32 (-1)) ++ W.int64 fetch_offset ++ since (5 <=? version) (W.int64 (-1)) ++ W.int32 max_bytes.
Definition fetch_topic_request (version : Z) (x : bytes * list (Z * Z * Z)) : bytes :=
  W.string (fst x) ++ W.arrayLen (Z.of_nat (length (snd x))) ++ concat (map (fetch_partition_request version) (snd x)).
Definition fetch_request (version corr : Z) (client : bytes) (max_wait min_bytes : Z) (topics : list (bytes * list (Z * Z * Z))) : bytes :=
  request_header Fetch version corr client ++ W.int32 (-1) ++ W.int32 max_wait ++ W.int32 min_bytes ++ since (3 <=? version) (W.int32 (2 ^ 31 - 1)) ++
  since (4 <=? version) (W.int8 0) ++ since (7 <=? version) (W.int32 0 ++ W.int32 (-1)) ++
  W.arrayLen (Z.of_nat (length topics)) ++ concat (map (fetch_topic_request version) topics) ++
  since (7 <=? version) (W.arrayLen 0) ++ since (11 <=? version) (W.string []).

Definition fetch_answer (version : Z) (results : list FetchedTopic) : bytes :=
  since (1 <=? version) (W.int32 0) ++ since (7 <=? version) (errorCode None_ ++ W.int32 0) ++
  W.arrayLen (Z.of_nat (length results)) ++ concat (map (fetched_topic version) results).

(** ** The broker implements it *)

Section Refines.
Context {St : Type} {server : RespServer St} {laws : RespLaws St}.
Context (config : BrokerConfig) (disconnect : St -> St) (nowMs : St -> Z * St).

(** A server that holds a cluster. *)
Definition holds (st : St) (c : cluster) : Prop :=
  up st /\ (exists s, set_at st kTopicSetKey = Some s) /\
  (forall t, exists h, hash_at st (metaKey t) = Some h /\ 0 <= parts c t < 2 ^ 31 /\
     if parts c t =? 0 then h !! str "partitions" = None else h !! str "partitions" = Some (to_string (parts c t))) /\
  (forall t p, s_range 32 p -> log_is st t p (logs c t p)).

(** What the clock can read. *)
Definition clock (now : Z) : Prop := is_i64 now /\ exists st, fst (nowMs st) = now.

(** Reading the clock does not touch the keyspace. *)
Context (clock_law : forall st c, holds st c -> is_i64 (fst (nowMs st)) /\ holds (snd (nowMs st)) c).

Lemma partitions_known st c topic : holds st c -> topicPartitions st topic = (inr (parts c topic), st).
Proof.
  intros (Hup & _ & Hp & _). destruct (Hp topic) as (h & Hh & Hr & Hv). destruct (Z.eqb_spec (parts c topic) 0) as [E|Hne]; [|by eapply topicPartitions_ok].
  unfold topicPartitions. rewrite (call_reply _ _ _ _ (hget_law st _ _ (str "partitions") Hup Hh)); rewrite Hv; [|done]. cbn [isNull orb]. by rewrite E.
Qed.

Lemma holds_created st c topic s h n : holds st c -> parts c topic = 0 -> 0 < n < 2 ^ 31 -> set_at st kTopicSetKey = Some s -> hash_at st (metaKey topic) = Some h ->
  exists st', createTopic st topic n = (inr tt, st') /\ holds st' (created c topic n).
Proof.
  intros (Hup & _ & Hp & Hl) H0 Hn Hs Hh. destruct (createTopic_ok st topic s h n Hup Hs Hh) as (st' & Hc & Hup' & Hs' & Hh' & Hlist & Hhash). exists st'. split; [done|]. split_and!; [done|by eexists| |].
  - intros t. cbn [parts created]. destruct (Hp topic) as (h' & Hh2 & _ & Hv). rewrite Hh in Hh2. injection Hh2 as <-. rewrite H0 in Hv. change (0 =? 0) with true in Hv. cbv iota in Hv. rewrite Hv in Hh'. case_bool_decide as Ht.
    + subst t. eexists. split; [exact Hh'|]. split; [lia|]. rewrite (proj2 (Z.eqb_neq n 0)) by lia. by rewrite lookup_insert_eq.
    + destruct (Hp t) as (h' & Hh2 & Hr & Hv2). exists h'. split; [|done]. destruct (Hhash (metaKey t)) as [->|E]; [done|done|]. by apply app_inv_head in E.
  - intros t p Hr. cbn [logs created]. destruct (Hl t p Hr) as [H1 H2]. split; [|done]. by destruct (Hlist (logKey t p)) as [->|E].
Qed.

Lemma runs_partitionsFor st c topic may_create : holds st c -> (may_create = true -> auto_create_topics config = true -> 0 < default_partitions config < 2 ^ 31) ->
  exists st', runs (partitionsFor config disconnect topic may_create) st [] (fst (resolved config may_create c topic)) st' [] /\ holds st' (snd (resolved config may_create c topic)).
Proof.
  intros H Hd. pose proof (partitions_known st c topic H) as Hk. unfold partitionsFor, resolved. destruct (_ && auto_create_topics config) eqn:E.
  - apply andb_prop in E as [E1 Hauto]. apply andb_prop in E1 as [E1 Hmay]. apply Z.eqb_eq in E1. pose proof H as (_ & [s Hs] & Hp & _). destruct (Hp topic) as (h & Hh & _).
    destruct (holds_created st c topic s h (default_partitions config) H E1 (Hd Hmay Hauto) Hs Hh) as (st' & Hc & H'). exists st'. split; [|done]. eapply runs_pure; [by apply runs_storing|].
    rewrite E1, Hmay, Hauto. cbn [Z.eqb andb]. eapply runs_pure; [by apply runs_storing|]. apply runs_done.
  - exists st. split; [|done]. eapply runs_pure; [by apply runs_storing|]. cbv beta iota. rewrite E. apply runs_done.
Qed.
(** The records of a blob can be stored in one request, whatever time they are
    stamped with, and no timestamp overflows while they are decoded. *)
Definition storable_records (topic : bytes) (index : Z) (records : list Record_) : Prop :=
  Forall (fun r => is_i64 (timestamp r)) records /\
  forall now, is_i64 now -> Forall storable (map (stamp now) records) /\ pushable topic index (map (stamp now) records).
Definition storable_blob (topic : bytes) (x : Z * option bytes) : Prop :=
  match blob_records (snd x) with (None_, records) => storable_records topic (fst x) records | _ => True end.

Definition partition_ok (topic : bytes) (x : Z * option bytes) : Prop :=
  s_range 32 (fst x) /\ match snd x with Some b => Z.of_nat (length b) < 2 ^ 31 | None => True end /\ storable_blob topic x.

Lemma holds_appended st c topic index rs : holds st c -> s_range 32 index -> Forall storable rs -> pushable topic index rs ->
  exists st', append st topic index rs = (inr (Z.of_nat (length (logs c topic index))), st') /\ holds st' (appended c topic index rs).
Proof.
  intros H Hi Hrs Hpush. pose proof H as (Hup & [s Hs] & Hp & Hl). destruct (append_log_ok st topic index (logs c topic index) rs Hup (Hl topic index Hi) Hrs Hpush Hi) as (st' & Ha & Hup' & Hl1 & Hl2). exists st'. split; [done|].
  assert (forall t, hash_at st' (metaKey t) = hash_at st (metaKey t) /\ set_at st' kTopicSetKey = set_at st kTopicSetKey) as Hk.
  { intros t. by eapply append_keeps_topics; [done|apply (Hl topic index Hi)|done|]. }
  split_and!; [done|exists s; by rewrite (proj2 (Hk [])) | |].
  - intros t. rewrite (proj1 (Hk t)). apply Hp.
  - intros t p Hr. cbn [logs appended]. case_bool_decide as Ht; cbn [andb]; [destruct (Z.eqb_spec p index) as [->|Hne]; [by subst t|]|]; (apply Hl2; [done|congruence|by apply Hl]).
Qed.

Lemma no_error_none e : no_error e = true -> e = None_.
Proof. by destruct e. Qed.

(** One partition of a request. *)
Lemma runs_store st c topic n x : holds st c -> partition_ok topic x ->
  exists e base st' c', runs (store_records disconnect nowMs topic n (fst x) (snd x)) st [] (e, base) st' [] /\ holds st' c' /\
    forall l rs c2, produced_partitions clock topic n c' l rs c2 -> produced_partitions clock topic n c (x :: l) ((fst x, e, base) :: rs) c2.
Proof.
  destruct x as [index blob]. intros H (Hi & _ & Hb). cbn [fst snd] in *. unfold store_records.
  destruct (Z.ltb_spec index 0) as [Hneg|Hpos]; cbn [orb].
  { eexists _, _, st, c. split; [apply runs_done|]. split; [done|]. intros. apply produced_unknown; [by left|done]. }
  destruct (Z.leb_spec n index) as [Hbig|Hin].
  { eexists _, _, st, c. split; [apply runs_done|]. split; [done|]. intros. apply produced_unknown; [by right|done]. }
  change (match blob with Some b => decodeRecordBatches b | None => (None_, []) end) with (blob_records blob). unfold storable_blob in Hb. cbn [fst snd] in Hb. destruct (blob_records blob) as [e records] eqn:E.
  destruct (no_error e) eqn:He; cbn [negb].
  - apply no_error_none in He. subst e. destruct Hb as [_ Hb]. destruct (clock_law st c H) as [Ht H1]. destruct (nowMs st) as [now st1] eqn:Hnow. cbn [fst snd] in *.
    destruct (Hb now Ht) as [Hb1 Hb2]. destruct (holds_appended st1 c topic index (map (stamp now) records) H1 Hi Hb1 Hb2) as (st2 & Ha & H2). eexists _, _, st2, _. split.
    + eapply runs_pure; [by apply runs_asking|]. eapply runs_pure; [by apply runs_storing|]. apply runs_done.
    + split; [exact H2|]. intros. eapply produced_stored; [done|exact E|split; [done|exists st; by rewrite Hnow]|done].
  - eexists _, _, st, c. split; [apply runs_done|]. split; [done|]. intros. eapply produced_corrupt; [done|exact E|by intros ->|done].
Qed.

Lemma runs_produce_partition version st c topic n x : holds st c -> partition_ok topic x ->
  exists e base st' c', runs (produce_partition disconnect nowMs version topic n) st (produce_partition_request x) tt st' (produce_partition_answer version (fst x, e, base)) /\ holds st' c' /\
    forall l rs c2, produced_partitions clock topic n c' l rs c2 -> produced_partitions clock topic n c (x :: l) ((fst x, e, base) :: rs) c2.
Proof.
  intros H Hx. destruct (runs_store st c topic n x H Hx) as (e & base & st' & c' & Hr & H' & Hp). exists e, base, st', c'. split; [|done]. destruct x as [index blob]. destruct Hx as (Hi & Hb & _). cbn [fst snd] in *.
  unfold produce_partition, produce_partition_request. cbn [fst snd]. eapply runs_silent; [by apply runs_reading, reads_int32|]. rewrite <- (app_nil_r (match blob with Some b => _ | None => _ end)).
  eapply runs_silent; [apply runs_reading; destruct blob; [by apply reads_bytes|apply reads_nullBytes]|]. eapply runs_pure; [apply runs_check|]. eapply runs_pure; [exact Hr|]. apply runs_writing.
Qed.

Lemma runs_produce_partitions version topic n l : Forall (partition_ok topic) l -> forall st c, holds st c ->
  exists rs st' c', runs_all (produce_partition disconnect nowMs version topic n) st (map produce_partition_request l) (map (fun _ => tt) l) st' (concat (map (produce_partition_answer version) rs)) /\
    holds st' c' /\ produced_partitions clock topic n c l rs c' /\ length rs = length l.
Proof.
  induction 1 as [|x l Hx Hl IH]; intros st c H; [exists [], st, c; split; [constructor|]; split; [done|]; split; [constructor|done]|].
  destruct (runs_produce_partition version st c topic n x H Hx) as (e & base & st1 & c1 & Hr & H1 & Hp). destruct (IH st1 c1 H1) as (rs & st2 & c2 & Hall & H2 & Hps & Hlen).
  exists ((fst x, e, base) :: rs), st2, c2. split; [by econstructor|]. split; [done|]. split; [by apply Hp|cbn; lia].
Qed.
Definition topic_ok (x : bytes * list (Z * option bytes)) : Prop :=
  Z.of_nat (length (fst x)) < 2 ^ 15 /\ Z.of_nat (length (snd x)) < 2 ^ 31 /\ Forall (partition_ok (fst x)) (snd x).

Lemma counted_bytes {A} (f : A -> bytes) l : (forall x, (1 <= length (f x))%nat) -> Z.of_nat (length l) <= Z.of_nat (length (concat (map f l))).
Proof. intros H. pose proof (length_concat_count f l H). lia. Qed.

Context (may_default : auto_create_topics config = true -> 0 < default_partitions config < 2 ^ 31).

Lemma runs_produce_topic version st c x : holds st c -> topic_ok x ->
  exists rs st' c', runs (produce_topic config disconnect nowMs version) st (produce_topic_request x) tt st' (produce_topic_answer version (fst x, rs)) /\ holds st' c' /\
    produced_partitions clock (fst x) (fst (resolved config true c (fst x))) (snd (resolved config true c (fst x))) (snd x) rs c'.
Proof.
  destruct x as [topic l]. intros H (Ht & Hn & Hl). cbn [fst snd] in *. destruct (runs_partitionsFor st c topic true H ltac:(auto)) as (st1 & Hr & H1).
  destruct (runs_produce_partitions version topic (fst (resolved config true c topic)) l Hl st1 _ H1) as (rs & st2 & c2 & Hall & H2 & Hp & Hlen). exists rs, st2, c2. split; [|done].
  unfold produce_topic, produce_topic_request, produce_topic_answer. cbn [fst snd]. eapply runs_silent; [by apply runs_string|].
  apply runs_counted; [lia|apply counted_bytes; intros x; unfold produce_partition_request; rewrite length_app; change (length (W.int32 _)) with 4%nat; lia|]. cbn [fst].
  eapply runs_pure; [apply runs_check|]. eapply runs_pure; [exact Hr|]. rewrite app_assoc, Hlen. eapply runs_then_l; [apply runs_writing|].
  eapply runs_last; [eapply runs_each; [exact Hall|rewrite length_map; lia]|]. apply runs_done.
Qed.

Lemma runs_produce_topics version topics : Forall topic_ok topics -> forall st c, holds st c ->
  exists answers st' c', runs_all (produce_topic config disconnect nowMs version) st (map produce_topic_request topics) (map (fun _ => tt) topics) st' (concat (map (produce_topic_answer version) answers)) /\
    holds st' c' /\ produced clock config c topics answers c' /\ length answers = length topics.
Proof.
  induction 1 as [|x topics Hx Hl IH]; intros st c H; [exists [], st, c; split; [constructor|]; split; [done|]; split; [constructor|done]|].
  destruct (runs_produce_topic version st c x H Hx) as (rs & st1 & c1 & Hr & H1 & Hp). destruct (IH st1 c1 H1) as (answers & st2 & c2 & Hall & H2 & Hps & Hlen).
  exists ((fst x, rs) :: answers), st2, c2. split; [by econstructor|]. split; [done|]. split; [destruct x; by eapply produced_topic|cbn; lia].
Qed.

Definition tid_ok (tid : option bytes) : Prop := match tid with Some s => Z.of_nat (length s) < 2 ^ 15 | None => True end.

Lemma runs_produce version st c tid acks timeout topics : holds st c -> 3 <= version -> tid_ok tid -> s_range 16 acks -> s_range 32 timeout -> Z.of_nat (length topics) < 2 ^ 31 -> Forall topic_ok topics ->
  exists answers st' c',
    runs (produce config disconnect nowMs version) st (transactional tid ++ W.int16 acks ++ W.int32 timeout ++ W.arrayLen (Z.of_nat (length topics)) ++ concat (map produce_topic_request topics))
      (acks =? 0) st' (produce_answer version answers) /\ holds st' c' /\ produced clock config c topics answers c'.
Proof.
  intros H Hv Htid Ha Ht Hn Hok. destruct (runs_produce_topics version topics Hok st c H) as (answers & st' & c' & Hall & H' & Hp & Hlen). exists answers, st', c'. split; [|done].
  unfold produce, produce_answer. rewrite (proj2 (Z.leb_le 3 version)) by done. eapply runs_silent.
  { rewrite <- (app_nil_r (transactional tid)). eapply runs_silent; [apply runs_reading; destruct tid; [by apply reads_string|apply reads_nullString]|apply runs_done]. }
  eapply runs_silent; [by apply runs_reading, reads_int16|]. eapply runs_silent; [by apply runs_reading, reads_int32|]. eapply runs_pure; [apply runs_check|].
  apply runs_counted; [lia|apply counted_bytes; intros [t l]; unfold produce_topic_request, W.string; rewrite !length_app; change (length (W.int16 _)) with 2%nat; lia|]. cbn [fst].
  eapply runs_pure; [apply runs_check|]. rewrite Hlen. eapply runs_then_l; [apply runs_writing|]. rewrite <- (app_nil_r (concat (map produce_topic_request topics))).
  eapply runs_then; [eapply runs_each; [exact Hall|rewrite length_map; lia]|]. eapply runs_last; [apply runs_writing|apply runs_done].
Qed.

(** ** Dispatch *)

Lemma header_read k version corr client body : s_range 16 version -> s_range 32 corr -> Z.of_nat (length client) < 2 ^ 15 ->
  parseRequestHeader (reader (request_header k version corr client ++ body)) =
  (Some (mkHeader (api_number k) version corr client), mkReader body (length (request_header k version corr client)) true).
Proof.
  intros Hv Hc Hl. assert (reads parseRequestHeader (request_header k version corr client) (Some (mkHeader (api_number k) version corr client))) as H; [|apply (H body 0%nat)].
  unfold parseRequestHeader, request_header. eapply reads_bind; [apply reads_int16; by destruct k|]. eapply reads_bind; [by apply reads_int16|]. eapply reads_bind; [by apply reads_int32|].
  eapply reads_bind_last; [by apply reads_string|]. eapply reads_bind_nil; [apply reads_get_ok|]. apply reads_ret.
Qed.

(** A handler that runs through. *)
Lemma handled st k version corr client body allow_wait x st' out a :
  findApi (api_number k) = Some a -> api a = k -> min_version a <= version <= max_version a -> s_range 16 version -> s_range 32 corr -> Z.of_nat (length client) < 2 ^ 15 ->
  runs (handler config disconnect nowMs k version true allow_wait) st body x st' out ->
  handleRequest config disconnect nowMs st (request_header k version corr client ++ body) allow_wait =
  (match x with (_, Some wait_for) => Retry kFetchPollMs wait_for | (true, None) => Silence | (false, None) => Respond (framed corr out) end, st').
Proof.
  intros Hf Hk Hver Hv Hc Hl Hr. unfold handleRequest. rewrite header_read by done. cbn [api_key api_version correlation_id]. rewrite Hf. cbv zeta. rewrite Hk.
  rewrite (proj2 (Z.leb_le _ version)), (proj2 (Z.leb_le version _)) by lia. cbn [andb negb]. specialize (Hr [] (length (request_header k version corr client)) []). rewrite app_nil_r in Hr. rewrite Hr. cbn [app w log_].
  by destruct x as [[] [|]].
Qed.
(** ** Fetching *)

Definition fetch_ok (x : Z * Z * Z) : Prop := let '(index, fetch_offset, max_bytes) := x in s_range 32 index /\ is_i64 fetch_offset /\ s_range 32 max_bytes.
Definition fetch_topic_ok (x : bytes * list (Z * Z * Z)) : Prop :=
  Z.of_nat (length (fst x)) < 2 ^ 15 /\ Z.of_nat (length (snd x)) < 2 ^ 31 /\ Forall fetch_ok (snd x).
(** No partition is within a page of the largest offset. *)
Definition bounded (c : cluster) : Prop := forall t p, Z.of_nat (length (logs c t p)) < 2 ^ 62.

Lemma runs_lookup st c topic : holds st c -> runs (partitionsFor config disconnect topic false) st [] (parts c topic) st [].
Proof.
  intros H. pose proof (partitions_known st c topic H) as Hk. unfold partitionsFor. eapply runs_pure; [by apply runs_storing|]. cbv beta iota. rewrite andb_false_r. cbn [andb]. apply runs_done.
Qed.

Lemma runs_fetch_from st c topic x : holds st c -> bounded c -> fetch_ok x ->
  runs (fetch_from disconnect topic (parts c topic) (fst (fst x)) (snd (fst x)) (snd x)) st [] (fetched c topic x) st [].
Proof.
  destruct x as [[index fetch_offset] max_bytes]. intros (Hup & _ & _ & Hl) Hb (Hi & Ho & Hm). cbn [fst snd]. unfold fetch_from, fetched. destruct (_ || _); [apply runs_done|].
  specialize (Hl topic index Hi). specialize (Hb topic index). eapply runs_pure; [apply runs_storing; by apply highWatermark_ok|]. cbv beta iota zeta.
  destruct (Z.ltb_spec fetch_offset 0) as [|Hlo]; cbn [orb]; [apply runs_done|]. destruct (Z.ltb_spec (Z.of_nat (length (logs c topic index))) fetch_offset) as [|Hhi]; [apply runs_done|].
  eapply runs_pure; [apply runs_storing, read_ok; [done|exact Hl|done|unfold s_range, kMaxFetchRecords in *; lia|by vm_compute]|]. apply runs_done.
Qed.

Lemma runs_fetch_partition version st c topic x : holds st c -> bounded c -> fetch_ok x ->
  runs (fetch_partition disconnect version topic (parts c topic)) st (fetch_partition_request version x) (fetched c topic x) st [].
Proof.
  intros H Hb Hx. pose proof (runs_fetch_from st c topic x H Hb Hx) as Hr. destruct x as [[index fetch_offset] max_bytes]. destruct Hx as (Hi & Ho & Hm). cbn [fst snd] in Hr. unfold fetch_partition, fetch_partition_request.
  eapply runs_silent; [by apply runs_reading, reads_int32|]. eapply runs_silent; [eapply runs_skipping, reads_int32; by vm_compute|]. eapply runs_silent; [by apply runs_reading, reads_int64|].
  eapply runs_silent; [eapply runs_skipping, reads_int64; by vm_compute|]. rewrite <- (app_nil_r (W.int32 max_bytes)). eapply runs_silent; [by apply runs_reading, reads_int32|].
  eapply runs_pure; [apply runs_check|exact Hr].
Qed.

(** A loop of reads. *)
Lemma runs_all_map {A B} (body : act B) (f : A -> bytes) (g : A -> B) (P : A -> Prop) (st : St) l : (forall x, P x -> runs body st (f x) (g x) st []) -> Forall P l -> runs_all body st (map f l) (map g l) st [].
Proof. intros Hf H. induction H as [|x l Hx H IH]; cbn [map]; [constructor|]. change (@nil Z) with (@nil Z ++ []). econstructor; [by apply Hf|exact IH]. Qed.

Lemma runs_fetch_topic version st c x : holds st c -> bounded c -> fetch_topic_ok x ->
  runs (fetch_topic config disconnect version) st (fetch_topic_request version x) (mkTopic (fst x) (map (fetched c (fst x)) (snd x))) st [].
Proof.
  destruct x as [topic l]. intros H Hb (Ht & Hn & Hl). cbn [fst snd] in *. unfold fetch_topic, fetch_topic_request. cbn [fst snd]. eapply runs_silent; [by apply runs_string|].
  apply runs_counted; [lia|apply counted_bytes; intros [[i o] m]; unfold fetch_partition_request; rewrite length_app; change (length (W.int32 _)) with 4%nat; lia|]. cbn [fst].
  eapply runs_pure; [apply runs_check|]. eapply runs_pure; [by apply runs_lookup|]. eapply runs_last; [|apply runs_done].
  eapply runs_each; [|rewrite length_map; lia]. eapply runs_all_map; [|exact Hl]. intros x Hx. by apply runs_fetch_partition.
Qed.

Lemma runs_fetch version allow_wait st c max_wait min_bytes topics :
  holds st c -> bounded c -> s_range 32 max_wait -> s_range 32 min_bytes -> Z.of_nat (length topics) < 2 ^ 31 -> Forall fetch_topic_ok topics ->
  let results := fetched_topics c topics in
  let waits := allow_wait && (0 <? max_wait) && (total_bytes results <? Z.max min_bytes 1) in
  runs (fetch config disconnect version allow_wait) st
    (W.int32 (-1) ++ W.int32 max_wait ++ W.int32 min_bytes ++ since (3 <=? version) (W.int32 (2 ^ 31 - 1)) ++ since (4 <=? version) (W.int8 0) ++ since (7 <=? version) (W.int32 0 ++ W.int32 (-1)) ++
     W.arrayLen (Z.of_nat (length topics)) ++ concat (map (fetch_topic_request version) topics) ++ since (7 <=? version) (W.arrayLen 0) ++ since (11 <=? version) (W.string []))
    (if waits then Some (Z.min max_wait kMaxFetchWaitMs) else None) st (if waits then [] else fetch_answer version results).
Proof.
  intros H Hb Hw Hm Hn Hok results waits. unfold fetch.
  eapply runs_silent; [apply runs_reading, reads_int32; by vm_compute|]. eapply runs_silent; [by apply runs_reading, reads_int32|]. eapply runs_silent; [by apply runs_reading, reads_int32|].
  eapply runs_silent; [eapply runs_skipping, reads_int32; by vm_compute|]. eapply runs_silent; [eapply runs_skipping, reads_int8; by vm_compute|].
  eapply (runs_silent _ _ _ _ 0).
  { unfold since. destruct (7 <=? version); [|apply runs_done]. eapply runs_silent; [by apply runs_reading, reads_int32|]. eapply runs_last; [by apply runs_reading, reads_int32|apply runs_done]. }
  eapply runs_pure; [apply runs_check|].
  apply runs_counted; [lia|rewrite length_app; pose proof (counted_bytes (fetch_topic_request version) topics) as Hc; enough (Z.of_nat (length topics) <= Z.of_nat (length (concat (map (fetch_topic_request version) topics)))) by lia;
    apply Hc; intros [t l]; unfold fetch_topic_request, W.string; rewrite !length_app; change (length (W.int16 _)) with 2%nat; lia|]. cbn [fst]. eapply runs_pure; [apply runs_check|].
  eapply (runs_silent _ _ _ _ results).
  { eapply runs_each; [|rewrite length_map; lia]. unfold results, fetched_topics. eapply runs_all_map; [|exact Hok]. intros x Hx. by apply runs_fetch_topic. }
  eapply (runs_silent _ _ _ _ tt).
  { unfold since. destruct (7 <=? version); [|apply runs_done]. rewrite <- (app_nil_r (W.arrayLen 0)). apply runs_counted; [lia|cbn; lia|]. cbn [fst Z.to_nat each]. eapply runs_pure; apply runs_done. }
  rewrite <- (app_nil_r (since (11 <=? version) _)). eapply (runs_silent _ _ _ _ tt).
  { unfold since. destruct (11 <=? version); [|apply runs_done]. eapply runs_last; [by apply runs_string|apply runs_done]. }
  eapply runs_pure; [apply runs_check|]. cbv zeta. fold waits. destruct waits; [apply runs_done|]. eapply runs_last; [apply runs_writing|apply runs_done].
Qed.
(** ** Theorems *)

Lemma produce_handled st c version corr client tid acks timeout topics allow_wait :
  holds st c -> 3 <= version <= 7 -> s_range 32 corr -> Z.of_nat (length client) < 2 ^ 15 -> tid_ok tid -> s_range 16 acks -> s_range 32 timeout ->
  Z.of_nat (length topics) < 2 ^ 31 -> Forall topic_ok topics ->
  exists answers st' c',
    handleRequest config disconnect nowMs st (produce_request version corr client tid acks timeout topics) allow_wait =
      (if acks =? 0 then Silence else Respond (framed corr (produce_answer version answers)), st') /\
    produced clock config c topics answers c' /\ holds st' c'.
Proof.
  intros H Hv Hc Hl Htid Ha Ht Hn Hok. destruct (runs_produce version st c tid acks timeout topics H ltac:(lia) Htid Ha Ht Hn Hok) as (answers & st' & c' & Hr & H' & Hp). exists answers, st', c'. split; [|done].
  unfold produce_request. erewrite (handled st Produce version corr client); [|reflexivity|reflexivity|done|unfold s_range; lia|done|done|cbn [handler]; eapply runs_last; [exact Hr|apply runs_done]]. by destruct (acks =? 0).
Qed.

Lemma fetch_handled st c version corr client max_wait min_bytes topics allow_wait :
  holds st c -> bounded c -> 4 <= version <= 11 -> s_range 32 corr -> Z.of_nat (length client) < 2 ^ 15 -> s_range 32 max_wait -> s_range 32 min_bytes ->
  Z.of_nat (length topics) < 2 ^ 31 -> Forall fetch_topic_ok topics ->
  handleRequest config disconnect nowMs st (fetch_request version corr client max_wait min_bytes topics) allow_wait =
    (if allow_wait && (0 <? max_wait) && (total_bytes (fetched_topics c topics) <? Z.max min_bytes 1) then Retry kFetchPollMs (Z.min max_wait kMaxFetchWaitMs)
     else Respond (framed corr (fetch_answer version (fetched_topics c topics))), st).
Proof.
  intros H Hb Hv Hc Hl Hw Hm Hn Hok. pose proof (runs_fetch version allow_wait st c max_wait min_bytes topics H Hb Hw Hm Hn Hok) as Hr. cbv zeta in Hr. unfold fetch_request.
  erewrite (handled st Fetch version corr client); [|reflexivity|reflexivity|done|unfold s_range; lia|done|done|cbn [handler]; eapply runs_last; [exact Hr|apply runs_done]]. by destruct (_ && (_ <? Z.max _ _)).
Qed.

(** C22: Producing appends. On a server that holds a cluster, a Produce request of
    any supported version, with or without a transactional id, for any number of topics and partitions, does
    what the abstract cluster does and nothing else: a topic that does not
    exist is created when the configuration allows it, each partition's records
    are appended in order at the base offset that the response reports, a
    negative timestamp replaced by a reading of the broker's clock, an index the topic does
    not have and a blob that does not decode are refused one by one; the answer
    is one frame with the request's correlation id, or silence when no
    acknowledgement is asked for. Each partition's records must be storable
    ([topic_ok]): they go to the server in one RPUSH, so there are at most
    2^20 - 2 of them and each takes at most 512 MB when stored, the limits of the
    server's parser; and no timestamp, a base plus a delta, may overflow 64 bits,
    which the decoder does not check. *)
Theorem produce_implements st c version corr client tid acks timeout topics allow_wait :
  holds st c -> 3 <= version <= 7 -> s_range 32 corr -> Z.of_nat (length client) < 2 ^ 15 -> tid_ok tid -> s_range 16 acks -> s_range 32 timeout ->
  Z.of_nat (length topics) < 2 ^ 31 -> Forall topic_ok topics ->
  exists answers st' c',
    handleRequest config disconnect nowMs st (produce_request version corr client tid acks timeout topics) allow_wait =
      (if acks =? 0 then Silence else Respond (framed corr (produce_answer version answers)), st') /\
    produced clock config c topics answers c' /\ holds st' c'.
Proof. apply produce_handled. Qed.

(** *** From producer to consumer *)

Lemma keep_all max_bytes budget first records : max_bytes <= 0 -> keep max_bytes budget first records = length records.
Proof.
  intros Hm. revert budget first. induction records as [|x records IH]; intros budget first; cbn [keep length]; [done|]. rewrite (proj2 (Z.ltb_ge 0 max_bytes)) by done. rewrite andb_false_r. cbn [andb]. by rewrite IH.
Qed.

Lemma stamp_id now rs : Forall (fun x => 0 <= timestamp x) rs -> map (stamp now) rs = rs.
Proof. induction 1 as [|x rs Hx H IH]; cbn [map]; [done|]. rewrite IH. unfold stamp. by rewrite (proj2 (Z.ltb_ge _ 0)) by done. Qed.

Lemma numbered_plain o rs : map (at_offset 0) (numbered o rs) = map (at_offset 0) rs.
Proof. revert o. induction rs as [|x rs IH]; intros o; cbn [numbered map]; [done|]. by rewrite IH. Qed.

Lemma plain_again (batches : list (Z * list Record_)) :
  map (at_offset 0) (concat (map (fun '(_, rs) => map (at_offset 0) rs) batches)) = concat (map (fun '(_, rs) => map (at_offset 0) rs) batches).
Proof. rewrite concat_map, map_map. f_equal. apply map_ext. intros [bo rs]. by rewrite map_map. Qed.

Lemma length_numbered o rs : length (numbered o rs) = length rs.
Proof. revert o. induction rs as [|x rs IH]; intros o; cbn [numbered length]; [done|]. by rewrite IH. Qed.

Lemma fetched_appended c topic index rs : 0 <= index < parts c topic ->
  let base := Z.of_nat (length (logs c topic index)) in let sent := take (Z.to_nat kMaxFetchRecords) rs in
  fetched (appended c topic index rs) topic (index, base, 0) =
  mkFetched index None_ (base + Z.of_nat (length rs)) (if (length sent =? 0)%nat then [] else encodeRecordBatch base (numbered base sent)).
Proof.
  intros Hi base sent. unfold fetched, served. cbn [parts logs appended]. rewrite (proj2 (Z.ltb_ge index 0)), (proj2 (Z.leb_gt (parts c topic) index)) by lia. cbn [orb].
  rewrite bool_decide_eq_true_2 by done. rewrite Z.eqb_refl. cbn [andb]. rewrite length_app. rewrite (proj2 (Z.ltb_ge base 0)), (proj2 (Z.ltb_ge _ base)) by lia. cbn [orb].
  unfold base. rewrite Nat2Z.id, drop_app_length. fold sent. rewrite keep_all by lia. rewrite take_ge by done. rewrite length_numbered. f_equal. lia.
Qed.

Lemma stamp_plain now r : stamp now (at_offset 0 r) = at_offset 0 (stamp now r).
Proof. unfold stamp. cbn [timestamp at_offset]. by destruct (timestamp r <? 0). Qed.

Lemma stamped_plain now (batches : list (Z * list Record_)) n :
  let rs := concat (map (fun '(_, rs) => map (at_offset 0) rs) batches) in
  map (at_offset 0) (take n (map (stamp now) rs)) = take n (map (stamp now) rs).
Proof.
  intros rs. rewrite <- firstn_map, map_map. f_equal. unfold rs at 2. rewrite <- (plain_again batches), map_map. apply map_ext. intros r. by rewrite stamp_plain.
Qed.

End Refines.

(** ** A server with nothing on it *)

Import KeyStore.

Definition nothing : cluster := mkCluster (fun _ => 0) (fun _ _ => []).
Definition noon (st : KeyStore.store) : Z * KeyStore.store := (1000, st).

Lemma holds_nothing : holds (∅ : KeyStore.store) nothing.
Proof. split_and!; [exact I|by exists ∅|intros t; exists ∅; by split_and!|intros t p _; split; [done|apply Forall_nil_2]]. Qed.

Lemma noon_law (st : KeyStore.store) c : holds st c -> is_i64 (fst (noon st)) /\ holds (snd (noon st)) c.
Proof. intros H. split; [by vm_compute|done]. Qed.

Lemma one_partition : auto_create_topics default_config = true -> 0 < default_partitions default_config < 2 ^ 31.
Proof. intros _. vm_compute. by split. Qed.

Definition batch : list (Z * list Record_) := [(0, [sample_record])].

Lemma sample_storable : storable_records (str "t") 0 [sample_record].
Proof.
  split; [apply Forall_singleton; by vm_compute|]. intros now _. rewrite stamp_id by (apply Forall_singleton; vm_compute; discriminate). split; [apply Forall_singleton; split; [reflexivity|vm_compute; reflexivity]|].
  split; [vm_compute; discriminate|]. repeat (apply Forall_cons; split; [vm_compute; discriminate|]). apply Forall_nil_2.
Qed.

Lemma produce_implements_witness :
  exists answers st' c',
    handleRequest default_config id noon (∅ : KeyStore.store) (produce_request 7 3 (str "me") None 1 500 [(str "t", [(0, Some (encodeBatches batch)); (9, None)])]) false =
      (Respond (framed 3 (produce_answer 7 answers)), st') /\
    produced (clock noon) default_config nothing [(str "t", [(0, Some (encodeBatches batch)); (9, None)])] answers c' /\ holds st' c'.
Proof.
  apply (produce_implements default_config id noon noon_law one_partition ∅ nothing 7 3 (str "me") None 1 500 [(str "t", [(0, Some (encodeBatches batch)); (9, None)])] false).
  - apply holds_nothing.
  - lia.
  - by vm_compute.
  - by vm_compute.
  - by vm_compute.
  - by vm_compute.
  - by vm_compute.
  - by vm_compute.
  - apply Forall_singleton. split; [by vm_compute|]. split; [by vm_compute|]. apply Forall_cons. split; [|apply Forall_singleton].
    + split; [by vm_compute|]. split; [by vm_compute|]. unfold storable_blob. cbn [fst snd]. assert (blob_records (Some (encodeBatches batch)) = (None_, [sample_record])) as -> by (vm_compute; reflexivity). apply sample_storable.
    + split; [by vm_compute|]. split; [exact I|]. split; [apply Forall_nil_2|]. intros now _. split; [apply Forall_nil_2|]. split; [vm_compute; discriminate|]. repeat (apply Forall_cons; split; [vm_compute; discriminate|]). apply Forall_nil_2.
Defined.

(** The answer that the broker computes for it. *)
Example produce_run : fst (handleRequest default_config id noon (∅ : KeyStore.store) (produce_request 7 3 (str "me") None 1 500 [(str "t", [(0, Some (encodeBatches batch)); (9, None)])]) false) =
  Respond (framed 3 (produce_answer 7 [(str "t", [(0, None_, 0); (9, UnknownTopicOrPartition, -1)])])).
Proof. vm_compute. reflexivity. Qed.


End Broker.
