(* ===== verification/Notify.v ===== *)
(** * Notify: the class flags of keyspace notifications

    [src/server/notify.h] and [src/server/notify.cpp]: the
    [notify-keyspace-events] string as a 32-bit mask, its parser and the
    canonical string [CONFIG GET] rebuilds from the mask. *)

From Stdlib Require Import ZArith Lia.
From stdpp Require Import base list numbers option strings.
From S2P Require Import Prelude.

Module Notify.

Definition kKeyspace : Z := Z.shiftl 1 0.
Definition kKeyevent : Z := Z.shiftl 1 1.
Definition kGeneric : Z := Z.shiftl 1 2.
Definition kString : Z := Z.shiftl 1 3.
Definition kList : Z := Z.shiftl 1 4.
Definition kSet : Z := Z.shiftl 1 5.
Definition kHash : Z := Z.shiftl 1 6.
Definition kZset : Z := Z.shiftl 1 7.
Definition kExpired : Z := Z.shiftl 1 8.
Definition kEvicted : Z := Z.shiftl 1 9.
Definition kStream : Z := Z.shiftl 1 10.
Definition kModule : Z := Z.shiftl 1 11.
Definition kNew : Z := Z.shiftl 1 12.
Definition kKeyMiss : Z := Z.shiftl 1 13.
Definition kClassA : Z := Z.shiftl 1 14.
Definition kClassO : Z := Z.shiftl 1 15.
Definition kClassC : Z := Z.shiftl 1 16.
Definition kClassS : Z := Z.shiftl 1 17.
Definition kClassT : Z := Z.shiftl 1 18.
Definition kClassI : Z := Z.shiftl 1 19.
Definition kClassV : Z := Z.shiftl 1 20.

Definition kAll : Z :=
  foldl Z.lor kGeneric
    [kString; kList; kSet; kHash; kZset; kExpired; kEvicted; kStream; kModule; kClassA; kClassO; kClassC].

(** The character of a literal of length one. *)
Definition ch (s : string) : Z := str s !!! 0%nat.

Definition bitFor (c : Z) : Z :=
  if c =? ch "A" then kAll else if c =? ch "K" then kKeyspace else if c =? ch "E" then kKeyevent
  else if c =? ch "g" then kGeneric else if c =? ch "$" then kString else if c =? ch "l" then kList
  else if c =? ch "s" then kSet else if c =? ch "h" then kHash else if c =? ch "z" then kZset
  else if c =? ch "x" then kExpired else if c =? ch "e" then kEvicted else if c =? ch "t" then kStream
  else if c =? ch "d" then kModule else if c =? ch "n" then kNew else if c =? ch "m" then kKeyMiss
  else if c =? ch "a" then kClassA else if c =? ch "o" then kClassO else if c =? ch "c" then kClassC
  else if c =? ch "S" then kClassS else if c =? ch "T" then kClassT else if c =? ch "I" then kClassI
  else if c =? ch "V" then kClassV else 0.

Fixpoint parse_loop (spec : bytes) (flags : Z) : option Z :=
  match spec with
  | [] => Some flags
  | c :: spec =>
      let bit := bitFor c in
      if bit =? 0 then None else parse_loop spec (Z.lor flags bit)
  end.

Definition parseFlags (spec : bytes) : option Z := parse_loop spec 0.

Definition kInAlias : list (Z * Z) :=
  [(kGeneric, ch "g"); (kString, ch "$"); (kList, ch "l"); (kSet, ch "s"); (kHash, ch "h"); (kZset, ch "z");
   (kExpired, ch "x"); (kEvicted, ch "e"); (kStream, ch "t"); (kModule, ch "d"); (kNew, ch "n");
   (kClassA, ch "a"); (kClassO, ch "o"); (kClassC, ch "c")].

Definition kOutsideAlias : list (Z * Z) :=
  [(kClassS, ch "S"); (kClassT, ch "T"); (kClassI, ch "I"); (kClassV, ch "V");
   (kKeyspace, ch "K"); (kKeyevent, ch "E"); (kKeyMiss, ch "m")].

Fixpoint spell (flags : Z) (table : list (Z * Z)) : bytes :=
  match table with
  | [] => []
  | (bit, c) :: table => (if Z.land flags bit =? 0 then [] else [c]) ++ spell flags table
  end.

Definition formatFlags (flags : Z) : bytes :=
  (if Z.land flags kAll =? kAll then [ch "A"] else spell flags kInAlias) ++ spell flags kOutsideAlias.

Example canonical_order : (formatFlags <$> parseFlags (str "KEA")) = Some (str "AKE").
Proof. reflexivity. Qed.

(** ** Parsing what was spelled *)

(** A table is spelled in letters that stand for its single bits. *)
Definition table_ok (table : list (Z * Z)) : Prop :=
  Forall (fun '(bit, c) => bitFor c = bit /\ exists k, 0 <= k /\ bit = Z.shiftl 1 k) table.

Definition mask (table : list (Z * Z)) : Z := foldr (fun '(bit, _) m => Z.lor bit m) 0 table.

Lemma land_single_bit f k :
  0 <= k -> Z.land f (Z.shiftl 1 k) = if Z.testbit f k then Z.shiftl 1 k else 0.
Proof.
  intros Hk. apply Z.bits_inj'. intros i Hi. rewrite Z.land_spec.
  assert (Z.testbit (Z.shiftl 1 k) i = (i =? k)) as Hb.
  { rewrite Z.shiftl_1_l, Z.pow2_bits_eqb by done. apply Z.eqb_sym. }
  rewrite Hb. destruct (Z.eqb_spec i k) as [->|Hne].
  - rewrite andb_true_r. destruct (Z.testbit f k); [by rewrite Hb|by rewrite Z.testbit_0_l].
  - rewrite andb_false_r. destruct (Z.testbit f k); [|by rewrite Z.testbit_0_l].
    by rewrite Hb.
Qed.

Lemma parse_loop_app a b flags :
  parse_loop (a ++ b) flags = f ← parse_loop a flags; parse_loop b f.
Proof.
  revert flags. induction a as [|c a IH]; intros flags; [done|]. cbn [app parse_loop]. case_if; [done|]. apply IH.
Qed.

Lemma parse_spell f table acc :
  table_ok table -> parse_loop (spell f table) acc = Some (Z.lor acc (Z.land f (mask table))).
Proof.
  intros Ht. revert acc. induction Ht as [|[bit c] table (Hc & k & Hk & ->) _ IH]; intros acc.
  { cbn. by rewrite Z.land_0_r, Z.lor_0_r. }
  assert (Z.shiftl 1 k <> 0) by (rewrite Z.shiftl_1_l; apply Z.pow_nonzero; lia).
  cbn [spell mask foldr]. fold (mask table). rewrite Z.land_lor_distr_r, land_single_bit by done.
  destruct (Z.testbit f k).
  - rewrite (proj2 (Z.eqb_neq _ 0)) by done. cbn [app parse_loop]. rewrite Hc.
    rewrite (proj2 (Z.eqb_neq _ 0)) by done. by rewrite IH, Z.lor_assoc.
  - change (0 =? 0) with true. cbn [app]. by rewrite IH, Z.lor_0_l.
Qed.

Lemma tables_ok : table_ok kInAlias /\ table_ok kOutsideAlias.
Proof.
  split; unfold table_ok, kInAlias, kOutsideAlias; repeat constructor; try reflexivity;
    (eexists; split; [|reflexivity]; lia).
Qed.

(** Every class a parsed string can set. *)
Definition known : Z := Z.ones 21.

(** [CONFIG GET] reports flags that mean what was set. For every mask of
    known classes, parsing the canonical string gives back the mask, except
    that when the alias [A] stands for all its classes the new-key class [n],
    which the alias neither includes nor spells, is dropped. *)
Theorem flags_round_trip flags :
  Z.land flags known = flags ->
  parseFlags (formatFlags flags) =
  Some (if Z.land flags kAll =? kAll then Z.ldiff flags kNew else flags).
Proof.
  intros Hk. destruct tables_ok as [Hin Hout]. unfold parseFlags, formatFlags. rewrite parse_loop_app.
  assert (flags = Z.lor (Z.land flags (mask kInAlias)) (Z.land flags (mask kOutsideAlias))) as Hsplit.
  { rewrite <- Z.land_lor_distr_r. by rewrite <- Hk at 1. }
  destruct (Z.eqb_spec (Z.land flags kAll) kAll) as [Ha|Ha].
  - change (parse_loop [ch "A"] 0) with (Some kAll). cbn [mbind option_bind]. rewrite parse_spell by done.
    f_equal. rewrite <- Ha, <- Z.land_lor_distr_r.
    change (Z.lor kAll (mask kOutsideAlias)) with (Z.ldiff known kNew).
    rewrite Z.ldiff_land, Z.land_assoc, Hk. by rewrite Z.ldiff_land.
  - rewrite parse_spell by done. cbn [mbind option_bind]. rewrite parse_spell by done.
    by rewrite Z.lor_0_l, <- Hsplit.
Qed.

Lemma flags_round_trip_witness :
  parseFlags (formatFlags (Z.lor kAll (Z.lor kNew kKeyspace))) = Some (Z.lor kAll kKeyspace).
Proof. apply (flags_round_trip (Z.lor kAll (Z.lor kNew kKeyspace))). reflexivity. Defined.

End Notify.
