(* ===== verification/PubSub.v ===== *)
(** * PubSub: subscriptions and delivery

    [src/server/pubsub.cpp], the subscribe and unsubscribe commands of
    [src/server/commands/pubsub_commands.cpp], and the publishing half of
    [src/server/server.cpp]. A subscription is recorded twice: in the registry,
    by channel, and in the client, by name. The invariant is that the two
    records agree, and the specification of a publish is stated on the
    clients' side alone. *)

From Stdlib Require Import ZArith Lia.
From stdpp Require Import base list numbers option strings gmap sorting.
From S2P Require Import Prelude Order Strings Reply Notify.

Module PubSub.

(** ** The registry *)

Abbreviation index := (gmap bytes (gset Z)).

Definition addTo (map : index) (key : bytes) (fd : Z) : bool * index :=
  let s := default ∅ (map !! key) in
  (negb (bool_decide (fd ∈ s)), <[key := {[fd]} ∪ s]> map).

Definition removeFrom (map : index) (key : bytes) (fd : Z) : bool * index :=
  match map !! key with
  | None => (false, map)
  | Some s =>
      let s' := s ∖ {[fd]} in
      (bool_decide (fd ∈ s), if decide (s' = ∅) then delete key map else <[key := s']> map)
  end.

(** The two channel namespaces and the patterns; [SubKind] of the commands. *)
Inductive SubKind := Channel | Pattern | Shard.
#[global] Instance SubKind_eq_dec : EqDecision SubKind.
Proof. solve_decision. Defined.

Record registry := mkRegistry { channels_ : index; shard_channels_ : index; patterns_ : index }.

Definition mapFor (kind : SubKind) (r : registry) : index :=
  match kind with Channel => channels_ r | Shard => shard_channels_ r | Pattern => patterns_ r end.

Definition setMap (kind : SubKind) (m : index) (r : registry) : registry :=
  match kind with
  | Channel => mkRegistry m (shard_channels_ r) (patterns_ r)
  | Shard => mkRegistry (channels_ r) m (patterns_ r)
  | Pattern => mkRegistry (channels_ r) (shard_channels_ r) m
  end.

Definition subscribers (kind : SubKind) (name : bytes) (r : registry) : option (gset Z) := mapFor kind r !! name.

(** ** Clients *)

(** The fields of [Client] used here: the three sets of names, the protocol
    version its frames are written in, and the bytes waiting to be sent. *)
Record client := mkClient {
  channels : gset bytes; patterns : gset bytes; shardChannels : gset bytes;
  protover_ : Z; output_buffer_ : bytes }.

Definition accepted : client := mkClient ∅ ∅ ∅ 2 [].

Definition cleared (c : client) : client := mkClient ∅ ∅ ∅ (protover_ c) (output_buffer_ c).

Definition send (frame : bytes) (c : client) : client :=
  mkClient (channels c) (patterns c) (shardChannels c) (protover_ c) (output_buffer_ c ++ frame).

Definition heldBy (c : client) (kind : SubKind) : gset bytes :=
  match kind with Channel => channels c | Pattern => patterns c | Shard => shardChannels c end.

Definition setHeld (kind : SubKind) (s : gset bytes) (c : client) : client :=
  match kind with
  | Channel => mkClient s (patterns c) (shardChannels c) (protover_ c) (output_buffer_ c)
  | Pattern => mkClient (channels c) s (shardChannels c) (protover_ c) (output_buffer_ c)
  | Shard => mkClient (channels c) (patterns c) s (protover_ c) (output_buffer_ c)
  end.

Definition subscriptionCount (c : client) : nat := (size (channels c) + size (patterns c))%nat.
Definition inSubscriberMode (c : client) : bool := (0 <? subscriptionCount c + size (shardChannels c))%nat.

Definition reportedCount (c : client) (kind : SubKind) : nat :=
  match kind with Shard => size (shardChannels c) | _ => subscriptionCount c end.

(** [self_pending_]: frames for the connection whose command is running. *)
Record server := mkServer { pubsub_ : registry; clients_ : gmap Z client; self_pending_ : bytes }.

Definition updateRegistry (kind : SubKind) (name : bytes) (subscribing : bool) (fd : Z) (r : registry) : registry :=
  setMap kind (if subscribing then addTo (mapFor kind r) name fd else removeFrom (mapFor kind r) name fd).2 r.

Definition confirmKind (kind : SubKind) (subscribing : bool) : bytes :=
  match kind with
  | Pattern => if subscribing then str "psubscribe" else str "punsubscribe"
  | Shard => if subscribing then str "ssubscribe" else str "sunsubscribe"
  | Channel => if subscribing then str "subscribe" else str "unsubscribe"
  end.

(** The name is null for an UNSUBSCRIBE with nothing to drop. *)
Definition confirm (protover : Z) (kind : bytes) (target : option bytes) (count : nat) : bytes :=
  Reply.pushHeader protover 3 ++ Reply.bulk kind ++
  match target with Some t => Reply.bulk t | None => Reply.nullBulk protover end ++
  Reply.integer (i64 (Z.of_nat count)).

Definition confirmed (kind : SubKind) (subscribing : bool) (c : client) (name : bytes) : bytes :=
  confirm (protover_ c) (confirmKind kind subscribing) (Some name) (reportedCount c kind).

(** The body of the loop of [subscribeTo] and of [unsubscribeFrom], and the
    loop: the server, the client and the bytes of the reply. *)
Definition subscribeOne (kind : SubKind) (fd : Z) (c : client) (name : bytes) (s : server) : server * client * bytes :=
  let held := heldBy c kind in
  if decide (name ∈ held) then (s, c, confirmed kind true c name)
  else
    let c := setHeld kind ({[name]} ∪ held) c in
    (mkServer (updateRegistry kind name true fd (pubsub_ s)) (<[fd := c]> (clients_ s)) (self_pending_ s), c,
     confirmed kind true c name).

Definition unsubscribeOne (kind : SubKind) (fd : Z) (c : client) (name : bytes) (s : server) : server * client * bytes :=
  let held := heldBy c kind in
  if decide (name ∈ held) then
    let c := setHeld kind (held ∖ {[name]}) c in
    (mkServer (updateRegistry kind name false fd (pubsub_ s)) (<[fd := c]> (clients_ s)) (self_pending_ s), c,
     confirmed kind false c name)
  else (s, c, confirmed kind false c name).

Fixpoint each (one : client -> bytes -> server -> server * client * bytes)
    (c : client) (names : list bytes) (s : server) : server * bytes :=
  match names with
  | [] => (s, [])
  | name :: names =>
      let '(s, c, reply) := one c name s in
      let '(s, replies) := each one c names s in
      (s, reply ++ replies)
  end.

Definition subscribeTo (kind : SubKind) (fd : Z) (names : list bytes) (s : server) : server * bytes :=
  match clients_ s !! fd with
  | None => (s, [])
  | Some c => each (subscribeOne kind fd) c names s
  end.

Definition in_order (s : gset bytes) : list bytes := merge_sort bytes_leP (elements s).
Definition fds (s : gset Z) : list Z := merge_sort Z.le (elements s).

Definition unsubscribeFrom (kind : SubKind) (fd : Z) (names : list bytes) (s : server) : server * bytes :=
  match clients_ s !! fd with
  | None => (s, [])
  | Some c =>
      let targets := match names with [] => in_order (heldBy c kind) | _ => names end in
      match targets with
      | [] => (s, confirm (protover_ c) (confirmKind kind false) None (reportedCount c kind))
      | _ => each (unsubscribeOne kind fd) c targets s
      end
  end.

Definition drop_all (kind : SubKind) (fd : Z) (names : list bytes) (r : registry) : registry :=
  foldl (fun r name => updateRegistry kind name false fd r) r names.

Definition clearSubscriptions (fd : Z) (s : server) : server :=
  match clients_ s !! fd with
  | None => s
  | Some c =>
      let r := drop_all Channel fd (in_order (channels c)) (pubsub_ s) in
      let r := drop_all Pattern fd (in_order (patterns c)) r in
      let r := drop_all Shard fd (in_order (shardChannels c)) r in
      mkServer r (<[fd := cleared c]> (clients_ s)) (self_pending_ s)
  end.

(** [closeClient] of a client that is not executing a command. *)
Definition closeClient (fd : Z) (s : server) : server :=
  match clients_ s !! fd with
  | None => s
  | Some _ => let s := clearSubscriptions fd s in mkServer (pubsub_ s) (delete fd (clients_ s)) (self_pending_ s)
  end.

(** ** Publishing *)

(** One message as one frame: an array for a RESP2 recipient, a push for a
    RESP3 one. *)
Definition frame (protover : Z) (kind : bytes) (pattern : option bytes) (channel payload : bytes) : bytes :=
  Reply.pushHeader protover (if pattern is Some _ then 4 else 3) ++ Reply.bulk kind ++
  match pattern with Some p => Reply.bulk p | None => [] end ++ Reply.bulk channel ++ Reply.bulk payload.

(** [executing] is [executing_fd_]. *)
Definition queueWrite (executing fd : Z) (bs : bytes) (s : server) : server :=
  if fd =? executing then mkServer (pubsub_ s) (clients_ s) (self_pending_ s ++ bs)
  else mkServer (pubsub_ s) (alter (send bs) fd (clients_ s)) (self_pending_ s).

(** Nothing is sent when the connection is gone. *)
Definition deliverMessage (executing fd : Z) (kind : bytes) (pattern : option bytes) (channel payload : bytes)
    (s : server) : server :=
  match clients_ s !! fd with
  | None => s
  | Some recipient => queueWrite executing fd (frame (protover_ recipient) kind pattern channel payload) s
  end.

Definition subscribersOf (kind : SubKind) (channel : bytes) (r : registry) : list Z :=
  match subscribers kind channel r with None => [] | Some s => fds s end.

(** The patterns that match (whether [char] is signed is a parameter of the
    glob matcher), in the order of the map, with their subscribers. *)
Definition pattern_targets (char_signed : bool) (channel : bytes) (r : registry) : list (bytes * list Z) :=
  map (fun '(p, s) => (p, fds s))
    (List.filter (fun t : bytes * gset Z => bool_decide (Glob.globMatch char_signed false t.1 channel = Some true))
       (map (fun p => (p, default ∅ (patterns_ r !! p))) (in_order (dom (patterns_ r))))).

(** One loop over descriptors: how many, and the server after it. *)
Definition deliver_each (executing : Z) (kind : bytes) (pattern : option bytes) (channel payload : bytes)
    (targets : list Z) (acc : Z * server) : Z * server :=
  foldl (fun '(receivers, s) fd => (receivers + 1, deliverMessage executing fd kind pattern channel payload s))
    acc targets.

Definition publishMessage (char_signed : bool) (executing : Z) (channel payload : bytes) (s : server) : Z * server :=
  let '(receivers, s) :=
    deliver_each executing (str "message") None channel payload (subscribersOf Channel channel (pubsub_ s)) (0, s) in
  foldl (fun acc '(p, l) => deliver_each executing (str "pmessage") (Some p) channel payload l acc)
    (receivers, s) (pattern_targets char_signed channel (pubsub_ s)).

Definition publishShardMessage (executing : Z) (channel payload : bytes) (s : server) : Z * server :=
  deliver_each executing (str "smessage") None channel payload (subscribersOf Shard channel (pubsub_ s)) (0, s).

(** ** The two records agree *)

Definition members (kind : SubKind) (name : bytes) (r : registry) : gset Z := default ∅ (mapFor kind r !! name).

(** The registry and the clients say the same, and no entry is empty. *)
Definition consistent (s : server) : Prop :=
  (forall kind name fd, fd ∈ members kind name (pubsub_ s) <->
     exists c, clients_ s !! fd = Some c /\ name ∈ heldBy c kind) /\
  (forall kind name, subscribers kind name (pubsub_ s) <> Some ∅).

Lemma members_update (kind : SubKind) (name : bytes) (b : bool) (fd : Z) (r : registry) (kind' : SubKind) (name' : bytes) :
  members kind' name' (updateRegistry kind name b fd r) =
  if decide (kind' = kind /\ name' = name)
  then (if b then {[fd]} ∪ members kind name r else members kind name r ∖ {[fd]})
  else members kind' name' r.
Proof.
  unfold members, updateRegistry.
  destruct (decide (kind' = kind)) as [->|Hk].
  2: { rewrite decide_False by (by intros [? _]). by destruct kind, kind'. }
  assert (forall m, mapFor kind (setMap kind m r) = m) as -> by (by destruct kind).
  destruct (decide (name' = name)) as [->|Hn].
  - rewrite decide_True by done. destruct b; unfold addTo, removeFrom; cbn [snd]; [by rewrite lookup_insert_eq|].
    destruct (mapFor kind r !! name) as [l|] eqn:E; cbn [default snd]; [|rewrite E; set_solver].
    case_decide as Hd; [rewrite lookup_delete_eq; cbn; set_solver|by rewrite lookup_insert_eq].
  - rewrite decide_False by (by intros [_ ?]). destruct b; unfold addTo, removeFrom; cbn [snd].
    { by rewrite lookup_insert_ne. }
    destruct (mapFor kind r !! name) as [l|] eqn:E; [|done]. cbn [snd].
    case_decide; [by rewrite lookup_delete_ne|by rewrite lookup_insert_ne].
Qed.

Lemma subscribers_update (kind : SubKind) (name : bytes) (b : bool) (fd : Z) (r : registry) :
  (forall kind name, subscribers kind name r <> Some ∅) ->
  forall kind' name', subscribers kind' name' (updateRegistry kind name b fd r) <> Some ∅.
Proof.
  intros Hne kind' name'. unfold subscribers, updateRegistry in *.
  destruct (decide (kind' = kind)) as [->|Hk].
  2: { specialize (Hne kind' name'). by destruct kind, kind'. }
  assert (forall m, mapFor kind (setMap kind m r) = m) as -> by (by destruct kind).
  specialize (Hne kind name'). destruct b; unfold addTo, removeFrom; cbn [snd].
  - destruct (decide (name' = name)) as [->|Hn]; [rewrite lookup_insert_eq; intros [=]; set_solver|].
    by rewrite lookup_insert_ne.
  - destruct (mapFor kind r !! name) as [l|] eqn:E; [|done]. cbn [snd].
    destruct (decide (name' = name)) as [->|Hn].
    + case_decide; [by rewrite lookup_delete_eq|]. rewrite lookup_insert_eq. intros [=]. done.
    + case_decide; [by rewrite lookup_delete_ne|by rewrite lookup_insert_ne].
Qed.

Lemma heldBy_setHeld (kind k : SubKind) (s : gset bytes) (c : client) :
  heldBy (setHeld kind s c) k = if decide (k = kind) then s else heldBy c k.
Proof. by destruct kind, k. Qed.

(** Changing one subscription in both records keeps them in agreement. *)
Lemma consistent_update (kind : SubKind) (name : bytes) (b : bool) (fd : Z) (c : client) (s : server) (held : gset bytes) :
  consistent s -> clients_ s !! fd = Some c ->
  held = (if b then {[name]} ∪ heldBy c kind else heldBy c kind ∖ {[name]}) ->
  consistent (mkServer (updateRegistry kind name b fd (pubsub_ s)) (<[fd := setHeld kind held c]> (clients_ s)) (self_pending_ s)).
Proof.
  intros [Hc Hne] Hfd ->. split; cbn [pubsub_ clients_]; [|by apply subscribers_update].
  intros k n f. rewrite members_update.
  destruct (decide (f = fd)) as [->|Hf].
  - rewrite lookup_insert_eq.
    transitivity (n ∈ heldBy (setHeld kind (if b then {[name]} ∪ heldBy c kind else heldBy c kind ∖ {[name]}) c) k);
      [|split; [by eexists|by intros (? & [= <-] & ?)]].
    rewrite heldBy_setHeld. specialize (Hc k n fd). rewrite Hfd in Hc.
    assert (fd ∈ members k n (pubsub_ s) <-> n ∈ heldBy c k) as Hiff.
    { rewrite Hc. split; [by intros (? & [= <-] & ?)|by eexists]. }
    destruct (decide (k = kind)) as [->|Hk]; [|by rewrite decide_False by (by intros [? _])].
    destruct (decide (n = name)) as [->|Hn].
    + rewrite decide_True by done. destruct b; set_solver.
    + rewrite decide_False by (by intros [_ ?]). destruct b; set_solver.
  - rewrite lookup_insert_ne by done. rewrite <- Hc. case_decide as Hd; [|done]. destruct Hd as [-> ->].
    destruct b; set_solver.
Qed.

(** ** The commands *)

(** What a loop over names does, from what each turn does: [f] is its effect
    on the set of names held. *)
Lemma each_effect (kind : SubKind) (sub : bool) (fd : Z) (f : gset bytes -> bytes -> gset bytes)
    (one : client -> bytes -> server -> server * client * bytes) :
  (forall (c : client) (name : bytes) (s : server), consistent s -> clients_ s !! fd = Some c ->
     consistent (one c name s).1.1 /\
     (one c name s).1.2 = setHeld kind (f (heldBy c kind) name) c /\
     clients_ (one c name s).1.1 = <[fd := setHeld kind (f (heldBy c kind) name) c]> (clients_ s) /\
     (one c name s).2 = confirmed kind sub (setHeld kind (f (heldBy c kind) name) c) name) ->
  forall (names : list bytes) (c : client) (s : server), consistent s -> clients_ s !! fd = Some c ->
    consistent (each one c names s).1 /\
    clients_ (each one c names s).1 = <[fd := setHeld kind (foldl f (heldBy c kind) names) c]> (clients_ s) /\
    (each one c names s).2 =
      concat (imap (fun i name => confirmed kind sub (setHeld kind (foldl f (heldBy c kind) (take (S i) names)) c) name) names).
Proof.
  intros Hone names. induction names as [|name names IH]; intros c s Hs Hc.
  { cbn. split; [done|]. split; [|done]. assert (setHeld kind (heldBy c kind) c = c) as -> by (by destruct kind, c).
    symmetry. by apply insert_id. }
  destruct (Hone c name s Hs Hc) as (H1 & H2 & H3 & H4). cbn [each].
  destruct (one c name s) as [[s1 c1] r]. cbn [fst snd] in *. subst c1 r.
  destruct (IH (setHeld kind (f (heldBy c kind) name) c) s1 H1) as (I1 & I2 & I3).
  { rewrite H3. apply lookup_insert_eq. }
  assert (forall (x : gset bytes) ns, setHeld kind (foldl f (heldBy (setHeld kind x c) kind) ns) (setHeld kind x c) =
    setHeld kind (foldl f x ns) c) as Hset
    by (intros; rewrite heldBy_setHeld, decide_True by done; by destruct kind).
  destruct (each one _ names s1) as [s2 rs]. cbn [fst snd] in *. subst rs. split; [done|]. split.
  - rewrite I2, H3, insert_insert_eq. cbn [foldl]. by rewrite Hset.
  - cbn [imap concat take foldl]. f_equal. f_equal. apply imap_ext. intros i x _. cbn. by rewrite Hset.
Qed.

Lemma setHeld_same (kind : SubKind) (c : client) : setHeld kind (heldBy c kind) c = c.
Proof. by destruct kind, c. Qed.

Lemma subscribeOne_effect (kind : SubKind) (fd : Z) (c : client) (name : bytes) (s : server) :
  consistent s -> clients_ s !! fd = Some c ->
  consistent (subscribeOne kind fd c name s).1.1 /\
  (subscribeOne kind fd c name s).1.2 = setHeld kind ({[name]} ∪ heldBy c kind) c /\
  clients_ (subscribeOne kind fd c name s).1.1 = <[fd := setHeld kind ({[name]} ∪ heldBy c kind) c]> (clients_ s) /\
  (subscribeOne kind fd c name s).2 = confirmed kind true (setHeld kind ({[name]} ∪ heldBy c kind) c) name.
Proof.
  intros Hs Hc. unfold subscribeOne. case_decide as Hin; cbn [fst snd].
  - assert ({[name]} ∪ heldBy c kind = heldBy c kind) as -> by set_solver. rewrite setHeld_same.
    split; [done|]. split; [done|]. split; [|done]. symmetry. by apply insert_id.
  - split; [|done]. by apply (consistent_update kind name true).
Qed.

Lemma unsubscribeOne_effect (kind : SubKind) (fd : Z) (c : client) (name : bytes) (s : server) :
  consistent s -> clients_ s !! fd = Some c ->
  consistent (unsubscribeOne kind fd c name s).1.1 /\
  (unsubscribeOne kind fd c name s).1.2 = setHeld kind (heldBy c kind ∖ {[name]}) c /\
  clients_ (unsubscribeOne kind fd c name s).1.1 = <[fd := setHeld kind (heldBy c kind ∖ {[name]}) c]> (clients_ s) /\
  (unsubscribeOne kind fd c name s).2 = confirmed kind false (setHeld kind (heldBy c kind ∖ {[name]}) c) name.
Proof.
  intros Hs Hc. unfold unsubscribeOne. case_decide as Hin; cbn [fst snd].
  - split; [|done]. by apply (consistent_update kind name false).
  - assert (heldBy c kind ∖ {[name]} = heldBy c kind) as -> by set_solver. rewrite setHeld_same.
    split; [done|]. split; [done|]. split; [|done]. symmetry. by apply insert_id.
Qed.

Lemma foldl_add (names : list bytes) (held : gset bytes) :
  foldl (fun h n => {[n]} ∪ h) held names = list_to_set names ∪ held.
Proof. revert held. induction names as [|n names IH]; intros held; cbn; [set_solver|]. rewrite IH. set_solver. Qed.

Lemma foldl_remove (names : list bytes) (held : gset bytes) :
  foldl (fun h n => h ∖ {[n]}) held names = held ∖ list_to_set names.
Proof. revert held. induction names as [|n names IH]; intros held; cbn; [set_solver|]. rewrite IH. set_solver. Qed.

Lemma subscribeTo_effect (kind : SubKind) (fd : Z) (names : list bytes) (c : client) (s : server) :
  consistent s -> clients_ s !! fd = Some c ->
  consistent (subscribeTo kind fd names s).1 /\
  clients_ (subscribeTo kind fd names s).1 = <[fd := setHeld kind (list_to_set names ∪ heldBy c kind) c]> (clients_ s) /\
  (subscribeTo kind fd names s).2 =
    concat (imap (fun i name => confirmed kind true (setHeld kind (list_to_set (take (S i) names) ∪ heldBy c kind) c) name) names).
Proof.
  intros Hs Hc. unfold subscribeTo. rewrite Hc, <- foldl_add.
  destruct (each_effect kind true fd (fun h n => {[n]} ∪ h) (subscribeOne kind fd)) with (names := names) (c := c) (s := s)
    as (H1 & H2 & H3); auto using subscribeOne_effect.
  split; [done|]. split; [done|]. rewrite H3. f_equal. apply imap_ext. intros i x _. cbn. by rewrite foldl_add.
Qed.

Lemma in_order_elements (s : gset bytes) : list_to_set (in_order s) = s.
Proof.
  apply set_eq. intros x. rewrite elem_of_list_to_set. unfold in_order.
  by rewrite merge_sort_Permutation, elem_of_elements.
Qed.

(** The confirmations of an UNSUBSCRIBE of these names: one for each, with the
    count that is left after it, and one without a name when there is none. *)
Definition unsubscribe_reply (kind : SubKind) (c : client) (targets : list bytes) : bytes :=
  match targets with
  | [] => confirm (protover_ c) (confirmKind kind false) None (reportedCount c kind)
  | _ => concat (imap (fun i name =>
           confirmed kind false (setHeld kind (heldBy c kind ∖ list_to_set (take (S i) targets)) c) name) targets)
  end.

Lemma unsubscribeFrom_effect (kind : SubKind) (fd : Z) (names : list bytes) (c : client) (s : server) :
  consistent s -> clients_ s !! fd = Some c ->
  consistent (unsubscribeFrom kind fd names s).1 /\
  clients_ (unsubscribeFrom kind fd names s).1 =
    <[fd := setHeld kind (match names with [] => ∅ | _ => heldBy c kind ∖ list_to_set names end) c]> (clients_ s) /\
  (unsubscribeFrom kind fd names s).2 =
    unsubscribe_reply kind c (match names with [] => in_order (heldBy c kind) | _ => names end).
Proof.
  intros Hs Hc. unfold unsubscribeFrom. rewrite Hc.
  set (targets := match names with [] => in_order (heldBy c kind) | _ => names end).
  assert ((match names with [] => ∅ | _ => heldBy c kind ∖ list_to_set names end) = heldBy c kind ∖ list_to_set targets) as ->.
  { subst targets. destruct names; [|done]. rewrite in_order_elements. set_solver. }
  destruct targets as [|t targets].
  - assert (heldBy c kind ∖ list_to_set [] = heldBy c kind) as -> by (cbn; set_solver).
    rewrite setHeld_same. cbn [fst snd]. split; [done|]. split; [|done]. symmetry. by apply insert_id.
  - rewrite <- foldl_remove.
    destruct (each_effect kind false fd (fun h n => h ∖ {[n]}) (unsubscribeOne kind fd))
      with (names := t :: targets) (c := c) (s := s) as (H1 & H2 & H3); auto using unsubscribeOne_effect.
    split; [done|]. split; [done|]. rewrite H3. unfold unsubscribe_reply. f_equal. apply imap_ext.
    intros i x _. by rewrite foldl_remove.
Qed.

(** ** Dropping a connection *)

Lemma members_drop_all (kind : SubKind) (fd : Z) (names : list bytes) (r : registry) (k : SubKind) (n : bytes) (f : Z) :
  f ∈ members k n (drop_all kind fd names r) <->
  f ∈ members k n r /\ ~ (k = kind /\ n ∈ names /\ f = fd).
Proof.
  unfold drop_all. revert r. induction names as [|name names IH]; intros r; cbn [foldl]; [set_solver|].
  rewrite IH, members_update. case_decide as Hd; [destruct Hd as [-> ->]|]; set_solver.
Qed.

Lemma subscribers_drop_all (kind : SubKind) (fd : Z) (names : list bytes) (r : registry) :
  (forall kind name, subscribers kind name r <> Some ∅) ->
  forall kind' name', subscribers kind' name' (drop_all kind fd names r) <> Some ∅.
Proof.
  unfold drop_all. revert r. induction names as [|name names IH]; intros r Hr; cbn [foldl]; [done|].
  apply IH. by apply subscribers_update.
Qed.

Lemma elem_of_in_order (s : gset bytes) (n : bytes) : n ∈ in_order s <-> n ∈ s.
Proof. unfold in_order. by rewrite merge_sort_Permutation, elem_of_elements. Qed.

Lemma clearSubscriptions_effect (fd : Z) (c : client) (s : server) :
  consistent s -> clients_ s !! fd = Some c ->
  consistent (clearSubscriptions fd s) /\ clients_ (clearSubscriptions fd s) = <[fd := cleared c]> (clients_ s).
Proof.
  intros [Hs Hne] Hc. unfold clearSubscriptions. rewrite Hc. cbn [clients_]. split; [|done].
  split; cbn [pubsub_ clients_]; [|by repeat apply subscribers_drop_all].
  intros k n f. rewrite !members_drop_all, !elem_of_in_order, Hs.
  destruct (decide (f = fd)) as [->|Hf].
  - rewrite lookup_insert_eq, Hc. split.
    + intros [[[(c' & [= <-] & Hin) H1] H2] H3]. destruct k; cbn in Hin; naive_solver.
    + intros (c' & [= <-] & Hin). destruct k; cbn in Hin; set_solver.
  - rewrite lookup_insert_ne by done. naive_solver.
Qed.

Lemma closeClient_effect (fd : Z) (s : server) :
  consistent s -> consistent (closeClient fd s) /\ clients_ (closeClient fd s) = delete fd (clients_ s).
Proof.
  intros Hs. unfold closeClient. destruct (clients_ s !! fd) as [c|] eqn:Hc.
  2: { split; [done|]. symmetry. by apply delete_id. }
  destruct (clearSubscriptions_effect fd c s Hs Hc) as [[H1 H2] H3].
  destruct (clearSubscriptions fd s) as [r cl]. cbn [pubsub_ clients_] in *. subst cl.
  split; [|by rewrite delete_insert_eq]. split; [|done]. cbn [pubsub_ clients_].
  intros k n f. rewrite H1. rewrite delete_insert_eq. destruct (decide (f = fd)) as [->|Hf].
  - rewrite lookup_insert_eq, lookup_delete_eq. split; [|by intros (? & ? & _)].
    intros (c' & [= <-] & Hin). by destruct k.
  - by rewrite lookup_insert_ne, lookup_delete_ne by done.
Qed.

(** ** The server's subscriptions over time *)

(** What can happen to them: a connection is accepted on an unused descriptor,
    runs one of the six commands, is reset or killed while executing, or
    is closed. *)
Inductive step (s : server) : server -> Prop :=
  | step_accept fd : clients_ s !! fd = None -> step s (mkServer (pubsub_ s) (<[fd := accepted]> (clients_ s)) (self_pending_ s))
  | step_subscribe kind fd names : step s (subscribeTo kind fd names s).1
  | step_unsubscribe kind fd names : step s (unsubscribeFrom kind fd names s).1
  | step_clear fd : step s (clearSubscriptions fd s)
  | step_close fd : step s (closeClient fd s).

Definition initial : server := mkServer (mkRegistry ∅ ∅ ∅) ∅ [].
Definition reachable (s : server) : Prop := rtc step initial s.

Lemma consistent_initial : consistent initial.
Proof.
  split.
  - intros kind name fd. unfold members. destruct kind; cbn; rewrite lookup_empty; cbn; (split; [set_solver|]);
      intros (c & Hc & _); by rewrite lookup_empty in Hc.
  - intros kind name. unfold subscribers. by destruct kind; cbn; rewrite lookup_empty.
Qed.

Lemma consistent_step (s s' : server) : consistent s -> step s s' -> consistent s'.
Proof.
  intros Hs Hstep. destruct Hstep as [fd Hnone|kind fd names|kind fd names|fd|fd].
  - destruct Hs as [Hs Hne]. split; [|done]. cbn [pubsub_ clients_]. intros k n f. rewrite Hs.
    destruct (decide (f = fd)) as [->|Hf]; [|by rewrite lookup_insert_ne].
    rewrite Hnone, lookup_insert_eq. split; [by intros (? & ? & _)|].
    intros (c & [= <-] & Hin). by destruct k; cbn in Hin; apply not_elem_of_empty in Hin.
  - destruct (clients_ s !! fd) as [c|] eqn:Hc; [by apply (subscribeTo_effect _ _ _ c)|].
    unfold subscribeTo. by rewrite Hc.
  - destruct (clients_ s !! fd) as [c|] eqn:Hc; [by apply (unsubscribeFrom_effect _ _ _ c)|].
    unfold unsubscribeFrom. by rewrite Hc.
  - destruct (clients_ s !! fd) as [c|] eqn:Hc; [by apply (clearSubscriptions_effect _ c)|].
    unfold clearSubscriptions. by rewrite Hc.
  - by apply closeClient_effect.
Qed.

Lemma reachable_consistent (s : server) : reachable s -> consistent s.
Proof.
  intros Hr. unfold reachable in Hr. remember initial as s0 eqn:H0.
  assert (consistent s0) as Hc by (rewrite H0; apply consistent_initial). clear H0.
  induction Hr; [done|]. eauto using consistent_step.
Qed.

(** C34: the two records of every subscription never disagree, whatever
    sequence of connects, subscribes, unsubscribes, resets and disconnects
    happened: a connection is in the registry under a name exactly when it is
    alive and holds that name, and no registry entry is empty, so the registry
    never names a closed connection. *)
Theorem subscriptions_agree (s : server) : reachable s -> consistent s.
Proof. apply reachable_consistent. Qed.

Lemma subscriptions_agree_witness :
  consistent (subscribeTo Channel 7 [str "news"] (mkServer (mkRegistry ∅ ∅ ∅) {[7 := accepted]} [])).1.
Proof.
  apply subscriptions_agree. unfold reachable.
  eapply rtc_l; [exact (step_accept initial 7 eq_refl)|].
  eapply rtc_l; [exact (step_subscribe _ Channel 7 [str "news"])|]. apply rtc_refl.
Defined.

(** the effect of the subscription commands on every connection. SUBSCRIBE
    and its variants add exactly the given names to the caller's set of that
    namespace; UNSUBSCRIBE removes exactly the given names, or all of them
    when none is given; the caller's other namespaces and every other
    connection are left alone; closing removes the connection. The reply
    confirms every name in turn with the number of subscriptions held after
    that name (channels and patterns together, shard channels on their own). *)
Theorem subscription_commands (kind : SubKind) (fd : Z) (names : list bytes) (c : client) (s : server) :
  consistent s -> clients_ s !! fd = Some c ->
  (clients_ (subscribeTo kind fd names s).1 = <[fd := setHeld kind (list_to_set names ∪ heldBy c kind) c]> (clients_ s) /\
   (subscribeTo kind fd names s).2 =
     concat (imap (fun i name =>
       confirmed kind true (setHeld kind (list_to_set (take (S i) names) ∪ heldBy c kind) c) name) names)) /\
  (clients_ (unsubscribeFrom kind fd names s).1 =
     <[fd := setHeld kind (match names with [] => ∅ | _ => heldBy c kind ∖ list_to_set names end) c]> (clients_ s) /\
   (unsubscribeFrom kind fd names s).2 =
     unsubscribe_reply kind c (match names with [] => in_order (heldBy c kind) | _ => names end)) /\
  clients_ (clearSubscriptions fd s) = <[fd := cleared c]> (clients_ s) /\
  clients_ (closeClient fd s) = delete fd (clients_ s).
Proof.
  intros Hs Hc. split; [by apply subscribeTo_effect|]. split; [by apply unsubscribeFrom_effect|].
  split; [by apply (clearSubscriptions_effect fd c)|by apply closeClient_effect].
Qed.

Lemma subscription_commands_witness :
  let s := mkServer (mkRegistry ∅ ∅ ∅) {[7 := accepted]} [] in
  clients_ (subscribeTo Pattern 7 [str "a*"] s).1 =
    <[7 := setHeld Pattern (list_to_set [str "a*"] ∪ ∅) accepted]> (clients_ s).
Proof.
  intros s. apply (subscription_commands Pattern 7 [str "a*"] accepted s); [|reflexivity].
  exact (consistent_step _ _ consistent_initial (step_accept initial 7 eq_refl)).
Defined.

(** ** Who hears a message *)

Lemma elem_of_fds (l : gset Z) (fd : Z) : fd ∈ fds l <-> fd ∈ l.
Proof. unfold fds. by rewrite merge_sort_Permutation, elem_of_elements. Qed.

Lemma NoDup_fds (l : gset Z) : NoDup (fds l).
Proof. unfold fds. rewrite merge_sort_Permutation. apply NoDup_elements. Qed.

Lemma subscribersOf_spec (kind : SubKind) (channel : bytes) (r : registry) :
  NoDup (subscribersOf kind channel r) /\ forall fd, fd ∈ subscribersOf kind channel r <-> fd ∈ members kind channel r.
Proof.
  unfold subscribersOf, subscribers, members. destruct (mapFor kind r !! channel) as [l|]; cbn [default].
  - split; [apply NoDup_fds|apply elem_of_fds].
  - split; [constructor|set_solver].
Qed.


(** *** The order of names *)

Lemma in_order_sorted (s : gset bytes) : StronglySorted bytes_leP (in_order s).
Proof.
  apply Sorted_StronglySorted; [apply _|]. apply Sorted_merge_sort. intros a b. apply bytes_le_total.
Qed.

Lemma NoDup_in_order (s : gset bytes) : NoDup (in_order s).
Proof. unfold in_order. rewrite merge_sort_Permutation. apply NoDup_elements. Qed.

Lemma filter_sorted {A} (R : A -> A -> Prop) (f : A -> bool) (l : list A) :
  StronglySorted R l -> StronglySorted R (List.filter f l).
Proof.
  induction 1 as [|x l Hl IH Hx]; cbn; [constructor|]. destruct (f x); [|done]. constructor; [done|].
  rewrite Forall_forall in Hx |- *. intros y Hy. apply Hx. rewrite list_elem_of_In in Hy |- *. by apply filter_In in Hy as [? _].
Qed.

(** A subset listed in the order of the larger set is in its own order. *)
Lemma in_order_subset (s t : gset bytes) : s ⊆ t ->
  List.filter (fun p => bool_decide (p ∈ s)) (in_order t) = in_order s.
Proof.
  intros Hst. apply (StronglySorted_unique bytes_leP); [apply filter_sorted; apply in_order_sorted|apply in_order_sorted|].
  apply NoDup_Permutation.
  - apply NoDup_ListNoDup, List.NoDup_filter, NoDup_ListNoDup, NoDup_in_order.
  - apply NoDup_in_order.
  - intros x. rewrite list_elem_of_In, filter_In, <- list_elem_of_In, bool_decide_eq_true, !elem_of_in_order. set_solver.
Qed.

(** *** Deliveries *)

(** What one connection is sent, in order. *)
Definition heard (cs : bool) (channel payload : bytes) (c : client) : list bytes :=
  (if bool_decide (channel ∈ channels c) then [frame (protover_ c) (str "message") None channel payload] else []) ++
  map (fun p => frame (protover_ c) (str "pmessage") (Some p) channel payload)
    (List.filter (fun p => bool_decide (Glob.globMatch cs false p channel = Some true)) (in_order (patterns c))).

Definition shard_heard (channel payload : bytes) (c : client) : list bytes :=
  if bool_decide (channel ∈ shardChannels c) then [frame (protover_ c) (str "smessage") None channel payload] else [].

(** A message to a connection: the word and the pattern. *)
Abbreviation delivery := (Z * (bytes * option bytes))%type.

Definition run_deliveries (executing : Z) (channel payload : bytes) (ds : list delivery) (s : server) : server :=
  foldl (fun s '(fd, (kind, pattern)) => deliverMessage executing fd kind pattern channel payload s) s ds.

Definition frames_for (channel payload : bytes) (fd protover : Z) (ds : list delivery) : list bytes :=
  map (fun '(_, (kind, pattern)) => frame protover kind pattern channel payload)
    (List.filter (fun d : delivery => fst d =? fd) ds).

Lemma deliver_each_run (e : Z) (kind : bytes) (pattern : option bytes) (channel payload : bytes) (l : list Z) (n : Z) (s : server) :
  deliver_each e kind pattern channel payload l (n, s) =
  (n + Z.of_nat (length l), run_deliveries e channel payload (map (fun fd => (fd, (kind, pattern))) l) s).
Proof.
  unfold deliver_each, run_deliveries. revert n s. induction l as [|fd l IH]; intros n s; cbn; [by rewrite Z.add_0_r|].
  rewrite IH. f_equal. lia.
Qed.

Definition pattern_deliveries (targets : list (bytes * list Z)) : list delivery :=
  concat (map (fun '(p, l) => map (fun fd => (fd, (str "pmessage", Some p))) l) targets).

Lemma deliverMessage_registry (e fd : Z) (kind : bytes) (pattern : option bytes) (channel payload : bytes) (s : server) :
  pubsub_ (deliverMessage e fd kind pattern channel payload s) = pubsub_ s.
Proof. unfold deliverMessage, queueWrite. destruct (clients_ s !! fd); [|done]. by destruct (fd =? e). Qed.

Lemma run_deliveries_registry (e : Z) (channel payload : bytes) (ds : list delivery) (s : server) :
  pubsub_ (run_deliveries e channel payload ds s) = pubsub_ s.
Proof.
  unfold run_deliveries. revert s. induction ds as [|[fd [kind pattern]] ds IH]; intros s; cbn; [done|].
  by rewrite IH, deliverMessage_registry.
Qed.

Lemma run_deliveries_app (e : Z) (channel payload : bytes) (ds1 ds2 : list delivery) (s : server) :
  run_deliveries e channel payload (ds1 ++ ds2) s =
  run_deliveries e channel payload ds2 (run_deliveries e channel payload ds1 s).
Proof. apply foldl_app. Qed.

Lemma run_deliveries_cons (e : Z) (channel payload : bytes) (fd : Z) (kind : bytes) (pattern : option bytes)
    (ds : list delivery) (s : server) :
  run_deliveries e channel payload ((fd, (kind, pattern)) :: ds) s =
  run_deliveries e channel payload ds (deliverMessage e fd kind pattern channel payload s).
Proof. done. Qed.

Lemma pattern_run (e : Z) (channel payload : bytes) (targets : list (bytes * list Z)) (n : Z) (s : server) :
  foldl (fun acc '(p, l) => deliver_each e (str "pmessage") (Some p) channel payload l acc) (n, s) targets =
  (n + Z.of_nat (length (pattern_deliveries targets)),
   run_deliveries e channel payload (pattern_deliveries targets) s).
Proof.
  revert n s. induction targets as [|[p l] ts IH]; intros n s; [cbn; by rewrite Z.add_0_r|].
  cbn [foldl]. rewrite deliver_each_run, IH. unfold pattern_deliveries. cbn [map concat].
  rewrite run_deliveries_app, length_app, length_map. f_equal. lia.
Qed.

Lemma publish_run (cs : bool) (e : Z) (channel payload : bytes) (s : server) :
  let ds := map (fun fd => (fd, (str "message", None))) (subscribersOf Channel channel (pubsub_ s)) ++
            pattern_deliveries (pattern_targets cs channel (pubsub_ s)) in
  publishMessage cs e channel payload s = (Z.of_nat (length ds), run_deliveries e channel payload ds s).
Proof.
  intros ds. unfold publishMessage. rewrite deliver_each_run, pattern_run, run_deliveries_registry. subst ds.
  rewrite run_deliveries_app, length_app, length_map. f_equal. lia.
Qed.

(** The effect of a list of deliveries on each connection. *)
Lemma run_deliveries_client (e : Z) (channel payload : bytes) (ds : list delivery) (s : server) (fd : Z) :
  clients_ (run_deliveries e channel payload ds s) !! fd =
  (fun c => if fd =? e then c else send (concat (frames_for channel payload fd (protover_ c) ds)) c) <$> clients_ s !! fd.
Proof.
  revert s. induction ds as [|[f [kind pattern]] ds IH]; intros s.
  { cbn [run_deliveries foldl]. destruct (clients_ s !! fd) as [[]|]; cbn; [|done]. destruct (fd =? e); [done|]. unfold send. cbn. by rewrite app_nil_r. }
  rewrite run_deliveries_cons, IH. unfold deliverMessage, queueWrite.
  destruct (clients_ s !! f) as [r|] eqn:Hf.
  - destruct (f =? e) eqn:Hfe; cbn [clients_].
    + destruct (clients_ s !! fd) as [c|]; cbn; [|done]. f_equal. destruct (fd =? e) eqn:Hde; [done|].
      unfold frames_for. cbn [List.filter fst]. by replace (f =? fd) with false by lia.
    + destruct (decide (f = fd)) as [->|Hne].
      * rewrite lookup_alter_eq, Hf. cbn. rewrite Hfe. f_equal. unfold frames_for, send. cbn. rewrite Z.eqb_refl. cbn.
        by rewrite app_assoc.
      * rewrite lookup_alter_ne by done. destruct (clients_ s !! fd) as [c|]; cbn; [|done]. f_equal.
        destruct (fd =? e); [done|]. unfold frames_for. cbn [List.filter fst]. by replace (f =? fd) with false by lia.
  - destruct (clients_ s !! fd) as [c|] eqn:Hd; cbn; [|done]. f_equal. destruct (fd =? e); [done|].
    unfold frames_for. cbn [List.filter fst]. replace (f =? fd) with false; [done|].
    symmetry. apply Z.eqb_neq. intros ->. congruence.
Qed.

Lemma run_deliveries_self (e : Z) (channel payload : bytes) (ds : list delivery) (s : server) :
  self_pending_ (run_deliveries e channel payload ds s) = self_pending_ s ++
  match clients_ s !! e with Some c => concat (frames_for channel payload e (protover_ c) ds) | None => [] end.
Proof.
  revert s. induction ds as [|[f [kind pattern]] ds IH]; intros s.
  { cbn [run_deliveries foldl]. unfold frames_for. cbn. destruct (clients_ s !! e); by rewrite app_nil_r. }
  rewrite run_deliveries_cons, IH.
  assert (clients_ (deliverMessage e f kind pattern channel payload s) !! e = clients_ s !! e) as ->.
  { unfold deliverMessage, queueWrite. destruct (clients_ s !! f) eqn:Hf; [|done]. destruct (f =? e) eqn:Hfe; [done|].
    cbn. apply lookup_alter_ne. lia. }
  unfold deliverMessage, queueWrite, frames_for. cbn [List.filter fst]. destruct (Z.eqb_spec f e) as [->|Hne].
  - destruct (clients_ s !! e) as [c|]; [|done]. cbn. by rewrite app_assoc.
  - destruct (clients_ s !! f); done.
Qed.

(** *** Which deliveries are for a connection *)

Lemma frames_for_app (channel payload : bytes) (fd pv : Z) (ds1 ds2 : list delivery) :
  frames_for channel payload fd pv (ds1 ++ ds2) = frames_for channel payload fd pv ds1 ++ frames_for channel payload fd pv ds2.
Proof. unfold frames_for. by rewrite List.filter_app, map_app. Qed.

Lemma filter_same_fd (l : list Z) (fd : Z) (x : bytes * option bytes) :
  NoDup l -> List.filter (fun d : delivery => fst d =? fd) (map (fun f => (f, x)) l) =
  if bool_decide (fd ∈ l) then [(fd, x)] else [].
Proof.
  induction 1 as [|f l Hf Hl IH]; [done|]. cbn [map List.filter fst]. rewrite IH.
  destruct (Z.eqb_spec f fd) as [->|Hne].
  - rewrite (bool_decide_eq_false_2 (fd ∈ l)) by done. by rewrite bool_decide_eq_true_2 by (by left).
  - by rewrite (bool_decide_ext (fd ∈ f :: l) (fd ∈ l)) by set_solver.
Qed.

Lemma frames_of_channel (kind : SubKind) (word channel payload : bytes) (fd : Z) (c : client) (s : server) :
  consistent s -> clients_ s !! fd = Some c ->
  frames_for channel payload fd (protover_ c) (map (fun f => (f, (word, None))) (subscribersOf kind channel (pubsub_ s))) =
  if bool_decide (channel ∈ heldBy c kind) then [frame (protover_ c) word None channel payload] else [].
Proof.
  intros [Hs _] Hc. destruct (subscribersOf_spec kind channel (pubsub_ s)) as [Hnd Hin].
  unfold frames_for. rewrite filter_same_fd by done.
  rewrite (bool_decide_ext (fd ∈ subscribersOf kind channel (pubsub_ s)) (channel ∈ heldBy c kind)); [by case_bool_decide|].
  rewrite Hin, Hs. split; [by intros (? & [= <-]%(eq_trans (eq_sym Hc)) & ?)|eauto].
Qed.

Lemma frames_of_patterns (cs : bool) (channel payload : bytes) (fd : Z) (c : client) (s : server) :
  consistent s -> clients_ s !! fd = Some c ->
  frames_for channel payload fd (protover_ c) (pattern_deliveries (pattern_targets cs channel (pubsub_ s))) =
  map (fun p => frame (protover_ c) (str "pmessage") (Some p) channel payload)
    (List.filter (fun p => bool_decide (Glob.globMatch cs false p channel = Some true)) (in_order (patterns c))).
Proof.
  intros [Hs _] Hc.
  assert (Hmem : forall p, fd ∈ members Pattern p (pubsub_ s) <-> p ∈ patterns c).
  { intros p. rewrite Hs. split; [by intros (? & [= <-]%(eq_trans (eq_sym Hc)) & ?)|eauto]. }
  assert (patterns c ⊆ dom (patterns_ (pubsub_ s))) as Hsub.
  { intros p Hp%Hmem. unfold members in Hp. cbn [mapFor] in Hp. apply elem_of_dom.
    destruct (patterns_ (pubsub_ s) !! p); [done|]. by apply not_elem_of_empty in Hp. }
  rewrite <- (in_order_subset _ _ Hsub). unfold pattern_targets, pattern_deliveries, frames_for.
  induction (in_order (dom (patterns_ (pubsub_ s)))) as [|p ps IH]; [done|].
  cbn [map List.filter fst]. destruct (bool_decide (Glob.globMatch cs false p channel = Some true)) eqn:Hg;
    cbn [map concat].
  - rewrite List.filter_app, map_app, IH, filter_same_fd by apply NoDup_fds.
    rewrite (bool_decide_ext (fd ∈ fds (default ∅ (patterns_ (pubsub_ s) !! p))) (p ∈ patterns c))
      by (rewrite elem_of_fds; apply Hmem).
    destruct (bool_decide (p ∈ patterns c)); cbn [List.filter app map]; [rewrite Hg|]; done.
  - rewrite IH. destruct (bool_decide (p ∈ patterns c)); cbn [List.filter]; [rewrite Hg|]; done.
Qed.

(** *** How many deliveries *)

Lemma count_by_fd (keys : list Z) (ds : list delivery) :
  NoDup keys -> (forall d, d ∈ ds -> fst d ∈ keys) ->
  length ds = sum_list_with (fun k => length (List.filter (fun d : delivery => fst d =? k) ds)) keys.
Proof.
  intros Hnd. induction ds as [|d ds IH]; intros Hin.
  { induction keys; cbn; [done|]. apply NoDup_cons in Hnd as [_ ?]. auto with set_solver. }
  cbn [length]. rewrite IH by (intros; apply Hin; by right).
  assert (fst d ∈ keys) as Hd by (apply Hin; by left). clear IH Hin.
  induction keys as [|k keys IHk]; [set_solver|]. apply NoDup_cons in Hnd as [Hk Hnd].
  cbn [sum_list_with List.filter]. destruct (Z.eqb_spec (fst d) k) as [<-|Hne].
  - cbn [length]. assert (forall n m k : nat, n = m -> S (k + n) = (S k + m)%nat) as Hnat by lia. apply Hnat.
    clear IHk Hd Hnd. induction keys as [|k keys IHk]; [done|]. cbn [sum_list_with].
    replace (fst d =? k) with false by (symmetry; apply Z.eqb_neq; set_solver). f_equal. apply IHk. set_solver.
  - cbn [List.filter] in IHk. rewrite <- IHk; [lia|done|set_solver].
Qed.

Lemma count_by_client (channel payload : bytes) (s : server) (ds : list delivery) (h : client -> list bytes) :
  (forall d, d ∈ ds -> is_Some (clients_ s !! fst d)) ->
  (forall fd c, clients_ s !! fd = Some c -> frames_for channel payload fd (protover_ c) ds = h c) ->
  length ds = sum_list_with (fun '(_, c) => length (h c)) (map_to_list (clients_ s)).
Proof.
  intros Hin Hh. rewrite (count_by_fd (map_to_list (clients_ s)).*1).
  - assert (forall p, p ∈ map_to_list (clients_ s) -> clients_ s !! p.1 = Some p.2) as Hl
      by (intros [fd c]; apply elem_of_map_to_list).
    induction (map_to_list (clients_ s)) as [|[fd c] l IH]; [done|]. cbn [fmap list_fmap sum_list_with].
    rewrite <- IH by (intros; apply Hl; by right). f_equal.
    rewrite <- (Hh fd c) by (apply (Hl (fd, c)); by left). unfold frames_for. by rewrite length_map.
  - apply NoDup_fst_map_to_list.
  - intros d [c Hc]%Hin. apply list_elem_of_fmap. exists (fst d, c). split; [done|]. by apply elem_of_map_to_list.
Qed.

Lemma deliveries_alive (cs : bool) (channel : bytes) (s : server) (kind : SubKind) (x : bytes * option bytes) (d : delivery) :
  consistent s ->
  d ∈ map (fun f => (f, x)) (subscribersOf kind channel (pubsub_ s)) ++
      pattern_deliveries (pattern_targets cs channel (pubsub_ s)) -> is_Some (clients_ s !! fst d).
Proof.
  intros [Hs _] [Hd|Hd]%elem_of_app.
  - apply list_elem_of_In, in_map_iff in Hd as (f & <- & Hf). apply list_elem_of_In in Hf. cbn.
    apply subscribersOf_spec, Hs in Hf as (c & -> & _). done.
  - unfold pattern_deliveries, pattern_targets in Hd. rewrite list_elem_of_In, in_concat in Hd.
    destruct Hd as (l & Hl & Hd). apply in_map_iff in Hl as ([p l'] & <- & Hl).
    apply in_map_iff in Hd as (f & <- & Hf). apply in_map_iff in Hl as ([p' st] & [= <- <-] & Hl).
    apply filter_In in Hl as [Hl _]. apply in_map_iff in Hl as (q & [= <- <-] & _).
    apply list_elem_of_In, elem_of_fds in Hf. cbn.
    destruct (proj1 (Hs Pattern q f)) as (c & -> & _); done.
Qed.

(** Every connection was sent what it hears, the executing one behind its
    reply, and nothing else changed. *)
Definition sent (e : Z) (h : client -> list bytes) (s s' : server) : Prop :=
  pubsub_ s' = pubsub_ s /\
  (forall fd, clients_ s' !! fd = (fun c => if fd =? e then c else send (concat (h c)) c) <$> clients_ s !! fd) /\
  self_pending_ s' = self_pending_ s ++ match clients_ s !! e with Some c => concat (h c) | None => [] end.

(** That, and the number reported is the number of frames. *)
Definition published (e : Z) (h : client -> list bytes) (s : server) (result : Z * server) : Prop :=
  sent e h s result.2 /\
  result.1 = Z.of_nat (sum_list_with (fun '(_, c) => length (h c)) (map_to_list (clients_ s))).

Lemma run_deliveries_published (e : Z) (channel payload : bytes) (h : client -> list bytes) (ds : list delivery) (s : server) :
  (forall d, d ∈ ds -> is_Some (clients_ s !! fst d)) ->
  (forall fd c, clients_ s !! fd = Some c -> frames_for channel payload fd (protover_ c) ds = h c) ->
  published e h s (Z.of_nat (length ds), run_deliveries e channel payload ds s).
Proof.
  intros Hin Hh. split; cbn [fst snd]; [split; [apply run_deliveries_registry|split]|].
  - intros fd. rewrite run_deliveries_client. destruct (clients_ s !! fd) as [c|] eqn:Hc; [|done]. cbn.
    by rewrite (Hh fd c Hc).
  - rewrite run_deliveries_self. destruct (clients_ s !! e) as [c|] eqn:Hc; [|done]. by rewrite (Hh e c Hc).
  - f_equal. by apply (count_by_client channel payload).
Qed.

Lemma publishMessage_effect (cs : bool) (e : Z) (channel payload : bytes) (s : server) :
  consistent s -> published e (heard cs channel payload) s (publishMessage cs e channel payload s).
Proof.
  intros Hs. rewrite publish_run. apply run_deliveries_published; [intros d; by apply deliveries_alive|].
  intros fd c Hc. rewrite frames_for_app, (frames_of_channel Channel), frames_of_patterns by done. done.
Qed.

Lemma publishShardMessage_effect (e : Z) (channel payload : bytes) (s : server) :
  consistent s -> published e (shard_heard channel payload) s (publishShardMessage e channel payload s).
Proof.
  intros Hs. unfold publishShardMessage. rewrite deliver_each_run, Z.add_0_l.
  rewrite <- (length_map (fun fd => (fd, (str "smessage", @None bytes)))).
  apply run_deliveries_published.
  - intros d Hd. apply (deliveries_alive true channel s Shard (str "smessage", None) d Hs). apply elem_of_app. by left.
  - intros fd c Hc. by apply (frames_of_channel Shard).
Qed.

(** C33: PUBLISH writes exactly the right bytes to exactly the right connections.
    Every live connection is sent, appended to its output in this order, one
    message frame if it is subscribed to the channel and one frame for each
    of its patterns that matches (in the byte order of the patterns), in its
    own protocol version; the frames of the connection that runs the command
    are parked behind its reply instead; nobody else is sent anything; and the
    number reported is the number of frames. SPUBLISH reaches exactly the shard
    subscribers: neither global subscribers nor patterns. *)
Theorem publish_reaches_subscribers (cs : bool) (e : Z) (channel payload : bytes) (s : server) :
  consistent s ->
  published e (heard cs channel payload) s (publishMessage cs e channel payload s) /\
  published e (shard_heard channel payload) s (publishShardMessage e channel payload s).
Proof. intros Hs. split; [by apply publishMessage_effect|by apply publishShardMessage_effect]. Qed.

Lemma publish_reaches_subscribers_witness :
  let s := (subscribeTo Channel 7 [str "news"] (mkServer (mkRegistry ∅ ∅ ∅) {[7 := accepted]} [])).1 in
  clients_ (publishMessage true 0 (str "news") (str "hi") s).2 !! 7 =
  Some (send (frame 2 (str "message") None (str "news") (str "hi"))
          (mkClient {[str "news"]} ∅ ∅ 2 [])).
Proof.
  intros s. assert (consistent s) as Hs.
  { exact (consistent_step _ _ (consistent_step _ _ consistent_initial (step_accept initial 7 eq_refl))
             (step_subscribe _ Channel 7 [str "news"])). }
  pose proof (publish_reaches_subscribers true 0 (str "news") (str "hi") s Hs) as [H _].
  destruct (publishMessage true 0 (str "news") (str "hi") s) as [n s']. destruct H as ((_ & H & _) & _).
  cbn [snd] in *. rewrite H. vm_compute. reflexivity.
Defined.

(** ** Keyspace events *)

(** [notifyKeyspaceEvent], its announcements: [enabled] is
    [config_.notify_flags]. The call that marks watched keys comes first and
    is made for every class but the key-miss one. *)
Definition notifyKeyspaceEvent (char_signed : bool) (executing enabled : Z) (event_class : Z) (event key : bytes)
    (db_index : Z) (s : server) : option (Z * bytes * bool) * server :=
  let signal := if event_class =? Notify.kKeyMiss then None
                else Some (db_index, key, bool_decide (event = str "expired")) in
  if Z.land enabled event_class =? 0 then (signal, s)
  else
    let db := to_string db_index in
    let s := if negb (Z.land enabled Notify.kKeyspace =? 0)
             then (publishMessage char_signed executing (str "__keyspace@" ++ db ++ str "__:" ++ key) event s).2
             else s in
    let s := if negb (Z.land enabled Notify.kKeyevent =? 0)
             then (publishMessage char_signed executing (str "__keyevent@" ++ db ++ str "__:" ++ event) key s).2
             else s in
    (signal, s).

(** What a connection hears of an event: the keyspace message before the
    keyevent message. *)
Definition event_heard (cs : bool) (enabled event_class : Z) (event key : bytes) (db_index : Z) (c : client) : list bytes :=
  if Z.land enabled event_class =? 0 then []
  else
    (if negb (Z.land enabled Notify.kKeyspace =? 0)
     then heard cs (str "__keyspace@" ++ to_string db_index ++ str "__:" ++ key) event c else []) ++
    (if negb (Z.land enabled Notify.kKeyevent =? 0)
     then heard cs (str "__keyevent@" ++ to_string db_index ++ str "__:" ++ event) key c else []).

Lemma consistent_sent (e : Z) (h : client -> list bytes) (s s' : server) :
  consistent s -> sent e h s s' -> consistent s'.
Proof.
  intros [H1 H2] (Hr & Hc & _). split; [|by rewrite Hr].
  intros kind name fd. rewrite Hr, H1, Hc. destruct (clients_ s !! fd) as [c|]; cbn; [|naive_solver].
  assert (heldBy (if fd =? e then c else send (concat (h c)) c) kind = heldBy c kind) as Hh
    by (destruct (fd =? e); by destruct kind).
  split; intros (c' & [= <-] & Hn); eexists; (split; [done|]); by rewrite Hh in *.
Qed.

Lemma sent_nothing (e : Z) (s : server) : sent e (fun _ => []) s s.
Proof.
  split; [done|]. split.
  - intros fd. destruct (clients_ s !! fd) as [[]|]; cbn; [|done]. destruct (fd =? e); [done|].
    unfold send. cbn. by rewrite app_nil_r.
  - destruct (clients_ s !! e); by rewrite app_nil_r.
Qed.

Lemma sent_seq (e : Z) (h1 h2 : client -> list bytes) (s s1 s2 : server) :
  (forall bs c, h2 (send bs c) = h2 c) -> sent e h1 s s1 -> sent e h2 s1 s2 -> sent e (fun c => h1 c ++ h2 c) s s2.
Proof.
  intros Hh (R1 & C1 & P1) (R2 & C2 & P2). split; [congruence|]. split.
  - intros fd. rewrite C2, C1. destruct (clients_ s !! fd) as [c|]; cbn; [|done].
    destruct (fd =? e); [done|]. rewrite Hh. unfold send. cbn. by rewrite concat_app, app_assoc.
  - rewrite P2, P1, C1. destruct (clients_ s !! e) as [c|]; cbn; [|by rewrite !app_nil_r].
    by rewrite Z.eqb_refl, concat_app, app_assoc.
Qed.

(** C35: A change to the keyspace is announced to the right connections, in order:
    with its class enabled, a connection hears it on the channel of the key
    first and on the channel of the event after, each only when that kind of
    channel is enabled, and exactly when it subscribes to it; with the class
    disabled nothing is published, but the watchers of the key are told all the
    same. *)
Theorem keyspace_event_announced (cs : bool) (e enabled event_class : Z) (event key : bytes) (db_index : Z) (s : server) :
  consistent s ->
  let '(signal, s') := notifyKeyspaceEvent cs e enabled event_class event key db_index s in
  sent e (event_heard cs enabled event_class event key db_index) s s' /\
  (signal = None <-> event_class = Notify.kKeyMiss) /\
  (forall x, signal = Some x -> x = (db_index, key, bool_decide (event = str "expired"))).
Proof.
  intros Hs. unfold notifyKeyspaceEvent, event_heard.
  assert (forall x : Z * bytes * bool, ((if event_class =? Notify.kKeyMiss then None else Some x) = None <-> event_class = Notify.kKeyMiss) /\
    (forall y, (if event_class =? Notify.kKeyMiss then None else Some x) = Some y -> y = x)) as Hsig.
  { intros x. destruct (Z.eqb_spec event_class Notify.kKeyMiss); naive_solver. }
  destruct (Z.land enabled event_class =? 0); [split; [apply sent_nothing|apply Hsig]|].
  split; [|apply Hsig].
  set (s1 := if negb (Z.land enabled Notify.kKeyspace =? 0) then _ else s).
  assert (sent e (fun c => if negb (Z.land enabled Notify.kKeyspace =? 0)
    then heard cs (str "__keyspace@" ++ to_string db_index ++ str "__:" ++ key) event c else []) s s1) as H1.
  { subst s1. destruct (negb (Z.land enabled Notify.kKeyspace =? 0)); [by apply publishMessage_effect|apply sent_nothing]. }
  apply (sent_seq e _ (fun c => if negb (Z.land enabled Notify.kKeyevent =? 0)
    then heard cs (str "__keyevent@" ++ to_string db_index ++ str "__:" ++ event) key c else []) s s1); [done|done|].
  destruct (negb (Z.land enabled Notify.kKeyevent =? 0)); [|apply sent_nothing].
  apply publishMessage_effect. by apply (consistent_sent _ _ _ _ Hs H1).
Qed.

Lemma keyspace_event_announced_witness :
  let s := (subscribeTo Pattern 7 [str "__key*__:*"] (mkServer (mkRegistry ∅ ∅ ∅) {[7 := accepted]} [])).1 in
  clients_ (notifyKeyspaceEvent true 0 (Z.lor Notify.kKeyspace (Z.lor Notify.kKeyevent Notify.kString)) Notify.kString
              (str "set") (str "k") 0 s).2 !! 7 =
  Some (send (frame 2 (str "pmessage") (Some (str "__key*__:*")) (str "__keyspace@0__:k") (str "set") ++
              frame 2 (str "pmessage") (Some (str "__key*__:*")) (str "__keyevent@0__:set") (str "k"))
          (mkClient ∅ {[str "__key*__:*"]} ∅ 2 [])).
Proof.
  intros s. assert (consistent s) as Hs.
  { exact (consistent_step _ _ (consistent_step _ _ consistent_initial (step_accept initial 7 eq_refl))
             (step_subscribe _ Pattern 7 [str "__key*__:*"])). }
  pose proof (keyspace_event_announced true 0 (Z.lor Notify.kKeyspace (Z.lor Notify.kKeyevent Notify.kString)) Notify.kString
    (str "set") (str "k") 0 s Hs) as H.
  destruct (notifyKeyspaceEvent _ _ _ _ _ _ _ s) as [sig s']. destruct H as ((_ & H & _) & _).
  cbn [snd]. rewrite H. vm_compute. reflexivity.
Defined.

End PubSub.
