(* ===== verification/CommandTable.v ===== *)
(** * CommandTable: the command registry

    [src/server/command_table.h] and [src/server/command_table.cpp]: every
    command with its arity, flags and key positions, the case-insensitive
    lookup and the arity rule. The handlers themselves are not part of an
    entry: a command is identified by its name. *)

From Stdlib Require Import ZArith Lia.
From stdpp Require Import base list numbers option strings.
From S2P Require Import Prelude Strings.

Module CommandTable.

Definition kWrite : Z := Z.shiftl 1 0.
Definition kReadOnly : Z := Z.shiftl 1 1.
Definition kAdmin : Z := Z.shiftl 1 2.
Definition kNoAuth : Z := Z.shiftl 1 3.
Definition kFast : Z := Z.shiftl 1 4.
Definition kLoading : Z := Z.shiftl 1 5.
Definition kContainer : Z := Z.shiftl 1 6.

Record CommandSpec := mkSpec {
  name : bytes; arity : Z; flags : Z; first_key : Z; last_key : Z; key_step : Z }.

Definition spec (n : string) (arity flags fk lk step : Z) : CommandSpec := mkSpec (str n) arity flags fk lk step.

Definition table : list CommandSpec := [
  spec "ping" (-1) (Z.lor (Z.lor kFast kNoAuth) kLoading) 0 0 0;
  spec "echo" 2 kFast 0 0 0;
  spec "select" 2 (Z.lor kFast kLoading) 0 0 0;
  spec "hello" (-1) (Z.lor (Z.lor kFast kNoAuth) kLoading) 0 0 0;
  spec "auth" (-2) (Z.lor (Z.lor kFast kNoAuth) kLoading) 0 0 0;
  spec "quit" (-1) (Z.lor (Z.lor kFast kNoAuth) kLoading) 0 0 0;
  spec "reset" 1 (Z.lor (Z.lor kFast kNoAuth) kLoading) 0 0 0;
  spec "client" (-2) (Z.lor (Z.lor kAdmin kNoAuth) kLoading) 0 0 0;
  spec "multi" 1 (Z.lor kFast kLoading) 0 0 0;
  spec "exec" 1 kLoading 0 0 0;
  spec "discard" 1 (Z.lor kFast kLoading) 0 0 0;
  spec "watch" (-2) (Z.lor kFast kLoading) 1 (-1) 1;
  spec "unwatch" 1 (Z.lor kFast kLoading) 0 0 0;
  spec "subscribe" (-2) (Z.lor kFast kLoading) 0 0 0;
  spec "unsubscribe" (-1) (Z.lor kFast kLoading) 0 0 0;
  spec "psubscribe" (-2) (Z.lor kFast kLoading) 0 0 0;
  spec "punsubscribe" (-1) (Z.lor kFast kLoading) 0 0 0;
  spec "publish" 3 (Z.lor kFast kLoading) 0 0 0;
  spec "ssubscribe" (-2) (Z.lor kFast kLoading) 1 (-1) 1;
  spec "sunsubscribe" (-1) (Z.lor kFast kLoading) 1 (-1) 1;
  spec "spublish" 3 (Z.lor kFast kLoading) 1 1 1;
  spec "pubsub" (-2) (Z.lor (Z.lor kFast kLoading) kContainer) 0 0 0;
  spec "set" (-3) kWrite 1 1 1;
  spec "get" 2 (Z.lor kReadOnly kFast) 1 1 1;
  spec "getset" 3 (Z.lor kWrite kFast) 1 1 1;
  spec "getdel" 2 (Z.lor kWrite kFast) 1 1 1;
  spec "getex" (-2) (Z.lor kWrite kFast) 1 1 1;
  spec "setnx" 3 (Z.lor kWrite kFast) 1 1 1;
  spec "setex" 4 kWrite 1 1 1;
  spec "psetex" 4 kWrite 1 1 1;
  spec "mset" (-3) kWrite 1 (-1) 2;
  spec "msetnx" (-3) kWrite 1 (-1) 2;
  spec "mget" (-2) (Z.lor kReadOnly kFast) 1 (-1) 1;
  spec "append" 3 (Z.lor kWrite kFast) 1 1 1;
  spec "strlen" 2 (Z.lor kReadOnly kFast) 1 1 1;
  spec "incr" 2 (Z.lor kWrite kFast) 1 1 1;
  spec "decr" 2 (Z.lor kWrite kFast) 1 1 1;
  spec "incrby" 3 (Z.lor kWrite kFast) 1 1 1;
  spec "decrby" 3 (Z.lor kWrite kFast) 1 1 1;
  spec "incrbyfloat" 3 (Z.lor kWrite kFast) 1 1 1;
  spec "setrange" 4 kWrite 1 1 1;
  spec "getrange" 4 kReadOnly 1 1 1;
  spec "substr" 4 kReadOnly 1 1 1;
  spec "del" (-2) kWrite 1 (-1) 1;
  spec "unlink" (-2) (Z.lor kWrite kFast) 1 (-1) 1;
  spec "exists" (-2) (Z.lor kReadOnly kFast) 1 (-1) 1;
  spec "type" 2 (Z.lor kReadOnly kFast) 1 1 1;
  spec "keys" 2 kReadOnly 0 0 0;
  spec "scan" (-2) kReadOnly 0 0 0;
  spec "randomkey" 1 kReadOnly 0 0 0;
  spec "rename" 3 kWrite 1 2 1;
  spec "renamenx" 3 (Z.lor kWrite kFast) 1 2 1;
  spec "copy" (-3) kWrite 1 2 1;
  spec "touch" (-2) (Z.lor kReadOnly kFast) 1 (-1) 1;
  spec "expire" (-3) (Z.lor kWrite kFast) 1 1 1;
  spec "pexpire" (-3) (Z.lor kWrite kFast) 1 1 1;
  spec "expireat" (-3) (Z.lor kWrite kFast) 1 1 1;
  spec "pexpireat" (-3) (Z.lor kWrite kFast) 1 1 1;
  spec "ttl" 2 (Z.lor kReadOnly kFast) 1 1 1;
  spec "pttl" 2 (Z.lor kReadOnly kFast) 1 1 1;
  spec "expiretime" 2 (Z.lor kReadOnly kFast) 1 1 1;
  spec "pexpiretime" 2 (Z.lor kReadOnly kFast) 1 1 1;
  spec "persist" 2 (Z.lor kWrite kFast) 1 1 1;
  spec "dbsize" 1 (Z.lor kReadOnly kFast) 0 0 0;
  spec "flushdb" (-1) kWrite 0 0 0;
  spec "flushall" (-1) kWrite 0 0 0;
  spec "info" (-1) (Z.lor kLoading kNoAuth) 0 0 0;
  spec "config" (-2) (Z.lor kAdmin kLoading) 0 0 0;
  spec "command" (-1) (Z.lor kLoading kNoAuth) 0 0 0;
  spec "object" (-2) kReadOnly 2 2 1;
  spec "memory" (-2) kReadOnly 0 0 0;
  spec "debug" (-2) kAdmin 0 0 0;
  spec "time" 1 (Z.lor kFast kLoading) 0 0 0;
  spec "lastsave" 1 (Z.lor kFast kLoading) 0 0 0;
  spec "save" 1 kAdmin 0 0 0;
  spec "bgsave" (-1) kAdmin 0 0 0;
  spec "dump" 2 kReadOnly 1 1 1;
  spec "restore" (-4) kWrite 1 1 1;
  spec "shutdown" (-1) (Z.lor (Z.lor kAdmin kNoAuth) kLoading) 0 0 0;
  spec "lpush" (-3) (Z.lor kWrite kFast) 1 1 1;
  spec "rpush" (-3) (Z.lor kWrite kFast) 1 1 1;
  spec "lpushx" (-3) (Z.lor kWrite kFast) 1 1 1;
  spec "rpushx" (-3) (Z.lor kWrite kFast) 1 1 1;
  spec "lpop" (-2) (Z.lor kWrite kFast) 1 1 1;
  spec "rpop" (-2) (Z.lor kWrite kFast) 1 1 1;
  spec "llen" 2 (Z.lor kReadOnly kFast) 1 1 1;
  spec "lrange" 4 kReadOnly 1 1 1;
  spec "lindex" 3 kReadOnly 1 1 1;
  spec "lset" 4 kWrite 1 1 1;
  spec "lrem" 4 kWrite 1 1 1;
  spec "ltrim" 4 kWrite 1 1 1;
  spec "lpos" (-3) kReadOnly 1 1 1;
  spec "rpoplpush" 3 kWrite 1 2 1;
  spec "lmove" 5 kWrite 1 2 1;
  spec "hset" (-4) (Z.lor kWrite kFast) 1 1 1;
  spec "hsetnx" 4 (Z.lor kWrite kFast) 1 1 1;
  spec "hmset" (-4) (Z.lor kWrite kFast) 1 1 1;
  spec "hget" 3 (Z.lor kReadOnly kFast) 1 1 1;
  spec "hmget" (-3) (Z.lor kReadOnly kFast) 1 1 1;
  spec "hdel" (-3) (Z.lor kWrite kFast) 1 1 1;
  spec "hlen" 2 (Z.lor kReadOnly kFast) 1 1 1;
  spec "hexists" 3 (Z.lor kReadOnly kFast) 1 1 1;
  spec "hstrlen" 3 (Z.lor kReadOnly kFast) 1 1 1;
  spec "hkeys" 2 kReadOnly 1 1 1;
  spec "hvals" 2 kReadOnly 1 1 1;
  spec "hgetall" 2 kReadOnly 1 1 1;
  spec "hincrby" 4 (Z.lor kWrite kFast) 1 1 1;
  spec "hincrbyfloat" 4 (Z.lor kWrite kFast) 1 1 1;
  spec "hrandfield" (-2) kReadOnly 1 1 1;
  spec "sadd" (-3) (Z.lor kWrite kFast) 1 1 1;
  spec "srem" (-3) (Z.lor kWrite kFast) 1 1 1;
  spec "scard" 2 (Z.lor kReadOnly kFast) 1 1 1;
  spec "sismember" 3 (Z.lor kReadOnly kFast) 1 1 1;
  spec "smismember" (-3) (Z.lor kReadOnly kFast) 1 1 1;
  spec "smembers" 2 kReadOnly 1 1 1;
  spec "spop" (-2) (Z.lor kWrite kFast) 1 1 1;
  spec "srandmember" (-2) kReadOnly 1 1 1;
  spec "smove" 4 (Z.lor kWrite kFast) 1 2 1;
  spec "sinter" (-2) kReadOnly 1 (-1) 1;
  spec "sunion" (-2) kReadOnly 1 (-1) 1;
  spec "sdiff" (-2) kReadOnly 1 (-1) 1;
  spec "sinterstore" (-3) kWrite 1 (-1) 1;
  spec "sunionstore" (-3) kWrite 1 (-1) 1;
  spec "sdiffstore" (-3) kWrite 1 (-1) 1;
  spec "sintercard" (-3) kReadOnly 0 0 0;
  spec "zadd" (-4) (Z.lor kWrite kFast) 1 1 1;
  spec "zrem" (-3) (Z.lor kWrite kFast) 1 1 1;
  spec "zscore" 3 (Z.lor kReadOnly kFast) 1 1 1;
  spec "zmscore" (-3) (Z.lor kReadOnly kFast) 1 1 1;
  spec "zcard" 2 (Z.lor kReadOnly kFast) 1 1 1;
  spec "zincrby" 4 (Z.lor kWrite kFast) 1 1 1;
  spec "zrank" 3 (Z.lor kReadOnly kFast) 1 1 1;
  spec "zrevrank" 3 (Z.lor kReadOnly kFast) 1 1 1;
  spec "zrange" (-4) kReadOnly 1 1 1;
  spec "zrevrange" (-4) kReadOnly 1 1 1;
  spec "zrangebyscore" (-4) kReadOnly 1 1 1;
  spec "zrevrangebyscore" (-4) kReadOnly 1 1 1;
  spec "zcount" 4 (Z.lor kReadOnly kFast) 1 1 1;
  spec "zremrangebyrank" 4 kWrite 1 1 1;
  spec "zremrangebyscore" 4 kWrite 1 1 1;
  spec "zpopmin" (-2) (Z.lor kWrite kFast) 1 1 1;
  spec "zpopmax" (-2) (Z.lor kWrite kFast) 1 1 1;
  spec "zrandmember" (-2) kReadOnly 1 1 1;
  spec "zrangebylex" (-4) kReadOnly 1 1 1;
  spec "zrevrangebylex" (-4) kReadOnly 1 1 1;
  spec "zlexcount" 4 (Z.lor kReadOnly kFast) 1 1 1;
  spec "zremrangebylex" 4 kWrite 1 1 1;
  spec "zrangestore" (-5) kWrite 1 2 1;
  spec "zunion" (-3) kReadOnly 0 0 0;
  spec "zinter" (-3) kReadOnly 0 0 0;
  spec "zdiff" (-3) kReadOnly 0 0 0;
  spec "zunionstore" (-4) kWrite 1 1 1;
  spec "zinterstore" (-4) kWrite 1 1 1;
  spec "zdiffstore" (-4) kWrite 1 1 1;
  spec "zintercard" (-3) kReadOnly 0 0 0;
  spec "zmpop" (-4) kWrite 0 0 0].

(** The index maps a name to its first entry ([emplace] keeps what is there). *)
Definition lookupCommand (n : bytes) : option CommandSpec :=
  List.find (fun s => name s =b? toLower n) table.

Definition arityOk (s : CommandSpec) (argc : nat) : bool :=
  let n := i32 (Z.of_nat argc) in
  if 0 <=? arity s then n =? arity s else - arity s <=? n.

Definition isAllowedInSubscriberMode (n : bytes) : bool :=
  existsb (fun a => n =b? str a)
    ["subscribe"; "unsubscribe"; "psubscribe"; "punsubscribe"; "ssubscribe"; "sunsubscribe"; "ping"; "quit"; "reset"]%string.

Definition isTransactionControl (n : bytes) : bool :=
  existsb (fun a => n =b? str a) ["multi"; "exec"; "discard"; "watch"; "quit"; "reset"]%string.

Definition wrongArgsText (command : bytes) : bytes :=
  str "wrong number of arguments for '" ++ command ++ str "' command".

Definition subscriberModeText (command : bytes) : bytes :=
  str "Can't execute '" ++ command ++
  str "': only (P|S)SUBSCRIBE / (P|S)UNSUBSCRIBE / PING / QUIT / RESET are allowed in this context".

(** ** The table is a function of the lower-case name *)

Lemma names_distinct : NoDup (map name table).
Proof. decide_now. Qed.

Lemma names_lower_case : forallb (fun s => toLower (name s) =b? name s) table = true.
Proof. vm_compute. reflexivity. Qed.

Lemma toLower_idempotent s : toLower (toLower s) = toLower s.
Proof.
  unfold toLower. rewrite map_map. apply map_ext. intros c. unfold tolower.
  destruct ((65 <=? c) && (c <=? 90)) eqn:E; [|by rewrite E]. bools.
  rewrite (proj2 (Z.leb_gt (c + 32) 90)) by lia. by rewrite andb_false_r.
Qed.

Lemma find_first (f : CommandSpec -> bool) l s :
  In s l -> f s = true -> (forall t, In t l -> f t = true -> t = s) -> List.find f l = Some s.
Proof.
  induction l as [|x l IH]; [done|]. cbn [List.find]. intros Hin Hs Hu. destruct (f x) eqn:Hx.
  - f_equal. apply Hu; [by left|done].
  - apply IH; [|done|intros; apply Hu; [by right|done]]. destruct Hin as [->|?]; [congruence|done].
Qed.

Lemma name_inj s t : In s table -> In t table -> name s = name t -> s = t.
Proof.
  intros Hs Ht He. apply list_elem_of_In, list_elem_of_lookup in Hs as [i Hi].
  apply list_elem_of_In, list_elem_of_lookup in Ht as [j Hj].
  assert (i = j) as ->; [|congruence].
  apply (NoDup_lookup (map name table) i j (name s) names_distinct).
  - change (map name table) with (name <$> table). by rewrite list_lookup_fmap, Hi.
  - change (map name table) with (name <$> table). rewrite list_lookup_fmap, Hj. cbn. by rewrite He.
Qed.

(** the lookup finds a command under every spelling of its name and finds
    nothing else: it answers an entry exactly when that entry is in the table
    and the client's word is a case variant of its name. *)
Theorem lookupCommand_correct n s :
  lookupCommand n = Some s <-> In s table /\ toLower n = name s.
Proof.
  unfold lookupCommand. split.
  - intros Hf. apply List.find_some in Hf as [Hin He]. apply bool_decide_eq_true in He. done.
  - intros [Hin He]. apply find_first; [done|by apply bool_decide_eq_true|].
    intros t Ht Hb. apply bool_decide_eq_true in Hb. apply name_inj; [done..|]. congruence.
Qed.

End CommandTable.
