(* ===== verification/McpTools.v ===== *)
(** * McpTools: the tools behind the MCP session

    [src/mcp/tools.h] and [src/mcp/tools.cpp]: the mapping of replies to JSON
    and the six tools, over the blocking client. The tools are an instance of
    the interface the protocol layer relies on, and in read-only mode nothing
    that writes or administers is ever handed to the socket. *)

From Stdlib Require Import ZArith Lia.
Set Warnings "-register-all".
From stdpp Require Import base list numbers gmap option strings.
From S2P Require Import Prelude Encoding Strings Double Strtod Dtoa ZSetValue Resp Reply RespClient Json McpProtocol CommandTable.
Import RespClient.RespClient Json.Json Protocol.

Module McpTools.

(** What the client hands over. *)
Abbreviation reply := Reply.Reply.Reply.

Definition kScanHardCap : Z := 10000.
Definition kScanDefault : Z := 100.
Definition kScanPageCount : Z := 500.
Definition kScanMaxPages : Z := 10000.

(** ** Schemas *)

Definition textSchema (description : bytes) : json := sets (sets obj "type" (text_of "string")) "description" (String description).
Definition numberSchema (description : bytes) : json := sets (sets obj "type" (text_of "integer")) "description" (String description).

Definition objectSchema (properties : json) (required : list bytes) : json :=
  sets (sets (sets obj "type" (text_of "object")) "properties" properties) "required" (foldl (fun req r => push req (String r)) arr required).

Definition toolDescriptor (name description : bytes) (schema : json) : json :=
  sets (sets (sets obj "name" (String name)) "description" (String description)) "inputSchema" schema.

(** ** Arguments *)

(** The text of a scalar; [None] for the other values. *)
Definition scalar (v : json) : option bytes :=
  if isString v then Some (asString v) else if isNumber v then Some (Dtoa.d2string (asNumber v))
  else if isBool v then Some (if asBool v then str "1" else str "0") else None.

(** The argument and whether it is there. *)
Definition stringArg (args : json) (key : bytes) : bytes * bool :=
  match find args key with
  | None => ([], false)
  | Some v => (default [] (scalar v), negb (Json.isNull v))
  end.

(** [c_str()]: what C sees of a string. *)
Definition c_str (s : bytes) : bytes := fst (Strtod.span (fun c => negb (c =? 0)) s).

(** [std::strtol] in base ten: the value, saturated to the width of [long], and
    the text after the number, which is the whole text if there is none. *)
Definition strtol (s : bytes) : Z * bytes :=
  let '(negative, s') := Strtod.take_sign (snd (Strtod.span Strtod.isspace s)) in
  match Strtod.span Strtod.isdigit s' with
  | ([], _) => (0, s)
  | (ds, rest) => let v := dec_val 0 ds in (Z.max (- 2 ^ 63) (Z.min (2 ^ 63 - 1) (if negative then - v else v)), rest)
  end.

(** ** Replies as JSON *)

Definition str_of (r : reply) : option bytes :=
  match r with
  | Reply.SimpleString s | Reply.Error s | Reply.Bulk s | Reply.BigNumber s | Reply.Verbatim s => Some s
  | _ => None
  end.

Definition elements_of (r : reply) : list reply :=
  match r with Reply.Array l | Reply.Set_ l | Reply.Push l | Reply.Map l => l | _ => [] end.

(** The member [str] of a reply that was read into a fresh object. *)
Definition text_of_reply (r : reply) : bytes := default [] (str_of r).

Definition string_key (r : reply) : bool :=
  match r with Reply.SimpleString _ | Reply.Bulk _ | Reply.Verbatim _ => true | _ => false end.

(** Every first element of a pair. *)
Fixpoint keys_are_strings (l : list reply) : bool :=
  match l with
  | k :: _ :: l => string_key k && keys_are_strings l
  | _ => true
  end.

Definition noted (binary : bool) (s : bytes) : bool := binary || negb (isValidUtf8 s).

(** The loops over the elements; [binary] is an in-out parameter, and an odd
    last element is passed over. *)
Section Elements.
Variable convert : reply -> bool -> json * bool.

Fixpoint each (l : list reply) (out : json) (binary : bool) : json * bool :=
  match l with
  | [] => (out, binary)
  | e :: l => let '(v, binary) := convert e binary in each l (push out v) binary
  end.

Fixpoint fields (l : list reply) (out : json) (binary : bool) : json * bool :=
  match l with
  | k :: v :: l =>
      let key := text_of_reply k in
      let '(v, binary) := convert v (noted binary key) in fields l (set out (sanitiseUtf8 key) v) binary
  | _ => (out, binary)
  end.

Fixpoint pairs (l : list reply) (out : json) (binary : bool) : json * bool :=
  match l with
  | k :: v :: l =>
      let '(k, binary) := convert k binary in
      let '(v, binary) := convert v binary in pairs l (push out (push (push arr k) v)) binary
  | _ => (out, binary)
  end.
End Elements.

Fixpoint replyToJson (r : reply) (binary : bool) {struct r} : json * bool :=
  let text s := (String (sanitiseUtf8 s), noted binary s) in
  match r with
  | Reply.SimpleString s | Reply.Error s | Reply.Bulk s | Reply.BigNumber s => text s
  | Reply.Verbatim s => text (if (4 <? length s)%nat then drop 4 s else s)
  | Reply.Integer n => (Number (Double.of_int64 n), binary)
  | Reply.Double d => (Number d, binary)
  | Reply.Boolean b => (Bool b, binary)
  | Reply.Null => (Null, binary)
  | Reply.Array l | Reply.Set_ l | Reply.Push l => each replyToJson l arr binary
  | Reply.Map l => if keys_are_strings l then fields replyToJson l obj binary else pairs replyToJson l arr binary
  end.

(** ** Results *)

Definition failure (t : bytes) : ToolResult := mkResult t true.
Definition success (payload : json) : ToolResult := mkResult (serialise payload) false.

Definition sizeCommandFor (type : bytes) : option bytes :=
  if type =b? str "string" then Some (str "STRLEN") else if type =b? str "list" then Some (str "LLEN")
  else if type =b? str "hash" then Some (str "HLEN") else if type =b? str "set" then Some (str "SCARD")
  else if type =b? str "zset" then Some (str "ZCARD") else if type =b? str "stream" then Some (str "XLEN") else None.

Definition connection_failed (error : bytes) : ToolResult := failure (str "connection failed: " ++ error).

(** ** The link *)

Record RedisTools := mkTools { host_ : bytes; port_ : Z; db_ : Z; read_only_ : bool; conn_ : link }.

Definition with_conn (t : RedisTools) (l : link) : RedisTools := mkTools (host_ t) (port_ t) (db_ t) (read_only_ t) l.

(** [error] is an in-out parameter. [None] here and below: a reply announces a
    count that overflows. *)
Definition ensureConnected (t : RedisTools) (error : bytes) : option (RedisTools * (bool * bytes)) :=
  if connected (conn_ t) then Some (t, (true, error))
  else
    let '(l, (ok, error)) := connect (conn_ t) (host_ t) (port_ t) error in
    if negb ok then Some (with_conn t l, (false, error))
    else
      '(l, failed) ← negotiateResp3 l;
      match failed with
      | Some why => Some (with_conn t l, (false, why))
      | None =>
          if db_ t =? 0 then Some (with_conn t l, (true, error))
          else
            '(l, r) ← command l [str "SELECT"; to_string (db_ t)];
            Some (match r with
                  | inr why => (with_conn t l, (false, why))
                  | inl r => if isError r then (with_conn t (close l), (false, text_of_reply r)) else (with_conn t l, (true, error))
                  end)
      end.

Definition warmUp := ensureConnected.

(** The reply, or nothing when the link failed; and [error]. *)
Definition run (t : RedisTools) (argv : list bytes) (error : bytes) : option (RedisTools * (option reply * bytes)) :=
  '(t, (ok, error)) ← ensureConnected t error;
  if negb ok then Some (t, (None, error))
  else
    '(l, r) ← command (conn_ t) argv;
    let t := with_conn t l in
    match r with
    | inl out => Some (t, (Some out, error))
    | inr error =>
        '(t, (ok, _)) ← ensureConnected t [];
        if negb ok then Some (t, (None, error))
        else
          '(l, r) ← command (conn_ t) argv;
          Some (with_conn t l, match r with inl out => (Some out, error) | inr error => (None, error) end)
    end.

(** A run whose failure ends the tool. *)
Definition running (t : RedisTools) (argv : list bytes) (error : bytes) (k : RedisTools -> reply -> bytes -> option (RedisTools * ToolResult)) :
    option (RedisTools * ToolResult) :=
  '(t, (out, error)) ← run t argv error;
  match out with
  | None => Some (t, connection_failed error)
  | Some r => k t r error
  end.

(** The same, where an error reply ends it too. *)
Definition asking (t : RedisTools) (argv : list bytes) (error : bytes) (k : RedisTools -> reply -> bytes -> option (RedisTools * ToolResult)) :
    option (RedisTools * ToolResult) :=
  running t argv error (fun t r error => if isError r then Some (t, failure (text_of_reply r)) else k t r error).

Definition flag_binary (out : json) (binary : bool) : json := if binary then sets out "binary" (Bool true) else out.

(** ** The tools *)

(** The double of a millisecond count, in seconds. *)
Definition thousandth (d : Z) : Z := Double.signed (Double.sign d) (Double.nearest (Double.abs_units d) 1000).

Section Tools.

(** What [static_cast<long>] makes of a double that has no counterpart, which
    the language leaves undefined. *)
Context (wild : Z -> Z).

Definition long_of (d : Z) : Z :=
  if Double.isfinite d && bool_decide (is_i64 (Double.to_int64 d)) then Double.to_int64 d else wild d.

Definition longArg (args : json) (key : bytes) : option Z :=
  match find args key with
  | Some (Number d) => Some (long_of d)
  | Some (String s) =>
      let '(n, rest) := strtol (c_str s) in
      if (length rest =? 0)%nat && negb (length s =? 0)%nat then Some n else None
  | _ => None
  end.

(** *** redis_command *)

Fixpoint argv_of (l : list json) : option (list bytes) :=
  match l with
  | [] => Some []
  | e :: l => a ← scalar e; rest ← argv_of l; Some (a :: rest)
  end.

(** Why read-only mode refuses a command, if it does. *)
Definition refused (command : bytes) : option bytes :=
  match CommandTable.lookupCommand command with
  | None => Some (str "read-only mode: unknown command '" ++ command ++ str "' cannot be classified, so it is refused")
  | Some spec =>
      if negb (Z.land (CommandTable.flags spec) CommandTable.kWrite =? 0) || negb (Z.land (CommandTable.flags spec) CommandTable.kAdmin =? 0)
      then Some (str "read-only mode: " ++ toUpper command ++ str " modifies or administers the server and is refused")
      else None
  end.

Definition redisCommand (t : RedisTools) (args : json) : option (RedisTools * ToolResult) :=
  match elements (default Null (find args (str "argv"))) with
  | [] => Some (t, failure (str "argv must be a non-empty array of strings"))
  | l =>
      match argv_of l with
      | None => Some (t, failure (str "argv elements must be strings or numbers"))
      | Some argv =>
          match (if read_only_ t then refused (hd [] argv) else None) with
          | Some why => Some (t, failure why)
          | None =>
              asking t argv [] (fun t r _ =>
                let '(value, binary) := replyToJson r false in
                Some (t, success (flag_binary (sets obj "result" value) binary)))
          end
      end
  end.

(** *** get and set *)

Definition key_required : ToolResult := failure (str "key is required").

Definition get (t : RedisTools) (args : json) : option (RedisTools * ToolResult) :=
  let '(key, present) := stringArg args (str "key") in
  if negb present then Some (t, key_required)
  else
    asking t [str "GET"; key] [] (fun t r _ =>
      let '(value, binary) := replyToJson r false in
      let out := sets (sets (sets obj "key" (String key)) "value" value) "exists" (Bool (negb (RespClient.isNull r))) in
      Some (t, success (flag_binary out binary))).

Definition set (t : RedisTools) (args : json) : option (RedisTools * ToolResult) :=
  if read_only_ t then Some (t, failure (str "read-only mode: set is not available"))
  else
    let '(key, have_key) := stringArg args (str "key") in
    let '(value, have_value) := stringArg args (str "value") in
    if negb have_key then Some (t, key_required)
    else if negb have_value then Some (t, failure (str "value is required"))
    else
      let given := longArg args (str "ttl_seconds") in
      let ttl := default 0 given in
      if is_some given && (ttl <=? 0) then Some (t, failure (str "ttl_seconds must be positive"))
      else
        let argv := [str "SET"; key; value] ++ (if is_some given then [str "EX"; to_string ttl] else []) in
        asking t argv [] (fun t _ _ =>
          let out := sets (sets obj "key" (String key)) "ok" (Bool true) in
          Some (t, success (if 0 <? ttl then sets out "ttl_seconds" (Number (Double.of_int64 ttl)) else out))).

(** *** scan_keys *)

(** The keys so far, whether one of them was not UTF-8, and whether one was
    left out. *)
Record found := mkFound { keys : list json; binary : bool; truncated : bool }.

Fixpoint take_keys (limit : Z) (l : list reply) (f : found) : found :=
  match l with
  | [] => f
  | k :: l =>
      if limit <=? Z.of_nat (length (keys f)) then mkFound (keys f) (binary f) true
      else
        let s := text_of_reply k in
        take_keys limit l (mkFound (keys f ++ [String (sanitiseUtf8 s)]) (noted (binary f) s) (truncated f))
  end.

Definition scanned (pattern : bytes) (f : found) (completed : bool) : json :=
  let out := sets (sets (sets (sets obj "pattern" (String pattern)) "count" (Number (Double.of_int64 (Z.of_nat (length (keys f))))))
               "complete" (Bool (completed && negb (truncated f)))) "keys" (Array (keys f)) in
  flag_binary out (binary f).

Definition scan_argv (cursor : bytes) (pattern : option bytes) : list bytes :=
  [str "SCAN"; cursor; str "COUNT"; to_string kScanPageCount] ++ match pattern with Some p => [str "MATCH"; p] | None => [] end.

(** At most [S pages] more pages. A reply whose first try broke off inside an
    aggregate starts again from an empty one. *)
Fixpoint scan_loop (pages : nat) (t : RedisTools) (pattern : option bytes) (limit : Z) (cursor : bytes) (f : found) : option (RedisTools * ToolResult) :=
  asking t (scan_argv cursor pattern) [] (fun t r _ =>
    match elements_of r with
    | [next; page] =>
        let cursor := text_of_reply next in
        let f := take_keys limit (elements_of page) f in
        let completed := cursor =b? str "0" in
        let stop := Some (t, success (scanned (default (str "*") pattern) f completed)) in
        if completed || (limit <=? Z.of_nat (length (keys f))) then stop
        else match pages with O => stop | S pages => scan_loop pages t pattern limit cursor f end
    | _ => Some (t, failure (str "malformed SCAN reply"))
    end).

(** A text argument that is there and not empty. *)
Definition optionArg (args : json) (key : bytes) : option bytes :=
  let '(v, present) := stringArg args key in
  if present && negb (length v =? 0)%nat then Some v else None.

Definition scanKeys (t : RedisTools) (args : json) : option (RedisTools * ToolResult) :=
  let count := longArg args (str "count") in
  let limit := match count with Some n => Z.min n kScanHardCap | None => kScanDefault end in
  if limit <=? 0 then Some (t, failure (str "count must be positive"))
  else scan_loop (Z.to_nat (kScanMaxPages - 1)) t (optionArg args (str "pattern")) limit (str "0") (mkFound [] false false).

(** *** describe_key *)

(** The members [str] and [integer] of the one [Reply] object that every run of
    the tool parses into: a reply sets the member its type uses and leaves the
    other as it was. *)
Record members := mkMembers { str_ : bytes; integer_ : Z }.

Definition parsed_into (m : members) (r : reply) : members :=
  mkMembers (default (str_ m) (str_of r)) (match r with Reply.Integer n => n | _ => integer_ m end).

Definition describe_size (t : RedisTools) (key type : bytes) (out : json) (m : members) (error : bytes) : option (RedisTools * ToolResult) :=
  match sizeCommandFor type with
  | None => Some (t, success out)
  | Some size_command =>
      running t [size_command; key] error (fun t r _ =>
        let m := parsed_into m r in
        Some (t, success (if isError r then out
                          else sets (sets out "size" (Number (Double.of_int64 (integer_ m)))) "size_command" (String size_command))))
  end.

Definition with_ttl (out : json) (pttl : Z) : json :=
  let out := sets out "volatile" (Bool (0 <=? pttl)) in
  if 0 <=? pttl then
    let ms := Double.of_int64 pttl in sets (sets out "ttl_ms" (Number ms)) "ttl_seconds" (Number (thousandth ms))
  else out.

Definition describeKey (t : RedisTools) (args : json) : option (RedisTools * ToolResult) :=
  let '(key, present) := stringArg args (str "key") in
  if negb present then Some (t, key_required)
  else
    asking t [str "TYPE"; key] [] (fun t r error =>
      let m := parsed_into (mkMembers [] 0) r in
      let type := str_ m in
      let out := sets obj "key" (String key) in
      if type =b? str "none" then Some (t, success (sets out "exists" (Bool false)))
      else
        let out := sets (sets out "exists" (Bool true)) "type" (String type) in
        running t [str "OBJECT"; str "ENCODING"; key] error (fun t r error =>
          let m := parsed_into m r in
          let out := if isError r || RespClient.isNull r then out else sets out "encoding" (String (str_ m)) in
          running t [str "PTTL"; key] error (fun t r error =>
            let m := parsed_into m r in
            let out := if isError r then out else with_ttl out (integer_ m) in
            describe_size t key type out m error))).

(** *** server_info *)

(** The text between newlines. *)
Fixpoint lines (s : bytes) : list bytes :=
  match s with
  | [] => [[]]
  | c :: s => if c =? 10 then [] :: lines s else match lines s with l :: ls => (c :: l) :: ls | [] => [[c]] end
  end.

(** Without one carriage return at the end. *)
Definition chomp (line : bytes) : bytes := if (match last line with Some c => c =? 13 | None => false end) then removelast line else line.

Record info := mkInfo { sections : json; current : json; section_name : bytes }.

Definition flush (i : info) : info :=
  mkInfo (match Json.members (current i) with [] => sections i | _ => Json.set (sections i) (section_name i) (current i) end) obj (section_name i).

Definition info_line (i : info) (line : bytes) : info :=
  match chomp line with
  | [] => i
  | c :: heading =>
      if c =? 35 then let i := flush i in mkInfo (sections i) (current i) (toLower (snd (Strtod.span (fun c => c =? 32) heading)))
      else
        match Strtod.span (fun c => negb (c =? 58)) (c :: heading) with
        | (k, _ :: v) => mkInfo (sections i) (Json.set (current i) k (String v)) (section_name i)
        | (_, []) => i
        end
  end.

Definition info_sections (body : bytes) : json := sections (flush (foldl info_line (mkInfo obj obj (str "server")) (lines body))).

Definition serverInfo (t : RedisTools) (args : json) : option (RedisTools * ToolResult) :=
  let section := optionArg args (str "section") in
  asking t (str "INFO" :: option_list section) [] (fun t r _ =>
    let out := match section with Some s => sets obj "section" (String s) | None => obj end in
    Some (t, success (sets out "sections" (info_sections (sanitiseUtf8 (text_of_reply r)))))).

(** *** The catalogue *)

Definition quoted (s : string) : bytes := [34] ++ str s ++ [34].

Definition argv_description : bytes :=
  str "The command and its arguments, one array element each: [" ++ quoted "LPUSH" ++ str ", " ++ quoted "mylist" ++ str ", " ++ quoted "a" ++ str "].".

Definition redis_command_tool (read_only : bool) : json :=
  let items := sets obj "type" (text_of "string") in
  let argv := sets (sets (sets obj "type" (text_of "array")) "items" items) "description" (String argv_description) in
  toolDescriptor (str "redis_command")
    (str "Run any command against the server and return its reply as JSON. " ++
     str "The escape hatch: use it for anything the other tools do not " ++ str "cover." ++
     (if read_only then str " This server is read-only, so commands that write or " ++ str "administer are refused." else []))
    (objectSchema (sets obj "argv" argv) [str "argv"]).

Definition get_tool : json :=
  toolDescriptor (str "get") (str "Read a string key. Returns null when it does not exist.")
    (objectSchema (sets obj "key" (textSchema (str "The key to read."))) [str "key"]).

Definition set_tool : json :=
  let props := sets (sets (sets obj "key" (textSchema (str "The key to write."))) "value" (textSchema (str "The value to store.")))
                 "ttl_seconds" (numberSchema (str "Expire the key after this many seconds.")) in
  toolDescriptor (str "set") (str "Write a string key, optionally with a TTL.") (objectSchema props [str "key"; str "value"]).

Definition scan_keys_tool : json :=
  let props := sets (sets obj "pattern" (textSchema (str "Glob pattern to match, e.g. " ++ quoted "user:*" ++ str ". Default " ++ quoted "*" ++ str ".")))
                 "count" (numberSchema (str "Maximum keys to return. Default 100, capped at 10000.")) in
  toolDescriptor (str "scan_keys")
    (str "Walk the whole keyspace with SCAN and return the matching keys. Safe on a " ++
     str "large keyspace: it pages, and it never blocks the server the way KEYS does.") (objectSchema props []).

Definition describe_key_tool : json :=
  toolDescriptor (str "describe_key")
    (str "Report a key's type, in-memory encoding, TTL and size without reading its " ++
     str "contents. The encoding is the real one (listpack, intset, quicklist, " ++
     str "skiplist, hashtable, embstr, int), which is how you tell a small collection " ++ str "from one that has been converted.")
    (objectSchema (sets obj "key" (textSchema (str "The key to describe."))) [str "key"]).

Definition server_info_tool : json :=
  let props := sets obj "section" (textSchema (str "One INFO section, e.g. " ++ quoted "memory" ++ str " or " ++ quoted "keyspace" ++ str ". " ++ str "Omit for all of them.")) in
  toolDescriptor (str "server_info")
    (str "Server statistics from INFO, parsed into an object of " ++ str "sections rather than returned as one blob.") (objectSchema props []).

Definition tools_for (read_only : bool) : list json :=
  [redis_command_tool read_only; get_tool] ++ (if read_only then [] else [set_tool]) ++ [scan_keys_tool; describe_key_tool; server_info_tool].

Definition listTools (t : RedisTools) : json := foldl push arr (tools_for (read_only_ t)).

Definition hasTool (t : RedisTools) (name : bytes) : bool :=
  if method_is name "set" then negb (read_only_ t)
  else method_is name "redis_command" || method_is name "get" || method_is name "scan_keys" || method_is name "describe_key" || method_is name "server_info".

Definition callTool (t : RedisTools) (name : bytes) (arguments : json) : option (RedisTools * ToolResult) :=
  if method_is name "redis_command" then redisCommand t arguments
  else if method_is name "get" then get t arguments
  else if method_is name "set" then set t arguments
  else if method_is name "scan_keys" then scanKeys t arguments
  else if method_is name "describe_key" then describeKey t arguments
  else if method_is name "server_info" then serverInfo t arguments
  else Some (t, failure (str "unknown tool '" ++ name ++ str "'")).

End Tools.

(** ** Read-only mode *)

(** A command that neither writes nor administers. The size of a stream is asked
    for by a name that the command table does not know. *)
Definition allowed (argv : list bytes) : bool :=
  match CommandTable.lookupCommand (hd [] argv) with
  | Some spec => (Z.land (CommandTable.flags spec) CommandTable.kWrite =? 0) && (Z.land (CommandTable.flags spec) CommandTable.kAdmin =? 0)
  | None => hd [] argv =b? str "XLEN"
  end.

Lemma not_refused argv : refused (hd [] argv) = None -> allowed argv = true.
Proof. unfold refused, allowed. destruct (CommandTable.lookupCommand _); [|done]. by destruct (_ =? 0), (_ =? 0). Qed.

(** ** What a reply is made of *)

Fixpoint reply_ok (r : reply) : Prop :=
  match r with
  | Reply.SimpleString s | Reply.Error s | Reply.Bulk s | Reply.BigNumber s | Reply.Verbatim s => bytes_ok s
  | Reply.Double d => is_u64 d
  | Reply.Array l | Reply.Set_ l | Reply.Push l | Reply.Map l => foldr (fun e acc => reply_ok e /\ acc) True l
  | _ => True
  end.

Lemma all_ok l : foldr (fun e acc => reply_ok e /\ acc) True l <-> Forall reply_ok l.
Proof. induction l as [|e l IH]; cbn [foldr]; [by split; [intros; apply Forall_nil_2|]|]. rewrite IH. by rewrite Forall_cons. Qed.

Lemma elements_ok r : reply_ok r -> Forall reply_ok (elements_of r).
Proof. destruct r; cbn [reply_ok elements_of]; try (intros; apply Forall_nil_2); apply all_ok. Qed.

Lemma text_ok r : reply_ok r -> bytes_ok (text_of_reply r).
Proof. by destruct r; try (intros; apply Forall_nil_2). Qed.

(** What a parser makes of bytes: bytes, a suffix of them left. *)
Definition read_ok {A} (P : A -> Prop) (s : bytes) (x : Reply.result A) : Prop :=
  match x with
  | Reply.Done r rest => P r /\ rest `suffix_of` s
  | Reply.Bad e => bytes_ok e
  | _ => True
  end.

Lemma suffix_bytes (s t : bytes) : s `suffix_of` t -> bytes_ok t -> bytes_ok s.
Proof. intros [k ->] H. by apply Forall_app in H as [_ H]. Qed.

Lemma line_read_ok k s : bytes_ok s -> (forall line after, bytes_ok line -> bytes_ok after -> read_ok reply_ok after (k line after)) -> read_ok reply_ok s (Reply.parseLine k s).
Proof.
  intros Hs Hk. unfold Reply.parseLine. destruct (Resp.findCrlf s) as [cr|]; [|done].
  specialize (Hk (take (cr - 1) (drop 1 s)) (drop (cr + 2) s) ltac:(by apply Forall_take, Forall_drop) ltac:(by apply Forall_drop)).
  destruct (k _ _); try done. destruct Hk as [H1 H2]. split; [done|]. etrans; [exact H2|apply suffix_drop].
Qed.

Lemma bulk_read_ok type s : bytes_ok s -> (forall b, bytes_ok b -> reply_ok (type b)) -> read_ok reply_ok s (Reply.parseBulk type s).
Proof.
  intros Hs Ht. apply line_read_ok; [done|]. intros line after _ Ha. destruct (Resp.parseLong line) as [len|]; [|apply str_bytes_ok]. destruct (len <? 0); [by split|].
  destruct (_ <? _); [done|]. split; [by apply Ht, Forall_take|apply suffix_drop].
Qed.

Lemma elements_read_ok child : (forall s, bytes_ok s -> read_ok reply_ok s (child s)) -> forall fuel total s acc, bytes_ok s -> Forall reply_ok acc ->
  read_ok (Forall reply_ok) s (Reply.parseElements child fuel total s acc).
Proof.
  intros Hc. induction fuel as [|fuel IH]; intros total s acc Hs Ha; cbn [Reply.parseElements]; (destruct (total <=? 0); [by split|]); [done|].
  specialize (Hc s Hs). destruct (child s) as [r rest| |e|]; try done. destruct Hc as [H1 H2].
  specialize (IH (total - 1) rest (acc ++ [r]) (suffix_bytes _ _ H2 Hs) ltac:(apply Forall_app; split; [done|by apply Forall_singleton])).
  destruct (Reply.parseElements _ _ _ _ _); try done. destruct IH as [H3 H4]. split; [done|]. by etrans.
Qed.

Lemma aggregate_read_ok room child type multiplier s : bytes_ok s -> (forall s, bytes_ok s -> read_ok reply_ok s (child s)) -> (forall l, Forall reply_ok l -> reply_ok (type l)) ->
  read_ok reply_ok s (Reply.parseAggregate room child type multiplier s).
Proof.
  intros Hs Hc Ht. unfold Reply.parseAggregate. destruct (Resp.findCrlf s) as [cr|]; [|done]. destruct (Resp.parseLong _) as [count|]; [|apply str_bytes_ok].
  destruct (count <? 0); [split; [done|apply suffix_drop]|]. destruct (_ || _); [done|].
  pose proof (elements_read_ok child Hc (length s) (count * multiplier) (drop (cr + 2) s) [] ltac:(by apply Forall_drop) (Forall_nil_2 _)) as H.
  destruct (Reply.parseElements _ _ _ _ _); try done. destruct H as [H1 H2]. split; [by apply Ht|]. etrans; [exact H2|apply suffix_drop].
Qed.

Lemma readDouble_bits s : is_u64 (Reply.readDouble s).
Proof. unfold Reply.readDouble. repeat case_bool_decide; [by vm_compute..|apply Strtod.strtod_bits]. Qed.

Lemma parseReplyInner_ok room fuel s : bytes_ok s -> read_ok reply_ok s (Reply.parseReplyInner room fuel s).
Proof.
  revert s. induction fuel as [|fuel IH]; intros s Hs; [done|]. destruct s as [|c s]; [done|]. cbn [Reply.parseReplyInner].
  repeat (destruct (c =? _); [first [apply bulk_read_ok | apply aggregate_read_ok | apply line_read_ok]; try done; try (intros l; apply all_ok)|]).
  - intros line after _ Ha. destruct (Resp.parseLong line); [by split|apply str_bytes_ok].
  - intros line after _ Ha. split; [apply readDouble_bits|done].
  - cbn [read_ok]. apply Forall_app. split; [apply str_bytes_ok|]. apply Forall_cons. split; [by apply Forall_cons in Hs as [Hc _]|apply str_bytes_ok].
Qed.

Lemma parseReply_ok room s : bytes_ok s -> read_ok reply_ok s (Reply.parseReply room s).
Proof. apply parseReplyInner_ok. Qed.

(** ** The link *)

(** The bytes the peer will ever send, over all connections. *)
Definition chunk_of (e : recv_event) : bytes := match e with Received chunk => chunk | _ => [] end.
Definition traffic (l : link) : bytes := buf_ l ++ concat (map chunk_of (recvs l)).

(** The places of a stream where the client starts to read a reply. *)
Inductive boundary (room : Z) : bytes -> bytes -> Prop :=
  | boundary_start w : boundary room w w
  | boundary_next w r rest v : Reply.parseReply room w = Reply.Done r rest -> boundary room rest v -> boundary room w v.

(** No reply of a stream announces more elements than the client can count and
    allocate. *)
Definition calm (room : Z) (w : bytes) : Prop := forall v, boundary room w v -> Reply.parseReply room v <> Reply.Overflow.

(** The same of every stream that a later connection could read. *)
Fixpoint calm_events (room : Z) (events : list recv_event) : Prop :=
  calm room (incoming events) /\ match events with [] => True | _ :: events => calm_events room events end.

Definition text_recv (e : recv_event) : Prop := match e with RecvFailed why => bytes_ok why | _ => True end.
(** No send is answered by a signal that kills. *)
Definition text_send (ignored : bool) (e : send_event) : Prop := match e with SendFailed why => bytes_ok why | SendPipe => ignored = true | _ => True end.
Definition text_attempt (a : attempt) : Prop := match a with Refused why => bytes_ok why | _ => True end.
Definition text_resolution (r : resolution) : Prop := match r with Unresolved why => bytes_ok why | Addresses l => Forall text_attempt l end.

Definition calls_ok (p : process) (rs : list resolution) (ss : list send_event) (es : list recv_event) : Prop :=
  calm_events (room p) es /\ Forall text_recv es /\ Forall (text_send (ignores_sigpipe p)) ss /\ Forall text_resolution rs.

Definition link_ok (l : link) : Prop :=
  bytes_ok (traffic l) /\ calm (room (proc l)) (stream l) /\ calls_ok (proc l) (resolutions l) (sends l) (recvs l).

Lemma calm_here room events : calm_events room events -> calm room (incoming events).
Proof. by destruct events; intros []. Qed.

Lemma calm_prefix room buf more : calm room (buf ++ more) -> Reply.parseReply room buf <> Reply.Overflow.
Proof. intros H E. apply (H _ (boundary_start _ _)). by rewrite (parseReply_grows room buf more), E by (by rewrite E). Qed.

Lemma calm_next room buf more r unread : calm room (buf ++ more) -> Reply.parseReply room buf = Reply.Done r unread -> calm room (unread ++ more).
Proof.
  intros H E v Hv. apply H. eapply boundary_next; [|exact Hv]. by rewrite (parseReply_grows room buf more), E by (by rewrite E).
Qed.

Lemma less_traffic l l' : link_ok l -> proc l' = proc l -> traffic l' `suffix_of` traffic l -> calm (room (proc l)) (stream l') -> calls_ok (proc l) (resolutions l') (sends l') (recvs l') -> link_ok l'.
Proof. intros (H1 & _) Hp Hs H3 H4. unfold link_ok. rewrite Hp. split_and!; [by eapply suffix_bytes|done|apply H4..]. Qed.

Lemma close_ok l : link_ok l -> link_ok (close l).
Proof. intros H. pose proof H as (_ & _ & Hc). apply (less_traffic l); try done; [unfold traffic; cbn; by apply suffix_app_r|]. cbn. apply calm_here, Hc. Qed.

Lemma systemError_bytes what why : bytes_ok what -> bytes_ok why -> bytes_ok (systemError what why).
Proof. intros H1 H2. unfold systemError. apply Forall_app. split; [done|]. apply Forall_app. split; [apply str_bytes_ok|done]. Qed.

(** What is known of a reply or an error. *)
Definition outcome_ok (r : reply + bytes) : Prop := match r with inl r => reply_ok r | inr e => bytes_ok e end.

Lemma read_loop_sound room events buf : bytes_ok (buf ++ concat (map chunk_of events)) -> calm room (buf ++ incoming events) -> calm_events room events -> Forall text_recv events ->
  exists events' x, read_loop room events buf = Some (events', x) /\ Forall text_recv events' /\ calm_events room events' /\
    match x with
    | Got r unread => reply_ok r /\ calm room (unread ++ incoming events') /\ (unread ++ concat (map chunk_of events')) `suffix_of` (buf ++ concat (map chunk_of events))
    | Lost why => bytes_ok why /\ concat (map chunk_of events') `suffix_of` (buf ++ concat (map chunk_of events))
    end.
Proof.
  revert buf. induction events as [|e events IH]; intros buf Hb Hc Hv Ht; cbn [read_loop];
    (pose proof (parseReply_ok room buf ltac:(by apply Forall_app in Hb as [Hb _])) as Hp; pose proof (calm_prefix _ _ _ Hc) as Hno;
     destruct (Reply.parseReply room buf) as [r unread| |e'|] eqn:Hparse; [|clear Hp Hno|eexists _, _; split; [done|]; split; [done|]; split; [exact Hv|]; split; [exact Hp|by apply suffix_app_r]|done];
     [destruct Hp as [H1 [k ->]]; eexists _, _; split; [done|]; split; [done|]; split; [exact Hv|]; split; [exact H1|split; [by eapply calm_next|exists k; by rewrite <- app_assoc]]|]).
  - eexists _, _. split; [done|]; split; [done|]; split; [exact Hv|]; split; [apply systemError_bytes; apply str_bytes_ok|by apply suffix_app_r].
  - apply Forall_cons in Ht as [He Ht]. destruct Hv as [_ Hv]. cbn [map concat chunk_of incoming] in *. destruct e as [chunk| |why]; cbn [chunk_of app] in *.
    + destruct (length chunk =? 0)%nat; [eexists _, _; split; [done|]; split; [done|]; split; [exact Hv|]; split; [apply str_bytes_ok|rewrite app_assoc; by apply suffix_app_r]|].
      rewrite (app_assoc buf) in *. by apply IH.
    + by apply IH.
    + eexists _, _. split; [done|]; split; [done|]; split; [exact Hv|]; split; [by apply systemError_bytes; [apply str_bytes_ok|]|by apply suffix_app_r].
Qed.

Lemma readReply_sound l : link_ok l -> exists l' r, readReply l = Some (l', r) /\ link_ok l' /\ sent l' = sent l /\ outcome_ok r.
Proof.
  intros H. unfold readReply. destruct (fd_ l); cbn [negb]; [|eexists _, _; split_and!; [done|done|done|apply str_bytes_ok]]. pose proof H as (H1 & H2 & H3 & H4 & H5).
  destruct (read_loop_sound (room (proc l)) (recvs l) (buf_ l) H1 H2 H3 H4) as (events & x & -> & He & Hv & Hx). cbn [mbind option_bind].
  destruct x as [r unread|why]; [destruct Hx as (Hr & Hc & Hs)|destruct Hx as (Hr & Hs)]; (eexists _, _; split; [done|]; split; [|done]); apply (less_traffic l); try done.
  cbn. by apply calm_here.
Qed.

Lemma send_loop_sound ignored events data : Forall (text_send ignored) events ->
  exists events' failed, send_loop ignored events data = Some (events', failed) /\ Forall (text_send ignored) events' /\ match failed with Some why => bytes_ok why | None => True end.
Proof.
  intros H. revert data. induction H as [|e events He H IH]; intros [|c data]; cbn [send_loop]; try (eexists _, _; split_and!; [done|by try apply Forall_cons|done]).
  - eexists _, _. split_and!; [done|apply Forall_nil_2|]. apply systemError_bytes; apply str_bytes_ok.
  - destruct e as [n| |why|]; [destruct (_ <? _)%nat; [apply IH|eexists _, _; split_and!; [done|done|apply str_bytes_ok]]|apply IH| |].
    + eexists _, _. split_and!; [done|done|]. by apply systemError_bytes; [apply str_bytes_ok|].
    + cbn in He. subst ignored. eexists _, _. split_and!; [done|done|]. apply systemError_bytes; apply str_bytes_ok.
Qed.

Lemma command_sound l argv : link_ok l -> exists l' r, command l argv = Some (l', r) /\ link_ok l' /\ sent l' = (if connected l then sent l ++ [argv] else sent l) /\ outcome_ok r.
Proof.
  intros H. unfold command, connected. destruct (fd_ l); cbn [negb]; [|eexists _, _; split_and!; [done|done|done|apply str_bytes_ok]]. unfold sendAll.
  pose proof H as (H1 & H2 & H3 & H4 & H5 & H6). destruct (send_loop_sound _ (sends l) (Resp.encodeCommand argv) H5) as (events & failed & E & Hs & Hf). cbn [sends note_sent proc]. rewrite E. cbn [mbind option_bind].
  assert (link_ok (with_sends (note_sent l argv) events)) as Hl by (by apply (less_traffic l)). destruct failed as [why|]; cbn [is_some].
  - eexists _, _. split; [done|]. split; [by apply close_ok|done].
  - destruct (readReply_sound (with_sends (note_sent l argv) events)) as (l' & r & -> & Hl' & Hsent & Hr); [done|]. by eexists _, _.
Qed.

Lemma try_addresses_sound where_ l error : bytes_ok where_ -> Forall text_attempt l -> bytes_ok error -> bytes_ok (snd (try_addresses where_ l error)).
Proof.
  intros Hw H. assert (bytes_ok (str "cannot connect to " ++ where_)) as Hc by (apply Forall_app; split; [apply str_bytes_ok|done]).
  revert error. induction H as [|a l Ha H IH]; intros error He; cbn [try_addresses snd]; [by destruct (_ =? _)%nat|].
  destruct a; [by apply IH|done|]. apply IH. by apply systemError_bytes.
Qed.

Lemma getaddrinfo_ok l : link_ok l -> text_resolution (getaddrinfo l) /\ Forall text_resolution (tail (resolutions l)).
Proof. intros (_ & _ & _ & _ & _ & H). unfold getaddrinfo. destruct H as [|r rs Hr H]; cbn; [split; apply Forall_nil_2|done]. Qed.

Lemma connect_sound l host port error : link_ok l -> bytes_ok host -> bytes_ok error ->
  link_ok (fst (connect l host port error)) /\ sent (fst (connect l host port error)) = sent l /\ bytes_ok (snd (snd (connect l host port error))).
Proof.
  intros H Hh He. apply close_ok in H as Hc. destruct (getaddrinfo_ok _ Hc) as [Hr Ht]. unfold connect.
  assert (link_ok (with_resolutions (close l) (tail (resolutions (close l))))) as Hl. { pose proof Hc as (H1 & H2 & H3 & H4 & H5 & H6). by apply (less_traffic (close l)). }
  destruct (getaddrinfo (close l)) as [why|attempts].
  - split_and!; [done|done|]. cbn [snd]. apply Forall_app. split; [apply str_bytes_ok|]. apply Forall_app. split; [done|]. apply Forall_app. split; [apply str_bytes_ok|done].
  - assert (bytes_ok (host ++ str ":" ++ to_string port)) as Hw. { apply Forall_app. split; [done|]. apply Forall_app. split; [apply str_bytes_ok|apply to_string_bytes_ok]. }
    pose proof (try_addresses_sound _ attempts error Hw Hr He) as Ha. destruct (try_addresses _ _ _) as [[] e]; cbn [fst snd] in *; done.
Qed.

(** ** The invariant of the tools *)

Definition logged (ro : bool) (argv : list bytes) : Prop := ro = true -> allowed argv = true.

Definition good (ro : bool) (t : RedisTools) : Prop :=
  read_only_ t = ro /\ bytes_ok (host_ t) /\ link_ok (conn_ t) /\ Forall (logged ro) (sent (conn_ t)).

Lemma good_conn ro t l more : good ro t -> link_ok l -> sent l = sent (conn_ t) ++ more -> Forall (logged ro) more -> good ro (with_conn t l).
Proof. intros (H1 & H2 & _ & H4) Hl Hs Hm. split_and!; try done. cbn [conn_ with_conn]. rewrite Hs. by apply Forall_app. Qed.

Lemma command_good ro t argv : good ro t -> logged ro argv ->
  exists l r, command (conn_ t) argv = Some (l, r) /\ good ro (with_conn t l) /\ outcome_ok r.
Proof.
  intros H Hl. destruct (command_sound (conn_ t) argv ltac:(apply H)) as (l & r & Hc & H1 & H2 & H3). eexists _, _. split; [exact Hc|]. split; [|done].
  destruct (connected (conn_ t)); [apply (good_conn ro t l [argv]); [done..|by apply Forall_singleton]|]. apply (good_conn ro t l []); [done|done|by rewrite app_nil_r|apply Forall_nil_2].
Qed.

Lemma connect_good ro t error : good ro t -> bytes_ok error ->
  good ro (with_conn t (fst (connect (conn_ t) (host_ t) (port_ t) error))) /\ bytes_ok (snd (snd (connect (conn_ t) (host_ t) (port_ t) error))).
Proof.
  intros H He. pose proof H as (_ & Hh & Hl & _). destruct (connect_sound _ _ (port_ t) _ Hl Hh He) as (H1 & H2 & H3).
  split; [|done]. apply (good_conn ro t _ []); [done|done|by rewrite app_nil_r|apply Forall_nil_2].
Qed.

Lemma greeting_logged ro : logged ro [str "HELLO"; str "3"].
Proof. intros _. vm_compute. done. Qed.
Lemma select_logged ro d : logged ro [str "SELECT"; d].
Proof. intros _. unfold allowed. cbn [hd]. vm_compute. done. Qed.

Lemma negotiate_good ro t : good ro t -> exists l failed, negotiateResp3 (conn_ t) = Some (l, failed) /\ good ro (with_conn t l) /\ match failed with Some why => bytes_ok why | None => True end.
Proof.
  intros H. unfold negotiateResp3. destruct (command_good ro t _ H (greeting_logged ro)) as (l & r & -> & Hg & Hr). cbn [mbind option_bind]. destruct r as [r|why]; eexists _, _; (split; [done|]); [|done].
  split; [|done]. destruct Hg as (H1 & H2 & H3 & H4). by split_and!.
Qed.

Lemma ensureConnected_good ro t error : good ro t -> bytes_ok error ->
  exists t' ok error', ensureConnected t error = Some (t', (ok, error')) /\ good ro t' /\ bytes_ok error'.
Proof.
  intros H He. unfold ensureConnected. destruct (connected (conn_ t)); [by eexists _, _, _|]. destruct (connect_good ro t error H He) as [H1 H2].
  destruct (connect _ _ _ _) as [l [ok e]]. cbn [fst snd] in *. destruct ok; cbn [negb]; [|by eexists _, _, _].
  destruct (negotiate_good ro (with_conn t l) H1) as (l2 & failed & Hn & H3 & H4). cbn [conn_ with_conn] in Hn. rewrite Hn. cbn [mbind option_bind]. destruct failed as [why|]; [by eexists _, _, _|].
  destruct (db_ t =? 0); [by eexists _, _, _|]. destruct (command_good ro _ _ H3 (select_logged ro (to_string (db_ t)))) as (l3 & r & Hc & H5 & H6). cbn [conn_ with_conn] in Hc. rewrite Hc. cbn [mbind option_bind].
  destruct r as [r|why]; [|by eexists _, _, _]. destruct (isError r); [|by eexists _, _, _]. eexists _, _, _. split; [done|]. split; [|by apply text_ok].
  apply (good_conn ro _ (close l3) []) in H5; [exact H5|apply close_ok; apply H5|by rewrite app_nil_r|apply Forall_nil_2].
Qed.

Lemma run_good ro t argv error : good ro t -> logged ro argv -> bytes_ok error ->
  exists t' out error', run t argv error = Some (t', (out, error')) /\ good ro t' /\ bytes_ok error' /\ match out with Some r => reply_ok r | None => True end.
Proof.
  intros H Hl He. unfold run. destruct (ensureConnected_good ro t error H He) as (t1 & ok & e1 & -> & H1 & H2). cbn [mbind option_bind]. destruct ok; cbn [negb]; [|by eexists _, _, _].
  destruct (command_good ro t1 argv H1 Hl) as (l & r & -> & H3 & H4). cbn [mbind option_bind]. destruct r as [r|why]; [by eexists _, _, _|].
  destruct (ensureConnected_good ro _ [] H3 (Forall_nil_2 _)) as (t2 & ok & e2 & -> & H5 & _). cbn [mbind option_bind]. destruct ok; cbn [negb]; [|by eexists _, _, _].
  destruct (command_good ro t2 argv H5 Hl) as (l2 & r & -> & H6 & H7). cbn [mbind option_bind]. destruct r; by eexists _, _, _.
Qed.

(** A tool that returns, with a text of bytes. *)
Definition returns (ro : bool) (o : option (RedisTools * ToolResult)) : Prop := exists t r, o = Some (t, r) /\ good ro t /\ bytes_ok (text r).

Lemma returns_now ro t r : good ro t -> bytes_ok (text r) -> returns ro (Some (t, r)).
Proof. intros H Hr. by exists t, r. Qed.

Lemma returns_failure ro t s : good ro t -> returns ro (Some (t, failure (str s))).
Proof. intros H. apply returns_now; [done|apply str_bytes_ok]. Qed.

Lemma returns_success ro t v : good ro t -> well_formed v -> returns ro (Some (t, success v)).
Proof. intros H Hv. apply returns_now; [done|]. by apply one_line_bytes, serialise_one_line. Qed.

Lemma running_returns ro t argv error k : good ro t -> logged ro argv -> bytes_ok error ->
  (forall t r error, good ro t -> reply_ok r -> bytes_ok error -> returns ro (k t r error)) -> returns ro (running t argv error k).
Proof.
  intros H Hl He Hk. unfold running. destruct (run_good ro t argv error H Hl He) as (t1 & out & e & -> & H1 & H2 & H3). cbn [mbind option_bind]. destruct out as [r|]; [by apply Hk|].
  apply returns_now; [done|]. apply Forall_app. split; [apply str_bytes_ok|done].
Qed.

Lemma asking_returns ro t argv error k : good ro t -> logged ro argv -> bytes_ok error ->
  (forall t r error, good ro t -> reply_ok r -> bytes_ok error -> returns ro (k t r error)) -> returns ro (asking t argv error k).
Proof. intros H Hl He Hk. apply running_returns; [done..|]. intros t1 r e H1 H2 H3. destruct (isError r); [|by apply Hk]. apply returns_now; [done|by apply text_ok]. Qed.

(** ** Values *)

Lemma cat_bytes (a b : bytes) : bytes_ok a -> bytes_ok b -> bytes_ok (a ++ b).
Proof. intros. by apply Forall_app. Qed.

Create HintDb tools.
#[local] Hint Resolve str_bytes_ok to_string_bytes_ok cat_bytes text_ok asString_bytes well_formed_set well_formed_push : tools.

Lemma sanitise_bytes s : bytes_ok s -> bytes_ok (sanitiseUtf8 s).
Proof.
  unfold sanitiseUtf8. generalize 0%nat. intros p H. revert p. induction H as [|c s Hc H IH]; intros p; cbn [sanitise_from]; [apply Forall_nil_2|].
  destruct p as [|p]; [|by apply Forall_cons]. destruct (utf8SequenceLength _); [|by apply Forall_cons]. apply cat_bytes; [decide_now|apply IH].
Qed.

Lemma scalar_bytes v b : well_formed v -> scalar v = Some b -> bytes_ok b.
Proof.
  intros Hv. unfold scalar. destruct v as [|c|d|s|l|m]; cbn; try done; intros [= <-]; [destruct c; decide_now| |done].
  destruct (Double.isnan d) eqn:Hn; [unfold Dtoa.d2string, Dtoa.d2string_text; rewrite Hn; apply str_bytes_ok|].
  destruct (Dtoa.d2string_printable d (conj Hv Hn)) as [Hp _]. eapply Forall_impl; [exact Hp|]. unfold Dtoa.printable, u_range. intros c Hc. cbn in Hc. lia.
Qed.

Lemma stringArg_bytes args key : well_formed args -> bytes_ok (fst (stringArg args key)).
Proof.
  intros Ha. unfold stringArg. destruct (find args key) as [v|] eqn:Hf; [|apply Forall_nil_2]. apply field_ok in Hf as [Hv _]; [|done]. cbn [fst].
  destruct (scalar v) as [b|] eqn:Hs; [by eapply scalar_bytes|apply Forall_nil_2].
Qed.

Lemma optionArg_bytes args key s : well_formed args -> optionArg args key = Some s -> bytes_ok s.
Proof. intros Ha. unfold optionArg. pose proof (stringArg_bytes args key Ha) as H. destruct (stringArg args key) as [v present]. destruct (_ && _); [|done]. by intros [= <-]. Qed.

Section ReplyInduction.
Variable P : reply -> Prop.
Hypothesis Hnode : forall r, Forall P (elements_of r) -> P r.

Fixpoint reply_nested_ind (r : reply) : P r :=
  let all := fix all (l : list reply) : Forall P l := match l with [] => Forall_nil_2 P | r :: l => Forall_cons_2 P r l (reply_nested_ind r) (all l) end in
  match r with
  | Reply.SimpleString s => Hnode (Reply.SimpleString s) (all [])
  | Reply.Error s => Hnode (Reply.Error s) (all [])
  | Reply.Integer n => Hnode (Reply.Integer n) (all [])
  | Reply.Bulk s => Hnode (Reply.Bulk s) (all [])
  | Reply.Null => Hnode Reply.Null (all [])
  | Reply.Boolean b => Hnode (Reply.Boolean b) (all [])
  | Reply.Double d => Hnode (Reply.Double d) (all [])
  | Reply.BigNumber s => Hnode (Reply.BigNumber s) (all [])
  | Reply.Verbatim s => Hnode (Reply.Verbatim s) (all [])
  | Reply.Array l => Hnode (Reply.Array l) (all l)
  | Reply.Set_ l => Hnode (Reply.Set_ l) (all l)
  | Reply.Push l => Hnode (Reply.Push l) (all l)
  | Reply.Map l => Hnode (Reply.Map l) (all l)
  end.
End ReplyInduction.

(** Two at a time. *)
Lemma list_pair_ind {A} (P : list A -> Prop) : P [] -> (forall x, P [x]) -> (forall x y l, P l -> P (x :: y :: l)) -> forall l, P l.
Proof.
  intros H0 H1 H2 l. assert (P l /\ forall x, P (x :: l)) as [H _]; [|done]. induction l as [|y l [IH1 IH2]]; [by split|]. split; [apply IH2|]. intros x. by apply H2.
Qed.

Section Loops.
Variable convert : reply -> bool -> json * bool.

Definition renders (r : reply) : Prop := forall binary, well_formed (fst (convert r binary)).

Lemma each_ok l out binary : Forall renders l -> well_formed out -> well_formed (fst (each convert l out binary)).
Proof.
  intros H. revert out binary. induction H as [|e l He H IH]; intros out binary Ho; cbn [each fst]; [done|]. specialize (He binary). destruct (convert e binary) as [v b]. apply IH. by apply well_formed_push.
Qed.

Lemma fields_ok l out binary : Forall reply_ok l -> Forall renders l -> well_formed out -> well_formed (fst (fields convert l out binary)).
Proof.
  revert out binary. induction l as [|x|k v l IH] using list_pair_ind; intros out binary Hr H Ho; cbn [fields fst]; [done..|].
  apply Forall_cons in Hr as [Hk Hr]. apply Forall_cons in Hr as [_ Hr]. apply Forall_cons in H as [_ H]. apply Forall_cons in H as [Hv H].
  specialize (Hv (noted binary (text_of_reply k))). destruct (convert v _) as [w b]. apply IH; [done|done|]. apply well_formed_set; [done|by apply sanitise_bytes, text_ok|done].
Qed.

Lemma pairs_ok l out binary : Forall renders l -> well_formed out -> well_formed (fst (pairs convert l out binary)).
Proof.
  revert out binary. induction l as [|x|k v l IH] using list_pair_ind; intros out binary H Ho; cbn [pairs fst]; [done..|].
  apply Forall_cons in H as [Hk H]. apply Forall_cons in H as [Hv H]. specialize (Hk binary). destruct (convert k _) as [k' b]. specialize (Hv b). destruct (convert v _) as [v' b'].
  apply IH; [done|]. repeat apply well_formed_push; done.
Qed.
End Loops.

Lemma replyToJson_ok r : reply_ok r -> renders replyToJson r.
Proof.
  induction r as [r IH] using reply_nested_ind. intros Hr. pose proof (elements_ok r Hr) as Hl. assert (Forall (renders replyToJson) (elements_of r)) as H.
  { rewrite Forall_forall in *. auto. }
  clear IH. intros binary. destruct r; cbn [replyToJson fst reply_ok elements_of] in *; try (by apply sanitise_bytes); try done.
  - apply Double.of_int64_ok.
  - by apply each_ok.
  - destruct (keys_are_strings _); [by apply fields_ok|by apply pairs_ok].
  - by apply each_ok.
  - by apply each_ok.
  - apply sanitise_bytes. destruct (4 <? _)%nat; [by apply Forall_drop|done].
Qed.

Lemma flag_ok out binary : well_formed out -> well_formed (flag_binary out binary).
Proof. intros H. unfold flag_binary. destruct binary; [|done]. apply well_formed_set; [done|apply str_bytes_ok|done]. Qed.
#[local] Hint Resolve flag_ok : tools.

(** ** Every tool returns *)

Ltac known_command := intros _; unfold allowed; cbn [hd]; vm_compute; reflexivity.
Ltac plain := repeat first [apply well_formed_set | apply str_bytes_ok | apply Double.of_int64_ok | exact I | done].

Section Returns.
Context (wild : Z -> Z) (ro : bool).

Lemma argv_of_bytes l argv : Forall well_formed l -> argv_of l = Some argv -> Forall bytes_ok argv /\ length argv = length l.
Proof.
  intros H. revert argv. induction H as [|e l He H IH]; intros argv; cbn [argv_of]; [intros [= <-]; by split|]. destruct (scalar e) as [a|] eqn:Ha; [|done]. cbn.
  destruct (argv_of l) as [rest|] eqn:Hr; [|done]. cbn. intros [= <-]. destruct (IH _ eq_refl) as [H1 H2]. split; [apply Forall_cons; split; [by eapply scalar_bytes|done]|cbn; lia].
Qed.

Lemma redisCommand_returns t args : good ro t -> well_formed args -> returns ro (redisCommand t args).
Proof.
  intros H Ha. unfold redisCommand. assert (Forall well_formed (elements (default Null (find args (str "argv"))))) as Hl.
  { destruct (find args (str "argv")) as [v|] eqn:Hf; [|apply Forall_nil_2]. apply field_ok in Hf as [Hv _]; [|done]. destruct v; try apply Forall_nil_2. by apply well_formed_array. }
  destruct (elements _) as [|e l]; [by apply returns_failure|]. destruct (argv_of _) as [argv|] eqn:Hargv; [|by apply returns_failure]. destruct (argv_of_bytes _ _ Hl Hargv) as [Hb Hn].
  destruct (if read_only_ t then refused (hd [] argv) else None) as [why|] eqn:Hr.
  - apply returns_now; [done|]. destruct (read_only_ t); [|done]. assert (bytes_ok (hd [] argv)) as Hh by (destruct Hb; [apply Forall_nil_2|done]). unfold refused in Hr.
    destruct (CommandTable.lookupCommand _) as [spec|]; [destruct (_ || _); [|done]|]; apply (inj Some) in Hr; subst why; cbn [text failure]; (apply cat_bytes; [apply str_bytes_ok|]); (apply cat_bytes; [|apply str_bytes_ok]); [|done].
    apply Forall_fmap. eapply Forall_impl; [exact Hh|]. unfold compose, toupper, u_range. intros c Hc. cbn in *. destruct (Z.leb_spec 97 c); cbn [andb]; [destruct (_ <=? _)|]; lia.
  - apply asking_returns; [done| |apply Forall_nil_2|].
    + intros Hro. destruct H as [Hread _]. rewrite Hread, Hro in Hr. by apply not_refused.
    + intros t1 r e1 H1 H2 _. pose proof (replyToJson_ok r H2 false) as Hj. destruct (replyToJson r false) as [v b]. apply returns_success; [done|]. apply flag_ok. by plain.
Qed.

Lemma get_returns t args : good ro t -> well_formed args -> returns ro (get t args).
Proof.
  intros H Ha. unfold get. pose proof (stringArg_bytes args (str "key") Ha) as Hk. destruct (stringArg args (str "key")) as [key present]. destruct present; cbn [negb]; [|by apply returns_failure].
  apply asking_returns; [done|known_command|apply Forall_nil_2|]. intros t1 r e1 H1 H2 _. pose proof (replyToJson_ok r H2 false) as Hj. destruct (replyToJson r false) as [v b]. apply returns_success; [done|].
  apply flag_ok. by plain.
Qed.

Lemma set_returns t args : good ro t -> well_formed args -> returns ro (set wild t args).
Proof.
  intros H Ha. unfold set. destruct (read_only_ t) eqn:Hr; [by apply returns_failure|]. pose proof (stringArg_bytes args (str "key") Ha) as Hk. destruct (stringArg args (str "key")) as [key have_key].
  destruct (stringArg args (str "value")) as [value have_value]. destruct have_key; cbn [negb]; [|by apply returns_failure]. destruct have_value; cbn [negb]; [|by apply returns_failure].
  destruct (_ && _); [by apply returns_failure|]. apply asking_returns; [done| |apply Forall_nil_2|].
  - intros Hro. destruct H as [Hread _]. congruence.
  - intros t1 r e1 H1 H2 _. apply returns_success; [done|]. destruct (0 <? _); by plain.
Qed.

Lemma take_keys_ok limit l f : Forall reply_ok l -> Forall well_formed (keys f) -> Forall well_formed (keys (take_keys limit l f)).
Proof.
  intros H. revert f. induction H as [|k l Hk H IH]; intros f Hf; cbn [take_keys]; [done|]. destruct (limit <=? _); [done|]. apply IH. cbn [keys]. apply Forall_app. split; [done|]. apply Forall_singleton.
  by apply sanitise_bytes, text_ok.
Qed.

Lemma array_well_formed l : Forall well_formed l -> well_formed (Array l).
Proof. induction 1 as [|e l He H IH]; by cbn. Qed.

Lemma scan_loop_returns pages t pattern limit cursor f : good ro t -> match pattern with Some p => bytes_ok p | None => True end -> Forall well_formed (keys f) ->
  returns ro (scan_loop pages t pattern limit cursor f).
Proof.
  intros H Hp. revert t cursor f H. induction pages as [|pages IH]; intros t cursor f H Hf; cbn [scan_loop]; (apply asking_returns; [done|unfold scan_argv; cbn [app]; known_command|apply Forall_nil_2|]);
    intros t1 r e1 H1 H2 _; pose proof (elements_ok r H2) as He; destruct (elements_of r) as [|next [|page [|]]]; try (by apply returns_failure);
    (apply Forall_cons in He as [_ He]; apply Forall_cons in He as [He _]; apply elements_ok in He; pose proof (take_keys_ok limit _ f He Hf) as Hk; set (f' := take_keys _ _ _) in *; clearbody f';
     assert (forall completed, returns ro (Some (t1, success (scanned (default (str "*") pattern) f' completed)))) as Hstop;
     [intros completed; apply returns_success; [done|]; apply flag_ok; apply well_formed_set; [|apply str_bytes_ok|by apply array_well_formed];
      assert (bytes_ok (default (str "*") pattern)) as Hd by (destruct pattern; [done|apply str_bytes_ok]); by plain|]);
    (destruct (_ || _); [apply Hstop|]); [apply Hstop|by apply IH].
Qed.

Lemma scanKeys_returns t args : good ro t -> well_formed args -> returns ro (scanKeys wild t args).
Proof.
  intros H Ha. unfold scanKeys. destruct (_ <=? 0); [by apply returns_failure|]. apply scan_loop_returns; [done| |apply Forall_nil_2].
  destruct (optionArg args (str "pattern")) eqn:Ho; [|done]. by eapply optionArg_bytes.
Qed.
Lemma with_ttl_ok out pttl : well_formed out -> well_formed (with_ttl out pttl).
Proof.
  intros H. unfold with_ttl. destruct (Z.leb_spec 0 pttl) as [Hp|]; [|by plain]. apply well_formed_set; [by plain|apply str_bytes_ok|]. unfold thousandth.
  apply Double.ok_signed. apply Double.nearest_range; [apply Double.abs_units_nonneg|done].
Qed.

Lemma parsed_into_bytes m r : bytes_ok (str_ m) -> reply_ok r -> bytes_ok (str_ (parsed_into m r)).
Proof. intros H Hr. by destruct r. Qed.

Lemma sizeCommandFor_known type c : sizeCommandFor type = Some c -> (exists s, c = str s) /\ forall key, allowed [c; key] = true.
Proof.
  unfold sizeCommandFor. repeat (case_bool_decide; [intros Hc; apply (inj Some) in Hc; subst c; split; [by eexists|intros key; unfold allowed; cbn [hd]; vm_compute; reflexivity]|]). done.
Qed.

Lemma describe_size_returns t key type out m error : good ro t -> well_formed out -> bytes_ok error -> returns ro (describe_size t key type out m error).
Proof.
  intros H Ho He. unfold describe_size. destruct (sizeCommandFor type) as [c|] eqn:Hc; [|by apply returns_success]. apply sizeCommandFor_known in Hc as [[s ->] Hc].
  apply running_returns; [done|intros _; apply Hc|done|]. intros t1 r e1 H1 H2 _. apply returns_success; [done|]. destruct (isError r); by plain.
Qed.

Lemma describeKey_returns t args : good ro t -> well_formed args -> returns ro (describeKey t args).
Proof.
  intros H Ha. unfold describeKey. pose proof (stringArg_bytes args (str "key") Ha) as Hk. destruct (stringArg args (str "key")) as [key present]. destruct present; cbn [negb]; [|by apply returns_failure].
  apply asking_returns; [done|known_command|apply Forall_nil_2|]. intros t1 r1 e1 H1 Hr1 He1. pose proof (parsed_into_bytes (mkMembers [] 0) r1 (Forall_nil_2 _) Hr1) as Hm1.
  set (m1 := parsed_into _ r1) in *. clearbody m1. cbv zeta. case_bool_decide; [apply returns_success; by plain|].
  apply running_returns; [done|known_command|done|]. intros t2 r2 e2 H2 Hr2 He2. pose proof (parsed_into_bytes m1 r2 Hm1 Hr2) as Hm2. set (m2 := parsed_into m1 r2) in *. clearbody m2.
  assert (well_formed (sets (sets (sets obj "key" (String key)) "exists" (Bool true)) "type" (String (str_ m1)))) as Ho by (by plain).
  apply running_returns; [done|known_command|done|]. intros t3 r3 e3 H3 Hr3 He3. apply describe_size_returns; [done| |done].
  set (out := sets (sets (sets obj "key" _) _ _) _ _) in *. clearbody out.
  assert (well_formed (if isError r2 || RespClient.isNull r2 then out else sets out "encoding" (String (str_ m2)))) as Ho2 by (destruct (_ || _); by plain).
  destruct (isError r3); [done|by apply with_ttl_ok].
Qed.

Definition info_ok (i : info) : Prop := well_formed (sections i) /\ well_formed (current i) /\ bytes_ok (section_name i).

Lemma flush_ok i : info_ok i -> info_ok (flush i).
Proof. intros (H1 & H2 & H3). unfold flush. split_and!; [|done|done]. cbn [sections]. destruct (Json.members (current i)); [done|by apply well_formed_set]. Qed.

Lemma span_bytes p s : bytes_ok s -> bytes_ok (fst (Strtod.span p s)) /\ bytes_ok (snd (Strtod.span p s)).
Proof.
  induction 1 as [|c s Hc H [IH1 IH2]]; cbn [Strtod.span]; [split; apply Forall_nil_2|]. destruct (p c); [|split; [apply Forall_nil_2|by apply Forall_cons]].
  destruct (Strtod.span p s). cbn [fst snd] in *. split; [by apply Forall_cons|done].
Qed.

Lemma toLower_bytes s : bytes_ok s -> bytes_ok (toLower s).
Proof.
  intros H. apply Forall_fmap. eapply Forall_impl; [exact H|]. unfold compose, tolower, u_range. intros c Hc. cbn in *. destruct (Z.leb_spec 65 c); cbn [andb]; [destruct (Z.leb_spec c 90)|]; lia.
Qed.

Lemma chomp_bytes s : bytes_ok s -> bytes_ok (chomp s).
Proof.
  intros H. unfold chomp. destruct (match last s with Some c => c =? 13 | None => false end); [|done]. destruct s as [|c s] using rev_ind; [done|]. rewrite removelast_last. by apply Forall_app in H as [H _].
Qed.

Lemma info_line_ok i line : info_ok i -> bytes_ok line -> info_ok (info_line i line).
Proof.
  intros Hi Hl. unfold info_line. apply chomp_bytes in Hl. destruct (chomp line) as [|c heading]; [done|]. pose proof Hl as Hh. apply Forall_cons in Hh as [_ Hh]. destruct (c =? 35).
  - apply flush_ok in Hi as (H1 & H2 & H3). split_and!; [done|done|]. cbn [section_name]. apply toLower_bytes. by apply span_bytes.
  - destruct (span_bytes (fun c => negb (c =? 58)) _ Hl) as [Hk Hv]. destruct (Strtod.span _ _) as [k [|colon v]]; [done|]. destruct Hi as (H1 & H2 & H3). split_and!; [done| |done].
    cbn [current fst snd] in *. apply well_formed_set; [done|done|]. by apply Forall_cons in Hv as [_ Hv].
Qed.

Lemma lines_bytes s : bytes_ok s -> Forall bytes_ok (lines s).
Proof.
  induction 1 as [|c s Hc H IH]; cbn [lines]; [apply Forall_singleton, Forall_nil_2|]. destruct (c =? 10); [apply Forall_cons; split; [apply Forall_nil_2|done]|].
  destruct IH as [|l ls Hl IH]; [by apply Forall_singleton, Forall_singleton|]. apply Forall_cons. split; [by apply Forall_cons|done].
Qed.

Lemma info_sections_ok body : bytes_ok body -> well_formed (info_sections body).
Proof.
  intros H. unfold info_sections. apply lines_bytes in H. assert (info_ok (mkInfo obj obj (str "server"))) as Hi by (split_and!; [done|done|apply str_bytes_ok]).
  revert Hi. generalize (mkInfo obj obj (str "server")). induction H as [|l ls Hl H IH]; intros i Hi; cbn [foldl]; [by apply flush_ok|]. by apply IH, info_line_ok.
Qed.

Lemma serverInfo_returns t args : good ro t -> well_formed args -> returns ro (serverInfo t args).
Proof.
  intros H Ha. unfold serverInfo. apply asking_returns; [done|known_command|apply Forall_nil_2|]. intros t1 r e1 H1 Hr _. apply returns_success; [done|].
  apply well_formed_set; [|apply str_bytes_ok|by apply info_sections_ok, sanitise_bytes, text_ok]. destruct (optionArg args (str "section")) eqn:Ho; [|done].
  apply optionArg_bytes in Ho; [|done]. by plain.
Qed.

Lemma callTool_returns t name args : good ro t -> bytes_ok name -> well_formed args -> returns ro (callTool wild t name args).
Proof.
  intros H Hn Ha. unfold callTool. repeat (destruct (method_is name _);
    [first [by apply redisCommand_returns | by apply get_returns | by apply set_returns | by apply scanKeys_returns | by apply describeKey_returns | by apply serverInfo_returns]|]).
  apply returns_now; [done|]. cbn [text failure]. apply cat_bytes; [apply str_bytes_ok|]. apply cat_bytes; [done|apply str_bytes_ok].
Qed.
End Returns.

(** ** The catalogue *)

Lemma textSchema_ok s : bytes_ok s -> well_formed (textSchema s).
Proof. intros H. unfold textSchema. by plain. Qed.
Lemma numberSchema_ok s : bytes_ok s -> well_formed (numberSchema s).
Proof. intros H. unfold numberSchema. by plain. Qed.
Lemma objectSchema_ok v l : well_formed v -> Forall bytes_ok l -> well_formed (objectSchema v l).
Proof. intros H Hl. unfold objectSchema. apply well_formed_set; [by plain|apply str_bytes_ok|by apply stringArray_ok]. Qed.
Lemma toolDescriptor_ok n d v : bytes_ok n -> bytes_ok d -> well_formed v -> well_formed (toolDescriptor n d v).
Proof. intros. unfold toolDescriptor. by plain. Qed.

Lemma names_ok l : Forall bytes_ok (map str l).
Proof. induction l as [|s l IH]; cbn [map]; [apply Forall_nil_2|]. apply Forall_cons. split; [apply str_bytes_ok|done]. Qed.

Lemma quoted_ok s : bytes_ok (quoted s).
Proof. unfold quoted. apply cat_bytes; [decide_now|]. apply cat_bytes; [apply str_bytes_ok|decide_now]. Qed.

Ltac catalogue := repeat match goal with
  | |- well_formed (toolDescriptor _ _ _) => apply toolDescriptor_ok
  | |- well_formed (objectSchema _ _) => apply objectSchema_ok
  | |- well_formed (textSchema _) => apply textSchema_ok
  | |- well_formed (numberSchema _) => apply numberSchema_ok
  | |- well_formed (Json.set _ _ _) => apply well_formed_set
  | |- well_formed obj => exact I
  | |- well_formed (String ?s) => change (bytes_ok s)
  | |- bytes_ok (str _) => apply str_bytes_ok
  | |- bytes_ok (quoted _) => apply quoted_ok
  | |- bytes_ok (_ ++ _) => apply cat_bytes
  | |- Forall _ (_ :: _) => apply Forall_cons; split
  | |- Forall _ [] => apply Forall_nil_2
  end.

Lemma tools_well_formed read_only : Forall well_formed (tools_for read_only).
Proof.
  assert (well_formed (redis_command_tool read_only)) by (unfold redis_command_tool, argv_description; catalogue; destruct read_only; catalogue).
  assert (well_formed get_tool) by (unfold get_tool; catalogue). assert (well_formed set_tool) by (unfold set_tool; catalogue).
  assert (well_formed scan_keys_tool) by (unfold scan_keys_tool; catalogue). assert (well_formed describe_key_tool) by (unfold describe_key_tool; catalogue).
  assert (well_formed server_info_tool) by (unfold server_info_tool; catalogue). unfold tools_for. destruct read_only; cbn [app]; repeat (apply Forall_cons; split; [assumption|]); apply Forall_nil_2.
Qed.

Lemma push_descriptors_ok l a : forallb (fun v => height v <=? 10) l = true -> Forall well_formed l -> well_formed a -> height a <= 11 ->
  well_formed (foldl push a l) /\ height (foldl push a l) <= 11.
Proof.
  intros Hh Hw. revert a Hh. induction Hw as [|v l Hv Hw IH]; intros a Hh Ha Hl; cbn [foldl]; [done|]. cbn [forallb] in Hh. apply andb_prop in Hh as [H1 H2]. apply Z.leb_le in H1.
  apply IH; [done|by apply well_formed_push|]. pose proof (height_push a v (kMaxJsonDepth - 11)). lia.
Qed.

Lemma listed_ok read_only : well_formed (foldl push arr (tools_for read_only)) /\ height (foldl push arr (tools_for read_only)) <= kMaxJsonDepth - 2.
Proof.
  destruct (push_descriptors_ok (tools_for read_only) arr) as [H1 H2]; [by destruct read_only; vm_compute|apply tools_well_formed|done|done|]. split; [done|]. unfold kMaxJsonDepth. lia.
Qed.

End McpTools.
