(* ===== verification/McpMain.v ===== *)
(** * McpMain: the stdio program

    [src/mcp/main.cpp]: the flags, the first connection and the loop that reads
    a request per line and writes a response per line. The protocol and the
    tools come together here: the theorem is about everything that a client on
    the pipe and the server behind the socket can see. *)

From Stdlib Require Import ZArith Lia.
Set Warnings "-register-all".
From stdpp Require Import base list numbers gmap option strings.
From S2P Require Import Prelude Encoding Strings Double Strtod Dtoa ZSetValue Resp Reply RespClient Json McpProtocol CommandTable McpTools.
Import RespClient.RespClient Json.Json Protocol McpTools.McpTools.

Module McpMain.

#[export] Instance redis_tools (wild : Z -> Z) : ToolProvider RedisTools :=
  {| McpProtocol.listTools := listTools; McpProtocol.hasTool := hasTool; McpProtocol.callTool := callTool wild |}.

Lemma hasTool_bytes t name : hasTool t name = true -> bytes_ok name.
Proof.
  unfold hasTool, method_is. intros H. assert (exists s, name = str s) as [s ->]; [|apply str_bytes_ok]. repeat (case_bool_decide; [by eexists|]). done.
Qed.

#[export] Instance redis_tools_laws (wild : Z -> Z) (ro : bool) : ToolLaws RedisTools (ops := redis_tools wild).
Proof.
  refine {| tools_ok := good ro |}; [intros t; apply listed_ok|]. intros t name args Ht Hn Ha. apply callTool_returns; [done|by eapply hasTool_bytes|done].
Defined.

(** ** The flags *)

Record options := mkOptions { host : bytes; port : Z; db : Z; timeout : Z; read_only : bool }.

Definition defaults : options := mkOptions (str "127.0.0.1") 6380 0 5000 false.

(** [std::atoi]: [strtol] cut to an [int]. *)
Definition atoi (s : bytes) : Z := i32 (fst (strtol (c_str s))).

(** The options, or the exit status. *)
Fixpoint parse_flags (argv : list bytes) (o : options) : options + Z :=
  match argv with
  | [] => inl o
  | arg :: rest =>
      if (arg =b? str "--help") || (arg =b? str "-h") then inr 0
      else if arg =b? str "--host" then
        match rest with [] => inr 1 | v :: rest => parse_flags rest (mkOptions v (port o) (db o) (timeout o) (read_only o)) end
      else if arg =b? str "--port" then
        match rest with
        | [] => inr 1
        | v :: rest =>
            let p := atoi v in
            if (p <=? 0) || (65535 <? p) then inr 1 else parse_flags rest (mkOptions (host o) p (db o) (timeout o) (read_only o))
        end
      else if arg =b? str "--db" then
        match rest with
        | [] => inr 1
        | v :: rest => let d := atoi v in if d <? 0 then inr 1 else parse_flags rest (mkOptions (host o) (port o) d (timeout o) (read_only o))
        end
      else if arg =b? str "--timeout" then
        match rest with
        | [] => inr 1
        | v :: rest => let ms := atoi v in if ms <=? 0 then inr 1 else parse_flags rest (mkOptions (host o) (port o) (db o) ms (read_only o))
        end
      else if arg =b? str "--read-only" then parse_flags rest (mkOptions (host o) (port o) (db o) (timeout o) true)
      else inr 1
  end.

(** ** The loop *)

(** What [std::getline] delivers: a text after the last newline is a line too,
    unless it is empty. *)
Definition getlines (input : bytes) : list bytes :=
  let ls := lines input in if (match last ls with Some [] => true | _ => false end) then removelast ls else ls.

Fixpoint serve (wild : Z -> Z) (t : RedisTools) (requests : list bytes) : option (RedisTools * bytes) :=
  match requests with
  | [] => Some (t, [])
  | line :: requests =>
      '(t, response) ← handleLine (ops := redis_tools wild) t line;
      '(t, out) ← serve wild t requests;
      Some (t, match response with [] => out | _ => response ++ [10] ++ out end)
  end.

(** The exit status, and the tools and the standard output at the end. The
    program ends with its input. *)
Definition main (wild : Z -> Z) (argv : list bytes) (conn : link) (input : bytes) : option (Z * option RedisTools * bytes) :=
  match parse_flags argv defaults with
  | inr status => Some (status, None, [])
  | inl o =>
      '(t, _) ← warmUp (mkTools (host o) (port o) (db o) (read_only o) conn) [];
      '(t, out) ← serve wild t (getlines input);
      Some (0, Some t, out)
  end.

(** ** Lines *)

Lemma lines_some s : exists l ls, lines s = l :: ls.
Proof. destruct s as [|c s]; [by eexists _, _|]. cbn [lines]. destruct (c =? 10); [by eexists _, _|]. destruct (lines s); by eexists _, _. Qed.

Lemma lines_first r s : Forall (fun c => c <> 10) r -> lines (r ++ 10 :: s) = r :: lines s.
Proof. induction 1 as [|c r Hc H IH]; [done|]. cbn [app lines]. rewrite (proj2 (Z.eqb_neq c 10) Hc). cbn [app] in IH. by rewrite IH. Qed.

Lemma getlines_first r s : Forall (fun c => c <> 10) r -> getlines (r ++ 10 :: s) = r :: getlines s.
Proof.
  intros H. unfold getlines. rewrite lines_first by done. destruct (lines_some s) as (l & ls & ->). rewrite last_cons_cons. by destruct (match last (l :: ls) with Some [] => true | _ => false end).
Qed.

Lemma getlines_bytes s : bytes_ok s -> Forall bytes_ok (getlines s).
Proof.
  intros H. apply lines_bytes in H. unfold getlines. destruct (match last (lines s) with Some [] => true | _ => false end); [|done]. destruct (lines s) as [|l ls] using rev_ind; [done|].
  rewrite removelast_last. by apply Forall_app in H as [H _].
Qed.

Lemma response_line id out : response id out -> Forall (fun c => c <> 10) out /\ out <> [].
Proof.
  intros (H1 & _ & r & Hr & _). split; [eapply Forall_impl; [exact H1|]; cbn; lia|]. intros ->. vm_compute in Hr. discriminate Hr.
Qed.

Lemma parse_flags_host argv o o' : Forall bytes_ok argv -> bytes_ok (host o) -> parse_flags argv o = inl o' -> bytes_ok (host o').
Proof.
  remember (length argv) as n eqn:Hn. revert argv Hn o. induction n as [n IH] using lt_wf_ind. intros [|arg rest] Hn o Ha Ho; cbn [parse_flags]; [by intros [= <-]|]. apply Forall_cons in Ha as [_ Ha].
  assert (forall v rest' o1, rest = v :: rest' -> bytes_ok (host o1) -> parse_flags rest' o1 = inl o' -> bytes_ok (host o')) as Hstep.
  { intros v rest' o1 -> H1. apply Forall_cons in Ha as [_ Ha]. apply (IH (length rest')); [cbn in Hn; lia|done..]. }
  destruct (_ || _); [done|]. destruct (arg =b? str "--host"); [destruct rest as [|v rest']; [done|]; apply (Hstep v); [done|by apply Forall_cons in Ha as [Hv _]]|].
  destruct (arg =b? str "--port"); [destruct rest as [|v rest']; [done|]; cbv zeta; destruct (_ || _); [done|]; by apply (Hstep v)|].
  destruct (arg =b? str "--db"); [destruct rest as [|v rest']; [done|]; cbv zeta; destruct (_ <? _); [done|]; by apply (Hstep v)|].
  destruct (arg =b? str "--timeout"); [destruct rest as [|v rest']; [done|]; cbv zeta; destruct (_ <=? _); [done|]; by apply (Hstep v)|].
  destruct (arg =b? str "--read-only"); [|done]. apply (IH (length rest)); [cbn in Hn; lia|done..].
Qed.

Lemma serve_answers wild ro t requests : good ro t -> Forall bytes_ok requests ->
  exists t' out, serve wild t requests = Some (t', out) /\ good ro t' /\ Forall2 response (omap awaits requests) (getlines out).
Proof.
  intros Ht H. revert t Ht. induction H as [|line requests Hl H IH]; intros t Ht; cbn [serve]; [eexists _, _; split; [done|]; split; [done|]; apply Forall2_nil_2|].
  destruct (handleLine_answers (laws := redis_tools_laws wild ro) t line Ht Hl) as (t1 & r & -> & Ht1 & Hr). cbn [mbind option_bind]. destruct (IH t1 Ht1) as (t2 & out & -> & Ht2 & Ho). cbn [mbind option_bind].
  eexists _, _. split; [done|]. split; [done|]. cbn [omap list_omap]. destruct (awaits line) as [id|]; [|by destruct Hr as [-> _]]. destruct (response_line id r Hr) as [Hn Hne].
  destruct r as [|c r]; [done|]. cbn [app]. rewrite app_comm_cons, getlines_first by done. by apply Forall2_cons_2.
Qed.

(** ** The program *)

(** C18: A session on the pipe. Given flags that parse, the program runs to the end
    of its input and exits with status 0 through every failure of the network
    that the client can report: names that do not resolve, connections that are
    refused, close, fail or time out, replies in any pieces and replies that
    break the protocol. Two things are excluded ([link_ok]), because they end
    the process instead: a reply whose header announces more elements than
    memory can be reserved for, and a send that raises SIGPIPE, which the
    program does not ignore ([broken_pipe_kills]). Its standard output is one
    line for each input line that is a request, in order, each a JSON-RPC
    response to that request, and nothing else. Started read-only, it never
    hands the socket a command that writes or administers, whatever the client
    asks for. *)
Theorem stdio_session (wild : Z -> Z) (argv : list bytes) (o : options) (conn : link) (input : bytes) :
  Forall bytes_ok argv -> parse_flags argv defaults = inl o -> sent conn = [] -> link_ok conn -> bytes_ok input ->
  exists t out, main wild argv conn input = Some (0, Some t, out) /\
    Forall2 response (omap awaits (getlines input)) (getlines out) /\
    (read_only o = true -> Forall (fun argv => allowed argv = true) (sent (conn_ t))).
Proof.
  intros Ha Hf Hs Hl Hi. unfold main. rewrite Hf. assert (good (read_only o) (mkTools (host o) (port o) (db o) (read_only o) conn)) as Hg.
  { split_and!; [done|apply (parse_flags_host argv defaults); [done|apply str_bytes_ok|done]|done|]. cbn [conn_]. rewrite Hs. apply Forall_nil_2. }
  destruct (ensureConnected_good _ _ [] Hg (Forall_nil_2 _)) as (t1 & ok & e & He & H1 & _). unfold warmUp. rewrite He. cbn [mbind option_bind].
  destruct (serve_answers wild _ t1 (getlines input) H1 (getlines_bytes _ Hi)) as (t2 & out & -> & (_ & _ & _ & H2) & H3). cbn [mbind option_bind]. eexists _, _. split; [done|]. split; [done|].
  intros Hro. eapply Forall_impl; [exact H2|]. intros a Hlog. by apply Hlog.
Qed.

(** A check of [calm], reply after reply. *)
Fixpoint calmb (room : Z) (fuel : nat) (w : bytes) : bool :=
  match fuel with
  | O => false
  | S fuel => match Reply.parseReply room w with Reply.Overflow => false | Reply.Done _ rest => calmb room fuel rest | _ => true end
  end.

Lemma calm_check room fuel w : calmb room fuel w = true -> calm room w.
Proof.
  revert w. induction fuel as [|fuel IH]; intros w H v Hv; [done|]. cbn [calmb] in H. destruct Hv as [w|w r rest v E Hv]; [by intros E; rewrite E in H|].
  rewrite E in H. by apply (IH rest).
Qed.

(** A read-only session: the key [a] is read, FLUSHALL is refused. *)
Definition field (k : string) (v : bytes) : bytes := quoted k ++ str ":" ++ v.
Definition call_line (id name : string) (arguments : bytes) : bytes :=
  str "{" ++ field "id" (str id) ++ str "," ++ field "method" (quoted "tools/call") ++ str "," ++
  field "params" (str "{" ++ field "name" (quoted name) ++ str "," ++ field "arguments" (str "{" ++ arguments ++ str "}") ++ str "}") ++ str "}".
Definition two_calls : bytes :=
  call_line "1" "get" (field "key" (quoted "a")) ++ [10] ++ call_line "2" "redis_command" (field "argv" (str "[" ++ quoted "flushall" ++ str "]")) ++ [10].
Definition peer : link :=
  mkLink false 2 [] [Addresses [Refused (str "refused"); Connected]] [Sent 10; SendInterrupted; Sent 100; Sent 100]
    [Received (str "+O"); Received (str "K" ++ Resp.crlf ++ str "$1"); Received (Resp.crlf ++ str "x" ++ Resp.crlf)] [] (mkProcess (2 ^ 20) false).

Lemma stdio_session_witness :
  exists t out, main (fun _ => 0) [str "--read-only"] peer two_calls = Some (0, Some t, out) /\
    Forall2 response [Number (Double.of_int64 1); Number (Double.of_int64 2)] (getlines out) /\
    Forall (fun argv => allowed argv = true) (sent (conn_ t)).
Proof.
  destruct (stdio_session (fun _ => 0) [str "--read-only"] (mkOptions (str "127.0.0.1") 6380 0 5000 true) peer two_calls) as (t & out & H1 & H2 & H3).
  - decide_now.
  - vm_compute. reflexivity.
  - reflexivity.
  - split; [decide_now|]. split; [apply (calm_check _ 9); vm_compute; reflexivity|]. split; [repeat split; apply (calm_check _ 9); vm_compute; reflexivity|].
    split; [repeat (apply Forall_cons; split; [exact I|]); apply Forall_nil_2|]. split; [repeat (apply Forall_cons; split; [exact I|]); apply Forall_nil_2|].
    apply Forall_singleton. cbn [text_resolution]. repeat (apply Forall_cons; split; [first [exact I | apply str_bytes_ok]|]). apply Forall_nil_2.
  - decide_now.
  - exists t, out. split; [exact H1|]. split; [|apply H3; reflexivity].
    assert (omap awaits (getlines two_calls) = [Number (Double.of_int64 1); Number (Double.of_int64 2)]) as <- by (vm_compute; reflexivity). exact H2.
Defined.

(** What that session sends and answers. *)
Example read_only_run : exists t out, main (fun _ => 0) [str "--read-only"] peer two_calls = Some (0, Some t, out) /\
  sent (conn_ t) = [[str "HELLO"; str "3"]; [str "GET"; str "a"]] /\ length (getlines out) = 2%nat.
Proof. eexists _, _. split; [vm_compute; reflexivity|]. split; vm_compute; reflexivity. Qed.

(** A server that goes away between two commands takes the program with it. *)
Example broken_pipe_kills :
  main (fun _ => 0) [] (mkLink false 2 [] [Addresses [Connected]] [Sent 100; SendPipe] [Received (str "+OK" ++ Resp.crlf)] [] (mkProcess (2 ^ 20) false)) two_calls = None.
Proof. vm_compute. reflexivity. Qed.

End McpMain.
