(* ===== verification/Lzf.v ===== *)
(** * Lzf: the string compression of snapshots

    [lzfCompress] and [lzfDecompress] of [src/persist/rdb.cpp], pointer by
    pointer: [ip], [op] and [ref] are offsets into their buffers, a read or a
    write outside a buffer is [None]. The compressor never leaves its buffers,
    and the decompressor gives back what was compressed. *)

From Stdlib Require Import ZArith Lia.
From stdpp Require Import base list numbers gmap option.
From S2P Require Import Prelude.

Module Lzf.

Definition kHashLog : Z := 16.
Definition kHashSize : Z := Z.shiftl 1 kHashLog.
Definition kMaxLit : nat := 32.
Definition kMaxOff : Z := Z.shiftl 1 13.
Definition kMaxRef : nat := 264.

(** Unsigned 32-bit arithmetic on the bytes under the window. *)
Definition hashFirst (p0 p1 : Z) : Z := Z.lor (Z.shiftl p0 8) p1.
Definition hashNext (v p2 : Z) : Z := Z.lor (u32 (Z.shiftl v 8)) p2.
Definition hashIndex (h : Z) : Z := Z.land (u32 (Z.shiftr h (3 * 8 - kHashLog) - u32 (h * 5))) (kHashSize - 1).

(** [htab] starts as zeros and is indexed by [hashIndex] only. *)
Definition table := gmap Z Z.
Definition slot (htab : table) (i : Z) : nat := Z.to_nat (default 0 (htab !! i)).
Definition set_slot (htab : table) (i : Z) (ip : nat) : table := <[i := u32 (Z.of_nat ip)]> htab.

(** [op[i] = b], where [out] is the whole output buffer. *)
Definition put (out : bytes) (i : nat) (b : Z) : option bytes :=
  if (i <? length out)%nat then Some (<[i := u8 b]> out) else None.

Record state := mk { htab : table; ip : nat; op : nat; lit : nat; out : bytes }.

(** The control byte of the literal run that ends at [op]. *)
Definition close_run (s : state) : option state :=
  out ← put (out s) (op s - lit s - 1) (Z.of_nat (lit s) - 1);
  Some (mk (htab s) (ip s) (op s) (lit s) out).

Definition emit (b : Z) (s : state) : option state :=
  out ← put (out s) (op s) b; Some (mk (htab s) (ip s) (S (op s)) (lit s) out).

(** [++lit; *op++ = *ip++], closing the run when it is full. *)
Definition literal (inp : bytes) (s : state) : option state :=
  b ← inp !! ip s;
  out ← put (out s) (op s) b;
  let s := mk (htab s) (S (ip s)) (S (op s)) (S (lit s)) out in
  if (lit s =? kMaxLit)%nat then
    s ← close_run s;
    Some (mk (htab s) (ip s) (S (op s)) 0 (Lzf.out s))
  else Some s.

(** The sixteen unrolled comparisons: the length reached, and whether they
    stopped at a difference. *)
Fixpoint unrolled (n : nat) (inp : bytes) (ref ip len : nat) : option (nat * bool) :=
  match n with
  | O => Some (len, false)
  | S n =>
      let len := S len in
      a ← inp !! (ref + len)%nat; b ← inp !! (ip + len)%nat;
      if a =? b then unrolled n inp ref ip len else Some (len, true)
  end.

(** [do ++len; while (len < maxlen && ref[len] == ip[len])] *)
Fixpoint guarded (fuel : nat) (inp : bytes) (ref ip maxlen len : nat) : option nat :=
  match fuel with
  | O => None
  | S fuel =>
      let len := S len in
      if (len <? maxlen)%nat then
        a ← inp !! (ref + len)%nat; b ← inp !! (ip + len)%nat;
        if a =? b then guarded fuel inp ref ip maxlen len else Some len
      else Some len
  end.

Definition match_length (inp : bytes) (ref ip maxlen : nat) : option nat :=
  '(len, stopped) ← (if (16 <? maxlen)%nat then unrolled 16 inp ref ip 2 else Some (2%nat, false));
  if stopped : bool then Some len else guarded (S maxlen) inp ref ip maxlen len.

(** [ref < ip && off < kMaxOff && ref > in && ...]: the offset of a usable
    earlier occurrence. *)
Definition candidate (inp : bytes) (ref ip : nat) : option (option nat) :=
  if (ref <? ip)%nat && (Z.of_nat (ip - ref - 1) <? kMaxOff) && (0 <? ref)%nat then
    r2 ← inp !! (ref + 2)%nat; i2 ← inp !! (ip + 2)%nat;
    if negb (r2 =? i2) then Some None
    else
      r0 ← inp !! ref; i0 ← inp !! ip;
      if negb (r0 =? i0) then Some None
      else
        r1 ← inp !! (ref + 1)%nat; i1 ← inp !! (ip + 1)%nat;
        Some (if r1 =? i1 then Some (ip - ref - 1)%nat else None)
  else Some None.

(** What one turn of the main loop does. *)
Inductive flow := Next (s : state) (hval : Z) | Broke (s : state) | Full.

Definition write_match (off len : nat) (s : state) : option state :=
  let high := Z.shiftr (Z.of_nat off) 8 in
  s ← (if (len <? 7)%nat then emit (high + Z.shiftl (Z.of_nat len) 5) s
       else s ← emit (high + Z.shiftl 7 5) s; emit (Z.of_nat len - 7) s);
  emit (Z.of_nat off) s.

(** Re-indexing the two positions before [ip]. *)
Definition reindex (inp : bytes) (s : state) : option (state * Z) :=
  let ip2 := (ip s - 2)%nat in
  b0 ← inp !! ip2; b1 ← inp !! (ip2 + 1)%nat; b2 ← inp !! (ip2 + 2)%nat; b3 ← inp !! (ip2 + 3)%nat;
  let hval := hashNext (hashFirst b0 b1) b2 in
  let htab := set_slot (htab s) (hashIndex hval) ip2 in
  let hval := hashNext hval b3 in
  let htab := set_slot htab (hashIndex hval) (ip2 + 1) in
  Some (mk htab (ip s) (op s) (lit s) (out s), hval).

Definition match_turn (inp : bytes) (out_len : nat) (ref off : nat) (s : state) : option flow :=
  let maxlen := (length inp - ip s - 2)%nat in
  let maxlen := if (kMaxRef <? maxlen)%nat then kMaxRef else maxlen in
  if (out_len <=? op s + 3 + 1)%nat && (out_len <=? op s - (if (lit s =? 0)%nat then 1 else 0) + 3 + 1)%nat then Some Full
  else
    s ← close_run s;
    let s := if (lit s =? 0)%nat then mk (htab s) (ip s) (op s - 1) (lit s) (out s) else s in
    len ← match_length inp ref (ip s) maxlen;
    let len := (len - 2)%nat in
    s ← write_match off len s;
    let s := mk (htab s) (ip s + 1 + (len + 1)) (S (op s)) 0 (out s) in
    if (length inp - 2 <=? ip s)%nat then Some (Broke s)
    else '(s, hval) ← reindex inp s; Some (Next s hval).

Definition turn (inp : bytes) (out_len : nat) (s : state) (hval : Z) : option flow :=
  p2 ← inp !! (ip s + 2)%nat;
  let hval := hashNext hval p2 in
  let ref := slot (htab s) (hashIndex hval) in
  let s := mk (set_slot (htab s) (hashIndex hval) (ip s)) (ip s) (op s) (lit s) (out s) in
  c ← candidate inp ref (ip s);
  match c with
  | Some off => match_turn inp out_len ref off s
  | None =>
      if (out_len <=? op s)%nat then Some Full
      else s ← literal inp s; Some (Next s hval)
  end.

Fixpoint compress_loop (fuel : nat) (inp : bytes) (out_len : nat) (s : state) (hval : Z) : option (option state) :=
  if (ip s <? length inp - 2)%nat then
    match fuel with
    | O => None
    | S fuel =>
        f ← turn inp out_len s hval;
        match f with
        | Full => Some None
        | Broke s => Some (Some s)
        | Next s hval => compress_loop fuel inp out_len s hval
        end
    end
  else Some (Some s).

(** The literals that remain, and the last control byte. *)
Fixpoint tail_loop (fuel : nat) (inp : bytes) (s : state) : option state :=
  if (ip s <? length inp)%nat then
    match fuel with O => None | S fuel => s ← literal inp s; tail_loop fuel inp s end
  else Some s.

(** The path for one or two bytes. *)
Fixpoint short_loop (fuel : nat) (inp : bytes) (out_len : nat) (s : state) : option (option state) :=
  if (ip s <? length inp)%nat then
    match fuel with
    | O => None
    | S fuel =>
        if (out_len <=? op s)%nat then Some None
        else
          b ← inp !! ip s;
          out ← put (out s) (op s) b;
          short_loop fuel inp out_len (mk (htab s) (S (ip s)) (S (op s)) (S (lit s)) out)
    end
  else Some (Some s).

(** The number of bytes written, 0 when they do not fit, and the buffer. *)
Definition lzfCompress (inp : bytes) (out_len : nat) : option (nat * bytes) :=
  let out0 := replicate out_len 0 in
  if (length inp =? 0)%nat || (out_len =? 0)%nat then Some (0%nat, out0)
  else
    let s := mk ∅ 0 1 0 out0 in
    if (length inp <=? 2)%nat then
      r ← short_loop 2 inp out_len s;
      match r with
      | None => Some (0%nat, out0)
      | Some s => s ← close_run s; Some (op s, out s)
      end
    else
      b0 ← inp !! 0%nat; b1 ← inp !! 1%nat;
      r ← compress_loop (length inp) inp out_len s (hashFirst b0 b1);
      match r with
      | None => Some (0%nat, out0)
      | Some s =>
          if (out_len <? op s + 3)%nat then Some (0%nat, out0)
          else
            s ← tail_loop (length inp) inp s;
            s ← close_run s;
            let s := if (lit s =? 0)%nat then mk (htab s) (ip s) (op s - 1) (lit s) (out s) else s in
            Some (op s, out s)
      end.

(** ** Decompression *)

(** What has been written is [acc]; a reference reads it. *)
Definition copy_byte (acc : bytes) (out_len : nat) (ref : nat) : option bytes :=
  b ← acc !! ref; if (length acc <? out_len)%nat then Some (acc ++ [b]) else None.

Fixpoint copy (n : nat) (acc : bytes) (out_len : nat) (ref : nat) : option bytes :=
  match n with
  | O => Some acc
  | S n => acc ← copy_byte acc out_len ref; copy n acc out_len (S ref)
  end.

(** Each turn consumes the control byte at least. The result is the return
    value with the bytes written. *)
Fixpoint decompress_loop (fuel : nat) (inp : bytes) (out_len : nat) (acc : bytes) : option (nat * bytes) :=
  match fuel, inp with
  | _, [] => Some (length acc, acc)
  | O, _ => None
  | S fuel, ctrl :: inp =>
      if ctrl <? 32 then
        let n := S (Z.to_nat ctrl) in
        if (out_len <? length acc + n)%nat then Some (0%nat, acc)
        else if (length inp <? n)%nat then Some (0%nat, acc)
        else decompress_loop fuel (drop n inp) out_len (acc ++ take n inp)
      else
        let len := Z.to_nat (Z.shiftr ctrl 5) in
        let ref := Z.of_nat (length acc) - Z.shiftl (Z.land ctrl 31) 8 - 1 in
        match inp with
        | [] => Some (0%nat, acc)
        | b :: rest =>
            let finish len b rest :=
              let ref := ref - b in
              if (out_len <? length acc + len + 2)%nat then Some (0%nat, acc)
              else if ref <? 0 then Some (0%nat, acc)
              else acc ← copy (len + 2) acc out_len (Z.to_nat ref); decompress_loop fuel rest out_len acc in
            if (len =? 7)%nat then
              match rest with
              | [] => Some (0%nat, acc)
              | b2 :: rest => finish (len + Z.to_nat b)%nat b2 rest
              end
            else finish len b rest
        end
  end.

Definition lzfDecompress (inp : bytes) (out_len : nat) : option (nat * bytes) :=
  decompress_loop (length inp) inp out_len [].

Example compresses_run : lzfCompress (replicate 24 97) 20 = Some (9%nat, [1; 97; 97; 224; 11; 0; 1; 97; 97] ++ replicate 11 0).
Proof. vm_compute. reflexivity. Qed.

(** ** What a compressed text stands for *)

(** [n] bytes copied, one by one, from offset [ref] of what is there already. *)
Fixpoint repeat_from (n : nat) (acc : bytes) (ref : nat) : option bytes :=
  match n with
  | O => Some acc
  | S n => b ← acc !! ref; repeat_from n (acc ++ [b]) (S ref)
  end.

Inductive decodes : bytes -> bytes -> bytes -> Prop :=
  | decodes_nil acc : decodes [] acc acc
  | decodes_literals n ls rest acc acc' : length ls = S n -> (n < 32)%nat -> decodes rest (acc ++ ls) acc' ->
      decodes (Z.of_nat n :: ls ++ rest) acc acc'
  | decodes_short len off rest acc acc1 acc' : (1 <= len < 7)%nat -> (off < 8192)%Z -> 0 <= off < Z.of_nat (length acc) ->
      repeat_from (len + 2) acc (length acc - Z.to_nat off - 1) = Some acc1 -> decodes rest acc1 acc' ->
      decodes (off / 256 + 32 * Z.of_nat len :: off mod 256 :: rest) acc acc'
  | decodes_long len off rest acc acc1 acc' : (7 <= len < 263)%nat -> (off < 8192)%Z -> 0 <= off < Z.of_nat (length acc) ->
      repeat_from (len + 2) acc (length acc - Z.to_nat off - 1) = Some acc1 -> decodes rest acc1 acc' ->
      decodes (off / 256 + 224 :: Z.of_nat len - 7 :: off mod 256 :: rest) acc acc'.

Lemma decodes_app a b x y z : decodes a x y -> decodes b y z -> decodes (a ++ b) x z.
Proof.
  induction 1 as [| |? ? ? ? ? ? ? ? ? ? ? IH|? ? ? ? ? ? ? ? ? ? ? IH]; intros Hb; cbn [app]; [done| | |].
  - rewrite <- app_assoc. apply decodes_literals; auto.
  - eapply decodes_short; eauto.
  - eapply decodes_long; eauto.
Qed.

Lemma repeat_from_length n acc ref acc' : repeat_from n acc ref = Some acc' -> length acc' = (length acc + n)%nat.
Proof.
  revert acc ref. induction n as [|n IH]; intros acc ref; cbn [repeat_from]; [intros [= <-]; lia|].
  destruct (acc !! ref); [|done]. cbn. intros ->%IH. rewrite length_app. cbn. lia.
Qed.

(** The bytes copied are those of a text that repeats itself. *)
Lemma repeat_from_take n (inp : bytes) p ref : (ref < p)%nat -> (p + n <= length inp)%nat ->
  (forall i, (i < n)%nat -> inp !! (ref + i)%nat = inp !! (p + i)%nat) -> repeat_from n (take p inp) ref = Some (take (p + n) inp).
Proof.
  revert p ref. induction n as [|n IH]; intros p ref Hr Hp Heq; cbn [repeat_from]; [by rewrite Nat.add_0_r|].
  rewrite lookup_take_lt by lia. pose proof (Heq 0%nat ltac:(lia)) as H0. rewrite !Nat.add_0_r in H0. rewrite H0.
  destruct (lookup_lt_is_Some_2 inp p ltac:(lia)) as [b Hb]. rewrite Hb. cbn.
  rewrite <- (take_S_r _ _ _ Hb). rewrite (IH (S p) (S ref)) by (lia || (intros i Hi; specialize (Heq (S i) ltac:(lia)); by rewrite !Nat.add_succ_r in Heq)).
  by rewrite Nat.add_succ_r.
Qed.

Lemma copy_repeat n acc cap ref acc' : repeat_from n acc ref = Some acc' -> (length acc' <= cap)%nat -> copy n acc cap ref = Some acc'.
Proof.
  revert acc ref. induction n as [|n IH]; intros acc ref; cbn [repeat_from copy]; [done|]. unfold copy_byte. destruct (acc !! ref) as [b|]; [|done]. cbn [mbind option_bind].
  intros Hr Hc. pose proof (repeat_from_length _ _ _ _ Hr) as Hl. rewrite length_app in Hl. cbn in Hl.
  rewrite (proj2 (Nat.ltb_lt _ _)) by lia. cbn [mbind option_bind]. by apply IH.
Qed.

Lemma decodes_length a x y : decodes a x y -> (length x <= length y)%nat.
Proof.
  induction 1 as [|? ? ? ? ? ? ? ? IH|? ? ? ? ? ? ? ? ? Hr ? IH|? ? ? ? ? ? ? ? ? Hr ? IH]; [done|rewrite length_app in IH; lia|..];
    apply repeat_from_length in Hr; lia.
Qed.

(** The decompressor follows the relation. *)
Lemma decompress_decodes a acc acc' cap fuel : decodes a acc acc' -> (length acc' <= cap)%nat -> (length a <= fuel)%nat ->
  decompress_loop fuel a cap acc = Some (length acc', acc').
Proof.
  intros Hd. revert fuel. induction Hd as [acc|n ls rest acc acc' Hl Hn Hd IH|len off rest acc acc1 acc' Hlen Ho Hr Hc Hd IH|len off rest acc acc1 acc' Hlen Ho Hr Hc Hd IH];
    intros fuel Hcap Hf; [by destruct fuel|..]; (destruct fuel as [|fuel]; [cbn in Hf; lia|]); cbn [decompress_loop length] in *;
    pose proof (decodes_length _ _ _ Hd) as Hlen'.
  - rewrite (proj2 (Z.ltb_lt _ _)) by lia. rewrite Nat2Z.id, length_app in *.
    rewrite (proj2 (Nat.ltb_ge _ _)) by lia. rewrite (proj2 (Nat.ltb_ge _ _)) by lia.
    rewrite take_app_length', drop_app_length' by done. apply IH; lia.
  - rewrite (proj2 (Z.ltb_ge _ _)) by dmlia. rewrite shiftr_div by lia. change (2 ^ 5) with 32.
    replace (Z.to_nat ((off / 256 + 32 * Z.of_nat len) / 32)) with len by dmlia. rewrite (proj2 (Nat.eqb_neq len 7)) by lia.
    pose proof (repeat_from_length _ _ _ _ Hc) as Hcl. rewrite (proj2 (Nat.ltb_ge _ _)) by lia.
    change 31 with (Z.ones 5). rewrite Z.land_ones, shiftl_mul by lia. change (2 ^ 5) with 32. change (2 ^ 8) with 256.
    replace (Z.of_nat (length acc) - (off / 256 + 32 * Z.of_nat len) mod 32 * 256 - 1 - off mod 256) with (Z.of_nat (length acc) - off - 1) by dmlia.
    rewrite (proj2 (Z.ltb_ge _ _)) by lia. replace (Z.to_nat (Z.of_nat (length acc) - off - 1)) with (length acc - Z.to_nat off - 1)%nat by lia.
    rewrite (copy_repeat _ _ _ _ _ Hc) by lia. cbn [mbind option_bind]. apply IH; lia.
  - rewrite (proj2 (Z.ltb_ge _ _)) by dmlia. rewrite shiftr_div by lia. change (2 ^ 5) with 32.
    replace (Z.to_nat ((off / 256 + 224) / 32)) with 7%nat by dmlia. cbn [Nat.eqb].
    replace (7 + Z.to_nat (Z.of_nat len - 7))%nat with len by lia.
    pose proof (repeat_from_length _ _ _ _ Hc) as Hcl. rewrite (proj2 (Nat.ltb_ge _ _)) by lia.
    change 31 with (Z.ones 5). rewrite Z.land_ones, shiftl_mul by lia. change (2 ^ 5) with 32. change (2 ^ 8) with 256.
    replace (Z.of_nat (length acc) - (off / 256 + 224) mod 32 * 256 - 1 - off mod 256) with (Z.of_nat (length acc) - off - 1) by dmlia.
    rewrite (proj2 (Z.ltb_ge _ _)) by lia. replace (Z.to_nat (Z.of_nat (length acc) - off - 1)) with (length acc - Z.to_nat off - 1)%nat by lia.
    rewrite (copy_repeat _ _ _ _ _ Hc) by lia. cbn [mbind option_bind]. apply IH; lia.
Qed.

(** ** The compressor's invariant *)

(** All but the open literal run stands for the input up to it, and the run is
    a copy of the input's last [lit] bytes. *)
Record inv (inp : bytes) (out_len : nat) (s : state) : Prop := mkInv {
  inv_out : length (out s) = out_len;
  inv_op : (S (lit s) <= op s)%nat;
  inv_lit : (lit s < kMaxLit)%nat;
  inv_ip : (lit s <= ip s <= length inp)%nat;
  inv_room : (op s <= out_len + (if (lit s =? 0)%nat then 1 else 0))%nat;
  inv_decodes : decodes (take (op s - lit s - 1) (out s)) [] (take (ip s - lit s) inp);
  inv_run : take (lit s) (drop (op s - lit s) (out s)) = take (lit s) (drop (ip s - lit s) inp) }.

Lemma put_ok out i b : (i < length out)%nat -> put out i b = Some (<[i := u8 b]> out).
Proof. intros H. unfold put. by rewrite (proj2 (Nat.ltb_lt _ _)). Qed.

Lemma u8_byte b : is_byte b -> u8 b = b.
Proof. apply uwrap_small. Qed.

Lemma take_insert_at {A} (l : list A) i x : (i < length l)%nat -> take (S i) (<[i := x]> l) = take i l ++ [x].
Proof.
  intros Hi. rewrite (take_S_r _ _ x) by by apply list_lookup_insert_eq. by rewrite take_insert_ge by lia.
Qed.

(** A run of [n] literals that starts after its control byte at [base]. *)
Lemma closed_run (inp out : bytes) base n p : (0 < n <= kMaxLit)%nat -> (base + n < length out)%nat ->
  decodes (take base out) [] (take p inp) -> (p + n <= length inp)%nat -> take n (drop (base + 1) out) = take n (drop p inp) ->
  decodes (take (base + 1 + n) (<[base := u8 (Z.of_nat n - 1)]> out)) [] (take (p + n) inp).
Proof.
  intros Hn Hb Hd Hp Hrun. rewrite insert_take_drop by lia. rewrite take_app, length_take, Nat.min_l by lia.
  rewrite firstn_all2 by (rewrite length_take; lia). replace (base + 1 + n - base)%nat with (S n) by lia. cbn [take].
  rewrite <- Nat.add_1_r. eapply decodes_app; [exact Hd|].
  rewrite Hrun, <- (app_nil_r (take n (drop p inp))). unfold kMaxLit in *.
  replace (u8 (Z.of_nat n - 1)) with (Z.of_nat (n - 1)).
  - apply decodes_literals; [rewrite length_take, length_drop; lia|lia|]. rewrite take_take_drop. constructor.
  - rewrite uwrap_small; [lia|]. unfold u_range. lia.
Qed.

Lemma literal_ok inp out_len s : bytes_ok inp -> inv inp out_len s -> (ip s < length inp)%nat -> (op s < out_len)%nat ->
  exists s', literal inp s = Some s' /\ inv inp out_len s' /\ ip s' = S (ip s) /\
    (if (S (lit s) =? kMaxLit)%nat then lit s' = 0%nat /\ op s' = (op s + 2)%nat else lit s' = S (lit s) /\ op s' = S (op s)).
Proof.
  intros Hok [H1 H2 H3 H4 H5 H6 H7] Hip Hop. unfold literal. destruct (lookup_lt_is_Some_2 inp (ip s) Hip) as [b Hb]. rewrite Hb. cbn [mbind option_bind].
  rewrite put_ok by lia. cbn [mbind option_bind lit ip op out htab]. rewrite u8_byte by (rewrite Forall_lookup in Hok; eauto).
  set (o := <[op s := b]> (out s)).
  assert (take (S (lit s)) (drop (op s - lit s) o) = take (S (lit s)) (drop (ip s - lit s) inp)) as Hrun.
  { rewrite (take_S_r _ (lit s) b), (take_S_r (drop (ip s - lit s) inp) (lit s) b).
    - f_equal. unfold o. rewrite drop_insert_ge by lia. rewrite take_insert_ge by lia. exact H7.
    - rewrite lookup_drop. replace (ip s - lit s + lit s)%nat with (ip s) by lia. exact Hb.
    - rewrite lookup_drop. replace (op s - lit s + lit s)%nat with (op s) by lia. unfold o. apply list_lookup_insert_eq. lia. }
  assert (decodes (take (op s - lit s - 1) o) [] (take (ip s - lit s) inp)) as Hdec by (unfold o; by rewrite take_insert_ge by lia).
  assert (length o = out_len) as Ho by (unfold o; by rewrite length_insert).
  destruct (Nat.eqb_spec (S (lit s)) kMaxLit) as [Hfull|Hfull].
  - unfold close_run. cbn [lit ip op out htab]. rewrite put_ok by lia. cbn [mbind option_bind lit ip op out htab]. eexists. split; [done|].
    cbn [lit ip op out htab]. split; [|by split; [|split; [done|lia]]].
    split; cbn [lit ip op out htab]; rewrite ?length_insert; try (done || lia || (cbn; lia)).
    replace (S (S (op s)) - 0 - 1)%nat with (op s - lit s - 1 + 1 + S (lit s))%nat by lia.
    replace (S (ip s) - 0)%nat with (ip s - lit s + S (lit s))%nat by lia.
    replace (S (op s) - S (lit s) - 1)%nat with (op s - lit s - 1)%nat by lia.
    apply closed_run; [lia|lia|exact Hdec|lia|]. replace (op s - lit s - 1 + 1)%nat with (op s - lit s)%nat by lia. exact Hrun.
  - eexists. split; [done|]. cbn [lit ip op out htab]. split; [|done].
    split; cbn [lit ip op out htab]; try (done || lia || (cbn; lia)).
Qed.

(** ** Matches *)

Definition equal_for (inp : bytes) (ref ip n : nat) : Prop :=
  (ip + n <= length inp)%nat /\ forall i, (i < n)%nat -> inp !! (ref + i)%nat = inp !! (ip + i)%nat.

Lemma equal_for_S inp ref ip n : equal_for inp ref ip n -> (ip + n < length inp)%nat -> inp !! (ref + n)%nat = inp !! (ip + n)%nat ->
  equal_for inp ref ip (S n).
Proof. intros [H1 H2] Hn He. split; [lia|]. intros i Hi. destruct (decide (i = n)) as [->|]; [done|]. apply H2. lia. Qed.

Lemma equal_for_le inp ref ip n m : equal_for inp ref ip n -> (m <= n)%nat -> equal_for inp ref ip m.
Proof. intros [H1 H2] Hm. split; [lia|]. intros i Hi. apply H2. lia. Qed.

Lemma guarded_ok inp ref ip maxlen fuel len : (ref < ip)%nat -> equal_for inp ref ip (S len) -> (ip + maxlen + 2 <= length inp)%nat -> (maxlen < len + fuel)%nat -> (0 < fuel)%nat ->
  exists r, guarded fuel inp ref ip maxlen len = Some r /\ equal_for inp ref ip r /\ (len < r)%nat /\ (r <= Nat.max maxlen (S len))%nat.
Proof.
  intros Href. revert len. induction fuel as [|fuel IH]; intros len He Hm Hf Hf0; [lia|]. cbn [guarded].
  destruct (Nat.ltb_spec (S len) maxlen) as [Hlt|Hge]; [|exists (S len); split_and!; [done|done|lia|lia]].
  destruct (lookup_lt_is_Some_2 inp (ref + S len) ltac:(lia)) as [a Ha]. destruct (lookup_lt_is_Some_2 inp (ip + S len) ltac:(lia)) as [b Hb].
  rewrite Ha, Hb. cbn [mbind option_bind]. destruct (Z.eqb_spec a b) as [->|Hne]; [|exists (S len); split_and!; [done|done|lia|lia]].
  destruct (IH (S len)) as (r & -> & H1 & H2 & H3); [apply equal_for_S; [done|lia|congruence]|done|lia|lia|]. exists r. split_and!; [done|done|lia|lia].
Qed.

Lemma unrolled_ok inp ref ip n len : (ref < ip)%nat -> equal_for inp ref ip (S len) -> (ip + len + n < length inp)%nat ->
  exists r stopped, unrolled n inp ref ip len = Some (r, stopped) /\ (r <= len + n)%nat /\
    if stopped : bool then equal_for inp ref ip r /\ (len < r)%nat else r = (len + n)%nat /\ equal_for inp ref ip (S r).
Proof.
  intros Href. revert len. induction n as [|n IH]; intros len He Hl; cbn [unrolled]; [exists len, false; split_and!; [done|lia|lia|done]|].
  destruct (lookup_lt_is_Some_2 inp (ref + S len) ltac:(lia)) as [a Ha]. destruct (lookup_lt_is_Some_2 inp (ip + S len) ltac:(lia)) as [b Hb].
  rewrite Ha, Hb. cbn [mbind option_bind]. destruct (Z.eqb_spec a b) as [->|Hne]; [|exists (S len), true; split_and!; [done|lia|done|lia]].
  destruct (IH (S len)) as (r & stopped & -> & H1 & H2); [apply equal_for_S; [done|lia|congruence]|lia|]. exists r, stopped. split; [done|]. split; [lia|].
  destruct stopped; [destruct H2; split; [done|lia]|destruct H2; split; [lia|done]].
Qed.

Lemma match_length_ok inp ref ip maxlen : (ref < ip)%nat -> equal_for inp ref ip 3 -> (ip + maxlen + 2 <= length inp)%nat -> (1 <= maxlen <= kMaxRef)%nat ->
  exists len, match_length inp ref ip maxlen = Some len /\ equal_for inp ref ip len /\ (3 <= len <= kMaxRef)%nat.
Proof.
  unfold kMaxRef. intros Href He Hm Hmax. unfold match_length. destruct (Nat.ltb_spec 16 maxlen) as [Hlong|Hshort].
  - destruct (unrolled_ok inp ref ip 16 2 Href He ltac:(lia)) as (r & stopped & -> & H1 & H2). cbn [mbind option_bind].
    destruct stopped; [destruct H2 as [H2 H3]; exists r; split_and!; [done|done|lia|lia]|]. destruct H2 as [-> H2].
    destruct (guarded_ok inp ref ip maxlen (S maxlen) (2 + 16) Href H2 Hm ltac:(lia) ltac:(lia)) as (r & -> & H3 & H4 & H5). exists r. split_and!; [done|done|lia|lia].
  - cbn [mbind option_bind]. destruct (guarded_ok inp ref ip maxlen (S maxlen) 2 Href He Hm ltac:(lia) ltac:(lia)) as (r & -> & H3 & H4 & H5).
    exists r. split_and!; [done|done|lia|lia].
Qed.

Lemma candidate_ok inp ref ip : (ip + 2 < length inp)%nat -> exists c, candidate inp ref ip = Some c /\
  match c with Some off => (0 < ref < ip)%nat /\ off = (ip - ref - 1)%nat /\ Z.of_nat off < 8192 /\ equal_for inp ref ip 3 | None => True end.
Proof.
  intros Hip. unfold candidate, kMaxOff. change (Z.shiftl 1 13) with 8192. destruct (_ && _) eqn:Hc; [|by exists None]. bools. 
  destruct (lookup_lt_is_Some_2 inp (ref + 2) ltac:(lia)) as [r2 Hr2]. destruct (lookup_lt_is_Some_2 inp (ip + 2) ltac:(lia)) as [i2 Hi2].
  destruct (lookup_lt_is_Some_2 inp (ref + 1) ltac:(lia)) as [r1 Hr1]. destruct (lookup_lt_is_Some_2 inp (ip + 1) ltac:(lia)) as [i1 Hi1].
  destruct (lookup_lt_is_Some_2 inp ref ltac:(lia)) as [r0 Hr0]. destruct (lookup_lt_is_Some_2 inp ip ltac:(lia)) as [i0 Hi0].
  rewrite Hr2, Hi2. cbn [mbind option_bind]. destruct (Z.eqb_spec r2 i2) as [->|]; [|by exists None]. cbn [negb].
  rewrite Hr0, Hi0. cbn [mbind option_bind]. destruct (Z.eqb_spec r0 i0) as [->|]; [|by exists None]. cbn [negb].
  rewrite Hr1, Hi1. cbn [mbind option_bind]. destruct (Z.eqb_spec r1 i1) as [->|]; [|by exists None].
  eexists. split; [done|]. split; [lia|]. split; [done|]. split; [lia|]. split; [lia|].
  intros [|[|[|i]]] Hi; [rewrite !Nat.add_0_r; congruence|congruence|congruence|lia].
Qed.

Lemma emit_ok b s : (op s < length (out s))%nat ->
  exists s', emit b s = Some s' /\ ip s' = ip s /\ op s' = S (op s) /\ lit s' = lit s /\ length (out s') = length (out s) /\
    take (op s') (out s') = take (op s) (out s) ++ [u8 b].
Proof.
  intros H. unfold emit. rewrite put_ok by done. eexists. split; [done|]. cbn. rewrite length_insert. split_and!; try done. by apply take_insert_at.
Qed.

(** The two or three bytes of a back reference. *)
Definition reference (off len : nat) : bytes :=
  if (len <? 7)%nat then [Z.of_nat off / 256 + 32 * Z.of_nat len; Z.of_nat off mod 256]
  else [Z.of_nat off / 256 + 224; Z.of_nat len - 7; Z.of_nat off mod 256].

Lemma write_match_ok off len s : Z.of_nat off < 8192 -> (1 <= len < 263)%nat -> (op s + 3 <= length (out s))%nat ->
  exists s', write_match off len s = Some s' /\ ip s' = ip s /\ lit s' = lit s /\ (op s < op s' <= op s + 3)%nat /\ length (out s') = length (out s) /\
    take (op s') (out s') = take (op s) (out s) ++ reference off len.
Proof.
  intros Ho Hl Hop. unfold write_match, reference. rewrite shiftr_div, !shiftl_mul by lia. change (2 ^ 8) with 256. change (2 ^ 5) with 32.
  destruct (Nat.ltb_spec len 7) as [Hs|Hs].
  - destruct (emit_ok (Z.of_nat off / 256 + Z.of_nat len * 32) s ltac:(lia)) as (s1 & -> & I1 & O1 & L1 & N1 & T1). cbn [mbind option_bind].
    destruct (emit_ok (Z.of_nat off) s1 ltac:(lia)) as (s2 & -> & I2 & O2 & L2 & N2 & T2). exists s2. split; [done|].
    split_and!; try (congruence || lia). rewrite T2, T1, <- app_assoc. f_equal. cbn [app]. f_equal.
    rewrite uwrap_small; [lia|]. unfold u_range. dmlia.
  - destruct (emit_ok (Z.of_nat off / 256 + 7 * 32) s ltac:(lia)) as (s1 & -> & I1 & O1 & L1 & N1 & T1). cbn [mbind option_bind].
    destruct (emit_ok (Z.of_nat len - 7) s1 ltac:(lia)) as (s2 & -> & I2 & O2 & L2 & N2 & T2). cbn [mbind option_bind].
    destruct (emit_ok (Z.of_nat off) s2 ltac:(lia)) as (s3 & -> & I3 & O3 & L3 & N3 & T3). exists s3. split; [done|].
    split_and!; try (congruence || lia). rewrite T3, T2, T1, <- !app_assoc. f_equal. cbn [app]. f_equal; [|f_equal].
    + rewrite uwrap_small; [lia|]. unfold u_range. dmlia.
    + rewrite uwrap_small; [lia|]. unfold u_range. lia.
Qed.

Lemma reference_decodes inp ref p len : (ref < p)%nat -> Z.of_nat (p - ref - 1) < 8192 -> (1 <= len < 263)%nat -> equal_for inp ref p (len + 2) ->
  decodes (reference (p - ref - 1) len) (take p inp) (take (p + (len + 2)) inp).
Proof.
  intros Href Ho Hl [He1 He2]. assert (length (take p inp) = p) as Hp by (rewrite length_take; lia).
  pose proof (repeat_from_take (len + 2) inp p ref Href He1 He2) as Hr. unfold reference. destruct (Nat.ltb_spec len 7).
  - eapply decodes_short; [lia|done|rewrite Hp; lia| |apply decodes_nil]. rewrite Hp, Nat2Z.id. by replace (p - (p - ref - 1) - 1)%nat with ref by lia.
  - eapply decodes_long; [lia|done|rewrite Hp; lia| |apply decodes_nil]. rewrite Hp, Nat2Z.id. by replace (p - (p - ref - 1) - 1)%nat with ref by lia.
Qed.

(** Closing the run before a reference takes an unused control byte back. *)
Lemma close_before inp out_len s : inv inp out_len s -> (op s - (if (lit s =? 0)%nat then 1 else 0) + 3 + 1 < out_len)%nat ->
  exists s', close_run s = Some s' /\ ip s' = ip s /\ lit s' = lit s /\ op s' = op s /\ length (out s') = out_len /\
    decodes (take (op s - (if (lit s =? 0)%nat then 1 else 0)) (out s')) [] (take (ip s) inp).
Proof.
  intros [H1 H2 H3 H4 H5 H6 H7] Hroom. unfold close_run. rewrite put_ok by (destruct (Nat.eqb_spec (lit s) 0); lia). eexists. split; [done|]. cbn.
  rewrite length_insert. split_and!; try done. destruct (Nat.eqb_spec (lit s) 0) as [Hz|Hz].
  - rewrite Hz, !Nat.sub_0_r in *. by rewrite take_insert_ge by lia.
  - rewrite Nat.sub_0_r. replace (op s) with (op s - lit s - 1 + 1 + lit s)%nat at 1 by lia. replace (ip s) with (ip s - lit s + lit s)%nat by lia.
    apply closed_run; [lia|lia|done|lia|]. by replace (op s - lit s - 1 + 1)%nat with (op s - lit s)%nat by lia.
Qed.

Lemma reindex_ok inp s : (2 <= ip s)%nat -> (ip s + 1 < length inp)%nat ->
  exists htab h, reindex inp s = Some (mk htab (ip s) (op s) (lit s) (out s), h).
Proof.
  intros H1 H2. unfold reindex.
  destruct (lookup_lt_is_Some_2 inp (ip s - 2) ltac:(lia)) as [b0 ->]. destruct (lookup_lt_is_Some_2 inp (ip s - 2 + 1) ltac:(lia)) as [b1 ->].
  destruct (lookup_lt_is_Some_2 inp (ip s - 2 + 2) ltac:(lia)) as [b2 ->]. destruct (lookup_lt_is_Some_2 inp (ip s - 2 + 3) ltac:(lia)) as [b3 ->].
  by do 2 eexists.
Qed.

Definition progresses (inp : bytes) (out_len : nat) (s : state) (f : flow) : Prop :=
  match f with
  | Next s' _ => inv inp out_len s' /\ (ip s < ip s')%nat
  | Broke s' => inv inp out_len s' /\ (length inp - 2 <= ip s')%nat
  | Full => True
  end.

Lemma match_turn_ok inp out_len ref s : inv inp out_len s -> (ip s + 2 < length inp)%nat -> (0 < ref < ip s)%nat ->
  Z.of_nat (ip s - ref - 1) < 8192 -> equal_for inp ref (ip s) 3 ->
  exists f, match_turn inp out_len ref (ip s - ref - 1) s = Some f /\ progresses inp out_len s f.
Proof.
  intros Hinv Hip Href Ho He. unfold match_turn. destruct (_ && _) eqn:Hc; [by exists Full|].
  assert (op s - (if (lit s =? 0)%nat then 1 else 0) + 3 + 1 < out_len)%nat as Hroom by (apply andb_false_iff in Hc as [Hc|Hc]; apply Nat.leb_gt in Hc; destruct (lit s =? 0)%nat; lia).
  destruct (close_before inp out_len s Hinv Hroom) as (s1 & -> & I1 & L1 & O1 & N1 & D1). cbn [mbind option_bind]. rewrite L1.
  set (maxlen := if (kMaxRef <? length inp - ip s - 2)%nat then kMaxRef else (length inp - ip s - 2)%nat).
  assert (1 <= maxlen <= kMaxRef /\ ip s + maxlen + 2 <= length inp)%nat as [Hmax1 Hmax2].
  { unfold maxlen. destruct (Nat.ltb_spec kMaxRef (length inp - ip s - 2)); unfold kMaxRef in *; lia. }
  destruct (match_length_ok inp ref (ip s) maxlen ltac:(lia) He Hmax2 Hmax1) as (len & Hml & He' & Hlen). unfold kMaxRef in Hlen.
  set (s2 := if (lit s =? 0)%nat then mk (htab s1) (ip s1) (op s1 - 1) 0 (out s1) else s1).
  assert (ip s2 = ip s /\ length (out s2) = out_len /\ op s2 = (op s - (if (lit s =? 0)%nat then 1 else 0))%nat /\ out s2 = out s1) as (I2 & N2 & O2 & U2).
  { unfold s2. destruct (lit s =? 0)%nat; cbn; split_and!; try done; lia. }
  replace (if (lit s =? 0)%nat then mk (htab s1) (ip s1) (op s1 - 1) (lit s) (out s1) else s1) with s2
    by (unfold s2; destruct (Nat.eqb_spec (lit s) 0) as [->|]; done).
  rewrite I2, Hml. cbn [mbind option_bind].
  destruct (write_match_ok (ip s - ref - 1) (len - 2) s2 Ho ltac:(lia) ltac:(lia)) as (s3 & -> & I3 & L3 & O3 & N3 & T3). cbn [mbind option_bind ip op lit out htab].
  rewrite I3, I2. replace (ip s + 1 + (len - 2 + 1))%nat with (ip s + len)%nat by lia. destruct He' as [He1 He2].
  assert (inv inp out_len (mk (htab s3) (ip s + len) (S (op s3)) 0 (out s3))) as Hinv'.
  { split; cbn [lit ip op out htab]; try (done || lia || (cbn; lia)); [unfold kMaxLit; lia|].
    replace (S (op s3) - 0 - 1)%nat with (op s3) by lia. rewrite T3, U2, O2, Nat.sub_0_r. eapply decodes_app; [exact D1|].
      replace len with (len - 2 + 2)%nat at 2 by lia. apply reference_decodes; [lia|done|lia|]. split; [lia|]. intros i Hi. apply He2. lia. }
  destruct (Nat.leb_spec (length inp - 2) (ip s + len)) as [Hend|Hmore]; [eexists; split; [done|]; by split|].
  destruct (reindex_ok inp (mk (htab s3) (ip s + len) (S (op s3)) 0 (out s3))) as (ht & h & ->); cbn [ip]; [lia|lia|].
  cbn [mbind option_bind]. eexists. split; [done|]. split; cbn [ip]; [|lia]. destruct Hinv'; by split.
Qed.

Lemma inv_htab inp out_len s ht : inv inp out_len s -> inv inp out_len (mk ht (ip s) (op s) (lit s) (out s)).
Proof. intros []. by split. Qed.

Lemma turn_ok inp out_len s h : bytes_ok inp -> inv inp out_len s -> (ip s + 2 < length inp)%nat ->
  exists f, turn inp out_len s h = Some f /\ progresses inp out_len s f.
Proof.
  intros Hok Hinv Hip. unfold turn. destruct (lookup_lt_is_Some_2 inp (ip s + 2) Hip) as [p2 ->]. cbn [mbind option_bind].
  set (ref := slot (htab s) _). set (s1 := mk _ (ip s) (op s) (lit s) (out s)). assert (inv inp out_len s1) as Hinv1 by by apply inv_htab.
  assert (ip s1 = ip s) as Hip1 by done. rewrite <- Hip1 in Hip. destruct (candidate_ok inp ref (ip s1) Hip) as (c & -> & Hc). cbn [mbind option_bind]. destruct c as [off|].
  - destruct Hc as (Hr & -> & Ho & He). destruct (match_turn_ok inp out_len ref s1 Hinv1 Hip Hr Ho He) as (f & -> & Hf). by exists f.
  - destruct (Nat.leb_spec out_len (op s1)); [by exists Full|].
    destruct (literal_ok inp out_len s1 Hok Hinv1 ltac:(lia) ltac:(lia)) as (s2 & -> & H2 & I2 & _). cbn [mbind option_bind]. eexists. split; [done|].
    split; [done|]. lia.
Qed.

Lemma compress_loop_ok inp out_len fuel s h : bytes_ok inp -> inv inp out_len s -> (2 < length inp)%nat -> (length inp <= ip s + fuel)%nat ->
  exists r, compress_loop fuel inp out_len s h = Some r /\
    match r with Some s' => inv inp out_len s' /\ (length inp - 2 <= ip s')%nat | None => True end.
Proof.
  intros Hok. revert s h. induction fuel as [|fuel IH]; intros s h Hinv Hlen Hf; cbn [compress_loop]; destruct (Nat.ltb_spec (ip s) (length inp - 2)) as [Hlt|Hge];
    try (by eexists; split; [done|]); [lia|].
  destruct (turn_ok inp out_len s h Hok Hinv ltac:(lia)) as (f & -> & Hp). cbn [mbind option_bind]. destruct f as [s' h'|s'|]; [|by eexists|by eexists].
  destruct Hp as [Hp1 Hp2]. apply IH; [done|done|lia].
Qed.

(** At most three more bytes: two literals and a control byte. *)
Lemma tail_loop_ok inp out_len fuel s : bytes_ok inp -> inv inp out_len s -> (length inp <= ip s + fuel)%nat ->
  (op s + (length inp - ip s) + (if (kMaxLit <=? lit s + (length inp - ip s))%nat then 1 else 0) <= out_len)%nat -> (length inp - ip s <= 2)%nat ->
  exists s', tail_loop fuel inp s = Some s' /\ inv inp out_len s' /\ ip s' = length inp /\ (op s' <= out_len)%nat.
Proof.
  intros Hok. revert s. induction fuel as [|fuel IH]; intros s Hinv Hf Hroom Htwo; cbn [tail_loop]; destruct (Nat.ltb_spec (ip s) (length inp)) as [Hlt|Hge].
  1: lia.
  1,3: exists s; destruct Hinv as [H1 H2 H3 H4 H5 H6 H7]; split; [done|]; split; [by split|]; split; [lia|]; destruct (_ <=? _)%nat; lia.
  destruct (literal_ok inp out_len s Hok Hinv Hlt) as (s' & -> & Hinv' & I' & Hc); [destruct (_ <=? _)%nat in Hroom; lia|]. cbn [mbind option_bind].
  apply IH; [done|lia| |lia]. rewrite I'. unfold kMaxLit in *.
  destruct (Nat.eqb_spec (S (lit s)) 32) as [Hfull|Hfull]; destruct Hc as [-> ->].
  - rewrite (proj2 (Nat.leb_le 32 _)) in Hroom by lia. rewrite (proj2 (Nat.leb_gt _ _)) by lia. lia.
  - replace (S (lit s) + (length inp - S (ip s)))%nat with (lit s + (length inp - ip s))%nat by lia. destruct (_ <=? _)%nat in *; lia.
Qed.

Lemma close_last inp out_len s : inv inp out_len s -> ip s = length inp -> (op s <= out_len)%nat ->
  exists s', close_run s = Some s' /\ lit s' = lit s /\ op s' = op s /\ length (out s') = out_len /\
    decodes (take (op s - (if (lit s =? 0)%nat then 1 else 0)) (out s')) [] inp.
Proof.
  intros [H1 H2 H3 H4 H5 H6 H7] Hip Hroom. unfold close_run. rewrite put_ok by lia. eexists. split; [done|]. cbn. rewrite length_insert. split_and!; try done.
  destruct (Nat.eqb_spec (lit s) 0) as [Hz|Hz].
  - rewrite Hz, !Nat.sub_0_r, Hip, firstn_all in *. by rewrite take_insert_ge by lia.
  - rewrite Nat.sub_0_r. replace inp with (take (ip s - lit s + lit s) inp) by (apply firstn_all2; lia).
    replace (op s) with (op s - lit s - 1 + 1 + lit s)%nat at 1 by lia.
    apply closed_run; [lia|lia|done|lia|]. by replace (op s - lit s - 1 + 1)%nat with (op s - lit s)%nat by lia.
Qed.

Lemma start_inv inp out_len : inv inp out_len (mk ∅ 0 1 0 (replicate out_len 0)).
Proof. split; cbn; try (lia || done || by rewrite length_replicate); [unfold kMaxLit; lia|constructor]. Qed.

Lemma short_ok inp out_len : bytes_ok inp -> (0 < length inp <= 2)%nat -> (0 < out_len)%nat ->
  exists r, short_loop 2 inp out_len (mk ∅ 0 1 0 (replicate out_len 0)) = Some r /\
    match r with Some s => inv inp out_len s /\ ip s = length inp /\ (op s <= out_len)%nat /\ lit s <> 0%nat | None => True end.
Proof.
  intros Hok Hl Ho. assert (length (replicate out_len 0) = out_len) as Hr by apply length_replicate.
  assert (Forall is_byte inp) as Hb by done. rewrite Forall_lookup in Hb.
  assert (forall s, inv inp out_len s -> (ip s < length inp)%nat -> (op s < out_len)%nat -> (S (lit s) < kMaxLit)%nat -> exists b o,
    inp !! ip s = Some b /\ put (out s) (op s) b = Some o /\ inv inp out_len (mk (htab s) (S (ip s)) (S (op s)) (S (lit s)) o)) as Hstep.
  { intros s Hs H1 H2 H3. destruct (literal_ok inp out_len s Hok Hs H1 H2) as (s' & Hlit & Hs' & _). unfold literal in Hlit.
    destruct (inp !! ip s) as [b|]; [|done]. cbn [mbind option_bind] in Hlit. destruct (put (out s) (op s) b) as [o|] eqn:Hp; [|done]. cbn [mbind option_bind lit] in Hlit.
    rewrite (proj2 (Nat.eqb_neq _ _)) in Hlit by lia. injection Hlit as <-. by exists b, o. }
  cbn [short_loop ip op lit out htab]. rewrite (proj2 (Nat.ltb_lt 0 (length inp))) by lia. destruct (Nat.leb_spec out_len 1); [by exists None|].
  destruct (Hstep _ (start_inv inp out_len)) as (b & o & Hb0 & Hp & Hi); cbn [ip op lit]; [lia|lia|unfold kMaxLit; lia|]. cbn [ip op lit out htab] in Hb0, Hp, Hi.
  rewrite Hb0. cbn [mbind option_bind]. rewrite Hp. cbn [mbind option_bind ip op lit out htab]. destruct (Nat.ltb_spec 1 (length inp)) as [H2|H2].
  2:{ eexists. split; [done|]. split; [exact Hi|]. cbn. lia. }
  destruct (Nat.leb_spec out_len 2); [by exists None|].
  destruct (Hstep _ Hi) as (b' & o' & Hb1 & Hp' & Hi'); cbn [ip op lit]; [lia|lia|unfold kMaxLit; lia|]. cbn [ip op lit out htab] in Hb1, Hp', Hi'.
  rewrite Hb1. cbn [mbind option_bind]. rewrite Hp'. cbn [mbind option_bind ip op lit out htab]. rewrite (proj2 (Nat.ltb_ge 2 (length inp))) by lia.
  eexists. split; [done|]. split; [exact Hi'|]. cbn. lia.
Qed.

(** The compressor stays inside its buffers and ends; what it wrote stands for
    its input. *)
Lemma lzfCompress_ok inp out_len : bytes_ok inp -> exists n o, lzfCompress inp out_len = Some (n, o) /\ (n <= out_len)%nat /\ length o = out_len /\
  (n <> 0%nat -> decodes (take n o) [] inp).
Proof.
  intros Hok. unfold lzfCompress. destruct (Nat.eqb_spec (length inp) 0) as [H0|H0]; cbn [orb]; [do 2 eexists; split; [done|]; split; [lia|split; [apply length_replicate|done]]|].
  destruct (Nat.eqb_spec out_len 0) as [->|Ho]; [do 2 eexists; split; [done|]; split; [lia|split; [apply length_replicate|done]]|].
  destruct (Nat.leb_spec (length inp) 2) as [Hs|Hl].
  - destruct (short_ok inp out_len Hok ltac:(lia) ltac:(lia)) as (r & -> & Hr). cbn [mbind option_bind]. destruct r as [s|]; [|do 2 eexists; split; [done|]; split; [lia|split; [apply length_replicate|done]]].
    destruct Hr as (Hinv & Hip & Hop & Hlit). destruct (close_last inp out_len s Hinv Hip Hop) as (s' & -> & L' & O' & N' & D'). cbn [mbind option_bind]. do 2 eexists. split; [done|].
    rewrite O'. split; [lia|]. split; [done|]. intros _.
    rewrite (proj2 (Nat.eqb_neq _ _) Hlit), Nat.sub_0_r in D'. exact D'.
  - destruct (lookup_lt_is_Some_2 inp 0 ltac:(lia)) as [b0 ->]. destruct (lookup_lt_is_Some_2 inp 1 ltac:(lia)) as [b1 ->]. cbn [mbind option_bind].
    destruct (compress_loop_ok inp out_len (length inp) (mk ∅ 0 1 0 (replicate out_len 0)) (hashFirst b0 b1) Hok (start_inv _ _) Hl ltac:(cbn; lia)) as (r & -> & Hr).
    cbn [mbind option_bind]. destruct r as [s|]; [|do 2 eexists; split; [done|]; split; [lia|split; [apply length_replicate|done]]]. destruct Hr as [Hinv Hip].
    destruct (Nat.ltb_spec out_len (op s + 3)); [do 2 eexists; split; [done|]; split; [lia|split; [apply length_replicate|done]]|].
    destruct (tail_loop_ok inp out_len (length inp) s Hok Hinv ltac:(lia)) as (s' & -> & Hinv' & Hip' & Hop'); [destruct (_ <=? _)%nat; lia|lia|]. cbn [mbind option_bind].
    destruct (close_last inp out_len s' Hinv' Hip' Hop') as (s2 & -> & L2 & O2 & N2 & D2). cbn [mbind option_bind]. rewrite L2.
    destruct (Nat.eqb_spec (lit s') 0) as [Hz|Hz]; do 2 eexists; (split; [done|]); cbn [op out]; rewrite O2; (split; [lia|]); (split; [done|]); intros _; [exact D2|by rewrite Nat.sub_0_r in D2].
Qed.

(** ** Hostile input *)

Lemma copy_safe n acc cap ref : (ref < length acc)%nat -> (length acc + n <= cap)%nat ->
  exists acc', copy n acc cap ref = Some acc' /\ length acc' = (length acc + n)%nat.
Proof.
  revert acc ref. induction n as [|n IH]; intros acc ref Hr Hc; cbn [copy]; [exists acc; split; [done|lia]|]. unfold copy_byte.
  destruct (lookup_lt_is_Some_2 acc ref Hr) as [b ->]. cbn [mbind option_bind]. rewrite (proj2 (Nat.ltb_lt _ _)) by lia. cbn [mbind option_bind].
  destruct (IH (acc ++ [b]) (S ref)) as (acc' & -> & Hl); rewrite ?length_app in *; cbn [length] in *; [lia|lia|]. exists acc'. split; [done|]. lia.
Qed.

Lemma decompress_safe fuel inp cap acc : bytes_ok inp -> (length inp <= fuel)%nat -> (length acc <= cap)%nat ->
  exists n acc', decompress_loop fuel inp cap acc = Some (n, acc') /\ (n <= cap)%nat.
Proof.
  revert inp acc. induction fuel as [|fuel IH]; intros inp acc Hok Hf Hc; (destruct inp as [|ctrl inp]; [by do 2 eexists|]); cbn [length] in Hf; [lia|].
  cbn [decompress_loop]. apply Forall_cons_1 in Hok as [Hctrl Hok]. unfold u_range in Hctrl. destruct (Z.ltb_spec ctrl 32) as [Hs|Hs].
  - destruct (Nat.ltb_spec cap (length acc + S (Z.to_nat ctrl))); [do 2 eexists; split; [done|lia]|].
    destruct (Nat.ltb_spec (length inp) (S (Z.to_nat ctrl))); [do 2 eexists; split; [done|lia]|].
    apply IH; [by apply Forall_drop|rewrite length_drop; lia|rewrite length_app, length_take; lia].
  - assert (forall len b rest, bytes_ok (b :: rest) -> (length rest <= fuel)%nat -> exists n acc',
      (if (cap <? length acc + len + 2)%nat then Some (0%nat, acc)
       else if Z.of_nat (length acc) - Z.shiftl (Z.land ctrl 31) 8 - 1 - b <? 0 then Some (0%nat, acc)
       else acc ← copy (len + 2) acc cap (Z.to_nat (Z.of_nat (length acc) - Z.shiftl (Z.land ctrl 31) 8 - 1 - b)); decompress_loop fuel rest cap acc) = Some (n, acc') /\
      (n <= cap)%nat) as Hfin.
    { intros len b rest Hb Hrest. apply Forall_cons_1 in Hb as [Hb Hrok]. unfold u_range in Hb. destruct (Nat.ltb_spec cap (length acc + len + 2)); [do 2 eexists; split; [done|lia]|].
      assert (0 <= Z.shiftl (Z.land ctrl 31) 8) by (apply Z.shiftl_nonneg; apply (proj2 (Z.land_nonneg ctrl 31)); lia).
      destruct (Z.ltb_spec (Z.of_nat (length acc) - Z.shiftl (Z.land ctrl 31) 8 - 1 - b) 0); [do 2 eexists; split; [done|lia]|].
      destruct (copy_safe (len + 2) acc cap (Z.to_nat (Z.of_nat (length acc) - Z.shiftl (Z.land ctrl 31) 8 - 1 - b)) ltac:(lia) ltac:(lia)) as (acc' & -> & Hl).
      cbn [mbind option_bind]. apply IH; [done|done|lia]. }
    destruct inp as [|b rest]; [do 2 eexists; split; [done|lia]|]. cbn [length] in Hf. destruct (Nat.eqb_spec (Z.to_nat (Z.shiftr ctrl 5)) 7).
    + destruct rest as [|b2 rest]; [do 2 eexists; split; [done|lia]|]. apply Forall_cons_1 in Hok as [_ Hok]. cbn [length] in Hf. apply Hfin; [done|lia].
    + apply Hfin; [done|lia].
Qed.

(** C16: Compression is safe and lossless: for any input and any room, the
    compressor ends without reading or writing outside its buffers and returns
    no more than the room it was given; when it returns a size, decompressing
    that many bytes gives the input back. And the decompressor, given any bytes
    at all, ends without leaving its buffers. *)
Theorem lzf_round_trip (inp : bytes) (out_len : nat) : bytes_ok inp ->
  (exists n out, lzfCompress inp out_len = Some (n, out) /\ (n <= out_len)%nat /\
     (n <> 0%nat -> lzfDecompress (take n out) (length inp) = Some (length inp, inp))) /\
  exists n out, lzfDecompress inp out_len = Some (n, out) /\ (n <= out_len)%nat.
Proof.
  intros Hok. split.
  - destruct (lzfCompress_ok inp out_len Hok) as (n & o & Hc & Hn & _ & Hd). exists n, o. split; [done|]. split; [done|].
    intros H0. apply decompress_decodes; [by apply Hd|done|done].
  - apply decompress_safe; [done|done|cbn; lia].
Qed.

Lemma lzf_round_trip_witness :
  exists n out, lzfCompress (replicate 24 97) 20 = Some (n, out) /\ (n <> 0%nat -> lzfDecompress (take n out) 24 = Some (24%nat, replicate 24 97)).
Proof.
  destruct (lzf_round_trip (replicate 24 97) 20) as [(n & o & H1 & _ & H2) _].
  - apply Forall_replicate. unfold u_range. lia.
  - exists n, o. split; [exact H1|]. rewrite length_replicate in H2. exact H2.
Defined.
End Lzf.
