(* ===== verification/Rdb.v ===== *)
(** * Rdb: the primitives of the snapshot format

    [src/persist/rdb.cpp]: the checksum, the variable-width lengths, the three
    encodings of a string and the bounds-checked [Reader]. A read yields its
    value and the reader past it, is refused, or does not return normally
    ([Thrown]): a string or a vector is first allocated at the size the bytes
    announce, and [std::string] throws when that much cannot be had. *)

From Stdlib Require Import ZArith Lia.
From stdpp Require Import base list numbers option.
From S2P Require Import Prelude Encoding Lzf.

Module Rdb.

Definition kRdbVersion : Z := 15.

Definition k6BitLen : Z := 0.
Definition k14BitLen : Z := 1.
Definition kEncVal : Z := 3.
Definition k32BitLen : Z := 128.
Definition k64BitLen : Z := 129.

Definition kEncInt8 : Z := 0.
Definition kEncInt16 : Z := 1.
Definition kEncInt32 : Z := 2.
Definition kEncLzf : Z := 3.

(** ** CRC-64/Jones *)

Definition kCrcPolyReflected : Z := 0x95ac9329ac4bc9b5.

(** [(crc >> 1) ^ (poly & ~((crc & 1) - 1))] on 64 bits. *)
Definition crc_bit (crc : Z) : Z :=
  Z.lxor (Z.shiftr crc 1) (Z.land kCrcPolyReflected (u64 (Z.lnot (u64 (Z.land crc 1 - 1))))).

Definition crcTable : list Z := map (fun i => Nat.iter 8 crc_bit (Z.of_nat i)) (seq 0 256).
Definition kCrcTable : list Z := Eval vm_compute in crcTable.

Definition crc_step (crc b : Z) : Z := Z.lxor (kCrcTable !!! Z.to_nat (Z.land (Z.lxor crc b) 255)) (Z.shiftr crc 8).
Definition crc64 (crc : Z) (data : bytes) : Z := foldl crc_step crc data.

Example crc64_check : crc64 0 [49; 50; 51; 52; 53; 54; 55; 56; 57] = 0xe9c6d914c4b8d9ca.
Proof. vm_compute. reflexivity. Qed.

(** The register stays within 64 bits, and a step is injective both in the
    register and in the byte: the top bytes of the table are all different. *)
Lemma table_u64 i : is_u64 (kCrcTable !!! i).
Proof.
  assert (Forall is_u64 kCrcTable) as H by (apply (bool_decide_unpack _); vm_compute; done).
  rewrite list_lookup_total_alt. destruct (kCrcTable !! i) as [t|] eqn:Ht; [by eapply Forall_lookup_1|done].
Qed.

Lemma table_tops i j : (i < 256)%nat -> (j < 256)%nat -> Z.shiftr (kCrcTable !!! i) 56 = Z.shiftr (kCrcTable !!! j) 56 -> i = j.
Proof.
  intros Hi Hj H. assert (NoDup (map (fun t => Z.shiftr t 56) kCrcTable)) as Hn by (apply (bool_decide_unpack _); vm_compute; done).
  assert (forall k, (k < 256)%nat -> map (fun t => Z.shiftr t 56) kCrcTable !! k = Some (Z.shiftr (kCrcTable !!! k) 56)) as Hk.
  { intros k Hk. rewrite list_lookup_fmap, list_lookup_total_alt. destruct (kCrcTable !! k) eqn:E; [done|]. apply lookup_ge_None_1 in E. assert (length kCrcTable = 256%nat) by done. lia. }
  pose proof (Hk i Hi) as H1. pose proof (Hk j Hj) as H2. rewrite H in H1. exact (NoDup_lookup _ _ _ _ Hn H1 H2).
Qed.

Lemma high_bits z n : is_u64 z -> 64 <= n -> Z.shiftr z n = 0.
Proof. unfold u_range. intros Hz Hn. rewrite Z.shiftr_div_pow2 by lia. apply Z.div_small. split; [lia|]. pose proof (Z.pow_le_mono_r 2 64 n). lia. Qed.

Lemma crc_step_range crc b : is_u64 crc -> is_u64 (crc_step crc b).
Proof.
  intros Hc. pose proof (table_u64 (Z.to_nat (Z.land (Z.lxor crc b) 255))) as Ht. unfold crc_step. revert Ht. generalize (kCrcTable !!! Z.to_nat (Z.land (Z.lxor crc b) 255)). intros t Ht.
  assert (0 <= Z.lxor t (Z.shiftr crc 8)) as Hnn by (apply Z.lxor_nonneg; split; intros _; [apply Z.shiftr_nonneg|]; unfold u_range in *; lia).
  assert (Z.shiftr (Z.lxor t (Z.shiftr crc 8)) 64 = 0) as H0.
  { rewrite Z.shiftr_lxor, (high_bits t 64), Z.shiftr_shiftr, (high_bits crc (8 + 64)) by (done || lia). done. }
  rewrite Z.shiftr_div_pow2 in H0 by lia. apply Z.div_small_iff in H0; [|lia]. unfold u_range. lia.
Qed.

Lemma crc64_range data : forall crc, is_u64 crc -> is_u64 (crc64 crc data).
Proof. induction data as [|b data IH]; intros crc Hc; [done|]. apply IH. by apply crc_step_range. Qed.

Lemma crc_step_inj c1 c2 b1 b2 : is_u64 c1 -> is_u64 c2 -> crc_step c1 b1 = crc_step c2 b2 ->
  Z.land (Z.lxor c1 b1) 255 = Z.land (Z.lxor c2 b2) 255 /\ Z.shiftr c1 8 = Z.shiftr c2 8.
Proof.
  unfold crc_step. intros H1 H2 H. assert (forall z, 0 <= Z.land z 255 < 256) as Hl by (intros z; change 255 with (Z.ones 8); rewrite Z.land_ones by lia; apply Z.mod_pos_bound; lia).
  assert (Z.land (Z.lxor c1 b1) 255 = Z.land (Z.lxor c2 b2) 255) as E.
  { pose proof (Hl (Z.lxor c1 b1)). pose proof (Hl (Z.lxor c2 b2)). apply Z2Nat.inj; [lia|lia|]. apply table_tops; [lia|lia|].
    apply (f_equal (fun z => Z.shiftr z 56)) in H. rewrite !Z.shiftr_lxor, !Z.shiftr_shiftr, (high_bits c1), (high_bits c2), !Z.lxor_0_r in H by (done || lia). exact H. }
  split; [done|]. rewrite E in H. apply (f_equal (Z.lxor (kCrcTable !!! Z.to_nat (Z.land (Z.lxor c2 b2) 255)))) in H.
  by rewrite <- !Z.lxor_assoc, !Z.lxor_nilpotent, !Z.lxor_0_l in H.
Qed.

Lemma land_lxor a b c : Z.land (Z.lxor a b) c = Z.lxor (Z.land a c) (Z.land b c).
Proof. apply Z.bits_inj'. intros n _. rewrite !Z.land_spec, !Z.lxor_spec, !Z.land_spec. by destruct (Z.testbit a n), (Z.testbit b n), (Z.testbit c n). Qed.

Lemma crc_step_byte c b1 b2 : is_u64 c -> is_byte b1 -> is_byte b2 -> crc_step c b1 = crc_step c b2 -> b1 = b2.
Proof.
  intros Hc H1 H2 H. apply crc_step_inj in H as [H _]; [|done|done]. rewrite !land_lxor in H.
  apply (f_equal (Z.lxor (Z.land c 255))) in H. rewrite <- !Z.lxor_assoc, !Z.lxor_nilpotent, !Z.lxor_0_l in H.
  rewrite !land_255, !Z.mod_small in H by (unfold u_range in *; lia). done.
Qed.

Lemma crc_step_register c1 c2 b : is_u64 c1 -> is_u64 c2 -> crc_step c1 b = crc_step c2 b -> c1 = c2.
Proof.
  intros H1 H2 H. apply crc_step_inj in H as [H Hs]; [|done|done]. rewrite !land_lxor in H.
  apply (f_equal (fun z => Z.lxor z (Z.land b 255))) in H. rewrite !Z.lxor_assoc, !Z.lxor_nilpotent, !Z.lxor_0_r in H.
  rewrite !land_255 in H. rewrite !Z.shiftr_div_pow2 in Hs by lia. change (2 ^ 8) with 256 in Hs. rewrite (Z.div_mod c1 256), (Z.div_mod c2 256) by lia. congruence.
Qed.

Lemma crc64_register data : forall c1 c2, is_u64 c1 -> is_u64 c2 -> crc64 c1 data = crc64 c2 data -> c1 = c2.
Proof.
  induction data as [|b data IH]; intros c1 c2 H1 H2 H; [done|]. cbn in H. apply (crc_step_register c1 c2 b H1 H2). apply IH; [by apply crc_step_range..|exact H].
Qed.

(** Two inputs that differ in one byte have different checksums. *)
Lemma crc64_one_byte A b1 b2 B : is_byte b1 -> is_byte b2 -> crc64 0 (A ++ b1 :: B) = crc64 0 (A ++ b2 :: B) -> b1 = b2.
Proof.
  intros H1 H2 H. unfold crc64 in H. rewrite !foldl_app in H. cbn [foldl] in H. change (foldl crc_step ?c ?l) with (crc64 c l) in H.
  assert (is_u64 (crc64 0 A)) as Hc by by apply crc64_range. apply (crc_step_byte (crc64 0 A)); [done..|].
  apply (crc64_register B); [by apply crc_step_range..|exact H].
Qed.

(** ** Writing *)

(** [for (shift = 8 * (n - 1); shift >= 0; shift -= 8) push_back((v >> shift) & 0xFF)] *)
Definition push_be (n : nat) (v : Z) : bytes := rev (push_le n v).

Definition saveLen (len : Z) : bytes :=
  if len <? 64 then [u8 (Z.lor (Z.shiftl k6BitLen 6) len)]
  else if len <? 16384 then [u8 (Z.lor (Z.shiftl k14BitLen 6) (Z.land (Z.shiftr len 8) 63)); u8 (Z.land len 255)]
  else if len <=? 0xFFFFFFFF then k32BitLen :: push_be 4 len
  else k64BitLen :: push_be 8 len.

Definition size (s : bytes) : Z := Z.of_nat (length s).

(** [None]: not an integer of at most 32 bits in its canonical spelling. *)
Definition saveIntegerEncoded (s : bytes) : option bytes :=
  if (length s =? 0)%nat || (11 <? length s)%nat then None
  else
    match stringToInt64 s with
    | None => None
    | Some value =>
        if negb (to_string value =b? s) then None
        else if (-128 <=? value) && (value <=? 127) then Some [Z.lor (Z.shiftl kEncVal 6) kEncInt8; u8 (Z.land value 255)]
        else if (-32768 <=? value) && (value <=? 32767) then Some (Z.lor (Z.shiftl kEncVal 6) kEncInt16 :: push_le 2 value)
        else if (-2147483648 <=? value) && (value <=? 2147483647) then Some (Z.lor (Z.shiftl kEncVal 6) kEncInt32 :: push_le 4 value)
        else None
    end.

(** The outer [None] is the compressor leaving its buffers. *)
Definition saveLzfEncoded (s : bytes) : option (option bytes) :=
  if (length s <=? 4)%nat then Some None
  else
    '(n, compressed) ← Lzf.lzfCompress s (length s - 4);
    if (n =? 0)%nat then Some None
    else Some (Some (Z.lor (Z.shiftl kEncVal 6) kEncLzf :: saveLen (Z.of_nat n) ++ saveLen (size s) ++ take n compressed)).

Definition saveString (s : bytes) : option bytes :=
  match (if (length s <=? 11)%nat then saveIntegerEncoded s else None) with
  | Some out => Some out
  | None =>
      lzf ← (if (20 <? length s)%nat then saveLzfEncoded s else Some None);
      match lzf with
      | Some out => Some out
      | None => Some (saveLen (size s) ++ s)
      end
  end.

(** ** Reading *)

Record reader := mkReader { bytes_ : bytes; pos_ : nat }.

Inductive res (A : Type) := Got (a : A) (r : reader) | Refused | Thrown.
Arguments Got {A}.
Arguments Refused {A}.
Arguments Thrown {A}.

Definition parser (A : Type) : Type := reader -> res A.
#[global] Instance parser_ret : MRet parser := fun A a r => Got a r.
#[global] Instance parser_bind : MBind parser := fun A B k p r =>
  match p r with Got a r => k a r | Refused => Refused | Thrown => Thrown end.
Definition refuse {A} : parser A := fun _ => Refused.
Definition throw {A} : parser A := fun _ => Thrown.
(** [if (!ok) return false] *)
Definition require (ok : bool) : parser unit := if ok then mret tt else refuse.

Definition remaining (r : reader) : nat := length (bytes_ r) - pos_ r.
Definition exhausted (r : reader) : bool := (length (bytes_ r) <=? pos_ r)%nat.

Definition readByte : parser Z := fun r =>
  match bytes_ r !! pos_ r with
  | Some b => Got b (mkReader (bytes_ r) (S (pos_ r)))
  | None => Refused
  end.

(** The next byte, not consumed. *)
Definition peek (r : reader) : option Z := bytes_ r !! pos_ r.

Definition readRaw (n : Z) : parser bytes := fun r =>
  if Z.of_nat (remaining r) <? n then Refused
  else Got (take (Z.to_nat n) (drop (pos_ r) (bytes_ r))) (mkReader (bytes_ r) (pos_ r + Z.to_nat n)).

(** [for (char c : raw) out = (out << 8) | c] on 64 bits. *)
Definition fold_be (raw : bytes) : Z := foldl (fun v c => Z.lor (u64 (Z.shiftl v 8)) c) 0 raw.
(** The same from the last byte to the first. *)
Definition fold_le (raw : bytes) : Z := fold_be (rev raw).

(** A length, or with [true] the tag of an encoding. *)
Definition readLenOrTag : parser (Z * bool) :=
  first ← readByte;
  let kind := Z.shiftr (Z.land first 0xC0) 6 in
  if kind =? k6BitLen then mret (Z.land first 63, false)
  else if kind =? kEncVal then mret (Z.land first 63, true)
  else if kind =? k14BitLen then
    second ← readByte; mret (Z.lor (Z.shiftl (Z.land first 63) 8) second, false)
  else if first =? k32BitLen then raw ← readRaw 4; mret (fold_be raw, false)
  else if first =? k64BitLen then raw ← readRaw 8; mret (fold_be raw, false)
  else refuse.

Definition readLen : parser Z := '(n, encoded) ← readLenOrTag; if encoded : bool then refuse else mret n.

Section Alloc.
(** The largest string or vector that can be allocated, in elements. *)
Context (max_alloc : Z).

Definition allocate (n : Z) : parser unit := if max_alloc <? n then throw else mret tt.

Definition readString : parser bytes :=
  '(len, encoded) ← readLenOrTag;
  if negb encoded then readRaw len
  else if len =? kEncInt8 then b ← readByte; mret (to_string (i8 b))
  else if len =? kEncInt16 then raw ← readRaw 2; mret (to_string (i16 (fold_le raw)))
  else if len =? kEncInt32 then raw ← readRaw 4; mret (to_string (i32 (fold_le raw)))
  else if len =? kEncLzf then
    clen ← readLen; ulen ← readLen; raw ← readRaw clen;
    _ ← allocate ulen;
    if ulen =? 0 then refuse
    else
      match Lzf.lzfDecompress raw (Z.to_nat ulen) with
      | Some (n, out) => if Z.of_nat n =? ulen then mret out else refuse
      | None => throw
      end
  else refuse.
End Alloc.

(** ** What is written can be read *)

Definition advance (n : nat) (r : reader) : reader := mkReader (bytes_ r) (pos_ r + n).

(** What a reader has yet to read. *)
Definition ahead (r : reader) (rest : bytes) : Prop := drop (pos_ r) (bytes_ r) = rest /\ (pos_ r <= length (bytes_ r))%nat.

(** [p] reads exactly [x], wherever it stands, and yields [a]. *)
Definition parses {A} (p : parser A) (x : bytes) (a : A) : Prop :=
  forall r rest, ahead r (x ++ rest) -> p r = Got a (advance (length x) r).

Lemma ahead_advance r x rest : ahead r (x ++ rest) -> ahead (advance (length x) r) rest.
Proof.
  intros [H1 H2]. split; cbn.
  - by rewrite <- drop_drop, H1, drop_app_length.
  - apply (f_equal length) in H1. rewrite length_drop, length_app in H1. lia.
Qed.

Lemma parses_ret {A} (a : A) : parses (mret a) [] a.
Proof. intros r rest _. unfold advance. cbn. rewrite Nat.add_0_r. by destruct r. Qed.

Lemma parses_bind {A B} (p : parser A) (k : A -> parser B) x y a b : parses p x a -> parses (k a) y b -> parses (p ≫= k) (x ++ y) b.
Proof.
  intros Hp Hk r rest Hr. rewrite <- app_assoc in Hr. unfold mbind, parser_bind. rewrite (Hp r _ Hr), (Hk _ rest) by by apply ahead_advance.
  unfold advance. cbn. by rewrite length_app, Nat.add_assoc.
Qed.

Lemma parses_bind_nil {A B} (p : parser A) (k : A -> parser B) y a b : parses p [] a -> parses (k a) y b -> parses (p ≫= k) y b.
Proof. apply (parses_bind p k [] y). Qed.

Lemma parses_bind_ret {A B} (p : parser A) (f : A -> B) x a : parses p x a -> parses (a ← p; mret (f a)) x (f a).
Proof. intros Hp. rewrite <- (app_nil_r x). eapply parses_bind; [exact Hp|apply parses_ret]. Qed.

Lemma parses_byte b : parses readByte [b] b.
Proof.
  intros r rest [H1 H2]. unfold readByte, advance. pose proof (lookup_drop (bytes_ r) (pos_ r) 0) as E. rewrite H1, Nat.add_0_r in E. cbn in E.
  by rewrite <- E, Nat.add_1_r.
Qed.

Lemma parses_raw x n : n = size x -> parses (readRaw n) x x.
Proof.
  unfold size. intros -> r rest [H1 H2]. unfold readRaw, remaining. pose proof (f_equal length H1) as Hl. rewrite length_drop, length_app in Hl.
  rewrite (proj2 (Z.ltb_ge _ _)) by lia. by rewrite Nat2Z.id, H1, take_app_length.
Qed.

Lemma parses_require (b : bool) : b = true -> parses (require b) [] tt.
Proof. intros ->. apply parses_ret. Qed.

(** *** Numbers *)

Lemma fold_be_val raw : bytes_ok raw -> (length raw <= 8)%nat -> fold_be raw = be_val raw.
Proof.
  unfold fold_be, be_val. induction raw as [|c raw IH] using rev_ind; intros Hok Hl; [done|]. rewrite length_app in Hl. cbn [length] in Hl.
  apply Forall_app in Hok as [Hok Hc]. apply Forall_cons_1 in Hc as [Hc _]. rewrite foldl_app, rev_app_distr. cbn [foldl rev app le_val].
  rewrite IH by (done || lia). pose proof (le_val_range (rev raw)) as Hr. rewrite length_rev in Hr. unfold u_range in *.
  assert (0 <= le_val (rev raw) < 2 ^ (8 * Z.of_nat (length raw))) as Hv by (apply Hr; by apply Forall_rev).
  assert (2 ^ (8 * Z.of_nat (length raw)) <= 2 ^ 56) by (apply Z.pow_le_mono_r; lia).
  rewrite uwrap_small; [|unfold u_range; rewrite shiftl_mul by lia; lia]. rewrite Z.lor_comm, lor_shiftl by lia. lia.
Qed.

Lemma fold_be_push n v : (n <= 8)%nat -> 0 <= v < 2 ^ (8 * Z.of_nat n) -> fold_be (push_be n v) = v.
Proof.
  intros Hn Hv. unfold push_be. rewrite push_le_bytes. change (rev (le_bytes n v)) with (be_bytes n v).
  rewrite fold_be_val by (apply be_bytes_ok || (rewrite length_be_bytes; lia)). rewrite be_val_bytes. by apply Z.mod_small.
Qed.

Lemma fold_le_push n v : (n <= 8)%nat -> fold_le (push_le n v) = v mod 2 ^ (8 * Z.of_nat n).
Proof.
  intros Hn. unfold fold_le. rewrite push_le_bytes, fold_be_val; [|apply Forall_rev, le_bytes_ok|by rewrite length_rev, length_le_bytes].
  unfold be_val. by rewrite rev_involutive, le_val_bytes.
Qed.

(** Continuing after a first byte. *)
Lemma parses_after {A} b (k : Z -> parser A) y a : parses (k b) y a -> parses (readByte ≫= k) (b :: y) a.
Proof. intros Hk. change (b :: y) with ([b] ++ y). eapply parses_bind; [apply parses_byte|exact Hk]. Qed.

Lemma short_length b : 0 <= b < 64 ->
  Z.shiftr (Z.land (u8 (Z.lor (Z.shiftl k6BitLen 6) b)) 0xC0) 6 = 0 /\ Z.land (u8 (Z.lor (Z.shiftl k6BitLen 6) b)) 63 = b.
Proof. intros Hb. split; byte_eqb 64%nat b. Qed.

Lemma middle_length b : 0 <= b < 64 -> Z.shiftr (Z.land (u8 (Z.lor (Z.shiftl 1 6) b)) 0xC0) 6 = 1 /\ Z.land (u8 (Z.lor (Z.shiftl 1 6) b)) 63 = b.
Proof. intros Hb. split; byte_eqb 64%nat b. Qed.

Lemma parses_saveLen len : is_u64 len -> parses readLenOrTag (saveLen len) (len, false).
Proof.
  unfold u_range. intros Hl. unfold saveLen, k14BitLen, k32BitLen, k64BitLen. destruct (Z.ltb_spec len 64); [|destruct (Z.ltb_spec len 16384)].
  - apply parses_after. destruct (short_length len) as [-> ->]; [lia|]. apply parses_ret.
  - apply parses_after. rewrite (shiftr_div len) by lia. change (2 ^ 8) with 256.
    assert (Z.land (len / 256) 63 = len / 256) as -> by (change 63 with (Z.ones 6); rewrite Z.land_ones by lia; apply Z.mod_small; dmlia).
    destruct (middle_length (len / 256)) as [-> ->]; [dmlia|]. change (1 =? k6BitLen) with false. change (1 =? kEncVal) with false.
    change (1 =? 1) with true. cbv iota. apply parses_after. rewrite land_255. unfold uwrap. rewrite Z.mod_mod by lia. change (2 ^ 8) with 256.
    rewrite land_low_shiftl by dmlia. change (2 ^ 8) with 256. replace (len mod 256 + len / 256 * 256) with len by dmlia. apply parses_ret.
  - destruct (Z.leb_spec len 0xFFFFFFFF).
    + apply parses_after. cbn -[push_be readRaw fold_be]. rewrite <- (fold_be_push 4 len) at 2 by (cbn; lia). apply (parses_bind_ret (readRaw 4) (fun raw => (fold_be raw, false))), parses_raw.
      unfold size, push_be. by rewrite length_rev, push_le_bytes, length_le_bytes.
    + apply parses_after. cbn -[push_be readRaw fold_be]. rewrite <- (fold_be_push 8 len) at 2 by (cbn; lia). apply (parses_bind_ret (readRaw 8) (fun raw => (fold_be raw, false))), parses_raw.
      unfold size, push_be. by rewrite length_rev, push_le_bytes, length_le_bytes.
Qed.

Lemma parses_readLen len : is_u64 len -> parses readLen (saveLen len) len.
Proof. intros Hl. unfold readLen. rewrite <- (app_nil_r (saveLen len)). eapply parses_bind; [by apply parses_saveLen|apply parses_ret]. Qed.

Section Strings.
Context (max_alloc : Z).

Lemma parses_allocate n : n <= max_alloc -> parses (allocate max_alloc n) [] tt.
Proof. intros H. unfold allocate. rewrite (proj2 (Z.ltb_ge _ _)) by done. apply parses_ret. Qed.

Lemma parses_integer s out : saveIntegerEncoded s = Some out -> parses (readString max_alloc) out s.
Proof.
  unfold saveIntegerEncoded. destruct (_ || _); [done|]. destruct (stringToInt64 s) as [v|] eqn:Hv; [|done]. apply stringToInt64_sound in Hv as [_ ->].
  destruct (negb _); [done|]. unfold readString.
  destruct ((-128 <=? v) && (v <=? 127)) eqn:E1; [|destruct ((-32768 <=? v) && (v <=? 32767)) eqn:E2; [|destruct ((-2147483648 <=? v) && (v <=? 2147483647)) eqn:E3; [|done]]];
    intros [= <-]; bools.
  - change (Z.lor (Z.shiftl kEncVal 6) kEncInt8 :: _) with ([192] ++ [u8 (Z.land v 255)]). eapply parses_bind; [apply (parses_after 192 _ []), parses_ret|]. cbn -[uwrap swrap readByte].
    rewrite <- (swrap_uwrap 8 v) at 2 by (unfold s_range; cbn; lia). rewrite land_255. replace (u8 (v mod 256)) with (u8 v) by (unfold uwrap; by rewrite Z.mod_mod).
    apply (parses_bind_ret readByte (fun b => to_string (i8 b))), parses_byte.
  - change (Z.lor (Z.shiftl kEncVal 6) kEncInt16 :: _) with ([193] ++ push_le 2 v). eapply parses_bind; [apply (parses_after 193 _ []), parses_ret|]. cbn -[uwrap swrap readRaw push_le fold_le].
    rewrite <- (swrap_uwrap 16 v) at 2 by (unfold s_range; cbn; lia). unfold uwrap. change (2 ^ 16) with (2 ^ (8 * Z.of_nat 2)). rewrite <- (fold_le_push 2 v) by lia.
    apply (parses_bind_ret (readRaw 2) (fun raw => to_string (i16 (fold_le raw)))), parses_raw. done.
  - change (Z.lor (Z.shiftl kEncVal 6) kEncInt32 :: _) with ([194] ++ push_le 4 v). eapply parses_bind; [apply (parses_after 194 _ []), parses_ret|]. cbn -[uwrap swrap readRaw push_le fold_le].
    rewrite <- (swrap_uwrap 32 v) at 2 by (unfold s_range; cbn; lia). unfold uwrap. change (2 ^ 32) with (2 ^ (8 * Z.of_nat 4)). rewrite <- (fold_le_push 4 v) by lia.
    apply (parses_bind_ret (readRaw 4) (fun raw => to_string (i32 (fold_le raw)))), parses_raw. done.
Qed.

Lemma parses_plain s : size s < 2 ^ 64 -> parses (readString max_alloc) (saveLen (size s) ++ s) s.
Proof.
  intros Hs. unfold readString. eapply parses_bind; [apply parses_saveLen; unfold u_range, size in *; lia|]. by apply parses_raw.
Qed.

Lemma saveLzfEncoded_ok s : bytes_ok s -> size s < 2 ^ 64 -> size s <= max_alloc ->
  exists o, saveLzfEncoded s = Some o /\ match o with Some out => parses (readString max_alloc) out s | None => True end.
Proof.
  unfold size. intros Hok Hs Hm. unfold saveLzfEncoded. destruct (Nat.leb_spec (length s) 4); [by exists None|].
  destruct (Lzf.lzfCompress_ok s (length s - 4) Hok) as (n & o & -> & Hn & Ho & Hd). cbn [mbind option_bind].
  destruct (Nat.eqb_spec n 0) as [->|H0]; [by exists None|]. eexists. split; [done|]. specialize (Hd H0).
  assert (length (take n o) = n) as Hlen by (rewrite length_take; lia).
  change (Z.lor (Z.shiftl kEncVal 6) kEncLzf :: ?x) with ([195] ++ x). unfold readString. eapply parses_bind; [apply (parses_after 195 _ []), parses_ret|]. cbn -[readLen saveLen readRaw allocate Lzf.lzfDecompress Z.of_nat].
  eapply parses_bind; [apply parses_readLen; unfold u_range; lia|]. eapply parses_bind; [apply parses_readLen; unfold u_range, size; lia|].
  rewrite <- (app_nil_r (take n o)). eapply parses_bind; [apply parses_raw; unfold size; by rewrite Hlen|]. eapply parses_bind_nil; [by apply parses_allocate|].
  rewrite (proj2 (Z.eqb_neq _ _)) by (unfold size; lia). unfold size. rewrite Nat2Z.id. unfold Lzf.lzfDecompress.
  rewrite (Lzf.decompress_decodes _ _ _ (length s) _ Hd) by lia. rewrite Z.eqb_refl. apply parses_ret.
Qed.

Lemma saveString_ok s : bytes_ok s -> size s < 2 ^ 64 -> size s <= max_alloc ->
  exists out, saveString s = Some out /\ parses (readString max_alloc) out s.
Proof.
  intros Hok Hs Hm. unfold saveString. destruct (if (length s <=? 11)%nat then saveIntegerEncoded s else None) as [out|] eqn:Hi.
  - exists out. split; [done|]. destruct (_ <=? _)%nat; [|done]. by apply parses_integer.
  - assert (exists o, (if (20 <? length s)%nat then saveLzfEncoded s else Some None) = Some o /\
      match o with Some out => parses (readString max_alloc) out s | None => True end) as (o & -> & Ho).
    { destruct (_ <? _)%nat; [by apply saveLzfEncoded_ok|by exists None]. }
    cbn [mbind option_bind]. destruct o as [out|]; eexists; (split; [done|]); [done|]. by apply parses_plain.
Qed.

End Strings.
End Rdb.
