(* ===== verification/Command.v ===== *)
(** * Command: what a command handler runs in

    [CommandContext] of [src/server/command_table.h], the reply helpers of
    [src/server/command_table.cpp], the notification wrappers of
    [src/server/notify.cpp] and the lookups of
    [src/server/commands/type_helpers.cpp]. A handler is a computation over the
    state it can change, whose failure ([None]) is undefined behaviour: an
    argument that is not there, a null or dangling pointer, a signed overflow.
    A [Value*] is the key whose entry it points into, since entries never move. *)

From Stdlib Require Import ZArith Lia.
Set Warnings "-register-all".
From stdpp Require Import base list numbers gmap option strings.
From S2P Require Import Prelude Encoding Strings Listpack MapSpec Dict HashValue ZSetValue SetValue ListValue Db Object Reply Notify CommandTable.

Module Command.

(** A call of [notifyKeyspaceEvent], or of a database's own callback. *)
Inductive note := Event (event_class : Z) (event key : bytes) (db_index : Z) | Raised (e : Db.event).

(** [argv], the clock of the loop iteration, the client's protocol version and
    selected database, and the server's number of databases. [gen n] is what
    the random generators return to the [n]-th randomised call. *)
Record request := mkReq {
  argv : list bytes; now : Z; protover : Z; index : Z; databaseCount : Z; gen : nat -> nat -> nat -> nat -> Z }.

Section Command.
Context {D : Type -> Type} {ops : MapOps D}.
Abbreviation value := (Object.value D).
Abbreviation database := (Db.t D (Object.value D)).

(** What a handler can change: the client's database, the server's other
    databases, the reply, the counters and what has been announced. *)
Record state := mkState {
  db : database; others : gmap Z database; reply : bytes; dirty : Z;
  keyspace_hits : Z; keyspace_misses : Z; notes : list note; draws : nat }.

Definition M (A : Type) : Type := state -> option (state * A).

#[global] Instance M_ret : MRet M := fun A a s => Some (s, a).
#[global] Instance M_bind : MBind M := fun A B k m s => match m s with Some (s, a) => k a s | None => None end.

Definition lift {A} (o : option A) : M A := fun s => match o with Some a => Some (s, a) | None => None end.

Definition set_db (s : state) (d : database) : state :=
  mkState d (others s) (reply s) (dirty s) (keyspace_hits s) (keyspace_misses s) (notes s) (draws s).
Definition set_others (s : state) (o : gmap Z database) : state :=
  mkState (db s) o (reply s) (dirty s) (keyspace_hits s) (keyspace_misses s) (notes s) (draws s).
Definition set_reply (s : state) (r : bytes) : state :=
  mkState (db s) (others s) r (dirty s) (keyspace_hits s) (keyspace_misses s) (notes s) (draws s).
Definition set_dirty (s : state) (n : Z) : state :=
  mkState (db s) (others s) (reply s) n (keyspace_hits s) (keyspace_misses s) (notes s) (draws s).
Definition set_stats (s : state) (h m : Z) : state :=
  mkState (db s) (others s) (reply s) (dirty s) h m (notes s) (draws s).
Definition set_notes (s : state) (l : list note) : state :=
  mkState (db s) (others s) (reply s) (dirty s) (keyspace_hits s) (keyspace_misses s) l (draws s).
Definition set_draws (s : state) (n : nat) : state :=
  mkState (db s) (others s) (reply s) (dirty s) (keyspace_hits s) (keyspace_misses s) (notes s) n.

Definition clear_events (d : database) : database :=
  Db.mk (Db.dict_ d) (Db.expires_ d) (Db.expiration_enabled_ d) (Db.on_expired_ d) (Db.on_new_key_ d) [].

(** A method of the client's database; the callbacks it invokes are recorded
    when they happen. *)
Definition on_db {A} (f : database -> option (database * A)) : M A := fun s =>
  '(d, a) ← f (db s);
  Some (set_notes (set_db s (clear_events d)) (notes s ++ map Raised (Db.events d)), a).

(** A method of the database with index [i], which may be the client's own. *)
Definition on_db_at (rq : request) {A} (i : Z) (f : database -> option (database * A)) : M A := fun s =>
  if i =? index rq then on_db f s
  else
    d ← others s !! i;
    '(d, a) ← f d;
    Some (set_notes (set_others s (<[i := clear_events d]> (others s))) (notes s ++ map Raised (Db.events d)), a).

Definition unit_of {A} (f : database -> option A) : database -> option (A * unit) := fun d => a ← f d; Some (a, tt).

Definition write (b : bytes) : M unit := fun s => Some (set_reply s (reply s ++ b), tt).
Definition markDirty (n : Z) : M unit := fun s => Some (set_dirty s (u64 (dirty s + n)), tt).
Definition count_hit : M unit := fun s => Some (set_stats s (u64 (keyspace_hits s + 1)) (keyspace_misses s), tt).
Definition count_miss : M unit := fun s => Some (set_stats s (keyspace_hits s) (u64 (keyspace_misses s + 1)), tt).
Definition announce (n : note) : M unit := fun s => Some (set_notes s (notes s ++ [n]), tt).

(** Signed 64-bit arithmetic: overflow is undefined. *)
Definition checked (z : Z) : M Z := lift (if (- 2 ^ 63 <=? z) && (z <? 2 ^ 63) then Some z else None).

(** ** Replies *)

Definition error (msg : bytes) : M unit := write (Reply.error msg).
Definition wrongType : M unit := error (str "WRONGTYPE Operation against a key holding the wrong kind of value").
Definition syntaxError : M unit := error (str "ERR syntax error").
Definition notAnInteger : M unit := error (str "ERR value is not an integer or out of range").
Definition notAFloat : M unit := error (str "ERR value is not a valid float").
Definition wrongArgs (command : string) : M unit := error (str "ERR " ++ CommandTable.wrongArgsText (str command)).
Definition ok : M unit := write (Reply.simpleString (str "OK")).
Definition integer (n : Z) : M unit := write (Reply.integer n).
Definition bulk (s : bytes) : M unit := write (Reply.bulk s).
Definition bulkArray (l : list bytes) : M unit := write (Reply.bulkArray l).
Definition arrayHeader (n : Z) : M unit := write (Reply.arrayHeader n).

(** ** Pointers *)

(** Reading and assigning through a [Value*] into the entry of [key]. *)
Definition deref (key : bytes) : M value := fun s => v ← mpeek (Db.dict_ (db s)) key; Some (s, v).
Definition assign (key : bytes) (v : value) : M unit := fun s =>
  d ← mpoke (Db.dict_ (db s)) key v; Some (set_db s (Db.set_dict (db s) d), tt).

Definition with_data (v : value) (d : Object.data) : value :=
  Object.mk (Object.type_ v) (Object.encoding_ v) d (Object.last_access_ms_ v).

(** A method of the object behind a pointer. *)
Definition on_value {R} (key : bytes) (f : value -> option (value * R)) : M R :=
  v ← deref key; '(v', r) ← lift (f v); _ ← assign key v'; mret r.

(** A method of the collection a value owns: [value->hash()->...], where the
    accessor returns null for another type. *)
Definition on_hash {R} (key : bytes) (f : HashValue.t D -> option (HashValue.t D * R)) : M R :=
  on_value key (fun v => h ← Object.hash v; '(h, r) ← f h; Some (with_data v (Object.DHash h), r)).
Definition on_set {R} (key : bytes) (f : SetValue.t D -> option (SetValue.t D * R)) : M R :=
  on_value key (fun v => h ← Object.set_ v; '(h, r) ← f h; Some (with_data v (Object.DSet h), r)).
Definition on_zset {R} (key : bytes) (f : ZSetValue.t D -> option (ZSetValue.t D * R)) : M R :=
  on_value key (fun v => h ← Object.zset v; '(h, r) ← f h; Some (with_data v (Object.DZSet h), r)).
Definition on_list {R} (key : bytes) (f : ListValue.t -> option (ListValue.t * R)) : M R :=
  on_value key (fun v => h ← Object.list_ v; '(h, r) ← f h; Some (with_data v (Object.DList h), r)).

(** A method that leaves the object as it is. *)
Definition the_hash (key : bytes) : M (HashValue.t D) := v ← deref key; lift (Object.hash v).
Definition the_set (key : bytes) : M (SetValue.t D) := v ← deref key; lift (Object.set_ v).
Definition the_zset (key : bytes) : M (ZSetValue.t D) := v ← deref key; lift (Object.zset v).
Definition the_list (key : bytes) : M ListValue.t := v ← deref key; lift (Object.list_ v).

(** ** The context of a request *)

Context (rq : request).

Definition argc : nat := length (argv rq).
Definition arg (i : nat) : M bytes := lift (argv rq !! i).

Definition nullBulk : M unit := write (Reply.nullBulk (protover rq)).
Definition nullArray : M unit := write (Reply.nullArray (protover rq)).
Definition mapHeader (n : Z) : M unit := write (Reply.mapHeader (protover rq) n).
Definition setHeader (n : Z) : M unit := write (Reply.setHeader (protover rq) n).
Definition doubleValue (d : Z) : M unit := write (Reply.doubleValue (protover rq) d).

Definition bulk_or_null (v : option bytes) : M unit := match v with Some s => bulk s | None => nullBulk end.

(** The generators' answers to the next randomised call. *)
Definition random : M (nat -> nat -> nat -> Z) := fun s => Some (set_draws s (S (draws s)), gen rq (draws s)).

Definition lookupRead (key : bytes) : M (option value) := on_db (fun d => Db.lookupRead Object.touch d key (now rq)).
Definition lookupWrite (key : bytes) : M (option value) := on_db (fun d => Db.lookupWrite Object.touch d key (now rq)).
Definition setKey (key : bytes) (v : value) : M unit := on_db (unit_of (fun d => Db.setKey d key v)).
Definition overwriteValue (key : bytes) (v : value) : M unit := on_db (unit_of (fun d => Db.overwriteValue d key v)).
Definition erase (key : bytes) : M bool := on_db (fun d => Db.erase d key).
Definition exists_ (key : bytes) : M bool := on_db (fun d => Db.exists_ Object.touch d key (now rq)).
Definition setExpireAt (key : bytes) (at_ms : Z) : M unit := on_db (unit_of (fun d => Db.setExpireAt d key at_ms)).
Definition persist (key : bytes) : M bool := on_db (fun d => Db.persist d key).
Definition expireAtMs (key : bytes) : M Z := on_db (fun d => Db.expireAtMs d key).
Definition ttlMs (key : bytes) : M Z := on_db (fun d => Db.ttlMs Object.touch d key (now rq)).

Definition keys : M (list bytes) := fun s => Some (s, Db.keys (db s)).
Definition randomKey (rng : nat -> nat -> Z) : M (option bytes) := on_db (fun d => Db.randomKey d rng (now rq)).

(** The methods of the database COPY writes to. *)
Definition lookupRead_at (i : Z) (key : bytes) : M (option value) := on_db_at rq i (fun d => Db.lookupRead Object.touch d key (now rq)).
Definition setKey_at (i : Z) (key : bytes) (v : value) : M unit := on_db_at rq i (unit_of (fun d => Db.setKey d key v)).
Definition setExpireAt_at (i : Z) (key : bytes) (at_ms : Z) : M unit := on_db_at rq i (unit_of (fun d => Db.setExpireAt d key at_ms)).

(** [notifyKeyspaceEvent] with the client's database, and with another. *)
Definition notify (event_class : Z) (event : string) (key : bytes) : M unit :=
  announce (Event event_class (str event) key (index rq)).
Definition notify_at (event_class : Z) (event : string) (key : bytes) (db_index : Z) : M unit :=
  announce (Event event_class (str event) key db_index).
Definition notifyKeyMiss (key : bytes) : M unit := notify Notify.kKeyMiss "keymiss" key.

(** ** Typed lookups *)

(** The returned pointer together with [type_error]. *)
Inductive typed := TypeError | Missing | Found (v : value).

Definition lookupTyped (key : bytes) (expected : ObjType) : M typed :=
  v ← lookupWrite key;
  match v with
  | None => mret Missing
  | Some v =>
      if bool_decide (Object.type_ v = expected) then mret (Found v)
      else _ ← wrongType; mret TypeError
  end.

Definition lookupTypedRead (key : bytes) (expected : ObjType) : M typed :=
  v ← lookupRead key;
  match v with
  | None => _ ← notifyKeyMiss key; mret Missing
  | Some v =>
      if bool_decide (Object.type_ v = expected) then mret (Found v)
      else _ ← wrongType; mret TypeError
  end.

Definition lookupOrCreate (key : bytes) (expected : ObjType) : M typed :=
  existing ← lookupTyped key expected;
  match existing with
  | TypeError => mret TypeError
  | Found v => mret (Found v)
  | Missing =>
      match
        match expected with
        | OList => Some Object.makeList | OHash => Some Object.makeHash
        | OSet => Some Object.makeSet | OZSet => Some Object.makeZSet | OString => None
        end
      with
      | None => mret Missing
      | Some v =>
          _ ← setKey key v;
          p ← lookupWrite key;
          mret (match p with Some v => Found v | None => Missing end)
      end
  end.

(** [value] is a reference into the entry of [key]. *)
Definition deleteIfEmpty (key : bytes) : M unit :=
  v ← deref key;
  if bool_decide (Object.type_ v = OString) then mret tt
  else if (Object.elementCount v =? 0)%nat then
    _ ← erase key;
    notify Notify.kGeneric "del" key
  else mret tt.

(** [if (v && !v->isString())], for a pointer just looked up. *)
Definition ensureString (v : option value) : M bool :=
  match v with
  | Some v => if bool_decide (Object.type_ v = OString) then mret true else _ ← wrongType; mret false
  | None => mret true
  end.

(** [for (item : items) ctx.reply.bulk(item)] *)
Fixpoint bulks (items : list bytes) : M unit :=
  match items with
  | [] => mret tt
  | item :: items => _ ← bulk item; bulks items
  end.

End Command.

(** [std::shuffle]: for each position in turn, a swap with a position up to it
    that the generator chooses. *)
Definition swap {A} (l : list A) (i j : nat) : list A :=
  match l !! i, l !! j with Some x, Some y => <[i := y]> (<[j := x]> l) | _, _ => l end.

Fixpoint shuffle_from {A} (n i : nat) (rnd : nat -> Z) (l : list A) : list A :=
  match n with
  | O => l
  | S n => shuffle_from n (S i) rnd (swap l i (Z.to_nat (rnd i mod Z.of_nat (S i))))
  end.

Definition shuffle {A} (rnd : nat -> Z) (l : list A) : list A := shuffle_from (length l - 1) 1 rnd l.

(** [gen() % n], [count] times. *)
Fixpoint picks (count k : nat) (rnd : nat -> Z) (n : nat) : list nat :=
  match count with
  | O => []
  | S count => Z.to_nat (rnd k mod Z.of_nat n) :: picks count (S k) rnd n
  end.

Arguments state : clear implicits.
Arguments M : clear implicits.
Arguments typed : clear implicits.
End Command.
