(* ===== verification/Keyspace.v ===== *)
(** * Keyspace: what the data commands promise

    The abstract keyspace a client sees: values up to their encoding, each with
    an optional deadline. [sim] relates it to the tables of a database, the
    reply and the announcements of a handler's state; [wp] is the
    weakest-precondition predicate in which handlers are verified, with one
    rule per primitive of [Command.v]. *)

From Stdlib Require Import ZArith Lia.
Set Warnings "-register-all".
From stdpp Require Import base list numbers gmap option strings.
From S2P Require Import Prelude Encoding Strings Listpack MapSpec Dict HashValue ZSetValue SetValue ListValue Db Object Reply Notify CommandTable Command.
Import Command.

Module Keyspace.

Inductive aval :=
  | AStr (s : bytes) | AList (l : list bytes) | AHash (h : gmap bytes bytes) | ASet (X : gset bytes)
  | AZSet (l : list (bytes * Z)).

Definition atype (a : aval) : ObjType :=
  match a with AStr _ => OString | AList _ => OList | AHash _ => OHash | ASet _ => OSet | AZSet _ => OZSet end.

Definition acount (a : aval) : nat :=
  match a with AStr _ => 1 | AList l => length l | AHash h => size h | ASet X => size X | AZSet l => length l end.

(** The empty collection of a type. *)
Definition aempty (t : ObjType) : aval :=
  match t with OString => AStr [] | OList => AList [] | OHash => AHash ∅ | OSet => ASet ∅ | OZSet => AZSet [] end.

Abbreviation keyspace := (gmap bytes (aval * option Z)).

(** Every key that a client sees: an entry without a deadline never dies. *)
Definition alive (t : Z) (e : option Z) : bool := match e with Some w => t <? w | None => true end.
Definition survivors (t : Z) (K : keyspace) : keyspace := filter (fun kv => alive t (snd (snd kv)) = true) K.

(** The abstract state of a running handler. A key is [settled] once its
    deadline has been checked: it is then either visible or really absent. *)
Record view := mkView {
  K : keyspace; KO : gmap Z keyspace; out : bytes; log : list (Z * bytes * bytes * Z);
  dirt : Z; hits : Z; misses : Z; settled : gset bytes }.

Definition set_K (g : view) (k : keyspace) : view := mkView k (KO g) (out g) (log g) (dirt g) (hits g) (misses g) (settled g).
Definition set_KO (g : view) (k : gmap Z keyspace) : view := mkView (K g) k (out g) (log g) (dirt g) (hits g) (misses g) (settled g).
Definition say (b : bytes) (g : view) : view := mkView (K g) (KO g) (out g ++ b) (log g) (dirt g) (hits g) (misses g) (settled g).
Definition tell_at (i : Z) (c : Z) (e : string) (k : bytes) (g : view) : view :=
  mkView (K g) (KO g) (out g) (log g ++ [(c, str e, k, i)]) (dirt g) (hits g) (misses g) (settled g).
Definition mark (n : Z) (g : view) : view := mkView (K g) (KO g) (out g) (log g) (u64 (dirt g + n)) (hits g) (misses g) (settled g).
Definition hit (g : view) : view := mkView (K g) (KO g) (out g) (log g) (dirt g) (u64 (hits g + 1)) (misses g) (settled g).
Definition miss (g : view) : view := mkView (K g) (KO g) (out g) (log g) (dirt g) (hits g) (u64 (misses g + 1)) (settled g).
Definition settle (k : bytes) (g : view) : view := mkView (K g) (KO g) (out g) (log g) (dirt g) (hits g) (misses g) ({[k]} ∪ settled g).
Definition unsettle (g : view) : view := mkView (K g) (KO g) (out g) (log g) (dirt g) (hits g) (misses g) ∅.

Definition put (k : bytes) (a : aval) (e : option Z) (g : view) : view := settle k (set_K g (<[k := (a, e)]> (K g))).
Definition remove (k : bytes) (g : view) : view := settle k (set_K g (delete k (K g))).
(** A deadline that has already passed: the entry is there until someone looks. *)
Definition doom (k : bytes) (g : view) : view :=
  mkView (delete k (K g)) (KO g) (out g) (log g) (dirt g) (hits g) (misses g) (settled g ∖ {[k]}).
(** A value replaced in place, its deadline kept. *)
Definition update (k : bytes) (a : aval) (g : view) : view := set_K g (alter (fun p => (a, snd p)) k (K g)).

(** ** Random choices *)

Lemma swap_perm {A} (l : list A) i j : swap l i j ≡ₚ l.
Proof.
  unfold swap. destruct (l !! i) as [x|] eqn:Hi; [|done]. destruct (l !! j) as [y|] eqn:Hj; [|done]. by apply Permutation_insert_swap.
Qed.

Lemma shuffle_perm {A} (rnd : nat -> Z) (l : list A) : shuffle rnd l ≡ₚ l.
Proof.
  unfold shuffle. generalize (length l - 1)%nat. intros n. generalize 1%nat. revert l. induction n as [|n IH]; intros l i; cbn [shuffle_from]; [reflexivity|].
  by rewrite IH, swap_perm.
Qed.

Lemma picks_ok count k rnd n : (0 < n)%nat -> length (picks count k rnd n) = count /\ Forall (fun i => (i < n)%nat) (picks count k rnd n).
Proof.
  intros Hn. revert k. induction count as [|count IH]; intros k; cbn [picks length]; [by split; [|constructor]|]. destruct (IH (S k)) as [IH1 IH2].
  split; [by rewrite IH1|]. constructor; [|done]. pose proof (Z.mod_pos_bound (rnd k) (Z.of_nat n) ltac:(lia)). lia.
Qed.

(** The entries at a list of valid positions. *)
Lemma select_ok {A} (l : list A) (js : list nat) : Forall (fun i => (i < length l)%nat) js ->
  exists xs, Forall2 (fun i x => l !! i = Some x) js xs.
Proof.
  induction 1 as [|i js Hi _ (xs & IH)]; [by exists []|]. destruct (lookup_lt_is_Some_2 l i Hi) as [x Hx]. exists (x :: xs). by constructor.
Qed.

Lemma select_nodup {A B} (f : A -> B) (l : list A) js xs : Forall2 (fun i x => l !! i = Some x) js xs ->
  NoDup (f <$> l) -> NoDup js -> NoDup (f <$> xs).
Proof.
  intros H Hl. induction H as [|i x js xs Hi Hrest IH]; intros Hn; [constructor|]. apply NoDup_cons in Hn as [Hni Hn]. cbn. constructor; [|by apply IH].
  intros (y & Hy & Hin)%list_elem_of_fmap. apply list_elem_of_lookup in Hin as (j & Hj). destruct (Forall2_lookup_r _ _ _ _ _ Hrest Hj) as (i' & Hi' & Hy').
  apply Hni. rewrite (NoDup_lookup _ i i' (f x) Hl); [by eapply list_elem_of_lookup_2| |]; rewrite list_lookup_fmap; [by rewrite Hi|by rewrite Hy', Hy].
Qed.

(** Induction over a list of pairs laid out flat. *)
Lemma two_ind {A} (P : list A -> Prop) :
  P [] -> (forall x, P [x]) -> (forall x y l, P l -> P (x :: y :: l)) -> forall l, P l.
Proof. intros H0 H1 H2. fix IH 1. intros [|x [|y l]]; [done|apply H1|apply H2, IH]. Qed.

(** Equality of what a client, a watcher and the persistence driver can see. *)
Definition same (g g' : view) : Prop := unsettle g = unsettle g'.

Lemma view_same g g' :
  K g = K g' -> KO g = KO g' -> out g = out g' -> log g = log g' -> dirt g = dirt g' -> hits g = hits g' ->
  misses g = misses g' -> same g g'.
Proof. intros. unfold same, unsettle. congruence. Qed.

#[global] Instance same_equiv : Equivalence same.
Proof. split; unfold same; [by intros ?|by intros ? ?|by intros ? ? ? -> ->]. Qed.

(** The setters respect it. *)
Lemma same_fields g g' : same g g' -> K g = K g' /\ KO g = KO g' /\ out g = out g' /\ log g = log g' /\ dirt g = dirt g' /\
  hits g = hits g' /\ misses g = misses g'.
Proof. unfold same, unsettle. intros [= ? ? ? ? ? ? ?]. by split_and!. Qed.

Ltac same_setter := let H := fresh in intros H; apply same_fields in H as (? & ? & ? & ? & ? & ? & ?); apply view_same; cbn; congruence.

Lemma same_say b g g' : same g g' -> same (say b g) (say b g').
Proof. same_setter. Qed.
Lemma same_tell i c e k g g' : same g g' -> same (tell_at i c e k g) (tell_at i c e k g').
Proof. same_setter. Qed.
Lemma same_mark n g g' : same g g' -> same (mark n g) (mark n g').
Proof. same_setter. Qed.
Lemma same_put k a e g g' : same g g' -> same (put k a e g) (put k a e g').
Proof. same_setter. Qed.
Lemma same_doom k g g' : same g g' -> same (doom k g) (doom k g').
Proof. same_setter. Qed.
Lemma same_remove k g g' : same g g' -> same (remove k g) (remove k g').
Proof. same_setter. Qed.

(** What a command may do: [None] where the program's behaviour is undefined,
    otherwise the views it may end in. *)
Definition spec : Type := view -> option (view -> Prop).

(** The reply and the state are determined. *)
Definition exactly (g' : view) : option (view -> Prop) := Some (fun g1 => g1 = g').

Lemma say_say a b g : same (say b (say a g)) (say (a ++ b) g).
Proof. apply view_same; try done. cbn. by rewrite app_assoc. Qed.

Lemma say_say_eq a b g : say b (say a g) = say (a ++ b) g.
Proof. unfold say. cbn. by rewrite app_assoc. Qed.

Lemma say_nil g : same (say [] g) g.
Proof. apply view_same; try done. cbn. by rewrite app_nil_r. Qed.

Lemma update_id k a e g : K g !! k = Some (a, e) -> update k a g = g.
Proof.
  intros HK. destruct g. unfold update, set_K. cbn in *. f_equal. apply map_eq. intros j. destruct (decide (j = k)) as [->|Hj].
  - by rewrite lookup_alter_eq, HK.
  - by rewrite lookup_alter_ne.
Qed.

Lemma update_put k a b e g : K g !! k = Some (a, e) -> same (update k b g) (put k b e g).
Proof.
  intros HK. apply view_same; try done. cbn. apply map_eq. intros j. destruct (decide (j = k)) as [->|Hj].
  - by rewrite lookup_alter_eq, HK, lookup_insert_eq.
  - by rewrite lookup_alter_ne, lookup_insert_ne.
Qed.

Lemma put_put k a b e e' g : same (put k b e (put k a e' g)) (put k b e g).
Proof. apply view_same; try done. cbn. by rewrite insert_insert_eq. Qed.

Lemma remove_put k a e g : same (remove k (put k a e g)) (remove k g).
Proof. apply view_same; try done. cbn. by rewrite delete_insert_eq. Qed.

Lemma remove_update k a g : same (remove k (update k a g)) (remove k g).
Proof. apply view_same; try done. cbn. apply map_eq. intros j. destruct (decide (j = k)) as [->|Hj]; [by rewrite !lookup_delete_eq|]. by rewrite !lookup_delete_ne, lookup_alter_ne. Qed.

Definition refuse (msg : bytes) (g : view) : view := say (Reply.error msg) g.

Section Relation.
Context {D : Type -> Type} {ops : MapOps D} {laws : MapLaws D}.
Implicit Types (d : Db.t D (Object.value D)) (v : Object.value D) (t : Z) (j : bytes).

(** The value object represents an abstract value, in whatever encoding. *)
Definition models v (a : aval) : Prop :=
  match a with
  | AStr s => Object.wf v /\ Object.is_string v /\ Object.stringValue v = s
  | AList l => Object.type_ v = OList /\ exists h, Object.data_ v = Object.DList h /\ ListValue.holds h l
  | AHash m => Object.type_ v = OHash /\ exists h, Object.data_ v = Object.DHash h /\ HashValue.holds h m
  | ASet X => Object.type_ v = OSet /\ exists h, Object.data_ v = Object.DSet h /\ SetValue.holds h X
  | AZSet l => Object.type_ v = OZSet /\ exists h, Object.data_ v = Object.DZSet h /\ ZSetValue.holds h l
  end.

(** One key of a database: [mv] and [xw] are its entries in the keyspace and
    in the expiry table. *)
Definition deadline_ok (e : option Z) : Prop := match e with Some w => is_i64 w | None => True end.

Definition key_sim (t : Z) (checked : bool) (mv : option (Object.value D)) (xw : option Z) (ae : option (aval * option Z)) : Prop :=
  match ae with
  | Some (a, e) => exists v, mv = Some v /\ models v a /\ xw = e /\ alive t e = true /\ deadline_ok e
  | None => (mv = None /\ xw = None) \/ (checked = false /\ alive t xw = false)
  end.

Definition db_sim (t : Z) (C : gset bytes) d (k : keyspace) : Prop :=
  Db.expiration_enabled_ d = true /\ Db.events d = [] /\
  exists m x, Db.holds d m x /\ forall j, key_sim t (bool_decide (j ∈ C)) (m !! j) (x !! j) (k !! j).

(** The announcements the handlers make themselves. What the database raises
    through its callbacks ([Raised]: the new and expired events) depends on
    when an expired key is noticed, which the specifications leave open, and
    is left out. *)
Fixpoint logged (l : list note) : list (Z * bytes * bytes * Z) :=
  match l with
  | [] => []
  | Event c e k i :: l => (c, e, k, i) :: logged l
  | Raised _ :: l => logged l
  end.

Definition sim (t : Z) (s : state D) (g : view) : Prop :=
  db_sim t (settled g) (db s) (K g) /\
  (forall i, option_Forall2 (db_sim t ∅) (others s !! i) (KO g !! i)) /\
  out g = reply s /\ log g = logged (notes s) /\ dirt g = dirty s /\
  hits g = keyspace_hits s /\ misses g = keyspace_misses s.

Definition wp (t : Z) {A} (m : M D A) (g : view) (Q : A -> view -> Prop) : Prop :=
  forall s, sim t s g -> exists s' a g', m s = Some (s', a) /\ sim t s' g' /\ Q a g'.

Lemma wp_ret t {A} (a : A) g (Q : A -> view -> Prop) : Q a g -> wp t (mret a) g Q.
Proof. intros HQ s Hs. exists s, a, g. done. Qed.

Lemma wp_bind t {A B} (m : M D A) (k : A -> M D B) g Q : wp t m g (fun a g' => wp t (k a) g' Q) -> wp t (mbind k m) g Q.
Proof. intros H s Hs. destruct (H s Hs) as (s1 & a & g1 & Hm & Hs1 & HQ). destruct (HQ s1 Hs1) as (s2 & b & g2 & Hk & Hs2 & HQ2). exists s2, b, g2. unfold mbind, M_bind. rewrite Hm. done. Qed.

Lemma wp_mono t {A} (m : M D A) g (Q Q' : A -> view -> Prop) : wp t m g Q -> (forall a g', Q a g' -> Q' a g') -> wp t m g Q'.
Proof. intros H HQ s Hs. destruct (H s Hs) as (s1 & a & g1 & Hm & Hs1 & H1). exists s1, a, g1. auto. Qed.

Lemma wp_lift t {A} (o : option A) a g (Q : A -> view -> Prop) : o = Some a -> Q a g -> wp t (lift o) g Q.
Proof. intros -> HQ s Hs. exists s, a, g. done. Qed.

(** What a weakest precondition says of a run, and back. *)
Lemma wp_elim t {A} (m : M D A) g Q s : wp t m g Q -> sim t s g -> exists s' a g', m s = Some (s', a) /\ sim t s' g' /\ Q a g'.
Proof. intros H. apply H. Qed.

Lemma wp_intro t {A} (m : M D A) g (Q : A -> view -> Prop) :
  (forall s, sim t s g -> exists s' a g', m s = Some (s', a) /\ sim t s' g' /\ Q a g') -> wp t m g Q.
Proof. done. Qed.

Lemma logged_app l1 l2 : logged (l1 ++ l2) = logged l1 ++ logged l2.
Proof. induction l1 as [|[]]; cbn; [done|by f_equal|done]. Qed.

Lemma logged_raised l : logged (map Raised l) = [].
Proof. by induction l. Qed.

(** A primitive that only changes one of the plain fields. *)
Ltac sim_step tac :=
  let HQ := fresh in intros HQ s (H1 & H2 & H3 & H4 & H5 & H6 & H7); eexists _, tt, _; split; [done|]; split; [|exact HQ];
  split_and!; cbn; first [done | tac].

Lemma wp_write t b g (Q : unit -> view -> Prop) : Q tt (say b g) -> wp t (write b) g Q.
Proof. sim_step ltac:(by rewrite H3). Qed.

Lemma wp_dirty t n g (Q : unit -> view -> Prop) : Q tt (mark n g) -> wp t (markDirty n) g Q.
Proof. sim_step ltac:(by rewrite H5). Qed.

Lemma wp_hit t g (Q : unit -> view -> Prop) : Q tt (hit g) -> wp t count_hit g Q.
Proof. sim_step ltac:(by rewrite H6). Qed.

Lemma wp_miss t g (Q : unit -> view -> Prop) : Q tt (miss g) -> wp t count_miss g Q.
Proof. sim_step ltac:(by rewrite H7). Qed.

Lemma wp_announce t c e k i g (Q : unit -> view -> Prop) : Q tt (tell_at i c e k g) -> wp t (announce (Event c (str e) k i)) g Q.
Proof. sim_step ltac:(by rewrite logged_app, H4). Qed.

Lemma wp_random t rq g (Q : _ -> view -> Prop) : (forall r, Q r g) -> wp t (random rq) g Q.
Proof. intros HQ s Hs. eexists _, _, g. split; [done|]. split; [|apply HQ]. done. Qed.

Lemma wp_checked t z g (Q : Z -> view -> Prop) : is_i64 z -> Q z g -> wp t (checked z) g Q.
Proof. intros Hz HQ. apply (wp_lift _ _ z); [|done]. unfold s_range in Hz. cbn in Hz. destruct (Z.leb_spec (- 2 ^ 63) z), (Z.ltb_spec z (2 ^ 63)); cbn; (done || lia). Qed.

(** ** Databases *)

Lemma clear_holds d m x : Db.holds d m x -> Db.holds (clear_events d) m x.
Proof. done. Qed.

Lemma wp_on_db t {A} (f : Db.t D (Object.value D) -> option (Db.t D (Object.value D) * A)) (g : view) (Q : A -> view -> Prop) :
  (forall d m x, Db.holds d m x -> Db.expiration_enabled_ d = true ->
     (forall j, key_sim t (bool_decide (j ∈ settled g)) (m !! j) (x !! j) (K g !! j)) ->
     exists d' a m' x' k' C', f d = Some (d', a) /\ Db.holds d' m' x' /\ Db.config d' = Db.config d /\
       (forall j, key_sim t (bool_decide (j ∈ C')) (m' !! j) (x' !! j) (k' !! j)) /\
       Q a (mkView k' (KO g) (out g) (log g) (dirt g) (hits g) (misses g) C')) ->
  wp t (on_db f) g Q.
Proof.
  intros H s ((He & Hev & m & x & Hh & Hk) & H2 & H3 & H4 & H5 & H6 & H7).
  destruct (H (db s) m x Hh He Hk) as (d' & a & m' & x' & k' & C' & Hf & Hh' & Hc & Hk' & HQ).
  unfold on_db. rewrite Hf. cbn. eexists _, a, _. split; [done|]. split; [|exact HQ].
  split_and!; try done.
  - split; [unfold Db.config in Hc; cbn; congruence|]. split; [done|]. by exists m', x'.
  - cbn. by rewrite logged_app, logged_raised, app_nil_r.
Qed.

Lemma is_expired_alive x t k : Db.is_expired x t k = negb (alive t (x !! k)).
Proof. unfold Db.is_expired, alive. destruct (x !! k); [|done]. destruct (Z.leb_spec z t), (Z.ltb_spec t z); (done || lia). Qed.

Lemma models_touch v a n : models v a -> models (Object.touch v n) a.
Proof. by destruct a. Qed.

Lemma key_sim_checked t b mv xw ae : key_sim t true mv xw ae -> key_sim t b mv xw ae.
Proof. destruct ae as [[a e]|]; [done|]. intros [?|[? _]]; [by left|done]. Qed.

(** Everything but the key the primitive is about is left alone. *)
Lemma key_sim_others t (k : bytes) (C C' : gset bytes) (m m' : gmap bytes (Object.value D)) (x x' : gmap bytes Z) (G G' : keyspace) :
  (forall j : bytes, j <> k -> m' !! j = m !! j /\ x' !! j = x !! j /\ G' !! j = G !! j /\ (j ∈ C' <-> j ∈ C)) ->
  (forall j, key_sim t (bool_decide (j ∈ C)) (m !! j) (x !! j) (G !! j)) ->
  key_sim t (bool_decide (k ∈ C')) (m' !! k) (x' !! k) (G' !! k) ->
  forall j, key_sim t (bool_decide (j ∈ C')) (m' !! j) (x' !! j) (G' !! j).
Proof.
  intros Ho Hs Hk j. destruct (decide (j = k)) as [->|Hne]; [done|]. destruct (Ho j Hne) as (-> & -> & -> & HC).
  rewrite (bool_decide_ext _ _ HC). apply Hs.
Qed.

Lemma settle_view g k : mkView (K g) (KO g) (out g) (log g) (dirt g) (hits g) (misses g) ({[k]} ∪ settled g) = settle k g.
Proof. done. Qed.

(** Both lookups: an expired entry is reaped and reported absent. *)
Lemma lookup_in_sim t (k : bytes) (C : gset bytes) (G : keyspace) d m x :
  Db.holds d m x -> Db.expiration_enabled_ d = true ->
  (forall j, key_sim t (bool_decide (j ∈ C)) (m !! j) (x !! j) (G !! j)) ->
  exists d' o m' x', Db.lookupRead Object.touch d k t = Some (d', o) /\ Db.holds d' m' x' /\ Db.config d' = Db.config d /\
    (forall j, key_sim t (bool_decide (j ∈ {[k]} ∪ C)) (m' !! j) (x' !! j) (G !! j)) /\
    match G !! k with Some (a, _) => exists v, o = Some v /\ models v a | None => o = None end.
Proof.
  intros Hh He Hs. destruct (Db.lookupRead_ok Object.touch d m x k t Hh) as (d' & m' & x' & Hf & Hh' & Hc & Hr).
  rewrite Db.visible_lookup in Hf. unfold Db.reaps in Hr. rewrite is_expired_alive in *. rewrite He, andb_true_r in Hr.
  pose proof (Hs k) as Hk. unfold key_sim in Hk.
  assert (forall j, j <> k -> m' !! j = m !! j /\ x' !! j = x !! j /\ G !! j = G !! j /\ (j ∈ {[k]} ∪ C <-> j ∈ C)) as Ho.
  { intros j Hj. destruct (negb (alive t (x !! k))).
    - destruct Hr as (-> & -> & _). rewrite !lookup_delete_ne by done. set_solver.
    - destruct Hr as (-> & _ & ->). rewrite lookup_alter_ne by done. set_solver. }
  exists d'. destruct (G !! k) as [[a e]|] eqn:HK.
  - destruct Hk as (v & Hv & Hm & Hx & Ha & Hd). rewrite Hx, Ha in Hr, Hf. cbn in Hr, Hf. destruct Hr as (Hx' & _ & Hm').
    rewrite Hv in Hf. eexists _, m', x'. split_and!; [exact Hf|done|done| |eexists; split; [done|by apply models_touch]].
    eapply key_sim_others; [exact Ho|exact Hs|]. rewrite HK, Hx', Hm', lookup_alter_eq, Hv. cbn. exists (Object.touch v t). by split_and!; [|apply models_touch|..].
  - assert ((if negb (alive t (x !! k)) then None else m !! k) = None) as E.
    { destruct Hk as [[-> ->]|[_ ->]]; [by case_if|done]. }
    rewrite E in Hf. eexists _, m', x'. split_and!; [exact Hf|done|done| |done].
    eapply key_sim_others; [exact Ho|exact Hs|]. rewrite HK. left. destruct (negb (alive t (x !! k))) eqn:Ea.
    + destruct Hr as (-> & -> & _). by rewrite !lookup_delete_eq.
    + destruct Hr as (-> & _ & ->). destruct Hk as [[Hm Hx]|[_ Hal]]; [|by rewrite Hal in Ea]. by rewrite lookup_alter_eq, Hm, Hx.
Qed.

Lemma wp_lookup t k g (Q : option (Object.value D) -> view -> Prop) :
  match K g !! k with
  | Some (a, e) => forall v, models v a -> Q (Some v) (settle k g)
  | None => Q None (settle k g)
  end -> wp t (on_db (fun d => Db.lookupRead Object.touch d k t)) g Q.
Proof.
  intros HQ. apply wp_on_db. intros d m x Hh He Hs.
  destruct (lookup_in_sim t k _ _ d m x Hh He Hs) as (d' & o & m' & x' & Hf & Hh' & Hc & Hs' & Ho).
  exists d', o, m', x', (K g), ({[k]} ∪ settled g). split_and!; [done..|]. destruct (K g !! k) as [[a e]|]; [|by subst o].
  destruct Ho as (v & -> & Hv). by apply HQ.
Qed.

(** The proof of a rule for a method that only touches the key it is given. *)
Ltac one_key k Hs :=
  eapply (key_sim_others _ k); [|exact Hs|]; [|cbn [K set_K]; rewrite ?lookup_insert_eq, ?lookup_delete_eq, ?lookup_alter_eq];
  [intros j Hj; cbn; rewrite ?lookup_insert_ne, ?lookup_delete_ne, ?lookup_alter_ne by done; split_and!; try done; set_solver +Hj|].

Lemma wp_setKey t k v a g (Q : unit -> view -> Prop) :
  models v a -> Q tt (put k a None g) -> wp t (on_db (unit_of (fun d => Db.setKey d k v))) g Q.
Proof.
  intros Hv HQ. apply wp_on_db. intros d m x Hh He Hs. unfold unit_of.
  destruct (Db.setKey_ok d m x k v Hh) as (d' & -> & Hh' & Hc & _). cbn [mbind option_bind].
  eexists d', tt, _, _, _, _. split_and!; [done|exact Hh'|done| |exact HQ]. one_key k Hs. by exists v.
Qed.

Lemma wp_overwrite t k v a g (Q : unit -> view -> Prop) :
  k ∈ settled g -> models v a -> Q tt (put k a (K g !! k ≫= snd) g) ->
  wp t (on_db (unit_of (fun d => Db.overwriteValue d k v))) g Q.
Proof.
  intros Hc Hv HQ. apply wp_on_db. intros d m x Hh He Hs. unfold unit_of.
  destruct (Db.overwriteValue_ok d m x k v Hh) as (d' & -> & Hh' & Hcf & _). cbn [mbind option_bind].
  eexists d', tt, _, _, _, _. split_and!; [done|exact Hh'|done| |exact HQ]. one_key k Hs. exists v. pose proof (Hs k) as Hk.
  rewrite (bool_decide_true _ Hc) in Hk. destruct (K g !! k) as [[b e]|]; cbn.
  - destruct Hk as (w & _ & _ & Hx & Ha & Hd). by split_and!.
  - destruct Hk as [[_ ->]|[? _]]; by split_and!.
Qed.

Lemma wp_erase t k g (Q : bool -> view -> Prop) :
  (forall b, (is_some (K g !! k) = true -> b = true) -> (k ∈ settled g -> b = is_some (K g !! k)) -> Q b (remove k g)) ->
  wp t (on_db (fun d => Db.erase d k)) g Q.
Proof.
  intros HQ. apply wp_on_db. intros d m x Hh He Hs.
  destruct (Db.db_erase_ok d m x k Hh) as (d' & -> & Hh' & Hc & _). pose proof (Hs k) as Hk.
  eexists d', _, _, _, _, _. split_and!; [done|exact Hh'|done| |apply HQ]; [one_key k Hs; by left| |].
  - intros HK. destruct (K g !! k) as [[a e]|]; [|done]. destruct Hk as (v & -> & _). by apply bool_decide_true.
  - intros HC. rewrite (bool_decide_true _ HC) in Hk. destruct (K g !! k) as [[a e]|].
    + destruct Hk as (v & -> & _). by rewrite bool_decide_true by done.
    + destruct Hk as [[-> _]|[? _]]; [|done]. by rewrite bool_decide_false by auto.
Qed.

Lemma wp_setExpireAt t k a e w g (Q : unit -> view -> Prop) :
  K g !! k = Some (a, e) -> is_i64 w -> Q tt (if t <? w then put k a (Some w) g else doom k g) ->
  wp t (on_db (unit_of (fun d => Db.setExpireAt d k w))) g Q.
Proof.
  intros HK Hw HQ. apply wp_on_db. intros d m x Hh He Hs. unfold unit_of.
  destruct (Db.setExpireAt_ok d m x k w Hh) as (d' & -> & Hh' & Hc & _). cbn [mbind option_bind].
  pose proof (Hs k) as Hk. rewrite HK in Hk. destruct Hk as (v & Hm & Hv & _). destruct (t <? w) eqn:Hlt.
  - eexists d', tt, _, _, _, _. split_and!; [done|exact Hh'|done| |exact HQ]. one_key k Hs. by exists v.
  - eexists d', tt, _, _, _, _. split_and!; [done|exact Hh'|done| |exact HQ]. one_key k Hs. right. split; [|done].
    apply bool_decide_false. set_solver.
Qed.

Lemma wp_persist t k a e g (Q : bool -> view -> Prop) :
  K g !! k = Some (a, e) -> Q (is_some e) (put k a None g) -> wp t (on_db (fun d => Db.persist d k)) g Q.
Proof.
  intros HK HQ. apply wp_on_db. intros d m x Hh He Hs.
  destruct (Db.persist_ok d m x k Hh) as (d' & -> & Hh' & Hc & _). pose proof (Hs k) as Hk. rewrite HK in Hk.
  destruct Hk as (v & Hm & Hv & Hx & Ha & Hd).
  replace (is_some e) with (bool_decide (x !! k <> None)) in HQ by (rewrite Hx; destruct e; [by apply bool_decide_true|by apply bool_decide_false; auto]).
  eexists d', _, _, _, _, _. split_and!; [done|exact Hh'|done| |exact HQ]. one_key k Hs. exists v. by split_and!.
Qed.

Lemma view_eta g : g = mkView (K g) (KO g) (out g) (log g) (dirt g) (hits g) (misses g) (settled g).
Proof. by destruct g. Qed.

Lemma wp_expireAt t k a e g (Q : Z -> view -> Prop) :
  K g !! k = Some (a, e) -> Q (from_option id (-1) e) g -> wp t (on_db (fun d => Db.expireAtMs d k)) g Q.
Proof.
  intros HK HQ. apply wp_on_db. intros d m x Hh He Hs.
  destruct (Db.expireAtMs_ok d m x k Hh) as (d' & -> & Hh' & Hc & _). pose proof (Hs k) as Hk. rewrite HK in Hk.
  destruct Hk as (v & Hm & Hv & Hx & Ha & Hd). eexists d', _, _, _, (K g), (settled g). split_and!; [done|exact Hh'|done|done|].
  rewrite Hx, <- view_eta. exact HQ.
Qed.

(** The whole keyspace: entries that expired unnoticed may show up. *)
Lemma wp_keys t g (Q : list bytes -> view -> Prop) :
  (forall ks, NoDup ks -> (forall k, is_Some (K g !! k) -> k ∈ ks) -> Q ks g) -> wp t keys g Q.
Proof.
  intros HQ s Hs. exists s, (Db.keys (db s)), g. split; [done|]. split; [done|]. destruct Hs as ((_ & _ & m & x & [Hm _] & Hk) & _).
  pose proof (represents_forEach _ _ _ Hm) as Hp. unfold Db.keys. apply HQ.
  - change (NoDup (mforEach (Db.dict_ (db s))).*1). rewrite Hp. apply NoDup_fst_map_to_list.
  - intros k [[a e] HK]. specialize (Hk k). rewrite HK in Hk. destruct Hk as (v & Hv & _). change (k ∈ (mforEach (Db.dict_ (db s))).*1).
    rewrite Hp. apply list_elem_of_fmap. exists (k, v). split; [done|]. by apply elem_of_map_to_list.
Qed.

Lemma wp_randomKey t rng g (Q : option bytes -> view -> Prop) :
  Q None g -> (forall k, is_Some (K g !! k) -> Q (Some k) g) -> wp t (on_db (fun d => Db.randomKey d rng t)) g Q.
Proof.
  intros H0 HQ. apply wp_on_db. intros d m x Hh He Hs. destruct (Db.random_loop_ok 100 d m x rng 0 t Hh) as (d' & r & m' & x' & Hf & Hh' & Hc & Hr & Hv).
  exists d', r, m', x', (K g), (settled g). split_and!; [done..| |].
  - intros j. specialize (Hs j). destruct (Hr j) as [[-> ->]|(Hx & -> & ->)]; [done|]. rewrite is_expired_alive in Hx. unfold key_sim in *.
    destruct (K g !! j) as [[a e]|]; [|by left]. destruct Hs as (v & _ & _ & Hxe & Ha & _). by rewrite Hxe, Ha in Hx.
  - rewrite <- view_eta. destruct r as [k|]; [|done]. apply HQ. destruct Hv as [v Hv]. rewrite Db.visible_lookup, is_expired_alive in Hv. specialize (Hs k).
    destruct (K g !! k) as [[a e]|]; [by eexists|]. destruct Hs as [[Hm Hx]|[_ Ha]]; [by rewrite Hm in Hv; destruct (alive _ _)|by rewrite Ha in Hv].
Qed.

(** ** The other databases *)

Lemma key_sim_unchecked t b mv xw ae : key_sim t b mv xw ae -> key_sim t false mv xw ae.
Proof. destruct ae as [[a e]|]; [done|]. intros [?|[_ ?]]; [by left|by right]. Qed.

Lemma wp_on_other t (rq : request) (i : Z) (G : keyspace) {A} (f : Db.t D (Object.value D) -> option (Db.t D (Object.value D) * A)) (g : view) (Q : A -> view -> Prop) :
  i <> index rq -> KO g !! i = Some G ->
  (forall d m x, Db.holds d m x -> Db.expiration_enabled_ d = true -> (forall j, key_sim t false (m !! j) (x !! j) (G !! j)) ->
     exists d' a m' x' G', f d = Some (d', a) /\ Db.holds d' m' x' /\ Db.config d' = Db.config d /\
       (forall j, key_sim t false (m' !! j) (x' !! j) (G' !! j)) /\ Q a (set_KO g (<[i := G']> (KO g)))) ->
  wp t (on_db_at rq i f) g Q.
Proof.
  intros Hi HG H s (H1 & H2 & H3 & H4 & H5 & H6 & H7). unfold on_db_at. destruct (Z.eqb_spec i (index rq)); [done|].
  pose proof (H2 i) as Hd. rewrite HG in Hd. inversion Hd as [d ? (He & Hev & m & x & Hh & Hk) Hd1|]; subst.
  destruct (H d m x Hh He (fun j => key_sim_unchecked _ _ _ _ _ (Hk j))) as (d' & a & m' & x' & G' & Hf & Hh' & Hc & Hk' & HQ).
  cbn [mbind option_bind]. rewrite Hf. cbn [mbind option_bind]. eexists _, a, _. split; [done|]. split; [|exact HQ].
  split_and!; try done.
  - intros j. cbn [others set_notes set_others KO set_KO]. destruct (decide (j = i)) as [->|Hj].
    + rewrite !lookup_insert_eq. constructor. split; [unfold Db.config in Hc; cbn; congruence|]. split; [done|]. exists m', x'. split; [done|].
      intros k. by rewrite bool_decide_false by set_solver.
    + rewrite !lookup_insert_ne by done. apply H2.
  - cbn. by rewrite logged_app, logged_raised, app_nil_r.
Qed.

Lemma insert_same_KO (g : view) (i : Z) (G : keyspace) : KO g !! i = Some G -> set_KO g (<[i := G]> (KO g)) = g.
Proof. intros H. destruct g. unfold set_KO. cbn in *. f_equal. by apply insert_id. Qed.

Lemma wp_lookup_other t (rq : request) (i : Z) (G : keyspace) k g (Q : option (Object.value D) -> view -> Prop) : t = now rq -> i <> index rq -> KO g !! i = Some G ->
  match G !! k with Some (a, e) => forall v, models v a -> Q (Some v) g | None => Q None g end -> wp t (lookupRead_at rq i k) g Q.
Proof.
  intros -> Hi HG HQ. eapply wp_on_other; [done|exact HG|]. intros d m x Hh He Hs.
  destruct (lookup_in_sim (now rq) k ∅ G d m x Hh He) as (d' & o & m' & x' & Hf & Hh' & Hc & Hs' & Ho).
  { intros j. rewrite bool_decide_false by set_solver. apply Hs. }
  exists d', o, m', x', G. split_and!; [done..|intros j; by eapply key_sim_unchecked|]. rewrite (insert_same_KO _ _ _ HG).
  destruct (G !! k) as [[a e]|]; [|by subst o]. destruct Ho as (v & -> & Hv). by apply HQ.
Qed.

Lemma key_sim_unchecked_others t (k : bytes) (m m' : gmap bytes (Object.value D)) (x x' : gmap bytes Z) (G G' : keyspace) :
  (forall j : bytes, j <> k -> m' !! j = m !! j /\ x' !! j = x !! j /\ G' !! j = G !! j) ->
  (forall j, key_sim t false (m !! j) (x !! j) (G !! j)) ->
  key_sim t false (m' !! k) (x' !! k) (G' !! k) -> forall j, key_sim t false (m' !! j) (x' !! j) (G' !! j).
Proof.
  intros Ho Hs Hk j. destruct (decide (j = k)) as [->|Hne]; [done|]. by destruct (Ho j Hne) as (-> & -> & ->).
Qed.

Lemma wp_setKey_other t (rq : request) (i : Z) (G : keyspace) k v a g (Q : unit -> view -> Prop) : i <> index rq -> KO g !! i = Some G -> models v a ->
  Q tt (set_KO g (<[i := <[k := (a, None)]> G]> (KO g))) -> wp t (setKey_at rq i k v) g Q.
Proof.
  intros Hi HG Hv HQ. eapply wp_on_other; [done|exact HG|]. intros d m x Hh He Hs. unfold unit_of.
  destruct (Db.setKey_ok d m x k v Hh) as (d' & -> & Hh' & Hc & _). cbn [mbind option_bind].
  eexists d', tt, _, _, _. split_and!; [done|exact Hh'|done| |exact HQ]. eapply (key_sim_unchecked_others _ k); [|exact Hs|].
  - intros j Hj. by rewrite !lookup_insert_ne, lookup_delete_ne.
  - rewrite !lookup_insert_eq, lookup_delete_eq. by exists v.
Qed.

Lemma wp_setExpireAt_other t (rq : request) (i : Z) (G : keyspace) k a e w g (Q : unit -> view -> Prop) : i <> index rq -> KO g !! i = Some G ->
  G !! k = Some (a, e) -> is_i64 w -> t < w -> Q tt (set_KO g (<[i := <[k := (a, Some w)]> G]> (KO g))) -> wp t (setExpireAt_at rq i k w) g Q.
Proof.
  intros Hi HG HK Hw Hlt HQ. eapply wp_on_other; [done|exact HG|]. intros d m x Hh He Hs. unfold unit_of.
  destruct (Db.setExpireAt_ok d m x k w Hh) as (d' & -> & Hh' & Hc & _). cbn [mbind option_bind].
  pose proof (Hs k) as Hk. rewrite HK in Hk. destruct Hk as (v & Hm & Hv & _).
  eexists d', tt, _, _, _. split_and!; [done|exact Hh'|done| |exact HQ]. eapply (key_sim_unchecked_others _ k); [|exact Hs|].
  - intros j Hj. by rewrite !lookup_insert_ne.
  - rewrite !lookup_insert_eq, Hm. exists v. split_and!; [done..|cbn; lia|done].
Qed.

(** The deadline of a visible key lies ahead. *)
Lemma wp_known t {A} (m : M D A) k a e g (Q : A -> view -> Prop) : K g !! k = Some (a, e) ->
  (alive t e = true -> deadline_ok e -> wp t m g Q) -> wp t m g Q.
Proof.
  intros HK H s Hs. pose proof Hs as ((_ & _ & dm & dx & _ & Hk) & _). specialize (Hk k). rewrite HK in Hk. destruct Hk as (v & _ & _ & _ & Ha & Hd).
  by apply H.
Qed.

(** A visible value is one that some object represents. *)
Lemma wp_models t {A} (m : M D A) k a e g (Q : A -> view -> Prop) : K g !! k = Some (a, e) ->
  ((exists v, models v a) -> wp t m g Q) -> wp t m g Q.
Proof.
  intros HK H s Hs. pose proof Hs as ((_ & _ & dm & dx & _ & Hk) & _). specialize (Hk k). rewrite HK in Hk. destruct Hk as (v & _ & Hv & _).
  apply H; [by exists v|done].
Qed.

(** ** Pointers *)

Lemma wp_deref t k a e g (Q : _ -> view -> Prop) :
  K g !! k = Some (a, e) -> (forall v, models v a -> Q v g) -> wp t (deref k) g Q.
Proof.
  intros HK HQ s Hs. destruct Hs as [Hdb Hrest] eqn:E. clear E. destruct Hdb as (He & Hev & m & x & Hh & Hk).
  pose proof (Hk k) as Hj. rewrite HK in Hj. destruct Hj as (v & Hm & Hv & _). exists s, v, g.
  unfold deref. rewrite (represents_peek _ _ m) by apply Hh. rewrite Hm. cbn. split_and!; [done|done|by apply HQ].
Qed.

Lemma wp_assign t k a e v b g (Q : unit -> view -> Prop) :
  K g !! k = Some (a, e) -> models v b -> Q tt (update k b g) -> wp t (assign k v) g Q.
Proof.
  intros HK Hv HQ s ((He & Hev & m & x & [Hm Hx] & Hk) & Hrest). pose proof (Hk k) as Hj. rewrite HK in Hj.
  destruct Hj as (w & Hw & _ & Hxe & Ha & Hd). unfold assign.
  destruct (represents_poke _ _ m k v w Hm Hw) as (d' & -> & Hd'). cbn [mbind option_bind].
  eexists _, tt, _. split; [done|]. split; [|exact HQ]. split; [|exact Hrest]. split; [done|]. split; [done|].
  exists (<[k := v]> m), x. split; [done|]. cbn [settled K update set_K]. one_key k Hk. rewrite HK. cbn. by exists v.
Qed.

Lemma alter_insert_same (k : bytes) (a b : aval) (e : option Z) (G : keyspace) :
  G !! k = Some (a, e) -> alter (fun p => (b, snd p)) k G = <[k := (b, e)]> G.
Proof.
  intros HG. apply map_eq. intros j. destruct (decide (j = k)) as [->|Hj]; [by rewrite lookup_alter_eq, HG, lookup_insert_eq|].
  by rewrite lookup_alter_ne, lookup_insert_ne.
Qed.

Lemma update_update k a b g : update k b (update k a g) = update k b g.
Proof. unfold update, set_K. cbn. f_equal. apply map_eq. intros j. destruct (decide (j = k)) as [->|Hj]; [|by rewrite !lookup_alter_ne]. rewrite !lookup_alter_eq. by destruct (K g !! k). Qed.

Lemma update_lookup k a b e g : K g !! k = Some (a, e) -> K (update k b g) !! k = Some (b, e).
Proof. intros HK. cbn. by rewrite lookup_alter_eq, HK. Qed.

Lemma wp_on_value t {R} k a e (f : _ -> option (_ * R)) g (Q : R -> view -> Prop) :
  K g !! k = Some (a, e) ->
  (forall v, models v a -> exists v' r b, f v = Some (v', r) /\ models v' b /\ Q r (update k b g)) ->
  wp t (on_value k f) g Q.
Proof.
  intros HK H. unfold on_value. apply wp_bind, (wp_deref t k a e); [done|]. intros v Hv.
  destruct (H v Hv) as (v' & r & b & Hf & Hm & HQ). apply wp_bind, (wp_lift _ _ _ _ _ Hf). apply wp_bind, (wp_assign t k a e v' b); [done..|].
  by apply wp_ret.
Qed.

Lemma wp_on_hash t {R} k m e (f : _ -> option (_ * R)) g (Q : R -> view -> Prop) :
  K g !! k = Some (AHash m, e) ->
  (forall h, HashValue.holds h m -> exists h' r m', f h = Some (h', r) /\ HashValue.holds h' m' /\ Q r (update k (AHash m') g)) ->
  wp t (on_hash k f) g Q.
Proof.
  intros HK H. apply (wp_on_value t k (AHash m) e); [done|]. intros v (Ht & h & Hd & Hh). destruct (H h Hh) as (h' & r & m' & Hf & Hh' & HQ).
  unfold Object.hash. rewrite Hd. cbn [mbind option_bind]. rewrite Hf. cbn. eexists _, r, (AHash m'). split; [done|]. split; [|done]. split; [done|]. by exists h'.
Qed.

Lemma wp_on_set t {R} k m e (f : _ -> option (_ * R)) g (Q : R -> view -> Prop) :
  K g !! k = Some (ASet m, e) ->
  (forall h, SetValue.holds h m -> exists h' r m', f h = Some (h', r) /\ SetValue.holds h' m' /\ Q r (update k (ASet m') g)) ->
  wp t (on_set k f) g Q.
Proof.
  intros HK H. apply (wp_on_value t k (ASet m) e); [done|]. intros v (Ht & h & Hd & Hh). destruct (H h Hh) as (h' & r & m' & Hf & Hh' & HQ).
  unfold Object.set_. rewrite Hd. cbn [mbind option_bind]. rewrite Hf. cbn. eexists _, r, (ASet m'). split; [done|]. split; [|done]. split; [done|]. by exists h'.
Qed.

Lemma wp_on_zset t {R} k m e (f : _ -> option (_ * R)) g (Q : R -> view -> Prop) :
  K g !! k = Some (AZSet m, e) ->
  (forall h, ZSetValue.holds h m -> exists h' r m', f h = Some (h', r) /\ ZSetValue.holds h' m' /\ Q r (update k (AZSet m') g)) ->
  wp t (on_zset k f) g Q.
Proof.
  intros HK H. apply (wp_on_value t k (AZSet m) e); [done|]. intros v (Ht & h & Hd & Hh). destruct (H h Hh) as (h' & r & m' & Hf & Hh' & HQ).
  unfold Object.zset. rewrite Hd. cbn [mbind option_bind]. rewrite Hf. cbn. eexists _, r, (AZSet m'). split; [done|]. split; [|done]. split; [done|]. by exists h'.
Qed.

Lemma wp_on_list t {R} k m e (f : _ -> option (_ * R)) g (Q : R -> view -> Prop) :
  K g !! k = Some (AList m, e) ->
  (forall h, ListValue.holds h m -> exists h' r m', f h = Some (h', r) /\ ListValue.holds h' m' /\ Q r (update k (AList m') g)) ->
  wp t (on_list k f) g Q.
Proof.
  intros HK H. apply (wp_on_value t k (AList m) e); [done|]. intros v (Ht & h & Hd & Hh). destruct (H h Hh) as (h' & r & m' & Hf & Hh' & HQ).
  unfold Object.list_. rewrite Hd. cbn [mbind option_bind]. rewrite Hf. cbn. eexists _, r, (AList m'). split; [done|]. split; [|done]. split; [done|]. by exists h'.
Qed.

Lemma wp_the_hash t k m e g (Q : _ -> view -> Prop) :
  K g !! k = Some (AHash m, e) -> (forall h, HashValue.holds h m -> Q h g) -> wp t (the_hash k) g Q.
Proof. intros HK HQ. apply wp_bind. eapply wp_deref; [exact HK|]. intros v (_ & h & Hd & Hh). apply (wp_lift _ _ h); [|by apply HQ]. unfold Object.hash. by rewrite Hd. Qed.

Lemma wp_the_set t k m e g (Q : _ -> view -> Prop) :
  K g !! k = Some (ASet m, e) -> (forall h, SetValue.holds h m -> Q h g) -> wp t (the_set k) g Q.
Proof. intros HK HQ. apply wp_bind. eapply wp_deref; [exact HK|]. intros v (_ & h & Hd & Hh). apply (wp_lift _ _ h); [|by apply HQ]. unfold Object.set_. by rewrite Hd. Qed.

Lemma wp_the_zset t k m e g (Q : _ -> view -> Prop) :
  K g !! k = Some (AZSet m, e) -> (forall h, ZSetValue.holds h m -> Q h g) -> wp t (the_zset k) g Q.
Proof. intros HK HQ. apply wp_bind. eapply wp_deref; [exact HK|]. intros v (_ & h & Hd & Hh). apply (wp_lift _ _ h); [|by apply HQ]. unfold Object.zset. by rewrite Hd. Qed.

Lemma wp_the_list t k m e g (Q : _ -> view -> Prop) :
  K g !! k = Some (AList m, e) -> (forall h, ListValue.holds h m -> Q h g) -> wp t (the_list k) g Q.
Proof. intros HK HQ. apply wp_bind. eapply wp_deref; [exact HK|]. intros v (_ & h & Hd & Hh). apply (wp_lift _ _ h); [|by apply HQ]. unfold Object.list_. by rewrite Hd. Qed.

Lemma wp_bulks t items g (Q : unit -> view -> Prop) :
  (forall g', same g' (say (concat (map Reply.bulk items)) g) -> Q tt g') -> wp t (bulks (D:=D) items) g Q.
Proof.
  revert g. induction items as [|x items IH]; intros g HQ; cbn [bulks map concat] in *.
  - apply wp_ret, HQ. apply view_same; try done. cbn. by rewrite app_nil_r.
  - apply wp_bind, wp_write, IH. intros g' Hg'. apply HQ. rewrite Hg'. apply view_same; try done. cbn [out say]. by rewrite app_assoc.
Qed.

(** The handler does what the specification allows. *)
Definition meets t (h : M D unit) (sp : spec) : Prop :=
  forall g P, sp g = Some P -> wp t h g (fun _ g1 => exists g', P g' /\ same g1 g').

Lemma meets_exactly t (h : M D unit) g g' P : exactly g' = Some P -> wp t h g (fun _ g1 => same g1 g') ->
  wp t h g (fun _ g1 => exists g2, P g2 /\ same g1 g2).
Proof. intros [= <-] Hw. eapply wp_mono; [exact Hw|]. intros ? g1 Hg1. exists g'. split; [reflexivity|exact Hg1]. Qed.

(** ** Lookups *)

Lemma models_type v a : models v a -> Object.type_ v = atype a.
Proof. destruct a; cbn; [by intros (_ & ? & _)|by intros [? _]..]. Qed.

Lemma models_count v a : models v a -> Object.elementCount v = acount a.
Proof.
  intros Hm. pose proof (models_type v a Hm) as Ht. unfold Object.elementCount. rewrite Ht.
  destruct a as [s|l|m|X|l]; cbn [atype acount]; [done|destruct Hm as (_ & h & Hd & Hh)..];
    unfold Object.list_, Object.hash, Object.set_, Object.zset; rewrite Hd; cbn.
  - by apply ListValue.list_size_holds.
  - by apply HashValue.hash_size_holds.
  - destruct (SetValue.members_holds h X Hh) as (Hn & <- & <-). by rewrite size_list_to_set.
  - destruct Hh as (l' & Hx & <-). rewrite (ZSetValue.exact_size h l' Hx). unfold ZSetValue.canons. by rewrite length_map.
Qed.

Lemma empty_value_models ty : exists v, models v (aempty ty) /\
  match ty with
  | OList => v = Object.makeList | OHash => v = Object.makeHash | OSet => v = Object.makeSet | OZSet => v = Object.makeZSet
  | OString => True
  end.
Proof.
  destruct ty; cbn.
  - exists Object.default. split; [|done]. split_and!; [by left|done|done].
  - eexists. split; [|done]. split; [done|]. eexists. split; [done|]. apply ListValue.new_holds.
  - eexists. split; [|done]. split; [done|]. eexists. split; [done|]. apply SetValue.set_holds_new.
  - eexists. split; [|done]. split; [done|]. eexists. split; [done|]. apply HashValue.hash_holds_new.
  - eexists. split; [|done]. split; [done|]. eexists. split; [done|]. apply ZSetValue.zset_holds_new.
Qed.

(** The values whose copy is defined: a copied hash is refilled through its
    listpack encoding, a copied skip list counts its nodes in 64 bits. *)
Definition copyable (a : aval) : bool :=
  match a with
  | AHash h => bool_decide (map_Forall (fun _ x => Listpack.storable x) h)
  | AZSet l => Z.of_nat (length l) <? 2 ^ 64
  | _ => true
  end.

Lemma models_copy rnd v a : models v a -> copyable a = true -> exists v', Object.copy rnd v = Some v' /\ models v' a.
Proof.
  intros Hm Hc. unfold Object.copy. destruct a as [s|l|h|X|l].
  - destruct Hm as (Hw & Hs & Hv). exists v. split; [|done]. destruct v as [ty en da la]. unfold Object.is_string in Hs. cbn in *. subst ty.
    unfold Object.wf in Hw. cbn in Hw. by destruct da.
  - destruct Hm as (Ht & h & Hd & Hh). rewrite Hd. eexists. split; [done|]. split; [done|]. by exists h.
  - destruct Hm as (Ht & hv & Hd & Hh). apply bool_decide_eq_true in Hc. destruct (HashValue.hash_copy_holds hv h Hh Hc) as (h' & He & Hh').
    rewrite Hd, He. eexists. split; [done|]. split; [done|]. by exists h'.
  - destruct Hm as (Ht & sv & Hd & Hh). destruct (SetValue.set_copy_holds sv X Hh) as (h' & He & Hh').
    rewrite Hd, He. eexists. split; [done|]. split; [done|]. by exists h'.
  - destruct Hm as (Ht & zv & Hd & Hh). apply Z.ltb_lt in Hc. destruct (ZSetValue.holds_copy zv l rnd Hh Hc) as (h' & He & Hh').
    rewrite Hd, He. eexists. split; [done|]. split; [done|]. by exists h'.
Qed.

Section Request.
Context (rq : request).
Abbreviation t := (now rq).

Definition wrong_type : bytes := Reply.error (str "WRONGTYPE Operation against a key holding the wrong kind of value").
Definition keymiss (k : bytes) (g : view) : view := tell_at (index rq) Notify.kKeyMiss "keymiss" k g.
Definition tell (c : Z) (e : string) (k : bytes) (g : view) : view := tell_at (index rq) c e k g.

Definition null : bytes := Reply.nullBulk (protover rq).
Definition null_or (v : option bytes) : bytes := match v with Some s => Reply.bulk s | None => null end.

Lemma wp_bulk_or_null (v : option bytes) g (Q : unit -> view -> Prop) : Q tt (say (null_or v) g) -> wp t (bulk_or_null (D:=D) rq v) g Q.
Proof. intros HQ. destruct v; by apply wp_write. Qed.

Lemma wp_arg {A} i b (k : bytes -> M D A) g Q : argv rq !! i = Some b -> wp t (k b) g Q -> wp t (mbind k (arg rq i)) g Q.
Proof. intros Hi HQ. apply wp_bind. by apply (wp_lift _ _ b). Qed.

Lemma wp_lookupRead k g (Q : option (Object.value D) -> view -> Prop) :
  match K g !! k with
  | Some (a, e) => forall v, models v a -> Q (Some v) (settle k g)
  | None => Q None (settle k g)
  end -> wp t (lookupRead rq k) g Q.
Proof. apply wp_lookup. Qed.

Lemma wp_lookupWrite k g (Q : option (Object.value D) -> view -> Prop) :
  match K g !! k with
  | Some (a, e) => forall v, models v a -> Q (Some v) (settle k g)
  | None => Q None (settle k g)
  end -> wp t (lookupWrite rq k) g Q.
Proof. apply wp_lookup. Qed.

Lemma wp_lookupTyped k ty g (Q : typed D -> view -> Prop) :
  match K g !! k with
  | Some (a, e) =>
      if bool_decide (atype a = ty) then forall v, models v a -> Q (Found v) (settle k g)
      else Q TypeError (say wrong_type (settle k g))
  | None => Q Missing (settle k g)
  end -> wp t (lookupTyped rq k ty) g Q.
Proof.
  intros HQ. apply wp_bind, wp_lookup. destruct (K g !! k) as [[a e]|]; [|by apply wp_ret].
  intros v Hv. rewrite (models_type v a Hv). destruct (bool_decide (atype a = ty)); [by apply wp_ret, HQ|].
  apply wp_bind, wp_write. by apply wp_ret.
Qed.

Lemma wp_lookupTypedRead k ty g (Q : typed D -> view -> Prop) :
  match K g !! k with
  | Some (a, e) =>
      if bool_decide (atype a = ty) then forall v, models v a -> Q (Found v) (settle k g)
      else Q TypeError (say wrong_type (settle k g))
  | None => Q Missing (keymiss k (settle k g))
  end -> wp t (lookupTypedRead rq k ty) g Q.
Proof.
  intros HQ. apply wp_bind, wp_lookup. destruct (K g !! k) as [[a e]|]; [|by apply wp_bind, wp_announce, wp_ret].
  intros v Hv. rewrite (models_type v a Hv). destruct (bool_decide (atype a = ty)); [by apply wp_ret, HQ|].
  apply wp_bind, wp_write. by apply wp_ret.
Qed.

Lemma wp_lookupOrCreate k ty g (Q : typed D -> view -> Prop) :
  ty <> OString ->
  match K g !! k with
  | Some (a, e) =>
      if bool_decide (atype a = ty) then forall v, models v a -> Q (Found v) (settle k g)
      else Q TypeError (say wrong_type (settle k g))
  | None => forall v, models v (aempty ty) -> Q (Found v) (settle k (put k (aempty ty) None (settle k g)))
  end -> wp t (lookupOrCreate rq k ty) g Q.
Proof.
  intros Hty HQ. apply wp_bind, wp_lookupTyped. destruct (K g !! k) as [[a e]|].
  { destruct (bool_decide (atype a = ty)); [intros v Hv; by apply wp_ret, HQ|by apply wp_ret]. }
  destruct (empty_value_models ty) as (v0 & Hv0 & Heq).
  destruct ty; [done|subst v0..]; cbv iota; apply wp_bind, (wp_setKey _ _ _ _ _ _ Hv0), wp_bind, wp_lookup; cbn [K put settle set_K];
    rewrite lookup_insert_eq; intros v Hv; by apply wp_ret, HQ.
Qed.

Lemma wp_deleteIfEmpty k a e g (Q : unit -> view -> Prop) :
  K g !! k = Some (a, e) -> atype a <> OString ->
  Q tt (if (acount a =? 0)%nat then tell Notify.kGeneric "del" k (remove k g) else g) ->
  wp t (deleteIfEmpty rq k) g Q.
Proof.
  intros HK Ht HQ. apply wp_bind, (wp_deref t k a e); [done|]. intros v Hv. rewrite (models_type v a Hv), bool_decide_false, (models_count v a Hv) by done.
  destruct (acount a =? 0)%nat; [|by apply wp_ret]. apply wp_bind, wp_erase. intros b _ _. by apply wp_announce.
Qed.

(** A collection that becomes empty disappears with its key. *)
Definition leave (k : bytes) (a : aval) (e : option Z) (g : view) : view :=
  if (acount a =? 0)%nat then tell Notify.kGeneric "del" k (remove k g) else put k a e g.

Lemma leave_same k a e g g' : same g g' -> same (leave k a e g) (leave k a e g').
Proof. intros H. unfold leave. case_if; [by apply same_tell, same_remove|by apply same_put]. Qed.

Lemma leave_update k a b e g : same (leave k a e (update k b g)) (leave k a e g).
Proof.
  unfold leave. case_if; [apply same_tell, remove_update|]. apply view_same; try done. cbn. apply map_eq. intros j.
  destruct (decide (j = k)) as [->|Hj]; [by rewrite !lookup_insert_eq|]. by rewrite !lookup_insert_ne, lookup_alter_ne.
Qed.

Lemma leave_put k a b e e' g : same (leave k a e (put k b e' g)) (leave k a e g).
Proof. unfold leave. case_if; [apply same_tell, remove_put|apply put_put]. Qed.

Lemma wp_leave k a e g (Q : unit -> view -> Prop) :
  K g !! k = Some (a, e) -> atype a <> OString -> (forall g', same g' (leave k a e g) -> Q tt g') -> wp t (deleteIfEmpty rq k) g Q.
Proof.
  intros HK Ha HQ. eapply wp_deleteIfEmpty; [exact HK|done|]. apply HQ. unfold leave. case_if; [done|].
  rewrite <- (update_put k a a e g HK). by rewrite (update_id k a e g HK).
Qed.

Lemma wp_exists k g (Q : bool -> view -> Prop) : Q (is_some (K g !! k)) (settle k g) -> wp t (exists_ rq k) g Q.
Proof.
  intros HQ. apply wp_on_db. intros d m x Hh He Hs.
  destruct (lookup_in_sim t k _ _ d m x Hh He Hs) as (d' & o & m' & x' & Hf & Hh' & Hc & Hs' & Ho).
  unfold Db.exists_. rewrite Hf. cbn [mbind option_bind]. eexists d', _, m', x', (K g), ({[k]} ∪ settled g). split_and!; [done..|].
  destruct (K g !! k) as [[a e]|]; [destruct Ho as (v & -> & _)|subst o]; exact HQ.
Qed.

Lemma wp_ttl k g (Q : Z -> view -> Prop) : 0 <= t ->
  match K g !! k with
  | Some (a, Some w) => Q (w - t) (settle k g)
  | Some (a, None) => Q (-1) (settle k g)
  | None => Q (-2) (settle k g)
  end -> wp t (ttlMs rq k) g Q.
Proof.
  intros Ht HQ. apply wp_on_db. intros d m x Hh He Hs.
  destruct (lookup_in_sim t k _ _ d m x Hh He Hs) as (d' & o & m' & x' & Hf & Hh' & Hc & Hs' & Ho).
  unfold Db.ttlMs. rewrite Hf. cbn [mbind option_bind]. destruct (K g !! k) as [[a e]|] eqn:HK.
  - destruct Ho as (v & -> & _). cbn [is_some negb]. destruct (Db.expireAtMs_ok d' m' x' k Hh') as (d2 & -> & Hh2 & Hc2 & _). cbn [mbind option_bind].
    pose proof (Hs' k) as Hk. rewrite HK in Hk. destruct Hk as (w & _ & _ & -> & Ha & Hd). rewrite <- Hc, <- Hc2.
    destruct e as [w'|]; cbn in Ha, Hd |- *.
    + apply Z.ltb_lt in Ha. unfold s_range in Hd. cbn in Hd. replace (w' <? 0) with false by lia.
      rewrite swrap_small by (unfold s_range; cbn; lia). replace (w' - t <? 0) with false by lia.
      by eexists d2, _, m', x', (K g), ({[k]} ∪ settled g).
    + by eexists d2, _, m', x', (K g), ({[k]} ∪ settled g).
  - subst o. by eexists d', _, m', x', (K g), ({[k]} ∪ settled g).
Qed.

End Request.

(** ** Composition *)

(** Forgetting which deadlines were checked loses nothing a client sees. *)
Lemma sim_unsettle t s g : sim t s g -> sim t s (unsettle g).
Proof.
  intros ((He & Hev & m & x & Hh & Hk) & Hrest). split; [|exact Hrest]. split; [done|]. split; [done|]. exists m, x. split; [done|].
  intros j. specialize (Hk j). cbn [K unsettle settled]. unfold key_sim in *. destruct (K g !! j) as [[a e]|]; [done|].
  destruct Hk as [?|[_ ?]]; [by left|right]. split; [|done]. by apply bool_decide_false.
Qed.

Lemma db_sim_later t (u : Z) (C : gset bytes) d (G : keyspace) : t <= u -> db_sim t C d G -> db_sim u ∅ d (survivors u G).
Proof.
  intros Htu (He & Hev & m & x & Hh & Hk). split; [done|]. split; [done|]. exists m, x. split; [done|].
  intros j. specialize (Hk j). unfold survivors. rewrite map_lookup_filter. unfold key_sim in *. destruct (G !! j) as [[a e]|]; cbn.
  - destruct Hk as (v & Hm & Hv & Hx & Ha & Hd). case_guard as Hal; [by exists v|]. right. split; [done|]. rewrite Hx. by apply not_true_iff_false.
  - destruct Hk as [?|[_ Ha]]; [by left|right]. split; [done|]. unfold alive in *. destruct (x !! j); [|done]. lia.
Qed.

(** What the next request finds when the clock has advanced. *)
Definition later (u : Z) (g : view) : view :=
  mkView (survivors u (K g)) (survivors u <$> KO g) (out g) (log g) (dirt g) (hits g) (misses g) ∅.

Lemma sim_later t (u : Z) s g : t <= u -> sim t s g -> sim u s (later u g).
Proof.
  intros Htu (H1 & H2 & Hrest). split; [by eapply db_sim_later|]. split; [|exact Hrest].
  intros i. specialize (H2 i). cbn [KO later]. rewrite lookup_fmap. destruct H2; constructor. by eapply db_sim_later.
Qed.

End Relation.

#[global] Opaque wp.

(** ** Automation *)

(** One primitive of a handler; lookups and pointer accesses are left to the
    proof, which knows what is stored. *)
Ltac wp_step :=
  lazymatch goal with
  | |- wp _ (mbind _ (arg _ _)) _ _ => eapply wp_arg; [first [eassumption | match goal with H : argv _ = _ |- _ => rewrite H; reflexivity end]|]
  | |- wp _ (mbind _ _) _ _ => apply wp_bind
  | |- wp _ (mret _) _ _ => apply wp_ret
  | |- wp _ (markDirty _) _ _ => apply wp_dirty
  | |- wp _ count_hit _ _ => apply wp_hit
  | |- wp _ count_miss _ _ => apply wp_miss
  | |- wp _ (notify _ _ _ _) _ _ => apply wp_announce
  | |- wp _ (notifyKeyMiss _ _) _ _ => apply wp_announce
  | |- wp _ (write _) _ _ => apply wp_write
  | |- wp _ (error _) _ _ => apply wp_write
  | |- wp _ wrongType _ _ => apply wp_write
  | |- wp _ syntaxError _ _ => apply wp_write
  | |- wp _ notAnInteger _ _ => apply wp_write
  | |- wp _ notAFloat _ _ => apply wp_write
  | |- wp _ (wrongArgs _) _ _ => apply wp_write
  | |- wp _ ok _ _ => apply wp_write
  | |- wp _ (integer _) _ _ => apply wp_write
  | |- wp _ (bulk _) _ _ => apply wp_write
  | |- wp _ (bulkArray _) _ _ => apply wp_write
  | |- wp _ (arrayHeader _) _ _ => apply wp_write
  | |- wp _ (nullBulk _) _ _ => apply wp_write
  | |- wp _ (nullArray _) _ _ => apply wp_write
  | |- wp _ (mapHeader _ _) _ _ => apply wp_write
  | |- wp _ (setHeader _ _) _ _ => apply wp_write
  | |- wp _ (doubleValue _ _) _ _ => apply wp_write
  | |- wp _ (ensureString None) _ _ => apply (wp_ret _ true)
  | |- wp _ (random _) _ _ => apply wp_random; intros ?
  end.

(** Equality of two views built from the same one; what may differ is how
    the keyspace was updated. *)
Ltac view_eq :=
  apply view_same; [|reflexivity..];
  cbn [K put doom remove update settle say tell_at mark hit miss set_K set_KO unsettle Keyspace.tell Keyspace.keymiss].
Lemma insert_alter_same (k : bytes) (f : aval * option Z -> aval * option Z) (p : aval * option Z) (G : keyspace) : <[k := p]> (alter f k G) = <[k := p]> G.
Proof. apply map_eq. intros j. destruct (decide (j = k)) as [->|Hj]; [by rewrite !lookup_insert_eq|]. by rewrite !lookup_insert_ne, lookup_alter_ne. Qed.
Lemma delete_alter_same (k : bytes) (f : aval * option Z -> aval * option Z) (G : keyspace) : delete k (alter f k G) = delete k G.
Proof. apply map_eq. intros j. destruct (decide (j = k)) as [->|Hj]; [by rewrite !lookup_delete_eq|]. by rewrite !lookup_delete_ne, lookup_alter_ne. Qed.

(** Equality of two views that both end by leaving a collection behind. *)
Ltac leave_now :=
  unfold leave; match goal with |- context [if ?c then _ else _] => destruct c end;
  view_eq; rewrite ?insert_alter_same, ?delete_alter_same, ?insert_insert_eq, ?delete_insert_eq; reflexivity.
Ltac put_now HK := view_eq; rewrite (alter_insert_same _ _ _ _ _ HK), ?insert_insert_eq; reflexivity.
Ltac fresh_now := view_eq; rewrite alter_insert_eq, ?insert_insert_eq; reflexivity.
Ltac same_now := view_eq; rewrite ?insert_insert_eq, ?delete_insert_eq, ?delete_delete_eq; try reflexivity.

(** The arguments a specification looks at are there. *)
Ltac args_in Hs := repeat match type of Hs with
  | context [argv ?rq !! ?i] =>
      let H := fresh "H" in let b := fresh "b" in destruct (argv rq !! i) as [b|] eqn:H; [|done]; cbn [mbind option_bind] in Hs
  end.

(** Case analysis on what a typed lookup finds. *)
Ltac cases k :=
  cbn [K settle say tell_at mark] in *;
  destruct (K _ !! k) as [[[s|l|h|X|z] e]|] eqn:HK; cbn [atype];
  repeat match goal with
  | |- context [bool_decide (?a = ?b :> ObjType)] => let r := eval vm_compute in (bool_decide (a = b)) in change (bool_decide (a = b)) with r
  end; cbv iota beta; try (intros ?v ?Hv).

(** The head of a specification, and the end of a proof against an exact one. *)
Ltac head_of t := lazymatch t with ?f _ => head_of f | _ => t end.
Ltac finish Hs := eapply meets_exactly; [exact Hs|].

Ltac wp_run := cbn [negb is_some andb orb]; cbv beta iota; repeat (wp_step; cbn [negb is_some andb orb]; cbv beta iota).

End Keyspace.
