(* ===== verification/RdbObject.v ===== *)
(** * RdbObject: value objects in the snapshot format

    The object half of [src/persist/rdb.cpp]: the type byte, the body of a
    value in each encoding, the reader of all the bodies, and the DUMP and
    RESTORE payload (type, body, version, checksum). *)

From Stdlib Require Import ZArith Lia.
From stdpp Require Import base list numbers option gmap strings.
From S2P Require Import Prelude Encoding Double Strtod IntSet Listpack MapSpec Dict HashValue SkipList ZSetValue SetValue ListValue Object Rdb Keyspace.

Module RdbObject.
Import Keyspace Rdb.

Definition kTypeString : Z := 0.
Definition kTypeSet : Z := 2.
Definition kTypeZSet : Z := 3.
Definition kTypeHash : Z := 4.
Definition kTypeZSet2 : Z := 5.
Definition kTypeSetIntset : Z := 11.
Definition kTypeHashListpack : Z := 16.
Definition kTypeZSetListpack : Z := 17.
Definition kTypeListQuicklist2 : Z := 18.
Definition kTypeSetListpack : Z := 20.

Definition kNodePlain : Z := 1.
Definition kNodePacked : Z := 2.
Definition kPlainNodeThreshold : nat := Z.to_nat 8192.

(** ** Loops of the reader *)

(** [for (i = 0; i < n; ++i)] around a body that returns early. The count is
    whatever the bytes announce; every turn reads at least one byte, so the
    bytes left bound the turns. *)
Fixpoint times {A} (fuel : nat) (n : Z) (body : A -> parser A) (a : A) : parser A :=
  if n <=? 0 then mret a
  else match fuel with O => throw | S fuel => a ← body a; times fuel (n - 1) body a end.

Definition repeat_ {A} (n : Z) (body : A -> parser A) (a : A) : parser A := fun r => times (S (remaining r)) n body a r.

Definition lift {A} (o : option A) : parser A := match o with Some a => mret a | None => throw end.
Definition or_refuse {A} (o : option A) : parser A := match o with Some a => mret a | None => refuse end.

Section Objects.
Context {D : Type -> Type} {ops : MapOps D}.
(** The largest allocation; whether the C library reports a range error for a
    text (for an underflow that is its choice); the random bits of skip lists. *)
Context (max_alloc : Z) (range_error : bytes -> bool) (rnd : nat -> nat -> nat -> Z).

Definition saveBinaryDouble (value : Z) : bytes := push_le 8 value.
Definition loadBinaryDouble : parser Z := raw ← readRaw 8; mret (fold_le raw).

(** [std::stod] throws without a conversion and out of range; both are caught. *)
Definition stod (text : bytes) : option Z :=
  let c_str := fst (Strtod.span (fun c => negb (c =? 0)) text) in
  let '(d, rest) := Strtod.parse c_str in
  if (length rest =? length c_str)%nat || range_error c_str then None else Some d.

Definition loadTextDouble : parser Z :=
  len ← readByte;
  if len =? 255 then mret Double.neg_infinity
  else if len =? 254 then mret Double.infinity
  else if len =? 253 then mret Double.quiet_nan
  else
    raw ← readRaw len;
    or_refuse (stod raw).

Definition appendListpackBytes (lp : bytes) : option bytes := saveString lp.

Definition readListpack : parser bytes :=
  blob ← readString max_alloc;
  or_refuse (Listpack.fromBytes blob).

Definition objectType (value : Object.value D) : Z :=
  match Object.type_ value with
  | OString => kTypeString
  | OList => kTypeListQuicklist2
  | OSet =>
      match from_option SetValue.encoding_ EHashTable (Object.set_ value) with
      | EIntSet => kTypeSetIntset | EListPack => kTypeSetListpack | _ => kTypeSet
      end
  | OHash =>
      match from_option HashValue.encoding_ EHashTable (Object.hash value) with EListPack => kTypeHashListpack | _ => kTypeHash end
  | OZSet =>
      match from_option ZSetValue.encoding_ ESkipList (Object.zset value) with EListPack => kTypeZSetListpack | _ => kTypeZSet2 end
  end.

(** Each string of a run, written behind the one before. *)
Fixpoint saveStrings (l : list bytes) : option bytes :=
  match l with
  | [] => Some []
  | s :: l => out ← saveString s; rest ← saveStrings l; Some (out ++ rest)
  end.

(** The element of a node that is written with no listpack around it. *)
Definition plain_element (node : bytes) : option bytes :=
  if (Listpack.numElements node =? 1)%nat then
    match Listpack.get node 0 with
    | Some (Listpack.Str s) => if (kPlainNodeThreshold <? length s)%nat then Some s else None
    | _ => None
    end
  else None.

Definition saveNode (node : bytes) : option bytes :=
  match plain_element node with
  | Some s => out ← saveString s; Some (saveLen kNodePlain ++ out)
  | None => out ← appendListpackBytes node; Some (saveLen kNodePacked ++ out)
  end.

Fixpoint saveNodes (nodes : list bytes) : option bytes :=
  match nodes with
  | [] => Some []
  | node :: nodes => out ← saveNode node; rest ← saveNodes nodes; Some (out ++ rest)
  end.

Fixpoint saveScored (l : list (bytes * Z)) : option bytes :=
  match l with
  | [] => Some []
  | (m, s) :: l => out ← saveString m; rest ← saveScored l; Some (out ++ saveBinaryDouble s ++ rest)
  end.

Definition count {A} (l : list A) : Z := Z.of_nat (length l).

Definition saveObjectBody (value : Object.value D) : option bytes :=
  match Object.type_ value with
  | OString => saveString (Object.stringValue value)
  | OList =>
      list ← Object.list_ value;
      nodes ← saveNodes (ListValue.nodes_ list);
      Some (saveLen (count (ListValue.nodes_ list)) ++ nodes)
  | OSet =>
      set ← Object.set_ value;
      match SetValue.encoding_ set with
      | EIntSet => saveString (IntSet.toBytes (SetValue.intset_ set))
      | EListPack => appendListpackBytes (SetValue.listpack_ set)
      | _ =>
          let members := SetValue.members set in
          out ← saveStrings members;
          Some (saveLen (count members) ++ out)
      end
  | OHash =>
      hash ← Object.hash value;
      match HashValue.encoding_ hash with
      | EListPack => appendListpackBytes (HashValue.listpack_ hash)
      | _ =>
          let flat := HashValue.flatten hash in
          out ← saveStrings flat;
          Some (saveLen (count flat / 2) ++ out)
      end
  | OZSet =>
      zset ← Object.zset value;
      match ZSetValue.encoding_ zset with
      | EListPack => appendListpackBytes (ZSetValue.listpack_ zset)
      | _ =>
          all ← ZSetValue.all zset;
          out ← saveScored (rev all);
          Some (saveLen (count all) ++ out)
      end
  end.

(** What [make...()] leaves in the union, then the assignment through it. *)
Definition with_list (l : ListValue.t) : Object.value D := Object.mk OList EEmbStr (Object.DList l) 0.
Definition with_set (s : SetValue.t D) : Object.value D := Object.mk OSet EEmbStr (Object.DSet s) 0.
Definition with_hash (h : HashValue.t D) : Object.value D := Object.mk OHash EEmbStr (Object.DHash h) 0.
Definition with_zset (z : ZSetValue.t D) : Object.value D := Object.mk OZSet EEmbStr (Object.DZSet z) 0.

Definition loadNode (packs : list bytes) : parser (list bytes) :=
  container ← readLen;
  if container =? kNodePlain then
    element ← readString max_alloc;
    mret (packs ++ [Listpack.append Listpack.new element])
  else if negb (container =? kNodePacked) then refuse
  else
    node ← readListpack;
    if (Listpack.numElements node =? 0)%nat then refuse else mret (packs ++ [node]).

Definition loadMember (s : SetValue.t D) : parser (SetValue.t D) :=
  member ← readString max_alloc;
  '(s, _) ← lift (SetValue.add s member);
  mret s.

Definition loadField (h : HashValue.t D) : parser (HashValue.t D) :=
  field ← readString max_alloc;
  value ← readString max_alloc;
  '(h, _) ← lift (HashValue.set h field value);
  mret h.

(** The turn number picks the random bits of the insertion. *)
Definition loadScored (type : Z) (kz : nat * ZSetValue.t D) : parser (nat * ZSetValue.t D) :=
  let '(k, z) := kz in
  member ← readString max_alloc;
  score ← (if type =? kTypeZSet2 then loadBinaryDouble else loadTextDouble);
  '(z, _) ← lift (ZSetValue.add z (rnd k) (rnd k 129%nat) member score);
  mret (S k, z).

Definition readCount : parser Z := len ← readLen; if len =? 0 then refuse else mret len.

(** A listpack that holds something. *)
Definition readFullListpack : parser bytes :=
  lp ← readListpack; if (Listpack.numElements lp =? 0)%nat then refuse else mret lp.

Definition loadObjectBody (type : Z) : parser (Object.value D) :=
  if type =? kTypeString then s ← readString max_alloc; mret (Object.makeString s)
  else if type =? kTypeListQuicklist2 then
    nodes ← readCount;
    _ ← allocate max_alloc nodes;
    packs ← repeat_ nodes loadNode [];
    let '(l, ok) := ListValue.adoptNodes ListValue.new packs in
    if ok : bool then mret (with_list l) else refuse
  else if type =? kTypeSetIntset then
    blob ← readString max_alloc;
    match IntSet.fromBytes blob with
    | None => refuse
    | Some ints =>
        if (length (IntSet.values_ ints) =? 0)%nat then refuse
        else s ← lift (SetValue.adoptIntSet SetValue.new ints); mret (with_set s)
    end
  else if type =? kTypeSetListpack then
    lp ← readFullListpack; s ← lift (SetValue.adoptListpack SetValue.new lp); mret (with_set s)
  else if type =? kTypeSet then
    len ← readCount;
    s ← repeat_ len loadMember SetValue.new;
    if (0 <? SetValue.size s)%nat then mret (with_set s) else refuse
  else if type =? kTypeHashListpack then
    lp ← readFullListpack;
    '(h, ok) ← lift (HashValue.adoptListpack HashValue.new lp);
    if ok : bool then mret (with_hash h) else refuse
  else if type =? kTypeHash then
    len ← readCount;
    h ← repeat_ len loadField HashValue.new;
    if (0 <? HashValue.size h)%nat then mret (with_hash h) else refuse
  else if type =? kTypeZSetListpack then
    lp ← readFullListpack;
    '(z, ok) ← lift (ZSetValue.adoptListpack ZSetValue.new lp (rnd 0));
    if ok : bool then mret (with_zset z) else refuse
  else if (type =? kTypeZSet) || (type =? kTypeZSet2) then
    len ← readCount;
    kz ← repeat_ len (loadScored type) (0%nat, ZSetValue.new);
    if (0 <? ZSetValue.size (snd kz))%nat then mret (with_zset (snd kz)) else refuse
  else refuse.

(** ** DUMP and RESTORE *)

Definition dumpPayload (value : Object.value D) : option bytes :=
  body ← saveObjectBody value;
  let out := (objectType value :: body) ++ [u8 (Z.land kRdbVersion 255); u8 (Z.land (Z.shiftr kRdbVersion 8) 255)] in
  Some (out ++ push_le 8 (crc64 0 out)).

Definition payloadFooterOk (payload : bytes) : bool :=
  if (length payload <? 11)%nat then false
  else
    let footer := (length payload - 10)%nat in
    let byte i := payload !!! i in
    let version := u16 (Z.lor (byte footer) (Z.shiftl (byte (footer + 1)%nat) 8)) in
    if kRdbVersion <? version then false
    else
      let stored := fold_le (take 8 (drop (footer + 2) payload)) in
      stored =? crc64 0 (take (footer + 2) payload).

Definition loadPayload (payload : bytes) : res (Object.value D) :=
  if (length payload <? 11)%nat then Refused
  else
    match (type ← readByte; loadObjectBody type) (mkReader (take (length payload - 10) payload) 0) with
    | Got v r => if exhausted r then Got v r else Refused
    | other => other
    end.
End Objects.
(** ** Loops read what was written turn by turn *)

Inductive runs {A} (body : A -> parser A) : nat -> bytes -> A -> A -> Prop :=
  | runs_done a : runs body 0 [] a a
  | runs_turn n x y a b c : x <> [] -> parses (body a) x b -> runs body n y b c -> runs body (S n) (x ++ y) a c.

Lemma runs_length {A} (body : A -> parser A) n x a b : runs body n x a b -> (n <= length x)%nat.
Proof. induction 1 as [|n [|] y a b c]; [done|done|]. rewrite length_app. cbn. lia. Qed.

Lemma parses_times {A} (body : A -> parser A) n x a b fuel : runs body n x a b -> (n <= fuel)%nat -> parses (times fuel (Z.of_nat n) body a) x b.
Proof.
  intros H. revert fuel. induction H as [a|n x y a b c Hx Hp H IH]; intros fuel Hf.
  - destruct fuel; cbn; apply parses_ret.
  - destruct fuel as [|fuel]; [lia|]. cbn [times]. rewrite (proj2 (Z.leb_gt _ _)) by lia. eapply parses_bind; [exact Hp|].
    replace (Z.of_nat (S n) - 1) with (Z.of_nat n) by lia. apply IH. lia.
Qed.

Lemma parses_repeat {A} (body : A -> parser A) n x a b : runs body n x a b -> parses (repeat_ (Z.of_nat n) body a) x b.
Proof.
  intros H r rest Hr. unfold repeat_. apply (parses_times body n x a b) with (rest := rest); [done| |done].
  pose proof (runs_length _ _ _ _ _ H). destruct Hr as [Hr _]. apply (f_equal length) in Hr. rewrite length_drop, length_app in Hr. unfold remaining. lia.
Qed.

(** The turns the bytes left allow are never used up: more would change nothing. *)
Definition consumes {A} (p : parser A) : Prop := forall r a r', p r = Got a r' -> (remaining r' < remaining r)%nat.

Lemma times_enough {A} (body : A -> parser A) n a r f f' : (forall a, consumes (body a)) ->
  (remaining r < f)%nat -> (remaining r < f')%nat -> times f n body a r = times f' n body a r.
Proof.
  intros Hc. revert n a r f'. induction f as [|f IH]; intros n a r f' Hf Hf'; [lia|]. destruct f' as [|f']; [lia|].
  cbn [times]. destruct (n <=? 0); [done|]. unfold mbind, parser_bind. destruct (body a r) as [b r'| |] eqn:Hb; try done.
  apply Hc in Hb. apply IH; lia.
Qed.

Section Proofs.
Context {D : Type -> Type} {ops : MapOps D} {laws : MapLaws D}.
Context (max_alloc : Z) (range_error : bytes -> bool) (rnd : nat -> nat -> nat -> Z).

(** A string that can be written and allocated again. *)
Definition blob_ok (b : bytes) : Prop := bytes_ok b /\ size b < 2 ^ 32 /\ size b <= max_alloc.

#[global] Instance blob_ok_dec b : Decision (blob_ok b).
Proof. unfold blob_ok. apply _. Defined.

Lemma save_blob s : blob_ok s -> exists out, saveString s = Some out /\ parses (readString max_alloc) out s /\ out <> [].
Proof.
  intros (Hok & Hs & Hm). destruct (saveString_ok max_alloc s Hok) as (out & Ho & Hp); [lia|done|]. exists out. split_and!; [done|done|].
  intros ->. specialize (Hp (mkReader [] 0) []). discriminate Hp. by split.
Qed.

Lemma parses_or_refuse {A} (o : option A) a : o = Some a -> parses (or_refuse o) [] a.
Proof. intros ->. apply parses_ret. Qed.

Lemma parses_lift {A} (o : option A) a : o = Some a -> parses (lift o) [] a.
Proof. intros ->. apply parses_ret. Qed.

Lemma save_listpack lp vs : blob_ok lp -> Listpack.stores lp vs ->
  exists out, appendListpackBytes lp = Some out /\ parses (readListpack max_alloc) out lp /\ out <> [].
Proof.
  intros Hb Hs. destruct (save_blob lp Hb) as (out & Ho & Hp & Hne). exists out. split_and!; [done| |done].
  unfold readListpack. rewrite <- (app_nil_r out). eapply parses_bind; [exact Hp|]. apply parses_or_refuse.
  eapply Listpack.fromBytes_complete; [exact Hs|apply Hb].
Qed.

Lemma save_full_listpack lp vs : blob_ok lp -> Listpack.stores lp vs -> vs <> [] ->
  exists out, appendListpackBytes lp = Some out /\ parses (readFullListpack max_alloc) out lp.
Proof.
  intros Hb Hs Hv. destruct (save_listpack lp vs Hb Hs) as (out & Ho & Hp & _). exists out. split; [done|].
  unfold readFullListpack. rewrite <- (app_nil_r out). eapply parses_bind; [exact Hp|].
  rewrite (Listpack.stores_numElements _ _ Hs). destruct vs; [done|]. apply parses_ret.
Qed.

Lemma parses_readCount {A} (l : list A) : l <> [] -> count l < 2 ^ 64 -> parses readCount (saveLen (count l)) (count l).
Proof.
  intros Hl Hc. unfold readCount. rewrite <- (app_nil_r (saveLen _)). eapply parses_bind; [apply parses_readLen; unfold u_range, count in *; lia|].
  rewrite (proj2 (Z.eqb_neq _ _)); [apply parses_ret|]. unfold count. by destruct l.
Qed.

(** *** Lists *)

Lemma plain_only node vs s : Listpack.stores node vs -> plain_element node = Some s -> vs = [s].
Proof.
  intros Hs. unfold plain_element. rewrite (Listpack.stores_numElements _ _ Hs), (Listpack.stores_get _ _ _ Hs).
  destruct vs as [|w [|? ?]]; try done. cbn [length Nat.eqb lookup list_lookup fmap option_fmap option_map].
  destruct (Listpack.elem_of_value w) eqn:He; [done|]. case_if; [|done]. intros [= ->]. f_equal.
  by rewrite <- (Listpack.toString_elem w), He.
Qed.

(** What a node is written as. *)
Definition node_blob (node : bytes) : bytes := default node (plain_element node).

Lemma save_node node vs packs : Listpack.stores node vs -> vs <> [] -> blob_ok (node_blob node) ->
  exists out node', saveNode node = Some out /\ parses (loadNode max_alloc packs) out (packs ++ [node']) /\ out <> [] /\ Listpack.stores node' vs.
Proof.
  intros Hs Hv Hb. unfold saveNode, node_blob in *. destruct (plain_element node) as [s|] eqn:Hp; cbn [default] in Hb.
  - pose proof (plain_only node vs s Hs Hp) as ->. destruct (save_blob s Hb) as (out & -> & Hr & _). cbn [mbind option_bind].
    exists (saveLen kNodePlain ++ out), (Listpack.append Listpack.new s). split_and!; [done| |done|].
    + unfold loadNode. eapply parses_bind; [by apply parses_readLen|]. cbn [Z.eqb]. rewrite Z.eqb_refl.
      apply (parses_bind_ret (readString max_alloc) (fun element => packs ++ [Listpack.append Listpack.new element])). exact Hr.
    + apply (Listpack.stores_append Listpack.new [] s); [apply Listpack.stores_new|]. apply Hb.
  - destruct (save_listpack node vs Hb Hs) as (out & -> & Hr & _). cbn [mbind option_bind].
    exists (saveLen kNodePacked ++ out), node. split_and!; [done| |done|done].
    unfold loadNode. eapply parses_bind; [by apply parses_readLen|]. change (kNodePacked =? kNodePlain) with false. change (negb (kNodePacked =? kNodePacked)) with false. cbv iota.
    rewrite <- (app_nil_r out). eapply parses_bind; [exact Hr|]. rewrite (Listpack.stores_numElements _ _ Hs). destruct vs; [done|]. apply parses_ret.
Qed.

Lemma save_nodes nodes vss packs : Forall2 Listpack.stores nodes vss -> Forall (fun vs => vs <> []) vss -> Forall (fun n => blob_ok (node_blob n)) nodes ->
  exists out nodes', saveNodes nodes = Some out /\ runs (loadNode max_alloc) (length nodes) out packs (packs ++ nodes') /\ Forall2 Listpack.stores nodes' vss.
Proof.
  intros H. revert packs. induction H as [|node vs nodes vss Hn _ IH]; intros packs Hv Hb; cbn [saveNodes].
  - exists [], []. rewrite app_nil_r. split_and!; [done|constructor|constructor].
  - inversion_clear Hv. inversion_clear Hb. destruct (save_node node vs packs Hn) as (out & node' & -> & Hp & Hne & Hs); [done|done|]. cbn [mbind option_bind].
    destruct (IH (packs ++ [node'])) as (rest & nodes' & -> & Hr & Hs'); [done|done|]. cbn [mbind option_bind].
    exists (out ++ rest), (node' :: nodes'). split_and!; [done| |by constructor]. cbn [length]. eapply runs_turn; [done|exact Hp|].
    by rewrite <- app_assoc in Hr.
Qed.

(** *** Sets *)

Lemma save_members s X ms : SetValue.holds s X -> Forall blob_ok ms ->
  exists out s', saveStrings ms = Some out /\ runs (loadMember (ops:=ops) max_alloc) (length ms) out s s' /\ SetValue.holds s' (X ∪ list_to_set ms).
Proof.
  intros Hh Hb. revert s X Hh. induction Hb as [|m ms Hm _ IH]; intros s X Hh; cbn [saveStrings].
  - exists [], s. split_and!; [done|constructor|]. cbn [list_to_set]. by rewrite (right_id_L ∅ (∪)).
  - destruct (save_blob m Hm) as (out & -> & Hp & Hne). cbn [mbind option_bind]. destruct (SetValue.add_holds s X m Hh) as (s1 & Ha & Hh1).
    destruct (IH s1 _ Hh1) as (rest & s2 & -> & Hr & Hh2). cbn [mbind option_bind]. exists (out ++ rest), s2. split_and!; [done| |].
    + eapply runs_turn; [done| |exact Hr]. unfold loadMember. rewrite <- (app_nil_r out). eapply parses_bind; [exact Hp|].
      eapply parses_bind_nil; [by apply parses_lift|]. apply parses_ret.
    + cbn [list_to_set]. by rewrite (assoc_L (∪)), (comm_L (∪) X).
Qed.

(** *** Hashes *)

Lemma save_pairs h m ps : HashValue.holds h m -> Forall blob_ok (flat ps) ->
  exists out h', saveStrings (flat ps) = Some out /\ runs (loadField (ops:=ops) max_alloc) (length ps) out h h' /\
    HashValue.holds h' (HashValue.add_pairs m ps).
Proof.
  revert h m. induction ps as [|[f v] ps IH]; intros h m Hh Hb; cbn [flat saveStrings].
  - exists [], h. split_and!; [done|constructor|done].
  - cbn [flat] in Hb. apply Forall_cons in Hb as [Hf Hb]. apply Forall_cons in Hb as [Hv Hb].
    destruct (save_blob f Hf) as (x & -> & Hx & Hne). destruct (save_blob v Hv) as (y & -> & Hy & _). cbn [mbind option_bind].
    destruct (HashValue.hash_set_holds h m f v Hh) as (h1 & Hs & Hh1 & _); [apply Hv|].
    destruct (IH h1 _ Hh1 Hb) as (rest & h2 & -> & Hr & Hh2). cbn [mbind option_bind]. exists (x ++ y ++ rest), h2. split_and!; [done| |done].
    rewrite app_assoc. eapply runs_turn; [by destruct x| |exact Hr]. unfold loadField. eapply parses_bind; [exact Hx|]. rewrite <- (app_nil_r y).
    eapply parses_bind; [exact Hy|]. eapply parses_bind_nil; [by apply parses_lift|]. apply parses_ret.
Qed.

(** *** Sorted sets *)

Lemma parses_binary_double s : Double.ok s -> parses loadBinaryDouble (saveBinaryDouble s) s.
Proof.
  intros [Hs _]. unfold loadBinaryDouble, saveBinaryDouble. unfold u_range in Hs.
  replace s with (fold_le (push_le 8 s)) at 2 by (rewrite fold_le_push by lia; apply Z.mod_small; cbn; lia).
  apply (parses_bind_ret (readRaw 8) fold_le), parses_raw. unfold size. by rewrite push_le_bytes, length_le_bytes.
Qed.

Lemma entries_ok_suffix A B : ZSetValue.entries_ok (A ++ B) -> ZSetValue.entries_ok B.
Proof.
  intros (Hn & Hs & Ho). rewrite fmap_app in Hn. apply NoDup_app in Hn as (_ & _ & Hn). apply Forall_app in Ho as [_ Ho].
  split_and!; [done| |done]. induction A as [|a A IH]; [done|]. inversion_clear Hs. by apply IH.
Qed.

Lemma place_first m sc P : ZSetValue.entries_ok ((m, sc) :: P) -> SkipList.place sc m (ZSetValue.drop_member m P) = (m, sc) :: P.
Proof.
  intros Hok. pose proof (ZSetValue.place_back sc m _ Hok ltac:(by left)) as H. rewrite ZSetValue.drop_cons in H. cbn [fst] in H.
  by rewrite bool_decide_true in H.
Qed.

Lemma save_scored its : forall z P k, ZSetValue.holds z P -> ZSetValue.entries_ok (rev (ZSetValue.canons its) ++ P) ->
  Forall (fun e => Double.ok (snd e)) its -> Forall blob_ok its.*1 -> Z.of_nat (length P + length its) < 2 ^ 64 ->
  exists out z', saveScored its = Some out /\ runs (loadScored (ops:=ops) max_alloc range_error rnd kTypeZSet2) (length its) out (k, z) ((k + length its)%nat, z') /\
    ZSetValue.holds z' (rev (ZSetValue.canons its) ++ P).
Proof.
  induction its as [|[m s] its IH]; intros z P k Hz Hok Hd Hb Hroom; cbn [saveScored length].
  - exists [], z. rewrite Nat.add_0_r. split_and!; [done|constructor|done].
  - cbn [ZSetValue.canons map rev fst snd] in Hok |- *. change (map _ its) with (ZSetValue.canons its) in Hok |- *. rewrite <- app_assoc in Hok |- *. cbn [app] in Hok |- *.
    inversion_clear Hd as [|? ? Hs Hd']. apply Forall_cons in Hb as [Hm Hb]. cbn [fst snd length] in *.
    destruct (save_blob m Hm) as (x & -> & Hx & Hne). cbn [mbind option_bind].
    destruct (ZSetValue.holds_add z P (rnd k) (rnd k 129%nat) m s Hz Hs) as (z1 & Ha & Hz1); [lia|].
    rewrite place_first in Hz1 by by eapply entries_ok_suffix.
    destruct (IH z1 _ (S k) Hz1 Hok Hd' Hb) as (rest & z2 & -> & Hr & Hz2); [cbn [length]; lia|]. cbn [mbind option_bind].
    exists (x ++ saveBinaryDouble s ++ rest), z2. split_and!; [done| |done]. rewrite app_assoc. rewrite <- Nat.add_succ_comm. eapply runs_turn; [by destruct x| |exact Hr].
    unfold loadScored. eapply parses_bind; [exact Hx|]. rewrite <- (app_nil_r (saveBinaryDouble s)). eapply parses_bind; [by apply parses_binary_double|].
    eapply parses_bind_nil; [by apply parses_lift|]. apply parses_ret.
Qed.

Lemma longest_texts lp l : Listpack.stores lp (flat (ZSetValue.texts l)) -> Forall (fun e => length (fst e) <= 64)%nat l ->
  forall n j longest, (n + j = length l)%nat -> (longest <= 64)%nat -> exists k, ZSetValue.longest_member n (2 * j) lp longest = Some k /\ (k <= 64)%nat.
Proof.
  intros Hs Hl. induction n as [|n IH]; intros j longest Hn Hk; cbn [ZSetValue.longest_member]; [by exists longest|].
  destruct (lookup_lt_is_Some_2 l j) as [[m sc] Hj]; [lia|]. rewrite (Listpack.stores_get _ _ _ Hs), HashValue.flat_even. unfold ZSetValue.texts.
  rewrite list_lookup_fmap, Hj. cbn [fmap option_fmap option_map fst snd]. replace (2 * j + 2)%nat with (2 * S j)%nat by lia.
  pose proof (Forall_lookup_1 _ _ _ _ Hl Hj) as Hm. cbn [fst] in Hm. pose proof (Listpack.toString_elem m) as Ht.
  destruct (Listpack.elem_of_value m) as [|w]; apply IH; try lia. cbn in Ht. subst w. lia.
Qed.

(** *** What is adopted is what was packed *)

Lemma adopt_intset i X : SetValue.holds (D:=D) (SetValue.mk EIntSet i Listpack.new mnew) X ->
  SetValue.adoptIntSet (D:=D) SetValue.new i = Some (SetValue.mk EIntSet i Listpack.new mnew).
Proof.
  intros (_ & _ & Hl & _). unfold SetValue.adoptIntSet. cbn [SetValue.listpack_ SetValue.table_ SetValue.new]. by rewrite (proj2 (Nat.ltb_ge _ _)) by exact Hl.
Qed.

Lemma adopt_zset lp l : Listpack.stores lp (flat (ZSetValue.texts l)) -> (length l <= 128)%nat -> Forall (fun e => length (fst e) <= 64)%nat l ->
  ZSetValue.adoptListpack (D:=D) ZSetValue.new lp (rnd 0) = Some (ZSetValue.mk EListPack lp SkipList.new mnew, true).
Proof.
  intros Hs Hn Hl. unfold ZSetValue.adoptListpack. rewrite (Listpack.stores_numElements _ _ Hs), HashValue.flat_length. unfold ZSetValue.texts. rewrite length_map.
  rewrite Nat.mul_comm, Nat.Div0.mod_mul, Nat.div_mul by lia. cbn [Nat.eqb negb].
  destruct (longest_texts lp l Hs Hl (length l) 0 0) as (k & Hk & Hle); [lia|lia|]. change (2 * 0)%nat with 0%nat in Hk. rewrite Hk. cbv zeta.
  rewrite (proj2 (Nat.ltb_ge _ _)) by exact Hn. by rewrite (proj2 (Nat.ltb_ge _ _)) by exact Hle.
Qed.

(** ** A saved body is read back as the same abstract value *)

(** The strings a save writes. *)
Definition blobs (v : Object.value D) : list bytes :=
  match Object.data_ v with
  | Object.DInt _ | Object.DStr _ => [Object.stringValue v]
  | Object.DList l => map node_blob (ListValue.nodes_ l)
  | Object.DSet s =>
      match SetValue.encoding_ s with
      | EIntSet => [IntSet.toBytes (SetValue.intset_ s)] | EListPack => [SetValue.listpack_ s] | _ => SetValue.members s
      end
  | Object.DHash h => match HashValue.encoding_ h with EListPack => [HashValue.listpack_ h] | _ => HashValue.flatten h end
  | Object.DZSet z => match ZSetValue.encoding_ z with EListPack => [ZSetValue.listpack_ z] | _ => from_option (fmap fst) [] (ZSetValue.all z) end
  end.

(** Every string fits, and so does the vector of the nodes of a list. *)
Definition savable (v : Object.value D) : Prop :=
  Forall blob_ok (blobs v) /\ Z.of_nat (Object.elementCount v) < 2 ^ 64 /\
  match Object.data_ v with Object.DList l => count (ListValue.nodes_ l) < 2 ^ 64 /\ count (ListValue.nodes_ l) <= max_alloc | _ => True end.

#[global] Instance savable_dec v : Decision (savable v).
Proof. unfold savable. destruct (Object.data_ v); apply _. Defined.

(** The type byte and the body, and the value they are read as. *)
Definition saved (v : Object.value D) (a : aval) : Prop :=
  exists body v', saveObjectBody v = Some body /\ parses (loadObjectBody (ops:=ops) max_alloc range_error rnd (objectType v)) body v' /\ models v' a.

Lemma saved_string v s : models v (AStr s) -> savable v -> saved v (AStr s).
Proof.
  intros (Hw & Ht & Hv) (Hb & _). assert (blob_ok s) as Hs.
  { unfold blobs in Hb. unfold Object.is_string in Ht. unfold Object.wf in Hw. rewrite Ht in Hw. rewrite <- Hv. destruct (Object.data_ v); try done; by apply Forall_inv in Hb. }
  destruct (save_blob s Hs) as (out & Ho & Hp & _). unfold saved, saveObjectBody, objectType. rewrite Ht, Hv. exists out, (Object.makeString s). split_and!; [done| |].
  - apply (parses_bind_ret (readString max_alloc) Object.makeString). exact Hp.
  - split_and!; [apply Object.makeString_wf|unfold Object.is_string, Object.makeString; by destruct (stringToInt64 s)|apply Object.makeString_value].
Qed.

Lemma adopt_nodes nodes vss : Forall2 Listpack.stores nodes vss -> Forall (fun vs => vs <> []) vss -> nodes <> [] -> Forall Listpack.storable (concat vss) ->
  exists l, ListValue.adoptNodes ListValue.new nodes = (l, true) /\ ListValue.holds l (concat vss).
Proof.
  intros Hs Hv Hn Hst. unfold ListValue.adoptNodes. rewrite (ListValue.nodes_size_ok _ _ Hs). destruct Hs as [|n vs nodes vss H1 H2]; [done|].
  inversion_clear Hv as [|? ? Hne Hv']. cbn [concat]. rewrite length_app. destruct vs as [|w vs]; [done|]. cbn [length Nat.add Nat.eqb].
  eexists. split; [done|]. split; [done|]. split; [done|]. exists ((w :: vs) :: vss). split_and!; [by constructor|done|]. right. by constructor.
Qed.

Lemma dense_full vss : ListValue.dense vss -> concat vss <> [] -> Forall (fun vs : list bytes => vs <> []) vss.
Proof.
  intros [H|H] Hc; [|done]. destruct vss as [|vs [|? ?]]; try done. cbn in Hc. rewrite app_nil_r in Hc. by constructor.
Qed.

Lemma saved_list v vs : models v (AList vs) -> vs <> [] -> savable v -> saved v (AList vs).
Proof.
  intros (Ht & l & Hd & Hne & Hst & vss & Hh & Hc & Hdense) Hvs (Hb & _ & Hroom). unfold blobs in Hb. rewrite Hd in Hb, Hroom. apply (proj1 (List.Forall_map _ _ _)) in Hb.
  rewrite <- Hc in Hvs. pose proof (dense_full _ Hdense Hvs) as Hfull.
  destruct (save_nodes _ _ [] Hh Hfull Hb) as (out & nodes' & Ho & Hr & Hh'). cbn [app] in Hr.
  destruct (adopt_nodes nodes' vss Hh' Hfull) as (l' & Ha & Hl'); [|by rewrite Hc|].
  { intros ->. apply Forall2_nil_inv_l in Hh' as ->. by apply Forall2_nil_inv_r in Hh. }
  unfold saved, saveObjectBody, objectType, Object.list_. rewrite Ht, Hd. cbn [mbind option_bind]. rewrite Ho. cbn [mbind option_bind]. eexists _, (with_list l'). split_and!; [done| |].
  - unfold loadObjectBody. change (kTypeListQuicklist2 =? kTypeString) with false. rewrite Z.eqb_refl. cbv iota.
    eapply parses_bind; [apply parses_readCount; [done|lia]|]. eapply parses_bind_nil; [apply parses_allocate, Hroom|]. rewrite <- (app_nil_r out).
    eapply parses_bind; [unfold count; by apply parses_repeat|]. rewrite Ha. apply parses_ret.
  - split; [done|]. exists l'. by rewrite <- Hc.
Qed.

Ltac body_of t := unfold saved, saveObjectBody, objectType; rewrite t; unfold Object.set_, Object.hash, Object.zset.

Lemma members_nonempty (s : SetValue.t D) X ms : ms = SetValue.members s -> SetValue.holds s X -> X <> ∅ -> ms <> [].
Proof. intros -> Hh HX He. destruct (SetValue.members_holds s X Hh) as (_ & Hm & _). rewrite He in Hm. by apply HX. Qed.

Lemma saved_set v X : models v (ASet X) -> X <> ∅ -> savable v -> saved v (ASet X).
Proof.
  intros (Ht & s & Hd & Hh) HX (Hb & Hroom & _). unfold blobs in Hb. rewrite Hd in Hb. unfold Object.elementCount, Object.set_ in Hroom. rewrite Ht, Hd in Hroom. cbn [from_option] in Hroom.
  pose proof (members_nonempty s X _ eq_refl Hh HX) as Hne. destruct (SetValue.members_holds s X Hh) as (_ & Hm & Hlen).
  assert (forall s', SetValue.holds s' X -> models (with_set s') (ASet X)) as Hw by (intros s' H'; split; [done|by exists s']).
  body_of Ht. rewrite Hd. cbn [from_option mbind option_bind]. pose proof Hh as Hh0. unfold SetValue.holds in Hh0. destruct (SetValue.encoding_ s) eqn:He; try done.
  - destruct Hh0 as (vs & Hs & Hnd & HXv & Hl & _). apply Forall_inv in Hb. assert (vs <> []) as Hvs by (intros ->; by apply HX).
    destruct (save_full_listpack _ vs Hb Hs Hvs) as (out & -> & Hp). eexists _, (with_set _). split_and!; [done| |].
    + unfold loadObjectBody. cbn [Z.eqb Pos.eqb kTypeString kTypeListQuicklist2 kTypeSetIntset kTypeSetListpack]. rewrite <- (app_nil_r out).
      eapply parses_bind; [exact Hp|]. eapply parses_bind_nil; [|apply parses_ret]. apply parses_lift. unfold SetValue.adoptListpack.
      rewrite (Listpack.stores_numElements _ _ Hs), (proj2 (Nat.ltb_ge _ _)) by exact Hl. done.
    + apply Hw. exists vs. split_and!; [done|done|done|done|apply represents_new].
  - destruct Hh0 as (Hi & HXi & Hl & _). apply Forall_inv in Hb. destruct (save_blob _ Hb) as (out & -> & Hp & _).
    assert (SetValue.holds (D:=D) (SetValue.mk EIntSet (SetValue.intset_ s) Listpack.new mnew) X) as Hh'.
    { split_and!; [done|done|done|apply Listpack.stores_new|apply represents_new]. }
    eexists _, (with_set _). split_and!; [done| |exact (Hw _ Hh')].
    unfold loadObjectBody. cbn [Z.eqb Pos.eqb kTypeString kTypeListQuicklist2 kTypeSetIntset]. rewrite <- (app_nil_r out).
    eapply parses_bind; [exact Hp|]. rewrite IntSet.fromBytes_toBytes by (done || lia).
    destruct (Nat.eqb_spec (length (IntSet.values_ (SetValue.intset_ s))) 0) as [H0|H0].
    { exfalso. apply HX. rewrite HXi. unfold SetValue.int_members. by apply nil_length_inv in H0 as ->. }
    eapply parses_bind_nil; [|apply parses_ret]. apply parses_lift, (adopt_intset _ X Hh').
  - destruct Hh0 as (m & Hr & _).
    destruct (save_members SetValue.new ∅ (SetValue.members s) SetValue.set_holds_new Hb) as (out & s' & -> & Hrun & Hh'). cbn [mbind option_bind].
    rewrite Hm, (left_id_L ∅ (∪)) in Hh'. eexists _, (with_set s'). split_and!; [done| |by apply Hw].
    unfold loadObjectBody. cbn [Z.eqb Pos.eqb kTypeSet kTypeString kTypeListQuicklist2 kTypeSetIntset kTypeSetListpack].
    eapply parses_bind; [apply parses_readCount; [done|unfold count; lia]|]. rewrite <- (app_nil_r out). eapply parses_bind; [unfold count; by apply parses_repeat|].
    destruct (SetValue.members_holds s' X Hh') as (_ & Hm' & <-). pose proof (members_nonempty s' X _ eq_refl Hh' HX). destruct (SetValue.members s'); [done|]. apply parses_ret.
Qed.

Lemma pairs_nonempty (m : gmap bytes bytes) ps : ps ≡ₚ map_to_list m -> m <> ∅ -> ps <> [].
Proof. intros Hp Hm ->. apply Permutation_nil_l in Hp. by apply Hm, map_to_list_empty_iff. Qed.

Lemma saved_hash v m : models v (AHash m) -> m <> ∅ -> savable v -> saved v (AHash m).
Proof.
  intros (Ht & h & Hd & Hh) Hm (Hb & Hroom & _). unfold blobs in Hb. rewrite Hd in Hb. unfold Object.elementCount, Object.hash in Hroom. rewrite Ht, Hd in Hroom. cbn [from_option] in Hroom.
  assert (forall h', HashValue.holds h' m -> models (with_hash h') (AHash m)) as Hw by (intros h' H'; split; [done|by exists h']).
  body_of Ht. rewrite Hd. cbn [from_option mbind option_bind]. pose proof Hh as Hh0. unfold HashValue.holds in Hh0. destruct (HashValue.encoding_ h) eqn:He; try done.
  - destruct Hh0 as (ps & Hs & Hp & _). apply Forall_inv in Hb. pose proof (pairs_nonempty m ps Hp Hm) as Hne.
    destruct (save_full_listpack _ _ Hb Hs) as (out & -> & Hr); [by destruct ps as [|[? ?] ?]|].
    destruct (HashValue.adopt_holds HashValue.new _ ps m ltac:(apply represents_new) Hs Hp) as (h' & Ha & Hh'). eexists _, (with_hash h'). split_and!; [done| |by apply Hw].
    unfold loadObjectBody. cbn [Z.eqb Pos.eqb kTypeString kTypeListQuicklist2 kTypeSetIntset kTypeSetListpack kTypeSet kTypeHashListpack]. rewrite <- (app_nil_r out).
    eapply parses_bind; [exact Hr|]. eapply parses_bind_nil; [by apply parses_lift|]. apply parses_ret.
  - destruct (HashValue.flatten_holds h m Hh) as (ps & Hf & Hp). rewrite Hf in *. pose proof (pairs_nonempty m ps Hp Hm) as Hne.
    destruct (save_pairs HashValue.new ∅ ps HashValue.hash_holds_new Hb) as (out & h' & -> & Hrun & Hh'). cbn [mbind option_bind].
    rewrite (HashValue.add_pairs_empty ps m Hp) in Hh'. eexists _, (with_hash h'). split_and!; [done| |by apply Hw].
    assert (count (flat ps) / 2 = count ps) as -> by (unfold count; rewrite HashValue.flat_length, Nat2Z.inj_mul, Z.mul_comm; by apply Z.div_mul).
    rewrite (HashValue.hash_size_holds h m Hh), <- length_map_to_list, <- Hp in Hroom.
    unfold loadObjectBody. cbn [Z.eqb Pos.eqb kTypeString kTypeListQuicklist2 kTypeSetIntset kTypeSetListpack kTypeSet kTypeHashListpack kTypeHash].
    eapply parses_bind; [apply parses_readCount; [done|exact Hroom]|]. rewrite <- (app_nil_r out). eapply parses_bind; [unfold count; by apply parses_repeat|].
    rewrite (HashValue.hash_size_holds h' m Hh'). destruct (Nat.ltb_spec 0 (base.size m)) as [_|H0]; [apply parses_ret|].
    exfalso. apply Hm, map_size_empty_iff. lia.
Qed.

Lemma saved_zset v l : models v (AZSet l) -> l <> [] -> savable v -> saved v (AZSet l).
Proof.
  intros (Ht & z & Hd & Hh) Hl (Hb & Hroom & _). unfold blobs in Hb. rewrite Hd in Hb. unfold Object.elementCount, Object.zset in Hroom. rewrite Ht, Hd in Hroom. cbn [from_option] in Hroom.
  assert (forall z', ZSetValue.holds z' l -> models (with_zset z') (AZSet l)) as Hw by (intros z' H'; split; [done|by exists z']).
  destruct Hh as (l' & Hx & Hc). pose proof (ZSetValue.exact_all z l' Hx) as Hall. rewrite (ZSetValue.exact_size z l' Hx) in Hroom.
  assert (l' <> []) as Hl' by (intros ->; by apply Hl).
  body_of Ht. rewrite Hd. cbn [from_option mbind option_bind]. destruct Hx as [Hok Hx]. destruct (ZSetValue.encoding_ z) eqn:He; try done.
  - destruct Hx as (Hs & _ & _ & Hn & Hm & Hcc). apply Forall_inv in Hb. destruct (save_full_listpack _ _ Hb Hs) as (out & -> & Hr); [by destruct l' as [|[? ?] ?]|].
    eexists _, (with_zset _). split_and!; [done| |].
    + unfold loadObjectBody. cbn [Z.eqb Pos.eqb kTypeString kTypeListQuicklist2 kTypeSetIntset kTypeSetListpack kTypeSet kTypeHashListpack kTypeHash kTypeZSetListpack]. rewrite <- (app_nil_r out).
      eapply parses_bind; [exact Hr|]. eapply parses_bind_nil; [apply parses_lift, (adopt_zset _ l' Hs Hn Hm)|]. apply parses_ret.
    + apply Hw. exists l'. split; [|done]. split; [done|]. cbn. split_and!; [done| |apply represents_new|done|done|done].
      exists []. split; [apply SkipList.new_inv|done].
  - rewrite Hall in Hb |- *. cbn [from_option mbind option_bind] in Hb |- *.
    destruct (save_scored (rev l') ZSetValue.new [] 0 ZSetValue.zset_holds_new) as (out & z' & -> & Hrun & Hz').
    { rewrite app_nil_r. unfold ZSetValue.canons. rewrite map_rev, rev_involutive. by apply ZSetValue.canons_ok. }
    { apply Forall_rev, Hok. } { change (Forall blob_ok (map fst (rev l'))). rewrite map_rev. by apply Forall_rev. } { rewrite length_rev. cbn [length]. lia. }
    cbn [mbind option_bind]. rewrite length_rev in Hrun. unfold ZSetValue.canons in Hz'. rewrite map_rev, rev_involutive, app_nil_r in Hz'. change (map _ l') with (ZSetValue.canons l') in Hz'. rewrite Hc in Hz'.
    eexists _, (with_zset z'). split_and!; [done| |by apply Hw].
    unfold loadObjectBody. cbn [Z.eqb Pos.eqb kTypeString kTypeListQuicklist2 kTypeSetIntset kTypeSetListpack kTypeSet kTypeHashListpack kTypeHash kTypeZSetListpack kTypeZSet kTypeZSet2 orb].
    eapply parses_bind; [apply parses_readCount; [done|exact Hroom]|]. rewrite <- (app_nil_r out). eapply parses_bind; [unfold count; by apply parses_repeat|]. cbn [snd].
    destruct Hz' as (l2 & Hx2 & Hc2). rewrite (ZSetValue.exact_size z' l2 Hx2). destruct l2; [by rewrite <- Hc2 in Hl|]. apply parses_ret.
Qed.

(** Whatever the value and its encoding. *)
Lemma body_saved v a : models v a -> acount a <> 0%nat -> savable v -> saved v a.
Proof.
  intros Hm Ha Hs. destruct a as [s|l|h|X|l]; cbn in Ha.
  - by apply saved_string.
  - apply saved_list; [done|by intros ->|done].
  - apply saved_hash; [done|by intros ->|done].
  - apply saved_set; [done|by intros ->|done].
  - apply saved_zset; [done|by intros ->|done].
Qed.

End Proofs.

(** ** The payload *)

(** A payload is what the checksum covers, and eight bytes. *)
Lemma footer_split P S : length S = 8%nat -> (3 <= length P)%nat ->
  payloadFooterOk (P ++ S) =
    ((u16 (Z.lor (P !!! (length P - 2)%nat) (Z.shiftl (P !!! (length P - 1)%nat) 8)) <=? kRdbVersion) && (fold_le S =? crc64 0 P)).
Proof.
  intros HS HP. unfold payloadFooterOk. rewrite length_app, HS, (proj2 (Nat.ltb_ge _ _)) by lia.
  replace (length P + 8 - 10)%nat with (length P - 2)%nat by lia. replace (length P - 2 + 2)%nat with (length P) by lia. replace (length P - 2 + 1)%nat with (length P - 1)%nat by lia.
  rewrite !lookup_total_app_l by lia. rewrite drop_app_length, take_app_length, (firstn_all2 S) by lia. rewrite Z.ltb_antisym. by destruct (_ <=? _).
Qed.

Lemma fold_le_inj S S' : bytes_ok S -> bytes_ok S' -> length S = 8%nat -> length S' = 8%nat -> fold_le S = fold_le S' -> S = S'.
Proof.
  intros H1 H2 L1 L2. unfold fold_le. rewrite !fold_be_val by (by apply Forall_rev || (rewrite length_rev; lia)). unfold be_val. rewrite !rev_involutive.
  intros E. rewrite <- (le_bytes_val S), <- (le_bytes_val S') by done. congruence.
Qed.

Lemma payload_saved {D : Type -> Type} {ops : MapOps D} {laws : MapLaws D} (max_alloc : Z) (range_error : bytes -> bool)
    (rnd : nat -> nat -> nat -> Z) (v : Object.value D) (a : aval) :
  models v a -> acount a <> 0%nat -> savable max_alloc v ->
  exists payload v' r, dumpPayload v = Some payload /\ payloadFooterOk payload = true /\
    loadPayload (ops:=ops) max_alloc range_error rnd payload = Got v' r /\ models v' a.
Proof.
  intros Hm Ha Hs. destruct (body_saved max_alloc range_error rnd v a Hm Ha Hs) as (body & v' & Hb & Hp & Hm').
  unfold dumpPayload. rewrite Hb. cbn [mbind option_bind]. set (P := (objectType v :: body) ++ _). set (C := push_le 8 _).
  assert (length C = 8%nat) as HS by (unfold C; by rewrite push_le_bytes, length_le_bytes).
  assert (length P = length body + 3)%nat as HP by (unfold P; rewrite length_app; cbn; lia).
  exists (P ++ C), v'. eexists. split_and!; [done| | |done].
  - rewrite footer_split by lia. apply andb_true_iff. split.
    + unfold P. rewrite !lookup_total_app_r by (cbn [length]; rewrite length_app; cbn; lia). rewrite length_app. cbn [length].
      replace (S (length body) + 2 - 2 - S (length body))%nat with 0%nat by lia. replace (S (length body) + 2 - 1 - S (length body))%nat with 1%nat by lia. done.
    + unfold C. rewrite fold_le_push by lia. apply Z.eqb_eq, Z.mod_small. apply (crc64_range P 0). done.
  - unfold loadPayload. rewrite length_app, HS, HP, (proj2 (Nat.ltb_ge _ _)) by lia. replace (length body + 3 + 8 - 10)%nat with (length (objectType v :: body)) by (cbn; lia).
    unfold P. rewrite <- app_assoc, take_app_length. erewrite (parses_after (objectType v) _ body v' Hp _ []); [|split; [by rewrite app_nil_r|cbn; lia]].
    unfold exhausted, advance. cbn [bytes_ pos_]. rewrite Nat.add_0_l, (proj2 (Nat.leb_le _ _)) by done. done.
Qed.

(** the payload that DUMP makes of a value passes the version and checksum
    test and is read back as an object with the same contents, whatever the
    type and the encoding of the value: strings, lists node by node, intsets,
    listpacks, tables and skip lists, each string as an integer, compressed or
    plain. *)
Theorem dump_restore_round_trip {D : Type -> Type} {ops : MapOps D} {laws : MapLaws D} (max_alloc : Z) (range_error : bytes -> bool)
    (rnd : nat -> nat -> nat -> Z) (v : Object.value D) (a : aval) :
  models v a -> acount a <> 0%nat -> savable max_alloc v ->
  exists payload v' r, dumpPayload v = Some payload /\ payloadFooterOk payload = true /\
    loadPayload (ops:=ops) max_alloc range_error rnd payload = Got v' r /\ models v' a.
Proof. apply payload_saved. Qed.

Definition shopping : Object.value Dict.dict := with_list (ListValue.rebuildFrom [str "bread"; str "-12"; str "7"]).

Lemma dump_restore_round_trip_witness :
  models (laws:=Dict.dict_laws) shopping (AList [str "bread"; str "-12"; str "7"]) /\
  exists payload v' r, dumpPayload (ops:=Dict.dict_ops) shopping = Some payload /\ payloadFooterOk payload = true /\
    loadPayload (ops:=Dict.dict_ops) 1000 (fun _ => false) (fun _ _ _ => 0) payload = Got v' r /\ models (laws:=Dict.dict_laws) v' (AList [str "bread"; str "-12"; str "7"]).
Proof.
  assert (models (laws:=Dict.dict_laws) shopping (AList [str "bread"; str "-12"; str "7"])) as Hm.
  { split; [done|]. eexists. split; [done|]. apply ListValue.rebuildFrom_holds. repeat (apply Forall_cons; split; [vm_compute; done|]). by apply Forall_nil. }
  split; [exact Hm|]. apply (dump_restore_round_trip (laws:=Dict.dict_laws) 1000 (fun _ => false) (fun _ _ _ => 0) shopping _ Hm); [done|].
  apply (bool_decide_unpack _). vm_compute. done.
Defined.

(** C15: a payload that RESTORE would accept is refused once any one of its bytes
    is changed, wherever it is: in the type, the body, the version or the
    checksum itself. *)
Theorem restore_rejects_one_bad_byte (payload : bytes) (i : nat) (b : Z) :
  bytes_ok payload -> payloadFooterOk payload = true -> is_byte b -> (i < length payload)%nat -> payload !!! i <> b ->
  payloadFooterOk (<[i := b]> payload) = false.
Proof.
  intros Hok Hf Hb Hi Hne. assert (11 <= length payload)%nat as Hlen.
  { unfold payloadFooterOk in Hf. destruct (Nat.ltb_spec (length payload) 11); [done|lia]. }
  rewrite <- (take_drop (length payload - 8) payload) in Hf, Hok, Hne |- *. set (P := take _ payload) in *. set (C := drop _ payload) in *.
  assert (length C = 8%nat) as HS by (unfold C; rewrite length_drop; lia). assert (length P = length payload - 8)%nat as HP by (unfold P; rewrite length_take; lia).
  rewrite footer_split in Hf by lia. apply andb_true_iff in Hf as [_ Hf]. apply Z.eqb_eq in Hf. apply Forall_app in Hok as [HokP HokS].
  destruct (decide (i < length P)%nat) as [HiP|HiP].
  - rewrite insert_app_l, footer_split by (rewrite ?length_insert; lia). apply andb_false_iff. right. apply Z.eqb_neq. rewrite Hf. intros E. apply Hne.
    rewrite lookup_total_app_l by done. destruct (lookup_lt_is_Some_2 P i HiP) as [x Hx]. rewrite (list_lookup_total_correct _ _ _ Hx).
    rewrite insert_take_drop in E by done. rewrite <- (take_drop_middle P i x Hx) in E at 1. eapply crc64_one_byte; [|done|exact E]. exact (Forall_lookup_1 _ _ _ _ HokP Hx).
  - rewrite insert_app_r_alt, footer_split by (rewrite ?length_insert; lia). apply andb_false_iff. right. apply Z.eqb_neq. rewrite <- Hf. intros E. apply Hne.
    apply fold_le_inj in E; [|by apply Forall_insert|done|by rewrite length_insert|done]. rewrite lookup_total_app_r by lia. rewrite <- E. apply list_lookup_total_insert_eq. lia.
Qed.

Lemma restore_rejects_one_bad_byte_witness :
  exists payload, dumpPayload (ops:=Dict.dict_ops) (Object.makeString (str "hello")) = Some payload /\ payloadFooterOk (<[3%nat := 0]> payload) = false.
Proof.
  eexists. split; [vm_compute; reflexivity|]. apply restore_rejects_one_bad_byte; try (vm_compute; done); apply (bool_decide_unpack _); vm_compute; done.
Defined.

End RdbObject.
