(* ===== verification/RdbFile.v ===== *)
(** * RdbFile: whole snapshots

    [FileWriter] and [loadFile] of [src/persist/rdb.cpp]. A snapshot is
    streamed to a temporary file and renamed over the previous one; what the
    operating system answers to each [write] is an input of the model. Loading
    hands every key to a callback in file order, also when the file turns out
    to be malformed later on. *)

From Stdlib Require Import ZArith Lia.
From stdpp Require Import base list numbers option gmap strings.
From S2P Require Import Prelude Encoding Strtod MapSpec Object Rdb Keyspace RdbObject.

Module RdbFile.
Import Keyspace Rdb RdbObject.

Definition kOpIdle : Z := 0xF8.
Definition kOpFreq : Z := 0xF9.
Definition kOpAux : Z := 0xFA.
Definition kOpResizeDb : Z := 0xFB.
Definition kOpExpireMs : Z := 0xFC.
Definition kOpExpireSec : Z := 0xFD.
Definition kOpSelectDb : Z := 0xFE.
Definition kOpEof : Z := 0xFF.

(** ** The file system *)

(** The result of one [write] call: how much was taken, [EINTR], an error. *)
Inductive outcome := Wrote (n : nat) | Interrupted | WriteError.

Record world := mkWorld { files : gmap bytes bytes; writes : list outcome }.

(** [while (left > 0) ...::write(fd, p, left)...]; [None]: the loop is still
    waiting for the next answer. *)
Fixpoint write_all (os : list outcome) (p file : bytes) : option (list outcome * bytes * bool) :=
  match p with
  | [] => Some (os, file, true)
  | _ =>
      match os with
      | [] => None
      | Wrote n :: os => write_all os (drop n p) (file ++ take n p)
      | Interrupted :: os => write_all os p file
      | WriteError :: os => Some (os, file, false)
      end
  end.

(** ** The writer *)

Record writer := mkWriter { tmp_path_ : bytes; path_ : bytes; buffer_ : bytes; crc_ : Z; failed_ : bool }.

Definition aux (key value : bytes) : option bytes :=
  k ← saveString key; v ← saveString value; Some (kOpAux :: k ++ v).

(** [snprintf("%04d", kRdbVersion)] *)
Definition version_text : bytes := let s := to_string kRdbVersion in replicate (4 - length s) 48 ++ s.

Definition header : option bytes :=
  a ← aux (str "redis-ver") (str "7.4.0");
  b ← aux (str "redis-bits") (str "64");
  Some (str "REDIS" ++ version_text ++ a ++ b).

Definition tmp_name (path : bytes) (pid : Z) : bytes := path ++ str ".tmp-" ++ to_string pid.

(** [open] truncates; [opened] is whether it succeeded. *)
Definition create (path : bytes) (pid : Z) (opened : bool) (w : world) : option (world * option writer) :=
  let tmp := tmp_name path pid in
  if opened then
    h ← header;
    Some (mkWorld (<[tmp := []]> (files w)) (writes w), Some (mkWriter tmp path h 0 false))
  else Some (w, None).

Definition set_buffer (f : writer) (b : bytes) : writer := mkWriter (tmp_path_ f) (path_ f) b (crc_ f) (failed_ f).

(** What [write] leaves in the temporary file. *)
Definition put_file (w : world) (tmp contents : bytes) (os : list outcome) : world := mkWorld (<[tmp := contents]> (files w)) os.
Definition contents_of (w : world) (p : bytes) : bytes := default [] (files w !! p).

Definition flush (f : writer) (w : world) : option (writer * world * bool) :=
  if failed_ f then Some (f, w, false)
  else if (length (buffer_ f) =? 0)%nat then Some (f, w, true)
  else
    let crc := crc64 (crc_ f) (buffer_ f) in
    '(os, file, ok) ← write_all (writes w) (buffer_ f) (contents_of w (tmp_path_ f));
    Some (mkWriter (tmp_path_ f) (path_ f) [] crc (negb ok), put_file w (tmp_path_ f) file os, ok).

Definition kFlushSize : Z := 64 * 1024.

Definition append (f : writer) (w : world) (bs : bytes) : option (writer * world) :=
  let f := set_buffer f (buffer_ f ++ bs) in
  if kFlushSize <=? size (buffer_ f) then '(f, w, _) ← flush f w; Some (f, w) else Some (f, w).

Definition select_frame (index size expires : Z) : bytes :=
  kOpSelectDb :: saveLen (u64 index) ++ kOpResizeDb :: saveLen size ++ saveLen expires.

Definition selectDb (f : writer) (w : world) (index size expires : Z) : option (writer * world) :=
  append f w (select_frame index size expires).

(** [close], [fsync] and [rename]: [renamed] is whether the last succeeded. *)
Definition finish (f : writer) (w : world) (renamed : bool) : option (world * bool) :=
  let buffer := buffer_ f ++ [kOpEof] in
  let crc := crc64 (crc_ f) buffer in
  let payload := buffer ++ push_le 8 crc in
  '(os, file, ok) ← (if failed_ f then Some (writes w, contents_of w (tmp_path_ f), false)
                     else write_all (writes w) payload (contents_of w (tmp_path_ f)));
  if negb ok || negb renamed then Some (mkWorld (delete (tmp_path_ f) (files w)) os, false)
  else Some (mkWorld (<[path_ f := file]> (delete (tmp_path_ f) (files w))) os, true).

(** The destructor of a writer that was never finished. *)
Definition abandon (f : writer) (w : world) : world := mkWorld (delete (tmp_path_ f) (files w)) (writes w).

Section Entries.
Context {D : Type -> Type} {ops : MapOps D}.

Definition entry_frame (key : bytes) (value : Object.value D) (expire_at_ms : Z) : option bytes :=
  k ← saveString key;
  body ← saveObjectBody value;
  Some ((if 0 <=? expire_at_ms then kOpExpireMs :: push_le 8 (u64 expire_at_ms) else []) ++ objectType value :: k ++ body).

Definition writeEntry (f : writer) (w : world) (key : bytes) (value : Object.value D) (expire_at_ms : Z) : option (writer * world) :=
  frame ← entry_frame key value expire_at_ms; append f w frame.

(** ** Loading *)

(** What the callback is handed: database, key, value, deadline or -1. *)
Record entry := mkEntry { e_db : Z; e_key : bytes; e_value : Object.value D; e_expire : Z }.

Inductive loaded := Loaded | LoadError (msg : bytes) | LoadThrown.

Context (max_alloc : Z) (range_error : bytes -> bool) (rng : nat -> nat -> nat -> nat -> Z).

(** [if (!in.read...) { error = msg; return false; }] *)
Definition reading {A} (p : parser A) (r : reader) (msg : bytes) (k : A -> reader -> list entry * loaded) : list entry * loaded :=
  match p r with
  | Got a r => k a r
  | Refused => ([], LoadError msg)
  | Thrown => ([], LoadThrown)
  end.

(** After the end marker: the checksum of everything before it, unless zero. *)
Definition check_trailer (contents : bytes) (r : reader) : list entry * loaded :=
  reading (readRaw 8) r (str "missing checksum") (fun trailer _ =>
    let stored := fold_le trailer in
    if negb (stored =? 0) && negb (stored =? crc64 0 (take (9 + pos_ r) contents)) then ([], LoadError (str "checksum mismatch"))
    else ([], Loaded)).

(** Every turn reads at least its opcode, so the length of the file bounds the
    turns; the random bits of a sorted set are picked by its position. *)
Fixpoint load_loop (fuel : nat) (contents : bytes) (r : reader) (db_index expire_at_ms : Z) : list entry * loaded :=
  match fuel with
  | O => ([], LoadThrown)
  | S fuel =>
      reading readByte r (str "truncated file") (fun opcode r =>
        if opcode =? kOpEof then check_trailer contents r
        else if opcode =? kOpSelectDb then
          reading readLen r (str "bad SELECTDB") (fun index r => load_loop fuel contents r (i32 index) expire_at_ms)
        else if opcode =? kOpResizeDb then
          reading (_ ← readLen; readLen) r (str "bad RESIZEDB") (fun _ r => load_loop fuel contents r db_index expire_at_ms)
        else if opcode =? kOpAux then
          reading (_ ← readString max_alloc; readString max_alloc) r (str "bad auxiliary field")
            (fun _ r => load_loop fuel contents r db_index expire_at_ms)
        else if opcode =? kOpExpireMs then
          reading (readRaw 8) r (str "bad expiry") (fun raw r => load_loop fuel contents r db_index (i64 (fold_le raw)))
        else if opcode =? kOpExpireSec then
          reading (readRaw 4) r (str "bad expiry") (fun raw r => load_loop fuel contents r db_index (i64 (fold_le raw) * 1000))
        else if opcode =? kOpIdle then
          reading readLen r (str "bad IDLE") (fun _ r => load_loop fuel contents r db_index expire_at_ms)
        else if opcode =? kOpFreq then
          reading readByte r (str "bad FREQ") (fun _ r => load_loop fuel contents r db_index expire_at_ms)
        else if 0xF0 <=? opcode then ([], LoadError (str "unsupported opcode " ++ to_string opcode))
        else
          reading (readString max_alloc) r (str "bad key") (fun key r =>
            reading (loadObjectBody (ops:=ops) max_alloc range_error (rng (pos_ r)) opcode) r (str "bad value for key '" ++ key ++ str "'")
              (fun value r =>
                let '(es, res) := load_loop fuel contents r db_index (-1) in
                (mkEntry db_index key value expire_at_ms :: es, res))))
  end.

(** [std::atoi] of at most four characters. *)
Definition atoi (s : bytes) : Z :=
  let '(_, s) := Strtod.span Strtod.isspace s in
  let '(neg, s) := Strtod.take_sign s in
  let '(ds, _) := Strtod.span Strtod.isdigit s in
  if neg : bool then - dec_val 0 ds else dec_val 0 ds.

Definition load_contents (contents : bytes) : list entry * loaded :=
  if (length contents <? 9)%nat || negb (take 5 contents =b? str "REDIS") then ([], LoadError (str "wrong signature"))
  else
    let version := atoi (take 4 (drop 5 contents)) in
    if (version <? 1) || (kRdbVersion <? version) then ([], LoadError (str "unsupported RDB version " ++ take 4 (drop 5 contents)))
    else load_loop (S (length contents)) contents (mkReader (drop 9 contents) 0) 0 (-1).

(** What [fopen] and [fread] find. *)
Inductive file := Missing | Unreadable (strerror : bytes) | ReadFailed | Contents (bs : bytes).

(** The entries handed over, whether the file existed, and the result. *)
Definition loadFile (f : file) : list entry * bool * loaded :=
  match f with
  | Missing => ([], false, Loaded)
  | Unreadable msg => ([], false, LoadError msg)
  | ReadFailed => ([], true, LoadError (str "read error"))
  | Contents bs => let '(es, res) := load_contents bs in (es, true, res)
  end.
End Entries.
Arguments entry : clear implicits.

(** ** A snapshot appears whole or not at all *)

Section Writing.
Context {D : Type -> Type} {ops : MapOps D}.

(** The calls between the creation of a writer and its end. *)
Inductive call := Select (index size expires : Z) | Entry (key : bytes) (value : Object.value D) (expire_at_ms : Z).

Definition frame (c : call) : option bytes :=
  match c with Select i n x => Some (select_frame i n x) | Entry k v x => entry_frame k v x end.

Fixpoint frames (cs : list call) : option bytes :=
  match cs with
  | [] => Some []
  | c :: cs => x ← frame c; y ← frames cs; Some (x ++ y)
  end.

Definition exec (f : writer) (w : world) (c : call) : option (writer * world) :=
  match c with Select i n x => selectDb f w i n x | Entry k v x => writeEntry f w k v x end.

Fixpoint exec_all (f : writer) (w : world) (cs : list call) : option (writer * world) :=
  match cs with
  | [] => Some (f, w)
  | c :: cs => '(f, w) ← exec f w c; exec_all f w cs
  end.

(** The bytes of the finished file. *)
Definition sealed (data : bytes) : bytes := let covered := data ++ [kOpEof] in covered ++ push_le 8 (crc64 0 covered).

Definition snapshot (cs : list call) : option bytes := h ← header; x ← frames cs; Some (sealed (h ++ x)).

(** From [open] to [rename]. *)
Definition save (path : bytes) (pid : Z) (opened renamed : bool) (cs : list call) (w : world) : option (world * bool) :=
  '(w, f) ← create path pid opened w;
  match f with
  | None => Some (w, false)
  | Some f => '(f, w) ← exec_all f w cs; finish f w renamed
  end.

(** The temporary file and the buffer hold what was appended so far; no other
    file is touched. *)
Definition streaming (fs : gmap bytes bytes) (tmp path : bytes) (data : bytes) (f : writer) (w : world) : Prop :=
  tmp_path_ f = tmp /\ path_ f = path /\ exists written, files w = <[tmp := written]> fs /\
  (failed_ f = false -> crc_ f = crc64 0 written /\ written ++ buffer_ f = data).

Lemma write_all_ok os p file os' file' ok : write_all os p file = Some (os', file', ok) -> ok = true -> file' = file ++ p.
Proof.
  revert p file. induction os as [|o os IH]; intros p file; (destruct p as [|b p]; cbn [write_all]; [intros [= <- <- <-] _; by rewrite app_nil_r|]); [done|].
  destruct o as [n| |]; intros H Hok.
  - rewrite (IH _ _ H Hok), <- app_assoc. by rewrite take_drop.
  - by apply IH.
  - injection H as _ _ <-. done.
Qed.

Lemma crc64_app c x y : crc64 c (x ++ y) = crc64 (crc64 c x) y.
Proof. apply foldl_app. Qed.

Lemma append_streaming fs tmp path data f w bs f' w' : streaming fs tmp path data f w -> append f w bs = Some (f', w') -> streaming fs tmp path (data ++ bs) f' w'.
Proof.
  intros (Ht & Hp & written & Hf & Hd) H. unfold append in H.
  assert (streaming fs tmp path (data ++ bs) (set_buffer f (buffer_ f ++ bs)) w) as Hs.
  { split_and!; [done|done|]. exists written. split; [done|]. intros Hn. destruct (Hd Hn) as [Hc <-]. split; [done|]. cbn. by rewrite app_assoc. }
  destruct (_ <=? _); [|by injection H as <- <-]. revert H Hs. generalize (set_buffer f (buffer_ f ++ bs)). intros f1 H (Ht1 & Hp1 & written1 & Hf1 & Hd1).
  unfold flush in H. destruct (failed_ f1) eqn:Hn; [injection H as <- <-; split_and!; [done|done|]; exists written1; split; [done|]; by rewrite Hn|].
  destruct (length (buffer_ f1) =? 0)%nat; [injection H as <- <-; split_and!; [done|done|]; exists written1; split; [done|]; by rewrite Hn|].
  destruct (write_all _ _ _) as [[[os file] ok]|] eqn:Hw; [|done]. cbn in H. injection H as <- <-. split_and!; [done|done|]. exists file. split.
  - cbn. rewrite Ht1, Hf1, insert_insert_eq. done.
  - cbn. intros Hok%negb_false_iff. destruct (Hd1 eq_refl) as [Hc Hb]. apply write_all_ok in Hw; [|done]. rewrite Ht1 in Hw. unfold contents_of in Hw.
    rewrite Hf1, lookup_insert_eq in Hw. cbn in Hw. rewrite Hw, crc64_app, Hc, app_nil_r. done.
Qed.

Lemma exec_streaming fs tmp path data f w c f' w' : streaming fs tmp path data f w -> exec f w c = Some (f', w') ->
  exists x, frame c = Some x /\ streaming fs tmp path (data ++ x) f' w'.
Proof.
  intros Hs H. destruct c as [i n x|k v x]; cbn [exec] in H.
  - eexists. split; [done|]. by eapply append_streaming.
  - unfold writeEntry in H. cbn [frame]. destruct (entry_frame k v x) as [y|]; [|done]. exists y. split; [done|]. by eapply append_streaming.
Qed.

Lemma exec_all_streaming fs tmp path cs : forall data f w f' w', streaming fs tmp path data f w -> exec_all f w cs = Some (f', w') ->
  exists x, frames cs = Some x /\ streaming fs tmp path (data ++ x) f' w'.
Proof.
  induction cs as [|c cs IH]; intros data f w f' w' Hs H; cbn [exec_all frames] in *.
  - injection H as <- <-. exists []. by rewrite app_nil_r.
  - destruct (exec f w c) as [[f1 w1]|] eqn:Hc; [|done]. cbn in H. destruct (exec_streaming _ _ _ _ _ _ _ _ _ Hs Hc) as (x & -> & Hs1).
    destruct (IH _ _ _ _ _ Hs1 H) as (y & -> & Hs2). exists (x ++ y). split; [done|]. by rewrite app_assoc.
Qed.

Lemma tmp_name_ne path pid : tmp_name path pid <> path.
Proof. intros H. apply (f_equal length) in H. unfold tmp_name in H. rewrite !length_app in H. change (length (str ".tmp-")) with 5%nat in H. lia. Qed.

Lemma save_outcome path pid opened renamed cs w w' ok : save path pid opened renamed cs w = Some (w', ok) ->
  if ok then exists contents, snapshot cs = Some contents /\ files w' = <[path := contents]> (delete (tmp_name path pid) (files w))
  else files w' = (if opened then delete (tmp_name path pid) (files w) else files w).
Proof.
  unfold save, create, snapshot. destruct opened; [|by intros [= <- <-]]. destruct header as [h|] eqn:Hh; [|done]. cbn [mbind option_bind].
  destruct (exec_all _ _ cs) as [[f1 w1]|] eqn:He; [|done]. cbn [mbind option_bind]. intros H.
  eapply (exec_all_streaming (files w) (tmp_name path pid) path cs h) in He as (x & Hx & Ht & Hp & written & Hf & Hd); [|split; [done|]; split; [done|]; exists []; split; [done|]; intros _; split; done].
  rewrite Hx. cbn [mbind option_bind]. unfold finish in H.
  destruct (failed_ f1) eqn:Hn.
  - cbn in H. injection H as <- <-. cbn. by rewrite Ht, Hf, delete_insert_eq.
  - destruct (Hd eq_refl) as [Hc Hb]. destruct (write_all _ _ _) as [[[os file] ok1]|] eqn:Hw; [|done]. cbn [mbind option_bind] in H.
    destruct ok1; cbn [negb orb] in H; [|injection H as <- <-; cbn; by rewrite Ht, Hf, delete_insert_eq].
    destruct renamed; cbn [negb] in H; injection H as <- <-; cbn [files]; rewrite Ht, Hf, delete_insert_eq; [|done].
    eexists. split; [done|]. apply write_all_ok in Hw; [|done]. unfold contents_of in Hw. rewrite Ht, Hf, lookup_insert_eq in Hw. cbn [default] in Hw.
    rewrite Hp. f_equal. rewrite Hw. unfold sealed. rewrite <- Hb, Hc, <- !app_assoc. do 4 f_equal. by rewrite <- crc64_app.
Qed.

End Writing.
Arguments call : clear implicits.

(** ** What was written is handed over again *)

Section Reading.
Context {D : Type -> Type} {ops : MapOps D} {laws : MapLaws D}.
Context (max_alloc : Z) (range_error : bytes -> bool) (rng : nat -> nat -> nat -> nat -> Z).

(** What a sequence of calls, started in database [db], means. *)
Inductive describes : list (call D) -> Z -> list (Z * bytes * aval * Z) -> Prop :=
  | describes_nil db : describes [] db []
  | describes_select i n x cs db hs : 0 <= i < 2 ^ 31 -> is_u64 n -> is_u64 x -> describes cs i hs -> describes (Select i n x :: cs) db hs
  | describes_entry k v a x cs db hs : blob_ok max_alloc k -> models v a -> acount a <> 0%nat -> savable max_alloc v -> -1 <= x < 2 ^ 63 ->
      describes cs db hs -> describes (Entry k v x :: cs) db ((db, k, a, x) :: hs).

Definition restores (e : entry D) (h : Z * bytes * aval * Z) : Prop :=
  let '(db, k, a, x) := h in e_db e = db /\ e_key e = k /\ e_expire e = x /\ models (e_value e) a.

Lemma reading_ok {A} (p : parser A) x a r rest msg (k : A -> reader -> list (entry D) * loaded) :
  parses p x a -> ahead r (x ++ rest) -> reading p r msg k = k a (advance (length x) r).
Proof. intros Hp Hr. unfold reading. by rewrite (Hp r rest Hr). Qed.

Abbreviation loop := (load_loop (ops:=ops) max_alloc range_error rng).

Lemma advance_advance m n r : advance n (advance m r) = advance (m + n) r.
Proof. unfold advance. cbn. by rewrite Nat.add_assoc. Qed.

Lemma u64_i32 i : 0 <= i < 2 ^ 31 -> i32 (u64 i) = i.
Proof. intros Hi. rewrite uwrap_small by (unfold u_range; lia). apply swrap_small; [lia|]. unfold s_range. cbn. lia. Qed.

Lemma load_select i n x fuel contents r rest db : 0 <= i < 2 ^ 31 -> is_u64 n -> is_u64 x -> ahead r (select_frame i n x ++ rest) ->
  loop (S (S fuel)) contents r db (-1) = loop fuel contents (advance (length (select_frame i n x)) r) i (-1).
Proof.
  intros Hi Hn Hx Hr. unfold select_frame in *. cbn [app] in Hr. rewrite <- !app_assoc in Hr.
  cbn [load_loop]. rewrite (reading_ok readByte [kOpSelectDb] kOpSelectDb r _ _ _ (parses_byte _) Hr). apply (ahead_advance r [kOpSelectDb]) in Hr.
  change (kOpSelectDb =? kOpEof) with false. rewrite Z.eqb_refl. cbv iota.
  rewrite (reading_ok readLen _ _ _ _ _ _ (parses_readLen (u64 i) ltac:(apply uwrap_range; lia)) Hr). apply ahead_advance in Hr. cbn [app] in Hr.
  rewrite u64_i32 by done. rewrite (reading_ok readByte [kOpResizeDb] kOpResizeDb _ _ _ _ (parses_byte _) Hr). apply (ahead_advance _ [kOpResizeDb]) in Hr.
  change (kOpResizeDb =? kOpEof) with false. change (kOpResizeDb =? kOpSelectDb) with false. rewrite Z.eqb_refl. cbv iota.
  rewrite <- app_assoc in Hr. rewrite app_assoc in Hr. erewrite (reading_ok (_ ← readLen; readLen) (saveLen n ++ saveLen x)); [|eapply parses_bind; by apply parses_readLen|exact Hr].
  rewrite !advance_advance. do 2 f_equal. cbn [length]. rewrite !length_app. cbn [length]. rewrite !length_app. lia.
Qed.

Lemma objectType_plain (v : Object.value D) : 0 <= objectType v < 0xF0.
Proof.
  unfold objectType. destruct (Object.type_ v); [done|done| | |].
  - by destruct (from_option SetValue.SetValue.encoding_ EHashTable (Object.set_ v)).
  - by destruct (from_option HashValue.HashValue.encoding_ EHashTable (Object.hash v)).
  - by destruct (from_option ZSetValue.ZSetValue.encoding_ ESkipList (Object.zset v)).
Qed.

Lemma load_entry k v a x db : blob_ok max_alloc k -> models v a -> acount a <> 0%nat -> savable max_alloc v -> -1 <= x < 2 ^ 63 ->
  exists data n, entry_frame k v x = Some data /\ (1 <= n <= length data)%nat /\
    (forall contents r rest, ahead r (data ++ rest) -> exists v', models v' a /\ forall fuel, loop (n + fuel) contents r db (-1) =
      let '(es, res) := loop fuel contents (advance (length data) r) db (-1) in (mkEntry db k v' x :: es, res)).
Proof.
  intros Hk Hm Ha Hs Hx. destruct (save_blob max_alloc k Hk) as (kx & Hkx & Hkp & Hkne).
  destruct (body_saved max_alloc range_error (fun _ _ _ => 0) v a Hm Ha Hs) as (body & _ & Hb & _ & _).
  assert (forall contents rest r0 y, ahead r0 ((objectType v :: kx ++ body) ++ rest) -> exists v', models v' a /\ forall fuel, loop (S fuel) contents r0 db y =
      let '(es, res) := loop fuel contents (advance (length (objectType v :: kx ++ body)) r0) db (-1) in (mkEntry db k v' y :: es, res)) as Hbare.
  { intros contents rest r0 y Hr. cbn [app] in Hr. rewrite <- app_assoc in Hr. pose proof (ahead_advance r0 [objectType v] _ Hr) as Hr1. pose proof (ahead_advance _ kx _ Hr1) as Hr2.
    destruct (body_saved max_alloc range_error (rng (pos_ (advance (length kx) (advance 1 r0)))) v a Hm Ha Hs) as (body' & v' & Hb' & Hbp & Hm').
    rewrite Hb in Hb'. injection Hb' as <-. exists v'. split; [done|]. intros fuel. cbn [load_loop].
    rewrite (reading_ok readByte [objectType v] (objectType v) r0 _ _ _ (parses_byte _) Hr). cbn [length].
    pose proof (objectType_plain v) as Ho. unfold kOpEof, kOpSelectDb, kOpResizeDb, kOpAux, kOpExpireMs, kOpExpireSec, kOpIdle, kOpFreq.
    rewrite !(proj2 (Z.eqb_neq (objectType v) _)) by lia. rewrite (proj2 (Z.leb_gt _ _)) by lia.
    rewrite (reading_ok _ _ _ _ _ _ _ Hkp Hr1), (reading_ok _ _ _ _ _ _ _ Hbp Hr2), !advance_advance. by rewrite length_app. }
  unfold entry_frame. rewrite Hkx, Hb. cbn [mbind option_bind]. destruct (Z.leb_spec 0 x) as [Hx0|Hx0].
  - exists ((kOpExpireMs :: push_le 8 (u64 x)) ++ objectType v :: kx ++ body), 2%nat. split; [done|]. split; [rewrite length_app; cbn [length]; lia|]. intros contents r rest Hr.
    assert (length (push_le 8 (u64 x)) = 8%nat) as Hl by (by rewrite push_le_bytes, length_le_bytes).
    rewrite <- app_assoc in Hr. cbn [app] in Hr. pose proof (ahead_advance r [kOpExpireMs] _ Hr) as Hr1. pose proof (ahead_advance _ (push_le 8 (u64 x)) _ Hr1) as Hr2.
    destruct (Hbare contents rest _ x Hr2) as (v' & Hm' & Hl'). exists v'. split; [done|]. intros fuel. change (2 + fuel)%nat with (S (S fuel)). cbn [load_loop].
    rewrite (reading_ok readByte [kOpExpireMs] kOpExpireMs r _ _ _ (parses_byte _) Hr).
    change (kOpExpireMs =? kOpEof) with false. change (kOpExpireMs =? kOpSelectDb) with false. change (kOpExpireMs =? kOpResizeDb) with false. change (kOpExpireMs =? kOpAux) with false. rewrite Z.eqb_refl. cbv iota.
    rewrite (reading_ok (readRaw 8) _ _ _ _ _ _ (parses_raw (push_le 8 (u64 x)) 8 ltac:(unfold size; by rewrite Hl)) Hr1).
    replace (i64 (fold_le (push_le 8 (u64 x)))) with x.
    + etransitivity; [apply (Hl' fuel)|]. rewrite !advance_advance, length_app. cbn [length]. done.
    + rewrite fold_le_push by lia. rewrite Z.mod_small by (unfold uwrap; apply Z.mod_pos_bound; lia). rewrite swrap_uwrap; [done|lia|]. unfold s_range. cbn. lia.
  - exists ([] ++ objectType v :: kx ++ body), 1%nat. split; [done|]. split; [cbn [app length]; lia|]. cbn [app]. intros contents r rest Hr. replace x with (-1) by lia. destruct (Hbare contents rest r (-1) Hr) as (v' & Hm' & Hl'). exists v'. split; [done|]. intros fuel. exact (Hl' fuel).
Qed.

Lemma load_frames cs db hs : describes cs db hs -> exists data, frames cs = Some data /\
  forall fuel contents r rest, ahead r (data ++ rest) -> (length data < fuel)%nat ->
  exists es fuel' db', Forall2 restores es hs /\ (fuel - length data <= fuel')%nat /\
    loop fuel contents r db (-1) = let '(es', res) := loop fuel' contents (advance (length data) r) db' (-1) in (es ++ es', res).
Proof.
  induction 1 as [db|i n x cs db hs Hi Hn Hx _ IH|k v a x cs db hs Hk Hm Ha Hs Hx _ IH]; cbn [frames frame].
  - exists []. split; [done|]. intros fuel contents r rest _ Hf. exists [], fuel, db. split_and!; [constructor|cbn; lia|]. unfold advance. cbn. rewrite Nat.add_0_r. destruct r. cbn. by destruct (loop _ _ _ _ _).
  - destruct IH as (data & -> & IH). cbn [mbind option_bind]. eexists. split; [done|]. intros fuel contents r rest Hr Hf. rewrite length_app in Hf |- *.
    assert (2 <= length (select_frame i n x))%nat as H2 by (unfold select_frame; cbn [length]; rewrite length_app; cbn [length]; lia).
    rewrite <- app_assoc in Hr. destruct fuel as [|[|fuel]]; [lia|lia|]. rewrite (load_select i n x fuel contents r _ db Hi Hn Hx Hr). apply ahead_advance in Hr.
    destruct (IH fuel contents _ rest Hr) as (es & fuel' & db' & Hes & Hf' & ->); [lia|]. exists es, fuel', db'. split_and!; [done|lia|]. by rewrite advance_advance.
  - destruct IH as (data & -> & IH). destruct (load_entry k v a x db Hk Hm Ha Hs Hx) as (fr & n & -> & Hn & Hl). cbn [mbind option_bind]. eexists. split; [done|].
    intros fuel contents r rest Hr Hf. rewrite length_app in Hf |- *. rewrite <- app_assoc in Hr. destruct (Hl contents r _ Hr) as (v' & Hm' & Hloop).
    apply ahead_advance in Hr. replace fuel with (n + (fuel - n))%nat by lia. rewrite Hloop.
    destruct (IH (fuel - n)%nat contents _ rest Hr) as (es & fuel' & db' & Hes & Hf' & ->); [lia|].
    exists (mkEntry db k v' x :: es), fuel', db'. split_and!; [by constructor|lia|]. rewrite advance_advance. by destruct (loop fuel' _ _ _ _).
Qed.

Lemma load_aux key value x rest fuel contents r : blob_ok max_alloc key -> blob_ok max_alloc value -> aux key value = Some x -> ahead r (x ++ rest) ->
  loop (S fuel) contents r 0 (-1) = loop fuel contents (advance (length x) r) 0 (-1).
Proof.
  intros Hk Hv. unfold aux. destruct (save_blob max_alloc key Hk) as (k & -> & Hkp & _). destruct (save_blob max_alloc value Hv) as (v & -> & Hvp & _).
  cbn [mbind option_bind]. intros [= <-] Hr. cbn [app] in Hr. pose proof (ahead_advance r [kOpAux] _ Hr) as Hr1. cbn [load_loop].
  rewrite (reading_ok readByte [kOpAux] kOpAux r _ _ _ (parses_byte _) Hr). change (kOpAux =? kOpEof) with false. change (kOpAux =? kOpSelectDb) with false. change (kOpAux =? kOpResizeDb) with false. rewrite Z.eqb_refl. cbv iota.
  erewrite (reading_ok (_ ← readString max_alloc; readString max_alloc) (k ++ v)); [|eapply parses_bind; [exact Hkp|exact Hvp]|exact Hr1]. by rewrite advance_advance.
Qed.

Lemma load_eof contents r fuel db (rest : bytes) : ahead r (kOpEof :: push_le 8 (crc64 0 (take (9 + S (pos_ r)) contents)) ++ rest) ->
  loop (S fuel) contents r db (-1) = ([], Loaded).
Proof.
  intros Hr. pose proof (ahead_advance r [kOpEof] _ Hr) as Hr1. cbn [load_loop]. rewrite (reading_ok readByte [kOpEof] kOpEof r _ _ _ (parses_byte _) Hr). rewrite Z.eqb_refl.
  unfold check_trailer. rewrite (reading_ok (readRaw 8) _ _ _ _ _ _ (parses_raw (push_le 8 (crc64 0 (take (9 + S (pos_ r)) contents))) 8 ltac:(unfold size; by rewrite push_le_bytes, length_le_bytes)) Hr1).
  rewrite fold_le_push, Z.mod_small by (lia || apply (crc64_range _ 0); done). unfold advance. cbn [pos_ length]. rewrite Nat.add_1_r, Z.eqb_refl. cbn [negb]. by rewrite andb_false_r.
Qed.

(** The whole file. *)
Lemma load_snapshot cs hs : describes cs 0 hs -> 10 <= max_alloc ->
  exists contents es, snapshot cs = Some contents /\ load_contents (ops:=ops) max_alloc range_error rng contents = (es, Loaded) /\ Forall2 restores es hs.
Proof.
  intros Hd Hm. destruct (load_frames cs 0 hs Hd) as (data & Hf & Hl). unfold snapshot.
  destruct (aux (str "redis-ver") (str "7.4.0")) as [a|] eqn:Ha; [|done]. destruct (aux (str "redis-bits") (str "64")) as [b|] eqn:Hb; [|done].
  assert (header = Some ((str "REDIS" ++ version_text) ++ a ++ b)) as -> by (unfold header; rewrite Ha, Hb; done). rewrite Hf. cbn [mbind option_bind].
  assert (forall s, bytes_ok s -> size s <= 10 -> blob_ok max_alloc s) as Hok by (intros s Hs Hl'; split; [done|lia]).
  set (head := str "REDIS" ++ version_text). assert (length head = 9%nat) as Hh by done. set (C := sealed _).
  set (covered := ((head ++ a ++ b) ++ data) ++ [kOpEof]).
  assert (C = head ++ a ++ b ++ data ++ kOpEof :: push_le 8 (crc64 0 covered) ++ []) as HC.
  { unfold C, sealed. fold covered. unfold covered at 1. rewrite app_nil_r. by rewrite <- !app_assoc. }
  assert (ahead (mkReader (drop 9 C) 0) (a ++ b ++ data ++ kOpEof :: push_le 8 (crc64 0 covered) ++ [])) as Hr.
  { split; [|cbn; lia]. cbn [pos_ bytes_]. rewrite drop_0, HC, <- Hh. apply drop_app_length. }
  destruct (Hl (length C - 1)%nat C (advance (length b) (advance (length a) (mkReader (drop 9 C) 0))) _ (ahead_advance _ b _ (ahead_advance _ a _ Hr))) as (es & fuel' & db' & Hes & Hf' & Hloop).
  { rewrite HC, !length_app. cbn [length]. rewrite length_app. lia. }
  exists C, es. split; [done|]. split; [|done]. unfold load_contents.
  assert (take 5 C = str "REDIS" /\ take 4 (drop 5 C) = version_text) as [-> ->] by (rewrite HC; done).
  rewrite (proj2 (Nat.ltb_ge _ _)) by (rewrite HC, length_app; lia). rewrite bool_decide_true by done. cbn [negb orb].
  change ((atoi version_text <? 1) || (kRdbVersion <? atoi version_text)) with false. cbv iota.
  assert (3 <= length C)%nat as H3 by (rewrite HC, length_app; lia). replace (S (length C)) with (S (S (length C - 1))) by lia.
  rewrite (load_aux (str "redis-ver") (str "7.4.0") _ _ _ _ _ ltac:(apply Hok; [apply (bool_decide_unpack _); vm_compute; exact I|vm_compute; done]) ltac:(apply Hok; [apply (bool_decide_unpack _); vm_compute; exact I|vm_compute; done]) Ha Hr).
  rewrite (load_aux (str "redis-bits") (str "64") _ _ _ _ _ ltac:(apply Hok; [apply (bool_decide_unpack _); vm_compute; exact I|vm_compute; done]) ltac:(apply Hok; [apply (bool_decide_unpack _); vm_compute; exact I|vm_compute; done]) Hb (ahead_advance _ a _ Hr)).
  rewrite Hloop. destruct fuel' as [|fuel']; [exfalso; apply (Nat.lt_irrefl (length data)); rewrite HC, !length_app in Hf'; cbn [length] in Hf'; rewrite length_app in Hf'; lia|].
  rewrite (load_eof C _ fuel' db' []); [by rewrite app_nil_r|].
  replace (take (9 + S _) C) with covered; [exact (ahead_advance _ data _ (ahead_advance _ b _ (ahead_advance _ a _ Hr)))|].
  unfold C, sealed. fold covered. symmetry. apply take_app_length'. unfold covered. cbn [advance pos_]. rewrite !length_app. cbn [length]. rewrite ?length_app. lia.
Qed.

End Reading.
End RdbFile.
