(* ===== verification/Persistence.v ===== *)
(** * Persistence: the server's side of snapshots

    [src/server/persistence.cpp]: taking a snapshot of every database, doing so
    in a forked child, and loading one back at startup or for DEBUG RELOAD.
    What the operating system answers ([open], [write], [rename], [fork],
    [waitpid], the clocks) is an input. *)

From Stdlib Require Import ZArith Lia.
From stdpp Require Import base list numbers option gmap strings.
From S2P Require Import Prelude Encoding MapSpec Dict Db ListValue Object Rdb Command Keyspace RdbObject RdbFile.

Module Persistence.
Import Keyspace Rdb RdbObject RdbFile.

(** What the rest of the server hears: the callbacks of the databases, and
    that the watchers of a database have to be told it was emptied. *)
Inductive news := DatabaseEvent (index : nat) (e : Db.event) | WatchersOfFlushed (index : nat).

Section Server.
Context {D : Type -> Type} {ops : MapOps D}.

Abbreviation database := (Db.t D (Object.value D)).

Record server := mkServer {
  databases_ : list database; dirty_ : Z; last_save_time_ : Z; rdb_saves_ : Z;
  bgsave_pid_ : Z; dirty_at_fork_ : Z; last_bgsave_ok_ : bool;
  loading_ : bool; load_failed_ : bool; heard : list news }.

Definition set_databases (s : server) (dbs : list database) : server :=
  mkServer dbs (dirty_ s) (last_save_time_ s) (rdb_saves_ s) (bgsave_pid_ s) (dirty_at_fork_ s) (last_bgsave_ok_ s) (loading_ s) (load_failed_ s) (heard s).
Definition set_saved (s : server) (dirty time saves : Z) : server :=
  mkServer (databases_ s) dirty time saves (bgsave_pid_ s) (dirty_at_fork_ s) (last_bgsave_ok_ s) (loading_ s) (load_failed_ s) (heard s).
Definition set_child (s : server) (pid at_fork : Z) (ok : bool) : server :=
  mkServer (databases_ s) (dirty_ s) (last_save_time_ s) (rdb_saves_ s) pid at_fork ok (loading_ s) (load_failed_ s) (heard s).
Definition set_loading (s : server) (loading failed : bool) : server :=
  mkServer (databases_ s) (dirty_ s) (last_save_time_ s) (rdb_saves_ s) (bgsave_pid_ s) (dirty_at_fork_ s) (last_bgsave_ok_ s) loading failed (heard s).
Definition hear (s : server) (ns : list news) : server :=
  mkServer (databases_ s) (dirty_ s) (last_save_time_ s) (rdb_saves_ s) (bgsave_pid_ s) (dirty_at_fork_ s) (last_bgsave_ok_ s) (loading_ s) (load_failed_ s) (heard s ++ ns).

Definition rdbPath (dir dbfilename : bytes) : bytes :=
  if (dir =b? []) || (dir =b? str ".") then dbfilename else dir ++ str "/" ++ dbfilename.

(** ** Callbacks *)

(** The callbacks of a database: a key that appears while a snapshot is being
    loaded is not news. *)
Definition audible (loading : bool) (e : Db.event) : bool := match e with Db.NewKey _ => negb loading | Db.Expired _ => true end.

(** What the databases called back about while they were worked on. *)
Definition drain (s : server) (dbs : list database) : server :=
  hear (set_databases s (map Command.clear_events dbs))
    (concat (imap (fun i d => map (DatabaseEvent i) (List.filter (audible (loading_ s)) (Db.events d))) dbs)).

(** ** Taking a snapshot *)

(** What the operating system answers during a save. *)
Record host := mkHost { now : Z; time : Z; pid : Z; opened : bool; renamed : bool; strerror : bytes }.

Fixpoint write_keys (f : writer) (w : world) (d : database) (now : Z) (ks : list bytes) : option (writer * world * database) :=
  match ks with
  | [] => Some (f, w, d)
  | key :: ks =>
      '(d, at_) ← Db.expireAtMs d key;
      if negb (at_ =? -1) && (at_ <=? now) then write_keys f w d now ks
      else
        '(d, value) ← Db.lookupRead Object.touch d key now;
        match value with
        | None => write_keys f w d now ks
        | Some v => '(f, w) ← writeEntry f w key v at_; write_keys f w d now ks
        end
  end.

Fixpoint write_databases (f : writer) (w : world) (now : Z) (i : nat) (dbs : list database) : option (writer * world * list database) :=
  match dbs with
  | [] => Some (f, w, [])
  | d :: dbs =>
      if (Db.size d =? 0)%nat then
        '(f, w, dbs) ← write_databases f w now (S i) dbs; Some (f, w, d :: dbs)
      else
        '(f, w) ← selectDb f w (Z.of_nat i) (Z.of_nat (Db.size d)) (Z.of_nat (Db.expiresSize d));
        '(f, w, d) ← write_keys f w d now (Db.keys d);
        '(f, w, dbs) ← write_databases f w now (S i) dbs;
        Some (f, w, d :: dbs)
  end.

(** The message of a failure. *)
Definition writeRdbFile (path : bytes) (h : host) (dbs : list database) (w : world) : option (world * list database * option bytes) :=
  '(w, f) ← create path (pid h) (opened h) w;
  match f with
  | None => Some (w, dbs, Some (strerror h))
  | Some f =>
      '(f, w, dbs) ← write_databases f w (now h) 0 dbs;
      '(w, ok) ← finish f w (renamed h);
      Some (w, dbs, if ok : bool then None else Some (str "write failed"))
  end.

Definition saveRdb (path : bytes) (h : host) (s : server) (w : world) : option (world * server * option bytes) :=
  '(w, dbs, err) ← writeRdbFile path h (databases_ s) w;
  let s := drain s dbs in
  Some (w, match err with Some _ => s | None => set_saved s 0 (time h) (u64 (rdb_saves_ s + 1)) end, err).

(** ** In a child *)

Inductive forked := ForkFailed (strerror : bytes) | ForkedAs (pid : Z).

(** The parent's side; [Some] is the message of a failure. *)
Definition startBackgroundSave (f : forked) (s : server) : server * option bytes :=
  if negb (bgsave_pid_ s =? -1) then (s, Some (str "Background save already in progress"))
  else
    match f with
    | ForkFailed msg => (set_child s (bgsave_pid_ s) (dirty_at_fork_ s) false, Some msg)
    | ForkedAs p => (set_child s p (dirty_ s) (last_bgsave_ok_ s), None)
    end.

(** The child's side: it works on its own copy and exits. *)
Definition background_child (path : bytes) (h : host) (s : server) (w : world) : option (world * Z) :=
  '(w, _, err) ← writeRdbFile path h (databases_ s) w;
  Some (w, match err with None => 0 | Some _ => 1 end).

Inductive waited := StillRunning | WaitFailed | Exited (status : Z) | Signaled.

Definition reapBackgroundSave (r : waited) (time : Z) (s : server) : server :=
  if bgsave_pid_ s =? -1 then s
  else
    match r with
    | StillRunning => s
    | WaitFailed => set_child s (-1) (dirty_at_fork_ s) false
    | Exited status =>
        let ok := status =? 0 in
        let s := set_child s (-1) (dirty_at_fork_ s) ok in
        if negb ok then s
        else set_saved s (if dirty_at_fork_ s <=? dirty_ s then dirty_ s - dirty_at_fork_ s else 0) time (u64 (rdb_saves_ s + 1))
    | Signaled => set_child s (-1) (dirty_at_fork_ s) false
    end.

(** ** Loading *)

Definition store_database (s : server) (i : nat) (d : database) : server :=
  hear (set_databases s (<[i := Command.clear_events d]> (databases_ s))) (map (DatabaseEvent i) (List.filter (audible (loading_ s)) (Db.events d))).

Definition restoreLoadedKey (now : Z) (s : server) (e : entry D) : option server :=
  if (e_db e <? 0) || (Z.of_nat (length (databases_ s)) <=? e_db e) then Some (set_loading s (loading_ s) true)
  else if (0 <=? e_expire e) && (e_expire e <=? now) then Some s
  else
    d ← databases_ s !! Z.to_nat (e_db e);
    d ← Db.setKey d (e_key e) (e_value e);
    d ← (if 0 <=? e_expire e then Db.setExpireAt d (e_key e) (e_expire e) else Some d);
    Some (store_database s (Z.to_nat (e_db e)) d).

(** The callback, called once for every entry; [clock n] is the time it reads. *)
Fixpoint restore_all (clock : nat -> Z) (n : nat) (s : server) (es : list (entry D)) : option server :=
  match es with
  | [] => Some s
  | e :: es => s ← restoreLoadedKey (clock n) s e; restore_all clock (S n) s es
  end.

Section Loading.
Context (max_alloc : Z) (range_error : bytes -> bool) (rng : nat -> nat -> nat -> nat -> Z).

(** [loading_ = true; load_failed_ = false; loadFile(...); loading_ = false]:
    the result is an error message, if any. *)
Definition load (clock : nat -> Z) (f : file) (s : server) : option (server * bool * option bytes) :=
  let '(es, existed, res) := loadFile (ops:=ops) max_alloc range_error rng f in
  s ← restore_all clock 0 (set_loading s true false) es;
  let s := set_loading s false (load_failed_ s) in
  match res with
  | Loaded => Some (s, existed, if load_failed_ s then Some (str "database index out of range") else None)
  | LoadError msg => Some (s, existed, Some msg)
  | LoadThrown => None
  end.

(** The file behind a path. *)
Definition file_at (w : world) (path : bytes) : file := match files w !! path with Some bs => Contents bs | None => Missing end.

Definition reloadRdb (path : bytes) (h : host) (clock : nat -> Z) (s : server) (w : world) : option (world * server * option bytes) :=
  '(w, s, err) ← saveRdb path h s w;
  match err with
  | Some msg => Some (w, s, Some msg)
  | None =>
      let s := hear s (map WatchersOfFlushed (seq 0 (length (databases_ s)))) in
      let s := set_databases s (map Db.flush (databases_ s)) in
      '(s, _, err) ← load clock (file_at w path) s;
      Some (w, s, err)
  end.

(** [false] and the message when the server refuses to start. *)
Definition loadRdbAtStartup (path : bytes) (clock : nat -> Z) (time : Z) (s : server) (w : world) : option (server * option bytes) :=
  '(s, _, err) ← load clock (file_at w path) s;
  match err with
  | Some msg => Some (s, Some msg)
  | None => Some (set_saved s (dirty_ s) time (rdb_saves_ s), None)
  end.
End Loading.
End Server.
Arguments server : clear implicits.

(** ** A snapshot holds what the clients see *)

Section Snapshot.
Context {D : Type -> Type} {ops : MapOps D} {laws : MapLaws D}.
Context (max_alloc : Z) (range_error : bytes -> bool) (rng : nat -> nat -> nat -> nat -> Z).
Implicit Types (d : Db.t D (Object.value D)) (G : keyspace).

(** The keys and the values of a database can be written and allocated again,
    and its sizes are counted in 64 bits. *)
Definition fits (k : bytes) (v : Object.value D) : Prop := blob_ok max_alloc k /\ savable max_alloc v.
Definition db_savable d : Prop :=
  Z.of_nat (Db.size d) < 2 ^ 64 /\ Z.of_nat (Db.expiresSize d) < 2 ^ 64 /\ forall m x, Db.holds d m x -> map_Forall fits m.

(** No collection of a keyspace is empty. *)
Definition inhabited (G : keyspace) : Prop := map_Forall (fun _ p => acount (fst p) <> 0%nat) G.

Lemma fits_touch k v n : fits k v -> fits k (Object.touch v n).
Proof. done. Qed.

(** A database during the save. *)
Definition kept (t : Z) G d (m : gmap bytes (Object.value D)) (x : gmap bytes Z) : Prop :=
  Db.holds d m x /\ Db.expiration_enabled_ d = true /\ (forall j, key_sim t false (m !! j) (x !! j) (G !! j)) /\ map_Forall fits m.

Lemma kept_lookup t G d m x k : kept t G d m x ->
  exists d' m' x' o, Db.lookupRead Object.touch d k t = Some (d', o) /\ kept t G d' m' x' /\
    match G !! k with Some (a, e) => exists v, o = Some v /\ models v a /\ fits k v | None => o = None end.
Proof.
  intros (Hh & He & Hk & Hf). destruct (Db.lookupRead_ok Object.touch d m x k t Hh) as (d' & m' & x' & Hl & Hh' & Hc & Hr).
  rewrite Db.visible_lookup in Hl. unfold Db.reaps in Hr. rewrite is_expired_alive in *. rewrite He, andb_true_r in Hr. exists d', m', x'.
  eexists. split; [exact Hl|]. assert (Db.expiration_enabled_ d' = true) as He' by (unfold Db.config in Hc; congruence). pose proof (Hk k) as Hkk.
  destruct (alive t (x !! k)) eqn:Ha; cbn [negb] in *; destruct Hr as (Hm' & Hx' & Hr).
  - subst x' m'. split.
    + split_and!; [done|done| |].
      * intros j. destruct (decide (j = k)) as [->|Hj]; [|by rewrite lookup_alter_ne]. rewrite lookup_alter_eq. destruct (G !! k) as [[a e]|]; cbn in Hkk |- *.
        -- destruct Hkk as (v & -> & Hv & Hrest). exists (Object.touch v t). split_and!; [done|by apply models_touch|by apply Hrest..].
        -- destruct Hkk as [[-> ?]|[_ ?]]; [by left|right; done].
      * intros j v Hj. destruct (decide (j = k)) as [->|Hne]; [|rewrite lookup_alter_ne in Hj by done; by apply Hf]. rewrite lookup_alter_eq in Hj.
        destruct (m !! k) as [v0|] eqn:Hv0; [|done]. injection Hj as <-. by apply fits_touch, Hf.
    + destruct (G !! k) as [[a e]|]; cbn in Hkk.
      * destruct Hkk as (v & Hv & Hm & _). rewrite Hv. eexists. split; [done|]. split; [by apply models_touch|]. by apply fits_touch, Hf.
      * destruct Hkk as [[-> _]|[_ Hd]]; [done|congruence].
  - subst x' m'. split.
    + split_and!; [done|done| |].
      * intros j. destruct (decide (j = k)) as [->|Hj]; [|by rewrite !lookup_delete_ne]. rewrite !lookup_delete_eq. destruct (G !! k) as [[a e]|]; cbn in Hkk |- *; [|by left].
        destruct Hkk as (v & _ & _ & He0 & Hal & _). rewrite He0 in Ha. congruence.
      * intros j v [_ Hj]%lookup_delete_Some. by apply Hf.
    + destruct (G !! k) as [[a e]|]; [|done]. destruct Hkk as (v & _ & _ & He0 & Hal & _). rewrite He0 in Ha. congruence.
Qed.

Lemma kept_deadline t G d m x k : kept t G d m x -> exists d', Db.expireAtMs d k = Some (d', from_option id (-1) (x !! k)) /\ kept t G d' m x.
Proof.
  intros (Hh & He & Hk & Hf). destruct (Db.expireAtMs_ok d m x k Hh) as (d' & -> & Hh' & Hc & _). exists d'. split; [done|]. split_and!; [done| |done|done].
  unfold Db.config in Hc. congruence.
Qed.

(** The line of a key in the snapshot. *)
Definition line (i : nat) G (k : bytes) : option (Z * bytes * aval * Z) :=
  '(a, e) ← G !! k; Some (Z.of_nat i, k, a, from_option id (-1) e).

Lemma exec_all_app f w (cs1 cs2 : list (call D)) : exec_all f w (cs1 ++ cs2) = '(f, w) ← exec_all f w cs1; exec_all f w cs2.
Proof. revert f w. induction cs1 as [|c cs1 IH]; intros f w; cbn [app exec_all]; [done|]. destruct (exec f w c) as [[f1 w1]|]; [|done]. cbn. apply IH. Qed.

Lemma write_keys_calls t G i (ks : list bytes) : 0 <= t -> inhabited G -> forall d m x, kept t G d m x ->
  exists cs d' m' x', kept t G d' m' x' /\
    (forall f w, write_keys f w d t ks = '(f, w) ← exec_all f w cs; Some (f, w, d')) /\
    (forall cs2 hs2, describes max_alloc cs2 (Z.of_nat i) hs2 -> describes max_alloc (cs ++ cs2) (Z.of_nat i) (omap (line i G) ks ++ hs2)).
Proof.
  intros Ht HG. induction ks as [|k ks IH]; intros d m x Hd; cbn [write_keys].
  { exists [], d, m, x. split_and!; [done|done|done]. }
  destruct (kept_deadline t G d m x k Hd) as (d1 & He1 & Hd1). assert (key_sim t false (m !! k) (x !! k) (G !! k)) as Hk by apply Hd.
  destruct (kept_lookup t G d1 m x k Hd1) as (d2 & m2 & x2 & o & Hl & Hd2 & Ho).
  change (omap (line i G) (k :: ks)) with (match line i G k with Some h => h :: omap (line i G) ks | None => omap (line i G) ks end).
  assert (line i G k = '(a, e) ← G !! k; Some (Z.of_nat i, k, a, from_option id (-1) e)) as -> by done.
  destruct (G !! k) as [[a e]|] eqn:HGk; cbn [mbind option_bind].
  - destruct Ho as (v & -> & Hm & Hfit). destruct Hk as (v0 & _ & _ & Hx & Ha & Hdl). rewrite Hx in He1.
    destruct (IH d2 m2 x2 Hd2) as (cs & d' & m' & x' & Hd' & Hw & Hdesc). exists (Entry k v (from_option id (-1) e) :: cs), d', m', x'. split_and!; [done| |].
    + intros f w. rewrite He1. cbn [mbind option_bind]. replace (negb (from_option id (-1) e =? -1) && (from_option id (-1) e <=? t)) with false.
      2:{ destruct e as [w0|]; [|done]. cbn in Ha |- *. apply Z.ltb_lt in Ha. symmetry. apply andb_false_iff. right. apply Z.leb_gt. lia. }
      rewrite Hl. cbn [mbind option_bind exec_all exec]. destruct (writeEntry f w k v _) as [[f1 w1]|]; [|done]. cbn [mbind option_bind]. apply Hw.
    + intros cs2 hs2 H2. cbn [app]. destruct Hfit as [Hb Hs]. apply describes_entry; [done|done|by apply (HG k (a, e))|done| |by apply Hdesc].
      destruct e as [w0|]; cbn; [|lia]. cbn in Ha, Hdl. apply Z.ltb_lt in Ha. unfold s_range in Hdl. cbn in Hdl. lia.
  - subst o. destruct (IH d2 m2 x2 Hd2) as (cs & d' & m' & x' & Hd' & Hw & Hdesc). destruct (IH d1 m x Hd1) as (cs1 & d1' & m1' & x1' & Hd1' & Hw1 & Hdesc1).
    destruct (negb (from_option id (-1) (x !! k) =? -1) && (from_option id (-1) (x !! k) <=? t)) eqn:Hskip.
    + exists cs1, d1', m1', x1'. split_and!; [done| |done]. intros f w. rewrite He1. cbn [mbind option_bind]. rewrite Hskip. apply Hw1.
    + exists cs, d', m', x'. split_and!; [done| |done]. intros f w. rewrite He1. cbn [mbind option_bind]. rewrite Hskip, Hl. cbn [mbind option_bind]. apply Hw.
Qed.

(** The lines of a snapshot of the keyspaces [Gs], numbered from [i]. *)
Definition place_of (h : Z * bytes * aval * Z) : Z * bytes := let '(j, k, _, _) := h in (j, k).
Definition listing (i : nat) (Gs : list keyspace) (hs : list (Z * bytes * aval * Z)) : Prop :=
  NoDup (map place_of hs) /\
  forall j k a x, (j, k, a, x) ∈ hs <-> exists n G e, j = Z.of_nat (i + n) /\ Gs !! n = Some G /\ G !! k = Some (a, e) /\ x = from_option id (-1) e.

Lemma omap_line i G (ks : list bytes) h : h ∈ omap (line i G) ks <-> exists k a e, k ∈ ks /\ G !! k = Some (a, e) /\ h = (Z.of_nat i, k, a, from_option id (-1) e).
Proof.
  rewrite list_elem_of_omap. unfold line. split.
  - intros (k & Hk & Hl). destruct (G !! k) as [[a e]|] eqn:HG; [|done]. injection Hl as <-. by exists k, a, e.
  - intros (k & a & e & Hk & HG & ->). exists k. split; [done|]. by rewrite HG.
Qed.

Lemma omap_line_nodup i G (ks : list bytes) : NoDup ks -> NoDup (map place_of (omap (line i G) ks)).
Proof.
  induction 1 as [|k ks Hk _ IH]; [constructor|].
  change (omap (line i G) (k :: ks)) with (match line i G k with Some h => h :: omap (line i G) ks | None => omap (line i G) ks end).
  destruct (line i G k) as [h|] eqn:Hl; [|done]. cbn [map]. constructor; [|done]. intros Hin. apply list_elem_of_fmap in Hin as (h' & Hp & Hin).
  unfold line in Hl. destruct (G !! k) as [[a e]|]; [|done]. injection Hl as <-. apply omap_line in Hin as (k' & a' & e' & Hk' & _ & ->). cbn in Hp. by injection Hp as ->.
Qed.

Lemma listing_cons i G Gs (ks : list bytes) hs : NoDup ks -> (forall k p, G !! k = Some p -> k ∈ ks) -> listing (S i) Gs hs -> listing i (G :: Gs) (omap (line i G) ks ++ hs).
Proof.
  intros Hn Hc [Hnd Hl]. split.
  - rewrite map_app. apply NoDup_app. split_and!; [by apply omap_line_nodup| |done]. intros [j k] H1 H2.
    apply list_elem_of_fmap in H1 as (h1 & E1 & H1). apply list_elem_of_fmap in H2 as ([[[j2 k2] a2] x2] & E2 & H2).
    apply omap_line in H1 as (k' & a & e & _ & _ & ->). apply Hl in H2 as (n & ? & ? & -> & _). cbn in E1, E2. injection E1 as -> ->. injection E2 as E2 ->. lia.
  - intros j k a x. rewrite elem_of_app, omap_line, Hl. split.
    + intros [(k' & a' & e & Hk & HG & [= -> -> -> ->])|(n & G' & e & -> & HGs & HG & ->)].
      * exists 0%nat, G, e. rewrite Nat.add_0_r. done.
      * exists (S n), G', e. split_and!; [lia|done|done|done].
    + intros (n & G' & e & -> & HGs & HG & ->). destruct n as [|n]; [left|right].
      * injection HGs as <-. exists k, a, e. rewrite Nat.add_0_r. split_and!; [by eapply Hc|done|done].
      * exists n, G', e. split_and!; [lia|done|done|done].
Qed.

Definition ready (t : Z) d G : Prop := db_sim t ∅ d G /\ db_savable d /\ inhabited G.

Lemma ready_kept t d G : ready t d G -> exists m x, kept t G d m x.
Proof.
  intros ((He & _ & m & x & Hh & Hk) & (_ & _ & Hf) & _). exists m, x. split_and!; [done|done| |by eapply Hf].
  intros j. specialize (Hk j). by rewrite bool_decide_false in Hk by set_solver.
Qed.

Lemma kept_keys t G d m x : kept t G d m x -> NoDup (Db.keys d) /\ (forall k p, G !! k = Some p -> k ∈ Db.keys d).
Proof.
  intros ([Hm _] & _ & Hk & _). pose proof (represents_forEach _ _ _ Hm) as Hp. unfold Db.keys. split.
  - change (NoDup (mforEach (Db.dict_ d)).*1). rewrite Hp. apply NoDup_fst_map_to_list.
  - intros k [a e] HG. specialize (Hk k). rewrite HG in Hk. destruct Hk as (v & Hv & _). change (k ∈ (mforEach (Db.dict_ d)).*1). rewrite Hp.
    apply list_elem_of_fmap. exists (k, v). split; [done|]. by apply elem_of_map_to_list.
Qed.

Lemma write_databases_calls t dbs Gs : 0 <= t -> Forall2 (ready t) dbs Gs -> forall i, Z.of_nat (i + length dbs) <= 2 ^ 31 ->
  exists cs hs dbs', (forall f w, write_databases f w t i dbs = '(f, w) ← exec_all f w cs; Some (f, w, dbs')) /\
    (forall db, describes max_alloc cs db hs) /\ listing i Gs hs.
Proof.
  intros Ht. induction 1 as [|d G dbs Gs Hr _ IH]; intros i Hi; cbn [write_databases].
  { exists [], [], []. split_and!; [done|intros db; constructor|]. split; [constructor|]. intros j k a x. split; [by intros ?%not_elem_of_nil|]. by intros (n & G & e & _ & ? & _). }
  cbn [length] in Hi. destruct (IH (S i)) as (cs & hs & dbs' & Hw & Hd & Hl); [lia|]. destruct (ready_kept t d G Hr) as (m & x & Hk). destruct Hr as (Hsim & (Hs1 & Hs2 & _) & HG).
  destruct (Nat.eqb_spec (Db.size d) 0) as [Hz|Hz].
  - exists cs, hs, (d :: dbs'). split_and!; [|done|].
    + intros f w. rewrite Hw. destruct (exec_all f w cs) as [[f1 w1]|]; done.
    + replace hs with (omap (line i G) [] ++ hs) by done. apply listing_cons; [constructor| |done]. intros k [a e] HGk. destruct Hk as ([Hm _] & _ & Hk & _).
      unfold Db.size in Hz. rewrite (represents_size _ _ _ Hm) in Hz. apply map_size_empty_inv in Hz. specialize (Hk k). rewrite HGk, Hz in Hk. by destruct Hk as (v & ? & _).
  - destruct (write_keys_calls t G i (Db.keys d) Ht HG d m x Hk) as (cs1 & d1 & m1 & x1 & _ & Hw1 & Hd1).
    exists (Select (Z.of_nat i) (Z.of_nat (Db.size d)) (Z.of_nat (Db.expiresSize d)) :: cs1 ++ cs), (omap (line i G) (Db.keys d) ++ hs), (d1 :: dbs'). split_and!.
    + intros f w. cbn [exec_all exec]. destruct (selectDb f w _ _ _) as [[f1 w1]|]; [|done]. cbn [mbind option_bind]. rewrite Hw1, exec_all_app.
      destruct (exec_all f1 w1 cs1) as [[f2 w2]|]; [|done]. cbn [mbind option_bind]. rewrite Hw. by destruct (exec_all f2 w2 cs) as [[f3 w3]|].
    + intros db. apply describes_select; [lia|unfold u_range; lia|unfold u_range; lia|]. apply Hd1, Hd.
    + apply listing_cons; [by eapply kept_keys..|done].
Qed.

(** A successful save leaves the file of these lines under its path, and a
    failed one leaves what was there. *)
Lemma writeRdbFile_outcome path h t dbs Gs w w' dbs' err : now h = t -> 0 <= t -> Forall2 (ready t) dbs Gs -> Z.of_nat (length dbs) <= 2 ^ 31 ->
  writeRdbFile path h dbs w = Some (w', dbs', err) ->
  match err with
  | None => exists cs hs contents, describes max_alloc cs 0 hs /\ listing 0 Gs hs /\ snapshot cs = Some contents /\ files w' !! path = Some contents
  | Some _ => files w' !! path = files w !! path
  end.
Proof.
  intros <- Ht Hr Hlen. destruct (write_databases_calls (now h) dbs Gs Ht Hr 0 Hlen) as (cs & hs & dbs1 & Hw & Hd & Hl). unfold writeRdbFile. intros H.
  assert (exists ok, save path (pid h) (opened h) (renamed h) cs w = Some (w', ok) /\ is_some err = negb ok) as (ok & Hs & Hok).
  { unfold save. destruct (create path (pid h) (opened h) w) as [[w1 [f|]]|]; [| |done]; cbn [mbind option_bind] in H |- *.
    - rewrite Hw in H. destruct (exec_all f w1 cs) as [[f2 w2]|]; [|done]. cbn [mbind option_bind] in H |- *. destruct (finish f2 w2 (renamed h)) as [[w3 ok]|]; [|done].
      cbn in H. injection H as -> _ <-. exists ok. split; [done|]. by destruct ok.
    - injection H as -> _ <-. by exists false. }
  apply save_outcome in Hs. pose proof (tmp_name_ne path (pid h)) as Hne. destruct err as [msg|], ok; try done.
  - rewrite Hs. destruct (opened h); [|done]. by rewrite lookup_delete_ne.
  - destruct Hs as (contents & Hc & Hf). exists cs, hs, contents. split_and!; [done..|]. by rewrite Hf, lookup_insert_eq.
Qed.

(** ** Loading puts every line where it was *)

Abbreviation places := (gmap (Z * bytes) (aval * option Z)).

(** The deadline a line stands for. *)
Definition deadline (x : Z) : option Z := if x <? 0 then None else Some x.

Definition absorb (u : Z) (W : places) (h : Z * bytes * aval * Z) : places :=
  let '(i, k, a, x) := h in if alive u (deadline x) then <[(i, k) := (a, deadline x)]> W else W.

(** The databases hold these places, seen at time [u]. *)
Definition holding (u : Z) (W : places) (dbs : list (Db.t D (Object.value D))) : Prop :=
  forall i d, dbs !! i = Some d -> Db.expiration_enabled_ d = true /\ Db.events d = [] /\
    exists m x, Db.holds d m x /\ forall j, key_sim u false (m !! j) (x !! j) (W !! (Z.of_nat i, j)).

(** Storing one key in one database. *)
Lemma holding_insert u W dbs i d d' m x (k : bytes) v a e : holding u W dbs -> dbs !! i = Some d -> Db.holds d m x ->
  (forall j, key_sim u false (m !! j) (x !! j) (W !! (Z.of_nat i, j))) -> W !! (Z.of_nat i, k) = None ->
  Db.expiration_enabled_ d' = true -> Db.holds d' (<[k := v]> m) (match e with Some w => <[k := w]> (delete k x) | None => delete k x end) ->
  models v a -> deadline_ok e ->
  holding u (if alive u e then <[(Z.of_nat i, k) := (a, e)]> W else W) (<[i := Command.clear_events d']> dbs).
Proof.
  intros Hh Hi Hd Hk HW He' Hd' Hm Hdl i' d0 Hi'. destruct (decide (i' = i)) as [->|Hne].
  - rewrite list_lookup_insert_eq in Hi' by by eapply lookup_lt_Some. injection Hi' as <-. split; [done|]. split; [done|]. eexists _, _. split; [exact (clear_holds _ _ _ Hd')|].
    intros j. destruct (decide (j = k)) as [->|Hjk].
    + rewrite lookup_insert_eq. assert ((match e with Some w => <[k := w]> (delete k x) | None => delete k x end) !! k = e) as -> by (destruct e; [by rewrite lookup_insert_eq|by rewrite lookup_delete_eq]).
      destruct (alive u e) eqn:Ha; [rewrite lookup_insert_eq; by exists v|]. rewrite HW. by right.
    + rewrite lookup_insert_ne by done. assert ((match e with Some w => <[k := w]> (delete k x) | None => delete k x end) !! j = x !! j) as ->.
      { destruct e; [rewrite lookup_insert_ne by done|]; by rewrite lookup_delete_ne. }
      destruct (alive u e); [rewrite lookup_insert_ne by congruence|]; apply Hk.
  - rewrite list_lookup_insert_ne in Hi' by done. destruct (Hh i' d0 Hi') as (H1 & H2 & m0 & x0 & H3 & H4). split; [done|]. split; [done|]. exists m0, x0. split; [done|].
    intros j. destruct (alive u e); [|apply H4]. rewrite lookup_insert_ne; [apply H4|]. intros [= Hz _]. apply Hne. lia.
Qed.

Lemma restore_one u W c (s : server D) e i k a x : holding u W (databases_ s) -> restores e (i, k, a, x) -> 0 <= i < Z.of_nat (length (databases_ s)) ->
  -1 <= x < 2 ^ 63 -> W !! (i, k) = None -> c <= u -> load_failed_ s = false ->
  exists s', restoreLoadedKey c s e = Some s' /\ holding u (absorb u W (i, k, a, x)) (databases_ s') /\
    length (databases_ s') = length (databases_ s) /\ load_failed_ s' = false.
Proof.
  intros Hh (Hi & Hk & Hx & Hm) Hr Hxr HW Hc Hlf. unfold restoreLoadedKey. rewrite Hi, Hk, Hx. rewrite (proj2 (Z.ltb_ge i 0)), (proj2 (Z.leb_gt _ i)) by lia. cbn [orb absorb].
  destruct ((0 <=? x) && (x <=? c)) eqn:Hold.
  { exists s. split; [done|]. split; [|done]. bools. unfold deadline. rewrite (proj2 (Z.ltb_ge x 0)) by lia. cbn [alive]. rewrite (proj2 (Z.ltb_ge u x)) by lia. done. }
  destruct (lookup_lt_is_Some_2 (databases_ s) (Z.to_nat i)) as [d Hd]; [lia|]. rewrite Hd. cbn [mbind option_bind].
  destruct (Hh _ _ Hd) as (He & Hev & m & x0 & Hholds & Hkeys). replace (Z.of_nat (Z.to_nat i)) with i in Hkeys by lia.
  destruct (Db.setKey_ok d m x0 k (e_value e) Hholds) as (d1 & -> & Hh1 & Hc1 & _). cbn [mbind option_bind].
  assert (exists d2, (if 0 <=? x then Db.setExpireAt d1 k x else Some d1) = Some d2 /\ Db.expiration_enabled_ d2 = true /\
    Db.holds d2 (<[k := e_value e]> m) (match deadline x with Some w => <[k := w]> (delete k x0) | None => delete k x0 end)) as (d2 & -> & He2 & Hh2).
  { unfold deadline. destruct (Z.leb_spec 0 x).
    - destruct (Db.setExpireAt_ok d1 _ _ k x Hh1) as (d2 & -> & Hh2 & Hc2 & _). exists d2. rewrite (proj2 (Z.ltb_ge x 0)) by lia. split_and!; [done| |done]. unfold Db.config in *. congruence.
    - exists d1. rewrite (proj2 (Z.ltb_lt x 0)) by lia. split_and!; [done| |done]. unfold Db.config in *. congruence. }
  cbn [mbind option_bind]. eexists. split; [done|]. unfold store_database. cbn [databases_ hear set_databases load_failed_]. split_and!; [|by rewrite length_insert|done].
  replace i with (Z.of_nat (Z.to_nat i)) at 1 by lia. eapply holding_insert; [done|exact Hd|exact Hholds| | |done|exact Hh2|done|].
  - intros j. replace (Z.of_nat (Z.to_nat i)) with i by lia. apply Hkeys.
  - by replace (Z.of_nat (Z.to_nat i)) with i by lia.
  - unfold deadline. destruct (Z.ltb_spec x 0); [done|]. cbn. unfold s_range. cbn. lia.
Qed.

Lemma absorb_other u W h p : p <> place_of h -> absorb u W h !! p = W !! p.
Proof. destruct h as [[[i k] a] x]. cbn. intros Hp. case_match; [|done]. by rewrite lookup_insert_ne. Qed.

Definition line_ok (n : nat) (h : Z * bytes * aval * Z) : Prop := let '(i, _, _, x) := h in 0 <= i < Z.of_nat n /\ -1 <= x < 2 ^ 63.

Lemma restore_lines u clock es hs : (forall n, clock n <= u) -> Forall2 restores es hs -> forall n (s : server D) W, NoDup (map place_of hs) ->
  (forall h, h ∈ hs -> W !! place_of h = None) -> Forall (line_ok (length (databases_ s))) hs -> holding u W (databases_ s) -> load_failed_ s = false ->
  exists s', restore_all clock n s es = Some s' /\ holding u (foldl (absorb u) W hs) (databases_ s') /\
    length (databases_ s') = length (databases_ s) /\ load_failed_ s' = false.
Proof.
  intros Hc. induction 1 as [|e h es hs He _ IH]; intros n s W Hnd HW Hok Hh Hlf; cbn [restore_all foldl]; [by exists s|].
  cbn [map] in Hnd. inversion_clear Hnd as [|? ? Hnin Hnd']. inversion_clear Hok as [|? ? Hok1 Hok']. destruct h as [[[i k] a] x].
  destruct (restore_one u W (clock n) s e i k a x Hh He ltac:(apply Hok1) ltac:(apply Hok1)) as (s1 & -> & Hh1 & Hl1 & Hf1); [by apply (HW (i, k, a, x)); left|done|done|].
  cbn [mbind option_bind]. destruct (IH (S n) s1 (absorb u W (i, k, a, x)) Hnd') as (s2 & Hr & Hh2 & Hl2 & Hf2).
  - intros h' Hh'. rewrite absorb_other; [apply HW; by right|]. intros E. apply Hnin. rewrite <- E. apply list_elem_of_fmap. by exists h'.
  - by rewrite Hl1.
  - done.
  - done.
  - exists s2. split_and!; [done|done|congruence|done].
Qed.

Lemma absorb_kept u hs : forall W p q, W !! p = Some q -> (forall h, h ∈ hs -> place_of h <> p) -> foldl (absorb u) W hs !! p = Some q.
Proof.
  induction hs as [|h hs IH]; intros W p q HW Hn; [done|]. cbn [foldl]. apply IH; [|intros h' Hh'; apply Hn; by right].
  rewrite absorb_other; [done|]. intros ->. apply (Hn h); [by left|done].
Qed.

Lemma absorb_in u hs j k a x : forall W, NoDup (map place_of hs) -> (j, k, a, x) ∈ hs -> alive u (deadline x) = true ->
  foldl (absorb u) W hs !! (j, k) = Some (a, deadline x).
Proof.
  induction hs as [|h hs IH]; intros W Hnd Hin Ha; [by apply not_elem_of_nil in Hin|]. cbn [map] in Hnd. inversion_clear Hnd as [|? ? Hnin Hnd'].
  cbn [foldl]. apply elem_of_cons in Hin as [<-|Hin]; [|by apply IH]. apply absorb_kept.
  - cbn. rewrite Ha. apply lookup_insert_eq.
  - intros h' Hh' E. apply Hnin. cbn. rewrite <- E. apply list_elem_of_fmap. by exists h'.
Qed.

Lemma absorb_only u hs j k p : forall W, foldl (absorb u) W hs !! (j, k) = Some p -> W !! (j, k) = Some p \/
  exists a x, (j, k, a, x) ∈ hs /\ p = (a, deadline x) /\ alive u (deadline x) = true.
Proof.
  induction hs as [|[[[i k'] a] x] hs IH]; intros W H; [by left|]. cbn [foldl] in H. destruct (IH _ H) as [HW|(a' & x' & Hin & Hp)].
  - cbn in HW. destruct (alive u (deadline x)) eqn:Ha; [|by left]. destruct (decide ((i, k') = (j, k))) as [E|Hne].
    + injection E as -> ->. rewrite lookup_insert_eq in HW. injection HW as <-. right. exists a, x. split_and!; [by left|done|done].
    + rewrite lookup_insert_ne in HW by done. by left.
  - right. exists a', x'. split; [by right|done].
Qed.

(** The deadline of a visible key survives its spelling in a line. *)
Lemma deadline_line t e : 0 <= t -> alive t e = true -> deadline (from_option id (-1) e) = e.
Proof. intros Ht Ha. destruct e as [w|]; [|done]. cbn in Ha |- *. apply Z.ltb_lt in Ha. unfold deadline. by rewrite (proj2 (Z.ltb_ge _ _)) by lia. Qed.

Lemma ready_visible t d G k a e : ready t d G -> G !! k = Some (a, e) -> alive t e = true /\ deadline_ok e.
Proof. intros ((_ & _ & m & x & _ & Hk) & _) HG. specialize (Hk k). rewrite HG in Hk. by destruct Hk as (v & _ & _ & _ & ? & ?). Qed.

Lemma places_survivors u t dbs Gs hs i G k : 0 <= t -> t <= u -> Forall2 (ready t) dbs Gs -> listing 0 Gs hs -> Gs !! i = Some G ->
  foldl (absorb u) (∅ : places) hs !! (Z.of_nat i, k) = survivors u G !! k.
Proof.
  intros Ht Htu Hr [Hnd Hl] HG. destruct (Forall2_lookup_r _ _ _ _ _ Hr HG) as (d & _ & Hd). apply option_eq. intros [a e]. unfold survivors. rewrite map_lookup_filter_Some. cbn [snd]. split.
  - intros H. apply absorb_only in H as [H|(a' & x & Hin & [= -> ->] & Ha)]; [by rewrite lookup_empty in H|].
    apply Hl in Hin as (n & G' & e & Hn & HG' & Hk & ->). replace n with i in HG' by lia. rewrite HG in HG'. injection HG' as <-.
    rewrite (deadline_line t) in Ha |- * by (done || by eapply ready_visible). done.
  - intros [Hk Ha]. assert (alive t e = true) as Hat by by eapply ready_visible. rewrite <- (deadline_line t e Ht Hat) at 1. apply absorb_in; [done| |by rewrite (deadline_line t)].
    apply Hl. exists i, G, e. done.
Qed.

Lemma holding_sim u W dbs Gs : holding u W dbs -> length dbs = length Gs -> (forall i G k, Gs !! i = Some G -> W !! (Z.of_nat i, k) = G !! k) -> Forall2 (db_sim u ∅) dbs Gs.
Proof.
  intros Hh Hlen HW. apply Forall2_same_length_lookup. split; [done|]. intros i d G Hd HG. destruct (Hh i d Hd) as (H1 & H2 & m & x & H3 & H4).
  split; [done|]. split; [done|]. exists m, x. split; [done|]. intros j. rewrite bool_decide_false by set_solver. rewrite <- (HW i G j HG). apply H4.
Qed.

Lemma load_saved path h dbs Gs w w' dbs' (s : server D) clock u : 0 <= now h -> Forall2 (ready (now h)) dbs Gs -> Z.of_nat (length dbs) <= 2 ^ 31 -> 10 <= max_alloc ->
  writeRdbFile path h dbs w = Some (w', dbs', None) -> now h <= u -> (forall n, clock n <= u) ->
  length (databases_ s) = length dbs -> Forall (fun d => db_sim u ∅ d ∅) (databases_ s) ->
  exists s', load (ops:=ops) max_alloc range_error rng clock (file_at w' path) s = Some (s', true, None) /\ Forall2 (db_sim u ∅) (databases_ s') (survivors u <$> Gs).
Proof.
  intros Ht Hr Hlen Hma Hw Hu Hc Hls Hempty. apply (writeRdbFile_outcome path h (now h) dbs Gs) in Hw as (cs & hs & contents & Hd & Hl & Hs & Hf); [|done..].
  destruct (load_snapshot max_alloc range_error rng cs hs Hd Hma) as (contents' & es & Hs' & Hload & Hes). rewrite Hs in Hs'. injection Hs' as <-.
  pose proof (Forall2_length _ _ _ Hr) as HlG. set (s0 := set_loading s true false).
  destruct (restore_lines u clock es hs Hc Hes 0 s0 ∅) as (s1 & Hr1 & Hh1 & Hl1 & Hf1); [apply Hl|done| | |done|].
  - apply Forall_forall. intros [[[i k] a] x] Hin. apply Hl in Hin as (n & G & e & -> & HG & Hk & ->). cbn. apply lookup_lt_Some in HG as Hn.
    destruct (Forall2_lookup_r _ _ _ _ _ Hr HG) as (d & _ & Hdr). destruct (ready_visible _ _ _ _ _ _ Hdr Hk) as [Ha Hdl].
    split; [lia|]. destruct e as [w0|]; cbn in Ha, Hdl |- *; [|lia]. unfold s_range in Hdl. cbn in Hdl. lia.
  - intros i d Hi. rewrite Forall_forall in Hempty. destruct (Hempty d) as (H1 & H2 & m & x & H3 & H4); [by eapply list_elem_of_lookup_2|]. split; [done|]. split; [done|]. exists m, x. split; [done|].
    intros j. specialize (H4 j). rewrite bool_decide_false in H4 by set_solver. rewrite lookup_empty. by rewrite (lookup_empty (M:=gmap bytes)) in H4.
  - unfold load, loadFile, file_at. rewrite Hf, Hload. fold s0. rewrite Hr1. cbn [mbind option_bind set_loading load_failed_]. rewrite Hf1. eexists. split; [done|]. cbn [databases_].
    apply (holding_sim u _ _ _ Hh1); [rewrite Hl1, length_fmap; cbn; congruence|]. intros i G' k HG'. rewrite list_lookup_fmap in HG'. destruct (Gs !! i) as [G|] eqn:HG; [|done].
    injection HG' as <-. by eapply places_survivors.
Qed.

End Snapshot.

#[local] Existing Instance Dict.dict_ops.
#[local] Existing Instance Dict.dict_laws.

(** A server with one database, which holds one key with a deadline. *)
Module Sample.
Definition greeting : Object.value Dict.dict := with_list (ListValue.rebuildFrom [str "hello"; str "42"]).
Definition database : Db.t Dict.dict (Object.value Dict.dict) :=
  default (Db.new (ops:=Dict.dict_ops))
    (d ← Db.setKey (ops:=Dict.dict_ops) Db.new (str "greeting") greeting; Db.setExpireAt (ops:=Dict.dict_ops) d (str "greeting") 5000).
Definition contents : keyspace := {[str "greeting" := (AList [str "hello"; str "42"], Some 5000)]}.
Definition booted (d : Db.t Dict.dict (Object.value Dict.dict)) : server Dict.dict := mkServer [d] 3 0 0 (-1) 0 true false false [].
Definition machine : host := mkHost 1000 1 77 true true [].
Definition disk : world := mkWorld ∅ [Interrupted; Wrote 20; Wrote 500].

Lemma database_holds : Db.holds database {[str "greeting" := greeting]} {[str "greeting" := 5000]}.
Proof.
  destruct (Db.setKey_ok (D:=Dict.dict) Db.new ∅ ∅ (str "greeting") greeting Db.db_holds_new) as (d1 & E1 & H1 & _).
  destruct (Db.setExpireAt_ok d1 _ _ (str "greeting") 5000 H1) as (d2 & E2 & H2 & _). unfold database. rewrite E1. cbn [mbind option_bind]. rewrite E2. cbn [default].
  rewrite delete_empty in H2. exact H2.
Qed.

Lemma ready_ok : ready (laws:=Dict.dict_laws) 1000 1000 database contents.
Proof.
  split_and!.
  - split; [vm_compute; done|]. split; [vm_compute; done|]. eexists _, _. split; [exact database_holds|]. intros j. unfold contents. destruct (decide (j = str "greeting")) as [->|Hj].
    + rewrite !lookup_singleton_eq. exists greeting. split_and!; [done| |done|done|done]. split; [done|]. eexists. split; [done|].
      apply ListValue.rebuildFrom_holds. repeat (apply Forall_cons; split; [vm_compute; done|]). by apply Forall_nil.
    + rewrite !lookup_singleton_ne by done. by left.
  - split; [vm_compute; done|]. split; [vm_compute; done|]. intros m x [Hm _] k v Hk. apply elem_of_map_to_list in Hk. rewrite <- (represents_forEach _ _ _ Hm) in Hk.
    assert (mforEach (Db.dict_ database) = [(str "greeting", greeting)]) as E by (vm_compute; done). rewrite E in Hk. apply list_elem_of_singleton in Hk as [= -> ->].
    split; apply (bool_decide_unpack _); vm_compute; done.
  - intros k p Hk. unfold contents in Hk. apply lookup_singleton_Some in Hk as [_ <-]. done.
Qed.

Lemma fresh_ok u : Forall (fun d => db_sim (laws:=Dict.dict_laws) u ∅ d ∅) (databases_ (booted Db.new)).
Proof.
  apply Forall_cons. split; [|by apply Forall_nil]. split; [done|]. split; [done|]. exists ∅, ∅. split; [apply Db.db_holds_new|]. intros j. rewrite !lookup_empty. by left.
Qed.
End Sample.

(** C12: what SAVE writes, a restarted server loads: once the file has been renamed
    into place, loading it at startup succeeds and every database shows exactly
    the keys it showed when the snapshot was taken, with the same contents and
    deadlines, less those whose deadline has passed in the meantime; whatever
    mixture of types and encodings the values are in. *)
Theorem snapshot_round_trip {D : Type -> Type} {ops : MapOps D} {laws : MapLaws D} (max_alloc : Z) (range_error : bytes -> bool)
    (rng : nat -> nat -> nat -> nat -> Z) (path : bytes) (h : host) (s s' fresh : server D) (Gs : list keyspace) (w w' : world) (clock : nat -> Z) (time u : Z) :
  0 <= now h -> Forall2 (ready max_alloc (now h)) (databases_ s) Gs -> Z.of_nat (length (databases_ s)) <= 2 ^ 31 -> 10 <= max_alloc ->
  saveRdb path h s w = Some (w', s', None) -> now h <= u -> (forall n, clock n <= u) ->
  length (databases_ fresh) = length (databases_ s) -> Forall (fun d => db_sim u ∅ d ∅) (databases_ fresh) ->
  exists loaded, loadRdbAtStartup (ops:=ops) max_alloc range_error rng path clock time fresh w' = Some (loaded, None) /\
    Forall2 (db_sim u ∅) (databases_ loaded) (survivors u <$> Gs).
Proof.
  intros Ht Hr Hlen Hma Hs Hu Hc Hl He. unfold saveRdb in Hs. destruct (writeRdbFile path h (databases_ s) w) as [[[w1 dbs1] err]|] eqn:Hw; [|done].
  cbn in Hs. injection Hs as <- _ ->. destruct (load_saved max_alloc range_error rng path h _ Gs w w1 dbs1 fresh clock u Ht Hr Hlen Hma Hw Hu Hc Hl He) as (s1 & Hload & Hsim).
  unfold loadRdbAtStartup. rewrite Hload. cbn [mbind option_bind]. eexists. split; [done|]. exact Hsim.
Qed.

Lemma snapshot_round_trip_witness :
  exists w' s', saveRdb (ops:=Dict.dict_ops) (str "dump.rdb") Sample.machine (Sample.booted Sample.database) Sample.disk = Some (w', s', None) /\
    exists loaded, loadRdbAtStartup (ops:=Dict.dict_ops) 1000 (fun _ => false) (fun _ _ _ _ => 0) (str "dump.rdb") (fun _ => 2000) 2 (Sample.booted Db.new) w' = Some (loaded, None) /\
      Forall2 (db_sim (laws:=Dict.dict_laws) 2500 ∅) (databases_ loaded) (survivors 2500 <$> [Sample.contents]).
Proof.
  eexists _, _. split; [vm_compute; reflexivity|].
  eapply (snapshot_round_trip (laws:=Dict.dict_laws) 1000 (fun _ => false) (fun _ _ _ _ => 0) (str "dump.rdb") Sample.machine (Sample.booted Sample.database) _ (Sample.booted Db.new) [Sample.contents] Sample.disk _ (fun _ => 2000) 2 2500);
    [done|apply Forall2_cons; split; [exact Sample.ready_ok|by apply Forall2_nil]|done|done|vm_compute; reflexivity|done|done|done|apply Sample.fresh_ok].
Defined.

(** C13: a save that fails, at any point and for any reason the operating system
    gives, leaves the snapshot of the previous save under its path untouched
    and the counters of the server as they were; one that succeeds resets
    them. *)
Theorem failed_save_keeps_snapshot {D : Type -> Type} {ops : MapOps D} {laws : MapLaws D} (max_alloc : Z) (path : bytes) (h : host) (s s' : server D) (Gs : list keyspace)
    (w w' : world) (err : option bytes) :
  0 <= now h -> Forall2 (ready max_alloc (now h)) (databases_ s) Gs -> Z.of_nat (length (databases_ s)) <= 2 ^ 31 ->
  saveRdb path h s w = Some (w', s', err) ->
  match err with
  | Some _ => files w' !! path = files w !! path /\ dirty_ s' = dirty_ s /\ last_save_time_ s' = last_save_time_ s /\ rdb_saves_ s' = rdb_saves_ s
  | None => is_Some (files w' !! path) /\ dirty_ s' = 0 /\ last_save_time_ s' = time h /\ rdb_saves_ s' = u64 (rdb_saves_ s + 1)
  end.
Proof.
  intros Ht Hr Hlen Hs. unfold saveRdb in Hs. destruct (writeRdbFile path h (databases_ s) w) as [[[w1 dbs1] err1]|] eqn:Hw; [|done]. cbn in Hs. injection Hs as <- <- <-.
  apply (writeRdbFile_outcome max_alloc path h (now h) _ Gs) in Hw; [|done..]. destruct err1; [done|]. destruct Hw as (cs & hs & contents & _ & _ & _ & Hf). split; [by eexists|done].
Qed.

Lemma failed_save_keeps_snapshot_witness :
  exists w' s' msg, saveRdb (ops:=Dict.dict_ops) (str "dump.rdb") Sample.machine (Sample.booted Sample.database)
      (mkWorld {[str "dump.rdb" := str "old"]} [Wrote 20; WriteError]) = Some (w', s', Some msg) /\
    files w' !! str "dump.rdb" = Some (str "old") /\ dirty_ s' = 3.
Proof.
  eexists _, _, _. split; [vm_compute; reflexivity|].
  destruct (failed_save_keeps_snapshot (laws:=Dict.dict_laws) 1000 (str "dump.rdb") Sample.machine (Sample.booted Sample.database) _ [Sample.contents]
    (mkWorld {[str "dump.rdb" := str "old"]} [Wrote 20; WriteError]) _ _ ltac:(done) ltac:(apply Forall2_cons; split; [exact Sample.ready_ok|by apply Forall2_nil]) ltac:(done) ltac:(vm_compute; reflexivity)) as (H1 & H2 & _).
  split; [exact H1|exact H2].
Defined.

(** the accounting of a background save: after a child was started and [n]
    more changes were made, reaping the successful child leaves exactly the
    [n] changes the child could not have seen as unsaved; reaping a failed one
    forgets none; while it runs, a second save is refused. *)
Theorem background_save_accounting {D : Type -> Type} {ops : MapOps D} (s s1 s2 : server D) (p n now : Z) (f : forked) :
  bgsave_pid_ s = -1 -> p <> -1 -> 0 <= n -> startBackgroundSave (ForkedAs p) s = (s1, None) -> s2 = set_saved s1 (dirty_ s1 + n) (last_save_time_ s1) (rdb_saves_ s1) ->
  dirty_ (reapBackgroundSave (Exited 0) now s2) = n /\ dirty_ (reapBackgroundSave (Exited 1) now s2) = dirty_ s + n /\
  dirty_ (reapBackgroundSave Signaled now s2) = dirty_ s + n /\ reapBackgroundSave StillRunning now s2 = s2 /\
  is_some (startBackgroundSave f s2).2 = true /\
  (startBackgroundSave f (reapBackgroundSave (Exited 0) now s2)).2 = match f with ForkFailed m => Some m | ForkedAs _ => None end.
Proof.
  intros Hp Hp' Hn Hs ->. unfold startBackgroundSave in Hs. rewrite Hp in Hs. cbn in Hs. injection Hs as <-.
  unfold reapBackgroundSave, startBackgroundSave. cbn [bgsave_pid_ set_saved set_child dirty_ dirty_at_fork_ last_bgsave_ok_]. rewrite (proj2 (Z.eqb_neq p (-1)) Hp').
  cbn. rewrite (proj2 (Z.leb_le _ _)) by lia. split_and!; try done; [cbn; lia|]. by destruct f.
Qed.

Lemma background_save_accounting_witness :
  dirty_ (reapBackgroundSave (Exited 0) 9 (set_saved (startBackgroundSave (ForkedAs 55) (Sample.booted Sample.database)).1 5 0 0)) = 2.
Proof.
  refine (proj1 (background_save_accounting (Sample.booted Sample.database) _ _ 55 2 9 (ForkedAs 56) _ _ _ eq_refl eq_refl)); vm_compute; done.
Defined.

End Persistence.
