(* ===== verification/StringCommands.v ===== *)
(** * StringCommands: the commands on strings

    [src/server/commands/string_commands.cpp], all handlers but INCRBYFLOAT
    (whose [long double] arithmetic is not modelled). The loops over options
    recurse on the remaining arguments; a signed overflow is undefined
    behaviour. *)

From Stdlib Require Import ZArith Lia.
Set Warnings "-register-all".
From stdpp Require Import base list numbers gmap option strings.
From S2P Require Import Prelude Encoding Strings Listpack MapSpec Dict HashValue ZSetValue SetValue ListValue Db Object Reply Notify CommandTable Command Keyspace.
Import Command Keyspace.Keyspace.

Module StringCommands.

Definition kMaxStringSize : Z := 512 * 1024 * 1024.

Definition int64_max : Z := 2 ^ 63 - 1.
Definition int64_min : Z := - 2 ^ 63.

Record ExpireOptions := mkOpts { eo_set : bool; eo_persist : bool; eo_keep_ttl : bool; eo_at_ms : Z }.
Definition no_options : ExpireOptions := mkOpts false false false 0.

Inductive ParseResult := POk (out : ExpireOptions) | PNotInteger | PInvalidExpire.

Definition is_token (t : bytes) (name : string) : bool := equalsIgnoreCase t (str name).

(** [None]: [now_ms + n] overflows. *)
Definition parseExpireToken (token value : bytes) (now_ms : Z) (out : ExpireOptions) : option ParseResult :=
  match stringToInt64 value with
  | None => Some PNotInteger
  | Some n =>
      let relative := is_token token "EX" || is_token token "PX" in
      let seconds := is_token token "EX" || is_token token "EXAT" in
      if relative && (n <=? 0) then Some PInvalidExpire
      else if seconds && ((Z.quot int64_max 1000 <? n) || (n <? Z.quot int64_min 1000)) then Some PInvalidExpire
      else
        let n := if seconds then n * 1000 else n in
        let at_ms := if relative then now_ms + n else n in
        if (int64_min <=? at_ms) && (at_ms <=? int64_max)
        then Some (POk (mkOpts true (eo_persist out) (eo_keep_ttl out) at_ms))
        else None
  end.

Definition isExpireToken (t : bytes) : bool :=
  is_token t "EX" || is_token t "PX" || is_token t "EXAT" || is_token t "PXAT".

(** What the option loops return: the options, or the error they wrote. *)
Inductive parsed (A : Type) := Parsed (a : A) | Refused (msg : bytes).
Arguments Parsed {A}. Arguments Refused {A}.

Definition syntax_error : bytes := str "ERR syntax error".
Definition not_an_integer : bytes := str "ERR value is not an integer or out of range".
Definition invalid_expire (name : string) : bytes :=
  str "ERR invalid expire time in '" ++ str name ++ str "' command".

Record SetOptions := mkSet { so_nx : bool; so_xx : bool; so_get : bool; so_expire : ExpireOptions }.

(** The loop of [set]; [tokens] are the arguments from [i] on. *)
Fixpoint set_options (fuel : nat) (now_ms : Z) (tokens : list bytes) (o : SetOptions) : option (parsed SetOptions) :=
  match fuel, tokens with
  | O, _ => None
  | _, [] => Some (Parsed o)
  | S fuel, token :: rest =>
      let opts := so_expire o in
      if is_token token "NX" then
        if so_xx o then Some (Refused syntax_error)
        else set_options fuel now_ms rest (mkSet true (so_xx o) (so_get o) opts)
      else if is_token token "XX" then
        if so_nx o then Some (Refused syntax_error)
        else set_options fuel now_ms rest (mkSet (so_nx o) true (so_get o) opts)
      else if is_token token "GET" then set_options fuel now_ms rest (mkSet (so_nx o) (so_xx o) true opts)
      else if is_token token "KEEPTTL" then
        if eo_set opts then Some (Refused syntax_error)
        else set_options fuel now_ms rest
               (mkSet (so_nx o) (so_xx o) (so_get o) (mkOpts (eo_set opts) (eo_persist opts) true (eo_at_ms opts)))
      else if isExpireToken token then
        if eo_set opts || eo_keep_ttl opts then Some (Refused syntax_error)
        else
          match rest with
          | [] => Some (Refused syntax_error)
          | value :: rest =>
              r ← parseExpireToken token value now_ms opts;
              match r with
              | POk opts => set_options fuel now_ms rest (mkSet (so_nx o) (so_xx o) (so_get o) opts)
              | PNotInteger => Some (Refused not_an_integer)
              | PInvalidExpire => Some (Refused (invalid_expire "set"))
              end
          end
      else Some (Refused syntax_error)
  end.

(** The loop of [getex]. *)
Fixpoint getex_options (fuel : nat) (now_ms : Z) (tokens : list bytes) (opts : ExpireOptions) : option (parsed ExpireOptions) :=
  match fuel, tokens with
  | O, _ => None
  | _, [] => Some (Parsed opts)
  | S fuel, token :: rest =>
      if is_token token "PERSIST" then
        if eo_set opts then Some (Refused syntax_error)
        else getex_options fuel now_ms rest (mkOpts (eo_set opts) true (eo_keep_ttl opts) (eo_at_ms opts))
      else if isExpireToken token then
        if eo_set opts || eo_persist opts then Some (Refused syntax_error)
        else
          match rest with
          | [] => Some (Refused syntax_error)
          | value :: rest =>
              r ← parseExpireToken token value now_ms opts;
              match r with
              | POk opts => getex_options fuel now_ms rest opts
              | PNotInteger => Some (Refused not_an_integer)
              | PInvalidExpire => Some (Refused (invalid_expire "getex"))
              end
          end
      else Some (Refused syntax_error)
  end.

Section Handlers.
Context {D : Type -> Type} {ops : MapOps D} (rq : request).
Abbreviation handler := (M D unit).

Definition applyExpire (key : bytes) (opts : ExpireOptions) : handler :=
  if eo_set opts then setExpireAt key (eo_at_ms opts)
  else if eo_persist opts then _ ← persist key; mret tt
  else if negb (eo_keep_ttl opts) then _ ← persist key; mret tt
  else mret tt.

(** The part of [set] that writes. *)
Definition set_write (key value : bytes) (o : SetOptions) (old_value : option bytes) : handler :=
  _ ← overwriteValue key (Object.makeString value);
  _ ← applyExpire key (so_expire o);
  _ ← markDirty 1;
  _ ← notify rq Notify.kString "set" key;
  _ ← (if eo_set (so_expire o) then notify rq Notify.kGeneric "expire" key else mret tt);
  if so_get o then bulk_or_null rq old_value else ok.

(** [set] after its options. *)
Definition set_with (key value : bytes) (o : SetOptions) : handler :=
  existing ← lookupWrite rq key;
  string ← (if so_get o then ensureString existing else mret true);
  if negb string then mret tt
  else
    let old_value := if so_get o then Object.stringValue <$> existing else None in
    _ ← (if so_get o && negb (is_some existing) then notifyKeyMiss rq key else mret tt);
    if (so_nx o && is_some existing) || (so_xx o && negb (is_some existing)) then bulk_or_null rq old_value
    else set_write key value o old_value.

Definition set : handler :=
  key ← arg rq 1; value ← arg rq 2;
  o ← lift (set_options (S (argc rq)) (now rq) (drop 3 (argv rq)) (mkSet false false false no_options));
  match o with
  | Refused msg => error msg
  | Parsed o => set_with key value o
  end.

Definition get : handler :=
  key ← arg rq 1;
  v ← lookupRead rq key;
  match v with
  | None => _ ← count_miss; _ ← notifyKeyMiss rq key; nullBulk rq
  | Some v =>
      string ← ensureString (Some v);
      if negb string then mret tt else _ ← count_hit; bulk (Object.stringValue v)
  end.

Definition getset : handler :=
  key ← arg rq 1;
  existing ← lookupWrite rq key;
  string ← ensureString existing;
  if negb string then mret tt
  else
    _ ← match existing with
        | Some v => bulk (Object.stringValue v)
        | None => _ ← notifyKeyMiss rq key; nullBulk rq
        end;
    value ← arg rq 2;
    _ ← setKey key (Object.makeString value);
    _ ← markDirty 1;
    notify rq Notify.kString "set" key.

Definition getdel : handler :=
  key ← arg rq 1;
  existing ← lookupWrite rq key;
  string ← ensureString existing;
  if negb string then mret tt
  else
    match existing with
    | None => _ ← notifyKeyMiss rq key; nullBulk rq
    | Some v =>
        _ ← bulk (Object.stringValue v);
        _ ← erase key;
        _ ← markDirty 1;
        notify rq Notify.kGeneric "del" key
    end.

(** [getex] after its options. *)
Definition getex_with (key : bytes) (opts : ExpireOptions) : handler :=
  v ← lookupRead rq key;
  match v with
  | None => _ ← notifyKeyMiss rq key; nullBulk rq
  | Some v =>
      string ← ensureString (Some v);
      if negb string then mret tt
      else
        _ ← bulk (Object.stringValue v);
        if eo_set opts then
          if eo_at_ms opts <=? now rq then
            _ ← erase key;
            _ ← markDirty 1;
            notify rq Notify.kGeneric "del" key
          else
            _ ← setExpireAt key (eo_at_ms opts);
            _ ← markDirty 1;
            notify rq Notify.kGeneric "expire" key
        else if eo_persist opts then
          removed ← persist key;
          if removed : bool then _ ← markDirty 1; notify rq Notify.kGeneric "persist" key else mret tt
        else mret tt
  end.

Definition getex : handler :=
  key ← arg rq 1;
  o ← lift (getex_options (S (argc rq)) (now rq) (drop 2 (argv rq)) no_options);
  match o with
  | Refused msg => error msg
  | Parsed opts => getex_with key opts
  end.

Definition setnx : handler :=
  key ← arg rq 1;
  v ← lookupWrite rq key;
  match v with
  | Some _ => integer 0
  | None =>
      value ← arg rq 2;
      _ ← setKey key (Object.makeString value);
      _ ← markDirty 1;
      _ ← notify rq Notify.kString "set" key;
      integer 1
  end.

Definition setexGeneric (unit_multiplier : Z) (name : string) : handler :=
  text ← arg rq 2;
  match stringToInt64 text with
  | None => notAnInteger
  | Some ttl =>
      if ttl <=? 0 then error (invalid_expire name)
      else if Z.quot int64_max unit_multiplier <? ttl then error (invalid_expire name)
      else
        key ← arg rq 1; value ← arg rq 3;
        _ ← setKey key (Object.makeString value);
        at_ms ← checked (now rq + ttl * unit_multiplier);
        _ ← setExpireAt key at_ms;
        _ ← markDirty 1;
        _ ← notify rq Notify.kString "set" key;
        _ ← notify rq Notify.kGeneric "expire" key;
        ok
  end.

Definition setex : handler := setexGeneric 1000 "setex".
Definition psetex : handler := setexGeneric 1 "psetex".

(** The writing loop of [mset] and [msetnx]; the arguments come in pairs. *)
Fixpoint set_all (pairs : list bytes) : handler :=
  match pairs with
  | [] => mret tt
  | key :: value :: pairs =>
      _ ← setKey key (Object.makeString value);
      _ ← notify rq Notify.kString "set" key;
      set_all pairs
  | [_] => lift None
  end.

Definition mset : handler :=
  if negb ((argc rq - 1) mod 2 =? 0)%nat then wrongArgs "mset"
  else
    _ ← set_all (drop 1 (argv rq));
    _ ← markDirty (Z.of_nat ((argc rq - 1) / 2));
    ok.

(** The checking loop of [msetnx]: whether one of the keys is there. *)
Fixpoint any_exists (pairs : list bytes) : M D bool :=
  match pairs with
  | [] => mret false
  | key :: rest =>
      v ← lookupWrite rq key;
      if is_some v then mret true
      else match rest with [] => mret false | _ :: rest => any_exists rest end
  end.

Definition msetnx : handler :=
  if negb ((argc rq - 1) mod 2 =? 0)%nat then wrongArgs "msetnx"
  else
    taken ← any_exists (drop 1 (argv rq));
    if taken : bool then integer 0
    else
      _ ← set_all (drop 1 (argv rq));
      _ ← markDirty (Z.of_nat ((argc rq - 1) / 2));
      integer 1.

Fixpoint mget_each (keys : list bytes) : handler :=
  match keys with
  | [] => mret tt
  | key :: keys =>
      v ← lookupRead rq key;
      _ ← match v with
          | None => _ ← notifyKeyMiss rq key; nullBulk rq
          | Some v => if bool_decide (Object.type_ v = OString) then bulk (Object.stringValue v) else nullBulk rq
          end;
      mget_each keys
  end.

Definition mget : handler :=
  _ ← arrayHeader (Z.of_nat (argc rq - 1));
  mget_each (drop 1 (argv rq)).

Definition too_long : bytes := str "ERR string exceeds maximum allowed size (proto-max-bulk-len)".

Definition append : handler :=
  key ← arg rq 1;
  existing ← lookupWrite rq key;
  string ← ensureString existing;
  if negb string then mret tt
  else
    suffix ← arg rq 2;
    match existing with
    | None =>
        _ ← setKey key (Object.makeRawString suffix);
        _ ← markDirty 1;
        _ ← notify rq Notify.kString "append" key;
        integer (i64 (Z.of_nat (length suffix)))
    | Some v =>
        if kMaxStringSize <? i64 (Z.of_nat (Object.stringLength v + length suffix)) then error too_long
        else
          _ ← on_value key (fun v => v ← Object.appendString v suffix; Some (v, tt));
          _ ← markDirty 1;
          _ ← notify rq Notify.kString "append" key;
          v ← deref key;
          integer (i64 (Z.of_nat (Object.stringLength v)))
    end.

Definition strlen_ : handler :=
  key ← arg rq 1;
  v ← lookupRead rq key;
  match v with
  | None => _ ← notifyKeyMiss rq key; integer 0
  | Some v =>
      string ← ensureString (Some v);
      if negb string then mret tt else integer (i64 (Z.of_nat (Object.stringLength v)))
  end.

Definition would_overflow (current delta : Z) : bool :=
  ((0 <? delta) && (int64_max - delta <? current)) || ((delta <? 0) && (current <? int64_min - delta)).

Definition incrDecrBy (delta : Z) : handler :=
  key ← arg rq 1;
  v ← lookupWrite rq key;
  string ← ensureString v;
  if negb string then mret tt
  else
    match (match v with Some v => Object.asInt v | None => Some 0 end) with
    | None => notAnInteger
    | Some current =>
        if would_overflow current delta then error (str "ERR increment or decrement would overflow")
        else
          result ← checked (current + delta);
          _ ← overwriteValue key (Object.makeInt result);
          _ ← markDirty 1;
          _ ← notify rq Notify.kString "incrby" key;
          integer result
    end.

Definition incr : handler := incrDecrBy 1.
Definition decr : handler := incrDecrBy (-1).

Definition incrby : handler :=
  text ← arg rq 2;
  match stringToInt64 text with
  | None => notAnInteger
  | Some delta => incrDecrBy delta
  end.

Definition decrby : handler :=
  text ← arg rq 2;
  match stringToInt64 text with
  | None => notAnInteger
  | Some delta =>
      if delta =? int64_min then error (str "ERR decrement would overflow")
      else incrDecrBy (- delta)
  end.

(** [resize] with zero bytes up to the end of the patch, then the copy. *)
Definition patched (data patch : bytes) (offset : nat) : bytes :=
  let data := if (length data <? offset + length patch)%nat
              then data ++ replicate (offset + length patch - length data) 0 else data in
  voverwrite offset patch data.

(** The part of [setrange] that writes through the pointer. *)
Definition setrange_write (key patch : bytes) (offset : Z) : handler :=
  size ← on_value key (fun v =>
    '(data, assign) ← Object.mutableString v;
    let data := patched data patch (Z.to_nat offset) in
    Some (assign data, length data));
  _ ← markDirty 1;
  _ ← notify rq Notify.kString "setrange" key;
  integer (i64 (Z.of_nat size)).

Definition setrange : handler :=
  text ← arg rq 2;
  match stringToInt64 text with
  | None => notAnInteger
  | Some offset =>
      if offset <? 0 then error (str "ERR offset is out of range")
      else
        patch ← arg rq 3; key ← arg rq 1;
        v ← lookupWrite rq key;
        string ← ensureString v;
        if negb string then mret tt
        else if (length patch =? 0)%nat then
          integer (match v with Some v => i64 (Z.of_nat (Object.stringLength v)) | None => 0 end)
        else
          last ← checked (offset + i64 (Z.of_nat (length patch)));
          if kMaxStringSize <? last then error too_long
          else
            _ ← match v with
                | None => _ ← setKey key (Object.makeRawString []); _ ← lookupWrite rq key; mret tt
                | Some _ => mret tt
                end;
            setrange_write key patch offset
  end.

(** The indices of [getrange] after normalisation; [None] selects nothing. *)
Definition clamp_range (start stop length : Z) : option (Z * Z) :=
  let start := if start <? 0 then length + start else start in
  let stop := if stop <? 0 then length + stop else stop in
  let start := if start <? 0 then 0 else start in
  let stop := if stop <? 0 then 0 else stop in
  let stop := if length <=? stop then length - 1 else stop in
  if (length =? 0) || (stop <? start) || (length <=? start) then None else Some (start, stop).

Definition getrange : handler :=
  text1 ← arg rq 2; text2 ← arg rq 3;
  match stringToInt64 text1, stringToInt64 text2 with
  | Some start, Some stop =>
      key ← arg rq 1;
      v ← lookupRead rq key;
      match v with
      | None => _ ← notifyKeyMiss rq key; bulk []
      | Some v =>
          string ← ensureString (Some v);
          if negb string then mret tt
          else
            let data := Object.stringValue v in
            match clamp_range start stop (Z.of_nat (length data)) with
            | None => bulk []
            | Some (start, stop) => bulk (take (Z.to_nat (stop - start + 1)) (drop (Z.to_nat start) data))
            end
      end
  | _, _ => notAnInteger
  end.

End Handlers.

(** ** Specifications

    What each command does to the keyspace a client sees, what it replies and
    what it announces. [None] is where the program's behaviour is undefined. *)

Section Specs.
Context (rq : request).
Implicit Types (g : view) (k : bytes).

Abbreviation null := (Keyspace.null rq).
Abbreviation null_or := (Keyspace.null_or rq).
Abbreviation tell := (Keyspace.tell rq).
Abbreviation keymiss := (Keyspace.keymiss rq).

(** Three cases of a key read as a string. *)
Definition on_string k g {A} (absent : A) (string : bytes -> option Z -> A) (other : A) : A :=
  match K g !! k with None => absent | Some (AStr s, e) => string s e | Some _ => other end.

(** Writing a key with a deadline, which may have passed already. *)
Definition write_until k (a : aval) (at_ms : Z) g : view :=
  if now rq <? at_ms then put k a (Some at_ms) g else doom k (put k a None g).

(** The deadline that the options of SET leave on a key which had [e]. *)
Definition write_with k (a : aval) (e : option Z) (opts : ExpireOptions) g : view :=
  if eo_set opts then write_until k a (eo_at_ms opts) g
  else put k a (if eo_persist opts || negb (eo_keep_ttl opts) then None else e) g.

Definition spec_set_with k (value : bytes) (o : SetOptions) g : view :=
  let present := is_some (K g !! k) in
  let old := on_string k g None (fun s _ => Some s) None in
  let opts := so_expire o in
  if so_get o && on_string k g false (fun _ _ => false) true then say wrong_type g
  else
    let g := if so_get o && negb present then keymiss k g else g in
    let answer := null_or (if so_get o then old else None) in
    if (so_nx o && present) || (so_xx o && negb present) then say answer g
    else
      let g := tell Notify.kString "set" k (mark 1 (write_with k (AStr value) (K g !! k ≫= snd) opts g)) in
      let g := if eo_set opts then tell Notify.kGeneric "expire" k g else g in
      say (if so_get o then answer else Reply.simpleString (str "OK")) g.

Definition spec_set g : option view :=
  match argv rq with
  | _ :: k :: value :: tokens =>
      o ← set_options (S (argc rq)) (now rq) tokens (mkSet false false false no_options);
      Some (match o with Refused msg => refuse msg g | Parsed o => spec_set_with k value o g end)
  | _ => None
  end.

Definition spec_get g : option view :=
  k ← argv rq !! 1%nat;
  Some (on_string k g (say null (keymiss k (miss g))) (fun s _ => say (Reply.bulk s) (hit g)) (say wrong_type g)).

Definition spec_getset g : option view :=
  k ← argv rq !! 1%nat; value ← argv rq !! 2%nat;
  let write g := tell Notify.kString "set" k (mark 1 (put k (AStr value) None g)) in
  Some (on_string k g (write (say null (keymiss k g))) (fun s _ => write (say (Reply.bulk s) g)) (say wrong_type g)).

Definition spec_getdel g : option view :=
  k ← argv rq !! 1%nat;
  Some (on_string k g (say null (keymiss k g))
          (fun s _ => tell Notify.kGeneric "del" k (mark 1 (remove k (say (Reply.bulk s) g)))) (say wrong_type g)).

Definition spec_getex_with k (opts : ExpireOptions) g : view :=
  on_string k g (say null (keymiss k g))
    (fun s e =>
       let g := say (Reply.bulk s) g in
       if eo_set opts then
         if eo_at_ms opts <=? now rq then tell Notify.kGeneric "del" k (mark 1 (remove k g))
         else tell Notify.kGeneric "expire" k (mark 1 (put k (AStr s) (Some (eo_at_ms opts)) g))
       else if eo_persist opts && is_some e then tell Notify.kGeneric "persist" k (mark 1 (put k (AStr s) None g))
       else g)
    (say wrong_type g).

Definition spec_getex g : option view :=
  match argv rq with
  | _ :: k :: tokens =>
      o ← getex_options (S (argc rq)) (now rq) tokens no_options;
      Some (match o with Refused msg => refuse msg g | Parsed o => spec_getex_with k o g end)
  | _ => None
  end.

Definition spec_setnx g : option view :=
  k ← argv rq !! 1%nat; value ← argv rq !! 2%nat;
  Some (if is_some (K g !! k) then say (Reply.integer 0) g
        else say (Reply.integer 1) (tell Notify.kString "set" k (mark 1 (put k (AStr value) None g)))).

Definition spec_setexGeneric (unit_multiplier : Z) (name : string) g : option view :=
  k ← argv rq !! 1%nat; text ← argv rq !! 2%nat; value ← argv rq !! 3%nat;
  match stringToInt64 text with
  | None => Some (refuse not_an_integer g)
  | Some ttl =>
      if (ttl <=? 0) || (Z.quot int64_max unit_multiplier <? ttl) then Some (refuse (invalid_expire name) g)
      else
        let at_ms := now rq + ttl * unit_multiplier in
        if int64_max <? at_ms then None
        else Some (say (Reply.simpleString (str "OK")) (tell Notify.kGeneric "expire" k (tell Notify.kString "set" k
                     (mark 1 (put k (AStr value) (Some at_ms) g)))))
  end.

(** The writes of MSET, in order: a repeated key keeps its last value. *)
Fixpoint put_all (pairs : list bytes) g : view :=
  match pairs with
  | k :: value :: pairs => put_all pairs (tell Notify.kString "set" k (put k (AStr value) None g))
  | _ => g
  end.

Fixpoint keys_of (pairs : list bytes) : list bytes :=
  match pairs with k :: _ :: pairs => k :: keys_of pairs | _ => [] end.

Definition spec_mset g : option view :=
  let pairs := drop 1 (argv rq) in
  if negb ((argc rq - 1) mod 2 =? 0)%nat then Some (refuse (str "ERR " ++ CommandTable.wrongArgsText (str "mset")) g)
  else Some (say (Reply.simpleString (str "OK")) (mark (Z.of_nat ((argc rq - 1) / 2)) (put_all pairs g))).

Definition spec_msetnx g : option view :=
  let pairs := drop 1 (argv rq) in
  if negb ((argc rq - 1) mod 2 =? 0)%nat then Some (refuse (str "ERR " ++ CommandTable.wrongArgsText (str "msetnx")) g)
  else if existsb (fun k => is_some (K g !! k)) (keys_of pairs) then Some (say (Reply.integer 0) g)
  else Some (say (Reply.integer 1) (mark (Z.of_nat ((argc rq - 1) / 2)) (put_all pairs g))).

Fixpoint spec_mget_each (ks : list bytes) g : view :=
  match ks with
  | [] => g
  | k :: ks => spec_mget_each ks (on_string k g (say null (keymiss k g)) (fun s _ => say (Reply.bulk s) g) (say null g))
  end.

Definition spec_mget g : option view :=
  Some (spec_mget_each (drop 1 (argv rq)) (say (Reply.arrayHeader (Z.of_nat (argc rq - 1))) g)).

Definition size_of (s : bytes) : Z := i64 (Z.of_nat (length s)).

Definition spec_append g : option view :=
  k ← argv rq !! 1%nat; suffix ← argv rq !! 2%nat;
  let write s e g := say (Reply.integer (size_of s)) (tell Notify.kString "append" k (mark 1 (put k (AStr s) e g))) in
  Some (on_string k g (write suffix None g)
          (fun s e => if kMaxStringSize <? size_of (s ++ suffix) then refuse too_long g else write (s ++ suffix) e g)
          (say wrong_type g)).

Definition spec_strlen g : option view :=
  k ← argv rq !! 1%nat;
  Some (on_string k g (say (Reply.integer 0) (keymiss k g)) (fun s _ => say (Reply.integer (size_of s)) g) (say wrong_type g)).

(** Integers are stored as their canonical text. *)
Definition spec_incrDecrBy (delta : Z) g : option view :=
  k ← argv rq !! 1%nat;
  let add n e :=
    if (n + delta <? int64_min) || (int64_max <? n + delta) then refuse (str "ERR increment or decrement would overflow") g
    else say (Reply.integer (n + delta)) (tell Notify.kString "incrby" k (mark 1 (put k (AStr (to_string (n + delta))) e g))) in
  Some (on_string k g (add 0 None)
          (fun s e => match stringToInt64 s with None => refuse not_an_integer g | Some n => add n e end)
          (say wrong_type g)).

Definition spec_incrby g : option view :=
  text ← argv rq !! 2%nat;
  match stringToInt64 text with None => Some (refuse not_an_integer g) | Some delta => spec_incrDecrBy delta g end.

Definition spec_decrby g : option view :=
  text ← argv rq !! 2%nat;
  match stringToInt64 text with
  | None => Some (refuse not_an_integer g)
  | Some delta =>
      if delta =? int64_min then Some (refuse (str "ERR decrement would overflow") g) else spec_incrDecrBy (- delta) g
  end.

Definition spec_setrange g : option view :=
  k ← argv rq !! 1%nat; text ← argv rq !! 2%nat; patch ← argv rq !! 3%nat;
  match stringToInt64 text with
  | None => Some (refuse not_an_integer g)
  | Some offset =>
      if offset <? 0 then Some (refuse (str "ERR offset is out of range") g)
      else if on_string k g false (fun _ _ => false) true then Some (say wrong_type g)
      else
        let s := on_string k g [] (fun s _ => s) [] in
        if (length patch =? 0)%nat then Some (say (Reply.integer (on_string k g 0 (fun s _ => size_of s) 0)) g)
        else if int64_max <? offset + size_of patch then None
        else if kMaxStringSize <? offset + size_of patch then Some (refuse too_long g)
        else
          let s' := patched s patch (Z.to_nat offset) in
          Some (say (Reply.integer (size_of s')) (tell Notify.kString "setrange" k
                  (mark 1 (put k (AStr s') (K g !! k ≫= snd) g))))
  end.

Definition spec_getrange g : option view :=
  k ← argv rq !! 1%nat; text1 ← argv rq !! 2%nat; text2 ← argv rq !! 3%nat;
  match stringToInt64 text1, stringToInt64 text2 with
  | Some start, Some stop =>
      Some (on_string k g (say (Reply.bulk []) (keymiss k g))
              (fun s _ => say (Reply.bulk (match clamp_range start stop (Z.of_nat (length s)) with
                                            | None => []
                                            | Some (start, stop) => take (Z.to_nat (stop - start + 1)) (drop (Z.to_nat start) s)
                                            end)) g)
              (say wrong_type g))
  | _, _ => Some (refuse not_an_integer g)
  end.
End Specs.

(** ** Refinement *)

Section Refinement.
Context {D : Type -> Type} {ops : MapOps D} {laws : MapLaws D} (rq : request).
Implicit Types (g : view).
Abbreviation t := (now rq).

Lemma models_makeString s : models (D := D) (Object.makeString s) (AStr s).
Proof. split_and!; [apply Object.makeString_wf|unfold Object.is_string, Object.makeString; by destruct (stringToInt64 s)|apply Object.makeString_value]. Qed.

Lemma models_makeRaw s : models (D := D) (Object.makeRawString s) (AStr s).
Proof. split_and!; [by right|done|done]. Qed.

Lemma models_makeInt n : is_i64 n -> models (D := D) (Object.makeInt n) (AStr (to_string n)).
Proof. intros Hn. split_and!; [by split|done|done]. Qed.

Lemma models_length (v : Object.value D) s : models v (AStr s) -> Object.stringLength v = length s.
Proof. intros (Hw & _ & <-). by apply Object.stringLength_value. Qed.

Lemma models_asInt (v : Object.value D) s : models v (AStr s) -> Object.asInt v = stringToInt64 s.
Proof. intros (Hw & Hs & <-). by apply Object.asInt_value. Qed.

Lemma models_text (v : Object.value D) s : models v (AStr s) -> Object.stringValue v = s.
Proof. by intros (_ & _ & ?). Qed.

Lemma wp_ensureString (v : Object.value D) a g (Q : bool -> view -> Prop) : models v a ->
  match a with AStr _ => Q true g | _ => Q false (say wrong_type g) end -> wp t (ensureString (Some v)) g Q.
Proof.
  intros Hv HQ. unfold ensureString. rewrite (models_type v a Hv). destruct a; cbn [atype].
  1: rewrite bool_decide_true by done. 2-5: rewrite bool_decide_false by done.
  all: wp_run; exact HQ.
Qed.

(** A lookup that a string check follows. *)
Ltac look k := apply wp_lookup; unfold on_string in *; cbn [K settle say tell_at mark] in *;
  destruct (K _ !! k) as [[[s|?|?|?|?] e]|] eqn:HK; [intros v Hv..|]; wp_run.

Ltac strings := repeat match goal with
  | Hv : models ?v (AStr _) |- context [Object.stringValue ?v] => rewrite (models_text v _ Hv)
  | Hv : models ?v (AStr _) |- context [Object.stringLength ?v] => rewrite (models_length v _ Hv)
  | Hv : models ?v (AStr _) |- context [Object.asInt ?v] => rewrite (models_asInt v _ Hv)
  | Hv : models ?v ?a |- wp _ (ensureString (Some ?v)) _ _ => apply (wp_ensureString v a); [exact Hv|]; cbv beta iota; wp_run
  end.

Lemma get_ok g g' : spec_get rq g = Some g' -> wp t (get (ops:=ops) rq) g (fun _ g1 => same g1 g').
Proof.
  unfold spec_get, get. destruct (argv rq !! 1%nat) as [k|] eqn:H1; [|done]. cbn [mbind option_bind]. intros [= <-].
  wp_run. look k; strings; reflexivity.
Qed.

(** The arguments a specification looks at are there. *)
Ltac args := repeat match goal with
  | |- context [argv rq !! ?i] => let H := fresh "H" in let b := fresh "b" in destruct (argv rq !! i) as [b|] eqn:H; [|done]; cbn [mbind option_bind]
  end.

Lemma lookup_put k a e g : K (put k a e g) !! k = Some (a, e).
Proof. cbn. apply lookup_insert_eq. Qed.

Lemma applyExpire_ok k a e g (opts : ExpireOptions) (Q : unit -> view -> Prop) :
  is_i64 (eo_at_ms opts) ->
  (forall g', same g' (write_with rq k a e opts g) -> Q tt g') -> wp t (applyExpire (ops:=ops) k opts) (put k a e g) Q.
Proof.
  intros Hat HQ. pose proof (lookup_put k a e g) as HK. unfold applyExpire, write_with, write_until in *. destruct (eo_set opts).
  - apply (wp_setExpireAt t k a e); [done..|]. apply HQ. destruct (t <? eo_at_ms opts); same_now.
  - destruct (eo_persist opts), (eo_keep_ttl opts); cbn [negb orb] in *; wp_run;
      try (apply (wp_persist t k a e); [done|]; wp_run; apply HQ; same_now). by apply HQ.
Qed.

Lemma same_refl g : same g g.
Proof. done. Qed.

(** A parsed deadline is a 64-bit integer. *)
Lemma parseExpireToken_at token value now_ms o o' :
  parseExpireToken token value now_ms o = Some (POk o') -> is_i64 (eo_at_ms o').
Proof.
  unfold parseExpireToken. destruct (stringToInt64 value) as [n|]; [|done]. destruct (_ && _); [done|]. destruct (_ && _); [done|]. cbv zeta.
  destruct (_ && _) eqn:Hb; [|done]. intros [= <-]. bools. unfold int64_min, int64_max, s_range in *. cbn in *. lia.
Qed.

Lemma set_options_at fuel now_ms tokens o o' : is_i64 (eo_at_ms (so_expire o)) ->
  set_options fuel now_ms tokens o = Some (Parsed o') -> is_i64 (eo_at_ms (so_expire o')).
Proof.
  revert tokens o. induction fuel as [|fuel IH]; intros tokens o Ho; [done|]. cbn [set_options]. destruct tokens as [|token rest]; [by intros [= <-]|].
  repeat match goal with |- context [if ?c then _ else _] => destruct c end; try done; try (by apply IH).
  destruct rest as [|value rest]; [done|]. destruct (parseExpireToken _ _ _ _) as [r|] eqn:Hp; [|done]. cbn [mbind option_bind].
  destruct r as [opts| |]; [|done..]. apply IH. by eapply parseExpireToken_at.
Qed.

Lemma getex_options_at fuel now_ms tokens o o' : is_i64 (eo_at_ms o) ->
  getex_options fuel now_ms tokens o = Some (Parsed o') -> is_i64 (eo_at_ms o').
Proof.
  revert tokens o. induction fuel as [|fuel IH]; intros tokens o Ho; [done|]. cbn [getex_options]. destruct tokens as [|token rest]; [by intros [= <-]|].
  repeat match goal with |- context [if ?c then _ else _] => destruct c end; try done; try (by apply IH).
  destruct rest as [|value rest]; [done|]. destruct (parseExpireToken _ _ _ _) as [r|] eqn:Hp; [|done]. cbn [mbind option_bind].
  destruct r as [opts| |]; [|done..]. apply IH. by eapply parseExpireToken_at.
Qed.

Lemma getset_ok g g' : spec_getset rq g = Some g' -> wp t (getset (ops:=ops) rq) g (fun _ g1 => same g1 g').
Proof.
  unfold spec_getset, getset. args. intros [= <-]. wp_run. look b; strings; try reflexivity;
    (eapply wp_setKey; [apply models_makeString|]; wp_run; reflexivity).
Qed.

Lemma getdel_ok g g' : spec_getdel rq g = Some g' -> wp t (getdel (ops:=ops) rq) g (fun _ g1 => same g1 g').
Proof.
  unfold spec_getdel, getdel. args. intros [= <-]. wp_run. look b; strings; try reflexivity.
  apply wp_erase. intros r _ _. wp_run. reflexivity.
Qed.

Lemma setnx_ok g g' : spec_setnx rq g = Some g' -> wp t (setnx (ops:=ops) rq) g (fun _ g1 => same g1 g').
Proof.
  unfold spec_setnx, setnx. args. intros [= <-]. wp_run. look b; try reflexivity.
  eapply wp_setKey; [apply models_makeString|]; wp_run; reflexivity.
Qed.

Lemma strlen_ok g g' : spec_strlen rq g = Some g' -> wp t (strlen_ (ops:=ops) rq) g (fun _ g1 => same g1 g').
Proof. unfold spec_strlen, strlen_. args. intros [= <-]. wp_run. look b; strings; reflexivity. Qed.

Lemma getrange_ok g g' : spec_getrange rq g = Some g' -> wp t (getrange (ops:=ops) rq) g (fun _ g1 => same g1 g').
Proof.
  unfold spec_getrange, getrange. args. intros Hs. wp_run. destruct (stringToInt64 b0), (stringToInt64 b1); injection Hs as <-; wp_run; try reflexivity.
  look b; strings; try reflexivity. destruct (clamp_range _ _ _) as [[]|]; wp_run; reflexivity.
Qed.

Lemma would_overflow_spec n delta : is_i64 n -> is_i64 delta ->
  would_overflow n delta = (n + delta <? int64_min) || (int64_max <? n + delta).
Proof.
  intros Hn Hd. unfold would_overflow, int64_max, int64_min, s_range in *. cbn in Hd, Hn.
  destruct (Z.ltb_spec 0 delta), (Z.ltb_spec delta 0), (Z.ltb_spec (2 ^ 63 - 1 - delta) n), (Z.ltb_spec n (- 2 ^ 63 - delta)),
    (Z.ltb_spec (n + delta) (- 2 ^ 63)), (Z.ltb_spec (2 ^ 63 - 1) (n + delta)); cbn; (done || lia).
Qed.

Lemma in_range_sum z : (z <? int64_min) || (int64_max <? z) = false -> is_i64 z.
Proof. intros Hb. bools. unfold int64_min, int64_max, s_range in *. cbn. lia. Qed.

Lemma incrDecrBy_ok delta g g' : is_i64 delta -> spec_incrDecrBy rq delta g = Some g' ->
  wp t (incrDecrBy (ops:=ops) rq delta) g (fun _ g1 => same g1 g').
Proof.
  intros Hd. unfold spec_incrDecrBy, incrDecrBy. args. intros [= <-]. wp_run.
  look b; strings; try reflexivity.
  - destruct (stringToInt64 s) as [n|] eqn:Hn; wp_run; [|reflexivity]. apply stringToInt64_sound in Hn as [Hn _]. rewrite would_overflow_spec by done.
    destruct (_ || _) eqn:Ho; wp_run; [reflexivity|]. apply wp_checked; [by apply in_range_sum|]. wp_run.
    eapply wp_overwrite; [cbn; set_solver|apply models_makeInt; by apply in_range_sum|]. cbn [K settle]. rewrite HK. wp_run. reflexivity.
  - rewrite would_overflow_spec by done. destruct (_ || _) eqn:Ho; wp_run; [reflexivity|]. apply wp_checked; [by apply in_range_sum|]. wp_run.
    eapply wp_overwrite; [cbn; set_solver|apply models_makeInt; by apply in_range_sum|]. cbn [K settle]. rewrite HK. wp_run. reflexivity.
Qed.

Lemma incrby_ok g g' : spec_incrby rq g = Some g' -> wp t (incrby (ops:=ops) rq) g (fun _ g1 => same g1 g').
Proof.
  unfold spec_incrby, incrby. args. intros Hs. wp_run. destruct (stringToInt64 b) as [n|] eqn:Hn; [|by injection Hs as <-; wp_run].
  apply incrDecrBy_ok; [|done]. by apply stringToInt64_sound in Hn as [? _].
Qed.

Lemma decrby_ok g g' : spec_decrby rq g = Some g' -> wp t (decrby (ops:=ops) rq) g (fun _ g1 => same g1 g').
Proof.
  unfold spec_decrby, decrby. args. intros Hs. wp_run. destruct (stringToInt64 b) as [n|] eqn:Hn; [|by injection Hs as <-; wp_run].
  destruct (Z.eqb_spec n int64_min) as [->|Hne]; [by injection Hs as <-; wp_run|].
  apply incrDecrBy_ok; [|done]. apply stringToInt64_sound in Hn as [Hn _]. unfold int64_min, s_range in *. cbn in *. lia.
Qed.

Lemma setex_ok mult name g g' : 0 < mult -> 0 <= t -> spec_setexGeneric rq mult name g = Some g' ->
  wp t (setexGeneric (ops:=ops) rq mult name) g (fun _ g1 => same g1 g').
Proof.
  intros Hm Ht. unfold spec_setexGeneric, setexGeneric. args. intros Hs. wp_run.
  destruct (stringToInt64 b0) as [ttl|] eqn:Hn; [|by injection Hs as <-; wp_run].
  destruct (Z.leb_spec ttl 0); [by injection Hs as <-; wp_run|]. cbn [orb] in Hs.
  destruct (Z.quot int64_max mult <? ttl); [by injection Hs as <-; wp_run|].
  destruct (Z.ltb_spec int64_max (t + ttl * mult)); [done|]. injection Hs as <-. wp_run. pose proof (Z.mul_pos_pos ttl mult ltac:(lia) Hm).
  assert (is_i64 (t + ttl * mult)) as Hi by (unfold int64_max, s_range in *; lia).
  eapply wp_setKey; [apply models_makeString|]. wp_run. apply wp_checked; [done|]. wp_run.
  eapply wp_setExpireAt; [apply lookup_put|done|]. replace (t <? t + ttl * mult) with true by (symmetry; apply Z.ltb_lt; lia).
  wp_run. same_now.
Qed.

Lemma append_ok g g' : spec_append rq g = Some g' -> wp t (append (ops:=ops) rq) g (fun _ g1 => same g1 g').
Proof.
  unfold spec_append, append. args. intros [= <-]. wp_run. look b; strings; try reflexivity.
  - rewrite <- length_app. fold (size_of (s ++ b0)). destruct (kMaxStringSize <? size_of (s ++ b0)); wp_run; [reflexivity|].
    eapply wp_on_value; [exact HK|]. intros w Hw. destruct (Object.appendString_value w b0) as (w' & -> & Hv' & _ & Hwf & Hstr); [apply Hw..|].
    cbn [mbind option_bind]. rewrite (models_text _ _ Hw) in Hv'. eexists w', tt, (AStr (s ++ b0)). split; [done|]. split; [by split_and!|]. wp_run.
    eapply wp_deref; [cbn; rewrite lookup_alter_eq, HK; reflexivity|]. intros u Hu. wp_run. strings. fold (size_of (s ++ b0)).
    view_eq. by rewrite (alter_insert_same _ _ _ _ _ HK).
  - eapply wp_setKey; [apply models_makeRaw|]. wp_run. reflexivity.
Qed.

Lemma same_write_with k a e opts g g' : same g g' -> same (write_with rq k a e opts g) (write_with rq k a e opts g').
Proof.
  intros H. unfold write_with, write_until. destruct (eo_set opts); [|by apply same_put].
  destruct (t <? eo_at_ms opts); [by apply same_put|]. by apply same_doom, same_put.
Qed.

(** The write of SET, once it is clear that it happens. *)
Lemma set_write_ok k value (o : SetOptions) g e (answer : option bytes) g' :
  is_i64 (eo_at_ms (so_expire o)) -> k ∈ settled g -> K g !! k ≫= snd = e ->
  same g' (say (if so_get o then null_or rq answer else Reply.simpleString (str "OK"))
     (let g := tell rq Notify.kString "set" k (mark 1 (write_with rq k (AStr value) e (so_expire o) g)) in
      if eo_set (so_expire o) then tell rq Notify.kGeneric "expire" k g else g)) ->
  wp t (set_write (ops:=ops) rq k value o answer) g (fun _ g1 => same g1 g').
Proof.
  intros Hat Hk He Hg'. unfold set_write. apply wp_bind. eapply wp_overwrite; [done|apply models_makeString|]. rewrite He. apply wp_bind, applyExpire_ok; [done|].
  intros g1 Hg1. wp_run.
  assert (forall g2, same g2 (let g := tell rq Notify.kString "set" k (mark 1 (write_with rq k (AStr value) e (so_expire o) g)) in
      if eo_set (so_expire o) then tell rq Notify.kGeneric "expire" k g else g) ->
     wp t (if so_get o then bulk_or_null (D:=D) rq answer else ok) g2 (fun _ g3 => same g3 g')) as Hend.
  { intros g2 Hg2. destruct (so_get o); [apply wp_bulk_or_null|wp_run]; rewrite Hg'; by apply same_say. }
  destruct (eo_set (so_expire o)); wp_run; apply Hend; cbv zeta; repeat apply same_tell; by apply same_mark.
Qed.

Lemma set_with_ok k value (o : SetOptions) g : is_i64 (eo_at_ms (so_expire o)) ->
  wp t (set_with (ops:=ops) rq k value o) g (fun _ g1 => same g1 (spec_set_with rq k value o g)).
Proof.
  intros Hat. unfold set_with, spec_set_with. wp_run. look k; destruct (so_get o) eqn:Hget; wp_run; strings; try reflexivity;
    cbn [fmap option_fmap option_map]; strings.
  all: destruct (so_nx o), (so_xx o); cbn [andb orb]; wp_run; try (by apply wp_bulk_or_null).
  all: eapply set_write_ok; [done|cbn; set_solver|reflexivity|]; cbn [K settle tell_at Keyspace.keymiss]; rewrite HK, Hget; apply same_say;
    destruct (eo_set (so_expire o)); repeat apply same_tell; by apply same_mark, same_write_with.
Qed.

Lemma set_ok g g' : spec_set rq g = Some g' -> wp t (set (ops:=ops) rq) g (fun _ g1 => same g1 g').
Proof.
  unfold spec_set, set. destruct (argv rq) as [|c [|k [|value tokens]]] eqn:Hargv; try done.
  destruct (set_options _ _ _ _) as [o|] eqn:Ho; [|done]. cbn [mbind option_bind]. intros [= <-]. wp_run.
  apply (wp_lift _ _ o); [done|]. destruct o as [o|msg]; [|by wp_run].
  apply set_with_ok. eapply set_options_at; [|exact Ho]. done.
Qed.

Lemma getex_ok g g' : spec_getex rq g = Some g' -> wp t (getex (ops:=ops) rq) g (fun _ g1 => same g1 g').
Proof.
  unfold spec_getex, getex. destruct (argv rq) as [|c [|k tokens]] eqn:Hargv; try done.
  destruct (getex_options _ _ _ _) as [o|] eqn:Ho; [|done]. cbn [mbind option_bind]. intros [= <-]. wp_run.
  apply (wp_lift _ _ o); [done|]. destruct o as [o|msg]; [|by wp_run].
  apply getex_options_at in Ho; [|done]. unfold getex_with, spec_getex_with. wp_run. look k; strings; try reflexivity.
  destruct (eo_set o); wp_run.
  - destruct (Z.leb_spec (eo_at_ms o) t); wp_run.
    + apply wp_erase. intros r _ _. wp_run. reflexivity.
    + eapply wp_setExpireAt; [cbn; exact HK|done|]. replace (t <? eo_at_ms o) with true by (symmetry; apply Z.ltb_lt; lia). wp_run. reflexivity.
  - destruct (eo_persist o); wp_run; [|reflexivity]. eapply wp_persist; [cbn; exact HK|]. destruct e; wp_run; [reflexivity|].
    view_eq. by rewrite insert_id.
Qed.

Lemma set_all_ok pairs g (Q : unit -> view -> Prop) : (length pairs mod 2 = 0)%nat ->
  (forall g', same g' (put_all rq pairs g) -> Q tt g') -> wp t (set_all (ops:=ops) rq pairs) g Q.
Proof.
  revert g. induction pairs as [|k|k v pairs IH] using two_ind; intros g He HQ; cbn [set_all put_all] in *.
  - apply wp_ret, HQ. done.
  - done.
  - wp_run. eapply wp_setKey; [apply models_makeString|]. wp_run. apply IH; [|exact HQ].
    cbn [length] in He. by replace (S (S (length pairs))) with (length pairs + 1 * 2)%nat in He by lia; rewrite Nat.Div0.mod_add in He.
Qed.

Lemma any_exists_ok pairs g (Q : bool -> view -> Prop) : (length pairs mod 2 = 0)%nat ->
  (forall g', same g' g -> Q (existsb (fun k => is_some (K g !! k)) (keys_of pairs)) g') ->
  wp t (any_exists (ops:=ops) rq pairs) g Q.
Proof.
  revert g. induction pairs as [|k|k v pairs IH] using two_ind; intros g He HQ; cbn [any_exists keys_of existsb] in *.
  - apply wp_ret, HQ. done.
  - done.
  - wp_run. apply wp_lookup. destruct (K g !! k) as [[a e]|] eqn:HK; [intros w _; wp_run; by apply HQ|]. wp_run. apply IH.
    + cbn [length] in He. by replace (S (S (length pairs))) with (length pairs + 1 * 2)%nat in He by lia; rewrite Nat.Div0.mod_add in He.
    + intros g' Hg'. apply HQ. exact Hg'.
Qed.

Lemma mset_ok g g' : spec_mset rq g = Some g' -> wp t (mset (ops:=ops) rq) g (fun _ g1 => same g1 g').
Proof.
  unfold spec_mset, mset. cbv zeta. destruct ((argc rq - 1) mod 2 =? 0)%nat eqn:Hm; cbn [negb]; intros [= <-]; wp_run; [|reflexivity].
  apply set_all_ok; [rewrite length_drop; by apply Nat.eqb_eq|]. intros g1 Hg1. wp_run. by apply same_say, same_mark.
Qed.

Lemma put_all_same pairs g g' : same g g' -> same (put_all rq pairs g) (put_all rq pairs g').
Proof. revert g g'. induction pairs as [| |k v pairs IH] using two_ind; intros g g' H; [done..|]. cbn [put_all]. by apply IH, same_tell, same_put. Qed.

Lemma msetnx_ok g g' : spec_msetnx rq g = Some g' -> wp t (msetnx (ops:=ops) rq) g (fun _ g1 => same g1 g').
Proof.
  unfold spec_msetnx, msetnx. cbv zeta. destruct ((argc rq - 1) mod 2 =? 0)%nat eqn:Hm; cbn [negb]; [|intros [= <-]; wp_run; reflexivity].
  assert (length (drop 1 (argv rq)) mod 2 = 0)%nat as He by (rewrite length_drop; by apply Nat.eqb_eq).
  intros Hs. wp_run. apply any_exists_ok; [done|]. intros g1 Hg1. destruct (existsb _ _); injection Hs as <-; wp_run; [by apply same_say|].
  apply set_all_ok; [done|]. intros g2 Hg2. wp_run. apply same_say, same_mark. rewrite Hg2. by apply put_all_same.
Qed.

Lemma spec_mget_same ks g g' : same g g' -> same (spec_mget_each rq ks g) (spec_mget_each rq ks g').
Proof.
  revert g g'. induction ks as [|k ks IH]; intros g g' H; [done|]. cbn [spec_mget_each]. apply IH. unfold on_string.
  destruct (same_fields _ _ H) as (-> & _). destruct (K g' !! k) as [[[] ]|]; try by apply same_say. by apply same_say, same_tell.
Qed.

Lemma mget_each_ok ks g (Q : unit -> view -> Prop) : (forall g', same g' (spec_mget_each rq ks g) -> Q tt g') ->
  wp t (mget_each (ops:=ops) rq ks) g Q.
Proof.
  revert g. induction ks as [|k ks IH]; intros g HQ; cbn [mget_each spec_mget_each] in *; [by apply wp_ret, HQ|].
  wp_run. look k; try (rewrite (models_type v _ Hv); cbn [atype]); [rewrite bool_decide_true by done|rewrite bool_decide_false by done..|];
    wp_run; strings; apply IH; intros g' Hg'; apply HQ; rewrite Hg'; by apply spec_mget_same.
Qed.

Lemma mget_ok g g' : spec_mget rq g = Some g' -> wp t (mget (ops:=ops) rq) g (fun _ g1 => same g1 g').
Proof. intros [= <-]. unfold mget. wp_run. apply mget_each_ok. done. Qed.

Lemma setrange_write_ok k patch offset s e g : K g !! k = Some (AStr s, e) ->
  wp t (setrange_write (ops:=ops) rq k patch offset) g (fun _ g1 =>
    same g1 (say (Reply.integer (size_of (patched s patch (Z.to_nat offset)))) (tell rq Notify.kString "setrange" k
                  (mark 1 (put k (AStr (patched s patch (Z.to_nat offset))) e g))))).
Proof.
  intros HK. unfold setrange_write. wp_run. eapply wp_on_value; [exact HK|]. intros w (Hw & Hs & Ht).
  destruct (Object.makeMutable_value w Hw Hs) as (_ & Hd & He & Hwf & Hstr). unfold Object.mutableString. rewrite Hd. cbn [mbind option_bind]. cbv zeta.
  rewrite Ht. eexists _, _, (AStr (patched s patch (Z.to_nat offset))). split; [done|].
  split; [|wp_run; fold (size_of (patched s patch (Z.to_nat offset))); view_eq; by rewrite (alter_insert_same _ _ _ _ _ HK)].
  split_and!; [|exact Hstr|done]. unfold Object.wf, Object.is_string in *. cbn. rewrite Hstr, He. by right.
Qed.

Lemma setrange_ok g g' : spec_setrange rq g = Some g' -> wp t (setrange (ops:=ops) rq) g (fun _ g1 => same g1 g').
Proof.
  unfold spec_setrange, setrange. args. intros Hs. wp_run. destruct (stringToInt64 b0) as [offset|] eqn:Hn; [|injection Hs as <-; wp_run; reflexivity].
  destruct (Z.ltb_spec offset 0); [injection Hs as <-; wp_run; reflexivity|].
  assert ((int64_max <? offset + size_of b1) = false -> is_i64 (offset + size_of b1)) as Hi.
  { intros Hb. bools. pose proof (swrap_range 64 (Z.of_nat (length b1)) ltac:(lia)) as Hr. unfold size_of, s_range, int64_max in *. cbn in Hr |- *. lia. }
  wp_run. look b; strings; try (injection Hs as <-; reflexivity).
  all: destruct (length b1 =? 0)%nat; [injection Hs as <-; wp_run; strings; reflexivity|]; fold (size_of b1); wp_run.
  all: destruct (int64_max <? offset + size_of b1); [done|]; apply wp_checked; [by apply Hi|].
  all: destruct (kMaxStringSize <? offset + size_of b1); injection Hs as <-; wp_run; [reflexivity|].
  - eapply wp_mono; [by apply (setrange_write_ok _ _ _ s e)|]. intros _ g1 ->. reflexivity.
  - eapply wp_setKey; [apply models_makeRaw|]. wp_run. apply wp_lookup. rewrite lookup_put. intros w Hw. wp_run.
    eapply wp_mono; [by apply (setrange_write_ok _ _ _ [] None), lookup_insert_eq|]. intros _ g1 ->. same_now.
Qed.

(** ** All of them *)

(** The handlers with their specifications, by command name. *)
Definition commands : list (string * M D unit * (view -> option view)) :=
  [ ("set", set rq, spec_set rq); ("get", get rq, spec_get rq); ("getset", getset rq, spec_getset rq);
    ("getdel", getdel rq, spec_getdel rq); ("getex", getex rq, spec_getex rq); ("setnx", setnx rq, spec_setnx rq);
    ("setex", setex rq, spec_setexGeneric rq 1000 "setex"); ("psetex", psetex rq, spec_setexGeneric rq 1 "psetex");
    ("mset", mset rq, spec_mset rq); ("msetnx", msetnx rq, spec_msetnx rq); ("mget", mget rq, spec_mget rq);
    ("append", append rq, spec_append rq); ("strlen", strlen_ rq, spec_strlen rq);
    ("incr", incr rq, spec_incrDecrBy rq 1); ("decr", decr rq, spec_incrDecrBy rq (-1));
    ("incrby", incrby rq, spec_incrby rq); ("decrby", decrby rq, spec_decrby rq);
    ("setrange", setrange rq, spec_setrange rq); ("getrange", getrange rq, spec_getrange rq);
    ("substr", getrange rq, spec_getrange rq) ]%string.

#[local] Hint Resolve set_ok get_ok getset_ok getdel_ok getex_ok setnx_ok mset_ok msetnx_ok mget_ok append_ok strlen_ok incrby_ok decrby_ok
  setrange_ok getrange_ok : mnemos.

Lemma commands_ok : 0 <= t ->
  Forall (fun '(n, h, sp) => forall g g', sp g = Some g' -> wp t h g (fun _ g1 => same g1 g')) commands.
Proof.
  intros Ht. unfold commands. repeat (apply Forall_cons; split; [|]); [..|apply Forall_nil; done]; intros g g' Hs;
    first [by eauto with mnemos | by apply incrDecrBy_ok | by apply setex_ok].
Qed.

End Refinement.
End StringCommands.
