(* ===== verification/HashCommands.v ===== *)
(** * HashCommands: the commands on hashes

    [src/server/commands/hash_commands.cpp], all handlers but HINCRBYFLOAT
    (whose [long double] arithmetic is not modelled), and their refinement of
    operations on finite maps. *)

From Stdlib Require Import ZArith Lia.
Set Warnings "-register-all".
From stdpp Require Import base list numbers gmap option strings.
From S2P Require Import Prelude Encoding Strings Listpack MapSpec Dict HashValue ZSetValue SetValue ListValue Db Object Reply Notify CommandTable Command Keyspace StringCommands.
Import Command Keyspace.Keyspace.

Module HashCommands.

Section Handlers.
Context {D : Type -> Type} {ops : MapOps D} (rq : request).
Abbreviation handler := (M D unit).

(** The writing loop of [hset] and [hmset]: how many fields were new. *)
Fixpoint set_fields (key : bytes) (pairs : list bytes) (added : Z) : M D Z :=
  match pairs with
  | field :: value :: pairs =>
      fresh ← on_hash key (fun h => HashValue.set h field value);
      set_fields key pairs (if fresh : bool then added + 1 else added)
  | _ => mret added
  end.

Definition hset : handler :=
  if negb ((argc rq - 2) mod 2 =? 0)%nat then wrongArgs "hset"
  else
    key ← arg rq 1;
    value ← lookupOrCreate rq key OHash;
    match value with
    | Found _ =>
        added ← set_fields key (drop 2 (argv rq)) 0;
        _ ← markDirty (Z.of_nat ((argc rq - 2) / 2));
        _ ← notify rq Notify.kHash "hset" key;
        integer added
    | _ => mret tt
    end.

Definition hmset : handler :=
  if negb ((argc rq - 2) mod 2 =? 0)%nat then wrongArgs "hmset"
  else
    key ← arg rq 1;
    value ← lookupOrCreate rq key OHash;
    match value with
    | Found _ =>
        _ ← set_fields key (drop 2 (argv rq)) 0;
        _ ← markDirty (Z.of_nat ((argc rq - 2) / 2));
        _ ← notify rq Notify.kHash "hset" key;
        ok
    | _ => mret tt
    end.

Definition hsetnx : handler :=
  key ← arg rq 1;
  value ← lookupOrCreate rq key OHash;
  match value with
  | Found _ =>
      field ← arg rq 2;
      present ← on_hash key (fun h => HashValue.contains h field);
      if present : bool then _ ← deleteIfEmpty rq key; integer 0
      else
        text ← arg rq 3;
        _ ← on_hash key (fun h => HashValue.set h field text);
        _ ← markDirty 1;
        _ ← notify rq Notify.kHash "hset" key;
        integer 1
  | _ => mret tt
  end.

Definition hget : handler :=
  key ← arg rq 1;
  value ← lookupTypedRead rq key OHash;
  match value with
  | TypeError => mret tt
  | Missing => nullBulk rq
  | Found _ =>
      field ← arg rq 2;
      found ← on_hash key (fun h => HashValue.get h field);
      bulk_or_null rq found
  end.

(** The loop of [hmget]; [present] says whether the pointer is null. *)
Fixpoint get_fields (key : bytes) (present : bool) (fields : list bytes) : handler :=
  match fields with
  | [] => mret tt
  | field :: fields =>
      _ ← (if present then found ← on_hash key (fun h => HashValue.get h field); bulk_or_null rq found
           else nullBulk rq);
      get_fields key present fields
  end.

Definition hmget : handler :=
  key ← arg rq 1;
  value ← lookupTypedRead rq key OHash;
  match value with
  | TypeError => mret tt
  | _ =>
      _ ← arrayHeader (Z.of_nat (argc rq - 2));
      get_fields key (match value with Found _ => true | _ => false end) (drop 2 (argv rq))
  end.

Fixpoint erase_fields (key : bytes) (fields : list bytes) (removed : Z) : M D Z :=
  match fields with
  | [] => mret removed
  | field :: fields =>
      gone ← on_hash key (fun h => HashValue.erase h field);
      erase_fields key fields (if gone : bool then removed + 1 else removed)
  end.

Definition hdel : handler :=
  key ← arg rq 1;
  value ← lookupTyped rq key OHash;
  match value with
  | TypeError => mret tt
  | Missing => integer 0
  | Found _ =>
      removed ← erase_fields key (drop 2 (argv rq)) 0;
      _ ← (if 0 <? removed then _ ← markDirty removed; notify rq Notify.kHash "hdel" key else mret tt);
      _ ← deleteIfEmpty rq key;
      integer removed
  end.

Definition hlen : handler :=
  key ← arg rq 1;
  value ← lookupTypedRead rq key OHash;
  match value with
  | TypeError => mret tt
  | Missing => integer 0
  | Found _ => h ← the_hash key; integer (i64 (Z.of_nat (HashValue.size h)))
  end.

Definition hexists : handler :=
  key ← arg rq 1;
  value ← lookupTypedRead rq key OHash;
  match value with
  | TypeError => mret tt
  | Missing => integer 0
  | Found _ =>
      field ← arg rq 2;
      present ← on_hash key (fun h => HashValue.contains h field);
      integer (if present : bool then 1 else 0)
  end.

Definition hstrlen : handler :=
  key ← arg rq 1;
  value ← lookupTypedRead rq key OHash;
  match value with
  | TypeError => mret tt
  | Missing => integer 0
  | Found _ =>
      field ← arg rq 2;
      found ← on_hash key (fun h => HashValue.get h field);
      integer (match found with Some s => i64 (Z.of_nat (length s)) | None => 0 end)
  end.

Definition hkeys : handler :=
  key ← arg rq 1;
  value ← lookupTypedRead rq key OHash;
  match value with
  | TypeError => mret tt
  | Missing => arrayHeader 0
  | Found _ => h ← the_hash key; bulkArray (HashValue.fields h)
  end.

Definition hvals : handler :=
  key ← arg rq 1;
  value ← lookupTypedRead rq key OHash;
  match value with
  | TypeError => mret tt
  | Missing => arrayHeader 0
  | Found _ => h ← the_hash key; bulkArray (HashValue.values h)
  end.

Definition hgetall : handler :=
  key ← arg rq 1;
  value ← lookupTypedRead rq key OHash;
  match value with
  | TypeError => mret tt
  | Missing => mapHeader rq 0
  | Found _ =>
      h ← the_hash key;
      _ ← mapHeader rq (Z.of_nat (length (HashValue.flatten h) / 2));
      bulks (HashValue.flatten h)
  end.

(** [hincrby] once it has its hash. *)
Definition hincrby_store (key field : bytes) (result : Z) : handler :=
  _ ← on_hash key (fun h => HashValue.set h field (to_string result));
  _ ← markDirty 1;
  _ ← notify rq Notify.kHash "hincrby" key;
  integer result.

Definition hincrby_with (key : bytes) (delta : Z) : handler :=
  field ← arg rq 2;
  existing ← on_hash key (fun h => HashValue.get h field);
  match (match existing with Some s => stringToInt64 s | None => Some 0 end) with
  | None => _ ← error (str "ERR hash value is not an integer"); deleteIfEmpty rq key
  | Some current =>
      if StringCommands.would_overflow current delta then
        _ ← error (str "ERR increment or decrement would overflow"); deleteIfEmpty rq key
      else result ← checked (current + delta); hincrby_store key field result
  end.

Definition hincrby : handler :=
  text ← arg rq 3;
  match stringToInt64 text with
  | None => notAnInteger
  | Some delta =>
      key ← arg rq 1;
      value ← lookupOrCreate rq key OHash;
      match value with
      | Found _ => hincrby_with key delta
      | _ => mret tt
      end
  end.

(** Emitting the chosen fields; an index past the end is undefined. *)
Fixpoint emit_picks (flat : list bytes) (with_values : bool) (chosen : list nat) : handler :=
  match chosen with
  | [] => mret tt
  | i :: chosen =>
      field ← lift (flat !! (i * 2)%nat);
      _ ← bulk field;
      _ ← (if with_values then value ← lift (flat !! (i * 2 + 1)%nat); bulk value else mret tt);
      emit_picks flat with_values chosen
  end.

(** The options of [hrandfield]: the count, if there is one, and WITHVALUES. *)
Definition rand_options (flag : string) : StringCommands.parsed (option (Z * bool)) :=
  match drop 2 (argv rq) with
  | [] => StringCommands.Parsed None
  | count :: rest =>
      match stringToInt64 count with
      | None => StringCommands.Refused StringCommands.not_an_integer
      | Some count =>
          match rest with
          | [] => StringCommands.Parsed (Some (count, false))
          | w :: _ =>
              if negb (equalsIgnoreCase w (str flag)) then StringCommands.Refused StringCommands.syntax_error
              else StringCommands.Parsed (Some (count, true))
          end
      end
  end.

(** The indices picked among [n]: with repetitions for a negative count
    ([-count] overflows for the smallest integer), distinct for the others. *)
Definition choose (rnd : nat -> Z) (count : Z) (n : nat) : M D (list nat) :=
  if count <? 0 then
    wanted ← checked (- count);
    mret (picks (Z.to_nat wanted) 0 rnd n)
  else mret (take (Nat.min (Z.to_nat count) n) (shuffle rnd (seq 0 n))).

Definition hrandfield : handler :=
  key ← arg rq 1;
  value ← lookupTypedRead rq key OHash;
  match value with
  | TypeError => mret tt
  | _ =>
      match rand_options "WITHVALUES" with
      | StringCommands.Refused msg => error msg
      | StringCommands.Parsed o =>
          size ← (match value with Found _ => h ← the_hash key; mret (HashValue.size h) | _ => mret 0%nat end);
          if (size =? 0)%nat then (if is_some o then arrayHeader 0 else nullBulk rq)
          else
            h ← the_hash key;
            let flat := HashValue.flatten h in
            let field_count := (length flat / 2)%nat in
            rnd ← random rq;
            match o with
            | None => field ← lift (flat !! (Z.to_nat (rnd 0%nat 0%nat 0%nat mod Z.of_nat field_count) * 2)%nat); bulk field
            | Some (count, with_values) =>
                chosen ← choose (rnd 0%nat 0%nat) count field_count;
                _ ← arrayHeader (Z.of_nat (if with_values : bool then length chosen * 2 else length chosen));
                emit_picks flat with_values chosen
            end
      end
  end.

End Handlers.

(** ** Specifications *)

Section Specs.
Context (rq : request).
Implicit Types (g : view) (k : bytes) (h : gmap bytes bytes).
Abbreviation null := (Keyspace.null rq).
Abbreviation null_or := (Keyspace.null_or rq).
Abbreviation tell := (Keyspace.tell rq).
Abbreviation keymiss := (Keyspace.keymiss rq).

Definition reading k g (absent : view) (hash : gmap bytes bytes -> view) : option (view -> Prop) :=
  exactly (match K g !! k with
           | None => absent | Some (AHash h, _) => hash h | Some _ => say wrong_type g end).

(** A key holding a hash, or a fresh one. *)
Definition creating k g (f : gmap bytes bytes -> option Z -> view) : option (view -> Prop) :=
  exactly (match K g !! k with
           | None => f ∅ None | Some (AHash h, e) => f h e | Some _ => say wrong_type g end).

Fixpoint insert_fields (pairs : list bytes) h : gmap bytes bytes :=
  match pairs with f :: v :: pairs => insert_fields pairs (<[f := v]> h) | _ => h end.

Definition spec_hset : spec := fun g =>
  if negb ((argc rq - 2) mod 2 =? 0)%nat then exactly (refuse (str "ERR " ++ CommandTable.wrongArgsText (str "hset")) g)
  else
    k ← argv rq !! 1%nat;
    creating k g (fun h e =>
      let h' := insert_fields (drop 2 (argv rq)) h in
      say (Reply.integer (Z.of_nat (size h') - Z.of_nat (size h))) (tell Notify.kHash "hset" k
        (mark (Z.of_nat ((argc rq - 2) / 2)) (put k (AHash h') e g)))).

Definition spec_hmset : spec := fun g =>
  if negb ((argc rq - 2) mod 2 =? 0)%nat then exactly (refuse (str "ERR " ++ CommandTable.wrongArgsText (str "hmset")) g)
  else
    k ← argv rq !! 1%nat;
    creating k g (fun h e =>
      say (Reply.simpleString (str "OK")) (tell Notify.kHash "hset" k
        (mark (Z.of_nat ((argc rq - 2) / 2)) (put k (AHash (insert_fields (drop 2 (argv rq)) h)) e g)))).

Definition spec_hsetnx : spec := fun g =>
  k ← argv rq !! 1%nat; f ← argv rq !! 2%nat; v ← argv rq !! 3%nat;
  creating k g (fun h e =>
    if is_some (h !! f) then say (Reply.integer 0) g
    else say (Reply.integer 1) (tell Notify.kHash "hset" k (mark 1 (put k (AHash (<[f := v]> h)) e g)))).

Definition spec_hget : spec := fun g =>
  k ← argv rq !! 1%nat; f ← argv rq !! 2%nat;
  reading k g (say null (keymiss k g)) (fun h => say (null_or (h !! f)) g).

Definition spec_hmget : spec := fun g =>
  k ← argv rq !! 1%nat;
  let header := Reply.arrayHeader (Z.of_nat (argc rq - 2)) in
  let answers h := concat (map (fun f => null_or (h !! f)) (drop 2 (argv rq))) in
  reading k g (say (answers ∅) (say header (keymiss k g))) (fun h => say (answers h) (say header g)).

Definition spec_hdel : spec := fun g =>
  k ← argv rq !! 1%nat;
  exactly (match K g !! k with
           | None => say (Reply.integer 0) g
           | Some (AHash h, e) =>
               let h' := foldl (fun h f => delete f h) h (drop 2 (argv rq)) in
               let removed := Z.of_nat (size h) - Z.of_nat (size h') in
               let g := if 0 <? removed then tell Notify.kHash "hdel" k (mark removed g) else g in
               say (Reply.integer removed) (leave rq k (AHash h') e g)
           | Some _ => say wrong_type g
           end).

Definition spec_hlen : spec := fun g =>
  k ← argv rq !! 1%nat;
  reading k g (say (Reply.integer 0) (keymiss k g)) (fun h => say (Reply.integer (i64 (Z.of_nat (size h)))) g).

Definition spec_hexists : spec := fun g =>
  k ← argv rq !! 1%nat; f ← argv rq !! 2%nat;
  reading k g (say (Reply.integer 0) (keymiss k g)) (fun h => say (Reply.integer (if is_some (h !! f) then 1 else 0)) g).

Definition spec_hstrlen : spec := fun g =>
  k ← argv rq !! 1%nat; f ← argv rq !! 2%nat;
  reading k g (say (Reply.integer 0) (keymiss k g))
    (fun h => say (Reply.integer (match h !! f with Some s => i64 (Z.of_nat (length s)) | None => 0 end)) g).

(** The order of the fields is the table's. *)
Definition listing k g (absent : view) (hash : list (bytes * bytes) -> view) : option (view -> Prop) :=
  match K g !! k with
  | None => exactly absent
  | Some (AHash h, _) => Some (fun g1 => exists ps, ps ≡ₚ map_to_list h /\ g1 = hash ps)
  | Some _ => exactly (say wrong_type g)
  end.

Definition spec_hkeys : spec := fun g =>
  k ← argv rq !! 1%nat;
  listing k g (say (Reply.arrayHeader 0) (keymiss k g)) (fun ps => say (Reply.bulkArray ps.*1) g).

Definition spec_hvals : spec := fun g =>
  k ← argv rq !! 1%nat;
  listing k g (say (Reply.arrayHeader 0) (keymiss k g)) (fun ps => say (Reply.bulkArray ps.*2) g).

Definition spec_hgetall : spec := fun g =>
  k ← argv rq !! 1%nat;
  listing k g (say (Reply.mapHeader (protover rq) 0) (keymiss k g))
    (fun ps => say (concat (map Reply.bulk (HashValue.flat ps))) (say (Reply.mapHeader (protover rq) (Z.of_nat (length ps))) g)).

Definition spec_hincrby : spec := fun g =>
  k ← argv rq !! 1%nat; f ← argv rq !! 2%nat; text ← argv rq !! 3%nat;
  match stringToInt64 text with
  | None => exactly (refuse StringCommands.not_an_integer g)
  | Some delta =>
      creating k g (fun h e =>
        match (match h !! f with Some s => stringToInt64 s | None => Some 0 end) with
        | None => refuse (str "ERR hash value is not an integer") g
        | Some n =>
            if (n + delta <? StringCommands.int64_min) || (StringCommands.int64_max <? n + delta)
            then refuse (str "ERR increment or decrement would overflow") g
            else say (Reply.integer (n + delta)) (tell Notify.kHash "hincrby" k
                   (mark 1 (put k (AHash (<[f := to_string (n + delta)]> h)) e g)))
        end)
  end.

(** What a random selection of entries looks like on the wire. *)
Definition picked (with_values : bool) (ps : list (bytes * bytes)) : bytes :=
  Reply.arrayHeader (Z.of_nat (if with_values then length ps * 2 else length ps)) ++
  concat (map (fun p => Reply.bulk p.1 ++ (if with_values then Reply.bulk p.2 else [])) ps).

Definition spec_hrandfield : spec := fun g =>
  k ← argv rq !! 1%nat;
  let absent o g := say (if is_some (A := Z * bool) o then Reply.arrayHeader 0 else null) g in
  match K g !! k with
  | Some (AHash h, _) =>
      match rand_options rq "WITHVALUES" with
      | StringCommands.Refused msg => exactly (refuse msg g)
      | StringCommands.Parsed o =>
          if (size h =? 0)%nat then exactly (absent o g)
          else
            match o with
            | None => Some (fun g1 => exists p, h !! p.1 = Some p.2 /\ g1 = say (Reply.bulk p.1) g)
            | Some (count, with_values) =>
                if count =? StringCommands.int64_min then None
                else Some (fun g1 => exists ps, (forall p, p ∈ ps -> h !! p.1 = Some p.2) /\
                  (if count <? 0 then Z.of_nat (length ps) = - count
                   else NoDup ps.*1 /\ Z.of_nat (length ps) = Z.min count (Z.of_nat (size h))) /\
                  g1 = say (picked with_values ps) g)
            end
      end
  | Some _ => exactly (say wrong_type g)
  | None =>
      match rand_options rq "WITHVALUES" with
      | StringCommands.Refused msg => exactly (refuse msg (keymiss k g))
      | StringCommands.Parsed o => exactly (absent o (keymiss k g))
      end
  end.
End Specs.

(** ** Refinement *)

Section Refinement.
Context {D : Type -> Type} {ops : MapOps D} {laws : MapLaws D} (rq : request).
Implicit Types (g : view) (k : bytes).
Abbreviation t := (now rq).
(** Arguments are short enough for a listpack's length field. *)
Context (Hargs : Forall Listpack.storable (argv rq)).

Lemma set_fields_ok k pairs added h e g (Q : Z -> view -> Prop) :
  K g !! k = Some (AHash h, e) -> Forall Listpack.storable pairs ->
  Q (added + Z.of_nat (size (insert_fields pairs h)) - Z.of_nat (size h)) (update k (AHash (insert_fields pairs h)) g) ->
  wp t (set_fields (ops:=ops) k pairs added) g Q.
Proof.
  revert added h g. induction pairs as [|f|f v pairs IH] using two_ind; intros added h g HK Hp HQ; cbn [set_fields insert_fields] in *.
  1,2: apply wp_ret; rewrite (update_id k _ _ _ HK) in HQ; by replace (added + Z.of_nat (size h) - Z.of_nat (size h)) with added in HQ by lia.
  inversion_clear Hp as [|? ? _ Hp']. inversion_clear Hp' as [|? ? Hv Hp]. apply wp_bind. eapply wp_on_hash; [exact HK|]. intros hv Hh.
  destruct (HashValue.hash_set_holds hv h f v Hh Hv) as (hv' & Hs & Hh' & _). eexists hv', _, _. split; [exact Hs|]. split; [exact Hh'|].
  eapply IH; [eapply update_lookup; exact HK|done|]. rewrite update_update.
  match goal with HQ : Q ?a _ |- Q ?b _ => replace b with a; [done|] end. rewrite map_size_insert. unfold is_some. destruct (h !! f); cbn; lia.
Qed.

Lemma erase_fields_ok k fields removed h e g (Q : Z -> view -> Prop) :
  K g !! k = Some (AHash h, e) ->
  (let h' := foldl (fun h f => delete f h) h fields in Q (removed + Z.of_nat (size h) - Z.of_nat (size h')) (update k (AHash h') g)) ->
  wp t (erase_fields (ops:=ops) k fields removed) g Q.
Proof.
  revert removed h g. induction fields as [|f fields IH]; intros removed h g HK HQ; cbn [erase_fields foldl] in *; cbv zeta in *.
  { apply wp_ret. rewrite (update_id k _ _ _ HK) in HQ. by replace (removed + Z.of_nat (size h) - Z.of_nat (size h)) with removed in HQ by lia. }
  apply wp_bind. eapply wp_on_hash; [exact HK|]. intros hv Hh. destruct (HashValue.hash_erase_holds hv h f Hh) as (hv' & Hs & Hh' & _).
  eexists hv', _, _. split; [exact Hs|]. split; [exact Hh'|]. eapply IH; [eapply update_lookup; exact HK|]. rewrite update_update.
  match goal with HQ : Q ?a _ |- Q ?b _ => replace b with a; [done|] end. rewrite map_size_delete. unfold is_some. destruct (h !! f) eqn:E; cbn; [|lia].
  assert (size h <> 0)%nat by (intros H0; apply map_size_empty_inv in H0; subst; done). lia.
Qed.

Lemma get_fields_ok k h e fields g (Q : unit -> view -> Prop) :
  K g !! k = Some (AHash h, e) ->
  (forall g', same g' (say (concat (map (fun f => null_or rq (h !! f)) fields)) g) -> Q tt g') ->
  wp t (get_fields (ops:=ops) rq k true fields) g Q.
Proof.
  revert g. induction fields as [|f fields IH]; intros g HK HQ; cbn [get_fields map concat] in *.
  { apply wp_ret, HQ. by rewrite say_nil. }
  wp_run. eapply wp_on_hash; [exact HK|]. intros hv Hh. destruct (HashValue.get_holds hv h f Hh) as (hv' & Hs & Hh' & _).
  eexists hv', _, _. split; [exact Hs|]. split; [exact Hh'|]. rewrite (update_id k _ _ _ HK). apply wp_bulk_or_null.
  apply IH; [exact HK|]. intros g' Hg'. apply HQ. by rewrite Hg', say_say.
Qed.

Lemma get_fields_none k fields g (Q : unit -> view -> Prop) :
  (forall g', same g' (say (concat (map (fun f => null_or rq ((∅ : gmap bytes bytes) !! f)) fields)) g) -> Q tt g') ->
  wp t (get_fields (ops:=ops) rq k false fields) g Q.
Proof.
  revert g. induction fields as [|f fields IH]; intros g HQ; cbn [get_fields map concat] in *.
  { apply wp_ret, HQ. by rewrite say_nil. }
  wp_run. apply IH. intros g' Hg'. apply HQ. rewrite Hg', say_say. by rewrite lookup_empty.
Qed.

Ltac start Hs := intros g P Hs; match type of Hs with ?sp _ _ = _ => unfold sp in Hs end; args_in Hs; unfold reading, creating, listing in Hs.

Lemma args_storable n : Forall Listpack.storable (drop n (argv rq)).
Proof. by apply Forall_drop. Qed.

Lemma arg_storable n b : argv rq !! n = Some b -> Listpack.storable b.
Proof. intros H. by eapply Forall_lookup_1 in Hargs. Qed.

Lemma hset_ok : meets t (hset (ops:=ops) rq) (spec_hset rq).
Proof.
  start Hs. unfold hset. destruct (_ =? 0)%nat; cbn [negb] in *; [|finish Hs; wp_run; reflexivity]. args_in Hs. finish Hs.
  wp_run. apply wp_lookupOrCreate; [done|]. cases b; wp_run; try reflexivity.
  - eapply set_fields_ok; [exact HK|apply args_storable|]. wp_run. put_now HK.
  - eapply set_fields_ok; [apply lookup_insert_eq|apply args_storable|]. wp_run. fresh_now.
Qed.

Lemma hmset_ok : meets t (hmset (ops:=ops) rq) (spec_hmset rq).
Proof.
  start Hs. unfold hmset. destruct (_ =? 0)%nat; cbn [negb] in *; [|finish Hs; wp_run; reflexivity]. args_in Hs. finish Hs.
  wp_run. apply wp_lookupOrCreate; [done|]. cases b; wp_run; try reflexivity.
  - eapply set_fields_ok; [exact HK|apply args_storable|]. wp_run. put_now HK.
  - eapply set_fields_ok; [apply lookup_insert_eq|apply args_storable|]. wp_run. fresh_now.
Qed.

(** The rules of the methods of one hash, in a state where the key holds it. *)
Lemma wp_contains k f h e g (Q : bool -> view -> Prop) : K g !! k = Some (AHash h, e) -> Q (is_some (h !! f)) g ->
  wp t (on_hash k (fun h => HashValue.contains h f)) g Q.
Proof.
  intros HK HQ. eapply wp_on_hash; [exact HK|]. intros hv Hh. destruct (HashValue.hash_contains_holds hv h f Hh) as (hv' & Hs & Hh' & _).
  eexists hv', _, _. split; [exact Hs|]. split; [exact Hh'|]. by rewrite (update_id k _ _ _ HK).
Qed.

Lemma wp_hash_get k f h e g (Q : option bytes -> view -> Prop) : K g !! k = Some (AHash h, e) -> Q (h !! f) g ->
  wp t (on_hash k (fun h => HashValue.get h f)) g Q.
Proof.
  intros HK HQ. eapply wp_on_hash; [exact HK|]. intros hv Hh. destruct (HashValue.get_holds hv h f Hh) as (hv' & Hs & Hh' & _).
  eexists hv', _, _. split; [exact Hs|]. split; [exact Hh'|]. by rewrite (update_id k _ _ _ HK).
Qed.

Lemma wp_hash_set k f v h e g (Q : bool -> view -> Prop) : K g !! k = Some (AHash h, e) -> Listpack.storable v ->
  Q (negb (is_some (h !! f))) (update k (AHash (<[f := v]> h)) g) -> wp t (on_hash k (fun h => HashValue.set h f v)) g Q.
Proof.
  intros HK Hv HQ. eapply wp_on_hash; [exact HK|]. intros hv Hh. destruct (HashValue.hash_set_holds hv h f v Hh Hv) as (hv' & Hs & Hh' & _).
  by eexists hv', _, _.
Qed.

Lemma hsetnx_ok : meets t (hsetnx (ops:=ops) rq) (spec_hsetnx rq).
Proof.
  start Hs. finish Hs. unfold hsetnx. wp_run. apply wp_lookupOrCreate; [done|]. cases b; wp_run; try reflexivity.
  - eapply wp_contains; [exact HK|]. destruct (h !! b0) as [x|] eqn:Hf; wp_run.
    + eapply wp_deleteIfEmpty; [exact HK|done|]. cbn [acount]. replace (size h =? 0)%nat with false; [wp_run; reflexivity|].
      symmetry. apply Nat.eqb_neq. intros Hz. apply map_size_empty_inv in Hz. by subst h.
    + eapply wp_hash_set; [exact HK|by eapply arg_storable|]. wp_run. put_now HK.
  - eapply wp_contains; [apply lookup_insert_eq|]. rewrite lookup_empty. wp_run.
    eapply wp_hash_set; [apply lookup_insert_eq|by eapply arg_storable|]. wp_run. fresh_now.
Qed.

Lemma hget_ok : meets t (hget (ops:=ops) rq) (spec_hget rq).
Proof.
  start Hs. finish Hs. unfold hget. wp_run. apply wp_lookupTypedRead. cases b; wp_run; try reflexivity.
  eapply wp_hash_get; [exact HK|]. wp_run. apply wp_bulk_or_null. reflexivity.
Qed.

Lemma hmget_ok : meets t (hmget (ops:=ops) rq) (spec_hmget rq).
Proof.
  start Hs. finish Hs. unfold hmget. wp_run. apply wp_lookupTypedRead. cases b; wp_run; try reflexivity.
  - eapply get_fields_ok; [exact HK|]. done.
  - apply get_fields_none. done.
Qed.

Lemma hlen_ok : meets t (hlen (ops:=ops) rq) (spec_hlen rq).
Proof.
  start Hs. finish Hs. unfold hlen. wp_run. apply wp_lookupTypedRead. cases b; wp_run; try reflexivity.
  eapply wp_the_hash; [exact HK|]. intros hv Hh. rewrite (HashValue.hash_size_holds hv h Hh). wp_run. reflexivity.
Qed.

Lemma hexists_ok : meets t (hexists (ops:=ops) rq) (spec_hexists rq).
Proof.
  start Hs. finish Hs. unfold hexists. wp_run. apply wp_lookupTypedRead. cases b; wp_run; try reflexivity.
  eapply wp_contains; [exact HK|]. wp_run. reflexivity.
Qed.

Lemma hstrlen_ok : meets t (hstrlen (ops:=ops) rq) (spec_hstrlen rq).
Proof.
  start Hs. finish Hs. unfold hstrlen. wp_run. apply wp_lookupTypedRead. cases b; wp_run; try reflexivity.
  eapply wp_hash_get; [exact HK|]. wp_run. reflexivity.
Qed.

Lemma fields_holds (hv : HashValue.t D) h : HashValue.holds hv h ->
  exists ps, ps ≡ₚ map_to_list h /\ HashValue.flatten hv = HashValue.flat ps /\ HashValue.fields hv = ps.*1 /\ HashValue.values hv = ps.*2 /\
    length (HashValue.flatten hv) = (length ps * 2)%nat.
Proof.
  intros Hh. destruct (HashValue.flatten_holds hv h Hh) as (ps & Hf & Hp). exists ps. unfold HashValue.fields, HashValue.values. rewrite Hf.
  split; [done|]. split; [done|]. clear. induction ps as [|[f v] ps (IH1 & IH2 & IH3)]; [done|]. cbn in *.
  split_and!; [by f_equal| |lia]. destruct (HashValue.flat ps) eqn:E; [destruct ps as [|[]]; done|]. by f_equal.
Qed.

Lemma hkeys_ok : meets t (hkeys (ops:=ops) rq) (spec_hkeys rq).
Proof.
  start Hs. unfold hkeys. wp_run. apply wp_lookupTypedRead. cases b; wp_run; try (injection Hs as <-; by eexists).
  eapply wp_the_hash; [exact HK|]. intros hv Hh. wp_run. destruct (fields_holds hv h Hh) as (ps & Hp & _ & -> & _). injection Hs as <-. eexists. by split; [exists ps|].
Qed.

Lemma hvals_ok : meets t (hvals (ops:=ops) rq) (spec_hvals rq).
Proof.
  start Hs. unfold hvals. wp_run. apply wp_lookupTypedRead. cases b; wp_run; try (injection Hs as <-; by eexists).
  eapply wp_the_hash; [exact HK|]. intros hv Hh. wp_run. destruct (fields_holds hv h Hh) as (ps & Hp & _ & _ & -> & _). injection Hs as <-. eexists. by split; [exists ps|].
Qed.

Lemma hgetall_ok : meets t (hgetall (ops:=ops) rq) (spec_hgetall rq).
Proof.
  start Hs. unfold hgetall. wp_run. apply wp_lookupTypedRead. cases b; wp_run; try (injection Hs as <-; by eexists).
  eapply wp_the_hash; [exact HK|]. intros hv Hh. wp_run. destruct (fields_holds hv h Hh) as (ps & Hp & Hf & _ & _ & Hl). rewrite Hl, Hf, Nat.div_mul by done.
  apply wp_bulks. intros g' Hg'. injection Hs as <-. eexists. by split; [exists ps|].
Qed.

Lemma hdel_ok : meets t (hdel (ops:=ops) rq) (spec_hdel rq).
Proof.
  start Hs. finish Hs. unfold hdel. wp_run. apply wp_lookupTyped. cases b; wp_run; try reflexivity.
  eapply erase_fields_ok; [exact HK|]. cbv zeta. set (h' := foldl _ h _). rewrite Z.add_0_l. set (removed := _ - _).
  destruct (0 <? removed); wp_run; (eapply (wp_leave rq b (AHash h')); [by eapply update_lookup|done|]); intros g' Hg'; wp_run; apply same_say; rewrite Hg'.
  all: leave_now.
Qed.

Lemma to_string_storable n : is_i64 n -> Listpack.storable (to_string n).
Proof. intros Hn. pose proof (to_string_length n Hn). unfold Listpack.storable. lia. Qed.

(** What HINCRBY does to the hash it found or created. *)
Lemma hincrby_found k f delta h e g0 g : is_i64 delta -> K g !! k = Some (AHash h, e) -> argv rq !! 2%nat = Some f ->
  (forall h', same (update k (AHash h') g) (put k (AHash h') e g0)) ->
  (h !! f = None \/ same g g0) ->
  wp t (hincrby_with (ops:=ops) rq k delta) g
    (fun _ g1 => same g1
       match (match h !! f with Some s => stringToInt64 s | None => Some 0 end) with
       | None => refuse (str "ERR hash value is not an integer") g0
       | Some n =>
           if (n + delta <? StringCommands.int64_min) || (StringCommands.int64_max <? n + delta)
           then refuse (str "ERR increment or decrement would overflow") g0
           else say (Reply.integer (n + delta)) (tell rq Notify.kHash "hincrby" k
                  (mark 1 (put k (AHash (<[f := to_string (n + delta)]> h)) e g0)))
       end).
Proof.
  intros Hd HK Harg Hput Hor. unfold hincrby_with. wp_run. eapply wp_hash_get; [exact HK|].
  assert (forall n, is_i64 n -> (n + delta <? StringCommands.int64_min) || (StringCommands.int64_max <? n + delta) = false ->
    wp t (result ← checked (n + delta); hincrby_store (ops:=ops) rq k f result) g
      (fun _ g1 => same g1 (say (Reply.integer (n + delta)) (tell rq Notify.kHash "hincrby" k
                  (mark 1 (put k (AHash (<[f := to_string (n + delta)]> h)) e g0)))))) as Hset.
  { intros n Hn Hr. apply StringCommands.in_range_sum in Hr. wp_run. apply wp_checked; [done|]. unfold hincrby_store. wp_run.
    eapply wp_hash_set; [exact HK|by apply to_string_storable|]. wp_run. by apply same_say, same_tell, same_mark. }
  assert (forall msg, h !! f <> None -> wp t (_ ← error msg; deleteIfEmpty (ops:=ops) rq k) g (fun _ g1 => same g1 (refuse msg g0))) as Herr.
  { intros msg Hne. wp_run. eapply wp_deleteIfEmpty; [exact HK|done|]. destruct Hor as [?|Hg]; [done|]. cbn [acount].
    replace (size h =? 0)%nat with false; [by apply same_say|]. symmetry. apply Nat.eqb_neq. intros Hz. apply map_size_empty_inv in Hz. by subst h. }
  destruct (h !! f) as [s|] eqn:Hf.
  - destruct (stringToInt64 s) as [n|] eqn:Hs; [|by apply Herr]. apply stringToInt64_sound in Hs as [Hn _].
    rewrite StringCommands.would_overflow_spec by done. destruct (_ || _) eqn:Ho; [by apply Herr|by apply Hset].
  - rewrite StringCommands.would_overflow_spec by done. unfold StringCommands.int64_min, StringCommands.int64_max, s_range in *. cbn in Hd.
    destruct (_ || _) eqn:Ho; [bools; lia|by apply Hset].
Qed.

Lemma hincrby_ok : meets t (hincrby (ops:=ops) rq) (spec_hincrby rq).
Proof.
  start Hs. unfold hincrby. wp_run. destruct (stringToInt64 b1) as [delta|] eqn:Hd; [|finish Hs; wp_run; reflexivity]. finish Hs.
  apply stringToInt64_sound in Hd as [Hd _]. wp_run. apply wp_lookupOrCreate; [done|]. cases b; wp_run; try reflexivity.
  - eapply hincrby_found; [done|exact HK|done| |by right]. intros h'. put_now HK.
  - eapply hincrby_found; [done|apply lookup_insert_eq|done| |left; apply lookup_empty]. intros h'. fresh_now.
Qed.

(** Which positions are picked. *)
Definition chosen_ok (count : Z) (n : nat) (js : list nat) : Prop :=
  Forall (fun i => (i < n)%nat) js /\
  (if count <? 0 then Z.of_nat (length js) = - count else NoDup js /\ Z.of_nat (length js) = Z.min count (Z.of_nat n)).

Lemma wp_choose rnd count n g (Q : list nat -> view -> Prop) : (0 < n)%nat -> is_i64 count -> count <> StringCommands.int64_min ->
  (forall js, chosen_ok count n js -> Q js g) -> wp t (choose (D:=D) rnd count n) g Q.
Proof.
  intros Hn Hc Hmin HQ. unfold choose, chosen_ok, StringCommands.int64_min, s_range in *. cbn in Hc. destruct (Z.ltb_spec count 0).
  - wp_run. apply wp_checked; [unfold s_range; cbn; lia|]. wp_run. apply HQ. destruct (picks_ok (Z.to_nat (- count)) 0 rnd n Hn) as [Hl Hf]. rewrite Hl. split; [done|lia].
  - wp_run. apply HQ. pose proof (shuffle_perm rnd (seq 0 n)) as Hp. assert (length (shuffle rnd (seq 0 n)) = n) as Hl by (by rewrite Hp, length_seq).
    split; [apply Forall_take; rewrite Hp; apply Forall_seq; lia|]. split; [|rewrite length_take, Hl; lia].
    eapply sublist_NoDup; [|apply sublist_take]. rewrite Hp. apply NoDup_seq.
Qed.

Lemma flat_lookup (ps : list (bytes * bytes)) i p : ps !! i = Some p ->
  HashValue.flat ps !! (i * 2)%nat = Some p.1 /\ HashValue.flat ps !! (i * 2 + 1)%nat = Some p.2.
Proof. revert i. induction ps as [|[f v] ps IH]; intros [|i] H; simplify_eq/=; [done|]. by apply IH. Qed.

Lemma emit_picks_ok ps w js xs g (Q : unit -> view -> Prop) : Forall2 (fun i p => ps !! i = Some p) js xs ->
  (forall g', same g' (say (concat (map (fun p : bytes * bytes => Reply.bulk p.1 ++ (if w : bool then Reply.bulk p.2 else [])) xs)) g) -> Q tt g') ->
  wp t (emit_picks (D:=D) (HashValue.flat ps) w js) g Q.
Proof.
  intros H. revert g. induction H as [|i p js xs Hi _ IH]; intros g HQ; cbn [emit_picks map concat] in *.
  { apply wp_ret, HQ. by rewrite say_nil. }
  destruct (flat_lookup ps i p Hi) as [H1 H2]. apply wp_bind, (wp_lift _ _ _ _ _ H1). wp_run.
  destruct w; wp_run.
  - apply (wp_lift _ _ _ _ _ H2). wp_run. apply IH. intros g' Hg'. apply HQ. rewrite Hg'. etransitivity; [apply same_say, say_say|]. by rewrite say_say.
  - apply IH. intros g' Hg'. apply HQ. by rewrite Hg', say_say, app_nil_r.
Qed.

Lemma rand_options_count flag count w : rand_options rq flag = StringCommands.Parsed (Some (count, w)) -> is_i64 count.
Proof.
  unfold rand_options. destruct (drop 2 (argv rq)) as [|c rest]; [done|]. destruct (stringToInt64 c) as [n|] eqn:Hn; [|done].
  apply stringToInt64_sound in Hn as [Hn _]. destruct rest; [by intros [= <- _]|]. case_if; [done|]. by intros [= <- _].
Qed.

Lemma hrandfield_ok : meets t (hrandfield (ops:=ops) rq) (spec_hrandfield rq).
Proof.
  start Hs. unfold hrandfield. wp_run. apply wp_lookupTypedRead. cases b; wp_run; try (injection Hs as <-; by eexists).
  2: destruct (rand_options rq "WITHVALUES") as [o|msg]; finish Hs; wp_run; [|reflexivity]; cbn [Nat.eqb]; destruct o; wp_run; reflexivity.
  destruct (rand_options rq "WITHVALUES") as [o|msg] eqn:Ho; [|finish Hs; wp_run; reflexivity].
  wp_run. eapply wp_the_hash; [exact HK|]. intros hv0 Hh0. wp_run. rewrite (HashValue.hash_size_holds hv0 h Hh0).
  destruct (size h =? 0)%nat eqn:Hz; [finish Hs; destruct o; wp_run; reflexivity|]. apply Nat.eqb_neq in Hz.
  wp_run. eapply wp_the_hash; [exact HK|]. intros hv Hh. wp_run. destruct (fields_holds hv h Hh) as (ps & Hp & Hf & _ & _ & Hl).
  rewrite Hl, Nat.div_mul, Hf by done. assert (length ps = size h) as Hlen by (by rewrite Hp, length_map_to_list).
  assert (forall p, p ∈ ps -> h !! p.1 = Some p.2) as Hin by (intros [f v']; rewrite Hp; apply elem_of_map_to_list).
  assert (NoDup ps.*1) as Hnd by (rewrite Hp; apply NoDup_fst_map_to_list).
  destruct o as [[count w]|].
  - destruct (Z.eqb_spec count StringCommands.int64_min) as [->|Hmin]; [done|]. injection Hs as <-. wp_run.
    apply wp_choose; [lia|by eapply rand_options_count|done|]. intros js (Hr & Hcount).
    destruct (select_ok ps js Hr) as (xs & Hxs). wp_run. apply (emit_picks_ok ps w js xs); [done|]. intros g' Hg'.
    pose proof (Forall2_length _ _ _ Hxs) as Hjx. exists (say (picked w xs) g).
    split; [exists xs; split_and!; [| |reflexivity]|by rewrite Hg', say_say; unfold picked; rewrite <- Hjx].
    + intros p (j & Hj)%list_elem_of_lookup. destruct (Forall2_lookup_r _ _ _ _ _ Hxs Hj) as (i' & _ & Hi'). apply Hin. by eapply list_elem_of_lookup_2.
    + rewrite <- Hjx. destruct (count <? 0); [done|]. destruct Hcount as [Hnj Hc]. split; [by eapply select_nodup|]. by rewrite Hc, Hlen.
  - injection Hs as <-. destruct (lookup_lt_is_Some_2 ps (Z.to_nat (r 0%nat 0%nat 0%nat mod Z.of_nat (length ps)))) as [p Hpi].
    { pose proof (Z.mod_pos_bound (r 0%nat 0%nat 0%nat) (Z.of_nat (length ps)) ltac:(lia)). lia. }
    apply wp_bind, (wp_lift _ _ _ _ _ (proj1 (flat_lookup _ _ _ Hpi))). wp_run. eexists. split; [exists p; split; [|reflexivity]|reflexivity].
    apply Hin. by eapply list_elem_of_lookup_2.
Qed.

Definition commands : list (string * M D unit * spec) :=
  [ ("hset", hset rq, spec_hset rq); ("hmset", hmset rq, spec_hmset rq); ("hsetnx", hsetnx rq, spec_hsetnx rq);
    ("hget", hget rq, spec_hget rq); ("hmget", hmget rq, spec_hmget rq); ("hdel", hdel rq, spec_hdel rq);
    ("hlen", hlen rq, spec_hlen rq); ("hexists", hexists rq, spec_hexists rq); ("hstrlen", hstrlen rq, spec_hstrlen rq);
    ("hkeys", hkeys rq, spec_hkeys rq); ("hvals", hvals rq, spec_hvals rq); ("hgetall", hgetall rq, spec_hgetall rq);
    ("hincrby", hincrby rq, spec_hincrby rq); ("hrandfield", hrandfield rq, spec_hrandfield rq) ]%string.

#[local] Hint Resolve hset_ok hmset_ok hsetnx_ok hget_ok hmget_ok hdel_ok hlen_ok hexists_ok hstrlen_ok hkeys_ok hvals_ok hgetall_ok hincrby_ok
  hrandfield_ok : mnemos.

Lemma hash_commands_ok : Forall (fun '(n, h, sp) => meets t h sp) commands.
Proof. unfold commands. repeat (apply Forall_cons; split; [eauto with mnemos|]). by apply Forall_nil. Qed.

End Refinement.
End HashCommands.
