(* ===== verification/ListCommands.v ===== *)
(** * ListCommands: the commands on lists

    [src/server/commands/list_commands.cpp] and its refinement of operations
    on sequences. *)

From Stdlib Require Import ZArith Lia.
Set Warnings "-register-all".
From stdpp Require Import base list numbers gmap option strings.
From S2P Require Import Prelude Encoding Strings Listpack MapSpec Dict HashValue ZSetValue SetValue ListValue Db Object Reply Notify CommandTable Command Keyspace StringCommands HashCommands.
Import Command Keyspace.Keyspace.

Module ListCommands.

Section Handlers.
Context {D : Type -> Type} {ops : MapOps D} (rq : request).
Abbreviation handler := (M D unit).

Definition is_token (t : bytes) (name : string) : bool := equalsIgnoreCase t (str name).

Definition push_one (key : bytes) (at_front : bool) (item : bytes) : handler :=
  on_list key (fun l => Some (if at_front then ListValue.pushFront l item else ListValue.pushBack l item, tt)).

Fixpoint push_all (key : bytes) (at_front : bool) (items : list bytes) : handler :=
  match items with
  | [] => mret tt
  | item :: items => _ ← push_one key at_front item; push_all key at_front items
  end.

Definition list_size (key : bytes) : M D Z := l ← the_list key; mret (i64 (Z.of_nat (ListValue.size l))).

Definition pushGeneric (at_front require_existing : bool) : handler :=
  key ← arg rq 1;
  value ← (if require_existing then lookupTyped rq key OList else lookupOrCreate rq key OList);
  match value with
  | TypeError => mret tt
  | Missing => integer 0
  | Found _ =>
      _ ← push_all key at_front (drop 2 (argv rq));
      _ ← markDirty (Z.of_nat (argc rq - 2));
      _ ← notify rq Notify.kList (if at_front then "lpush" else "rpush") key;
      n ← list_size key;
      integer n
  end.

Definition pop_one (key : bytes) (from_front : bool) : M D (option bytes) :=
  on_list key (fun l => Some (if from_front then ListValue.popFront l else ListValue.popBack l)).

(** [for (i = 0; i < count; ++i)] with a [break] when the list is empty, which
    happens within one turn more than there are elements. *)
Fixpoint pop_loop (fuel : nat) (key : bytes) (from_front : bool) (count : Z) (popped : list bytes) : M D (list bytes) :=
  if count <=? 0 then mret popped
  else
    match fuel with
    | O => lift None
    | S fuel =>
        item ← pop_one key from_front;
        match item with
        | None => mret popped
        | Some item => pop_loop fuel key from_front (count - 1) (popped ++ [item])
        end
    end.

(** [LPOP key [count]]: [None] when no count was given. *)
Definition pop_count : StringCommands.parsed (option Z) :=
  match argv rq !! 2%nat with
  | None => StringCommands.Parsed None
  | Some text =>
      match stringToInt64 text with
      | None => StringCommands.Refused StringCommands.not_an_integer
      | Some count =>
          if count <? 0 then StringCommands.Refused (str "ERR value is out of range, must be positive")
          else StringCommands.Parsed (Some count)
      end
  end.

Definition popGeneric (from_front : bool) : handler :=
  key ← arg rq 1;
  value ← lookupTyped rq key OList;
  match value with
  | TypeError => mret tt
  | _ =>
      match pop_count with
      | StringCommands.Refused msg => error msg
      | StringCommands.Parsed count =>
          match value with
          | Found _ =>
              l ← the_list key;
              popped ← pop_loop (S (ListValue.size l)) key from_front (default 1 count) [];
              _ ← (if (length popped =? 0)%nat then mret tt
                   else
                     _ ← markDirty (Z.of_nat (length popped));
                     notify rq Notify.kList (if from_front then "lpop" else "rpop") key);
              _ ← deleteIfEmpty rq key;
              match count, popped with
              | Some _, _ => bulkArray popped
              | None, [] => nullBulk rq
              | None, item :: _ => bulk item
              end
          | _ => match count with Some _ => nullArray rq | None => nullBulk rq end
          end
      end
  end.

Definition moveGeneric (source destination : bytes) (from_front to_front : bool) : handler :=
  src ← lookupTyped rq source OList;
  match src with
  | TypeError => mret tt
  | Missing => nullBulk rq
  | Found _ =>
      dst_existing ← lookupTyped rq destination OList;
      match dst_existing with
      | TypeError => mret tt
      | _ =>
          item ← pop_one source from_front;
          match item with
          | None => nullBulk rq
          | Some item =>
              dst ← lookupOrCreate rq destination OList;
              match dst with
              | Found _ =>
                  _ ← push_one destination to_front item;
                  _ ← notify rq Notify.kList (if to_front then "lpush" else "rpush") destination;
                  _ ← notify rq Notify.kList (if from_front then "lpop" else "rpop") source;
                  src_now ← lookupWrite rq source;
                  _ ← (if is_some src_now then deleteIfEmpty rq source else mret tt);
                  _ ← markDirty 1;
                  bulk item
              | _ => mret tt
              end
          end
      end
  end.

Definition lpush : handler := pushGeneric true false.
Definition rpush : handler := pushGeneric false false.
Definition lpushx : handler := pushGeneric true true.
Definition rpushx : handler := pushGeneric false true.
Definition lpop : handler := popGeneric true.
Definition rpop : handler := popGeneric false.

Definition llen : handler :=
  key ← arg rq 1;
  value ← lookupTypedRead rq key OList;
  match value with
  | TypeError => mret tt
  | Missing => integer 0
  | Found _ => n ← list_size key; integer n
  end.

(** Two integer arguments, from position [i]. *)
Definition two_integers (i : nat) : M D (option (Z * Z)) :=
  a ← arg rq i; b ← arg rq (S i);
  mret (a ← stringToInt64 a; b ← stringToInt64 b; Some (a, b)).

Definition lrange : handler :=
  bounds ← two_integers 2;
  match bounds with
  | None => notAnInteger
  | Some (start, stop) =>
      key ← arg rq 1;
      value ← lookupTypedRead rq key OList;
      match value with
      | TypeError => mret tt
      | Missing => arrayHeader 0
      | Found _ => l ← the_list key; bulkArray (ListValue.range l start stop)
      end
  end.

Definition lindex : handler :=
  text ← arg rq 2;
  match stringToInt64 text with
  | None => notAnInteger
  | Some index =>
      key ← arg rq 1;
      value ← lookupTypedRead rq key OList;
      match value with
      | TypeError => mret tt
      | Missing => nullBulk rq
      | Found _ => l ← the_list key; bulk_or_null rq (ListValue.at_ l index)
      end
  end.

Definition lset : handler :=
  text ← arg rq 2;
  match stringToInt64 text with
  | None => notAnInteger
  | Some index =>
      key ← arg rq 1;
      value ← lookupTyped rq key OList;
      match value with
      | TypeError => mret tt
      | Missing => error (str "ERR no such key")
      | Found _ =>
          item ← arg rq 3;
          done ← on_list key (fun l => Some (ListValue.set l index item));
          if negb done then error (str "ERR index out of range")
          else
            _ ← markDirty 1;
            _ ← notify rq Notify.kList "lset" key;
            ok
      end
  end.

Definition lrem : handler :=
  text ← arg rq 2;
  match stringToInt64 text with
  | None => notAnInteger
  | Some count =>
      key ← arg rq 1;
      value ← lookupTyped rq key OList;
      match value with
      | TypeError => mret tt
      | Missing => integer 0
      | Found _ =>
          item ← arg rq 3;
          removed ← on_list key (fun l => Some (ListValue.removeValue l item count));
          _ ← (if 0 <? removed then _ ← markDirty removed; notify rq Notify.kList "lrem" key else mret tt);
          _ ← deleteIfEmpty rq key;
          integer removed
      end
  end.

Definition ltrim : handler :=
  bounds ← two_integers 2;
  match bounds with
  | None => notAnInteger
  | Some (start, stop) =>
      key ← arg rq 1;
      value ← lookupTyped rq key OList;
      match value with
      | TypeError => mret tt
      | Missing => ok
      | Found _ =>
          _ ← on_list key (fun l => Some (ListValue.trim l start stop, tt));
          _ ← markDirty 1;
          _ ← notify rq Notify.kList "ltrim" key;
          _ ← deleteIfEmpty rq key;
          ok
      end
  end.

Definition rank_zero : bytes :=
  str "ERR RANK can't be zero. Use 1 to start searching from the first matching element in the head of the list or a negative rank to start searching from the tail. A rank larger than the list size is also acceptable.".

(** The option loop of [lpos]: RANK and COUNT. *)
Fixpoint lpos_options (fuel : nat) (tokens : list bytes) (rank count : Z) : option (StringCommands.parsed (Z * Z)) :=
  match fuel, tokens with
  | O, _ => None
  | _, [] => Some (StringCommands.Parsed (rank, count))
  | S fuel, token :: rest =>
      match rest with
      | text :: rest' =>
          if is_token token "RANK" then
            match stringToInt64 text with
            | Some rank => if rank =? 0 then Some (StringCommands.Refused rank_zero) else lpos_options fuel rest' rank count
            | None => Some (StringCommands.Refused rank_zero)
            end
          else if is_token token "COUNT" then
            match stringToInt64 text with
            | Some count =>
                if count <? 0 then Some (StringCommands.Refused (str "ERR COUNT can't be negative"))
                else lpos_options fuel rest' rank count
            | None => Some (StringCommands.Refused (str "ERR COUNT can't be negative"))
            end
          else Some (StringCommands.Refused StringCommands.syntax_error)
      | [] => Some (StringCommands.Refused StringCommands.syntax_error)
      end
  end.

(** The search loops: [items] with their indices in the order visited, [rank]
    positive; [wanted] is [None] when a single match is asked for. *)
Fixpoint lpos_loop (items : list (Z * bytes)) (target : bytes) (rank skipped : Z) (wanted : option Z) (matches : list Z) : list Z :=
  match items with
  | [] => matches
  | (i, item) :: items =>
      if negb (item =b? target) then lpos_loop items target rank skipped wanted matches
      else if skipped + 1 <? rank then lpos_loop items target rank (skipped + 1) wanted matches
      else
        let matches := matches ++ [i] in
        match wanted with
        | Some n => if n <=? Z.of_nat (length matches) then matches else lpos_loop items target rank (skipped + 1) wanted matches
        | None => matches
        end
  end.

Definition indexed (items : list bytes) : list (Z * bytes) := imap (fun i x => (Z.of_nat i, x)) items.

Fixpoint integers (l : list Z) : handler :=
  match l with [] => mret tt | n :: l => _ ← integer n; integers l end.

Definition lpos : handler :=
  key ← arg rq 1;
  value ← lookupTypedRead rq key OList;
  match value with
  | TypeError => mret tt
  | _ =>
      o ← lift (lpos_options (S (argc rq)) (drop 3 (argv rq)) 1 (-1));
      match o with
      | StringCommands.Refused msg => error msg
      | StringCommands.Parsed (rank, count) =>
          let want_multiple := 0 <=? count in
          match value with
          | Found _ =>
              target ← arg rq 2;
              l ← the_list key;
              let items := ListValue.range l 0 (-1) in
              let wanted := if want_multiple then Some (if count =? 0 then Z.of_nat (length items) else count) else None in
              matches ← (if 0 <? rank then mret (lpos_loop (indexed items) target rank 0 wanted [])
                         else rank ← checked (- rank); mret (lpos_loop (rev (indexed items)) target rank 0 wanted []));
              if want_multiple then
                _ ← arrayHeader (Z.of_nat (length matches));
                integers matches
              else
                match matches with
                | [] => nullBulk rq
                | m :: _ => integer m
                end
          | _ => if want_multiple then arrayHeader 0 else nullBulk rq
          end
      end
  end.

Definition rpoplpush : handler :=
  source ← arg rq 1; destination ← arg rq 2;
  moveGeneric source destination false true.

Definition lmove : handler :=
  a ← arg rq 3; b ← arg rq 4;
  let from_front := is_token a "LEFT" in
  let to_front := is_token b "LEFT" in
  if (negb from_front && negb (is_token a "RIGHT")) || (negb to_front && negb (is_token b "RIGHT")) then syntaxError
  else
    source ← arg rq 1; destination ← arg rq 2;
    moveGeneric source destination from_front to_front.

End Handlers.

(** ** Specifications *)

Section Specs.
Context (rq : request).
Implicit Types (g : view) (k : bytes) (l : list bytes) (front : bool).
Abbreviation null := (Keyspace.null rq).
Abbreviation null_or := (Keyspace.null_or rq).
Abbreviation tell := (Keyspace.tell rq).
Abbreviation keymiss := (Keyspace.keymiss rq).

Definition with_list k g (absent : option (view -> Prop)) (f : list bytes -> option Z -> option (view -> Prop)) : option (view -> Prop) :=
  match K g !! k with None => absent | Some (AList l, e) => f l e | Some _ => exactly (say wrong_type g) end.

Definition pushed front l (item : bytes) : list bytes := if front then item :: l else l ++ [item].

(** Pushing one by one at the head reverses the arguments. *)
Definition pushed_all front l (items : list bytes) : list bytes := if front then rev items ++ l else l ++ items.

Definition spec_push (front require_existing : bool) : spec := fun g =>
  k ← argv rq !! 1%nat;
  let push l e :=
    let l' := pushed_all front l (drop 2 (argv rq)) in
    exactly (say (Reply.integer (i64 (Z.of_nat (length l')))) (tell Notify.kList (if front then "lpush" else "rpush") k
      (mark (Z.of_nat (argc rq - 2)) (put k (AList l') e g)))) in
  with_list k g (if require_existing then exactly (say (Reply.integer 0) g) else push [] None) push.

(** What popping [n] times yields and leaves. *)
Definition popped_of front l (n : nat) : list bytes := take n (if front then l else rev l).
Definition left_of front l (n : nat) : list bytes := if front then drop n l else rev (drop n (rev l)).

Definition spec_pop front : spec := fun g =>
  k ← argv rq !! 1%nat;
  let refused msg := exactly (refuse msg g) in
  with_list k g
    (match pop_count rq with
     | StringCommands.Refused msg => refused msg
     | StringCommands.Parsed c => exactly (say (if is_some c then Reply.nullArray (protover rq) else null) g)
     end)
    (fun l e =>
       match pop_count rq with
       | StringCommands.Refused msg => refused msg
       | StringCommands.Parsed c =>
           let n := Z.to_nat (default 1 c) in
           let items := popped_of front l n in
           let g := if (length items =? 0)%nat then g
                    else tell Notify.kList (if front then "lpop" else "rpop") k (mark (Z.of_nat (length items)) g) in
           exactly (say (if is_some c then Reply.bulkArray items else null_or (head items)) (leave rq k (AList (left_of front l n)) e g))
       end).

Definition move_events (from_front to_front : bool) (src dst : bytes) g : view :=
  tell Notify.kList (if from_front then "lpop" else "rpop") src (tell Notify.kList (if to_front then "lpush" else "rpush") dst g).

(** One element goes from the end of one list to the end of another, which
    may be the same. *)
Definition spec_move (src dst : bytes) (from_front to_front : bool) : spec := fun g =>
  with_list src g (exactly (say null g)) (fun l e =>
    let move l2 e2 :=
      match head (if from_front then l else rev l) with
      | None => exactly (say null g)
      | Some item =>
          let rest := left_of from_front l 1 in
          exactly (say (Reply.bulk item) (mark 1
            (if decide (src = dst) then move_events from_front to_front src dst (put dst (AList (pushed to_front rest item)) e g)
             else leave rq src (AList rest) e (move_events from_front to_front src dst (put dst (AList (pushed to_front l2 item)) e2 g)))))
      end in
    with_list dst g (move [] None) move).

Definition spec_rpoplpush : spec := fun g =>
  src ← argv rq !! 1%nat; dst ← argv rq !! 2%nat; spec_move src dst false true g.

Definition spec_lmove : spec := fun g =>
  a ← argv rq !! 3%nat; b ← argv rq !! 4%nat;
  let from_front := is_token a "LEFT" in
  let to_front := is_token b "LEFT" in
  if (negb from_front && negb (is_token a "RIGHT")) || (negb to_front && negb (is_token b "RIGHT"))
  then exactly (refuse StringCommands.syntax_error g)
  else src ← argv rq !! 1%nat; dst ← argv rq !! 2%nat; spec_move src dst from_front to_front g.

Definition spec_llen : spec := fun g =>
  k ← argv rq !! 1%nat;
  with_list k g (exactly (say (Reply.integer 0) (keymiss k g))) (fun l _ => exactly (say (Reply.integer (i64 (Z.of_nat (length l)))) g)).

Definition integers_at (i : nat) (g : view) (f : Z -> Z -> option (view -> Prop)) : option (view -> Prop) :=
  a ← argv rq !! i; b ← argv rq !! (S i);
  match (a ← stringToInt64 a; b ← stringToInt64 b; Some (a, b)) with
  | None => exactly (refuse StringCommands.not_an_integer g)
  | Some (a, b) => f a b
  end.

Definition integer_at (i : nat) (g : view) (f : Z -> option (view -> Prop)) : option (view -> Prop) :=
  a ← argv rq !! i;
  match stringToInt64 a with None => exactly (refuse StringCommands.not_an_integer g) | Some a => f a end.

Definition spec_lrange : spec := fun g =>
  integers_at 2 g (fun start stop =>
    k ← argv rq !! 1%nat;
    with_list k g (exactly (say (Reply.arrayHeader 0) (keymiss k g)))
      (fun l _ => exactly (say (Reply.bulkArray (ListValue.spec_range l start stop)) g))).

Definition spec_lindex : spec := fun g =>
  integer_at 2 g (fun index =>
    k ← argv rq !! 1%nat;
    with_list k g (exactly (say null (keymiss k g)))
      (fun l _ => exactly (say (null_or (i ← ListValue.position (length l) index; l !! i)) g))).

Definition spec_lset : spec := fun g =>
  integer_at 2 g (fun index =>
    k ← argv rq !! 1%nat; item ← argv rq !! 3%nat;
    with_list k g (exactly (refuse (str "ERR no such key") g))
      (fun l e => exactly (match ListValue.position (length l) index with
                  | None => refuse (str "ERR index out of range") g
                  | Some i => say (Reply.simpleString (str "OK")) (tell Notify.kList "lset" k (mark 1 (put k (AList (<[i := item]> l)) e g)))
                  end))).

(** [std::abs] of the least integer is undefined. *)
Definition spec_lrem : spec := fun g =>
  integer_at 2 g (fun count =>
    k ← argv rq !! 1%nat; item ← argv rq !! 3%nat;
    with_list k g (exactly (say (Reply.integer 0) g))
      (fun l e =>
         if count =? StringCommands.int64_min then None
         else
           let removed := ListValue.spec_removed item count l in
           let g := if 0 <? removed then tell Notify.kList "lrem" k (mark removed g) else g in
           exactly (say (Reply.integer removed) (leave rq k (AList (ListValue.spec_remove item count l)) e g)))).

Definition spec_ltrim : spec := fun g =>
  integers_at 2 g (fun start stop =>
    k ← argv rq !! 1%nat;
    with_list k g (exactly (say (Reply.simpleString (str "OK")) g))
      (fun l e => exactly (say (Reply.simpleString (str "OK"))
         (leave rq k (AList (ListValue.spec_range l start stop)) e (tell Notify.kList "ltrim" k (mark 1 g)))))).

(** The indices at which [target] occurs, in the order they are visited. *)
Definition occurs (target : bytes) (items : list (Z * bytes)) : list Z := (filter (fun p => p.2 = target) items).*1.

Definition spec_lpos : spec := fun g =>
  k ← argv rq !! 1%nat; target ← argv rq !! 2%nat; o ← lpos_options (S (argc rq)) (drop 3 (argv rq)) 1 (-1);
  match o with
  | StringCommands.Refused msg =>
      with_list k g (exactly (refuse msg (keymiss k g))) (fun _ _ => exactly (refuse msg g))
  | StringCommands.Parsed (rank, count) =>
      let multiple := 0 <=? count in
      with_list k g
        (exactly (say (if multiple then Reply.arrayHeader 0 else null) (keymiss k g)))
        (fun l _ =>
           if rank =? StringCommands.int64_min then None
           else
             let found := drop (Z.to_nat (Z.abs rank) - 1) (occurs target (if 0 <? rank then indexed l else rev (indexed l))) in
             exactly (say (if multiple
               then let found := if count =? 0 then found else take (Z.to_nat count) found in
                    Reply.arrayHeader (Z.of_nat (length found)) ++ concat (map Reply.integer found)
               else match found with [] => null | i :: _ => Reply.integer i end) g))
  end.

End Specs.

(** ** Refinement *)

Lemma occurs_cons target i x items : occurs target ((i, x) :: items) = (if decide (x = target) then [i] else []) ++ occurs target items.
Proof. unfold occurs. rewrite filter_cons. cbn. by destruct (decide (x = target)). Qed.

(** The search loop finds the occurrences after the first [rank - 1]. *)
Lemma lpos_loop_ok items target rank skipped wanted matches :
  0 <= skipped -> match wanted with Some n => Z.of_nat (length matches) < n | None => True end ->
  lpos_loop items target rank skipped wanted matches =
    matches ++ take (match wanted with Some n => Z.to_nat (n - Z.of_nat (length matches)) | None => 1 end)
                    (drop (Z.to_nat (rank - 1 - skipped)) (occurs target items)).
Proof.
  revert skipped matches. induction items as [|[i x] items IH]; intros skipped matches Hs Hw; cbn [lpos_loop].
  { cbn. by rewrite drop_nil, take_nil, app_nil_r. }
  rewrite occurs_cons. case_bool_decide as Hx; cbn [negb]; [rewrite decide_True by done|rewrite decide_False by done; by apply IH].
  cbn [app]. destruct (Z.ltb_spec (skipped + 1) rank).
  { rewrite IH by (done || lia). replace (Z.to_nat (rank - 1 - skipped)) with (S (Z.to_nat (rank - 1 - (skipped + 1)))) by lia. done. }
  replace (Z.to_nat (rank - 1 - skipped)) with 0%nat by lia. cbn [drop]. destruct wanted as [n|]; [|done].
  destruct (Z.to_nat (n - Z.of_nat (length matches))) as [|m] eqn:Hm; [lia|]. cbn [take].
  destruct (Z.leb_spec n (Z.of_nat (length (matches ++ [i])))) as [Hn|Hn]; rewrite length_app in Hn; cbn [length] in Hn.
  - replace m with 0%nat by lia. done.
  - rewrite IH by (rewrite ?length_app; cbn [length]; lia). rewrite length_app. cbn [length].
    replace (Z.to_nat (rank - 1 - (skipped + 1))) with 0%nat by lia. rewrite <- app_assoc. cbn [drop app]. do 2 f_equal. f_equal. lia.
Qed.

Lemma left_of_S (front : bool) l n : left_of front (left_of front l 1) n = left_of front l (S n).
Proof. unfold left_of. destruct front; [by rewrite drop_drop|]. by rewrite rev_involutive, drop_drop. Qed.

Lemma popped_of_S (front : bool) l n x : head (if front then l else rev l) = Some x -> popped_of front l (S n) = x :: popped_of front (left_of front l 1) n.
Proof.
  unfold popped_of, left_of. destruct front; [destruct l; [done|intros [= ->]; cbn; by rewrite drop_0]|]. rewrite rev_involutive. destruct (rev l); [done|intros [= ->]; cbn; by rewrite drop_0].
Qed.

Lemma left_of_length (front : bool) l x : head (if front then l else rev l) = Some x -> length l = S (length (left_of front l 1)).
Proof.
  unfold left_of. destruct front; [by destruct l|]. rewrite length_rev, length_drop, length_rev. destruct l as [|y l] using rev_ind; [done|]. rewrite length_app. cbn [length]. lia.
Qed.

Section Refinement.
Context {D : Type -> Type} {ops : MapOps D} {laws : MapLaws D} (rq : request).
Implicit Types (g : view) (k : bytes) (l : list bytes) (front : bool).
Abbreviation t := (now rq).
(** Arguments are short enough for a listpack's length field. *)
Context (Hargs : Forall Listpack.storable (argv rq)).

Ltac start Hs := intros g P Hs; match type of Hs with ?sp _ = _ => let h := head_of sp in unfold h in Hs end; unfold integers_at, integer_at, with_list in Hs; args_in Hs.

Lemma wp_push_one k front item l e g (Q : unit -> view -> Prop) : K g !! k = Some (AList l, e) -> Listpack.storable item ->
  Q tt (update k (AList (pushed front l item)) g) -> wp t (push_one (ops:=ops) k front item) g Q.
Proof.
  intros HK Hi HQ. eapply wp_on_list; [exact HK|]. intros h Hh. eexists _, tt, _. split; [done|]. split; [|exact HQ].
  unfold pushed. destruct front; [by apply ListValue.pushFront_holds|by apply ListValue.pushBack_holds].
Qed.

Lemma push_all_ok k front items l e g (Q : unit -> view -> Prop) : K g !! k = Some (AList l, e) -> Forall Listpack.storable items ->
  Q tt (update k (AList (pushed_all front l items)) g) -> wp t (push_all (ops:=ops) k front items) g Q.
Proof.
  revert l g. induction items as [|x items IH]; intros l g HK Hst HQ; cbn [push_all].
  { apply wp_ret. unfold pushed_all in HQ. rewrite app_nil_r in HQ. cbn in HQ. destruct front; by rewrite (update_id k _ _ _ HK) in HQ. }
  inversion_clear Hst. wp_run. eapply wp_push_one; [exact HK|done|]. eapply IH; [by eapply update_lookup|done|]. rewrite update_update.
  revert HQ. unfold pushed_all, pushed. destruct front; cbn [rev]; by rewrite <- ?app_assoc.
Qed.

Lemma wp_pop_one k front l e g (Q : option bytes -> view -> Prop) : K g !! k = Some (AList l, e) ->
  (Forall Listpack.storable l -> Q (head (if front then l else rev l)) (update k (AList (left_of front l 1)) g)) -> wp t (pop_one (ops:=ops) k front) g Q.
Proof.
  intros HK HQ. eapply wp_on_list; [exact HK|]. intros h Hh. eexists _, _, _. rewrite <- surjective_pairing. split; [done|].
  assert ((if front then ListValue.popFront h else ListValue.popBack h).2 = head (if front then l else rev l) /\
          ListValue.holds (if front then ListValue.popFront h else ListValue.popBack h).1 (left_of front l 1)) as [-> Hh']; [|split; [exact Hh'|apply HQ, Hh]].
  unfold left_of. destruct front.
  - pose proof (ListValue.popFront_holds h l Hh) as Hp. destruct l; [rewrite Hp; done|exact Hp].
  - pose proof (ListValue.popBack_holds h l Hh) as Hp. destruct (rev l) eqn:E; [|exact Hp]. rewrite Hp. split; [done|].
    by rewrite <- (rev_involutive l), E in Hh.
Qed.

Lemma pop_loop_ok fuel k front count popped l e g (Q : list bytes -> view -> Prop) : (length l < fuel)%nat -> K g !! k = Some (AList l, e) ->
  Q (popped ++ popped_of front l (Z.to_nat count)) (update k (AList (left_of front l (Z.to_nat count))) g) ->
  wp t (pop_loop (ops:=ops) fuel k front count popped) g Q.
Proof.
  revert count popped l g. induction fuel as [|fuel IH]; intros count popped l g Hf HK HQ; [lia|]. cbn [pop_loop].
  destruct (Z.leb_spec count 0).
  { apply wp_ret. replace (Z.to_nat count) with 0%nat in HQ by lia. unfold popped_of, left_of in HQ. rewrite app_nil_r, !drop_0, rev_involutive in HQ.
    destruct front; by rewrite (update_id k _ _ _ HK) in HQ. }
  apply wp_bind. eapply wp_pop_one; [exact HK|]. intros _. replace (Z.to_nat count) with (S (Z.to_nat (count - 1))) in HQ by lia.
  destruct (head (if front then l else rev l)) as [x|] eqn:Hx.
  - pose proof (left_of_length front l x Hx). eapply IH; [|by eapply update_lookup|]; [lia|]. rewrite update_update, left_of_S, <- app_assoc.
    by rewrite (popped_of_S _ _ _ _ Hx) in HQ.
  - apply wp_ret. unfold popped_of, left_of in *. destruct front; [destruct l; [|done]|destruct (rev l); [|done]]; cbn in *; by rewrite app_nil_r in HQ.
Qed.

Lemma list_size_ok k l e g (Q : Z -> view -> Prop) : K g !! k = Some (AList l, e) -> Q (i64 (Z.of_nat (length l))) g -> wp t (list_size (ops:=ops) k) g Q.
Proof. intros HK HQ. unfold list_size. wp_run. eapply wp_the_list; [exact HK|]. intros h Hh. wp_run. by rewrite (ListValue.list_size_holds h l Hh). Qed.

Lemma pushGeneric_ok front existing : meets t (pushGeneric (ops:=ops) rq front existing) (spec_push rq front existing).
Proof.
  start Hs. unfold pushGeneric. pose proof (Forall_drop Listpack.storable 2 _ Hargs) as Hst. destruct existing; wp_run.
  - apply wp_lookupTyped. cases b; finish Hs; wp_run; try reflexivity. eapply push_all_ok; [exact HK|done|]. wp_run.
    eapply list_size_ok; [by eapply update_lookup|]. wp_run. put_now HK.
  - apply wp_lookupOrCreate; [done|]. cases b; finish Hs; wp_run; try reflexivity; (eapply push_all_ok; [first [exact HK|apply lookup_insert_eq]|done|]); wp_run;
      (eapply list_size_ok; [eapply update_lookup; first [exact HK|apply lookup_insert_eq]|]); wp_run; [put_now HK|fresh_now].
Qed.

Lemma popGeneric_ok front : meets t (popGeneric (ops:=ops) rq front) (spec_pop rq front).
Proof.
  start Hs. unfold popGeneric. wp_run. apply wp_lookupTyped.
  cases b; cbv beta iota; destruct (pop_count rq) as [c|msg]; finish Hs; wp_run; try reflexivity; [|destruct c; wp_run; reflexivity].
  eapply wp_the_list; [exact HK|]. intros h Hh. wp_run. rewrite (ListValue.list_size_holds h l Hh).
  eapply pop_loop_ok; [|exact HK|]; [lia|]. cbn [app]. generalize (popped_of front l (Z.to_nat (default 1 c))), (left_of front l (Z.to_nat (default 1 c))). intros items rest.
  destruct (length items =? 0)%nat; wp_run; (eapply (wp_leave rq b (AList rest)); [by eapply update_lookup|done|]); intros g' Hg';
    (destruct c; [|destruct items]; wp_run; apply same_say; rewrite Hg'; leave_now).
Qed.

Lemma llen_ok : meets t (llen (ops:=ops) rq) (spec_llen rq).
Proof.
  start Hs. unfold llen. wp_run. apply wp_lookupTypedRead. cases b; finish Hs; wp_run; try reflexivity.
  eapply list_size_ok; [exact HK|]. wp_run. reflexivity.
Qed.

Lemma two_integers_ok i a b g (Q : option (Z * Z) -> view -> Prop) : argv rq !! i = Some a -> argv rq !! S i = Some b ->
  Q (a ← stringToInt64 a; b ← stringToInt64 b; Some (a, b)) g -> wp t (two_integers (D:=D) rq i) g Q.
Proof. intros Ha Hb HQ. unfold two_integers. wp_run. exact HQ. Qed.

Lemma lrange_ok : meets t (lrange (ops:=ops) rq) (spec_lrange rq).
Proof.
  start Hs. unfold lrange. wp_run. eapply two_integers_ok; [done..|].
  destruct (a ← stringToInt64 b; _) as [[start stop]|]; [|finish Hs; wp_run; reflexivity]. args_in Hs.
  wp_run. apply wp_lookupTypedRead. cases b1; finish Hs; wp_run; try reflexivity.
  eapply wp_the_list; [exact HK|]. intros h Hh. wp_run. rewrite (ListValue.range_spec h l _ _ Hh). reflexivity.
Qed.

Lemma lindex_ok : meets t (lindex (ops:=ops) rq) (spec_lindex rq).
Proof.
  start Hs. unfold lindex. wp_run. destruct (stringToInt64 b) as [i|]; [|finish Hs; wp_run; reflexivity]. args_in Hs.
  wp_run. apply wp_lookupTypedRead. cases b0; finish Hs; wp_run; try reflexivity.
  eapply wp_the_list; [exact HK|]. intros h Hh. wp_run. rewrite (ListValue.at_holds h l _ Hh). apply wp_bulk_or_null. reflexivity.
Qed.

Lemma lset_ok : meets t (lset (ops:=ops) rq) (spec_lset rq).
Proof.
  start Hs. unfold lset. wp_run. destruct (stringToInt64 b) as [i|]; [|finish Hs; wp_run; reflexivity]. args_in Hs.
  wp_run. apply wp_lookupTyped. cases b0; finish Hs; wp_run; try reflexivity.
  assert (Listpack.storable b1) as Hst by (by eapply Forall_lookup_1 in Hargs).
  eapply wp_on_list; [exact HK|]. intros h Hh. pose proof (ListValue.list_set_holds h l i b1 Hh Hst) as Hl.
  destruct (ListValue.position (length l) i) as [j|].
  - eexists _, _, _. rewrite <- surjective_pairing. split; [done|]. destruct Hl as [-> Hl]. split; [exact Hl|]. wp_run. put_now HK.
  - exists h, false, l. rewrite Hl. split; [done|]. split; [done|]. wp_run. rewrite (update_id b0 _ e); [reflexivity|exact HK].
Qed.

Lemma lrem_ok : meets t (lrem (ops:=ops) rq) (spec_lrem rq).
Proof.
  start Hs. unfold lrem. wp_run. destruct (stringToInt64 b) as [i|]; [|finish Hs; wp_run; reflexivity]. args_in Hs.
  wp_run. apply wp_lookupTyped. cases b0; cbv beta iota; try (finish Hs; wp_run; reflexivity).
  destruct (i =? StringCommands.int64_min); [done|]. finish Hs. wp_run. eapply wp_on_list; [exact HK|]. intros h Hh.
  destruct (ListValue.removeValue_holds h l b1 i Hh) as [Hr Hl]. eexists _, _, _. rewrite <- surjective_pairing. split; [done|]. split; [exact Hl|]. rewrite Hr.
  destruct (0 <? ListValue.spec_removed b1 i l); wp_run; (eapply (wp_leave rq b0 (AList _)); [by eapply update_lookup|done|]);
    intros g' Hg'; wp_run; apply same_say; rewrite Hg'; leave_now.
Qed.

Lemma ltrim_ok : meets t (ltrim (ops:=ops) rq) (spec_ltrim rq).
Proof.
  start Hs. unfold ltrim. wp_run. eapply two_integers_ok; [done..|].
  destruct (a ← stringToInt64 b; _) as [[start stop]|]; [|finish Hs; wp_run; reflexivity]. args_in Hs.
  wp_run. apply wp_lookupTyped. cases b1; finish Hs; wp_run; try reflexivity.
  eapply wp_on_list; [exact HK|]. intros h Hh. eexists _, tt, _. split; [done|]. split; [apply (ListValue.trim_holds h l start stop Hh)|].
  rewrite (ListValue.range_spec h l _ _ Hh). wp_run. eapply (wp_leave rq b1 (AList _)); [by eapply update_lookup|done|].
  intros g' Hg'; wp_run; apply same_say; rewrite Hg'; leave_now.
Qed.

Lemma integers_ok ns g (Q : unit -> view -> Prop) :
  (forall g', same g' (say (concat (map Reply.integer ns)) g) -> Q tt g') -> wp t (integers (D:=D) ns) g Q.
Proof.
  revert g. induction ns as [|n ns IH]; intros g HQ; cbn [integers map concat] in *; [by apply wp_ret, HQ; rewrite say_nil|].
  wp_run. apply IH. intros g' Hg'. apply HQ. by rewrite Hg', say_say.
Qed.

(** What the two directions of the search find together. *)
Definition matches_of (rank count : Z) (target : bytes) l : list Z :=
  let found := drop (Z.to_nat (Z.abs rank) - 1) (occurs target (if 0 <? rank then indexed l else rev (indexed l))) in
  if 0 <=? count then (if count =? 0 then found else take (Z.to_nat count) found) else take 1 found.

Lemma occurs_length target items : (length (occurs target items) <= length items)%nat.
Proof. unfold occurs. rewrite length_fmap. apply length_filter. Qed.

Lemma matches_loop rank count target l : rank <> 0 ->
  lpos_loop (if 0 <? rank then indexed l else rev (indexed l)) target (Z.abs rank) 0
    (if 0 <=? count then Some (if count =? 0 then Z.of_nat (length l) else count) else None) [] = matches_of rank count target l.
Proof.
  intros Hr. unfold matches_of. set (items := if 0 <? rank then _ else _).
  assert (length items = length l) as Hl by (unfold items, indexed; case_if; rewrite ?length_rev, length_imap; done).
  destruct (decide (items = [])) as [E|Hne].
  { rewrite E. unfold occurs. cbn. rewrite drop_nil. repeat case_if; by rewrite ?take_nil. }
  destruct items as [|p items'] eqn:E; [done|]. rewrite <- E in *. assert (0 < length items)%nat by (rewrite E; cbn; lia).
  replace (Z.to_nat (Z.abs rank) - 1)%nat with (Z.to_nat (Z.abs rank - 1 - 0)) by lia.
  destruct (Z.leb_spec 0 count); [destruct (Z.eqb_spec count 0)|]; (rewrite lpos_loop_ok; [|lia|first [cbn; lia|done]]); cbn [app length].
  - apply take_ge. rewrite length_drop. pose proof (occurs_length target items). lia.
  - f_equal. lia.
  - done.
Qed.

Lemma lpos_options_rank fuel tokens rank count : forall rank' count', rank <> 0 /\ is_i64 rank ->
  lpos_options fuel tokens rank count = Some (StringCommands.Parsed (rank', count')) -> rank' <> 0 /\ is_i64 rank'.
Proof.
  revert tokens rank count. induction fuel as [|fuel IH]; intros tokens rank count rank' count' Hr H; [done|]. cbn [lpos_options] in H.
  destruct tokens as [|token [|text rest]]; [by simplify_eq|done|]. destruct (is_token token "RANK").
  { destruct (stringToInt64 text) as [n|] eqn:Hn; [|done]. apply stringToInt64_sound in Hn as [Hn _]. destruct (Z.eqb_spec n 0); [done|]. by eapply IH; [|exact H]. }
  destruct (is_token token "COUNT"); [|done]. destruct (stringToInt64 text) as [n|]; [|done]. destruct (n <? 0); [done|]. by eapply IH.
Qed.

Lemma lpos_ok : meets t (lpos (ops:=ops) rq) (spec_lpos rq).
Proof.
  start Hs. destruct (lpos_options _ _ _ _) as [o|] eqn:Ho; [|done]. cbn [mbind option_bind] in Hs. unfold lpos. rewrite Ho.
  destruct o as [[rank count]|msg].
  2: wp_run; apply wp_lookupTypedRead; cases b; finish Hs; wp_run; try reflexivity; apply (wp_lift _ _ _ _ _ eq_refl); wp_run; reflexivity.
  apply lpos_options_rank in Ho as [Hr0 Hr]; [|split; [done|unfold s_range; cbn; lia]].
  wp_run. apply wp_lookupTypedRead. cases b; cbv beta iota; try (finish Hs; wp_run; reflexivity).
  2: finish Hs; wp_run; apply (wp_lift _ _ _ _ _ eq_refl); wp_run; destruct (0 <=? count); wp_run; reflexivity.
  destruct (Z.eqb_spec rank StringCommands.int64_min) as [|Hmin]; [done|]. finish Hs. wp_run. apply (wp_lift _ _ _ _ _ eq_refl). wp_run.
  eapply wp_the_list; [exact HK|]. intros h Hh. wp_run. rewrite (ListValue.range_spec h l _ _ Hh).
  assert (ListValue.spec_range l 0 (-1) = l) as ->.
  { unfold ListValue.spec_range, ListValue.norm. cbn [Z.ltb Z.compare]. rewrite Z.max_id. change (Z.to_nat 0) with 0%nat. rewrite drop_0. apply take_ge. lia. }
  pose proof (matches_loop rank count b0 l Hr0) as Hm. unfold matches_of in Hm. unfold StringCommands.int64_min, s_range in *. cbn in Hr.
  destruct (Z.ltb_spec 0 rank).
  - rewrite Z.abs_eq in * by lia. wp_run. rewrite Hm. destruct (0 <=? count); wp_run.
    + apply integers_ok. intros g' Hg'. rewrite Hg', say_say. reflexivity.
    + destruct (drop _ _); cbn [take]; wp_run; reflexivity.
  - rewrite Z.abs_neq in * by lia. wp_run. apply wp_checked; [unfold s_range; cbn; lia|]. wp_run. rewrite Hm. destruct (0 <=? count); wp_run.
    + apply integers_ok. intros g' Hg'. rewrite Hg', say_say. reflexivity.
    + destruct (drop _ _); cbn [take]; wp_run; reflexivity.
Qed.

Lemma left_of_nil front l : head (if front then l else rev l) = None -> left_of front l 1 = l.
Proof. unfold left_of. destruct front; [by destruct l|]. intros H. destruct l as [|x l] using rev_ind; [done|]. by rewrite rev_unit in H. Qed.

(** The end of a move, once the element has been pushed: the source goes away
    if that was its last element. *)
Lemma move_tail k l e item g (Q : unit -> view -> Prop) : K g !! k = Some (AList l, e) ->
  (forall g', same g' (say (Reply.bulk item) (mark 1 (leave rq k (AList l) e g))) -> Q tt g') ->
  wp t (src_now ← lookupWrite rq k; _ ← (if is_some src_now then deleteIfEmpty rq k else mret tt); _ ← markDirty 1; bulk item) g Q.
Proof.
  intros HK HQ. wp_run. apply wp_lookupWrite. rewrite HK. intros v Hv. wp_run. eapply (wp_leave rq k (AList l)); [exact HK|done|].
  intros g' Hg'. wp_run. apply HQ, same_say, same_mark. rewrite Hg'. leave_now.
Qed.

Lemma pushed_nonempty front l x : acount (AList (pushed front l x)) <> 0%nat.
Proof. unfold pushed. destruct front; cbn; [done|]. rewrite length_app. cbn. lia. Qed.

Lemma head_storable front l x : Forall Listpack.storable l -> head (if front then l else rev l) = Some x -> Listpack.storable x.
Proof.
  intros Hst Hx. rewrite Forall_forall in Hst. apply Hst. destruct front; [destruct l; simplify_eq/=; left|].
  rewrite <- (rev_involutive l). apply list_elem_of_In, in_rev. rewrite rev_involutive. destruct (rev l); simplify_eq/=. by left.
Qed.

(** The second half of [moveGeneric], after the pop, with different keys. *)
Lemma move_push_other src dst front to_front rest l2 e e2 item g0 g (Q : unit -> view -> Prop) :
  src <> dst -> Listpack.storable item -> K g !! src = Some (AList rest, e) -> K g !! dst = Some (AList l2, e2) ->
  (forall l', same (put src (AList rest) e (update dst (AList l') g)) (put src (AList rest) e (put dst (AList l') e2 g0))) ->
  (forall g', same g' (say (Reply.bulk item) (mark 1 (leave rq src (AList rest) e
     (move_events rq front to_front src dst (put dst (AList (pushed to_front l2 item)) e2 g0))))) -> Q tt g') ->
  wp t (_ ← push_one (ops:=ops) dst to_front item;
        _ ← notify rq Notify.kList (if to_front then "lpush" else "rpush") dst;
        _ ← notify rq Notify.kList (if front then "lpop" else "rpop") src;
        src_now ← lookupWrite rq src;
        _ ← (if is_some src_now then deleteIfEmpty rq src else mret tt);
        _ ← markDirty 1; bulk item) g Q.
Proof.
  intros Hne Hi HK HK2 Hg0 HQ. wp_step. eapply wp_push_one; [exact HK2|done|]. do 2 (wp_step; wp_step). eapply (move_tail src rest e).
  { cbn. by rewrite lookup_alter_ne. }
  intros g' Hg'. apply HQ. rewrite Hg'. apply same_say, same_mark. specialize (Hg0 (pushed to_front l2 item)).
  apply same_fields in Hg0 as (HG & HKO & Ho & Hl & Hd & Hh & Hm). cbn in HG, HKO, Ho, Hl, Hd, Hh, Hm.
  unfold leave, move_events. case_if; apply view_same; cbn; try congruence.
  rewrite <- (delete_insert_eq _ src (AList rest, e)), HG. by rewrite delete_insert_eq.
Qed.

Lemma moveGeneric_ok src dst front to_front : meets t (moveGeneric (ops:=ops) rq src dst front to_front) (spec_move rq src dst front to_front).
Proof.
  intros g P Hs. unfold spec_move, with_list in Hs. unfold moveGeneric. wp_run. apply wp_lookupTyped.
  cases src; cbv beta iota; try (finish Hs; wp_run; reflexivity). rename l into items.
  wp_run. apply wp_lookupTyped. cbn [K settle]. destruct (decide (src = dst)) as [<-|Hne].
  - rewrite HK in Hs |- *. cbn. intros v' _. wp_run. eapply wp_pop_one; [exact HK|]. intros Hst.
    destruct (head (if front then items else rev items)) as [item|] eqn:Hhd.
    2: finish Hs; wp_run; rewrite (left_of_nil _ _ Hhd), (update_id src _ e) by exact HK; reflexivity.
    finish Hs. wp_run. apply wp_lookupOrCreate; [done|]. rewrite (update_lookup src _ _ e) by exact HK. cbn. intros v2 _. wp_step.
    eapply wp_push_one; [by eapply update_lookup|by eapply head_storable|]. do 2 (wp_step; wp_step). eapply move_tail; [cbn; by rewrite !lookup_alter_eq, HK|].
    intros g' Hg'. rewrite Hg'. unfold leave. rewrite (proj2 (Nat.eqb_neq _ _)) by apply pushed_nonempty.
    view_eq. by rewrite !insert_alter_same.
  - rename HK into HS, e into e1.
    cases dst; cbv beta iota; try (finish Hs; wp_run; reflexivity); wp_run; (eapply wp_pop_one; [exact HS|]); intros Hst;
      (destruct (head (if front then items else rev items)) as [item|] eqn:Hhd;
       [|finish Hs; wp_run; rewrite (left_of_nil _ _ Hhd), (update_id src _ e1) by exact HS; reflexivity]);
      finish Hs; wp_run; (apply wp_lookupOrCreate; [done|]); cbn [K update settle set_K]; rewrite lookup_alter_ne by done; rewrite HK; cbn; intros v2 _.
    + eapply move_push_other; [done|by eapply head_storable|cbn; by rewrite lookup_alter_eq, HS|cbn; by rewrite lookup_alter_ne, HK| |by intros ? ?].
      intros l'. view_eq. apply map_eq. intros j. destruct (decide (j = src)) as [->|]; [by rewrite !lookup_insert_eq|]. rewrite !(lookup_insert_ne _ src) by done.
      destruct (decide (j = dst)) as [->|]; [by rewrite lookup_alter_eq, lookup_alter_ne, HK, lookup_insert_eq|]. by rewrite !lookup_alter_ne, lookup_insert_ne.
    + eapply move_push_other; [done|by eapply head_storable|cbn; by rewrite lookup_insert_ne, lookup_alter_eq, HS|cbn; by rewrite lookup_insert_eq| |by intros ? ?].
      intros l'. view_eq. apply map_eq. intros j. destruct (decide (j = src)) as [->|]; [by rewrite !lookup_insert_eq|]. rewrite !(lookup_insert_ne _ src) by done.
      destruct (decide (j = dst)) as [->|]; [by rewrite lookup_alter_eq, !lookup_insert_eq|]. by rewrite lookup_alter_ne, !lookup_insert_ne, lookup_alter_ne.
Qed.

Lemma rpoplpush_ok : meets t (rpoplpush (ops:=ops) rq) (spec_rpoplpush rq).
Proof. start Hs. unfold rpoplpush. wp_run. by apply moveGeneric_ok. Qed.

Lemma lmove_ok : meets t (lmove (ops:=ops) rq) (spec_lmove rq).
Proof.
  start Hs. unfold lmove. wp_run. destruct (_ || _); [finish Hs; wp_run; reflexivity|]. args_in Hs. wp_run. by apply moveGeneric_ok.
Qed.

Definition commands : list (string * M D unit * spec) :=
  [ ("lpush", lpush rq, spec_push rq true false); ("rpush", rpush rq, spec_push rq false false); ("lpushx", lpushx rq, spec_push rq true true);
    ("rpushx", rpushx rq, spec_push rq false true); ("lpop", lpop rq, spec_pop rq true); ("rpop", rpop rq, spec_pop rq false);
    ("llen", llen rq, spec_llen rq); ("lrange", lrange rq, spec_lrange rq); ("lindex", lindex rq, spec_lindex rq); ("lset", lset rq, spec_lset rq);
    ("lrem", lrem rq, spec_lrem rq); ("ltrim", ltrim rq, spec_ltrim rq); ("lpos", lpos rq, spec_lpos rq);
    ("rpoplpush", rpoplpush rq, spec_rpoplpush rq); ("lmove", lmove rq, spec_lmove rq) ]%string.

#[local] Hint Resolve pushGeneric_ok popGeneric_ok llen_ok lrange_ok lindex_ok lset_ok lrem_ok ltrim_ok lpos_ok rpoplpush_ok lmove_ok : mnemos.

Lemma list_commands_ok : Forall (fun '(n, h, sp) => meets t h sp) commands.
Proof. unfold commands. repeat (apply Forall_cons; split; [eauto with mnemos|]). by apply Forall_nil. Qed.
End Refinement.
End ListCommands.
