(* ===== verification/SetCommands.v ===== *)
(** * SetCommands: the commands on sets

    [src/server/commands/set_commands.cpp], the multi-key set algebra
    included, and its refinement of operations on finite sets. *)

From Stdlib Require Import ZArith Lia.
Set Warnings "-register-all".
From stdpp Require Import base list numbers gmap option strings.
From S2P Require Import Prelude Encoding Strings Listpack MapSpec Dict HashValue ZSetValue SetValue ListValue Db Object Reply Notify CommandTable Command Keyspace StringCommands HashCommands.
Import Command Keyspace.Keyspace.

Module SetCommands.

Inductive SetOp := Intersect | Union | Difference.

(** ** The algebra on member lists *)

(** [std::min_element]: the first of the shortest. *)
Fixpoint min_element (sets : list (list bytes)) (i best best_size : nat) : nat :=
  match sets with
  | [] => best
  | set :: sets => if (length set <? best_size)%nat then min_element sets (S i) i (length set) else min_element sets (S i) best best_size
  end.

Definition smallest_index (sets : list (list bytes)) : nat :=
  match sets with [] => 0%nat | set :: sets => min_element sets 1 0 (length set) end.

(** [limit] is 0 for no limit. *)
Fixpoint intersect_loop (members : list bytes) (others : list (list bytes)) (limit : Z) (result : list bytes) : list bytes :=
  match members with
  | [] => result
  | member :: members =>
      if forallb (fun other => bool_decide (member ∈ other)) others then
        let result := result ++ [member] in
        if (0 <? limit) && (limit <=? Z.of_nat (length result)) then result else intersect_loop members others limit result
      else intersect_loop members others limit result
  end.

Fixpoint union_loop (members : list bytes) (seen : gset bytes) (result : list bytes) : gset bytes * list bytes :=
  match members with
  | [] => (seen, result)
  | member :: members =>
      if bool_decide (member ∈ seen) then union_loop members seen result
      else union_loop members ({[member]} ∪ seen) (result ++ [member])
  end.

Fixpoint union_sets (sets : list (list bytes)) (seen : gset bytes) (result : list bytes) : list bytes :=
  match sets with
  | [] => result
  | set :: sets => let '(seen, result) := union_loop set seen result in union_sets sets seen result
  end.

Fixpoint difference_loop (members : list bytes) (others : list (list bytes)) (result : list bytes) : list bytes :=
  match members with
  | [] => result
  | member :: members =>
      difference_loop members others
        (if existsb (fun other => bool_decide (member ∈ other)) others then result else result ++ [member])
  end.

Definition applySetOp (op : SetOp) (sets : list (list bytes)) (limit : Z) : list bytes :=
  match sets with
  | [] => []
  | first :: rest =>
      match op with
      | Intersect =>
          let smallest := smallest_index sets in
          intersect_loop (sets !!! smallest) (delete smallest sets) limit []
      | Union => union_sets sets ∅ []
      | Difference => difference_loop first rest []
      end
  end.

Definition storeEventName (op : SetOp) : string :=
  match op with Intersect => "sinterstore" | Union => "sunionstore" | Difference => "sdiffstore" end.

Section Handlers.
Context {D : Type -> Type} {ops : MapOps D} (rq : request).
Abbreviation handler := (M D unit).

(** The named keys in turn; [None] after a WRONGTYPE reply. *)
Fixpoint gather (keys : list bytes) (out : list (list bytes)) : M D (option (list (list bytes))) :=
  match keys with
  | [] => mret (Some out)
  | key :: keys =>
      value ← lookupTypedRead rq key OSet;
      match value with
      | TypeError => mret None
      | Missing => gather keys (out ++ [[]])
      | Found _ => s ← the_set key; gather keys (out ++ [SetValue.members s])
      end
  end.

(** [for (i = first; i <= last && i < argc(); ++i)] *)
Definition gatherSets (first last : nat) : M D (option (list (list bytes))) := gather (take (S last - first) (drop first (argv rq))) [].

Fixpoint add_members (key : bytes) (members : list bytes) (added : Z) : M D Z :=
  match members with
  | [] => mret added
  | member :: members =>
      fresh ← on_set key (fun s => SetValue.add s member);
      add_members key members (if fresh : bool then added + 1 else added)
  end.

Definition setOpCommand (op : SetOp) (store : bool) : handler :=
  sets ← gatherSets (if store then 2 else 1) (argc rq - 1);
  match sets with
  | None => mret tt
  | Some sets =>
      let result := applySetOp op sets 0 in
      if negb store then
        _ ← setHeader rq (Z.of_nat (length result));
        bulks result
      else
        dst ← arg rq 1;
        _ ← (if negb (length result =? 0)%nat then
               _ ← setKey dst Object.makeSet;
               _ ← lookupWrite rq dst;
               _ ← add_members dst result 0;
               notify rq Notify.kSet (storeEventName op) dst
             else
               gone ← erase dst;
               if gone : bool then notify rq Notify.kGeneric "del" dst else mret tt);
        _ ← markDirty 1;
        integer (Z.of_nat (length result))
  end.

Definition sadd : handler :=
  key ← arg rq 1;
  value ← lookupOrCreate rq key OSet;
  match value with
  | Found _ =>
      added ← add_members key (drop 2 (argv rq)) 0;
      _ ← (if 0 <? added then _ ← markDirty added; notify rq Notify.kSet "sadd" key else mret tt);
      integer added
  | _ => mret tt
  end.

Fixpoint erase_members (key : bytes) (members : list bytes) (removed : Z) : M D Z :=
  match members with
  | [] => mret removed
  | member :: members =>
      gone ← on_set key (fun s => SetValue.erase s member);
      erase_members key members (if gone : bool then removed + 1 else removed)
  end.

Definition srem : handler :=
  key ← arg rq 1;
  value ← lookupTyped rq key OSet;
  match value with
  | TypeError => mret tt
  | Missing => integer 0
  | Found _ =>
      removed ← erase_members key (drop 2 (argv rq)) 0;
      _ ← (if 0 <? removed then _ ← markDirty removed; notify rq Notify.kSet "srem" key else mret tt);
      _ ← deleteIfEmpty rq key;
      integer removed
  end.

Definition scard : handler :=
  key ← arg rq 1;
  value ← lookupTypedRead rq key OSet;
  match value with
  | TypeError => mret tt
  | Missing => integer 0
  | Found _ => s ← the_set key; integer (i64 (Z.of_nat (SetValue.size s)))
  end.

(** [value && value->set()->contains(member)] *)
Definition contains_if (present : bool) (key member : bytes) : M D bool :=
  if present then on_set key (fun s => SetValue.contains s member) else mret false.

Definition is_found (v : typed D) : bool := match v with Found _ => true | _ => false end.

Definition sismember : handler :=
  key ← arg rq 1;
  value ← lookupTypedRead rq key OSet;
  match value with
  | TypeError => mret tt
  | _ =>
      member ← arg rq 2;
      b ← contains_if (is_found value) key member;
      integer (if b : bool then 1 else 0)
  end.

Fixpoint contains_each (present : bool) (key : bytes) (members : list bytes) : handler :=
  match members with
  | [] => mret tt
  | member :: members =>
      b ← contains_if present key member;
      _ ← integer (if b : bool then 1 else 0);
      contains_each present key members
  end.

Definition smismember : handler :=
  key ← arg rq 1;
  value ← lookupTypedRead rq key OSet;
  match value with
  | TypeError => mret tt
  | _ =>
      _ ← arrayHeader (Z.of_nat (argc rq - 2));
      contains_each (is_found value) key (drop 2 (argv rq))
  end.

Definition smembers : handler :=
  key ← arg rq 1;
  value ← lookupTypedRead rq key OSet;
  match value with
  | TypeError => mret tt
  | Missing => setHeader rq 0
  | Found _ =>
      s ← the_set key;
      _ ← setHeader rq (Z.of_nat (length (SetValue.members s)));
      bulks (SetValue.members s)
  end.

Definition set_size_if (present : bool) (key : bytes) : M D nat :=
  if present then s ← the_set key; mret (SetValue.size s) else mret 0%nat.

(** [for (i = 0; i < count; ++i)] with a [break] when the set is empty. *)
Fixpoint spop_loop (fuel : nat) (key : bytes) (rnd : nat -> nat -> nat -> Z) (i count : Z) (popped : list bytes) : M D (list bytes) :=
  if count <=? i then mret popped
  else
    match fuel with
    | O => lift None
    | S fuel =>
        s ← the_set key;
        match SetValue.randomMember s (rnd (Z.to_nat i) 0%nat) (rnd (Z.to_nat i) 1%nat 0%nat) with
        | None => mret popped
        | Some member =>
            _ ← on_set key (fun s => SetValue.erase s member);
            spop_loop fuel key rnd (i + 1) count (popped ++ [member])
        end
    end.

Definition spop_count : StringCommands.parsed (option Z) :=
  match argv rq !! 2%nat with
  | None => StringCommands.Parsed None
  | Some text =>
      match stringToInt64 text with
      | Some count =>
          if count <? 0 then StringCommands.Refused (str "ERR value is out of range, must be positive")
          else StringCommands.Parsed (Some count)
      | None => StringCommands.Refused (str "ERR value is out of range, must be positive")
      end
  end.

Definition spop : handler :=
  key ← arg rq 1;
  value ← lookupTyped rq key OSet;
  match value with
  | TypeError => mret tt
  | _ =>
      match spop_count with
      | StringCommands.Refused msg => error msg
      | StringCommands.Parsed count =>
          size ← set_size_if (is_found value) key;
          if (size =? 0)%nat then (if is_some count then setHeader rq 0 else nullBulk rq)
          else
            rnd ← random rq;
            popped ← spop_loop (S size) key rnd 0 (default 1 count) [];
            _ ← (if (length popped =? 0)%nat then mret tt
                 else _ ← markDirty (Z.of_nat (length popped)); notify rq Notify.kSet "spop" key);
            _ ← deleteIfEmpty rq key;
            match count with
            | Some _ => _ ← setHeader rq (Z.of_nat (length popped)); bulks popped
            | None => first ← lift (popped !! 0%nat); bulk first
            end
      end
  end.

Definition srandmember_count : StringCommands.parsed (option Z) :=
  match argv rq !! 2%nat with
  | None => StringCommands.Parsed None
  | Some text =>
      match stringToInt64 text with
      | Some count => StringCommands.Parsed (Some count)
      | None => StringCommands.Refused StringCommands.not_an_integer
      end
  end.

(** [members[i]] for each index picked. *)
Fixpoint pick_members (members : list bytes) (chosen : list nat) : M D (list bytes) :=
  match chosen with
  | [] => mret []
  | i :: chosen =>
      member ← lift (members !! i);
      rest ← pick_members members chosen;
      mret (member :: rest)
  end.

Definition srandmember : handler :=
  key ← arg rq 1;
  value ← lookupTypedRead rq key OSet;
  match value with
  | TypeError => mret tt
  | _ =>
      match srandmember_count with
      | StringCommands.Refused msg => error msg
      | StringCommands.Parsed o =>
          size ← set_size_if (is_found value) key;
          if (size =? 0)%nat then (if is_some o then arrayHeader 0 else nullBulk rq)
          else
            s ← the_set key;
            let members := SetValue.members s in
            rnd ← random rq;
            match o with
            | None => member ← lift (members !! Z.to_nat (rnd 0%nat 0%nat 0%nat mod Z.of_nat (length members))); bulk member
            | Some count =>
                picked ← (if count <? 0 then
                            wanted ← checked (- count);
                            pick_members members (picks (Z.to_nat wanted) 0 (rnd 0%nat 0%nat) (length members))
                          else mret (take (Nat.min (Z.to_nat count) (length members)) (shuffle (rnd 0%nat 0%nat) members)));
                bulkArray picked
            end
      end
  end.

Definition smove : handler :=
  source_key ← arg rq 1;
  source ← lookupTyped rq source_key OSet;
  match source with
  | TypeError => mret tt
  | _ =>
      destination_key ← arg rq 2;
      destination ← lookupTyped rq destination_key OSet;
      match destination with
      | TypeError => mret tt
      | _ =>
          member ← arg rq 3;
          b ← contains_if (is_found source) source_key member;
          if negb b then integer 0
          else
            _ ← on_set source_key (fun s => SetValue.erase s member);
            _ ← notify rq Notify.kSet "srem" source_key;
            _ ← deleteIfEmpty rq source_key;
            target ← lookupOrCreate rq destination_key OSet;
            match target with
            | Found _ =>
                _ ← on_set destination_key (fun s => SetValue.add s member);
                _ ← notify rq Notify.kSet "sadd" destination_key;
                _ ← markDirty 1;
                integer 1
            | _ => mret tt
            end
      end
  end.

Definition sinter : handler := setOpCommand Intersect false.
Definition sunion : handler := setOpCommand Union false.
Definition sdiff : handler := setOpCommand Difference false.
Definition sinterstore : handler := setOpCommand Intersect true.
Definition sunionstore : handler := setOpCommand Union true.
Definition sdiffstore : handler := setOpCommand Difference true.

(** The trailing LIMIT of [sintercard], from the arguments after the keys. *)
Definition intercard_limit (rest : list bytes) : StringCommands.parsed Z :=
  match rest with
  | [] => StringCommands.Parsed 0
  | token :: rest =>
      match negb (equalsIgnoreCase token (str "LIMIT")), rest with
      | false, [text] =>
          match stringToInt64 text with
          | Some n => if n <? 0 then StringCommands.Refused (str "ERR LIMIT can't be negative") else StringCommands.Parsed n
          | None => StringCommands.Refused (str "ERR LIMIT can't be negative")
          end
      | _, _ => StringCommands.Refused StringCommands.syntax_error
      end
  end.

Definition intercard_options (text : bytes) : StringCommands.parsed (nat * Z) :=
  match stringToInt64 text with
  | Some numkeys =>
      if numkeys <=? 0 then StringCommands.Refused (str "ERR numkeys should be greater than 0")
      else if Z.of_nat (argc rq) <? u64 (numkeys + 2) then StringCommands.Refused (str "ERR Number of keys can't be greater than number of args")
      else
        let after_keys := (2 + Z.to_nat numkeys)%nat in
        match intercard_limit (drop after_keys (argv rq)) with
        | StringCommands.Parsed limit => StringCommands.Parsed (after_keys, limit)
        | StringCommands.Refused msg => StringCommands.Refused msg
        end
  | None => StringCommands.Refused (str "ERR numkeys should be greater than 0")
  end.

Definition sintercard : handler :=
  text ← arg rq 1;
  match intercard_options text with
  | StringCommands.Refused msg => error msg
  | StringCommands.Parsed (after_keys, limit) =>
      sets ← gatherSets 2 (after_keys - 1);
      match sets with
      | None => mret tt
      | Some sets => integer (Z.of_nat (length (applySetOp Intersect sets limit)))
      end
  end.

End Handlers.

(** ** The algebra is the mathematical one *)

Definition spec_op (op : SetOp) (Xs : list (gset bytes)) : gset bytes :=
  match Xs with
  | [] => ∅
  | X :: rest =>
      match op with
      | Intersect => foldl (∩) X rest
      | Union => ⋃ Xs
      | Difference => X ∖ ⋃ rest
      end
  end.

(** A member list without repetitions, and the set it lists. *)
Definition lists (ms : list bytes) (X : gset bytes) : Prop := NoDup ms /\ list_to_set ms = X.

Lemma lists_elem ms X x : lists ms X -> x ∈ ms <-> x ∈ X.
Proof. intros [_ <-]. by rewrite elem_of_list_to_set. Qed.

Lemma lists_length ms X : lists ms X -> length ms = size X.
Proof. intros [Hn <-]. by rewrite size_list_to_set. Qed.

Lemma lists_intro ms X : NoDup ms -> (forall x, x ∈ ms <-> x ∈ X) -> lists ms X.
Proof. intros Hn H. split; [done|]. apply set_eq. intros x. by rewrite elem_of_list_to_set. Qed.

Lemma elem_of_intersect (X : gset bytes) Xs x : x ∈ foldl (∩) X Xs <-> x ∈ X /\ Forall (fun Y => x ∈ Y) Xs.
Proof.
  revert X. induction Xs as [|Y Xs IH]; intros X; cbn [foldl].
  - split; [by intros|by intros [? _]].
  - rewrite IH, Forall_cons. set_solver.
Qed.

Lemma min_element_lt sets i best n : (best < i)%nat -> (min_element sets i best n < i + length sets)%nat.
Proof.
  revert i best n. induction sets as [|s sets IH]; intros i best n Hb; cbn [min_element length]; [lia|].
  case_if; [pose proof (IH (S i) i (length s))|pose proof (IH (S i) best n)]; lia.
Qed.

Lemma smallest_ok sets : sets <> [] -> exists s, sets !! smallest_index sets = Some s.
Proof.
  destruct sets as [|s sets]; [done|]. intros _. apply lookup_lt_is_Some. cbn [smallest_index length].
  pose proof (min_element_lt sets 1 0 (length s) ltac:(lia)). lia.
Qed.

Lemma forallb_members (m : bytes) (others : list (list bytes)) :
  forallb (fun other => bool_decide (m ∈ other)) others = bool_decide (Forall (fun other => m ∈ other) others).
Proof.
  induction others as [|o others IH]; cbn [forallb]; [done|]. rewrite IH. destruct (bool_decide_reflect (m ∈ o)); cbn [andb].
  - apply bool_decide_ext. rewrite Forall_cons. tauto.
  - symmetry. apply bool_decide_false. by rewrite Forall_cons; intros [? _].
Qed.

Lemma existsb_members (m : bytes) (others : list (list bytes)) :
  existsb (fun other => bool_decide (m ∈ other)) others = bool_decide (Exists (fun other => m ∈ other) others).
Proof.
  induction others as [|o others IH]; cbn [existsb]; [symmetry; apply bool_decide_false; by intros ?%Exists_nil|].
  rewrite IH. destruct (bool_decide_reflect (m ∈ o)); cbn [orb].
  - symmetry. apply bool_decide_true. by left.
  - apply bool_decide_ext. rewrite Exists_cons. tauto.
Qed.

Lemma intersect_loop_ok members others limit result : 0 <= limit -> (limit = 0 \/ Z.of_nat (length result) < limit) ->
  intersect_loop members others limit result = result ++
    (let all := filter (fun m => Forall (fun other => m ∈ other) others) members in
     if limit =? 0 then all else take (Z.to_nat limit - length result) all).
Proof.
  intros Hl. revert result. induction members as [|m members IH]; intros result Hr; cbn [intersect_loop]; cbv zeta in *.
  { rewrite filter_nil, take_nil. by case_if; rewrite app_nil_r. }
  rewrite filter_cons, forallb_members. case_bool_decide as Hf; [rewrite decide_True by done|rewrite decide_False by done; by apply IH].
  destruct (Z.eqb_spec limit 0) as [->|Hnz].
  { cbn [Z.ltb Z.compare andb]. rewrite IH by lia. by rewrite <- app_assoc. }
  destruct (Z.ltb_spec 0 limit); [|lia]. cbn [andb]. rewrite length_app. cbn [length].
  destruct (Z.to_nat limit - length result)%nat as [|n] eqn:Hn; [lia|]. cbn [take].
  destruct (Z.leb_spec limit (Z.of_nat (length result + 1))).
  - by replace n with 0%nat by lia.
  - rewrite IH by (rewrite length_app; cbn [length]; lia). rewrite <- app_assoc, length_app. cbn [app length]. do 2 f_equal. f_equal. lia.
Qed.

Lemma union_loop_ok members seen result : NoDup result -> seen = list_to_set result ->
  let '(seen', result') := union_loop members seen result in
  NoDup result' /\ seen' = list_to_set result' /\ (forall x, x ∈ result' <-> x ∈ result \/ x ∈ members).
Proof.
  revert seen result. induction members as [|m members IH]; intros seen result Hn Hs; cbn [union_loop].
  { split_and!; [done..|]. set_solver. }
  case_bool_decide as Hm; rewrite Hs in Hm; rewrite elem_of_list_to_set in Hm.
  - specialize (IH seen result Hn Hs). destruct (union_loop members seen result) as [seen' result']. destruct IH as (H1 & H2 & H3).
    split_and!; [done..|]. intros x. rewrite H3. set_solver.
  - specialize (IH ({[m]} ∪ seen) (result ++ [m])). destruct (union_loop members _ _) as [seen' result'].
    destruct IH as (H1 & H2 & H3); [apply NoDup_app; split_and!; [done|set_solver|apply NoDup_singleton]|rewrite list_to_set_app_L, Hs; set_solver|].
    split_and!; [done..|]. intros x. rewrite H3. set_solver.
Qed.

Lemma union_sets_ok sets result : NoDup result ->
  NoDup (union_sets sets (list_to_set result) result) /\
  forall x, x ∈ union_sets sets (list_to_set result) result <-> x ∈ result \/ Exists (fun s => x ∈ s) sets.
Proof.
  revert result. induction sets as [|s sets IH]; intros result Hn; cbn [union_sets].
  { split; [done|]. intros x. rewrite Exists_nil. tauto. }
  pose proof (union_loop_ok s (list_to_set result) result Hn eq_refl) as Hu. destruct (union_loop s _ result) as [seen' result'].
  destruct Hu as (H1 & -> & H3). destruct (IH result' H1) as [H4 H5]. split; [done|]. intros x. rewrite H5, H3, Exists_cons. tauto.
Qed.

Lemma difference_loop_ok members others result :
  difference_loop members others result = result ++ filter (fun m => ~ Exists (fun other => m ∈ other) others) members.
Proof.
  revert result. induction members as [|m members IH]; intros result; cbn [difference_loop]; [by rewrite app_nil_r|].
  rewrite IH, filter_cons, existsb_members. case_bool_decide as He; [by rewrite decide_False by (intros H; by apply H)|].
  by rewrite decide_True, <- app_assoc by done.
Qed.

Lemma Exists_lists sets Xs x : Forall2 lists sets Xs -> Exists (fun s => x ∈ s) sets <-> x ∈ ⋃ Xs.
Proof.
  induction 1 as [|s X sets Xs Hl _ IH]; [rewrite Exists_nil; set_solver|]. rewrite Exists_cons, IH, (lists_elem s X x Hl). set_solver.
Qed.

Lemma Forall_lists sets Xs x : Forall2 lists sets Xs -> Forall (fun s => x ∈ s) sets <-> Forall (fun X => x ∈ X) Xs.
Proof.
  induction 1 as [|s X sets Xs Hl _ IH]; [by rewrite !Forall_nil|]. by rewrite !Forall_cons, IH, (lists_elem s X x Hl).
Qed.

(** The members every set has, in the order of the smallest one. *)
Lemma intersect_lists sets Xs : sets <> [] -> Forall2 lists sets Xs ->
  lists (filter (fun m => Forall (fun other => m ∈ other) (delete (smallest_index sets) sets)) (sets !!! smallest_index sets)) (spec_op Intersect Xs).
Proof.
  intros Hne HF. destruct (smallest_ok sets Hne) as [s Hs]. rewrite (list_lookup_total_correct _ _ _ Hs).
  destruct (Forall2_lookup_l _ _ _ _ _ HF Hs) as (X & HX & Hl). apply lists_intro; [apply NoDup_filter, Hl|].
  intros x. rewrite list_elem_of_filter. transitivity (Forall (fun s => x ∈ s) sets).
  - transitivity (Forall (fun s => x ∈ s) (s :: delete (smallest_index sets) sets)); [rewrite Forall_cons; tauto|].
    by rewrite <- (list_delete_perm _ _ _ Hs).
  - rewrite (Forall_lists sets Xs x HF). destruct Xs as [|Y Xs]; [by inversion HF; subst|]. cbn [spec_op]. by rewrite elem_of_intersect, Forall_cons.
Qed.

(** Every set operation returns the members of the mathematical result, once
    each. *)
Lemma applySetOp_ok op sets Xs : Forall2 lists sets Xs -> lists (applySetOp op sets 0) (spec_op op Xs).
Proof.
  intros HF. destruct sets as [|s sets]; [inversion HF; subst; split; [apply NoDup_nil_2|done]|].
  unfold applySetOp. destruct op.
  - rewrite intersect_loop_ok by lia. apply (intersect_lists (s :: sets) Xs); done.
  - inversion HF as [|? X ? Xs' Hl HF']; subst. destruct (union_sets_ok (s :: sets) [] ltac:(constructor)) as [Hn He]. apply lists_intro; [exact Hn|].
    intros x. rewrite (He x), (Exists_lists (s :: sets) (X :: Xs') x) by done. set_solver.
  - inversion HF as [|? X ? Xs' Hl HF']; subst. rewrite difference_loop_ok. cbn [app spec_op]. apply lists_intro; [apply NoDup_filter, Hl|].
    intros x. rewrite list_elem_of_filter, (Exists_lists sets Xs' x HF'), (lists_elem s X x Hl). set_solver.
Qed.

Lemma applySetOp_limit sets Xs limit : 0 <= limit -> Forall2 lists sets Xs ->
  Z.of_nat (length (applySetOp Intersect sets limit)) =
    let n := Z.of_nat (size (spec_op Intersect Xs)) in if limit =? 0 then n else Z.min limit n.
Proof.
  intros Hl HF. destruct sets as [|s sets]; [inversion HF; subst; cbn [applySetOp spec_op length]; rewrite size_empty; destruct (Z.eqb_spec limit 0); lia|].
  unfold applySetOp. rewrite intersect_loop_ok by (cbn [length]; lia). cbn [app length]. cbv zeta.
  pose proof (lists_length _ _ (intersect_lists (s :: sets) Xs ltac:(done) HF)) as Hn. rewrite <- Hn. case_if; [done|].
  rewrite length_take. cbn [length]. rewrite Nat.sub_0_r. lia.
Qed.

(** ** Specifications *)

Section Specs.
Context (rq : request).
Implicit Types (g : view) (k : bytes) (X : gset bytes).
Abbreviation null := (Keyspace.null rq).
Abbreviation tell := (Keyspace.tell rq).
Abbreviation keymiss := (Keyspace.keymiss rq).

Definition with_set k g (absent : option (view -> Prop)) (f : gset bytes -> option Z -> option (view -> Prop)) : option (view -> Prop) :=
  match K g !! k with None => absent | Some (ASet X, e) => f X e | Some _ => exactly (say wrong_type g) end.

(** The sets that a list of keys names; a missing key is an empty one, a key of
    another type ends the command. *)
Fixpoint gathered (keys : list bytes) g : view * option (list (gset bytes)) :=
  match keys with
  | [] => (g, Some [])
  | k :: keys =>
      match K g !! k with
      | None => let r := gathered keys (keymiss k g) in (r.1, (∅ ::.) <$> r.2)
      | Some (ASet X, _) => let r := gathered keys g in (r.1, (X ::.) <$> r.2)
      | Some _ => (say wrong_type g, None)
      end
  end.

Definition set_reply (ms : list bytes) g : view :=
  say (concat (map Reply.bulk ms)) (say (Reply.setHeader (protover rq) (Z.of_nat (length ms))) g).

Definition spec_set_op (op : SetOp) : spec := fun g =>
  let r := gathered (drop 1 (argv rq)) g in
  match r.2 with
  | None => exactly r.1
  | Some Xs => Some (fun g1 => exists ms, lists ms (spec_op op Xs) /\ g1 = set_reply ms r.1)
  end.

(** An empty result deletes the destination; whether that is announced is only
    determined when the key was visible. *)
Definition spec_set_store (op : SetOp) : spec := fun g =>
  dst ← argv rq !! 1%nat;
  let r := gathered (drop 2 (argv rq)) g in
  match r.2 with
  | None => exactly r.1
  | Some Xs =>
      let X := spec_op op Xs in
      let reply g := say (Reply.integer (Z.of_nat (size X))) (mark 1 g) in
      if (size X =? 0)%nat then
        Some (fun g1 => exists gone : bool, (is_some (K r.1 !! dst) = true -> gone = true) /\
          g1 = reply (if gone then tell Notify.kGeneric "del" dst (remove dst r.1) else remove dst r.1))
      else exactly (reply (tell Notify.kSet (storeEventName op) dst (put dst (ASet X) None r.1)))
  end.

Definition spec_sadd : spec := fun g =>
  k ← argv rq !! 1%nat; _ ← argv rq !! 2%nat;
  let add X e :=
    let X' := X ∪ list_to_set (drop 2 (argv rq)) in
    let added := Z.of_nat (size X') - Z.of_nat (size X) in
    exactly (say (Reply.integer added) (if 0 <? added then tell Notify.kSet "sadd" k (mark added (put k (ASet X') e g)) else g)) in
  with_set k g (add ∅ None) add.

Definition spec_srem : spec := fun g =>
  k ← argv rq !! 1%nat;
  with_set k g (exactly (say (Reply.integer 0) g)) (fun X e =>
    let X' := X ∖ list_to_set (drop 2 (argv rq)) in
    let removed := Z.of_nat (size X) - Z.of_nat (size X') in
    let g := if 0 <? removed then tell Notify.kSet "srem" k (mark removed g) else g in
    exactly (say (Reply.integer removed) (leave rq k (ASet X') e g))).

Definition spec_scard : spec := fun g =>
  k ← argv rq !! 1%nat;
  with_set k g (exactly (say (Reply.integer 0) (keymiss k g))) (fun X _ => exactly (say (Reply.integer (i64 (Z.of_nat (size X)))) g)).

Definition membership X (m : bytes) : bytes := Reply.integer (if bool_decide (m ∈ X) then 1 else 0).

Definition spec_sismember : spec := fun g =>
  k ← argv rq !! 1%nat; m ← argv rq !! 2%nat;
  with_set k g (exactly (say (membership ∅ m) (keymiss k g))) (fun X _ => exactly (say (membership X m) g)).

Definition spec_smismember : spec := fun g =>
  k ← argv rq !! 1%nat;
  let header := Reply.arrayHeader (Z.of_nat (argc rq - 2)) in
  let answers X := concat (map (membership X) (drop 2 (argv rq))) in
  with_set k g (exactly (say (answers ∅) (say header (keymiss k g)))) (fun X _ => exactly (say (answers X) (say header g))).

Definition spec_smembers : spec := fun g =>
  k ← argv rq !! 1%nat;
  with_set k g (exactly (say (Reply.setHeader (protover rq) 0) (keymiss k g)))
    (fun X _ => Some (fun g1 => exists ms, lists ms X /\ g1 = set_reply ms g)).

(** Members chosen at random leave the set; the key goes with its last one. *)
Definition spec_spop : spec := fun g =>
  k ← argv rq !! 1%nat;
  let absent c := exactly (say (if is_some (A := Z) c then Reply.setHeader (protover rq) 0 else null) g) in
  let counted f := match spop_count rq with StringCommands.Refused msg => exactly (refuse msg g) | StringCommands.Parsed c => f c end in
  with_set k g (counted absent) (fun X e => counted (fun c =>
    if (size X =? 0)%nat then absent c
    else Some (fun g1 => exists ms, NoDup ms /\ list_to_set ms ⊆ X /\ Z.of_nat (length ms) = Z.min (default 1 c) (Z.of_nat (size X)) /\
      let g := if (length ms =? 0)%nat then g else tell Notify.kSet "spop" k (mark (Z.of_nat (length ms)) g) in
      let g := leave rq k (ASet (X ∖ list_to_set ms)) e g in
      g1 = match c with Some _ => set_reply ms g | None => say (concat (map Reply.bulk ms)) g end))).

Definition spec_srandmember : spec := fun g =>
  k ← argv rq !! 1%nat;
  let absent o g := exactly (say (if is_some (A := Z) o then Reply.arrayHeader 0 else null) g) in
  let counted g f := match srandmember_count rq with StringCommands.Refused msg => exactly (refuse msg g) | StringCommands.Parsed c => f c end in
  with_set k g (counted (keymiss k g) (fun o => absent o (keymiss k g))) (fun X _ => counted g (fun o =>
    if (size X =? 0)%nat then absent o g
    else
      match o with
      | None => Some (fun g1 => exists m, m ∈ X /\ g1 = say (Reply.bulk m) g)
      | Some count =>
          if count =? StringCommands.int64_min then None
          else Some (fun g1 => exists ms, Forall (fun m => m ∈ X) ms /\
            (if count <? 0 then Z.of_nat (length ms) = - count
             else NoDup ms /\ Z.of_nat (length ms) = Z.min count (Z.of_nat (size X))) /\
            g1 = say (Reply.bulkArray ms) g)
      end)).

(** The member leaves one set and joins the other; a source it empties is
    deleted first, with its deadline, even when it is also the destination. *)
Definition spec_smove : spec := fun g =>
  src ← argv rq !! 1%nat; dst ← argv rq !! 2%nat; m ← argv rq !! 3%nat;
  with_set src g
    (with_set dst g (exactly (say (Reply.integer 0) g)) (fun _ _ => exactly (say (Reply.integer 0) g)))
    (fun X e =>
       let move :=
         if negb (bool_decide (m ∈ X)) then exactly (say (Reply.integer 0) g)
         else
           let g := leave rq src (ASet (X ∖ {[m]})) e (tell Notify.kSet "srem" src g) in
           let join Y e := exactly (say (Reply.integer 1) (mark 1 (tell Notify.kSet "sadd" dst (put dst (ASet ({[m]} ∪ Y)) e g)))) in
           with_set dst g (join ∅ None) join in
       with_set dst g move (fun _ _ => move)).

Definition spec_sintercard : spec := fun g =>
  text ← argv rq !! 1%nat;
  match intercard_options rq text with
  | StringCommands.Refused msg => exactly (refuse msg g)
  | StringCommands.Parsed (after_keys, limit) =>
      let r := gathered (take (after_keys - 2) (drop 2 (argv rq))) g in
      match r.2 with
      | None => exactly r.1
      | Some Xs =>
          let n := Z.of_nat (size (spec_op Intersect Xs)) in
          exactly (say (Reply.integer (if limit =? 0 then n else Z.min limit n)) r.1)
      end
  end.

End Specs.

(** ** Refinement *)

Section Refinement.
Context {D : Type -> Type} {ops : MapOps D} {laws : MapLaws D} (rq : request).
Implicit Types (g : view) (k m : bytes) (X : gset bytes).
Abbreviation t := (now rq).

Ltac start Hs := intros g P Hs; match type of Hs with ?sp _ = _ => let h := head_of sp in unfold h in Hs end; unfold with_set in Hs; args_in Hs.

Lemma wp_set_contains k m X e g (Q : bool -> view -> Prop) : K g !! k = Some (ASet X, e) -> Q (bool_decide (m ∈ X)) g ->
  wp t (on_set k (fun s => SetValue.contains s m)) g Q.
Proof.
  intros HK HQ. eapply wp_on_set; [exact HK|]. intros s Hh. destruct (SetValue.set_contains_holds s X m Hh) as (s' & Hs & Hh' & _).
  eexists s', _, _. split; [exact Hs|]. split; [exact Hh'|]. by rewrite (update_id k _ _ _ HK).
Qed.

Lemma wp_set_add k m X e g (Q : bool -> view -> Prop) : K g !! k = Some (ASet X, e) ->
  Q (bool_decide (m ∉ X)) (update k (ASet ({[m]} ∪ X)) g) -> wp t (on_set k (fun s => SetValue.add s m)) g Q.
Proof. intros HK HQ. eapply wp_on_set; [exact HK|]. intros s Hh. destruct (SetValue.add_holds s X m Hh) as (s' & Hs & Hh'). by eexists s', _, _. Qed.

Lemma wp_set_erase k m X e g (Q : bool -> view -> Prop) : K g !! k = Some (ASet X, e) ->
  Q (bool_decide (m ∈ X)) (update k (ASet (X ∖ {[m]})) g) -> wp t (on_set k (fun s => SetValue.erase s m)) g Q.
Proof. intros HK HQ. eapply wp_on_set; [exact HK|]. intros s Hh. destruct (SetValue.set_erase_holds s X m Hh) as (s' & Hs & Hh' & _). by eexists s', _, _. Qed.

Lemma wp_members k X e g (Q : _ -> view -> Prop) : K g !! k = Some (ASet X, e) ->
  (forall s, lists (SetValue.members s) X -> SetValue.size s = size X -> Q s g) -> wp t (the_set k) g Q.
Proof.
  intros HK HQ. eapply wp_the_set; [exact HK|]. intros s Hh. destruct (SetValue.members_holds s X Hh) as (Hn & HX & Hl).
  apply HQ; [by split|]. rewrite <- Hl. by apply (lists_length _ X).
Qed.

Lemma add_members_ok k ms added X e g (Q : Z -> view -> Prop) : K g !! k = Some (ASet X, e) ->
  (let X' := X ∪ list_to_set ms in Q (added + Z.of_nat (size X') - Z.of_nat (size X)) (update k (ASet X') g)) ->
  wp t (add_members (ops:=ops) k ms added) g Q.
Proof.
  revert added X g. induction ms as [|m ms IH]; intros added X g HK HQ; cbn [add_members]; cbv zeta in *.
  { apply wp_ret. replace (X ∪ list_to_set []) with X in HQ by set_solver. rewrite (update_id k _ _ _ HK) in HQ.
    by replace (added + Z.of_nat (size X) - Z.of_nat (size X)) with added in HQ by lia. }
  wp_run. eapply wp_set_add; [exact HK|]. eapply IH; [by eapply update_lookup|]. cbv zeta. rewrite update_update.
  replace ({[m]} ∪ X ∪ list_to_set ms) with (X ∪ list_to_set (m :: ms)) by set_solver.
  match goal with HQ : Q ?a _ |- Q ?b _ => replace b with a; [done|] end. case_bool_decide as Hm.
  - rewrite (size_union {[m]} X) by set_solver. rewrite size_singleton. lia.
  - replace ({[m]} ∪ X) with X by set_solver. lia.
Qed.

Lemma erase_members_ok k ms removed X e g (Q : Z -> view -> Prop) : K g !! k = Some (ASet X, e) ->
  (let X' := X ∖ list_to_set ms in Q (removed + Z.of_nat (size X) - Z.of_nat (size X')) (update k (ASet X') g)) ->
  wp t (erase_members (ops:=ops) k ms removed) g Q.
Proof.
  revert removed X g. induction ms as [|m ms IH]; intros removed X g HK HQ; cbn [erase_members]; cbv zeta in *.
  { apply wp_ret. replace (X ∖ list_to_set []) with X in HQ by set_solver. rewrite (update_id k _ _ _ HK) in HQ.
    by replace (removed + Z.of_nat (size X) - Z.of_nat (size X)) with removed in HQ by lia. }
  wp_run. eapply wp_set_erase; [exact HK|]. eapply IH; [by eapply update_lookup|]. cbv zeta. rewrite update_update.
  replace (X ∖ {[m]} ∖ list_to_set ms) with (X ∖ list_to_set (m :: ms)) by set_solver.
  match goal with HQ : Q ?a _ |- Q ?b _ => replace b with a; [done|] end. case_bool_decide as Hm.
  - pose proof (size_union (X ∖ {[m]}) {[m]} ltac:(set_solver)) as Hu. replace (X ∖ {[m]} ∪ {[m]}) with X in Hu.
    + rewrite size_singleton in Hu. lia.
    + apply set_eq. intros x. destruct (decide (x = m)); set_solver.
  - replace (X ∖ {[m]}) with X by set_solver. lia.
Qed.

Lemma contains_each_ok k ms X e g (Q : unit -> view -> Prop) : K g !! k = Some (ASet X, e) ->
  (forall g', same g' (say (concat (map (membership X) ms)) g) -> Q tt g') -> wp t (contains_each (ops:=ops) true k ms) g Q.
Proof.
  revert g. induction ms as [|m ms IH]; intros g HK HQ; cbn [contains_each map concat] in *; [apply wp_ret, HQ; by rewrite say_nil|].
  unfold contains_if. wp_run. eapply wp_set_contains; [exact HK|]. wp_run. apply IH; [exact HK|]. intros g' Hg'. apply HQ. by rewrite Hg', say_say.
Qed.

Lemma contains_each_none k ms g (Q : unit -> view -> Prop) :
  (forall g', same g' (say (concat (map (membership ∅) ms)) g) -> Q tt g') -> wp t (contains_each (ops:=ops) false k ms) g Q.
Proof.
  revert g. induction ms as [|m ms IH]; intros g HQ; cbn [contains_each map concat] in *; [apply wp_ret, HQ; by rewrite say_nil|].
  unfold contains_if. wp_run. apply IH. intros g' Hg'. apply HQ. rewrite Hg', say_say. unfold membership. by rewrite bool_decide_false by set_solver.
Qed.

Lemma gathered_same keys g g' : same g g' -> same (gathered rq keys g).1 (gathered rq keys g').1 /\ (gathered rq keys g).2 = (gathered rq keys g').2.
Proof.
  revert g g'. induction keys as [|k keys IH]; intros g g' Hg; cbn [gathered]; [done|]. pose proof (same_fields g g' Hg) as [HK _]. rewrite HK.
  destruct (K g' !! k) as [[[s|l|h|X|z] e]|]; cbn [fst snd]; try (split; [by apply same_say|done]).
  - destruct (IH g g' Hg) as [H1 ->]. done.
  - destruct (IH (keymiss rq k g) (keymiss rq k g')) as [H1 ->]; [by apply same_tell|]. done.
Qed.

Lemma gather_ok keys acc g (Q : _ -> view -> Prop) :
  (forall g' r, same g' (gathered rq keys g).1 ->
     match (gathered rq keys g).2 with
     | None => r = None
     | Some Xs => exists mss, Forall2 lists mss Xs /\ r = Some (acc ++ mss)
     end -> Q r g') -> wp t (gather (ops:=ops) rq keys acc) g Q.
Proof.
  revert acc g. induction keys as [|k keys IH]; intros acc g HQ; cbn [gather gathered] in *.
  { apply wp_ret, HQ; [done|]. exists []. by rewrite app_nil_r. }
  assert (forall ms X g1, lists ms X -> same g1 g -> (forall g' r, same g' (gathered rq keys g).1 ->
     match (X ::.) <$> (gathered rq keys g).2 with
     | None => r = None
     | Some Xs => exists mss, Forall2 lists mss Xs /\ r = Some (acc ++ mss)
     end -> Q r g') -> wp t (gather (ops:=ops) rq keys (acc ++ [ms])) g1 Q) as Hnext.
  { clear HQ. intros ms X g1 Hms Hg HQ. apply IH. intros g' r Hg' Hr. destruct (gathered_same keys g1 g Hg) as [H1 H2]. rewrite H2 in Hr.
    apply HQ; [by rewrite Hg'|]. destruct (gathered rq keys g).2 as [Xs|]; cbn; [|done]. destruct Hr as (mss & HF & ->).
    exists (ms :: mss). split; [by constructor|]. by rewrite <- app_assoc. }
  wp_run. apply wp_lookupTypedRead. cases k; wp_run; try (apply HQ; done).
  - eapply (wp_members k X e); [exact HK|]. intros sv Hl _. by eapply Hnext.
  - clear Hnext. apply IH. intros g' r Hg' Hr. destruct (gathered_same keys (keymiss rq k (settle k g)) (keymiss rq k g) ltac:(done)) as [H1 H2].
    unfold keymiss in H2. unfold Keyspace.keymiss in *. rewrite H2 in Hr. apply HQ; [by rewrite Hg'|]. destruct (gathered rq keys _).2 as [Xs|]; cbn; [|done].
    destruct Hr as (mss & HF & ->). exists ([] :: mss). split; [constructor; [by split; [apply NoDup_nil_2|]|done]|]. by rewrite <- app_assoc.
Qed.

Lemma sadd_ok : meets t (sadd (ops:=ops) rq) (spec_sadd rq).
Proof.
  start Hs. unfold sadd. wp_run. apply wp_lookupOrCreate; [done|]. cases b; cbv beta iota; finish Hs; wp_run; try reflexivity.
  - eapply add_members_ok; [exact HK|]. cbv zeta. rewrite Z.add_0_l. set (X' := X ∪ _). destruct (Z.ltb_spec 0 (Z.of_nat (size X') - Z.of_nat (size X))) as [Hp|Hp]; wp_run; [put_now HK|].
    assert (X' = X) as ->; [|rewrite (update_id b _ e) by exact HK; reflexivity].
    unfold X' in *. symmetry. apply set_subseteq_size_eq; [set_solver|]. lia.
  - eapply add_members_ok; [apply lookup_insert_eq|]. cbv zeta. rewrite Z.add_0_l. set (X' := ∅ ∪ _).
    destruct (Z.ltb_spec 0 (Z.of_nat (size X') - Z.of_nat (size (∅ : gset bytes)))) as [Hp|Hp]; wp_run; [fresh_now|].
    rewrite size_empty in Hp. assert (X' = ∅) as HX by (apply leibniz_equiv, size_empty_inv; lia). exfalso.
    assert (b0 ∈ X') as Hb by (unfold X'; apply elem_of_union_r, elem_of_list_to_set, (list_elem_of_lookup_2 _ 0); by rewrite lookup_drop).
    rewrite HX in Hb. set_solver.
Qed.

Lemma srem_ok : meets t (srem (ops:=ops) rq) (spec_srem rq).
Proof.
  start Hs. unfold srem. wp_run. apply wp_lookupTyped. cases b; cbv beta iota; finish Hs; wp_run; try reflexivity.
  eapply erase_members_ok; [exact HK|]. cbv zeta. rewrite Z.add_0_l. set (X' := X ∖ _). set (removed := _ - _).
  destruct (0 <? removed); wp_run; (eapply (wp_leave rq b (ASet X')); [by eapply update_lookup|done|]); intros g' Hg'; wp_run; apply same_say; rewrite Hg'; leave_now.
Qed.

Lemma scard_ok : meets t (scard (ops:=ops) rq) (spec_scard rq).
Proof.
  start Hs. unfold scard. wp_run. apply wp_lookupTypedRead. cases b; cbv beta iota; finish Hs; wp_run; try reflexivity.
  eapply (wp_members b X e); [exact HK|]. intros sv _ ->. wp_run. reflexivity.
Qed.

Lemma sismember_ok : meets t (sismember (ops:=ops) rq) (spec_sismember rq).
Proof.
  start Hs. unfold sismember, contains_if. wp_run. apply wp_lookupTypedRead. cases b; cbv beta iota; finish Hs; cbn [is_found]; wp_run; try reflexivity.
  - eapply wp_set_contains; [exact HK|]. wp_run. reflexivity.
Qed.

Lemma smismember_ok : meets t (smismember (ops:=ops) rq) (spec_smismember rq).
Proof.
  start Hs. unfold smismember. wp_run. apply wp_lookupTypedRead. cases b; cbv beta iota; finish Hs; cbn [is_found]; wp_run; try reflexivity.
  - eapply contains_each_ok; [exact HK|done].
  - by apply contains_each_none.
Qed.

Lemma smembers_ok : meets t (smembers (ops:=ops) rq) (spec_smembers rq).
Proof.
  start Hs. unfold smembers. wp_run. apply wp_lookupTypedRead. cases b; cbv beta iota; try (finish Hs; wp_run; reflexivity). injection Hs as <-.
  wp_run. eapply (wp_members b X e); [exact HK|]. intros sv Hl _. wp_run. apply wp_bulks. intros g' Hg'. eexists. by split; [exists (SetValue.members sv)|].
Qed.

Lemma argv_window n : take (S (argc rq - 1) - n) (drop n (argv rq)) = drop n (argv rq).
Proof. apply take_ge. rewrite length_drop. unfold argc. lia. Qed.

Lemma set_op_ok op : meets t (setOpCommand (ops:=ops) rq op false) (spec_set_op rq op).
Proof.
  intros g P Hs. unfold spec_set_op in Hs. unfold setOpCommand, gatherSets. rewrite argv_window. wp_run. apply gather_ok. intros g' r Hg Hr.
  destruct (gathered rq (drop 1 (argv rq)) g) as [g0 [Xs|]]; cbn [fst snd] in *; [|subst r; finish Hs; wp_run; exact Hg].
  destruct Hr as (mss & HF & ->). injection Hs as <-. cbn [app]. wp_run. apply wp_bulks. intros g1 Hg1. eexists.
  split; [eexists; split; [by apply applySetOp_ok|reflexivity]|]. rewrite Hg1. by apply same_say, same_say.
Qed.

Lemma set_store_ok op : meets t (setOpCommand (ops:=ops) rq op true) (spec_set_store rq op).
Proof.
  start Hs. unfold setOpCommand, gatherSets. rewrite argv_window. wp_run. apply gather_ok. intros g' r Hg Hr.
  destruct (gathered rq (drop 2 (argv rq)) g) as [g0 [Xs|]]; cbn [fst snd] in *; [|subst r; finish Hs; wp_run; exact Hg].
  destruct Hr as (mss & HF & ->). cbn [app negb]. pose proof (applySetOp_ok op mss Xs HF) as Hl. rewrite <- (lists_length _ _ Hl) in Hs. cbv zeta.
  destruct (length (applySetOp op mss 0) =? 0)%nat; cbn [negb].
  - injection Hs as <-. wp_run. apply wp_erase. intros gone Hgone _. pose proof (same_fields _ _ Hg) as [HK _]. rewrite HK in Hgone. destruct gone; wp_run.
    + eexists. split; [exists true; split; [done|reflexivity]|]. by apply same_say, same_mark, same_tell, same_remove.
    + eexists. split; [exists false; split; [done|reflexivity]|]. by apply same_say, same_mark, same_remove.
  - destruct (empty_value_models OSet) as (v0 & Hv0 & ->). finish Hs. wp_run. eapply wp_setKey; [exact Hv0|]. wp_run. apply wp_lookupWrite. cbn [K put settle set_K].
    rewrite lookup_insert_eq. intros v Hv. wp_run. eapply add_members_ok; [apply lookup_insert_eq|]. cbv zeta.
    replace (∅ ∪ list_to_set (applySetOp op mss 0)) with (spec_op op Xs) by (destruct Hl as [_ ->]; set_solver). wp_run.
    apply same_say, same_mark, same_tell. etransitivity; [|by apply same_put]. fresh_now.
Qed.

Lemma spop_loop_ok fuel k rnd i count popped X e g (Q : list bytes -> view -> Prop) : (size X < fuel)%nat -> 0 <= i -> K g !! k = Some (ASet X, e) ->
  (forall ms, NoDup ms -> list_to_set ms ⊆ X -> Z.of_nat (length ms) = Z.min (Z.max 0 (count - i)) (Z.of_nat (size X)) ->
     Q (popped ++ ms) (update k (ASet (X ∖ list_to_set ms)) g)) ->
  wp t (spop_loop (ops:=ops) fuel k rnd i count popped) g Q.
Proof.
  revert i popped X g. induction fuel as [|fuel IH]; intros i popped X g Hf Hi HK HQ; [lia|]. cbn [spop_loop].
  assert (Z.min (Z.max 0 (count - i)) (Z.of_nat (size X)) = 0 -> Q popped g) as Hstop.
  { intros H0. specialize (HQ [] ltac:(constructor) ltac:(set_solver) ltac:(rewrite H0; done)). rewrite app_nil_r in HQ.
    replace (X ∖ list_to_set []) with X in HQ by set_solver. by rewrite (update_id k _ _ _ HK) in HQ. }
  destruct (Z.leb_spec count i); [apply wp_ret, Hstop; lia|]. wp_run. eapply wp_the_set; [exact HK|]. intros sv Hh.
  pose proof (SetValue.randomMember_holds sv X (rnd (Z.to_nat i) 0%nat) (rnd (Z.to_nat i) 1%nat 0%nat) Hh) as Hm.
  destruct (SetValue.randomMember _ _ _) as [m|]; [|apply wp_ret, Hstop; rewrite Hm, size_empty; lia].
  wp_run. eapply wp_set_erase; [exact HK|].
  assert (size X = S (size (X ∖ {[m]}))) as Hsz.
  { rewrite (union_difference_L {[m]} X) at 1 by set_solver. rewrite size_union, size_singleton by set_solver. done. }
  eapply IH; [|lia|by eapply update_lookup|]; [lia|]. intros ms Hn Hsub Hlen. rewrite <- app_assoc. cbn [app]. rewrite update_update.
  replace (X ∖ {[m]} ∖ list_to_set ms) with (X ∖ list_to_set (m :: ms)) by set_solver.
  apply HQ; [constructor; [|done]; intros Hin; apply (elem_of_list_to_set (C:=gset bytes)) in Hin; set_solver|set_solver|]. cbn [length]. lia.
Qed.

Lemma size_if_found k X e g (Q : nat -> view -> Prop) : K g !! k = Some (ASet X, e) -> Q (size X) g -> wp t (set_size_if (ops:=ops) true k) g Q.
Proof. intros HK HQ. unfold set_size_if. wp_run. eapply (wp_members k X e); [exact HK|]. intros sv _ Hsz. wp_run. by rewrite Hsz. Qed.

Lemma spop_ok : meets t (spop (ops:=ops) rq) (spec_spop rq).
Proof.
  start Hs. unfold spop. wp_run. apply wp_lookupTyped.
  cases b; cbv beta iota; try (finish Hs; wp_run; reflexivity); (destruct (spop_count rq) as [c|msg] eqn:Hc; [|finish Hs; wp_run; reflexivity]); cbn [is_found].
  2: unfold set_size_if; wp_run; cbn [Nat.eqb]; finish Hs; destruct c; wp_run; reflexivity.
  wp_run. eapply size_if_found; [exact HK|]. destruct (Nat.eqb_spec (size X) 0) as [Hz|Hz]; [finish Hs; destruct c; wp_run; reflexivity|].
  injection Hs as <-. wp_run. eapply (spop_loop_ok _ _ _ _ _ _ X e); [lia|lia|exact HK|]. intros ms Hn Hsub Hlen. cbn [app].
  assert (0 <= default 1 c) as Hc0.
  { unfold spop_count in Hc. destruct (argv rq !! 2%nat) as [text|]; [|by simplify_eq/=]. destruct (stringToInt64 text) as [n|]; [|done].
    destruct (Z.ltb_spec n 0); [done|]. by simplify_eq/=. }
  rewrite Z.sub_0_r, Z.max_r in Hlen by done.
  destruct (length ms =? 0)%nat eqn:Hl; wp_run; (eapply (wp_leave rq b (ASet (X ∖ list_to_set ms))); [by eapply update_lookup|done|]); intros g' Hg';
    (destruct c as [c|]; wp_run;
     [apply wp_bulks; intros g1 Hg1; eexists; split; [exists ms; split_and!; [done..|by rewrite Hl]|]; rewrite Hg1; apply same_say, same_say; rewrite Hg'; leave_now
     |cbn [default from_option] in Hlen]).
  - apply Nat.eqb_eq in Hl. cbn in Hlen. lia.
  - destruct ms as [|m [|m2 ms]]; cbn [length] in Hlen; [lia| |cbn in Hlen; lia]. apply (wp_lift _ _ m); [done|]. wp_run. eexists.
    split; [exists [m]; split_and!; [done..|reflexivity]|]. cbn [map concat]. rewrite app_nil_r. apply same_say. rewrite Hg'. leave_now.
Qed.

Lemma pick_members_ok members js g (Q : list bytes -> view -> Prop) : Forall (fun i => (i < length members)%nat) js ->
  (forall ms, length ms = length js -> Forall (fun m => m ∈ members) ms -> Q ms g) -> wp t (pick_members (D:=D) members js) g Q.
Proof.
  intros H. revert g Q. induction H as [|i js Hi _ IH]; intros g Q HQ; cbn [pick_members]; [by apply wp_ret, HQ|].
  destruct (lookup_lt_is_Some_2 members i Hi) as [x Hx]. apply wp_bind, (wp_lift _ _ _ _ _ Hx). wp_run. apply IH. intros ms Hl Hm. wp_run. apply HQ; [cbn; lia|].
  constructor; [by eapply list_elem_of_lookup_2|done].
Qed.

Lemma srandmember_ok : meets t (srandmember (ops:=ops) rq) (spec_srandmember rq).
Proof.
  start Hs. unfold srandmember. wp_run. apply wp_lookupTypedRead.
  cases b; cbv beta iota; try (finish Hs; wp_run; reflexivity); (destruct (srandmember_count rq) as [c|msg] eqn:Hc; [|finish Hs; wp_run; reflexivity]); cbn [is_found].
  2: unfold set_size_if; wp_run; cbn [Nat.eqb]; finish Hs; destruct c; wp_run; reflexivity.
  wp_run. eapply size_if_found; [exact HK|]. destruct (Nat.eqb_spec (size X) 0) as [Hz|Hz]; [finish Hs; destruct c; wp_run; reflexivity|].
  wp_run. eapply (wp_members b X e); [exact HK|]. intros sv Hl _. pose proof (lists_length _ _ Hl) as Hlen. wp_run. destruct c as [count|].
  - destruct (Z.eqb_spec count StringCommands.int64_min) as [|Hmin]; [done|]. injection Hs as <-.
    assert (is_i64 count) as Hi.
    { unfold srandmember_count in Hc. destruct (argv rq !! 2%nat) as [text|]; [|done]. destruct (stringToInt64 text) as [n|] eqn:Hn; [|done].
      simplify_eq. by apply stringToInt64_sound in Hn as [Hn _]. }
    unfold StringCommands.int64_min, s_range in *. cbn in Hi. destruct (Z.ltb_spec count 0); wp_run.
    + apply wp_checked; [unfold s_range; cbn; lia|]. wp_run. destruct (picks_ok (Z.to_nat (- count)) 0 (r 0%nat 0%nat) (length (SetValue.members sv))) as [Hpl Hpf]; [lia|].
      apply pick_members_ok; [done|]. intros ms Hml Hmf. wp_run. exists (say (Reply.bulkArray ms) g). split; [|reflexivity]. exists ms. split_and!; [|lia|reflexivity].
      eapply Forall_impl; [exact Hmf|]. intros x. by apply lists_elem.
    + eexists (say (Reply.bulkArray _) g). split; [|reflexivity]. eexists. pose proof (shuffle_perm (r 0%nat 0%nat) (SetValue.members sv)) as Hp. split_and!; [| | |reflexivity].
      * apply Forall_take. rewrite Hp. apply Forall_forall. intros x. by apply lists_elem.
      * eapply sublist_NoDup; [|apply sublist_take]. rewrite Hp. apply Hl.
      * rewrite length_take, Hp, Hlen. lia.
  - injection Hs as <-. destruct (lookup_lt_is_Some_2 (SetValue.members sv) (Z.to_nat (r 0%nat 0%nat 0%nat mod Z.of_nat (length (SetValue.members sv))))) as [m Hm].
    { assert (0 < Z.of_nat (length (SetValue.members sv))) as Hpos by (rewrite Hlen; lia). pose proof (Z.mod_pos_bound (r 0%nat 0%nat 0%nat) _ Hpos). lia. }
    wp_run. apply (wp_lift _ _ _ _ _ Hm). wp_run. eexists. split; [exists m; split; [|reflexivity]|reflexivity]. rewrite <- (lists_elem _ _ m Hl). by eapply list_elem_of_lookup_2.
Qed.

Lemma intercard_options_ok text after_keys limit : intercard_options rq text = StringCommands.Parsed (after_keys, limit) -> 0 <= limit /\ (2 < after_keys)%nat.
Proof.
  unfold intercard_options. destruct (stringToInt64 text) as [n|]; [|done]. destruct (Z.leb_spec n 0); [done|]. destruct (_ <? _); [done|].
  destruct (intercard_limit _) as [l|] eqn:Hl; [|done]. intros [= <- <-]. split; [|lia]. unfold intercard_limit in Hl.
  destruct (drop _ (argv rq)) as [|token rest]; [by simplify_eq|]. destruct (negb _); [done|]. destruct rest as [|x [|]]; [done| |done].
  destruct (stringToInt64 x) as [z|]; [|done]. destruct (Z.ltb_spec z 0); [done|]. by simplify_eq.
Qed.

Lemma sintercard_ok : meets t (sintercard (ops:=ops) rq) (spec_sintercard rq).
Proof.
  start Hs. unfold sintercard, gatherSets. wp_run. destruct (intercard_options rq b) as [[after_keys limit]|msg] eqn:Ho; [|finish Hs; wp_run; reflexivity].
  apply intercard_options_ok in Ho as [Hl Ha]. replace (S (after_keys - 1) - 2)%nat with (after_keys - 2)%nat by lia. wp_run. apply gather_ok. intros g' r Hg Hr.
  destruct (gathered rq (take (after_keys - 2) (drop 2 (argv rq))) g) as [g0 [Xs|]]; cbn [fst snd] in *; [|subst r; finish Hs; wp_run; exact Hg].
  destruct Hr as (mss & HF & ->). finish Hs. cbn [app]. wp_run. rewrite (applySetOp_limit mss Xs limit Hl HF). by apply same_say.
Qed.

(** The second half of SMOVE: the member joins what is left at the destination. *)
Lemma smove_join dst m g0 g (P : view -> Prop) : same g g0 -> (match K g0 !! dst with Some (a, _) => atype a = OSet | None => True end) ->
  with_set dst g0
    (exactly (say (Reply.integer 1) (mark 1 (tell rq Notify.kSet "sadd" dst (put dst (ASet ({[m]} ∪ ∅)) None g0)))))
    (fun Y e => exactly (say (Reply.integer 1) (mark 1 (tell rq Notify.kSet "sadd" dst (put dst (ASet ({[m]} ∪ Y)) e g0))))) = Some P ->
  wp t (target ← lookupOrCreate rq dst OSet;
        match target with
        | Found _ => _ ← on_set dst (fun s => SetValue.add s m); _ ← notify rq Notify.kSet "sadd" dst; _ ← markDirty 1; integer 1
        | _ => mret tt
        end) g (fun _ g1 => exists g', P g' /\ same g1 g').
Proof.
  intros Hg Hty Hs. pose proof (same_fields _ _ Hg) as [HK0 _]. unfold with_set in Hs. wp_run. apply wp_lookupOrCreate; [done|]. rewrite HK0.
  destruct (K g0 !! dst) as [[a e]|] eqn:HK.
  - rewrite bool_decide_true by done. intros v Hv. destruct a as [| | |Y|]; try done. finish Hs. wp_run. eapply wp_set_add; [cbn; rewrite HK0; exact HK|]. wp_run.
    apply same_say, same_mark, same_tell. etransitivity; [|by apply same_put]. put_now (eq_trans (f_equal (lookup dst) HK0) HK).
  - intros v Hv. finish Hs. wp_run. eapply wp_set_add; [apply lookup_insert_eq|]. wp_run.
    apply same_say, same_mark, same_tell. etransitivity; [|by apply same_put]. fresh_now.
Qed.

Lemma smove_ok : meets t (smove (ops:=ops) rq) (spec_smove rq).
Proof.
  start Hs. unfold smove. wp_run. apply wp_lookupTyped. cases b; cbv beta iota; try (finish Hs; wp_run; reflexivity).
  2: wp_run; apply wp_lookupTyped; rename HK into HS; cases b0; cbv beta iota; finish Hs; unfold contains_if; cbn [is_found]; wp_run; reflexivity.
  assert (match K g !! b0 with Some (a, _) => atype a = OSet | None => True end ->
    match K (leave rq b (ASet (X ∖ {[b1]})) e (tell rq Notify.kSet "srem" b g)) !! b0 with Some (a, _) => atype a = OSet | None => True end) as Hty.
  { intros Ht. unfold leave. destruct (decide (b = b0)) as [<-|]; case_if; cbn; [by rewrite lookup_delete_eq|by rewrite lookup_insert_eq|by rewrite lookup_delete_ne|by rewrite lookup_insert_ne]. }
  wp_run. apply wp_lookupTyped. cbn [K settle]. destruct (K g !! b0) as [[a e0]|] eqn:HD.
  1: destruct a as [| | |Y|]; [| | |cbn [atype]; rewrite bool_decide_true by done; intros v2 _|]; try (cbn; finish Hs; wp_run; reflexivity).
  all: cbn [is_found]; unfold contains_if; wp_run; (eapply wp_set_contains; [exact HK|]); destruct (bool_decide (b1 ∈ X)); cbn [negb] in *;
    [|finish Hs; wp_run; reflexivity]; wp_step; (eapply wp_set_erase; [exact HK|]); wp_step; wp_step; wp_step;
    (eapply (wp_leave rq b (ASet (X ∖ {[b1]}))); [by eapply update_lookup|done|]); intros g' Hg'; (eapply smove_join; [|by apply Hty|exact Hs]);
    rewrite Hg'; leave_now.
Qed.

Definition commands : list (string * M D unit * spec) :=
  [ ("sadd", sadd rq, spec_sadd rq); ("srem", srem rq, spec_srem rq); ("scard", scard rq, spec_scard rq); ("sismember", sismember rq, spec_sismember rq);
    ("smismember", smismember rq, spec_smismember rq); ("smembers", smembers rq, spec_smembers rq); ("spop", spop rq, spec_spop rq);
    ("srandmember", srandmember rq, spec_srandmember rq); ("smove", smove rq, spec_smove rq); ("sinter", sinter rq, spec_set_op rq Intersect);
    ("sunion", sunion rq, spec_set_op rq Union); ("sdiff", sdiff rq, spec_set_op rq Difference); ("sinterstore", sinterstore rq, spec_set_store rq Intersect);
    ("sunionstore", sunionstore rq, spec_set_store rq Union); ("sdiffstore", sdiffstore rq, spec_set_store rq Difference);
    ("sintercard", sintercard rq, spec_sintercard rq) ]%string.

#[local] Hint Resolve sadd_ok srem_ok scard_ok sismember_ok smismember_ok smembers_ok spop_ok srandmember_ok smove_ok set_op_ok set_store_ok sintercard_ok : mnemos.

Lemma set_commands_ok : Forall (fun '(n, h, sp) => meets t h sp) commands.
Proof. unfold commands. repeat (apply Forall_cons; split; [eauto with mnemos|]). by apply Forall_nil. Qed.
End Refinement.
End SetCommands.
