(* ===== verification/KeyspaceCommands.v ===== *)
(** * KeyspaceCommands: the commands on keys of any type

    [src/server/commands/keyspace_commands.cpp]: deletion, existence, types,
    iteration, renaming, copying and deadlines, and their refinement of
    operations on the abstract keyspace. *)

From Stdlib Require Import ZArith Lia.
Set Warnings "-register-all".
From stdpp Require Import base list numbers gmap option strings.
From S2P Require Import Prelude Encoding Strings Listpack MapSpec Dict HashValue ZSetValue SetValue ListValue Db Object Resp Reply Notify CommandTable Command Keyspace StringCommands.
Import Command Keyspace.Keyspace.

Module KeyspaceCommands.

Definition kDefaultScanCount : Z := 10.
Definition kMaxScanIterations : nat := Z.to_nat 10000.

(** [std::stoull]: leading white space and a sign are accepted, what follows
    the digits is ignored, a negative number wraps; [None] is an exception. *)
Fixpoint leading_digits (s : bytes) (acc : Z) : Z :=
  match s with
  | c :: s => if (48 <=? c) && (c <=? 57) then leading_digits s (acc * 10 + (c - 48)) else acc
  | [] => acc
  end.

Definition starts_with_digit (s : bytes) : bool := match s with c :: _ => (48 <=? c) && (c <=? 57) | [] => false end.

Definition stoull (s : bytes) : option Z :=
  let s := Resp.skip_space s in
  let '(negative, s) := match s with c :: r => if c =? 45 then (true, r) else if c =? 43 then (false, r) else (false, s) | [] => (false, s) end in
  if negb (starts_with_digit s) then None
  else
    let n := leading_digits s 0 in
    if 2 ^ 64 <=? n then None else Some (if negative : bool then u64 (- n) else n).

Record ScanOptions := mkScan { pattern : option bytes; count : Z; type_filter : bytes }.

Section Handlers.
Context {D : Type -> Type} {ops : MapOps D} (char_signed : bool) (rq : request).
Abbreviation handler := (M D unit).
Abbreviation is_token t name := (equalsIgnoreCase t (str name)).

Fixpoint del_loop (keys : list bytes) (removed : Z) : M D Z :=
  match keys with
  | [] => mret removed
  | key :: keys =>
      v ← lookupRead rq key;
      match v with
      | None => del_loop keys removed
      | Some _ =>
          gone ← erase key;
          if gone : bool then
            _ ← notify rq Notify.kGeneric "del" key;
            del_loop keys (removed + 1)
          else del_loop keys removed
      end
  end.

Definition del : handler :=
  removed ← del_loop (drop 1 (argv rq)) 0;
  _ ← (if 0 <? removed then markDirty removed else mret tt);
  integer removed.

Definition unlink : handler := del.

Fixpoint exists_loop (keys : list bytes) (count : Z) : M D Z :=
  match keys with
  | [] => mret count
  | key :: keys =>
      b ← exists_ rq key;
      if b : bool then exists_loop keys (count + 1) else _ ← notifyKeyMiss rq key; exists_loop keys count
  end.

Definition exists__ : handler := n ← exists_loop (drop 1 (argv rq)) 0; integer n.

Definition type : handler :=
  key ← arg rq 1;
  v ← lookupRead rq key;
  _ ← (if is_some v then mret tt else notifyKeyMiss rq key);
  write (Reply.simpleString (match v with Some v => typeName (Object.type_ v) | None => str "none" end)).

Fixpoint touch_loop (keys : list bytes) (count : Z) : M D Z :=
  match keys with
  | [] => mret count
  | key :: keys =>
      v ← lookupRead rq key;
      if is_some v then touch_loop keys (count + 1) else _ ← notifyKeyMiss rq key; touch_loop keys count
  end.

Definition touch : handler := n ← touch_loop (drop 1 (argv rq)) 0; integer n.

Fixpoint keys_loop (pattern : bytes) (ks : list bytes) (matches : list bytes) : M D (list bytes) :=
  match ks with
  | [] => mret matches
  | key :: ks =>
      hit ← lift (Glob.globMatch char_signed false pattern key);
      if negb hit then keys_loop pattern ks matches
      else
        v ← lookupRead rq key;
        keys_loop pattern ks (if is_some v then matches ++ [key] else matches)
  end.

Definition keys : handler :=
  pattern ← arg rq 1;
  ks ← Command.keys;
  matches ← keys_loop pattern ks [];
  bulkArray matches.

Fixpoint scan_options (fuel : nat) (tokens : list bytes) (o : ScanOptions) : option (StringCommands.parsed ScanOptions) :=
  match fuel, tokens with
  | O, _ => None
  | _, [] => Some (StringCommands.Parsed o)
  | S fuel, token :: rest =>
      match rest with
      | value :: rest =>
          if is_token token "MATCH" then scan_options fuel rest (mkScan (Some value) (count o) (type_filter o))
          else if is_token token "COUNT" then
            match stringToInt64 value with
            | Some n => if n <? 1 then Some (StringCommands.Refused StringCommands.syntax_error)
                        else scan_options fuel rest (mkScan (pattern o) n (type_filter o))
            | None => Some (StringCommands.Refused StringCommands.syntax_error)
            end
          else if is_token token "TYPE" then scan_options fuel rest (mkScan (pattern o) (count o) (toLower value))
          else Some (StringCommands.Refused StringCommands.syntax_error)
      | [] => Some (StringCommands.Refused StringCommands.syntax_error)
      end
  end.

(** [do ... while]: [more] iterations are allowed after this one. *)
Fixpoint scan_loop (more : nat) (d : Db.t D (Object.value D)) (cursor : Z) (wanted : Z) (collected : list bytes) : option (Z * list bytes) :=
  '(cursor, collected) ← Db.scan d cursor collected;
  if negb (cursor =? 0) && (Z.of_nat (length collected) <? wanted) then
    match more with
    | O => Some (cursor, collected)
    | S more => scan_loop more d cursor wanted collected
    end
  else Some (cursor, collected).

Fixpoint filter_loop (o : ScanOptions) (ks : list bytes) (results : list bytes) : M D (list bytes) :=
  match ks with
  | [] => mret results
  | key :: ks =>
      hit ← (match pattern o with Some p => lift (Glob.globMatch char_signed false p key) | None => mret true end);
      if negb hit then filter_loop o ks results
      else
        v ← lookupRead rq key;
        match v with
        | None => filter_loop o ks results
        | Some v =>
            if negb (length (type_filter o) =? 0)%nat && negb (typeName (Object.type_ v) =b? type_filter o) then filter_loop o ks results
            else filter_loop o ks (results ++ [key])
        end
  end.

Definition scan : handler :=
  text ← arg rq 1;
  match stoull text with
  | None => error (str "ERR invalid cursor")
  | Some cursor =>
      o ← lift (scan_options (S (argc rq)) (drop 2 (argv rq)) (mkScan None kDefaultScanCount []));
      match o with
      | StringCommands.Refused msg => error msg
      | StringCommands.Parsed o =>
          '(cursor, collected) ← (fun s => match scan_loop (kMaxScanIterations - 1) (db s) cursor (count o) [] with Some r => Some (s, r) | None => None end);
          results ← filter_loop o collected [];
          _ ← arrayHeader 2;
          _ ← bulk (to_string cursor);
          bulkArray results
      end
  end.

Definition randomkey : handler :=
  rnd ← random rq;
  key ← randomKey rq (rnd 0%nat);
  bulk_or_null rq key.

Definition renameGeneric (fail_if_exists : bool) : handler :=
  src ← arg rq 1; dst ← arg rq 2;
  source ← lookupWrite rq src;
  match source with
  | None => error (str "ERR no such key")
  | Some _ =>
      if bool_decide (src = dst) then (if fail_if_exists then integer 0 else ok)
      else
        taken ← (if fail_if_exists then v ← lookupWrite rq dst; mret (is_some v) else mret false);
        if taken : bool then integer 0
        else
          v ← deref src;
          rnd ← random rq;
          moved ← lift (Object.copy rnd v);
          expire_at ← expireAtMs src;
          _ ← erase src;
          _ ← setKey dst moved;
          _ ← (if 0 <=? expire_at then setExpireAt dst expire_at else mret tt);
          _ ← markDirty 1;
          _ ← notify rq Notify.kGeneric "rename_from" src;
          _ ← notify rq Notify.kGeneric "rename_to" dst;
          if fail_if_exists then integer 1 else ok
  end.

Definition rename : handler := renameGeneric false.
Definition renamenx : handler := renameGeneric true.

Fixpoint copy_options (tokens : list bytes) (replace : bool) (target_db : Z) : StringCommands.parsed (bool * Z) :=
  match tokens with
  | [] => StringCommands.Parsed (replace, target_db)
  | token :: rest =>
      if is_token token "REPLACE" then copy_options rest true target_db
      else
        match is_token token "DB", rest with
        | true, value :: rest =>
            match stringToInt64 value with
            | Some n => if (n <? 0) || (databaseCount rq <=? n) then StringCommands.Refused (str "ERR DB index is out of range")
                        else copy_options rest replace n
            | None => StringCommands.Refused (str "ERR DB index is out of range")
            end
        | _, _ => StringCommands.Refused StringCommands.syntax_error
        end
  end.

Definition copy : handler :=
  src ← arg rq 1; dst ← arg rq 2;
  match copy_options (drop 3 (argv rq)) false (index rq) with
  | StringCommands.Refused msg => error msg
  | StringCommands.Parsed (replace, target_db) =>
      if (target_db =? index rq) && bool_decide (src = dst) then error (str "ERR source and destination objects are the same")
      else
        source ← lookupRead rq src;
        match source with
        | None => _ ← notifyKeyMiss rq src; integer 0
        | Some _ =>
            taken ← (if replace : bool then mret false else v ← lookupRead_at rq target_db dst; mret (is_some v));
            if taken : bool then integer 0
            else
              v ← deref src;
              rnd ← random rq;
              copied ← lift (Object.copy rnd v);
              expire_at ← expireAtMs src;
              _ ← setKey_at rq target_db dst copied;
              _ ← (if 0 <=? expire_at then setExpireAt_at rq target_db dst expire_at else mret tt);
              _ ← markDirty 1;
              _ ← notify_at Notify.kGeneric "copy_to" dst target_db;
              integer 1
        end
  end.

(** ** Deadlines *)

Record flags := mkFlags { nx : bool; xx : bool; gt : bool; lt : bool }.

Fixpoint expire_flags (tokens : list bytes) (f : flags) : StringCommands.parsed flags :=
  match tokens with
  | [] => StringCommands.Parsed f
  | token :: rest =>
      if is_token token "NX" then expire_flags rest (mkFlags true (xx f) (gt f) (lt f))
      else if is_token token "XX" then expire_flags rest (mkFlags (nx f) true (gt f) (lt f))
      else if is_token token "GT" then expire_flags rest (mkFlags (nx f) (xx f) true (lt f))
      else if is_token token "LT" then expire_flags rest (mkFlags (nx f) (xx f) (gt f) true)
      else StringCommands.Refused (str "ERR Unsupported option " ++ token)
  end.

(** The amount and the options, before the key is looked at. *)
Definition expire_arguments (text : bytes) : StringCommands.parsed (Z * flags) :=
  match stringToInt64 text with
  | None => StringCommands.Refused StringCommands.not_an_integer
  | Some raw =>
      match expire_flags (drop 3 (argv rq)) (mkFlags false false false false) with
      | StringCommands.Refused msg => StringCommands.Refused msg
      | StringCommands.Parsed f =>
          if (gt f && lt f) || (nx f && (xx f || gt f || lt f))
          then StringCommands.Refused (str "ERR NX and XX, GT or LT options at the same time are not compatible")
          else StringCommands.Parsed (raw, f)
      end
  end.

(** The absolute deadline, guarded against overflow; [None] is refused. *)
Definition expire_when (raw unit_multiplier : Z) (absolute : bool) : option Z :=
  if (Z.quot StringCommands.int64_max unit_multiplier <? raw) || (raw <? Z.quot StringCommands.int64_min unit_multiplier) then None
  else
    let when := raw * unit_multiplier in
    if absolute then Some when
    else if StringCommands.int64_max - now rq <? when then None
    else Some (when + now rq).

(** The condition under which NX, XX, GT or LT stops the update. *)
Definition expire_blocked (f : flags) (current when : Z) : bool :=
  let has_ttl := 0 <=? current in
  (nx f && has_ttl) || (xx f && negb has_ttl) || (gt f && (negb has_ttl || (when <=? current))) || (lt f && has_ttl && (current <=? when)).

Definition expireGeneric (unit_multiplier : Z) (absolute : bool) (command : string) : handler :=
  text ← arg rq 2;
  match expire_arguments text with
  | StringCommands.Refused msg => error msg
  | StringCommands.Parsed (raw, f) =>
      key ← arg rq 1;
      v ← lookupWrite rq key;
      match v with
      | None => integer 0
      | Some _ =>
          match expire_when raw unit_multiplier absolute with
          | None => error (str "ERR invalid expire time in '" ++ str command ++ str "' command")
          | Some w =>
              when ← checked w;
              current ← expireAtMs key;
              if expire_blocked f current when then integer 0
              else if when <=? now rq then
                _ ← erase key;
                _ ← markDirty 1;
                _ ← notify rq Notify.kGeneric "del" key;
                integer 1
              else
                _ ← setExpireAt key when;
                _ ← markDirty 1;
                _ ← notify rq Notify.kGeneric "expire" key;
                integer 1
          end
      end
  end.

Definition ttlGeneric (in_milliseconds : bool) : handler :=
  key ← arg rq 1;
  ms ← ttlMs rq key;
  if ms <? 0 then
    _ ← (if ms =? -2 then notifyKeyMiss rq key else mret tt);
    integer ms
  else if in_milliseconds then integer ms
  else rounded ← checked (ms + 500); integer (Z.quot rounded 1000).

Definition expireTimeGeneric (in_milliseconds : bool) : handler :=
  key ← arg rq 1;
  v ← lookupRead rq key;
  match v with
  | None => _ ← notifyKeyMiss rq key; integer (-2)
  | Some _ =>
      when ← expireAtMs key;
      if when <? 0 then integer (-1) else integer (if in_milliseconds then when else Z.quot when 1000)
  end.

Definition expire : handler := expireGeneric 1000 false "expire".
Definition pexpire : handler := expireGeneric 1 false "pexpire".
Definition expireat : handler := expireGeneric 1000 true "expireat".
Definition pexpireat : handler := expireGeneric 1 true "pexpireat".
Definition ttl : handler := ttlGeneric false.
Definition pttl : handler := ttlGeneric true.
Definition expiretime : handler := expireTimeGeneric false.
Definition pexpiretime : handler := expireTimeGeneric true.

Definition persist : handler :=
  key ← arg rq 1;
  v ← lookupWrite rq key;
  match v with
  | None => integer 0
  | Some _ =>
      removed ← Command.persist key;
      _ ← (if removed : bool then _ ← markDirty 1; notify rq Notify.kGeneric "persist" key else mret tt);
      integer (if removed : bool then 1 else 0)
  end.

End Handlers.

(** ** Specifications *)

Section Specs.
Context (char_signed : bool) (rq : request).
Implicit Types (g : view) (k : bytes).
Abbreviation null := (Keyspace.null rq).
Abbreviation tell := (Keyspace.tell rq).
Abbreviation keymiss := (Keyspace.keymiss rq).

(** Deleting the visible ones of the keys, each with its event. *)
Fixpoint delete_each (ks : list bytes) (n : Z) g : view * Z :=
  match ks with
  | [] => (g, n)
  | k :: ks => if is_some (K g !! k) then delete_each ks (n + 1) (tell Notify.kGeneric "del" k (remove k g)) else delete_each ks n g
  end.

Definition spec_del : spec := fun g =>
  let '(g, n) := delete_each (drop 1 (argv rq)) 0 g in
  exactly (say (Reply.integer n) (if 0 <? n then mark n g else g)).

(** A missing key is announced, a repeated one is counted again. *)
Fixpoint count_each (ks : list bytes) (n : Z) g : view * Z :=
  match ks with
  | [] => (g, n)
  | k :: ks => if is_some (K g !! k) then count_each ks (n + 1) g else count_each ks n (keymiss k g)
  end.

Definition spec_exists : spec := fun g =>
  let '(g, n) := count_each (drop 1 (argv rq)) 0 g in exactly (say (Reply.integer n) g).

Definition spec_type : spec := fun g =>
  k ← argv rq !! 1%nat;
  exactly (match K g !! k with
           | Some (a, _) => say (Reply.simpleString (typeName (atype a))) g
           | None => say (Reply.simpleString (str "none")) (keymiss k g)
           end).

Definition matching (p k : bytes) : Prop := Glob.globMatch char_signed false p k = Some true.

Definition spec_keys : spec := fun g =>
  p ← argv rq !! 1%nat;
  Some (fun g1 => exists ks, NoDup ks /\ (forall k, k ∈ ks <-> is_Some (K g !! k) /\ matching p k) /\ g1 = say (Reply.bulkArray ks) g).

(** A key that SCAN may return. *)
Definition selected (o : ScanOptions) g k : Prop :=
  exists a e, K g !! k = Some (a, e) /\ match pattern o with Some p => matching p k | None => True end /\
    (type_filter o = [] \/ typeName (atype a) = type_filter o).

Definition spec_scan : spec := fun g =>
  text ← argv rq !! 1%nat; o ← scan_options (S (argc rq)) (drop 2 (argv rq)) (mkScan None kDefaultScanCount []);
  match stoull text with
  | None => exactly (refuse (str "ERR invalid cursor") g)
  | Some _ =>
      match o with
      | StringCommands.Refused msg => exactly (refuse msg g)
      | StringCommands.Parsed o =>
          Some (fun g1 => exists c ks, is_u64 c /\ Forall (selected o g) ks /\
            g1 = say (Reply.arrayHeader 2 ++ Reply.bulk (to_string c) ++ Reply.bulkArray ks) g)
      end
  end.

(** A visible key; none is also an answer when the sampling only met keys that
    had expired. *)
Definition spec_randomkey : spec := fun g =>
  Some (fun g1 => g1 = say null g \/ exists k, is_Some (K g !! k) /\ g1 = say (Reply.bulk k) g).

Definition spec_rename (fail_if_exists : bool) : spec := fun g =>
  src ← argv rq !! 1%nat; dst ← argv rq !! 2%nat;
  let reply n := if fail_if_exists then Reply.integer n else Reply.simpleString (str "OK") in
  match K g !! src with
  | None => exactly (refuse (str "ERR no such key") g)
  | Some (a, e) =>
      if bool_decide (src = dst) then exactly (say (reply 0) g)
      else if fail_if_exists && is_some (K g !! dst) then exactly (say (Reply.integer 0) g)
      else if copyable a then
        exactly (say (reply 1) (tell Notify.kGeneric "rename_to" dst (tell Notify.kGeneric "rename_from" src (mark 1 (put dst a e (remove src g))))))
      else None
  end.

(** The keyspace of a database, and a binding added to it. *)
Definition keyspace_at (i : Z) g : option keyspace := if i =? index rq then Some (K g) else KO g !! i.
Definition put_at (i : Z) k (a : aval) (e : option Z) g : view :=
  if i =? index rq then put k a e g else set_KO g (alter (<[k := (a, e)]>) i (KO g)).

Definition spec_copy : spec := fun g =>
  src ← argv rq !! 1%nat; dst ← argv rq !! 2%nat;
  match copy_options rq (drop 3 (argv rq)) false (index rq) with
  | StringCommands.Refused msg => exactly (refuse msg g)
  | StringCommands.Parsed (replace, i) =>
      if (i =? index rq) && bool_decide (src = dst) then exactly (refuse (str "ERR source and destination objects are the same") g)
      else
        match K g !! src with
        | None => exactly (say (Reply.integer 0) (keymiss src g))
        | Some (a, e) =>
            G ← keyspace_at i g;
            if negb replace && is_some (G !! dst) then exactly (say (Reply.integer 0) g)
            else if copyable a then exactly (say (Reply.integer 1) (tell_at i Notify.kGeneric "copy_to" dst (mark 1 (put_at i dst a e g))))
            else None
        end
  end.

(** NX: no deadline yet; XX: there is one; GT, LT: the new one is later,
    earlier, where no deadline is later than any. *)
Definition expire_allowed (f : flags) (current : option Z) (when : Z) : bool :=
  match current with
  | Some c => negb (nx f) && (negb (gt f) || (c <? when)) && (negb (lt f) || (when <? c))
  | None => negb (xx f) && negb (gt f)
  end.

Definition spec_expire (unit_multiplier : Z) (absolute : bool) (command : string) : spec := fun g =>
  k ← argv rq !! 1%nat; text ← argv rq !! 2%nat;
  exactly
    match expire_arguments rq text with
    | StringCommands.Refused msg => refuse msg g
    | StringCommands.Parsed (raw, f) =>
        match K g !! k with
        | None => say (Reply.integer 0) g
        | Some (a, e) =>
            let when := raw * unit_multiplier + (if absolute then 0 else now rq) in
            if (StringCommands.int64_max <? when) || (raw * unit_multiplier <? StringCommands.int64_min)
            then refuse (str "ERR invalid expire time in '" ++ str command ++ str "' command") g
            else if negb (expire_allowed f e when) then say (Reply.integer 0) g
            else if when <=? now rq then say (Reply.integer 1) (tell Notify.kGeneric "del" k (mark 1 (remove k g)))
            else say (Reply.integer 1) (tell Notify.kGeneric "expire" k (mark 1 (put k a (Some when) g)))
        end
    end.

Definition spec_ttl (in_milliseconds : bool) : spec := fun g =>
  k ← argv rq !! 1%nat;
  match K g !! k with
  | None => exactly (say (Reply.integer (-2)) (keymiss k g))
  | Some (_, None) => exactly (say (Reply.integer (-1)) g)
  | Some (_, Some w) =>
      if in_milliseconds then exactly (say (Reply.integer (w - now rq)) g)
      else if StringCommands.int64_max <? w - now rq + 500 then None
      else exactly (say (Reply.integer (Z.quot (w - now rq + 500) 1000)) g)
  end.

Definition spec_expiretime (in_milliseconds : bool) : spec := fun g =>
  k ← argv rq !! 1%nat;
  exactly (match K g !! k with
           | None => say (Reply.integer (-2)) (keymiss k g)
           | Some (_, None) => say (Reply.integer (-1)) g
           | Some (_, Some w) => say (Reply.integer (if in_milliseconds then w else Z.quot w 1000)) g
           end).

Definition spec_persist : spec := fun g =>
  k ← argv rq !! 1%nat;
  exactly (match K g !! k with
           | Some (a, Some _) => say (Reply.integer 1) (tell Notify.kGeneric "persist" k (mark 1 (put k a None g)))
           | _ => say (Reply.integer 0) g
           end).

End Specs.

(** ** Refinement *)

Lemma alter_insert_same_gen {A} (f : A -> A) (i : Z) (x : A) (m : gmap Z A) : m !! i = Some x -> alter f i m = <[i := f x]> m.
Proof.
  intros Hx. apply map_eq. intros j. destruct (decide (j = i)) as [->|Hj]; [by rewrite lookup_alter_eq, Hx, lookup_insert_eq|].
  by rewrite lookup_alter_ne, lookup_insert_ne.
Qed.

Section Refinement.
Context {D : Type -> Type} {ops : MapOps D} {laws : MapLaws D} (char_signed : bool) (rq : request).
Implicit Types (g : view) (k : bytes).
Abbreviation t := (now rq).
(** The clock is past the epoch. *)
Context (Ht : 0 <= t).

Ltac start Hs := intros g P Hs; match type of Hs with ?sp _ = _ => let h := head_of sp in unfold h in Hs end; args_in Hs.

(** The loops carry the view up to which deadlines were checked. *)
Lemma delete_each_same ks n g g' : same g g' -> same (delete_each rq ks n g).1 (delete_each rq ks n g').1 /\ (delete_each rq ks n g).2 = (delete_each rq ks n g').2.
Proof.
  revert n g g'. induction ks as [|k ks IH]; intros n g g' Hg; cbn [delete_each]; [done|]. pose proof (same_fields g g' Hg) as [HK _]. rewrite HK.
  destruct (is_some (K g' !! k)); apply IH; [by apply same_tell, same_remove|done].
Qed.

Lemma count_each_same ks n g g' : same g g' -> same (count_each rq ks n g).1 (count_each rq ks n g').1 /\ (count_each rq ks n g).2 = (count_each rq ks n g').2.
Proof.
  revert n g g'. induction ks as [|k ks IH]; intros n g g' Hg; cbn [count_each]; [done|]. pose proof (same_fields g g' Hg) as [HK _]. rewrite HK.
  destruct (is_some (K g' !! k)); apply IH; [done|by apply same_tell].
Qed.

Lemma del_loop_ok ks n g (Q : Z -> view -> Prop) :
  (forall g', same g' (delete_each rq ks n g).1 -> Q (delete_each rq ks n g).2 g') -> wp t (del_loop (ops:=ops) rq ks n) g Q.
Proof.
  revert n g. induction ks as [|k ks IH]; intros n g HQ; cbn [del_loop delete_each] in *; [by apply wp_ret, HQ|].
  wp_run. apply wp_lookupRead. destruct (K g !! k) as [[a e]|] eqn:HK; cbn [is_some] in *.
  - intros v Hv. wp_run. apply wp_erase. intros b Hb _. rewrite Hb by (cbn; by rewrite HK). wp_run. apply IH. intros g' Hg'.
    destruct (delete_each_same ks (n + 1) (tell rq Notify.kGeneric "del" k (remove k (settle k g))) (tell rq Notify.kGeneric "del" k (remove k g)) ltac:(done)) as [H1 H2].
    unfold Keyspace.tell in *. rewrite H2. apply HQ. by rewrite Hg'.
  - apply IH. intros g' Hg'. destruct (delete_each_same ks n (settle k g) g ltac:(done)) as [H1 ->]. apply HQ. by rewrite Hg'.
Qed.

Lemma del_ok : meets t (del (ops:=ops) rq) (spec_del rq).
Proof.
  intros g P Hs. unfold spec_del in Hs. unfold del. wp_run. apply del_loop_ok. intros g' Hg'. destruct (delete_each rq _ 0 g) as [g1 n]. cbn [fst snd] in *.
  finish Hs. destruct (0 <? n); wp_run; [by apply same_say, same_mark|by apply same_say].
Qed.

Lemma exists_loop_ok ks n g (Q : Z -> view -> Prop) :
  (forall g', same g' (count_each rq ks n g).1 -> Q (count_each rq ks n g).2 g') -> wp t (exists_loop (ops:=ops) rq ks n) g Q.
Proof.
  revert n g. induction ks as [|k ks IH]; intros n g HQ; cbn [exists_loop count_each] in *; [by apply wp_ret, HQ|].
  wp_run. apply wp_exists. destruct (K g !! k) as [[a e]|] eqn:HK; cbn [is_some] in *; wp_run; apply IH; intros g' Hg'.
  - destruct (count_each_same ks (n + 1) (settle k g) g ltac:(done)) as [H1 ->]. apply HQ. by rewrite Hg'.
  - destruct (count_each_same ks n (keymiss rq k (settle k g)) (keymiss rq k g) ltac:(done)) as [H1 H2]. unfold Keyspace.keymiss in *. rewrite H2. apply HQ. by rewrite Hg'.
Qed.

Lemma touch_loop_ok ks n g (Q : Z -> view -> Prop) :
  (forall g', same g' (count_each rq ks n g).1 -> Q (count_each rq ks n g).2 g') -> wp t (touch_loop (ops:=ops) rq ks n) g Q.
Proof.
  revert n g. induction ks as [|k ks IH]; intros n g HQ; cbn [touch_loop count_each] in *; [by apply wp_ret, HQ|].
  wp_run. apply wp_lookupRead. destruct (K g !! k) as [[a e]|] eqn:HK; cbn [is_some] in *; [intros v Hv|]; wp_run; apply IH; intros g' Hg'.
  - destruct (count_each_same ks (n + 1) (settle k g) g ltac:(done)) as [H1 ->]. apply HQ. by rewrite Hg'.
  - destruct (count_each_same ks n (keymiss rq k (settle k g)) (keymiss rq k g) ltac:(done)) as [H1 H2]. unfold Keyspace.keymiss in *. rewrite H2. apply HQ. by rewrite Hg'.
Qed.

Lemma exists_ok : meets t (exists__ (ops:=ops) rq) (spec_exists rq).
Proof.
  intros g P Hs. unfold spec_exists in Hs. unfold exists__. wp_run. apply exists_loop_ok. intros g' Hg'. destruct (count_each rq _ 0 g) as [g1 n]. cbn [fst snd] in *.
  finish Hs. wp_run. by apply same_say.
Qed.

Lemma touch_command_ok : meets t (touch (ops:=ops) rq) (spec_exists rq).
Proof.
  intros g P Hs. unfold spec_exists in Hs. unfold touch. wp_run. apply touch_loop_ok. intros g' Hg'. destruct (count_each rq _ 0 g) as [g1 n]. cbn [fst snd] in *.
  finish Hs. wp_run. by apply same_say.
Qed.

Lemma type_ok : meets t (type (ops:=ops) rq) (spec_type rq).
Proof.
  start Hs. finish Hs. unfold type. wp_run. apply wp_lookupRead. destruct (K g !! b) as [[a e]|]; [intros v Hv|]; wp_run; [|reflexivity].
  rewrite (models_type v a Hv). reflexivity.
Qed.

Lemma keys_loop_ok p ks matches g (Q : list bytes -> view -> Prop) :
  (forall g' found, same g' g -> found `sublist_of` ks -> (forall k, k ∈ found <-> k ∈ ks /\ is_Some (K g !! k) /\ matching char_signed p k) -> Q (matches ++ found) g') ->
  wp t (keys_loop (ops:=ops) char_signed rq p ks matches) g Q.
Proof.
  revert matches g. induction ks as [|k ks IH]; intros matches g HQ; cbn [keys_loop].
  { apply wp_ret. rewrite <- (app_nil_r matches). apply HQ; [done|done|]. set_solver. }
  wp_run. eapply wp_lift; [apply Glob.globMatch_total|]. unfold matching in *. setoid_rewrite Glob.globMatch_total in HQ. setoid_rewrite Glob.globMatch_total in IH.
  destruct (Glob.ref_match char_signed false (Glob.tokenize p) k) eqn:Hm; wp_run.
  - apply wp_lookupRead. destruct (K g !! k) as [[a e]|] eqn:HK; [intros v Hv|]; cbn [is_some]; apply IH; intros g' found Hg' Hsub Hf; cbn [K settle] in Hf.
    + rewrite <- app_assoc. apply HQ; [by rewrite Hg'|by constructor|]. intros x. cbn [app]. rewrite !elem_of_cons, Hf. split; [|tauto].
      intros [->|?]; [|tauto]. rewrite HK, Hm. eauto.
    + apply HQ; [by rewrite Hg'|by constructor|]. intros x. rewrite elem_of_cons, Hf. split; [tauto|]. intros ([->|?] & ? & ?); [|done]. rewrite HK in *. by destruct H0.
  - apply IH. intros g' found Hg' Hsub Hf. apply HQ; [done|by constructor|]. intros x. rewrite elem_of_cons, Hf. split; [tauto|]. intros ([->|?] & ? & ?); [|done].
    congruence.
Qed.

Lemma keys_ok : meets t (keys (ops:=ops) char_signed rq) (spec_keys char_signed rq).
Proof.
  start Hs. injection Hs as <-. unfold keys. wp_run. apply wp_keys. intros ks Hn Hall. wp_run. apply keys_loop_ok. intros g' found Hg' Hsub Hf. cbn [app]. wp_run.
  eexists. split; [exists found; split_and!; [by eapply sublist_NoDup| |reflexivity]|by apply same_say].
  intros k. rewrite Hf. split; [tauto|]. intros [? ?]. auto.
Qed.

Lemma randomkey_ok : meets t (randomkey (ops:=ops) rq) (spec_randomkey rq).
Proof.
  intros g P Hs. injection Hs as <-. unfold randomkey, randomKey. wp_run. apply wp_randomKey; [|intros k Hk]; apply wp_bulk_or_null.
  - eexists. split; [by left|reflexivity].
  - eexists. split; [right; by exists k|reflexivity].
Qed.

Lemma persist_command_ok : meets t (persist (ops:=ops) rq) (spec_persist rq).
Proof.
  start Hs. finish Hs. unfold persist. wp_run. apply wp_lookupWrite. destruct (K g !! b) as [[a e]|] eqn:HK; [intros v Hv|]; wp_run; [|reflexivity].
  eapply wp_persist; [exact HK|]. destruct e as [w|]; wp_run; [reflexivity|]. view_eq. by apply insert_id.
Qed.

Lemma ttl_ok ms : meets t (ttlGeneric (ops:=ops) rq ms) (spec_ttl rq ms).
Proof.
  start Hs. unfold ttlGeneric. wp_run. apply wp_ttl; [done|].
  destruct (K g !! b) as [[a [w|]]|] eqn:HK; cbn [Z.ltb Z.eqb Z.compare Pos.eqb]; [|finish Hs; wp_run; reflexivity..].
  eapply (wp_known _ _ b a (Some w)); [exact HK|]. cbn. intros Ha Hd. apply Z.ltb_lt in Ha. unfold s_range in Hd. cbn in Hd.
  destruct (Z.ltb_spec (w - t) 0); [lia|]. destruct ms; [finish Hs; wp_run; reflexivity|].
  destruct (Z.ltb_spec StringCommands.int64_max (w - t + 500)); [done|]. unfold StringCommands.int64_max in *. finish Hs. wp_run. apply wp_checked; [unfold s_range; cbn; lia|].
  wp_run. reflexivity.
Qed.

Lemma expiretime_ok ms : meets t (expireTimeGeneric (ops:=ops) rq ms) (spec_expiretime rq ms).
Proof.
  start Hs. finish Hs. unfold expireTimeGeneric. wp_run. apply wp_lookupRead. destruct (K g !! b) as [[a e]|] eqn:HK; [intros v Hv|]; wp_run; [|reflexivity].
  eapply (wp_known _ _ b a e); [exact HK|]. intros Ha Hd. eapply wp_expireAt; [exact HK|]. destruct e as [w|]; cbn [from_option id]; [|cbn [Z.ltb Z.compare]; wp_run; reflexivity].
  apply Z.ltb_lt in Ha. destruct (Z.ltb_spec w 0); [lia|]. wp_run. reflexivity.
Qed.

(** The guarded computation of the deadline refuses exactly what overflows. *)
Lemma expire_when_spec raw u absolute : u = 1 \/ u = 1000 ->
  expire_when rq raw u absolute =
    let when := raw * u + (if absolute then 0 else t) in
    if (StringCommands.int64_max <? when) || (raw * u <? StringCommands.int64_min) then None else Some when.
Proof.
  intros Hu. unfold expire_when. cbv zeta.
  assert ((Z.quot StringCommands.int64_max u <? raw) || (raw <? Z.quot StringCommands.int64_min u) =
          (StringCommands.int64_max <? raw * u) || (raw * u <? StringCommands.int64_min)) as ->.
  { destruct Hu as [-> | ->]; [by rewrite !Z.quot_1_r, Z.mul_1_r|].
    replace (Z.quot StringCommands.int64_max 1000) with 9223372036854775 by reflexivity. replace (Z.quot StringCommands.int64_min 1000) with (-9223372036854775) by reflexivity.
    unfold StringCommands.int64_max, StringCommands.int64_min. cbn [Z.pow Z.pow_pos Pos.iter Z.mul Pos.mul Z.sub Z.opp Z.add Z.pos_sub Pos.pred_double].
    apply eq_true_iff_eq. rewrite !orb_true_iff, !Z.ltb_lt. lia. }
  unfold StringCommands.int64_max, StringCommands.int64_min. destruct absolute; [by rewrite !Z.add_0_r|].
  destruct (Z.ltb_spec (2 ^ 63 - 1) (raw * u)), (Z.ltb_spec (raw * u) (- 2 ^ 63)), (Z.ltb_spec (2 ^ 63 - 1 - t) (raw * u)), (Z.ltb_spec (2 ^ 63 - 1) (raw * u + t)); cbn [orb]; try lia; done.
Qed.

Lemma expire_blocked_spec f e when : alive t e = true -> expire_blocked f (from_option id (-1) e) when = negb (expire_allowed f e when).
Proof.
  intros Ha. unfold expire_blocked, expire_allowed. destruct e as [c|]; cbn [from_option id].
  - apply Z.ltb_lt in Ha. destruct (Z.leb_spec 0 c); [|lia]. rewrite (Z.leb_antisym c when), (Z.leb_antisym when c).
    destruct (nx f), (xx f), (gt f), (lt f), (c <? when), (when <? c); done.
  - cbn [Z.leb Z.compare]. destruct (nx f), (xx f), (gt f), (lt f); done.
Qed.

Lemma expire_ok u absolute command : u = 1 \/ u = 1000 -> meets t (expireGeneric (ops:=ops) rq u absolute command) (spec_expire rq u absolute command).
Proof.
  intros Hu. start Hs. finish Hs. unfold expireGeneric. wp_run. destruct (expire_arguments rq b0) as [[raw f]|msg]; wp_run; [|reflexivity].
  apply wp_lookupWrite. destruct (K g !! b) as [[a e]|] eqn:HK; [intros v Hv|]; wp_run; [|reflexivity].
  rewrite expire_when_spec by done. cbv zeta. set (when := raw * u + _). destruct (_ || _) eqn:Hover; wp_run; [reflexivity|].
  assert (is_i64 when) as Hw.
  { apply orb_false_iff in Hover as [H1 H2]. apply Z.ltb_ge in H1, H2. unfold StringCommands.int64_max, StringCommands.int64_min, s_range in *. cbn. unfold when in *. destruct absolute; lia. }
  apply wp_checked; [done|]. wp_run. eapply (wp_known _ _ b a e); [exact HK|]. intros Ha Hd. eapply wp_expireAt; [exact HK|].
  rewrite expire_blocked_spec by done. destruct (expire_allowed f e when); cbn [negb]; wp_run; [|reflexivity].
  destruct (Z.leb_spec when t); wp_run.
  - apply wp_erase. intros gone _ _. wp_run. reflexivity.
  - eapply wp_setExpireAt; [exact HK|done|]. destruct (Z.ltb_spec t when); [|lia]. wp_run. reflexivity.
Qed.

Lemma rename_ok nx : meets t (renameGeneric (ops:=ops) rq nx) (spec_rename rq nx).
Proof.
  start Hs. unfold renameGeneric. wp_run. apply wp_lookupWrite. destruct (K g !! b) as [[a e]|] eqn:HK; [intros v Hv|finish Hs; wp_run; reflexivity].
  case_bool_decide as Hne; [finish Hs; destruct nx; wp_run; reflexivity|].
  assert (forall g0, same g0 g -> K g0 !! b = Some (a, e) -> nx && is_some (K g !! b0) = false -> wp t
     (v ← deref b; rnd ← random rq; moved ← lift (Object.copy rnd v); expire_at ← expireAtMs b; _ ← erase b; _ ← setKey b0 moved;
      _ ← (if 0 <=? expire_at then setExpireAt b0 expire_at else mret tt); _ ← markDirty 1;
      _ ← notify rq Notify.kGeneric "rename_from" b; _ ← notify rq Notify.kGeneric "rename_to" b0; if nx then integer 1 else ok) g0
     (fun _ g1 => exists g', P g' /\ same g1 g')) as Hmove.
  { intros g0 Hg0 HK0 Hfree. rewrite Hfree in Hs. destruct (copyable a) eqn:Hc; [|done]. finish Hs. eapply (wp_known _ _ b a e); [exact HK0|]. intros Ha Hd.
    wp_run. eapply wp_deref; [exact HK0|]. intros w Hw. wp_run. destruct (models_copy r w a Hw Hc) as (w' & Hcp & Hw'). apply (wp_lift _ _ _ _ _ Hcp).
    wp_run. eapply wp_expireAt; [exact HK0|]. wp_run. apply wp_erase. intros gone _ _. wp_run. eapply wp_setKey; [exact Hw'|]. wp_run.
    assert (forall x, same x (put b0 a e (remove b g)) -> wp t (_ ← markDirty 1; _ ← notify rq Notify.kGeneric "rename_from" b; _ ← notify rq Notify.kGeneric "rename_to" b0;
      if nx then integer 1 else ok) x (fun _ g1 => same g1 (say (if nx then Reply.integer 1 else Reply.simpleString (str "OK"))
        (tell rq Notify.kGeneric "rename_to" b0 (tell rq Notify.kGeneric "rename_from" b (mark 1 (put b0 a e (remove b g)))))))) as Hend.
    { intros x Hx. destruct nx; wp_run; by apply same_say, same_tell, same_tell, same_mark. }
    destruct e as [w0|]; cbn [from_option id].
    - apply Z.ltb_lt in Ha as Ha'. destruct (Z.leb_spec 0 w0); [|lia]. eapply wp_setExpireAt; [apply lookup_insert_eq|done|]. rewrite (proj2 (Z.ltb_lt t w0)) by done.
      apply Hend. etransitivity; [apply put_put|]. by apply same_put, same_remove.
    - cbn [Z.leb Z.compare]. apply wp_ret, Hend. by apply same_put, same_remove. }
  destruct nx; apply wp_bind; [apply wp_bind|apply wp_ret].
  - apply wp_lookupWrite. cbn [K settle]. destruct (K g !! b0) as [[a0 e0]|] eqn:HK0; [intros v0 Hv0; injection Hs as <-; wp_run; by eexists|]. apply wp_ret. by apply Hmove.
  - by apply Hmove.
Qed.

(** The second half of COPY: what is written where. *)
Lemma copy_store (src dst : bytes) (i : Z) (a : aval) (e : option Z) (G : keyspace) g0 g (P : view -> Prop) :
  same g g0 -> K g !! src = Some (a, e) -> keyspace_at rq i g = Some G -> copyable a = true -> (i =? index rq) && bool_decide (src = dst) = false ->
  exactly (say (Reply.integer 1) (tell_at i Notify.kGeneric "copy_to" dst (mark 1 (put_at rq i dst a e g0)))) = Some P ->
  wp t (v ← deref src; rnd ← random rq; copied ← lift (Object.copy rnd v); expire_at ← expireAtMs src; _ ← setKey_at rq i dst copied;
        _ ← (if 0 <=? expire_at then setExpireAt_at rq i dst expire_at else mret tt);
        _ ← markDirty 1; _ ← notify_at Notify.kGeneric "copy_to" dst i; integer 1) g (fun _ g1 => exists g', P g' /\ same g1 g').
Proof.
  intros Hg HK HG Hc Hdiff Hs. finish Hs. eapply (wp_known _ _ src a e); [exact HK|]. intros Ha Hd.
  wp_run. eapply wp_deref; [exact HK|]. intros w Hw. wp_run. destruct (models_copy r w a Hw Hc) as (w' & Hcp & Hw'). apply (wp_lift _ _ _ _ _ Hcp).
  wp_run. eapply wp_expireAt; [exact HK|]. wp_run.
  assert (forall x, same x (put_at rq i dst a e g0) -> wp t (_ ← markDirty 1; _ ← notify_at (D:=D) Notify.kGeneric "copy_to" dst i; integer 1) x
    (fun _ g1 => same g1 (say (Reply.integer 1) (tell_at i Notify.kGeneric "copy_to" dst (mark 1 (put_at rq i dst a e g0)))))) as Hend.
  { intros x Hx. wp_step. wp_step. wp_step. apply wp_announce. wp_run. by apply same_say, same_tell, same_mark. }
  unfold keyspace_at, put_at in *. destruct (Z.eqb_spec i (index rq)) as [->|Hi].
  - injection HG as <-. unfold setKey_at, setExpireAt_at, on_db_at. rewrite Z.eqb_refl. eapply wp_setKey; [exact Hw'|]. wp_step. destruct e as [w0|]; cbn [from_option id].
    + apply Z.ltb_lt in Ha as Ha'. destruct (Z.leb_spec 0 w0); [|lia]. eapply wp_setExpireAt; [apply lookup_insert_eq|done|]. rewrite (proj2 (Z.ltb_lt t w0)) by done.
      apply Hend. etransitivity; [apply put_put|]. by apply same_put.
    + cbn [Z.leb Z.compare]. apply wp_ret, Hend. by apply same_put.
  - pose proof (same_fields _ _ Hg) as (HgK & HgO & Hgo & Hgl & Hgd & Hgh & Hgm). eapply wp_setKey_other; [done|exact HG|exact Hw'|]. wp_step. destruct e as [w0|]; cbn [from_option id].
    + apply Z.ltb_lt in Ha as Ha'. destruct (Z.leb_spec 0 w0); [|lia]. eapply wp_setExpireAt_other; [done|apply lookup_insert_eq|apply lookup_insert_eq|done|done|].
      apply Hend. apply view_same; try done. cbn. rewrite !insert_insert_eq. rewrite <- HgO. symmetry. apply alter_insert_same_gen. exact HG.
    + cbn [Z.leb Z.compare]. apply wp_ret, Hend. apply view_same; try done. cbn. rewrite <- HgO. symmetry. apply alter_insert_same_gen. exact HG.
Qed.

Lemma copy_ok : meets t (copy (ops:=ops) rq) (spec_copy rq).
Proof.
  start Hs. unfold copy. wp_run. destruct (copy_options rq _ _ _) as [[replace i]|msg]; [|finish Hs; wp_run; reflexivity].
  destruct ((i =? index rq) && bool_decide (b = b0)) eqn:Hdiff; [finish Hs; wp_run; reflexivity|].
  wp_run. apply wp_lookupRead. destruct (K g !! b) as [[a e]|] eqn:HK; [intros v Hv|finish Hs; wp_run; reflexivity].
  destruct (keyspace_at rq i g) as [G|] eqn:HG; [|done]. cbn [mbind option_bind] in Hs. apply wp_bind. destruct replace; cbn [negb andb] in Hs.
  - destruct (copyable a) eqn:Hc; [|done]. apply wp_ret. eapply copy_store; [|exact HK|exact HG|exact Hc|exact Hdiff|exact Hs]. done.
  - apply wp_bind. assert (forall g1, same g1 g -> wp t
      (if is_some (G !! b0) then integer 0 else
       v ← deref b; rnd ← random rq; copied ← lift (Object.copy rnd v); expire_at ← expireAtMs b; _ ← setKey_at rq i b0 copied;
        _ ← (if 0 <=? expire_at then setExpireAt_at rq i b0 expire_at else mret tt);
        _ ← markDirty 1; _ ← notify_at Notify.kGeneric "copy_to" b0 i; integer 1) g1 (fun _ g1 => exists g', P g' /\ same g1 g')) as Hrest.
    { intros g1 Hg1. destruct (is_some (G !! b0)); [finish Hs; wp_run; by apply same_say|]. destruct (copyable a) eqn:Hc; [|done].
      pose proof (same_fields _ _ Hg1) as (HgK & HgO & _). eapply copy_store; [exact Hg1|by rewrite HgK| |done|done|exact Hs]. unfold keyspace_at in *. by rewrite HgK, HgO. }
    unfold keyspace_at in HG. destruct (i =? index rq) eqn:Hi.
    + injection HG as <-. unfold lookupRead_at, on_db_at. rewrite Hi. apply wp_lookup. cbn [K settle]. destruct (K g !! b0) as [[a0 e0]|]; [intros v0 Hv0|]; apply wp_ret; by apply Hrest.
    + eapply wp_lookup_other; [done|by apply Z.eqb_neq|exact HG|]. destruct (G !! b0) as [[a0 e0]|]; [intros v0 Hv0|]; apply wp_ret; by apply Hrest.
Qed.

(** ** Cursor iteration *)

Lemma leading_digits_nonneg b : forall acc, 0 <= acc -> 0 <= leading_digits b acc.
Proof. induction b as [|c b IH]; intros acc Ha; cbn; [done|]. destruct ((48 <=? c) && (c <=? 57)) eqn:Hc; [|done]. bools. apply IH. lia. Qed.

Lemma stoull_u64 b n : stoull b = Some n -> is_u64 n.
Proof.
  unfold stoull. destruct (match Resp.skip_space b with [] => _ | _ => _ end) as [neg r]. destruct (starts_with_digit r); [|done]. cbn [negb].
  pose proof (leading_digits_nonneg r 0 ltac:(lia)) as Hn. destruct (Z.leb_spec (2 ^ 64) (leading_digits r 0)); [done|]. intros [= <-].
  destruct neg; unfold u_range; cbn; [|lia]. unfold uwrap. pose proof (Z.mod_pos_bound (- leading_digits r 0) (2 ^ 64) ltac:(lia)). cbn in *. lia.
Qed.

Lemma scan_command_loop_ok more d m x cursor wanted acc : Db.holds d m x -> scannable (Db.dict_ d) -> is_u64 cursor ->
  exists c out, scan_loop (ops:=ops) more d cursor wanted acc = Some (c, out) /\ is_u64 c.
Proof.
  intros [Hm Hx] Hf. revert cursor acc. induction more as [|more IH]; intros cursor acc Hc; cbn [scan_loop]; unfold Db.scan;
    destruct (represents_scan _ _ m cursor Hm Hf Hc) as (out & c' & -> & Hc' & _); cbn [mbind option_bind]; case_if; eauto.
Qed.

Lemma filter_loop_ok o ks results g (Q : list bytes -> view -> Prop) : Forall (selected char_signed o g) results ->
  (forall g' rs, same g' g -> Forall (selected char_signed o g) rs -> Q rs g') -> wp t (filter_loop (ops:=ops) char_signed rq o ks results) g Q.
Proof.
  assert (forall ks results g1, same g1 g -> Forall (selected char_signed o g) results ->
    (forall g' rs, same g' g -> Forall (selected char_signed o g) rs -> Q rs g') -> wp t (filter_loop (ops:=ops) char_signed rq o ks results) g1 Q) as H.
  2:{ intros Hr HQ. by apply H. }
  clear ks results. intros ks. induction ks as [|k ks IH]; intros results g1 Hg Hr HQ; cbn [filter_loop]; [apply wp_ret; by apply HQ|].
  pose proof (same_fields _ _ Hg) as [HK _]. apply wp_bind.
  assert (forall hit : bool, (hit = true -> match pattern o with Some p => matching char_signed p k | None => True end) ->
    wp t (if negb hit then filter_loop (ops:=ops) char_signed rq o ks results
          else v ← lookupRead rq k;
               match v with
               | None => filter_loop (ops:=ops) char_signed rq o ks results
               | Some v => if negb (length (type_filter o) =? 0)%nat && negb (typeName (Object.type_ v) =b? type_filter o)
                           then filter_loop (ops:=ops) char_signed rq o ks results else filter_loop (ops:=ops) char_signed rq o ks (results ++ [k])
               end) g1 Q) as Hkey.
  { intros [] Hhit; cbn [negb]; [|by apply IH]. wp_run. apply wp_lookupRead. rewrite HK. destruct (K g !! k) as [[a e]|] eqn:Hk; [|by apply IH].
    intros v Hv. rewrite (models_type v a Hv). destruct (_ && _) eqn:Hty; [by apply IH|]. apply IH; [done| |done]. apply Forall_app. split; [done|]. apply Forall_singleton.
    exists a, e. split; [done|]. split; [by apply Hhit|]. apply andb_false_iff in Hty as [Hty|Hty]; apply negb_false_iff in Hty.
    - left. apply Nat.eqb_eq in Hty. by destruct (type_filter o).
    - right. by apply bool_decide_eq_true in Hty. }
  destruct (pattern o) as [p|]; [|apply wp_ret; by apply Hkey]. eapply wp_lift; [apply Glob.globMatch_total|]. apply Hkey. unfold matching. rewrite Glob.globMatch_total. by intros ->.
Qed.

(** SCAN, for a table whose bucket numbers fit the cursor: the options and the
    cursor are checked as specified, the walk over the buckets ends, every key
    returned is visible, matches the pattern and has the type asked for, and
    nothing but expired keys changes. *)
Theorem scan_command_ok s g P : sim t s g -> scannable (Db.dict_ (db s)) -> spec_scan char_signed rq g = Some P ->
  exists s' g1 g', scan (ops:=ops) char_signed rq s = Some (s', tt) /\ sim t s' g1 /\ P g' /\ same g1 g'.
Proof.
  intros Hs Hf HP. unfold spec_scan in HP. args_in HP. destruct (scan_options _ _ _) as [o|] eqn:Ho; [|done]. cbn [mbind option_bind] in HP.
  assert (forall m : M D unit, wp t m g (fun _ g1 => exists g', P g' /\ same g1 g') ->
    exists s' g1 g', m s = Some (s', tt) /\ sim t s' g1 /\ P g' /\ same g1 g') as Hrun.
  { intros m Hm. destruct (wp_elim t m g _ s Hm Hs) as (s' & [] & g1 & He & Hs' & g' & HP' & Hg). by exists s', g1, g'. }
  unfold scan, arg. rewrite H. destruct (stoull b) as [cursor|] eqn:Hc.
  2:{ apply (Hrun (text ← lift (Some b); _)). eapply wp_bind, wp_lift; [done|]. rewrite Hc. finish HP. wp_run. reflexivity. }
  destruct o as [o|msg].
  2:{ apply (Hrun (text ← lift (Some b); _)). eapply wp_bind, wp_lift; [done|]. rewrite Hc, Ho. eapply wp_bind, wp_lift; [done|]. finish HP. wp_run. reflexivity. }
  pose proof Hs as ((_ & _ & m & x & Hh & _) & _).
  destruct (scan_command_loop_ok (kMaxScanIterations - 1) (db s) m x cursor (count o) [] Hh Hf (stoull_u64 b cursor Hc)) as (c & out & Hl & Hcu).
  unfold mbind at 1, M_bind at 1, lift at 1. rewrite Hc, Ho. unfold mbind at 1, M_bind at 1, lift at 1. unfold mbind at 1, M_bind at 1. rewrite Hl.
  apply (inj Some) in HP. subst P. apply Hrun. wp_run. apply filter_loop_ok; [by apply Forall_nil|]. intros g' rs Hg' Hrs. wp_run. eexists.
  split; [exists c, rs; split_and!; [done|done|reflexivity]|]. etransitivity; [apply say_say|]. etransitivity; [apply say_say|]. by apply same_say.
Qed.

Definition commands : list (string * M D unit * spec) :=
  [ ("del", del rq, spec_del rq); ("unlink", unlink rq, spec_del rq); ("exists", exists__ rq, spec_exists rq); ("type", type rq, spec_type rq);
    ("touch", touch rq, spec_exists rq); ("keys", keys char_signed rq, spec_keys char_signed rq); ("randomkey", randomkey rq, spec_randomkey rq);
    ("rename", rename rq, spec_rename rq false); ("renamenx", renamenx rq, spec_rename rq true); ("copy", copy rq, spec_copy rq);
    ("expire", expire rq, spec_expire rq 1000 false "expire"); ("pexpire", pexpire rq, spec_expire rq 1 false "pexpire");
    ("expireat", expireat rq, spec_expire rq 1000 true "expireat"); ("pexpireat", pexpireat rq, spec_expire rq 1 true "pexpireat");
    ("ttl", ttl rq, spec_ttl rq false); ("pttl", pttl rq, spec_ttl rq true); ("expiretime", expiretime rq, spec_expiretime rq false);
    ("pexpiretime", pexpiretime rq, spec_expiretime rq true); ("persist", persist rq, spec_persist rq) ]%string.

#[local] Hint Resolve del_ok exists_ok touch_command_ok type_ok keys_ok randomkey_ok rename_ok copy_ok expire_ok ttl_ok expiretime_ok persist_command_ok : mnemos.

Lemma keyspace_commands_ok : Forall (fun '(n, h, sp) => meets t h sp) commands.
Proof. unfold commands. repeat (apply Forall_cons; split; [eauto with mnemos|]). by apply Forall_nil. Qed.
End Refinement.
End KeyspaceCommands.
