(* ===== verification/ZSetCommands.v ===== *)
(** * ZSetCommands: the commands on sorted sets

    [src/server/commands/zset_commands.cpp]: additions with their conditions,
    increments, ranks, the ZRANGE family with its option grammar, removals by
    rank, score and member range, pops, random members, and their refinement of
    operations on lists ordered by score and member. The set algebra on sorted
    sets is in [ZSetAlgebra.v]. *)

From Stdlib Require Import ZArith Lia.
Set Warnings "-register-all".
From stdpp Require Import base list numbers gmap option strings.
From S2P Require Import Prelude Encoding Order Double Strtod Dtoa SkipList Strings Listpack MapSpec Dict HashValue ZSetValue SetValue ListValue Db Object Reply Notify CommandTable Command Keyspace StringCommands HashCommands SetCommands.
Import Command Keyspace.Keyspace.

Module ZSetCommands.

Abbreviation entries := (list (bytes * Z)).
Abbreviation parsed := StringCommands.parsed.
Abbreviation Parsed := StringCommands.Parsed.
Abbreviation Refused := StringCommands.Refused.
Abbreviation is_token t name := (equalsIgnoreCase t (str name)).

(** ** Parsing *)

(** [strtod] reads the C string, which ends at the first zero byte. *)
Definition parseScore (s : bytes) : option Z :=
  if existsb (fun w => s =b? str w) ["inf"; "+inf"; "infinity"; "+infinity"]%string then Some Double.infinity
  else if existsb (fun w => s =b? str w) ["-inf"; "-infinity"]%string then Some Double.neg_infinity
  else
    let c_str := fst (Strtod.span (fun c => negb (c =? 0)) s) in
    let '(d, rest) := Strtod.parse c_str in
    if (length rest =? length c_str)%nat || negb (length rest =? 0)%nat || Double.isnan d then None else Some d.

Definition parseScoreBound (text : bytes) : option (Z * bool) :=
  match text with
  | c :: rest => if c =? 40 then d ← parseScore rest; Some (d, true) else d ← parseScore text; Some (d, false)
  | [] => d ← parseScore []; Some (d, false)
  end.

Definition not_a_float : bytes := str "ERR value is not a valid float".
Definition bad_bound : bytes := str "ERR min or max is not a float".
Definition bad_lex_bound : bytes := str "ERR min or max not valid string range item".

Definition parseScoreRange (low high : bytes) : parsed SkipList.ScoreRange :=
  match parseScoreBound low, parseScoreBound high with
  | Some (mn, mnx), Some (mx, mxx) => Parsed (SkipList.mkRange mn mx mnx mxx)
  | _, _ => Refused bad_bound
  end.

Definition parseLexBound (text : bytes) : option ZSetValue.LexBound :=
  if text =b? str "-" then Some (ZSetValue.mkBound ZSetValue.NegInf [] false)
  else if text =b? str "+" then Some (ZSetValue.mkBound ZSetValue.PosInf [] false)
  else
    match text with
    | c :: rest => if (c =? 91) || (c =? 40) then Some (ZSetValue.mkBound ZSetValue.Value rest (c =? 40)) else None
    | [] => None
    end.

Definition parseLexRange (low high : bytes) : parsed ZSetValue.LexRange :=
  match parseLexBound low, parseLexBound high with
  | Some mn, Some mx => Parsed (ZSetValue.mkLex mn mx)
  | _, _ => Refused bad_lex_bound
  end.

(** [resolveIndexRange]: the normalised pair, if it selects anything. *)
Definition resolveIndexRange (start stop length : Z) : option (Z * Z) :=
  let start := if start <? 0 then start + length else start in
  let stop := if stop <? 0 then stop + length else stop in
  let start := if start <? 0 then 0 else start in
  let stop := if length <=? stop then length - 1 else stop in
  if (length =? 0) || (stop <? start) || (length <=? start) then None else Some (start, stop).

Record zadd_flags := mkZAdd { nx : bool; xx : bool; gt : bool; lt : bool; ch : bool; incr : bool }.

(** The option loop of [zadd] stops at the first word that is not an option. *)
Fixpoint zadd_options (tokens : list bytes) (f : zadd_flags) : zadd_flags * list bytes :=
  match tokens with
  | [] => (f, [])
  | token :: rest =>
      if is_token token "NX" then zadd_options rest (mkZAdd true (xx f) (gt f) (lt f) (ch f) (incr f))
      else if is_token token "XX" then zadd_options rest (mkZAdd (nx f) true (gt f) (lt f) (ch f) (incr f))
      else if is_token token "GT" then zadd_options rest (mkZAdd (nx f) (xx f) true (lt f) (ch f) (incr f))
      else if is_token token "LT" then zadd_options rest (mkZAdd (nx f) (xx f) (gt f) true (ch f) (incr f))
      else if is_token token "CH" then zadd_options rest (mkZAdd (nx f) (xx f) (gt f) (lt f) true (incr f))
      else if is_token token "INCR" then zadd_options rest (mkZAdd (nx f) (xx f) (gt f) (lt f) (ch f) true)
      else (f, tokens)
  end.

Fixpoint parse_updates (tokens : list bytes) : option (list (Z * bytes)) :=
  match tokens with
  | score :: member :: rest => d ← parseScore score; us ← parse_updates rest; Some ((d, member) :: us)
  | _ => Some []
  end.

(** Everything [zadd] checks before it touches the keyspace. *)
Definition zadd_arguments (tokens : list bytes) : parsed (zadd_flags * list (Z * bytes)) :=
  let '(f, rest) := zadd_options tokens (mkZAdd false false false false false false) in
  if (nx f && (xx f || gt f || lt f)) || (gt f && lt f) then
    Refused (str "ERR GT, LT, and/or NX options at the same time are not compatible")
  else if (length rest =? 0)%nat || negb (length rest mod 2 =? 0)%nat then Refused StringCommands.syntax_error
  else if incr f && negb (length rest =? 2)%nat then Refused (str "ERR INCR option supports a single increment-element pair")
  else match parse_updates rest with Some us => Parsed (f, us) | None => Refused not_a_float end.

(** ** The ZRANGE family *)

Inductive RangeBy := Rank | Score | Lex.

#[global] Instance RangeBy_eq_dec : EqDecision RangeBy.
Proof. solve_decision. Defined.

Record RangeSpec := mkRangeSpec {
  by_ : RangeBy; reverse : bool; with_scores : bool; has_limit : bool; offset : Z; count : Z }.

(** What the bounds denote, once it is known what they range over. *)
Inductive bounds := ByRank (start stop : Z) | ByScore (r : SkipList.ScoreRange) | ByLex (r : ZSetValue.LexRange).

Fixpoint range_options (fuel : nat) (generic allow_with_scores : bool) (tokens : list bytes) (o : RangeSpec) : option (parsed RangeSpec) :=
  match fuel, tokens with
  | O, _ => None
  | _, [] => Some (Parsed o)
  | S fuel, token :: rest =>
      if generic && is_token token "BYSCORE" then
        range_options fuel generic allow_with_scores rest (mkRangeSpec Score (reverse o) (with_scores o) (has_limit o) (offset o) (count o))
      else if generic && is_token token "BYLEX" then
        range_options fuel generic allow_with_scores rest (mkRangeSpec Lex (reverse o) (with_scores o) (has_limit o) (offset o) (count o))
      else if generic && is_token token "REV" then
        range_options fuel generic allow_with_scores rest (mkRangeSpec (by_ o) true (with_scores o) (has_limit o) (offset o) (count o))
      else if allow_with_scores && is_token token "WITHSCORES" then
        range_options fuel generic allow_with_scores rest (mkRangeSpec (by_ o) (reverse o) true (has_limit o) (offset o) (count o))
      else
        match is_token token "LIMIT", rest with
        | true, a :: b :: rest =>
            match stringToInt64 a, stringToInt64 b with
            | Some off, Some n =>
                range_options fuel generic allow_with_scores rest (mkRangeSpec (by_ o) (reverse o) (with_scores o) true off n)
            | _, _ => Some (Refused StringCommands.not_an_integer)
            end
        | _, _ => Some (Refused StringCommands.syntax_error)
        end
  end.

Definition parse_bounds (o : RangeSpec) (first second : bytes) : parsed bounds :=
  let low := if reverse o then second else first in
  let high := if reverse o then first else second in
  match by_ o with
  | Rank =>
      match stringToInt64 first, stringToInt64 second with
      | Some start, Some stop => Parsed (ByRank start stop)
      | _, _ => Refused StringCommands.not_an_integer
      end
  | Score => match parseScoreRange low high with Parsed r => Parsed (ByScore r) | Refused msg => Refused msg end
  | Lex => match parseLexRange low high with Parsed r => Parsed (ByLex r) | Refused msg => Refused msg end
  end.

(** [rest] are the arguments from the first bound on. *)
Definition parseRangeSpec (rest : list bytes) (generic allow_with_scores : bool) (o : RangeSpec) : option (parsed (RangeSpec * bounds)) :=
  match rest with
  | first :: second :: rest =>
      r ← range_options (S (length rest)) generic allow_with_scores rest o;
      match r with
      | Refused msg => Some (Refused msg)
      | Parsed o =>
          if has_limit o && bool_decide (by_ o = Rank) then
            Some (Refused (str "ERR syntax error, LIMIT is only supported in combination with either BYSCORE or BYLEX"))
          else if with_scores o && bool_decide (by_ o = Lex) then
            Some (Refused (str "ERR syntax error, WITHSCORES not supported in combination with BYLEX"))
          else
            match parse_bounds o first second with
            | Parsed b => Some (Parsed (o, b))
            | Refused msg => Some (Refused msg)
            end
      end
  | _ => None
  end.

(** LIMIT: a negative offset selects nothing, a negative count everything. *)
Definition limited {A} (o : RangeSpec) (items : list A) : list A :=
  if negb (has_limit o) then items
  else if (offset o <? 0) || (Z.of_nat (length items) <=? offset o) then []
  else
    let items := drop (Z.to_nat (offset o)) items in
    if (0 <=? count o) && (count o <? Z.of_nat (length items)) then take (Z.to_nat (count o)) items else items.

(** The slice of a whole sequence that a pair of indices selects. *)
Definition index_slice {A} (start stop : Z) (all : list A) : list A :=
  match resolveIndexRange start stop (Z.of_nat (length all)) with
  | None => []
  | Some (start, stop) => take (Z.to_nat (stop + 1 - start)) (drop (Z.to_nat start) all)
  end.

Definition reversed {A} (o : RangeSpec) (l : list A) : list A := if reverse o then rev l else l.

Section Handlers.
Context {D : Type -> Type} {ops : MapOps D} (rq : request).
Abbreviation handler := (M D unit).

Definition collectRange (z : ZSetValue.t D) (o : RangeSpec) (b : bounds) : option entries :=
  match b with
  | ByRank start stop => all ← ZSetValue.all z; Some (index_slice start stop (reversed o all))
  | ByScore r => items ← ZSetValue.rangeByScore z r; Some (limited o (reversed o items))
  | ByLex r => items ← ZSetValue.rangeByLex z r; Some (limited o (reversed o items))
  end.

(** ** Replies *)

Fixpoint emit_each (one : bytes * Z -> handler) (items : entries) : handler :=
  match items with [] => mret tt | e :: items => _ ← one e; emit_each one items end.

Definition emitMembers (items : entries) (with_scores : bool) : handler :=
  if negb with_scores then
    _ ← arrayHeader (Z.of_nat (length items));
    emit_each (fun e => bulk e.1) items
  else if 3 <=? protover rq then
    _ ← arrayHeader (Z.of_nat (length items));
    emit_each (fun e => _ ← arrayHeader 2; _ ← bulk e.1; doubleValue rq e.2) items
  else
    _ ← arrayHeader (Z.of_nat (length items * 2));
    emit_each (fun e => _ ← bulk e.1; bulk (Reply.formatDouble e.2)) items.

Definition the_entries (key : bytes) : M D entries := z ← the_zset key; lift (ZSetValue.all z).

(** ** Handlers *)

Definition rankGeneric (rev : bool) : handler :=
  key ← arg rq 1;
  value ← lookupTypedRead rq key OZSet;
  match value with
  | TypeError => mret tt
  | Missing => nullBulk rq
  | Found _ =>
      member ← arg rq 2;
      rank ← on_zset key (fun z => ZSetValue.rank z member);
      match rank with
      | None => nullBulk rq
      | Some rank =>
          if rev then z ← the_zset key; integer (i64 (u64 (Z.of_nat (ZSetValue.size z) - rank - 1)))
          else integer (i64 rank)
      end
  end.

Fixpoint erase_each (key : bytes) (members : list bytes) (removed : Z) : M D Z :=
  match members with
  | [] => mret removed
  | member :: members =>
      gone ← on_zset key (fun z => ZSetValue.erase z member);
      erase_each key members (if gone : bool then removed + 1 else removed)
  end.

Definition pop_count : parsed (option Z) := SetCommands.spop_count rq.

Definition popGeneric (lowest : bool) : handler :=
  key ← arg rq 1;
  value ← lookupTyped rq key OZSet;
  match value with
  | TypeError => mret tt
  | _ =>
      match pop_count with
      | Refused msg => error msg
      | Parsed count =>
          match value with
          | Found _ =>
              all ← the_entries key;
              let all := if lowest then all else rev all in
              let popped := take (Nat.min (Z.to_nat (default 1 count)) (length all)) all in
              _ ← erase_each key popped.*1 0;
              _ ← (if (length popped =? 0)%nat then mret tt
                   else
                     _ ← markDirty (Z.of_nat (length popped));
                     notify rq Notify.kZset (if lowest then "zpopmin" else "zpopmax") key);
              _ ← deleteIfEmpty rq key;
              if negb (is_some count) && (3 <=? protover rq) then
                _ ← arrayHeader (Z.of_nat (length popped * 2));
                emit_each (fun e => _ ← bulk e.1; doubleValue rq e.2) popped
              else emitMembers popped true
          | _ => arrayHeader 0
          end
      end
  end.

(** One update of [zadd]; [None] once the reply has been written. *)
Fixpoint zadd_loop (key : bytes) (f : zadd_flags) (rnd : nat -> nat -> nat -> Z) (k : nat) (updates : list (Z * bytes)) (added changed : Z)
    : M D (option (Z * Z)) :=
  match updates with
  | [] => mret (Some (added, changed))
  | (score, member) :: updates =>
      existing ← on_zset key (fun z => ZSetValue.score z member);
      if (nx f && is_some existing) || (xx f && negb (is_some existing)) then zadd_loop key f rnd (S k) updates added changed
      else
        let final_score := if incr f then Double.add (default 0 existing) score else score in
        if incr f && Double.isnan final_score then
          _ ← error (str "ERR resulting score is not a number (NaN)"); mret None
        else if match existing with
                | Some e => (gt f && Double.le final_score e) || (lt f && Double.ge final_score e)
                | None => false
                end
        then (if incr f then _ ← nullBulk rq; mret None else zadd_loop key f rnd (S k) updates added changed)
        else
          fresh ← on_zset key (fun z => ZSetValue.add z (rnd k) (rnd k 129%nat) member final_score);
          if incr f then
            _ ← markDirty 1;
            _ ← notify rq Notify.kZset "zincr" key;
            _ ← doubleValue rq final_score;
            mret None
          else if fresh : bool then zadd_loop key f rnd (S k) updates (added + 1) changed
          else zadd_loop key f rnd (S k) updates added
                 (if match existing with Some e => Double.ne e final_score | None => true end then changed + 1 else changed)
  end.

Definition zadd : handler :=
  match zadd_arguments (drop 2 (argv rq)) with
  | Refused msg => error msg
  | Parsed (f, updates) =>
      key ← arg rq 1;
      value ← (if xx f then lookupTyped rq key OZSet else lookupOrCreate rq key OZSet);
      match value with
      | TypeError => mret tt
      | Missing => if incr f then nullBulk rq else integer 0
      | Found _ =>
          rnd ← random rq;
          counts ← zadd_loop key f rnd 0 updates 0 0;
          match counts with
          | None => mret tt
          | Some (added, changed) =>
              _ ← markDirty (Z.of_nat (length updates));
              _ ← (if 0 <? added + changed then notify rq Notify.kZset "zadd" key else mret tt);
              _ ← deleteIfEmpty rq key;
              integer (if ch f then added + changed else added)
          end
      end
  end.

(** The tail that the removing commands share. *)
Definition removed_reply (key : bytes) (event : string) (removed : Z) : handler :=
  _ ← (if 0 <? removed then _ ← markDirty removed; notify rq Notify.kZset event key else mret tt);
  _ ← deleteIfEmpty rq key;
  integer removed.

Definition zrem : handler :=
  key ← arg rq 1;
  value ← lookupTyped rq key OZSet;
  match value with
  | TypeError => mret tt
  | Missing => integer 0
  | Found _ => removed ← erase_each key (drop 2 (argv rq)) 0; removed_reply key "zrem" removed
  end.

Definition double_or_null (score : option Z) : handler := match score with Some d => doubleValue rq d | None => nullBulk rq end.

Definition zscore : handler :=
  key ← arg rq 1;
  value ← lookupTypedRead rq key OZSet;
  match value with
  | TypeError => mret tt
  | Missing => nullBulk rq
  | Found _ =>
      member ← arg rq 2;
      score ← on_zset key (fun z => ZSetValue.score z member);
      double_or_null score
  end.

Fixpoint score_each (key : bytes) (present : bool) (members : list bytes) : handler :=
  match members with
  | [] => mret tt
  | member :: members =>
      score ← (if present then on_zset key (fun z => ZSetValue.score z member) else mret None);
      _ ← double_or_null score;
      score_each key present members
  end.

Definition zmscore : handler :=
  key ← arg rq 1;
  value ← lookupTypedRead rq key OZSet;
  match value with
  | TypeError => mret tt
  | _ =>
      _ ← arrayHeader (Z.of_nat (argc rq - 2));
      score_each key (SetCommands.is_found value) (drop 2 (argv rq))
  end.

Definition zcard : handler :=
  key ← arg rq 1;
  value ← lookupTypedRead rq key OZSet;
  match value with
  | TypeError => mret tt
  | Missing => integer 0
  | Found _ => z ← the_zset key; integer (i64 (Z.of_nat (ZSetValue.size z)))
  end.

Definition zincrby : handler :=
  text ← arg rq 2;
  match parseScore text with
  | None => notAFloat
  | Some delta =>
      key ← arg rq 1;
      value ← lookupOrCreate rq key OZSet;
      match value with
      | Found _ =>
          member ← arg rq 3;
          current ← on_zset key (fun z => ZSetValue.score z member);
          let result := Double.add (default 0 current) delta in
          if Double.isnan result then
            _ ← error (str "ERR resulting score is not a number (NaN)");
            deleteIfEmpty rq key
          else
            rnd ← random rq;
            _ ← on_zset key (fun z => ZSetValue.add z (rnd 0%nat) (rnd 0%nat 129%nat) member result);
            _ ← markDirty 1;
            _ ← notify rq Notify.kZset "zincr" key;
            doubleValue rq result
      | _ => mret tt
      end
  end.

Definition zrank : handler := rankGeneric false.
Definition zrevrank : handler := rankGeneric true.

Definition rangeCommand (by' : RangeBy) (rev generic allow_with_scores : bool) : handler :=
  spec ← lift (parseRangeSpec (drop 2 (argv rq)) generic allow_with_scores (mkRangeSpec by' rev false false 0 (-1)));
  match spec with
  | Refused msg => error msg
  | Parsed (o, b) =>
      key ← arg rq 1;
      value ← lookupTypedRead rq key OZSet;
      match value with
      | TypeError => mret tt
      | Missing => arrayHeader 0
      | Found _ =>
          z ← the_zset key;
          items ← lift (collectRange z o b);
          emitMembers items (with_scores o)
      end
  end.

Definition zrange : handler := rangeCommand Rank false true true.
Definition zrevrange : handler := rangeCommand Rank true false true.
Definition zrangebyscore : handler := rangeCommand Score false false true.
Definition zrevrangebyscore : handler := rangeCommand Score true false true.
Definition zrangebylex : handler := rangeCommand Lex false false true.
Definition zrevrangebylex : handler := rangeCommand Lex true false true.

(** Counting and removing what a range contains. *)
Definition count_in (find : ZSetValue.t D -> option entries) : handler :=
  key ← arg rq 1;
  value ← lookupTypedRead rq key OZSet;
  match value with
  | TypeError => mret tt
  | Missing => integer 0
  | Found _ => z ← the_zset key; items ← lift (find z); integer (i64 (Z.of_nat (length items)))
  end.

Definition remove_in (event : string) (find : ZSetValue.t D -> option entries) : handler :=
  key ← arg rq 1;
  value ← lookupTyped rq key OZSet;
  match value with
  | TypeError => mret tt
  | Missing => integer 0
  | Found _ => z ← the_zset key; items ← lift (find z); removed ← erase_each key items.*1 0; removed_reply key event removed
  end.

Definition zcount : handler :=
  a ← arg rq 2; b ← arg rq 3;
  match parseScoreRange a b with
  | Refused msg => error msg
  | Parsed r => count_in (fun z => ZSetValue.rangeByScore z r)
  end.

Definition zlexcount : handler :=
  a ← arg rq 2; b ← arg rq 3;
  match parseLexRange a b with
  | Refused msg => error msg
  | Parsed r => count_in (fun z => ZSetValue.rangeByLex z r)
  end.

Definition zremrangebyscore : handler :=
  a ← arg rq 2; b ← arg rq 3;
  match parseScoreRange a b with
  | Refused msg => error msg
  | Parsed r => remove_in "zremrangebyscore" (fun z => ZSetValue.rangeByScore z r)
  end.

Definition zremrangebylex : handler :=
  a ← arg rq 2; b ← arg rq 3;
  match parseLexRange a b with
  | Refused msg => error msg
  | Parsed r => remove_in "zremrangebylex" (fun z => ZSetValue.rangeByLex z r)
  end.

Definition zremrangebyrank : handler :=
  a ← arg rq 2; b ← arg rq 3;
  match stringToInt64 a, stringToInt64 b with
  | Some start, Some stop =>
      key ← arg rq 1;
      value ← lookupTyped rq key OZSet;
      match value with
      | TypeError => mret tt
      | Missing => integer 0
      | Found _ =>
          all ← the_entries key;
          match resolveIndexRange start stop (Z.of_nat (length all)) with
          | None => integer 0
          | Some (start, stop) =>
              removed ← erase_each key (take (Z.to_nat (stop + 1 - start)) (drop (Z.to_nat start) all)).*1 0;
              removed_reply key "zremrangebyrank" removed
          end
      end
  | _, _ => notAnInteger
  end.

Definition zpopmin : handler := popGeneric true.
Definition zpopmax : handler := popGeneric false.

Fixpoint pick_entries (all : entries) (chosen : list nat) : M D entries :=
  match chosen with
  | [] => mret []
  | i :: chosen => e ← lift (all !! i); rest ← pick_entries all chosen; mret (e :: rest)
  end.

Definition zrandmember : handler :=
  key ← arg rq 1;
  value ← lookupTypedRead rq key OZSet;
  match value with
  | TypeError => mret tt
  | _ =>
      match HashCommands.rand_options rq "WITHSCORES" with
      | Refused msg => error msg
      | Parsed o =>
          size ← (if SetCommands.is_found value then z ← the_zset key; mret (ZSetValue.size z) else mret 0%nat);
          if (size =? 0)%nat then (if is_some o then arrayHeader 0 else nullBulk rq)
          else
            all ← the_entries key;
            rnd ← random rq;
            match o with
            | None => e ← lift (all !! Z.to_nat (rnd 0%nat 0%nat 0%nat mod Z.of_nat (length all))); bulk e.1
            | Some (count, with_scores) =>
                picked ← (if count <? 0 then
                            wanted ← checked (- count);
                            pick_entries all (picks (Z.to_nat wanted) 0 (rnd 0%nat 0%nat) (length all))
                          else mret (take (Nat.min (Z.to_nat count) (length all)) (shuffle (rnd 0%nat 0%nat) all)));
                emitMembers picked with_scores
            end
      end
  end.

(** [fresh.zset()->add(...)] for every entry of a new value. *)
Definition zset_of (rnd : nat -> nat -> nat -> Z) (items : entries) : option (Object.value D) :=
  z ← ZSetValue.add_all ZSetValue.new rnd 0 items;
  Some (with_data Object.makeZSet (Object.DZSet z)).

Definition zrangestore : handler :=
  spec ← lift (parseRangeSpec (drop 3 (argv rq)) true false (mkRangeSpec Rank false false false 0 (-1)));
  match spec with
  | Refused msg => error msg
  | Parsed (o, b) =>
      source ← arg rq 2;
      value ← lookupTypedRead rq source OZSet;
      match value with
      | TypeError => mret tt
      | _ =>
          items ← (if SetCommands.is_found value then z ← the_zset source; lift (collectRange z o b) else mret []);
          destination ← arg rq 1;
          if (length items =? 0)%nat then
            gone ← erase destination;
            _ ← (if gone : bool then _ ← markDirty 1; notify rq Notify.kGeneric "del" destination else mret tt);
            integer 0
          else
            rnd ← random rq;
            fresh ← lift (zset_of rnd items);
            _ ← setKey destination fresh;
            _ ← markDirty (Z.of_nat (length items));
            _ ← notify rq Notify.kZset "zrangestore" destination;
            integer (Z.of_nat (length items))
      end
  end.

(** The first key that holds anything is popped from. *)
Fixpoint zmpop_loop (keys : list bytes) (lowest : bool) (count : Z) : handler :=
  match keys with
  | [] => nullArray rq
  | key :: keys =>
      value ← lookupTyped rq key OZSet;
      match value with
      | TypeError => mret tt
      | _ =>
          size ← (if SetCommands.is_found value then z ← the_zset key; mret (ZSetValue.size z) else mret 0%nat);
          if (size =? 0)%nat then zmpop_loop keys lowest count
          else
            all ← the_entries key;
            let all := if lowest then all else rev all in
            let popped := take (Nat.min (Z.to_nat count) (length all)) all in
            _ ← erase_each key popped.*1 0;
            _ ← markDirty (Z.of_nat (length popped));
            _ ← notify rq Notify.kZset (if lowest then "zpopmin" else "zpopmax") key;
            _ ← deleteIfEmpty rq key;
            _ ← arrayHeader 2;
            _ ← bulk key;
            _ ← arrayHeader (Z.of_nat (length popped));
            emit_each (fun e => _ ← arrayHeader 2; _ ← bulk e.1; if 3 <=? protover rq then doubleValue rq e.2 else bulk (Reply.formatDouble e.2)) popped
      end
  end.

Definition zmpop_arguments (text : bytes) : parsed (list bytes * bool * Z) :=
  match stringToInt64 text with
  | None => Refused (str "ERR numkeys should be greater than 0")
  | Some numkeys =>
      if numkeys <=? 0 then Refused (str "ERR numkeys should be greater than 0")
      else if Z.of_nat (argc rq) <=? numkeys then Refused StringCommands.syntax_error
      else
        let keys := take (Z.to_nat numkeys) (drop 2 (argv rq)) in
        match drop (2 + Z.to_nat numkeys) (argv rq) with
        | [] => Refused StringCommands.syntax_error
        | where_ :: rest =>
            if negb (is_token where_ "MIN") && negb (is_token where_ "MAX") then Refused StringCommands.syntax_error
            else
              let lowest := is_token where_ "MIN" in
              match rest with
              | [] => Parsed (keys, lowest, 1)
              | [c; text] =>
                  if negb (is_token c "COUNT") then Refused StringCommands.syntax_error
                  else
                    match stringToInt64 text with
                    | Some n => if n <=? 0 then Refused (str "ERR count should be greater than 0") else Parsed (keys, lowest, n)
                    | None => Refused (str "ERR count should be greater than 0")
                    end
              | _ => Refused StringCommands.syntax_error
              end
        end
  end.

Definition zmpop : handler :=
  text ← arg rq 1;
  match zmpop_arguments text with
  | Refused msg => error msg
  | Parsed (keys, lowest, count) => zmpop_loop keys lowest count
  end.

End Handlers.

(** ** Parsed scores are numbers *)

Lemma parseScore_ok text d : parseScore text = Some d -> Double.ok d.
Proof.
  unfold parseScore. case_if; [intros [= <-]; by split|]. case_if; [intros [= <-]; by split|]. cbv zeta.
  set (c := fst _). unfold Strtod.parse. destruct (Strtod.span Strtod.isspace c) as [sp s1]. destruct (Strtod.take_sign s1) as [neg s2].
  assert (forall m rest : Z, 0 <= m <= Double.infinity -> Double.ok (Double.signed neg m)) as Hs by (intros; by apply Double.ok_signed).
  destruct (Strtod.word s2) as [[m rest]|] eqn:Hw.
  { apply Strtod.word_range in Hw as [-> | ->]; case_if; try done; intros [= <-]; [by apply (Hs _ 0)|]. bools. by destruct neg. }
  destruct (Strtod.hexadecimal s2) as [[m rest]|] eqn:Hh; [apply Strtod.hexadecimal_range in Hh; case_if; [done|]; intros [= <-]; by apply (Hs _ 0)|].
  destruct (Strtod.decimal s2) as [[m rest]|] eqn:Hd; [apply Strtod.decimal_range in Hd; case_if; [done|]; intros [= <-]; by apply (Hs _ 0)|].
  case_if; [done|]. by intros [= <-].
Qed.

Lemma parseScoreRange_ok a b r : parseScoreRange a b = Parsed r -> SkipList.range_ok r.
Proof.
  assert (forall text d x, parseScoreBound text = Some (d, x) -> Double.ok d) as Hb.
  { intros text d x. unfold parseScoreBound. destruct text as [|c rest]; [|case_if];
      match goal with |- (d ← parseScore ?t; _) = _ -> _ => destruct (parseScore t) eqn:Hp; [|done]; cbn; intros [= <- _]; by eapply parseScore_ok end. }
  unfold parseScoreRange. destruct (parseScoreBound a) as [[mn mnx]|] eqn:Ha; [|done]. destruct (parseScoreBound b) as [[mx mxx]|] eqn:Hx; [|done].
  intros [= <-]. split; cbn; eauto.
Qed.

(** ** Specifications *)

(** The scores as the set returns them: a zero may have kept its sign. *)
Definition near (l' l : entries) : Prop := ZSetValue.canons l' = l.

(** The entries whose member is not listed. *)
Definition without (ms : list bytes) (l : entries) : entries := filter (fun e => e.1 ∉ ms) l.

(** The sorted set that additions in this order build. *)
Definition place_in (l : entries) (e : bytes * Z) : entries := SkipList.place (ZSetValue.canon e.2) e.1 (ZSetValue.drop_member e.1 l).
Definition built (items : entries) : entries := foldl place_in [] items.

(** What a range of the ZRANGE grammar selects. *)
Definition selected (o : RangeSpec) (b : bounds) (l : entries) : entries :=
  match b with
  | ByRank start stop => index_slice start stop (reversed o l)
  | ByScore r => limited o (reversed o (List.filter (fun e => SkipList.containsScore r (snd e)) l))
  | ByLex r => limited o (reversed o (if ZSetValue.lexIsEmpty r then [] else ZSetValue.lex_run r false l))
  end.

Definition from_end (lowest : bool) (n : nat) (l : entries) : entries := take n (if lowest then l else rev l).

Section Specs.
Context (rq : request).
Implicit Types (g : view) (k : bytes) (l : entries).
Abbreviation null := (Keyspace.null rq).
Abbreviation tell := (Keyspace.tell rq).
Abbreviation keymiss := (Keyspace.keymiss rq).

Definition with_zset k g (absent : option (view -> Prop)) (f : entries -> option Z -> option (view -> Prop)) : option (view -> Prop) :=
  match K g !! k with None => absent | Some (AZSet l, e) => f l e | Some _ => exactly (say wrong_type g) end.

Definition double_reply (d : Z) : bytes := Reply.doubleValue (protover rq) d.
Definition double_or (d : option Z) : bytes := match d with Some d => double_reply d | None => null end.

Definition members_reply (items : entries) (ws : bool) : bytes :=
  if negb ws then Reply.arrayHeader (Z.of_nat (length items)) ++ concat (map (fun e => Reply.bulk e.1) items)
  else if 3 <=? protover rq then
    Reply.arrayHeader (Z.of_nat (length items)) ++ concat (map (fun e => Reply.arrayHeader 2 ++ Reply.bulk e.1 ++ double_reply e.2) items)
  else Reply.arrayHeader (Z.of_nat (length items * 2)) ++ concat (map (fun e => Reply.bulk e.1 ++ Reply.bulk (Reply.formatDouble e.2)) items).

Definition spec_rank (rev : bool) : spec := fun g =>
  k ← argv rq !! 1%nat; m ← argv rq !! 2%nat;
  with_zset k g (exactly (say null (keymiss k g))) (fun l _ =>
    exactly (match ZSetValue.rank_of m l with
             | None => say null g
             | Some r => say (Reply.integer (i64 (if rev then u64 (Z.of_nat (length l) - Z.of_nat r - 1) else Z.of_nat r))) g
             end)).

(** The entries named by [items] leave. *)
Definition removing k (event : string) (items l : entries) (e : option Z) g : view :=
  let n := Z.of_nat (length items) in
  say (Reply.integer n) (leave rq k (AZSet (without items.*1 l)) e (if 0 <? n then tell Notify.kZset event k (mark n g) else g)).

Definition spec_zrem : spec := fun g =>
  k ← argv rq !! 1%nat;
  with_zset k g (exactly (say (Reply.integer 0) g)) (fun l e =>
    exactly (removing k "zrem" (filter (fun x => x.1 ∈ drop 2 (argv rq)) l) l e g)).

Definition spec_zpop (lowest : bool) : spec := fun g =>
  k ← argv rq !! 1%nat;
  let counted f := match pop_count rq with Refused msg => exactly (refuse msg g) | Parsed c => f c end in
  with_zset k g (counted (fun _ => exactly (say (Reply.arrayHeader 0) g))) (fun l e => counted (fun c =>
    let n := Z.to_nat (default 1 c) in
    let items := from_end lowest n l in
    let g := if (length items =? 0)%nat then g
             else tell Notify.kZset (if lowest then "zpopmin" else "zpopmax") k (mark (Z.of_nat (length items)) g) in
    let g := leave rq k (AZSet (without items.*1 l)) e g in
    Some (fun g1 => exists l', near l' l /\
      let out := from_end lowest n l' in
      g1 = say (if negb (is_some c) && (3 <=? protover rq)
                then Reply.arrayHeader (Z.of_nat (length out * 2)) ++ concat (map (fun e => Reply.bulk e.1 ++ double_reply e.2) out)
                else members_reply out true) g))).

Definition spec_zscore : spec := fun g =>
  k ← argv rq !! 1%nat; m ← argv rq !! 2%nat;
  with_zset k g (exactly (say null (keymiss k g))) (fun l _ =>
    Some (fun g1 => exists s, ZSetValue.canon <$> s = ZSetValue.score_of m l /\ g1 = say (double_or s) g)).

Definition spec_zmscore : spec := fun g =>
  k ← argv rq !! 1%nat;
  let header := Reply.arrayHeader (Z.of_nat (argc rq - 2)) in
  with_zset k g (exactly (say (header ++ concat (map (fun _ => null) (drop 2 (argv rq)))) (keymiss k g))) (fun l _ =>
    Some (fun g1 => exists ss, Forall2 (fun m s => ZSetValue.canon <$> s = ZSetValue.score_of m l) (drop 2 (argv rq)) ss /\
      g1 = say (header ++ concat (map double_or ss)) g)).

Definition spec_zcard : spec := fun g =>
  k ← argv rq !! 1%nat;
  with_zset k g (exactly (say (Reply.integer 0) (keymiss k g))) (fun l _ => exactly (say (Reply.integer (i64 (Z.of_nat (length l)))) g)).

Definition nan_error : bytes := str "ERR resulting score is not a number (NaN)".

(** A set that has room for one more entry. *)
Definition roomy (n : nat) l : bool := Z.of_nat (length l) + Z.of_nat n <? 2 ^ 64.

Definition spec_zincrby : spec := fun g =>
  text ← argv rq !! 2%nat; k ← argv rq !! 1%nat; m ← argv rq !! 3%nat;
  match parseScore text with
  | None => exactly (refuse not_a_float g)
  | Some delta =>
      let add l e :=
        let result := Double.add (default 0 (ZSetValue.score_of m l)) delta in
        if Double.isnan result then exactly (refuse nan_error g)
        else if roomy 1 l then
          Some (fun g1 => exists d, ZSetValue.canon d = ZSetValue.canon result /\
            g1 = say (double_reply d) (tell Notify.kZset "zincr" k (mark 1 (put k (AZSet (place_in l (m, result))) e g))))
        else None in
      with_zset k g (add [] None) add
  end.

Definition spec_range (by' : RangeBy) (rev generic allow_with_scores : bool) : spec := fun g =>
  r ← parseRangeSpec (drop 2 (argv rq)) generic allow_with_scores (mkRangeSpec by' rev false false 0 (-1));
  k ← argv rq !! 1%nat;
  match r with
  | Refused msg => exactly (refuse msg g)
  | Parsed (o, b) =>
      with_zset k g (exactly (say (Reply.arrayHeader 0) (keymiss k g))) (fun l _ =>
        Some (fun g1 => exists l', near l' l /\ g1 = say (members_reply (selected o b l') (with_scores o)) g))
  end.

Definition counting k g (items : entries -> entries) : option (view -> Prop) :=
  with_zset k g (exactly (say (Reply.integer 0) (keymiss k g))) (fun l _ => exactly (say (Reply.integer (i64 (Z.of_nat (length (items l))))) g)).

Definition removing_in k g (event : string) (items : entries -> entries) : option (view -> Prop) :=
  with_zset k g (exactly (say (Reply.integer 0) g)) (fun l e => exactly (removing k event (items l) l e g)).

Definition in_score (r : SkipList.ScoreRange) l : entries := List.filter (fun e => SkipList.containsScore r (snd e)) l.
Definition in_lex (r : ZSetValue.LexRange) l : entries := if ZSetValue.lexIsEmpty r then [] else ZSetValue.lex_run r false l.

Definition spec_zcount : spec := fun g =>
  a ← argv rq !! 2%nat; b ← argv rq !! 3%nat; k ← argv rq !! 1%nat;
  match parseScoreRange a b with Refused msg => exactly (refuse msg g) | Parsed r => counting k g (in_score r) end.

Definition spec_zlexcount : spec := fun g =>
  a ← argv rq !! 2%nat; b ← argv rq !! 3%nat; k ← argv rq !! 1%nat;
  match parseLexRange a b with Refused msg => exactly (refuse msg g) | Parsed r => counting k g (in_lex r) end.

Definition spec_zremrangebyscore : spec := fun g =>
  a ← argv rq !! 2%nat; b ← argv rq !! 3%nat; k ← argv rq !! 1%nat;
  match parseScoreRange a b with Refused msg => exactly (refuse msg g) | Parsed r => removing_in k g "zremrangebyscore" (in_score r) end.

Definition spec_zremrangebylex : spec := fun g =>
  a ← argv rq !! 2%nat; b ← argv rq !! 3%nat; k ← argv rq !! 1%nat;
  match parseLexRange a b with Refused msg => exactly (refuse msg g) | Parsed r => removing_in k g "zremrangebylex" (in_lex r) end.

(** A pair of indices that selects nothing removes nothing, not even an empty
    set's key. *)
Definition spec_zremrangebyrank : spec := fun g =>
  a ← argv rq !! 2%nat; b ← argv rq !! 3%nat; k ← argv rq !! 1%nat;
  match stringToInt64 a, stringToInt64 b with
  | Some start, Some stop =>
      with_zset k g (exactly (say (Reply.integer 0) g)) (fun l e =>
        exactly (match index_slice start stop l with
                 | [] => say (Reply.integer 0) g
                 | items => removing k "zremrangebyrank" items l e g
                 end))
  | _, _ => exactly (refuse StringCommands.not_an_integer g)
  end.

Definition spec_zrandmember : spec := fun g =>
  k ← argv rq !! 1%nat;
  let absent o g := exactly (say (if is_some (A := Z * bool) o then Reply.arrayHeader 0 else null) g) in
  let counted g f := match HashCommands.rand_options rq "WITHSCORES" with Refused msg => exactly (refuse msg g) | Parsed o => f o end in
  with_zset k g (counted (keymiss k g) (fun o => absent o (keymiss k g))) (fun l _ => counted g (fun o =>
    if (length l =? 0)%nat then absent o g
    else
      match o with
      | None => Some (fun g1 => exists m, m ∈ l.*1 /\ g1 = say (Reply.bulk m) g)
      | Some (count, ws) =>
          if count =? StringCommands.int64_min then None
          else Some (fun g1 => exists l' xs, near l' l /\ Forall (fun x => x ∈ l') xs /\
            (if count <? 0 then Z.of_nat (length xs) = - count
             else NoDup xs.*1 /\ Z.of_nat (length xs) = Z.min count (Z.of_nat (length l))) /\
            g1 = say (members_reply xs ws) g)
      end)).

Definition spec_zrangestore : spec := fun g =>
  r ← parseRangeSpec (drop 3 (argv rq)) true false (mkRangeSpec Rank false false false 0 (-1));
  src ← argv rq !! 2%nat; dst ← argv rq !! 1%nat;
  match r with
  | Refused msg => exactly (refuse msg g)
  | Parsed (o, b) =>
      let store items g :=
        let n := Z.of_nat (length items) in
        if (length items =? 0)%nat then
          Some (fun g1 => exists gone : bool, (is_some (K g !! dst) = true -> gone = true) /\
            g1 = say (Reply.integer 0) (if gone then tell Notify.kGeneric "del" dst (mark 1 (remove dst g)) else remove dst g))
        else if n <? 2 ^ 64 then
          exactly (say (Reply.integer n) (tell Notify.kZset "zrangestore" dst (mark n (put dst (AZSet (built items)) None g))))
        else None in
      with_zset src g (store [] (keymiss src g)) (fun l _ => store (selected o b l) g)
  end.

Fixpoint spec_zmpop_loop (keys : list bytes) (lowest : bool) (count : Z) g : option (view -> Prop) :=
  match keys with
  | [] => exactly (say (Reply.nullArray (protover rq)) g)
  | k :: keys =>
      with_zset k g (spec_zmpop_loop keys lowest count g) (fun l e =>
        if (length l =? 0)%nat then spec_zmpop_loop keys lowest count g
        else
          let n := Z.to_nat count in
          let items := from_end lowest n l in
          let g := leave rq k (AZSet (without items.*1 l)) e
                     (tell Notify.kZset (if lowest then "zpopmin" else "zpopmax") k (mark (Z.of_nat (length items)) g)) in
          Some (fun g1 => exists l', near l' l /\
            let out := from_end lowest n l' in
            g1 = say (Reply.arrayHeader 2 ++ Reply.bulk k ++ Reply.arrayHeader (Z.of_nat (length out)) ++
                      concat (map (fun e => Reply.arrayHeader 2 ++ Reply.bulk e.1 ++
                                     (if 3 <=? protover rq then double_reply e.2 else Reply.bulk (Reply.formatDouble e.2))) out)) g))
  end.

Definition spec_zmpop : spec := fun g =>
  text ← argv rq !! 1%nat;
  match zmpop_arguments rq text with
  | Refused msg => exactly (refuse msg g)
  | Parsed (keys, lowest, count) => spec_zmpop_loop keys lowest count g
  end.

(** ZADD: one update of the set, and whether it was added or changed. *)
Definition zadd_allowed (f : zadd_flags) (existing : option Z) (score : Z) : bool :=
  match existing with
  | Some e => negb (nx f) && negb (gt f && Double.le score e) && negb (lt f && Double.ge score e)
  | None => negb (xx f)
  end.

Fixpoint zadd_all (f : zadd_flags) (updates : list (Z * bytes)) l (added changed : Z) : entries * Z * Z :=
  match updates with
  | [] => (l, added, changed)
  | (s, m) :: updates =>
      let existing := ZSetValue.score_of m l in
      if zadd_allowed f existing s then
        match existing with
        | None => zadd_all f updates (place_in l (m, s)) (added + 1) changed
        | Some e => zadd_all f updates (place_in l (m, s)) added (if Double.ne e s then changed + 1 else changed)
        end
      else zadd_all f updates l added changed
  end.

(** The INCR form filtered out by NX or XX falls through to the ordinary
    reply, an integer; by GT or LT it is a null. *)
Definition spec_zadd : spec := fun g =>
  match zadd_arguments (drop 2 (argv rq)) with
  | Refused msg => exactly (refuse msg g)
  | Parsed (f, updates) =>
      k ← argv rq !! 1%nat;
      let add l e :=
        if negb (roomy (length updates) l) then None
        else
          let counted l' added changed :=
            let g := mark (Z.of_nat (length updates)) g in
            let g := if 0 <? added + changed then tell Notify.kZset "zadd" k g else g in
            exactly (say (Reply.integer (if ch f then added + changed else added)) (leave rq k (AZSet l') e g)) in
          match incr f, updates with
          | true, [(s, m)] =>
              let existing := ZSetValue.score_of m l in
              let result := Double.add (default 0 existing) s in
              if (nx f && is_some existing) || (xx f && negb (is_some existing)) then counted l 0 0
              else if Double.isnan result then exactly (refuse nan_error g)
              else if zadd_allowed f existing result then
                Some (fun g1 => exists d, ZSetValue.canon d = ZSetValue.canon result /\
                  g1 = say (double_reply d) (tell Notify.kZset "zincr" k (mark 1 (put k (AZSet (place_in l (m, result))) e g))))
              else exactly (say null g)
          | _, _ => let '(l', added, changed) := zadd_all f updates l 0 0 in counted l' added changed
          end in
      with_zset k g (if xx f then exactly (say (if incr f then null else Reply.integer 0) g) else add [] None) add
  end.

End Specs.

(** ** Facts on entries *)

Lemma drop_member_without m l : ZSetValue.drop_member m l = without [m] l.
Proof.
  induction l as [|[x s] l IH]; [done|]. unfold without in *. rewrite ZSetValue.drop_cons, filter_cons, IH. cbn [fst]. destruct (decide (x = m)) as [->|Hne].
  - rewrite bool_decide_true, decide_False by (done || set_solver). done.
  - rewrite bool_decide_false, decide_True by (done || set_solver). done.
Qed.

Lemma without_without ms ms' l : without ms' (without ms l) = without (ms ++ ms') l.
Proof.
  unfold without. induction l as [|e l IH]; [done|]. rewrite !filter_cons. destruct (decide (e.1 ∉ ms)) as [H1|H1].
  - rewrite filter_cons, IH. destruct (decide (e.1 ∉ ms')), (decide (e.1 ∉ ms ++ ms')); (done || set_solver).
  - rewrite IH, decide_False; [done|]. set_solver.
Qed.

Lemma filter_none {A} (P : A -> Prop) `{forall x, Decision (P x)} (l : list A) : (forall x, x ∈ l -> ~ P x) -> filter P l = [].
Proof. induction l as [|x l IH]; intros Hl; [done|]. rewrite filter_cons, decide_False by (apply Hl; by left). apply IH. set_solver. Qed.

Lemma filter_every {A} (P : A -> Prop) `{forall x, Decision (P x)} (l : list A) : (forall x, x ∈ l -> P x) -> filter P l = l.
Proof. induction l as [|x l IH]; intros Hl; [done|]. rewrite filter_cons, decide_True by (apply Hl; by left). f_equal. apply IH. set_solver. Qed.

Lemma filter_ext_in {A} (P Q : A -> Prop) `{forall x, Decision (P x)} `{forall x, Decision (Q x)} (l : list A) :
  (forall x, x ∈ l -> P x <-> Q x) -> filter P l = filter Q l.
Proof.
  induction l as [|x l IH]; intros Hl; [done|]. rewrite !filter_cons, IH by set_solver. pose proof (Hl x ltac:(by left)).
  destruct (decide (P x)), (decide (Q x)); (done || tauto).
Qed.

Lemma without_nil l : without [] l = l.
Proof. apply filter_every. set_solver. Qed.

Lemma near_fst l' l : near l' l -> l'.*1 = l.*1.
Proof. intros <-. by rewrite ZSetValue.canons_fst. Qed.

Lemma near_length l' l : near l' l -> length l' = length l.
Proof. intros <-. unfold ZSetValue.canons. by rewrite length_map. Qed.

Lemma without_near ms l' l : near l' l -> near (without ms l') (without ms l).
Proof.
  intros <-. unfold near, without, ZSetValue.canons. induction l' as [|e l IH]; [done|]. cbn [map]. rewrite !filter_cons. cbn [fst].
  destruct (decide (e.1 ∉ ms)); cbn [map]; by rewrite IH.
Qed.

(** Removing a sub-list of the entries, and how many that is. *)
Lemma without_length (items l : entries) : NoDup l.*1 -> items ⊆+ l -> length l = (length items + length (without items.*1 l))%nat.
Proof.
  intros Hn (rest & Hp)%submseteq_Permutation. unfold without. assert (NoDup (items ++ rest).*1) as Hn2 by (by rewrite <- Hp).
  rewrite fmap_app in Hn2. apply NoDup_app in Hn2 as (_ & Hdis & _). rewrite Hp, filter_app, !length_app.
  assert (filter (fun e : bytes * Z => e.1 ∉ items.*1) items = []) as ->.
  { apply filter_none. intros e He Hx. apply Hx. apply list_elem_of_fmap. by exists e. }
  assert (filter (fun e : bytes * Z => e.1 ∉ items.*1) rest = rest) as ->; [|cbn; lia].
  apply filter_every. intros e He Hx. apply (Hdis e.1 Hx). apply list_elem_of_fmap. by exists e.
Qed.

(** ** Refinement *)

Section Refinement.
Context {D : Type -> Type} {ops : MapOps D} {laws : MapLaws D} (rq : request).
Implicit Types (g : view) (k m : bytes) (l : entries).
Abbreviation t := (now rq).

Ltac start Hs := intros g P Hs; match type of Hs with ?sp _ = _ => let h := head_of sp in unfold h in Hs end; unfold with_zset in Hs; args_in Hs.

Lemma wp_zset_score k m l e g (Q : option Z -> view -> Prop) : K g !! k = Some (AZSet l, e) ->
  (forall s, ZSetValue.canon <$> s = ZSetValue.score_of m l -> match s with Some d => Double.ok d | None => True end -> Q s g) ->
  wp t (on_zset k (fun z => ZSetValue.score z m)) g Q.
Proof.
  intros HK HQ. eapply wp_on_zset; [exact HK|]. intros z (l' & Hx & Hn). destruct (ZSetValue.exact_score z l' m Hx) as (z' & Hs & Hx' & _).
  eexists z', _, l. split; [exact Hs|]. split; [by exists l'|]. rewrite (update_id k _ _ _ HK). apply HQ; [by rewrite <- Hn, ZSetValue.score_of_canons|].
  destruct (ZSetValue.score_of m l') as [d|] eqn:Hd; [|done]. destruct Hx as [(Hnd & _ & Hok) _]. apply ZSetValue.score_of_Some in Hd; [|done].
  rewrite Forall_forall in Hok. by apply (Hok (m, d)).
Qed.

Lemma wp_zset_rank k m l e g (Q : option Z -> view -> Prop) : K g !! k = Some (AZSet l, e) ->
  Q (Z.of_nat <$> ZSetValue.rank_of m l) g -> wp t (on_zset k (fun z => ZSetValue.rank z m)) g Q.
Proof.
  intros HK HQ. eapply wp_on_zset; [exact HK|]. intros z (l' & Hx & <-). destruct (ZSetValue.exact_rank z l' m Hx) as (z' & Hs & Hx' & _).
  eexists z', _, _. split; [exact Hs|]. split; [by exists l'|]. rewrite (update_id k _ _ _ HK). unfold ZSetValue.rank_of in *. by rewrite ZSetValue.index_of_canons in HQ.
Qed.

Lemma wp_zset_erase k m l e g (Q : bool -> view -> Prop) : K g !! k = Some (AZSet l, e) ->
  Q (bool_decide (m ∈ l.*1)) (update k (AZSet (without [m] l)) g) -> wp t (on_zset k (fun z => ZSetValue.erase z m)) g Q.
Proof.
  intros HK HQ. eapply wp_on_zset; [exact HK|]. intros z Hz. destruct (ZSetValue.holds_erase z l m Hz) as (z' & Hs & Hz'). rewrite drop_member_without in Hz'. by eexists z', _, _.
Qed.

Lemma wp_zset_add k rng bits m sc l e g (Q : bool -> view -> Prop) : K g !! k = Some (AZSet l, e) -> Double.ok sc -> roomy 1 l = true ->
  Q (bool_decide (m ∉ l.*1)) (update k (AZSet (place_in l (m, sc))) g) -> wp t (on_zset k (fun z => ZSetValue.add z rng bits m sc)) g Q.
Proof.
  intros HK Hsc Hr HQ. apply Z.ltb_lt in Hr. eapply wp_on_zset; [exact HK|]. intros z Hz. destruct (ZSetValue.holds_add z l rng bits m sc Hz Hsc Hr) as (z' & Hs & Hz').
  by eexists z', _, _.
Qed.

(** Reading the whole object: the entries it returns. *)
Lemma wp_zset_read k l e g (Q : _ -> view -> Prop) : K g !! k = Some (AZSet l, e) ->
  (forall z l', ZSetValue.exact z l' -> near l' l -> Q z g) -> wp t (the_zset k) g Q.
Proof. intros HK HQ. eapply wp_the_zset; [exact HK|]. intros z (l' & Hx & Hn). by apply (HQ z l'). Qed.

Lemma wp_entries k l e g (Q : entries -> view -> Prop) : K g !! k = Some (AZSet l, e) ->
  (forall l', near l' l -> NoDup l'.*1 -> Q l' g) -> wp t (the_entries k) g Q.
Proof.
  intros HK HQ. unfold the_entries. wp_run. eapply wp_zset_read; [exact HK|]. intros z l' Hx Hn. eapply wp_lift; [by apply ZSetValue.exact_all|].
  apply HQ; [done|]. apply Hx.
Qed.

Lemma wp_zset_size k l e g (Q : nat -> view -> Prop) : K g !! k = Some (AZSet l, e) -> Q (length l) g -> wp t (z ← the_zset k; mret (ZSetValue.size z)) g Q.
Proof.
  intros HK HQ. wp_run. eapply wp_zset_read; [exact HK|]. intros z l' Hx Hn. wp_run. by rewrite (ZSetValue.exact_size z l' Hx), (near_length _ _ Hn).
Qed.

Lemma erase_each_ok k ms n l e g (Q : Z -> view -> Prop) : K g !! k = Some (AZSet l, e) -> NoDup l.*1 ->
  Q (n + Z.of_nat (length l) - Z.of_nat (length (without ms l))) (update k (AZSet (without ms l)) g) -> wp t (erase_each (ops:=ops) k ms n) g Q.
Proof.
  revert n l g. induction ms as [|m ms IH]; intros n l g HK Hn HQ; cbn [erase_each].
  { apply wp_ret. rewrite without_nil, (update_id k _ _ _ HK) in HQ. by replace (n + Z.of_nat (length l) - Z.of_nat (length l)) with n in HQ by lia. }
  wp_run. eapply wp_zset_erase; [exact HK|]. eapply IH; [by eapply update_lookup| |].
  { unfold without. eapply sublist_NoDup; [exact Hn|]. apply fmap_sublist, sublist_filter. }
  rewrite update_update, without_without. cbn [app]. match goal with HQ : Q ?a _ |- Q ?b _ => replace b with a; [done|] end.
  assert (length l = (if bool_decide (m ∈ l.*1) then 1 else 0) + length (without [m] l))%nat as Hl; [|case_bool_decide; lia].
  case_bool_decide as Hm.
  - apply list_elem_of_fmap in Hm as (x & -> & Hx). apply singleton_submseteq_l in Hx. exact (without_length [x] l Hn Hx).
  - unfold without. rewrite filter_every; [lia|]. intros x Hx Hin. apply list_elem_of_singleton in Hin. apply Hm. apply list_elem_of_fmap. by exists x.
Qed.

Lemma wp_zset_known {A} (h : M D A) k l e g (Q : A -> view -> Prop) : K g !! k = Some (AZSet l, e) ->
  (ZSetValue.entries_ok l -> ZSetValue.canons l = l -> wp t h g Q) -> wp t h g Q.
Proof. intros HK H. eapply wp_models; [exact HK|]. intros (v & _ & z & _ & Hz). destruct (ZSetValue.holds_ok z l Hz). by apply H. Qed.

Lemma emit_each_ok (one : bytes * Z -> M D unit) (text : bytes * Z -> bytes) items g (Q : unit -> view -> Prop) :
  (forall x g (Q : unit -> view -> Prop), (forall g', same g' (say (text x) g) -> Q tt g') -> wp t (one x) g Q) ->
  (forall g', same g' (say (concat (map text items)) g) -> Q tt g') -> wp t (emit_each one items) g Q.
Proof.
  intros Hone. revert g. induction items as [|x items IH]; intros g HQ; cbn [emit_each map concat] in *; [apply wp_ret, HQ; by rewrite say_nil|].
  apply wp_bind, Hone. intros g1 Hg1. apply IH. intros g' Hg'. apply HQ. rewrite Hg'. etransitivity; [apply same_say, Hg1|]. by rewrite say_say.
Qed.

Lemma emitMembers_ok items ws g (Q : unit -> view -> Prop) :
  (forall g', same g' (say (members_reply rq items ws) g) -> Q tt g') -> wp t (emitMembers (D:=D) rq items ws) g Q.
Proof.
  intros HQ. unfold emitMembers, members_reply in *. destruct ws; cbn [negb] in *; [destruct (3 <=? protover rq)|]; wp_run.
  - apply (emit_each_ok _ (fun e => Reply.arrayHeader 2 ++ Reply.bulk e.1 ++ double_reply rq e.2)).
    + intros x g1 Q1 H1. wp_run. apply H1. etransitivity; [apply say_say|]. by rewrite say_say.
    + intros g' Hg'. apply HQ. by rewrite Hg', say_say.
  - apply (emit_each_ok _ (fun e => Reply.bulk e.1 ++ Reply.bulk (Reply.formatDouble e.2))).
    + intros x g1 Q1 H1. wp_run. apply H1. by rewrite say_say.
    + intros g' Hg'. apply HQ. by rewrite Hg', say_say.
  - apply (emit_each_ok _ (fun e => Reply.bulk e.1)).
    + intros x g1 Q1 H1. wp_run. by apply H1.
    + intros g' Hg'. apply HQ. by rewrite Hg', say_say.
Qed.

Lemma rank_ok rev : meets t (rankGeneric (ops:=ops) rq rev) (spec_rank rq rev).
Proof.
  start Hs. unfold rankGeneric. wp_run. apply wp_lookupTypedRead. cases b; cbv beta iota; finish Hs; wp_run; try reflexivity.
  eapply wp_zset_rank; [exact HK|]. destruct (ZSetValue.rank_of b0 z) as [r|]; wp_run; cbn [fmap option_fmap option_map]; wp_run; [|reflexivity].
  destruct rev; wp_run; [|reflexivity]. eapply wp_zset_read; [exact HK|]. intros zv l' Hx Hn. wp_run.
  rewrite (ZSetValue.exact_size zv l' Hx), (near_length _ _ Hn). reflexivity.
Qed.

Lemma removed_reply_ok k event items l e n g0 g (Q : unit -> view -> Prop) :
  K g !! k = Some (AZSet (without items.*1 l), e) -> NoDup l.*1 -> items ⊆+ l -> n = Z.of_nat (length l) - Z.of_nat (length (without items.*1 l)) ->
  same g (update k (AZSet (without items.*1 l)) g0) ->
  (forall g', same g' (removing rq k event items l e g0) -> Q tt g') -> wp t (removed_reply (ops:=ops) rq k event n) g Q.
Proof.
  intros HK Hn Hsub -> Hg HQ. pose proof (without_length items l Hn Hsub) as Hlen. unfold removed_reply, removing in *. cbv zeta in HQ.
  replace (Z.of_nat (length l) - Z.of_nat (length (without items.*1 l))) with (Z.of_nat (length items)) by lia.
  set (rest := without items.*1 l) in *.
  destruct (0 <? Z.of_nat (length items)); wp_run; (eapply (wp_leave rq k (AZSet rest)); [exact HK|done|]); intros g' Hg'; wp_run; apply HQ, same_say; rewrite Hg';
    (etransitivity; [apply leave_same; first [apply same_tell, same_mark, Hg|apply Hg]|]); leave_now.
Qed.

Lemma zrem_ok : meets t (zrem (ops:=ops) rq) (spec_zrem rq).
Proof.
  start Hs. unfold zrem. wp_run. apply wp_lookupTyped. cases b; cbv beta iota; finish Hs; wp_run; try reflexivity.
  eapply (wp_zset_known _ b z e); [exact HK|]. intros [Hn _] _. eapply erase_each_ok; [exact HK|done|]. set (items := filter _ z).
  assert (without (drop 2 (argv rq)) z = without items.*1 z) as Hw.
  { unfold without. apply filter_ext_in. intros x Hx. split; intros H1 H2; apply H1.
    - apply list_elem_of_fmap in H2 as (y & -> & Hy). by apply list_elem_of_filter in Hy as [? _].
    - apply list_elem_of_fmap. exists x. split; [done|]. by apply list_elem_of_filter. }
  rewrite Hw. eapply (removed_reply_ok b "zrem" items z e _ g); [by eapply update_lookup|done|apply sublist_submseteq, sublist_filter|lia|reflexivity|]. done.
Qed.

Lemma double_or_null_ok s g (Q : unit -> view -> Prop) : Q tt (say (double_or rq s) g) -> wp t (double_or_null (D:=D) rq s) g Q.
Proof. intros HQ. destruct s; by apply wp_write. Qed.

Lemma zscore_ok : meets t (zscore (ops:=ops) rq) (spec_zscore rq).
Proof.
  start Hs. unfold zscore. wp_run. apply wp_lookupTypedRead. cases b; cbv beta iota; try (finish Hs; wp_run; reflexivity). injection Hs as <-.
  wp_run. eapply wp_zset_score; [exact HK|]. intros s Hsc _. apply double_or_null_ok. eexists. split; [by exists s|reflexivity].
Qed.

Lemma score_each_ok k l e ms g (Q : unit -> view -> Prop) : K g !! k = Some (AZSet l, e) ->
  (forall g' ss, Forall2 (fun m s => ZSetValue.canon <$> s = ZSetValue.score_of m l) ms ss -> same g' (say (concat (map (double_or rq) ss)) g) -> Q tt g') ->
  wp t (score_each (ops:=ops) rq k true ms) g Q.
Proof.
  revert g Q. induction ms as [|m ms IH]; intros g Q HK HQ; cbn [score_each]; [apply wp_ret, (HQ g []); [constructor|by rewrite say_nil]|].
  wp_run. eapply wp_zset_score; [exact HK|]. intros s Hsc _. wp_run. apply double_or_null_ok. apply IH; [exact HK|]. intros g' ss HF Hg'.
  apply (HQ g' (s :: ss)); [by constructor|]. rewrite Hg'. cbn [map concat]. by rewrite say_say.
Qed.

Lemma score_each_none k ms g (Q : unit -> view -> Prop) :
  (forall g', same g' (say (concat (map (fun _ => null rq) ms)) g) -> Q tt g') -> wp t (score_each (ops:=ops) rq k false ms) g Q.
Proof.
  revert g. induction ms as [|m ms IH]; intros g HQ; cbn [score_each map concat] in *; [apply wp_ret, HQ; by rewrite say_nil|].
  wp_run. apply double_or_null_ok. apply IH. intros g' Hg'. apply HQ. by rewrite Hg', say_say.
Qed.

Lemma zmscore_ok : meets t (zmscore (ops:=ops) rq) (spec_zmscore rq).
Proof.
  start Hs. unfold zmscore. wp_run. apply wp_lookupTypedRead. cases b; cbv beta iota; try (finish Hs; wp_run; reflexivity); cbn [SetCommands.is_found].
  - apply (inj Some) in Hs. subst P. wp_run. eapply score_each_ok; [exact HK|]. intros g' ss HF Hg'. eexists. split; [by exists ss|]. by rewrite Hg', say_say.
  - finish Hs. wp_run. apply score_each_none. intros g' Hg'. by rewrite Hg', say_say.
Qed.

Lemma zcard_ok : meets t (zcard (ops:=ops) rq) (spec_zcard rq).
Proof.
  start Hs. unfold zcard. wp_run. apply wp_lookupTypedRead. cases b; cbv beta iota; finish Hs; wp_run; try reflexivity.
  eapply wp_zset_read; [exact HK|]. intros zv l' Hx Hn. wp_run. rewrite (ZSetValue.exact_size zv l' Hx), (near_length _ _ Hn). reflexivity.
Qed.

(** What the two range readers return. *)
Lemma collect_ok (z : ZSetValue.t D) l' o b : ZSetValue.exact z l' -> match b with ByScore r => SkipList.range_ok r | _ => True end ->
  collectRange z o b = Some (selected o b l').
Proof.
  intros Hx Hr. destruct b as [start stop|r|r]; cbn [collectRange selected].
  - by rewrite (ZSetValue.exact_all z l' Hx).
  - by rewrite (ZSetValue.exact_rangeByScore z l' r Hx Hr).
  - by rewrite (ZSetValue.exact_rangeByLex z l' r Hx).
Qed.

Lemma parse_bounds_ok o a b c : parse_bounds o a b = Parsed c -> match c with ByScore r => SkipList.range_ok r | _ => True end.
Proof.
  unfold parse_bounds. destruct (by_ o).
  - destruct (stringToInt64 a), (stringToInt64 b); intros [= <-]; done.
  - destruct (parseScoreRange _ _) as [r|] eqn:Hr; intros [= <-]. by eapply parseScoreRange_ok.
  - destruct (parseLexRange _ _) as [r|] eqn:Hr; intros [= <-]. done.
Qed.

Lemma parseRangeSpec_ok rest generic ws o o' b : parseRangeSpec rest generic ws o = Some (Parsed (o', b)) ->
  match b with ByScore r => SkipList.range_ok r | _ => True end.
Proof.
  unfold parseRangeSpec. destruct rest as [|x [|y rest]]; [done..|]. destruct (range_options _ _ _ _ _) as [[o1|]|]; cbn [mbind option_bind]; [|done..].
  destruct (has_limit o1 && _); [done|]. destruct (with_scores o1 && _); [done|]. destruct (parse_bounds o1 x y) as [c|] eqn:Hb; intros [= <- <-]. by eapply parse_bounds_ok.
Qed.

Lemma range_ok by' rev generic ws : meets t (rangeCommand (ops:=ops) rq by' rev generic ws) (spec_range rq by' rev generic ws).
Proof.
  intros g P Hs. unfold spec_range in Hs. destruct (parseRangeSpec _ _ _ _) as [r|] eqn:Hp; [|done]. cbn [mbind option_bind] in Hs. args_in Hs.
  unfold rangeCommand. rewrite Hp. wp_run. apply (wp_lift _ _ _ _ _ eq_refl). destruct r as [[o b']|msg]; [|finish Hs; wp_run; reflexivity].
  apply parseRangeSpec_ok in Hp. unfold with_zset in Hs. wp_run. apply wp_lookupTypedRead. cases b; cbv beta iota; try (finish Hs; wp_run; reflexivity). injection Hs as <-.
  wp_run. eapply wp_zset_read; [exact HK|]. intros zv l' Hx Hn. wp_run. eapply wp_lift; [by apply collect_ok|]. apply emitMembers_ok. intros g' Hg'. eexists. split; [by exists l'|done].
Qed.

(** ** Ranges of entries: counted and removed *)

Lemma lex_run_sublist r started l : ZSetValue.lex_run r started l `sublist_of` l.
Proof.
  revert started. induction l as [|x l IH]; intros started; cbn; [done|]. case_if; [by constructor|]. case_if; [apply sublist_nil_l|]. by constructor.
Qed.

Lemma stdlib_filter_sublist {A} (f : A -> bool) (l : list A) : List.filter f l `sublist_of` l.
Proof. induction l as [|x l IH]; cbn; [done|]. destruct (f x); by constructor. Qed.

Lemma in_lex_sub r l : in_lex r l ⊆+ l.
Proof. unfold in_lex. case_if; [apply submseteq_nil_l|]. apply sublist_submseteq, lex_run_sublist. Qed.

Lemma in_score_sub r l : in_score r l ⊆+ l.
Proof. apply sublist_submseteq, stdlib_filter_sublist. Qed.

Lemma in_lex_near r l' l : near l' l -> near (in_lex r l') (in_lex r l).
Proof. intros <-. unfold near, in_lex. case_if; [done|]. apply ZSetValue.canons_lex_run. Qed.

Lemma in_score_near r l' l : SkipList.range_ok r -> Forall (fun e => Double.ok (snd e)) l' -> near l' l -> near (in_score r l') (in_score r l).
Proof. intros Hr Hok <-. by apply ZSetValue.canons_filter_score. Qed.

Lemma count_in_ok (find : ZSetValue.t D -> option entries) items k g P : argv rq !! 1%nat = Some k ->
  (forall z l' l, ZSetValue.exact z l' -> near l' l -> exists out, find z = Some out /\ near out (items l)) ->
  counting rq k g items = Some P -> wp t (count_in (ops:=ops) rq find) g (fun _ g1 => exists g', P g' /\ same g1 g').
Proof.
  intros Hk Hfind Hs. unfold counting, with_zset in Hs. unfold count_in. wp_run. apply wp_lookupTypedRead. cases k; cbv beta iota; finish Hs; wp_run; try reflexivity.
  eapply wp_zset_read; [exact HK|]. intros zv l' Hx Hn. destruct (Hfind zv l' z Hx Hn) as (out & Hf & Hnear). wp_run. apply (wp_lift _ _ _ _ _ Hf). wp_run.
  rewrite (near_length _ _ Hnear). reflexivity.
Qed.

Lemma remove_in_ok event (find : ZSetValue.t D -> option entries) items k g P : argv rq !! 1%nat = Some k -> (forall l, items l ⊆+ l) ->
  (forall z l' l, ZSetValue.exact z l' -> near l' l -> exists out, find z = Some out /\ near out (items l)) ->
  removing_in rq k g event items = Some P -> wp t (remove_in (ops:=ops) rq event find) g (fun _ g1 => exists g', P g' /\ same g1 g').
Proof.
  intros Hk Hsub Hfind Hs. unfold removing_in, with_zset in Hs. unfold remove_in. wp_run. apply wp_lookupTyped. cases k; cbv beta iota; finish Hs; wp_run; try reflexivity.
  eapply (wp_zset_known _ k z e); [exact HK|]. intros [Hnd _] _.
  eapply wp_zset_read; [exact HK|]. intros zv l' Hx Hn. destruct (Hfind zv l' z Hx Hn) as (out & Hf & Hnear). wp_run. apply (wp_lift _ _ _ _ _ Hf). wp_run.
  rewrite (near_fst _ _ Hnear). eapply erase_each_ok; [exact HK|done|]. eapply (removed_reply_ok k event (items z) z e _ g); [by eapply update_lookup|done|done|lia|reflexivity|done].
Qed.

Lemma find_score r : SkipList.range_ok r -> forall (z : ZSetValue.t D) l' l, ZSetValue.exact z l' -> near l' l ->
  exists out, ZSetValue.rangeByScore z r = Some out /\ near out (in_score r l).
Proof.
  intros Hr z l' l Hx Hn. eexists. split; [by apply ZSetValue.exact_rangeByScore|]. apply (in_score_near r l' l); [done| |done]. apply Hx.
Qed.

Lemma find_lex r : forall (z : ZSetValue.t D) l' l, ZSetValue.exact z l' -> near l' l -> exists out, ZSetValue.rangeByLex z r = Some out /\ near out (in_lex r l).
Proof. intros z l' l Hx Hn. eexists. split; [by apply ZSetValue.exact_rangeByLex|]. by apply (in_lex_near r l' l). Qed.

Lemma zcount_ok : meets t (zcount (ops:=ops) rq) (spec_zcount rq).
Proof.
  start Hs. unfold zcount. wp_run. destruct (parseScoreRange b b0) as [r|] eqn:Hr; [|finish Hs; wp_run; reflexivity]. eapply count_in_ok; [done| |exact Hs].
  apply find_score. by eapply parseScoreRange_ok.
Qed.

Lemma zlexcount_ok : meets t (zlexcount (ops:=ops) rq) (spec_zlexcount rq).
Proof.
  start Hs. unfold zlexcount. wp_run. destruct (parseLexRange b b0) as [r|] eqn:Hr; [|finish Hs; wp_run; reflexivity]. eapply count_in_ok; [done| |exact Hs]. apply find_lex.
Qed.

Lemma zremrangebyscore_ok : meets t (zremrangebyscore (ops:=ops) rq) (spec_zremrangebyscore rq).
Proof.
  start Hs. unfold zremrangebyscore. wp_run. destruct (parseScoreRange b b0) as [r|] eqn:Hr; [|finish Hs; wp_run; reflexivity].
  eapply remove_in_ok; [done|apply in_score_sub| |exact Hs]. apply find_score. by eapply parseScoreRange_ok.
Qed.

Lemma zremrangebylex_ok : meets t (zremrangebylex (ops:=ops) rq) (spec_zremrangebylex rq).
Proof.
  start Hs. unfold zremrangebylex. wp_run. destruct (parseLexRange b b0) as [r|] eqn:Hr; [|finish Hs; wp_run; reflexivity].
  eapply remove_in_ok; [done|apply in_lex_sub| |exact Hs]. apply find_lex.
Qed.

Lemma resolve_some start stop n a b : 0 <= n -> resolveIndexRange start stop n = Some (a, b) -> 0 <= a <= b /\ b < n.
Proof.
  unfold resolveIndexRange. intros Hn H. destruct (_ || _) eqn:E in H; [done|]. injection H as <- <-. bools. repeat case_if; bools; lia.
Qed.

Lemma slice_near {A} (f : A -> A) start stop (l : list A) : index_slice start stop (map f l) = map f (index_slice start stop l).
Proof. unfold index_slice. rewrite length_map. destruct (resolveIndexRange _ _ _) as [[a b]|]; [|done]. by rewrite skipn_map, firstn_map. Qed.

Lemma zremrangebyrank_ok : meets t (zremrangebyrank (ops:=ops) rq) (spec_zremrangebyrank rq).
Proof.
  start Hs. unfold zremrangebyrank. wp_run. destruct (stringToInt64 b) as [start|]; [|finish Hs; wp_run; reflexivity].
  destruct (stringToInt64 b0) as [stop|]; [|finish Hs; wp_run; reflexivity].
  wp_run. apply wp_lookupTyped. cases b1; cbv beta iota; finish Hs; wp_run; try reflexivity.
  eapply (wp_zset_known _ b1 z e); [exact HK|]. intros [Hnd _] _. eapply wp_entries; [exact HK|]. intros l' Hn Hnd'.
  assert (index_slice start stop z = map (fun e => (fst e, ZSetValue.canon (snd e))) (index_slice start stop l')) as Hsl by (rewrite <- Hn; apply slice_near).
  unfold index_slice in Hsl at 2. destruct (resolveIndexRange start stop (Z.of_nat (length l'))) as [[a c]|] eqn:Hr; [|rewrite Hsl; wp_run; reflexivity].
  apply resolve_some in Hr as [Hac Hc]; [|lia]. set (items := take _ (drop _ l')) in *.
  assert (0 < length items)%nat as Hpos by (unfold items; rewrite length_take, length_drop; lia).
  destruct (index_slice start stop z) as [|x xs] eqn:Hz; [apply (f_equal length) in Hsl; rewrite length_map in Hsl; cbn in Hsl; lia|].
  assert (items.*1 = (x :: xs).*1) as -> by (rewrite Hsl; symmetry; apply (ZSetValue.canons_fst items)).
  wp_run. eapply erase_each_ok; [exact HK|done|].
  eapply (removed_reply_ok b1 "zremrangebyrank" (x :: xs) z e _ g); [by eapply update_lookup|done| |lia|reflexivity|done].
  rewrite <- Hz. unfold index_slice. destruct (resolveIndexRange _ _ _) as [[? ?]|]; [|apply submseteq_nil_l]. apply sublist_submseteq. etransitivity; [apply sublist_take|apply sublist_drop].
Qed.

(** ** Pops *)

Lemma from_end_near lowest n l' l : near l' l -> near (from_end lowest n l') (from_end lowest n l).
Proof. intros <-. unfold near, from_end, ZSetValue.canons. destruct lowest; [by rewrite firstn_map|]. by rewrite <- firstn_map, map_rev. Qed.

Lemma from_end_sub lowest n l : from_end lowest n l ⊆+ l.
Proof.
  unfold from_end. etransitivity; [apply sublist_submseteq, sublist_take|]. destruct lowest; [done|]. apply Permutation_submseteq. symmetry. apply Permutation_rev.
Qed.

Lemma take_min {A} n (l : list A) : take (Nat.min n (length l)) l = take n l.
Proof. destruct (Nat.min_spec n (length l)) as [[_ ->]|[? ->]]; [done|]. by rewrite !take_ge by lia. Qed.

Lemma popped_from_end (lowest : bool) n (l : entries) :
  (let all := if lowest then l else rev l in take (Nat.min n (length all)) all) = from_end lowest n l.
Proof. cbv zeta. apply take_min. Qed.

Lemma zpop_ok lowest : meets t (popGeneric (ops:=ops) rq lowest) (spec_zpop rq lowest).
Proof.
  start Hs. unfold popGeneric. wp_run. apply wp_lookupTyped.
  cases b; cbv beta iota; try (finish Hs; wp_run; reflexivity); (destruct (pop_count rq) as [c|msg] eqn:Hc; [|finish Hs; wp_run; reflexivity]); try (finish Hs; wp_run; reflexivity).
  apply (inj Some) in Hs. subst P. eapply (wp_zset_known _ b z e); [exact HK|]. intros [Hnd _] _.
  wp_run. eapply wp_entries; [exact HK|]. intros l' Hn Hnd'. cbv zeta. rewrite take_min. fold (from_end lowest (Z.to_nat (default 1 c)) l').
  pose proof (from_end_near lowest (Z.to_nat (default 1 c)) l' z Hn) as Hout. rewrite (near_fst _ _ Hout), (near_length _ _ Hout).
  set (out := from_end lowest _ l') in *. set (items := from_end lowest _ z) in *. wp_run.
  eapply erase_each_ok; [exact HK|done|]. set (rest := without items.*1 z).
  assert (forall g1, same g1 (leave rq b (AZSet rest) e
      (if (length items =? 0)%nat then g else tell rq Notify.kZset (if lowest then "zpopmin" else "zpopmax") b (mark (Z.of_nat (length items)) g))) ->
    wp t (if negb (is_some c) && (3 <=? protover rq) then
            _ ← arrayHeader (Z.of_nat (length items * 2)); emit_each (fun e => _ ← bulk e.1; doubleValue rq e.2) out
          else emitMembers rq out true) g1 (fun _ g2 => exists g', (exists l'0, near l'0 z /\
      g' = say (if negb (is_some c) && (3 <=? protover rq)
                then Reply.arrayHeader (Z.of_nat (length (from_end lowest (Z.to_nat (default 1 c)) l'0) * 2)) ++
                     concat (map (fun e => Reply.bulk e.1 ++ double_reply rq e.2) (from_end lowest (Z.to_nat (default 1 c)) l'0))
                else members_reply rq (from_end lowest (Z.to_nat (default 1 c)) l'0) true)
             (leave rq b (AZSet rest) e (if (length items =? 0)%nat then g
              else tell rq Notify.kZset (if lowest then "zpopmin" else "zpopmax") b (mark (Z.of_nat (length items)) g)))) /\ same g2 g')) as Hend.
  { intros g1 Hg1. destruct (negb (is_some c) && (3 <=? protover rq)).
    - wp_run. apply (emit_each_ok _ (fun e => Reply.bulk e.1 ++ double_reply rq e.2)).
      + intros x g2 Q1 H1. wp_run. apply H1. by rewrite say_say.
      + intros g' Hg'. eexists. split; [by exists l'|]. rewrite Hg'. etransitivity; [apply say_say|]. fold out. rewrite (near_length _ _ Hout). by apply same_say.
    - apply emitMembers_ok. intros g' Hg'. eexists. split; [by exists l'|]. rewrite Hg'. by apply same_say. }
  destruct (length items =? 0)%nat; wp_run; (eapply (wp_leave rq b (AZSet rest)); [by eapply update_lookup|done|]); intros g' Hg'; apply Hend; rewrite Hg'; leave_now.
Qed.

Lemma zmpop_loop_ok keys lowest count g P : spec_zmpop_loop rq keys lowest count g = Some P ->
  wp t (zmpop_loop (ops:=ops) rq keys lowest count) g (fun _ g1 => exists g', P g' /\ same g1 g').
Proof.
  assert (forall g g1, same g1 g -> spec_zmpop_loop rq keys lowest count g = Some P ->
    wp t (zmpop_loop (ops:=ops) rq keys lowest count) g1 (fun _ g2 => exists g', P g' /\ same g2 g')) as H; [|by apply H].
  clear g. induction keys as [|k keys IH]; intros g g1 Hg Hs; cbn [zmpop_loop spec_zmpop_loop] in *; [finish Hs; wp_run; by apply same_say|].
  pose proof (same_fields _ _ Hg) as [HKg _]. unfold with_zset in Hs. wp_run. apply wp_lookupTyped. rewrite HKg.
  cases k; cbv beta iota; try (finish Hs; wp_run; by apply same_say).
  2: cbn [SetCommands.is_found]; wp_run; cbn [Nat.eqb]; apply (IH g); [done|exact Hs].
  rename HK into HK0. assert (K (settle k g1) !! k = Some (AZSet z, e)) as HK by (cbn; by rewrite HKg).
  cbn [SetCommands.is_found]. apply wp_bind. eapply wp_zset_size; [exact HK|]. destruct (length z =? 0)%nat; [apply (IH g); [done|exact Hs]|].
  apply (inj Some) in Hs. subst P. eapply (wp_zset_known _ k z e); [exact HK|]. intros [Hnd _] _.
  wp_run. eapply wp_entries; [exact HK|]. intros l' Hn Hnd'. cbv zeta. rewrite take_min. fold (from_end lowest (Z.to_nat count) l').
  pose proof (from_end_near lowest (Z.to_nat count) l' z Hn) as Hout. rewrite (near_fst _ _ Hout), (near_length _ _ Hout). wp_run.
  eapply erase_each_ok; [exact HK|done|]. wp_run. eapply (wp_leave rq k (AZSet _)); [by eapply update_lookup|done|]. intros g' Hg'. wp_run.
  apply (emit_each_ok _ (fun e => Reply.arrayHeader 2 ++ Reply.bulk e.1 ++ (if 3 <=? protover rq then double_reply rq e.2 else Reply.bulk (Reply.formatDouble e.2)))).
  - intros x g2 Q1 H1. destruct (3 <=? protover rq); wp_run; apply H1; (etransitivity; [apply say_say|]); by rewrite say_say.
  - intros g2 Hg2. eexists. split; [by exists l'|]. rewrite Hg2. etransitivity; [apply say_say|]. etransitivity; [apply say_say|]. etransitivity; [apply say_say|].
    rewrite (near_length _ _ Hout). apply same_say. rewrite Hg'. etransitivity; [|apply leave_same, same_tell, same_mark, Hg]. leave_now.
Qed.

Lemma zmpop_ok : meets t (zmpop (ops:=ops) rq) (spec_zmpop rq).
Proof.
  start Hs. unfold zmpop. wp_run. destruct (zmpop_arguments rq b) as [[[keys lowest] count]|msg]; [|finish Hs; wp_run; reflexivity]. by apply zmpop_loop_ok.
Qed.

(** ** Random members *)

Lemma pick_entries_ok all js g (Q : entries -> view -> Prop) : Forall (fun i => (i < length all)%nat) js ->
  (forall xs, length xs = length js -> Forall (fun x => x ∈ all) xs -> Q xs g) -> wp t (pick_entries (D:=D) all js) g Q.
Proof.
  intros H. revert g Q. induction H as [|i js Hi _ IH]; intros g Q HQ; cbn [pick_entries]; [by apply wp_ret, HQ|].
  destruct (lookup_lt_is_Some_2 all i Hi) as [x Hx]. apply wp_bind, (wp_lift _ _ _ _ _ Hx). wp_run. apply IH. intros xs Hl Hm. wp_run. apply HQ; [cbn; lia|].
  constructor; [by eapply list_elem_of_lookup_2|done].
Qed.

Lemma zrandmember_ok : meets t (zrandmember (ops:=ops) rq) (spec_zrandmember rq).
Proof.
  start Hs. unfold zrandmember. wp_run. apply wp_lookupTypedRead.
  cases b; cbv beta iota; try (finish Hs; wp_run; reflexivity); (destruct (HashCommands.rand_options rq "WITHSCORES") as [o|msg] eqn:Hc; [|finish Hs; wp_run; reflexivity]); cbn [SetCommands.is_found].
  2: wp_run; cbn [Nat.eqb]; finish Hs; destruct o; wp_run; reflexivity.
  apply wp_bind. eapply wp_zset_size; [exact HK|]. destruct (Nat.eqb_spec (length z) 0) as [Hz|Hz]; [finish Hs; destruct o; wp_run; reflexivity|].
  wp_run. eapply wp_entries; [exact HK|]. intros l' Hn Hnd. pose proof (near_length _ _ Hn) as Hlen. wp_run. destruct o as [[count ws]|].
  - destruct (Z.eqb_spec count StringCommands.int64_min) as [|Hmin]; [done|]. apply (inj Some) in Hs. subst P.
    apply HashCommands.rand_options_count in Hc. unfold StringCommands.int64_min, s_range in *. cbn in Hc.
    assert (forall xs, Forall (fun x => x ∈ l') xs -> (if count <? 0 then Z.of_nat (length xs) = - count
             else NoDup xs.*1 /\ Z.of_nat (length xs) = Z.min count (Z.of_nat (length z))) ->
      wp t (emitMembers (D:=D) rq xs ws) (settle b g) (fun _ g1 => exists g', (exists l0 xs, near l0 z /\ Forall (fun x => x ∈ l0) xs /\
            (if count <? 0 then Z.of_nat (length xs) = - count
             else NoDup xs.*1 /\ Z.of_nat (length xs) = Z.min count (Z.of_nat (length z))) /\
            g' = say (members_reply rq xs ws) g) /\ same g1 g')) as Hend.
    { intros xs Hxs Hcount. apply emitMembers_ok. intros g' Hg'. eexists. split; [exists l', xs; by split_and!|]. by rewrite Hg'. }
    destruct (Z.ltb_spec count 0).
    + wp_run. apply wp_checked; [unfold s_range; cbn; lia|]. wp_run. destruct (picks_ok (Z.to_nat (- count)) 0 (r 0%nat 0%nat) (length l')) as [Hpl Hpf]; [lia|].
      apply pick_entries_ok; [done|]. intros xs Hml Hmf. apply Hend; [done|lia].
    + apply wp_bind, wp_ret. pose proof (shuffle_perm (r 0%nat 0%nat) l') as Hp. apply Hend; [apply Forall_take; rewrite Hp; by apply Forall_forall|]. split.
      * eapply sublist_NoDup; [|apply fmap_sublist, sublist_take]. by rewrite Hp.
      * rewrite length_take, Hp. lia.
  - apply (inj Some) in Hs. subst P. destruct (lookup_lt_is_Some_2 l' (Z.to_nat (r 0%nat 0%nat 0%nat mod Z.of_nat (length l')))) as [x Hx].
    { assert (0 < Z.of_nat (length l')) as Hpos by lia. pose proof (Z.mod_pos_bound (r 0%nat 0%nat 0%nat) _ Hpos). lia. }
    wp_run. apply (wp_lift _ _ _ _ _ Hx). wp_run. eexists. split; [exists x.1; split; [|reflexivity]|reflexivity]. rewrite <- (near_fst _ _ Hn).
    apply list_elem_of_fmap. exists x. split; [done|]. by eapply list_elem_of_lookup_2.
Qed.

(** ** Arithmetic on scores *)

Lemma add_canon a b : Double.ok a ->
  Double.isnan (Double.add a b) = Double.isnan (Double.add (ZSetValue.canon a) b) /\
  ZSetValue.canon (Double.add a b) = ZSetValue.canon (Double.add (ZSetValue.canon a) b).
Proof.
  intros Ha. destruct (Z.eqb_spec a (2 ^ 63)) as [->|Hne]; [change (ZSetValue.canon (2 ^ 63)) with 0|unfold ZSetValue.canon; by rewrite (proj2 (Z.eqb_neq _ _) Hne)]. unfold Double.add.
  change (Double.isnan (2 ^ 63)) with false. change (Double.isnan 0) with false. cbn [orb]. destruct (Double.isnan b); [done|].
  change (Double.isinf (2 ^ 63)) with false. change (Double.isinf 0) with false. cbv iota. destruct (Double.isinf b); [done|].
  change (Double.units (2 ^ 63)) with 0. change (Double.units 0) with 0. cbv zeta. destruct (0 + Double.units b =? 0); [|done].
  change (Double.sign (2 ^ 63)) with true. change (Double.sign 0) with false. cbn [andb]. by destruct (Double.sign b).
Qed.

Lemma add_zero_number b : Double.ok b -> Double.isnan (Double.add 0 b) = false.
Proof.
  intros [Hb Hn]. unfold Double.add. change (Double.isnan 0) with false. change (Double.isinf 0) with false. rewrite Hn. cbn [orb]. destruct (Double.isinf b); [done|].
  cbv zeta. case_if; apply Double.ok_signed; [done|]. apply Double.nearest_range; lia.
Qed.

Lemma add_current current m l delta : ZSetValue.canon <$> current = ZSetValue.score_of m l -> match current with Some d => Double.ok d | None => True end ->
  Double.isnan (Double.add (default 0 current) delta) = Double.isnan (Double.add (default 0 (ZSetValue.score_of m l)) delta) /\
  ZSetValue.canon (Double.add (default 0 current) delta) = ZSetValue.canon (Double.add (default 0 (ZSetValue.score_of m l)) delta).
Proof. intros <- Hok. destruct current as [d|]; [|done]. cbn. by apply add_canon. Qed.

Lemma place_in_canon l m a b : ZSetValue.canon a = ZSetValue.canon b -> place_in l (m, a) = place_in l (m, b).
Proof. intros H. unfold place_in. cbn. by rewrite H. Qed.

Lemma default_ok (current : option Z) : match current with Some d => Double.ok d | None => True end -> Double.ok (default 0 current).
Proof. by destruct current. Qed.

(** ZINCRBY, and ZADD with INCR, once the new score is known. *)
Lemma zincr_store k rng bits m d result l e g (Q : bool -> view -> Prop) : K g !! k = Some (AZSet l, e) -> Double.ok d -> roomy 1 l = true ->
  ZSetValue.canon d = ZSetValue.canon result ->
  (forall b, Q b (update k (AZSet (place_in l (m, result))) g)) -> wp t (on_zset k (fun z => ZSetValue.add z rng bits m d)) g Q.
Proof. intros HK Hd Hr Hc HQ. eapply wp_zset_add; [exact HK|done|done|]. rewrite (place_in_canon l m d result Hc). apply HQ. Qed.

Lemma zincrby_ok : meets t (zincrby (ops:=ops) rq) (spec_zincrby rq).
Proof.
  start Hs. unfold zincrby. wp_run. destruct (parseScore b) as [delta|] eqn:Hd; [|finish Hs; wp_run; reflexivity]. apply parseScore_ok in Hd.
  assert (forall l e g1, K g1 !! b0 = Some (AZSet l, e) -> (forall l', same (update b0 (AZSet l') g1) (put b0 (AZSet l') e g)) -> (l = [] \/ same g1 g) ->
    (let result := Double.add (default 0 (ZSetValue.score_of b1 l)) delta in
        if Double.isnan result then exactly (refuse nan_error g)
        else if roomy 1 l then
          Some (fun g1 => exists d, ZSetValue.canon d = ZSetValue.canon result /\
            g1 = say (double_reply rq d) (tell rq Notify.kZset "zincr" b0 (mark 1 (put b0 (AZSet (place_in l (b1, result))) e g))))
        else None) = Some P ->
    wp t (current ← on_zset b0 (fun z => ZSetValue.score z b1);
          let result := Double.add (default 0 current) delta in
          if Double.isnan result then _ ← error (str "ERR resulting score is not a number (NaN)"); deleteIfEmpty rq b0
          else rnd ← random rq; _ ← on_zset b0 (fun z => ZSetValue.add z (rnd 0%nat) (rnd 0%nat 129%nat) b1 result);
               _ ← markDirty 1; _ ← notify rq Notify.kZset "zincr" b0; doubleValue rq result) g1 (fun _ g1 => exists g', P g' /\ same g1 g')) as Hadd.
  { intros l e g1 HK Hput Hor HP. wp_run. eapply wp_zset_score; [exact HK|]. intros current Hc Hok. cbv zeta in HP |- *.
    destruct (add_current current b1 l delta Hc Hok) as [Hnan Hcan]. rewrite Hnan. destruct (Double.isnan (Double.add (default 0 (ZSetValue.score_of b1 l)) delta)) eqn:Hn.
    - finish HP. wp_run. eapply wp_deleteIfEmpty; [exact HK|done|]. assert (current <> None) as Hne.
      { intros ->. cbn in Hc. rewrite <- Hc in Hn. cbn in Hn. by rewrite add_zero_number in Hn. }
      destruct Hor as [->|Hg]; [destruct current; done|]. cbn [acount]. destruct l as [|x l]; [by destruct current|]. cbn [length Nat.eqb]. by apply same_say.
    - destruct (roomy 1 l) eqn:Hr; [|done]. apply (inj Some) in HP. subst P. wp_run.
      eapply zincr_store; [exact HK|apply Double.add_number_ok; [by apply default_ok|done|by rewrite Hnan]|done|exact Hcan|]. intros fresh. wp_run.
      eexists. split; [eexists; split; [exact Hcan|reflexivity]|]. by apply same_say, same_tell, same_mark. }
  wp_run. apply wp_lookupOrCreate; [done|]. cases b0; cbv beta iota; try (finish Hs; wp_run; reflexivity); apply (wp_arg rq 3%nat b1); [done| |done|].
  - eapply Hadd; [exact HK| |by right|exact Hs]. intros l'. put_now HK.
  - eapply Hadd; [apply lookup_insert_eq| |by left|exact Hs]. intros l'. fresh_now.
Qed.

(** ** Storing a range *)

Lemma limited_map {A} (f : A -> A) o (l : list A) : limited o (map f l) = map f (limited o l).
Proof. unfold limited. rewrite skipn_map, !length_map. repeat case_if; rewrite ?firstn_map; done. Qed.

Lemma reversed_map {A} (f : A -> A) o (l : list A) : reversed o (map f l) = map f (reversed o l).
Proof. unfold reversed. case_if; [by rewrite map_rev|done]. Qed.

Lemma selected_near o b l' l : match b with ByScore r => SkipList.range_ok r | _ => True end -> Forall (fun e => Double.ok (snd e)) l' -> near l' l ->
  near (selected o b l') (selected o b l).
Proof.
  intros Hr Hok Hn. unfold near. destruct b as [start stop|r|r]; cbn [selected].
  - rewrite <- Hn. unfold ZSetValue.canons. rewrite reversed_map. symmetry. apply slice_near.
  - pose proof (in_score_near r l' l Hr Hok Hn) as Hsc. unfold near, in_score in Hsc. rewrite <- Hsc. unfold ZSetValue.canons. by rewrite reversed_map, limited_map.
  - pose proof (in_lex_near r l' l Hn) as Hlex. unfold near, in_lex in Hlex. rewrite <- Hlex. unfold ZSetValue.canons. by rewrite reversed_map, limited_map.
Qed.

Lemma reversed_elem {A} o (l : list A) x : x ∈ reversed o l -> x ∈ l.
Proof. unfold reversed. case_if; [|done]. intros H. apply list_elem_of_In, in_rev, list_elem_of_In in H. done. Qed.

Lemma limited_sublist {A} o (l : list A) : limited o l `sublist_of` l.
Proof.
  unfold limited. destruct (negb (has_limit o)); [done|]. destruct (_ || _); [apply sublist_nil_l|]. cbv zeta.
  destruct (_ && _); [etransitivity; [apply sublist_take|]|]; apply sublist_drop.
Qed.

Lemma slice_sublist {A} start stop (l : list A) : index_slice start stop l `sublist_of` l.
Proof. unfold index_slice. destruct (resolveIndexRange _ _ _) as [[? ?]|]; [|apply sublist_nil_l]. etransitivity; [apply sublist_take|apply sublist_drop]. Qed.

Lemma selected_elem o b l x : x ∈ selected o b l -> x ∈ l.
Proof.
  destruct b as [start stop|r|r]; cbn [selected]; intros H.
  - eapply elem_of_sublist in H; [|apply slice_sublist]. by apply reversed_elem in H.
  - eapply elem_of_sublist in H; [|apply limited_sublist]. apply reversed_elem in H. eapply elem_of_sublist; [exact H|]. apply stdlib_filter_sublist.
  - eapply elem_of_sublist in H; [|apply limited_sublist]. apply reversed_elem in H. destruct (ZSetValue.lexIsEmpty r); [by apply not_elem_of_nil in H|].
    eapply elem_of_sublist; [exact H|]. apply lex_run_sublist.
Qed.

Lemma place_in_length l x : (length (place_in l x) <= S (length l))%nat.
Proof. unfold place_in. rewrite ZSetValue.place_length. pose proof (ZSetValue.drop_length x.1 l). lia. Qed.

Lemma add_all_any (z : ZSetValue.t D) (P : entries) rng (i : nat) (items : entries) : ZSetValue.holds z P -> Forall (fun e => Double.ok (snd e)) items ->
  Z.of_nat (length P) + Z.of_nat (length items) < 2 ^ 64 -> exists z', ZSetValue.add_all z rng i items = Some z' /\ ZSetValue.holds z' (foldl place_in P items).
Proof.
  revert z P i. induction items as [|[m sc] items IH]; intros z P i Hz Hok Hroom; cbn [ZSetValue.add_all foldl]; [by exists z|].
  inversion_clear Hok as [|? ? Hsc Hok']. cbn [length snd] in *. destruct (ZSetValue.holds_add z P (rng i) (rng i 129%nat) m sc Hz Hsc) as (z1 & -> & Hz1); [lia|].
  cbn [mbind option_bind]. apply IH; [exact Hz1|done|]. pose proof (place_in_length P (m, sc)). unfold place_in in *. cbn [fst snd] in *. lia.
Qed.

Lemma built_near items' items : near items' items -> built items' = built items.
Proof.
  unfold built, near. intros <-. generalize (@nil (bytes * Z)). induction items' as [|[m s] items' IH]; intros P; cbn [foldl ZSetValue.canons map fst snd]; [done|].
  rewrite IH. f_equal. apply place_in_canon. by rewrite ZSetValue.canon_idem.
Qed.

Lemma zset_of_ok rnd items : Forall (fun e => Double.ok (snd e)) items -> Z.of_nat (length items) < 2 ^ 64 ->
  exists v, zset_of (ops:=ops) rnd items = Some v /\ models v (AZSet (built items)).
Proof.
  intros Hok Hl. destruct (add_all_any ZSetValue.new [] rnd 0 items ZSetValue.zset_holds_new Hok Hl) as (z & Hz & Hh). unfold zset_of. rewrite Hz. cbn [mbind option_bind].
  eexists. split; [done|]. split; [done|]. by exists z.
Qed.

Lemma zrangestore_ok : meets t (zrangestore (ops:=ops) rq) (spec_zrangestore rq).
Proof.
  intros g P Hs. unfold spec_zrangestore in Hs. destruct (parseRangeSpec _ _ _ _) as [r|] eqn:Hp; [|done]. cbn [mbind option_bind] in Hs. args_in Hs.
  unfold zrangestore. rewrite Hp. wp_run. apply (wp_lift _ _ _ _ _ eq_refl). destruct r as [[o b']|msg]; [|finish Hs; wp_run; reflexivity].
  apply parseRangeSpec_ok in Hp. unfold with_zset in Hs.
  assert (forall items' items g0 g1, same g1 g0 -> near items' items -> Forall (fun e => Double.ok (snd e)) items' ->
    (if (length items =? 0)%nat then
          Some (fun g1 => exists gone : bool, (is_some (K g0 !! b0) = true -> gone = true) /\
            g1 = say (Reply.integer 0) (if gone then tell rq Notify.kGeneric "del" b0 (mark 1 (remove b0 g0)) else remove b0 g0))
        else if Z.of_nat (length items) <? 2 ^ 64 then
          exactly (say (Reply.integer (Z.of_nat (length items))) (tell rq Notify.kZset "zrangestore" b0 (mark (Z.of_nat (length items)) (put b0 (AZSet (built items)) None g0))))
        else None) = Some P ->
    wp t (destination ← arg rq 1;
          if (length items' =? 0)%nat then
            gone ← erase destination;
            _ ← (if gone : bool then _ ← markDirty 1; notify rq Notify.kGeneric "del" destination else mret tt);
            integer 0
          else
            rnd ← random rq; fresh ← lift (zset_of rnd items'); _ ← setKey destination fresh;
            _ ← markDirty (Z.of_nat (length items')); _ ← notify rq Notify.kZset "zrangestore" destination;
            integer (Z.of_nat (length items'))) g1 (fun _ g1 => exists g', P g' /\ same g1 g')) as Hend.
  { intros items' items g0 g1 Hg Hn Hok HP. rewrite (near_length _ _ Hn). apply (wp_arg rq 1%nat b0); [done|]. destruct (length items =? 0)%nat.
    - apply (inj Some) in HP. subst P. pose proof (same_fields _ _ Hg) as [HKg _]. wp_run. apply wp_erase. intros gone Hgone _. rewrite HKg in Hgone. destruct gone; wp_run.
      + eexists. split; [exists true; split; [done|reflexivity]|]. by apply same_say, same_tell, same_mark, same_remove.
      + eexists. split; [exists false; split; [done|reflexivity]|]. by apply same_say, same_remove.
    - destruct (Z.ltb_spec (Z.of_nat (length items)) (2 ^ 64)) as [Hl|]; [|done]. finish HP. wp_run. rewrite <- (near_length _ _ Hn) in Hl.
      destruct (zset_of_ok r items' Hok Hl) as (v & Hv & Hm). apply (wp_lift _ _ _ _ _ Hv). wp_run. eapply wp_setKey; [exact Hm|]. wp_run. rewrite (built_near _ _ Hn).
      by apply same_say, same_tell, same_mark, same_put. }
  wp_run. apply wp_lookupTypedRead. cases b; cbv beta iota; try (finish Hs; wp_run; reflexivity); cbn [SetCommands.is_found]; apply wp_bind.
  - apply wp_bind. eapply wp_zset_read; [exact HK|]. intros zv l' Hx Hn. eapply wp_lift; [by apply collect_ok|]. pose proof Hx as [(_ & _ & Hok) _].
    eapply Hend; [|by apply (selected_near o b' l' z)| |exact Hs]; [done|]. apply Forall_forall. intros x Hxx. apply selected_elem in Hxx. rewrite Forall_forall in Hok. by apply Hok.
  - apply wp_ret. eapply Hend; [|done|done|exact Hs]. done.
Qed.

(** ** ZADD *)

(** The code's two tests against the specification's one, with scores that
    differ at most in the sign of a zero. *)
Lemma allowed_split f existing m l score score' : ZSetValue.canon <$> existing = ZSetValue.score_of m l ->
  match existing with Some d => Double.ok d | None => True end -> Double.ok score -> Double.ok score' -> ZSetValue.canon score = ZSetValue.canon score' ->
  zadd_allowed f (ZSetValue.score_of m l) score' =
    negb ((nx f && is_some existing) || (xx f && negb (is_some existing))) &&
    negb match existing with Some e => (gt f && Double.le score e) || (lt f && Double.ge score e) | None => false end.
Proof.
  intros <- Hok Hs Hs' Hc. assert (Double.key score = Double.key score') as Hk by (rewrite <- (ZSetValue.canon_key score), <- (ZSetValue.canon_key score'); by f_equal).
  unfold zadd_allowed. destruct existing as [e|]; cbn [fmap option_fmap option_map is_some negb]; [|by rewrite !andb_false_r, andb_true_r, andb_true_r; destruct (xx f)].
  pose proof (ZSetValue.canon_ok e Hok). unfold Double.ge. rewrite !Double.le_key, !ZSetValue.canon_key, Hk by done.
  destruct (nx f), (xx f), (gt f), (lt f), (Double.key score' <=? Double.key e), (Double.key e <=? Double.key score'); done.
Qed.

Lemma fresh_score m l (existing : option Z) : ZSetValue.canon <$> existing = ZSetValue.score_of m l -> bool_decide (m ∉ l.*1) = negb (is_some existing).
Proof.
  intros He. destruct existing as [d|]; cbn in *.
  - apply bool_decide_false. intros Hn. apply ZSetValue.score_of_None in Hn. congruence.
  - apply bool_decide_true. apply ZSetValue.score_of_None. done.
Qed.

Lemma ne_canon e s : Double.ok e -> Double.ok s -> Double.ne (ZSetValue.canon e) s = Double.ne e s.
Proof. intros He Hs. pose proof (ZSetValue.canon_ok e He). unfold Double.ne. by rewrite !Double.eq_key, ZSetValue.canon_key. Qed.

Lemma roomy_S n l l' : roomy (S n) l = true -> (length l' <= S (length l))%nat -> roomy n l' = true.
Proof. unfold roomy. rewrite !Z.ltb_lt. lia. Qed.

Lemma roomy_le n n' l : roomy n l = true -> (n' <= n)%nat -> roomy n' l = true.
Proof. unfold roomy. rewrite !Z.ltb_lt. lia. Qed.

Lemma zadd_loop_ok k f rnd (i : nat) updates added changed l e g (Q : option (Z * Z) -> view -> Prop) : incr f = false -> K g !! k = Some (AZSet l, e) ->
  Forall (fun u => Double.ok (fst u)) updates -> roomy (length updates) l = true ->
  (let '(l', a, c) := zadd_all f updates l added changed in Q (Some (a, c)) (update k (AZSet l') g)) ->
  wp t (zadd_loop (ops:=ops) rq k f rnd i updates added changed) g Q.
Proof.
  intros Hi. revert i added changed l g. induction updates as [|[s m] updates IH]; intros i added changed l g HK Hok Hr HQ; cbn [zadd_loop zadd_all] in *.
  { apply wp_ret. by rewrite (update_id k _ _ _ HK) in HQ. }
  inversion_clear Hok as [|? ? Hs Hok']. cbn [fst length] in *. wp_run. eapply wp_zset_score; [exact HK|]. intros existing He Heok. rewrite Hi. cbn [andb].
  rewrite (allowed_split f existing m l s s) in HQ by done. destruct (_ || _); cbn [negb andb] in *.
  { apply (IH (S i) added changed l g); [done..|by eapply roomy_le; [exact Hr|lia]|done]. }
  destruct (match existing with Some _ => _ | None => false end); cbn [negb] in HQ.
  { apply (IH (S i) added changed l g); [done..|by eapply roomy_le; [exact Hr|lia]|done]. }
  assert (roomy (length updates) (place_in l (m, s)) = true) as Hr' by (eapply roomy_S; [exact Hr|apply place_in_length]).
  wp_run. eapply wp_zset_add; [exact HK|done|by eapply roomy_le; [exact Hr|lia]|]. rewrite (fresh_score m l existing He). rewrite <- He in HQ.
  destruct existing as [d|]; cbn [fmap option_fmap option_map is_some negb] in *; (eapply IH; [by eapply update_lookup|done|done|]).
  - rewrite ne_canon in HQ by done. destruct (zadd_all f updates (place_in l (m, s)) added _) as [[l' a] c]. by rewrite update_update.
  - destruct (zadd_all f updates (place_in l (m, s)) (added + 1) changed) as [[l' a] c]. by rewrite update_update.
Qed.

Lemma parse_updates_ok tokens us : parse_updates tokens = Some us -> Forall (fun u => Double.ok (fst u)) us.
Proof.
  revert us. induction tokens as [|x|x y tokens IH] using two_ind; intros us H; cbn [parse_updates] in H; [injection H as <-; constructor..|].
  destruct (parseScore x) as [d|] eqn:Hd; [|done]. cbn [mbind option_bind] in H. destruct (parse_updates tokens) as [us'|]; [|done]. injection H as <-.
  constructor; [by eapply parseScore_ok|by apply IH].
Qed.

Lemma zadd_arguments_ok tokens f us : zadd_arguments tokens = Parsed (f, us) -> Forall (fun u => Double.ok (fst u)) us /\ (incr f = true -> exists u, us = [u]).
Proof.
  unfold zadd_arguments. destruct (zadd_options tokens _) as [f' rest]. destruct (_ || (gt f' && lt f')); [done|]. destruct (_ || _); [done|].
  destruct (incr f' && negb (length rest =? 2)%nat) eqn:Hi; [done|]. destruct (parse_updates rest) as [us'|] eqn:Hp; [|done]. intros [= -> ->].
  split; [by eapply parse_updates_ok|]. intros Hf. rewrite Hf in Hi. apply negb_false_iff, Nat.eqb_eq in Hi. destruct rest as [|x [|y [|]]]; [done| |..]; [done| |done].
  cbn in Hp. destruct (parseScore x); [|done]. cbn in Hp. injection Hp as <-. by eexists.
Qed.

(** Two views that differ at most in what a key holds. *)
Definition agree (k : bytes) (g1 g : view) : Prop := same (remove k g1) (remove k g).

Lemma agree_put k a e g1 g : agree k g1 g -> same (put k a e g1) (put k a e g).
Proof.
  intros H. apply same_fields in H as (HK & H). cbn in HK, H. destruct H as (? & ? & ? & ? & ? & ?). apply view_same; try done. cbn.
  by rewrite <- (insert_delete_eq (K g1)), HK, insert_delete_eq.
Qed.

Lemma agree_leave k a e g1 g : agree k g1 g -> same (leave rq k a e g1) (leave rq k a e g).
Proof. intros H. unfold leave. case_if; [by apply same_tell|by apply agree_put]. Qed.

Lemma agree_tell k i c ev k' g1 g : agree k g1 g -> agree k (tell_at i c ev k' g1) (tell_at i c ev k' g).
Proof. intros H. apply same_fields in H as (? & ? & ? & ? & ? & ? & ?). cbn in *. apply view_same; cbn; congruence. Qed.

Lemma agree_mark k n g1 g : agree k g1 g -> agree k (mark n g1) (mark n g).
Proof. intros H. apply same_fields in H as (? & ? & ? & ? & ? & ? & ?). cbn in *. apply view_same; cbn; congruence. Qed.

Lemma agree_update k a g1 g : agree k g1 g -> agree k (update k a g1) g.
Proof. intros H. unfold agree. etransitivity; [apply remove_update|exact H]. Qed.

(** What follows the loop. *)
Lemma zadd_counted k f n l' added changed e g0 g (Q : unit -> view -> Prop) : K g !! k = Some (AZSet l', e) -> agree k g g0 ->
  (forall g1, same g1 (say (Reply.integer (if ch f then added + changed else added)) (leave rq k (AZSet l') e
     (let g := mark n g0 in if 0 <? added + changed then tell rq Notify.kZset "zadd" k g else g))) -> Q tt g1) ->
  wp t (_ ← markDirty n;
        _ ← (if 0 <? added + changed then notify rq Notify.kZset "zadd" k else mret tt);
        _ ← deleteIfEmpty rq k;
        integer (if ch f then added + changed else added)) g Q.
Proof.
  intros HK Hag HQ. cbv zeta in HQ.
  destruct (0 <? added + changed); wp_run; (eapply (wp_leave rq k (AZSet l')); [exact HK|done|]); intros g' Hg'; wp_run; apply HQ, same_say; rewrite Hg'; apply agree_leave.
  - by apply agree_tell, agree_mark.
  - by apply agree_mark.
Qed.

Lemma zadd_found k f updates l e g0 g P : Forall (fun u => Double.ok (fst u)) updates -> (incr f = true -> exists u, updates = [u]) ->
  K g !! k = Some (AZSet l, e) -> agree k g g0 -> (l = [] /\ xx f = false \/ same g g0) ->
  (if negb (roomy (length updates) l) then None
        else
          let counted l' added changed :=
            let g := mark (Z.of_nat (length updates)) g0 in
            let g := if 0 <? added + changed then tell rq Notify.kZset "zadd" k g else g in
            exactly (say (Reply.integer (if ch f then added + changed else added)) (leave rq k (AZSet l') e g)) in
          match incr f, updates with
          | true, [(s, m)] =>
              let existing := ZSetValue.score_of m l in
              let result := Double.add (default 0 existing) s in
              if (nx f && is_some existing) || (xx f && negb (is_some existing)) then counted l 0 0
              else if Double.isnan result then exactly (refuse nan_error g0)
              else if zadd_allowed f existing result then
                Some (fun g1 => exists d, ZSetValue.canon d = ZSetValue.canon result /\
                  g1 = say (double_reply rq d) (tell rq Notify.kZset "zincr" k (mark 1 (put k (AZSet (place_in l (m, result))) e g0))))
              else exactly (say (null rq) g0)
          | _, _ => let '(l', added, changed) := zadd_all f updates l 0 0 in counted l' added changed
          end) = Some P ->
  wp t (rnd ← random rq;
        counts ← zadd_loop (ops:=ops) rq k f rnd 0 updates 0 0;
        match counts with
        | None => mret tt
        | Some (added, changed) =>
            _ ← markDirty (Z.of_nat (length updates));
            _ ← (if 0 <? added + changed then notify rq Notify.kZset "zadd" k else mret tt);
            _ ← deleteIfEmpty rq k;
            integer (if ch f then added + changed else added)
        end) g (fun _ g1 => exists g', P g' /\ same g1 g').
Proof.
  intros Hok Hsingle HK Hag Hor Hs. destruct (roomy (length updates) l) eqn:Hr; [|done]. cbn [negb] in Hs. cbv zeta in Hs. wp_run. destruct (incr f) eqn:Hi.
  2:{ eapply zadd_loop_ok; [done|exact HK|done|done|]. destruct (zadd_all f updates l 0 0) as [[l' added] changed]. finish Hs.
      eapply zadd_counted; [by eapply update_lookup|by apply agree_update|]. done. }
  destruct (Hsingle eq_refl) as [[s m] ->]. inversion_clear Hok as [|? ? Hsc _]. cbn [fst] in Hsc. cbn [zadd_loop]. wp_run.
  eapply wp_zset_score; [exact HK|]. intros existing He Heok. rewrite Hi. cbn [andb].
  assert (is_some (ZSetValue.score_of m l) = is_some existing) as Hsome by (rewrite <- He; by destruct existing). rewrite Hsome in Hs.
  destruct ((nx f && is_some existing) || (xx f && negb (is_some existing))) eqn:Hskip.
  { apply wp_ret. finish Hs. eapply zadd_counted; [exact HK|exact Hag|]. done. }
  destruct (add_current existing m l s He Heok) as [Hnan Hcan]. rewrite Hnan.
  assert (same g g0 \/ existing = None) as Hor'.
  { destruct Hor as [[-> _]|?]; [right|by left]. by destruct existing. }
  destruct (Double.isnan (Double.add (default 0 (ZSetValue.score_of m l)) s)) eqn:Hn.
  { apply (inj Some) in Hs. subst P. wp_run. eexists. split; [reflexivity|]. destruct Hor' as [Hg| ->]; [by apply same_say|]. cbn in He. rewrite <- He in Hn. cbn in Hn. by rewrite add_zero_number in Hn. }
  assert (Double.ok (Double.add (default 0 existing) s)) as Hres by (apply Double.add_number_ok; [by apply default_ok|done|by rewrite Hnan]).
  rewrite (allowed_split f existing m l (Double.add (default 0 existing) s)) in Hs; [|done|done|done| |done].
  2:{ apply Double.add_number_ok; [|done|done]. rewrite <- He. destruct existing as [d|]; [|done]. by apply ZSetValue.canon_ok. }
  rewrite Hskip in Hs. cbn [negb andb] in Hs. destruct (match existing with Some _ => _ | None => false end) eqn:Hblock; cbn [negb] in Hs.
  { apply (inj Some) in Hs. subst P. wp_run. eexists. split; [reflexivity|]. destruct Hor' as [Hg| ->]; [by apply same_say|done]. }
  apply (inj Some) in Hs. subst P. wp_run. eapply zincr_store; [exact HK|done|exact Hr|exact Hcan|]. intros fresh. wp_run.
  eexists. split; [eexists; split; [exact Hcan|reflexivity]|]. apply same_say, same_tell, same_mark. etransitivity; [by eapply update_put|]. by apply agree_put.
Qed.

Lemma zadd_ok : meets t (zadd (ops:=ops) rq) (spec_zadd rq).
Proof.
  intros g P Hs. unfold spec_zadd in Hs. unfold zadd. destruct (zadd_arguments _) as [[f updates]|msg] eqn:Ha; [|finish Hs; wp_run; reflexivity].
  apply zadd_arguments_ok in Ha as [Hok Hsingle]. args_in Hs. unfold with_zset in Hs. wp_run. destruct (xx f) eqn:Hxx.
  - apply wp_lookupTyped. cases b; cbv beta iota; try (finish Hs; wp_run; reflexivity); [|finish Hs; destruct (incr f); wp_run; reflexivity].
    eapply (zadd_found b f updates z e g); [done|done|exact HK|done|by right|]. rewrite Hxx. exact Hs.
  - apply wp_lookupOrCreate; [done|]. cases b; cbv beta iota; try (finish Hs; wp_run; reflexivity).
    + eapply (zadd_found b f updates z e g); [done|done|exact HK|done|by right|]. rewrite Hxx. exact Hs.
    + eapply (zadd_found b f updates [] None g); [done|done|apply lookup_insert_eq| |by left|rewrite Hxx; exact Hs].
      apply view_same; try done. cbn. by rewrite delete_insert_eq.
Qed.

Definition commands : list (string * M D unit * spec) :=
  [ ("zadd", zadd rq, spec_zadd rq); ("zrem", zrem rq, spec_zrem rq); ("zscore", zscore rq, spec_zscore rq); ("zmscore", zmscore rq, spec_zmscore rq);
    ("zcard", zcard rq, spec_zcard rq); ("zincrby", zincrby rq, spec_zincrby rq); ("zrank", zrank rq, spec_rank rq false); ("zrevrank", zrevrank rq, spec_rank rq true);
    ("zrange", zrange rq, spec_range rq Rank false true true); ("zrevrange", zrevrange rq, spec_range rq Rank true false true);
    ("zrangebyscore", zrangebyscore rq, spec_range rq Score false false true); ("zrevrangebyscore", zrevrangebyscore rq, spec_range rq Score true false true);
    ("zrangebylex", zrangebylex rq, spec_range rq Lex false false true); ("zrevrangebylex", zrevrangebylex rq, spec_range rq Lex true false true);
    ("zcount", zcount rq, spec_zcount rq); ("zlexcount", zlexcount rq, spec_zlexcount rq); ("zremrangebyrank", zremrangebyrank rq, spec_zremrangebyrank rq);
    ("zremrangebyscore", zremrangebyscore rq, spec_zremrangebyscore rq); ("zremrangebylex", zremrangebylex rq, spec_zremrangebylex rq);
    ("zpopmin", zpopmin rq, spec_zpop rq true); ("zpopmax", zpopmax rq, spec_zpop rq false); ("zrandmember", zrandmember rq, spec_zrandmember rq);
    ("zrangestore", zrangestore rq, spec_zrangestore rq); ("zmpop", zmpop rq, spec_zmpop rq) ]%string.

#[local] Hint Resolve zadd_ok zrem_ok zscore_ok zmscore_ok zcard_ok zincrby_ok rank_ok range_ok zcount_ok zlexcount_ok zremrangebyrank_ok zremrangebyscore_ok
  zremrangebylex_ok zpop_ok zrandmember_ok zrangestore_ok zmpop_ok : mnemos.

Lemma zset_commands_ok : Forall (fun '(n, h, sp) => meets t h sp) commands.
Proof. unfold commands. repeat (apply Forall_cons; split; [eauto with mnemos|]). by apply Forall_nil. Qed.
End Refinement.
End ZSetCommands.
