(* ===== verification/ZSetAlgebra.v ===== *)
(** * ZSetAlgebra: union, intersection and difference of sorted sets

    The set operations of [src/server/commands/zset_commands.cpp]: ZUNION,
    ZINTER, ZDIFF, their storing forms and ZINTERCARD, over sorted and plain
    sets, with weights and aggregates; and their refinement of operations on
    finite maps from members to scores. *)

From Stdlib Require Import ZArith Lia.
Set Warnings "-register-all".
From stdpp Require Import base list numbers gmap option strings sorting.
From S2P Require Import Prelude Encoding Order Double Strtod Dtoa SkipList Strings Listpack MapSpec Dict HashValue ZSetValue SetValue ListValue Db Object Reply Notify CommandTable Command Keyspace StringCommands HashCommands SetCommands ZSetCommands.
Import Command Keyspace.Keyspace.

Module ZSetAlgebra.

Abbreviation entries := (list (bytes * Z)).
Abbreviation parsed := StringCommands.parsed.
Abbreviation Parsed := StringCommands.Parsed.
Abbreviation Refused := StringCommands.Refused.
Abbreviation is_token t name := (equalsIgnoreCase t (str name)).

Inductive ZSetOp := Union | Intersect | Difference.
Inductive Aggregate := Sum | Min | Max.

(** The members of one input, with its weight. *)
Record ZSetSource := mkSource { members : entries; weight : Z }.

Definition one : Z := 0x3FF0000000000000.

Example one_is_one : one = Double.of_int64 1.
Proof. vm_compute. reflexivity. Qed.

(** ** Scores *)

Definition weighted (score weight : Z) : Z :=
  let product := Double.mul score weight in
  if Double.isnan product then 0 else product.

Definition aggregateScores (how : Aggregate) (accumulated incoming : Z) : Z :=
  match how with
  | Sum => let sum := Double.add accumulated incoming in if Double.isnan sum then 0 else sum
  | Min => if Double.lt incoming accumulated then incoming else accumulated
  | Max => if Double.lt accumulated incoming then incoming else accumulated
  end.

(** ** The operations *)

Section Sorting.
Context {A : Type} (less : A -> A -> bool).

(** [std::stable_sort]: [x] comes before everything that is not less than it. *)
Fixpoint insert_sorted (x : A) (l : list A) : list A :=
  match l with
  | [] => [x]
  | y :: l' => if less y x then y :: insert_sorted x l' else x :: l
  end.

Definition stable_sort (l : list A) : list A := foldr insert_sorted [] l.
End Sorting.

Definition smaller (a b : ZSetSource) : bool := (length (members a) <? length (members b))%nat.

(** The order of the reply; [std::sort] is free to permute equal entries, of
    which a result has none. *)
Definition entry_less (a b : bytes * Z) : bool :=
  if Double.ne (snd a) (snd b) then Double.lt (snd a) (snd b) else bytes_lt (fst a) (fst b).

(** One input joins the totals. *)
Fixpoint union_loop (how : Aggregate) (weight : Z) (items : entries) (totals : gmap bytes Z) : gmap bytes Z :=
  match items with
  | [] => totals
  | (member, score) :: items =>
      let value := weighted score weight in
      union_loop how weight items
        (match totals !! member with
         | None => <[member := value]> totals
         | Some total => <[member := aggregateScores how total value]> totals
         end)
  end.

Definition union_totals (how : Aggregate) (sources : list ZSetSource) : gmap bytes Z :=
  foldl (fun totals source => union_loop how (weight source) (members source) totals) ∅ sources.

(** The total of a member over the other inputs, if it is in all of them. *)
Fixpoint total_in_all (how : Aggregate) (member : bytes) (others : list (gmap bytes Z * Z)) (total : Z) : option Z :=
  match others with
  | [] => Some total
  | (other, weight) :: others =>
      match other !! member with
      | None => None
      | Some found => total_in_all how member others (aggregateScores how total (weighted found weight))
      end
  end.

(** The flag tells the early return, which leaves the result unsorted. *)
Fixpoint intersect_loop (how : Aggregate) (weight : Z) (items : entries) (others : list (gmap bytes Z * Z)) (limit : Z) (result : entries)
    : entries * bool :=
  match items with
  | [] => (result, false)
  | (member, score) :: items =>
      match total_in_all how member others (weighted score weight) with
      | None => intersect_loop how weight items others limit result
      | Some total =>
          let result := result ++ [(member, total)] in
          if (0 <? limit) && (limit <=? Z.of_nat (length result)) then (result, true)
          else intersect_loop how weight items others limit result
      end
  end.

Definition index_of (source : ZSetSource) : gmap bytes Z * Z := (list_to_map (members source), weight source).

Definition applyZSetOp (op : ZSetOp) (sources : list ZSetSource) (how : Aggregate) (limit : Z) : entries :=
  let '(result, early) :=
    match op with
    | Union => (map_to_list (union_totals how sources), false)
    | Intersect =>
        match stable_sort smaller sources with
        | [] => ([], true)
        | first :: rest => intersect_loop how (weight first) (members first) (map index_of rest) limit []
        end
    | Difference =>
        match sources with
        | [] => ([], true)
        | first :: rest =>
            let others := map (fun source => list_to_set (members source).*1 : gset bytes) rest in
            (List.filter (fun entry => negb (existsb (fun other => bool_decide (fst entry ∈ other)) others)) (members first), false)
        end
    end in
  if early then result else stable_sort entry_less result.

Definition zsetOpName (op : ZSetOp) (store : bool) : string :=
  match op with
  | Union => if store then "zunionstore" else "zunion"
  | Intersect => if store then "zinterstore" else "zinter"
  | Difference => if store then "zdiffstore" else "zdiff"
  end.

Example sums : applyZSetOp Union [mkSource [(str "a", one); (str "b", one)] one; mkSource [(str "a", Double.infinity)] Double.neg_infinity] Sum 0
  = [(str "a", Double.neg_infinity); (str "b", one)].
Proof. vm_compute. reflexivity. Qed.

(** ** Handlers *)

Definition is_difference (op : ZSetOp) : bool := match op with Difference => true | _ => false end.

Record op_spec := mkOpSpec { aggregate : Aggregate; weights : list Z; with_scores : bool }.

Fixpoint parse_weights (texts : list bytes) : option (list Z) :=
  match texts with
  | [] => Some []
  | text :: texts => w ← ZSetCommands.parseScore text; ws ← parse_weights texts; Some (w :: ws)
  end.

(** The option loop: [skip] of the tokens belong to the option before. *)
Fixpoint op_options (op : ZSetOp) (store : bool) (numkeys skip : nat) (tokens : list bytes) (o : op_spec) : parsed op_spec :=
  match tokens, skip with
  | [], _ => Parsed o
  | _ :: rest, S skip => op_options op store numkeys skip rest o
  | token :: rest, O =>
      if negb (is_difference op) && is_token token "WEIGHTS" && (numkeys <=? length rest)%nat then
        match parse_weights (take numkeys rest) with
        | None => Refused (str "ERR weight value is not a float")
        | Some ws => op_options op store numkeys numkeys rest (mkOpSpec (aggregate o) ws (with_scores o))
        end
      else if negb (is_difference op) && is_token token "AGGREGATE" && (1 <=? length rest)%nat then
        let mode := from_option id [] (head rest) in
        let chosen how := op_options op store numkeys 1 rest (mkOpSpec how (weights o) (with_scores o)) in
        if is_token mode "SUM" then chosen Sum
        else if is_token mode "MIN" then chosen Min
        else if is_token mode "MAX" then chosen Max
        else Refused StringCommands.syntax_error
      else if negb store && is_token token "WITHSCORES" then op_options op store numkeys 0 rest (mkOpSpec (aggregate o) (weights o) true)
      else Refused StringCommands.syntax_error
  end.

Fixpoint set_weights (sources : list ZSetSource) (ws : list Z) : list ZSetSource :=
  match sources, ws with
  | source :: sources, w :: ws => mkSource (members source) w :: set_weights sources ws
  | _, _ => sources
  end.

Section Handlers.
Context {D : Type -> Type} {ops : MapOps D} (rq : request).
Abbreviation handler := (M D unit).

(** The named keys in turn; [None] after a WRONGTYPE reply. *)
Fixpoint gatherZSetSources (keys : list bytes) (out : list ZSetSource) : M D (option (list ZSetSource)) :=
  match keys with
  | [] => mret (Some out)
  | key :: keys =>
      value ← lookupRead rq key;
      match value with
      | None =>
          _ ← notifyKeyMiss rq key;
          gatherZSetSources keys (out ++ [mkSource [] one])
      | Some value =>
          if bool_decide (Object.type_ value = OZSet) then
            all ← ZSetCommands.the_entries key;
            gatherZSetSources keys (out ++ [mkSource all one])
          else if bool_decide (Object.type_ value = OSet) then
            s ← the_set key;
            gatherZSetSources keys (out ++ [mkSource (map (fun member => (member, one)) (SetValue.members s)) one])
          else _ ← wrongType; mret None
      end
  end.

Definition parseNumkeys (index : nat) (command text : bytes) : parsed Z :=
  match stringToInt64 text with
  | None => Refused StringCommands.not_an_integer
  | Some numkeys =>
      if numkeys <? 1 then Refused (str "ERR at least 1 input key is needed for '" ++ command ++ str "' command")
      else if Z.of_nat (argc rq) - Z.of_nat (index + 1) <? numkeys then Refused StringCommands.syntax_error
      else Parsed numkeys
  end.

Fixpoint add_entries (key : bytes) (rnd : nat -> nat -> nat -> Z) (k : nat) (items : entries) : handler :=
  match items with
  | [] => mret tt
  | (member, score) :: items =>
      _ ← on_zset key (fun z => ZSetValue.add z (rnd k) (rnd k 129%nat) member score);
      add_entries key rnd (S k) items
  end.

Definition zsetOpCommand (op : ZSetOp) (store : bool) : handler :=
  let numkeys_index := if store then 2%nat else 1%nat in
  text ← arg rq numkeys_index;
  match parseNumkeys numkeys_index (str (zsetOpName op store)) text with
  | Refused msg => error msg
  | Parsed numkeys =>
      let first_key := S numkeys_index in
      let count := Z.to_nat numkeys in
      sources ← gatherZSetSources (take count (drop first_key (argv rq))) [];
      match sources with
      | None => mret tt
      | Some sources =>
          match op_options op store count 0 (drop (first_key + count) (argv rq)) (mkOpSpec Sum (replicate count one) false) with
          | Refused msg => error msg
          | Parsed o =>
              let result := applyZSetOp op (set_weights sources (weights o)) (aggregate o) 0 in
              if negb store then ZSetCommands.emitMembers rq result (with_scores o)
              else
                destination ← arg rq 1;
                _ ← (if negb (length result =? 0)%nat then
                       _ ← setKey destination Object.makeZSet;
                       _ ← lookupWrite rq destination;
                       rnd ← random rq;
                       _ ← add_entries destination rnd 0 result;
                       notify rq Notify.kZset (zsetOpName op true) destination
                     else
                       gone ← erase destination;
                       if gone : bool then notify rq Notify.kGeneric "del" destination else mret tt);
                _ ← markDirty 1;
                integer (Z.of_nat (length result))
          end
      end
  end.

Definition zunion : handler := zsetOpCommand Union false.
Definition zinter : handler := zsetOpCommand Intersect false.
Definition zdiff : handler := zsetOpCommand Difference false.
Definition zunionstore : handler := zsetOpCommand Union true.
Definition zinterstore : handler := zsetOpCommand Intersect true.
Definition zdiffstore : handler := zsetOpCommand Difference true.

Definition intercard_limit (rest : list bytes) : parsed Z :=
  match rest with
  | [] => Parsed 0
  | token :: rest =>
      if negb (is_token token "LIMIT") then Refused StringCommands.syntax_error
      else match rest with
           | [text] =>
               match stringToInt64 text with
               | Some limit => if limit <? 0 then Refused (str "ERR LIMIT can't be negative") else Parsed limit
               | None => Refused (str "ERR LIMIT can't be negative")
               end
           | _ => Refused StringCommands.syntax_error
           end
  end.

Definition zintercard : handler :=
  text ← arg rq 1;
  match parseNumkeys 1 (str "zintercard") text with
  | Refused msg => error msg
  | Parsed numkeys =>
      let count := Z.to_nat numkeys in
      match intercard_limit (drop (2 + count) (argv rq)) with
      | Refused msg => error msg
      | Parsed limit =>
          sources ← gatherZSetSources (take count (drop 2 (argv rq))) [];
          match sources with
          | None => mret tt
          | Some sources => integer (Z.of_nat (length (applyZSetOp Intersect sources Sum limit)))
          end
      end
  end.

End Handlers.

(** ** The operations on finite maps *)

Abbreviation scored := (gmap bytes Z * Z)%type.

(** The weighted scores of a member, input after input. *)
Definition scores (inputs : list scored) (m : bytes) : list Z :=
  omap (fun '(A, w) => (fun s => weighted s w) <$> (A : gmap bytes Z) !! m) inputs.

Definition total (how : Aggregate) (vs : list Z) : option Z :=
  match vs with [] => None | v :: vs => Some (foldl (aggregateScores how) v vs) end.

Definition smaller_map (a b : scored) : bool := (size a.1 <? size b.1)%nat.
Definition in_all (inputs : list scored) (m : bytes) : bool := forallb (fun '(A, _) => is_some ((A : gmap bytes Z) !! m)) inputs.

Definition unite (how : Aggregate) (inputs : list scored) : gmap bytes Z :=
  map_imap (fun m _ => total how (scores inputs m)) (⋃ inputs.*1).
Definition intersect (how : Aggregate) (inputs : list scored) : gmap bytes Z :=
  map_imap (fun m _ => if in_all inputs m then total how (scores inputs m) else None) (⋃ inputs.*1).
Definition subtract (inputs : list scored) : gmap bytes Z :=
  match inputs with
  | [] => ∅
  | first :: rest => filter (fun kv => existsb (fun B : scored => is_some (B.1 !! fst kv)) rest = false) first.1
  end.

(** What a client should find: scores aggregate in the order of the inputs,
    those of an intersection by increasing size. *)
Definition combined (op : ZSetOp) (how : Aggregate) (inputs : list scored) : gmap bytes Z :=
  match op with
  | Union => unite how inputs
  | Intersect => intersect how (stable_sort smaller_map inputs)
  | Difference => subtract inputs
  end.

(** A finite map of scores, in the order of a sorted set. *)
Definition ranking (R : gmap bytes Z) : entries := ZSetCommands.built (map_to_list R).

(** *** Scores that differ at most in the sign of a zero *)

Definition alike (a b : Z) : Prop := Double.ok a /\ Double.ok b /\ ZSetValue.canon a = ZSetValue.canon b.

Lemma alike_canon a : Double.ok a -> alike a (ZSetValue.canon a).
Proof. intros Ha. split_and!; [done|by apply ZSetValue.canon_ok|]. by rewrite ZSetValue.canon_idem. Qed.

Lemma alike_key a b : alike a b -> Double.key a = Double.key b.
Proof. intros (_ & _ & H). by rewrite <- (ZSetValue.canon_key a), <- (ZSetValue.canon_key b), H. Qed.

Lemma mul_zero_sign w : Double.ok w -> Double.isnan (Double.mul (2 ^ 63) w) = Double.isnan (Double.mul 0 w) /\
  ZSetValue.canon (Double.mul (2 ^ 63) w) = ZSetValue.canon (Double.mul 0 w).
Proof.
  intros [Hw Hn]. unfold Double.mul. rewrite Hn. change (Double.isnan (2 ^ 63)) with false. change (Double.isnan 0) with false. cbn [orb].
  change (Double.isinf (2 ^ 63)) with false. change (Double.isinf 0) with false. cbn [orb]. destruct (Double.isinf w); [done|].
  change (Double.abs_units (2 ^ 63)) with 0. change (Double.abs_units 0) with 0. rewrite Z.mul_0_l.
  change (Double.sign (2 ^ 63)) with true. change (Double.sign 0) with false. change (Double.nearest 0 Double.unit) with 0. by destruct (Double.sign w).
Qed.

Lemma weighted_ok s w : Double.ok s -> Double.ok w -> Double.ok (weighted s w).
Proof. intros Hs Hw. unfold weighted. cbv zeta. destruct (Double.isnan (Double.mul s w)) eqn:Hn; [done|]. by apply Double.mul_number_ok. Qed.

Lemma weighted_canon s w : Double.ok s -> Double.ok w -> ZSetValue.canon (weighted (ZSetValue.canon s) w) = ZSetValue.canon (weighted s w).
Proof.
  intros Hs Hw. unfold ZSetValue.canon at 2. destruct (Z.eqb_spec s (2 ^ 63)) as [->|]; [|done]. unfold weighted. cbv zeta.
  destruct (mul_zero_sign w Hw) as [-> H]. by destruct (Double.isnan (Double.mul 0 w)).
Qed.

Lemma weighted_alike a b w : alike a b -> Double.ok w -> alike (weighted a w) (weighted b w).
Proof.
  intros (Ha & Hb & H) Hw. split_and!; [by apply weighted_ok..|]. by rewrite <- (weighted_canon a), <- (weighted_canon b), H.
Qed.

Lemma aggregate_ok how a b : Double.ok a -> Double.ok b -> Double.ok (aggregateScores how a b).
Proof.
  intros Ha Hb. destruct how; cbn [aggregateScores]; [|by destruct (Double.lt _ _)..]. cbv zeta. destruct (Double.isnan (Double.add a b)) eqn:Hn; [done|]. by apply Double.add_number_ok.
Qed.

Lemma add_comm a b : Double.ok a -> Double.ok b -> Double.add a b = Double.add b a.
Proof.
  intros [Ha Hna] [Hb Hnb]. unfold Double.add. rewrite Hna, Hnb, (Z.add_comm (Double.units a)), (andb_comm (Double.sign a)). cbn [orb].
  destruct (Double.isinf a) eqn:Ia, (Double.isinf b) eqn:Ib; [|done..]. cbn [andb]. destruct (Double.sign a) eqn:Sa, (Double.sign b) eqn:Sb; [|done|done|]; cbn [Bool.eqb negb];
    apply Z.eqb_eq in Ia, Ib; rewrite <- (Double.signed_parts a), <- (Double.signed_parts b) by done; by rewrite Ia, Ib, Sa, Sb.
Qed.

Lemma aggregate_alike how a b a' b' : alike a a' -> alike b b' -> alike (aggregateScores how a b) (aggregateScores how a' b').
Proof.
  intros HA HB. pose proof (alike_key _ _ HA) as Ka. pose proof (alike_key _ _ HB) as Kb. pose proof HA as (Ha & Ha' & Ca). pose proof HB as (Hb & Hb' & Cb).
  split_and!; [by apply aggregate_ok..|]. destruct how; cbn [aggregateScores].
  - destruct (ZSetCommands.add_canon a b Ha) as [N1 C1], (ZSetCommands.add_canon a' b' Ha') as [N2 C2]. rewrite N1, N2, Ca.
    pose proof (ZSetValue.canon_ok a' Ha') as Hc. rewrite !(add_comm (ZSetValue.canon a')) by done.
    destruct (ZSetCommands.add_canon b (ZSetValue.canon a') Hb) as [N3 C3], (ZSetCommands.add_canon b' (ZSetValue.canon a') Hb') as [N4 C4]. rewrite N3, N4, Cb.
    destruct (Double.isnan (Double.add (ZSetValue.canon b') _)); [done|]. rewrite C1, C2, Ca, !(add_comm (ZSetValue.canon a')) by done. by rewrite C3, C4, Cb.
  - rewrite !Double.lt_key by done. rewrite Ka, Kb. by destruct (_ <? _).
  - rewrite !Double.lt_key by done. rewrite Ka, Kb. by destruct (_ <? _).
Qed.

Lemma total_alike how vs vs' : Forall2 alike vs vs' -> option_Forall2 alike (total how vs) (total how vs').
Proof.
  destruct 1 as [|v v' vs vs' Hv Hvs]; cbn [total]; constructor. revert v v' Hv. induction Hvs as [|x x' vs vs' Hx Hvs IH]; intros v v' Hv; cbn; [done|].
  apply IH. by apply aggregate_alike.
Qed.

(** Inputs that agree up to such signs. *)
Definition inputs_alike : list scored -> list scored -> Prop :=
  Forall2 (fun a b => a.2 = b.2 /\ Double.ok a.2 /\ forall m, option_Forall2 alike (a.1 !! m) (b.1 !! m)).

Lemma option_alike_some (a b : option Z) : option_Forall2 alike a b -> is_some a = is_some b.
Proof. by destruct 1. Qed.

Lemma scores_alike I J m : inputs_alike I J -> Forall2 alike (scores I m) (scores J m).
Proof.
  induction 1 as [|[A w] [B w'] I J (Hw & Hok & Hm) HIJ IH]; cbn; [constructor|]. cbn in Hw, Hok, Hm. subst w'. destruct (Hm m) as [x y Hxy|]; cbn; [|done].
  constructor; [|done]. by apply weighted_alike.
Qed.

Lemma in_all_alike I J m : inputs_alike I J -> in_all I m = in_all J m.
Proof. induction 1 as [|[A w] [B w'] I J (Hw & Hok & Hm) HIJ IH]; [done|]. unfold in_all in *. cbn [forallb]. cbn [fst] in Hm. by rewrite IH, (option_alike_some _ _ (Hm m)). Qed.

Lemma union_lookup_some (l : list (gmap bytes Z)) m : is_some ((⋃ l) !! m) = existsb (fun A => is_some (A !! m)) l.
Proof.
  induction l as [|A l IH]; cbn; [by rewrite lookup_empty|]. rewrite lookup_union. rewrite <- IH. by destruct (A !! m), ((⋃ l) !! m).
Qed.

Lemma union_alike I J m : inputs_alike I J -> is_some ((⋃ I.*1) !! m) = is_some ((⋃ J.*1) !! m).
Proof.
  rewrite !union_lookup_some. induction 1 as [|a b I J (_ & _ & Hm) HIJ IH]; [done|]. cbn [fmap list_fmap existsb]. by rewrite IH, (option_alike_some _ _ (Hm m)).
Qed.

Lemma imap_alike (f g : bytes -> option Z) (A B : gmap bytes Z) m : is_some (A !! m) = is_some (B !! m) -> option_Forall2 alike (f m) (g m) ->
  option_Forall2 alike (map_imap (fun m _ => f m) A !! m) (map_imap (fun m _ => g m) B !! m).
Proof. intros H Hfg. rewrite !map_lookup_imap. destruct (A !! m), (B !! m); try done. constructor. Qed.

Lemma size_alike (A B : gmap bytes Z) : (forall m, option_Forall2 alike (A !! m) (B !! m)) -> size A = size B.
Proof.
  intros H. rewrite <- !size_dom. f_equal. apply set_eq. intros m. rewrite !elem_of_dom. by destruct (H m).
Qed.

Lemma insert_alike a b K L : inputs_alike [a] [b] -> inputs_alike K L -> inputs_alike (insert_sorted smaller_map a K) (insert_sorted smaller_map b L).
Proof.
  intros [Hab _]%Forall2_cons. induction 1 as [|x y K L Hxy HKL IH]; cbn [insert_sorted]; [by apply Forall2_cons|].
  assert (smaller_map x a = smaller_map y b) as ->. { unfold smaller_map. by rewrite (size_alike _ _ (proj2 (proj2 Hxy))), (size_alike _ _ (proj2 (proj2 Hab))). }
  destruct (smaller_map y b); [by apply Forall2_cons|]. apply Forall2_cons. split; [done|]. by apply Forall2_cons.
Qed.

Lemma sort_alike I J : inputs_alike I J -> inputs_alike (stable_sort smaller_map I) (stable_sort smaller_map J).
Proof. induction 1 as [|a b I J Hab HIJ IH]; [constructor|]. apply insert_alike; [by apply Forall2_cons|done]. Qed.

Lemma combined_alike op how I J m : inputs_alike I J -> option_Forall2 alike (combined op how I !! m) (combined op how J !! m).
Proof.
  intros H. destruct op; cbn [combined].
  - unfold unite. apply imap_alike; [by apply union_alike|]. by apply total_alike, scores_alike.
  - apply sort_alike in H. unfold intersect. apply (imap_alike (fun m => if in_all _ m then total how (scores _ m) else None) (fun m => if in_all _ m then total how (scores _ m) else None)); [by apply union_alike|].
    rewrite (in_all_alike _ _ m H). case_if; [|constructor]. by apply total_alike, scores_alike.
  - destruct H as [|a b I J (Hw & Hok & Hm) HIJ]; cbn [subtract]; [rewrite lookup_empty; constructor|].
    assert (existsb (fun B : scored => is_some (B.1 !! m)) I = existsb (fun B : scored => is_some (B.1 !! m)) J) as E.
    { clear -HIJ. induction HIJ as [|a b I J (_ & _ & Hm) HIJ IH]; cbn; [done|]. by rewrite IH, (option_alike_some _ _ (Hm m)). }
    rewrite !map_lookup_filter. destruct (Hm m) as [x y Hxy|]; cbn [mbind option_bind]; [|constructor]. rewrite !option_guard_bool_decide. cbn [fst]. rewrite E. case_bool_decide; by constructor.
Qed.

(** *** The loops compute them *)

Abbreviation as_map l := (list_to_map l : gmap bytes Z).

Definition source_ok (s : ZSetSource) : Prop := NoDup (members s).*1 /\ Forall (fun e => Double.ok (snd e)) (members s) /\ Double.ok (weight s).

Definition joined (how : Aggregate) (o : option Z) (v : Z) : Z := match o with None => v | Some t => aggregateScores how t v end.

Lemma union_loop_lookup how w items totals m : NoDup items.*1 ->
  union_loop how w items totals !! m = match as_map items !! m with None => totals !! m | Some s => Some (joined how (totals !! m) (weighted s w)) end.
Proof.
  revert totals. induction items as [|[k s] items IH]; intros totals; cbn [union_loop]; [intros _; by rewrite (list_to_map_nil (M:=gmap bytes)), (lookup_empty (M:=gmap bytes))|].
  cbn [fmap list_fmap fst]. intros [Hk Hn]%NoDup_cons. rewrite IH by done. destruct (decide (k = m)) as [->|Hne].
  - rewrite (not_elem_of_list_to_map_1 _ _ Hk). change (list_to_map ((m, s) :: items)) with (<[m := s]> (as_map items)). rewrite lookup_insert_eq.
    unfold joined. destruct (totals !! m); by rewrite lookup_insert_eq.
  - change (list_to_map ((k, s) :: items)) with (<[k := s]> (as_map items)). rewrite lookup_insert_ne by done.
    replace ((match totals !! k with None => <[k:=weighted s w]> totals | Some t => <[k:=aggregateScores how t (weighted s w)]> totals end) !! m) with (totals !! m); [done|].
    destruct (totals !! k); by rewrite lookup_insert_ne.
Qed.

Definition total_from (how : Aggregate) (o : option Z) (vs : list Z) : option Z := foldl (fun o v => Some (joined how o v)) o vs.

Lemma total_from_some how v vs : total_from how (Some v) vs = Some (foldl (aggregateScores how) v vs).
Proof. revert v. induction vs as [|x vs IH]; intros v; [done|]. apply IH. Qed.

Lemma total_from_none how vs : total_from how None vs = total how vs.
Proof. destruct vs as [|v vs]; [done|]. apply total_from_some. Qed.

Lemma union_totals_lookup how sources m : Forall source_ok sources -> union_totals how sources !! m = total how (scores (map index_of sources) m).
Proof.
  intros H. rewrite <- total_from_none. unfold union_totals. replace None with ((∅ : gmap bytes Z) !! m) by apply lookup_empty. generalize (∅ : gmap bytes Z).
  induction H as [|[items w] sources (Hn & _) H IH]; intros totals; [done|]. cbn [foldl map]. rewrite IH, union_loop_lookup by done. cbn. by destruct (as_map items !! m).
Qed.

Lemma scores_absent (I : list scored) m : (⋃ I.*1) !! m = None -> scores I m = [].
Proof.
  intros H. assert (is_some ((⋃ I.*1) !! m) = false) as E by (by rewrite H). rewrite union_lookup_some in E. clear H.
  induction I as [|[A w] I IH]; [done|]. cbn in *. apply orb_false_iff in E as [E1 E2]. destruct (A !! m); [done|]. by apply IH.
Qed.

Lemma unite_lookup how I m : unite how I !! m = total how (scores I m).
Proof. unfold unite. rewrite map_lookup_imap. destruct ((⋃ I.*1) !! m) eqn:H; [done|]. by rewrite (scores_absent I m H). Qed.

Lemma total_in_all_eq how m others v : total_in_all how m others v = if in_all others m then Some (foldl (aggregateScores how) v (scores others m)) else None.
Proof.
  revert v. induction others as [|[A w] others IH]; intros v; [done|]. unfold in_all, scores in *. cbn [total_in_all forallb omap list_omap]. destruct (A !! m) as [s|]; [|done]. cbn. apply IH.
Qed.

Lemma intersect_lookup how I m : intersect how I !! m = if in_all I m then total how (scores I m) else None.
Proof.
  unfold intersect. rewrite map_lookup_imap. destruct ((⋃ I.*1) !! m) eqn:H; [done|]. rewrite (scores_absent I m H). by case_if.
Qed.

(** The entries of the first input that are in all the others. *)
Definition shared (how : Aggregate) (w : Z) (items : entries) (others : list scored) : entries :=
  omap (fun e => (fun v => (fst e, v)) <$> total_in_all how (fst e) others (weighted (snd e) w)) items.

Lemma zset_intersect_loop_ok how w items others limit result : 0 <= limit -> (limit = 0 \/ Z.of_nat (length result) < limit) ->
  (intersect_loop how w items others limit result).1 = (if limit =? 0 then result ++ shared how w items others else take (Z.to_nat limit) (result ++ shared how w items others)) /\
  (limit = 0 -> (intersect_loop how w items others limit result).2 = false).
Proof.
  intros Hl. revert result. induction items as [|[m s] items IH]; intros result Hr; cbn [intersect_loop].
  { cbn. rewrite app_nil_r. split; [|done]. destruct (Z.eqb_spec limit 0); [done|]. rewrite take_ge; [done|lia]. }
  unfold shared. cbn [omap list_omap fst snd]. destruct (total_in_all how m others (weighted s w)) as [v|]; cbn [fmap option_fmap option_map]; [|by apply IH].
  fold (shared how w items others). rewrite (cons_middle (m, v) result (shared how w items others)), app_assoc.
  destruct (Z.ltb_spec 0 limit) as [Hpos|Hz]; cbn [andb].
  - destruct (Z.leb_spec limit (Z.of_nat (length (result ++ [(m, v)])))) as [Hfull|Hroom]; [|apply IH; lia]. split; [|lia].
    rewrite (proj2 (Z.eqb_neq _ _)) by lia. rewrite length_app in Hfull. cbn in Hfull. rewrite take_app_le, take_ge; [done|..]; rewrite length_app; cbn; lia.
  - apply IH. lia.
Qed.

Lemma as_map_ext (l : entries) (R : gmap bytes Z) : NoDup l.*1 -> (forall m v, (m, v) ∈ l <-> R !! m = Some v) -> as_map l = R.
Proof. intros Hn H. apply map_eq. intros m. apply option_eq. intros v. by rewrite <- H, elem_of_list_to_map. Qed.

Lemma sort_insert e l : insert_sorted entry_less e l = SkipList.place (snd e) (fst e) l.
Proof. destruct e as [m sc]. induction l as [|x l IH]; cbn [insert_sorted SkipList.place fst snd]; [done|]. rewrite IH. done. Qed.

Lemma sort_perm (l : entries) : stable_sort entry_less l ≡ₚ l.
Proof. induction l as [|[m v] l IH]; [done|]. cbn [stable_sort foldr]. rewrite sort_insert, ZSetValue.place_perm. cbn [fst snd]. by constructor. Qed.

Lemma sort_ok (l : entries) : NoDup l.*1 -> Forall (fun e => Double.ok (snd e)) l -> ZSetValue.entries_ok (stable_sort entry_less l).
Proof.
  induction l as [|[m v] l IH]; cbn [stable_sort foldr fmap list_fmap fst]; [intros _ _; by split_and!; [apply NoDup_nil_2|constructor..]|].
  intros [Hm Hn]%NoDup_cons [Hv Hok]%Forall_cons. rewrite sort_insert. apply ZSetValue.entries_ok_place; [by apply IH|done|].
  cbn [fst]. fold (stable_sort entry_less l). by rewrite sort_perm.
Qed.

Lemma sorted_by_map (l : entries) (R : gmap bytes Z) : NoDup l.*1 -> Forall (fun e => Double.ok (snd e)) l -> as_map l = R ->
  ZSetValue.entries_ok (stable_sort entry_less l) /\ as_map (stable_sort entry_less l) = R.
Proof.
  intros Hn Hok <-. split; [by apply sort_ok|]. apply list_to_map_proper; [|apply sort_perm]. by rewrite sort_perm.
Qed.

Lemma smaller_index a b : source_ok a -> source_ok b -> smaller_map (index_of a) (index_of b) = smaller a b.
Proof. intros [Ha _] [Hb _]. unfold smaller_map, smaller, index_of. cbn [fst]. by rewrite !map_size_list_to_map. Qed.

Lemma insert_index x l : source_ok x -> Forall source_ok l ->
  insert_sorted smaller_map (index_of x) (map index_of l) = map index_of (insert_sorted smaller x l) /\ Forall source_ok (insert_sorted smaller x l).
Proof.
  intros Hx. induction 1 as [|y l Hy Hl [IH1 IH2]]; cbn [insert_sorted map]; [by split; [|apply Forall_singleton]|]. rewrite smaller_index by done.
  destruct (smaller y x); cbn [map]; [rewrite IH1|]; (split; [done|]); by repeat (apply Forall_cons; split).
Qed.

Lemma sort_index l : Forall source_ok l ->
  stable_sort smaller_map (map index_of l) = map index_of (stable_sort smaller l) /\ Forall source_ok (stable_sort smaller l).
Proof.
  induction 1 as [|x l Hx Hl [IH1 IH2]]; cbn [stable_sort foldr map]; [by split|]. unfold stable_sort in *. rewrite IH1. by apply insert_index.
Qed.

Lemma inputs_self sources : Forall source_ok sources -> inputs_alike (map index_of sources) (map index_of sources).
Proof.
  induction 1 as [|s l (Hn & Hok & Hw) Hl IH]; constructor; [|done]. split_and!; [done..|]. intros m. cbn. destruct (as_map (members s) !! m) as [v|] eqn:Hv; constructor.
  apply elem_of_list_to_map in Hv; [|done]. rewrite Forall_forall in Hok. specialize (Hok _ Hv). by split_and!.
Qed.

Lemma combined_ok op how sources (l : entries) : Forall source_ok sources -> (forall m v, (m, v) ∈ l -> combined op how (map index_of sources) !! m = Some v) ->
  Forall (fun e => Double.ok (snd e)) l.
Proof.
  intros H Hl. apply Forall_forall. intros [m v] Hv. apply Hl in Hv. pose proof (combined_alike op how _ _ m (inputs_self _ H)) as Ha. rewrite Hv in Ha. by inversion_clear Ha as [? ? []|].
Qed.

Lemma shared_ok how first rest : source_ok first -> Forall source_ok rest ->
  NoDup (shared how (weight first) (members first) (map index_of rest)).*1 /\
  forall m v, (m, v) ∈ shared how (weight first) (members first) (map index_of rest) <-> intersect how (map index_of (first :: rest)) !! m = Some v.
Proof.
  intros (Hn & _) Hr. split.
  - unfold shared. revert Hn. generalize (members first). induction l as [|[m s] l IH]; cbn; [done|]. intros [Hm Hn]%NoDup_cons.
    destruct (total_in_all _ _ _ _); cbn; [|by apply IH]. constructor; [|by apply IH]. intros ([m' v'] & -> & ([m2 s2] & Hin & Hv)%list_elem_of_omap)%list_elem_of_fmap.
    apply Hm. cbn in *. destruct (total_in_all _ m2 _ _); [|done]. cbn in Hv. simplify_eq. apply list_elem_of_fmap. by exists (m', s2).
  - intros m v. rewrite intersect_lookup. unfold in_all, scores. cbn [map forallb omap list_omap index_of]. fold (in_all (map index_of rest) m). unfold shared. rewrite list_elem_of_omap.
    destruct (as_map (members first) !! m) as [s|] eqn:Hs; cbn [is_some andb fmap option_fmap option_map].
    + apply elem_of_list_to_map in Hs; [|done]. cbn [total]. split.
      * intros ([m' s'] & Hin & Hv). cbn [fst snd] in Hv. rewrite total_in_all_eq in Hv. destruct (in_all _ m') eqn:Ha; [|done]. cbn in Hv. simplify_eq.
        rewrite Ha. apply (elem_of_list_to_map_1 (M:=gmap bytes)) in Hin, Hs; [|done..]. rewrite Hin in Hs. by injection Hs as ->.
      * intros Hv. exists (m, s). split; [done|]. cbn [fst snd]. rewrite total_in_all_eq. destruct (in_all _ m); [|done]. cbn. by injection Hv as <-.
    + split; [|done]. intros ([m' s'] & Hin & Hv). cbn [fst snd] in Hv. destruct (total_in_all _ _ _ _); [|done]. cbn in Hv. simplify_eq.
      apply (elem_of_list_to_map_1 (M:=gmap bytes)) in Hin; [|done]. by rewrite Hin in Hs.
Qed.

Lemma subtract_ok (first : ZSetSource) rest : source_ok first -> Forall source_ok rest ->
  let kept := List.filter (fun entry : bytes * Z => negb (existsb (fun other : gset bytes => bool_decide (fst entry ∈ other))
                (map (fun source => list_to_set (members source).*1 : gset bytes) rest))) (members first) in
  NoDup kept.*1 /\ forall m v, (m, v) ∈ kept <-> subtract (map index_of (first :: rest)) !! m = Some v.
Proof.
  intros (Hn & _) Hr kept. split.
  - eapply sublist_NoDup; [exact Hn|]. apply fmap_sublist, ZSetCommands.stdlib_filter_sublist.
  - intros m v. cbn [subtract map]. rewrite map_lookup_filter_Some. unfold kept. rewrite list_elem_of_In, filter_In, <- list_elem_of_In. cbn [index_of fst].
    rewrite <- (elem_of_list_to_map (M:=gmap bytes)) by done. rewrite negb_true_iff.
    replace (existsb (fun other : gset bytes => bool_decide (m ∈ other)) (map (fun source => list_to_set (members source).*1) rest))
      with (existsb (fun B : scored => is_some (B.1 !! m)) (map index_of rest)); [done|].
    clear -Hr. induction Hr as [|s rest (Hs & _) Hr IH]; [done|]. cbn [map existsb index_of fst]. f_equal; [|exact IH].
    destruct (as_map (members s) !! m) as [v|] eqn:Hv; symmetry; cbn [is_some].
    + apply bool_decide_true, elem_of_list_to_set. apply elem_of_list_to_map_2 in Hv. apply list_elem_of_fmap. by exists (m, v).
    + apply bool_decide_false. rewrite elem_of_list_to_set. by apply not_elem_of_list_to_map_2.
Qed.

Lemma applyZSetOp_ok op sources how : Forall source_ok sources ->
  ZSetValue.entries_ok (applyZSetOp op sources how 0) /\ as_map (applyZSetOp op sources how 0) = combined op how (map index_of sources).
Proof.
  intros H. pose proof (combined_ok op how sources) as Hok. unfold applyZSetOp. destruct op; cbn [combined] in *.
  - apply sorted_by_map; [apply NoDup_fst_map_to_list| |].
    + apply Hok; [done|]. intros m v Hv%elem_of_map_to_list. by rewrite unite_lookup, <- union_totals_lookup.
    + rewrite list_to_map_to_list. apply map_eq. intros m. by rewrite unite_lookup, union_totals_lookup.
  - destruct (sort_index sources H) as [E Hs]. rewrite E in *. destruct (stable_sort smaller sources) as [|first rest].
    { split; [by split_and!; [apply NoDup_nil_2|constructor..]|]. apply map_eq. intros m. rewrite intersect_lookup. apply lookup_empty. }
    apply Forall_cons in Hs as [Hf Hr]. destruct (shared_ok how first rest Hf Hr) as [Hn Hm].
    destruct (zset_intersect_loop_ok how (weight first) (members first) (map index_of rest) 0 []) as [L1 L2]; [done|by left|].
    destruct (intersect_loop _ _ _ _ _ _) as [result early]. cbn in L1, L2. rewrite L2 by done. subst result.
    apply sorted_by_map; [done| |by apply as_map_ext]. apply Hok; [done|]. intros m v Hv. by apply Hm.
  - destruct sources as [|first rest]; [split; [by split_and!; [apply NoDup_nil_2|constructor..]|done]|].
    pose proof H as H'. apply Forall_cons in H' as [Hf Hr]. destruct (subtract_ok first rest Hf Hr) as [Hn Hm].
    apply sorted_by_map; [done| |by apply as_map_ext]. apply Hok; [done|]. intros m v Hv. by apply Hm.
Qed.

(** ZINTERCARD's limit caps the size and nothing else. *)
Lemma intersection_size sources how limit : 0 <= limit -> Forall source_ok sources ->
  Z.of_nat (length (applyZSetOp Intersect sources how limit)) =
    let n := Z.of_nat (size (combined Intersect how (map index_of sources))) in if limit =? 0 then n else Z.min limit n.
Proof.
  intros Hl H. unfold applyZSetOp. cbn [combined]. destruct (sort_index sources H) as [-> Hs]. cbv zeta. destruct (stable_sort smaller sources) as [|first rest].
  { cbn [map intersect fmap list_fmap]. change (size _) with 0%nat. cbn. destruct (Z.eqb_spec limit 0); lia. }
  apply Forall_cons in Hs as [Hf Hr]. destruct (shared_ok how first rest Hf Hr) as [Hn Hm]. rewrite <- (as_map_ext _ _ Hn Hm), map_size_list_to_map by done.
  destruct (zset_intersect_loop_ok how (weight first) (members first) (map index_of rest) limit []) as [L _]; [done|cbn; lia|].
  destruct (intersect_loop _ _ _ _ _ _) as [result early]. cbn [fst app] in L.
  assert (length (if early then result else stable_sort entry_less result) = length result) as ->.
  { destruct early; [done|]. apply Permutation_length, sort_perm. }
  rewrite L. destruct (Z.eqb_spec limit 0); [done|]. rewrite length_take. lia.
Qed.

(** *** The ranking of a map *)

Lemma entries_unique (l l' : entries) : ZSetValue.entries_ok l -> ZSetValue.entries_ok l' -> as_map l = as_map l' -> l = l'.
Proof.
  intros (N & S & O) (N' & S' & O') E. eapply StronglySorted_unique_strong; [|exact S|exact S'|by apply (list_to_map_inj (M:=gmap bytes))].
  intros [m v] [m' v'] Hx Hy H1 H2. rewrite Forall_forall in O, O'. apply O in Hx. apply O' in Hy. cbn in Hx, Hy.
  pose proof (SkipList.isBefore_trans _ _ _ _ _ _ Hx Hy Hx H1 H2) as Hc. by rewrite SkipList.isBefore_irrefl in Hc.
Qed.

Lemma built_from (P items : entries) : ZSetValue.entries_ok P -> NoDup (P ++ items).*1 -> Forall (fun e => Double.ok (snd e)) items ->
  ZSetValue.entries_ok (foldl ZSetCommands.place_in P items) /\ foldl ZSetCommands.place_in P items ≡ₚ P ++ ZSetValue.canons items.
Proof.
  revert P. induction items as [|[m v] items IH]; intros P HP Hn Hok; cbn [foldl]; [by rewrite app_nil_r|]. apply Forall_cons in Hok as [Hv Hok].
  rewrite fmap_app in Hn. cbn in Hn. rewrite <- Permutation_middle in Hn. apply NoDup_cons in Hn as [Hm Hn].
  assert (m ∉ P.*1) as HmP by (intros ?; apply Hm; rewrite elem_of_app; auto).
  assert (ZSetCommands.place_in P (m, v) = SkipList.place (ZSetValue.canon v) m P) as ->.
  { unfold ZSetCommands.place_in. cbn. by rewrite ZSetValue.drop_absent. }
  pose proof (ZSetValue.place_perm (ZSetValue.canon v) m P) as Hp. destruct (IH (SkipList.place (ZSetValue.canon v) m P)) as [H1 H2]; [| |done|].
  - apply ZSetValue.entries_ok_place; [done| |done]. by apply ZSetValue.canon_ok.
  - rewrite Hp. cbn. constructor; [|by rewrite fmap_app]. by rewrite fmap_app.
  - split; [done|]. rewrite H2, Hp. cbn. by rewrite <- Permutation_middle.
Qed.

Definition canonical (R : gmap bytes Z) : Prop := map_Forall (fun _ v => Double.ok v /\ ZSetValue.canon v = v) R.

Lemma ranking_ok R : canonical R -> ZSetValue.entries_ok (ranking R) /\ as_map (ranking R) = R.
Proof.
  intros HR. assert (Forall (fun e => Double.ok (snd e)) (map_to_list R)) as Hok.
  { apply Forall_forall. intros [m v] Hv%elem_of_map_to_list. by apply (HR m v). }
  destruct (built_from [] (map_to_list R)) as [H1 H2]; [by split_and!; [apply NoDup_nil_2|constructor..]|apply NoDup_fst_map_to_list|done|]. split; [done|].
  unfold ranking, ZSetCommands.built. rewrite <- (list_to_map_to_list R) at 2. apply list_to_map_proper; [by apply H1|]. rewrite H2. cbn [app].
  assert (ZSetValue.canons (map_to_list R) = map_to_list R) as ->; [|done]. unfold ZSetValue.canons. rewrite <- (map_id (map_to_list R)) at 2. apply map_ext_in.
  intros [m v] Hv%list_elem_of_In%elem_of_map_to_list. cbn. by rewrite (proj2 (HR m v Hv)).
Qed.

Definition canonised (R : gmap bytes Z) : gmap bytes Z := ZSetValue.canon <$> R.

(** The list the code computes is the ranking, up to the sign of a zero. *)
Lemma applyZSetOp_ranks op sources how inputs : Forall source_ok sources -> inputs_alike (map index_of sources) inputs ->
  ZSetCommands.near (applyZSetOp op sources how 0) (ranking (canonised (combined op how inputs))).
Proof.
  intros Hs Hi. destruct (applyZSetOp_ok op sources how Hs) as [He Hm].
  assert (forall m, as_map (ZSetValue.canons (applyZSetOp op sources how 0)) !! m = canonised (combined op how inputs) !! m) as E.
  { intros m. change (as_map ?l !! m) with (ZSetValue.score_of m l). rewrite ZSetValue.score_of_canons. unfold ZSetValue.score_of. rewrite Hm. unfold canonised.
    rewrite lookup_fmap. destruct (combined_alike op how _ _ m Hi) as [x y (_ & _ & Hxy)|]; cbn; [by rewrite Hxy|done]. }
  assert (canonical (canonised (combined op how inputs))) as Hc.
  { intros m v Hv. rewrite <- E in Hv. apply elem_of_list_to_map_2 in Hv. pose proof (ZSetValue.canons_ok _ He) as (_ & _ & Hok). rewrite Forall_forall in Hok. split; [by apply (Hok _ Hv)|].
    unfold ZSetValue.canons in Hv. apply list_elem_of_fmap in Hv as ([m' v'] & [= -> ->] & _). apply ZSetValue.canon_idem. }
  destruct (ranking_ok _ Hc) as [R1 R2]. apply entries_unique; [by apply ZSetValue.canons_ok|done|]. rewrite R2. by apply map_eq.
Qed.

(** ** Specifications *)

Section Specs.
Context (rq : request).
Implicit Types (g : view) (k : bytes).
Abbreviation tell := (Keyspace.tell rq).
Abbreviation keymiss := (Keyspace.keymiss rq).

(** The scores of a value: a plain set gives each of its members a 1. *)
Definition input_of (a : aval) : option (gmap bytes Z) :=
  match a with AZSet l => Some (list_to_map l) | ASet X => Some (gset_to_gmap one X) | _ => None end.

(** The inputs that a list of keys names; a missing key is an empty one, a key
    of another type ends the command. *)
Fixpoint gathered (keys : list bytes) g : view * option (list (gmap bytes Z)) :=
  match keys with
  | [] => (g, Some [])
  | k :: keys =>
      match K g !! k with
      | None => let r := gathered keys (keymiss k g) in (r.1, (∅ ::.) <$> r.2)
      | Some (a, _) =>
          match input_of a with
          | Some A => let r := gathered keys g in (r.1, (A ::.) <$> r.2)
          | None => (say wrong_type g, None)
          end
      end
  end.

Definition spec_zset_op (op : ZSetOp) (store : bool) : spec := fun g =>
  let at_ := if store then 2%nat else 1%nat in
  text ← argv rq !! at_;
  match parseNumkeys rq at_ (str (zsetOpName op store)) text with
  | Refused msg => exactly (refuse msg g)
  | Parsed numkeys =>
      let count := Z.to_nat numkeys in
      let r := gathered (take count (drop (S at_) (argv rq))) g in
      match r.2 with
      | None => exactly r.1
      | Some As =>
          match op_options op store count 0 (drop (S at_ + count) (argv rq)) (mkOpSpec Sum (replicate count one) false) with
          | Refused msg => exactly (refuse msg r.1)
          | Parsed o =>
              let items := ranking (canonised (combined op (aggregate o) (zip As (weights o)))) in
              if negb store then
                Some (fun g1 => exists items', ZSetCommands.near items' items /\ g1 = say (ZSetCommands.members_reply rq items' (with_scores o)) r.1)
              else
                dst ← argv rq !! 1%nat;
                let reply g := say (Reply.integer (Z.of_nat (length items))) (mark 1 g) in
                if (length items =? 0)%nat then
                  Some (fun g1 => exists gone : bool, (is_some (K r.1 !! dst) = true -> gone = true) /\
                    g1 = reply (if gone then tell Notify.kGeneric "del" dst (remove dst r.1) else remove dst r.1))
                else if Z.of_nat (length items) <? 2 ^ 64 then
                  exactly (reply (tell Notify.kZset (zsetOpName op true) dst (put dst (AZSet items) None r.1)))
                else None
          end
      end
  end.

Definition spec_zintercard : spec := fun g =>
  text ← argv rq !! 1%nat;
  match parseNumkeys rq 1 (str "zintercard") text with
  | Refused msg => exactly (refuse msg g)
  | Parsed numkeys =>
      let count := Z.to_nat numkeys in
      match intercard_limit (drop (2 + count) (argv rq)) with
      | Refused msg => exactly (refuse msg g)
      | Parsed limit =>
          let r := gathered (take count (drop 2 (argv rq))) g in
          match r.2 with
          | None => exactly r.1
          | Some As =>
              let n := Z.of_nat (size (combined Intersect Sum (map (fun A => (A, one)) As))) in
              exactly (say (Reply.integer (if limit =? 0 then n else Z.min limit n)) r.1)
          end
      end
  end.
End Specs.

(** ** Refinement *)

(** What one input of the code stands for. *)
Definition reads (s : ZSetSource) (A : gmap bytes Z) : Prop := (source_ok s /\ weight s = one) /\ forall m, option_Forall2 alike (as_map (members s) !! m) (A !! m).

Lemma reads_entries l' l : ZSetCommands.near l' l -> NoDup l'.*1 -> Forall (fun e => Double.ok (snd e)) l' -> reads (mkSource l' one) (as_map l).
Proof.
  intros <- Hn Hok. split; [by split_and!|]. intros m. cbn. change (as_map (ZSetValue.canons l') !! m) with (ZSetValue.score_of m (ZSetValue.canons l')).
  rewrite ZSetValue.score_of_canons. unfold ZSetValue.score_of. destruct (as_map l' !! m) as [v|] eqn:Hv; cbn; constructor.
  apply elem_of_list_to_map_2 in Hv. rewrite Forall_forall in Hok. by apply alike_canon, (Hok (m, v)).
Qed.

Lemma reads_members ms X : SetCommands.lists ms X -> reads (mkSource (map (fun m => (m, one)) ms) one) (gset_to_gmap one X).
Proof.
  intros Hl. pose proof Hl as [Hn _]. assert ((map (fun m : bytes => (m, one)) ms).*1 = ms) as Hms.
  { rewrite <- list_fmap_compose. by apply list_fmap_id. }
  split; [split; [split_and!|]; cbn [members weight]; [by rewrite Hms| |done..]|].
  - apply Forall_fmap, Forall_forall. by intros.
  - intros m. cbn. rewrite lookup_gset_to_gmap. destruct (decide (m ∈ X)) as [Hm|Hm].
    + rewrite option_guard_True by done. erewrite (elem_of_list_to_map_1 (M:=gmap bytes) _ m one); [by constructor| |].
      * by rewrite Hms.
      * apply list_elem_of_fmap. exists m. split; [done|]. by rewrite (SetCommands.lists_elem _ _ _ Hl).
    + rewrite option_guard_False by done. rewrite not_elem_of_list_to_map_1; [constructor|]. by rewrite Hms, (SetCommands.lists_elem _ _ _ Hl).
Qed.

Lemma reads_nothing : reads (mkSource [] one) ∅.
Proof. by apply (reads_entries [] []); [|apply NoDup_nil_2|constructor]. Qed.

Lemma set_weights_ok ss As ws : Forall2 reads ss As -> length ws = length As -> Forall Double.ok ws ->
  Forall source_ok (set_weights ss ws) /\ inputs_alike (map index_of (set_weights ss ws)) (zip As ws).
Proof.
  intros H. revert ws. induction H as [|s A ss As (((Hn & Hok & _) & _) & Hm) H IH]; intros [|w ws] Hl Hw; try done; cbn [set_weights zip_with map].
  { by split; constructor. }
  apply Forall_cons in Hw as [Hw Hws]. injection Hl as Hl. destruct (IH ws Hl Hws) as [I1 I2]. split; [by constructor|]. constructor; [by split_and!|done].
Qed.

Lemma reads_plain ss As : Forall2 reads ss As -> Forall source_ok ss /\ inputs_alike (map index_of ss) (map (fun A => (A, one)) As).
Proof.
  induction 1 as [|s A ss As ((Hs & Hone) & Hm) H [I1 I2]]; cbn [map]; [by split; constructor|].
  split; [by constructor|]. constructor; [|done]. cbn. by rewrite Hone.
Qed.

Lemma parse_weights_ok texts ws : parse_weights texts = Some ws -> length ws = length texts /\ Forall Double.ok ws.
Proof.
  revert ws. induction texts as [|x texts IH]; intros ws; cbn; [intros [= <-]; by split; [|constructor]|].
  destruct (ZSetCommands.parseScore x) as [w|] eqn:Hw; [|done]. cbn. destruct (parse_weights texts) as [ws'|]; [|done]. cbn. intros [= <-].
  destruct (IH ws' eq_refl) as [H1 H2]. split; [cbn; by rewrite H1|]. constructor; [|done]. by eapply ZSetCommands.parseScore_ok.
Qed.

Lemma op_options_ok op store n skip tokens o o' : op_options op store n skip tokens o = Parsed o' ->
  length (weights o) = n /\ Forall Double.ok (weights o) -> length (weights o') = n /\ Forall Double.ok (weights o').
Proof.
  revert skip o. induction tokens as [|token rest IH]; intros skip o H Ho; cbn [op_options] in H; [by injection H as <-|].
  destruct skip as [|skip]; [|by eapply IH]. destruct (_ && _ && (n <=? length rest)%nat) eqn:E1.
  { apply andb_true_iff in E1 as [_ Hn%Nat.leb_le]. destruct (parse_weights _) as [ws|] eqn:Hw; [|done]. apply parse_weights_ok in Hw as [Hl Hok].
    eapply IH; [exact H|]. cbn [weights]. by rewrite Hl, length_take_le. }
  destruct (_ && _ && (1 <=? length rest)%nat). { cbv zeta in H. repeat match type of H with (if ?c then _ else _) = _ => destruct c; [by eapply IH; [exact H|]|] end. done. }
  destruct (negb store && _); [|done]. by eapply IH; [exact H|].
Qed.

Lemma parseNumkeys_ok rq i c text n : parseNumkeys rq i c text = Parsed n -> 0 < n /\ (Z.to_nat n <= argc rq - S i)%nat.
Proof.
  unfold parseNumkeys. destruct (stringToInt64 text) as [z|]; [|done]. destruct (Z.ltb_spec z 1); [done|]. destruct (Z.ltb_spec (Z.of_nat (argc rq) - Z.of_nat (i + 1)) z); [done|].
  intros [= <-]. lia.
Qed.

Section Refinement.
Context {D : Type -> Type} {ops : MapOps D} {laws : MapLaws D} (rq : request).
Implicit Types (g : view) (k m : bytes).
Abbreviation t := (now rq).

Lemma zset_gathered_same keys g g' : same g g' -> same (gathered rq keys g).1 (gathered rq keys g').1 /\ (gathered rq keys g).2 = (gathered rq keys g').2.
Proof.
  revert g g'. induction keys as [|k keys IH]; intros g g' Hg; cbn [gathered]; [done|]. pose proof (same_fields g g' Hg) as [HK _]. rewrite HK.
  destruct (K g' !! k) as [[a e]|]; [destruct (input_of a)|]; cbn [fst snd].
  - by destruct (IH g g' Hg) as [H1 ->].
  - split; [by apply same_say|done].
  - by destruct (IH (keymiss rq k g) (keymiss rq k g') ltac:(by apply same_tell)) as [H1 ->].
Qed.

Lemma gathered_length keys g As : (gathered rq keys g).2 = Some As -> length As = length keys.
Proof.
  revert g As. induction keys as [|k keys IH]; intros g As; cbn [gathered]; [by intros [= <-]|].
  destruct (K g !! k) as [[a e]|]; [destruct (input_of a)|]; cbn [snd]; [|done|];
    (intros (As' & H%IH & ->)%fmap_Some; cbn; by rewrite H).
Qed.

Lemma wp_entries_ok k l e g (Q : entries -> view -> Prop) : K g !! k = Some (AZSet l, e) ->
  (forall l', reads (mkSource l' one) (as_map l) -> Q l' g) -> wp t (ZSetCommands.the_entries k) g Q.
Proof.
  intros HK HQ. unfold ZSetCommands.the_entries. wp_run. eapply ZSetCommands.wp_zset_read; [exact HK|]. intros z l' Hx Hn.
  eapply wp_lift; [by apply ZSetValue.exact_all|]. apply HQ. destruct Hx as [(Hd & _ & Hok) _]. by apply reads_entries.
Qed.

Lemma gatherZSetSources_ok keys acc g (Q : _ -> view -> Prop) :
  (forall g' r, same g' (gathered rq keys g).1 ->
     match (gathered rq keys g).2 with
     | None => r = None
     | Some As => exists ss, Forall2 reads ss As /\ r = Some (acc ++ ss)
     end -> Q r g') -> wp t (gatherZSetSources (ops:=ops) rq keys acc) g Q.
Proof.
  revert acc g. induction keys as [|k keys IH]; intros acc g HQ; cbn [gatherZSetSources gathered] in *.
  { apply wp_ret, HQ; [done|]. exists []. split; [constructor|]. by rewrite app_nil_r. }
  assert (forall s A g1 g2, reads s A -> same g1 g2 -> (forall g' r, same g' (gathered rq keys g2).1 ->
     match (A ::.) <$> (gathered rq keys g2).2 with
     | None => r = None
     | Some As => exists ss, Forall2 reads ss As /\ r = Some (acc ++ ss)
     end -> Q r g') -> wp t (gatherZSetSources (ops:=ops) rq keys (acc ++ [s])) g1 Q) as Hnext.
  { clear HQ. intros s A g1 g2 Hs Hg HQ. apply IH. intros g' r Hg' Hr. destruct (zset_gathered_same keys g1 g2 Hg) as [H1 H2]. rewrite H2 in Hr.
    apply HQ; [by rewrite Hg'|]. destruct (gathered rq keys g2).2 as [As|]; cbn; [|done]. destruct Hr as (ss & HF & ->).
    exists (s :: ss). split; [by constructor|]. by rewrite <- app_assoc. }
  wp_run. apply wp_lookupRead. destruct (K g !! k) as [[a e]|] eqn:HK; [intros v Hv|].
  - rewrite (models_type _ _ Hv). destruct a as [x|x|x|X|l]; cbn [atype input_of fst snd] in *;
      repeat match goal with |- context [bool_decide (?a = ?b :> ObjType)] => let r := eval vm_compute in (bool_decide (a = b)) in change (bool_decide (a = b)) with r end;
      cbv iota; wp_run; try (apply HQ; done).
    + eapply (SetCommands.wp_members rq k X e); [exact HK|]. intros sv Hl _. eapply Hnext; [by apply reads_members| |exact HQ]. done.
    + eapply wp_entries_ok; [exact HK|]. intros l' Hr. eapply Hnext; [exact Hr| |exact HQ]. done.
  - wp_run. eapply Hnext; [apply reads_nothing| |exact HQ]. done.
Qed.

Lemma add_entries_ok k rnd (i : nat) items l e g (Q : unit -> view -> Prop) : K g !! k = Some (AZSet l, e) -> Forall (fun e => Double.ok (snd e)) items ->
  ZSetCommands.roomy (length items) l = true -> Q tt (update k (AZSet (foldl ZSetCommands.place_in l items)) g) -> wp t (add_entries (ops:=ops) k rnd i items) g Q.
Proof.
  revert i l g. induction items as [|[m v] items IH]; intros i l g HK Hok Hr HQ; cbn [add_entries foldl] in *; [apply wp_ret; by rewrite (update_id k _ _ _ HK) in HQ|].
  apply Forall_cons in Hok as [Hv Hok]. wp_run. eapply ZSetCommands.wp_zset_add; [exact HK|done|by eapply ZSetCommands.roomy_le; [exact Hr|cbn; lia]|].
  eapply IH; [by eapply update_lookup|done| |by rewrite update_update]. eapply ZSetCommands.roomy_S; [exact Hr|]. apply ZSetCommands.place_in_length.
Qed.

(** Additions in the order of a ranking rebuild it. *)
Lemma built_ranked (l' l : entries) : ZSetCommands.near l' l -> ZSetValue.entries_ok l' -> ZSetCommands.built l' = l.
Proof.
  intros <- He. pose proof He as (Hn & _ & Hok). destruct (built_from [] l') as [H1 H2]; [by split_and!; [apply NoDup_nil_2|constructor..]|done|done|].
  apply entries_unique; [done|by apply ZSetValue.canons_ok|]. apply list_to_map_proper; [by apply H1|done].
Qed.

Lemma zset_op_ok op store : meets t (zsetOpCommand (ops:=ops) rq op store) (spec_zset_op rq op store).
Proof.
  intros g P Hs. unfold spec_zset_op in Hs. cbv zeta in Hs. set (at_ := if store then 2%nat else 1%nat) in *.
  destruct (argv rq !! at_) as [text|] eqn:Ht; [|done]. cbn [mbind option_bind] in Hs. unfold zsetOpCommand. fold at_. wp_run.
  destruct (parseNumkeys _ _ _ _) as [n|msg] eqn:Hn; [|finish Hs; wp_run; reflexivity]. apply parseNumkeys_ok in Hn as [Hpos Hle].
  apply wp_bind, gatherZSetSources_ok. intros g' r Hg Hr. pose proof (gathered_length (take (Z.to_nat n) (drop (S at_) (argv rq))) g) as Hlen.
  destruct (gathered rq (take (Z.to_nat n) (drop (S at_) (argv rq))) g) as [g0 [As|]]; cbn [fst snd] in *; [|subst r; finish Hs; wp_run; exact Hg].
  destruct Hr as (ss & HF & ->). cbn [app]. specialize (Hlen As eq_refl). rewrite length_take_le in Hlen by (rewrite length_drop; exact Hle).
  destruct (op_options _ _ _ _ _ _) as [o|msg] eqn:Ho; [|finish Hs; wp_run; by apply same_say].
  apply op_options_ok in Ho as [Hwl Hwo]; [|cbn [weights]; split; [by rewrite length_replicate|by apply Forall_replicate]].
  destruct (set_weights_ok ss As (weights o) HF ltac:(congruence) Hwo) as [Hsrc Hin].
  pose proof (applyZSetOp_ranks op _ (aggregate o) _ Hsrc Hin) as Hnear. destruct (applyZSetOp_ok op _ (aggregate o) Hsrc) as [Hent _].
  set (result := applyZSetOp op (set_weights ss (weights o)) (aggregate o) 0) in *. set (items := ranking _) in *.
  destruct store; cbn [negb] in *.
  - destruct (argv rq !! 1%nat) as [dst|] eqn:Hd; [|done]. cbn [mbind option_bind] in Hs. eapply wp_arg; [exact Hd|]. rewrite (ZSetCommands.near_length _ _ Hnear).
    destruct (length items =? 0)%nat eqn:Hz; cbn [negb].
    + injection Hs as <-. wp_run. apply wp_erase. intros gone Hgone _. pose proof (same_fields _ _ Hg) as [HK _]. rewrite HK in Hgone. destruct gone; wp_run.
      * eexists. split; [exists true; split; [done|reflexivity]|]. by apply same_say, same_mark, same_tell, same_remove.
      * eexists. split; [exists false; split; [done|reflexivity]|]. by apply same_say, same_mark, same_remove.
    + destruct (Z.ltb_spec (Z.of_nat (length items)) (2 ^ 64)) as [Hroom|]; [|done]. destruct (empty_value_models OZSet) as (v0 & Hv0 & ->). finish Hs. wp_run.
      eapply wp_setKey; [exact Hv0|]. wp_run. apply wp_lookupWrite. cbn [K put settle set_K]. rewrite lookup_insert_eq. intros v Hv. wp_run.
      pose proof Hent as (_ & _ & Hok). eapply add_entries_ok; [apply lookup_insert_eq|exact Hok| |].
      { unfold ZSetCommands.roomy. cbn [length]. rewrite (ZSetCommands.near_length _ _ Hnear). apply Z.ltb_lt. lia. }
      fold (ZSetCommands.built result). rewrite (built_ranked _ _ Hnear Hent). wp_run.
      apply same_say, same_mark, same_tell. etransitivity; [|by apply same_put]. fresh_now.
  - injection Hs as <-. apply ZSetCommands.emitMembers_ok. intros g1 Hg1. eexists. split; [by exists result|]. rewrite Hg1. by apply same_say.
Qed.

Lemma intercard_limit_ok rest limit : intercard_limit rest = Parsed limit -> 0 <= limit.
Proof.
  unfold intercard_limit. destruct rest as [|token rest]; [by intros [= <-]|]. destruct (negb _); [done|]. destruct rest as [|x [|]]; [done| |done].
  destruct (stringToInt64 x) as [z|]; [|done]. destruct (Z.ltb_spec z 0); [done|]. by intros [= <-].
Qed.

Lemma zintercard_ok : meets t (zintercard (ops:=ops) rq) (spec_zintercard rq).
Proof.
  intros g P Hs. unfold spec_zintercard in Hs. args_in Hs. unfold zintercard. wp_run.
  destruct (parseNumkeys _ _ _ _) as [n|msg]; [|finish Hs; wp_run; reflexivity].
  destruct (intercard_limit _) as [limit|msg] eqn:Hl; [|finish Hs; wp_run; reflexivity]. apply intercard_limit_ok in Hl.
  apply wp_bind, gatherZSetSources_ok. intros g' r Hg Hr. cbv zeta in Hs.
  destruct (gathered rq (take (Z.to_nat n) (drop 2 (argv rq))) g) as [g0 [As|]]; cbn [fst snd] in *; [|subst r; finish Hs; wp_run; exact Hg].
  destruct Hr as (ss & HF & ->). cbn [app]. destruct (reads_plain ss As HF) as [Hsrc Hin]. finish Hs. wp_run.
  rewrite (intersection_size ss Sum limit Hl Hsrc), (size_alike _ _ (fun m => combined_alike Intersect Sum _ _ m Hin)). by apply same_say.
Qed.

Definition commands : list (string * M D unit * spec) :=
  [ ("zunion", zunion rq, spec_zset_op rq Union false); ("zinter", zinter rq, spec_zset_op rq Intersect false); ("zdiff", zdiff rq, spec_zset_op rq Difference false);
    ("zunionstore", zunionstore rq, spec_zset_op rq Union true); ("zinterstore", zinterstore rq, spec_zset_op rq Intersect true);
    ("zdiffstore", zdiffstore rq, spec_zset_op rq Difference true); ("zintercard", zintercard rq, spec_zintercard rq) ]%string.

#[local] Hint Resolve zset_op_ok zintercard_ok : mnemos.

Lemma zset_algebra_ok : Forall (fun '(n, h, sp) => meets t h sp) commands.
Proof. unfold commands. repeat (apply Forall_cons; split; [eauto with mnemos|]). by apply Forall_nil. Qed.
End Refinement.
End ZSetAlgebra.
