(* ===== verification/PersistCommands.v ===== *)
(** * PersistCommands: DUMP, RESTORE, SAVE and BGSAVE

    [src/server/commands/persist_commands.cpp]. DUMP and RESTORE move one
    value through its payload; SAVE and BGSAVE hand the whole keyspace to the
    persistence driver. *)

From Stdlib Require Import ZArith Lia.
Set Warnings "-register-all".
From stdpp Require Import base list numbers gmap option strings.
From S2P Require Import Prelude Encoding Strings Listpack MapSpec Dict ListValue Db Object Reply Notify CommandTable Rdb Command Keyspace RdbObject RdbFile Persistence StringCommands.
Import Command Keyspace.Keyspace.

Module PersistCommands.
Import StringCommands(parsed, Parsed, Refused, syntax_error, not_an_integer).

Abbreviation is_token t name := (equalsIgnoreCase t (str name)).

Definition bad_idletime : bytes := str "ERR Invalid IDLETIME value, must be >= 0".
Definition bad_freq : bytes := str "ERR Invalid FREQ value, must be >= 0 and <= 255".
Definition busy_key : bytes := str "BUSYKEY Target key name already exists.".
Definition bad_ttl : bytes := str "ERR Invalid TTL value, must be >= 0".
Definition bad_payload : bytes := str "ERR DUMP payload version or checksum are wrong".
Definition bad_format : bytes := str "ERR Bad data format".

(** The option loop: [(replace, absttl)]. *)
Fixpoint restore_options (tokens : list bytes) (replace absttl : bool) : parsed (bool * bool) :=
  match tokens with
  | [] => Parsed (replace, absttl)
  | opt :: rest =>
      if is_token opt "REPLACE" then restore_options rest true absttl
      else if is_token opt "ABSTTL" then restore_options rest replace true
      else
        match rest with
        | value :: rest =>
            if is_token opt "IDLETIME" then
              match stringToInt64 value with
              | None => Refused not_an_integer
              | Some n => if n <? 0 then Refused bad_idletime else restore_options rest replace absttl
              end
            else if is_token opt "FREQ" then
              match stringToInt64 value with
              | None => Refused not_an_integer
              | Some n => if (n <? 0) || (255 <? n) then Refused bad_freq else restore_options rest replace absttl
              end
            else Refused syntax_error
        | [] => Refused syntax_error
        end
  end.

Section Handlers.
Context {D : Type -> Type} {ops : MapOps D} (max_alloc : Z) (range_error : bytes -> bool) (rq : request).
Abbreviation handler := (M D unit).

Definition dump : handler :=
  key ← arg rq 1;
  v ← lookupRead rq key;
  match v with
  | None => _ ← notifyKeyMiss rq key; nullBulk rq
  | Some v => payload ← lift (RdbObject.dumpPayload v); bulk payload
  end.

(** The end: the value replaces whatever was there. *)
Definition store_restored (key : bytes) (existed absttl : bool) (ttl : Z) (value : Object.value D) : handler :=
  _ ← (if existed then _ ← erase key; mret tt else mret tt);
  _ ← setKey key value;
  _ ← (if 0 <? ttl then at_ ← (if absttl then mret ttl else checked (now rq + ttl)); setExpireAt key at_ else mret tt);
  _ ← markDirty 1;
  _ ← notify rq Notify.kGeneric "restore" key;
  ok.

(** After the options: the key, the deadline, the payload, in this order. *)
Definition restore_checked (key : bytes) (replace absttl existed : bool) : handler :=
  if existed && negb replace then error busy_key
  else
    ttl_text ← arg rq 2;
    match stringToInt64 ttl_text with
    | None => notAnInteger
    | Some ttl =>
        if ttl <? 0 then error bad_ttl
        else
          payload ← arg rq 3;
          if negb (RdbObject.payloadFooterOk payload) then error bad_payload
          else
            rnd ← random rq;
            match RdbObject.loadPayload (ops:=ops) max_alloc range_error rnd payload with
            | Rdb.Refused => error bad_format
            | Rdb.Thrown => lift None
            | Rdb.Got value _ => store_restored key existed absttl ttl value
            end
    end.

Definition restore : handler :=
  key ← arg rq 1;
  match restore_options (drop 4 (argv rq)) false false with
  | Refused msg => error msg
  | Parsed (replace, absttl) => old ← lookupWrite rq key; restore_checked key replace absttl (is_some old)
  end.

(** SAVE and BGSAVE answer with these bytes. *)
Definition save (path : bytes) (h : Persistence.host) (s : Persistence.server D) (w : RdbFile.world)
    : option (RdbFile.world * Persistence.server D * bytes) :=
  if negb (Persistence.bgsave_pid_ s =? -1) then Some (w, s, Reply.error (str "ERR Background save already in progress"))
  else
    '(w, s, err) ← Persistence.saveRdb path h s w;
    Some (w, s, match err with Some msg => Reply.error (str "ERR " ++ msg) | None => Reply.simpleString (str "OK") end).

Definition bgsave (f : Persistence.forked) (s : Persistence.server D) : Persistence.server D * bytes :=
  if (2 <? length (argv rq))%nat || ((length (argv rq) =? 2)%nat && negb (is_token (argv rq !!! 1%nat) "SCHEDULE")) then (s, Reply.error syntax_error)
  else
    let '(s, err) := Persistence.startBackgroundSave f s in
    (s, match err with Some msg => Reply.error (str "ERR " ++ msg) | None => Reply.simpleString (str "Background saving started") end).
End Handlers.

(** ** What RESTORE does *)

Section Refinement.
Context {D : Type -> Type} {ops : MapOps D} {laws : MapLaws D} (max_alloc : Z) (range_error : bytes -> bool) (rq : request).
Abbreviation t := (now rq).

(** A payload that carries the value [a], and one that carries none. *)
Definition denotes (payload : bytes) (a : aval) : Prop :=
  RdbObject.payloadFooterOk payload = true /\
  forall rnd, exists v r, RdbObject.loadPayload (ops:=ops) max_alloc range_error rnd payload = Rdb.Got v r /\ models v a.
Definition malformed (payload : bytes) : Prop :=
  RdbObject.payloadFooterOk payload = true /\ forall rnd, RdbObject.loadPayload (ops:=ops) max_alloc range_error rnd payload = Rdb.Refused.

(** The keyspace and the news after a value was stored. *)
Definition stored (key : bytes) (a : aval) (ttl at_ : Z) (g : view) : view :=
  let g := if 0 <? ttl then (if t <? at_ then put key a (Some at_) g else doom key (put key a None g)) else put key a None g in
  say (Reply.simpleString (str "OK")) (tell rq Notify.kGeneric "restore" key (mark 1 g)).

(** The keyspace operation, given what a payload with a good footer carries. *)
Definition spec_restore (carries : bytes -> option (option aval)) : spec := fun g =>
  key ← argv rq !! 1%nat; ttl_text ← argv rq !! 2%nat; payload ← argv rq !! 3%nat;
  match restore_options (drop 4 (argv rq)) false false with
  | Refused msg => exactly (refuse msg g)
  | Parsed (replace, absttl) =>
      if is_some (K g !! key) && negb replace then exactly (refuse busy_key g)
      else
        match stringToInt64 ttl_text with
        | None => exactly (refuse not_an_integer g)
        | Some ttl =>
            if ttl <? 0 then exactly (refuse bad_ttl g)
            else if negb (RdbObject.payloadFooterOk payload) then exactly (refuse bad_payload g)
            else
              r ← carries payload;
              match r with
              | None => exactly (refuse bad_format g)
              | Some a =>
                  let at_ := if absttl : bool then ttl else t + ttl in
                  if (0 <? ttl) && negb ((- 2 ^ 63 <=? at_) && (at_ <? 2 ^ 63)) then None
                  else exactly (stored key a ttl at_ g)
              end
        end
  end.

Lemma store_restored_ok key existed (absttl : bool) ttl v a g g0 : let at_ := if absttl then ttl else t + ttl in
  (0 <? ttl) && negb ((- 2 ^ 63 <=? at_) && (at_ <? 2 ^ 63)) = false -> models v a -> g0 = g \/ g0 = settle key g ->
  wp t (store_restored rq key existed absttl ttl v) g0 (fun _ g1 => same g1 (stored key a ttl at_ g)).
Proof.
  intros at_ Hov Hm Hg0. unfold store_restored. assert (forall g1, same g1 g \/ same g1 (remove key g) -> forall e, same (put key a e g1) (put key a e g)) as Hput.
  { intros g1 [Hg1|Hg1] e; [by apply same_put|]. etransitivity; [by apply same_put|]. view_eq. by rewrite insert_delete_eq. }
  apply wp_bind. eapply (wp_mono t _ _ (fun _ g1 => same g1 g \/ same g1 (remove key g))).
  { destruct existed; wp_run; [|left; by destruct Hg0 as [->| ->]]. apply wp_erase. intros gone _ _. wp_run. right. by destruct Hg0 as [->| ->]. }
  intros [] g1 Hg1. specialize (Hput g1 Hg1). wp_run. apply (wp_setKey _ _ _ a); [done|]. wp_run. unfold stored. destruct (0 <? ttl) eqn:Hp; cbn [andb] in Hov.
  - apply negb_false_iff in Hov. assert (is_i64 at_) as Hi by (unfold s_range; cbn; bools; lia). wp_run.
    eapply (wp_mono t _ _ (fun z g2 => z = at_ /\ g2 = put key a None g1)).
    { unfold at_ in *. destruct absttl; [by apply wp_ret|]. by apply wp_checked. }
    intros z g2 [-> ->]. wp_run. apply (wp_setExpireAt _ _ a None); [cbn [K put settle set_K]; apply lookup_insert_eq|done|]. wp_run.
    apply same_say, same_tell, same_mark. destruct (t <? at_); [etransitivity; [apply put_put|apply Hput]|apply same_doom, Hput].
  - wp_run. apply same_say, same_tell, same_mark, Hput.
Qed.

Lemma restore_ok carries : (forall p a, carries p = Some (Some a) -> denotes p a) -> (forall p, carries p = Some None -> malformed p) ->
  meets t (restore (ops:=ops) max_alloc range_error rq) (spec_restore carries).
Proof.
  intros Hgood Hbad g P Hs. unfold spec_restore in Hs. args_in Hs. unfold restore. wp_run.
  destruct (restore_options _ _ _) as [[replace absttl]|msg]; [|finish Hs; wp_run; reflexivity]. wp_run.
  assert (forall existed, existed = is_some (K g !! b) -> wp t (restore_checked (ops:=ops) max_alloc range_error rq b replace absttl existed) (settle b g)
    (fun _ g1 => exists g', P g' /\ same g1 g')) as Hrest.
  2:{ apply wp_lookupWrite. destruct (K g !! b) as [[a e]|] eqn:HK; [intros v Hv|]; apply Hrest; done. }
  intros existed ->. unfold restore_checked. destruct (is_some (K g !! b) && negb replace); [finish Hs; wp_run; reflexivity|]. wp_run.
  destruct (stringToInt64 b0) as [ttl|]; [|finish Hs; wp_run; reflexivity]. destruct (ttl <? 0); [finish Hs; wp_run; reflexivity|]. wp_run.
  destruct (negb (RdbObject.payloadFooterOk b1)); [finish Hs; wp_run; reflexivity|]. destruct (carries b1) as [[a|]|] eqn:Hc; [| |done]; cbn [mbind option_bind] in Hs.
  - destruct ((0 <? ttl) && negb _) eqn:Hov in Hs; [done|]. finish Hs. apply wp_bind, wp_random. intros rnd.
    destruct (Hgood _ _ Hc) as [_ Hload]. destruct (Hload rnd) as (v & r & -> & Hm). apply store_restored_ok; [done|done|by right].
  - apply wp_bind, wp_random. intros rnd. destruct (Hbad _ Hc) as [_ ->]. finish Hs. wp_run. reflexivity.
Qed.

(** What DUMP answers denotes the value of the key. *)
Lemma dump_denotes s g k a e : sim t s g -> argv rq !! 1%nat = Some k -> K g !! k = Some (a, e) -> acount a <> 0%nat ->
  (forall m x, Db.holds (db s) m x -> map_Forall (Persistence.fits max_alloc) m) ->
  exists payload s', dump (ops:=ops) rq s = Some (s', tt) /\ sim t s' (say (Reply.bulk payload) (settle k g)) /\ denotes payload a.
Proof.
  intros Hsim Hk HK Ha Hfits. destruct Hsim as ((He & Hev & m & x & Hh & Hkeys) & Hrest) eqn:E0. clear E0. assert (sim t s g) as Hsim' by (split; [|exact Hrest]; split; [done|]; split; [done|]; by exists m, x).
  destruct (Persistence.kept_lookup max_alloc t (K g) (db s) m x k) as (d' & m' & x' & o & Hl & _ & Ho).
  { split_and!; [done|done| |by eapply Hfits]. intros j. eapply key_sim_unchecked, Hkeys. }
  rewrite HK in Ho. destruct Ho as (v & -> & Hm & Hfit).
  destruct (wp_elim t (lookupRead rq k) g (fun o g' => g' = settle k g) s) as (s1 & o & g1 & Hlook & Hs1 & ->); [apply wp_lookupRead; rewrite HK; done|done|].
  assert (o = Some v) as ->. { unfold lookupRead, on_db in Hlook. rewrite Hl in Hlook. cbn in Hlook. by injection Hlook as _ ->. }
  destruct (RdbObject.body_saved max_alloc range_error (fun _ _ _ => 0) v a Hm Ha ltac:(apply Hfit)) as (body & _ & Hb & _ & _).
  assert (exists payload, RdbObject.dumpPayload v = Some payload) as [payload Hp] by (unfold RdbObject.dumpPayload; rewrite Hb; by eexists).
  assert (denotes payload a) as Hd.
  { assert (forall rnd, exists v' r, RdbObject.payloadFooterOk payload = true /\ RdbObject.loadPayload (ops:=ops) max_alloc range_error rnd payload = Rdb.Got v' r /\ models v' a) as Hall.
    { intros rnd. destruct (RdbObject.payload_saved max_alloc range_error rnd v a Hm Ha ltac:(apply Hfit)) as (payload' & v' & r & Hp' & Hf & Hload & Hm'). rewrite Hp in Hp'. injection Hp' as <-. by exists v', r. }
    split; [by destruct (Hall (fun _ _ _ => 0)) as (? & ? & ? & _)|]. intros rnd. destruct (Hall rnd) as (v' & r & _ & ? & ?). by exists v', r. }
  destruct (wp_elim t (bulk payload) (settle k g) (fun _ g' => g' = say (Reply.bulk payload) (settle k g)) s1) as (s2 & [] & g2 & Hw & Hs2 & ->); [by apply wp_write|done|].
  exists payload, s2. split_and!; [|done|done]. unfold dump, arg, mbind, M_bind, lift. rewrite Hk. cbv beta iota. rewrite Hlook. cbv beta iota. rewrite Hp. exact Hw.
Qed.
End Refinement.

Lemma restore_options_none : restore_options [] false false = Parsed (false, false).
Proof. done. Qed.

(** C14: DUMP on one server and RESTORE on another move a value: the payload DUMP
    answers with, given to RESTORE under a new key with a time to live, leaves
    that key with the same contents, whatever its type and encoding, a deadline
    counted from the second server's clock, and every other key alone. *)
Theorem migrate_copies {D : Type -> Type} {ops : MapOps D} {laws : MapLaws D} (max_alloc : Z) (range_error : bytes -> bool)
    (rq1 : request) (s1 : state D) (g1 : view) (k : bytes) (a : aval) (e : option Z) :
  sim (now rq1) s1 g1 -> argv rq1 !! 1%nat = Some k -> K g1 !! k = Some (a, e) -> acount a <> 0%nat ->
  (forall m x, Db.holds (db s1) m x -> map_Forall (Persistence.fits max_alloc) m) ->
  exists payload s1', dump (ops:=ops) rq1 s1 = Some (s1', tt) /\ sim (now rq1) s1' (say (Reply.bulk payload) (settle k g1)) /\
    forall (rq2 : request) (s2 : state D) (g2 : view) (word k2 : bytes) (ttl : Z),
      sim (now rq2) s2 g2 -> argv rq2 = [word; k2; to_string ttl; payload] -> K g2 !! k2 = None -> 0 <= now rq2 -> 0 <= ttl -> now rq2 + ttl < 2 ^ 63 ->
      exists s2' g2', restore (ops:=ops) max_alloc range_error rq2 s2 = Some (s2', tt) /\ sim (now rq2) s2' g2' /\
        K g2' = <[k2 := (a, if 0 <? ttl then Some (now rq2 + ttl) else None)]> (K g2) /\ out g2' = out g2 ++ Reply.simpleString (str "OK").
Proof.
  intros Hs1 Hk HK Ha Hfits. destruct (dump_denotes max_alloc range_error rq1 s1 g1 k a e Hs1 Hk HK Ha Hfits) as (payload & s1' & Hd & Hs1' & Hden).
  exists payload, s1'. split; [done|]. split; [done|]. intros rq2 s2 g2 word k2 ttl Hs2 Hargv HK2 Hnow Httl Hroom.
  set (carries := fun p => if decide (p = payload) then Some (Some a) else @None (option aval)).
  assert (meets (now rq2) (restore (ops:=ops) max_alloc range_error rq2) (spec_restore rq2 carries)) as Hmeets.
  { apply restore_ok; unfold carries; intros p; [intros b|]; destruct (decide (p = payload)) as [->|]; try done. by intros [= <-]. }
  destruct (wp_elim (now rq2) (restore (ops:=ops) max_alloc range_error rq2) g2 (fun _ g' => same g' (stored rq2 k2 a ttl (now rq2 + ttl) g2)) s2) as (s2' & [] & g2' & Hr & Hs2' & Hsame); [|done|].
  - eapply wp_mono; [apply (Hmeets g2 (fun g1 => g1 = stored rq2 k2 a ttl (now rq2 + ttl) g2))|].
    + unfold spec_restore. rewrite Hargv. cbn [lookup list_lookup mbind option_bind drop]. rewrite restore_options_none, HK2. cbn [is_some andb].
      rewrite stringToInt64_to_string by (unfold s_range; cbn; lia). rewrite (proj2 (Z.ltb_ge ttl 0)) by lia. rewrite (proj1 Hden). cbn [negb].
      unfold carries. rewrite decide_True by done. cbn [mbind option_bind].
      replace ((0 <? ttl) && _) with false; [done|]. symmetry. apply andb_false_iff. right. apply negb_false_iff, andb_true_iff. split; [apply Z.leb_le|apply Z.ltb_lt]; lia.
    + intros [] g' (g'' & -> & Hg). exact Hg.
  - exists s2', g2'. apply same_fields in Hsame as (HKs & _ & Ho & _). split_and!; [done|done| |].
    + rewrite HKs. unfold stored. destruct (Z.ltb_spec 0 ttl); [|done]. rewrite (proj2 (Z.ltb_lt _ _)) by lia. done.
    + rewrite Ho. unfold stored. destruct (Z.ltb_spec 0 ttl); [|done]. rewrite (proj2 (Z.ltb_lt _ _)) by lia. done.
Qed.

Lemma migrate_copies_witness :
  let rq := mkReq [str "DUMP"; str "greeting"] 1000 2 0 16 (fun _ _ _ _ => 0) in
  let s := mkState Persistence.Sample.database ∅ [] 0 0 0 [] 0 in
  exists payload s', dump (ops:=Dict.dict_ops) rq s = Some (s', tt) /\
    forall rq2 s2 g2, sim (laws:=Dict.dict_laws) (now rq2) s2 g2 -> argv rq2 = [str "RESTORE"; str "hi"; str "0"; payload] -> K g2 !! str "hi" = None -> 0 <= now rq2 < 2 ^ 63 ->
      exists s2' g2', restore (ops:=Dict.dict_ops) 1000 (fun _ => false) rq2 s2 = Some (s2', tt) /\
        K g2' !! str "hi" = Some (AList [str "hello"; str "42"], None).
Proof.
  intros rq s. edestruct (migrate_copies (laws:=Dict.dict_laws) 1000 (fun _ => false) rq s (mkView Persistence.Sample.contents ∅ [] [] 0 0 0 ∅) (str "greeting")
    (AList [str "hello"; str "42"]) (Some 5000)) as (payload & s' & Hd & _ & Hr).
  - split; [apply Persistence.Sample.ready_ok|]. split; [|done]. intros i. cbn [others KO s]. rewrite !lookup_empty. constructor.
  - done.
  - vm_compute. done.
  - done.
  - apply Persistence.Sample.ready_ok.
  - exists payload, s'. split; [exact Hd|]. intros rq2 s2 g2 Hs Ha HK Hn. destruct (Hr rq2 s2 g2 (str "RESTORE") (str "hi") 0 Hs Ha HK) as (s2' & g2' & H1 & _ & H2 & _); [lia|lia|lia|].
    exists s2', g2'. split; [exact H1|]. rewrite H2. apply lookup_insert_eq.
Defined.

End PersistCommands.
