(* ===== verification/Commands.v ===== *)
(** * Commands: the data commands together

    The handlers of the six families behind the one registry of
    [src/server/command_table.cpp], and the server's databases they run on:
    [callCommand] hands a handler the client's database, its clock and its
    arguments, and the handler may reach the other databases (COPY). The
    theorems say that every handler implements its specification, and that a
    whole session, many requests on many databases under an advancing clock,
    is answered as the specifications of its requests say. *)

From Stdlib Require Import ZArith Lia.
Set Warnings "-register-all".
From stdpp Require Import base list numbers gmap option strings.
From S2P Require Import Prelude Encoding Double Strings Listpack MapSpec Dict HashValue ZSetValue SetValue ListValue Db Object Reply Notify CommandTable Command Keyspace.
From S2P Require Import StringCommands HashCommands ListCommands SetCommands KeyspaceCommands ZSetCommands ZSetAlgebra.
Import Command Keyspace.

Module Commands.

Section Table.
Context {D : Type -> Type} {ops : MapOps D} (char_signed : bool) (rq : request).

Definition string_commands : list (string * M D unit * spec) :=
  map (fun '(n, h, sp) => (n, h, fun g => g' ← sp g; exactly g')) (StringCommands.commands rq).

(** The registry's data commands: name, handler, specification. *)
Definition data_commands : list (string * M D unit * spec) :=
  string_commands ++ HashCommands.commands rq ++ ListCommands.commands rq ++ SetCommands.commands rq ++
  KeyspaceCommands.commands char_signed rq ++ ZSetCommands.commands rq ++ ZSetAlgebra.commands rq.

Definition command_named (n : bytes) : option (M D unit * spec) :=
  match list_find (fun e : string * M D unit * spec => str e.1.1 = n) data_commands with
  | Some (_, (_, h, sp)) => Some (h, sp)
  | None => None
  end.
End Table.

(** ** The server's databases *)

Section Store.
Context {D : Type -> Type} {ops : MapOps D}.

Record store := mkStore { dbs : gmap Z (Db.t D (Object.value D)); s_dirty : Z; s_hits : Z; s_misses : Z }.

(** The context [callCommand] builds for a handler. *)
Definition enter (rq : request) (st : store) : option (state D) :=
  d ← dbs st !! index rq;
  Some (mkState d (delete (index rq) (dbs st)) [] (s_dirty st) (s_hits st) (s_misses st) [] 0).

Definition leave (rq : request) (s : state D) : store :=
  mkStore (<[index rq := db s]> (others s)) (dirty s) (keyspace_hits s) (keyspace_misses s).

(** One request for a data command: the databases it leaves, its reply and
    what it announced. [None]: not a data command, or undefined behaviour. *)
Definition serve (char_signed : bool) (rq : request) (st : store) : option (store * (bytes * list note)) :=
  word ← argv rq !! 0%nat;
  c ← CommandTable.lookupCommand word;
  '(h, _) ← command_named char_signed rq (CommandTable.name c);
  s ← enter rq st;
  '(s', _) ← h s;
  Some (leave rq s', (reply s', notes s')).

Fixpoint serve_all (char_signed : bool) (rs : list request) (st : store) : option (store * list (bytes * list note)) :=
  match rs with
  | [] => Some (st, [])
  | rq :: rs =>
      '(st, a) ← serve char_signed rq st;
      '(st, answers) ← serve_all char_signed rs st;
      Some (st, a :: answers)
  end.
End Store.
Arguments store : clear implicits.

(** ** What a client may rely on *)

(** The databases as clients see them, with the server's counters. *)
Record keyspaces := mkKeyspaces { ks : gmap Z keyspace; k_dirty : Z; k_hits : Z; k_misses : Z }.

(** What a request finds at its own time. *)
Definition enter_view (rq : request) (A : keyspaces) : option view :=
  G ← ks A !! index rq;
  Some (mkView (survivors (now rq) G) (survivors (now rq) <$> delete (index rq) (ks A)) [] [] (k_dirty A) (k_hits A) (k_misses A) ∅).

Definition leave_view (rq : request) (g : view) : keyspaces :=
  mkKeyspaces (<[index rq := K g]> (KO g)) (dirt g) (hits g) (misses g).

Definition spec_named (char_signed : bool) (rq : request) : option spec :=
  word ← argv rq !! 0%nat;
  c ← CommandTable.lookupCommand word;
  snd <$> command_named (D := Dict.dict) (ops := Dict.dict_ops) char_signed rq (CommandTable.name c).

(** The views in which a request may leave the databases; [None] where its
    behaviour is undefined. *)
Definition allowed (char_signed : bool) (rq : request) (A : keyspaces) : option (view -> Prop) :=
  sp ← spec_named char_signed rq; g ← enter_view rq A; sp g.

(** A session whose behaviour is defined whatever its random choices. *)
Inductive defined (char_signed : bool) : list request -> keyspaces -> Prop :=
  | defined_nil A : defined char_signed [] A
  | defined_cons rq rs A P : allowed char_signed rq A = Some P -> (forall g, P g -> defined char_signed rs (leave_view rq g)) ->
      defined char_signed (rq :: rs) A.

(** The answers a session may get. *)
Inductive answered (char_signed : bool) : list request -> keyspaces -> list (bytes * list (Z * bytes * bytes * Z)) -> keyspaces -> Prop :=
  | answered_nil A : answered char_signed [] A [] A
  | answered_cons rq rs A P g answers A' : allowed char_signed rq A = Some P -> P g ->
      answered char_signed rs (leave_view rq g) answers A' -> answered char_signed (rq :: rs) A ((out g, log g) :: answers) A'.

(** Clocks that never go back, and arguments a listpack can hold. *)
Fixpoint timely (t : Z) (rs : list request) : Prop :=
  match rs with
  | [] => True
  | rq :: rs => t <= now rq /\ Forall Listpack.storable (argv rq) /\ timely (now rq) rs
  end.

Fixpoint last_time (t : Z) (rs : list request) : Z :=
  match rs with [] => t | rq :: rs => last_time (now rq) rs end.

(** ** Refinement *)

Section Refinement.
Context {D : Type -> Type} {ops : MapOps D} {laws : MapLaws D} (char_signed : bool).

Lemma string_commands_ok (rq : request) : 0 <= now rq -> Forall (fun '(n, h, sp) => meets (now rq) h sp) (string_commands (ops:=ops) rq).
Proof.
  intros Ht. unfold string_commands. apply Forall_map. eapply Forall_impl; [by apply StringCommands.commands_ok|].
  intros [[n h] sp] H g P Hs. cbn in *. destruct (sp g) as [g'|] eqn:E; [|done]. cbn in Hs. eapply meets_exactly; [exact Hs|]. by apply H.
Qed.

Lemma data_commands_ok (rq : request) : 0 <= now rq -> Forall Listpack.storable (argv rq) ->
  Forall (fun '(n, h, sp) => meets (now rq) h sp) (data_commands (ops:=ops) char_signed rq).
Proof.
  intros Ht Ha. unfold data_commands. repeat (apply Forall_app; split).
  - by apply string_commands_ok.
  - by apply HashCommands.hash_commands_ok.
  - by apply ListCommands.list_commands_ok.
  - by apply SetCommands.set_commands_ok.
  - by apply KeyspaceCommands.keyspace_commands_ok.
  - by apply ZSetCommands.zset_commands_ok.
  - by apply ZSetAlgebra.zset_algebra_ok.
Qed.

(** What [meets] says of a run. *)
Lemma meets_run (t : Z) (h : M D unit) (sp : spec) s g P : meets t h sp -> sim t s g -> sp g = Some P ->
  exists s' g1 g', h s = Some (s', tt) /\ sim t s' g1 /\ P g' /\ same g1 g'.
Proof.
  intros Hm Hs HP. destruct (wp_elim t h g _ s (Hm g P HP) Hs) as (s' & [] & g1 & He & Hs' & g' & HP' & Hg). by exists s', g1, g'.
Qed.

Lemma command_named_entry {E : Type -> Type} {eops : MapOps E} (rq : request) n h sp :
  command_named (D:=E) (ops:=eops) char_signed rq n = Some (h, sp) -> exists m, (m, h, sp) ∈ data_commands (ops:=eops) char_signed rq.
Proof.
  unfold command_named. destruct (list_find _ _) as [[i [[m h'] sp']]|] eqn:E1; [|done]. intros [= -> ->]. exists m.
  apply list_find_Some in E1 as (E1 & _). by eapply list_elem_of_lookup_2.
Qed.

(** The specification of a command does not depend on the table below it. *)
Lemma command_named_spec {E1 E2 : Type -> Type} {ops1 : MapOps E1} {ops2 : MapOps E2} (rq : request) n :
  snd <$> command_named (D:=E1) (ops:=ops1) char_signed rq n = snd <$> command_named (D:=E2) (ops:=ops2) char_signed rq n.
Proof.
  assert (forall (l1 : list (string * M E1 unit * spec)) (l2 : list (string * M E2 unit * spec)),
    map (fun e => (e.1.1, e.2)) l1 = map (fun e => (e.1.1, e.2)) l2 ->
    snd <$> match list_find (fun e : string * M E1 unit * spec => str e.1.1 = n) l1 with Some (_, (_, h, sp)) => Some (h, sp) | None => None end =
    snd <$> match list_find (fun e : string * M E2 unit * spec => str e.1.1 = n) l2 with Some (_, (_, h, sp)) => Some (h, sp) | None => None end) as H.
  { induction l1 as [|[[n1 h1] sp1] l1 IH]; intros [|[[n2 h2] sp2] l2]; [done|done|done|]. cbn [map fst snd]. intros [= -> -> Hl].
    cbn [list_find fst snd]. destruct (decide (str n2 = n)); [done|]. specialize (IH l2 Hl).
    destruct (list_find _ l1) as [[? [[? ?] ?]]|], (list_find _ l2) as [[? [[? ?] ?]]|]; exact IH. }
  apply H. reflexivity.
Qed.

(** ** Sessions *)

(** The server's tables at time [t], and what clients see. *)
Definition store_sim (t : Z) (st : store D) (A : keyspaces) : Prop :=
  (forall i, option_Forall2 (db_sim t ∅) (dbs st !! i) (ks A !! i)) /\
  k_dirty A = s_dirty st /\ k_hits A = s_hits st /\ k_misses A = s_misses st.

Lemma enter_sim (t : Z) (rq : request) (st : store D) (A : keyspaces) g : t <= now rq -> store_sim t st A -> enter_view rq A = Some g ->
  exists s, enter rq st = Some s /\ sim (now rq) s g.
Proof.
  intros Ht (Hd & H1 & H2 & H3) Hg. unfold enter_view, enter in *. pose proof (Hd (index rq)) as Hi.
  destruct (ks A !! index rq) as [G|] eqn:HG; [|done]. inversion Hi as [d ? Hdb Heq|]; subst. cbn [mbind option_bind] in *.
  apply (inj Some) in Hg. subst g. eexists. split; [reflexivity|]. split_and!; try done; cbn.
  - by eapply db_sim_later.
  - intros i. rewrite lookup_fmap. destruct (decide (i = index rq)) as [->|Hne]; [rewrite !lookup_delete_eq; constructor|].
    rewrite !lookup_delete_ne by done. destruct (Hd i); constructor. by eapply db_sim_later.
Qed.

Lemma leave_sim (rq : request) s g : sim (now rq) s g -> store_sim (now rq) (leave rq s) (leave_view rq g).
Proof.
  intros Hs. apply sim_unsettle in Hs as (H1 & H2 & H3 & H4 & H5 & H6 & H7). split_and!; try done. cbn. intros i.
  destruct (decide (i = index rq)) as [->|Hne]; [rewrite !lookup_insert_eq; by constructor|]. rewrite !lookup_insert_ne by done. apply H2.
Qed.

Lemma leave_view_same (rq : request) g g' : same g g' -> leave_view rq g = leave_view rq g'.
Proof. intros (? & ? & ? & ? & ? & ? & ?)%same_fields. unfold leave_view. congruence. Qed.

(** One request. *)
Lemma serve_ok (t : Z) (rq : request) (st : store D) (A : keyspaces) P :
  0 <= t -> t <= now rq -> Forall Listpack.storable (argv rq) -> store_sim t st A -> allowed char_signed rq A = Some P ->
  exists st' r l g, serve (ops:=ops) char_signed rq st = Some (st', (r, l)) /\ P g /\ r = out g /\ logged l = log g /\
    store_sim (now rq) st' (leave_view rq g).
Proof.
  intros H0 Ht Ha Hst HP. unfold allowed, spec_named in HP. unfold serve. destruct (argv rq !! 0%nat) as [word|]; [|done].
  cbn [mbind option_bind] in *. destruct (CommandTable.lookupCommand word) as [c|]; [|done]. cbn [mbind option_bind] in *.
  rewrite (command_named_spec (ops2:=ops)) in HP. destruct (command_named (D:=D) _ _ _) as [[h sp]|] eqn:Hn; [|done]. cbn in HP.
  apply command_named_entry in Hn as (m & Hm). destruct (enter_view rq A) as [g0|] eqn:Hg; [|done]. cbn in HP.
  destruct (enter_sim t rq st A g0 Ht Hst Hg) as (s & Hs & Hsim).
  pose proof (data_commands_ok rq ltac:(lia) Ha) as Hall. rewrite Forall_forall in Hall. specialize (Hall _ Hm).
  destruct (meets_run _ _ _ _ _ _ Hall Hsim HP) as (s' & g1 & g' & Hh & Hsim' & HP' & Hsame).
  cbn [mbind option_bind]. rewrite Hs. cbn [mbind option_bind]. rewrite Hh. cbn [mbind option_bind]. do 4 eexists. split; [reflexivity|].
  pose proof Hsim' as (_ & _ & Ho & Hl & _). apply same_fields in Hsame as Hf. destruct Hf as (_ & _ & Hf1 & Hf2 & _).
  split; [exact HP'|]. split; [congruence|]. split; [congruence|]. rewrite <- (leave_view_same rq g1 g' Hsame). by apply leave_sim.
Qed.

(** A whole session. *)
Lemma serve_all_ok (rs : list request) (t : Z) (st : store D) (A : keyspaces) :
  0 <= t -> timely t rs -> store_sim t st A -> defined char_signed rs A ->
  exists st' answers A' replies, serve_all (ops:=ops) char_signed rs st = Some (st', answers) /\ answered char_signed rs A replies A' /\
    map (fun a => (a.1, logged a.2)) answers = replies /\ store_sim (last_time t rs) st' A'.
Proof.
  revert t st A. induction rs as [|rq rs IH]; intros t st A H0 Ht Hst Hd; cbn [serve_all last_time]; [exists st, [], A, []; repeat split; [constructor|apply Hst..]|].
  destruct Ht as (Ht & Ha & Hts). inversion Hd as [|? ? ? P HP Hnext]; subst.
  destruct (serve_ok t rq st A P H0 Ht Ha Hst HP) as (st1 & r & l & g & -> & HPg & Hr & Hl & Hst1). cbn [mbind option_bind].
  destruct (IH (now rq) st1 (leave_view rq g)) as (st2 & answers & A' & replies & -> & Hans & Hmap & Hst2); [lia|done|done|by apply Hnext|].
  cbn [mbind option_bind]. exists st2, ((r, l) :: answers), A', ((out g, log g) :: replies). split; [done|]. split; [by econstructor|].
  split; [|done]. cbn [map fst snd]. congruence.
Qed.

(** ** The theorems *)

(** C3: Each of the twenty string commands (SET with all its options, GET, GETSET,
    GETDEL, GETEX, SETNX, SETEX, PSETEX, MSET, MSETNX, MGET, APPEND, STRLEN,
    INCR, DECR, INCRBY, DECRBY, SETRANGE, GETRANGE, SUBSTR) does to the tables
    exactly what its specification does to the keyspace clients see: whenever
    the specification is defined the handler runs to its end, and values,
    deadlines, reply, counters and announced events are those it prescribes,
    whatever the encodings and whichever keys have silently expired. *)
Theorem string_commands_refine (rq : request) n h sp (s : state D) g g' :
  0 <= now rq -> (n, h, sp) ∈ StringCommands.commands (ops:=ops) rq -> sim (now rq) s g -> sp g = Some g' ->
  exists s' g1, h s = Some (s', tt) /\ sim (now rq) s' g1 /\ same g1 g'.
Proof.
  intros Ht Hin Hs Hg. pose proof (StringCommands.commands_ok (ops:=ops) rq Ht) as Hall. rewrite Forall_forall in Hall. specialize (Hall _ Hin). cbn in Hall.
  destruct (wp_elim _ h g _ s (Hall g g' Hg) Hs) as (s' & [] & g1 & ? & ? & ?). by exists s', g1.
Qed.

(** C6: The hash commands implement their specifications over finite maps, whether
    the hash is a listpack or a table: a handler whose specification is defined
    runs to its end in a state related to one of the views it allows (the order
    of a listing and random picks are the only freedom), provided the arguments
    are short enough for a listpack's length field. *)
Theorem hash_commands_refine (rq : request) n h sp (s : state D) g P :
  Forall Listpack.storable (argv rq) -> (n, h, sp) ∈ HashCommands.commands (ops:=ops) rq -> sim (now rq) s g -> sp g = Some P ->
  exists s' g1 g', h s = Some (s', tt) /\ sim (now rq) s' g1 /\ P g' /\ same g1 g'.
Proof.
  intros Ha Hin. pose proof (HashCommands.hash_commands_ok (ops:=ops) rq Ha) as Hall. rewrite Forall_forall in Hall. specialize (Hall _ Hin). by apply meets_run.
Qed.

(** C7: The list commands (pushes, pops with counts, LMOVE and RPOPLPUSH within one
    list or across two, LRANGE, LINDEX, LSET, LREM, LTRIM, LPOS) implement their
    specifications over sequences of strings, whatever nodes hold them; a list
    that becomes empty disappears and is announced as deleted. The
    specifications leave out LREM and LPOS with -2^63, whose negation
    overflows, and the arguments fit a listpack's length field. *)
Theorem list_commands_refine (rq : request) n h sp (s : state D) g P :
  Forall Listpack.storable (argv rq) -> (n, h, sp) ∈ ListCommands.commands (ops:=ops) rq -> sim (now rq) s g -> sp g = Some P ->
  exists s' g1 g', h s = Some (s', tt) /\ sim (now rq) s' g1 /\ P g' /\ same g1 g'.
Proof.
  intros Ha Hin. pose proof (ListCommands.list_commands_ok (ops:=ops) rq Ha) as Hall. rewrite Forall_forall in Hall. specialize (Hall _ Hin). by apply meets_run.
Qed.

(** C8: The set commands implement their specifications over finite sets, in all
    three encodings: SINTER, SUNION and SDIFF and their STORE forms compute the
    set-theoretic operation of what their keys hold, SINTERCARD its size up to
    the limit, SPOP removes what it returns, SMOVE moves. The handler runs to
    its end whenever its specification is defined, which leaves out
    SRANDMEMBER with a count of -2^63, whose negation overflows. The
    announcements are those the handler makes, in the order it makes them:
    SMOVE announces srem of the source, and its del when that empties it,
    before sadd of the destination, which is the code's order and not the one
    AGENT.md gives, destination first ([smove_announces_source_first]). *)
Theorem set_commands_refine (rq : request) n h sp (s : state D) g P :
  (n, h, sp) ∈ SetCommands.commands (ops:=ops) rq -> sim (now rq) s g -> sp g = Some P ->
  exists s' g1 g', h s = Some (s', tt) /\ sim (now rq) s' g1 /\ P g' /\ same g1 g'.
Proof.
  intros Hin. pose proof (SetCommands.set_commands_ok (ops:=ops) rq) as Hall. rewrite Forall_forall in Hall. specialize (Hall _ Hin). by apply meets_run.
Qed.

(** C4: The commands on keys (DEL, UNLINK, EXISTS, TYPE, TOUCH, KEYS, RANDOMKEY,
    RENAME, RENAMENX, COPY between databases, the EXPIRE, TTL and EXPIRETIME
    families and PERSIST) implement their specifications: deadlines travel with
    values, expired keys are never shown or counted, and a deadline in the past
    deletes. A handler runs to its end whenever its specification is defined:
    COPY of a hash field of 2^32 bytes and TTL of a deadline within half a
    second of 2^63 are left out. *)
Theorem keyspace_commands_refine (rq : request) n h sp (s : state D) g P :
  0 <= now rq -> (n, h, sp) ∈ KeyspaceCommands.commands (ops:=ops) char_signed rq -> sim (now rq) s g -> sp g = Some P ->
  exists s' g1 g', h s = Some (s', tt) /\ sim (now rq) s' g1 /\ P g' /\ same g1 g'.
Proof.
  intros Ht Hin. pose proof (KeyspaceCommands.keyspace_commands_ok (ops:=ops) char_signed rq Ht) as Hall. rewrite Forall_forall in Hall.
  specialize (Hall _ Hin). by apply meets_run.
Qed.

(** C5: The sorted-set commands (ZADD with its flags, ZINCRBY, removals, the whole
    ZRANGE family by rank, score and member with limits and reversal, counts,
    pops, ZMPOP, ZRANGESTORE, ZRANDMEMBER, and the unions, intersections and
    differences of sorted and plain sets with weights and aggregates) implement
    their specifications over lists sorted by (score, member), in both
    encodings, scores being IEEE doubles up to the sign of zero. A handler runs
    to its end whenever its specification is defined, which leaves out a count
    of -2^63 and sorted sets of 2^64 members. *)
Theorem zset_commands_refine (rq : request) n h sp (s : state D) g P :
  (n, h, sp) ∈ ZSetCommands.commands (ops:=ops) rq ++ ZSetAlgebra.commands rq -> sim (now rq) s g -> sp g = Some P ->
  exists s' g1 g', h s = Some (s', tt) /\ sim (now rq) s' g1 /\ P g' /\ same g1 g'.
Proof.
  intros Hin. pose proof (Forall_app_2 _ _ _ (ZSetCommands.zset_commands_ok (ops:=ops) rq) (ZSetAlgebra.zset_algebra_ok (ops:=ops) rq)) as Hall. rewrite Forall_forall in Hall. specialize (Hall _ Hin). by apply meets_run.
Qed.

(** C2: A whole session is answered as the specifications say: for any sequence of
    data commands on any of the server's databases, with a clock that never
    goes back, starting from tables that represent some keyspaces, the server
    runs every request to its end, and the replies and announcements are those
    of a run of the specifications, in which a key disappears when its deadline
    passes and every command acts on what the earlier ones left. It holds for
    sessions that are [defined]: every request names a data command (those of
    [data_commands]) with the arguments its arity asks for and a database that
    exists, and, after whatever the earlier requests may have left, does not
    meet an input for which the code overflows a signed integer (SRANDMEMBER,
    HRANDFIELD, ZRANDMEMBER, LREM or LPOS with -2^63, SET with a PX near 2^63,
    SETRANGE with an offset near 2^63, TTL of a deadline near 2^63) or a value
    of 2^32 bytes or 2^64 elements; and every argument fits the length field
    of a listpack. The announcements compared are those the handlers make
    themselves, in the code's order (for SMOVE the source before the
    destination, where AGENT.md has them the other way round); the new and
    expired events that the database raises through its callbacks are not
    compared. *)
Theorem session_refines (rs : list request) (t : Z) (st : store D) (A : keyspaces) :
  0 <= t -> timely t rs -> store_sim t st A -> defined char_signed rs A ->
  exists st' answers A', serve_all (ops:=ops) char_signed rs st = Some (st', answers) /\
    answered char_signed rs A (map (fun a => (a.1, logged a.2)) answers) A' /\ store_sim (last_time t rs) st' A'.
Proof.
  intros H0 Ht Hst Hd. destruct (serve_all_ok rs t st A H0 Ht Hst Hd) as (st' & answers & A' & replies & ? & ? & <- & ?). by exists st', answers, A'.
Qed.

End Refinement.

(** ** A small server *)

#[local] Existing Instance Dict.dict_ops.
#[local] Existing Instance Dict.dict_laws.

Module Demo.
Definition rq (t : Z) (words : list string) : request := mkReq (map str words) t 2 0 16 (fun _ _ _ _ => 0).

Definition start : state Dict.dict :=
  mkState Db.new {[1 := Db.new]} [] 0 0 0 [] 0.
Definition start_view : view := mkView ∅ {[1 := ∅]} [] [] 0 0 0 ∅.

Lemma new_sim t C : db_sim t C Db.new ∅.
Proof.
  split; [done|]. split; [done|]. exists ∅, ∅. split; [apply (Db.db_holds_new)|]. intros j. rewrite !lookup_empty. by left.
Qed.

Lemma start_sim t : sim t start start_view.
Proof.
  split; [apply new_sim|]. split; [|done]. intros i. cbn. destruct (decide (i = 1)) as [->|Hi].
  - rewrite !lookup_singleton_eq. constructor. apply new_sim.
  - rewrite !lookup_singleton_ne by done. constructor.
Qed.

Definition servers : store Dict.dict :=
  mkStore {[0 := Db.new; 1 := Db.new]} 0 0 0.
Definition spaces : keyspaces := mkKeyspaces {[0 := ∅; 1 := ∅]} 0 0 0.

Lemma servers_sim t : store_sim t servers spaces.
Proof.
  split; [|done]. intros i. cbn. destruct (decide (i = 0)) as [->|H0]; [rewrite !lookup_insert_eq; constructor; apply new_sim|].
  rewrite !lookup_insert_ne by done. destruct (decide (i = 1)) as [->|Hi].
  - rewrite !lookup_singleton_eq. constructor. apply new_sim.
  - rewrite !lookup_singleton_ne by done. constructor.
Qed.
End Demo.

(** SMOVE of the last member of [a] announces what happens to [a] before what
    happens to [b]. *)
Lemma smove_announces_source_first :
  let rs := [Demo.rq 5 ["SADD"; "a"; "m"]%string; Demo.rq 6 ["SMOVE"; "a"; "b"; "m"]%string] in
  (fun r => map (fun a => (fun e => (e.1.1.2, e.1.2)) <$> logged a.2) r.2) <$> serve_all true rs Demo.servers =
    Some [[(str "sadd", str "a")];
          [(str "srem", str "a"); (str "del", str "a"); (str "sadd", str "b")]].
Proof. vm_compute. reflexivity. Qed.

Lemma string_commands_refine_witness :
  let rq := Demo.rq 5 ["SET"; "k"; "v"; "PX"; "100"]%string in
  exists s' g1, StringCommands.set rq Demo.start = Some (s', tt) /\ sim 5 s' g1 /\
    K g1 !! str "k" = Some (AStr (str "v"), Some 105).
Proof.
  intros rq. edestruct (string_commands_refine rq "set" (StringCommands.set rq) (StringCommands.spec_set rq) Demo.start
    Demo.start_view) as (s' & g1 & H1 & H2 & H3).
  - done.
  - apply (list_elem_of_lookup_2 _ 0). reflexivity.
  - apply Demo.start_sim.
  - reflexivity.
  - exists s', g1. split; [exact H1|]. split; [exact H2|]. apply same_fields in H3 as [-> _]. vm_compute. reflexivity.
Defined.

Lemma hash_commands_refine_witness :
  let rq := Demo.rq 5 ["HSET"; "k"; "f"; "v"; "g"; "w"]%string in
  exists s' g1, HashCommands.hset rq Demo.start = Some (s', tt) /\ sim 5 s' g1 /\
    K g1 !! str "k" = Some (AHash {[str "f" := str "v"; str "g" := str "w"]}, None).
Proof.
  intros rq. edestruct (hash_commands_refine rq "hset" (HashCommands.hset rq) (HashCommands.spec_hset rq) Demo.start
    Demo.start_view) as (s' & g1 & g' & H1 & H2 & H3 & H4).
  - repeat constructor; vm_compute; done.
  - apply (list_elem_of_lookup_2 _ 0). reflexivity.
  - apply Demo.start_sim.
  - reflexivity.
  - exists s', g1. split; [exact H1|]. split; [exact H2|]. apply same_fields in H4 as [-> _]. cbv beta in H3. rewrite H3. vm_compute. reflexivity.
Defined.

Lemma list_commands_refine_witness :
  let rq := Demo.rq 5 ["LPUSH"; "k"; "a"; "b"]%string in
  exists s' g1, ListCommands.lpush rq Demo.start = Some (s', tt) /\ sim 5 s' g1 /\
    K g1 !! str "k" = Some (AList [str "b"; str "a"], None).
Proof.
  intros rq. edestruct (list_commands_refine rq "lpush" (ListCommands.lpush rq) (ListCommands.spec_push rq true false) Demo.start
    Demo.start_view) as (s' & g1 & g' & H1 & H2 & H3 & H4).
  - repeat constructor; vm_compute; done.
  - apply (list_elem_of_lookup_2 _ 0). reflexivity.
  - apply Demo.start_sim.
  - reflexivity.
  - exists s', g1. split; [exact H1|]. split; [exact H2|]. apply same_fields in H4 as [-> _]. cbv beta in H3. rewrite H3. vm_compute. reflexivity.
Defined.

Lemma set_commands_refine_witness :
  let rq := Demo.rq 5 ["SADD"; "k"; "a"; "7"; "a"]%string in
  exists s' g1, SetCommands.sadd rq Demo.start = Some (s', tt) /\ sim 5 s' g1 /\
    K g1 !! str "k" = Some (ASet {[str "a"; str "7"]}, None).
Proof.
  intros rq. edestruct (set_commands_refine rq "sadd" (SetCommands.sadd rq) (SetCommands.spec_sadd rq) Demo.start
    Demo.start_view) as (s' & g1 & g' & H1 & H2 & H3 & H4).
  - apply (list_elem_of_lookup_2 _ 0). reflexivity.
  - apply Demo.start_sim.
  - reflexivity.
  - exists s', g1. split; [exact H1|]. split; [exact H2|]. apply same_fields in H4 as [-> _]. cbv beta in H3. rewrite H3. vm_compute. reflexivity.
Defined.

Lemma keyspace_commands_refine_witness :
  let rq := Demo.rq 5 ["EXISTS"; "k"; "k"]%string in
  exists s' g1, KeyspaceCommands.exists__ rq Demo.start = Some (s', tt) /\ sim 5 s' g1 /\
    out g1 = Reply.integer 0.
Proof.
  intros rq. edestruct (keyspace_commands_refine true rq "exists" (KeyspaceCommands.exists__ rq) (KeyspaceCommands.spec_exists rq)
    Demo.start Demo.start_view) as (s' & g1 & g' & H1 & H2 & H3 & H4).
  - done.
  - apply (list_elem_of_lookup_2 _ 2). reflexivity.
  - apply Demo.start_sim.
  - reflexivity.
  - exists s', g1. split; [exact H1|]. split; [exact H2|]. apply same_fields in H4 as (_ & _ & -> & _). cbv beta in H3. rewrite H3. vm_compute. reflexivity.
Defined.

Lemma zset_commands_refine_witness :
  let rq := Demo.rq 5 ["ZADD"; "k"; "2"; "b"; "1"; "a"]%string in
  exists s' g1, ZSetCommands.zadd rq Demo.start = Some (s', tt) /\ sim 5 s' g1 /\
    K g1 !! str "k" = Some (AZSet [(str "a", Double.of_int64 1); (str "b", Double.of_int64 2)], None).
Proof.
  intros rq. edestruct (zset_commands_refine rq "zadd" (ZSetCommands.zadd rq) (ZSetCommands.spec_zadd rq)
    Demo.start Demo.start_view) as (s' & g1 & g' & H1 & H2 & H3 & H4).
  - apply (list_elem_of_lookup_2 _ 0). reflexivity.
  - apply Demo.start_sim.
  - vm_compute. reflexivity.
  - exists s', g1. split; [exact H1|]. split; [exact H2|]. apply same_fields in H4 as [-> _]. cbv beta in H3. rewrite H3. vm_compute. reflexivity.
Defined.

Lemma session_refines_witness :
  let rs := [Demo.rq 5 ["SET"; "k"; "v"; "PX"; "100"]%string; Demo.rq 50 ["COPY"; "k"; "j"; "DB"; "1"]%string; Demo.rq 105 ["GET"; "k"]%string] in
  exists st' answers A', serve_all true rs Demo.servers = Some (st', answers) /\
    answered true rs Demo.spaces (map (fun a => (a.1, logged a.2)) answers) A' /\ store_sim 105 st' A'.
Proof.
  intros rs. apply (session_refines true rs 0 Demo.servers Demo.spaces).
  - done.
  - cbn. split_and!; [done| |done| |done| |done]; repeat (apply Forall_cons; split; [vm_compute; done|]); by apply Forall_nil.
  - apply Demo.servers_sim.
  - repeat (eapply defined_cons; [vm_compute; reflexivity|]; intros g ->). apply defined_nil.
Defined.
End Commands.
