(* ===== verification/Transaction.v ===== *)
(** * Transaction: dispatch, MULTI/EXEC and WATCH

    [Server::dispatch], [Server::callCommand], the watch index of
    [src/server/server.cpp] and [src/server/commands/transaction_commands.cpp].
    What an ordinary command does to the keyspace is a parameter ([handler]):
    its new data, the session it leaves its client in, the modifications it
    announces through [notifyKeyspaceEvent], and its reply. Everything that
    decides whether, when and in what order such a command runs is modelled. *)

From Stdlib Require Import ZArith Lia.
From stdpp Require Import base list numbers option strings gmap sets.
From S2P Require Import Prelude Strings Reply CommandTable.
Import CommandTable.

Module Transaction.

(** ** State *)

(** [Client::WatchedKey] *)
Record WatchedKey := mkWatched { w_db : Z; w_key : bytes; w_expired : bool }.

(** The fields of [Client] its own commands may change: the selected database,
    the protocol version, whether it has authenticated, and whether it holds
    any subscription. *)
Record session := mkSession { db_index_ : Z; protover_ : Z; authenticated_ : bool; subscriber_mode : bool }.

(** The session and the MULTI state. *)
Record client := mkClient {
  session_ : session;
  in_multi_ : bool; multi_error_ : bool; dirty_cas_ : bool;
  multi_queue_ : list (list bytes); watched_keys_ : list WatchedKey }.

(** A modification announced by a command: database, key, and whether it is a
    key dying of its TTL. *)
Definition signal : Type := Z * bytes * bool.

Definition set_session (x : session) (c : client) : client :=
  mkClient x (in_multi_ c) (multi_error_ c) (dirty_cas_ c) (multi_queue_ c) (watched_keys_ c).
Definition set_watched (w : list WatchedKey) (c : client) : client :=
  mkClient (session_ c) (in_multi_ c) (multi_error_ c) (dirty_cas_ c) (multi_queue_ c) w.
Definition set_dirty (d : bool) (c : client) : client :=
  mkClient (session_ c) (in_multi_ c) (multi_error_ c) d (multi_queue_ c) (watched_keys_ c).
Definition queueCommand (argv : list bytes) (c : client) : client :=
  mkClient (session_ c) (in_multi_ c) (multi_error_ c) (dirty_cas_ c) (multi_queue_ c ++ [argv]) (watched_keys_ c).
Definition flagMultiError (c : client) : client :=
  mkClient (session_ c) (in_multi_ c) true (dirty_cas_ c) (multi_queue_ c) (watched_keys_ c).
Definition beginMulti (c : client) : client :=
  mkClient (session_ c) true (multi_error_ c) (dirty_cas_ c) (multi_queue_ c) (watched_keys_ c).
Definition resetMultiState (c : client) : client :=
  mkClient (session_ c) false false false [] (watched_keys_ c).

Section server.
Context {D : Type}.

(** What an ordinary handler returns. *)
Record outcome := mkOutcome { o_data : D; o_session : session; o_signals : list signal; o_reply : bytes }.

(** The handler of an ordinary command, by its name: the time, the keyspace,
    the client's session and the arguments. *)
Context (handler : bytes -> Z -> D -> session -> list bytes -> outcome).
(** [db(i).expireAtMs(key)]: negative when the key has no TTL. *)
Context (expireAtMs : D -> Z -> bytes -> Z).
(** Whether [config_.requirepass] is set, which CONFIG SET can change. *)
Context (requirepass : D -> bool).

Record server := mkServer { data : D; clients_ : gmap Z client; watch_index : gmap (Z * bytes) (gset Z) }.

Definition set_client (fd : Z) (c : client) (s : server) : server :=
  mkServer (data s) (<[fd := c]> (clients_ s)) (watch_index s).

(** ** The watch index *)

Definition same_key (db : Z) (key : bytes) (w : WatchedKey) : bool := (w_db w =? db) && (w_key w =b? key).

Definition watchKey (now : Z) (fd : Z) (key : bytes) (s : server) : server :=
  match clients_ s !! fd with
  | None => s
  | Some c =>
      let db := db_index_ (session_ c) in
      if existsb (same_key db key) (watched_keys_ c) then s
      else
        let expires_at := expireAtMs (data s) db key in
        let c := set_watched (watched_keys_ c ++ [mkWatched db key ((0 <=? expires_at) && (expires_at <=? now))]) c in
        mkServer (data s) (<[fd := c]> (clients_ s))
          (<[(db, key) := {[fd]} ∪ default ∅ (watch_index s !! (db, key))]> (watch_index s))
  end.

Definition unwatchOne (fd : Z) (index : gmap (Z * bytes) (gset Z)) (w : WatchedKey) : gmap (Z * bytes) (gset Z) :=
  match index !! (w_db w, w_key w) with
  | None => index
  | Some l =>
      let l' := l ∖ {[fd]} in
      if decide (l' = ∅) then delete (w_db w, w_key w) index else <[(w_db w, w_key w) := l']> index
  end.

Definition unwatchAllKeys (fd : Z) (s : server) : server :=
  match clients_ s !! fd with
  | None => s
  | Some c =>
      mkServer (data s) (<[fd := set_watched [] c]> (clients_ s))
        (foldl (unwatchOne fd) (watch_index s) (watched_keys_ c))
  end.

Definition update (f : client -> client) (fd : Z) (s : server) : server :=
  mkServer (data s) (alter f fd (clients_ s)) (watch_index s).

Definition discardTransaction (fd : Z) (s : server) : server :=
  unwatchAllKeys fd (update resetMultiState fd s).

(** What [signalModifiedKey] does to one watcher. *)
Definition touch (db : Z) (key : bytes) (from_expiry : bool) (c : client) : client :=
  let seen w := same_key db key w && w_expired w in
  if from_expiry && existsb seen (watched_keys_ c)
  then set_watched (map (fun w => if seen w then mkWatched (w_db w) (w_key w) false else w) (watched_keys_ c)) c
  else set_dirty true c.

Definition signalModifiedKey (s : server) (sg : signal) : server :=
  let '(db, key, from_expiry) := sg in
  match watch_index s !! (db, key) with
  | None => s
  | Some fds => foldl (fun s fd => update (touch db key from_expiry) fd s) s (elements fds)
  end.

Definition signals (sgs : list signal) (s : server) : server := foldl signalModifiedKey s sgs.

(** ** The transaction commands *)

Definition ok_reply : bytes := Reply.simpleString (str "OK").

(** What a call leaves behind: the server, the reply, and the modifications it
    announced. *)
Definition effect : Type := server * bytes * list signal.
Definition quietly (x : server * bytes) : effect := (x, []).

(** A command of the keyspace, and UNWATCH, which runs like one. *)
Definition callOrdinary (now fd : Z) (n : bytes) (argv : list bytes) (s : server) : effect :=
  match clients_ s !! fd with
  | None => quietly (s, [])
  | Some c =>
      if n =b? str "unwatch" then quietly (update (set_dirty false) fd (unwatchAllKeys fd s), ok_reply)
      else
        let o := handler n now (data s) (session_ c) argv in
        (signals (o_signals o) (mkServer (o_data o) (<[fd := set_session (o_session o) c]> (clients_ s)) (watch_index s)),
         o_reply o, o_signals o)
  end.

(** The loop of EXEC. [None]: a null [spec] is dereferenced, or a command that
    steers transactions was queued. *)
Fixpoint runQueue (now fd : Z) (queue : list (list bytes)) (s : server) : option effect :=
  match queue with
  | [] => Some (s, [], [])
  | argv :: queue =>
      match argv with
      | [] => None
      | word :: _ =>
          match lookupCommand word with
          | None => None
          | Some spec =>
              if isTransactionControl (name spec) then None
              else
                let '(s, reply, sgs) := callOrdinary now fd (name spec) argv s in
                match runQueue now fd queue s with
                | None => None
                | Some (s, replies, sgs') => Some (s, reply ++ replies, sgs ++ sgs')
                end
          end
      end
  end.

Definition exec (now fd : Z) (c : client) (s : server) : option effect :=
  if negb (in_multi_ c) then Some (quietly (s, Reply.error (str "ERR EXEC without MULTI")))
  else if multi_error_ c then
    Some (quietly (discardTransaction fd s,
                   Reply.error (str "EXECABORT Transaction discarded because of previous errors.")))
  else if dirty_cas_ c then Some (quietly (discardTransaction fd s, Reply.nullArray (protover_ (session_ c))))
  else
    let queued := multi_queue_ c in
    match runQueue now fd queued (discardTransaction fd s) with
    | None => None
    | Some (s, replies, sgs) => Some (s, Reply.arrayHeader (i64 (Z.of_nat (length queued))) ++ replies, sgs)
    end.

Definition multi (fd : Z) (c : client) (s : server) : server * bytes :=
  if in_multi_ c then (s, Reply.error (str "ERR MULTI calls can not be nested"))
  else (update beginMulti fd s, ok_reply).

Definition discard (fd : Z) (c : client) (s : server) : server * bytes :=
  if negb (in_multi_ c) then (s, Reply.error (str "ERR DISCARD without MULTI"))
  else (discardTransaction fd s, ok_reply).

Definition watch (now fd : Z) (c : client) (argv : list bytes) (s : server) : server * bytes :=
  if in_multi_ c then (s, Reply.error (str "ERR WATCH inside MULTI is not allowed"))
  else (foldl (fun s key => watchKey now fd key s) s (tail argv), ok_reply).

(** RESET, as far as transactions and dispatch see it. *)
Definition reset (fd : Z) (s : server) : server * bytes :=
  let s := discardTransaction fd s in
  (update (set_session (mkSession 0 2 (negb (requirepass (data s))) false)) fd s,
   Reply.simpleString (str "RESET")).

Definition callCommand (now fd : Z) (c : client) (spec : CommandSpec) (argv : list bytes) (s : server)
    : option effect :=
  let n := name spec in
  if n =b? str "multi" then Some (quietly (multi fd c s))
  else if n =b? str "exec" then exec now fd c s
  else if n =b? str "discard" then Some (quietly (discard fd c s))
  else if n =b? str "watch" then Some (quietly (watch now fd c argv s))
  else if n =b? str "quit" then Some (quietly (s, ok_reply))
  else if n =b? str "reset" then Some (quietly (reset fd s))
  else Some (callOrdinary now fd n argv s).

(** ** Dispatch *)

(** The arguments quoted back for an unknown command. *)
Definition kUnknownCommandArgsLimit : nat := 128.
Fixpoint quote_args (args : bytes) (rest : list bytes) : bytes :=
  match rest with
  | [] => args
  | a :: rest =>
      if (length args <? kUnknownCommandArgsLimit)%nat
      then
        let args := args ++ [39] in
        quote_args (args ++ take (kUnknownCommandArgsLimit - length args) a ++ str "' ") rest
      else args
  end.

(** The [reject] lambda. *)
Definition reject (fd : Z) (c : client) (spec : option CommandSpec) (code text : bytes) (s : server) : server * bytes :=
  let s := if in_multi_ c then update flagMultiError fd s else s in
  if match spec with Some sp => name sp =b? str "exec" | None => false end
  then (discardTransaction fd s, Reply.error (str "EXECABORT Transaction discarded because of: " ++ text))
  else (s, Reply.error (code ++ str " " ++ text)).

(** A command that passed every check is run, or queued inside MULTI. *)
Definition run_or_queue (now fd : Z) (c : client) (spec : CommandSpec) (argv : list bytes) (s : server)
    : option effect :=
  if in_multi_ c && negb (isTransactionControl (name spec))
  then Some (quietly (update (queueCommand argv) fd s, Reply.simpleString (str "QUEUED")))
  else callCommand now fd c spec argv s.

Definition dispatch (now fd : Z) (argv : list bytes) (s : server) : option effect :=
  match clients_ s !! fd, argv with
  | Some c, word :: args =>
      match lookupCommand word with
      | None =>
          Some (quietly (reject fd c None (str "ERR")
            (str "unknown command '" ++ word ++ str "', with args beginning with: " ++ quote_args [] args) s))
      | Some spec =>
          if negb (arityOk spec (length argv)) then Some (quietly (reject fd c (Some spec) (str "ERR") (wrongArgsText (name spec)) s))
          else if requirepass (data s) && negb (authenticated_ (session_ c)) && (Z.land (flags spec) kNoAuth =? 0)
          then Some (quietly (reject fd c (Some spec) (str "NOAUTH") (str "Authentication required.") s))
          else if (protover_ (session_ c) =? 2) && subscriber_mode (session_ c) && negb (isAllowedInSubscriberMode (name spec))
          then
            let named := if negb (Z.land (flags spec) kContainer =? 0) && (1 <? length argv)%nat
                         then name spec ++ str "|" ++ toLower (args !!! 0%nat) else name spec in
            Some (quietly (reject fd c (Some spec) (str "ERR") (subscriberModeText named) s))
          else run_or_queue now fd c spec argv s
      end
  | _, _ => Some (quietly (s, []))
  end.

(** ** The index and the clients agree *)

Definition watches (db : Z) (key : bytes) (c : client) : bool := existsb (same_key db key) (watched_keys_ c).
Definition watchers (db : Z) (key : bytes) (s : server) : gset Z := default ∅ (watch_index s !! (db, key)).

Definition index_agrees (s : server) : Prop :=
  (forall db key fd, fd ∈ watchers db key s <-> exists c, clients_ s !! fd = Some c /\ watches db key c = true) /\
  (forall k, watch_index s !! k <> Some ∅).

Lemma fold_update (f : client -> client) (l : list Z) (s : server) :
  NoDup l ->
  let s' := foldl (fun s fd => update f fd s) s l in
  data s' = data s /\ watch_index s' = watch_index s /\
  forall fd, clients_ s' !! fd = if decide (fd ∈ l) then f <$> clients_ s !! fd else clients_ s !! fd.
Proof.
  intros Hl. revert s. induction Hl as [|x l Hx _ IH]; intros s; cbn [foldl].
  { split; [done|]. split; [done|]. intros fd. by rewrite decide_False by set_solver. }
  destruct (IH (update f x s)) as (H1 & H2 & H3). split; [done|]. split; [done|]. intros fd. rewrite H3.
  cbn [update clients_]. destruct (decide (fd = x)) as [->|Hne].
  - rewrite decide_False by done. rewrite decide_True by set_solver. by rewrite lookup_alter_eq.
  - rewrite lookup_alter_ne by done. by destruct (decide (fd ∈ l)); [rewrite decide_True by set_solver|rewrite decide_False by set_solver].
Qed.

(** The effect of a signal: every watcher is touched, nobody else changes. *)
Lemma signal_effect (s : server) (db : Z) (key : bytes) (fe : bool) :
  let s' := signalModifiedKey s (db, key, fe) in
  data s' = data s /\ watch_index s' = watch_index s /\
  forall fd, clients_ s' !! fd =
    if decide (fd ∈ watchers db key s) then touch db key fe <$> clients_ s !! fd else clients_ s !! fd.
Proof.
  unfold signalModifiedKey, watchers. destruct (watch_index s !! (db, key)) as [l|]; cbn [default from_option id].
  - destruct (fold_update (touch db key fe) (elements l) s (NoDup_elements l)) as (H1 & H2 & H3).
    split; [done|]. split; [done|]. intros fd. rewrite H3.
    by destruct (decide (fd ∈ l)); [rewrite decide_True by set_solver|rewrite decide_False by set_solver].
  - split; [done|]. split; [done|]. intros fd. by rewrite decide_False by set_solver.
Qed.

Lemma watches_touch db key db' key' fe c : watches db key (touch db' key' fe c) = watches db key c.
Proof.
  unfold watches, touch. destruct (fe && _); [|done]. cbn [watched_keys_ set_watched].
  induction (watched_keys_ c) as [|w l IH]; [done|]. cbn [map existsb]. f_equal; [|exact IH].
  by destruct (same_key db' key' w && w_expired w).
Qed.

(** Changing clients without changing what they watch keeps the agreement. *)
Lemma agrees_same_watches (s s' : server) :
  index_agrees s -> watch_index s' = watch_index s ->
  (forall fd db key, (watches db key <$> clients_ s' !! fd) = (watches db key <$> clients_ s !! fd)) ->
  index_agrees s'.
Proof.
  intros [H1 H2] Hi Hw. split; [|by rewrite Hi]. intros db key fd. unfold watchers. rewrite Hi.
  change (default ∅ (watch_index s !! (db, key))) with (watchers db key s). rewrite H1.
  specialize (Hw fd db key). destruct (clients_ s !! fd), (clients_ s' !! fd); cbn in Hw; simplify_eq; naive_solver.
Qed.

Lemma agrees_signal (s : server) (sg : signal) : index_agrees s -> index_agrees (signalModifiedKey s sg).
Proof.
  destruct sg as [[db key] fe]. intros Hs. destruct (signal_effect s db key fe) as (_ & H2 & H3).
  apply (agrees_same_watches s); [done|done|]. intros fd db' key'. rewrite H3. case_decide; [|done].
  destruct (clients_ s !! fd); cbn; [|done]. f_equal. apply watches_touch.
Qed.

Lemma agrees_signals (sgs : list signal) (s : server) : index_agrees s -> index_agrees (signals sgs s).
Proof.
  unfold signals. revert s. induction sgs as [|sg sgs IH]; intros s Hs; [done|]. cbn [foldl]. by apply IH, agrees_signal.
Qed.

Lemma agrees_update (f : client -> client) (fd : Z) (s : server) :
  (forall c, watched_keys_ (f c) = watched_keys_ c) -> index_agrees s -> index_agrees (update f fd s).
Proof.
  intros Hf Hs. apply (agrees_same_watches s); [done|done|]. intros fd' db key. cbn [update clients_].
  destruct (decide (fd' = fd)) as [->|Hne]; [|by rewrite lookup_alter_ne].
  rewrite lookup_alter_eq. destruct (clients_ s !! fd); cbn; [|done]. f_equal. unfold watches. by rewrite Hf.
Qed.

Lemma same_key_refl db key e : same_key db key (mkWatched db key e) = true.
Proof. unfold same_key. cbn [w_db w_key]. by rewrite Z.eqb_refl, bool_decide_true. Qed.

Lemma agrees_watchKey (now fd : Z) (key : bytes) (s : server) : index_agrees s -> index_agrees (watchKey now fd key s).
Proof.
  intros [H1 H2]. unfold watchKey. destruct (clients_ s !! fd) as [c|] eqn:Hc; [|done].
  destruct (existsb _ (watched_keys_ c)) eqn:He; [done|]. set (db := db_index_ (session_ c)) in *. split.
  - intros db' key' fd'. unfold watchers. cbn [watch_index clients_].
    destruct (decide ((db', key') = (db, key))) as [[= -> ->]|Hk].
    + rewrite lookup_insert_eq. cbn [default from_option id]. rewrite elem_of_union, elem_of_singleton.
      change (default ∅ (watch_index s !! (db, key))) with (watchers db key s). rewrite H1.
      destruct (decide (fd' = fd)) as [->|Hf].
      * rewrite lookup_insert_eq. split; [|by left]. intros _. eexists. split; [done|].
        unfold watches. cbn [watched_keys_ set_watched]. rewrite existsb_app. cbn [existsb].
        by rewrite same_key_refl, orb_true_r.
      * rewrite lookup_insert_ne by done. naive_solver.
    + rewrite lookup_insert_ne by done.
      change (default ∅ (watch_index s !! (db', key'))) with (watchers db' key' s). rewrite H1.
      destruct (decide (fd' = fd)) as [->|Hf]; [|by rewrite lookup_insert_ne].
      rewrite lookup_insert_eq, Hc. unfold watches.
      assert (same_key db' key' (mkWatched db key ((0 <=? expireAtMs (data s) db key) && (expireAtMs (data s) db key <=? now))) = false) as Hs.
      { unfold same_key. cbn [w_db w_key]. destruct (Z.eqb_spec db db') as [->|]; [|done].
        rewrite bool_decide_false; [done|]. by intros ->. }
      split; intros (c' & [= <-] & Hw); eexists; (split; [done|]); cbn [watched_keys_ set_watched] in *;
        rewrite ?existsb_app in *; cbn [existsb] in *; rewrite ?Hs, ?orb_false_r in *; done.
  - intros k. cbn [watch_index]. destruct (decide (k = (db, key))) as [->|Hk]; [|by rewrite lookup_insert_ne].
    rewrite lookup_insert_eq. intros [=]. set_solver.
Qed.

Lemma same_key_true db key w : same_key db key w = true <-> w_db w = db /\ w_key w = key.
Proof. unfold same_key. rewrite andb_true_iff, Z.eqb_eq, bool_decide_eq_true. done. Qed.

Lemma unwatchOne_members (fd : Z) (index : gmap (Z * bytes) (gset Z)) (w : WatchedKey) (db : Z) (key : bytes) (f : Z) :
  f ∈ default ∅ (unwatchOne fd index w !! (db, key)) <->
  f ∈ default ∅ (index !! (db, key)) /\ ~ (f = fd /\ same_key db key w = true).
Proof.
  rewrite same_key_true. unfold unwatchOne. destruct (decide ((w_db w, w_key w) = (db, key))) as [He|Hne].
  - rewrite He. destruct (index !! (db, key)) as [l|] eqn:E; cbn [default from_option id]; [|rewrite E; cbn; set_solver].
    injection He as -> ->. case_decide as Hd; [rewrite lookup_delete_eq|rewrite lookup_insert_eq]; cbn; set_solver.
  - destruct (index !! (w_db w, w_key w)) as [l|]; [case_decide|].
    + rewrite lookup_delete_ne by done. naive_solver.
    + rewrite lookup_insert_ne by done. naive_solver.
    + naive_solver.
Qed.

Lemma unwatchOne_nonempty (fd : Z) (index : gmap (Z * bytes) (gset Z)) (w : WatchedKey) :
  (forall k, index !! k <> Some ∅) -> forall k, unwatchOne fd index w !! k <> Some ∅.
Proof.
  intros Hne k. unfold unwatchOne. destruct (index !! (w_db w, w_key w)) as [l|]; [|done].
  destruct (decide (k = (w_db w, w_key w))) as [->|Hk].
  - case_decide; [by rewrite lookup_delete_eq|]. rewrite lookup_insert_eq. by intros [=].
  - case_decide; [by rewrite lookup_delete_ne|by rewrite lookup_insert_ne].
Qed.

Lemma fold_unwatch (fd : Z) (l : list WatchedKey) (index : gmap (Z * bytes) (gset Z)) :
  (forall k, index !! k <> Some ∅) ->
  (forall k, foldl (unwatchOne fd) index l !! k <> Some ∅) /\
  forall db key f, f ∈ default ∅ (foldl (unwatchOne fd) index l !! (db, key)) <->
    f ∈ default ∅ (index !! (db, key)) /\ ~ (f = fd /\ existsb (same_key db key) l = true).
Proof.
  revert index. induction l as [|w l IH]; intros index Hne; cbn [foldl existsb]; [split; [done|naive_solver]|].
  destruct (IH (unwatchOne fd index w)) as [I1 I2]; [by apply unwatchOne_nonempty|]. split; [done|].
  intros db key f. rewrite I2, unwatchOne_members, orb_true_iff. naive_solver.
Qed.

Lemma agrees_unwatchAllKeys (fd : Z) (s : server) : index_agrees s -> index_agrees (unwatchAllKeys fd s).
Proof.
  intros [H1 H2]. unfold unwatchAllKeys. destruct (clients_ s !! fd) as [c|] eqn:Hc; [|done].
  destruct (fold_unwatch fd (watched_keys_ c) (watch_index s) H2) as [I1 I2].
  split; [|done]. intros db key f. unfold watchers. cbn [watch_index clients_]. rewrite I2.
  change (default ∅ (watch_index s !! (db, key))) with (watchers db key s). rewrite H1.
  destruct (decide (f = fd)) as [->|Hf].
  - rewrite lookup_insert_eq, Hc. unfold watches. split.
    + intros [(c' & [= <-] & Hw) Hn]. naive_solver.
    + intros (c' & [= <-] & Hw). done.
  - rewrite lookup_insert_ne by done. naive_solver.
Qed.

(** ** The invariant of the server *)

Definition queueable (argv : list bytes) : Prop :=
  exists word args spec, argv = word :: args /\ lookupCommand word = Some spec /\ isTransactionControl (name spec) = false.

Definition client_ok (c : client) : Prop :=
  Forall queueable (multi_queue_ c) /\ (in_multi_ c = false -> multi_queue_ c = [] /\ multi_error_ c = false).

Definition invariant (s : server) : Prop :=
  index_agrees s /\ map_Forall (fun _ c => client_ok c) (clients_ s).

Lemma clients_update (f : client -> client) (fd : Z) (s : server) :
  (forall c, client_ok c -> client_ok (f c)) ->
  map_Forall (fun _ c => client_ok c) (clients_ s) -> map_Forall (fun _ c => client_ok c) (clients_ (update f fd s)).
Proof.
  intros Hf Hs fd' c'. cbn [update clients_]. destruct (decide (fd' = fd)) as [->|Hne].
  - rewrite lookup_alter_eq. destruct (clients_ s !! fd) as [c|] eqn:Hc; [|done]. cbn. intros [= <-].
    apply Hf, (Hs fd c Hc).
  - rewrite lookup_alter_ne by done. apply Hs.
Qed.

Lemma clients_unwatchAllKeys (fd : Z) (s : server) :
  map_Forall (fun _ c => client_ok c) (clients_ s) -> map_Forall (fun _ c => client_ok c) (clients_ (unwatchAllKeys fd s)).
Proof.
  intros Hs. unfold unwatchAllKeys. destruct (clients_ s !! fd) as [c|] eqn:Hc; [|done]. cbn [clients_].
  apply map_Forall_insert_2; [exact (Hs fd c Hc)|done].
Qed.

Lemma inv_discardTransaction (fd : Z) (s : server) : invariant s -> invariant (discardTransaction fd s).
Proof.
  intros [H1 H2]. unfold discardTransaction. split.
  - apply agrees_unwatchAllKeys, agrees_update; done.
  - apply clients_unwatchAllKeys, clients_update; [|done]. intros c _. split; [constructor|done].
Qed.

Lemma inv_watchKey (now fd : Z) (key : bytes) (s : server) : invariant s -> invariant (watchKey now fd key s).
Proof.
  intros [H1 H2]. split; [by apply agrees_watchKey|]. unfold watchKey.
  destruct (clients_ s !! fd) as [c|] eqn:Hc; [|done]. case_if; [done|]. cbn [clients_].
  apply map_Forall_insert_2; [exact (H2 fd c Hc)|done].
Qed.

Lemma inv_watch_all (now fd : Z) (keys : list bytes) (s : server) :
  invariant s -> invariant (foldl (fun s key => watchKey now fd key s) s keys).
Proof. revert s. induction keys as [|k keys IH]; intros s Hs; [done|]. cbn [foldl]. by apply IH, inv_watchKey. Qed.

Lemma touch_ok db key fe c : client_ok c -> client_ok (touch db key fe c).
Proof. intros H. unfold touch. by case_if. Qed.

Lemma inv_signals (sgs : list signal) (s : server) : invariant s -> invariant (signals sgs s).
Proof.
  intros [H1 H2]. split; [by apply agrees_signals|]. clear H1. unfold signals. revert s H2.
  induction sgs as [|[[db key] fe] sgs IH]; intros s Hs; [done|]. cbn [foldl]. apply IH.
  destruct (signal_effect s db key fe) as (_ & _ & H3). intros fd c. rewrite H3. case_decide; [|apply Hs].
  destruct (clients_ s !! fd) as [c0|] eqn:Hc; [|done]. cbn. intros [= <-]. apply touch_ok, (Hs fd c0 Hc).
Qed.

Lemma inv_callOrdinary (now fd : Z) (n : bytes) (argv : list bytes) (s : server) :
  invariant s -> invariant (callOrdinary now fd n argv s).1.1.
Proof.
  intros Hs. unfold callOrdinary. destruct (clients_ s !! fd) as [c|] eqn:Hc; [|done]. case_if; cbn [fst quietly].
  - destruct Hs as [H1 H2]. split; [by apply agrees_update, agrees_unwatchAllKeys|].
    apply clients_update; [done|by apply clients_unwatchAllKeys].
  - apply inv_signals. destruct Hs as [H1 H2]. split.
    + apply (agrees_same_watches s); [done|done|]. intros fd' db key. cbn [clients_].
      destruct (decide (fd' = fd)) as [->|Hne]; [by rewrite lookup_insert_eq, Hc|by rewrite lookup_insert_ne].
    + cbn [clients_]. apply map_Forall_insert_2; [exact (H2 fd c Hc)|done].
Qed.

Lemma runQueue_total (now fd : Z) (queue : list (list bytes)) (s : server) :
  Forall queueable queue -> invariant s ->
  exists s' replies sgs, runQueue now fd queue s = Some (s', replies, sgs) /\ invariant s'.
Proof.
  intros Hq. revert s. induction Hq as [|argv queue (word & args & spec & -> & Hl & Hc) _ IH]; intros s Hs.
  { by do 3 eexists. }
  cbn [runQueue]. rewrite Hl, Hc. pose proof (inv_callOrdinary now fd (name spec) (word :: args) s Hs) as Hi.
  destruct (callOrdinary now fd (name spec) (word :: args) s) as [[s1 r] sgs]. cbn [fst] in Hi.
  destruct (IH s1 Hi) as (s2 & rs & sgs' & -> & H2). by do 3 eexists.
Qed.

(** ** Dispatch keeps the invariant and always answers *)

Lemma inv_update (f : client -> client) (fd : Z) (s : server) :
  (forall c, watched_keys_ (f c) = watched_keys_ c) -> (forall c, client_ok c -> client_ok (f c)) ->
  invariant s -> invariant (update f fd s).
Proof. intros Hw Hc [H1 H2]. split; [by apply agrees_update|by apply clients_update]. Qed.

(** An update of one known client. *)
Lemma inv_update_known (f : client -> client) (fd : Z) (c : client) (s : server) :
  clients_ s !! fd = Some c -> (forall c, watched_keys_ (f c) = watched_keys_ c) -> client_ok (f c) ->
  invariant s -> invariant (update f fd s).
Proof.
  intros Hc Hw Hok [H1 H2]. split; [by apply agrees_update|]. intros fd' c'. cbn [update clients_].
  destruct (decide (fd' = fd)) as [->|Hne]; [|rewrite lookup_alter_ne by done; apply H2].
  rewrite lookup_alter_eq, Hc. cbn. by intros [= <-].
Qed.

Lemma inv_reject (fd : Z) (c : client) spec code text (s : server) :
  clients_ s !! fd = Some c -> invariant s -> invariant (reject fd c spec code text s).1.
Proof.
  intros Hc Hs. unfold reject.
  assert (invariant (if in_multi_ c then update flagMultiError fd s else s)) as Hi.
  { destruct (in_multi_ c) eqn:Hm; [|done]. apply (inv_update_known _ _ c); [done|done| |done].
    destruct Hs as [_ Hs]. destruct (Hs fd c Hc) as [Hq _]. split; [done|]. cbn. congruence. }
  destruct (match spec with Some sp => _ | None => _ end); cbn [fst]; [by apply inv_discardTransaction|done].
Qed.

Lemma inv_exec (now fd : Z) (c : client) (s : server) :
  clients_ s !! fd = Some c -> invariant s ->
  exists s' r sgs, exec now fd c s = Some (s', r, sgs) /\ invariant s'.
Proof.
  intros Hc Hs. unfold exec, quietly. destruct (in_multi_ c); cbn [negb]; [|by do 3 eexists].
  destruct (multi_error_ c); [do 3 eexists; split; [done|by apply inv_discardTransaction]|].
  destruct (dirty_cas_ c); [do 3 eexists; split; [done|by apply inv_discardTransaction]|].
  destruct (runQueue_total now fd (multi_queue_ c) (discardTransaction fd s)) as (s' & rs & sgs & -> & Hi).
  - destruct Hs as [_ Hs]. apply (Hs fd c Hc).
  - by apply inv_discardTransaction.
  - by do 3 eexists.
Qed.

Lemma inv_callCommand (now fd : Z) (c : client) spec argv (s : server) :
  clients_ s !! fd = Some c -> invariant s ->
  exists s' r sgs, callCommand now fd c spec argv s = Some (s', r, sgs) /\ invariant s'.
Proof.
  intros Hc Hs. unfold callCommand, quietly. cbv zeta. pose proof Hs as [_ Hcl]. destruct (Hcl fd c Hc) as [Hq Hm].
  case_if. { unfold multi. destruct (in_multi_ c) eqn:E; do 3 eexists; (split; [done|]); [done|].
    apply (inv_update_known _ _ c); [done|done| |done]. split; [done|]. cbn. done. }
  case_if; [by apply inv_exec|].
  case_if. { unfold discard. destruct (in_multi_ c); do 3 eexists; (split; [done|]); [by apply inv_discardTransaction|done]. }
  case_if. { unfold watch. destruct (in_multi_ c); do 3 eexists; (split; [done|]); [done|by apply inv_watch_all]. }
  case_if; [by do 3 eexists|].
  case_if. { unfold reset. do 3 eexists. split; [done|]. apply inv_update; [done| |by apply inv_discardTransaction].
    intros c' Hc'. exact Hc'. }
  pose proof (inv_callOrdinary now fd (name spec) argv s Hs) as Hi.
  destruct (callOrdinary now fd (name spec) argv s) as [[s' r] sgs]. by do 3 eexists.
Qed.

Lemma inv_dispatch (now fd : Z) (argv : list bytes) (s : server) :
  invariant s -> exists s' r sgs, dispatch now fd argv s = Some (s', r, sgs) /\ invariant s'.
Proof.
  intros Hs. unfold dispatch, quietly. destruct (clients_ s !! fd) as [c|] eqn:Hc; [|by do 3 eexists].
  destruct argv as [|word args]; [by do 3 eexists|].
  assert (forall spec code text, exists s' r sgs, Some (reject fd c spec code text s, @nil signal) = Some (s', r, sgs) /\ invariant s') as Hr.
  { intros spec code text. pose proof (inv_reject fd c spec code text s Hc Hs) as Hi.
    destruct (reject fd c spec code text s) as [s' r]. by do 3 eexists. }
  destruct (lookupCommand word) as [spec|] eqn:Hl; [|apply Hr].
  case_if; [apply Hr|]. case_if; [apply Hr|]. case_if; [apply Hr|]. unfold run_or_queue, quietly.
  destruct (in_multi_ c && negb (isTransactionControl (name spec))) eqn:E; [|by apply inv_callCommand].
  do 3 eexists. split; [done|]. apply andb_true_iff in E as [Em En]. apply negb_true_iff in En.
  apply (inv_update_known _ _ c); [done|done| |done].
  destruct Hs as [_ Hs]. destruct (Hs fd c Hc) as [Hq _]. split; [|cbn; congruence].
  cbn [multi_queue_ queueCommand]. apply Forall_app_2; [done|]. constructor; [|done].
  exists word, args, spec. done.
Qed.

(** ** What a client notices of the others *)

(** A client's view of a list of modifications. *)
Definition notice (sgs : list signal) (c : client) : client :=
  foldl (fun c '(db, key, fe) => if watches db key c then touch db key fe c else c) c sgs.

Lemma notice_app sgs sgs' c : notice (sgs ++ sgs') c = notice sgs' (notice sgs c).
Proof. unfold notice. by rewrite foldl_app. Qed.

Lemma signals_noticed (sgs : list signal) (s : server) (fd : Z) :
  index_agrees s -> clients_ (signals sgs s) !! fd = notice sgs <$> clients_ s !! fd.
Proof.
  unfold signals. revert s. induction sgs as [|[[db key] fe] sgs IH]; intros s Hs; cbn [foldl].
  { by destruct (clients_ s !! fd). }
  rewrite IH by (by apply agrees_signal). destruct (signal_effect s db key fe) as (_ & _ & H3). rewrite H3.
  destruct Hs as [H1 _]. specialize (H1 db key fd).
  destruct (clients_ s !! fd) as [c|] eqn:Hc; [|by case_decide].
  unfold notice. cbn [fmap option_fmap option_map foldl]. destruct (watches db key c) eqn:Hw.
  - rewrite decide_True by (apply H1; by exists c). done.
  - rewrite decide_False; [done|]. intros (c' & [= <-] & Hw')%H1. congruence.
Qed.

(** The operations on one client leave the others as they are. *)
Lemma update_other (f : client -> client) (fd a : Z) (s : server) :
  a <> fd -> clients_ (update f fd s) !! a = clients_ s !! a.
Proof. intros. cbn [update clients_]. by rewrite lookup_alter_ne. Qed.

Lemma unwatchAllKeys_other (fd a : Z) (s : server) : a <> fd -> clients_ (unwatchAllKeys fd s) !! a = clients_ s !! a.
Proof. intros. unfold unwatchAllKeys. destruct (clients_ s !! fd); [|done]. cbn [clients_]. by rewrite lookup_insert_ne. Qed.

Lemma discardTransaction_other (fd a : Z) (s : server) :
  a <> fd -> clients_ (discardTransaction fd s) !! a = clients_ s !! a.
Proof. intros. unfold discardTransaction. by rewrite unwatchAllKeys_other, update_other. Qed.

Lemma watchKey_other (now fd a : Z) (key : bytes) (s : server) :
  a <> fd -> clients_ (watchKey now fd key s) !! a = clients_ s !! a.
Proof.
  intros. unfold watchKey. destruct (clients_ s !! fd) as [c|]; [|done]. case_if; [done|]. cbn [clients_].
  by rewrite lookup_insert_ne.
Qed.

Lemma quietly_other (x : server * bytes) (s : server) (a : Z) s' r sgs :
  clients_ x.1 !! a = clients_ s !! a -> Some (quietly x) = Some (s', r, sgs) ->
  clients_ s' !! a = notice sgs <$> clients_ s !! a.
Proof.
  unfold quietly. destruct x as [s1 r1]. cbn [fst]. intros Hx [= <- <- <-]. rewrite Hx. by destruct (clients_ s !! a).
Qed.

Lemma callOrdinary_other (now fd a : Z) (n : bytes) (argv : list bytes) (s s' : server) r sgs :
  a <> fd -> invariant s -> callOrdinary now fd n argv s = (s', r, sgs) ->
  clients_ s' !! a = notice sgs <$> clients_ s !! a.
Proof.
  intros Ha [Hs _]. unfold callOrdinary. destruct (clients_ s !! fd) as [c|] eqn:Hc.
  2: { unfold quietly. intros [= <- <- <-]. by destruct (clients_ s !! a). }
  case_if. { unfold quietly. intros [= <- <- <-]. rewrite update_other, unwatchAllKeys_other by done. by destruct (clients_ s !! a). }
  intros [= <- <- <-]. rewrite signals_noticed.
  - cbn [clients_]. by rewrite lookup_insert_ne.
  - apply (agrees_same_watches s); [done|done|]. intros fd' db key. cbn [clients_].
    destruct (decide (fd' = fd)) as [->|Hne]; [by rewrite lookup_insert_eq, Hc|by rewrite lookup_insert_ne].
Qed.

Lemma runQueue_other (now fd a : Z) (queue : list (list bytes)) (s s' : server) r sgs :
  a <> fd -> invariant s -> runQueue now fd queue s = Some (s', r, sgs) ->
  clients_ s' !! a = notice sgs <$> clients_ s !! a.
Proof.
  intros Ha. revert s s' r sgs. induction queue as [|argv queue IH]; intros s s' r sgs Hs; cbn [runQueue].
  { intros [= <- <- <-]. by destruct (clients_ s !! a). }
  destruct argv as [|word args]; [done|]. destruct (lookupCommand word) as [spec|]; [|done].
  case_if; [done|]. pose proof (inv_callOrdinary now fd (name spec) (word :: args) s Hs) as Hi.
  destruct (callOrdinary now fd (name spec) (word :: args) s) as [[s1 r1] g1] eqn:E1. cbn [fst] in Hi.
  destruct (runQueue now fd queue s1) as [[[s2 r2] g2]|] eqn:E2; [|done]. intros [= <- <- <-].
  rewrite (IH s1 s2 r2 g2 Hi E2), (callOrdinary_other now fd a _ _ _ _ _ _ Ha Hs E1).
  rewrite <- option_fmap_compose. apply option_fmap_ext. intros c. by rewrite notice_app.
Qed.

Lemma dispatch_other (now fd a : Z) (argv : list bytes) (s s' : server) r sgs :
  a <> fd -> invariant s -> dispatch now fd argv s = Some (s', r, sgs) ->
  clients_ s' !! a = notice sgs <$> clients_ s !! a.
Proof.
  intros Ha Hs. unfold dispatch.
  destruct (clients_ s !! fd) as [c|] eqn:Hc; [|by apply quietly_other].
  destruct argv as [|word args]; [by apply quietly_other|].
  assert (forall spec code text, clients_ (reject fd c spec code text s).1 !! a = clients_ s !! a) as Hr.
  { intros spec code text. unfold reject.
    destruct (match spec with Some sp => _ | None => _ end), (in_multi_ c); cbn [fst];
      rewrite ?discardTransaction_other, ?update_other by done; done. }
  destruct (lookupCommand word) as [spec|]; [|by apply quietly_other].
  case_if; [by apply quietly_other|]. case_if; [by apply quietly_other|]. case_if; [by apply quietly_other|].
  unfold run_or_queue. case_if; [apply quietly_other; cbn [fst]; by rewrite update_other|].
  unfold callCommand. cbv zeta.
  case_if; [apply quietly_other; unfold multi; case_if; cbn [fst]; by rewrite ?update_other|].
  case_if. { unfold exec. case_if; [by apply quietly_other|].
    case_if; [apply quietly_other; cbn [fst]; by rewrite discardTransaction_other|].
    case_if; [apply quietly_other; cbn [fst]; by rewrite discardTransaction_other|].
    destruct (runQueue now fd _ _) as [[[s1 r1] g1]|] eqn:E; [|done]. intros [= <- <- <-].
    rewrite (runQueue_other _ _ a _ _ _ _ _ Ha (inv_discardTransaction fd s Hs) E).
    by rewrite discardTransaction_other. }
  case_if; [apply quietly_other; unfold discard; case_if; cbn [fst]; by rewrite ?discardTransaction_other|].
  case_if. { apply quietly_other. unfold watch. case_if; cbn [fst]; [done|].
    generalize (tail (word :: args)). intros keys. generalize s as s0.
    induction keys as [|k keys IH]; intros s0; [done|]. cbn [foldl]. rewrite IH. by apply watchKey_other. }
  case_if; [by apply quietly_other|].
  case_if. { apply quietly_other. unfold reset. cbn [fst]. by rewrite update_other, discardTransaction_other. }
  destruct (callOrdinary now fd (name spec) (word :: args) s) as [[s1 r1] g1] eqn:E. intros [= <- <- <-].
  by apply (callOrdinary_other now fd a (name spec) (word :: args) s s1 r1 g1).
Qed.

(** ** Check and set *)

(** Commands of any connections, one after the other, with everything they
    announced. *)
Fixpoint run_events (events : list (Z * Z * list bytes)) (s : server) : option (server * list signal) :=
  match events with
  | [] => Some (s, [])
  | (now, fd, argv) :: events =>
      match dispatch now fd argv s with
      | None => None
      | Some (s, _, sgs) =>
          match run_events events s with
          | None => None
          | Some (s, sgs') => Some (s, sgs ++ sgs')
          end
      end
  end.

(** Whether a watched key was past its TTL when it was watched, and its death
    has not been announced yet. *)
Definition dead (c : client) (db : Z) (key : bytes) : bool := existsb (fun w => same_key db key w && w_expired w) (watched_keys_ c).

Definition concerns (db : Z) (key : bytes) (sg : signal) : bool := let '(db', key', _) := sg in (db =? db') && (key =b? key').

(** The announcements about one key, without the first one of its expiry. *)
Fixpoint drop_expiry (sgs : list signal) : list signal :=
  match sgs with
  | [] => []
  | (db, key, fe) :: sgs => if fe : bool then sgs else (db, key, fe) :: drop_expiry sgs
  end.

(** Something a client could have observed happened to a key it watches: any
    announcement, except that a key which was dead when it was watched may
    still be announced once as expired. *)
Definition disturbed (c : client) (sgs : list signal) : bool :=
  existsb (fun w =>
    let l := List.filter (concerns (w_db w) (w_key w)) sgs in
    negb (length (if dead c (w_db w) (w_key w) then drop_expiry l else l) =? 0)%nat) (watched_keys_ c).

Lemma same_key_concerns db key w fe : concerns (w_db w) (w_key w) (db, key, fe) = same_key db key w.
Proof. done. Qed.

Lemma existsb_congr {A} (f g : A -> bool) l : (forall x, In x l -> f x = g x) -> existsb f l = existsb g l.
Proof. induction l as [|x l IH]; intros H; [done|]. cbn [existsb]. rewrite (H x) by (by left). f_equal. apply IH. intros y Hy. apply H. by right. Qed.

Lemma existsb_mapped {A B} (f : B -> bool) (g : A -> B) l : existsb f (map g l) = existsb (fun x => f (g x)) l.
Proof. induction l as [|x l IH]; cbn; [done|]. by rewrite IH. Qed.

Definition forget (db : Z) (key : bytes) (w : WatchedKey) : WatchedKey := if same_key db key w && w_expired w then mkWatched (w_db w) (w_key w) false else w.

Lemma touch_dead db key c : dead c db key = true -> touch db key true c = set_watched (map (forget db key) (watched_keys_ c)) c.
Proof. unfold dead. intros Hd. unfold touch. cbn [andb]. by rewrite Hd. Qed.

(** The announcement of the death of a key that was dead already. *)
Lemma disturbed_expiry db key c sgs : dead c db key = true -> disturbed (touch db key true c) sgs = disturbed c ((db, key, true) :: sgs).
Proof.
  intros Hd. rewrite touch_dead by done. unfold disturbed. cbn [watched_keys_ set_watched]. rewrite existsb_mapped. apply existsb_congr. intros w Hw.
  assert (w_db (forget db key w) = w_db w /\ w_key (forget db key w) = w_key w) as [-> ->] by (unfold forget; by destruct (_ && _)).
  cbn [List.filter]. rewrite same_key_concerns.
  assert (dead (set_watched (map (forget db key) (watched_keys_ c)) c) (w_db w) (w_key w) = if same_key db key w then false else dead c (w_db w) (w_key w)) as ->.
  { unfold dead. cbn [watched_keys_ set_watched]. rewrite existsb_mapped. destruct (same_key db key w) eqn:Hs.
    - apply same_key_true in Hs as [-> ->]. apply not_true_is_false. rewrite existsb_exists. intros (v & _ & Hv). unfold forget in Hv.
      destruct (same_key db key v && w_expired v) eqn:E; [apply andb_true_iff in Hv as [_ Hv]; done|congruence].
    - apply existsb_congr. intros v _. unfold forget. destruct (same_key db key v && w_expired v) eqn:E; [|done]. cbn [w_expired]. rewrite andb_false_r. apply andb_true_iff in E as [E _].
      symmetry. apply not_true_is_false. intros [F _]%andb_true_iff. apply same_key_true in E as [<- <-], F as [F1 F2]. apply not_true_iff_false in Hs. apply Hs, same_key_true. by rewrite F1, F2. }
  destruct (same_key db key w) eqn:Hs; [|done]. assert (w_db w = db /\ w_key w = key) as [-> ->] by (by apply same_key_true). by rewrite Hd.
Qed.

Lemma notice_disturbed sgs c : dirty_cas_ (notice sgs c) = dirty_cas_ c || disturbed c sgs.
Proof.
  unfold notice. revert c. induction sgs as [|[[db key] fe] sgs IH]; intros c; cbn [foldl].
  { assert (disturbed c [] = false) as ->; [|by rewrite orb_false_r]. unfold disturbed. apply not_true_is_false. rewrite existsb_exists. intros (w & _ & Hw). cbn in Hw. by destruct (dead _ _ _). }
  rewrite IH. destruct (watches db key c) eqn:Hw.
  - destruct (fe && dead c db key) eqn:Hfe.
    + apply andb_true_iff in Hfe as [-> Hd]. rewrite <- disturbed_expiry by done. f_equal. by rewrite touch_dead.
    + unfold touch. change (existsb _ (watched_keys_ c)) with (dead c db key). rewrite Hfe. cbn [dirty_cas_ set_dirty orb].
      symmetry. apply orb_true_iff. right. unfold watches in Hw. apply existsb_exists in Hw as (w & Hin & Hs). apply existsb_exists. exists w. split; [done|].
      cbn [List.filter]. rewrite same_key_concerns, Hs. assert (w_db w = db /\ w_key w = key) as [-> ->] by (by apply same_key_true). destruct (dead c db key); [|done]. rewrite andb_true_r in Hfe. by rewrite Hfe.
  - f_equal. unfold disturbed. apply existsb_congr. intros w Hin. cbn [List.filter]. rewrite same_key_concerns.
    assert (same_key db key w = false) as ->; [|done]. apply not_true_is_false. intros Hs. unfold watches in Hw. apply not_true_iff_false in Hw. apply Hw, existsb_exists. by exists w.
Qed.

(** Nothing else about a client changes. *)
Lemma notice_rest sgs c : session_ (notice sgs c) = session_ c /\ in_multi_ (notice sgs c) = in_multi_ c /\ multi_error_ (notice sgs c) = multi_error_ c /\ multi_queue_ (notice sgs c) = multi_queue_ c.
Proof.
  unfold notice. revert c. induction sgs as [|[[db key] fe] sgs IH]; intros c; cbn [foldl]; [done|]. destruct (IH (if watches db key c then touch db key fe c else c)) as (-> & -> & -> & ->).
  destruct (watches db key c); [|done]. unfold touch. by destruct (_ && _).
Qed.

Lemma events_noticed (a : Z) (events : list (Z * Z * list bytes)) (s s' : server) sgs :
  Forall (fun e => e.1.2 <> a) events -> invariant s -> run_events events s = Some (s', sgs) ->
  invariant s' /\ clients_ s' !! a = notice sgs <$> clients_ s !! a.
Proof.
  intros He. revert s sgs. induction He as [|[[now fd] argv] events Hfd _ IH]; intros s sgs Hs; cbn [run_events].
  { intros [= <- <-]. split; [done|]. by destruct (clients_ s !! a). }
  cbn [fst snd] in Hfd. destruct (inv_dispatch now fd argv s Hs) as (s1 & r1 & g1 & E1 & Hs1). rewrite E1.
  destruct (run_events events s1) as [[s2 g2]|] eqn:E2; [|done]. intros [= <- <-].
  destruct (IH s1 g2 Hs1 E2) as [Hs2 ->]. split; [done|].
  rewrite (dispatch_other now fd a argv s s1 r1 g1) by (done || congruence).
  rewrite <- option_fmap_compose. apply option_fmap_ext. intros c. by rewrite notice_app.
Qed.

(** Runs of commands are never stuck. *)
Lemma run_events_total (events : list (Z * Z * list bytes)) (s : server) :
  invariant s -> exists s' sgs, run_events events s = Some (s', sgs) /\ invariant s'.
Proof.
  revert s. induction events as [|[[now fd] argv] events IH]; intros s Hs; cbn [run_events]; [by do 2 eexists|].
  destruct (inv_dispatch now fd argv s Hs) as (s1 & r1 & g1 & -> & Hs1).
  destruct (IH s1 Hs1) as (s2 & g2 & -> & Hs2). by do 2 eexists.
Qed.

(** The client may send EXEC: it is authenticated if it must be, and not a
    RESP2 subscriber. *)
Definition may_exec (s : server) (c : client) : bool :=
  (negb (requirepass (data s)) || authenticated_ (session_ c)) &&
  negb ((protover_ (session_ c) =? 2) && subscriber_mode (session_ c)).

Lemma dispatch_exec (now fd : Z) (c : client) (s : server) :
  clients_ s !! fd = Some c -> may_exec s c = true -> dispatch now fd [str "EXEC"] s = exec now fd c s.
Proof.
  unfold may_exec. intros Hc Hm. apply andb_true_iff in Hm as [Ha Hsub]. apply negb_true_iff in Hsub.
  unfold dispatch. rewrite Hc.
  assert (lookupCommand (str "EXEC") = Some (spec "exec" 1 kLoading 0 0 0)) as -> by (vm_compute; reflexivity).
  change (arityOk _ _) with true. cbn [negb]. change (Z.land (flags _) kNoAuth =? 0) with true.
  assert (requirepass (data s) && negb (authenticated_ (session_ c)) && true = false) as ->.
  { destruct (requirepass (data s)); [|done]. cbn in *. by rewrite Ha. }
  rewrite Hsub. cbn [andb]. unfold run_or_queue.
  change (isTransactionControl _) with true. rewrite andb_false_r. unfold callCommand.
  change (name _ =b? str "multi") with false. change (name _ =b? str "exec") with true. done.
Qed.

(** A client whose transaction is over. *)
Definition idle (c : client) : Prop :=
  in_multi_ c = false /\ multi_error_ c = false /\ dirty_cas_ c = false /\ multi_queue_ c = [] /\ watched_keys_ c = [].

Lemma discardTransaction_self (fd : Z) (c : client) (s : server) :
  clients_ s !! fd = Some c ->
  data (discardTransaction fd s) = data s /\ exists c', clients_ (discardTransaction fd s) !! fd = Some c' /\ idle c' /\ session_ c' = session_ c.
Proof.
  intros Hc. unfold discardTransaction, unwatchAllKeys. cbn [update clients_ data]. rewrite lookup_alter_eq, Hc.
  cbn [fmap option_fmap option_map clients_ data]. split; [done|]. eexists. rewrite lookup_insert_eq. split; [done|].
  by repeat split.
Qed.

(** C32: dispatching a command never gets stuck and never breaks the server's
    bookkeeping: from any state in which the watch index and the clients'
    watch lists agree and only queueable commands are queued, every command
    line from any connection, EXEC of any queue included, is answered, and
    the resulting state has the same property. *)
Theorem dispatch_safe (now fd : Z) (argv : list bytes) (s : server) :
  invariant s -> exists s' reply sgs, dispatch now fd argv s = Some (s', reply, sgs) /\ invariant s'.
Proof. apply inv_dispatch. Qed.

(** A client that watches nothing notices nothing. *)
Lemma notice_unwatched sgs c : watched_keys_ c = [] -> notice sgs c = c.
Proof. intros Hw. unfold notice. induction sgs as [|[[db key] fe] sgs IH]; cbn [foldl]; [done|]. unfold watches. by rewrite Hw. Qed.

Lemma callOrdinary_idle (now fd : Z) (n : bytes) (argv : list bytes) (c : client) (s : server) :
  index_agrees s -> clients_ s !! fd = Some c -> idle c -> exists c', clients_ (callOrdinary now fd n argv s).1.1 !! fd = Some c' /\ idle c'.
Proof.
  intros Hs Hc Hi. unfold callOrdinary. rewrite Hc. case_if; cbn [fst quietly].
  - unfold update, unwatchAllKeys. rewrite Hc. cbn [clients_]. rewrite lookup_alter_eq, lookup_insert_eq. cbn. eexists. split; [done|]. destruct Hi as (? & ? & ? & ? & ?). by repeat split.
  - rewrite signals_noticed.
    + cbn [clients_]. rewrite lookup_insert_eq. cbn. eexists. split; [done|]. rewrite notice_unwatched by apply Hi. exact Hi.
    + apply (agrees_same_watches s); [done|done|]. intros fd' db key. cbn [clients_]. destruct (decide (fd' = fd)) as [->|Hne]; [by rewrite lookup_insert_eq, Hc|by rewrite lookup_insert_ne].
Qed.

Lemma runQueue_idle (now fd : Z) (queue : list (list bytes)) (c : client) (s s' : server) r sgs :
  invariant s -> clients_ s !! fd = Some c -> idle c -> runQueue now fd queue s = Some (s', r, sgs) -> exists c', clients_ s' !! fd = Some c' /\ idle c'.
Proof.
  revert c s s' r sgs. induction queue as [|argv queue IH]; intros c s s' r sgs Hs Hc Hi; cbn [runQueue]; [intros [= <- <- <-]; by exists c|].
  destruct argv as [|word args]; [done|]. destruct (lookupCommand word) as [spec|]; [|done]. case_if; [done|].
  pose proof (inv_callOrdinary now fd (name spec) (word :: args) s Hs) as Hs1. destruct (callOrdinary_idle now fd (name spec) (word :: args) c s (proj1 Hs) Hc Hi) as (c1 & Hc1 & Hi1).
  destruct (callOrdinary now fd (name spec) (word :: args) s) as [[s1 r1] g1]. cbn [fst] in *. destruct (runQueue now fd queue s1) as [[[s2 r2] g2]|] eqn:E2; [|done]. intros [= <- <- <-].
  by apply (IH c1 s1 s2 r2 g2).
Qed.

(** C9: WATCH and EXEC are a check-and-set. A connection is inside MULTI with
    a transaction that no error has spoiled and some keys watched; the other
    connections then run any commands at all, CONFIG SET included, and the
    connection sends EXEC while it may ([may_exec]: authenticated if a password
    is set by then, and not a RESP2 subscriber). If those commands announced a change to a
    watched key, EXEC runs nothing: it answers the null array and the data is
    left as it is. A key whose TTL had passed when it was watched is an
    exception: being announced once as expired is not a change, since it was
    gone already ([disturbed]). If there was no change, EXEC runs the whole queue, in order, as one
    uninterrupted sequence. Either way the transaction and its watches are
    over. *)
Theorem exec_check_and_set (now a : Z) (c : client) (events : list (Z * Z * list bytes)) (s s' : server) sgs :
  invariant s -> clients_ s !! a = Some c ->
  in_multi_ c = true -> multi_error_ c = false -> dirty_cas_ c = false ->
  Forall (fun e => e.1.2 <> a) events -> run_events events s = Some (s', sgs) -> may_exec s' c = true ->
  exists s2 c2 reply sgs2, dispatch now a [str "EXEC"] s' = Some (s2, reply, sgs2) /\ clients_ s2 !! a = Some c2 /\ idle c2 /\
    if disturbed c sgs then reply = Reply.nullArray (protover_ (session_ c)) /\ sgs2 = [] /\ data s2 = data s'
    else exists replies, runQueue now a (multi_queue_ c) (discardTransaction a s') = Some (s2, replies, sgs2) /\
      reply = Reply.arrayHeader (i64 (Z.of_nat (length (multi_queue_ c)))) ++ replies.
Proof.
  intros Hs Hc Hm Herr Hd He Hrun Hmay.
  destruct (events_noticed a events s s' sgs He Hs Hrun) as [Hs' Hc']. rewrite Hc in Hc'. cbn in Hc'.
  destruct (notice_rest sgs c) as (Nsess & Nm & Nerr & Nq). pose proof (notice_disturbed sgs c) as Nd. rewrite Hd in Nd. cbn [orb] in Nd.
  rewrite (dispatch_exec now a _ s' Hc') by (unfold may_exec in *; by rewrite Nsess).
  destruct (discardTransaction_self a _ s' Hc') as (Hdata & c2 & Hc2 & Hi & _). unfold exec, quietly. rewrite Nm, Nerr, Nd, Nq, Nsess, Hm, Herr. cbn [negb].
  destruct (disturbed c sgs); [by exists (discardTransaction a s'), c2, (Reply.nullArray (protover_ (session_ c))), []|].
  pose proof (inv_discardTransaction a s' Hs') as Hinv.
  destruct (runQueue_total now a (multi_queue_ c) (discardTransaction a s')) as (s2 & rs & g2 & Hq & _); [destruct Hs as [_ Hs]; apply (Hs a c Hc)|done|].
  destruct (runQueue_idle now a _ c2 _ s2 rs g2 Hinv Hc2 Hi Hq) as (c3 & Hc3 & Hi3). rewrite Hq. exists s2, c3, (Reply.arrayHeader (i64 (Z.of_nat (length (multi_queue_ c)))) ++ rs), g2. split; [done|]. split; [done|]. split; [done|]. by exists rs.
Qed.

(** one rejected command poisons the whole transaction: after any command
    line that is refused inside MULTI (an unknown command, a wrong number of
    arguments), EXEC runs nothing, says so, and ends the transaction. *)
Theorem rejected_command_aborts (now : Z) (a : Z) (c : client) (word : bytes) (args : list bytes) (s : server) :
  invariant s -> clients_ s !! a = Some c -> may_exec s c = true -> in_multi_ c = true ->
  match lookupCommand word with None => True | Some sp => arityOk sp (length (word :: args)) = false /\ name sp <> str "exec" end ->
  exists s1 reply, dispatch now a (word :: args) s = Some (s1, reply, []) /\ data s1 = data s /\
    exists s2 c2, dispatch now a [str "EXEC"] s1 =
        Some (s2, Reply.error (str "EXECABORT Transaction discarded because of previous errors."), []) /\
      data s2 = data s /\ clients_ s2 !! a = Some c2 /\ idle c2.
Proof.
  intros Hs Hc Hmay Hm Hbad.
  assert (forall sp code text, match sp with Some sp => name sp <> str "exec" | None => True end ->
    reject a c sp code text s = (update flagMultiError a s, Reply.error (code ++ str " " ++ text))) as Hrej.
  { intros sp code text Hsp. unfold reject. rewrite Hm. destruct sp as [sp|]; [|done].
    by rewrite bool_decide_false. }
  assert (exists reply, dispatch now a (word :: args) s = Some (update flagMultiError a s, reply, [])) as [reply Hd].
  { unfold dispatch, quietly. rewrite Hc. destruct (lookupCommand word) as [sp|].
    - destruct Hbad as [-> Hne]. cbn [negb]. rewrite Hrej by done. by eexists.
    - rewrite Hrej by done. by eexists. }
  exists (update flagMultiError a s), reply. split; [done|]. split; [done|].
  assert (clients_ (update flagMultiError a s) !! a = Some (flagMultiError c)) as Hc1.
  { cbn [update clients_]. by rewrite lookup_alter_eq, Hc. }
  rewrite (dispatch_exec now a _ _ Hc1) by done. unfold exec, quietly. cbn [in_multi_ multi_error_ flagMultiError]. rewrite Hm.
  cbn [negb]. destruct (discardTransaction_self a _ _ Hc1) as (Hdata & c2 & Hc2 & Hi & _). by exists (discardTransaction a (update flagMultiError a s)), c2.
Qed.

(** UNWATCH is not among the commands that run at once inside MULTI: it is
    queued like any other, so the watches it would drop still decide EXEC. *)
Lemma unwatch_is_queued (now a : Z) (c : client) (s : server) :
  clients_ s !! a = Some c -> may_exec s c = true -> in_multi_ c = true ->
  dispatch now a [str "UNWATCH"] s =
  Some (update (queueCommand [str "UNWATCH"]) a s, Reply.simpleString (str "QUEUED"), []).
Proof.
  unfold may_exec. intros Hc Hm Hin. apply andb_true_iff in Hm as [Ha Hsub]. apply negb_true_iff in Hsub.
  unfold dispatch. rewrite Hc.
  assert (lookupCommand (str "UNWATCH") = Some (spec "unwatch" 1 (Z.lor kFast kLoading) 0 0 0)) as -> by (vm_compute; reflexivity).
  change (arityOk _ _) with true. cbn [negb]. change (Z.land (flags _) kNoAuth =? 0) with true.
  assert (requirepass (data s) && negb (authenticated_ (session_ c)) && true = false) as ->.
  { destruct (requirepass (data s)); [|done]. cbn in *. by rewrite Ha. }
  rewrite Hsub. cbn [andb]. unfold run_or_queue. rewrite Hin. change (isTransactionControl _) with false. done.
Qed.

End server.

(** ** A small server *)

Module Demo.

(** The keyspace is a log of writes; SET announces its key, every other command
    only answers. *)
Definition handler (n : bytes) (now : Z) (d : list (list bytes)) (x : session) (argv : list bytes) : @outcome (list (list bytes)) :=
  if n =b? str "set" then mkOutcome (d ++ [argv]) x [(db_index_ x, argv !!! 1%nat, false)] ok_reply
  else mkOutcome d x [] ok_reply.

Definition open (d : list (list bytes)) : bool := false.
Definition no_ttl (d : list (list bytes)) (db : Z) (key : bytes) : Z := -1.

Definition newcomer : client := mkClient (mkSession 0 2 false false) false false false [] [].
Definition start : @server (list (list bytes)) := mkServer [] {[1 := newcomer; 2 := newcomer]} ∅.

Lemma start_ok : invariant start.
Proof.
  split.
  - split; [|intros k; cbn [watch_index start]; by rewrite lookup_empty]. intros db key fd. unfold watchers.
    cbn [watch_index start]. rewrite lookup_empty. cbn [default from_option id]. split; [set_solver|]. intros (c & Hc & Hw).
    cbn [clients_ start] in Hc. destruct (decide (fd = 1)) as [->|H1]; [rewrite lookup_insert_eq in Hc|rewrite lookup_insert_ne in Hc by done].
    { by simplify_eq. }
    apply lookup_singleton_Some in Hc as [_ <-]. done.
  - intros fd c. cbn [clients_ start]. intros Hc. assert (c = newcomer) as ->; [|split; [constructor|done]].
    destruct (decide (fd = 1)) as [->|H1]; [rewrite lookup_insert_eq in Hc; by simplify_eq|].
    rewrite lookup_insert_ne in Hc by done. by apply lookup_singleton_Some in Hc as [_ <-].
Qed.

Definition prepare : list (Z * Z * list bytes) :=
  [(0, 1, [str "WATCH"; str "k"]); (0, 1, [str "MULTI"]); (0, 1, [str "SET"; str "k"; str "mine"])].

Definition prepared : @server (list (list bytes)) :=
  match run_events handler no_ttl open prepare start with Some (s, _) => s | None => start end.

Lemma prepared_ok : invariant prepared.
Proof.
  unfold prepared. destruct (run_events_total handler no_ttl open prepare start start_ok) as (s & sgs & -> & Hs). done.
Qed.

Definition waiting : client :=
  mkClient (mkSession 0 2 false false) true false false [[str "SET"; str "k"; str "mine"]] [mkWatched 0 (str "k") false].

Definition interference : list (Z * Z * list bytes) := [(0, 2, [str "set"; str "k"; str "theirs"])].

(** The state after the other connection's SET. *)
Definition interfered : @server (list (list bytes)) :=
  match run_events handler no_ttl open interference prepared with Some (s, _) => s | None => start end.

End Demo.

Lemma dispatch_safe_witness :
  exists s' reply sgs, dispatch Demo.handler Demo.no_ttl Demo.open 0 1 [str "EXEC"] Demo.prepared = Some (s', reply, sgs) /\ invariant s'.
Proof. exact (dispatch_safe Demo.handler Demo.no_ttl Demo.open 0 1 [str "EXEC"] Demo.prepared Demo.prepared_ok). Defined.

Lemma exec_check_and_set_witness :
  exists s2 c2, dispatch Demo.handler Demo.no_ttl Demo.open 0 1 [str "EXEC"] Demo.interfered = Some (s2, Reply.nullArray 2, []) /\
    data s2 = data Demo.interfered /\ clients_ s2 !! 1 = Some c2 /\ idle c2.
Proof.
  destruct (exec_check_and_set Demo.handler Demo.no_ttl Demo.open 0 1 Demo.waiting Demo.interference Demo.prepared
    Demo.interfered [(0, str "k", false)] Demo.prepared_ok) as (s2 & c2 & reply & sgs2 & H1 & H2 & H3 & H4); try (vm_compute; reflexivity).
  - constructor; [discriminate|constructor].
  - change (disturbed Demo.waiting [(0, str "k", false)]) with true in H4. destruct H4 as (-> & -> & H4). exists s2, c2. split; [exact H1|]. split; [exact H4|]. split; [exact H2|exact H3].
Defined.

Lemma rejected_command_aborts_witness :
  exists s1 reply, dispatch Demo.handler Demo.no_ttl Demo.open 0 1 [str "NOSUCH"] Demo.prepared = Some (s1, reply, []) /\
    data s1 = data Demo.prepared.
Proof.
  destruct (rejected_command_aborts Demo.handler Demo.no_ttl Demo.open 0 1 Demo.waiting (str "NOSUCH") [] Demo.prepared
    Demo.prepared_ok) as (s1 & reply & Hd & Hdata & _); try (vm_compute; reflexivity).
  exists s1, reply. split; [exact Hd|exact Hdata].
Defined.

End Transaction.
