(* ===== verification/ServerCommands.v ===== *)
(** * ServerCommands: emptying databases, and reports on keys

    The commands of [src/server/commands/server_commands.cpp] that work on the
    keyspace: DBSIZE, FLUSHDB, FLUSHALL, OBJECT, MEMORY and DEBUG, with
    [Server::touchWatchedKeysOnFlush] of [src/server/server.cpp] and
    [Value::memoryUsage] of [src/core/object.cpp]. The other commands of the
    file are in [AdminCommands]. *)

From Stdlib Require Import ZArith Lia.
From stdpp Require Import base list numbers gmap option strings.
From S2P Require Import Prelude Encoding Strings IntSet Listpack MapSpec Dict HashValue ZSetValue SetValue ListValue Db Object Reply Notify CommandTable Command Keyspace Transaction.
Import Command Keyspace.

Module ServerCommands.

(** ** Values *)

Section Memory.
Context {D : Type -> Type} {ops : MapOps D}.
(** [std::string::capacity], which the library chooses. *)
Context (capacity : bytes -> Z).

Definition kObjectHeader : Z := 16.
Definition charge {A} (cost : A -> Z) (l : list A) : Z := foldl (fun total x => total + cost x) kObjectHeader l.
Definition len (s : bytes) : Z := Z.of_nat (length s).

(** [None]: a broken link in the skip list. *)
Definition memoryUsage (v : Object.value D) : option Z :=
  match Object.data_ v with
  | Object.DInt _ => Some kObjectHeader
  | Object.DStr s => Some (kObjectHeader + capacity s + (if bool_decide (Object.encoding_ v = ERaw) then 16 else 0))
  | Object.DList l => Some (charge (fun node => Z.of_nat (Listpack.totalBytes node)) (ListValue.nodes_ l))
  | Object.DHash h =>
      Some (if bool_decide (HashValue.encoding_ h = EListPack) then kObjectHeader + Z.of_nat (Listpack.totalBytes (HashValue.listpack_ h))
            else charge (fun s => len s + 48) (HashValue.flatten h))
  | Object.DSet s =>
      Some (match SetValue.encoding_ s with
            | EIntSet => kObjectHeader + IntSet.byteSize (SetValue.intset_ s)
            | EListPack => kObjectHeader + Z.of_nat (Listpack.totalBytes (SetValue.listpack_ s))
            | _ => charge (fun m => len m + 48) (SetValue.members s)
            end)
  | Object.DZSet z =>
      if bool_decide (ZSetValue.encoding_ z = EListPack) then Some (kObjectHeader + Z.of_nat (Listpack.totalBytes (ZSetValue.listpack_ z)))
      else l ← ZSetValue.all z; Some (charge (fun e => len (fst e) + 96) l)
  end.
End Memory.

Section Handlers.
Context {D : Type -> Type} {ops : MapOps D} (rq : request).
Context (capacity : bytes -> Z).
(** [Database::bucketCount] and [Database::isRehashing], which ask the table. *)
Context (bucketCount : D (Object.value D) -> nat) (isRehashing : D (Object.value D) -> bool).
(** [Server::reloadRdb] ([Persistence.reloadRdb]): the message of a failure. *)
Context (reloadRdb : M D (option bytes)).

Definition simpleString (s : bytes) : M D unit := write (Reply.simpleString s).
Definition shout : M D bytes := a ← arg rq 1%nat; mret (toUpper a).

Definition dbsize : M D unit := fun s => integer (i64 (Z.of_nat (Db.size (db s)))) s.

(** ** Emptying *)

(** [database.raw().find(key) != nullptr] *)
Definition raw_find (i : Z) (key : bytes) : M D bool :=
  on_db_at rq i (fun d => '(m, v) ← mfind (Db.dict_ d) key; Some (Db.set_dict d m, is_some v)).

Fixpoint present (i : Z) (keys : list bytes) : M D (list bytes) :=
  match keys with
  | [] => mret []
  | key :: keys => b ← raw_find i key; more ← present i keys; mret (if b : bool then key :: more else more)
  end.

(** [watched] are the keys of database [i] that somebody watches. The result
    is the sequence of calls of [signalModifiedKey], which change clients only. *)
Definition touchWatchedKeysOnFlush (i : Z) (watched : list bytes) : M D (list Transaction.signal) :=
  keys ← present i watched; mret (map (fun key => (i, key, false)) keys).

Definition flush_db (i : Z) : M D unit := on_db_at rq i (fun d => Some (Db.flush d, tt)).

Definition flushdb (watched : Z -> list bytes) : M D (list Transaction.signal) :=
  signals ← touchWatchedKeysOnFlush (index rq) (watched (index rq));
  _ ← flush_db (index rq); _ ← markDirty 1; _ ← ok; mret signals.

Fixpoint flush_loop (watched : Z -> list bytes) (is_ : list Z) : M D (list Transaction.signal) :=
  match is_ with
  | [] => mret []
  | i :: is_ =>
      signals ← touchWatchedKeysOnFlush i (watched i);
      _ ← flush_db i; more ← flush_loop watched is_; mret (signals ++ more)
  end.

Definition indices : list Z := map Z.of_nat (seq 0 (Z.to_nat (databaseCount rq))).

Definition flushall (watched : Z -> list bytes) : M D (list Transaction.signal) :=
  signals ← flush_loop watched indices; _ ← markDirty 1; _ ← ok; mret signals.

(** ** Reports *)

Definition idle (v : Object.value D) : M D Z := age ← checked (now rq - Object.last_access_ms_ v); mret (Z.quot age 1000).

Definition object : M D unit :=
  sub ← shout;
  if sub =b? str "HELP" then
    _ ← arrayHeader 3;
    _ ← simpleString (str "OBJECT ENCODING <key> -- physical representation in use");
    _ ← simpleString (str "OBJECT REFCOUNT <key> -- references to the value");
    simpleString (str "OBJECT IDLETIME <key> -- seconds since last access")
  else if negb (argc rq =? 3)%nat then wrongArgs "object"
  else
    key ← arg rq 2%nat; v ← lookupRead rq key;
    match v with
    | None => error (str "ERR no such key")
    | Some v =>
        if sub =b? str "ENCODING" then bulk (encodingName (Object.encoding v))
        else if sub =b? str "REFCOUNT" then integer 1
        else if sub =b? str "IDLETIME" then n ← idle v; integer n
        else if sub =b? str "FREQ" then
          error (str "ERR An LFU maxmemory policy is not selected, access frequency not " ++
                 str "tracked. Please note that when switching between maxmemory policies at " ++
                 str "runtime LFU and LRU data will take some time to adjust.")
        else a ← arg rq 1%nat; error (str "ERR Unknown OBJECT subcommand or wrong number of arguments for '" ++ a ++ str "'")
    end.

Definition memory : M D unit :=
  sub ← shout;
  if sub =b? str "USAGE" then
    if (argc rq <? 3)%nat then wrongArgs "memory|usage"
    else
      key ← arg rq 2%nat; v ← lookupRead rq key;
      match v with
      | None => nullBulk rq
      | Some v => n ← lift (memoryUsage capacity v); integer (i64 (n + len key))
      end
  else if sub =b? str "DOCTOR" then
    bulk (str "Sam, I detected a few issues in this Redis instance memory implants:" ++ [10; 10] ++ str " * Everything looks fine from here.")
  else a ← arg rq 1%nat; error (str "ERR Unknown MEMORY subcommand or wrong number of arguments for '" ++ a ++ str "'").

(** SLEEP only takes time. *)
Definition debug : M D unit :=
  sub ← shout;
  if (sub =b? str "SLEEP") || (sub =b? str "SET-ACTIVE-EXPIRE") || (sub =b? str "JMAP") || (sub =b? str "FLUSHALL") then ok
  else if sub =b? str "RELOAD" then
    failed ← reloadRdb;
    match failed with Some e => error (str "ERR " ++ e) | None => ok end
  else if sub =b? str "OBJECT" then
    if negb (argc rq =? 3)%nat then wrongArgs "debug|object"
    else
      key ← arg rq 2%nat; v ← lookupRead rq key;
      match v with
      | None => error (str "ERR no such key")
      | Some v =>
          size ← lift (memoryUsage capacity v); n ← idle v;
          simpleString (str "Value at:0x0 refcount:1 encoding:" ++ encodingName (Object.encoding v) ++
            str " serializedlength:" ++ to_string size ++ str " lru_seconds_idle:" ++ to_string n)
      end
  else if sub =b? str "STRINGMATCH-LEN" then ok
  else if sub =b? str "DICT-STATS" then
    fun s => simpleString (str "keyspace_size:" ++ to_string (Z.of_nat (Db.size (db s))) ++
      str " buckets:" ++ to_string (Z.of_nat (bucketCount (Db.dict_ (db s)))) ++
      str " rehashing:" ++ (if isRehashing (Db.dict_ (db s)) then str "1" else str "0")) s
  else a ← arg rq 1%nat; error (str "ERR DEBUG subcommand '" ++ a ++ str "' not supported").
End Handlers.

(** ** What emptying does to the keyspaces *)

Section Flush.
Context {D : Type -> Type} {ops : MapOps D} {laws : MapLaws D} (rq : request) (t : Z).

Definition keyspace_at (g : view) (i : Z) : option keyspace := if i =? index rq then Some (K g) else KO g !! i.
Definition set_keyspace (i : Z) (G : keyspace) (g : view) : view := if i =? index rq then set_K g G else set_KO g (<[i := G]> (KO g)).

(** A method of database [i], whichever it is. *)
Lemma wp_on_db_at {A : Type} (i : Z) (G G' : keyspace) (f : Db.t D (Object.value D) -> option (Db.t D (Object.value D) * A)) (g : view) (Q : A -> view -> Prop) :
  keyspace_at g i = Some G ->
  (forall d m x b, Db.holds d m x -> (forall j, key_sim t (b j) (m !! j) (x !! j) (G !! j)) ->
     exists d' a m' x', f d = Some (d', a) /\ Db.holds d' m' x' /\ Db.config d' = Db.config d /\
       (forall j, key_sim t (b j) (m' !! j) (x' !! j) (G' !! j)) /\ Q a (set_keyspace i G' g)) ->
  wp t (on_db_at rq i f) g Q.
Proof.
  intros HG Hf. unfold keyspace_at, set_keyspace in *. destruct (Z.eqb_spec i (index rq)) as [->|Hi].
  - apply wp_intro. intros s Hs. unfold on_db_at. rewrite Z.eqb_refl. revert Hs. apply wp_elim, wp_on_db. intros d m x Hh _ Hs. simplify_eq.
    destruct (Hf d m x (fun j => bool_decide (j ∈ settled g)) Hh Hs) as (d' & a & m' & x' & E & Hh' & Hc & Hs' & HQ). by exists d', a, m', x', G', (settled g).
  - eapply wp_on_other; [done|exact HG|]. intros d m x Hh _ Hs. destruct (Hf d m x (fun _ => false) Hh Hs) as (d' & a & m' & x' & E & Hh' & Hc & Hs' & HQ). by exists d', a, m', x', G'.
Qed.

Lemma set_keyspace_same i G g : keyspace_at g i = Some G -> set_keyspace i G g = g.
Proof. unfold keyspace_at, set_keyspace. destruct (i =? index rq); [intros [= <-]; by destruct g|apply insert_same_KO]. Qed.

Lemma wp_raw_find i G key g (Q : bool -> view -> Prop) : keyspace_at g i = Some G ->
  (forall b, (is_Some (G !! key) -> b = true) -> Q b g) -> wp t (raw_find rq i key) g Q.
Proof.
  intros HG HQ. eapply (wp_on_db_at i G G); [done|]. intros d m x b [Hd He] Hs. destruct (represents_find _ _ m key Hd) as (d' & E & Hd'). rewrite E. cbn [mbind option_bind].
  eexists _, _, m, x. split_and!; [done|done|done|done|]. rewrite (set_keyspace_same _ _ _ HG). apply HQ. intros [[a e] Hk]. specialize (Hs key). rewrite Hk in Hs. by destruct Hs as (v & -> & _).
Qed.

Lemma wp_flush_db i G g (Q : unit -> view -> Prop) : keyspace_at g i = Some G -> Q tt (set_keyspace i ∅ g) -> wp t (flush_db rq i) g Q.
Proof.
  intros HG HQ. eapply (wp_on_db_at i G ∅); [done|]. intros d m x b _ _. exists (Db.flush d), tt, ∅, ∅. split_and!; [done|split; apply represents_clear|done| |done]. intros j. left. by rewrite !lookup_empty.
Qed.

Lemma wp_present i G keys g (Q : list bytes -> view -> Prop) : keyspace_at g i = Some G ->
  (forall l, l ⊆ keys -> (forall key, key ∈ keys -> is_Some (G !! key) -> key ∈ l) -> Q l g) -> wp t (present rq i keys) g Q.
Proof.
  intros HG. revert Q. induction keys as [|key keys IH]; intros Q HQ; [by apply wp_ret, HQ|]. cbn [present]. apply wp_bind, (wp_raw_find i G); [done|]. intros b Hb. apply wp_bind, IH. intros l Hl Hk. apply wp_ret, HQ.
  - destruct b; set_solver.
  - intros k Hin Hk'. apply elem_of_cons in Hin as [->|Hin]; [rewrite Hb by done; by left|]. destruct b; [right|]; by apply Hk.
Qed.

(** The calls of [signalModifiedKey]: watched keys of the database only, and
    every one of them that was visible. *)
Definition announced (i : Z) (watched : list bytes) (G : keyspace) (sgs : list Transaction.signal) : Prop :=
  (forall db key fe, (db, key, fe) ∈ sgs -> db = i /\ fe = false /\ key ∈ watched) /\
  (forall key, key ∈ watched -> is_Some (G !! key) -> (i, key, false) ∈ sgs).

Lemma wp_touch i G watched g (Q : list Transaction.signal -> view -> Prop) : keyspace_at g i = Some G ->
  (forall sgs, announced i watched G sgs -> Q sgs g) -> wp t (touchWatchedKeysOnFlush rq i watched) g Q.
Proof.
  intros HG HQ. apply wp_bind, (wp_present i G); [done|]. intros l Hl Hk. apply wp_ret, HQ. split.
  - intros db key fe Hin. apply list_elem_of_fmap in Hin as (k & [= -> -> ->] & Hin). split_and!; [done|done|by apply Hl].
  - intros key Hin Hs. apply list_elem_of_fmap. exists key. split; [done|by apply Hk].
Qed.

(** The view once the databases [is_] have been emptied. *)
Definition cleared (is_ : list Z) (g : view) : view := foldl (fun g i => set_keyspace i ∅ g) g is_.

Lemma keyspace_set i j G g : keyspace_at (set_keyspace i G g) j = if decide (j = i) then Some G else keyspace_at g j.
Proof.
  unfold keyspace_at, set_keyspace. destruct (Z.eqb_spec i (index rq)), (Z.eqb_spec j (index rq)), (decide (j = i)); subst; try done; cbn [K KO set_K set_KO].
  - by rewrite lookup_insert_eq.
  - by rewrite lookup_insert_ne.
Qed.

Lemma wp_flush_loop watched is_ g (Q : list Transaction.signal -> view -> Prop) : NoDup is_ ->
  (forall i, i ∈ is_ -> is_Some (keyspace_at g i)) ->
  (forall sgs, (forall db key fe, (db, key, fe) ∈ sgs -> db ∈ is_ /\ fe = false /\ key ∈ watched db) ->
     (forall i G key, i ∈ is_ -> keyspace_at g i = Some G -> key ∈ watched i -> is_Some (G !! key) -> (i, key, false) ∈ sgs) -> Q sgs (cleared is_ g)) ->
  wp t (flush_loop rq watched is_) g Q.
Proof.
  intros Hnd. revert g Q. induction Hnd as [|i is_ Hi Hnd IH]; intros g Q Hall HQ; [apply wp_ret, HQ; set_solver|].
  destruct (Hall i ltac:(by left)) as [G HG]. cbn [flush_loop]. apply wp_bind, (wp_touch i G); [done|]. intros sgs [Hs1 Hs2]. apply wp_bind, (wp_flush_db i G); [done|].
  apply wp_bind, IH.
  { intros j Hj. rewrite keyspace_set. case_decide; [done|]. apply Hall. by right. }
  intros more Hm1 Hm2. apply wp_ret, (HQ (sgs ++ more)).
  - intros db key fe Hin. apply elem_of_app in Hin as [Hin|Hin]; [destruct (Hs1 _ _ _ Hin) as (-> & -> & ?); split_and!; [by left|done|done]|].
    destruct (Hm1 _ _ _ Hin) as (? & ? & ?). split_and!; [by right|done|done].
  - intros j G' key Hj HG' Hw Hk. apply elem_of_app. apply elem_of_cons in Hj as [->|Hj]; [left; apply Hs2; [done|congruence]|right].
    eapply Hm2; [done| |done|done]. rewrite keyspace_set. rewrite decide_False; [done|]. intros ->. done.
Qed.

(** The view after FLUSHALL: every database is empty, the rest is as before. *)
Lemma cleared_at is_ j g : keyspace_at (cleared is_ g) j = if decide (j ∈ is_) then Some ∅ else keyspace_at g j.
Proof.
  unfold cleared. revert g. induction is_ as [|i is_ IH]; intros g; cbn [foldl]; [by rewrite decide_False by set_solver|]. rewrite IH, keyspace_set.
  destruct (decide (j ∈ is_)); [by rewrite decide_True by set_solver|]. destruct (decide (j = i)) as [->|]; [by rewrite decide_True by set_solver|by rewrite decide_False by set_solver].
Qed.

Lemma cleared_out is_ g : out (cleared is_ g) = out g.
Proof. unfold cleared. revert g. induction is_ as [|i is_ IH]; intros g; cbn [foldl]; [done|]. rewrite IH. unfold set_keyspace. by destruct (i =? index rq). Qed.

Lemma indices_in i : i ∈ indices rq <-> 0 <= i < databaseCount rq.
Proof.
  unfold indices. rewrite list_elem_of_fmap. split.
  - intros (n & -> & Hn). apply elem_of_seq in Hn. lia.
  - intros H. exists (Z.to_nat i). split; [lia|]. apply elem_of_seq. lia.
Qed.

Lemma indices_nodup : NoDup (indices rq).
Proof. unfold indices. apply NoDup_fmap; [intros a b; lia|apply NoDup_seq]. Qed.
End Flush.

(** ** What the watchers see *)

Section Watchers.
Context {E : Type}.
Implicit Types (sv : Transaction.server (D := E)).

(** The keys of database [i] somebody watches. *)
Definition watched_in sv (i : Z) : list bytes :=
  omap (fun e : Z * bytes * gset Z => let '(db, key, _) := e in if db =? i then Some key else None) (map_to_list (Transaction.watch_index sv)).

Lemma watched_in_elem sv i key : key ∈ watched_in sv i <-> is_Some (Transaction.watch_index sv !! (i, key)).
Proof.
  unfold watched_in. rewrite list_elem_of_omap. split.
  - intros ([[db k] fds] & Hin & Heq). apply elem_of_map_to_list in Hin. destruct (Z.eqb_spec db i) as [->|]; simplify_eq. by eexists.
  - intros [fds H]. exists (i, key, fds). split; [by apply elem_of_map_to_list|]. by rewrite Z.eqb_refl.
Qed.

Definition reaches (fd : Z) sv (sg : Transaction.signal) : bool := let '(db, key, _) := sg in bool_decide (fd ∈ Transaction.watchers db key sv).

Lemma signals_dirty (sgs : list Transaction.signal) sv fd : (forall db key fe, (db, key, fe) ∈ sgs -> fe = false) ->
  Transaction.clients_ (Transaction.signals sgs sv) !! fd =
  (fun c => if existsb (reaches fd sv) sgs then Transaction.set_dirty true c else c) <$> Transaction.clients_ sv !! fd.
Proof.
  unfold Transaction.signals. revert sv. induction sgs as [|[[db key] fe] sgs IH]; intros sv Hfe; cbn [foldl existsb]; [by destruct (Transaction.clients_ sv !! fd)|].
  rewrite (Hfe db key fe) by (by left). destruct (Transaction.signal_effect (fun _ _ d x _ => Transaction.mkOutcome d x [] []) sv db key false) as (_ & Hi & Hc). rewrite IH by (intros ???; intros; eapply Hfe; by right). rewrite Hc.
  assert (forall sg, reaches fd (Transaction.signalModifiedKey sv (db, key, false)) sg = reaches fd sv sg) as Hr by (intros [[db' key'] ?]; unfold reaches, Transaction.watchers; by rewrite Hi).
  assert (existsb (reaches fd (Transaction.signalModifiedKey sv (db, key, false))) sgs = existsb (reaches fd sv) sgs) as -> by (clear IH Hfe; induction sgs as [|sg sgs IHs]; cbn [existsb]; [done|by rewrite Hr, IHs]).
  change (reaches fd sv (db, key, false)) with (bool_decide (fd ∈ Transaction.watchers db key sv)). destruct (decide (fd ∈ Transaction.watchers db key sv)) as [Hin|Hn].
  - rewrite bool_decide_eq_true_2 by done. cbn [orb]. destruct (Transaction.clients_ sv !! fd) as [c|]; [|done]. cbn. f_equal. by destruct (existsb _ sgs).
  - by rewrite bool_decide_eq_false_2 by done.
Qed.
End Watchers.

Section Claims.
Context {D : Type -> Type} {ops : MapOps D} {laws : MapLaws D} {E : Type} (rq : request).

(** C11: FLUSHALL on a server whose databases are in a state that the abstract view
    [g] describes and whose clients watch keys: it succeeds and replies OK,
    every database is empty afterwards, a client that watched a key which
    existed is marked so that its next EXEC fails, and a client that watches no
    key is left alone. *)
Theorem flushall_seen (s : state D) (g : view) (sv : Transaction.server (D := E)) :
  sim (now rq) s g -> Transaction.index_agrees sv ->
  (forall i, 0 <= i < databaseCount rq -> is_Some (keyspace_at rq g i)) ->
  exists s' sgs g', flushall rq (watched_in sv) s = Some (s', sgs) /\ sim (now rq) s' g' /\ out g' = out g ++ Reply.simpleString (str "OK") /\
    (forall i, 0 <= i < databaseCount rq -> keyspace_at rq g' i = Some ∅) /\
    forall fd c, Transaction.clients_ sv !! fd = Some c -> exists c', Transaction.clients_ (Transaction.signals sgs sv) !! fd = Some c' /\
      (forall i key G, 0 <= i < databaseCount rq -> keyspace_at rq g i = Some G -> is_Some (G !! key) -> Transaction.watches i key c = true -> Transaction.dirty_cas_ c' = true) /\
      ((forall i key, 0 <= i < databaseCount rq -> Transaction.watches i key c = false) -> c' = c).
Proof.
  intros Hsim [Hag _] Hall. assert (wp (now rq) (flushall rq (watched_in sv)) g (fun sgs g' =>
    g' = say (Reply.simpleString (str "OK")) (mark 1 (cleared rq (indices rq) g)) /\ (forall db key fe, (db, key, fe) ∈ sgs -> db ∈ indices rq /\ fe = false) /\
    (forall i G key, i ∈ indices rq -> keyspace_at rq g i = Some G -> key ∈ watched_in sv i -> is_Some (G !! key) -> (i, key, false) ∈ sgs))) as Hwp.
  { unfold flushall. apply wp_bind, wp_flush_loop; [apply indices_nodup|intros i Hi; by apply Hall, indices_in|]. intros sgs H1 H2. apply wp_bind, wp_dirty, wp_bind, wp_write, wp_ret. split_and!; [done| |done]. intros db key fe Hin. by apply H1 in Hin as (? & ? & _). }
  destruct (wp_elim _ _ _ _ _ Hwp Hsim) as (s' & sgs & g' & Hrun & Hsim' & -> & Hfe & Hann). exists s', sgs, (say (Reply.simpleString (str "OK")) (mark 1 (cleared rq (indices rq) g))). split_and!; [done|done| | |].
  - cbn [out say mark]. by rewrite cleared_out.
  - intros i Hi. change (keyspace_at rq (cleared rq (indices rq) g) i = Some ∅). by rewrite cleared_at, decide_True by by apply indices_in.
  - intros fd c Hc. rewrite (signals_dirty sgs sv fd (fun db key fe H => proj2 (Hfe db key fe H))), Hc. cbn. eexists. split; [done|]. split.
    + intros i key G Hi HG Hk Hw. assert (fd ∈ Transaction.watchers i key sv) as Hin by (apply Hag; eauto).
      rewrite (proj2 (existsb_exists (reaches fd sv) sgs)); [done|]. exists (i, key, false). split; [|by apply bool_decide_eq_true].
      apply list_elem_of_In, (Hann i G); [by apply indices_in|done| |done]. apply watched_in_elem. unfold Transaction.watchers in Hin. destruct (Transaction.watch_index sv !! (i, key)); [done|by apply not_elem_of_empty in Hin].
    + intros Hw. destruct (existsb (reaches fd sv) sgs) eqn:Hx; [|done]. apply existsb_exists in Hx as ([[db key] fe] & Hin & Hr). apply bool_decide_eq_true, Hag in Hr as (c' & Hc' & Hw'). simplify_eq.
      apply list_elem_of_In, Hfe in Hin as [Hin _]. rewrite (Hw db key) in Hw'; [done|by apply indices_in].
Qed.

(** A lookup touches the value before the handler sees it. *)
Lemma wp_lookup_touched k g (Q : option (Object.value D) -> view -> Prop) :
  match K g !! k with
  | Some (a, e) => forall v, models v a -> Object.last_access_ms_ v = now rq -> Q (Some v) (settle k g)
  | None => Q None (settle k g)
  end -> wp (now rq) (lookupRead rq k) g Q.
Proof.
  intros HQ. apply wp_on_db. intros d m x Hh He Hs. destruct (lookup_in_sim (now rq) k _ _ d m x Hh He Hs) as (d' & o & m' & x' & Hf & Hh' & Hc & Hs' & Ho).
  exists d', o, m', x', (K g), ({[k]} ∪ settled g). split_and!; [done..|]. destruct (K g !! k) as [[a e]|]; [|by subst o]. destruct Ho as (v & -> & Hv). apply HQ; [done|].
  destruct (Db.lookupRead_ok Object.touch d m x k (now rq) Hh) as (d1 & m1 & x1 & E1 & _). rewrite Hf in E1. destruct (Db.visible m x (now rq) !! k); by simplify_eq/=.
Qed.

(** OBJECT IDLETIME of a key that exists replies 0 whenever the key was last
    used: the lookup that the command makes counts as a use. *)
Theorem idletime_is_zero (s : state D) (g : view) (word sub key : bytes) :
  sim (now rq) s g -> argv rq = [word; sub; key] -> toUpper sub = str "IDLETIME" -> is_Some (K g !! key) ->
  exists s' , object rq s = Some (s', tt) /\ reply s' = reply s ++ Reply.integer 0.
Proof.
  intros Hsim Hargv Hsub [[a e] Hk]. assert (wp (now rq) (object rq) g (fun _ g' => out g' = out g ++ Reply.integer 0)) as Hwp.
  { unfold object, shout, arg, argc. rewrite Hargv. apply wp_bind, wp_bind, (wp_lift _ _ sub); [done|]. apply wp_ret. rewrite Hsub.
    change (str "IDLETIME" =b? str "HELP") with false. cbv iota. cbn [length Nat.eqb negb]. apply wp_bind, (wp_lift _ _ key); [done|]. apply wp_bind, wp_lookup_touched. rewrite Hk. intros v _ Hv.
    change (str "IDLETIME" =b? str "ENCODING") with false. change (str "IDLETIME" =b? str "REFCOUNT") with false. change (str "IDLETIME" =b? str "IDLETIME") with true. cbv iota.
    unfold idle. rewrite Hv, Z.sub_diag. apply wp_bind, wp_bind, wp_checked; [by unfold is_i64|]. by apply wp_ret, wp_write. }
  destruct (wp_elim _ _ _ _ _ Hwp Hsim) as (s' & [] & g' & Hrun & (_ & _ & Hout' & _) & HQ). destruct Hsim as (_ & _ & Hout & _). exists s'. split; [done|]. congruence.
Qed.
End Claims.

#[local] Existing Instance Dict.dict_ops.
#[local] Existing Instance Dict.dict_laws.

Module Demo.
Definition two (words : list string) : request := mkReq (map str words) 1000 2 0 2 (fun _ _ _ _ => 0).

(** Key [k] holds a string in database 0; database 1 is empty. *)
Definition held : Object.value Dict.dict := Object.makeString (str "v").
Definition used : state Dict.dict := mkState (default Db.new (Db.setKey Db.new (str "k") held)) {[1 := Db.new]} [] 0 0 0 [] 0.
Definition used_view : view := mkView {[str "k" := (AStr (str "v"), None)]} {[1 := ∅]} [] [] 0 0 0 ∅.

(** Client 7 watches it. *)
Definition watcher : Transaction.client :=
  Transaction.mkClient (Transaction.mkSession 0 2 true false) true false false [] [Transaction.mkWatched 0 (str "k") false].
Definition watching : Transaction.server (D := unit) := Transaction.mkServer tt {[7 := watcher]} {[(0, str "k") := {[7]}]}.

Lemma used_sim : sim 1000 used used_view.
Proof.
  destruct (Db.setKey_ok (Db.new (D := Dict.dict)) ∅ ∅ (str "k") held Db.db_holds_new) as (d & E & Hh & Hc & Hev).
  split; [|split; [|done]].
  - unfold used. cbn [db]. rewrite E. cbn [default from_option id]. split; [unfold Db.config in Hc; by simplify_eq|]. split; [vm_compute in E; by simplify_eq|]. eexists _, _. split; [exact Hh|].
    intros j. cbn [K used_view]. destruct (decide (j = str "k")) as [->|Hj].
    + rewrite lookup_insert_eq, lookup_delete_eq, lookup_singleton_eq. exists held. split_and!; try done; vm_compute; repeat constructor.
    + rewrite lookup_insert_ne, lookup_delete_ne, lookup_singleton_ne, !lookup_empty by done. by left.
  - intros i. cbn. destruct (decide (i = 1)) as [->|Hi]; [rewrite !lookup_singleton_eq; constructor|rewrite !lookup_singleton_ne by done; constructor].
    split_and!; [done|done|]. exists ∅, ∅. split; [apply Db.db_holds_new|]. intros j. rewrite !lookup_empty. by left.
Qed.

Lemma watching_agrees : Transaction.index_agrees watching.
Proof.
  split.
  - intros db key fd. unfold Transaction.watchers. cbn [Transaction.watch_index watching]. split.
    + intros Hin. destruct (decide ((db, key) = (0, str "k"))) as [E|Hne]; [|rewrite lookup_singleton_ne in Hin by done; by apply not_elem_of_empty in Hin].
      rewrite E, lookup_singleton_eq in Hin. cbn [default from_option id] in Hin. apply elem_of_singleton in Hin as ->. apply pair_equal_spec in E as [-> ->]. exists watcher. split; [done|]. by vm_compute.
    + intros (c & Hc & Hw). cbn [Transaction.clients_ watching] in Hc. apply lookup_singleton_Some in Hc as [<- <-]. unfold Transaction.watches in Hw. cbn [Transaction.watched_keys_ watcher existsb] in Hw.
      rewrite orb_false_r in Hw. unfold Transaction.same_key in Hw. cbn [Transaction.w_db Transaction.w_key] in Hw. apply andb_prop in Hw as [E1 E2]. apply Z.eqb_eq in E1 as <-. apply bool_decide_eq_true in E2 as <-. rewrite lookup_singleton_eq. cbn [default from_option id]. by apply elem_of_singleton.
  - intros k Hk. cbn in Hk. apply lookup_singleton_Some in Hk as [_ Hk]. assert (7 ∈@{gset Z} ∅) as H by (rewrite <- Hk; by apply elem_of_singleton). by apply not_elem_of_empty in H.
Qed.
End Demo.

Lemma flushall_seen_witness :
  exists s' sgs, flushall (Demo.two ["FLUSHALL"]) (watched_in Demo.watching) Demo.used = Some (s', sgs) /\
    exists c', Transaction.clients_ (Transaction.signals sgs Demo.watching) !! 7 = Some c' /\ Transaction.dirty_cas_ c' = true.
Proof.
  destruct (flushall_seen (Demo.two ["FLUSHALL"]) Demo.used Demo.used_view Demo.watching Demo.used_sim Demo.watching_agrees) as (s' & sgs & g' & Hrun & _ & _ & _ & Hc).
  - intros i Hi. change (0 <= i < 2) in Hi. assert (i = 0 \/ i = 1) as [-> | ->] by lia; unfold keyspace_at; [exists (K Demo.used_view); reflexivity|exists ∅; reflexivity].
  - exists s', sgs. split; [exact Hrun|]. destruct (Hc 7 Demo.watcher eq_refl) as (c' & H1 & H2 & _). exists c'. split; [exact H1|].
    apply (H2 0 (str "k") (K Demo.used_view)); [vm_compute; split; [discriminate|reflexivity]|reflexivity|exists (AStr (str "v"), None); vm_compute; reflexivity|vm_compute; reflexivity].
Defined.

Lemma idletime_is_zero_witness :
  exists s', object (Demo.two ["OBJECT"; "IDLETIME"; "k"]) Demo.used = Some (s', tt) /\ reply s' = reply Demo.used ++ Reply.integer 0.
Proof.
  apply (idletime_is_zero (Demo.two ["OBJECT"; "IDLETIME"; "k"]) Demo.used Demo.used_view (str "OBJECT") (str "IDLETIME") (str "k") Demo.used_sim); [reflexivity|vm_compute; reflexivity|exists (AStr (str "v"), None); vm_compute; reflexivity].
Defined.

End ServerCommands.
