(* ===== verification/AdminCommands.v ===== *)
(** * AdminCommands: sessions, authentication, configuration and reports

    [src/server/commands/connection.cpp], and of
    [src/server/commands/server_commands.cpp] the commands that read or change
    the server rather than a value: INFO, CONFIG, COMMAND, TIME, LASTSAVE and
    SHUTDOWN. A handler takes the server, the client and the arguments to the
    server and the client afterwards and the reply; [None] is an argument that is not there,
    which the arity check of dispatch excludes. *)

From Stdlib Require Import ZArith Lia.
From stdpp Require Import base list numbers option strings gmap.
From S2P Require Import Prelude Encoding Strings Resp Reply Notify CommandTable Transaction.
Import CommandTable Transaction.

Module Admin.

(** ** The server and its clients, as these commands see them *)

Record Config := mkConfig {
  bind_address : bytes; port : Z; databases : Z; max_clients : Z; requirepass : bytes; dir : bytes; dbfilename : bytes; notify_flags : Z }.

Record Stats := mkStats {
  connections_received : Z; commands_processed : Z; expired_keys : Z; keyspace_hits : Z; keyspace_misses : Z;
  rejected_connections : Z; total_net_input : Z; total_net_output : Z }.

Definition no_stats : Stats := mkStats 0 0 0 0 0 0 0 0.

(** [Client]: the session that dispatch looks at, and the rest. *)
Record Client := mkClient_ {
  session_of : session; id : Z; addr : bytes; client_name : bytes; created_at_ms : Z; last_interaction_ms : Z; last_command : bytes; close_after_reply : bool }.

(** The server. [save_time] is the time at which a [saveRdb] made now would
    succeed, [None] when it would fail ([Persistence.saveRdb]); [keyspaces] the
    number of keys and of deadlines in each database. *)
Record Server := mkServer_ {
  config_ : Config; stats_ : Stats; now_ms : Z; start_time_ms : Z; run_id : bytes; pid : Z; os : bytes; time_of_day : Z * Z;
  clients : list Client; keyspaces : list (Z * Z); dirty : Z; bgsave_in_progress : bool; last_save_time : Z; last_bgsave_ok : bool; rdb_saves : Z;
  save_time : option Z; stopping : bool }.

Definition with_config (s : Server) (c : Config) : Server :=
  mkServer_ c (stats_ s) (now_ms s) (start_time_ms s) (run_id s) (pid s) (os s) (time_of_day s) (clients s) (keyspaces s) (dirty s)
    (bgsave_in_progress s) (last_save_time s) (last_bgsave_ok s) (rdb_saves s) (save_time s) (stopping s).
Definition with_stats (s : Server) (x : Stats) : Server :=
  mkServer_ (config_ s) x (now_ms s) (start_time_ms s) (run_id s) (pid s) (os s) (time_of_day s) (clients s) (keyspaces s) (dirty s)
    (bgsave_in_progress s) (last_save_time s) (last_bgsave_ok s) (rdb_saves s) (save_time s) (stopping s).
Definition stop (s : Server) : Server :=
  mkServer_ (config_ s) (stats_ s) (now_ms s) (start_time_ms s) (run_id s) (pid s) (os s) (time_of_day s) (clients s) (keyspaces s) (dirty s)
    (bgsave_in_progress s) (last_save_time s) (last_bgsave_ok s) (rdb_saves s) (save_time s) true.
(** What [saveRdb] records when it succeeds. *)
Definition saved (s : Server) (time : Z) : Server :=
  mkServer_ (config_ s) (stats_ s) (now_ms s) (start_time_ms s) (run_id s) (pid s) (os s) (time_of_day s) (clients s) (keyspaces s) 0
    (bgsave_in_progress s) time (last_bgsave_ok s) (u64 (rdb_saves s + 1)) (save_time s) (stopping s).
Definition databaseCount (s : Server) : Z := Z.of_nat (length (keyspaces s)).

Definition with_session (c : Client) (x : session) : Client :=
  mkClient_ x (id c) (addr c) (client_name c) (created_at_ms c) (last_interaction_ms c) (last_command c) (close_after_reply c).
Definition setName (c : Client) (n : bytes) : Client :=
  mkClient_ (session_of c) (id c) (addr c) n (created_at_ms c) (last_interaction_ms c) (last_command c) (close_after_reply c).
Definition closeAfterReply (c : Client) : Client :=
  mkClient_ (session_of c) (id c) (addr c) (client_name c) (created_at_ms c) (last_interaction_ms c) (last_command c) true.

Definition setDbIndex (c : Client) (i : Z) : Client :=
  with_session c (mkSession i (protover_ (session_of c)) (authenticated_ (session_of c)) (subscriber_mode (session_of c))).
Definition setProtocolVersion (c : Client) (v : Z) : Client :=
  with_session c (mkSession (db_index_ (session_of c)) v (authenticated_ (session_of c)) (subscriber_mode (session_of c))).
Definition setAuthenticated (c : Client) (a : bool) : Client :=
  with_session c (mkSession (db_index_ (session_of c)) (protover_ (session_of c)) a (subscriber_mode (session_of c))).

Definition protocolVersion (c : Client) : Z := protover_ (session_of c).
Definition authenticated (c : Client) : bool := authenticated_ (session_of c).

Definition no_password (s : Server) : bool := (length (requirepass (config_ s)) =? 0)%nat.

(** ** Handlers *)

Definition handler_type : Type := Server -> Client -> list bytes -> option (Server * Client * bytes).

Definition error (t : bytes) : bytes := Reply.error t.
Definition wrongArgs (command : bytes) : bytes := error (str "ERR " ++ wrongArgsText command).
Definition ok : bytes := Reply.simpleString (str "OK").
Definition answer (s : Server) (c : Client) (reply : bytes) : option (Server * Client * bytes) := Some (s, c, reply).
Definition argc (argv : list bytes) : Z := Z.of_nat (length argv).
Definition shout (argv : list bytes) : option bytes := toUpper <$> argv !! 1%nat.

(** *** Sessions *)

Definition ping : handler_type := fun s c argv =>
  if 2 <? argc argv then answer s c (wrongArgs (str "ping"))
  else if (protocolVersion c =? 2) && subscriber_mode (session_of c) then
    answer s c (Reply.pushHeader (protocolVersion c) 2 ++ Reply.bulk (str "pong") ++ Reply.bulk (default [] (argv !! 1%nat)))
  else answer s c (match argv !! 1%nat with Some a => Reply.bulk a | None => Reply.simpleString (str "PONG") end).

Definition echo : handler_type := fun s c argv => a ← argv !! 1%nat; answer s c (Reply.bulk a).

Definition select : handler_type := fun s c argv =>
  a ← argv !! 1%nat;
  match stringToInt64 a with
  | None => answer s c (error (str "ERR value is not an integer or out of range"))
  | Some index =>
      if (index <? 0) || (databaseCount s <=? index) then answer s c (error (str "ERR DB index is out of range"))
      else answer s (setDbIndex c (i32 index)) ok
  end.

Definition wrongpass : bytes := error (str "WRONGPASS invalid username-password pair or user is disabled.").

(** The loop over the options; an error ends the command. *)
Fixpoint hello_options (s : Server) (options : list bytes) (c : Client) : Client * option bytes :=
  let unsupported := Some (error (str "ERR Protocol error: unsupported HELLO option")) in
  match options with
  | [] => (c, None)
  | [o] => (c, unsupported)
  | o :: a :: more =>
      match more with
      | password :: more' =>
          if equalsIgnoreCase o (str "AUTH") then
            if no_password s || (password =b? requirepass (config_ s)) then hello_options s more' (setAuthenticated c true) else (c, Some wrongpass)
          else if equalsIgnoreCase o (str "SETNAME") then hello_options s more (setName c a)
          else (c, unsupported)
      | [] => if equalsIgnoreCase o (str "SETNAME") then hello_options s more (setName c a) else (c, unsupported)
      end
  end.

Definition greeting (requested id : Z) : bytes :=
  Reply.mapHeader requested 7 ++ Reply.bulk (str "server") ++ Reply.bulk (str "mnemos") ++ Reply.bulk (str "version") ++ Reply.bulk (str "0.1.0") ++
  Reply.bulk (str "proto") ++ Reply.integer requested ++ Reply.bulk (str "id") ++ Reply.integer (i64 id) ++ Reply.bulk (str "mode") ++ Reply.bulk (str "standalone") ++
  Reply.bulk (str "role") ++ Reply.bulk (str "master") ++ Reply.bulk (str "modules") ++ Reply.arrayHeader 0.

(** Once the version is known. *)
Definition hello_as (s : Server) (c : Client) (requested : Z) : option (Server * Client * bytes) :=
  if negb (no_password s) && negb (authenticated c) then
    answer s c (error (str "NOAUTH HELLO must be called with the client already authenticated, " ++
      str "otherwise the HELLO <proto> AUTH <user> <pass> option can be used to " ++ str "authenticate the client and select the RESP protocol version at the " ++ str "same time"))
  else answer s (setProtocolVersion c requested) (greeting requested (id c)).

Definition hello : handler_type := fun s c argv =>
  match tail argv with
  | [] => hello_as s c (protocolVersion c)
  | v :: options =>
      match stringToInt64 v with
      | Some version =>
          if (version =? 2) || (version =? 3) then
            let '(c, failed) := hello_options s options c in
            match failed with Some reply => answer s c reply | None => hello_as s c version end
          else answer s c (error (str "NOPROTO unsupported protocol version"))
      | None => answer s c (error (str "NOPROTO unsupported protocol version"))
      end
  end.

Definition auth : handler_type := fun s c argv =>
  if 3 <? argc argv then answer s c (wrongArgs (str "auth"))
  else if no_password s then answer s c (error (str "ERR Client sent AUTH, but no password is set. Did you mean AUTH " ++ str "<username> <password>?"))
  else
    password ← last argv;
    if password =b? requirepass (config_ s) then answer s (setAuthenticated c true) ok else answer s c wrongpass.

Definition quit : handler_type := fun s c argv => answer s (closeAfterReply c) ok.

(** [discardTransaction] and [clearSubscriptions] act on the server's indexes,
    which are not part of this state. *)
Definition reset : handler_type := fun s c argv =>
  answer s (setName (with_session c (mkSession 0 2 (no_password s) false)) []) (Reply.simpleString (str "RESET")).

Definition describeClient (c : Client) (now db_index : Z) : bytes :=
  str "id=" ++ to_string (id c) ++ str " addr=" ++ addr c ++ str " name=" ++ client_name c ++
  str " age=" ++ to_string (Z.quot (now - created_at_ms c) 1000) ++ str " idle=" ++ to_string (Z.quot (now - last_interaction_ms c) 1000) ++
  str " db=" ++ to_string db_index ++ str " resp=" ++ to_string (protocolVersion c) ++
  str " cmd=" ++ (if (length (last_command c) =? 0)%nat then str "NULL" else last_command c).

Definition line_break (x : Z) : bool := (x =? 32) || (x =? 10) || (x =? 13).

Definition client : handler_type := fun s c argv =>
  sub ← shout argv;
  if sub =b? str "ID" then answer s c (Reply.integer (i64 (id c)))
  else if sub =b? str "GETNAME" then
    answer s c (if (length (client_name c) =? 0)%nat then Reply.nullBulk (protocolVersion c) else Reply.bulk (client_name c))
  else if sub =b? str "SETNAME" then
    match argv with
    | [_; _; n] =>
        if existsb line_break n then answer s c (error (str "ERR Client names cannot contain spaces, newlines or special characters."))
        else answer s (setName c n) ok
    | _ => answer s c (wrongArgs (str "client|setname"))
    end
  else if sub =b? str "SETINFO" then answer s c ok
  else if sub =b? str "LIST" then
    answer s c (Reply.bulk (concat (map (fun o => describeClient o (now_ms s) (db_index_ (session_of o)) ++ [10]) (clients s))))
  else if sub =b? str "INFO" then answer s c (Reply.bulk (describeClient c (now_ms s) (db_index_ (session_of c))))
  else if (sub =b? str "NO-EVICT") || (sub =b? str "NO-TOUCH") then answer s c ok
  else
    a ← argv !! 1%nat;
    answer s c (error (str "ERR Unknown CLIENT subcommand or wrong number of arguments for '" ++ a ++ str "'")).

(** *** Configuration *)

Definition configEntries (s : Server) : list (bytes * bytes) :=
  let c := config_ s in
  [(str "maxmemory", str "0"); (str "maxmemory-policy", str "noeviction"); (str "appendonly", str "no"); (str "save", str "3600 1 300 100 60 10000");
   (str "dir", dir c); (str "dbfilename", dbfilename c); (str "bind", bind_address c); (str "port", to_string (port c)); (str "databases", to_string (databases c));
   (str "maxclients", to_string (max_clients c)); (str "requirepass", requirepass c); (str "notify-keyspace-events", Notify.formatFlags (notify_flags c));
   (str "proto-max-bulk-len", str "536870912"); (str "timeout", str "0"); (str "tcp-keepalive", str "300");
   (str "hash-max-listpack-entries", str "512"); (str "hash-max-listpack-value", str "64"); (str "list-max-listpack-size", str "-2"); (str "set-max-intset-entries", str "512");
   (str "set-max-listpack-entries", str "128"); (str "zset-max-listpack-entries", str "128"); (str "zset-max-listpack-value", str "64")].

(** The matcher answers the same whether plain [char] is signed or not. *)
Definition matches (patterns : list bytes) (name : bytes) : bool := existsb (fun p => default false (Glob.globMatch true false (toLower p) name)) patterns.

Definition config_get (s : Server) (patterns : list bytes) : list (bytes * bytes) := List.filter (fun e => matches patterns (fst e)) (configEntries s).

(** The pairs of CONFIG SET. *)
Fixpoint pairs (args : list bytes) : list (bytes * bytes) := match args with n :: v :: args => (n, v) :: pairs args | _ => [] end.

Definition kClassChars : bytes := str "Ag$lshzxeKEtmdnocaSTIV".

Definition is_flags (n : bytes) : bool := toLower n =b? str "notify-keyspace-events".

Definition valid_pair (p : bytes * bytes) : bool := if is_flags (fst p) then is_some (Notify.parseFlags (snd p)) else true.

Definition set_pair (c : Config) (p : bytes * bytes) : Config :=
  let '(n, v) := p in
  let n := toLower n in
  if n =b? str "notify-keyspace-events" then
    mkConfig (bind_address c) (port c) (databases c) (max_clients c) (requirepass c) (dir c) (dbfilename c) (default (notify_flags c) (Notify.parseFlags v))
  else if n =b? str "requirepass" then mkConfig (bind_address c) (port c) (databases c) (max_clients c) v (dir c) (dbfilename c) (notify_flags c)
  else if n =b? str "dir" then mkConfig (bind_address c) (port c) (databases c) (max_clients c) (requirepass c) v (dbfilename c) (notify_flags c)
  else if n =b? str "dbfilename" then mkConfig (bind_address c) (port c) (databases c) (max_clients c) (requirepass c) (dir c) v (notify_flags c)
  else c.

Definition config_set (s : Server) (args : list bytes) : Server * bytes :=
  if forallb valid_pair (pairs args) then (with_config s (foldl set_pair (config_ s) (pairs args)), ok)
  else (s, error (str "ERR CONFIG SET failed (possibly related to argument " ++ str "'notify-keyspace-events') - Invalid event class " ++ str "character. Use '" ++ kClassChars ++ str "'.")).

Definition config : handler_type := fun s c argv =>
  sub ← shout argv;
  if sub =b? str "GET" then
    if argc argv <? 3 then answer s c (wrongArgs (str "config|get"))
    else
      let matched := config_get s (drop 2 argv) in
      answer s c (Reply.mapHeader (protocolVersion c) (Z.of_nat (length matched)) ++ concat (map (fun e => Reply.bulk (fst e) ++ Reply.bulk (snd e)) matched))
  else if sub =b? str "SET" then
    if (argc argv <? 4) || negb ((argc argv - 2) mod 2 =? 0) then answer s c (wrongArgs (str "config|set"))
    else let '(s, reply) := config_set s (drop 2 argv) in answer s c reply
  else if sub =b? str "RESETSTAT" then answer (with_stats s no_stats) c ok
  else
    a ← argv !! 1%nat;
    answer s c (error (str "ERR Unknown CONFIG subcommand or wrong number of arguments for '" ++ a ++ str "'")).

(** *** Reports *)

Definition field (name : string) (value : bytes) : bytes := str name ++ str ":" ++ value ++ Resp.crlf.
Definition heading (name : string) : bytes := str "# " ++ str name ++ Resp.crlf.

Definition info_server (s : Server) : bytes :=
  let uptime_ms := now_ms s - start_time_ms s in
  heading "Server" ++ field "redis_version" (str "7.4.0") ++ field "mnemos_version" (str "0.1.0") ++ field "redis_mode" (str "standalone") ++ field "os" (os s) ++
  field "arch_bits" (str "64") ++ field "process_id" (to_string (pid s)) ++ field "run_id" (run_id s) ++ field "tcp_port" (to_string (port (config_ s))) ++
  field "uptime_in_seconds" (to_string (Z.quot uptime_ms 1000)) ++ field "uptime_in_days" (to_string (Z.quot (Z.quot uptime_ms 1000) 86400)) ++ Resp.crlf.

Definition info_clients (s : Server) : bytes :=
  heading "Clients" ++ field "connected_clients" (to_string (Z.of_nat (length (clients s)))) ++ field "maxclients" (to_string (max_clients (config_ s))) ++ Resp.crlf.

Definition info_stats (x : Stats) : bytes :=
  heading "Stats" ++ field "total_connections_received" (to_string (connections_received x)) ++ field "total_commands_processed" (to_string (commands_processed x)) ++
  field "total_net_input_bytes" (to_string (total_net_input x)) ++ field "total_net_output_bytes" (to_string (total_net_output x)) ++
  field "rejected_connections" (to_string (rejected_connections x)) ++ field "expired_keys" (to_string (expired_keys x)) ++
  field "keyspace_hits" (to_string (keyspace_hits x)) ++ field "keyspace_misses" (to_string (keyspace_misses x)) ++ Resp.crlf.

Definition info_replication (s : Server) : bytes :=
  heading "Replication" ++ field "role" (str "master") ++ field "connected_slaves" (str "0") ++ field "master_replid" (run_id s) ++ field "master_repl_offset" (str "0") ++ Resp.crlf.

Definition info_persistence (s : Server) : bytes :=
  heading "Persistence" ++ field "loading" (str "0") ++ field "rdb_changes_since_last_save" (to_string (dirty s)) ++
  field "rdb_bgsave_in_progress" (if bgsave_in_progress s then str "1" else str "0") ++ field "rdb_last_save_time" (to_string (last_save_time s)) ++
  field "rdb_last_bgsave_status" (if last_bgsave_ok s then str "ok" else str "err") ++ field "rdb_saves" (to_string (rdb_saves s)) ++ field "aof_enabled" (str "0") ++ Resp.crlf.

Fixpoint info_databases (i : Z) (l : list (Z * Z)) : bytes :=
  match l with
  | [] => []
  | (keys, expires) :: l =>
      (if keys =? 0 then [] else str "db" ++ to_string i ++ str ":keys=" ++ to_string keys ++ str ",expires=" ++ to_string expires ++ str ",avg_ttl=0" ++ Resp.crlf) ++
      info_databases (i + 1) l
  end.

Definition info_keyspace (s : Server) : bytes := heading "Keyspace" ++ info_databases 0 (keyspaces s) ++ Resp.crlf.

Definition buildInfo (s : Server) (section : bytes) : bytes :=
  let all := (length section =? 0)%nat || (section =b? str "all") || (section =b? str "everything") || (section =b? str "default") in
  let want name text := if all || (section =b? str name) then text else [] in
  want "server"%string (info_server s) ++ want "clients"%string (info_clients s) ++ want "stats"%string (info_stats (stats_ s)) ++
  want "replication"%string (info_replication s) ++ want "persistence"%string (info_persistence s) ++ want "keyspace"%string (info_keyspace s).

Definition info : handler_type := fun s c argv =>
  answer s c (Reply.verbatim (protocolVersion c) (buildInfo s (default [] (toLower <$> argv !! 1%nat))) (str "txt")).

Definition command_entry (spec : CommandSpec) : bytes :=
  Reply.arrayHeader 6 ++ Reply.bulk (name spec) ++ Reply.integer (arity spec) ++ Reply.arrayHeader 1 ++
  Reply.simpleString (if Z.land (flags spec) kWrite =? 0 then str "readonly" else str "write") ++
  Reply.integer (first_key spec) ++ Reply.integer (last_key spec) ++ Reply.integer (key_step spec).

Definition command : handler_type := fun s c argv =>
  match tail argv with
  | [] => answer s c (Reply.arrayHeader (Z.of_nat (length table)) ++ concat (map command_entry table))
  | word :: names =>
      let sub := toUpper word in
      if sub =b? str "COUNT" then answer s c (Reply.integer (Z.of_nat (length table)))
      else if sub =b? str "DOCS" then answer s c (Reply.mapHeader (protocolVersion c) 0)
      else if sub =b? str "INFO" then
        answer s c (Reply.arrayHeader (Z.of_nat (length names)) ++
          concat (map (fun n => match lookupCommand n with Some spec => command_entry spec | None => Reply.nullArray (protocolVersion c) end) names))
      else answer s c (error (str "ERR Unknown COMMAND subcommand or wrong number of arguments for '" ++ word ++ str "'"))
  end.

Definition time : handler_type := fun s c argv =>
  answer s c (Reply.arrayHeader 2 ++ Reply.bulk (to_string (fst (time_of_day s))) ++ Reply.bulk (to_string (snd (time_of_day s)))).

Definition lastsave : handler_type := fun s c argv => answer s c (Reply.integer (last_save_time s)).

Definition shutdown : handler_type := fun s c argv =>
  let option_is w := match argv !! 1%nat with Some a => equalsIgnoreCase a (str w) | None => false end in
  if option_is "ABORT"%string then answer s c (error (str "ERR No shutdown in progress"))
  else if option_is "SAVE"%string then
    match save_time s with
    | Some time => answer (stop (saved s time)) c []
    | None => answer s c (error (str "ERR Errors trying to SHUTDOWN. Check logs."))
    end
  else answer (stop s) c [].

Definition handlers : list (string * handler_type) :=
  [("ping", ping); ("echo", echo); ("select", select); ("hello", hello); ("auth", auth); ("client", client);
   ("info", info); ("config", config); ("command", command); ("time", time); ("lastsave", lastsave); ("shutdown", shutdown)]%string.

Definition handler_of (n : bytes) : option handler_type := snd <$> List.find (fun h => str (fst h) =b? n) handlers.

(** ** Authentication *)

(** The password occurs in the request, which is AUTH or HELLO. *)
Definition presents (pw : bytes) (argv : list bytes) : Prop :=
  match argv with
  | word :: args => (toLower word = str "auth" \/ toLower word = str "hello") /\ pw ∈ args
  | [] => False
  end.

Lemma hello_options_auth s options c : requirepass (config_ s) <> [] ->
  authenticated (fst (hello_options s options c)) = true -> authenticated c = true \/ requirepass (config_ s) ∈ options.
Proof.
  intros Hpw. assert (no_password s = false) as Hn by (unfold no_password; by destruct (requirepass (config_ s))).
  remember (length options) as n eqn:Hl. revert options Hl c. induction n as [n IH] using lt_wf_ind. intros [|o [|a more]] Hl c; cbn [hello_options]; [by left|by left|].
  assert (forall c', authenticated c' = authenticated c -> authenticated (fst (hello_options s more c')) = true -> authenticated c = true \/ requirepass (config_ s) ∈ o :: a :: more) as Hstep.
  { intros c' Hc H. destruct (IH (length more) ltac:(cbn in Hl; lia) more eq_refl c' H) as [E|E]; [left; congruence|right; set_solver]. }
  destruct more as [|password more'].
  - destruct (equalsIgnoreCase o (str "SETNAME")); [by apply Hstep|by left].
  - destruct (equalsIgnoreCase o (str "AUTH")).
    + rewrite Hn. cbn [orb]. case_bool_decide as E; [intros _; right; subst; set_solver|by left].
    + destruct (equalsIgnoreCase o (str "SETNAME")); [by apply Hstep|by left].
Qed.

Lemma hello_auth s c argv s' c' reply : requirepass (config_ s) <> [] -> hello s c argv = Some (s', c', reply) -> authenticated c' = true -> authenticated c = true \/ requirepass (config_ s) ∈ tail argv.
Proof.
  intros Hpw. assert (forall c v, hello_as s c v = Some (s', c', reply) -> authenticated c' = authenticated c) as Has.
  { intros c0 v. unfold hello_as. destruct (_ && _); intros H; apply (inj Some) in H; by simplify_eq. }
  unfold hello. destruct (tail argv) as [|v options]; [intros H; rewrite (Has _ _ H); by left|].
  assert (forall t, answer s c t = Some (s', c', reply) -> authenticated c' = true -> authenticated c = true \/ requirepass (config_ s) ∈ v :: options) as Hsame by (intros t H; apply (inj Some) in H; simplify_eq; by left).
  destruct (stringToInt64 v) as [version|]; [|apply Hsame]. destruct (_ || _); [|apply Hsame]. pose proof (hello_options_auth s options c Hpw) as Ho. destruct (hello_options s options c) as [c1 failed]. cbn [fst] in Ho.
  intros H Ha. assert (authenticated c' = authenticated c1) as E. { destruct failed as [r|]; [apply (inj Some) in H; by simplify_eq|by eapply Has]. }
  rewrite E in Ha. destruct (Ho Ha) as [E1|E1]; [by left|right]. apply list_elem_of_further, E1.
Qed.

Lemma auth_auth s c argv s' c' reply : requirepass (config_ s) <> [] -> (2 <= length argv)%nat -> auth s c argv = Some (s', c', reply) -> authenticated c' = true -> authenticated c = true \/ requirepass (config_ s) ∈ tail argv.
Proof.
  intros Hpw Hlen. unfold auth. destruct (_ <? _); [intros H; apply (inj Some) in H; simplify_eq; by left|]. destruct (no_password s); [intros H; apply (inj Some) in H; simplify_eq; by left|].
  destruct (last argv) as [pw|] eqn:Hl; cbn [mbind option_bind]; [|done]. case_bool_decide as E; intros H; apply (inj Some) in H; simplify_eq; [|by left].
  intros _. right. apply last_Some in Hl as [l ->]. destruct l as [|x l]; [cbn in Hlen; lia|]. cbn [app tail]. apply list_elem_of_In, in_or_app. right. by left.
Qed.

(** The other handlers leave the flag alone. *)
Definition keeps_flag (h : handler_type) : Prop := forall s c argv s' c' reply, h s c argv = Some (s', c', reply) -> authenticated c' = authenticated c.

Ltac each_answer :=
  repeat match goal with
  | |- (if ?b then _ else _) = Some _ -> _ => destruct b
  | |- (match ?x with _ => _ end) = Some _ -> _ => destruct x
  | |- (?x ≫= _) = Some _ -> _ => destruct x; cbn [mbind option_bind]; try (intros H; discriminate H)
  | |- (let '(_, _) := ?x in _) = Some _ -> _ => destruct x
  end; intros H; try discriminate H; apply (inj Some) in H; by simplify_eq.

Lemma ping_keeps : keeps_flag ping. Proof. intros s c argv s' c' reply. unfold ping, answer. each_answer. Qed.
Lemma echo_keeps : keeps_flag echo. Proof. intros s c argv s' c' reply. unfold echo, answer. each_answer. Qed.
Lemma select_keeps : keeps_flag select. Proof. intros s c argv s' c' reply. unfold select, answer. each_answer. Qed.
Lemma client_keeps : keeps_flag client. Proof. intros s c argv s' c' reply. unfold client, answer. each_answer. Qed.
Lemma info_keeps : keeps_flag info. Proof. intros s c argv s' c' reply. unfold info, answer. each_answer. Qed.
Lemma config_keeps : keeps_flag config. Proof. intros s c argv s' c' reply. unfold config, answer. each_answer. Qed.
Lemma command_keeps : keeps_flag command. Proof. intros s c argv s' c' reply. unfold command, answer. each_answer. Qed.
Lemma time_keeps : keeps_flag time. Proof. intros s c argv s' c' reply. unfold time, answer. each_answer. Qed.
Lemma lastsave_keeps : keeps_flag lastsave. Proof. intros s c argv s' c' reply. unfold lastsave, answer. each_answer. Qed.
Lemma shutdown_keeps : keeps_flag shutdown. Proof. intros s c argv s' c' reply. unfold shutdown, answer. each_answer. Qed.

(** A handler that raises the flag was given the password. *)
Lemma handler_flag n h s c argv s' c' reply : handler_of n = Some h -> requirepass (config_ s) <> [] -> (n = str "auth" -> (2 <= length argv)%nat) -> h s c argv = Some (s', c', reply) -> authenticated c' = true ->
  authenticated c = true \/ ((n = str "auth" \/ n = str "hello") /\ requirepass (config_ s) ∈ tail argv).
Proof.
  intros Hn Hpw Hlen Hh Ha. unfold handler_of in Hn. destruct (List.find _ handlers) as [[w h']|] eqn:Hf; [|done]. cbn in Hn. injection Hn as ->. apply find_some in Hf as [Hin Hw]. apply bool_decide_eq_true in Hw. cbn [fst] in Hw.
  assert (forall (k : keeps_flag h), authenticated c = true \/ ((n = str "auth" \/ n = str "hello") /\ requirepass (config_ s) ∈ tail argv)) as Hkeep by (intros k; left; by rewrite <- (k _ _ _ _ _ _ Hh)).
  repeat (destruct Hin as [E|Hin]; [injection E as <- <-|]); try done;
    first [by apply Hkeep, ping_keeps | by apply Hkeep, echo_keeps | by apply Hkeep, select_keeps | by apply Hkeep, client_keeps | by apply Hkeep, info_keeps | by apply Hkeep, config_keeps
          | by apply Hkeep, command_keeps | by apply Hkeep, time_keeps | by apply Hkeep, lastsave_keeps | by apply Hkeep, shutdown_keeps | idtac].
  - destruct (hello_auth _ _ _ _ _ _ Hpw Hh Ha) as [?|?]; [by left|right]. split; [by right|done].
  - destruct (auth_auth _ _ _ _ _ _ Hpw (Hlen (eq_sym Hw)) Hh Ha) as [?|E]; [by left|right]. split; [by left|done].
Qed.

Section Gate.
Context {D : Type} (handler : bytes -> Z -> D -> session -> list bytes -> outcome (D := D)) (expireAtMs : D -> Z -> bytes -> Z) (password_of : D -> bytes).

(** A server whose ordinary commands are the handlers of this file, and
    others that do not touch the flag; [password_of] reads its password. *)
Definition implements : Prop := forall n now d x argv,
  match handler_of n with
  | Some h => exists s c, session_of c = x /\ requirepass (config_ s) = password_of d /\
      o_session (handler n now d x argv) = match h s c argv with Some (_, c', _) => session_of c' | None => x end
  | None => authenticated_ (o_session (handler n now d x argv)) = authenticated_ x
  end.

(** [!config_.requirepass.empty()] *)
Definition has_password (d : D) : bool := negb (length (password_of d) =? 0)%nat.

Lemma signals_sessions sgs (s : server (D := D)) fd : session_ <$> clients_ (signals sgs s) !! fd = session_ <$> clients_ s !! fd.
Proof.
  unfold signals. revert s. induction sgs as [|[[db key] fe] sgs IH]; intros s; cbn [foldl]; [done|]. rewrite IH. destruct (signal_effect handler s db key fe) as (_ & _ & ->). case_decide; [|done].
  destruct (clients_ s !! fd) as [c|]; [|done]. cbn. unfold touch. by destruct (_ && _).
Qed.

(** A fact about every entry of the table. *)
Lemma table_fact (P : CommandSpec -> bool) word spec : forallb P table = true -> lookupCommand word = Some spec -> P spec = true /\ name spec = toLower word.
Proof.
  intros HP Hl. apply find_some in Hl as [Hin Hn]. rewrite forallb_forall in HP. split; [by apply HP|]. by apply bool_decide_eq_true in Hn.
Qed.

Lemma auth_needs_argument word spec (argv : list bytes) : lookupCommand word = Some spec -> arityOk spec (length argv) = true -> name spec = str "auth" -> Z.of_nat (length argv) < 2 ^ 31 -> (2 <= length argv)%nat.
Proof.
  intros Hl Ha Hn Hb. assert (forallb (fun sp => negb (name sp =b? str "auth") || (arity sp =? -2)) table = true) as HP by (vm_compute; reflexivity).
  destruct (table_fact _ _ _ HP Hl) as [Hs _]. cbv beta in Hs. rewrite Hn in Hs. rewrite bool_decide_eq_true_2 in Hs by done. cbn [negb orb] in Hs. apply Z.eqb_eq in Hs. unfold arityOk in Ha. rewrite Hs in Ha.
  rewrite swrap_small in Ha by (unfold s_range; lia). cbn in Ha. apply Z.leb_le in Ha. lia.
Qed.

(** EXEC and the other commands that run or steer a transaction need the flag. *)
Lemma exec_gated word spec : lookupCommand word = Some spec -> (Z.land (flags spec) kNoAuth =? 0) = false -> name spec <> str "exec".
Proof.
  intros Hl Hf Hn. assert (forallb (fun sp => negb (name sp =b? str "exec") || (Z.land (flags sp) kNoAuth =? 0)) table = true) as HP by (vm_compute; reflexivity).
  destruct (table_fact _ _ _ HP Hl) as [Hs _]. cbv beta in Hs. rewrite Hn in Hs. rewrite bool_decide_eq_true_2 in Hs by done. cbn [negb orb] in Hs. congruence.
Qed.

(** Sessions that a step leaves alone. *)
Definition same_session (fd : Z) (s s' : server (D := D)) : Prop := session_ <$> clients_ s' !! fd = session_ <$> clients_ s !! fd.

Lemma update_session (f : Transaction.client -> Transaction.client) fd (s : server (D := D)) : (forall c, session_ (f c) = session_ c) -> same_session fd s (update f fd s).
Proof. intros Hf. unfold same_session, update. cbn [clients_]. rewrite lookup_alter_eq. destruct (clients_ s !! fd); cbn; [by rewrite Hf|done]. Qed.

Lemma unwatch_session fd (s : server (D := D)) : same_session fd s (unwatchAllKeys fd s).
Proof. unfold same_session, unwatchAllKeys. destruct (clients_ s !! fd) eqn:E; [|by rewrite E]. cbn [clients_]. by rewrite lookup_insert_eq. Qed.

Lemma discard_session fd (s : server (D := D)) : same_session fd s (discardTransaction fd s).
Proof. unfold discardTransaction, same_session. rewrite (unwatch_session fd). by apply update_session. Qed.

Lemma watch_session now fd keys (s : server (D := D)) : same_session fd s (foldl (fun s key => watchKey expireAtMs now fd key s) s keys).
Proof.
  revert s. induction keys as [|k keys IH]; intros s; cbn [foldl]; [done|]. unfold same_session in *. rewrite IH. unfold watchKey. destruct (clients_ s !! fd) as [c|] eqn:E; [|by rewrite E].
  destruct (existsb _ _); [by rewrite E|]. cbn [clients_]. by rewrite lookup_insert_eq.
Qed.

Lemma reject_session fd c spec code t (s : server (D := D)) : same_session fd s (fst (reject fd c spec code t s)).
Proof.
  unfold reject. assert (same_session fd s (if in_multi_ c then update flagMultiError fd s else s)) as H by (destruct (in_multi_ c); [by apply update_session|done]).
  destruct (match spec with Some sp => name sp =b? str "exec" | None => false end); cbn [fst]; [|done]. unfold same_session in *. by rewrite (discard_session fd).
Qed.

Lemma quiet_inv (x : server (D := D) * bytes) s' reply sgs : Some (quietly x) = Some (s', reply, sgs) -> x = (s', reply) /\ sgs = [].
Proof. unfold quietly. intros H. apply (inj Some) in H. by simplify_eq. Qed.

(** What a command that is let through can do to the flag of its client. *)
Lemma called_flag pw now fd c word spec argv (s s' : server (D := D)) reply sgs :
  implements -> password_of (data s) = pw -> pw <> [] -> clients_ s !! fd = Some c -> authenticated_ (session_ c) = false -> Z.of_nat (length argv) < 2 ^ 31 ->
  hd_error argv = Some word -> lookupCommand word = Some spec -> arityOk spec (length argv) = true -> name spec <> str "exec" ->
  callCommand handler expireAtMs has_password now fd c spec argv s = Some (s', reply, sgs) ->
  exists c', clients_ s' !! fd = Some c' /\ (authenticated_ (session_ c') = true -> presents pw argv).
Proof.
  intros Himp Hof Hpw Hc Hauth Hlen Hhd Hl Har Hex. assert (has_password (data s) = true) as Hhas by (unfold has_password; rewrite Hof; by destruct pw).
  assert (forall s1 : server (D := D), same_session fd s s1 -> exists c', clients_ s1 !! fd = Some c' /\ (authenticated_ (session_ c') = true -> presents pw argv)) as Hsame.
  { intros s1 H. unfold same_session in H. rewrite Hc in H. destruct (clients_ s1 !! fd) as [c1|]; [|done]. cbn in H. injection H as H. exists c1. split; [done|]. rewrite H. congruence. }
  unfold callCommand. cbv zeta. destruct (name spec =b? str "multi") eqn:E1.
  { intros [H _]%quiet_inv. apply Hsame. unfold multi in H. destruct (in_multi_ c); apply pair_equal_spec in H as [<- _]; [done|by apply update_session]. }
  rewrite (bool_decide_eq_false_2 (name spec = str "exec")) by done. destruct (name spec =b? str "discard").
  { intros [H _]%quiet_inv. apply Hsame. unfold discard in H. destruct (negb _); apply pair_equal_spec in H as [<- _]; [done|apply discard_session]. }
  destruct (name spec =b? str "watch").
  { intros [H _]%quiet_inv. apply Hsame. unfold watch in H. destruct (in_multi_ c); apply pair_equal_spec in H as [<- _]; [done|apply watch_session]. }
  destruct (name spec =b? str "quit"); [intros [[<- _]%pair_equal_spec _]%quiet_inv; by apply Hsame|]. destruct (name spec =b? str "reset").
  { intros [H _]%quiet_inv. unfold Transaction.reset in H. apply pair_equal_spec in H as [<- _]. unfold update. cbn [clients_]. rewrite lookup_alter_eq. pose proof (discard_session fd s) as Hd. unfold same_session in Hd. rewrite Hc in Hd.
    destruct (discardTransaction_self fd c s Hc) as [Hdata _]. rewrite Hdata, Hhas.
    destruct (clients_ (discardTransaction fd s) !! fd) as [c1|]; [|done]. cbn. eexists. split; [done|]. done. }
  unfold callOrdinary. rewrite Hc. destruct (name spec =b? str "unwatch").
  { intros [[<- _]%pair_equal_spec _]%quiet_inv. apply Hsame. unfold same_session. rewrite update_session by done. apply unwatch_session. }
  intros H. apply (inj Some), pair_equal_spec in H as [[<- _]%pair_equal_spec _]. set (o := handler _ _ _ _ _) in *. pose proof (signals_sessions (o_signals o) (mkServer (o_data o) (<[fd:=set_session (o_session o) c]> (clients_ s)) (watch_index s)) fd) as Hsg.
  cbn [clients_] in Hsg. rewrite lookup_insert_eq in Hsg. cbn in Hsg. destruct (clients_ (signals _ _) !! fd) as [c1|]; [|done]. cbn in Hsg. injection Hsg as Hsg. exists c1. split; [done|]. rewrite Hsg. intros Ha.
  specialize (Himp (name spec) now (data s) (session_ c) argv). fold o in Himp. destruct (handler_of (name spec)) as [h|] eqn:Hh; [|congruence]. destruct Himp as (sv & cl & Hcl & Hp & Ho).
  destruct (h sv cl argv) as [[[sv' cl'] r]|] eqn:Hr; [|congruence]. rewrite Ho in Ha. rewrite <- Hp in Hof. subst pw.
  destruct (handler_flag (name spec) h sv cl argv sv' cl' r Hh Hpw ltac:(intros E; by eapply auth_needs_argument) Hr Ha) as [E|[En Ein]]; [unfold authenticated in E; rewrite Hcl in E; congruence|].
  destruct argv as [|w0 args]; [done|]. cbn in Hhd. injection Hhd as ->. split; [|done]. destruct (table_fact (fun _ => true) word spec ltac:(vm_compute; reflexivity) Hl) as [_ <-]. done.
Qed.

Lemma reject_data fd c spec code t (s : server (D := D)) : data (fst (reject fd c spec code t s)) = data s.
Proof.
  unfold reject. destruct (match spec with Some sp => name sp =b? str "exec" | None => false end); cbn [fst]; unfold discardTransaction, unwatchAllKeys; destruct (in_multi_ c); cbn [update clients_ data];
    try (destruct (alter _ _ _ !! fd)); done.
Qed.

(** A request that dispatch refuses. *)
Lemma rejected_flag pw fd c spec code t argv (s s' : server (D := D)) reply sgs : clients_ s !! fd = Some c -> authenticated_ (session_ c) = false ->
  Some (quietly (reject fd c spec code t s)) = Some (s', reply, sgs) ->
  (exists c', clients_ s' !! fd = Some c' /\ (authenticated_ (session_ c') = true -> presents pw argv)) /\ data s' = data s /\ sgs = [] /\
  (match spec with Some sp => name sp <> str "exec" | None => True end -> reply = Reply.error (code ++ str " " ++ t)).
Proof.
  intros Hc Ha [H ->]%quiet_inv. pose proof (reject_session fd c spec code t s) as Hs. pose proof (reject_data fd c spec code t s) as Hd. unfold same_session in Hs. rewrite Hc in Hs.
  split; [|split; [by rewrite H in Hd|split; [done|]]].
  - rewrite H in Hs. cbn [fst] in Hs. destruct (clients_ s' !! fd) as [c1|]; [|done]. cbn in Hs. injection Hs as Hs. exists c1. split; [done|]. rewrite Hs. congruence.
  - intros Hx. unfold reject in H. destruct spec as [sp|]; [rewrite bool_decide_eq_false_2 in H by done|]; by apply pair_equal_spec in H as [_ <-].
Qed.

(** C10: The gate. On a server with a password, whatever a client that has not
    authenticated sends, inside a transaction or outside: a command that is not
    open to everyone is refused, leaves the data alone and announces nothing;
    and the client is authenticated afterwards only if that very request was an
    AUTH or a HELLO and carried the password. *)
Theorem password_needed (pw : bytes) (now fd : Z) (c : Transaction.client) (argv : list bytes) (s s' : server (D := D)) (reply : bytes) (sgs : list signal) :
  implements -> password_of (data s) = pw -> pw <> [] -> clients_ s !! fd = Some c -> authenticated_ (session_ c) = false -> Z.of_nat (length argv) < 2 ^ 31 ->
  dispatch handler expireAtMs has_password now fd argv s = Some (s', reply, sgs) ->
  (exists c', clients_ s' !! fd = Some c' /\ (authenticated_ (session_ c') = true -> presents pw argv)) /\
  (forall word args spec, argv = word :: args -> lookupCommand word = Some spec -> Z.land (flags spec) kNoAuth = 0 ->
     data s' = data s /\ sgs = [] /\ (arityOk spec (length argv) = true -> name spec <> str "exec" -> reply = Reply.error (str "NOAUTH Authentication required."))).
Proof.
  intros Himp Hof Hpw Hc Ha Hlen. assert (has_password (data s) = true) as Hhas by (unfold has_password; rewrite Hof; by destruct pw). unfold dispatch. rewrite Hc. destruct argv as [|word args].
  { intros [[<- _]%pair_equal_spec _]%quiet_inv. split; [exists c; split; [done|congruence]|done]. }
  destruct (lookupCommand word) as [spec|] eqn:Hl.
  2:{ intros H. destruct (rejected_flag pw fd c None _ _ (word :: args) s s' reply sgs Hc Ha H) as (H1 & H2). split; [done|]. intros w a sp [= <- <-]. congruence. }
  destruct (arityOk spec (length (word :: args))) eqn:Har; cbn [negb].
  2:{ intros H. destruct (rejected_flag pw fd c (Some spec) _ _ (word :: args) s s' reply sgs Hc Ha H) as (H1 & H2 & H3 & _). split; [done|]. intros w a sp [= <- <-] Hsp _. rewrite Hl in Hsp. injection Hsp as <-. split_and!; [done|done|congruence]. }
  rewrite Ha, Hhas. cbn [negb andb]. destruct (Z.land (flags spec) kNoAuth =? 0) eqn:Hf.
  { intros H. destruct (rejected_flag pw fd c (Some spec) _ _ (word :: args) s s' reply sgs Hc Ha H) as (H1 & H2 & H3 & H4). split; [done|]. intros w a sp [= <- <-] Hsp _. rewrite Hl in Hsp. injection Hsp as <-. split_and!; [done|done|].
    intros _ Hx. by apply H4. }
  assert (forall w a sp, word :: args = w :: a -> lookupCommand w = Some sp -> Z.land (flags sp) kNoAuth = 0 -> False) as Hopen.
  { intros w a sp [= <- <-] Hsp E. rewrite Hl in Hsp. injection Hsp as <-. rewrite E in Hf. done. }
  intros H. split; [|intros w a sp E1 E2 E3; destruct (Hopen w a sp E1 E2 E3)]. clear Hopen. destruct (_ && negb _).
  { by destruct (rejected_flag pw fd c (Some spec) _ _ (word :: args) s s' reply sgs Hc Ha H) as (H1 & _). }
  unfold run_or_queue in H. destruct (_ && _).
  - apply quiet_inv in H as [[<- _]%pair_equal_spec _]. unfold update. cbn [clients_]. rewrite lookup_alter_eq, Hc. cbn. eexists. split; [done|]. cbn. congruence.
  - eapply (called_flag pw now fd c word spec (word :: args)); try done. by eapply exec_gated.
Qed.
End Gate.

(** The handlers of this file as the commands of a server. *)
Definition serve (n : bytes) (now : Z) (s : Server) (x : session) (argv : list bytes) : outcome (D := Server) :=
  match handler_of n with
  | Some h =>
      match h s (mkClient_ x 1 (str "127.0.0.1:50000") [] 0 0 n false) argv with
      | Some (s', c', reply) => mkOutcome s' (session_of c') [] reply
      | None => mkOutcome s x [] []
      end
  | None => mkOutcome s x [] []
  end.

Lemma serve_implements : implements serve (fun s => requirepass (config_ s)).
Proof.
  intros n now s x argv. unfold serve. destruct (handler_of n) as [h|]; [|done]. exists s, (mkClient_ x 1 (str "127.0.0.1:50000") [] 0 0 n false).
  split_and!; [done|done|]. by destruct (h _ _ argv) as [[[s' c'] reply]|].
Qed.

Definition guarded : Server :=
  mkServer_ (mkConfig (str "127.0.0.1") 6379 16 10000 (str "secret") (str ".") (str "dump.rdb") 0) no_stats 0 0 [] 1 [] (0, 0) [] (replicate 16 (0, 0)) 0 false 0 true 0 (Some 0) false.
Definition stranger : Transaction.client := mkClient (mkSession 0 2 false false) false false false [] [].
Definition guarded_server : server (D := Server) := mkServer guarded {[7 := stranger]} ∅.
Definition asks (argv : list bytes) := dispatch serve (fun _ _ _ => -1) (has_password (fun s => requirepass (config_ s))) 0 7 argv guarded_server.

(** Another password, and a command that needs one. *)
Lemma password_needed_witness :
  (exists s' sgs, asks [str "AUTH"; str "guess"] = Some (s', wrongpass, sgs) /\
     exists c', clients_ s' !! 7 = Some c' /\ (authenticated_ (session_ c') = true -> presents (str "secret") [str "AUTH"; str "guess"])) /\
  (exists s' reply sgs, asks [str "CONFIG"; str "SET"; str "requirepass"; str "x"] = Some (s', reply, sgs) /\ data s' = guarded).
Proof.
  split.
  - eexists _, _. split; [vm_compute; reflexivity|].
    refine (proj1 (password_needed serve (fun _ _ _ => -1) (fun s => requirepass (config_ s)) (str "secret") 0 7 stranger [str "AUTH"; str "guess"] guarded_server _ wrongpass [] serve_implements _ _ _ _ _ _));
      vm_compute; first [reflexivity | discriminate].
  - eexists _, _, _. split; [vm_compute; reflexivity|].
    refine (proj1 (proj2 (password_needed serve (fun _ _ _ => -1) (fun s => requirepass (config_ s)) (str "secret") 0 7 stranger [str "CONFIG"; str "SET"; str "requirepass"; str "x"] guarded_server _ _ [] serve_implements _ _ _ _ _ _) (str "CONFIG") _ _ _ _ _));
      vm_compute; first [reflexivity | discriminate].
Defined.

End Admin.
