(* ===== verification/PubSubCommands.v ===== *)
(** * PubSubCommands: publishing, and the PUBSUB reports

    The rest of [src/server/commands/pubsub_commands.cpp]: PUBLISH, SPUBLISH
    and PUBSUB with its subcommands, over the registry of [PubSub]. The theorems
    say what the reports tell about the connected clients when the registry
    and the clients agree. *)

From Stdlib Require Import ZArith Lia.
From stdpp Require Import base list numbers option strings gmap.
From S2P Require Import Prelude Strings Reply PubSub CommandTable.
Import PubSub.

Module PubSubCommands.

Section Reports.
(** The order in which an [unordered_map] lists its keys, and the sign of
    [char]. *)
Context (layout : gmap bytes (gset Z) -> list bytes) (char_signed : bool).

Definition channelNames (kind : SubKind) (r : registry) : list bytes := layout (mapFor kind r).

Definition channelSubscriberCount (kind : SubKind) (channel : bytes) (r : registry) : nat :=
  match subscribers kind channel r with Some s => size s | None => 0 end.

Definition patternCount (r : registry) : nat := size (patterns_ r).

Definition selects (pattern : option bytes) (name : bytes) : bool :=
  match pattern with
  | Some p => bool_decide (Glob.globMatch char_signed false p name = Some true)
  | None => true
  end.

Definition listed (kind : SubKind) (pattern : option bytes) (r : registry) : list bytes :=
  List.filter (selects pattern) (channelNames kind r).

(** [None]: too many arguments. *)
Definition listChannels (kind : SubKind) (argv : list bytes) (r : registry) : option bytes :=
  if (3 <? length argv)%nat then None else Some (Reply.bulkArray (listed kind (argv !! 2%nat) r)).

Definition numSub (kind : SubKind) (argv : list bytes) (r : registry) : bytes :=
  Reply.arrayHeader (i64 (u64 ((Z.of_nat (length argv) - 2) * 2))) ++
  concat (map (fun name => Reply.bulk name ++ Reply.integer (i64 (Z.of_nat (channelSubscriberCount kind name r)))) (drop 2 argv)).

Definition unknownSubcommand (container sub : bytes) : bytes :=
  Reply.error (str "ERR unknown subcommand '" ++ sub ++ str "'. Try " ++ container ++ str " HELP.").

Definition subcommandSyntaxError (container sub : bytes) : bytes :=
  Reply.error (str "ERR unknown subcommand or wrong number of arguments for '" ++ sub ++ str "'. Try " ++ container ++ str " HELP.").

(** [None]: no subcommand, which the arity check of dispatch excludes. *)
Definition pubsub (argv : list bytes) (r : registry) : option bytes :=
  name ← argv !! 1%nat;
  let sub := toLower name in
  if (sub =b? str "channels") || (sub =b? str "shardchannels") then
    Some (default (subcommandSyntaxError (str "PUBSUB") name)
            (listChannels (if sub =b? str "shardchannels" then Shard else Channel) argv r))
  else if (sub =b? str "numsub") || (sub =b? str "shardnumsub") then
    Some (numSub (if sub =b? str "shardnumsub" then Shard else Channel) argv r)
  else if sub =b? str "numpat" then
    if negb (length argv =? 2)%nat then Some (Reply.error (str "ERR " ++ CommandTable.wrongArgsText (str "pubsub|numpat")))
    else Some (Reply.integer (i64 (Z.of_nat (patternCount r))))
  else Some (unknownSubcommand (str "PUBSUB") name).

(** [self] is the connection that publishes. *)
Definition publish (self : Z) (argv : list bytes) (s : server) : option (server * bytes) :=
  channel ← argv !! 1%nat; payload ← argv !! 2%nat;
  let '(n, s) := publishMessage char_signed self channel payload s in Some (s, Reply.integer n).

Definition spublish (self : Z) (argv : list bytes) (s : server) : option (server * bytes) :=
  channel ← argv !! 1%nat; payload ← argv !! 2%nat;
  let '(n, s) := publishShardMessage self channel payload s in Some (s, Reply.integer n).

(** ** What the reports tell *)

(** Who holds a subscription, on the clients' side. *)
Definition holders (kind : SubKind) (name : bytes) (s : server) : gset Z :=
  dom (filter (fun '(_, c) => name ∈ heldBy c kind) (clients_ s)).

Context (layout_lists : forall m, layout m ≡ₚ elements (dom m)).

Lemma members_holders (kind : SubKind) (name : bytes) (s : server) :
  consistent s -> members kind name (pubsub_ s) = holders kind name s.
Proof.
  intros [H _]. apply set_eq. intros fd. rewrite H. unfold holders. rewrite elem_of_dom. split.
  - intros (c & Hc & Hn). exists c. by apply map_lookup_filter_Some.
  - intros [c [Hc Hn]%map_lookup_filter_Some]. by exists c.
Qed.

Lemma in_registry (kind : SubKind) (name : bytes) (s : server) :
  consistent s -> name ∈ dom (mapFor kind (pubsub_ s)) <-> exists fd c, clients_ s !! fd = Some c /\ name ∈ heldBy c kind.
Proof.
  intros [H Hne]. rewrite elem_of_dom. split.
  - intros [m Hm]. destruct (set_choose_or_empty m) as [[fd Hfd]|He].
    + exists fd. apply H. unfold members. by rewrite Hm.
    + apply leibniz_equiv in He as ->. by destruct (Hne kind name).
  - intros (fd & Hh). apply H in Hh. unfold members in Hh. destruct (mapFor kind (pubsub_ s) !! name); [done|]. by apply not_elem_of_empty in Hh.
Qed.

(** PUBSUB CHANNELS lists, each once, the channels some connected client is
    subscribed to and the pattern selects; NUMSUB counts for each channel named
    the connected clients subscribed to it; NUMPAT counts the patterns some
    client is subscribed to. *)
Theorem reports_true (kind : SubKind) (pattern : option bytes) (name : bytes) (s : server) :
  consistent s ->
  (NoDup (listed kind pattern (pubsub_ s)) /\
   (name ∈ listed kind pattern (pubsub_ s) <-> selects pattern name = true /\ exists fd c, clients_ s !! fd = Some c /\ name ∈ heldBy c kind)) /\
  channelSubscriberCount kind name (pubsub_ s) = size (holders kind name s) /\
  exists ps : gset bytes, patternCount (pubsub_ s) = size ps /\ forall p, p ∈ ps <-> exists fd c, clients_ s !! fd = Some c /\ p ∈ patterns c.
Proof.
  intros Hs. split_and!.
  - unfold listed, channelNames. apply NoDup_ListNoDup, List.NoDup_filter, NoDup_ListNoDup. rewrite layout_lists. apply NoDup_elements.
  - unfold listed. rewrite list_elem_of_In, List.filter_In, <- list_elem_of_In. unfold channelNames. rewrite layout_lists, elem_of_elements, in_registry by done. tauto.
  - rewrite <- members_holders by done. unfold channelSubscriberCount, subscribers, members. by destruct (mapFor kind (pubsub_ s) !! name).
  - exists (dom (patterns_ (pubsub_ s))). split; [by rewrite size_dom|]. intros p. apply (in_registry Pattern p s Hs).
Qed.
End Reports.

(** Two subscribers of one channel. *)
Example pubsub_reports :
  let s := (subscribeTo Channel 8 [str "news"] (subscribeTo Channel 7 [str "news"; str "late"]
             (mkServer (mkRegistry ∅ ∅ ∅) {[7 := accepted; 8 := accepted]} [])).1).1 in
  let ask words := pubsub (fun m => (map_to_list m).*1) true (map str words) (pubsub_ s) in
  ask ["PUBSUB"; "CHANNELS"; "n*"]%string = Some (Reply.bulkArray [str "news"]) /\
  ask ["PUBSUB"; "numsub"; "news"; "gone"]%string =
    Some (Reply.arrayHeader 4 ++ Reply.bulk (str "news") ++ Reply.integer 2 ++ Reply.bulk (str "gone") ++ Reply.integer 0) /\
  ask ["PUBSUB"; "NUMPAT"]%string = Some (Reply.integer 0).
Proof. vm_compute. done. Qed.
End PubSubCommands.
